(* ===== verification/_CoqProject ===== *)
-Q . S2P
Prelude.v
RustStr.v
RustSlice.v
Swar.v
Lexer.v
LexerAdv.v
LexerToken.v
LexerTheorems.v
Interval.v
IntervalFacts.v
IntervalTheorems.v
SortedMap.v
SortedMapTheorems.v
Leb128.v
Opaque.v
OpaqueTheorems.v
DiagTemplate.v
DiagParse.v
DiagTheorems.v
SnapshotVec.v
SnapshotFacts.v
Unify.v
UnifyFacts.v
EnaTheorems.v
BitSet.v
BitSetFacts.v
BitSetTheorems.v
Chunked.v
ChunkedFacts.v
ChunkedTheorems.v
BitMatrix.v
BitMatrixTheorems.v
TransRel.v
TransRelFacts.v
TransRelTheorems.v
Datafrog.v
DatafrogFacts.v
DatafrogLeap.v
DatafrogVar.v
SemiNaive.v
DatafrogProgram.v
DatafrogTheorems.v
Polonius.v
PoloniusLoops.v
PoloniusFlow.v
PoloniusVariants.v
PoloniusNaive.v
PoloniusOpt.v
PoloniusOptLoop.v
PoloniusModel.v
PoloniusCompute.v
PoloniusTheorems.v
SourceFile.v
SourceFacts.v
SourceNorm.v
SourceTheorems.v
DependData.v
DependAst.v
Depend.v
DependOrder.v
DependGrow.v
DependMono.v
DependBound.v
DependTotal.v
DependTheorems.v
DependSource.v
SpanEnc.v
SpanFacts.v
SpanTheorems.v
ObligationForest.v
ForestStates.v
ForestProcess.v
ForestEnds.v
ForestTheorems.v
SipHash.v
SipHashTheorems.v
Fingerprint.v
EditDistance.v
EditAlign.v
EditTheorems.v
