(* ===== verification/Prelude.v ===== *)
(** * Verification of the compiler frontend's core libraries

    The repository is the frontend of the Rust compiler packaged as one [no_std] crate
    ([src/src/lib.rs] declares a module per former crate) with a few satellite crates. A source file
    goes through the lexer and the parser to a syntax tree, is expanded and resolved, lowered to HIR,
    type-checked, lowered to MIR and borrow-checked; the results are encoded as metadata. All of these
    passes stand on small libraries with their own data structures and invariants. This development
    models such libraries completely, in the order below, and leaves the passes aside.

    ** Common conventions

    Code is translated by state passing. A computation that can panic (an index out of range, a slice
    off a character boundary, an [unwrap] of [None], an [assert!]) has type [outcome], below; error
    results are values of a sum type. The third constructor of [outcome], [OutOfFuel], is no behaviour
    of the program: recursion that is not structural is on fuel, and each totality theorem shows that
    the fuel the definition passes is enough ([tokenize] passes one unit per character and one
    more since every token is non-empty; the scans pass what is left of the text; the template parser
    ten units per byte; [disjoint] the lengths of both vectors; [union], which calls itself once after
    swapping, two units; the LEB128 loops the length of the buffer; the search for
    a root the number of keys, since ranks grow along redirects and are below it; the bit
    iterator one unit per bit; galloping and joining the lengths of the slices). A Datalog loop takes its
    fuel as an argument: its theorems say that it returns for all fuel from some bound on ([settles]),
    which is twice the number of facts of the least model, plus three.
    The loops of the dependence analysis take the fuel of each loop as an argument too; [enough] computes a
    sufficient amount from the syntax tree: one more than the facts (read places, unknowns, controls, literals of
    each binding) that its states can hold, since every round but the last adds one.
    So do the loops of the obligation forest that call the processor; its bound is in [process_terminates], and the
    other loops of the forest run on the number of nodes or of their dependents.
    Integers are [Z], with wrap-around written out where the code can reach it; offsets into memory are
    [nat]. Code is modelled as in a release build, so [debug_assert!] is not executed; the depth of the
    native stack is not modelled. Code outside the repository is a class of parameters with a second
    class for what is assumed of it: [LexDeps]/[LexDepsOk] (the tables of [unicode_ident] and
    [unicode_properties], the searches of [memchr]), [FileOps]/[FileOk] (the file of [eko]), [Ord]
    (a key type's comparison), [Platform]/[PlatformOk] (the byte order and the width of [usize]),
    [ForestObligation], [ObligationProcessor] and [OutcomeTrait] (a client's obligations), [UnifyKey]/[UnifyKeyOk] and [UnifyValue] (a client's unification keys
    and values), [HashOrder]/[HashOrderOk] (the iteration order of a hash set), a sorting function
    ([sort_unstable_by]). The witnesses instantiate them.

    ** Files

    - [Prelude.v] (this file): [outcome] and its notations, machine integers, [position], [take_while],
      [drop_while], [runs] (total correctness), the tactics [propify], [case_if], [inv_ret].
    - [RustStr.v]: [&str] as a list of scalar values, UTF-8, byte offsets and character boundaries.
    - [RustSlice.v]: the trait [Ord] as a class with its laws, pairs, strictly sorted vectors; [binary_search_by]
      and [partition_point] with their specification, [Vec] edits.
    - Lexer, [src/src/rustc_lexer/mod.rs]. [Swar.v]: the 64-bit masks ([swar_ge], [swar_in],
      [swar_id_continue], [swar_whitespace]) and [ASCII_CLASSES]. [Lexer.v]: [Cursor], the scanning
      routines, [advance_token] with its fast path [ascii_token], [advance_token_general],
      [frontmatter], raw and guarded strings, numbers, [tokenize], [strip_shebang]. [LexerAdv.v]: the
      block scans against the character loops; every routine returns and moves forward.
      [LexerToken.v]: frontmatter, progress, fast path, and raw strings against a declarative
      description. [LexerTheorems.v]: the results.
    - Interval sets, [src/src/rustc_index/interval.rs]. [Interval.v]: [IntervalSet] and
      [SparseIntervalMatrix], all operations. [IntervalFacts.v]: the invariant [wf], the set denoted,
      insertion. [IntervalTheorems.v]: queries, [append], [union], the matrix.
    - Sorted maps, [src/src/rustc_data_structures/sorted_map.rs] and [sorted_map/index_map.rs].
      [SortedMap.v]: [SortedMap] and [SortedIndexMultiMap]. [SortedMapTheorems.v]: the results.
    - Serialization, [src/src/rustc_serialize/]. [Leb128.v]: [leb128.rs] and [int_overflow.rs], with the
      [MemDecoder] they read from. [Opaque.v]: [FileEncoder], [MemEncoder], [MemDecoder] and the
      provided methods of [Encoder] and [Decoder]. [OpaqueTheorems.v]: the interface [EncoderOk] that
      both encoders discharge and the clients are proved against.
    - Diagnostic templates, [src/frontend_diag_template/src/lib.rs]. [DiagTemplate.v]: the tree, the
      parser, [variable_references], the renderer. [DiagParse.v]: the parser is total.
      [DiagTheorems.v]: the results.
    - Unification, [src/src/ena/]. [SnapshotVec.v]: the traits of [undo_log.rs], [VecLog], and the snapshot
      vector of [snapshot_vec.rs]. [SnapshotFacts.v]: the log as a chain of saved vectors. [Unify.v]: the
      unification table of [unify/mod.rs] over it. [UnifyFacts.v]: the forest of redirects, path
      compression, the union of two roots. [EnaTheorems.v]: the table as a step relation.
    - Bit sets, [src/src/rustc_index/bit_set.rs]. [BitSet.v]: [DenseBitSet], [BitIter] and
      [GrowableBitSet]. [BitSetFacts.v]: words, masks, the set denoted, ranges,
      searches, iteration, growing. [BitSetTheorems.v]: the results. [Chunked.v]: [ChunkedBitSet] with
      its iterator, and [MixedBitSet]; [ChunkedFacts.v], [ChunkedTheorems.v]: chunks as
      sets, and the two kinds of sets. [BitMatrix.v]: [BitMatrix] and [SparseBitMatrix];
      [BitMatrixTheorems.v]: rows as sets.
    - Transitive relations, [src/src/rustc_data_structures/transitive_relation.rs]. [TransRel.v]: the
      builder and the frozen relation; [TransRelFacts.v], [TransRelTheorems.v]: the closure against
      paths of base edges, minimal upper bounds, postdominators.
    - The Datalog engine, [src/src/datafrog/]. [Datafrog.v]: [Relation], [Variable], joins, leapers,
      [Iteration]. [DatafrogFacts.v]: searching, sorting, merging, joins.
      [DatafrogLeap.v]: leapers, and the interface [LeapersLaws] that leapjoins are proved against.
      [DatafrogVar.v]: variables as sets of tuples, what each operation adds. [SemiNaive.v]: rules on
      ground facts, their least model [derives], and that a loop that runs [Round]s reaches it.
      [DatafrogProgram.v]: loops over families of variables ([Program]). [DatafrogTheorems.v]: the results.
    - The borrow checker, [src/src/polonius_engine/]. [Polonius.v]: facts, output, initialization and
      liveness. [PoloniusVariants.v]: the location-insensitive and the naive variant. [PoloniusOpt.v]:
      the optimized variant and [Output::compute]. [PoloniusLoops.v], [PoloniusFlow.v],
      [PoloniusNaive.v], [PoloniusOptLoop.v]: each loop as a [Program] with its rules. [PoloniusModel.v]: the
      documented rules, the naive loop against them, and that the optimized rules derive the documented errors.
      [PoloniusCompute.v]: the driver. [PoloniusTheorems.v]: the results.
    - The dependence analysis, [src/src/frontend_facts/depend.rs]. [DependData.v]: the report's types, values,
      states and their joins, loop flows. [DependAst.v]: the part of the syntax tree ([rustc_ast/ast.rs]) that
      the analysis reads. [Depend.v]: [Analyzer], every method, [find_functions], the answers of
      [dependence]. [DependOrder.v]: the order of values and states, joins are least upper bounds.
      [DependGrow.v]: the analyzer only grows and restores its stacks; more fuel changes nothing.
      [DependMono.v]: every method is monotone from one round of a loop to the next. [DependBound.v], [DependTotal.v]: what an analysis can
      ever record is bounded by the tree.
      [DependTheorems.v]: the results. [DependSource.v]: what the analysis quotes from a loaded file.
    - Source files, [src/src/rustc_span/analyze_source_file.rs] and [SourceFile] of [rustc_span/mod.rs].
      [SourceFile.v]: the scan with its vector instructions, normalization, [SourceFile::new], positions, lines,
      columns, stored lines. [SourceFacts.v]: each path of the scan against the tables of a text;
      lines and columns. [SourceNorm.v]: normalization and the positions of the original text.
      [SourceTheorems.v]: the results.
    - Spans, [src/src/rustc_span/span_encoding.rs] and [Span] of [rustc_span/mod.rs]. [SpanEnc.v]: the four
      formats, the interner, the operations. [SpanFacts.v]: what a span stands for ([encodes]).
      [SpanTheorems.v]: the results.

    - The obligation forest, [src/src/rustc_data_structures/obligation_forest/mod.rs]. [ObligationForest.v]: the nodes,
      every method, and the processor as a class. [ForestStates.v]: the graph of dependents, the spreading of errors,
      marking, the search for cycles. [ForestProcess.v]: the removal of nodes, and the invariants. [ForestEnds.v]: what
      is cached as done, [to_errors], termination, cycles, the last round. [ForestTheorems.v]: the forests a client
      can build, and the results.

    - Stable hashing, [src/src/rustc_stable_hash/]. [SipHash.v]: [SipHasher128] with its memory, [StableHasher], and the
      platform as a class. [SipHashTheorems.v]: the algorithm on a whole message, the hasher against it, the interface
      [ExtendedHasherOk] that [StableHasher] is proved against, and the results. [Fingerprint.v]: [Hash64], [Hash128]
      ([src/src/rustc_hashes/]), [Fingerprint] and [Unhasher] ([src/src/rustc_data_structures/fingerprint.rs],
      [unhash.rs]), on top of the hasher and of the encoders.

    - Edit distance, [src/src/rustc_span/edit_distance.rs]. [EditDistance.v]: the table of distances with its early stop,
      the score with substrings, the searches for the best match. [EditAlign.v]: alignments of two words, and the
      table against their least cost. [EditTheorems.v]: the searches, and the results.

    ** What the theorems show

    - Lexer: the tokens partition the text ([tokenize_partition]), the lexer never panics and always
      progresses ([advance_token_progress]); the optimised paths are equivalent to plain ones: the
      byte-indexed dispatch ([advance_token_fast_path]), the eight-byte scans and their masks
      ([block_scans_are_eat_while], [swar_masks_exact]), the [memchr] loops of strings and comments
      ([double_quoted_string_ref], [block_comment_ref_agrees]), whitespace skipping
      ([skip_whitespace_token]); raw strings are recognised exactly ([raw_string_exact]); a shebang is a
      first line ([strip_shebang_first_line]). [frontmatter_long_fence_panics] is the one input on which
      the lexer panics, a frontmatter fence of more than 65535 dashes.
    - Interval sets refine mathematical sets: every operation preserves the invariant, does not panic and
      computes the set operation ([insert_range_spec], [range_queries_spec], [append_is_insert],
      [set_comparisons_spec], [union_spec], [matrix_rows_spec]); [check_invariants_decides] decides the
      invariant; [union_flag_misses_growth]: the flag of [union] can be false when the set grew.
    - Sorted maps obey the laws of finite maps ([sorted_map_laws]), ranges are exact ([range_exact]), the
      bulk insertion is the iterated one ([insert_presorted_is_insert]), construction is right for any
      unstable sort ([from_iter_any_sort]); the multi-map finds the items of a key in insertion order
      ([multimap_by_key]).
    - Serialization: LEB128 round trips at each width within its buffer ([leb128_roundtrip]); whole files
      round trip through the buffered encoder ([file_roundtrip]), which agrees with the memory encoder
      ([encoders_agree]).
    - Templates: parsing returns on every message and reports an offset, and a select has at most one
      default ([parse_total]) though possibly none ([select_without_default_parses]); rendering leaves
      unresolved only what the references list ([render_unresolved]), and flat templates round trip and
      render by substitution ([flat_roundtrip]).
    - Unification: a snapshot vector refines a stack of saved vectors ([snapshot_vec_refines_stack]); the
      table refines a partition with a value per class: finding ([find_spec]), joining two classes
      ([unify_var_var_spec]), assigning a value ([unify_var_value_spec]), and in every reachable state
      rolling back restores the table exactly ([table_snapshots_sound]).
    - Bit sets are mathematical sets: elements and pairs of sets ([dense_set_operations]), ranges and
      searches by words and masks ([dense_range_operations]), iteration, counting and equality
      ([iter_count_equality]), growing ([growable_operations]), chunks ([chunked_mixed_are_sets]); a
      matrix is its rows ([bit_matrix_is_rows], [sparse_matrix_rows]).
    - A transitive relation contains what its edges lead to ([transitive_closure_exact]); its upper bounds
      are minimal ([minimal_upper_bounds_minimal]) and its searches end ([postdom_terminates]), though
      bounds can be dropped ([postdom_drops_bounds]).
    - The Datalog engine: relations are sorted sets ([relation_operations]), a variable's tuples move from
      pending to recent to stable ([variable_life_cycle]), joins and leapjoins are exact ([joins_exact],
      [leapjoin_exact]); an antijoin of two relations is empty ([relation_antijoin_empty]).
    - The borrow checker reports exactly the errors of its documented rules with every algorithm but the
      location-insensitive one ([compute_exact]; subset errors are those between distinct origins, and [Hybrid] finds
      all of them when each placeholder origin has its own loan), which reports more ([location_insensitive_covers]); the
      optimized variant equals the naive one ([optimized_is_naive]); move errors and live origins are
      exact ([initialization_exact], [live_origins_exact]); everything returns ([compute_returns]).
    - The dependence analysis terminates on every function ([dependence_returns]) because a round of a loop never
      loses what an earlier one found ([analysis_monotone]); its result for a loop covers every number of iterations
      ([loops_cover_iterations]) and scopes are restored ([expression_preserves]). The report loses nothing that
      was recorded ([report_exits]), names places of the function only ([report_occurrences]) and agrees with
      itself on assignments ([report_assignments]); a report is of the one function of the name
      ([function_choice]), and an error has a message ([errors_have_messages]). What it quotes is the text of the
      file on disk at the place of the span ([quoted_text_exact]).
    - Source files: the scan finds the lines and the multi-byte characters on every target ([scan_exact]); loading
      removes the byte order mark and the carriage returns of line endings and nothing else, or refuses a text that is
      too long ([loading_exact]); positions of the two texts correspond ([positions_roundtrip]); lines and columns are
      those of a walk over the text ([file_position_exact], [display_column_exact], [lines_exact]); stored lines come
      back ([stored_lines_roundtrip]).
    - Spans: each format gives back its data within its field widths ([span_roundtrip]), the encoding is canonical
      ([span_canonical]), and the shortcuts on the formats agree with decoding and encoding again
      ([span_readers_agree], [span_writers_agree]); joining and cutting spans ([span_to_smallest], [span_pieces],
      [split_at_bytes]), with the exception that joining is not symmetric ([span_to_not_symmetric]).
    - The obligation forest: every forest a client can build is well formed and nothing panics
      ([forest_reachable_safe]); errors and waiting spread exactly along dependents ([error_at_exact],
      [mark_successes_exact]); what is cached as done was expanded into what is done ([done_cache_supported]); the loop
      ends when the keys are finitely many ([process_terminates]) and ends with a pass in which nothing
      changed ([process_ends_stuck]); the rest can be turned into errors ([to_errors_empties]); the cycles reported are cycles
      ([backedges_are_cycles]). The example [forest_documented_runs] has three runs that differ from the documentation.
    - Hashing: [SipHasher128] computes SipHash-1-3 of the bytes it is given, in whatever pieces, without leaving its
      memory or reading what is not initialized ([sip_hasher_is_siphash]); [StableHasher] gives the same hash on every
      platform ([stable_hash_portable]) and its short form of [isize] values loses nothing
      ([isize_stream_injective]); fingerprints survive being stored and are the same elsewhere
      ([fingerprint_portable]) and can be combined in any order ([combine_any_order]).
    - Edit distance: the limited distance is the least cost of an alignment, or none when that is over the limit
      ([edit_distance_exact]); the search in one pass finds what sorting the candidates first would
      ([best_match_as_if_sorted]).

    ** Not modelled

    The passes themselves ([rustc_parse], [rustc_resolve], [rustc_hir_typeck], [rustc_borrowck], ...)
    are left out: they are interleaved with queries, interners and diagnostics. Of the serialization
    library the [Encodable]/[Decodable] implementations for collections are not modelled, of the borrow
    checker the names of its algorithms, of the dependence analysis the set-up of the parser and the
    decoder of literals (an argument of which nothing is assumed). Self-contained libraries that are left out for
    their size are the effect analysis of [frontend_facts], the graph algorithms of [rustc_data_structures], the layouts
    of [rustc_abi], [punycode_no_std], [odht], [rustc_parse_format]. *)
From Stdlib Require Import ZArith Lia.
From stdpp Require Import base list.

Open Scope Z_scope.

(** ** Outcomes of Rust code

    [Ret] is a normal return.  [Panic] is a Rust panic: a slice index out of
    range or off a character boundary, an [unwrap] of [None], a failed
    [assert!].  [OutOfFuel] is not a behaviour of the program: a loop whose
    recursion is not structural is given fuel, and the totality theorems show
    that the fuel the definitions pass is always enough. *)

Inductive outcome (A : Type) : Type :=
| Ret (a : A)
| Panic
| OutOfFuel.
Arguments Ret {A} a.
Arguments Panic {A}.
Arguments OutOfFuel {A}.

Definition obind {A B} (m : outcome A) (f : A -> outcome B) : outcome B :=
  match m with
  | Ret a => f a
  | Panic => Panic
  | OutOfFuel => OutOfFuel
  end.

(** [Option::unwrap] and [Option::expect], and checked indexing. *)
Definition unwrap {A} (o : option A) : outcome A :=
  match o with Some a => Ret a | None => Panic end.

(** [assert!(b)]. *)
Definition assert_that (b : bool) : outcome unit := if b then Ret tt else Panic.

Declare Scope rust_scope.
Delimit Scope rust_scope with rust.
Notation "'let*' x := m 'in' k" := (obind m (fun x => k))
  (at level 10, x name, m at level 100, k at level 200) : rust_scope.
Notation "'let*' ' p := m 'in' k" := (obind m (fun x => match x with p => k end))
  (at level 10, p strict pattern, m at level 100, k at level 200) : rust_scope.

(** ** Machine integers: values are [Z], arithmetic wraps at the width. *)

Definition u8_max : Z := 255.
Definition u32_max : Z := 4294967295.
Definition u64_max : Z := 18446744073709551615.
Definition wrap_u8 (z : Z) : Z := z mod 256.
Definition wrap_u32 (z : Z) : Z := z mod 4294967296.
Definition wrap_u64 (z : Z) : Z := z mod 18446744073709551616.
Definition not_u64 (z : Z) : Z := u64_max - z.

(** ** Boolean reflection *)

Ltac propify :=
  repeat match goal with
  | H : (_ && _)%bool = true |- _ => apply andb_true_iff in H; destruct H
  | H : (_ || _)%bool = false |- _ => apply orb_false_iff in H; destruct H
  | H : (_ && _)%bool = false |- _ => apply andb_false_iff in H
  | H : (_ || _)%bool = true |- _ => apply orb_true_iff in H
  | H : negb _ = true |- _ => apply negb_true_iff in H
  | H : negb _ = false |- _ => apply negb_false_iff in H
  | H : (_ =? _)%Z = true |- _ => apply Z.eqb_eq in H
  | H : (_ =? _)%Z = false |- _ => apply Z.eqb_neq in H
  | H : (_ <? _)%Z = true |- _ => apply Z.ltb_lt in H
  | H : (_ <? _)%Z = false |- _ => apply Z.ltb_ge in H
  | H : (_ <=? _)%Z = true |- _ => apply Z.leb_le in H
  | H : (_ <=? _)%Z = false |- _ => apply Z.leb_gt in H
  | H : (_ =? _)%nat = true |- _ => apply Nat.eqb_eq in H
  | H : (_ =? _)%nat = false |- _ => apply Nat.eqb_neq in H
  | H : (_ <? _)%nat = true |- _ => apply Nat.ltb_lt in H
  | H : (_ <? _)%nat = false |- _ => apply Nat.ltb_ge in H
  | H : (_ <=? _)%nat = true |- _ => apply Nat.leb_le in H
  | H : (_ <=? _)%nat = false |- _ => apply Nat.leb_gt in H
  end.

(** Case analysis on the condition of the first [if] or [match] in the goal. *)
Ltac case_if E :=
  match goal with
  | |- context [if ?b then _ else _] => destruct b eqn:E
  end.
Ltac case_ifs := repeat (let E := fresh "E" in case_if E).
Ltac case_if_in H E :=
  match type of H with
  | context [if ?b then _ else _] => destruct b eqn:E
  end.

(** Invert a monadic computation that returned. *)
Lemma obind_ret {A B} (m : outcome A) (f : A -> outcome B) b :
  obind m f = Ret b -> exists a, m = Ret a /\ f a = Ret b.
Proof. destruct m; simpl; intros H; try discriminate; eauto. Qed.

Ltac inv_ret :=
  repeat match goal with
  | H : obind _ _ = Ret _ |- _ =>
      let a := fresh "a" in let H1 := fresh "Hm" in
      apply obind_ret in H; destruct H as (a & H1 & H)
  | H : Ret _ = Ret _ |- _ => injection H; clear H; intros; subst
  | H : unwrap ?o = Ret _ |- _ => destruct o eqn:?; simpl in H; try discriminate H
  end.

(** ** Lists *)

(** Index of the first element that satisfies [p]: [Iterator::position]. *)
Fixpoint position {A} (p : A -> bool) (l : list A) : option nat :=
  match l with
  | [] => None
  | x :: l' => if p x then Some O else S <$> position p l'
  end.

Fixpoint drop_while {A} (p : A -> bool) (l : list A) : list A :=
  match l with
  | [] => []
  | x :: l' => if p x then drop_while p l' else l
  end.

Fixpoint take_while {A} (p : A -> bool) (l : list A) : list A :=
  match l with
  | [] => []
  | x :: l' => if p x then x :: take_while p l' else []
  end.

(** [slice::get(a..b)]. *)
Definition get_range {A} (l : list A) (a b : nat) : option (list A) :=
  if (a <=? b)%nat && (b <=? length l)%nat then Some (take (b - a) (drop a l)) else None.

(** [v[i] = x], which panics out of range. *)
Definition set_index {A} (l : list A) (i : nat) (x : A) : outcome (list A) :=
  if (i <? length l)%nat then Ret (<[i := x]> l) else Panic.

Section ListFacts.
Context {A : Type} (p : A -> bool).

Lemma take_drop_while l : take_while p l ++ drop_while p l = l.
Proof. induction l as [|x l IH]; simpl; [done|]. case_if E; simpl; congruence. Qed.

Lemma take_while_Forall l : Forall (fun x => p x = true) (take_while p l).
Proof. induction l; simpl; [constructor|]. case_if E; constructor; auto. Qed.

Lemma drop_while_head l x l' : drop_while p l = x :: l' -> p x = false.
Proof.
  induction l as [|y l IH]; simpl; [discriminate|].
  case_if E; [exact IH|]. intros [= <- <-]. exact E.
Qed.

Lemma drop_while_app l1 l2 :
  Forall (fun x => p x = true) l1 -> drop_while p (l1 ++ l2) = drop_while p l2.
Proof. induction 1 as [|x l1 Hx _ IH]; simpl; [done|]. by rewrite Hx. Qed.

Lemma drop_while_stop l :
  match l with [] => True | x :: _ => p x = false end -> drop_while p l = l.
Proof. destruct l as [|x l]; simpl; [done|]. by intros ->. Qed.

Lemma position_None l : position p l = None <-> Forall (fun x => p x = false) l.
Proof.
  induction l as [|x l IH]; simpl.
  - split; constructor.
  - case_if E.
    + split; [discriminate|]. inversion_clear 1. congruence.
    + rewrite Forall_cons, <- IH. destruct (position p l); simpl; intuition congruence.
Qed.

Lemma position_Some l i :
  position p l = Some i <->
  exists l1 x l2, l = l1 ++ x :: l2 /\ length l1 = i /\ p x = true
                  /\ Forall (fun y => p y = false) l1.
Proof.
  revert i. induction l as [|x l IH]; intros i; simpl.
  - split; [discriminate|]. intros (l1 & y & l2 & H & _). by destruct l1.
  - case_if E.
    + split.
      * intros [= <-]. exists [], x, l. repeat split; auto.
      * intros (l1 & y & l2 & H & <- & Hy & Hall). destruct l1 as [|z l1]; [done|].
        injection H as <- ->. inversion Hall; congruence.
    + split.
      * destruct (position p l) as [j|] eqn:Ej; simpl; [|discriminate].
        intros [= <-]. destruct (proj1 (IH j) eq_refl) as (l1 & y & l2 & -> & <- & Hy & Hall).
        exists (x :: l1), y, l2. repeat split; auto.
      * intros (l1 & y & l2 & H & <- & Hy & Hall). destruct l1 as [|z l1]; simpl in *.
        { injection H as <- <-. congruence. }
        injection H as <- ->. inversion_clear Hall.
        rewrite (proj2 (IH (length l1))); [done|]. exists l1, y, l2. auto.
Qed.

Lemma position_lt l i : position p l = Some i -> (i < length l)%nat.
Proof.
  intros (l1 & x & l2 & -> & <- & _)%position_Some. rewrite length_app. simpl. lia.
Qed.
End ListFacts.

Create HintDb rust discriminated.
#[export] Hint Resolve take_while_Forall position_lt : rust.

(** A [for] loop over a list that may panic. *)
Fixpoint fold_out {A S} (step : S -> A -> outcome S) (l : list A) (s : S) : outcome S :=
  match l with [] => Ret s | x :: l => obind (step s x) (fun s => fold_out step l s) end.

(** ** Total correctness of a computation: it returns, and the result satisfies [P]. *)

Definition runs {A} (m : outcome A) (P : A -> Prop) : Prop := exists a, m = Ret a /\ P a.

Lemma runs_ret {A} (a : A) (P : A -> Prop) : P a -> runs (Ret a) P.
Proof. intros H. by exists a. Qed.

Lemma runs_bind {A B} (m : outcome A) (f : A -> outcome B) (Q : A -> Prop) (P : B -> Prop) :
  runs m Q -> (forall a, Q a -> runs (f a) P) -> runs (obind m f) P.
Proof. intros (a & -> & Ha) Hf. simpl. auto. Qed.

Lemma runs_mono {A} (m : outcome A) (P Q : A -> Prop) :
  runs m P -> (forall a, P a -> Q a) -> runs m Q.
Proof. intros (a & -> & Ha) H. exists a. auto. Qed.

Lemma runs_unwrap {A} (o : option A) a (P : A -> Prop) :
  o = Some a -> P a -> runs (unwrap o) P.
Proof. intros -> H. by exists a. Qed.

#[export] Hint Resolve runs_ret : rust.

(** A loop keeps an invariant of the elements it has seen. *)
Lemma runs_fold {A S} (step : S -> A -> outcome S) (I : list A -> S -> Prop) l s :
  I [] s -> (forall l1 x l2 s, l = l1 ++ x :: l2 -> I l1 s -> runs (step s x) (I (l1 ++ [x]))) -> runs (fold_out step l s) (I l).
Proof.
  intros H0 Hs. enough (G : forall l2 l1 s, l = l1 ++ l2 -> I l1 s -> runs (fold_out step l2 s) (I l)) by (by apply (G l [] s)).
  induction l2 as [|x l2 IH]; intros l1 s' E HI; [rewrite app_nil_r in E; subst l1; by apply runs_ret|]. simpl.
  apply (runs_bind _ _ (I (l1 ++ [x]))); [by apply (Hs l1 x l2)|]. intros s2 H2. apply (IH (l1 ++ [x])); [by rewrite <- app_assoc|done].
Qed.
