(* ===== verification/RustStr.v ===== *)
(** * Rust strings

    A [&str] is the sequence of its characters (Unicode scalar values, as
    [Z]); its bytes are their UTF-8 encoding.  Byte offsets are [nat].  Slicing
    at an offset that is out of range or inside a character is a panic, so it is
    [None] here. *)
From Stdlib Require Import Ascii String.
From Stdlib Require Import ZArith Lia.
From stdpp Require Import base list.
From S2P Require Import Prelude.
Open Scope Z_scope.

Abbreviation char := Z (only parsing).
Abbreviation str := (list Z) (only parsing).

(** The code of an ASCII character, and the codes of a source literal. *)
Definition ch (a : ascii) : Z := Z.of_N (N_of_ascii a).
Definition lit (s : string) : list Z := ch <$> list_ascii_of_string s.

Definition DQUOTE : Z := 34.
Definition SQUOTE : Z := 39.
Definition BACKSLASH : Z := 92.
Definition NEWLINE : Z := 10.

(** [char::len_utf8], [char::encode_utf8]. *)
Definition len_utf8 (c : char) : nat :=
  if c <? 0x80 then 1 else if c <? 0x800 then 2 else if c <? 0x10000 then 3 else 4.

Definition encode_utf8 (c : char) : list Z :=
  if c <? 0x80 then [c]
  else if c <? 0x800 then
    [Z.lor 0xC0 (Z.shiftr c 6); Z.lor 0x80 (Z.land c 0x3F)]
  else if c <? 0x10000 then
    [Z.lor 0xE0 (Z.shiftr c 12); Z.lor 0x80 (Z.land (Z.shiftr c 6) 0x3F);
     Z.lor 0x80 (Z.land c 0x3F)]
  else
    [Z.lor 0xF0 (Z.shiftr c 18); Z.lor 0x80 (Z.land (Z.shiftr c 12) 0x3F);
     Z.lor 0x80 (Z.land (Z.shiftr c 6) 0x3F); Z.lor 0x80 (Z.land c 0x3F)].

(** A Unicode scalar value, and a string of them. *)
Definition is_scalar (c : char) : bool :=
  ((0 <=? c) && (c <? 0xD800)) || ((0xE000 <=? c) && (c <? 0x110000)).
Definition wf_str (s : str) : Prop := Forall (fun c => is_scalar c = true) s.

Definition is_ascii (c : Z) : bool := c <? 0x80.
Definition is_ascii_digit (c : Z) : bool := (48 <=? c) && (c <=? 57).
Definition is_ascii_upper (c : Z) : bool := (65 <=? c) && (c <=? 90).
Definition is_ascii_lower (c : Z) : bool := (97 <=? c) && (c <=? 122).
Definition is_ascii_alphabetic (c : Z) : bool := is_ascii_upper c || is_ascii_lower c.
Definition is_ascii_alphanumeric (c : Z) : bool := is_ascii_alphabetic c || is_ascii_digit c.

Fixpoint as_bytes (s : str) : list Z :=
  match s with [] => [] | c :: s' => encode_utf8 c ++ as_bytes s' end.

(** [str::len]. *)
Fixpoint str_len (s : str) : nat :=
  match s with [] => O | c :: s' => (len_utf8 c + str_len s')%nat end.

(** [&s[n..]]: [None] is the panic of [str] slicing. *)
Fixpoint str_from (n : nat) (s : str) : option str :=
  match n with
  | O => Some s
  | _ => match s with
         | [] => None
         | c :: s' => if (n <? len_utf8 c)%nat then None else str_from (n - len_utf8 c) s'
         end
  end.

(** [&s[..n]]. *)
Fixpoint str_to (n : nat) (s : str) : option str :=
  match n with
  | O => Some []
  | _ => match s with
         | [] => None
         | c :: s' => if (n <? len_utf8 c)%nat then None
                      else (c ::.) <$> str_to (n - len_utf8 c) s'
         end
  end.

(** [&s[a..b]]. *)
Definition str_slice (a b : nat) (s : str) : option str :=
  if (b <? a)%nat then None else s' ← str_from a s; str_to (b - a) s'.

(** [str::starts_with], [str::strip_prefix] and [str::find] with a string pattern;
    the found offset is a byte offset. *)
Fixpoint strip_prefix (p s : str) : option str :=
  match p, s with
  | [], _ => Some s
  | x :: p', y :: s' => if x =? y then strip_prefix p' s' else None
  | _ :: _, [] => None
  end.

Definition starts_with (p s : str) : bool :=
  match strip_prefix p s with Some _ => true | None => false end.

Fixpoint str_find (p s : str) : option nat :=
  if starts_with p s then Some O
  else match s with
       | [] => None
       | c :: s' => (fun n => (len_utf8 c + n)%nat) <$> str_find p s'
       end.

(** [str::rfind] of a one-character pattern. *)
Fixpoint str_rfind_char (x : char) (s : str) : option nat :=
  match s with
  | [] => None
  | c :: s' =>
      match str_rfind_char x s' with
      | Some n => Some (len_utf8 c + n)%nat
      | None => if c =? x then Some O else None
      end
  end.

(** [u64::from_le_bytes]. *)
Fixpoint from_le_bytes (l : list Z) : Z :=
  match l with [] => 0 | b :: l' => b + 256 * from_le_bytes l' end.

(** [to_le_bytes] of an [n]-byte integer. *)
Fixpoint to_le_bytes (n : nat) (v : Z) : list Z :=
  match n with O => [] | S n => v mod 256 :: to_le_bytes n (v / 256) end.

(** ** Facts *)

Lemma len_utf8_pos c : (1 <= len_utf8 c <= 4)%nat.
Proof. unfold len_utf8. case_ifs; lia. Qed.

Lemma length_encode_utf8 c : length (encode_utf8 c) = len_utf8 c.
Proof. unfold encode_utf8, len_utf8. by case_ifs. Qed.

Lemma len_utf8_ascii c : is_ascii c = true -> len_utf8 c = 1%nat.
Proof. unfold is_ascii, len_utf8. by intros ->. Qed.

Lemma encode_utf8_ascii c : is_ascii c = true -> encode_utf8 c = [c].
Proof. unfold is_ascii, encode_utf8. by intros ->. Qed.

Lemma length_as_bytes s : length (as_bytes s) = str_len s.
Proof.
  induction s as [|c s IH]; simpl; [done|].
  by rewrite length_app, length_encode_utf8, IH.
Qed.

Lemma as_bytes_app s1 s2 : as_bytes (s1 ++ s2) = as_bytes s1 ++ as_bytes s2.
Proof. induction s1 as [|c s1 IH]; simpl; [done|]. by rewrite IH, app_assoc. Qed.

Lemma str_len_app s1 s2 : str_len (s1 ++ s2) = (str_len s1 + str_len s2)%nat.
Proof. induction s1 as [|c s1 IH]; simpl; lia. Qed.

Lemma str_len_length s : (length s <= str_len s)%nat.
Proof. induction s as [|c s IH]; simpl; [lia|]. pose proof (len_utf8_pos c). lia. Qed.

Lemma str_len_ascii s : Forall (fun c => is_ascii c = true) s -> str_len s = length s.
Proof. induction 1 as [|c s Hc _ IH]; simpl; [done|]. rewrite len_utf8_ascii; auto. Qed.

Lemma lor_high h x : 0 <= h -> 0 <= x -> h <= Z.lor h x.
Proof.
  intros Hh Hx.
  assert (Hd : Z.lor h x = h + Z.ldiff x h).
  { rewrite Z.add_nocarry_lxor.
    - apply Z.bits_inj'. intros n Hn. rewrite Z.lor_spec, Z.lxor_spec, Z.ldiff_spec.
      by destruct (Z.testbit h n), (Z.testbit x n).
    - apply Z.bits_inj'. intros n Hn.
      rewrite Z.land_spec, Z.ldiff_spec, Z.bits_0. by destruct (Z.testbit h n), (Z.testbit x n). }
  rewrite Hd. assert (0 <= Z.ldiff x h) by (apply Z.ldiff_nonneg; auto). lia.
Qed.

Lemma encode_utf8_high c b :
  is_scalar c = true -> is_ascii c = false -> b ∈ encode_utf8 c -> 0x80 <= b.
Proof.
  unfold is_scalar, is_ascii, encode_utf8. intros Hs ->.
  assert (0 <= c) by (propify; destruct Hs; propify; lia).
  assert (Hr : forall k, 0 <= Z.shiftr c k) by (intros; apply Z.shiftr_nonneg; lia).
  assert (Hl : forall k, 0 <= k -> 0 <= Z.land k 0x3F) by (intros; apply Z.land_nonneg; lia).
  case_ifs; intros Hin; repeat (apply elem_of_cons in Hin as [->|Hin]);
    try (by apply elem_of_nil in Hin);
    (etrans; [|apply lor_high; [lia|auto]]); lia.
Qed.

Lemma as_bytes_nonneg s b : wf_str s -> b ∈ as_bytes s -> 0 <= b.
Proof.
  induction 1 as [|c s Hc Hs IH]; simpl; [by intros ?%elem_of_nil|].
  intros [Hb|Hb]%elem_of_app; [|auto].
  destruct (is_ascii c) eqn:Ea.
  - rewrite encode_utf8_ascii in Hb by done. apply list_elem_of_singleton in Hb as ->.
    unfold is_scalar in Hc. propify. destruct Hc; propify; lia.
  - pose proof (encode_utf8_high _ _ Hc Ea Hb). lia.
Qed.

(** An ASCII byte of a string is a whole character, at a character boundary. *)
Lemma as_bytes_ascii_split s l1 b l2 :
  wf_str s -> as_bytes s = l1 ++ b :: l2 -> b < 0x80 ->
  exists s1 s2, s = s1 ++ b :: s2 /\ as_bytes s1 = l1 /\ as_bytes s2 = l2.
Proof.
  intros Hwf. revert l1. induction Hwf as [|c s Hc Hs IH]; intros l1 Heq Hb; simpl in *.
  { by destruct l1. }
  destruct (is_ascii c) eqn:Ea.
  - rewrite encode_utf8_ascii in Heq by done. destruct l1 as [|x l1]; simpl in Heq.
    + injection Heq as -> Heq. exists [], s. auto.
    + injection Heq as <- Heq. destruct (IH _ Heq Hb) as (s1 & s2 & -> & <- & <-).
      exists (c :: s1), s2. simpl. by rewrite encode_utf8_ascii.
  - apply app_eq_inv in Heq as [(k & Hk & Hr)|(k & Hk & Hr)].
    + destruct k as [|y k].
      * rewrite app_nil_r in Hk. destruct (IH [] (eq_sym Hr) Hb) as (s1 & s2 & -> & Hs1 & <-).
        destruct s1 as [|z s1].
        -- exists [c], s2. subst l1. simpl. rewrite app_nil_r. auto.
        -- simpl in Hs1. pose proof (len_utf8_pos z). pose proof (length_encode_utf8 z).
           destruct (encode_utf8 z); simpl in *; [lia|discriminate].
      * injection Hr as -> Hr. assert (y ∈ encode_utf8 c) by (rewrite Hk; apply elem_of_app; right; left).
        pose proof (encode_utf8_high _ _ Hc Ea H). lia.
    + destruct (IH _ Hr Hb) as (s1 & s2 & -> & <- & <-).
      exists (c :: s1), s2. simpl. by rewrite Hk.
Qed.

Lemma str_from_app s1 s2 : str_from (str_len s1) (s1 ++ s2) = Some s2.
Proof.
  induction s1 as [|c s1 IH]; simpl; [by destruct s2|].
  pose proof (len_utf8_pos c). destruct (len_utf8 c + str_len s1)%nat eqn:E; [lia|].
  rewrite <- E. rewrite (proj2 (Nat.ltb_ge _ _)) by lia.
  by replace (len_utf8 c + str_len s1 - len_utf8 c)%nat with (str_len s1) by lia.
Qed.

Lemma str_from_spec n s s2 :
  str_from n s = Some s2 <-> exists s1, s = s1 ++ s2 /\ str_len s1 = n.
Proof.
  split; [|intros (s1 & -> & <-); apply str_from_app].
  revert n. induction s as [|c s IH]; intros n; simpl.
  - destruct n; [|discriminate]. intros [= <-]. by exists [].
  - destruct n as [|n]; [intros [= <-]; by exists []|].
    case_if E; [discriminate|]. intros (s1 & -> & Hl)%IH. propify.
    exists (c :: s1). simpl. split; [done|lia].
Qed.

Lemma str_to_app s1 s2 : str_to (str_len s1) (s1 ++ s2) = Some s1.
Proof.
  induction s1 as [|c s1 IH]; simpl; [by destruct s2|].
  pose proof (len_utf8_pos c). destruct (len_utf8 c + str_len s1)%nat eqn:E; [lia|].
  rewrite <- E. rewrite (proj2 (Nat.ltb_ge _ _)) by lia.
  replace (len_utf8 c + str_len s1 - len_utf8 c)%nat with (str_len s1) by lia.
  by rewrite IH.
Qed.

Lemma str_to_spec n s s1 :
  str_to n s = Some s1 <-> exists s2, s = s1 ++ s2 /\ str_len s1 = n.
Proof.
  split; [|intros (s2 & -> & <-); apply str_to_app].
  revert n s1. induction s as [|c s IH]; intros n s1; simpl.
  - destruct n; [|discriminate]. intros [= <-]. by exists [].
  - destruct n as [|n]; [intros [= <-]; by exists (c :: s)|].
    case_if E; [discriminate|].
    destruct (str_to _ s) as [t|] eqn:Et; simpl; [|discriminate]. intros [= <-].
    apply IH in Et as (s2 & -> & Hl). propify. exists s2. simpl. split; [done|lia].
Qed.

Lemma strip_prefix_spec p s s' : strip_prefix p s = Some s' <-> s = p ++ s'.
Proof.
  revert s. induction p as [|x p IH]; intros s; simpl; [naive_solver|].
  destruct s as [|y s]; simpl; [naive_solver|]. case_if E; propify; [|naive_solver].
  rewrite IH. naive_solver.
Qed.

Lemma starts_with_spec p s : starts_with p s = true <-> exists s', s = p ++ s'.
Proof.
  unfold starts_with. destruct (strip_prefix p s) as [s'|] eqn:E.
  - apply strip_prefix_spec in E as ->. naive_solver.
  - split; [discriminate|]. intros (s' & Hs%strip_prefix_spec). congruence.
Qed.

Lemma str_find_Some p s n :
  str_find p s = Some n -> exists s1 s2, s = s1 ++ p ++ s2 /\ str_len s1 = n.
Proof.
  revert n. induction s as [|c s IH]; intros n; simpl.
  - case_if E; [|discriminate]. intros [= <-]. apply starts_with_spec in E as (s2 & Hs).
    exists [], s2. auto.
  - case_if E.
    + intros [= <-]. apply starts_with_spec in E as (s2 & Hs). exists [], s2. auto.
    + destruct (str_find p s) as [m|]; simpl; [|discriminate]. intros [= <-].
      destruct (IH m eq_refl) as (s1 & s2 & -> & <-). exists (c :: s1), s2. auto.
Qed.

Lemma str_rfind_char_Some x s n :
  str_rfind_char x s = Some n -> exists s1 s2, s = s1 ++ x :: s2 /\ str_len s1 = n.
Proof.
  revert n. induction s as [|c s IH]; intros n; simpl; [discriminate|].
  destruct (str_rfind_char x s) as [m|].
  - intros [= <-]. destruct (IH m eq_refl) as (s1 & s2 & -> & <-). by exists (c :: s1), s2.
  - case_if E; [|discriminate]. propify. intros [= <-]. subst. by exists [], s.
Qed.

Lemma wf_str_app s1 s2 : wf_str (s1 ++ s2) <-> wf_str s1 /\ wf_str s2.
Proof. apply Forall_app. Qed.

#[export] Hint Resolve len_utf8_pos as_bytes_nonneg str_len_length : rust.

(** ** Bytes of integers *)

Lemma length_to_le_bytes n v : length (to_le_bytes n v) = n.
Proof. revert v. induction n; intros v; simpl; auto. Qed.

Lemma from_to_le_bytes n v : 0 <= v < 256 ^ Z.of_nat n -> from_le_bytes (to_le_bytes n v) = v.
Proof.
  revert v. induction n as [|n IH]; intros v Hv; cbn [to_le_bytes from_le_bytes].
  - change (256 ^ Z.of_nat 0) with 1 in Hv. lia.
  - rewrite Nat2Z.inj_succ, Z.pow_succ_r in Hv by lia. rewrite IH.
    + pose proof (Z.div_mod v 256 ltac:(lia)). lia.
    + split; [apply Z.div_pos; lia|]. apply Z.div_lt_upper_bound; lia.
Qed.
