(* ===== verification/RustSlice.v ===== *)
(** * Ordered types and the search of sorted slices *)
From Stdlib Require Import ZArith Lia Sorted.
From stdpp Require Import base numbers list.
From S2P Require Import Prelude.
#[local] Open Scope nat_scope.

(** ** Rust's [Ord]

    The contract of [core::cmp::Ord] as a class, the instances for integers, tuples and the unit type,
    and the facts the sorted maps and the Datalog engine share. *)

(** [core::cmp::Ord], with the laws its documentation requires of an implementation
    (equality of keys is the one [cmp] computes). *)
Class Ord (K : Type) := {
  cmp : K -> K -> comparison;
  cmp_eq : forall a b, cmp a b = Eq <-> a = b;
  cmp_antisym : forall a b, cmp b a = CompOpp (cmp a b);
  cmp_trans : forall a b c, cmp a b = Lt -> cmp b c = Lt -> cmp a c = Lt;
}.

#[export, program] Instance Z_Ord : Ord Z := {| cmp := Z.compare |}.
Next Obligation. apply Z.compare_eq_iff. Qed.
Next Obligation. intros. apply Z.compare_antisym. Qed.
Next Obligation. intros a b c. rewrite !Z.compare_lt_iff. apply Z.lt_trans. Qed.

Definition lt_b {K} `{Ord K} (a b : K) : bool := match cmp a b with Lt => true | _ => false end.
Definition le_b {K} `{Ord K} (a b : K) : bool := match cmp a b with Gt => false | _ => true end.
Definition eq_b {K} `{Ord K} (a b : K) : bool := match cmp a b with Eq => true | _ => false end.

Section OrdFacts.
Context {K : Type} `{Ord K}.

Lemma cmp_refl a : cmp a a = Eq.
Proof. by apply cmp_eq. Qed.

Lemma cmp_gt_lt a b : cmp a b = Gt <-> cmp b a = Lt.
Proof. rewrite (cmp_antisym a b). destruct (cmp a b); simpl; split; congruence. Qed.

Lemma cmp_lt_irrefl a : cmp a a <> Lt.
Proof. rewrite cmp_refl. done. Qed.

Lemma cmp_lt_asym a b : cmp a b = Lt -> cmp b a = Lt -> False.
Proof. intros H1 H2. apply (cmp_lt_irrefl a). by apply cmp_trans with b. Qed.

Lemma lt_b_true a b : lt_b a b = true <-> cmp a b = Lt.
Proof. unfold lt_b. destruct (cmp a b); split; congruence. Qed.

Lemma lt_b_le_b a b : le_b a b = negb (lt_b b a).
Proof. unfold le_b, lt_b. rewrite (cmp_antisym a b). by destruct (cmp a b). Qed.

Lemma eq_b_true a b : eq_b a b = true <-> a = b.
Proof. unfold eq_b. rewrite <- cmp_eq. destruct (cmp a b); split; congruence. Qed.

#[export] Instance Ord_EqDecision : EqDecision K.
Proof. intros a b. destruct (eq_b a b) eqn:E; [left|right]; rewrite <- eq_b_true; congruence. Defined.

Lemma decide_eq_b {A} (a b : K) (x y : A) :
  (if decide (a = b) then x else y) = if eq_b a b then x else y.
Proof.
  destruct (decide (a = b)) as [E|E]; destruct (eq_b a b) eqn:Eb; try done.
  - apply eq_b_true in E. congruence.
  - by apply eq_b_true in Eb.
Qed.
End OrdFacts.

#[export, program] Instance unit_Ord : Ord unit := {| cmp := fun _ _ => Eq |}.
Next Obligation. intros [] []. done. Qed.
Next Obligation. done. Qed.
Next Obligation. done. Qed.

(** Tuples are compared lexicographically. *)
Definition pair_cmp {A B} `{Ord A, Ord B} (x y : A * B) : comparison :=
  match cmp x.1 y.1 with Eq => cmp x.2 y.2 | c => c end.

#[export, program] Instance pair_Ord {A B} `{Ord A, Ord B} : Ord (A * B) := {| cmp := pair_cmp |}.
Next Obligation.
  intros A B ? ? [a b] [a' b']. unfold pair_cmp. cbn [fst snd]. destruct (cmp a a') eqn:E.
  - apply cmp_eq in E. subst a'. rewrite cmp_eq. split; congruence.
  - split; [done|]. intros [= -> ->]. by rewrite cmp_refl in E.
  - split; [done|]. intros [= -> ->]. by rewrite cmp_refl in E.
Qed.
Next Obligation.
  intros A B ? ? [a b] [a' b']. unfold pair_cmp. cbn [fst snd]. rewrite (cmp_antisym a a'), (cmp_antisym b b'). by destruct (cmp a a').
Qed.
Next Obligation.
  intros A B ? ? [a b] [a' b'] [c d]. unfold pair_cmp. cbn [fst snd]. destruct (cmp a a') eqn:E1; [|intros _|done].
  - apply cmp_eq in E1. subst a'. destruct (cmp a c); [apply cmp_trans|done|done].
  - destruct (cmp a' c) eqn:E2; [|intros _|done].
    + apply cmp_eq in E2. subst c. by rewrite E1.
    + by rewrite (cmp_trans _ _ _ E1 E2).
Qed.

(** *** Sorted vectors without duplicates *)

Section Sorted.
Context {A : Type} `{Ord A}.

Definition ord_lt (a b : A) : Prop := cmp a b = Lt.
Definition sorted (l : list A) : Prop := StronglySorted ord_lt l.

#[export] Instance ord_lt_trans : Transitive ord_lt.
Proof. intros a b c. apply cmp_trans. Qed.

Lemma ord_lt_irrefl a : ~ ord_lt a a.
Proof. unfold ord_lt. by rewrite cmp_refl. Qed.

Lemma ord_total a b : ord_lt a b \/ a = b \/ ord_lt b a.
Proof. unfold ord_lt. destruct (cmp a b) eqn:E; [right; left; by apply cmp_eq|by left|right; right; by apply cmp_gt_lt]. Qed.

Lemma sorted_nodup l : sorted l -> NoDup l.
Proof.
  induction 1 as [|x l _ IH Hx]; constructor; [|done]. rewrite Forall_forall in Hx. intros Hin. by apply (ord_lt_irrefl x), Hx.
Qed.

Lemma sorted_cons_inv x l : sorted (x :: l) -> sorted l /\ forall y, y ∈ l -> ord_lt x y.
Proof. intros [Hs Hx]%StronglySorted_inv. split; [done|]. by rewrite Forall_forall in Hx. Qed.

Lemma sorted_cons x l : sorted l -> (forall y, y ∈ l -> ord_lt x y) -> sorted (x :: l).
Proof. intros Hs Hx. constructor; [done|]. by apply Forall_forall. Qed.

(** Sorted vectors with the same elements are equal. *)
Lemma sorted_ext l l' : sorted l -> sorted l' -> (forall x, x ∈ l <-> x ∈ l') -> l = l'.
Proof.
  revert l'. induction l as [|x l IH]; intros [|y l'] Hl Hl' HE; [done| | |].
  - assert (y ∈ []) as Hn by (apply HE; left). by apply elem_of_nil in Hn.
  - assert (x ∈ []) as Hn by (apply HE; left). by apply elem_of_nil in Hn.
  - apply sorted_cons_inv in Hl as [Hl Hx]. apply sorted_cons_inv in Hl' as [Hl' Hy].
    assert (x = y) as ->.
    { assert (Hxy : x ∈ y :: l') by (apply HE; left). assert (Hyx : y ∈ x :: l) by (apply HE; left). apply elem_of_cons in Hxy as [?|Hxy]; [done|]. apply elem_of_cons in Hyx as [?|Hyx]; [done|].
      exfalso. apply (ord_lt_irrefl x). etrans; [by apply Hx|by apply Hy]. }
    f_equal. apply IH; [done|done|]. intros z. specialize (HE z). rewrite !elem_of_cons in HE. split; intros Hz.
    + destruct (proj1 HE (or_intror Hz)) as [->|?]; [|done]. exfalso. by apply (ord_lt_irrefl y), Hx.
    + destruct (proj2 HE (or_intror Hz)) as [->|?]; [|done]. exfalso. by apply (ord_lt_irrefl y), Hy.
Qed.

Lemma sorted_app l1 l2 : sorted (l1 ++ l2) <-> sorted l1 /\ sorted l2 /\ forall x y, x ∈ l1 -> y ∈ l2 -> ord_lt x y.
Proof.
  induction l1 as [|x l1 IH]; cbn [app].
  - split; [intros Hs; split; [constructor|]; split; [done|]; intros x y Hx; by apply elem_of_nil in Hx|tauto].
  - split.
    + intros [Hs Hx]%sorted_cons_inv. apply IH in Hs as (H1 & H2 & H3). split; [apply sorted_cons; [done|]; intros y Hy; apply Hx, elem_of_app; by left|]. split; [done|].
      intros y z [->|Hy]%elem_of_cons Hz; [apply Hx, elem_of_app; by right|by apply H3].
    + intros (Hs & H2 & H3). apply sorted_cons_inv in Hs as [Hs Hx]. apply sorted_cons; [apply IH; split; [done|]; split; [done|]; intros; apply H3; [by right|done]|].
      intros y [Hy|Hy]%elem_of_app; [by apply Hx|apply H3; [left|done]].
Qed.
End Sorted.

(** An instance is searched for a type that is known. *)
#[export] Hint Mode Ord ! : typeclass_instances.

(** ** Searching sorted slices

    [slice::binary_search_by] and [slice::partition_point] as the standard library
    computes them (size halving), and their contracts on ordered slices.  The
    interval sets and the sorted maps both search this way. *)

(** The loop probes in-range offsets only; out of range it would read [Gt]. *)
Fixpoint bs_loop {A} (fuel : nat) (f : A -> comparison) (l : list A) (base size : nat) : nat :=
  match fuel with
  | O => base
  | S fuel' =>
      if size <=? 1 then base
      else
        let half := size / 2 in
        let mid := base + half in
        let base := match f <$> l !! mid with
                    | Some Gt | None => base
                    | Some _ => mid
                    end in
        bs_loop fuel' f l base (size - half)
  end.

(** [inl i] is [Ok(i)], [inr i] is [Err(i)]. *)
Definition binary_search_by {A} (f : A -> comparison) (l : list A) : nat + nat :=
  match l with
  | [] => inr 0
  | _ :: _ =>
      let base := bs_loop (length l) f l 0 (length l) in
      match f <$> l !! base with
      | Some Eq => inl base
      | Some Lt => inr (base + 1)
      | _ => inr base
      end
  end.

Definition partition_point {A} (p : A -> bool) (l : list A) : nat :=
  match binary_search_by (fun x => if p x then Lt else Gt) l with
  | inl i => i
  | inr i => i
  end.

(** [Vec::insert] and [Vec::drain(a..b)] on in-range arguments. *)
Definition vec_insert {A} (i : nat) (x : A) (l : list A) : list A := take i l ++ x :: drop i l.
Definition vec_drain {A} (a b : nat) (l : list A) : list A := take a l ++ drop b l.

(** *** Ordered slices *)

Definition rank (o : comparison) : nat := match o with Lt => 0 | Eq => 1 | Gt => 2 end.

(** The answers of [f] along [l] are [Lt], then [Eq], then [Gt]. *)
Definition ordered {A} (f : A -> comparison) (l : list A) : Prop :=
  forall i j x y, i < j -> l !! i = Some x -> l !! j = Some y -> rank (f x) <= rank (f y).

Lemma lookup_lt_ex {A} (l : list A) i : i < length l -> exists x, l !! i = Some x.
Proof. intros H. destruct (lookup_lt_is_Some_2 l i H) as [x Hx]. eauto. Qed.

Section BinarySearch.
Context {A : Type} (f : A -> comparison) (l : list A) (Hord : ordered f l).

(** Everything from [base + size] on is above; [base] itself is not, unless it is 0. *)
Definition bs_inv (base size : nat) : Prop :=
  1 <= size /\ base + size <= length l
  /\ (forall j x, base + size <= j -> l !! j = Some x -> f x = Gt)
  /\ (base = 0 \/ exists x, l !! base = Some x /\ f x <> Gt).

Lemma bs_loop_inv fuel base size : size <= fuel -> bs_inv base size ->
  bs_inv (bs_loop fuel f l base size) 1.
Proof.
  revert base size. induction fuel as [|fuel IH]; intros base size Hf Hi.
  - destruct Hi as (? & _). lia.
  - cbn [bs_loop]. destruct (Nat.leb_spec size 1).
    + destruct Hi as (H1 & H2 & H3 & H4). replace size with 1 in * by lia. done.
    + pose proof (Nat.div_mod_eq size 2). pose proof (Nat.mod_upper_bound size 2 ltac:(lia)).
      set (half := size / 2) in *. apply IH; [lia|].
      destruct Hi as (_ & Hlen & Hgt & Hb).
      destruct (lookup_lt_ex l (base + half)) as [x Hx]; [lia|]. rewrite Hx. simpl.
      destruct (f x) eqn:Ef.
      * split_and!; [lia|lia| |right; exists x; split; [done|congruence]].
        intros j y Hj. apply Hgt. lia.
      * split_and!; [lia|lia| |right; exists x; split; [done|congruence]].
        intros j y Hj. apply Hgt. lia.
      * split_and!; [lia|lia| |done]. intros j y Hj Hy.
        destruct (decide (j = base + half)) as [->|]; [congruence|].
        pose proof (Hord (base + half) j x y ltac:(lia) Hx Hy) as Hr. rewrite Ef in Hr.
        destruct (f y); simpl in Hr; [lia|lia|done].
Qed.

Lemma binary_search_by_spec :
  match binary_search_by f l with
  | inl i => exists x, l !! i = Some x /\ f x = Eq
  | inr i => i <= length l
             /\ (forall j x, j < i -> l !! j = Some x -> f x = Lt)
             /\ (forall j x, i <= j -> l !! j = Some x -> f x = Gt)
  end.
Proof.
  destruct (decide (length l = 0)) as [H0|H0].
  { apply length_zero_iff_nil in H0. rewrite H0. cbn.
    split_and!; [done| |]; intros j x _ Hx; by rewrite lookup_nil in Hx. }
  assert (Hbs : binary_search_by f l =
    match f <$> l !! bs_loop (length l) f l 0 (length l) with
    | Some Eq => inl (bs_loop (length l) f l 0 (length l))
    | Some Lt => inr (bs_loop (length l) f l 0 (length l) + 1)
    | _ => inr (bs_loop (length l) f l 0 (length l))
    end).
  { unfold binary_search_by. clear -H0. by destruct l. }
  rewrite Hbs. clear Hbs.
  destruct (bs_loop_inv (length l) 0 (length l)) as (_ & Hlen & Hgt & Hb); [lia| |].
  { split_and!; [lia|lia| |by left]. intros j x Hj Hx. apply lookup_lt_Some in Hx. lia. }
  set (base := bs_loop _ f l 0 (length l)) in *.
  destruct (lookup_lt_ex l base) as [x Hx]; [lia|]. rewrite Hx. simpl. destruct (f x) eqn:Ef.
  - eauto.
  - split_and!; [lia| |intros; eapply Hgt; eauto; lia].
    intros j y Hj Hy. destruct (decide (j = base)) as [->|]; [congruence|].
    pose proof (Hord j base y x ltac:(lia) Hy Hx) as Hr. rewrite Ef in Hr.
    destruct (f y); simpl in Hr; [lia|done|lia].
  - destruct Hb as [Hb|(z & Hz & Hne)]; [|congruence]. rewrite Hb in *.
    split_and!; [lia|intros; lia|]. intros j y _ Hy.
    destruct (decide (j = 0)) as [->|]; [congruence|]. apply (Hgt j y); [lia|done].
Qed.
End BinarySearch.

(** [partition_point] splits a slice on which [p] is downward closed. *)
Lemma partition_point_split {A} (R : A -> A -> Prop) (p : A -> bool) l :
  StronglySorted R l -> (forall x y, R x y -> p y = true -> p x = true) ->
  exists l1 l2, l = l1 ++ l2 /\ length l1 = partition_point p l
    /\ Forall (fun x => p x = true) l1 /\ Forall (fun x => p x = false) l2.
Proof.
  intros Hs Hp. unfold partition_point. set (f := fun x => if p x then Lt else Gt).
  assert (Hord : ordered f l).
  { clear -Hs Hp. intros i j x y Hij Hx Hy. revert i j Hij Hx Hy.
    induction Hs as [|a l _ IH Hall]; intros i j Hij Hx Hy; [by rewrite lookup_nil in Hx|].
    destruct j as [|j]; [lia|]. simpl in Hy. destruct i as [|i]; simpl in Hx; [|apply (IH i j); auto; lia].
    injection Hx as <-. rewrite Forall_lookup in Hall. specialize (Hp a y (Hall j y Hy)).
    unfold f. destruct (p y); [by rewrite Hp|]. destruct (p a); simpl; lia. }
  pose proof (binary_search_by_spec f l Hord) as Hb.
  destruct (binary_search_by f l) as [i|i].
  - destruct Hb as (x & _ & Hx). unfold f in Hx. by destruct (p x).
  - destruct Hb as (Hi & Hlt & Hgt). exists (take i l), (drop i l).
    split; [by rewrite take_drop|]. split; [rewrite length_take; lia|].
    split; apply Forall_lookup; intros j x Hx.
    + assert (j < i) by (apply lookup_lt_Some in Hx; rewrite length_take in Hx; lia).
      rewrite lookup_take_lt in Hx by done. specialize (Hlt j x ltac:(lia) Hx).
      unfold f in Hlt. by destruct (p x).
    + rewrite lookup_drop in Hx. specialize (Hgt (i + j) x ltac:(lia) Hx).
      unfold f in Hgt. by destruct (p x).
Qed.

Lemma StronglySorted_app_iff {A} (R : A -> A -> Prop) l1 l2 :
  StronglySorted R (l1 ++ l2) <->
  StronglySorted R l1 /\ StronglySorted R l2 /\ Forall (fun x => Forall (R x) l2) l1.
Proof.
  induction l1 as [|x l1 IH]; simpl.
  - split; [intros H; split_and!; auto using SSorted_nil, Forall_nil_2|tauto].
  - split.
    + intros H. apply StronglySorted_inv in H as [H1 H2]. apply Forall_app in H2 as [H2 H3].
      apply IH in H1 as (? & ? & ?). split_and!; auto using SSorted_cons, Forall_cons_2.
    + intros (H1 & H2 & H3). apply StronglySorted_inv in H1 as [H1 H4].
      inversion H3; subst. constructor; [by apply IH|by apply Forall_app].
Qed.

Lemma vec_insert_app {A} (l1 l2 : list A) x :
  vec_insert (length l1) x (l1 ++ l2) = l1 ++ x :: l2.
Proof. unfold vec_insert. by rewrite take_app_length, drop_app_length. Qed.
