(* ===== verification/Swar.v ===== *)
(** * SWAR byte classification ([rustc_lexer])

    The lexer tests eight bytes at a time: a [u64] holds the chunk in little
    endian order and the class of each byte is computed in that byte's high
    bit.  This file models the bit tricks as they are written (64-bit wrapping
    arithmetic) and shows that every byte of the answer is the answer for that
    byte alone. *)
From Stdlib Require Import ZArith Lia.
From stdpp Require Import base numbers list.
From S2P Require Import Prelude RustStr.
Open Scope Z_scope.

Definition SWAR_ONES : Z := 0x0101010101010101.
Definition SWAR_HIGH : Z := 0x8080808080808080.

(** The class bits of one byte, and the table the [const] block fills: bit 0 is
    ASCII XID_Continue, bit 1 ASCII white space, bit 2 ASCII XID_Start or [_]. *)
Definition ascii_class_bits (b : Z) : Z :=
  let c1 := if is_ascii_alphabetic b || (b =? 95) then Z.lor 1 4 else 0 in
  let c2 := if is_ascii_digit b then Z.lor c1 1 else c1 in
  if ((9 <=? b) && (b <=? 13)) || (b =? 32) then Z.lor c2 2 else c2.

Definition ASCII_CLASSES : list Z :=
  (fun b => if b <? 128 then ascii_class_bits b else 0) <$> seqZ 0 256.

Definition ascii_class (b : Z) : Z := default 0 (ASCII_CLASSES !! Z.to_nat b).

Definition swar_ge (x lo : Z) : Z :=
  Z.land (wrap_u64 (Z.lor x SWAR_HIGH - wrap_u64 (SWAR_ONES * lo))) SWAR_HIGH.

Definition swar_in (x lo hi : Z) : Z :=
  Z.land (swar_ge x lo) (not_u64 (swar_ge x (wrap_u8 (hi + 1)))).

Definition swar_id_continue (x : Z) : Z :=
  let folded := Z.lor x (wrap_u64 (SWAR_ONES * 0x20)) in
  let ok := Z.lor (Z.lor (swar_in x 48 57) (swar_in folded 97 122)) (swar_in x 95 95) in
  Z.land ok (not_u64 x).

Definition swar_whitespace (x : Z) : Z :=
  Z.land (Z.lor (swar_in x 9 13) (swar_in x 32 32)) (not_u64 x).

(** [u64::trailing_zeros]. *)
Fixpoint ctz (fuel : nat) (z : Z) : nat :=
  match fuel with
  | O => O
  | S f => if Z.odd z then O else S (ctz f (Z.div2 z))
  end.
Definition trailing_zeros (z : Z) : nat := ctz 64 z.

(** ** Bytewise reasoning *)

Definition is_byte (b : Z) : Prop := 0 <= b < 256.

(** A word given byte by byte, from a chunk. *)
Definition bytewise (f : Z -> Z) (l : list Z) : Z := from_le_bytes (f <$> l).

Lemma testbit_byte_cons a x n :
  is_byte a -> 0 <= n ->
  Z.testbit (a + 256 * x) n = if n <? 8 then Z.testbit a n else Z.testbit x (n - 8).
Proof.
  unfold is_byte. intros Ha Hn. case_if E; propify.
  - rewrite <- (Z.mod_pow2_bits_low (a + 256 * x) 8 n) by lia.
    by replace ((a + 256 * x) mod 2 ^ 8) with a
      by (change (2 ^ 8) with 256; rewrite Z.mul_comm, Z_mod_plus_full, Z.mod_small; lia).
  - replace n with (n - 8 + 8) at 1 by lia. rewrite <- Z.div_pow2_bits by lia.
    by replace ((a + 256 * x) / 2 ^ 8) with x
      by (change (2 ^ 8) with 256; rewrite Z.mul_comm, Z_div_plus_full, Z.div_small; lia).
Qed.

Lemma is_byte_land a b : is_byte a -> is_byte b -> is_byte (Z.land a b).
Proof.
  unfold is_byte. intros Ha Hb. rewrite <- (Z.mod_small b 256) by lia.
  change 256 with (2 ^ 8). rewrite <- Z.land_ones, Z.land_assoc, Z.land_ones by lia.
  apply Z.mod_pos_bound. lia.
Qed.

Lemma is_byte_lor a b : is_byte a -> is_byte b -> is_byte (Z.lor a b).
Proof.
  unfold is_byte. intros Ha Hb.
  rewrite <- (Z.mod_small a 256), <- (Z.mod_small b 256) by lia.
  change 256 with (2 ^ 8). rewrite <- !Z.land_ones, <- Z.land_lor_distr_l, Z.land_ones by lia.
  apply Z.mod_pos_bound. lia.
Qed.

Lemma land_byte_cons a b x y : is_byte a -> is_byte b ->
  Z.land (a + 256 * x) (b + 256 * y) = Z.land a b + 256 * Z.land x y.
Proof.
  intros Ha Hb. apply Z.bits_inj'. intros n Hn.
  rewrite Z.land_spec, !testbit_byte_cons by auto using is_byte_land.
  case_if E; by rewrite Z.land_spec.
Qed.

Lemma lor_byte_cons a b x y : is_byte a -> is_byte b ->
  Z.lor (a + 256 * x) (b + 256 * y) = Z.lor a b + 256 * Z.lor x y.
Proof.
  intros Ha Hb. apply Z.bits_inj'. intros n Hn.
  rewrite Z.lor_spec, !testbit_byte_cons by auto using is_byte_lor.
  case_if E; by rewrite Z.lor_spec.
Qed.

Section Bytewise.
Context (l : list Z) (Hl : Forall is_byte l).

Definition byte_fun (f : Z -> Z) : Prop := forall b, is_byte b -> is_byte (f b).

Lemma bytewise_land f g : byte_fun f -> byte_fun g ->
  Z.land (bytewise f l) (bytewise g l) = bytewise (fun b => Z.land (f b) (g b)) l.
Proof.
  intros Hf Hg. unfold bytewise. induction Hl as [|b l' Hb Hl' IH]; [done|].
  rewrite !fmap_cons; cbn [from_le_bytes].
  rewrite land_byte_cons by auto. by rewrite IH.
Qed.

Lemma bytewise_lor f g : byte_fun f -> byte_fun g ->
  Z.lor (bytewise f l) (bytewise g l) = bytewise (fun b => Z.lor (f b) (g b)) l.
Proof.
  intros Hf Hg. unfold bytewise. induction Hl as [|b l' Hb Hl' IH]; [done|].
  rewrite !fmap_cons; cbn [from_le_bytes].
  rewrite lor_byte_cons by auto. by rewrite IH.
Qed.

Lemma bytewise_sub f g : bytewise f l - bytewise g l = bytewise (fun b => f b - g b) l.
Proof.
  clear Hl. unfold bytewise. induction l as [|b l' IH]; [done|].
  rewrite !fmap_cons; cbn [from_le_bytes]. rewrite <- IH. lia.
Qed.

Lemma bytewise_scale k f : bytewise f l * k = bytewise (fun b => f b * k) l.
Proof.
  clear Hl. unfold bytewise. induction l as [|b l' IH]; [done|].
  rewrite !fmap_cons; cbn [from_le_bytes]. rewrite <- IH. lia.
Qed.

Lemma bytewise_ext f g :
  (forall b, is_byte b -> f b = g b) -> bytewise f l = bytewise g l.
Proof.
  intros H. unfold bytewise. f_equal. apply list_fmap_ext. intros i b Hb.
  apply H. by eapply Forall_lookup_1.
Qed.

Lemma bytewise_bound f : byte_fun f -> 0 <= bytewise f l < 256 ^ Z.of_nat (length l).
Proof.
  intros Hf. unfold bytewise. induction Hl as [|b l' Hb Hl' IH]; [simpl; lia|].
  rewrite fmap_cons; cbn [from_le_bytes length]. rewrite Nat2Z.inj_succ, Z.pow_succ_r by lia. specialize (Hf b Hb). specialize (IH Hl'). unfold is_byte in Hf. lia.
Qed.
End Bytewise.

Lemma bytewise_const k l : length l = 8%nat -> bytewise (fun _ => k) l = SWAR_ONES * k.
Proof.
  intros H. do 8 (destruct l as [|? l]; [discriminate|]). destruct l; [|discriminate].
  cbv [bytewise]. simpl. unfold SWAR_ONES. lia.
Qed.

Lemma from_le_bytes_id l : from_le_bytes l = bytewise (fun b => b) l.
Proof. unfold bytewise. by rewrite list_fmap_id. Qed.

(** ** Checking a property of all bytes by evaluation *)

Definition all_bytes (p : Z -> bool) : bool := forallb p (seqZ 0 256).

Lemma all_bytes_spec p : all_bytes p = true -> forall b, is_byte b -> p b = true.
Proof.
  unfold all_bytes, is_byte. intros H b Hb. rewrite forallb_forall in H.
  apply H. apply list_elem_of_In, elem_of_seqZ. lia.
Qed.

Ltac by_bytes :=
  match goal with
  | |- forall b, is_byte b -> ?P => idtac
  end;
  let b := fresh "b" in let Hb := fresh "Hb" in intros b Hb;
  match goal with
  | |- ?f = ?g => apply Z.eqb_eq; pattern b;
      match goal with |- (fun x => @?h x = true) _ =>
        apply (all_bytes_spec h); [vm_compute; reflexivity | exact Hb] end
  end.

Lemma byte_fun_check f :
  all_bytes (fun b => (0 <=? f b) && (f b <? 256)) = true -> byte_fun f.
Proof. intros H b Hb. apply (all_bytes_spec _ H) in Hb. propify. split; lia. Qed.

(** Each 64-bit operation of the tricks, on words given byte by byte. *)
Section Words.
Context (l : list Z) (Hl : Forall is_byte l) (Hlen : length l = 8%nat).

Lemma word_wrap f : byte_fun f -> wrap_u64 (bytewise f l) = bytewise f l.
Proof.
  intros Hf. unfold wrap_u64. apply Z.mod_small.
  pose proof (bytewise_bound l Hl f Hf) as Hb. by rewrite Hlen in Hb.
Qed.

Lemma word_not f : not_u64 (bytewise f l) = bytewise (fun b => 255 - f b) l.
Proof.
  unfold not_u64. rewrite <- bytewise_sub. f_equal.
  by rewrite bytewise_const.
Qed.

Definition ge_byte (lo b : Z) : Z := Z.land (Z.lor b 0x80 - lo) 0x80.

Lemma lor_80_byte : forall b, is_byte b -> Z.lor b 0x80 = 128 + b mod 128.
Proof. by_bytes. Qed.

Lemma ge_byte_spec lo b : 0 <= lo <= 0x80 -> is_byte b ->
  ge_byte lo b = if lo <=? b mod 128 then 0x80 else 0.
Proof.
  intros Hlo Hb. unfold ge_byte. rewrite lor_80_byte by done.
  pose proof (Z.mod_pos_bound b 128). set (m := b mod 128) in *.
  assert (is_byte (128 + m - lo)) as Hd by (unfold is_byte; lia).
  replace (Z.land (128 + m - lo) 0x80) with (if 128 <=? 128 + m - lo then 0x80 else 0).
  - case_ifs; propify; lia.
  - revert Hd. generalize (128 + m - lo). clear.
    assert (forall b, is_byte b -> (if 128 <=? b then 0x80 else 0) = Z.land b 0x80) by by_bytes.
    auto.
Qed.

Lemma word_ge f lo : byte_fun f -> 0 <= lo <= 0x80 ->
  swar_ge (bytewise f l) lo = bytewise (fun b => ge_byte lo (f b)) l.
Proof.
  intros Hf Hlo. unfold swar_ge, ge_byte.
  assert (HH : SWAR_HIGH = bytewise (fun _ => 0x80) l) by by rewrite bytewise_const.
  assert (H80 : byte_fun (fun _ => 0x80)) by (intros ??; unfold is_byte; lia).
  assert (Hsub : byte_fun (fun b => Z.lor (f b) 0x80 - lo)).
  { intros b Hb. rewrite lor_80_byte by auto.
    pose proof (Z.mod_pos_bound (f b) 128). unfold is_byte. lia. }
  assert (Hc : byte_fun (fun _ => lo)) by (intros ??; unfold is_byte; lia).
  rewrite HH, bytewise_lor by auto.
  rewrite <- bytewise_const with (l := l), word_wrap, bytewise_sub, word_wrap by auto.
  by rewrite bytewise_land.
Qed.

Definition in_byte (lo hi b : Z) : Z := Z.land (ge_byte lo b) (255 - ge_byte (hi + 1) b).

Lemma word_in f lo hi : byte_fun f -> 0 <= lo <= 0x80 -> 0 <= hi < 0x7F ->
  swar_in (bytewise f l) lo hi = bytewise (fun b => in_byte lo hi (f b)) l.
Proof.
  intros Hf Hlo Hhi. unfold swar_in, in_byte, wrap_u8. rewrite (Z.mod_small (hi + 1)) by lia.
  rewrite !word_ge, word_not by (auto; lia).
  rewrite bytewise_land; [done|done| |]; intros b Hb; rewrite ge_byte_spec by (auto; lia);
    case_ifs; unfold is_byte; lia.
Qed.
End Words.

(** The ASCII classes as predicates on one byte. *)
Definition ascii_id_continue (b : Z) : bool := is_ascii_alphanumeric b || (b =? 95).
Definition ascii_id_start (b : Z) : bool := is_ascii_alphabetic b || (b =? 95).
Definition ascii_whitespace (b : Z) : bool := ((9 <=? b) && (b <=? 13)) || (b =? 32).
Definition high_bit (p : Z -> bool) (b : Z) : Z := if p b then 0x80 else 0.

Lemma byte_fun_id : byte_fun (fun b => b).
Proof. by intros ?. Qed.

Lemma swar_whitespace_bytes l : Forall is_byte l -> length l = 8%nat ->
  swar_whitespace (from_le_bytes l) = bytewise (high_bit ascii_whitespace) l.
Proof.
  intros Hl Hlen. unfold swar_whitespace. rewrite from_le_bytes_id.
  rewrite !word_in by (auto using byte_fun_id; lia). rewrite word_not by done.
  rewrite bytewise_lor by (auto; apply byte_fun_check; vm_compute; reflexivity).
  rewrite bytewise_land by (auto; apply byte_fun_check; vm_compute; reflexivity).
  apply bytewise_ext; [done|]. by_bytes.
Qed.

Lemma swar_id_continue_bytes l : Forall is_byte l -> length l = 8%nat ->
  swar_id_continue (from_le_bytes l) = bytewise (high_bit ascii_id_continue) l.
Proof.
  intros Hl Hlen. unfold swar_id_continue. rewrite from_le_bytes_id.
  assert (H20 : byte_fun (fun _ => 0x20)) by (intros ??; unfold is_byte; lia).
  assert (Hor : byte_fun (fun b => Z.lor b 0x20)) by (apply byte_fun_check; vm_compute; reflexivity).
  rewrite <- bytewise_const with (l := l) (k := 0x20) by done.
  rewrite (word_wrap l Hl Hlen (fun _ => 0x20)) by done.
  rewrite (bytewise_lor l Hl (fun b => b) (fun _ => 0x20)) by auto using byte_fun_id.
  rewrite !word_in by (auto using byte_fun_id; lia). rewrite word_not by done.
  rewrite bytewise_lor by (auto; apply byte_fun_check; vm_compute; reflexivity).
  rewrite bytewise_lor by (auto; apply byte_fun_check; vm_compute; reflexivity).
  rewrite bytewise_land by (auto; apply byte_fun_check; vm_compute; reflexivity).
  apply bytewise_ext; [done|]. by_bytes.
Qed.

(** The index of the first byte whose high bit is set. *)
Lemma div2_double z : Z.div2 (2 * z) = z.
Proof. rewrite Z.div2_div, Z.mul_comm, Z.div_mul; lia. Qed.

Lemma odd_double z : Z.odd (2 * z) = false.
Proof. by rewrite Z.odd_mul. Qed.

Lemma ctz_shift8 f y : ctz (8 + f) (256 * y) = (8 + ctz f y)%nat.
Proof.
  replace (256 * y) with (2 * (2 * (2 * (2 * (2 * (2 * (2 * (2 * y)))))))) by lia.
  cbn [Nat.add ctz]. by rewrite !div2_double, !odd_double.
Qed.

Lemma ctz_high f y : ctz (8 + f) (128 + 256 * y) = 7%nat.
Proof.
  replace (128 + 256 * y) with (2 * (2 * (2 * (2 * (2 * (2 * (2 * (1 + 2 * y)))))))) by lia.
  cbn [Nat.add ctz]. rewrite !div2_double, !odd_double. by rewrite Z.odd_add, odd_double.
Qed.

Lemma ctz_bytes q l : Forall is_byte l ->
  (ctz (8 * length l) (bytewise (high_bit q) l) / 8)%nat =
  default (length l) (position q l).
Proof.
  intros Hl. unfold bytewise. induction Hl as [|b l Hb Hl IH]; [done|].
  rewrite fmap_cons. cbn [from_le_bytes length position].
  replace (8 * S (length l))%nat with (8 + 8 * length l)%nat by lia.
  unfold high_bit at 1. destruct (q b).
  - by rewrite ctz_high.
  - rewrite Z.add_0_l, ctz_shift8. replace (8 + _)%nat with (1 * 8 +
      ctz (8 * length l) (from_le_bytes (high_bit q <$> l)))%nat by lia.
    rewrite Nat.div_add_l by lia. rewrite IH. destruct (position q l); simpl; lia.
Qed.

Lemma ascii_class_spec b : is_byte b ->
  negb (Z.land (ascii_class b) 1 =? 0) = ascii_id_continue b
  /\ negb (Z.land (ascii_class b) 2 =? 0) = ascii_whitespace b
  /\ negb (Z.land (ascii_class b) 4 =? 0) = ascii_id_start b.
Proof.
  intros Hb. repeat split; apply eqb_prop; revert b Hb;
    [apply (all_bytes_spec (fun b => Bool.eqb (negb (Z.land (ascii_class b) 1 =? 0)) (ascii_id_continue b)))
    |apply (all_bytes_spec (fun b => Bool.eqb (negb (Z.land (ascii_class b) 2 =? 0)) (ascii_whitespace b)))
    |apply (all_bytes_spec (fun b => Bool.eqb (negb (Z.land (ascii_class b) 4 =? 0)) (ascii_id_start b)))];
    vm_compute; reflexivity.
Qed.

(** The bytes of a string are bytes, and the first one tells an ASCII character. *)
Lemma encode_utf8_is_byte c : is_scalar c = true -> Forall is_byte (encode_utf8 c).
Proof.
  intros Hs. assert (Hc : 0 <= c < 0x110000)
    by (unfold is_scalar in Hs; propify; destruct Hs; propify; lia).
  assert (Hl : forall z, 0 <= z -> is_byte (Z.land z 0x3F)).
  { intros z Hz. change 0x3F with (Z.ones 6). rewrite Z.land_ones by lia.
    pose proof (Z.mod_pos_bound z (2 ^ 6)). unfold is_byte. lia. }
  assert (Hr : forall k, 0 <= Z.shiftr c k) by (intros; apply Z.shiftr_nonneg; lia).
  assert (Hk : forall k m, 0 <= k -> c < m * 2 ^ k -> 0 <= m <= 256 -> is_byte (Z.shiftr c k)).
  { intros k m Hk Hm Hm'. unfold is_byte. split; [auto|]. rewrite Z.shiftr_div_pow2 by lia.
    apply Z.div_lt_upper_bound; [apply Z.pow_pos_nonneg; lia|].
    pose proof (Z.pow_pos_nonneg 2 k). nia. }
  assert (H80 : forall z, 0 <= z < 256 -> is_byte z) by (unfold is_byte; lia).
  unfold encode_utf8. case_ifs; propify;
    repeat (constructor; [first [apply is_byte_lor; [apply H80; lia|] | apply H80; lia]|]);
    try constructor; auto; try (apply Hl; solve [lia | auto]).
  - apply (Hk 6 32); lia.
  - apply (Hk 12 16); lia.
  - apply (Hk 18 8); lia.
Qed.

Lemma as_bytes_is_byte s : wf_str s -> Forall is_byte (as_bytes s).
Proof.
  induction 1; simpl; [constructor|]. apply Forall_app. auto using encode_utf8_is_byte.
Qed.

Lemma head_byte c s b : wf_str (c :: s) -> as_bytes (c :: s) !! 0%nat = Some b ->
  (b < 0x80 <-> c < 0x80) /\ (b < 0x80 -> b = c).
Proof.
  intros Hwf Hb. inversion Hwf as [|? ? Hc Hs]; subst. simpl in Hb.
  destruct (is_ascii c) eqn:Ea.
  - rewrite encode_utf8_ascii in Hb by done. injection Hb as <-. unfold is_ascii in Ea.
    propify. lia.
  - assert (b ∈ encode_utf8 c) as Hin.
    { pose proof (len_utf8_pos c) as Hp. rewrite <- length_encode_utf8 in Hp.
      destruct (encode_utf8 c) as [|x l]; simpl in *; [lia|]. injection Hb as ->. left. }
    pose proof (encode_utf8_high _ _ Hc Ea Hin). unfold is_ascii in Ea. propify. lia.
Qed.

Lemma as_bytes_nil_iff s : as_bytes s !! 0%nat = None <-> s = [].
Proof.
  destruct s as [|c s]; simpl; [done|]. pose proof (len_utf8_pos c) as Hp.
  rewrite <- length_encode_utf8 in Hp. destruct (encode_utf8 c); simpl in *; [lia|done].
Qed.

(** The stop mask of the chunk loop, from the class mask of the chunk. *)
Lemma stop_mask q l : Forall is_byte l -> length l = 8%nat ->
  Z.land (not_u64 (bytewise (high_bit q) l)) SWAR_HIGH = bytewise (high_bit (fun b => negb (q b))) l.
Proof.
  intros Hl Hlen. rewrite word_not by done.
  assert (HH : SWAR_HIGH = bytewise (fun _ => 0x80) l) by by rewrite bytewise_const.
  rewrite HH, bytewise_land.
  - apply bytewise_ext; [done|]. intros b Hb. unfold high_bit. by destruct (q b).
  - done.
  - intros b Hb. unfold high_bit. destruct (q b); unfold is_byte; lia.
  - intros b Hb. unfold is_byte; lia.
Qed.

Lemma bytewise_high_zero q l : Forall is_byte l ->
  (bytewise (high_bit q) l = 0 <-> position q l = None).
Proof.
  unfold bytewise. induction 1 as [|b l Hb Hl IH]; [done|].
  rewrite fmap_cons. cbn [from_le_bytes position]. unfold high_bit at 1.
  assert (0 <= from_le_bytes (high_bit q <$> l)).
  { apply (bytewise_bound l Hl (high_bit q)). intros x Hx. unfold high_bit.
    destruct (q x); unfold is_byte; lia. }
  destruct (q b).
  - split; [lia|discriminate].
  - rewrite Z.add_0_l. destruct (position q l); simpl; [|tauto || (split; intros; [done|]; apply Z.mul_eq_0; right; tauto)].
    split; [|discriminate]. intros ?. assert (from_le_bytes (high_bit q <$> l) = 0) as H1 by lia.
    apply IH in H1. discriminate.
Qed.
