(* ===== verification/Lexer.v ===== *)
(** * The low-level lexer ([src/rustc_lexer/mod.rs])

    The cursor, every scanning routine and the token dispatch, as state-passing
    functions on the cursor.  The code is modelled as it runs in a release
    build: [debug_assert!]s and the [prev] field that only they read are left
    out, and integer arithmetic wraps.  An [unsafe] slice that the code proves
    to be in range is a [Panic] when it is not.

    Not under [src/], so parameters: the Unicode tables of [unicode_ident] and
    [unicode_properties], and the byte searches of [memchr]. *)
From Stdlib Require Import Ascii String.
From Stdlib Require Import ZArith Lia.
From stdpp Require Import base numbers list.
From S2P Require Import Prelude RustStr Swar.
Open Scope Z_scope.
Open Scope rust_scope.

(** ** External code *)

Class LexDeps := {
  is_xid_start : Z -> bool;
  is_xid_continue : Z -> bool;
  is_emoji_char : Z -> bool;
  memchr : Z -> list Z -> option nat;
  memchr2 : Z -> Z -> list Z -> option nat;
}.

(** What the lexer relies on: [memchr] and [memchr2] return the first offset of
    a byte (of one of two bytes), and the two XID tables have the ASCII members
    that UAX 31 gives them. *)
Class LexDepsOk (D : LexDeps) := {
  memchr_first : forall b l, memchr b l = position (fun x => x =? b) l;
  memchr2_first : forall a b l,
    memchr2 a b l = position (fun x => (x =? a) || (x =? b)) l;
  xid_start_ascii : forall c, 0 <= c < 0x80 -> is_xid_start c = is_ascii_alphabetic c;
  xid_continue_ascii : forall c, 0 <= c < 0x80 ->
    is_xid_continue c = is_ascii_alphanumeric c || (c =? 95);
}.

(** ** Tokens *)

Inductive DocStyle := Outer | Inner.

Inductive Base := Binary | Octal | Decimal | Hexadecimal.

Inductive LiteralKind :=
| Int (base : Base) (empty_int : bool)
| Float (base : Base) (empty_exponent : bool)
| Char (terminated : bool)
| Byte (terminated : bool)
| Str (terminated : bool)
| ByteStr (terminated : bool)
| CStr (terminated : bool)
| RawStr (n_hashes : option Z)
| RawByteStr (n_hashes : option Z)
| RawCStr (n_hashes : option Z).

(** [Eq_], [Lt_] and [Gt_] are the source's [Eq], [Lt] and [Gt]. *)
Inductive TokenKind :=
| LineComment (doc_style : option DocStyle)
| BlockComment (doc_style : option DocStyle) (terminated : bool)
| Whitespace
| Frontmatter (has_invalid_preceding_whitespace invalid_infostring : bool)
| Ident | InvalidIdent | RawIdent
| UnknownPrefix | UnknownPrefixLifetime | RawLifetime | GuardedStrPrefix
| Literal (kind : LiteralKind) (suffix_start : Z)
| Lifetime (starts_with_number : bool)
| Semi | Comma | Dot | OpenParen | CloseParen | OpenBrace | CloseBrace
| OpenBracket | CloseBracket | At | Pound | Tilde | Question | Colon | Dollar
| Eq_ | Bang | Lt_ | Gt_ | Minus | And | Or | Plus | Star | Slash | Caret
| Percent
| Unknown
| Eof.

Record Token := mkToken { kind : TokenKind; len : Z }.

Record GuardedStr := mkGuardedStr { n_hashes : Z; g_terminated : bool; token_len : Z }.

Inductive RawStrError :=
| InvalidStarter (bad_char : Z)
| NoTerminator (expected found : Z) (possible_terminator_offset : option Z)
| TooManyDelimiters (found : Z).

#[export] Instance DocStyle_eq_dec : EqDecision DocStyle.
Proof. solve_decision. Defined.
#[export] Instance Base_eq_dec : EqDecision Base.
Proof. solve_decision. Defined.
#[export] Instance LiteralKind_eq_dec : EqDecision LiteralKind.
Proof. solve_decision. Defined.
#[export] Instance TokenKind_eq_dec : EqDecision TokenKind.
Proof. solve_decision. Defined.

Inductive FrontmatterAllowed := Yes | No.

Record Cursor := mkCursor {
  len_remaining : nat;
  chars : str;
  frontmatter_allowed : FrontmatterAllowed;
}.

Definition EOF_CHAR : Z := 0.

(** ** Character classes *)

Definition is_whitespace (c : char) : bool :=
  (c =? 0x0A) || (c =? 0x0B) || (c =? 0x0C) || (c =? 0x0D) || (c =? 0x85)
  || (c =? 0x2028) || (c =? 0x2029) || (c =? 0x200E) || (c =? 0x200F)
  || (c =? 0x09) || (c =? 0x20).

Definition is_horizontal_whitespace (c : char) : bool := (c =? 0x09) || (c =? 0x20).

(** ** The cursor *)

Definition new_cursor (input : str) (fm : FrontmatterAllowed) : Cursor :=
  {| len_remaining := str_len input; chars := input; frontmatter_allowed := fm |}.

Definition set_chars (c : Cursor) (s : str) : Cursor :=
  {| len_remaining := len_remaining c; chars := s;
     frontmatter_allowed := frontmatter_allowed c |}.

Definition first (c : Cursor) : char := default EOF_CHAR (chars c !! 0%nat).
Definition second (c : Cursor) : char := default EOF_CHAR (chars c !! 1%nat).
Definition third (c : Cursor) : char := default EOF_CHAR (chars c !! 2%nat).

Definition is_eof (c : Cursor) : bool := match chars c with [] => true | _ => false end.

Definition pos_within_token (c : Cursor) : Z :=
  wrap_u32 (Z.of_nat (len_remaining c) - Z.of_nat (str_len (chars c))).

Definition reset_pos_within_token (c : Cursor) : Cursor :=
  {| len_remaining := str_len (chars c); chars := chars c;
     frontmatter_allowed := frontmatter_allowed c |}.

Definition bump (c : Cursor) : option char * Cursor :=
  match chars c with
  | [] => (None, c)
  | x :: s => (Some x, set_chars c s)
  end.

(** [self.bump();] with the result dropped. *)
Definition bump_ (c : Cursor) : Cursor := (bump c).2.

(** The [n] bytes that the next three skip must end on a character boundary. *)
Definition bump_ascii (byte : Z) (c : Cursor) : outcome Cursor :=
  let* s := unwrap (str_from 1 (chars c)) in Ret (set_chars c s).

Definition bump_bytes (n : nat) (c : Cursor) : outcome Cursor :=
  let* s := unwrap (str_from n (chars c)) in Ret (set_chars c s).

Definition advance_bytes (n : nat) (c : Cursor) : outcome Cursor :=
  let* s := unwrap (str_from n (chars c)) in Ret (set_chars c s).

(** [while predicate(self.first()) && !self.is_eof() { self.bump(); }] *)
Definition eat_while (predicate : char -> bool) (c : Cursor) : Cursor :=
  set_chars c
    ((fix go (s : str) : str :=
        match s with
        | [] => []
        | x :: s' => if predicate x then go s' else s
        end) (chars c)).

(** [self.as_str().as_bytes().first().copied()] and [.get(1).copied()]. *)
Definition first_byte (c : Cursor) : option Z := as_bytes (chars c) !! 0%nat.
Definition second_byte (c : Cursor) : option Z := as_bytes (chars c) !! 1%nat.
Definition byte_is (o : option Z) (b : Z) : bool :=
  match o with Some x => x =? b | None => false end.

(** ** [eat_while_ascii] *)
Section EatWhileAscii.
Context (block : Z -> Z) (ascii : Z -> bool) (predicate : char -> bool).
Context (rest : str).
Let bytes : list Z := as_bytes rest.

(** [for _ in 0..4]: the flag is [true] for [break 'scan]. *)
Fixpoint ewa_probe (k : nat) (i : nat) : nat * bool :=
  match k with
  | O => (i, false)
  | S k' =>
      match bytes !! i with
      | None => (i, true)
      | Some b =>
          if 0x80 <=? b then (i, false)
          else if negb (ascii b) then (i, true)
          else ewa_probe k' (i + 1)
      end
  end.

(** [while let Some(chunk) = bytes.get(i..i + 8)] *)
Fixpoint ewa_chunks (fuel : nat) (i : nat) : outcome (nat * bool) :=
  match fuel with
  | O => OutOfFuel
  | S f =>
      match get_range bytes i (i + 8) with
      | None => Ret (i, false)
      | Some chunk =>
          let x := from_le_bytes chunk in
          let stop := Z.land (not_u64 (block x)) SWAR_HIGH in
          if negb (stop =? 0) then
            let i := (i + trailing_zeros stop / 8)%nat in
            let* b := unwrap (bytes !! i) in
            Ret (i, b <? 0x80)
          else ewa_chunks f (i + 8)
      end
  end.

(** ['scan: loop] *)
Fixpoint ewa_scan (fuel : nat) (i : nat) : outcome nat :=
  match fuel with
  | O => OutOfFuel
  | S f =>
      let '(i, stop) := ewa_probe 4 i in
      if stop then Ret i else
      let* '(i, stop) := ewa_chunks (S (length bytes)) i in
      if stop then Ret i else
      match bytes !! i with
      | None => Ret i
      | Some b =>
          if b <? 0x80 then
            if negb (ascii b) then Ret i else ewa_scan f (i + 1)
          else
            let* tail := unwrap (str_from i rest) in
            let* c := unwrap (tail !! 0%nat) in
            if negb (predicate c) then Ret i else ewa_scan f (i + len_utf8 c)
      end
  end.
End EatWhileAscii.

Definition eat_while_ascii (block : Z -> Z) (ascii : Z -> bool) (predicate : char -> bool)
    (c : Cursor) : outcome Cursor :=
  let rest := chars c in
  let* i := ewa_scan block ascii predicate rest (S (str_len rest)) 0 in
  advance_bytes i c.

Definition eat_whitespace (c : Cursor) : outcome Cursor :=
  eat_while_ascii swar_whitespace
    (fun b => negb (Z.land (ascii_class b) 2 =? 0)) is_whitespace c.

(** ** Lexing *)
Section Lexing.
Context {D : LexDeps}.

Definition is_id_start (c : char) : bool := (c =? 95) || is_xid_start c.
Definition is_id_continue (c : char) : bool := is_xid_continue c.

Definition is_ident (s : str) : bool :=
  match s with
  | [] => false
  | start :: chars => is_id_start start && forallb is_id_continue chars
  end.

Definition eat_id_continue (c : Cursor) : outcome Cursor :=
  eat_while_ascii swar_id_continue
    (fun b => negb (Z.land (ascii_class b) 1 =? 0)) is_id_continue c.

Definition eat_until (byte : Z) (c : Cursor) : outcome Cursor :=
  match memchr byte (as_bytes (chars c)) with
  | Some index => let* s := unwrap (str_from index (chars c)) in Ret (set_chars c s)
  | None => Ret (set_chars c [])
  end.

Definition skip_whitespace (c : Cursor) : outcome (Z * Cursor) :=
  match frontmatter_allowed c, first_byte c with
  | No, Some b =>
      if ((0x09 <=? b) && (b <=? 0x0D)) || (b =? 0x20) then
        let* c := eat_whitespace c in
        Ret (pos_within_token c, reset_pos_within_token c)
      else Ret (0, c)
  | _, _ => Ret (0, c)
  end.

(** *** Identifiers *)

Definition eat_identifier (c : Cursor) : outcome Cursor :=
  match first_byte c with
  | Some b =>
      if is_ascii b then
        if Z.land (ascii_class b) 4 =? 0 then Ret c
        else let* c := bump_ascii b c in eat_id_continue c
      else if negb (is_id_start (first c)) then Ret c
      else eat_id_continue (bump_ c)
  | None =>
      if negb (is_id_start (first c)) then Ret c else eat_id_continue (bump_ c)
  end.

Definition eat_literal_suffix (c : Cursor) : outcome Cursor := eat_identifier c.

Definition ZERO_WIDTH_JOINER : Z := 0x200d.

Definition invalid_ident (c : Cursor) : outcome (TokenKind * Cursor) :=
  Ret (InvalidIdent,
       eat_while (fun ch => is_id_continue ch || (negb (is_ascii ch) && is_emoji_char ch)
                            || (ch =? ZERO_WIDTH_JOINER)) c).

Definition ident_or_unknown_prefix (c : Cursor) : outcome (TokenKind * Cursor) :=
  let* c := eat_id_continue c in
  match first_byte c with
  | Some b =>
      if (b =? ch "#") || (b =? DQUOTE) || (b =? SQUOTE) then Ret (UnknownPrefix, c)
      else if negb (is_ascii b) && is_emoji_char (first c) then invalid_ident c
      else Ret (Ident, c)
  | None => Ret (Ident, c)
  end.

Definition raw_ident (c : Cursor) : outcome (TokenKind * Cursor) :=
  let c := bump_ c in
  let* c := eat_identifier c in
  Ret (RawIdent, c).

(** *** Comments and white space *)

Definition line_comment (c : Cursor) : outcome (TokenKind * Cursor) :=
  let c := bump_ c in
  let doc_style :=
    if first c =? ch "!" then Some Inner
    else if (first c =? ch "/") && negb (second c =? ch "/") then Some Outer
    else None in
  let* c := eat_until NEWLINE c in
  Ret (LineComment doc_style, c).

(** The loop of [block_comment]; the result is the final [depth]. *)
Fixpoint block_comment_loop (fuel depth : nat) (c : Cursor) : outcome (nat * Cursor) :=
  match fuel with
  | O => OutOfFuel
  | S f =>
      let rest := as_bytes (chars c) in
      match memchr2 (ch "/") (ch "*") rest with
      | None => let* c := advance_bytes (length rest) c in Ret (depth, c)
      | Some i =>
          let* c := advance_bytes (i + 1) c in
          let* b := unwrap (rest !! i) in
          if (b =? ch "/") && (first c =? ch "*") then
            block_comment_loop f (depth + 1) (bump_ c)
          else if (b =? ch "*") && (first c =? ch "/") then
            let c := bump_ c in
            let depth := (depth - 1)%nat in
            if (depth =? 0)%nat then Ret (depth, c) else block_comment_loop f depth c
          else block_comment_loop f depth c
      end
  end.

Definition block_comment (c : Cursor) : outcome (TokenKind * Cursor) :=
  let c := bump_ c in
  let doc_style :=
    if first c =? ch "!" then Some Inner
    else if (first c =? ch "*") && negb ((second c =? ch "*") || (second c =? ch "/"))
    then Some Outer
    else None in
  let* '(depth, c) := block_comment_loop (S (length (chars c))) 1 c in
  Ret (BlockComment doc_style (depth =? 0)%nat, c).

Definition whitespace (c : Cursor) : outcome (TokenKind * Cursor) :=
  let* c := eat_whitespace c in Ret (Whitespace, c).

(** *** Quoted literals *)

Fixpoint single_quoted_loop (fuel : nat) (c : Cursor) : outcome (bool * Cursor) :=
  match fuel with
  | O => OutOfFuel
  | S f =>
      let x := first c in
      if x =? SQUOTE then Ret (true, bump_ c)
      else if x =? ch "/" then Ret (false, c)
      else if (x =? NEWLINE) && negb (second c =? SQUOTE) then Ret (false, c)
      else if (x =? EOF_CHAR) && is_eof c then Ret (false, c)
      else if x =? BACKSLASH then single_quoted_loop f (bump_ (bump_ c))
      else single_quoted_loop f (bump_ c)
  end.

Definition single_quoted_string (c : Cursor) : outcome (bool * Cursor) :=
  if (second c =? SQUOTE) && negb (first c =? BACKSLASH) then Ret (true, bump_ (bump_ c))
  else single_quoted_loop (S (length (chars c))) c.

Fixpoint double_quoted_loop (fuel : nat) (c : Cursor) : outcome (bool * Cursor) :=
  match fuel with
  | O => OutOfFuel
  | S f =>
      let rest := as_bytes (chars c) in
      match memchr2 DQUOTE BACKSLASH rest with
      | None => let* c := advance_bytes (length rest) c in Ret (false, c)
      | Some i =>
          let* c := advance_bytes (i + 1) c in
          let* b := unwrap (rest !! i) in
          if b =? DQUOTE then Ret (true, c)
          else
            let c := if (first c =? BACKSLASH) || (first c =? DQUOTE) then bump_ c else c in
            double_quoted_loop f c
      end
  end.

Definition double_quoted_string (c : Cursor) : outcome (bool * Cursor) :=
  double_quoted_loop (S (length (chars c))) c.

(** [while self.first() == '#' { n += 1; self.bump(); }] *)
Definition eat_hashes (n : Z) (c : Cursor) : Z * Cursor :=
  let fix go (n : Z) (s : str) : Z * str :=
    match s with
    | x :: s' => if x =? ch "#" then go (wrap_u32 (n + 1)) s' else (n, s)
    | [] => (n, s)
    end in
  let '(n, s) := go n (chars c) in (n, set_chars c s).

(** [while self.first() == '#' && n < max { n += 1; self.bump(); }] *)
Definition eat_hashes_upto (max n : Z) (c : Cursor) : Z * Cursor :=
  let fix go (n : Z) (s : str) : Z * str :=
    match s with
    | x :: s' => if (x =? ch "#") && (n <? max) then go (wrap_u32 (n + 1)) s' else (n, s)
    | [] => (n, s)
    end in
  let '(n, s) := go n (chars c) in (n, set_chars c s).

Fixpoint raw_string_loop (fuel : nat) (prefix_len start_pos n_start_hashes : Z)
    (max_hashes : Z) (possible_terminator_offset : option Z) (c : Cursor)
    : outcome ((RawStrError + Z) * Cursor) :=
  match fuel with
  | O => OutOfFuel
  | S f =>
      let* c := eat_until DQUOTE c in
      if is_eof c then
        Ret (inl (NoTerminator n_start_hashes max_hashes possible_terminator_offset), c)
      else
        let c := bump_ c in
        let '(n_end_hashes, c) := eat_hashes_upto n_start_hashes 0 c in
        if n_end_hashes =? n_start_hashes then Ret (inr n_start_hashes, c)
        else if max_hashes <? n_end_hashes then
          raw_string_loop f prefix_len start_pos n_start_hashes n_end_hashes
            (Some (wrap_u32 (pos_within_token c - start_pos - n_end_hashes + prefix_len))) c
        else
          raw_string_loop f prefix_len start_pos n_start_hashes max_hashes
            possible_terminator_offset c
  end.

Definition raw_string_unvalidated (prefix_len : Z) (c : Cursor)
    : outcome ((RawStrError + Z) * Cursor) :=
  let start_pos := pos_within_token c in
  let '(n_start_hashes, c) := eat_hashes 0 c in
  match bump c with
  | (Some x, c) =>
      if x =? DQUOTE then
        raw_string_loop (S (length (chars c))) prefix_len start_pos n_start_hashes 0 None c
      else Ret (inl (InvalidStarter x), c)
  | (None, c) => Ret (inl (InvalidStarter EOF_CHAR), c)
  end.

Definition raw_double_quoted_string (prefix_len : Z) (c : Cursor)
    : outcome ((RawStrError + Z) * Cursor) :=
  let* '(res, c) := raw_string_unvalidated prefix_len c in
  match res with
  | inl e => Ret (inl e, c)
  | inr n_hashes =>
      if n_hashes <=? u8_max then Ret (inr n_hashes, c)
      else Ret (inl (TooManyDelimiters n_hashes), c)
  end.

(** [Result::ok]. *)
Definition res_ok {E A} (r : E + A) : option A :=
  match r with inl _ => None | inr a => Some a end.

(** The suffix is eaten only after a terminated literal. *)
Definition suffix_if (terminated : bool) (c : Cursor) : outcome Cursor :=
  if terminated then eat_literal_suffix c else Ret c.

Definition r_prefixed (c : Cursor) : outcome (TokenKind * Cursor) :=
  if byte_is (first_byte c) (ch "#") && is_id_start (second c) then raw_ident c
  else if byte_is (first_byte c) (ch "#") || byte_is (first_byte c) DQUOTE then
    let* '(res, c) := raw_double_quoted_string 1 c in
    let suffix_start := pos_within_token c in
    let* c := suffix_if (match res with inr _ => true | inl _ => false end) c in
    Ret (Literal (RawStr (res_ok res)) suffix_start, c)
  else ident_or_unknown_prefix c.

Definition str_literal (c : Cursor) : outcome (TokenKind * Cursor) :=
  let* '(terminated, c) := double_quoted_string c in
  let suffix_start := pos_within_token c in
  let* c := suffix_if terminated c in
  Ret (Literal (Str terminated) suffix_start, c).

Definition c_or_byte_string (mk_kind : bool -> LiteralKind)
    (mk_kind_raw : option Z -> LiteralKind) (single_quoted : option (bool -> LiteralKind))
    (c : Cursor) : outcome (TokenKind * Cursor) :=
  match byte_is (first_byte c) SQUOTE, single_quoted with
  | true, Some single_quoted =>
      let* c := bump_ascii SQUOTE c in
      let* '(terminated, c) := single_quoted_string c in
      let suffix_start := pos_within_token c in
      let* c := suffix_if terminated c in
      Ret (Literal (single_quoted terminated) suffix_start, c)
  | _, _ =>
      if byte_is (first_byte c) DQUOTE then
        let* c := bump_ascii DQUOTE c in
        let* '(terminated, c) := double_quoted_string c in
        let suffix_start := pos_within_token c in
        let* c := suffix_if terminated c in
        Ret (Literal (mk_kind terminated) suffix_start, c)
      else if byte_is (first_byte c) (ch "r")
              && (byte_is (second_byte c) DQUOTE || byte_is (second_byte c) (ch "#")) then
        let* c := bump_ascii (ch "r") c in
        let* '(res, c) := raw_double_quoted_string 2 c in
        let suffix_start := pos_within_token c in
        let* c := suffix_if (match res with inr _ => true | inl _ => false end) c in
        Ret (Literal (mk_kind_raw (res_ok res)) suffix_start, c)
      else ident_or_unknown_prefix c
  end.

Definition lifetime_or_char (c : Cursor) : outcome (TokenKind * Cursor) :=
  let can_be_a_lifetime :=
    if second c =? SQUOTE then false
    else is_id_start (first c) || is_ascii_digit (first c) in
  if negb can_be_a_lifetime then
    let* '(terminated, c) := single_quoted_string c in
    let suffix_start := pos_within_token c in
    let* c := suffix_if terminated c in
    Ret (Literal (Char terminated) suffix_start, c)
  else if (first c =? ch "r") && (second c =? ch "#") && is_id_start (third c) then
    let* c := eat_id_continue (bump_ (bump_ (bump_ c))) in
    Ret (RawLifetime, c)
  else
    let starts_with_number := is_ascii_digit (first c) in
    let* c := eat_id_continue (bump_ c) in
    if first c =? SQUOTE then
      let c := bump_ c in
      Ret (Literal (Char true) (pos_within_token c), c)
    else if (first c =? ch "#") && negb starts_with_number then Ret (UnknownPrefixLifetime, c)
    else Ret (Lifetime starts_with_number, c).

Definition guarded_double_quoted_string (c : Cursor)
    : outcome (option GuardedStr * Cursor) :=
  let '(n_start_hashes, c) := eat_hashes 0 c in
  if negb (first c =? DQUOTE) then Ret (None, c)
  else
    let c := bump_ c in
    let* '(terminated, c) := double_quoted_string c in
    if negb terminated then
      Ret (Some (mkGuardedStr n_start_hashes false (pos_within_token c)),
           reset_pos_within_token c)
    else
      let '(_, c) := eat_hashes_upto n_start_hashes 0 c in
      let* c := eat_literal_suffix c in
      Ret (Some (mkGuardedStr n_start_hashes true (pos_within_token c)),
           reset_pos_within_token c).

(** *** Numbers *)

(** The scan of [eat_decimal_digits] and [eat_hexadecimal_digits]. *)
Fixpoint digit_scan (is_digit : Z -> bool) (bytes : list Z) (i : nat) (has_digits : bool)
    : nat * bool :=
  match bytes with
  | [] => (i, has_digits)
  | b :: bytes' =>
      if b =? 95 then digit_scan is_digit bytes' (i + 1) has_digits
      else if is_digit b then digit_scan is_digit bytes' (i + 1) true
      else (i, has_digits)
  end.

Definition is_hex_byte (b : Z) : bool :=
  is_ascii_digit b || ((97 <=? b) && (b <=? 102)) || ((65 <=? b) && (b <=? 70)).

Definition eat_decimal_digits (c : Cursor) : outcome (bool * Cursor) :=
  let '(i, has_digits) := digit_scan is_ascii_digit (as_bytes (chars c)) 0 false in
  let* c := advance_bytes i c in Ret (has_digits, c).

Definition eat_hexadecimal_digits (c : Cursor) : outcome (bool * Cursor) :=
  let '(i, has_digits) := digit_scan is_hex_byte (as_bytes (chars c)) 0 false in
  let* c := advance_bytes i c in Ret (has_digits, c).

Definition eat_float_exponent (c : Cursor) : outcome (bool * Cursor) :=
  let c := if (first c =? ch "-") || (first c =? ch "+") then bump_ c else c in
  eat_decimal_digits c.

(** After the integer part: a fraction, an exponent or neither. *)
Definition number_tail (base : Base) (c : Cursor) : outcome (LiteralKind * Cursor) :=
  if (first c =? ch ".") && negb (second c =? ch ".") && negb (is_id_start (second c)) then
    let c := bump_ c in
    if is_ascii_digit (first c) then
      let* '(_, c) := eat_decimal_digits c in
      if (first c =? ch "e") || (first c =? ch "E") then
        let* '(ok, c) := eat_float_exponent (bump_ c) in
        Ret (Float base (negb ok), c)
      else Ret (Float base false, c)
    else Ret (Float base false, c)
  else if (first c =? ch "e") || (first c =? ch "E") then
    let* '(ok, c) := eat_float_exponent (bump_ c) in
    Ret (Float base (negb ok), c)
  else Ret (Int base false, c).

Definition number (first_digit : char) (c : Cursor) : outcome (LiteralKind * Cursor) :=
  if first_digit =? ch "0" then
    let x := first c in
    if x =? ch "b" then
      let* '(has, c) := eat_decimal_digits (bump_ c) in
      if negb has then Ret (Int Binary true, c) else number_tail Binary c
    else if x =? ch "o" then
      let* '(has, c) := eat_decimal_digits (bump_ c) in
      if negb has then Ret (Int Octal true, c) else number_tail Octal c
    else if x =? ch "x" then
      let* '(has, c) := eat_hexadecimal_digits (bump_ c) in
      if negb has then Ret (Int Hexadecimal true, c) else number_tail Hexadecimal c
    else if is_ascii_digit x || (x =? 95) then
      let* '(_, c) := eat_decimal_digits c in number_tail Decimal c
    else if (x =? ch ".") || (x =? ch "e") || (x =? ch "E") then number_tail Decimal c
    else Ret (Int Decimal false, c)
  else
    let* '(_, c) := eat_decimal_digits c in number_tail Decimal c.

Definition number_literal (x : char) (c : Cursor) : outcome (TokenKind * Cursor) :=
  let* '(literal_kind, c) := number x c in
  let suffix_start := pos_within_token c in
  let* c := eat_literal_suffix c in
  Ret (Literal literal_kind suffix_start, c).

(** *** Frontmatter *)

(** [format!("\n{:-<1$}", "", n)]: a width argument above [u16::MAX] panics. *)
Definition nl_fence (n : Z) : outcome str :=
  if n <=? 65535 then Ret (NEWLINE :: replicate (Z.to_nat n) (ch "-")) else Panic.

(** [while let Some(closing) = rest.find("---")]: a run of dashes preceded on its
    line only by horizontal white space. *)
Fixpoint recover_dashes (fuel : nat) (rest : str) (base_index : nat)
    : outcome (option nat) :=
  match fuel with
  | O => OutOfFuel
  | S f =>
      match str_find (lit "---") rest with
      | None => Ret None
      | Some closing =>
          let* before := unwrap (str_to closing rest) in
          let preceding_chars_start :=
            match str_rfind_char NEWLINE before with Some i => (i + 1)%nat | None => O end in
          let* preceding := unwrap (str_slice preceding_chars_start closing rest) in
          if forallb is_horizontal_whitespace preceding then
            Ret (Some (closing + base_index)%nat)
          else
            let* rest := unwrap (str_from (closing + 3) rest) in
            recover_dashes f rest (base_index + (closing + 3))
      end
  end.

(** [Option::or_else]. *)
Definition or_else {A} (o o' : option A) : option A :=
  match o with Some _ => o | None => o' end.

Definition frontmatter_recovery (c : Cursor) : outcome Cursor :=
  let rest := chars c in
  let potential_closing :=
    or_else (or_else (or_else ((fun x => (x + 1)%nat) <$> str_find (NEWLINE :: lit "---") rest)
      (str_find (NEWLINE :: lit "use ") rest))
      (str_find (NEWLINE :: lit "//!") rest))
      (str_find (NEWLINE :: lit "#![") rest) in
  let* potential_closing :=
    match potential_closing with
    | Some n => Ret (Some n)
    | None => recover_dashes (S (length rest)) rest 0
    end in
  match potential_closing with
  | Some n => let* c := bump_bytes n c in eat_until NEWLINE c
  | None => Ret (eat_while (fun _ => true) c)
  end.

Definition frontmatter (has_invalid_preceding_whitespace : bool) (c : Cursor)
    : outcome (TokenKind * Cursor) :=
  let pos := pos_within_token c in
  let c := eat_while (fun x => x =? ch "-") c in
  let length_opening := wrap_u32 (pos_within_token c - pos + 1) in
  let c := eat_while (fun x => negb (x =? NEWLINE) && is_horizontal_whitespace x) c in
  let c :=
    if is_id_start (first c) then
      eat_while (fun x => is_id_continue x || (x =? ch "-") || (x =? ch ".")) (bump_ c)
    else c in
  let c := eat_while (fun x => negb (x =? NEWLINE) && is_horizontal_whitespace x) c in
  let invalid_infostring := negb (first c =? NEWLINE) in
  let* nl_fence_pattern := nl_fence length_opening in
  let* c :=
    match str_find nl_fence_pattern (chars c) with
    | Some closing =>
        let* c := bump_bytes (closing + str_len nl_fence_pattern) c in
        eat_until NEWLINE c
    | None => frontmatter_recovery c
    end in
  Ret (Frontmatter has_invalid_preceding_whitespace invalid_infostring, c).

(** *** Dispatch *)

Definition byte_string (c : Cursor) : outcome (TokenKind * Cursor) :=
  c_or_byte_string ByteStr RawByteStr (Some Byte) c.

Definition c_string (c : Cursor) : outcome (TokenKind * Cursor) :=
  c_or_byte_string CStr RawCStr None c.

Definition ascii_token (b : Z) (c : Cursor) : outcome (TokenKind * Cursor) :=
  if b =? ch "/" then
    if byte_is (first_byte c) (ch "/") then line_comment c
    else if byte_is (first_byte c) (ch "*") then block_comment c
    else Ret (Slash, c)
  else if (b =? 9) || (b =? 10) || (b =? 0x0B) || (b =? 0x0C) || (b =? 13) || (b =? 32)
  then whitespace c
  else if b =? ch "r" then r_prefixed c
  else if b =? ch "b" then byte_string c
  else if b =? ch "c" then c_string c
  else if is_ascii_lower b || is_ascii_upper b || (b =? 95) then ident_or_unknown_prefix c
  else if is_ascii_digit b then number_literal b c
  else if (b =? ch "#") && (byte_is (first_byte c) DQUOTE || byte_is (first_byte c) (ch "#"))
  then Ret (GuardedStrPrefix, bump_ c)
  else if b =? ch ";" then Ret (Semi, c)
  else if b =? ch "," then Ret (Comma, c)
  else if b =? ch "." then Ret (Dot, c)
  else if b =? ch "(" then Ret (OpenParen, c)
  else if b =? ch ")" then Ret (CloseParen, c)
  else if b =? ch "{" then Ret (OpenBrace, c)
  else if b =? ch "}" then Ret (CloseBrace, c)
  else if b =? ch "[" then Ret (OpenBracket, c)
  else if b =? ch "]" then Ret (CloseBracket, c)
  else if b =? ch "@" then Ret (At, c)
  else if b =? ch "#" then Ret (Pound, c)
  else if b =? ch "~" then Ret (Tilde, c)
  else if b =? ch "?" then Ret (Question, c)
  else if b =? ch ":" then Ret (Colon, c)
  else if b =? ch "$" then Ret (Dollar, c)
  else if b =? ch "=" then Ret (Eq_, c)
  else if b =? ch "!" then Ret (Bang, c)
  else if b =? ch "<" then Ret (Lt_, c)
  else if b =? ch ">" then Ret (Gt_, c)
  else if b =? ch "-" then Ret (Minus, c)
  else if b =? ch "&" then Ret (And, c)
  else if b =? ch "|" then Ret (Or, c)
  else if b =? ch "+" then Ret (Plus, c)
  else if b =? ch "*" then Ret (Star, c)
  else if b =? ch "^" then Ret (Caret, c)
  else if b =? ch "%" then Ret (Percent, c)
  else if b =? SQUOTE then lifetime_or_char c
  else if b =? DQUOTE then str_literal c
  else Ret (Unknown, c).

(** The white space before a possible frontmatter: the last character eaten. *)
Definition fm_whitespace (first_char : char) (c : Cursor) : char * Cursor :=
  let fix go (last : char) (s : str) : char * str :=
    match s with
    | x :: s' => if is_whitespace x then go x s' else (last, s)
    | [] => (last, s)
    end in
  let '(last, s) := go first_char (chars c) in (last, set_chars c s).

(** The arms of [advance_token_general]'s match. *)
Definition general_token (x : char) (c : Cursor) : outcome (TokenKind * Cursor) :=
  let fm := match frontmatter_allowed c with Yes => true | No => false end in
  if fm && is_whitespace x then
    let '(last, c) := fm_whitespace x c in
    if negb (last =? NEWLINE) && starts_with (lit "---") (chars c) then
      frontmatter true (bump_ c)
    else Ret (Whitespace, c)
  else if (x =? ch "-") && (fm && starts_with (lit "--") (chars c)) then frontmatter false c
  else if x =? ch "/" then
    if first c =? ch "/" then line_comment c
    else if first c =? ch "*" then block_comment c
    else Ret (Slash, c)
  else if is_whitespace x then whitespace c
  else if x =? ch "r" then r_prefixed c
  else if x =? ch "b" then byte_string c
  else if x =? ch "c" then c_string c
  else if is_id_start x then ident_or_unknown_prefix c
  else if is_ascii_digit x then number_literal x c
  else if (x =? ch "#") && ((first c =? DQUOTE) || (first c =? ch "#"))
  then Ret (GuardedStrPrefix, bump_ c)
  else if x =? ch ";" then Ret (Semi, c)
  else if x =? ch "," then Ret (Comma, c)
  else if x =? ch "." then Ret (Dot, c)
  else if x =? ch "(" then Ret (OpenParen, c)
  else if x =? ch ")" then Ret (CloseParen, c)
  else if x =? ch "{" then Ret (OpenBrace, c)
  else if x =? ch "}" then Ret (CloseBrace, c)
  else if x =? ch "[" then Ret (OpenBracket, c)
  else if x =? ch "]" then Ret (CloseBracket, c)
  else if x =? ch "@" then Ret (At, c)
  else if x =? ch "#" then Ret (Pound, c)
  else if x =? ch "~" then Ret (Tilde, c)
  else if x =? ch "?" then Ret (Question, c)
  else if x =? ch ":" then Ret (Colon, c)
  else if x =? ch "$" then Ret (Dollar, c)
  else if x =? ch "=" then Ret (Eq_, c)
  else if x =? ch "!" then Ret (Bang, c)
  else if x =? ch "<" then Ret (Lt_, c)
  else if x =? ch ">" then Ret (Gt_, c)
  else if x =? ch "-" then Ret (Minus, c)
  else if x =? ch "&" then Ret (And, c)
  else if x =? ch "|" then Ret (Or, c)
  else if x =? ch "+" then Ret (Plus, c)
  else if x =? ch "*" then Ret (Star, c)
  else if x =? ch "^" then Ret (Caret, c)
  else if x =? ch "%" then Ret (Percent, c)
  else if x =? SQUOTE then lifetime_or_char c
  else if x =? DQUOTE then str_literal c
  else if negb (is_ascii x) && is_emoji_char x then invalid_ident c
  else Ret (Unknown, c).

Definition is_Whitespace (k : TokenKind) : bool :=
  match k with Whitespace => true | _ => false end.

(** A frontmatter is no longer allowed after the first token that is not white space. *)
Definition stop_frontmatter (k : TokenKind) (c : Cursor) : Cursor :=
  match frontmatter_allowed c with
  | Yes => if is_Whitespace k then c
           else {| len_remaining := len_remaining c; chars := chars c;
                   frontmatter_allowed := No |}
  | No => c
  end.

Definition advance_token_general (c : Cursor) : outcome (Token * Cursor) :=
  match bump c with
  | (None, c) => Ret (mkToken Eof 0, c)
  | (Some first_char, c) =>
      let* '(token_kind, c) := general_token first_char c in
      let c := stop_frontmatter token_kind c in
      Ret (mkToken token_kind (pos_within_token c), reset_pos_within_token c)
  end.

Definition advance_token (c : Cursor) : outcome (Token * Cursor) :=
  match frontmatter_allowed c, first_byte c with
  | No, Some b =>
      if b <? 0x80 then
        let* c := bump_ascii b c in
        let* '(token_kind, c) := ascii_token b c in
        Ret (mkToken token_kind (pos_within_token c), reset_pos_within_token c)
      else advance_token_general c
  | _, _ => advance_token_general c
  end.

(** ** Entry points *)

Definition is_Eof (k : TokenKind) : bool := match k with Eof => true | _ => false end.

(** The iterator of [tokenize], collected. *)
Fixpoint tokens (fuel : nat) (c : Cursor) : outcome (list Token) :=
  match fuel with
  | O => OutOfFuel
  | S f =>
      let* '(token, c) := advance_token c in
      if is_Eof (kind token) then Ret []
      else let* rest := tokens f c in Ret (token :: rest)
  end.

Definition tokenize (input : str) (fm : FrontmatterAllowed) : outcome (list Token) :=
  tokens (S (length input)) (new_cursor input fm).

Definition validate_raw_str (input : str) (prefix_len : nat)
    : outcome (RawStrError + unit) :=
  let fix skip (n : nat) (c : Cursor) : outcome Cursor :=
    match n with
    | O => Ret c
    | S n => match bump c with
             | (Some _, c) => skip n c
             | (None, _) => Panic
             end
    end in
  let* c := skip prefix_len (new_cursor input No) in
  let* '(res, _) := raw_double_quoted_string (Z.of_nat prefix_len) c in
  Ret (match res with inl e => inl e | inr _ => inr tt end).

(** [tokenize(..).map(|tok| tok.kind).find(|tok| !matches!(..))] *)
Definition is_trivia (k : TokenKind) : bool :=
  match k with
  | Whitespace | LineComment None | BlockComment None _ => true
  | _ => false
  end.

Fixpoint find_non_trivia (fuel : nat) (c : Cursor) : outcome (option TokenKind) :=
  match fuel with
  | O => OutOfFuel
  | S f =>
      let* '(token, c) := advance_token c in
      if is_Eof (kind token) then Ret None
      else if is_trivia (kind token) then find_non_trivia f c
      else Ret (Some (kind token))
  end.

(** [lines().next().unwrap_or_default()]: up to the first line feed, less a
    carriage return before it. *)
Fixpoint first_line (s : str) : str :=
  match s with
  | [] => []
  | x :: s' =>
      if x =? NEWLINE then []
      else match s' with
           | y :: _ => if (x =? 13) && (y =? NEWLINE) then [] else x :: first_line s'
           | [] => [x]
           end
  end.

Definition strip_shebang (input : str) : outcome (option nat) :=
  match strip_prefix (lit "#!") input with
  | None => Ret None
  | Some input_tail =>
      let* k := find_non_trivia (S (length input_tail)) (new_cursor input_tail No) in
      if decide (k = Some OpenBracket) then Ret None
      else Ret (Some (2 + str_len (first_line input_tail))%nat)
  end.
End Lexing.
