(* ===== verification/LexerAdv.v ===== *)
(** * Lexing routines: block scans, and every routine returns and only moves forward *)
From Stdlib Require Import Ascii String ZArith Lia.
From stdpp Require Import base numbers list.
From S2P Require Import Prelude RustStr Swar Lexer.
Open Scope Z_scope.
Open Scope rust_scope.

(** ** Scanning routines of the lexer

    The block-at-a-time scan [eat_while_ascii] is [eat_while], and the
    [memchr]-driven loops for comments and strings are the character-by-character
    loops they replace. *)

Lemma eat_while_drop p c : eat_while p c = set_chars c (drop_while p (chars c)).
Proof. unfold eat_while. f_equal. induction (chars c) as [|x s IH]; simpl; [done|].
  destruct (p x); auto. Qed.

Section Scan.
Context (block : Z -> Z) (ascii : Z -> bool) (predicate : char -> bool) (q : Z -> bool).
(** [q] is the ASCII class that [block], [ascii] and [predicate] agree on. *)
Context (q_ascii : forall b, q b = true -> 0 <= b < 0x80).
Context (block_q : forall l, Forall is_byte l -> length l = 8%nat ->
           block (from_le_bytes l) = bytewise (high_bit q) l).
Context (ascii_q : forall b, 0 <= b < 0x80 -> ascii b = q b).
Context (pred_q : forall b, 0 <= b < 0x80 -> predicate b = q b).
Context (rest : str) (Hwf : wf_str rest).

(** Offset [i] is a character boundary, and every character before it was eaten. *)
Definition scanned (i : nat) (s2 : str) : Prop :=
  exists s1, rest = s1 ++ s2 /\ str_len s1 = i /\ Forall (fun c => predicate c = true) s1.

(** The scan may stop: the rest of the text is what [eat_while] leaves. *)
Definition stopped (i : nat) : Prop :=
  exists s2, scanned i s2 /\ match s2 with [] => True | c :: _ => predicate c = false end.

Lemma scanned_byte i s2 : scanned i s2 -> as_bytes rest !! i = as_bytes s2 !! 0%nat.
Proof.
  intros (s1 & -> & <- & _). rewrite as_bytes_app, lookup_app_r.
  - by rewrite length_as_bytes, Nat.sub_diag.
  - by rewrite length_as_bytes.
Qed.

Lemma scanned_wf i s2 : scanned i s2 -> wf_str s2.
Proof. intros (s1 & Hr & _). rewrite Hr in Hwf. by apply wf_str_app in Hwf as []. Qed.

Lemma scanned_end i s2 : scanned i s2 -> as_bytes rest !! i = None -> stopped i.
Proof.
  intros Hs Hn. rewrite (scanned_byte _ _ Hs), as_bytes_nil_iff in Hn. subst. by exists [].
Qed.

(** The character at the scan position, from its first byte. *)
Lemma scanned_char i s2 b : scanned i s2 -> as_bytes rest !! i = Some b ->
  exists c s3, s2 = c :: s3 /\ 0 <= b /\ (b < 0x80 <-> c < 0x80) /\ (b < 0x80 -> b = c).
Proof.
  intros Hs Hb. assert (0 <= b) by (eapply as_bytes_nonneg; [exact Hwf|by eapply list_elem_of_lookup_2]).
  rewrite (scanned_byte _ _ Hs) in Hb. destruct s2 as [|c s3]; [done|].
  exists c, s3. split; [done|]. split; [done|]. apply (head_byte c s3); [|done].
  by apply scanned_wf in Hs.
Qed.

Lemma scanned_step i c s3 : scanned i (c :: s3) -> predicate c = true ->
  scanned (i + len_utf8 c) s3.
Proof.
  intros (s1 & -> & <- & Hall) Hc. exists (s1 ++ [c]). split; [by rewrite <- app_assoc|].
  rewrite str_len_app. simpl. split; [lia|]. apply Forall_app. auto.
Qed.

Lemma scanned_ascii i s2 b : scanned i s2 -> as_bytes rest !! i = Some b -> b < 0x80 ->
  q b = true -> exists s3, scanned (i + 1) s3.
Proof.
  intros Hs Hb Hlt Hq. destruct (scanned_char _ _ _ Hs Hb) as (c & s3 & -> & ? & ? & Hc).
  rewrite <- (Hc Hlt) in *. exists s3. rewrite <- (len_utf8_ascii b) by (apply Z.ltb_lt; lia).
  apply scanned_step; [done|]. by rewrite pred_q by lia.
Qed.

Lemma stopped_ascii i s2 b : scanned i s2 -> as_bytes rest !! i = Some b -> b < 0x80 ->
  q b = false -> stopped i.
Proof.
  intros Hs Hb Hlt Hq. exists s2. split; [done|].
  destruct (scanned_char _ _ _ Hs Hb) as (c & s3 & -> & ? & ? & Hc).
  rewrite <- (Hc Hlt), pred_q by lia. done.
Qed.

(** A run of bytes of the class is eaten whole. *)
Lemma scanned_run l i s2 : scanned i s2 ->
  (forall j b, l !! j = Some b -> as_bytes rest !! (i + j)%nat = Some b /\ q b = true) ->
  exists s3, scanned (i + length l) s3.
Proof.
  revert i s2. induction l as [|b l IH]; intros i s2 Hs Hl; simpl.
  - exists s2. by rewrite Nat.add_0_r.
  - destruct (Hl 0%nat b eq_refl) as [Hb Hq]. rewrite Nat.add_0_r in Hb.
    destruct (scanned_ascii i s2 b) as (s3 & Hs3); auto; [apply q_ascii in Hq; lia|].
    replace (i + S (length l))%nat with (i + 1 + length l)%nat by lia.
    eapply IH; [exact Hs3|]. intros j b' Hj. rewrite <- Nat.add_assoc. by apply (Hl (S j)).
Qed.

Lemma probe_ok k i s2 : scanned i s2 ->
  exists i' stop, ewa_probe ascii rest k i = (i', stop) /\ (i <= i')%nat
    /\ (exists s3, scanned i' s3) /\ (stop = true -> stopped i').
Proof.
  revert i s2. induction k as [|k IH]; intros i s2 Hs; simpl.
  { exists i, false. split_and!; [done|lia|eauto|discriminate]. }
  destruct (as_bytes rest !! i) as [b|] eqn:Hb.
  2: { exists i, true. split_and!; [done|lia|eauto|eauto using scanned_end]. }
  destruct (scanned_char _ _ _ Hs Hb) as (c & s3 & _ & Hb0 & _).
  case_if E; propify; [exists i, false; split_and!; [done|lia|eauto|discriminate]|].
  rewrite ascii_q by lia. destruct (q b) eqn:Hq; simpl.
  - destruct (scanned_ascii i s2 b) as (s4 & Hs4); auto.
    destruct (IH _ _ Hs4) as (i' & stop & -> & ? & ? & ?).
    exists i', stop. split_and!; [done|lia|auto|auto].
  - exists i, true. split_and!; [done|lia|eauto|eauto using stopped_ascii].
Qed.

Lemma chunk_bytes i chunk : get_range (as_bytes rest) i (i + 8) = Some chunk ->
  Forall is_byte chunk /\ length chunk = 8%nat /\ (i + 8 <= str_len rest)%nat
  /\ forall j b, chunk !! j = Some b -> as_bytes rest !! (i + j)%nat = Some b.
Proof.
  unfold get_range. case_if E; [|discriminate]. intros [= <-]. propify.
  rewrite length_as_bytes in *. replace (i + 8 - i)%nat with 8%nat by lia. split; [|split; [|split]].
  - apply Forall_take, Forall_drop, as_bytes_is_byte, Hwf.
  - rewrite length_take, length_drop, length_as_bytes. lia.
  - lia.
  - intros j b Hj. rewrite <- lookup_drop. destruct (decide (j < 8)%nat).
    + by rewrite lookup_take_lt in Hj by lia.
    + by rewrite lookup_take_ge in Hj by lia.
Qed.

Lemma scanned_le i s2 : scanned i s2 -> (i <= str_len rest)%nat.
Proof. intros (s1 & Hr & <- & _). rewrite Hr, str_len_app. lia. Qed.

Lemma chunks_ok fuel i s2 : scanned i s2 -> (str_len rest < fuel + i)%nat ->
  runs (ewa_chunks block rest fuel i) (fun '(i', stop) =>
    (i <= i')%nat /\ (exists s3, scanned i' s3) /\ (stop = true -> stopped i')).
Proof.
  revert i s2. induction fuel as [|f IH]; intros i s2 Hs Hf; cbn [ewa_chunks].
  { apply scanned_le in Hs. lia. }
  destruct (get_range _ _ _) as [chunk|] eqn:Hg.
  2: { apply runs_ret. split; [done|]. split; [eauto|discriminate]. }
  apply chunk_bytes in Hg as (Hby & Hlen & Hle & Hat).
  rewrite block_q, stop_mask by done. destruct (Z.eqb_spec (bytewise (high_bit (fun b => negb (q b))) chunk) 0) as [Hz|Hz].
  - apply bytewise_high_zero, position_None in Hz; [|done]. simpl.
    destruct (scanned_run chunk i s2 Hs) as (s3 & Hs3).
    { intros j b Hj. split; [auto|]. rewrite Forall_lookup in Hz.
      specialize (Hz j b Hj). by apply negb_false_iff. }
    rewrite Hlen in Hs3. eapply runs_mono; [eapply IH; [exact Hs3|lia]|].
    intros [i' stop] (? & ? & ?). split; [lia|auto].
  - rewrite bytewise_high_zero in Hz by done. cbn [negb].
    unfold trailing_zeros. replace 64%nat with (8 * length chunk)%nat by lia.
    rewrite ctz_bytes by done. destruct (position _ chunk) as [k|] eqn:Hp; [|done].
    apply position_Some in Hp as (l1 & b & l2 & -> & <- & Hqb & Hl1). cbn [default].
    assert (Hb : as_bytes rest !! (i + length l1)%nat = Some b).
    { apply Hat. rewrite lookup_app_r by lia. by rewrite Nat.sub_diag. }
    destruct (scanned_run l1 i s2 Hs) as (s3 & Hs3).
    { intros j x Hj. split; [apply Hat, lookup_app_l_Some, Hj|].
      rewrite Forall_lookup in Hl1. specialize (Hl1 j x Hj). by apply negb_false_iff. }
    cbv zeta. unfold id. rewrite Hb. apply runs_ret. split; [lia|]. split; [eauto|].
    intros Hlt. propify. eauto using stopped_ascii.
Qed.

Lemma scan_ok fuel i s2 : scanned i s2 -> (str_len rest < fuel + i)%nat ->
  runs (ewa_scan block ascii predicate rest fuel i) stopped.
Proof.
  revert i s2. induction fuel as [|f IH]; intros i s2 Hs Hf.
  { apply scanned_le in Hs. lia. }
  cbn [ewa_scan]. destruct (probe_ok 4 i s2 Hs) as (i1 & st1 & -> & Hi1 & (s3 & Hs3) & Hst).
  destruct st1; [apply runs_ret; auto|].
  eapply runs_bind.
  { eapply chunks_ok; [exact Hs3|]. rewrite length_as_bytes. lia. }
  intros [i2 st2] (Hi2 & (s4 & Hs4) & Hst2). destruct st2; [apply runs_ret; auto|].
  destruct (as_bytes rest !! i2) as [b|] eqn:Hb; [|apply runs_ret; eauto using scanned_end].
  destruct (scanned_char _ _ _ Hs4 Hb) as (c & s5 & -> & Hb0 & Hbc & Heq).
  case_if E; propify.
  - rewrite ascii_q by lia. destruct (q b) eqn:Hq; simpl; [|apply runs_ret; eauto using stopped_ascii].
    destruct (scanned_ascii i2 _ b Hs4) as (s6 & Hs6); auto. eapply IH; [exact Hs6|lia].
  - pose proof Hs4 as (s1 & Hr & Hl & Hall).
    eapply runs_bind; [eapply runs_unwrap; [apply str_from_spec; eauto|exact eq_refl]|].
    intros ? <-. simpl. destruct (predicate c) eqn:Hp; simpl.
    + pose proof (len_utf8_pos c). eapply IH; [apply scanned_step; eauto|lia].
    + apply runs_ret. exists (c :: s5). auto.
Qed.
End Scan.

(** The block scan is the plain loop. *)
Lemma eat_while_ascii_eq block ascii predicate q c :
  (forall b, q b = true -> 0 <= b < 0x80) ->
  (forall l, Forall is_byte l -> length l = 8%nat ->
     block (from_le_bytes l) = bytewise (high_bit q) l) ->
  (forall b, 0 <= b < 0x80 -> ascii b = q b) ->
  (forall b, 0 <= b < 0x80 -> predicate b = q b) ->
  wf_str (chars c) ->
  eat_while_ascii block ascii predicate c = Ret (eat_while predicate c).
Proof.
  intros Hq Hb Ha Hp Hwf. unfold eat_while_ascii. rewrite eat_while_drop.
  destruct (scan_ok block ascii predicate q Hq Hb Ha Hp (chars c) Hwf (S (str_len (chars c))) 0 (chars c))
    as (i & -> & s2 & (s1 & Hr & Hl & Hall) & Hstop).
  - exists []. auto.
  - lia.
  - simpl. unfold advance_bytes. rewrite Hr at 1. rewrite <- Hl, str_from_app. simpl.
    f_equal. f_equal. rewrite Hr, drop_while_app by done. by rewrite drop_while_stop.
Qed.

(** *** ASCII classes seen through the bytes of a string *)
Section AsciiClass.
Context (q : Z -> bool) (q_ascii : forall b, q b = true -> 0 <= b < 0x80).

Lemma class_high c : is_scalar c = true -> is_ascii c = false ->
  Forall (fun b => q b = false) (encode_utf8 c) /\ q c = false.
Proof.
  intros Hs Ha. split.
  - apply Forall_forall. intros b Hb. pose proof (encode_utf8_high _ _ Hs Ha Hb).
    destruct (q b) eqn:E; [|done]. apply q_ascii in E. lia.
  - destruct (q c) eqn:E; [|done]. apply q_ascii in E. unfold is_ascii in Ha. propify. lia.
Qed.

Lemma position_skip l1 l2 : Forall (fun b => q b = false) l1 ->
  position q (l1 ++ l2) = (fun n => (length l1 + n)%nat) <$> position q l2.
Proof.
  induction 1 as [|b l1 Hb _ IH]; simpl.
  - by destruct (position q l2).
  - rewrite Hb, IH. by destruct (position q l2).
Qed.

(** A byte search for ASCII bytes is a character search. *)
Lemma position_chars s : wf_str s ->
  match position q (as_bytes s) with
  | None => Forall (fun c => q c = false) s
  | Some i => exists s1 x s2, s = s1 ++ x :: s2 /\ str_len s1 = i /\ q x = true
                              /\ Forall (fun c => q c = false) s1
  end.
Proof.
  induction 1 as [|c s Hc Hs IH]; simpl; [constructor|].
  assert (Hskip : q c = false -> Forall (fun b => q b = false) (encode_utf8 c)).
  { intros Hq. destruct (is_ascii c) eqn:Ha; [|by apply class_high].
    rewrite encode_utf8_ascii by done. auto. }
  destruct (q c) eqn:Hq.
  - pose proof (q_ascii _ Hq). rewrite encode_utf8_ascii by (apply Z.ltb_lt; lia).
    simpl. rewrite Hq. exists [], c, s. auto.
  - rewrite position_skip by auto. destruct (position q (as_bytes s)) as [i|]; simpl; [|auto].
    destruct IH as (s1 & x & s2 & -> & <- & Hx & Hall).
    exists (c :: s1), x, s2. rewrite length_encode_utf8. auto.
Qed.

(** A run of ASCII bytes of the class is the run of characters. *)
Lemma take_while_bytes s : wf_str s -> take_while q (as_bytes s) = take_while q s.
Proof.
  induction 1 as [|c s Hc Hs IH]; simpl; [done|].
  destruct (is_ascii c) eqn:Ha.
  - rewrite encode_utf8_ascii by done. simpl. by rewrite IH.
  - destruct (class_high c Hc Ha) as [Hb ->].
    pose proof (len_utf8_pos c) as Hp. rewrite <- length_encode_utf8 in Hp.
    destruct (encode_utf8 c) as [|b l]; simpl in *; [lia|].
    inversion Hb as [|? ? Hqb]. by rewrite Hqb.
Qed.

Lemma str_len_take_while s : str_len (take_while q s) = length (take_while q s).
Proof.
  apply str_len_ascii. eapply Forall_impl; [apply take_while_Forall|].
  intros c Hc. apply Z.ltb_lt. apply q_ascii in Hc. lia.
Qed.
End AsciiClass.

Lemma set_chars_same c : set_chars c (chars c) = c.
Proof. by destruct c. Qed.

Lemma advance_bytes_app n s1 s2 c :
  chars c = s1 ++ s2 -> str_len s1 = n -> advance_bytes n c = Ret (set_chars c s2).
Proof. intros Hc <-. unfold advance_bytes. by rewrite Hc, str_from_app. Qed.

Lemma bump_bytes_app n s1 s2 c :
  chars c = s1 ++ s2 -> str_len s1 = n -> bump_bytes n c = Ret (set_chars c s2).
Proof. apply advance_bytes_app. Qed.

Lemma bump_ascii_cons b c s : chars c = b :: s -> 0 <= b < 0x80 ->
  bump_ascii b c = Ret (set_chars c s).
Proof.
  intros Hc Hb. unfold bump_ascii. rewrite Hc. change (b :: s) with ([b] ++ s).
  rewrite <- (len_utf8_ascii b) at 1 by (apply Z.ltb_lt; lia).
  replace (len_utf8 b) with (str_len [b]) by (simpl; lia). by rewrite str_from_app.
Qed.

(** [first_byte] against a fixed ASCII byte is [first] against that character. *)
Lemma byte_is_first c b : wf_str (chars c) -> 0 < b < 0x80 ->
  byte_is (first_byte c) b = (first c =? b).
Proof.
  intros Hwf Hb. unfold byte_is, first_byte, first. destruct (chars c) as [|x s] eqn:Hc.
  - symmetry. apply Z.eqb_neq. unfold EOF_CHAR. simpl. lia.
  - destruct (as_bytes (x :: s) !! 0%nat) as [b'|] eqn:E; [|by apply as_bytes_nil_iff in E].
    destruct (head_byte x s b' Hwf E) as [H1 H2]. simpl.
    destruct (Z.eqb_spec x b), (Z.eqb_spec b' b); lia.
Qed.

Lemma eat_whitespace_eq c : wf_str (chars c) ->
  eat_whitespace c = Ret (eat_while is_whitespace c).
Proof.
  intros Hwf. apply (eat_while_ascii_eq _ _ _ ascii_whitespace).
  - intros b. unfold ascii_whitespace. intros ?. propify. destruct H; propify; lia.
  - apply swar_whitespace_bytes.
  - intros b Hb. apply ascii_class_spec. unfold is_byte. lia.
  - intros b Hb. apply eqb_prop. revert b Hb.
    assert (H : all_bytes (fun b => (0x80 <=? b) ||
      Bool.eqb (is_whitespace b) (ascii_whitespace b)) = true) by (vm_compute; reflexivity).
    intros b Hb. assert (is_byte b) as Hx%(all_bytes_spec _ H b) by (unfold is_byte; lia).
    propify. destruct Hx; [propify; lia|done].
  - done.
Qed.

Section ScanDeps.
Context {D : LexDeps} {DOk : LexDepsOk D}.

Lemma eat_id_continue_eq c : wf_str (chars c) ->
  eat_id_continue c = Ret (eat_while is_id_continue c).
Proof.
  intros Hwf. apply (eat_while_ascii_eq _ _ _ ascii_id_continue).
  - intros b. unfold ascii_id_continue, is_ascii_alphanumeric, is_ascii_alphabetic,
      is_ascii_upper, is_ascii_lower, is_ascii_digit. intros ?.
    repeat (propify; match goal with H : _ \/ _ |- _ => destruct H end); propify; lia.
  - apply swar_id_continue_bytes.
  - intros b Hb. apply ascii_class_spec. unfold is_byte. lia.
  - intros b Hb. unfold is_id_continue. by rewrite xid_continue_ascii by lia.
  - done.
Qed.

Lemma eat_until_eq byte c : wf_str (chars c) -> 0 <= byte < 0x80 ->
  eat_until byte c = Ret (eat_while (fun x => negb (x =? byte)) c).
Proof.
  intros Hwf Hb. unfold eat_until. rewrite memchr_first, eat_while_drop.
  pose proof (position_chars (fun x => x =? byte)) as Hp.
  specialize (Hp ltac:(intros ? ?%Z.eqb_eq; lia) (chars c) Hwf).
  destruct (position _ _) as [i|].
  - destruct Hp as (s1 & x & s2 & Hc & <- & Hx & Hall). rewrite Hc, str_from_app. simpl.
    rewrite drop_while_app by (eapply Forall_impl; [exact Hall|]; by intros ? ->).
    simpl. by rewrite Hx.
  - replace (drop_while _ (chars c)) with (@nil Z); [done|].
    rewrite <- (app_nil_r (chars c)), drop_while_app; [done|].
    eapply Forall_impl; [exact Hp|]. by intros ? ->.
Qed.

(** **** Strings and comments, character by character *)

(** Bump characters until a quote; a backslash before a backslash or a quote
    skips it too. *)
Fixpoint double_quoted_ref (s : str) : bool * str :=
  match s with
  | [] => (false, [])
  | x :: s' =>
      if x =? DQUOTE then (true, s')
      else match s' with
           | y :: s'' =>
               if (x =? BACKSLASH) && ((y =? BACKSLASH) || (y =? DQUOTE))
               then double_quoted_ref s'' else double_quoted_ref s'
           | [] => double_quoted_ref s'
           end
  end.

(** [while let Some(c) = self.bump()] with [/*] and [*/] changing the depth. *)
Fixpoint block_comment_ref (depth : nat) (s : str) : nat * str :=
  match s with
  | [] => (depth, [])
  | x :: s' =>
      match s' with
      | y :: s'' =>
          if (x =? ch "/") && (y =? ch "*") then block_comment_ref (depth + 1) s''
          else if (x =? ch "*") && (y =? ch "/") then
            if (depth - 1 =? 0)%nat then ((depth - 1)%nat, s'')
            else block_comment_ref (depth - 1) s''
          else block_comment_ref depth s'
      | [] => block_comment_ref depth s'
      end
  end.

Lemma double_quoted_ref_skip s1 s2 :
  Forall (fun x => (x =? DQUOTE) || (x =? BACKSLASH) = false) s1 ->
  double_quoted_ref (s1 ++ s2) = double_quoted_ref s2.
Proof.
  induction 1 as [|x s1 Hx _ IH]; [done|]. propify. cbn [app double_quoted_ref].
  rewrite (proj2 (Z.eqb_neq x DQUOTE)), (proj2 (Z.eqb_neq x BACKSLASH)) by done.
  destruct (s1 ++ s2) as [|y s'] eqn:E; cbn [andb]; [|exact IH].
  rewrite <- IH. reflexivity.
Qed.

Lemma block_comment_ref_skip depth s1 s2 :
  Forall (fun x => (x =? ch "/") || (x =? ch "*") = false) s1 ->
  block_comment_ref depth (s1 ++ s2) = block_comment_ref depth s2.
Proof.
  induction 1 as [|x s1 Hx _ IH]; [done|]. propify. cbn [app block_comment_ref].
  rewrite (proj2 (Z.eqb_neq x (ch "/"))), (proj2 (Z.eqb_neq x (ch "*"))) by done.
  destruct (s1 ++ s2) as [|y s'] eqn:E; cbn [andb]; [|exact IH].
  rewrite <- IH. reflexivity.
Qed.
(** Jumping to the next byte of an ASCII class, and past it. *)
Lemma jump_some (q : Z -> bool) c i :
  (forall b, q b = true -> 0 <= b < 0x80) -> wf_str (chars c) ->
  position q (as_bytes (chars c)) = Some i ->
  exists s1 x s2, chars c = s1 ++ x :: s2 /\ Forall (fun y => q y = false) s1 /\ q x = true
    /\ advance_bytes (i + 1) c = Ret (set_chars c s2) /\ as_bytes (chars c) !! i = Some x.
Proof.
  intros Hq Hwf Hp. pose proof (position_chars q Hq (chars c) Hwf) as H. rewrite Hp in H.
  destruct H as (s1 & x & s2 & Hc & <- & Hx & Hall). exists s1, x, s2.
  pose proof (Hq x Hx) as Hb. assert (is_ascii x = true) as Ha by (apply Z.ltb_lt; lia).
  split_and!; auto.
  - apply (advance_bytes_app _ (s1 ++ [x])); [by rewrite <- app_assoc|].
    rewrite str_len_app. simpl. rewrite len_utf8_ascii by done. lia.
  - rewrite Hc, as_bytes_app, lookup_app_r by (rewrite length_as_bytes; lia).
    rewrite length_as_bytes, Nat.sub_diag. simpl. by rewrite encode_utf8_ascii.
Qed.

Lemma jump_none (q : Z -> bool) c :
  (forall b, q b = true -> 0 <= b < 0x80) -> wf_str (chars c) ->
  position q (as_bytes (chars c)) = None ->
  Forall (fun y => q y = false) (chars c)
  /\ advance_bytes (length (as_bytes (chars c))) c = Ret (set_chars c []).
Proof.
  intros Hq Hwf Hp. pose proof (position_chars q Hq (chars c) Hwf) as H. rewrite Hp in H.
  split; [done|]. apply (advance_bytes_app _ (chars c)); [by rewrite app_nil_r|].
  by rewrite length_as_bytes.
Qed.

Lemma double_quoted_loop_eq fuel c : wf_str (chars c) -> (length (chars c) < fuel)%nat ->
  double_quoted_loop fuel c =
  Ret (let '(b, s) := double_quoted_ref (chars c) in (b, set_chars c s)).
Proof.
  revert c. induction fuel as [|f IH]; intros c Hwf Hf; [lia|]. cbn [double_quoted_loop].
  rewrite memchr2_first. set (q := fun x => (x =? DQUOTE) || (x =? BACKSLASH)).
  assert (Hq : forall b, q b = true -> 0 <= b < 0x80).
  { unfold q, DQUOTE, BACKSLASH. intros b [?%Z.eqb_eq|?%Z.eqb_eq]%orb_true_iff; lia. }
  destruct (position q _) as [i|] eqn:Hp.
  - destruct (jump_some q c i Hq Hwf Hp) as (s1 & x & s2 & Hc & Hall & Hx & -> & ->).
    cbn [obind unwrap]. rewrite Hc in *. rewrite (double_quoted_ref_skip s1) by done.
    cbn [double_quoted_ref]. destruct (x =? DQUOTE) eqn:Ed; [done|].
    apply wf_str_app in Hwf as [_ Hwf]. inversion Hwf as [|? ? _ Hwf2]; subst.
    rewrite length_app in Hf. simpl in Hf.
    assert (Hxb : (x =? BACKSLASH) = true) by (unfold q in Hx; rewrite Ed in Hx; done).
    rewrite Hxb. destruct s2 as [|y s3]; cbn [andb].
    + rewrite IH by (simpl; auto; lia). done.
    + inversion Hwf2; subst. unfold first. simpl. simpl in Hf.
      destruct ((y =? BACKSLASH) || (y =? DQUOTE)); rewrite IH by (simpl; auto; lia); done.
  - destruct (jump_none q c Hq Hwf Hp) as [Hall ->]. cbn [obind].
    by rewrite <- (app_nil_r (chars c)), (double_quoted_ref_skip (chars c)).
Qed.

Lemma double_quoted_string_eq c : wf_str (chars c) ->
  double_quoted_string c =
  Ret (let '(b, s) := double_quoted_ref (chars c) in (b, set_chars c s)).
Proof. intros Hwf. apply double_quoted_loop_eq; auto. Qed.

Lemma block_comment_loop_eq fuel depth c :
  wf_str (chars c) -> (length (chars c) < fuel)%nat ->
  block_comment_loop fuel depth c =
  Ret (let '(d, s) := block_comment_ref depth (chars c) in (d, set_chars c s)).
Proof.
  revert depth c. induction fuel as [|f IH]; intros depth c Hwf Hf; [lia|].
  cbn [block_comment_loop].
  rewrite memchr2_first. set (q := fun x => (x =? ch "/") || (x =? ch "*")).
  assert (Hq : forall b, q b = true -> 0 <= b < 0x80).
  { unfold q. intros b [?%Z.eqb_eq|?%Z.eqb_eq]%orb_true_iff; subst; vm_compute; split; congruence. }
  destruct (position q _) as [i|] eqn:Hp.
  - destruct (jump_some q c i Hq Hwf Hp) as (s1 & x & s2 & Hc & Hall & Hx & -> & ->).
    cbn [obind unwrap]. rewrite Hc in *. rewrite (block_comment_ref_skip depth s1) by done.
    cbn [block_comment_ref].
    apply wf_str_app in Hwf as [_ Hwf]. inversion Hwf as [|? ? _ Hwf2]; subst.
    rewrite length_app in Hf. simpl in Hf.
    destruct s2 as [|y s3].
    + change (first (set_chars c []) =? ch "*") with false.
      change (first (set_chars c []) =? ch "/") with false. rewrite !andb_false_r.
      rewrite IH by (simpl; auto; lia). done.
    + inversion Hwf2; subst. unfold first. simpl. simpl in Hf.
      destruct ((x =? ch "/") && (y =? ch "*"));
        [rewrite IH by (simpl; auto; lia); done|].
      destruct ((x =? ch "*") && (y =? ch "/"));
        [destruct (depth - 1 =? 0)%nat; [done|]|];
        rewrite IH by (simpl; auto; lia); done.
  - destruct (jump_none q c Hq Hwf Hp) as [Hall ->]. cbn [obind].
    by rewrite <- (app_nil_r (chars c)), (block_comment_ref_skip depth (chars c)).
Qed.

(** **** Digits *)
Lemma digit_scan_eq isd bytes i has : isd 95 = false ->
  digit_scan isd bytes i has =
  ((i + length (take_while (fun b => (b =? 95)%Z || isd b) bytes))%nat,
   has || existsb isd (take_while (fun b => (b =? 95) || isd b) bytes)).
Proof.
  intros H95. revert i has. induction bytes as [|b l IH]; intros i has; simpl.
  - by rewrite Nat.add_0_r, orb_false_r.
  - destruct (Z.eqb_spec b 95) as [->|]; simpl.
    + rewrite IH, H95. simpl. f_equal. lia.
    + destruct (isd b) eqn:E; simpl.
      * rewrite IH, E. simpl. rewrite orb_true_r. f_equal. lia.
      * by rewrite Nat.add_0_r, orb_false_r.
Qed.

Lemma digits_eq isd c : isd 95 = false -> (forall b, isd b = true -> 0 <= b < 0x80) ->
  wf_str (chars c) ->
  (let '(i, has_digits) := digit_scan isd (as_bytes (chars c)) 0 false in
   let* c := advance_bytes i c in Ret (has_digits, c)) =
  let p := fun b => (b =? 95) || isd b in
  Ret (existsb isd (take_while p (chars c)), eat_while p c).
Proof.
  intros H95 Hd Hwf. rewrite digit_scan_eq by done. cbv zeta.
  set (p := fun b => (b =? 95) || isd b).
  assert (Hp : forall b, p b = true -> 0 <= b < 0x80).
  { unfold p. intros b [?%Z.eqb_eq|?]%orb_true_iff; [lia|auto]. }
  rewrite (take_while_bytes p Hp) by done. rewrite eat_while_drop.
  rewrite (advance_bytes_app _ (take_while p (chars c)) (drop_while p (chars c))); [done| |].
  - by rewrite take_drop_while.
  - by rewrite (str_len_take_while p Hp).
Qed.

Lemma is_ascii_digit_ascii b : is_ascii_digit b = true -> 0 <= b < 0x80.
Proof. unfold is_ascii_digit. intros ?. propify. lia. Qed.

Lemma eat_decimal_digits_eq c : wf_str (chars c) ->
  eat_decimal_digits c =
  let p := fun b => (b =? 95) || is_ascii_digit b in
  Ret (existsb is_ascii_digit (take_while p (chars c)), eat_while p c).
Proof. intros. apply digits_eq; auto using is_ascii_digit_ascii. Qed.

Lemma is_hex_byte_ascii b : is_hex_byte b = true -> 0 <= b < 0x80.
Proof.
  unfold is_hex_byte, is_ascii_digit. intros ?.
  repeat (propify; match goal with H : _ \/ _ |- _ => destruct H end); propify; lia.
Qed.

Lemma eat_hexadecimal_digits_eq c : wf_str (chars c) ->
  eat_hexadecimal_digits c =
  let p := fun b => (b =? 95) || is_hex_byte b in
  Ret (existsb is_hex_byte (take_while p (chars c)), eat_while p c).
Proof. intros. apply digits_eq; auto using is_hex_byte_ascii. Qed.
End ScanDeps.

(** ** Every lexing routine returns and only moves forward

    [adv c0 c]: the cursor [c] is [c0] moved forward over whole characters.  Each
    routine of the lexer, started on well-formed text, returns without a panic
    and leaves the cursor advanced; the fuel its loops are given is enough. *)

Definition adv (c0 c : Cursor) : Prop :=
  len_remaining c = len_remaining c0 /\ frontmatter_allowed c = frontmatter_allowed c0
  /\ exists s, chars c0 = s ++ chars c.

#[export] Instance adv_preorder : PreOrder adv.
Proof.
  split.
  - intros c. by split_and!; [..|exists []].
  - intros c1 c2 c3 (? & ? & s & Hs) (? & ? & t & Ht). split_and!; [congruence..|].
    exists (s ++ t). by rewrite <- app_assoc, <- Ht.
Qed.

Lemma adv_set c s s' : chars c = s ++ s' -> adv c (set_chars c s').
Proof. intros Hc. split_and!; simpl; eauto. Qed.

Lemma adv_eat_while p c : adv c (eat_while p c).
Proof.
  rewrite eat_while_drop. apply (adv_set c (take_while p (chars c))). by rewrite take_drop_while.
Qed.

Lemma adv_bump c : adv c (bump_ c).
Proof.
  unfold bump_, bump. destruct (chars c) as [|x s] eqn:E; simpl; [reflexivity|].
  by apply (adv_set c [x]).
Qed.

Lemma adv_wf c0 c : wf_str (chars c0) -> adv c0 c -> wf_str (chars c).
Proof. intros Hwf (_ & _ & s & Hs). rewrite Hs in Hwf. by apply wf_str_app in Hwf as []. Qed.

Lemma adv_length c0 c : adv c0 c -> (length (chars c) <= length (chars c0))%nat.
Proof. intros (_ & _ & s & ->). rewrite length_app. lia. Qed.

Lemma adv_eat_hashes n c : adv c (eat_hashes n c).2.
Proof.
  unfold eat_hashes. match goal with |- context [let '(_, _) := ?g n (chars c) in _] => set (go := g) end.
  assert (H : forall s n, exists t, s = t ++ (go n s).2).
  { induction s as [|x s IH]; intros m; simpl; [by exists []|].
    destruct (x =? _); [|by exists []]. destruct (IH (wrap_u32 (m + 1))) as [t Ht].
    exists (x :: t). simpl. by rewrite <- Ht. }
  specialize (H (chars c) n) as [t Ht]. destruct (go n (chars c)) as [m s]. by eapply adv_set.
Qed.

Lemma adv_eat_hashes_upto max n c : adv c (eat_hashes_upto max n c).2.
Proof.
  unfold eat_hashes_upto.
  match goal with |- context [let '(_, _) := ?g n (chars c) in _] => set (go := g) end.
  assert (H : forall s n, exists t, s = t ++ (go n s).2).
  { induction s as [|x s IH]; intros m; simpl; [by exists []|].
    destruct (_ && _); [|by exists []]. destruct (IH (wrap_u32 (m + 1))) as [t Ht].
    exists (x :: t). simpl. by rewrite <- Ht. }
  specialize (H (chars c) n) as [t Ht]. destruct (go n (chars c)) as [m s]. by eapply adv_set.
Qed.

Lemma adv_fm_whitespace x c : adv c (fm_whitespace x c).2.
Proof.
  unfold fm_whitespace.
  match goal with |- context [let '(_, _) := ?g x (chars c) in _] => set (go := g) end.
  assert (H : forall s y, exists t, s = t ++ (go y s).2).
  { induction s as [|z s IH]; intros y; simpl; [by exists []|].
    destruct (is_whitespace z); [|by exists []]. destruct (IH z) as [t Ht].
    exists (z :: t). simpl. by rewrite <- Ht. }
  specialize (H (chars c) x) as [t Ht]. destruct (go x (chars c)) as [m s]. by eapply adv_set.
Qed.

Lemma length_bump c : is_eof c = false -> (length (chars (bump_ c)) < length (chars c))%nat.
Proof. unfold is_eof, bump_, bump. destruct (chars c); simpl; [discriminate|lia]. Qed.

Lemma first_not_eof c : first c <> EOF_CHAR -> is_eof c = false.
Proof. unfold first, is_eof. by destruct (chars c). Qed.

Create HintDb lexer discriminated.
#[export] Hint Resolve adv_bump adv_eat_while adv_wf : lexer.
#[export] Hint Extern 2 (adv ?c ?c) => reflexivity : lexer.

(** Three shapes of result. *)
Definition moves (c0 : Cursor) (m : outcome Cursor) : Prop := runs m (adv c0).
Definition steps {A} (c0 : Cursor) (m : outcome (A * Cursor)) : Prop :=
  runs m (fun '(_, c) => adv c0 c).
Definition lexes (c0 : Cursor) (m : outcome (TokenKind * Cursor)) : Prop :=
  runs m (fun '(k, c) => k <> Eof /\ adv c0 c).

Lemma moves_bind {B} c0 (m : outcome Cursor) (f : Cursor -> outcome B) P :
  moves c0 m -> (forall c, adv c0 c -> runs (f c) P) -> runs (obind m f) P.
Proof. apply runs_bind. Qed.

Lemma steps_bind {A B} c0 (m : outcome (A * Cursor)) (f : A * Cursor -> outcome B) P :
  steps c0 m -> (forall a c, adv c0 c -> runs (f (a, c)) P) -> runs (obind m f) P.
Proof. intros Hm Hf. eapply runs_bind; [exact Hm|]. intros [a c] Ha. auto. Qed.

(** Close [adv c0 (g c)] from [adv c0 c]. *)
Ltac adv_solve :=
  match goal with
  | |- adv ?c0 ?c0 => reflexivity
  | H : adv ?c0 ?c |- adv ?c0 ?c => exact H
  | |- adv _ (bump_ ?c) => transitivity c; [adv_solve | apply adv_bump]
  | |- adv _ (eat_while _ ?c) => transitivity c; [adv_solve | apply adv_eat_while]
  | |- adv _ (if ?b then _ else _) => destruct b; adv_solve
  | |- adv _ (eat_hashes ?n ?c).2 => transitivity c; [adv_solve | apply adv_eat_hashes]
  end.

Ltac lexes_done := apply runs_ret; try (split; [discriminate|]); adv_solve.

Section Adv.
Context {D : LexDeps} {DOk : LexDepsOk D}.
Context (c0 : Cursor) (W : wf_str (chars c0)).

Lemma wf_of c : adv c0 c -> wf_str (chars c).
Proof. by apply adv_wf. Qed.
Hint Resolve wf_of : core.

Lemma eat_whitespace_moves c : adv c0 c -> moves c0 (eat_whitespace c).
Proof. intros A. rewrite eat_whitespace_eq by auto. apply runs_ret. adv_solve. Qed.

Lemma eat_id_continue_moves c : adv c0 c -> moves c0 (eat_id_continue c).
Proof. intros A. rewrite eat_id_continue_eq by auto. apply runs_ret. adv_solve. Qed.

Lemma eat_until_moves b c : 0 <= b < 0x80 -> adv c0 c -> moves c0 (eat_until b c).
Proof. intros Hb A. rewrite eat_until_eq by auto. apply runs_ret. adv_solve. Qed.

Lemma bump_ascii_moves b c : adv c0 c -> 0 < b < 0x80 -> byte_is (first_byte c) b = true ->
  moves c0 (bump_ascii b c).
Proof.
  intros A Hb Hf. rewrite byte_is_first in Hf by auto. propify.
  unfold first in Hf. destruct (chars c) as [|x s] eqn:Hc; simpl in Hf; [unfold EOF_CHAR in Hf; lia|].
  subst x. rewrite (bump_ascii_cons b c s) by (auto; lia). apply runs_ret.
  transitivity c; [done|]. by apply (adv_set c [b]).
Qed.

Lemma eat_identifier_moves c : adv c0 c -> moves c0 (eat_identifier c).
Proof.
  intros A. unfold eat_identifier.
  assert (Hgen : moves c0 (if negb (is_id_start (first c)) then Ret c else eat_id_continue (bump_ c))).
  { destruct (negb _); [lexes_done|]. apply eat_id_continue_moves. adv_solve. }
  destruct (first_byte c) as [b|] eqn:Hb; [|exact Hgen].
  destruct (is_ascii b) eqn:Ha; [|exact Hgen].
  destruct (_ =? 0) eqn:E; [lexes_done|].
  assert (0 < b < 0x80).
  { unfold is_ascii in Ha. propify. assert (0 <= b).
    { eapply as_bytes_nonneg; [exact (wf_of c A)|]. by eapply list_elem_of_lookup_2. }
    destruct (decide (b = 0)) as [->|]; [|lia]. by vm_compute in E. }
  eapply moves_bind; [apply bump_ascii_moves; auto; unfold byte_is; rewrite Hb; apply Z.eqb_refl|].
  intros c1 A1. by apply eat_id_continue_moves.
Qed.

Lemma suffix_if_moves b c : adv c0 c -> moves c0 (suffix_if b c).
Proof. intros A. destruct b; [by apply eat_identifier_moves|lexes_done]. Qed.

Lemma invalid_ident_lexes c : adv c0 c -> lexes c0 (invalid_ident c).
Proof. intros A. lexes_done. Qed.

Lemma ident_or_unknown_prefix_lexes c : adv c0 c -> lexes c0 (ident_or_unknown_prefix c).
Proof.
  intros A. eapply moves_bind; [by apply eat_id_continue_moves|]. intros c1 A1.
  destruct (first_byte c1); case_ifs; try lexes_done; by apply invalid_ident_lexes.
Qed.

Lemma raw_ident_lexes c : adv c0 c -> lexes c0 (raw_ident c).
Proof.
  intros A. eapply moves_bind; [apply eat_identifier_moves; adv_solve|]. intros; lexes_done.
Qed.

Lemma newline_ascii : 0 <= NEWLINE < 0x80. Proof. unfold NEWLINE. lia. Qed.
Lemma dquote_ascii : 0 <= DQUOTE < 0x80. Proof. unfold DQUOTE. lia. Qed.

Lemma line_comment_lexes c : adv c0 c -> lexes c0 (line_comment c).
Proof.
  intros A. unfold line_comment. cbv zeta.
  eapply moves_bind; [apply eat_until_moves; [apply newline_ascii|adv_solve]|]. intros; lexes_done.
Qed.

Lemma block_comment_ref_cons2 d x y s : block_comment_ref d (x :: y :: s) =
  if (x =? ch "/") && (y =? ch "*") then block_comment_ref (d + 1) s
  else if (x =? ch "*") && (y =? ch "/") then
    if (d - 1 =? 0)%nat then ((d - 1)%nat, s) else block_comment_ref (d - 1) s
  else block_comment_ref d (y :: s).
Proof. reflexivity. Qed.

Lemma block_comment_ref_suffix s : forall d, exists t, s = t ++ (block_comment_ref d s).2.
Proof.
  induction s as [s IH] using (well_founded_induction (well_founded_ltof _ length)).
  unfold ltof in IH. intros d. destruct s as [|x [|y s]]; [by exists []|by exists [x]|].
  rewrite block_comment_ref_cons2. case_ifs; try (by exists [x; y]).
  - destruct (IH s ltac:(simpl; lia) (d + 1)%nat) as [t Ht]. exists (x :: y :: t). simpl. by rewrite <- Ht.
  - destruct (IH s ltac:(simpl; lia) (d - 1)%nat) as [t Ht]. exists (x :: y :: t). simpl. by rewrite <- Ht.
  - destruct (IH (y :: s) ltac:(simpl; lia) d) as [t Ht]. exists (x :: t). cbn [app]. by rewrite <- Ht.
Qed.

Lemma double_quoted_ref_cons2 x y s : double_quoted_ref (x :: y :: s) =
  if x =? DQUOTE then (true, y :: s)
  else if (x =? BACKSLASH) && ((y =? BACKSLASH) || (y =? DQUOTE)) then double_quoted_ref s
  else double_quoted_ref (y :: s).
Proof. reflexivity. Qed.

Lemma double_quoted_ref_suffix s : exists t, s = t ++ (double_quoted_ref s).2.
Proof.
  induction s as [s IH] using (well_founded_induction (well_founded_ltof _ length)).
  unfold ltof in IH. destruct s as [|x [|y s]]; [by exists []| |].
  { exists [x]. simpl. by destruct (x =? DQUOTE). }
  rewrite double_quoted_ref_cons2. case_ifs; [by exists [x]| |].
  - destruct (IH s ltac:(simpl; lia)) as [t Ht]. exists (x :: y :: t). simpl. by rewrite <- Ht.
  - destruct (IH (y :: s) ltac:(simpl; lia)) as [t Ht]. exists (x :: t). cbn [app]. by rewrite <- Ht.
Qed.

Lemma block_comment_lexes c : adv c0 c -> lexes c0 (block_comment c).
Proof.
  intros A. unfold block_comment. cbv zeta.
  assert (A1 : adv c0 (bump_ c)) by adv_solve.
  rewrite block_comment_loop_eq by auto.
  destruct (block_comment_ref_suffix (chars (bump_ c)) 1) as [t Ht].
  destruct (block_comment_ref _ _) as [d s]. cbn [obind]. apply runs_ret.
  split; [discriminate|]. transitivity (bump_ c); [done|]. by eapply adv_set.
Qed.

Lemma whitespace_lexes c : adv c0 c -> lexes c0 (whitespace c).
Proof. intros A. eapply moves_bind; [by apply eat_whitespace_moves|]. intros; lexes_done. Qed.

Lemma double_quoted_string_steps c : adv c0 c -> steps c0 (double_quoted_string c).
Proof.
  intros A. rewrite double_quoted_string_eq by auto.
  destruct (double_quoted_ref_suffix (chars c)) as [t Ht].
  destruct (double_quoted_ref _) as [b s]. apply runs_ret.
  transitivity c; [done|]. by eapply adv_set.
Qed.

Lemma single_quoted_loop_steps fuel c : adv c0 c -> (length (chars c) < fuel)%nat ->
  steps c0 (single_quoted_loop fuel c).
Proof.
  revert c. induction fuel as [|f IH]; intros c A Hf; [lia|]. cbn [single_quoted_loop].
  destruct (first c =? SQUOTE); [lexes_done|]. destruct (first c =? ch "/"); [lexes_done|].
  destruct (_ && _); [lexes_done|].
  destruct (is_eof c) eqn:He.
  - assert ((first c =? EOF_CHAR) = true) as ->.
    { unfold first, is_eof in *. by destruct (chars c). }
    lexes_done.
  - rewrite andb_false_r. apply length_bump in He.
    pose proof (adv_length _ _ (adv_bump (bump_ c))).
    case_if E; apply IH; try lia; adv_solve.
Qed.

Lemma single_quoted_string_steps c : adv c0 c -> steps c0 (single_quoted_string c).
Proof.
  intros A. unfold single_quoted_string. destruct (_ && _); [lexes_done|].
  apply single_quoted_loop_steps; auto.
Qed.

Lemma raw_string_loop_steps fuel pl sp ns mx po c : adv c0 c -> (length (chars c) < fuel)%nat ->
  steps c0 (raw_string_loop fuel pl sp ns mx po c).
Proof.
  revert mx po c. induction fuel as [|f IH]; intros mx po c A Hf; [lia|].
  cbn [raw_string_loop]. rewrite eat_until_eq by auto using dquote_ascii. cbn [obind].
  set (c1 := eat_while _ c). assert (A1 : adv c c1) by apply adv_eat_while.
  destruct (is_eof c1) eqn:He; [apply runs_ret; by transitivity c|].
  pose proof (adv_eat_hashes_upto ns 0 (bump_ c1)) as A2.
  destruct (eat_hashes_upto ns 0 (bump_ c1)) as [ne c2]. simpl in A2.
  assert (adv c0 c2) by (transitivity (bump_ c1); [transitivity c1; [by transitivity c|apply adv_bump]|done]).
  apply length_bump in He. pose proof (adv_length _ _ A1). pose proof (adv_length _ _ A2).
  case_ifs; [by apply runs_ret|apply IH; auto; lia|apply IH; auto; lia].
Qed.

Lemma raw_string_unvalidated_steps pl c : adv c0 c -> steps c0 (raw_string_unvalidated pl c).
Proof.
  intros A. unfold raw_string_unvalidated. pose proof (adv_eat_hashes 0 c) as A1.
  destruct (eat_hashes 0 c) as [n c1]. simpl in A1.
  pose proof (adv_bump c1) as A2. unfold bump_ in A2.
  assert (adv c0 (bump c1).2) by (transitivity c1; [by transitivity c|done]).
  destruct (bump c1) as [[x|] c2]; [|by apply runs_ret].
  case_if E; [|by apply runs_ret]. apply raw_string_loop_steps; auto.
Qed.

Lemma raw_double_quoted_string_steps pl c : adv c0 c -> steps c0 (raw_double_quoted_string pl c).
Proof.
  intros A. eapply steps_bind; [by apply raw_string_unvalidated_steps|].
  intros [e|n] c1 A1; [|case_if E]; by apply runs_ret.
Qed.

Lemma r_prefixed_lexes c : adv c0 c -> lexes c0 (r_prefixed c).
Proof.
  intros A. unfold r_prefixed. case_if E; [by apply raw_ident_lexes|].
  case_if E1; [|by apply ident_or_unknown_prefix_lexes].
  eapply steps_bind; [by apply raw_double_quoted_string_steps|]. intros res c1 A1. cbv zeta.
  eapply moves_bind; [by apply suffix_if_moves|]. intros; lexes_done.
Qed.

Lemma str_literal_lexes c : adv c0 c -> lexes c0 (str_literal c).
Proof.
  intros A. eapply steps_bind; [by apply double_quoted_string_steps|]. intros t c1 A1. cbv zeta.
  eapply moves_bind; [by apply suffix_if_moves|]. intros; lexes_done.
Qed.

Lemma c_or_byte_string_lexes mk mkr sq c : adv c0 c -> lexes c0 (c_or_byte_string mk mkr sq c).
Proof.
  intros A. unfold c_or_byte_string.
  assert (Hrest : lexes c0
    (if byte_is (first_byte c) DQUOTE then
        let* c := bump_ascii DQUOTE c in
        let* '(terminated, c) := double_quoted_string c in
        let suffix_start := pos_within_token c in
        let* c := suffix_if terminated c in
        Ret (Literal (mk terminated) suffix_start, c)
      else if byte_is (first_byte c) (ch "r")
              && (byte_is (second_byte c) DQUOTE || byte_is (second_byte c) (ch "#")) then
        let* c := bump_ascii (ch "r") c in
        let* '(res, c) := raw_double_quoted_string 2 c in
        let suffix_start := pos_within_token c in
        let* c := suffix_if (match res with inr _ => true | inl _ => false end) c in
        Ret (Literal (mkr (res_ok res)) suffix_start, c)
      else ident_or_unknown_prefix c)).
  { case_if E.
    - eapply moves_bind; [apply bump_ascii_moves; auto; unfold DQUOTE; lia|]. intros c1 A1.
      eapply steps_bind; [by apply double_quoted_string_steps|]. intros t c2 A2. cbv zeta.
      eapply moves_bind; [by apply suffix_if_moves|]. intros; lexes_done.
    - case_if E1; [|by apply ident_or_unknown_prefix_lexes]. propify.
      eapply moves_bind; [apply bump_ascii_moves; auto; vm_compute; split; congruence|].
      intros c1 A1.
      eapply steps_bind; [by apply raw_double_quoted_string_steps|]. intros t c2 A2. cbv zeta.
      eapply moves_bind; [by apply suffix_if_moves|]. intros; lexes_done. }
  destruct (byte_is (first_byte c) SQUOTE) eqn:Es; [|exact Hrest].
  destruct sq as [sq|]; [|exact Hrest].
  eapply moves_bind; [apply bump_ascii_moves; auto; unfold SQUOTE; lia|]. intros c1 A1.
  eapply steps_bind; [by apply single_quoted_string_steps|]. intros t c2 A2. cbv zeta.
  eapply moves_bind; [by apply suffix_if_moves|]. intros; lexes_done.
Qed.

Lemma lifetime_or_char_lexes c : adv c0 c -> lexes c0 (lifetime_or_char c).
Proof.
  intros A. unfold lifetime_or_char. cbv zeta. case_if E; [|case_if E1].
  - eapply steps_bind; [by apply single_quoted_string_steps|]. intros t c1 A1.
    eapply moves_bind; [by apply suffix_if_moves|]. intros; lexes_done.
  - eapply moves_bind; [apply eat_id_continue_moves; adv_solve|]. intros; lexes_done.
  - eapply moves_bind; [apply eat_id_continue_moves; adv_solve|]. intros c1 A1.
    case_ifs; lexes_done.
Qed.

Lemma eat_decimal_digits_steps c : adv c0 c -> steps c0 (eat_decimal_digits c).
Proof. intros A. rewrite eat_decimal_digits_eq by auto. lexes_done. Qed.

Lemma eat_hexadecimal_digits_steps c : adv c0 c -> steps c0 (eat_hexadecimal_digits c).
Proof. intros A. rewrite eat_hexadecimal_digits_eq by auto. lexes_done. Qed.

Lemma eat_float_exponent_steps c : adv c0 c -> steps c0 (eat_float_exponent c).
Proof. intros A. apply eat_decimal_digits_steps. adv_solve. Qed.

Lemma number_tail_steps base c : adv c0 c -> steps c0 (number_tail base c).
Proof.
  intros A. unfold number_tail. cbv zeta. case_if E; [case_if E1|case_if E1]; try lexes_done.
  - eapply steps_bind; [apply eat_decimal_digits_steps; adv_solve|]. intros b c1 A1.
    case_if E2; [|lexes_done].
    eapply steps_bind; [apply eat_float_exponent_steps; adv_solve|]. intros; lexes_done.
  - eapply steps_bind; [apply eat_float_exponent_steps; adv_solve|]. intros; lexes_done.
Qed.

Lemma number_steps x c : adv c0 c -> steps c0 (number x c).
Proof.
  intros A. unfold number. cbv zeta.
  assert (Hd : forall c, adv c0 c -> forall base (f : bool -> bool), steps c0 (let* '(has, c) := eat_decimal_digits c in
     if f has then Ret (Int base true, c) else number_tail base c)).
  { intros c1 A1 base f. eapply steps_bind; [by apply eat_decimal_digits_steps|].
    intros b c2 A2. case_if E; [lexes_done|by apply number_tail_steps]. }
  assert (Hn : steps c0 (let* '(_, c) := eat_decimal_digits c in number_tail Decimal c)).
  { eapply steps_bind; [by apply eat_decimal_digits_steps|]. intros. by apply number_tail_steps. }
  case_ifs; try lexes_done; try exact Hn; try (by apply number_tail_steps).
  - apply (Hd (bump_ c) ltac:(adv_solve) Binary negb).
  - apply (Hd (bump_ c) ltac:(adv_solve) Octal negb).
  - eapply steps_bind; [apply eat_hexadecimal_digits_steps; adv_solve|]. intros b c2 A2.
    case_if E9; [lexes_done|by apply number_tail_steps].
Qed.

Lemma number_literal_lexes x c : adv c0 c -> lexes c0 (number_literal x c).
Proof.
  intros A. eapply steps_bind; [by apply number_steps|]. intros k c1 A1. cbv zeta.
  eapply moves_bind; [by apply eat_identifier_moves|]. intros; lexes_done.
Qed.
End Adv.
