(* ===== verification/LexerToken.v ===== *)
(** * Tokens, and raw strings *)
From Stdlib Require Import Ascii String ZArith Lia.
From stdpp Require Import base numbers list.
From S2P Require Import Prelude RustStr Swar Lexer LexerAdv.
Open Scope Z_scope.
Open Scope rust_scope.

(** ** Tokens

    The frontmatter scan, the token dispatch and its byte-indexed fast path, and
    the token iterator: every call returns, tokens partition the text, and the
    fast path picks the token the general path picks. *)

(** *** Frontmatter *)

Definition leading_dashes (s : str) : nat := length (take_while (fun x => x =? ch "-") s).

(** No run of dashes is longer than a format width can be. *)
Definition short_fences (s : str) : Prop :=
  forall s1 s2, s = s1 ++ s2 -> Z.of_nat (leading_dashes s2) <= 65535.

Lemma short_fences_suffix s1 s2 : short_fences (s1 ++ s2) -> short_fences s2.
Proof. intros H t1 t2 ->. apply (H (s1 ++ t1)). by rewrite app_assoc. Qed.

Lemma str_len_dashes s : str_len (take_while (fun x => x =? ch "-") s) = leading_dashes s.
Proof.
  apply (str_len_take_while (fun x => x =? ch "-")). intros b Hb%Z.eqb_eq. subst b.
  vm_compute. split; congruence.
Qed.

(** [length_opening] counts the dashes, the eaten one included. *)
Lemma length_opening_eq c :
  wrap_u32 (pos_within_token (eat_while (fun x => x =? ch "-") c) - pos_within_token c + 1)
  = wrap_u32 (Z.of_nat (leading_dashes (chars c)) + 1).
Proof.
  rewrite eat_while_drop. unfold pos_within_token, wrap_u32. simpl.
  set (L := Z.of_nat (len_remaining c)).
  rewrite <- (take_drop_while (fun x => x =? ch "-") (chars c)) at 2.
  rewrite str_len_app, str_len_dashes, Nat2Z.inj_add.
  set (d := Z.of_nat (str_len _)). set (k := Z.of_nat (leading_dashes _)).
  rewrite <- Zplus_mod_idemp_l, <- Zminus_mod, Zplus_mod_idemp_l. f_equal. lia.
Qed.

Section Tokens.
Context {D : LexDeps} {DOk : LexDepsOk D}.

(** A byte offset at which [s] may be cut, less [base]. *)
Definition cut (s : str) (base n : nat) : Prop :=
  exists s1 s2, s = s1 ++ s2 /\ n = (str_len s1 + base)%nat.

Lemma cut_find p s n : str_find p s = Some n -> cut s 0 n.
Proof. intros (s1 & s2 & -> & <-)%str_find_Some. exists s1, (p ++ s2). auto with lia. Qed.

Lemma recover_dashes_runs fuel rest base : (length rest < fuel)%nat ->
  runs (recover_dashes fuel rest base) (fun o => forall n, o = Some n -> cut rest base n).
Proof.
  revert rest base. induction fuel as [|f IH]; intros rest base Hf; [lia|].
  cbn [recover_dashes]. destruct (str_find (lit "---") rest) as [closing|] eqn:Hfind.
  2: { apply runs_ret. discriminate. }
  apply str_find_Some in Hfind as (s1 & s2 & Hr & Hl). subst rest closing.
  rewrite str_to_app. cbn [obind unwrap].
  assert (Hpre : exists a b, s1 = a ++ b /\
    str_len a = match str_rfind_char NEWLINE s1 with Some i => (i + 1)%nat | None => O end).
  { destruct (str_rfind_char NEWLINE s1) as [i|] eqn:Hrf; [|by exists [], s1].
    apply str_rfind_char_Some in Hrf as (a & b & -> & <-).
    exists (a ++ [NEWLINE]), b. rewrite <- app_assoc, str_len_app. simpl. auto. }
  destruct Hpre as (a & b & -> & <-).
  assert (Hs : str_slice (str_len a) (str_len (a ++ b)) ((a ++ b) ++ lit "---" ++ s2) = Some b).
  { unfold str_slice. rewrite str_len_app, (proj2 (Nat.ltb_ge _ _)) by lia.
    rewrite <- app_assoc, str_from_app. simpl.
    replace (str_len a + str_len b - str_len a)%nat with (str_len b) by lia. apply str_to_app. }
  rewrite Hs. cbn [obind unwrap]. case_if E.
  - apply runs_ret. intros n [= <-]. exists (a ++ b), (lit "---" ++ s2). auto.
  - set (s1 := a ++ b) in *. replace (str_len s1 + 3)%nat with (str_len (s1 ++ lit "---"))
      by (rewrite str_len_app; simpl; lia).
    rewrite app_assoc, str_from_app. cbn [obind unwrap].
    rewrite !length_app in Hf. simpl in Hf.
    eapply runs_mono; [apply IH; lia|]. intros o Ho n Hn.
    destruct (Ho n Hn) as (t1 & t2 & -> & ->). exists ((s1 ++ lit "---") ++ t1), t2.
    rewrite <- !app_assoc, !str_len_app. simpl. split; [done|lia].
Qed.

Lemma bump_bytes_cut c0 c n : adv c0 c -> cut (chars c) 0 n -> moves c0 (bump_bytes n c).
Proof.
  intros A (s1 & s2 & Hc & ->). rewrite (bump_bytes_app _ s1 s2) by (auto; lia).
  apply runs_ret. transitivity c; [done|]. by eapply adv_set.
Qed.

Lemma frontmatter_recovery_moves c0 c : wf_str (chars c0) -> adv c0 c ->
  moves c0 (frontmatter_recovery c).
Proof.
  intros W A. unfold frontmatter_recovery. cbv zeta.
  assert (Hnone : moves c0 (Ret (eat_while (fun _ => true) c))) by (apply runs_ret; adv_solve).
  assert (Hsome : forall n, cut (chars c) 0 n ->
    moves c0 (let* c := bump_bytes n c in eat_until NEWLINE c)).
  { intros n Hn. eapply moves_bind; [by apply bump_bytes_cut|]. intros c1 A1.
    apply eat_until_moves; auto using newline_ascii. }
  set (o := or_else _ _).
  assert (Ho : forall n, o = Some n -> cut (chars c) 0 n).
  { unfold o, or_else. intros n.
    destruct (str_find (NEWLINE :: lit "---") (chars c)) as [m|] eqn:E1; simpl.
    { intros [= <-]. apply str_find_Some in E1 as (s1 & s2 & -> & <-).
      exists (s1 ++ [NEWLINE]), (lit "---" ++ s2).
      rewrite <- app_assoc, str_len_app. simpl. split; [done|lia]. }
    destruct (str_find (NEWLINE :: lit "use ") (chars c)) eqn:E2; [intros [= <-]; by eapply cut_find|].
    destruct (str_find (NEWLINE :: lit "//!") (chars c)) eqn:E3; [intros [= <-]; by eapply cut_find|].
    apply cut_find. }
  destruct o as [n|]; cbn [obind]; [by apply Hsome, Ho|].
  eapply runs_bind; [apply recover_dashes_runs; lia|].
  intros [n|] Hn; [by apply Hsome, Hn|exact Hnone].
Qed.

Lemma nl_fence_runs n : 0 <= n <= 65535 ->
  runs (nl_fence n) (fun s => s = NEWLINE :: replicate (Z.to_nat n) (ch "-")).
Proof. intros Hn. unfold nl_fence. rewrite (proj2 (Z.leb_le _ _)) by lia. by apply runs_ret. Qed.

Lemma frontmatter_lexes c0 c b : wf_str (chars c0) -> adv c0 c ->
  Z.of_nat (leading_dashes (chars c)) + 1 <= 65535 -> lexes c0 (frontmatter b c).
Proof.
  intros W A Hd. unfold frontmatter. cbv zeta. rewrite length_opening_eq.
  set (c1 := eat_while (fun x => x =? ch "-") c).
  assert (A1 : adv c0 c1) by (unfold c1; adv_solve).
  match goal with |- context [eat_while ?p (if ?b then ?x else ?y)] =>
    set (c2 := eat_while p (if b then x else y)) end.
  assert (A2 : adv c0 c2) by (unfold c2; adv_solve).
  eapply runs_bind.
  { apply nl_fence_runs. unfold wrap_u32. rewrite Z.mod_small; lia. }
  intros fence Hfence.
  eapply (moves_bind c0); [|intros; lexes_done].
  destruct (str_find fence (chars c2)) as [closing|] eqn:Hf;
    [|by apply frontmatter_recovery_moves].
  eapply moves_bind.
  - apply (bump_bytes_cut c0); [done|]. apply str_find_Some in Hf as (s1 & s2 & -> & <-).
    exists (s1 ++ fence), s2. rewrite <- app_assoc, str_len_app. auto.
  - intros c3 A3. apply eat_until_moves; auto using newline_ascii.
Qed.

(** *** Dispatch *)

Lemma ascii_token_lexes b c : wf_str (chars c) -> lexes c (ascii_token b c).
Proof.
  intros W. assert (A : adv c c) by reflexivity. unfold ascii_token, byte_string, c_string.
  case_ifs; first [lexes_done | apply line_comment_lexes; done | apply block_comment_lexes; done
    | apply whitespace_lexes; done | apply r_prefixed_lexes; done
    | apply c_or_byte_string_lexes; done | apply ident_or_unknown_prefix_lexes; done
    | apply number_literal_lexes; done | apply lifetime_or_char_lexes; done
    | apply str_literal_lexes; done].
Qed.

Lemma leading_dashes_cons s : leading_dashes (ch "-" :: s) = S (leading_dashes s).
Proof. reflexivity. Qed.

Lemma general_token_lexes x c : wf_str (chars c) ->
  (frontmatter_allowed c = Yes -> short_fences (x :: chars c)) -> lexes c (general_token x c).
Proof.
  intros W F. assert (A : adv c c) by reflexivity. unfold general_token. cbv zeta.
  destruct (_ && is_whitespace x) eqn:E1.
  - pose proof (adv_fm_whitespace x c) as A1. destruct (fm_whitespace x c) as [last c1].
    simpl in A1. case_if E2; [|by apply runs_ret]. apply andb_true_iff in E2 as [_ E2].
    apply starts_with_spec in E2 as (s' & Hs').
    apply frontmatter_lexes; [done|by transitivity c1; [|apply adv_bump]|].
    unfold bump_, bump. rewrite Hs'. cbn [lit]. simpl (chars _).
    destruct (frontmatter_allowed c) eqn:Ef; [|discriminate]. specialize (F eq_refl).
    destruct A1 as (_ & _ & t & Ht). specialize (F (x :: t) (chars c1)).
    rewrite Ht in F. specialize (F eq_refl). rewrite Hs' in F.
    change (leading_dashes (lit "---" ++ s')) with
      (S (leading_dashes (ch "-" :: ch "-" :: s'))) in F.
    change (leading_dashes ((ch "-" :: ch "-" :: s'))) with
      (leading_dashes (ch "-" :: ch "-" :: s')). simpl in *. lia.
  - destruct ((x =? ch "-") && _) eqn:E2.
    + apply andb_true_iff in E2 as [Ex E2]. apply andb_true_iff in E2 as [Ef _]. propify. subst x.
      destruct (frontmatter_allowed c); [|discriminate].
      apply frontmatter_lexes; [done|done|].
      pose proof (F eq_refl [] _ eq_refl) as F'. rewrite leading_dashes_cons in F'. lia.
    + clear E1 E2. unfold byte_string, c_string.
      case_ifs; first [lexes_done | apply line_comment_lexes; done | apply block_comment_lexes; done
        | apply whitespace_lexes; done | apply r_prefixed_lexes; done
        | apply c_or_byte_string_lexes; done | apply ident_or_unknown_prefix_lexes; done
        | apply number_literal_lexes; done | apply lifetime_or_char_lexes; done
        | apply str_literal_lexes; done | apply invalid_ident_lexes; done].
Qed.

Lemma is_id_start_ascii b : 0 <= b < 0x80 -> is_id_start b = (b =? 95) || is_ascii_alphabetic b.
Proof. intros Hb. unfold is_id_start. by rewrite xid_start_ascii. Qed.

(** The byte-indexed dispatch is the character dispatch. *)
Lemma ascii_token_general b c : wf_str (chars c) -> frontmatter_allowed c = No -> 0 <= b < 0x80 ->
  ascii_token b c = general_token b c.
Proof.
  intros W Hfm Hb. unfold ascii_token, general_token. rewrite Hfm.
  rewrite !byte_is_first by (auto; vm_compute; split; congruence).
  rewrite is_id_start_ascii by done.
  assert (Hn : exists n, (n < 128)%nat /\ b = Z.of_nat n) by (exists (Z.to_nat b); lia).
  destruct Hn as (n & Hn & ->). clear Hb.
  do 128 (destruct n as [|n]; [reflexivity|]). lia.
Qed.
End Tokens.

(** ** Raw strings

    A declarative description of the raw string a literal denotes, and the proof
    that [raw_double_quoted_string] accepts exactly those texts. *)

Definition HASH : Z := ch "#".
Definition hashes (n : nat) : str := replicate n HASH.
Definition leading_hashes (s : str) : nat := length (take_while (fun x => x =? HASH) s).

(** No quote of the body is followed by [n] hashes. *)
Definition no_closer (n : nat) (body : str) : Prop :=
  forall s1 s2, body = s1 ++ DQUOTE :: s2 -> (leading_hashes s2 < n)%nat.

(** The text of a raw string with [n] hashes, after its prefix. *)
Definition raw_text (n : nat) (body : str) : str :=
  hashes n ++ DQUOTE :: body ++ DQUOTE :: hashes n.

(** What is left after the first quote that [n] hashes follow. *)
Fixpoint raw_close (n : nat) (s : str) : option str :=
  match s with
  | [] => None
  | x :: s' => if (x =? DQUOTE) && (n <=? leading_hashes s')%nat then Some (drop n s')
               else raw_close n s'
  end.

Lemma leading_hashes_cons s : leading_hashes (HASH :: s) = S (leading_hashes s).
Proof. reflexivity. Qed.

Lemma leading_hashes_split s : exists t, s = hashes (leading_hashes s) ++ t
  /\ match t with [] => True | x :: _ => x <> HASH end.
Proof.
  induction s as [|x s IH]; [by exists []|]. unfold leading_hashes. simpl.
  destruct (Z.eqb_spec x HASH) as [->|Hx]; simpl; [|by exists (x :: s)].
  destruct IH as (t & Ht & Hh). exists t. split; [|done].
  change (HASH :: s = HASH :: (hashes (leading_hashes s) ++ t)). by rewrite <- Ht.
Qed.

Lemma leading_hashes_ge n s : (n <= leading_hashes s)%nat <-> s = hashes n ++ drop n s.
Proof.
  revert s. induction n as [|n IH]; intros s; simpl; [split; auto with lia|].
  destruct s as [|x s]; [split; [unfold leading_hashes; simpl; lia|discriminate]|].
  unfold leading_hashes. simpl. destruct (Z.eqb_spec x HASH) as [->|Hx]; simpl.
  - change (length (take_while _ s)) with (leading_hashes s).
    change (replicate n HASH) with (hashes n). rewrite <- Nat.succ_le_mono, IH.
    split; [by intros <-|by intros [= <-]].
  - split; [lia|]. intros [= ? ?]. done.
Qed.

Lemma drop_hashes n s : drop n (hashes n ++ s) = s.
Proof. induction n; simpl; auto. Qed.

Lemma hash_not_dquote : HASH <> DQUOTE.
Proof. by vm_compute. Qed.

(** Hashes, and characters that are not quotes, are passed over. *)
Lemma raw_close_skip n s1 s2 : Forall (fun x => x <> DQUOTE) s1 ->
  raw_close n (s1 ++ s2) = raw_close n s2.
Proof.
  induction 1 as [|x s1 Hx _ IH]; [done|]. simpl.
  by rewrite (proj2 (Z.eqb_neq _ _) Hx).
Qed.

Lemma leading_hashes_app_dquote s t :
  leading_hashes (s ++ DQUOTE :: t) = leading_hashes s.
Proof.
  induction s as [|x s IH]; [reflexivity|]. unfold leading_hashes in *. simpl.
  destruct (x =? HASH); simpl; auto.
Qed.

Lemma raw_close_spec n s rest :
  raw_close n s = Some rest <->
  exists body, s = body ++ DQUOTE :: hashes n ++ rest /\ no_closer n body.
Proof.
  split.
  - induction s as [|x s IH]; simpl; [discriminate|].
    destruct ((x =? DQUOTE) && _) eqn:E.
    + intros [= <-]. propify. subst x. apply leading_hashes_ge in H0.
      exists []. split; [by rewrite <- H0|]. intros s1 s2 H. by destruct s1.
    + intros (body & -> & Hb)%IH. exists (x :: body). split; [done|].
      intros [|y s1] s2 [= -> Hs]; [|by eapply Hb]. subst s2.
      rewrite Z.eqb_refl in E. simpl in E. propify.
      by rewrite leading_hashes_app_dquote in E.
  - intros (body & -> & Hb). induction body as [|x body IH]; simpl.
    + rewrite (proj2 (Nat.leb_le _ _)), drop_hashes; [done|].
      apply leading_hashes_ge. by rewrite drop_hashes.
    + destruct (Z.eqb_spec x DQUOTE) as [->|]; simpl.
      * rewrite (proj2 (Nat.leb_gt _ _)).
        -- apply IH. intros s1 s2 ->. by apply (Hb (DQUOTE :: s1)).
        -- rewrite leading_hashes_app_dquote. by apply (Hb []).
      * apply IH. intros s1 s2 ->. by apply (Hb (x :: s1)).
Qed.

(** *** The hash counters *)

Lemma eat_hashes_eq n c : 0 <= n ->
  n + Z.of_nat (leading_hashes (chars c)) <= u32_max ->
  eat_hashes n c = (n + Z.of_nat (leading_hashes (chars c)),
                    set_chars c (drop (leading_hashes (chars c)) (chars c))).
Proof.
  unfold eat_hashes. match goal with |- context [let '(_, _) := ?g n (chars c) in _] => set (go := g) end.
  assert (H : forall s n, 0 <= n -> n + Z.of_nat (leading_hashes s) <= u32_max ->
    go n s = (n + Z.of_nat (leading_hashes s), drop (leading_hashes s) s)).
  { induction s as [|x s IH]; intros m Hm Hb; simpl; [change (leading_hashes []) with O; simpl; f_equal; lia|].
    unfold leading_hashes in *. simpl in *. fold HASH. destruct (x =? HASH); simpl in *; [|f_equal; lia].
    unfold u32_max in *. rewrite IH; unfold wrap_u32; rewrite ?Z.mod_small by lia; [f_equal; lia|lia|lia]. }
  intros Hn Hb. by rewrite H.
Qed.

Lemma eat_hashes_upto_eq max n c : 0 <= n <= max -> max <= u32_max ->
  let k := Nat.min (leading_hashes (chars c)) (Z.to_nat (max - n)) in
  eat_hashes_upto max n c = (n + Z.of_nat k, set_chars c (drop k (chars c))).
Proof.
  unfold eat_hashes_upto.
  match goal with |- context [let '(_, _) := ?g n (chars c) in _] => set (go := g) end.
  assert (H : forall s n, 0 <= n <= max -> max <= u32_max ->
    go n s = (n + Z.of_nat (Nat.min (leading_hashes s) (Z.to_nat (max - n))),
              drop (Nat.min (leading_hashes s) (Z.to_nat (max - n))) s)).
  { induction s as [|x s IH]; intros m Hm Hb; simpl; [change (leading_hashes []) with O; simpl; f_equal; lia|].
    unfold leading_hashes in *. simpl in *. fold HASH.
    destruct (x =? HASH); simpl in *; [|f_equal; lia].
    destruct (Z.ltb_spec m max).
    - unfold u32_max in *. rewrite IH; unfold wrap_u32; rewrite ?Z.mod_small by lia; [|lia|lia].
      replace (Z.to_nat (max - m)) with (S (Z.to_nat (max - (m + 1)))) by lia.
      cbn [Nat.min drop]. f_equal. lia.
    - replace (Z.to_nat (max - m)) with O by lia. simpl. f_equal. lia. }
  intros Hn Hb. cbv zeta. by rewrite H.
Qed.

Section Raw.
Context {D : LexDeps} {DOk : LexDepsOk D}.

Lemma raw_string_loop_eq fuel pl sp n mx po c :
  wf_str (chars c) -> 0 <= n <= u32_max -> (length (chars c) < fuel)%nat ->
  match raw_close (Z.to_nat n) (chars c) with
  | Some rest => raw_string_loop fuel pl sp n mx po c = Ret (inr n, set_chars c rest)
  | None => exists e, raw_string_loop fuel pl sp n mx po c = Ret (inl e, set_chars c [])
  end.
Proof.
  revert mx po c. induction fuel as [|f IH]; intros mx po c W Hn Hf; [lia|].
  cbn [raw_string_loop]. rewrite eat_until_eq by auto using dquote_ascii.
  cbn [obind]. rewrite eat_while_drop.
  set (p := fun x => negb (x =? DQUOTE)).
  pose proof (take_drop_while p (chars c)) as Hsplit.
  assert (Hnq : Forall (fun x => x <> DQUOTE) (take_while p (chars c))).
  { eapply Forall_impl; [apply take_while_Forall|]. unfold p. intros x Hx. by propify. }
  assert (Hrc : raw_close (Z.to_nat n) (chars c) =
    raw_close (Z.to_nat n) (drop_while p (chars c))).
  { rewrite <- Hsplit at 1. by apply raw_close_skip. }
  rewrite Hrc. clear Hrc. rewrite <- Hsplit in W, Hf.
  apply wf_str_app in W as [_ W]. rewrite length_app in Hf.
  destruct (drop_while p (chars c)) as [|x s] eqn:Hd.
  { simpl. eauto. }
  apply drop_while_head in Hd. unfold p in Hd. propify. subst x.
  change (is_eof (set_chars c (DQUOTE :: s))) with false.
  change (bump_ (set_chars c (DQUOTE :: s))) with (set_chars c s). cbv iota.
  rewrite eat_hashes_upto_eq by lia. rewrite Z.sub_0_r, Z.add_0_l. simpl (chars _).
  set (k := Nat.min (leading_hashes s) (Z.to_nat n)).
  cbn [raw_close]. rewrite Z.eqb_refl. cbn [andb].
  destruct (Nat.leb_spec (Z.to_nat n) (leading_hashes s)).
  - rewrite (proj2 (Z.eqb_eq _ _)) by lia. by replace k with (Z.to_nat n) by lia.
  - rewrite (proj2 (Z.eqb_neq _ _)) by lia.
    assert (Hk : s = hashes k ++ drop k s) by (apply leading_hashes_ge; lia).
    assert (Hrec : raw_close (Z.to_nat n) s = raw_close (Z.to_nat n) (drop k s)).
    { rewrite Hk at 1. apply raw_close_skip. apply Forall_replicate, hash_not_dquote. }
    rewrite Hrec. inversion W as [|? ? _ W']; subst.
    assert (W'' : wf_str (drop k s)) by (rewrite Hk in W'; by apply wf_str_app in W' as []).
    assert (Hl : (length (drop k s) < f)%nat) by (rewrite length_drop; simpl in Hf; lia).
    set (c' := set_chars (set_chars c s) (drop k s)).
    assert (Hc' : chars c' = drop k s) by done.
    pose proof (IH mx po c' W'' Hn Hl) as IH1. rewrite Hc' in IH1.
    case_if E; [|exact IH1].
    pose proof (IH (Z.of_nat k) (Some (wrap_u32 (pos_within_token c' - sp - Z.of_nat k + pl)))
      c' W'' Hn Hl) as IH2. rewrite Hc' in IH2. exact IH2.
Qed.

Lemma raw_text_count n body rest :
  leading_hashes (raw_text n body ++ rest) = n.
Proof.
  unfold raw_text. rewrite <- app_assoc. cbn [app]. rewrite leading_hashes_app_dquote.
  induction n as [|n IH]; [done|]. change (hashes (S n)) with (HASH :: hashes n).
  by rewrite leading_hashes_cons, IH.
Qed.

(** Exactly the raw string texts with at most 255 hashes are accepted. *)
Lemma raw_double_quoted_string_iff pl n c c' :
  wf_str (chars c) -> Z.of_nat (str_len (chars c)) <= u32_max ->
  raw_double_quoted_string pl c = Ret (inr n, c') <->
  0 <= n <= 255 /\ exists body,
    chars c = raw_text (Z.to_nat n) body ++ chars c' /\ no_closer (Z.to_nat n) body
    /\ c' = set_chars c (chars c').
Proof.
  intros W Hlen. unfold raw_double_quoted_string, raw_string_unvalidated.
  pose proof (leading_hashes_split (chars c)) as (t & Ht & Hh).
  set (h := leading_hashes (chars c)) in *.
  assert (Hbound : Z.of_nat h <= u32_max).
  { pose proof (str_len_length (chars c)) as Hl. rewrite Ht in Hl at 1.
    rewrite length_app in Hl. unfold hashes in Hl. rewrite length_replicate in Hl. lia. }
  rewrite eat_hashes_eq by (fold h; lia). fold h. rewrite Z.add_0_l.
  assert (Hdrop : drop h (chars c) = t) by (rewrite Ht; apply drop_hashes).
  rewrite Hdrop. unfold bump. simpl (chars _).
  assert (Hright : forall body, chars c = raw_text (Z.to_nat n) body ++ chars c' ->
    Z.to_nat n = h /\ t = DQUOTE :: body ++ DQUOTE :: hashes h ++ chars c').
  { intros body Hc. assert (Hh' : Z.to_nat n = h) by (unfold h; rewrite Hc; symmetry; apply raw_text_count).
    split; [done|]. rewrite <- Hdrop, Hc, Hh'. unfold raw_text.
    rewrite <- app_assoc, drop_hashes. simpl. by rewrite <- app_assoc. }
  destruct t as [|x t].
  { simpl. split; [intros; discriminate|]. intros (_ & body & Hc & _).
    destruct (Hright body Hc) as [_ ?]. discriminate. }
  destruct (Z.eqb_spec x DQUOTE) as [->|Hx].
  2: { simpl. split; [intros; discriminate|]. intros (_ & body & Hc & _).
    destruct (Hright body Hc) as [_ [= ? ?]]. done. }
  assert (Wt : wf_str t).
  { rewrite Ht in W. apply wf_str_app in W as [_ W]. by inversion W. }
  cbn iota. set (c1 := set_chars (set_chars c (DQUOTE :: t)) t).
  pose proof (raw_string_loop_eq (S (length (chars c1))) pl (pos_within_token c) (Z.of_nat h) 0 None c1
    Wt ltac:(lia) ltac:(lia)) as Hloop.
  rewrite Nat2Z.id in Hloop. change (raw_close h (chars c1)) with (raw_close h t) in Hloop.
  destruct (raw_close h t) as [rest|] eqn:Hcl.
  - rewrite Hloop. cbn [obind].
    apply raw_close_spec in Hcl as Hcl'. destruct Hcl' as (body & Hbody & Hno).
    unfold u8_max. destruct (Z.leb_spec (Z.of_nat h) 255).
    + split.
      * intros [= <- <-]. split; [lia|]. exists body. rewrite Nat2Z.id. simpl. split_and!; [|done|done].
        rewrite Ht at 1. rewrite Hbody. unfold raw_text. by rewrite <- !app_assoc; simpl; rewrite <- app_assoc.
      * intros (Hn & body' & Hc & Hno' & ->). destruct (Hright body' Hc) as [Hnh Htt].
        injection Htt as Htt. assert (Hcl2 : raw_close h t = Some (chars c')).
        { apply raw_close_spec. exists body'. rewrite Hnh in Hno'. done. }
        rewrite Hcl in Hcl2. injection Hcl2 as ->. f_equal. f_equal. f_equal. lia.
    + split; [intros; discriminate|]. intros (Hn & body' & Hc & _).
      destruct (Hright body' Hc) as [Hnh _]. lia.
  - destruct Hloop as [e ->]. cbn [obind]. split; [intros; discriminate|].
    intros (Hn & body & Hc & Hno & _). destruct (Hright body Hc) as [Hnh Htt].
    injection Htt as Htt. assert (raw_close h t = Some (chars c')) as Hcl2
      by (apply raw_close_spec; exists body; rewrite Hnh in Hno; done).
    congruence.
Qed.
End Raw.
