(* ===== verification/LexerTheorems.v ===== *)
(** * Correctness of the lexer: the theorems

    Stated for any Unicode tables and byte searches that satisfy [LexDepsOk];
    [AsciiDeps] is one such instance, used by the witnesses. *)
From Stdlib Require Import Ascii String.
From Stdlib Require Import ZArith Lia.
From stdpp Require Import base numbers list.
From S2P Require Import Prelude RustStr Swar Lexer LexerAdv LexerToken.
Open Scope Z_scope.
Open Scope rust_scope.

(** ** A concrete instance of the external code: no letters beyond ASCII. *)

Definition AsciiDeps : LexDeps := {|
  is_xid_start := is_ascii_alphabetic;
  is_xid_continue := fun c => is_ascii_alphanumeric c || (c =? 95);
  is_emoji_char := fun c => (0x1F300 <=? c) && (c <=? 0x1FAFF);
  memchr := fun b l => position (fun x => x =? b) l;
  memchr2 := fun a b l => position (fun x => (x =? a) || (x =? b)) l;
|}.

#[export] Instance AsciiDepsOk : LexDepsOk AsciiDeps.
Proof. by split. Qed.

(** ** One token *)

(** The token start is where the cursor is: true between calls of [advance_token]. *)
Definition synced (c : Cursor) : Prop := len_remaining c = str_len (chars c).

(** No frontmatter fence of the remaining text is too long to be formatted. *)
Definition fences_ok (c : Cursor) : Prop :=
  frontmatter_allowed c = Yes -> short_fences (chars c).

(** The token [tok] covers the text between the cursors [c] and [c']. *)
Definition covers (c : Cursor) (tok : Token) (c' : Cursor) (text : str) : Prop :=
  chars c = text ++ chars c' /\ len tok = wrap_u32 (Z.of_nat (str_len text))
  /\ (kind tok = Eof <-> text = []) /\ (text = [] <-> chars c = [])
  /\ synced c' /\ (frontmatter_allowed c = No -> frontmatter_allowed c' = No).

Section Theorems.
Context {D : LexDeps} {DOk : LexDepsOk D}.

Lemma advance_token_general_covers c : wf_str (chars c) -> synced c -> fences_ok c ->
  runs (advance_token_general c) (fun '(tok, c') => exists text, covers c tok c' text).
Proof.
  intros W Hs F. unfold advance_token_general, bump. destruct (chars c) as [|x s] eqn:Hc.
  - apply runs_ret. exists []. unfold covers. rewrite Hc. unfold synced. rewrite Hs, Hc. done.
  - set (c1 := set_chars c s). inversion W as [|? ? _ W1]; subst.
    destruct (general_token_lexes x c1) as ([k c2] & -> & Hk & (Hl & Hf & t & Ht)).
    { done. }
    { intros HY. specialize (F HY). by rewrite Hc in F. }
    cbn [obind]. apply runs_ret. exists (x :: t). unfold covers.
    assert (Hcs : chars (stop_frontmatter k c2) = chars c2 /\
      len_remaining (stop_frontmatter k c2) = len_remaining c2).
    { unfold stop_frontmatter. by destruct (frontmatter_allowed c2), (is_Whitespace k). }
    destruct Hcs as [Hcs Hls]. simpl (chars c1) in Ht. cbn [len kind].
    split_and!; try done.
    + simpl. by rewrite Hcs, <- Ht.
    + unfold pos_within_token. rewrite Hls, Hcs, Hl. simpl. rewrite Hs, Hc, Ht. simpl.
      f_equal. rewrite str_len_app. lia.
    + by rewrite Hc.
    + intros HN. simpl. unfold stop_frontmatter. rewrite Hf. simpl. by rewrite HN, Hf.
Qed.

Lemma advance_token_eq c : wf_str (chars c) -> advance_token c = advance_token_general c.
Proof.
  intros W. unfold advance_token. destruct (frontmatter_allowed c) eqn:Hf; [done|].
  destruct (first_byte c) as [b|] eqn:Hb; [|done]. destruct (Z.ltb_spec b 0x80) as [Hlt|]; [|done].
  unfold first_byte in Hb. destruct (chars c) as [|x s] eqn:Hc; [done|].
  assert (0 <= b) as H0 by (eapply as_bytes_nonneg; [exact W|by eapply list_elem_of_lookup_2]).
  pose proof (proj2 (head_byte x s b W Hb) Hlt); subst x.
  rewrite (bump_ascii_cons b c s) by auto. cbn [obind].
  unfold advance_token_general, bump. rewrite Hc. inversion W as [|? ? _ W1]; subst.
  rewrite ascii_token_general by done.
  destruct (general_token_lexes b (set_chars c s)) as ([k c2] & -> & _ & (_ & Hf2 & _)); [done| |].
  { simpl. congruence. }
  cbn [obind]. unfold stop_frontmatter. simpl in Hf2. by rewrite Hf2, Hf.
Qed.

Lemma advance_token_covers c : wf_str (chars c) -> synced c -> fences_ok c ->
  runs (advance_token c) (fun '(tok, c') => exists text, covers c tok c' text).
Proof. intros. rewrite advance_token_eq by done. by apply advance_token_general_covers. Qed.

Lemma covers_wf c tok c' text : covers c tok c' text -> wf_str (chars c) -> wf_str (chars c').
Proof. intros (Hc & _) W. rewrite Hc in W. by apply wf_str_app in W as []. Qed.

Lemma covers_fences c tok c' text : covers c tok c' text -> fences_ok c -> fences_ok c'.
Proof.
  intros (Hc & _ & _ & _ & _ & HN) F HY. destruct (frontmatter_allowed c) eqn:Hf.
  - specialize (F Hf). rewrite Hc in F. by eapply short_fences_suffix.
  - rewrite HN in HY; [discriminate|done].
Qed.

Lemma is_Eof_iff k : is_Eof k = true <-> k = Eof.
Proof. by destruct k. Qed.

(** The tokens are the successive pieces of the text. *)
Definition pieces_of (toks : list Token) (text : str) : Prop :=
  exists pieces, concat pieces = text /\
    Forall2 (fun tok p => kind tok <> Eof /\ p <> [] /\ len tok = wrap_u32 (Z.of_nat (str_len p)))
      toks pieces.

Lemma tokens_pieces fuel c : wf_str (chars c) -> synced c -> fences_ok c ->
  (length (chars c) < fuel)%nat -> runs (tokens fuel c) (fun toks => pieces_of toks (chars c)).
Proof.
  revert c. induction fuel as [|f IH]; intros c W Hs F Hf; [lia|]. cbn [tokens].
  eapply runs_bind; [by apply advance_token_covers|]. intros [tok c'] [text Hcov].
  pose proof Hcov as (Hc & Hlen & Heof & Hnil & Hs' & _).
  destruct (is_Eof (kind tok)) eqn:E.
  - apply is_Eof_iff in E. apply runs_ret. exists []. split; [|constructor].
    symmetry. apply Hnil, Heof, E.
  - assert (Hk : kind tok <> Eof) by (intros H; apply is_Eof_iff in H; congruence).
    assert (Ht : text <> []) by (intros H; apply Hk, Heof, H).
    rewrite Hc, length_app in Hf. destruct text as [|x text]; [done|]. simpl in Hf.
    eapply runs_bind.
    { apply (IH c'); eauto using covers_wf, covers_fences. lia. }
    intros toks (pieces & Hp & Hall). apply runs_ret. exists ((x :: text) :: pieces).
    split; [simpl; rewrite Hp; by rewrite Hc|]. constructor; auto.
Qed.

Lemma tokenize_pieces input fm : wf_str input -> (fm = Yes -> short_fences input) ->
  runs (tokenize input fm) (fun toks => pieces_of toks input).
Proof. intros W F. apply (tokens_pieces _ (new_cursor input fm)); [done|done|exact F|simpl; lia]. Qed.

Definition total_len (toks : list Token) : Z := foldr (fun t n => len t + n) 0 toks.

(** C8: tokenizing a well-formed text of at most [u32::MAX] bytes returns,
    when, if frontmatter is allowed, it has no run of more than 65535 dashes
    (a longer opening fence makes the lexer panic), and the tokens partition
    the text: there are nonempty pieces, in order, whose concatenation is the
    input, token [i] has the byte length of piece [i], and the lengths add up
    to the input's. *)
Theorem tokenize_partition input fm :
  wf_str input -> (fm = Yes -> short_fences input) -> Z.of_nat (str_len input) <= u32_max ->
  exists toks pieces, tokenize input fm = Ret toks /\ concat pieces = input
    /\ Forall2 (fun tok p => kind tok <> Eof /\ p <> [] /\ len tok = Z.of_nat (str_len p)) toks pieces
    /\ total_len toks = Z.of_nat (str_len input).
Proof.
  intros W F Hlen. destruct (tokenize_pieces input fm W F) as (toks & Ht & pieces & Hp & Hall).
  exists toks, pieces. split; [done|]. split; [done|]. clear Ht F W. subst input.
  unfold u32_max in Hlen.
  induction Hall as [|tok p toks pieces (Hk & Hne & Hl) Hall IH]; [done|].
  cbn [concat] in *. rewrite str_len_app in *. destruct IH as [IH1 IH2]; [lia|].
  unfold wrap_u32 in Hl. rewrite Z.mod_small in Hl by lia.
  split; [by constructor|].
  change (total_len (tok :: toks)) with (len tok + total_len toks). rewrite Hl, IH2. lia.
Qed.

(** C9: the byte-indexed fast path of [advance_token] returns exactly what the
    general path returns, token and cursor, on every text. *)
Theorem advance_token_fast_path c :
  wf_str (chars c) -> advance_token c = advance_token_general c.
Proof. apply advance_token_eq. Qed.

(** [advance_token] never panics and always makes progress: on remaining
    text it returns a token other than [Eof] that covers a nonempty prefix and
    carries its byte length; at the end it returns [Eof] with length 0. *)
Theorem advance_token_progress c :
  wf_str (chars c) -> synced c -> fences_ok c ->
  exists tok c' text, advance_token c = Ret (tok, c') /\ chars c = text ++ chars c'
    /\ len tok = wrap_u32 (Z.of_nat (str_len text))
    /\ (chars c = [] -> kind tok = Eof /\ len tok = 0)
    /\ (chars c <> [] -> kind tok <> Eof /\ text <> []) /\ synced c'.
Proof.
  intros W Hs F. destruct (advance_token_covers c W Hs F) as ([tok c'] & H & text & Hcov).
  destruct Hcov as (Hc & Hl & Hk & Hn & Hs' & _). exists tok, c', text.
  split_and!; try done.
  - intros He. apply Hn in He as Ht. split; [by apply Hk|]. by rewrite Hl, Ht.
  - intros Hne. rewrite Hk, Hn. auto.
Qed.

(** The eight-bytes-at-a-time scans eat exactly what the plain
    character loops eat: white space and identifier characters. *)
Theorem block_scans_are_eat_while c :
  wf_str (chars c) ->
  eat_whitespace c = Ret (eat_while is_whitespace c)
  /\ eat_id_continue c = Ret (eat_while is_id_continue c).
Proof. intros W. split; [by apply eat_whitespace_eq|by apply eat_id_continue_eq]. Qed.

(** The [memchr]-driven scan of a double-quoted string stops where the
    character loop stops, with the same answer: at the first quote that no
    backslash escapes, or at the end of the text. *)
Theorem double_quoted_string_ref c :
  wf_str (chars c) ->
  double_quoted_string c =
  Ret ((double_quoted_ref (chars c)).1, set_chars c (double_quoted_ref (chars c)).2).
Proof.
  intros W. rewrite double_quoted_string_eq by done. by destruct (double_quoted_ref (chars c)).
Qed.

(** A block comment ends where the nesting depth first returns to zero:
    the [memchr]-driven loop agrees with the character loop, and the token is
    [terminated] exactly when that depth is reached. *)
Theorem block_comment_ref_agrees c :
  wf_str (chars c) ->
  exists doc, block_comment c =
    Ret (BlockComment doc ((block_comment_ref 1 (chars (bump_ c))).1 =? 0)%nat,
         set_chars (bump_ c) (block_comment_ref 1 (chars (bump_ c))).2).
Proof.
  intros W. unfold block_comment. cbv zeta.
  rewrite block_comment_loop_eq by (eauto using adv_wf, adv_bump).
  destruct (block_comment_ref 1 (chars (bump_ c))) as [d s]. cbn [obind]. eauto.
Qed.

(** A raw string scan succeeds with [n] hashes exactly on the texts
    hashes, quote, body, quote, hashes, with [n <= 255] hashes on each side and a body in which no
    quote is followed by [n] hashes, and it stops right after that text. *)
Theorem raw_string_exact pl n c c' :
  wf_str (chars c) -> Z.of_nat (str_len (chars c)) <= u32_max ->
  raw_double_quoted_string pl c = Ret (inr n, c') <->
  0 <= n <= 255 /\ exists body,
    chars c = raw_text (Z.to_nat n) body ++ chars c' /\ no_closer (Z.to_nat n) body
    /\ c' = set_chars c (chars c').
Proof. apply raw_double_quoted_string_iff. Qed.

(** [skip_whitespace] is a [Whitespace] token without building it: where a
    frontmatter can no longer start and the next byte is ASCII white space,
    [advance_token] returns [Whitespace] with the same length and cursor. *)
Theorem skip_whitespace_token c b :
  wf_str (chars c) -> frontmatter_allowed c = No -> first_byte c = Some b ->
  ascii_whitespace b = true ->
  exists n c', skip_whitespace c = Ret (n, c')
    /\ advance_token c = Ret (mkToken Whitespace n, c').
Proof.
  intros W Hf Hb Hw. unfold skip_whitespace, advance_token. rewrite Hf, Hb.
  assert (Hb' : 0 <= b < 0x80).
  { unfold ascii_whitespace in Hw. apply orb_true_iff in Hw as [Hw|Hw]; propify; lia. }
  unfold ascii_whitespace in Hw. rewrite Hw. rewrite (proj2 (Z.ltb_lt b 0x80)) by lia.
  unfold first_byte in Hb. destruct (chars c) as [|x s] eqn:Hc; [done|].
  pose proof (proj2 (head_byte x s b W Hb) ltac:(lia)); subst x.
  rewrite (bump_ascii_cons b c s) by auto. inversion W as [|? ? _ W1]; subst.
  rewrite eat_whitespace_eq by by rewrite Hc. cbn [obind].
  assert (Ht : ascii_token b (set_chars c s) = whitespace (set_chars c s)).
  { unfold ascii_token. rewrite (proj2 (Z.eqb_neq b (ch "/"))).
    - replace (_ || _ || _ || _ || _ || _) with true; [done|]. symmetry.
      apply orb_true_iff in Hw as [Hw|Hw]; propify.
      + assert (b = 9 \/ b = 10 \/ b = 11 \/ b = 12 \/ b = 13) as [->|[->|[->|[->| ->]]]] by lia; reflexivity.
      + by subst b.
    - change (ch "/") with 47. apply orb_true_iff in Hw as [Hw|Hw]; propify; lia. }
  rewrite Ht. unfold whitespace. rewrite eat_whitespace_eq by done. cbn [obind].
  eexists _, _. split; [done|].
  assert (Hx : is_whitespace b = true).
  { unfold is_whitespace. apply orb_true_iff in Hw as [Hw|Hw]; propify.
    - assert (b = 9 \/ b = 10 \/ b = 11 \/ b = 12 \/ b = 13) as [->|[->|[->|[->| ->]]]] by lia; reflexivity.
    - by subst b. }
  rewrite !eat_while_drop, Hc. simpl. by rewrite Hx.
Qed.
(** *** Shebang lines *)

Lemma find_non_trivia_runs fuel c : wf_str (chars c) -> synced c -> frontmatter_allowed c = No ->
  (length (chars c) < fuel)%nat -> runs (find_non_trivia fuel c) (fun _ => True).
Proof.
  revert c. induction fuel as [|f IH]; intros c W Hs HN Hf; [lia|]. cbn [find_non_trivia].
  eapply runs_bind.
  { apply advance_token_covers; [done|done|]. intros HY. congruence. }
  intros [tok c'] [text Hcov]. pose proof Hcov as (Hc & _ & Heof & _ & Hs' & HN').
  destruct (is_Eof (kind tok)) eqn:E; [by apply runs_ret|].
  destruct (is_trivia (kind tok)); [|by apply runs_ret].
  apply IH; eauto using covers_wf.
  rewrite Hc, length_app in Hf. destruct text as [|x text]; [|simpl in Hf; lia].
  destruct Heof as [_ Heof]. apply is_Eof_iff in Heof; [congruence|done].
Qed.

Lemma first_line_spec s : exists rest, s = first_line s ++ rest
  /\ Forall (fun x => x <> NEWLINE) (first_line s)
  /\ (rest = [] \/ (exists r, rest = NEWLINE :: r) \/ exists r, rest = 13 :: NEWLINE :: r).
Proof.
  induction s as [|x s IH]; [exists []; split_and!; auto|]. simpl.
  destruct (Z.eqb_spec x NEWLINE) as [->|Hx].
  { exists (NEWLINE :: s). split_and!; eauto. }
  destruct s as [|y s].
  { exists []. split_and!; auto. }
  destruct ((x =? 13) && (y =? NEWLINE)) eqn:E.
  - propify. subst. exists (13 :: NEWLINE :: s). split_and!; eauto.
  - destruct IH as (rest & Hr & Hall & Hcase). exists rest. cbn [app].
    split; [by rewrite <- Hr|]. split; auto.
Qed.

(** [strip_shebang] always returns; a text that does not start with [#!] or
    that starts with [#![] is not a shebang; and a shebang's length is that of
    the whole first line, without its line ending, so that cutting the text
    there is a character boundary. *)
Theorem strip_shebang_first_line input :
  wf_str input ->
  exists r, strip_shebang input = Ret r
    /\ (starts_with (lit "#!") input = false -> r = None)
    /\ (starts_with (lit "#![") input = true -> r = None)
    /\ (forall n, r = Some n -> exists line rest,
          input = line ++ rest /\ str_len line = n /\ starts_with (lit "#!") line = true
          /\ Forall (fun x => x <> NEWLINE) line
          /\ (rest = [] \/ (exists t, rest = NEWLINE :: t)
              \/ exists t, rest = 13 :: NEWLINE :: t)).
Proof.
  intros W. unfold strip_shebang, starts_with.
  destruct (strip_prefix (lit "#!") input) as [tail|] eqn:Hp.
  2: { exists None. split_and!; done. }
  apply strip_prefix_spec in Hp as ->. apply wf_str_app in W as [_ W].
  destruct (find_non_trivia_runs (S (length tail)) (new_cursor tail No) W eq_refl eq_refl
    ltac:(simpl; lia)) as (k & Hk & _).
  rewrite Hk. cbn [obind]. destruct (decide (k = Some OpenBracket)) as [->|Hne].
  { exists None. split_and!; done. }
  eexists (Some _). split; [done|]. split; [done|]. split.
  - destruct tail as [|x tail]; [done|].
    destruct (Z.eqb_spec x (ch "[")) as [->|Hx]; [|by intros H; vm_compute in H; destruct x; repeat (destruct p; try done)].
    exfalso. apply Hne. cbn [find_non_trivia] in Hk.
    rewrite (advance_token_eq (new_cursor (ch "[" :: tail) No) W) in Hk.
    unfold advance_token_general, bump in Hk. cbn [chars new_cursor] in Hk.
    inversion W; subst.
    rewrite <- ascii_token_general in Hk by (done || (vm_compute; split; congruence)).
    change (ascii_token (ch "[") (set_chars (new_cursor (ch "[" :: tail) No) tail)) with
      (Ret (OpenBracket, set_chars (new_cursor (ch "[" :: tail) No) tail)) in Hk.
    cbn [obind] in Hk. simpl in Hk. congruence.
  - intros n [= <-]. destruct (first_line_spec tail) as (rest & Hr & Hall & Hcase).
    exists (lit "#!" ++ first_line tail), rest. split_and!.
    + by rewrite <- app_assoc, <- Hr.
    + reflexivity.
    + apply (starts_with_spec (lit "#!")). by eexists.
    + apply Forall_app. split; [|done]. repeat constructor; by vm_compute.
    + done.
Qed.

(** *** The fence limit *)

(** The side condition on fences is needed: where a frontmatter may start,
    a line of more than 65535 dashes makes the lexer panic, because the closing
    fence is built with a format width and widths are 16 bits. *)
Theorem frontmatter_long_fence_panics n :
  65535 < Z.of_nat n <= u32_max ->
  tokenize (replicate n (ch "-")) Yes = Panic.
Proof.
  intros Hn. destruct n as [|[|[|n]]]; [lia..|].
  unfold tokenize. cbn [tokens]. unfold advance_token, advance_token_general, bump.
  cbn [frontmatter_allowed new_cursor chars replicate].
  set (c := set_chars _ _).
  assert (Hg : general_token (ch "-") c = frontmatter false c) by reflexivity.
  rewrite Hg. unfold frontmatter. cbv zeta. rewrite length_opening_eq.
  assert (Hd : leading_dashes (chars c) = S (S n)).
  { change (chars c) with (ch "-" :: ch "-" :: replicate n (ch "-")).
    rewrite !leading_dashes_cons. do 2 f_equal. clear. induction n; [done|].
    cbn [replicate]. by rewrite leading_dashes_cons, IHn. }
  rewrite Hd. unfold nl_fence, wrap_u32, u32_max in *. rewrite Z.mod_small by lia.
  by rewrite (proj2 (Z.leb_gt _ _)) by lia.
Qed.
End Theorems.

(** ** SWAR masks *)

(** On every chunk of eight bytes, the 64-bit mask of each classifier has the
    high bit of byte [k] set exactly when byte [k] is in the ASCII class, and no
    other bit; and the class table gives the same classes byte by byte. *)
Theorem swar_masks_exact l :
  Forall is_byte l -> length l = 8%nat ->
  swar_whitespace (from_le_bytes l) = from_le_bytes (high_bit ascii_whitespace <$> l)
  /\ swar_id_continue (from_le_bytes l) = from_le_bytes (high_bit ascii_id_continue <$> l)
  /\ Forall (fun b => negb (Z.land (ascii_class b) 1 =? 0) = ascii_id_continue b
                      /\ negb (Z.land (ascii_class b) 2 =? 0) = ascii_whitespace b
                      /\ negb (Z.land (ascii_class b) 4 =? 0) = ascii_id_start b) l.
Proof.
  intros Hl Hlen. split; [by apply swar_whitespace_bytes|].
  split; [by apply swar_id_continue_bytes|].
  eapply Forall_impl; [exact Hl|]. apply ascii_class_spec.
Qed.

(** ** Witnesses *)

Lemma short_fences_length s : Z.of_nat (length s) <= 65535 -> short_fences s.
Proof.
  intros Hl s1 s2 ->. rewrite length_app in Hl.
  pose proof (take_drop_while (fun x => x =? ch "-") s2) as Hs.
  apply (f_equal length) in Hs. rewrite length_app in Hs. unfold leading_dashes. lia.
Qed.

Definition sample : str := lit "let x = 1_u8; /* c */ 'a".
Definition sample_cursor : Cursor := new_cursor sample Yes.

Lemma sample_text_wf : wf_str sample.
Proof. repeat constructor. Qed.

Lemma tokenize_partition_witness :
  exists toks pieces, @tokenize AsciiDeps sample Yes = Ret toks /\ concat pieces = sample
    /\ Forall2 (fun tok p => kind tok <> Eof /\ p <> [] /\ len tok = Z.of_nat (str_len p)) toks pieces
    /\ total_len toks = Z.of_nat (str_len sample).
Proof.
  apply (@tokenize_partition AsciiDeps AsciiDepsOk sample Yes).
  - exact sample_text_wf.
  - intros _. apply short_fences_length. vm_compute. congruence.
  - vm_compute. congruence.
Defined.

Example tokenize_sample :
  @tokenize AsciiDeps (lit "let x=0x1F") No =
  Ret [mkToken Ident 3; mkToken Whitespace 1; mkToken Ident 1; mkToken Eq_ 1;
       mkToken (Literal (Int Hexadecimal false) 4) 4].
Proof. vm_compute. reflexivity. Qed.

Lemma advance_token_fast_path_witness :
  @advance_token AsciiDeps (new_cursor sample No) =
  @advance_token_general AsciiDeps (new_cursor sample No).
Proof. apply (@advance_token_fast_path AsciiDeps AsciiDepsOk). exact sample_text_wf. Defined.

Lemma advance_token_progress_witness :
  exists tok c' text, @advance_token AsciiDeps sample_cursor = Ret (tok, c')
    /\ chars sample_cursor = text ++ chars c'
    /\ len tok = wrap_u32 (Z.of_nat (str_len text))
    /\ (chars sample_cursor = [] -> kind tok = Eof /\ len tok = 0)
    /\ (chars sample_cursor <> [] -> kind tok <> Eof /\ text <> []) /\ synced c'.
Proof.
  apply (@advance_token_progress AsciiDeps AsciiDepsOk).
  - exact sample_text_wf.
  - reflexivity.
  - intros _. apply short_fences_length. vm_compute. congruence.
Defined.

Definition id_cursor : Cursor := new_cursor (lit "abcdefghij_0123 x") No.

Lemma block_scans_witness :
  eat_whitespace id_cursor = Ret (eat_while is_whitespace id_cursor)
  /\ @eat_id_continue AsciiDeps id_cursor = Ret (eat_while (@is_id_continue AsciiDeps) id_cursor).
Proof. apply (@block_scans_are_eat_while AsciiDeps AsciiDepsOk). repeat constructor. Defined.

Lemma swar_masks_exact_witness :
  let l := [97; 32; 200; 9; 95; 47; 0; 57] in
  swar_whitespace (from_le_bytes l) = from_le_bytes (high_bit ascii_whitespace <$> l)
  /\ swar_id_continue (from_le_bytes l) = from_le_bytes (high_bit ascii_id_continue <$> l)
  /\ Forall (fun b => negb (Z.land (ascii_class b) 1 =? 0) = ascii_id_continue b
                      /\ negb (Z.land (ascii_class b) 2 =? 0) = ascii_whitespace b
                      /\ negb (Z.land (ascii_class b) 4 =? 0) = ascii_id_start b) l.
Proof.
  intros l. apply (swar_masks_exact l); [|reflexivity].
  repeat constructor; vm_compute; congruence.
Defined.

(** The text after an opening quote; the escaped quote does not end the string. *)
Definition dq_cursor : Cursor := new_cursor ([97; 92; 34; 98; 34; 32; 99] : str) No.

Lemma double_quoted_string_ref_witness :
  @double_quoted_string AsciiDeps dq_cursor =
  Ret ((double_quoted_ref (chars dq_cursor)).1,
       set_chars dq_cursor (double_quoted_ref (chars dq_cursor)).2)
  /\ double_quoted_ref (chars dq_cursor) = (true, [32; 99]).
Proof.
  split; [|reflexivity]. apply (@double_quoted_string_ref AsciiDeps AsciiDepsOk).
  repeat constructor.
Defined.

(** A nested block comment, after its first slash. *)
Definition bc_cursor : Cursor := new_cursor (lit "* /* */ */ x") No.

Lemma block_comment_ref_agrees_witness :
  (exists doc, @block_comment AsciiDeps bc_cursor =
    Ret (BlockComment doc ((block_comment_ref 1 (chars (bump_ bc_cursor))).1 =? 0)%nat,
         set_chars (bump_ bc_cursor) (block_comment_ref 1 (chars (bump_ bc_cursor))).2))
  /\ block_comment_ref 1 (chars (bump_ bc_cursor)) = (0%nat, lit " x").
Proof.
  split; [|reflexivity]. apply (@block_comment_ref_agrees AsciiDeps AsciiDepsOk).
  repeat constructor.
Defined.

(** A raw string with one hash and a quote in its body. *)
Definition raw_cursor : Cursor := new_cursor (raw_text 1 [97; 34; 98] ++ lit " ;") No.

Lemma raw_string_exact_witness :
  @raw_double_quoted_string AsciiDeps 1 raw_cursor =
  Ret (inr 1, set_chars raw_cursor (lit " ;")).
Proof.
  apply (@raw_string_exact AsciiDeps AsciiDepsOk).
  - repeat constructor.
  - vm_compute. congruence.
  - split; [lia|]. exists [97; 34; 98]. split_and!; [reflexivity| |reflexivity].
    intros s1 s2 Hs. destruct s1 as [|a [|b [|d [|e s1]]]]; simplify_eq/=.
    vm_compute. lia.
Defined.

Definition ws_cursor : Cursor := new_cursor (lit "   x") No.

Lemma skip_whitespace_token_witness :
  exists n c', skip_whitespace ws_cursor = Ret (n, c')
    /\ @advance_token AsciiDeps ws_cursor = Ret (mkToken Whitespace n, c').
Proof.
  apply (@skip_whitespace_token AsciiDeps ws_cursor 32); [|reflexivity..].
  repeat constructor.
Defined.

Definition shebang : str := lit "#!/bin/rust" ++ [13; 10] ++ lit "fn".

Lemma strip_shebang_first_line_witness :
  @strip_shebang AsciiDeps shebang = Ret (Some 11%nat) /\
  exists r, @strip_shebang AsciiDeps shebang = Ret r
    /\ (starts_with (lit "#!") shebang = false -> r = None)
    /\ (starts_with (lit "#![") shebang = true -> r = None)
    /\ (forall n, r = Some n -> exists line rest,
          shebang = line ++ rest /\ str_len line = n /\ starts_with (lit "#!") line = true
          /\ Forall (fun x => x <> NEWLINE) line
          /\ (rest = [] \/ (exists t, rest = NEWLINE :: t)
              \/ exists t, rest = 13 :: NEWLINE :: t)).
Proof.
  split; [vm_compute; reflexivity|].
  apply (@strip_shebang_first_line AsciiDeps AsciiDepsOk). repeat constructor.
Defined.

Lemma frontmatter_long_fence_panics_witness :
  @tokenize AsciiDeps (replicate (Z.to_nat 70000) (ch "-")) Yes = Panic.
Proof.
  apply (@frontmatter_long_fence_panics AsciiDeps (Z.to_nat 70000)).
  rewrite Z2Nat.id by lia. unfold u32_max. lia.
Defined.
