(* ===== verification/Interval.v ===== *)
(** * Interval sets ([src/rustc_index/interval.rs])

    A set of indices as a sorted vector of disjoint, non-adjacent inclusive
    intervals, and the sparse matrix of such sets that the borrow checker keeps
    its region values in.  Values are [u32]s, additions wrap as in a release
    build; the theorems show that no addition wraps while the domain fits. *)
From Stdlib Require Import ZArith Lia Sorted.
From stdpp Require Import base numbers list.
From S2P Require Import Prelude RustSlice.
Open Scope Z_scope.
Open Scope rust_scope.

Record IntervalSet := mkIntervalSet { map : list (Z * Z); domain : Z }.

(** [core::ops::Bound] and a pair of bounds, of indices ([usize]). *)
Inductive Bound := Included (i : Z) | Excluded (i : Z) | Unbounded.
Record RangeBounds := mkRange { start_bound : Bound; end_bound : Bound }.

Definition range (a b : Z) : RangeBounds := mkRange (Included a) (Excluded b).
Definition range_incl (a b : Z) : RangeBounds := mkRange (Included a) (Included b).

(** [usize::checked_sub(1)]. *)
Definition checked_pred (z : Z) : option Z := if z <? 1 then None else Some (z - 1).

Definition inclusive_start (r : RangeBounds) : Z :=
  match start_bound r with
  | Included start => wrap_u32 start
  | Excluded start => wrap_u32 (wrap_u32 start + 1)
  | Unbounded => 0
  end.

Definition inclusive_end (domain : Z) (r : RangeBounds) : option Z :=
  match end_bound r with
  | Included e => Some (wrap_u32 e)
  | Excluded e => wrap_u32 <$> checked_pred e
  | Unbounded => wrap_u32 <$> checked_pred domain
  end.

Definition new (domain : Z) : IntervalSet := mkIntervalSet [] domain.

Definition clear (s : IntervalSet) : IntervalSet := mkIntervalSet [] (domain s).

(** [iter_intervals]: half-open ranges; [iter]: the elements. *)
Definition iter_intervals (s : IntervalSet) : list (Z * Z) :=
  (fun '(start, e) => (start, e + 1)) <$> map s.

Definition iter (s : IntervalSet) : list Z :=
  mjoin ((fun '(start, e) => seqZ start (e - start)) <$> iter_intervals s).

Definition set_map (s : IntervalSet) (m : list (Z * Z)) : IntervalSet :=
  mkIntervalSet m (domain s).

(** [insert_range] once the inclusive bounds are known and [start <= end]. *)
Definition insert_inclusive (s : IntervalSet) (start e : Z) : outcome (bool * IntervalSet) :=
  let next := partition_point (fun r : Z * Z => r.1 <=? wrap_u32 (e + 1)) (map s) in
  match next with
  | S right_ =>
      let* '(prev_start, prev_end) := unwrap (map s !! right_) in
      if start <=? wrap_u32 (prev_end + 1) then
        if start <? prev_start then
          let left := partition_point (fun l : Z * Z => wrap_u32 (l.2 + 1) <? start) (map s) in
          let* '(left_start, _) := unwrap (map s !! left) in
          let min := Z.min left_start start in
          let max := Z.max prev_end e in
          let m := <[right_ := (min, max)]> (map s) in
          let m := if (left =? right_)%nat then m else vec_drain left right_ m in
          Ret (true, set_map s m)
        else if prev_end <? e then
          Ret (true, set_map s (<[right_ := (prev_start, e)]> (map s)))
        else Ret (false, s)
      else Ret (true, set_map s (vec_insert (right_ + 1) (start, e) (map s)))
  | O =>
      match map s with
      | [] => Ret (true, set_map s (map s ++ [(start, e)]))
      | _ :: _ => Ret (true, set_map s (vec_insert next (start, e) (map s)))
      end
  end.

Definition insert_range (s : IntervalSet) (r : RangeBounds) : outcome (bool * IntervalSet) :=
  let start := inclusive_start r in
  match inclusive_end (domain s) r with
  | None => Ret (false, s)
  | Some e => if e <? start then Ret (false, s) else insert_inclusive s start e
  end.

Definition insert (s : IntervalSet) (point : Z) : outcome (bool * IntervalSet) :=
  insert_range s (range_incl point point).

(** The last interval, and the vector with it replaced. *)
Definition with_last (m : list (Z * Z)) (f : Z * Z -> Z * Z) : list (Z * Z) :=
  match last m with
  | Some r => take (length m - 1) m ++ [f r]
  | None => m
  end.

Definition append (s : IntervalSet) (point : Z) : outcome IntervalSet :=
  let point := wrap_u32 point in
  match last (map s) with
  | Some (_, last_end) =>
      let* _ := assert_that (last_end <=? point) in
      if point =? last_end then Ret s
      else if point =? wrap_u32 (last_end + 1) then
        Ret (set_map s (with_last (map s) (fun r => (r.1, point))))
      else Ret (set_map s (map s ++ [(point, point)]))
  | None => Ret (set_map s (map s ++ [(point, point)]))
  end.

Definition append_range (s : IntervalSet) (r : RangeBounds) : outcome IntervalSet :=
  let start := inclusive_start r in
  match inclusive_end (domain s) r with
  | None => Ret s
  | Some e =>
      if e <? start then Ret s
      else
        match last (map s) with
        | Some (_, last_end) =>
            let* _ := assert_that (last_end <=? start) in
            if start <=? wrap_u32 (last_end + 1) then
              Ret (set_map s (with_last (map s) (fun r => (r.1, e))))
            else Ret (set_map s (map s ++ [(start, e)]))
        | None => Ret (set_map s (map s ++ [(start, e)]))
        end
  end.

Definition contains (s : IntervalSet) (needle : Z) : outcome bool :=
  let needle := wrap_u32 needle in
  match partition_point (fun r : Z * Z => r.1 <=? needle) (map s) with
  | O => Ret false
  | S last => let* '(_, prev_end) := unwrap (map s !! last) in Ret (needle <=? prev_end)
  end.

(** The closure of [superset], on half-open ranges: [None] is "try the next one". *)
Definition sup_contains (sup sub : Z * Z) : option bool :=
  if sup.2 <? sub.1 then None
  else if (sub.2 <=? sup.2) && (sup.1 <=? sub.1) then Some true
  else Some false.

(** [sup_iter.find_map(..)]: the answer, the saved range and the rest of the iterator. *)
Fixpoint sup_find (sub : Z * Z) (sup_iter : list (Z * Z))
    : option bool * option (Z * Z) * list (Z * Z) :=
  match sup_iter with
  | [] => (None, None, [])
  | sup :: rest =>
      match sup_contains sup sub with
      | None => sup_find sub rest
      | Some true => (Some true, Some sup, rest)
      | Some false => (Some false, None, rest)
      end
  end.

Fixpoint superset_loop (subs : list (Z * Z)) (current : option (Z * Z))
    (sup_iter : list (Z * Z)) : bool :=
  match subs with
  | [] => true
  | sub :: subs' =>
      let first := match current with Some sup => sup_contains sup sub | None => None end in
      match first with
      | Some true => superset_loop subs' current sup_iter
      | Some false => false
      | None =>
          match sup_find sub sup_iter with
          | (Some true, current, sup_iter) => superset_loop subs' current sup_iter
          | _ => false
          end
      end
  end.

Definition superset (s other : IntervalSet) : bool :=
  superset_loop (iter_intervals other) None (iter_intervals s).

(** The two-iterator loop of [disjoint]: the current ranges are the heads. *)
Fixpoint disjoint_loop (fuel : nat) (self_iter other_iter : list (Z * Z)) : outcome bool :=
  match fuel with
  | O => OutOfFuel
  | S f =>
      match self_iter, other_iter with
      | self_current :: self_rest, other_current :: other_rest =>
          if self_current.2 <=? other_current.1 then disjoint_loop f self_rest other_iter
          else if other_current.2 <=? self_current.1 then disjoint_loop f self_iter other_rest
          else Ret false
      | _, _ => Ret true
      end
  end.

Definition disjoint (s other : IntervalSet) : outcome bool :=
  disjoint_loop (S (length (map s) + length (map other)))
    (iter_intervals s) (iter_intervals other).

Definition is_empty (s : IntervalSet) : bool := match map s with [] => true | _ => false end.

Definition first_unset_in (s : IntervalSet) (r : RangeBounds) : outcome (option Z) :=
  let start := inclusive_start r in
  match inclusive_end (domain s) r with
  | None => Ret None
  | Some e =>
      if e <? start then Ret None
      else
        match partition_point (fun r : Z * Z => r.1 <=? start) (map s) with
        | O => Ret (Some start)
        | S last =>
            let* '(_, prev_end) := unwrap (map s !! last) in
            if prev_end <? start then Ret (Some start)
            else if prev_end <? e then Ret (Some (prev_end + 1))
            else Ret None
        end
  end.

Definition last_set_in (s : IntervalSet) (r : RangeBounds) : outcome (option Z) :=
  let start := inclusive_start r in
  match inclusive_end (domain s) r with
  | None => Ret None
  | Some e =>
      if e <? start then Ret None
      else
        match partition_point (fun r : Z * Z => r.1 <=? e) (map s) with
        | O => Ret None
        | S last =>
            let* '(_, prev_end) := unwrap (map s !! last) in
            Ret (if start <=? prev_end then Some (Z.min prev_end e) else None)
        end
  end.

Definition insert_all (s : IntervalSet) : outcome IntervalSet :=
  let s := clear s in
  match checked_pred (domain s) with
  | None => Ret s
  | Some e => if e <=? u32_max then Ret (set_map s (map s ++ [(0, e)])) else Panic
  end.

(** [for range in other.iter_intervals() { did_insert |= self.insert_range(range); }] *)
Fixpoint union_loop (did_insert : bool) (s : IntervalSet) (ranges : list (Z * Z))
    : outcome (bool * IntervalSet) :=
  match ranges with
  | [] => Ret (did_insert, s)
  | (a, b) :: ranges' =>
      let* '(d, s) := insert_range s (range a b) in
      union_loop (did_insert || d) s ranges'
  end.

(** The recursive call is on swapped vectors, so it does not recurse again. *)
Fixpoint union_fuel (fuel : nat) (s other : IntervalSet) : outcome (bool * IntervalSet) :=
  match fuel with
  | O => OutOfFuel
  | S f =>
      let* _ := assert_that (domain s =? domain other) in
      if (length (map s) <? length (map other))%nat then
        let backup := s in
        let s := set_map s (map other) in
        union_fuel f s backup
      else union_loop false s (iter_intervals other)
  end.

Definition union (s other : IntervalSet) : outcome (bool * IntervalSet) := union_fuel 2 s other.

Fixpoint check_invariants_loop (domain : Z) (current : option Z) (m : list (Z * Z)) : bool :=
  match m with
  | [] => match current with Some x => x <? wrap_u32 domain | None => true end
  | (start, e) :: m' =>
      if (e <? start) || match current with
                         | Some x => start <=? wrap_u32 (x + 1)
                         | None => false
                         end
      then false
      else check_invariants_loop domain (Some e) m'
  end.

Definition check_invariants (s : IntervalSet) : bool :=
  check_invariants_loop (domain s) None (map s).

(** ** [SparseIntervalMatrix] *)

Record SparseIntervalMatrix := mkMatrix { rows : list IntervalSet; column_size : Z }.

Definition matrix_new (column_size : Z) : SparseIntervalMatrix := mkMatrix [] column_size.

(** [rows]: the row indices; [iter_enumerated]: each with its set. *)
Definition row_indices (m : SparseIntervalMatrix) : list nat := seq 0 (length (rows m)).

Definition iter_enumerated (m : SparseIntervalMatrix) : list (nat * IntervalSet) :=
  zip (row_indices m) (rows m).

Definition row (m : SparseIntervalMatrix) (r : nat) : option IntervalSet := rows m !! r.

(** [ensure_row]: missing rows up to [r] are filled with empty sets. *)
Definition ensure_row (m : SparseIntervalMatrix) (r : nat) : SparseIntervalMatrix :=
  mkMatrix (rows m ++ replicate (S r - length (rows m)) (new (column_size m))) (column_size m).

(** Apply an operation to the row [ensure_row] returns. *)
Definition on_row {A} (m : SparseIntervalMatrix) (r : nat)
    (f : IntervalSet -> outcome (A * IntervalSet)) : outcome (A * SparseIntervalMatrix) :=
  let m := ensure_row m r in
  let* s := unwrap (rows m !! r) in
  let* '(a, s) := f s in
  Ret (a, mkMatrix (<[r := s]> (rows m)) (column_size m)).

Definition union_row (m : SparseIntervalMatrix) (r : nat) (from : IntervalSet)
    : outcome (bool * SparseIntervalMatrix) := on_row m r (fun s => union s from).

Definition union_rows (m : SparseIntervalMatrix) (read write : nat)
    : outcome (bool * SparseIntervalMatrix) :=
  match (read =? write)%nat, rows m !! read with
  | true, _ | _, None => Ret (false, m)
  | false, Some _ =>
      let m := ensure_row m write in
      let* read_row := unwrap (rows m !! read) in
      on_row m write (fun s => union s read_row)
  end.

Definition unit_result (m : outcome IntervalSet) : outcome (unit * IntervalSet) :=
  let* s := m in Ret (tt, s).

Definition insert_all_into_row (m : SparseIntervalMatrix) (r : nat)
    : outcome (unit * SparseIntervalMatrix) := on_row m r (fun s => unit_result (insert_all s)).

Definition matrix_insert_range (m : SparseIntervalMatrix) (r : nat) (b : RangeBounds)
    : outcome (unit * SparseIntervalMatrix) :=
  on_row m r (fun s => let* '(_, s) := insert_range s b in Ret (tt, s)).

Definition matrix_insert (m : SparseIntervalMatrix) (r : nat) (point : Z)
    : outcome (bool * SparseIntervalMatrix) := on_row m r (fun s => insert s point).

Definition matrix_append (m : SparseIntervalMatrix) (r : nat) (point : Z)
    : outcome (unit * SparseIntervalMatrix) := on_row m r (fun s => unit_result (append s point)).

Definition matrix_append_range (m : SparseIntervalMatrix) (r : nat) (b : RangeBounds)
    : outcome (unit * SparseIntervalMatrix) := on_row m r (fun s => unit_result (append_range s b)).

Definition matrix_contains (m : SparseIntervalMatrix) (r : nat) (point : Z) : outcome bool :=
  match row m r with None => Ret false | Some s => contains s point end.
