(* ===== verification/IntervalFacts.v ===== *)
(** * Interval sets: correctness

    The invariant of the representation, the set a representation denotes, and
    the operations of [IntervalSet] and [SparseIntervalMatrix] against sets. *)
From Stdlib Require Import ZArith Lia Sorted.
From stdpp Require Import base numbers list.
From S2P Require Import Prelude RustSlice Interval.
Open Scope Z_scope.
Open Scope rust_scope.

(** Intervals in order, with at least one missing value between neighbours. *)
Definition gap (r1 r2 : Z * Z) : Prop := r1.2 + 1 < r2.1.
Definition valid (dom : Z) (r : Z * Z) : Prop := 0 <= r.1 <= r.2 /\ r.2 < dom.

(** The representation invariant; the domain fits an index type. *)
Record wf (s : IntervalSet) : Prop := {
  wf_domain : 0 <= domain s <= u32_max;
  wf_sorted : StronglySorted gap (map s);
  wf_valid : Forall (valid (domain s)) (map s);
}.

Definition in_map (m : list (Z * Z)) (x : Z) : Prop := exists r, r ∈ m /\ r.1 <= x <= r.2.

(** The set denoted. *)
#[export] Instance IntervalSet_elem_of : ElemOf Z IntervalSet := fun x s => in_map (map s) x.

Lemma elem_of_interval x (s : IntervalSet) : x ∈ s <-> in_map (map s) x.
Proof. done. Qed.

Lemma in_map_app m1 m2 x : in_map (m1 ++ m2) x <-> in_map m1 x \/ in_map m2 x.
Proof. unfold in_map. setoid_rewrite elem_of_app. naive_solver. Qed.

Lemma in_map_cons r m x : in_map (r :: m) x <-> r.1 <= x <= r.2 \/ in_map m x.
Proof. unfold in_map. setoid_rewrite elem_of_cons. naive_solver. Qed.

Lemma in_map_nil x : ~ in_map [] x.
Proof. intros (r & Hr & _). by apply elem_of_nil in Hr. Qed.

Lemma wrap_u32_small z : 0 <= z <= u32_max -> wrap_u32 z = z.
Proof. unfold u32_max, wrap_u32. intros. apply Z.mod_small. lia. Qed.

(** Facts about every element of a [Forall], used by name. *)
Lemma Forall_at {A} (P : A -> Prop) l x : Forall P l -> x ∈ l -> P x.
Proof. intros H Hx. rewrite Forall_forall in H. auto. Qed.

Section Sorted.
Context (dom : Z).

(** The order and the bounds together. *)
Definition gapv (r1 r2 : Z * Z) : Prop := gap r1 r2 /\ valid dom r1 /\ valid dom r2.

Lemma sorted_gapv m : StronglySorted gap m -> Forall (valid dom) m -> StronglySorted gapv m.
Proof.
  induction 1 as [|r m Hs IH Hr]; intros Hv; inversion_clear Hv; constructor; auto.
  rewrite Forall_forall in *. unfold gapv. auto.
Qed.

Lemma split_start m k : StronglySorted gap m -> Forall (valid dom) m ->
  exists L R, m = L ++ R /\ length L = partition_point (fun r : Z * Z => r.1 <=? k) m
    /\ Forall (fun r => r.1 <= k) L /\ Forall (fun r => k < r.1) R.
Proof.
  intros Hs Hv. destruct (partition_point_split gapv (fun r : Z * Z => r.1 <=? k) m)
    as (L & R & -> & Hl & HL & HR).
  - by apply sorted_gapv.
  - unfold gapv, gap, valid. intros x y H Hy. propify. apply Z.leb_le. lia.
  - exists L, R. split_and!; auto; eapply Forall_impl; eauto; simpl; intros; by propify.
Qed.

Lemma split_end m k : dom <= u32_max -> StronglySorted gap m -> Forall (valid dom) m ->
  exists L R, m = L ++ R
    /\ length L = partition_point (fun l : Z * Z => wrap_u32 (l.2 + 1) <? k) m
    /\ Forall (fun r => r.2 + 1 < k) L /\ Forall (fun r => k <= r.2 + 1) R.
Proof.
  intros Hd Hs Hv.
  destruct (partition_point_split gapv (fun l : Z * Z => wrap_u32 (l.2 + 1) <? k) m)
    as (L & R & -> & Hl & HL & HR).
  - by apply sorted_gapv.
  - unfold gapv, gap, valid. intros x y (H1 & H2 & H3) Hy. propify. apply Z.ltb_lt.
    rewrite wrap_u32_small in * by (unfold u32_max in *; lia). lia.
  - exists L, R. split_and!; auto.
    + apply Forall_app in Hv as [Hv _]. rewrite Forall_forall in *. intros r Hr.
      specialize (HL r Hr). specialize (Hv r Hr). destruct Hv.
      simpl in HL. propify. rewrite wrap_u32_small in HL by (unfold u32_max in *; lia). lia.
    + apply Forall_app in Hv as [_ Hv]. rewrite Forall_forall in *. intros r Hr.
      specialize (HR r Hr). specialize (Hv r Hr). destruct Hv.
      simpl in HR. propify. rewrite wrap_u32_small in HR by (unfold u32_max in *; lia). lia.
Qed.
End Sorted.

(** ** Rebuilding a sorted vector around one interval *)
Section Rebuild.
Context (dom : Z) (L R : list (Z * Z)) (r : Z * Z).

(** [r] fits strictly between the intervals of [L] and those of [R]. *)
Definition fits : Prop :=
  Forall (fun x => gap x r) L /\ Forall (gap r) R /\ valid dom r.

Lemma fits_sorted : fits ->
  StronglySorted gap L -> StronglySorted gap R -> Forall (fun x => Forall (gap x) R) L ->
  StronglySorted gap (L ++ r :: R).
Proof.
  intros (HL & HR & _) SL SR SLR. apply StronglySorted_app_iff. split_and!; auto.
  - by constructor.
  - rewrite Forall_forall in *. intros x Hx. constructor; auto.
Qed.

Lemma fits_valid : fits ->
  Forall (valid dom) L -> Forall (valid dom) R -> Forall (valid dom) (L ++ r :: R).
Proof. intros (_ & _ & Hr) HL HR. apply Forall_app. auto. Qed.
End Rebuild.

Lemma sorted_app_l m1 m2 : StronglySorted gap (m1 ++ m2) -> StronglySorted gap m1.
Proof. intros H. by apply StronglySorted_app_iff in H as (? & _). Qed.
Lemma sorted_app_r m1 m2 : StronglySorted gap (m1 ++ m2) -> StronglySorted gap m2.
Proof. intros H. by apply StronglySorted_app_iff in H as (_ & ? & _). Qed.
Lemma sorted_across m1 m2 x y :
  StronglySorted gap (m1 ++ m2) -> x ∈ m1 -> y ∈ m2 -> gap x y.
Proof.
  intros (_ & _ & H)%StronglySorted_app_iff Hx Hy. rewrite Forall_forall in H.
  specialize (H x Hx). rewrite Forall_forall in H. auto.
Qed.

(** What inserting [a..=b] does, as a relation between vectors. *)
Definition inserted (dom a b : Z) (m m' : list (Z * Z)) : Prop :=
  StronglySorted gap m' /\ Forall (valid dom) m'
  /\ forall x, in_map m' x <-> in_map m x \/ a <= x <= b.

(** No interval touches [a..=b]: it becomes an interval of its own. *)
Lemma insert_alone dom L R a b :
  StronglySorted gap (L ++ R) -> Forall (valid dom) (L ++ R) -> valid dom (a, b) ->
  Forall (fun r => r.2 + 1 < a) L -> Forall (fun r => b + 1 < r.1) R ->
  inserted dom a b (L ++ R) (L ++ (a, b) :: R) /\ ~ in_map (L ++ R) a.
Proof.
  intros HS HV Hr HL HR. pose proof HS as (SL & SR & SLR)%StronglySorted_app_iff.
  pose proof HV as [VL VR]%Forall_app.
  assert (HF : fits dom L R (a, b)) by (split; [done|split; done]).
  split; [split; [by apply fits_sorted with dom|split; [by apply fits_valid|]]|].
  - intros x. rewrite !in_map_app, in_map_cons. simpl. tauto.
  - intros (r & Hr' & Hx). destruct Hr as [Hr1 Hr2]. simpl in *. apply elem_of_app in Hr' as [Hi|Hi].
    + specialize (Forall_at _ _ _ HL Hi). simpl. lia.
    + specialize (Forall_at _ _ _ HR Hi). simpl. lia.
Qed.

(** The intervals [K ++ [(ps, pe)]] touch [a..=b] and are merged with it; the new
    interval starts at the least start and ends at the greatest end. *)
Lemma insert_merge dom L K ps pe R a b a1 b1 :
  let m := L ++ K ++ (ps, pe) :: R in
  StronglySorted gap m -> Forall (valid dom) m -> valid dom (a, b) ->
  (exists K', K ++ [(ps, pe)] = (a1, b1) :: K') ->
  Forall (fun r => r.2 + 1 < a) L -> a <= b1 + 1 -> ps <= b + 1 ->
  Forall (fun r => b + 1 < r.1) R ->
  inserted dom a b m (L ++ (Z.min a1 a, Z.max pe b) :: R).
Proof.
  intros m HS HV Hab (K' & HK) HL Ha1 Hps HR. subst m.
  assert (Hm : L ++ K ++ (ps, pe) :: R = L ++ (K ++ [(ps, pe)]) ++ R) by by rewrite <- !app_assoc.
  rewrite Hm in *. clear Hm.
  pose proof HS as (SL & SKR & _)%StronglySorted_app_iff.
  pose proof SKR as (SK & SR & _)%StronglySorted_app_iff.
  apply Forall_app in HV as [VL VKR]. pose proof VKR as [VK VR]%Forall_app.
  (* every merged interval lies between [a1] and [pe] *)
  assert (Hin : forall r, r ∈ K ++ [(ps, pe)] -> a1 <= r.1 /\ r.2 <= pe).
  { intros r Hr. split.
    - rewrite HK in Hr, SK, VK. apply elem_of_cons in Hr as [->|Hr]; [simpl; lia|].
      apply StronglySorted_inv in SK as [_ SK]. pose proof (Forall_at _ _ _ SK Hr) as Hg.
      apply Forall_inv in VK. unfold gap, valid in *. simpl in *. lia.
    - apply elem_of_app in Hr as [Hr|Hr]; [|apply list_elem_of_singleton in Hr as ->; simpl; lia].
      pose proof (sorted_across K [(ps, pe)] r (ps, pe) SK Hr ltac:(left)) as Hg.
      apply Forall_app in VK as [_ VK]. apply Forall_inv in VK. unfold gap, valid in *. simpl in *. lia. }
  assert (H1 : (a1, b1) ∈ K ++ [(ps, pe)]) by (rewrite HK; left).
  assert (H2 : (ps, pe) ∈ K ++ [(ps, pe)]) by (apply elem_of_app; right; left).
  pose proof (Forall_at _ _ _ VK H1) as V1. pose proof (Forall_at _ _ _ VK H2) as V2.
  pose proof (Hin _ H1) as B1. pose proof (Hin _ H2) as B2.
  unfold valid in V1, V2, Hab. simpl in *.
  assert (HF : fits dom L R (Z.min a1 a, Z.max pe b)).
  { split; [|split].
    - apply Forall_forall. intros r Hr. pose proof (Forall_at _ _ _ HL Hr) as Hra.
      assert (gap r (a1, b1)) as Hg.
      { eapply (sorted_across L); [exact HS|done|]. apply elem_of_app. by left. }
      unfold gap in *. simpl in *. lia.
    - apply Forall_forall. intros r Hr. pose proof (Forall_at _ _ _ HR Hr) as Hra.
      assert (gap (ps, pe) r) as Hg by (eapply (sorted_across (K ++ [(ps, pe)])); [exact SKR|done|done]).
      unfold gap in *. simpl in *. lia.
    - unfold valid. simpl. lia. }
  assert (SLR : Forall (fun x => Forall (gap x) R) L).
  { apply Forall_forall. intros x Hx. apply Forall_forall. intros y Hy.
    eapply sorted_across; [exact HS|done|]. apply elem_of_app. by right. }
  split; [by apply fits_sorted with dom|]. split; [by apply fits_valid|].
  intros x. rewrite (in_map_app L ((_, _) :: R)), in_map_cons, (in_map_app L (_ ++ R)),
    (in_map_app (K ++ [(ps, pe)]) R). cbn [fst snd]. split.
  - intros [?|[Hx|?]]; [tauto| |tauto].
    destruct (decide (a <= x <= b)); [tauto|]. left. right. left.
    destruct (decide (x < a)); [exists (a1, b1)|exists (ps, pe)]; (split; [done|simpl; lia]).
  - intros [[?|[(r & Hr & Hx)|?]]|Hx]; [tauto| |tauto|right; left; lia].
    apply Hin in Hr. right. left. lia.
Qed.

(** ** [insert_range] *)

Lemma lookup_after {A} (L R : list A) x : (L ++ [x] ++ R) !! length L = Some x.
Proof. rewrite lookup_app_r, Nat.sub_diag by lia. done. Qed.

(** Writing the last merged slot and draining the ones before it. *)
Lemma drain_merged {A} (L K R : list A) (x y : A) :
  let m := <[length (L ++ K) := y]> (L ++ K ++ x :: R) in
  (if (length L =? length (L ++ K))%nat then m else vec_drain (length L) (length (L ++ K)) m)
  = L ++ y :: R.
Proof.
  cbv zeta. rewrite (app_assoc L K), insert_app_r_alt, Nat.sub_diag by done. simpl.
  destruct K as [|k K].
  - rewrite app_nil_r, Nat.eqb_refl. done.
  - destruct (Nat.eqb_spec (length L) (length (L ++ k :: K))) as [E|_].
    { rewrite length_app in E. simpl in E. lia. }
    unfold vec_drain. rewrite drop_app_length.
    rewrite <- app_assoc, take_app_length. done.
Qed.

(** What the flag of an insertion reports. *)
Definition grows (a b : Z) (m : list (Z * Z)) : Prop := exists x, a <= x <= b /\ ~ in_map m x.

Definition insert_result (s : IntervalSet) (a b : Z) (p : bool * IntervalSet) : Prop :=
  inserted (domain s) a b (map s) (map p.2) /\ domain p.2 = domain s
  /\ (p.1 = true <-> grows a b (map s)).

Lemma not_in_between L K ps pe R x :
  StronglySorted gap (L ++ K ++ (ps, pe) :: R) -> ps <= pe ->
  x = ps - 1 \/ x = pe + 1 -> Forall (fun r => r.1 <= r.2) (L ++ K ++ (ps, pe) :: R) ->
  ~ in_map (L ++ K ++ (ps, pe) :: R) x.
Proof.
  rewrite app_assoc. intros HS Hp Hx HV (r & Hr & Hrx).
  pose proof (Forall_at _ _ _ HV Hr) as Hv. simpl in Hv.
  apply elem_of_app in Hr as [Hr|[->|Hr]%elem_of_cons].
  - pose proof (sorted_across _ _ _ (ps, pe) HS Hr ltac:(left)) as Hg. unfold gap in Hg. simpl in Hg. lia.
  - simpl in Hrx. lia.
  - apply sorted_app_r, StronglySorted_inv in HS as [_ HS].
    pose proof (Forall_at _ _ _ HS Hr) as Hg. unfold gap in Hg. simpl in Hg. lia.
Qed.

Lemma valid_ordered dom m : Forall (valid dom) m -> Forall (fun r => r.1 <= r.2) m.
Proof. intros H. eapply Forall_impl; [exact H|]. unfold valid. simpl. lia. Qed.

Section Insert.
Context (s : IntervalSet) (a b : Z) (Hs : wf s) (Hab : 0 <= a <= b) (Hb : b < domain s).

#[local] Definition dom_small : domain s <= u32_max := proj2 (wf_domain s Hs).

(** The insertion starts before the last touched interval [(ps, pe)]. *)
Lemma insert_left L' ps pe R :
  map s = L' ++ (ps, pe) :: R -> a <= pe + 1 -> a < ps -> ps <= b + 1 ->
  Forall (fun r => b + 1 < r.1) R ->
  let left := partition_point (fun l : Z * Z => wrap_u32 (l.2 + 1) <? a) (map s) in
  exists L K a1 b1, L' = L ++ K /\ length L = left /\ map s !! left = Some (a1, b1)
    /\ inserted (domain s) a b (map s) (L ++ (Z.min a1 a, Z.max pe b) :: R)
    /\ grows a b (map s).
Proof.
  intros Hm Ha Hlt Hps HR left.
  destruct (split_end (domain s) (map s) a dom_small (wf_sorted s Hs) (wf_valid s Hs))
    as (L & R1 & Hm1 & Hl & HL & HR1).
  assert (exists K, L' = L ++ K /\ R1 = K ++ (ps, pe) :: R) as (K & -> & ->).
  { rewrite Hm in Hm1. symmetry in Hm1. apply app_eq_inv in Hm1 as [(k & -> & Hk)|(k & -> & Hk)]; [|eauto].
    destruct k as [|y k]; [exists []; rewrite !app_nil_r; auto|]. injection Hk as <- _.
    apply Forall_app in HL as [_ HL]. apply Forall_inv in HL. simpl in HL. lia. }
  destruct (K ++ [(ps, pe)]) as [|[a1 b1] K'] eqn:HK; [by destruct K|].
  assert (HK' : K ++ (ps, pe) :: R = (a1, b1) :: K' ++ R).
  { replace ((ps, pe) :: R) with ([(ps, pe)] ++ R) by done. by rewrite app_assoc, HK. }
  exists L, K, a1, b1. split_and!; auto.
  - unfold left. rewrite <- Hl, Hm1, HK', lookup_app_r, Nat.sub_diag by lia. done.
  - rewrite Hm1. pose proof (wf_sorted s Hs) as S1. pose proof (wf_valid s Hs) as V1.
    rewrite Hm1 in S1, V1. apply (insert_merge (domain s) L K ps pe R a b a1 b1 S1 V1); [|by exists K'|done| |done|done].
    + unfold valid. simpl. lia.
    + rewrite HK' in HR1. apply Forall_inv in HR1. simpl in HR1. lia.
  - exists (ps - 1). split; [lia|]. rewrite Hm1.
    pose proof (wf_sorted s Hs) as S1. pose proof (wf_valid s Hs) as V1. rewrite Hm1 in S1, V1.
    apply not_in_between; auto; [|by eapply valid_ordered].
    apply Forall_app in V1 as [_ V1]. apply Forall_app in V1 as [_ V1].
    apply Forall_inv in V1. unfold valid in V1. simpl in V1. lia.
Qed.

(** [(ps, pe)] starts at or before the insertion and touches it. *)
Lemma insert_extend L' ps pe R :
  map s = L' ++ (ps, pe) :: R -> a <= pe + 1 -> ps <= a -> pe < b ->
  Forall (fun r => b + 1 < r.1) R ->
  inserted (domain s) a b (map s) (L' ++ (ps, b) :: R) /\ grows a b (map s).
Proof.
  intros Hm Ha Hle Hpe HR. pose proof (wf_sorted s Hs) as S1. pose proof (wf_valid s Hs) as V1.
  rewrite Hm in *. split.
  - replace (ps, b) with (Z.min ps a, Z.max pe b) by (f_equal; lia).
    eapply (insert_merge _ L' []); simpl; eauto; [unfold valid; simpl; lia| |lia].
    apply Forall_forall. intros r Hr.
    pose proof (sorted_across _ _ _ (ps, pe) S1 Hr ltac:(left)) as Hg. unfold gap in Hg. simpl in Hg. lia.
  - exists (pe + 1). split; [lia|].
    apply (not_in_between L' []); auto; [|by eapply valid_ordered].
    apply Forall_app in V1 as [_ V1]. apply Forall_inv in V1. unfold valid in V1. simpl in V1. lia.
Qed.

Lemma inserted_same : (exists r, r ∈ map s /\ r.1 <= a /\ b <= r.2) ->
  inserted (domain s) a b (map s) (map s) /\ ~ grows a b (map s).
Proof.
  intros (r & Hr & Hra & Hrb). split.
  - split; [apply Hs|split; [apply Hs|]]. intros x. split; [by left|].
    intros [?|?]; [done|]. exists r. split; [done|lia].
  - intros (x & Hx & Hn). apply Hn. exists r. split; [done|lia].
Qed.

Lemma insert_inclusive_spec : runs (insert_inclusive s a b) (insert_result s a b).
Proof.
  pose proof (wf_sorted s Hs) as S1. pose proof (wf_valid s Hs) as V1. pose proof dom_small as Hd.
  destruct (split_start (domain s) (map s) (b + 1) S1 V1) as (L & R & Hm & Hl & HL & HR).
  unfold insert_inclusive. rewrite wrap_u32_small by (unfold u32_max in *; lia).
  rewrite <- Hl. destruct L as [|[ps pe] L' _] using rev_ind; cbn [length app] in *.
  { replace (match map s with [] => _ | _ :: _ => _ end)
      with (Ret (true, set_map s ((a, b) :: R))) by (rewrite Hm; by destruct R).
    rewrite Hm in S1, V1. destruct (insert_alone (domain s) [] R a b) as [Hi Hn]; auto.
    { unfold valid. simpl. lia. }
    apply runs_ret. split; [by rewrite Hm|]. split; [done|]. simpl.
    split; [|done]. intros _. exists a. rewrite Hm. split; [lia|done]. }
  rewrite length_app, Nat.add_comm. cbn [length Nat.add]. rewrite Hm, <- app_assoc, lookup_after.
  rewrite <- app_assoc in Hm. cbn [app] in *. cbn [unwrap obind].
  assert (Hv : valid (domain s) (ps, pe)).
  { eapply Forall_at; [exact V1|]. rewrite Hm. apply elem_of_app. right. left. }
  destruct Hv as [Hv1 Hv2]. cbn [fst snd] in Hv1, Hv2.
  apply Forall_app in HL as [_ HL]. apply Forall_inv in HL. cbn [fst] in HL.
  rewrite wrap_u32_small by (unfold u32_max in *; lia).
  destruct (Z.leb_spec a (pe + 1)).
  2: { rewrite cons_middle, app_assoc. replace (length L' + 1)%nat with (length (L' ++ [(ps, pe)]))
         by (rewrite length_app; simpl; lia).
       rewrite vec_insert_app. rewrite Hm, cons_middle, app_assoc in S1, V1.
       destruct (insert_alone (domain s) (L' ++ [(ps, pe)]) R a b) as [Hi Hn]; auto.
       { unfold valid. simpl. lia. }
       { apply Forall_app. split; [|repeat constructor; simpl; lia]. apply sorted_app_l in S1.
         apply Forall_forall. intros r Hr. pose proof (sorted_across _ _ _ (ps, pe) S1 Hr ltac:(left)) as Hg.
         unfold gap in Hg. simpl in Hg. lia. }
       apply runs_ret. rewrite cons_middle, app_assoc in Hm. split; [by rewrite Hm|]. split; [done|].
       simpl. split; [|done]. intros _. exists a. rewrite Hm. split; [lia|done]. }
  rewrite <- Hm. destruct (Z.ltb_spec a ps).
  - destruct (insert_left L' ps pe R) as (L & K & a1 & b1 & -> & Hl1 & Hlk & Hi & Hg); auto.
    rewrite Hlk. cbn [unwrap obind]. rewrite <- Hl1.
    rewrite <- app_assoc in Hm. rewrite Hm, drain_merged. apply runs_ret.
    split_and!; auto; done.
  - destruct (Z.ltb_spec pe b).
    + destruct (insert_extend L' ps pe R) as [Hi Hg]; auto.
      apply runs_ret. split_and!; [|done|done]. cbn [snd map set_map].
      replace (<[length L' := (ps, b)]> (map s)) with (L' ++ (ps, b) :: R); [done|].
      by rewrite Hm, insert_app_r_alt, Nat.sub_diag by done.
    + destruct inserted_same as [Hi Hg].
      { exists (ps, pe). rewrite Hm. split; [|simpl; lia]. apply elem_of_app. right. left. }
      apply runs_ret. split_and!; [done|done|]. by split.
Qed.
End Insert.

(** ** Ranges of indices *)

(** The indices a range selects in a domain. *)
Definition in_range (dom : Z) (r : RangeBounds) (x : Z) : Prop :=
  match start_bound r with Included i => i <= x | Excluded i => i < x | Unbounded => 0 <= x end /\
  match end_bound r with Included i => x <= i | Excluded i => x < i | Unbounded => x < dom end.

(** The bounds are indices, and the range stays inside the domain. *)
Definition range_ok (dom : Z) (r : RangeBounds) : Prop :=
  match start_bound r with Included i => 0 <= i <= dom | Excluded i => 0 <= i < dom | Unbounded => True end /\
  match end_bound r with Included i => 0 <= i < dom | Excluded i => 0 <= i <= dom | Unbounded => True end.

Lemma inclusive_bounds dom r : 0 <= dom <= u32_max -> range_ok dom r ->
  0 <= inclusive_start r /\
  match inclusive_end dom r with
  | None => forall x, ~ in_range dom r x
  | Some e => e < dom /\ forall x, in_range dom r x <-> inclusive_start r <= x <= e
  end.
Proof.
  intros Hd [H1 H2]. unfold u32_max in Hd. destruct r as [[i|i|] [j|j|]];
    unfold in_range, inclusive_start, inclusive_end, checked_pred in *; simpl in *;
    rewrite ?(wrap_u32_small i), ?(wrap_u32_small j), ?(wrap_u32_small (i + 1))
      by (unfold u32_max; lia);
    try (case_if E; propify); simpl;
    rewrite ?(wrap_u32_small (j - 1)), ?(wrap_u32_small (dom - 1)) by (unfold u32_max; lia);
    repeat split; intros; try lia.
Qed.

Lemma insert_result_wf s a b s' c : wf s -> insert_result s a b (c, s') ->
  wf s' /\ domain s' = domain s /\ forall x, x ∈ s' <-> x ∈ s \/ a <= x <= b.
Proof.
  intros Hs ((H1 & H2 & H3) & Hd & _). simpl in *. split; [|done].
  split; rewrite ?Hd; auto. apply Hs.
Qed.

(** What [insert_range] returns. *)
Definition range_inserted (s : IntervalSet) (r : RangeBounds) (p : bool * IntervalSet) : Prop :=
  wf p.2 /\ domain p.2 = domain s
  /\ (forall x, x ∈ p.2 <-> x ∈ s \/ in_range (domain s) r x)
  /\ (p.1 = true <-> exists x, in_range (domain s) r x /\ ~ x ∈ s).

Lemma range_inserted_same s r : wf s -> (forall x, ~ in_range (domain s) r x) ->
  range_inserted s r (false, s).
Proof.
  intros Hs Hr. split_and!; simpl; auto; [intros x; specialize (Hr x); tauto|].
  split; [done|]. intros (x & Hx & _). by destruct (Hr x).
Qed.

Lemma insert_range_ok s r : wf s -> range_ok (domain s) r ->
  runs (insert_range s r) (range_inserted s r).
Proof.
  intros Hs Hr. destruct (inclusive_bounds _ _ (wf_domain s Hs) Hr) as [H0 He].
  unfold insert_range. destruct (inclusive_end (domain s) r) as [e|].
  2: { by apply runs_ret, range_inserted_same. }
  destruct He as [He Hx]. destruct (Z.ltb_spec e (inclusive_start r)).
  { apply runs_ret, range_inserted_same; [done|]. intros x Hi%Hx. lia. }
  eapply runs_mono; [apply insert_inclusive_spec; auto; lia|].
  intros [c s'] HI. destruct (insert_result_wf _ _ _ _ _ Hs HI) as (Hw & Hd & Hm).
  destruct HI as (_ & _ & Hg). split_and!; auto; simpl.
  - intros x. by rewrite Hm, Hx.
  - simpl in Hg. rewrite Hg. unfold grows. setoid_rewrite Hx. done.
Qed.

(** ** The interval before a point *)

(** The search of [contains], [first_unset_in] and [last_set_in]: the last interval that
    starts at or before [k] decides every value between its end and [k]. *)
Lemma pred_interval s k : wf s ->
  match partition_point (fun r : Z * Z => r.1 <=? k) (map s) with
  | O => forall x, x <= k -> ~ x ∈ s
  | S i => exists ps pe, map s !! i = Some (ps, pe) /\ 0 <= ps <= pe /\ pe < domain s /\ ps <= k
      /\ (forall x, ps <= x <= pe -> x ∈ s) /\ ~ (pe + 1) ∈ s /\ forall x, pe < x <= k -> ~ x ∈ s
  end.
Proof.
  intros Hs. pose proof (wf_sorted s Hs) as S1. pose proof (wf_valid s Hs) as V1.
  destruct (split_start (domain s) (map s) k S1 V1) as (L & R & Hm & Hl & HL & HR).
  rewrite <- Hl. destruct L as [|[ps pe] L' _] using rev_ind; cbn [length app] in *.
  - intros x Hx (r & Hr & Hrx). rewrite Hm in Hr. pose proof (Forall_at _ _ _ HR Hr) as Hk.
    simpl in Hk. lia.
  - rewrite length_app, Nat.add_comm. cbn [length Nat.add]. rewrite <- app_assoc in Hm.
    exists ps, pe. rewrite Hm, lookup_after. cbn [app] in Hm.
    assert (Hi : (ps, pe) ∈ map s) by (rewrite Hm; apply elem_of_app; right; left).
    destruct (Forall_at _ _ _ V1 Hi) as [Hv1 Hv2]. cbn [fst snd] in *.
    apply Forall_app in HL as [_ HL]. apply Forall_inv in HL. cbn [fst] in HL.
    split_and!; [done|lia|lia|lia|lia| | |].
    + intros x Hx. exists (ps, pe). done.
    + intros Hin. rewrite elem_of_interval in Hin. rewrite Hm in *. revert Hin.
      apply (not_in_between L' []); [done|lia|lia|by eapply valid_ordered].
    + intros x Hx (r & Hr & Hrx). rewrite Hm in Hr, S1. pose proof (sorted_app_r _ _ S1) as S2.
      apply elem_of_app in Hr as [Hr|[->|Hr]%elem_of_cons].
      * pose proof (sorted_across _ _ _ (ps, pe) S1 Hr ltac:(left)) as Hg. unfold gap in Hg. simpl in Hg. lia.
      * simpl in Hrx. lia.
      * pose proof (Forall_at _ _ _ HR Hr) as Hk. simpl in Hk. lia.
Qed.

Lemma contains_ok s x : wf s -> 0 <= x <= u32_max ->
  runs (contains s x) (fun b => b = true <-> x ∈ s).
Proof.
  intros Hs Hx. unfold contains. rewrite wrap_u32_small by done.
  pose proof (pred_interval s x Hs) as Hp. destruct (partition_point _ _) as [|i].
  - apply runs_ret. split; [done|]. intros Hi. by destruct (Hp x).
  - destruct Hp as (ps & pe & -> & Hv & _ & Hk & Hin & _ & Hout). simpl. apply runs_ret.
    rewrite Z.leb_le. split; [auto with lia|]. intros Hi. destruct (decide (x <= pe)); [done|].
    destruct (Hout x); [lia|done].
Qed.
