(* ===== verification/IntervalTheorems.v ===== *)
(** * Interval sets: the queries, [append], [union] and the matrix against sets *)
From Stdlib Require Import ZArith Lia Sorted.
From stdpp Require Import base numbers list.
From S2P Require Import Prelude RustSlice Interval IntervalFacts.
Open Scope Z_scope.
Open Scope rust_scope.

(** ** The representation is canonical *)

Lemma sorted_bounds dom m x : StronglySorted gap m -> Forall (valid dom) m ->
  match m with
  | [] => ~ in_map m x
  | (a, b) :: m' => in_map m a /\ (in_map m x -> a <= x) /\ (in_map m' x -> b + 1 < x)
  end.
Proof.
  intros HS HV. destruct m as [|[a b] m']; [apply in_map_nil|].
  apply StronglySorted_inv in HS as [_ HS]. apply Forall_cons in HV as [Hv HV].
  unfold valid in Hv. simpl in Hv. rewrite !in_map_cons. simpl.
  assert (Ht : in_map m' x -> b + 1 < x).
  { intros (r & Hr & Hx). pose proof (Forall_at _ _ _ HS Hr) as Hg. unfold gap in Hg. simpl in Hg. lia. }
  split; [left; lia|]. split; [|done]. intros [?|?%Ht]; lia.
Qed.

Lemma canonical dom m1 m2 :
  StronglySorted gap m1 -> Forall (valid dom) m1 -> StronglySorted gap m2 -> Forall (valid dom) m2 ->
  (forall x, in_map m1 x <-> in_map m2 x) -> m1 = m2.
Proof.
  revert m2. induction m1 as [|[a b] m1 IH]; intros [|[c d] m2] S1 V1 S2 V2 H; [done| | |].
  - destruct (sorted_bounds _ _ c S2 V2) as (Hc & _). apply H in Hc. by apply in_map_nil in Hc.
  - destruct (sorted_bounds _ _ a S1 V1) as (Ha & _). apply H in Ha. by apply in_map_nil in Ha.
  - pose proof (fun x => sorted_bounds _ _ x S1 V1) as B1. pose proof (fun x => sorted_bounds _ _ x S2 V2) as B2.
    simpl in B1, B2.
    assert (a = c) as <-.
    { pose proof (proj1 (B1 a)) as Ha. pose proof (proj1 (B2 a)) as Hc.
      pose proof (proj1 (proj2 (B2 a)) (proj1 (H a) Ha)). pose proof (proj1 (proj2 (B1 c)) (proj2 (H c) Hc)). lia. }
    pose proof (Forall_inv V1) as [Va _]. pose proof (Forall_inv V2) as [Vc _]. simpl in Va, Vc.
    assert (b = d) as <-.
    { destruct (Z.lt_trichotomy b d) as [Hlt|[?|Hlt]]; [|done|]; exfalso.
      - assert (Hi : in_map ((a, b) :: m1) (b + 1)) by (apply H, in_map_cons; left; simpl; lia).
        apply in_map_cons in Hi as [Hi|Hi]; simpl in *; [lia|]. apply B1 in Hi. lia.
      - assert (Hi : in_map ((a, d) :: m2) (d + 1)) by (apply H, in_map_cons; left; simpl; lia).
        apply in_map_cons in Hi as [Hi|Hi]; simpl in *; [lia|]. apply B2 in Hi. lia. }
    f_equal. apply StronglySorted_inv in S1 as [S1 _], S2 as [S2 _].
    apply Forall_cons in V1 as [_ V1], V2 as [_ V2]. apply IH; auto. intros x.
    specialize (H x). rewrite !in_map_cons in H. cbn [fst snd] in H.
    destruct (B1 x) as (_ & _ & T1). destruct (B2 x) as (_ & _ & T2).
    split; intros Hi.
    + assert (b + 1 < x) by auto. destruct H as [H _]. destruct H; [auto|lia|done].
    + assert (b + 1 < x) by auto. destruct H as [_ H]. destruct H; [auto|lia|done].
Qed.

(** Two sets with the same domain and elements are the same value. *)
Lemma same_set s1 s2 : wf s1 -> wf s2 -> domain s1 = domain s2 ->
  (forall x, x ∈ s1 <-> x ∈ s2) -> s1 = s2.
Proof.
  intros [_ S1 V1] [_ S2 V2] Hd H. destruct s1 as [m1 d1], s2 as [m2 d2]. simpl in *. subst d2.
  f_equal. by apply (canonical d1).
Qed.

(** ** [append] and [append_range] are [insert] and [insert_range] *)

(** The documented precondition: nothing in the set is after [k]. *)
Definition nothing_after (k : Z) (s : IntervalSet) : Prop := forall x, x ∈ s -> x <= k.

Lemma last_split {A} (m : list A) : m = [] \/ exists L r, m = L ++ [r].
Proof. destruct m as [|r L _] using rev_ind; eauto. Qed.

Lemma with_last_app L r f : with_last (L ++ [r]) f = L ++ [f r].
Proof.
  unfold with_last. rewrite last_snoc, length_app. simpl.
  by rewrite Nat.add_sub, take_app_length.
Qed.

(** Appending [a..=b] after everything, in the vector. *)
Lemma append_map s a b : wf s -> 0 <= a <= b -> b < domain s -> nothing_after a s ->
  (map s = [] -> inserted (domain s) a b (map s) [(a, b)]) /\
  (forall L ls le, map s = L ++ [(ls, le)] ->
     0 <= le < domain s /\ le <= a /\
     (a <= le + 1 -> inserted (domain s) a b (map s) (L ++ [(ls, b)])) /\
     (le + 1 < a -> inserted (domain s) a b (map s) (map s ++ [(a, b)]))).
Proof.
  intros Hs Hab Hb Hn. pose proof (wf_sorted s Hs) as S1. pose proof (wf_valid s Hs) as V1.
  assert (Hv : valid (domain s) (a, b)) by (unfold valid; simpl; lia). split.
  - intros Hm. rewrite Hm in *. by apply (insert_alone (domain s) [] []).
  - intros L ls le Hm.
    assert (Hl : valid (domain s) (ls, le)).
    { eapply Forall_at; [exact V1|]. rewrite Hm. apply elem_of_app. right. left. }
    destruct Hl as [Hl1 Hl2]. simpl in Hl1, Hl2. split_and!; [lia|lia| | |].
    + apply Hn. exists (ls, le). simpl. split; [|lia]. rewrite Hm. apply elem_of_app. right. left.
    + intros Ha. assert (Hle : le <= a).
      { apply Hn. exists (ls, le). simpl. split; [|lia]. rewrite Hm. apply elem_of_app. right. left. }
      replace (ls, b) with (Z.min ls a, Z.max le b) by (f_equal; lia). rewrite Hm in *.
      apply (insert_merge (domain s) L [] ls le [] a b ls le); simpl; auto; try lia; [by eexists|].
      apply Forall_forall. intros r Hr.
      pose proof (sorted_across _ _ _ (ls, le) S1 Hr ltac:(left)) as Hg. unfold gap in Hg. simpl in Hg. lia.
    + intros Ha. rewrite <- (app_nil_r (map s)) at 1. apply insert_alone; rewrite ?app_nil_r; auto.
      rewrite Hm in *. apply Forall_app. split; [|repeat constructor; simpl; lia].
      apply Forall_forall. intros r Hr.
      pose proof (sorted_across _ _ _ (ls, le) S1 Hr ltac:(left)) as Hg. unfold gap in Hg. simpl in Hg. lia.
Qed.

(** A vector obtained by inserting [a..=b] is the one [insert_range] computes. *)
Lemma inserted_is_insert s r a b m' : wf s -> range_ok (domain s) r ->
  (forall x, in_range (domain s) r x <-> a <= x <= b) -> inserted (domain s) a b (map s) m' ->
  exists c, insert_range s r = Ret (c, set_map s m').
Proof.
  intros Hs Hr Hx (H1 & H2 & H3). destruct (insert_range_ok s r Hs Hr) as ([c s'] & Hi & Hw & Hd & Hm & _).
  simpl in *. exists c. rewrite Hi. f_equal. f_equal. apply same_set; [done| |done|].
  - split; [apply Hs|done|done].
  - intros x. rewrite Hm, Hx. symmetry. apply H3.
Qed.

Lemma append_range_insert s r : wf s -> range_ok (domain s) r ->
  (forall x y, x ∈ s -> in_range (domain s) r y -> x <= y) ->
  exists c s', append_range s r = Ret s' /\ insert_range s r = Ret (c, s').
Proof.
  intros Hs Hr Hn. destruct (inclusive_bounds _ _ (wf_domain s Hs) Hr) as [H0 He].
  unfold append_range. destruct (inclusive_end (domain s) r) as [e|] eqn:Ee.
  2: { exists false, s. split; [done|]. unfold insert_range. by rewrite Ee. }
  destruct He as [He Hx]. destruct (Z.ltb_spec e (inclusive_start r)) as [Hlt|Hge].
  { exists false, s. split; [done|]. unfold insert_range. rewrite Ee.
    by rewrite (proj2 (Z.ltb_lt _ _) Hlt). }
  destruct (append_map s (inclusive_start r) e) as [Hnil Hsnoc]; [done|lia|lia| |].
  { intros x Hxs. apply Hn; [done|]. apply Hx. lia. }
  destruct (last_split (map s)) as [Hm|(L & [ls le] & Hm)].
  - rewrite Hm. simpl. destruct (inserted_is_insert s r _ _ _ Hs Hr Hx (Hnil Hm)) as [c Hc]. eauto.
  - destruct (Hsnoc L ls le Hm) as (Hd & Hle & Hjoin & Hnew). rewrite Hm, last_snoc. simpl.
    rewrite (proj2 (Z.leb_le _ _) Hle). cbn [assert_that obind].
    pose proof (wf_domain s Hs). rewrite wrap_u32_small by (unfold u32_max in *; lia).
    destruct (Z.leb_spec (inclusive_start r) (le + 1)) as [Hj|Hj].
    + rewrite with_last_app. cbn [fst].
      destruct (inserted_is_insert s r _ _ _ Hs Hr Hx (Hjoin Hj)) as [c Hc]. eauto.
    + rewrite <- Hm. destruct (inserted_is_insert s r _ _ _ Hs Hr Hx (Hnew Hj)) as [c Hc]. eauto.
Qed.

Lemma append_insert s p : wf s -> 0 <= p < domain s -> nothing_after p s ->
  exists c s', append s p = Ret s' /\ insert s p = Ret (c, s').
Proof.
  intros Hs Hp Hn. pose proof (wf_domain s Hs).
  assert (Hr : range_ok (domain s) (range_incl p p)) by (unfold range_ok; simpl; lia).
  assert (Hx : forall x, in_range (domain s) (range_incl p p) x <-> p <= x <= p)
    by (unfold in_range; simpl; lia).
  unfold append, insert. rewrite wrap_u32_small by lia.
  destruct (append_map s p p) as [Hnil Hsnoc]; [done|lia|lia|done|].
  destruct (last_split (map s)) as [Hm|(L & [ls le] & Hm)].
  - rewrite Hm. simpl. destruct (inserted_is_insert s _ _ _ _ Hs Hr Hx (Hnil Hm)) as [c Hc]. eauto.
  - destruct (Hsnoc L ls le Hm) as (Hd & Hle & Hjoin & Hnew). rewrite Hm, last_snoc.
    rewrite (proj2 (Z.leb_le _ _) Hle). cbn [assert_that obind].
    rewrite wrap_u32_small by (unfold u32_max in *; lia).
    destruct (Z.eqb_spec p le) as [->|Hne]; [|destruct (Z.eqb_spec p (le + 1)) as [->|Hne2]].
    + destruct (inserted_is_insert s _ _ _ _ Hs Hr Hx (Hjoin ltac:(lia))) as [c Hc].
      exists c, s. split; [done|]. rewrite Hc, <- Hm. by destruct s.
    + rewrite with_last_app. cbn [fst].
      destruct (inserted_is_insert s _ _ _ _ Hs Hr Hx (Hjoin ltac:(lia))) as [c Hc]. eauto.
    + rewrite <- Hm. destruct (inserted_is_insert s _ _ _ _ Hs Hr Hx (Hnew ltac:(lia))) as [c Hc]. eauto.
Qed.

(** ** [superset] *)

Definition halfopen (m : list (Z * Z)) : list (Z * Z) := (fun '(start, e) => (start, e + 1)) <$> m.

(** A saved range behaves as if it were still at the front of the iterator. *)
Lemma superset_loop_current subs sup rest :
  superset_loop subs (Some sup) rest = superset_loop subs None (sup :: rest).
Proof. destruct subs as [|sub subs]; [done|]. cbn [superset_loop sup_find].
  by destruct (sup_contains sup sub) as [[]|]. Qed.

(** Is [a..=b] inside one of the intervals, and which intervals are left to look at? *)
Lemma sup_find_spec dom a b m : StronglySorted gap m -> Forall (valid dom) m -> a <= b ->
  exists L R, m = L ++ R /\ Forall (fun r => r.2 + 1 < a) L /\
    match sup_find (a, b + 1) (halfopen m) with
    | (Some true, Some sup, rest) =>
        sup :: rest = halfopen R /\ forall x, a <= x <= b -> in_map m x
    | (Some true, None, _) => False
    | (_, _, _) => exists x, a <= x <= b /\ ~ in_map m x
    end.
Proof.
  intros HS HV Hab. induction m as [|[c d] m IH].
  { exists [], []. split_and!; [done|done|]. simpl. exists a. split; [lia|apply in_map_nil]. }
  pose proof (fun x => sorted_bounds _ _ x HS HV) as HB. simpl in HB.
  pose proof HS as [S1 _]%StronglySorted_inv. pose proof HV as [V0 V1]%Forall_cons.
  unfold valid in V0. simpl in V0.
  cbn [halfopen fmap list_fmap sup_find]. unfold sup_contains at 1. cbn [fst snd].
  destruct (Z.ltb_spec (d + 1) a) as [Hlt|Hge].
  - destruct (IH S1 V1) as (L & R & -> & HL & Hf). exists ((c, d) :: L), R.
    split; [done|]. split; [by constructor|]. fold (halfopen (L ++ R)).
    destruct (sup_find (a, b + 1) (halfopen (L ++ R))) as [[[[]|] [sup|]] rest]; try done.
    all: try (destruct Hf as (x & Hx & Hn); exists x; split; [done|]; rewrite in_map_cons; simpl; intros [?|?]; [lia|done]).
    destruct Hf as [Hr Hi]. split; [done|]. intros x Hx. apply in_map_cons. right. auto.
  - exists [], ((c, d) :: m). split; [done|]. split; [done|].
    destruct (Z.leb_spec (b + 1) (d + 1)); destruct (Z.leb_spec c a); cbn [andb].
    { split; [done|]. intros x Hx. apply in_map_cons. left. simpl. lia. }
    all: destruct (decide (a < c)); [exists a|exists (d + 1)]; (split; [lia|]);
      rewrite in_map_cons; simpl; (intros [?|Hi]; [lia|apply HB in Hi; lia]).
Qed.

Lemma in_map_after dom L R a b x : StronglySorted gap (L ++ R) -> Forall (valid dom) (L ++ R) ->
  Forall (fun r => r.2 + 1 < a) L -> a <= b -> b < x -> in_map (L ++ R) x -> in_map R x.
Proof.
  intros HS HV HL Hab Hx Hi. apply in_map_app in Hi as [(r & Hr & Hrx)|?]; [|done].
  pose proof (Forall_at _ _ _ HL Hr) as Hg. simpl in Hg. lia.
Qed.

Lemma superset_loop_spec dom subs m :
  StronglySorted gap subs -> Forall (valid dom) subs -> StronglySorted gap m -> Forall (valid dom) m ->
  superset_loop (halfopen subs) None (halfopen m) = true <->
  forall x, in_map subs x -> in_map m x.
Proof.
  revert m. induction subs as [|[a b] subs IH]; intros m SS VS SM VM.
  { split; [|done]. intros _ x Hx. by apply in_map_nil in Hx. }
  pose proof (fun x => sorted_bounds _ _ x SS VS) as HB. simpl in HB.
  pose proof SS as [SS' _]%StronglySorted_inv. pose proof VS as [V0 VS']%Forall_cons.
  unfold valid in V0. simpl in V0.
  destruct (sup_find_spec dom a b m SM VM ltac:(lia)) as (L & R & -> & HL & Hf).
  cbn [halfopen fmap list_fmap superset_loop]. fold (halfopen subs).
  change ((fun '(start, e) => (start, e + 1)) <$> (L ++ R)) with (halfopen (L ++ R)).
  assert (Hno : (exists x, a <= x <= b /\ ~ in_map (L ++ R) x) ->
    false = true <-> forall x, in_map ((a, b) :: subs) x -> in_map (L ++ R) x).
  { intros (x & Hx & Hn). split; [done|]. intros H. destruct Hn. apply H, in_map_cons. by left. }
  destruct (sup_find (a, b + 1) (halfopen (L ++ R))) as [[[[]|] [sup|]] rest];
    try exact (Hno Hf); [|done].
  destruct Hf as [Hr Hi]. rewrite superset_loop_current, Hr.
  apply Forall_app in VM as HVM. destruct HVM as [VL VR]. pose proof (sorted_app_r _ _ SM) as SR.
  rewrite (IH R SS' VS' SR VR). split; intros H x Hx.
  - apply in_map_cons in Hx as [Hx|Hx]; [by apply Hi|]. apply in_map_app. right. auto.
  - apply (in_map_after dom L R a b); auto; [lia| |]. { apply HB in Hx. lia. }
    apply H, in_map_cons. by right.
Qed.

Lemma superset_ok s other : wf s -> wf other -> domain s = domain other ->
  superset s other = true <-> forall x, x ∈ other -> x ∈ s.
Proof.
  intros [_ S1 V1] [_ S2 V2] Hd. rewrite Hd in V1. unfold superset, iter_intervals.
  apply (superset_loop_spec (domain other)); auto.
Qed.

(** ** [disjoint] *)

Lemma disjoint_loop_spec dom fuel m1 m2 :
  StronglySorted gap m1 -> Forall (valid dom) m1 -> StronglySorted gap m2 -> Forall (valid dom) m2 ->
  (length m1 + length m2 < fuel)%nat ->
  runs (disjoint_loop fuel (halfopen m1) (halfopen m2))
    (fun d => d = true <-> forall x, in_map m1 x -> in_map m2 x -> False).
Proof.
  revert m1 m2. induction fuel as [|fuel IH]; intros m1 m2 S1 V1 S2 V2 Hf; [lia|].
  destruct m1 as [|[a b] m1]; [apply runs_ret; split; [|done]; intros _ x Hx; by apply in_map_nil in Hx|].
  destruct m2 as [|[c d] m2]; [apply runs_ret; split; [|done]; intros _ x _ Hx; by apply in_map_nil in Hx|].
  pose proof (fun x => sorted_bounds _ _ x S1 V1) as B1. pose proof (fun x => sorted_bounds _ _ x S2 V2) as B2.
  simpl in B1, B2. pose proof S1 as [S1' _]%StronglySorted_inv. pose proof S2 as [S2' _]%StronglySorted_inv.
  pose proof V1 as [V0 V1']%Forall_cons. pose proof V2 as [W0 V2']%Forall_cons.
  unfold valid in V0, W0. simpl in V0, W0.
  cbn [halfopen fmap list_fmap disjoint_loop fst snd]. cbn [length] in Hf.
  destruct (Z.leb_spec (b + 1) c); [|destruct (Z.leb_spec (d + 1) a)].
  - eapply runs_mono; [apply (IH m1 ((c, d) :: m2)); auto; simpl; lia|]. intros r ->.
    split; intros H' x H1 H2; [|apply (H' x); [apply in_map_cons; by right|done]].
    apply in_map_cons in H1 as [H1|H1]; [|by apply (H' x)]. simpl in H1. apply B2 in H2. lia.
  - eapply runs_mono; [apply (IH ((a, b) :: m1) m2); auto; simpl; lia|]. intros r ->.
    split; intros H' x H1 H2; [|apply (H' x); [done|apply in_map_cons; by right]].
    apply in_map_cons in H2 as [H2|H2]; [|by apply (H' x)]. simpl in H2. apply B1 in H1. lia.
  - apply runs_ret. split; [done|]. intros H'.
    destruct (H' (Z.max a c)); apply in_map_cons; left; simpl; lia.
Qed.

Lemma disjoint_ok s other : wf s -> wf other -> domain s = domain other ->
  runs (disjoint s other) (fun d => d = true <-> forall x, x ∈ s -> x ∈ other -> False).
Proof.
  intros [_ S1 V1] [_ S2 V2] Hd. rewrite Hd in V1. apply (disjoint_loop_spec (domain other)); auto.
Qed.

(** ** [union] *)

Lemma union_loop_spec did s m : wf s -> Forall (valid (domain s)) m ->
  runs (union_loop did s (halfopen m)) (fun p =>
    wf p.2 /\ domain p.2 = domain s /\ (forall x, x ∈ p.2 <-> x ∈ s \/ in_map m x)
    /\ (p.1 = true <-> did = true \/ exists x, in_map m x /\ ~ x ∈ s)).
Proof.
  revert did s. induction m as [|[a b] m IH]; intros did s Hs HV.
  - apply runs_ret. simpl. split_and!; auto.
    + intros x. split; [by left|]. intros [?|Hx]; [done|by apply in_map_nil in Hx].
    + split; [by left|]. intros [?|(x & Hx & _)]; [done|by apply in_map_nil in Hx].
  - apply Forall_cons in HV as [[V1 V2] HV]. simpl in V1, V2. cbn [halfopen fmap list_fmap union_loop].
    assert (Hr : range_ok (domain s) (range a (b + 1))) by (unfold range_ok; simpl; lia).
    assert (Hx : forall x, in_range (domain s) (range a (b + 1)) x <-> a <= x <= b)
      by (unfold in_range; simpl; lia).
    eapply runs_bind; [by apply insert_range_ok|]. intros [c s1] (Hw & Hd & Hm & Hc). simpl in *.
    fold (halfopen m). rewrite <- Hd in HV.
    eapply runs_mono; [apply (IH (did || c)%bool s1 Hw HV)|].
    intros [c' s'] (Hw' & Hd' & Hm' & Hc'). simpl in *. split_and!; [done|congruence| |].
    + intros x. rewrite Hm', Hm, Hx, in_map_cons. simpl. tauto.
    + rewrite Hc', orb_true_iff, Hc. split.
      * intros [[?|(x & Hi & Hn)]|(x & Hi & Hn)]; [by left| |].
        -- right. exists x. rewrite in_map_cons. simpl. rewrite Hx in Hi. auto.
        -- right. exists x. rewrite in_map_cons. rewrite Hm in Hn. auto.
      * intros [?|(x & Hi & Hn)]; [by left; left|]. apply in_map_cons in Hi as [Hi|Hi].
        -- left. right. exists x. rewrite Hx. auto.
        -- destruct (decide (a <= x <= b)).
           ++ left. right. exists x. rewrite Hx. auto.
           ++ right. exists x. split; [done|]. rewrite Hm, Hx. tauto.
Qed.

(** The elements of [x] that [y] lacks. *)
Definition some_missing (x y : IntervalSet) : Prop := exists i, i ∈ x /\ ~ i ∈ y.

Definition union_result (s other : IntervalSet) (p : bool * IntervalSet) : Prop :=
  wf p.2 /\ domain p.2 = domain s /\ (forall x, x ∈ p.2 <-> x ∈ s \/ x ∈ other)
  /\ (p.1 = true <-> if (length (map s) <? length (map other))%nat
                     then some_missing s other else some_missing other s).

Lemma union_fuel_large f s other : wf s -> wf other -> domain s = domain other ->
  (length (map other) <= length (map s))%nat ->
  runs (union_fuel (S f) s other) (union_result s other).
Proof.
  intros Hs [_ _ VO] Hd Hlen. cbn [union_fuel]. rewrite <- Hd, Z.eqb_refl. cbn [assert_that obind].
  rewrite <- Hd in VO. rewrite (proj2 (Nat.ltb_ge _ _) Hlen).
  eapply runs_mono; [apply (union_loop_spec false s (map other) Hs VO)|].
  intros [c s'] (Hw & Hd' & Hm & Hc). split_and!; auto.
  rewrite (proj2 (Nat.ltb_ge _ _) Hlen), Hc. unfold some_missing. split; [intros [?|?]; done|by right].
Qed.

Lemma union_ok s other : wf s -> wf other -> domain s = domain other ->
  runs (union s other) (union_result s other).
Proof.
  intros Hs Ho Hd. destruct (decide (length (map s) < length (map other))%nat) as [Hlt|];
    [|by apply union_fuel_large; auto; lia].
  unfold union. cbn [union_fuel]. rewrite <- Hd, Z.eqb_refl. cbn [assert_that obind].
  rewrite (proj2 (Nat.ltb_lt _ _) Hlt).
  replace (set_map s (map other)) with other by (destruct s, other; simpl in *; by subst).
  eapply runs_mono; [apply (union_fuel_large 0 other s); auto; lia|].
  intros [c s'] (Hw & Hd' & Hm & Hc). simpl in *. split_and!; auto; simpl; [congruence| |].
  - intros x. rewrite Hm. tauto.
  - rewrite (proj2 (Nat.ltb_lt _ _) Hlt). rewrite (proj2 (Nat.ltb_ge _ _)) in Hc by lia. done.
Qed.

(** ** [check_invariants] decides the invariant *)

Lemma check_invariants_loop_spec dom cur m :
  0 <= dom <= u32_max -> Forall (fun r => 0 <= r.1 /\ 0 <= r.2 < u32_max) m ->
  match cur with Some x => 0 <= x < u32_max | None => True end ->
  check_invariants_loop dom cur m = true <->
  StronglySorted gap m /\ Forall (valid dom) m /\
  match cur with
  | Some x => x < dom /\ Forall (fun r => x + 1 < r.1) m
  | None => True
  end.
Proof.
  intros Hd. revert cur. induction m as [|[a b] m IH]; intros cur HV Hc; cbn [check_invariants_loop].
  { destruct cur as [x|]; [|split; [intros _; split_and!; auto using SSorted_nil|done]].
    rewrite wrap_u32_small by done. rewrite Z.ltb_lt.
    split; [intros; split_and!; auto using SSorted_nil|tauto]. }
  apply Forall_cons in HV as [[H0 H1] HV]. simpl in H0, H1.
  destruct ((b <? a) || _)%bool eqn:Eb.
  - split; [done|]. intros (_ & V & C). apply Forall_cons in V as [[V _] _]. simpl in V.
    apply orb_true_iff in Eb as [Eb|Eb]; [propify; lia|]. destruct cur as [x|]; [|done].
    rewrite wrap_u32_small in Eb by (unfold u32_max in *; lia). destruct C as [_ C].
    apply Forall_inv in C. simpl in C. propify. lia.
  - apply orb_false_iff in Eb as [Eb Ec]. propify. rewrite (IH (Some b) HV H1). split.
    + intros (S1 & V1 & Hb & Hg). split_and!.
      * by constructor.
      * constructor; [unfold valid; simpl; lia|done].
      * destruct cur as [x|]; [|done]. rewrite wrap_u32_small in Ec by (unfold u32_max in *; lia).
        propify. split; [lia|]. constructor; [done|]. eapply Forall_impl; [exact Hg|]. simpl. lia.
    + intros (S1 & V1 & _). apply StronglySorted_inv in S1 as [S1 Hg].
      apply Forall_cons in V1 as [[_ Vb] V1]. simpl in Vb. done.
Qed.

Lemma check_invariants_ok s : 0 <= domain s <= u32_max ->
  Forall (fun r => 0 <= r.1 /\ 0 <= r.2 < u32_max) (map s) ->
  check_invariants s = true <-> wf s.
Proof.
  intros Hd HV. unfold check_invariants. rewrite check_invariants_loop_spec by done.
  split; [intros (? & ? & _); by constructor|intros [? ? ?]; auto].
Qed.

(** ** Iteration and [insert_all] *)

Lemma iter_app_seq m x : x ∈ mjoin ((fun '(start, e) => seqZ start (e - start)) <$> halfopen m)
  <-> in_map m x.
Proof.
  induction m as [|[a b] m IH].
  - simpl. rewrite elem_of_nil. split; [done|apply in_map_nil].
  - cbn [halfopen fmap list_fmap mjoin list_join]. fold (halfopen m).
    rewrite elem_of_app, in_map_cons, elem_of_seqZ. change (list_join ?l) with (mjoin l).
    rewrite IH. simpl. split; intros [?|?]; auto; left; lia.
Qed.

Lemma seqZ_sorted n len : StronglySorted Z.lt (seqZ n len).
Proof.
  unfold seqZ. generalize (Z.to_nat len) 0%nat. intros k. induction k as [|k IH]; intros i; simpl; [constructor|].
  constructor; [apply IH|]. apply Forall_forall. intros x (j & -> & Hj)%list_elem_of_fmap.
  apply elem_of_seq in Hj. lia.
Qed.

Lemma iter_sorted dom m : StronglySorted gap m -> Forall (valid dom) m ->
  StronglySorted Z.lt (mjoin ((fun '(start, e) => seqZ start (e - start)) <$> halfopen m)).
Proof.
  induction m as [|[a b] m IH]; intros HS HV; [constructor|].
  pose proof (fun x => sorted_bounds _ _ x HS HV) as HB. simpl in HB.
  apply StronglySorted_inv in HS as [HS _]. apply Forall_cons in HV as [_ HV].
  cbn [halfopen fmap list_fmap mjoin list_join]. fold (halfopen m). change (list_join ?l) with (mjoin l).
  apply StronglySorted_app_iff. split_and!; [apply seqZ_sorted|auto|].
  apply Forall_forall. intros x Hx%elem_of_seqZ. apply Forall_forall. intros y Hy%iter_app_seq.
  apply HB in Hy. lia.
Qed.

Lemma insert_all_ok s : wf s -> runs (insert_all s) (fun s' =>
  wf s' /\ domain s' = domain s /\ forall x, x ∈ s' <-> 0 <= x < domain s).
Proof.
  intros Hs. pose proof (wf_domain s Hs) as Hd. unfold insert_all, checked_pred.
  cbn [clear domain map app]. destruct (Z.ltb_spec (domain s) 1).
  - apply runs_ret. split_and!; [|done|].
    + split; simpl; [done|constructor|constructor].
    + intros x. split; [intros Hx; by apply in_map_nil in Hx|lia].
  - rewrite (proj2 (Z.leb_le _ _)) by (unfold u32_max in *; lia). apply runs_ret.
    split_and!; [|done|].
    + split; simpl; [done|repeat constructor|repeat constructor; simpl; lia].
    + intros x. rewrite elem_of_interval. simpl. rewrite in_map_cons. simpl.
      split; [intros [?|Hx]; [lia|by apply in_map_nil in Hx]|left; lia].
Qed.

(** ** The matrix *)

Record matrix_wf (m : SparseIntervalMatrix) : Prop := {
  mwf_columns : 0 <= column_size m <= u32_max;
  mwf_rows : Forall (fun s => wf s /\ domain s = column_size m) (rows m);
}.

(** The bit at row [r], column [x]; absent rows are empty. *)
Definition cell (m : SparseIntervalMatrix) (r : nat) (x : Z) : Prop :=
  exists s, rows m !! r = Some s /\ x ∈ s.

Lemma ensure_row_spec m r : matrix_wf m ->
  matrix_wf (ensure_row m r) /\ column_size (ensure_row m r) = column_size m
  /\ (r < length (rows (ensure_row m r)))%nat /\ forall r' x, cell (ensure_row m r) r' x <-> cell m r' x.
Proof.
  intros [Hc Hr]. unfold ensure_row, cell. simpl. split; [|split; [done|split]].
  - split; simpl; [done|]. apply Forall_app. split; [done|]. apply Forall_replicate.
    split; [|done]. split; simpl; [done|constructor|constructor].
  - rewrite length_app, length_replicate. lia.
  - intros r' x. split.
    + intros (s & Hs & Hx). apply lookup_app_Some in Hs as [Hs|[_ Hs]]; [eauto|].
      apply lookup_replicate in Hs as [-> _]. by apply in_map_nil in Hx.
    + intros (s & Hs & Hx). exists s. split; [|done]. by apply lookup_app_l_Some.
Qed.

(** An operation that adds the elements [E] to a set adds them to the row it is applied to. *)
Lemma on_row_spec {A} m r (f : IntervalSet -> outcome (A * IntervalSet)) (E : Z -> Prop) :
  matrix_wf m ->
  (forall s, wf s -> domain s = column_size m -> (forall x, x ∈ s <-> cell m r x) ->
     runs (f s) (fun p => wf p.2 /\ domain p.2 = domain s /\ forall x, x ∈ p.2 <-> x ∈ s \/ E x)) ->
  runs (on_row m r f) (fun p => matrix_wf p.2 /\ column_size p.2 = column_size m
    /\ forall r' x, cell p.2 r' x <-> cell m r' x \/ (r' = r /\ E x)).
Proof.
  intros Hm Hf. destruct (ensure_row_spec m r Hm) as (Hm' & Hc & Hlen & Hcell).
  unfold on_row. set (m1 := ensure_row m r) in *.
  destruct (lookup_lt_is_Some_2 _ _ Hlen) as [s Hs]. rewrite Hs. cbn [unwrap obind].
  destruct Hm' as [Hcols Hrows]. destruct (Forall_lookup_1 _ _ _ _ Hrows Hs) as [Hw Hd].
  assert (Hsr : forall x, x ∈ s <-> cell m r x).
  { intros x. rewrite <- Hcell. unfold cell. split; [eauto|]. intros (s' & Hs' & ?). congruence. }
  eapply runs_bind; [apply Hf; [done|congruence|done]|]. intros [a s'] (Hw' & Hd' & Hx).
  apply runs_ret. simpl in *. split_and!; [|done|].
  - split; simpl; [done|]. apply Forall_insert; [done|]. split; [done|congruence].
  - intros r' x. unfold cell at 1. simpl. destruct (decide (r' = r)) as [->|Hne].
    + setoid_rewrite list_lookup_insert_eq; [|done]. rewrite <- Hsr. split.
      * intros (s'' & [= <-] & Hi). apply Hx in Hi as [?|?]; auto.
      * intros Hi. exists s'. split; [done|]. apply Hx. tauto.
    + setoid_rewrite list_lookup_insert_ne; [|done]. rewrite <- Hcell. split; [by left|by intros [?|[? _]]].
Qed.

(** ** The properties *)

(** Two intervals in a domain of ten, for the examples below. *)
Definition sample : IntervalSet := mkIntervalSet [(1, 2); (5, 6)] 10.

Lemma sample_wf : wf sample.
Proof. split; simpl; [unfold u32_max; lia|repeat constructor|repeat constructor; simpl; lia]. Qed.

Lemma range_sample_ok a b : 0 <= a <= 10 -> 0 <= b <= 10 -> range_ok (domain sample) (range a b).
Proof. unfold range_ok. simpl. lia. Qed.

(** C31: [insert_range] on a well-formed set and a range inside the domain returns (no index is
    out of bounds and no [+ 1] wraps), keeps the vector sorted, disjoint and non-adjacent, adds
    exactly the indices of the range, and its flag is true exactly when the number of elements
    grew, as its documentation says. *)
Theorem insert_range_spec (s : IntervalSet) (r : RangeBounds) :
  wf s -> range_ok (domain s) r ->
  exists grew s', insert_range s r = Ret (grew, s') /\ wf s' /\ domain s' = domain s
    /\ (forall x, x ∈ s' <-> x ∈ s \/ in_range (domain s) r x)
    /\ (grew = true <-> exists x, in_range (domain s) r x /\ ~ x ∈ s).
Proof.
  intros Hs Hr. destruct (insert_range_ok s r Hs Hr) as ([c s'] & Hi & H). exists c, s'. by split.
Qed.

Lemma insert_range_spec_witness :
  exists grew s', insert_range sample (range 2 5) = Ret (grew, s') /\ wf s' /\ domain s' = domain sample
    /\ (forall x, x ∈ s' <-> x ∈ sample \/ in_range (domain sample) (range 2 5) x)
    /\ (grew = true <-> exists x, in_range (domain sample) (range 2 5) x /\ ~ x ∈ sample).
Proof. apply (insert_range_spec sample (range 2 5) sample_wf). apply range_sample_ok; lia. Defined.

Example insert_merges : insert_range sample (range 2 5) = Ret (true, mkIntervalSet [(1, 6)] 10).
Proof. reflexivity. Qed.

(** The point and range queries answer from the set alone. [contains] is membership;
    [first_unset_in] is the least index of the range outside the set, as its documentation says,
    or [None] when the range is covered; [last_set_in] is the greatest index of the range in the set. *)
Theorem range_queries_spec (s : IntervalSet) (r : RangeBounds) (p : Z) :
  wf s -> range_ok (domain s) r -> 0 <= p <= u32_max ->
  (exists b, contains s p = Ret b /\ (b = true <-> p ∈ s)) /\
  (exists o, first_unset_in s r = Ret o /\
     match o with
     | Some x => in_range (domain s) r x /\ ~ x ∈ s
                 /\ forall y, in_range (domain s) r y -> y < x -> y ∈ s
     | None => forall y, in_range (domain s) r y -> y ∈ s
     end) /\
  (exists o, last_set_in s r = Ret o /\
     match o with
     | Some x => in_range (domain s) r x /\ x ∈ s
                 /\ forall y, in_range (domain s) r y -> x < y -> ~ y ∈ s
     | None => forall y, in_range (domain s) r y -> ~ y ∈ s
     end).
Proof.
  intros Hs Hr Hp. destruct (inclusive_bounds _ _ (wf_domain s Hs) Hr) as [H0 He].
  split; [destruct (contains_ok s p Hs Hp) as (b & ? & ?); eauto|].
  unfold first_unset_in, last_set_in. destruct (inclusive_end (domain s) r) as [e|].
  2: { split; (eexists; split; [reflexivity|]); intros y Hy; by destruct (He y). }
  destruct He as [He Hx]. set (a := inclusive_start r) in *. destruct (Z.ltb_spec e a).
  { split; (eexists; split; [reflexivity|]); intros y Hy%Hx; lia. }
  split.
  - pose proof (pred_interval s a Hs) as Hq. destruct (partition_point _ _) as [|i].
    { eexists; split; [reflexivity|]. cbv beta iota. rewrite Hx. split_and!; [lia|lia|apply Hq; lia|]. intros y ?%Hx. lia. }
    destruct Hq as (ps & pe & -> & Hv & _ & Hk & Hin & Hn & Hout). cbn [unwrap obind].
    destruct (Z.ltb_spec pe a).
    { eexists; split; [reflexivity|]. cbv beta iota. rewrite Hx. split_and!; [lia|lia|apply Hout; lia|]. intros y ?%Hx. lia. }
    destruct (Z.ltb_spec pe e); (eexists; split; [reflexivity|]).
    + cbv beta iota. rewrite Hx. split_and!; [lia|lia|done|]. intros y ?%Hx ?. apply Hin. lia.
    + intros y ?%Hx. apply Hin. lia.
  - pose proof (pred_interval s e Hs) as Hq. destruct (partition_point _ _) as [|i].
    { eexists; split; [reflexivity|]. intros y ?%Hx. apply Hq. lia. }
    destruct Hq as (ps & pe & -> & Hv & _ & Hk & Hin & Hn & Hout). cbn [unwrap obind].
    destruct (Z.leb_spec a pe); (eexists; split; [reflexivity|]).
    + cbv beta iota. rewrite Hx. split_and!; [lia|lia|apply Hin; lia|]. intros y ?%Hx ?. apply Hout. lia.
    + intros y ?%Hx. apply Hout. lia.
Qed.

Lemma range_queries_spec_witness :
  first_unset_in sample (range 1 9) = Ret (Some 3) /\ last_set_in sample (range 3 6) = Ret (Some 5) /\
  exists b, contains sample 5 = Ret b /\ (b = true <-> 5 ∈ sample).
Proof.
  split; [reflexivity|split; [reflexivity|]].
  apply (range_queries_spec sample (range 1 9) 5 sample_wf); [apply range_sample_ok; lia|].
  unfold u32_max. lia.
Defined.

(** When nothing in the set is after the inserted indices, [append] and [append_range] do not
    panic and leave the same representation, interval by interval, as [insert] and [insert_range]. *)
Theorem append_is_insert (s : IntervalSet) (p : Z) (r : RangeBounds) :
  wf s -> 0 <= p < domain s -> (forall x, x ∈ s -> x <= p) ->
  range_ok (domain s) r -> (forall x y, x ∈ s -> in_range (domain s) r y -> x <= y) ->
  (exists c s', append s p = Ret s' /\ insert s p = Ret (c, s')) /\
  (exists c s', append_range s r = Ret s' /\ insert_range s r = Ret (c, s')).
Proof. intros Hs Hp Hn Hr Hnr. split; [by apply append_insert|by apply append_range_insert]. Qed.

Lemma append_is_insert_witness :
  (exists c s', append sample 7 = Ret s' /\ insert sample 7 = Ret (c, s')) /\
  (exists c s', append_range sample (range 8 10) = Ret s' /\ insert_range sample (range 8 10) = Ret (c, s')).
Proof.
  assert (H : forall x, x ∈ sample -> x <= 6).
  { intros x (r & Hr & Hx). repeat (apply elem_of_cons in Hr as [->|Hr]; [simpl in Hx; lia|]).
    by apply elem_of_nil in Hr. }
  apply (append_is_insert sample 7 (range 8 10) sample_wf); [simpl; lia| |apply range_sample_ok; lia|].
  - intros x ?%H. lia.
  - intros x y ?%H. unfold in_range. simpl. lia.
Defined.

(** [superset] decides inclusion and [disjoint] decides disjointness of the two sets, although
    each walks the two vectors once; [iter] lists the elements in increasing order, each once. *)
Theorem set_comparisons_spec (s other : IntervalSet) :
  wf s -> wf other -> domain s = domain other ->
  (superset s other = true <-> forall x, x ∈ other -> x ∈ s) /\
  (exists d, disjoint s other = Ret d /\ (d = true <-> forall x, x ∈ s -> x ∈ other -> False)) /\
  StronglySorted Z.lt (iter s) /\ (forall x, x ∈ iter s <-> x ∈ s).
Proof.
  intros Hs Ho Hd. split; [by apply superset_ok|].
  destruct (disjoint_ok s other Hs Ho Hd) as (d & H1 & H2). split; [eauto|].
  split; [apply (iter_sorted (domain s)); apply Hs|]. intros x. apply iter_app_seq.
Qed.

Definition sample2 : IntervalSet := mkIntervalSet [(2, 2); (5, 5)] 10.

Lemma sample2_wf : wf sample2.
Proof. split; simpl; [unfold u32_max; lia|repeat constructor|repeat constructor; simpl; lia]. Qed.

Lemma set_comparisons_spec_witness :
  superset sample sample2 = true /\ disjoint sample sample2 = Ret false /\
  (superset sample sample2 = true <-> forall x, x ∈ sample2 -> x ∈ sample).
Proof.
  split; [reflexivity|split; [reflexivity|]].
  apply (set_comparisons_spec sample sample2 sample_wf sample2_wf eq_refl).
Defined.

(** [union] of two well-formed sets over one domain returns, keeps the invariant and computes
    exactly the union. Its flag says whether elements were added to the set with more intervals:
    whether [other] has an element [self] lacks when no swap happens, and the converse when
    [self] has fewer intervals and the vectors are swapped first. *)
Theorem union_spec (s other : IntervalSet) :
  wf s -> wf other -> domain s = domain other ->
  exists flag s', union s other = Ret (flag, s') /\ wf s' /\ domain s' = domain s
    /\ (forall x, x ∈ s' <-> x ∈ s \/ x ∈ other)
    /\ (flag = true <-> if (length (map s) <? length (map other))%nat
                        then some_missing s other else some_missing other s).
Proof.
  intros Hs Ho Hd. destruct (union_ok s other Hs Ho Hd) as ([c s'] & Hu & H). exists c, s'. by split.
Qed.

Lemma union_spec_witness :
  exists flag s', union sample sample2 = Ret (flag, s') /\ wf s' /\ domain s' = domain sample
    /\ (forall x, x ∈ s' <-> x ∈ sample \/ x ∈ sample2)
    /\ (flag = true <-> if (length (map sample) <? length (map sample2))%nat
                        then some_missing sample sample2 else some_missing sample2 sample).
Proof. apply (union_spec sample sample2 sample_wf sample2_wf eq_refl). Defined.

(** The flag of [union] does not say that the set grew. Joining any non-empty well-formed
    set into the empty set returns [false] although every element is new, and so does the
    [union_rows] of a matrix whose target row is missing. *)
Theorem union_flag_misses_growth (other : IntervalSet) (x : Z) :
  wf other -> x ∈ other ->
  ~ x ∈ new (domain other) /\ union (new (domain other)) other = Ret (false, other) /\
  exists m', union_rows (mkMatrix [other] (domain other)) 0 1 = Ret (false, m')
             /\ rows m' !! 1%nat = Some other.
Proof.
  intros Ho Hx. pose proof Ho as Ho2. destruct Ho2 as [Hd HS HV].
  assert (Hn : wf (new (domain other))) by (split; simpl; [done|constructor|constructor]).
  assert (Hlen : (0 <? length (map other))%nat = true).
  { destruct Hx as (r & Hr & _). by destruct (map other); [apply elem_of_nil in Hr|]. }
  assert (Hu : union (new (domain other)) other = Ret (false, other)).
  { destruct (union_ok _ other Hn Ho eq_refl) as ([c s'] & Hu & Hw & Hd' & Hm & Hc).
    rewrite Hu. simpl in *. rewrite Hlen in Hc. repeat f_equal.
    - destruct c; [|done]. destruct (proj1 Hc eq_refl) as (i & Hi & _). by apply in_map_nil in Hi.
    - apply same_set; auto. intros y. rewrite Hm. split; [|by right].
      intros [Hy|?]; [by apply in_map_nil in Hy|done]. }
  split; [apply in_map_nil|]. split; [done|].
  unfold union_rows, on_row, ensure_row. cbn -[union new]. rewrite Hu. cbn. eexists. split; [reflexivity|]. done.
Qed.

Lemma union_flag_misses_growth_witness :
  2 ∈ sample2 /\ union (new 10) sample2 = Ret (false, sample2).
Proof.
  assert (H : 2 ∈ sample2) by (exists (2, 2); split; [left|simpl; lia]).
  split; [exact H|]. apply (union_flag_misses_growth sample2 2 sample2_wf H).
Defined.

(** [check_invariants], the function every [debug_assert!] of the file evaluates, decides the
    invariant the theorems above preserve, for vectors of [u32]s below the maximum. *)
Theorem check_invariants_decides (s : IntervalSet) :
  0 <= domain s <= u32_max -> Forall (fun r => 0 <= r.1 /\ 0 <= r.2 < u32_max) (map s) ->
  check_invariants s = true <-> wf s.
Proof. apply check_invariants_ok. Qed.

Lemma check_invariants_decides_witness :
  check_invariants (mkIntervalSet [(1, 2); (3, 4)] 10) = false /\
  (check_invariants (mkIntervalSet [(1, 2); (3, 4)] 10) = true <-> wf (mkIntervalSet [(1, 2); (3, 4)] 10)).
Proof.
  split; [reflexivity|]. apply check_invariants_decides; simpl.
  - unfold u32_max. lia.
  - repeat constructor; simpl; unfold u32_max; lia.
Defined.

(** The operations of the sparse matrix change exactly the row they name: [union_rows] adds the
    elements of the row it reads, [insert_range] those of the range and [insert_all_into_row] every
    column, rows that did not exist count as empty, all other rows keep their elements, and
    [contains] reads the cell. *)
Theorem matrix_rows_spec (m : SparseIntervalMatrix) (r read : nat) (b : RangeBounds) (p : Z) :
  matrix_wf m -> range_ok (column_size m) b -> 0 <= p <= u32_max ->
  runs (union_rows m read r) (fun q => matrix_wf q.2 /\
    forall r' x, cell q.2 r' x <-> cell m r' x \/ (r' = r /\ cell m read x)) /\
  runs (matrix_insert_range m r b) (fun q => matrix_wf q.2 /\
    forall r' x, cell q.2 r' x <-> cell m r' x \/ (r' = r /\ in_range (column_size m) b x)) /\
  runs (insert_all_into_row m r) (fun q => matrix_wf q.2 /\
    forall r' x, cell q.2 r' x <-> cell m r' x \/ (r' = r /\ 0 <= x < column_size m)) /\
  runs (matrix_contains m r p) (fun c => c = true <-> cell m r p).
Proof.
  intros Hm Hb Hp. split_and!.
  - unfold union_rows. destruct (Nat.eqb_spec read r) as [->|Hne].
    { apply runs_ret. simpl. split; [done|]. intros r' x. split; [by left|intros [?|[-> ?]]; done]. }
    destruct (rows m !! read) as [s0|] eqn:E0.
    2: { apply runs_ret. simpl. split; [done|]. intros r' x. split; [by left|].
         intros [?|[-> (s & Hs & _)]]; [done|congruence]. }
    destruct (ensure_row_spec m r Hm) as (Hm' & Hc & _ & Hcell).
    assert (E1 : rows (ensure_row m r) !! read = Some s0) by by apply lookup_app_l_Some.
    rewrite E1. cbn [unwrap obind]. destruct (Forall_lookup_1 _ _ _ _ (mwf_rows _ Hm) E0) as [Hw Hd].
    eapply runs_mono; [apply (on_row_spec _ r _ (fun x => x ∈ s0) Hm')|].
    + intros s Hs Hds _. eapply runs_mono; [apply union_ok; auto; congruence|].
      intros [c s'] (? & ? & ? & _). done.
    + intros [c m'] (? & _ & Hcm). split; [done|]. intros r' x. rewrite Hcm, Hcell. unfold cell at 3.
      rewrite E0. split; (intros [?|[-> Hx]]; [by left|right]); [eauto|].
      destruct Hx as (s & [= <-] & Hx). done.
  - eapply runs_mono; [apply (on_row_spec _ r _ (in_range (column_size m) b) Hm)|].
    + intros s Hs Hds _. rewrite <- Hds in *. eapply runs_bind; [by apply insert_range_ok|].
      intros [c s'] (? & ? & ? & _). by apply runs_ret.
    + intros [c m'] (? & _ & Hcm). done.
  - eapply runs_mono; [apply (on_row_spec _ r _ (fun x => 0 <= x < column_size m) Hm)|].
    + intros s Hs Hds _. eapply runs_bind; [by apply insert_all_ok|].
      intros s' (Hw & Hd & Hx). apply runs_ret. simpl. split_and!; auto. intros x. rewrite Hx, Hds.
      split; [by right|]. intros [(i & Hi & Hix)|?]; [|done].
      destruct (Forall_at _ _ _ (wf_valid s Hs) Hi) as [V1 V2]. lia.
    + intros [c m'] (? & _ & Hcm). done.
  - unfold matrix_contains, row, cell. destruct (rows m !! r) as [s|] eqn:E.
    + destruct (Forall_lookup_1 _ _ _ _ (mwf_rows _ Hm) E) as [Hw _].
      eapply runs_mono; [by apply contains_ok|]. intros c ->. split; [eauto|]. by intros (s' & [= <-] & ?).
    + apply runs_ret. split; [done|]. by intros (s & ? & _).
Qed.

Definition sample_matrix : SparseIntervalMatrix := mkMatrix [sample; new 10] 10.

Lemma matrix_rows_spec_witness :
  runs (union_rows sample_matrix 0 3) (fun q => matrix_wf q.2 /\
    forall r' x, cell q.2 r' x <-> cell sample_matrix r' x \/ (r' = 3%nat /\ cell sample_matrix 0 x)).
Proof.
  apply (matrix_rows_spec sample_matrix 3 0 (range 0 0) 0).
  - split; simpl; [unfold u32_max; lia|]. repeat constructor; try apply sample_wf; simpl; unfold u32_max; lia.
  - unfold range_ok. simpl. lia.
  - unfold u32_max. lia.
Defined.
