(* ===== verification/SortedMap.v ===== *)
(** * Sorted maps ([src/rustc_data_structures/sorted_map.rs], [sorted_map/index_map.rs])

    [SortedMap], a vector of pairs sorted by key, and [SortedIndexMultiMap], an
    insertion-ordered vector with a second vector of indices sorted by key.  Keys are of
    any type with Rust's [Ord] ([RustSlice.v]). *)
From Stdlib Require Import ZArith Lia Sorted.
From stdpp Require Import base numbers list.
From S2P Require Import Prelude RustSlice.
#[local] Open Scope nat_scope.
Open Scope rust_scope.

Inductive Bound (K : Type) := Included (k : K) | Excluded (k : K) | Unbounded.
Arguments Included {K} k.
Arguments Excluded {K} k.
Arguments Unbounded {K}.
Record RangeBounds (K : Type) := mkRange { start_bound : Bound K; end_bound : Bound K }.
Arguments mkRange {K} _ _.
Arguments start_bound {K} _.
Arguments end_bound {K} _.

(** [Vec::remove], [Vec::splice(i..i, xs)] and [&v[a..b]]. *)
Definition vec_remove {A} (i : nat) (l : list A) : list A := take i l ++ drop (S i) l.
Definition vec_splice {A} (a b : nat) (xs l : list A) : outcome (list A) :=
  if (a <=? b) && (b <=? length l) then Ret (take a l ++ xs ++ drop b l) else Panic.

Section Ops.
Context {K V : Type} `{Ord K}.

Record SortedMap := mkSortedMap { data : list (K * V) }.

Definition new : SortedMap := mkSortedMap [].

Definition from_presorted_elements (elements : list (K * V)) : SortedMap := mkSortedMap elements.

Definition lookup_index_for (m : SortedMap) (key : K) : nat + nat :=
  binary_search_by (fun e => cmp e.1 key) (data m).

Definition insert (m : SortedMap) (key : K) (value : V) : outcome (option V * SortedMap) :=
  match lookup_index_for m key with
  | inl index =>
      let* slot := unwrap (data m !! index) in
      Ret (Some slot.2, mkSortedMap (<[index := (slot.1, value)]> (data m)))
  | inr index => Ret (None, mkSortedMap (vec_insert index (key, value) (data m)))
  end.

Definition remove (m : SortedMap) (key : K) : outcome (option V * SortedMap) :=
  match lookup_index_for m key with
  | inl index =>
      let* slot := unwrap (data m !! index) in
      Ret (Some slot.2, mkSortedMap (vec_remove index (data m)))
  | inr _ => Ret (None, m)
  end.

Definition get (m : SortedMap) (key : K) : outcome (option V) :=
  match lookup_index_for m key with
  | inl index => let* slot := unwrap (data m !! index) in Ret (Some slot.2)
  | inr _ => Ret None
  end.

(** A [&mut V] is the value and what writing through it does to the map. *)
Definition slot_mut (m : SortedMap) (index : nat) : outcome (V * (V -> SortedMap)) :=
  let* slot := unwrap (data m !! index) in
  Ret (slot.2, fun v => mkSortedMap (<[index := (slot.1, v)]> (data m))).

Definition get_mut (m : SortedMap) (key : K) : outcome (option (V * (V -> SortedMap))) :=
  match lookup_index_for m key with
  | inl index => let* r := slot_mut m index in Ret (Some r)
  | inr _ => Ret None
  end.

Definition get_mut_or_insert_default (default : V) (m : SortedMap) (key : K)
    : outcome (V * (V -> SortedMap)) :=
  let '(index, m) :=
    match lookup_index_for m key with
    | inl index => (index, m)
    | inr index => (index, mkSortedMap (vec_insert index (key, default) (data m)))
    end in
  slot_mut m index.

Definition clear (m : SortedMap) : SortedMap := mkSortedMap [].
Definition iter (m : SortedMap) : list (K * V) := data m.
Definition keys (m : SortedMap) : list K := (data m).*1.
Definition values (m : SortedMap) : list V := (data m).*2.
Definition len (m : SortedMap) : nat := length (data m).
Definition is_empty (m : SortedMap) : bool := len m =? 0.

Definition range_slice_indices (m : SortedMap) (r : RangeBounds K) : nat * nat :=
  let start :=
    match start_bound r with
    | Included k => match lookup_index_for m k with inl index | inr index => index end
    | Excluded k => match lookup_index_for m k with inl index => index + 1 | inr index => index end
    | Unbounded => 0
    end in
  let e :=
    match end_bound r with
    | Included k => match lookup_index_for m k with inl index => index + 1 | inr index => index end
    | Excluded k => match lookup_index_for m k with inl index | inr index => index end
    | Unbounded => length (data m)
    end in
  (start, e).

(** [&self.data[start..end]] panics when [start > end] or [end > len]. *)
Definition range (m : SortedMap) (r : RangeBounds K) : outcome (list (K * V)) :=
  let '(start, e) := range_slice_indices m r in unwrap (get_range (data m) start e).

Definition range_cmp (r : RangeBounds K) (x : K) : comparison :=
  if match start_bound r with
     | Included start => lt_b x start
     | Excluded start => le_b x start
     | Unbounded => false
     end then Lt
  else if match end_bound r with
          | Included e => lt_b e x
          | Excluded e => le_b e x
          | Unbounded => false
          end then Gt
  else Eq.

Definition range_is_empty (m : SortedMap) (r : RangeBounds K) : bool :=
  match binary_search_by (fun e => range_cmp r e.1) (data m) with inl _ => false | inr _ => true end.

Definition remove_range (m : SortedMap) (r : RangeBounds K) : outcome SortedMap :=
  let '(start, e) := range_slice_indices m r in
  let* d := vec_splice start e [] (data m) in
  Ret (mkSortedMap d).

Definition offset_keys (f : K -> K) (m : SortedMap) : SortedMap :=
  mkSortedMap ((fun e => (f e.1, e.2)) <$> data m).

(** [for (k, v) in elements { self.insert(k, v); }] *)
Fixpoint insert_each (m : SortedMap) (elements : list (K * V)) : outcome SortedMap :=
  match elements with
  | [] => Ret m
  | (k, v) :: elements => let* '(_, m) := insert m k v in insert_each m elements
  end.

Definition insert_presorted (m : SortedMap) (elements : list (K * V)) : outcome SortedMap :=
  match elements with
  | [] => Ret m
  | first :: elements =>
      match lookup_index_for m first.1 with
      | inl index =>
          if index <? length (data m) then
            insert_each (mkSortedMap (<[index := first]> (data m))) elements
          else Panic
      | inr index =>
          (* [next_back] takes the last element off the iterator *)
          let lst := last elements in
          let* whole :=
            if index =? length (data m) then Ret true
            else match lst with
                 | None => Ret true
                 | Some l => let* e := unwrap (data m !! index) in Ret (lt_b l.1 e.1)
                 end in
          if whole then
            let* d := vec_splice index index (first :: elements) (data m) in Ret (mkSortedMap d)
          else insert_each (mkSortedMap (vec_insert index first (data m))) elements
      end
  end.

Definition contains_key (m : SortedMap) (key : K) : outcome bool :=
  let* o := get m key in Ret (match o with Some _ => true | None => false end).

Definition index (m : SortedMap) (key : K) : outcome V :=
  let* o := get m key in unwrap o.

(** [dedup_by]: drop an element whose key equals the key of the last one kept. *)
Fixpoint dedup_from (kept : K * V) (l : list (K * V)) : list (K * V) :=
  match l with
  | [] => [kept]
  | e :: l => if eq_b e.1 kept.1 then dedup_from kept l else kept :: dedup_from e l
  end.

Definition dedup_by_key (l : list (K * V)) : list (K * V) :=
  match l with [] => [] | e :: l => dedup_from e l end.

(** [from_iter]: the order [sort_unstable_by] leaves equal keys in is not specified, so the
    sorting function is an argument. *)
Definition from_iter (sort_unstable : list (K * V) -> list (K * V)) (l : list (K * V)) : SortedMap :=
  mkSortedMap (dedup_by_key (sort_unstable l)).
End Ops.
Arguments SortedMap : clear implicits.

(** ** [SortedIndexMultiMap] *)

(** [slice::sort_by_key] is stable, which determines its result: insertion after every
    element whose key is not greater. *)
Fixpoint sort_insert {A} (le : A -> A -> bool) (x : A) (l : list A) : list A :=
  match l with
  | [] => [x]
  | y :: l' => if le x y then x :: l else y :: sort_insert le x l'
  end.

Definition stable_sort {A} (le : A -> A -> bool) (l : list A) : list A := foldr (sort_insert le) [] l.

Section MultiMap.
Context {K V : Type} `{Ord K}.

Record SortedIndexMultiMap := mkMultiMap {
  items : list (K * V);
  idx_sorted_by_item_key : list nat;
}.

(** The key of an item; every stored index is in range. *)
Definition key_le (its : list (K * V)) (i j : nat) : bool :=
  match its !! i, its !! j with
  | Some (k1, _), Some (k2, _) => le_b k1 k2
  | _, _ => false
  end.

Definition multi_new : SortedIndexMultiMap := mkMultiMap [] [].
Definition multi_len (m : SortedIndexMultiMap) : nat := length (items m).
Definition multi_is_empty (m : SortedIndexMultiMap) : bool := multi_len m =? 0.
Definition multi_iter (m : SortedIndexMultiMap) : list (K * V) := items m.
Definition multi_iter_enumerated (m : SortedIndexMultiMap) : list (nat * (K * V)) :=
  zip (seq 0 (length (items m))) (items m).
Definition multi_get (m : SortedIndexMultiMap) (idx : nat) : option (K * V) := items m !! idx.
Definition multi_index (m : SortedIndexMultiMap) (idx : nat) : outcome V :=
  let* e := unwrap (items m !! idx) in Ret e.2.

Definition multi_from_iter (l : list (K * V)) : SortedIndexMultiMap :=
  mkMultiMap l (stable_sort (key_le l) (seq 0 (length l))).

(** [map_while]: items while the key matches; [self.items[i]] panics out of range. *)
Fixpoint while_key (its : list (K * V)) (key : K) (idxs : list nat) : outcome (list (nat * V)) :=
  match idxs with
  | [] => Ret []
  | i :: idxs =>
      let* '(k, v) := unwrap (its !! i) in
      if eq_b k key then let* rest := while_key its key idxs in Ret ((i, v) :: rest) else Ret []
  end.

Definition get_by_key_enumerated (m : SortedIndexMultiMap) (key : K) : outcome (list (nat * V)) :=
  let lower_bound :=
    partition_point (fun i => match items m !! i with Some (k, _) => lt_b k key | None => false end)
      (idx_sorted_by_item_key m) in
  while_key (items m) key (drop lower_bound (idx_sorted_by_item_key m)).

Definition get_by_key (m : SortedIndexMultiMap) (key : K) : outcome (list V) :=
  let* l := get_by_key_enumerated m key in Ret l.*2.

Definition multi_contains_key (m : SortedIndexMultiMap) (key : K) : outcome bool :=
  let* l := get_by_key m key in Ret (match l with [] => false | _ => true end).
End MultiMap.
Arguments SortedIndexMultiMap : clear implicits.
