(* ===== verification/SortedMapTheorems.v ===== *)
(** * Sorted maps: the laws of the operations

    Everything follows from what one binary search finds in a sorted vector
    ([lookup_split]) and from the vector being determined by its lookups ([same_lookups]). *)
From Stdlib Require Import ZArith Lia Sorted Permutation.
From stdpp Require Import base numbers list.
From S2P Require Import Prelude RustSlice SortedMap.
#[local] Open Scope nat_scope.
Open Scope rust_scope.

Section Laws.
Context {K V : Type} `{Ord K}.
Implicit Types (m : SortedMap K V) (k : K) (v : V) (l : list (K * V)).

Definition key_lt (e1 e2 : K * V) : Prop := cmp e1.1 e2.1 = Lt.

(** The invariant: strictly increasing keys. *)
Definition wf m : Prop := StronglySorted key_lt (data m).

(** The map a vector stands for. *)
Fixpoint assoc (k : K) l : option V :=
  match l with [] => None | (k', v) :: l => if eq_b k' k then Some v else assoc k l end.

Definition below k (e : K * V) : Prop := cmp e.1 k = Lt.
Definition above k (e : K * V) : Prop := cmp k e.1 = Lt.

Lemma sorted_ordered k l : StronglySorted key_lt l -> ordered (fun e => cmp e.1 k) l.
Proof.
  induction 1 as [|e l _ IH Hall]; intros i j x y Hij Hx Hy; [by rewrite lookup_nil in Hx|].
  destruct j as [|j]; [lia|]. simpl in Hy. destruct i as [|i]; simpl in Hx; [|apply (IH i j); auto; lia].
  injection Hx as <-. rewrite Forall_lookup in Hall. specialize (Hall j y Hy). unfold key_lt in Hall.
  destruct (cmp e.1 k) eqn:E1; simpl; [|lia|].
  - apply cmp_eq in E1. subst k. apply cmp_gt_lt in Hall. rewrite Hall. simpl. lia.
  - apply cmp_gt_lt in E1. pose proof (cmp_trans _ _ _ E1 Hall) as Ht. apply cmp_gt_lt in Ht. rewrite Ht. simpl. lia.
Qed.

(** What the binary search finds. *)
Lemma lookup_split m k : wf m ->
  exists L R, Forall (below k) L /\ Forall (above k) R /\
    match lookup_index_for m k with
    | inl i => i = length L /\ exists v, data m = L ++ (k, v) :: R
    | inr i => i = length L /\ data m = L ++ R
    end.
Proof.
  intros Hw. unfold lookup_index_for.
  pose proof (binary_search_by_spec _ _ (sorted_ordered k _ Hw)) as Hb. cbv beta in Hb.
  destruct (binary_search_by _ _) as [i|i].
  - destruct Hb as ([k' v] & Hi & Hk). simpl in Hk. apply cmp_eq in Hk as ->.
    exists (take i (data m)), (drop (S i) (data m)).
    pose proof (take_drop_middle _ _ _ Hi) as Hd. unfold wf in Hw. rewrite <- Hd in Hw.
    apply StronglySorted_app_iff in Hw as (_ & HR & HL). apply StronglySorted_inv in HR as [_ HR].
    split_and!.
    + eapply Forall_impl; [exact HL|]. intros e He. by apply Forall_inv in He.
    + exact HR.
    + apply lookup_lt_Some in Hi. rewrite length_take. lia.
    + by exists v.
  - destruct Hb as (Hi & HL & HR). exists (take i (data m)), (drop i (data m)). split_and!.
    + apply Forall_lookup. intros j e He. assert (j < i).
      { apply lookup_lt_Some in He. rewrite length_take in He. lia. }
      rewrite lookup_take_lt in He by done. by apply (HL j e).
    + apply Forall_lookup. intros j e He. rewrite lookup_drop in He.
      apply cmp_gt_lt. apply (HR (i + j) e); [lia|done].
    + rewrite length_take. lia.
    + by rewrite take_drop.
Qed.

Lemma assoc_app k l1 l2 : assoc k (l1 ++ l2) = match assoc k l1 with Some v => Some v | None => assoc k l2 end.
Proof. induction l1 as [|[k' v] l1 IH]; simpl; [done|]. by destruct (eq_b k' k). Qed.

Lemma assoc_below k l : Forall (below k) l -> assoc k l = None.
Proof.
  induction 1 as [|[k' v] l Hk _ IH]; simpl; [done|]. unfold below in Hk. simpl in Hk.
  unfold eq_b. by rewrite Hk.
Qed.

Lemma assoc_above k l : Forall (above k) l -> assoc k l = None.
Proof.
  induction 1 as [|[k' v] l Hk _ IH]; simpl; [done|]. unfold above in Hk. simpl in Hk.
  unfold eq_b. apply cmp_gt_lt in Hk. by rewrite Hk.
Qed.

Lemma assoc_middle k k' v L R : Forall (below k) L ->
  assoc k' (L ++ (k, v) :: R) = if decide (k' = k) then Some v else assoc k' (L ++ R).
Proof.
  intros HL. rewrite !assoc_app. simpl. destruct (decide (k' = k)) as [->|Hne].
  - rewrite assoc_below by done. by rewrite (proj2 (eq_b_true k k) eq_refl).
  - destruct (eq_b k k') eqn:E; [|done]. by apply eq_b_true in E.
Qed.

(** A sorted vector is determined by its lookups. *)
Lemma assoc_elem l k v : StronglySorted key_lt l -> (k, v) ∈ l <-> assoc k l = Some v.
Proof.
  induction 1 as [|[k' v'] l _ IH Hall]; simpl.
  - rewrite elem_of_nil. done.
  - rewrite elem_of_cons, IH. destruct (eq_b k' k) eqn:E.
    + apply eq_b_true in E as ->. rewrite assoc_above by done. split; [intros [[= ->]|?]; done|].
      intros [= ->]. by left.
    + split; [intros [[= -> ->]|?]; [|done]|by right].
      by rewrite (proj2 (eq_b_true k' k') eq_refl) in E.
Qed.

Lemma same_lookups l1 l2 : StronglySorted key_lt l1 -> StronglySorted key_lt l2 ->
  (forall k, assoc k l1 = assoc k l2) -> l1 = l2.
Proof.
  intros S1. revert l2. induction S1 as [|[k1 v1] l1 S1 IH H1]; intros l2 S2 Heq.
  - destruct l2 as [|[k v] l2]; [done|]. specialize (Heq k). simpl in Heq.
    by rewrite (proj2 (eq_b_true k k) eq_refl) in Heq.
  - destruct S2 as [|[k2 v2] l2 S2 H2].
    { specialize (Heq k1). simpl in Heq. by rewrite (proj2 (eq_b_true k1 k1) eq_refl) in Heq. }
    assert (k1 = k2) as ->.
    { pose proof (Heq k1) as E1. pose proof (Heq k2) as E2. simpl in E1, E2.
      rewrite (proj2 (eq_b_true k1 k1) eq_refl) in E1. rewrite (proj2 (eq_b_true k2 k2) eq_refl) in E2.
      destruct (cmp k1 k2) eqn:C; [by apply cmp_eq| |]; exfalso.
      - unfold eq_b in E1. rewrite (proj2 (cmp_gt_lt k2 k1) C) in E1. symmetry in E1.
        apply assoc_elem in E1; [|done]. rewrite Forall_forall in H2. apply H2 in E1.
        unfold key_lt in E1. simpl in E1. by apply (cmp_lt_asym k1 k2).
      - unfold eq_b in E2. rewrite C in E2. apply assoc_elem in E2; [|done].
        rewrite Forall_forall in H1. apply H1 in E2. unfold key_lt in E2. simpl in E2.
        apply cmp_gt_lt in C. by apply (cmp_lt_asym k1 k2). }
    assert (v1 = v2) as ->.
    { specialize (Heq k2). simpl in Heq. rewrite (proj2 (eq_b_true k2 k2) eq_refl) in Heq. congruence. }
    f_equal. apply IH; [done|]. intros k. specialize (Heq k). simpl in Heq.
    destruct (eq_b k2 k) eqn:E; [|done]. apply eq_b_true in E as ->. by rewrite !assoc_above.
Qed.
Lemma sorted_middle k v L R : Forall (below k) L -> Forall (above k) R ->
  StronglySorted key_lt (L ++ R) -> StronglySorted key_lt (L ++ (k, v) :: R).
Proof.
  intros HL HR (SL & SR & SLR)%StronglySorted_app_iff. apply StronglySorted_app_iff. split_and!; auto.
  - by constructor.
  - rewrite Forall_forall in *. intros e He. constructor; [by apply HL|by apply SLR].
Qed.

Lemma sorted_remove e L R : StronglySorted key_lt (L ++ e :: R) -> StronglySorted key_lt (L ++ R).
Proof.
  intros (SL & SR & SLR)%StronglySorted_app_iff. apply StronglySorted_inv in SR as [SR _].
  apply StronglySorted_app_iff. split_and!; auto. eapply Forall_impl; [exact SLR|].
  intros x Hx. by inversion Hx.
Qed.

Lemma sorted_replace k v v' L R :
  StronglySorted key_lt (L ++ (k, v) :: R) -> StronglySorted key_lt (L ++ (k, v') :: R).
Proof.
  intros HS. pose proof HS as (SL & SR & SLR)%StronglySorted_app_iff.
  apply StronglySorted_inv in SR as [_ SR]. apply sorted_middle.
  - eapply Forall_impl; [exact SLR|]. intros x Hx. by apply Forall_inv in Hx.
  - exact SR.
  - by eapply sorted_remove.
Qed.

Lemma lookup_middle {A} (L R : list A) e : (L ++ e :: R) !! length L = Some e.
Proof. rewrite lookup_app_r, Nat.sub_diag by lia. done. Qed.

Lemma insert_middle {A} (L R : list A) e e' : <[length L := e']> (L ++ e :: R) = L ++ e' :: R.
Proof. by rewrite insert_app_r_alt, Nat.sub_diag by done. Qed.

Lemma remove_middle {A} (L R : list A) e : vec_remove (length L) (L ++ e :: R) = L ++ R.
Proof.
  unfold vec_remove. rewrite take_app_length. f_equal.
  rewrite drop_app_ge by lia. by replace (S (length L) - length L) with 1 by lia.
Qed.

Lemma get_assoc m k : wf m -> get m k = Ret (assoc k (data m)).
Proof.
  intros Hw. destruct (lookup_split m k Hw) as (L & R & HL & HR & HX). unfold get.
  destruct (lookup_index_for m k) as [i|i].
  - destruct HX as (-> & v & ->). rewrite lookup_middle. simpl. f_equal.
    rewrite assoc_middle by done. by rewrite decide_True.
  - destruct HX as (_ & ->). by rewrite assoc_app, assoc_below, assoc_above.
Qed.

Lemma insert_ok m k v : wf m -> exists m',
  insert m k v = Ret (assoc k (data m), m') /\ wf m' /\
  forall k', assoc k' (data m') = if decide (k' = k) then Some v else assoc k' (data m).
Proof.
  intros Hw. destruct (lookup_split m k Hw) as (L & R & HL & HR & HX). unfold insert, wf in *.
  destruct (lookup_index_for m k) as [i|i].
  - destruct HX as (-> & v0 & Hd). rewrite Hd in *. rewrite lookup_middle. simpl.
    rewrite insert_middle. exists (mkSortedMap (L ++ (k, v) :: R)). split_and!.
    + by rewrite assoc_middle, decide_True.
    + by eapply sorted_replace.
    + intros k'. simpl. rewrite !assoc_middle by done. by destruct (decide (k' = k)).
  - destruct HX as (-> & Hd). rewrite Hd in *. rewrite vec_insert_app.
    exists (mkSortedMap (L ++ (k, v) :: R)). split_and!.
    + by rewrite assoc_app, assoc_below, assoc_above.
    + by apply sorted_middle.
    + intros k'. simpl. by rewrite assoc_middle.
Qed.

Lemma remove_ok m k : wf m -> exists m',
  remove m k = Ret (assoc k (data m), m') /\ wf m' /\
  forall k', assoc k' (data m') = if decide (k' = k) then None else assoc k' (data m).
Proof.
  intros Hw. destruct (lookup_split m k Hw) as (L & R & HL & HR & HX). unfold remove, wf in *.
  destruct (lookup_index_for m k) as [i|i].
  - destruct HX as (-> & v0 & Hd). rewrite Hd in *. rewrite lookup_middle. simpl.
    rewrite remove_middle. exists (mkSortedMap (L ++ R)). split_and!.
    + by rewrite assoc_middle, decide_True.
    + by eapply sorted_remove.
    + intros k'. simpl. rewrite assoc_middle by done. destruct (decide (k' = k)) as [->|]; [|done].
      by rewrite assoc_app, assoc_below, assoc_above.
  - destruct HX as (-> & Hd). exists m. rewrite Hd in *.
    assert (Hn : assoc k (L ++ R) = None) by by rewrite assoc_app, assoc_below, assoc_above.
    split_and!; [by rewrite Hn|done|]. intros k'. by destruct (decide (k' = k)) as [->|].
Qed.

(** *** Ranges *)

Definition below_start (r : RangeBounds K) (x : K) : bool :=
  match start_bound r with
  | Included a => lt_b x a | Excluded a => le_b x a | Unbounded => false
  end.
Definition above_end (r : RangeBounds K) (x : K) : bool :=
  match end_bound r with
  | Included b => lt_b b x | Excluded b => le_b b x | Unbounded => false
  end.
Definition in_bounds (r : RangeBounds K) (e : K * V) : bool :=
  negb (below_start r e.1) && negb (above_end r e.1).

(** Some key lies before the start and after the end: the bounds are crossed over it. *)
Definition crossed (r : RangeBounds K) l : bool :=
  existsb (fun e => below_start r e.1 && above_end r e.1) l.

Lemma lt_le_trans (a b c : K) : cmp a b = Lt -> le_b b c = true -> lt_b a c = true.
Proof.
  unfold le_b. intros H1 H2. apply lt_b_true. destruct (cmp b c) eqn:E; [|by apply cmp_trans with b|done].
  by apply cmp_eq in E as ->.
Qed.

Lemma lt_b_below k e : below k e -> lt_b e.1 k = true /\ le_b e.1 k = true /\ lt_b k e.1 = false /\ le_b k e.1 = false.
Proof.
  unfold below, lt_b, le_b. intros Hk. rewrite (cmp_antisym e.1 k), Hk. done.
Qed.

Lemma lt_b_above k e : above k e -> lt_b e.1 k = false /\ le_b e.1 k = false /\ lt_b k e.1 = true /\ le_b k e.1 = true.
Proof. unfold above, lt_b, le_b. intros Hk. rewrite (cmp_antisym k e.1), Hk. done. Qed.

Lemma lt_b_refl k : lt_b k k = false /\ le_b k k = true.
Proof. unfold lt_b, le_b. by rewrite cmp_refl. Qed.

(** A split of the vector at one of the two indices of a range. *)
Definition splits (p : K -> bool) (i : nat) l : Prop :=
  exists L R, l = L ++ R /\ length L = i /\ Forall (fun e => p e.1 = true) L /\ Forall (fun e => p e.1 = false) R.

Lemma splits_lookup m k (p : K -> bool) : wf m ->
  (forall e, below k e -> p e.1 = true) -> (forall e, above k e -> p e.1 = false) ->
  match lookup_index_for m k with
  | inl i => splits p (if p k then i + 1 else i) (data m)
  | inr i => splits p i (data m)
  end.
Proof.
  intros Hw Hb Ha. destruct (lookup_split m k Hw) as (L & R & HL & HR & HX).
  assert (HL' : Forall (fun e => p e.1 = true) L) by (eapply Forall_impl; eauto).
  assert (HR' : Forall (fun e => p e.1 = false) R) by (eapply Forall_impl; eauto).
  destruct (lookup_index_for m k) as [i|i].
  - destruct HX as (-> & v & ->). destruct (p k) eqn:E.
    + exists (L ++ [(k, v)]), R. rewrite <- app_assoc, length_app. split_and!; auto.
      apply Forall_app. split; [done|]. by repeat constructor.
    + exists L, ((k, v) :: R). split_and!; auto.
  - destruct HX as (-> & ->). exists L, R. auto.
Qed.

Lemma range_indices m r : wf m ->
  splits (below_start r) (range_slice_indices m r).1 (data m) /\
  splits (fun x => negb (above_end r x)) (range_slice_indices m r).2 (data m).
Proof.
  intros Hw. unfold range_slice_indices, below_start, above_end. simpl. split.
  - destruct (start_bound r) as [k|k|].
    + pose proof (splits_lookup m k (fun x => lt_b x k) Hw (fun e He => proj1 (lt_b_below k e He))
        (fun e He => proj1 (lt_b_above k e He))) as HS. cbv beta in HS. rewrite (proj1 (lt_b_refl k)) in HS.
      by destruct (lookup_index_for m k).
    + pose proof (splits_lookup m k (fun x => le_b x k) Hw (fun e He => proj1 (proj2 (lt_b_below k e He)))
        (fun e He => proj1 (proj2 (lt_b_above k e He)))) as HS. cbv beta in HS. rewrite (proj2 (lt_b_refl k)) in HS.
      by destruct (lookup_index_for m k).
    + exists [], (data m). split_and!; auto. by apply Forall_true.
  - destruct (end_bound r) as [k|k|].
    + pose proof (splits_lookup m k (fun x => negb (lt_b k x)) Hw) as HS. cbv beta in HS.
      rewrite (proj1 (lt_b_refl k)) in HS. simpl in HS.
      destruct (lookup_index_for m k); apply HS.
      all: intros e He; try (apply lt_b_below in He as (_ & _ & -> & _); done);
        apply lt_b_above in He as (_ & _ & -> & _); done.
    + pose proof (splits_lookup m k (fun x => negb (le_b k x)) Hw) as HS. cbv beta in HS.
      rewrite (proj2 (lt_b_refl k)) in HS. simpl in HS.
      destruct (lookup_index_for m k); apply HS.
      all: intros e He; try (apply lt_b_below in He as (_ & _ & _ & ->); done);
        apply lt_b_above in He as (_ & _ & _ & ->); done.
    + exists (data m), []. rewrite app_nil_r. split_and!; auto. by apply Forall_true.
Qed.

Lemma crossed_false r l :
  crossed r l = false <-> Forall (fun e => below_start r e.1 && above_end r e.1 = false) l.
Proof.
  unfold crossed. induction l as [|e l IH]; simpl; [split; constructor|].
  rewrite orb_false_iff, IH, Forall_cons. done.
Qed.

Lemma app_nested {A} (L1 R1 L2 R2 : list A) : L1 ++ R1 = L2 ++ R2 -> length L1 <= length L2 ->
  exists M, L2 = L1 ++ M /\ R1 = M ++ R2.
Proof.
  intros He Hl. apply app_eq_inv in He as [(M & -> & ->)|(M & -> & ->)]; [|eauto].
  rewrite length_app in Hl. destruct M; simpl in Hl; [|lia]. exists []. rewrite !app_nil_r. done.
Qed.

Lemma not_crossed r L M B :
  Forall (fun e => above_end r e.1 = false) L -> Forall (fun e => below_start r e.1 = false) (M ++ B) ->
  crossed r (L ++ M ++ B) = false.
Proof.
  intros HL HB. apply crossed_false, Forall_app. split.
  - eapply Forall_impl; [exact HL|]. simpl. intros e ->. by rewrite andb_false_r.
  - eapply Forall_impl; [exact HB|]. simpl. by intros e ->.
Qed.

Lemma range_parts m r : wf m ->
  let '(a, b) := range_slice_indices m r in
  (a <= b /\ crossed r (data m) = false /\ exists A M B, data m = A ++ M ++ B /\ length A = a
    /\ length (A ++ M) = b /\ Forall (fun e => in_bounds r e = false) (A ++ B)
    /\ Forall (fun e => in_bounds r e = true) M)
  \/ (b < a /\ crossed r (data m) = true).
Proof.
  intros Hw. destruct (range_indices m r Hw) as [(A & R1 & Hd & Ha & HA & HR1) (L2 & B & Hd2 & Hb & HL2 & HB)].
  destruct (range_slice_indices m r) as [a b]. simpl in *.
  assert (HL2' : Forall (fun e => above_end r e.1 = false) L2).
  { eapply Forall_impl; [exact HL2|]. intros e. apply negb_true_iff. }
  assert (HB' : Forall (fun e => above_end r e.1 = true) B).
  { eapply Forall_impl; [exact HB|]. intros e. apply negb_false_iff. }
  rewrite Hd in Hd2. destruct (decide (a <= b)) as [Hle|Hlt].
  - left. destruct (app_nested _ _ _ _ Hd2) as (M & -> & ->); [lia|].
    apply Forall_app in HL2' as [HA2 HM2]. pose proof HR1 as [HM1 HB1]%Forall_app.
    split; [done|]. split; [rewrite Hd; by apply not_crossed|].
    exists A, M, B. unfold in_bounds. split_and!; auto.
    + apply Forall_app. rewrite !Forall_forall in *. split; intros e He.
      * by rewrite (HA e He).
      * rewrite (HB' e He). by rewrite andb_false_r.
    + rewrite Forall_forall in *. intros e He. by rewrite (HM1 e He), (HM2 e He).
  - right. split; [lia|]. symmetry in Hd2. destruct (app_nested _ _ _ _ Hd2) as (M & -> & ->); [lia|].
    destruct M as [|e M]; [rewrite app_nil_r in Ha; lia|].
    apply Forall_app in HA as [_ HA]. apply Forall_inv in HA. apply Forall_inv in HB'.
    apply existsb_exists. exists e. rewrite Hd, HA, HB'. split; [|done].
    apply list_elem_of_In. rewrite !elem_of_app. left. right. left.
Qed.

(** The slice of a range, by filtering. *)
Lemma filter_all (p : K * V -> bool) l : Forall (fun e => p e = true) l -> List.filter p l = l.
Proof. induction 1 as [|e l He _ IH]; simpl; [done|]. by rewrite He, IH. Qed.
Lemma filter_none (p : K * V -> bool) l : Forall (fun e => p e = false) l -> List.filter p l = [].
Proof. induction 1 as [|e l He _ IH]; simpl; [done|]. by rewrite He. Qed.

Lemma range_ok m r : wf m ->
  range m r = if crossed r (data m) then Panic else Ret (List.filter (in_bounds r) (data m)).
Proof.
  intros Hw. pose proof (range_parts m r Hw) as HP. unfold range.
  destruct (range_slice_indices m r) as [a b]. destruct HP as [(Hle & -> & HP)|[Hlt ->]].
  - destruct HP as (A & M & B & -> & <- & <- & HN & HM). apply Forall_app in HN as [HA HB].
    rewrite !List.filter_app, (filter_none _ A), (filter_all _ M), (filter_none _ B) by done.
    rewrite app_nil_r. unfold get_range. rewrite !length_app in *.
    rewrite (proj2 (Nat.leb_le _ _)), (proj2 (Nat.leb_le _ _)) by lia. simpl.
    rewrite drop_app_length. replace (length A + length M - length A) with (length M) by lia.
    by rewrite take_app_length.
  - unfold get_range. by rewrite (proj2 (Nat.leb_gt _ _)).
Qed.

Lemma remove_range_ok m r : wf m ->
  remove_range m r = if crossed r (data m) then Panic
    else Ret (mkSortedMap (List.filter (fun e => negb (in_bounds r e)) (data m))).
Proof.
  intros Hw. pose proof (range_parts m r Hw) as HP. unfold remove_range.
  destruct (range_slice_indices m r) as [a b]. destruct HP as [(Hle & -> & HP)|[Hlt ->]].
  - destruct HP as (A & M & B & -> & <- & <- & HN & HM). apply Forall_app in HN as [HA HB].
    rewrite !List.filter_app, (filter_all _ A), (filter_none _ M), (filter_all _ B).
    2-4: (eapply Forall_impl; [eassumption|]; simpl; by intros e ->).
    unfold vec_splice. rewrite !length_app in *.
    rewrite (proj2 (Nat.leb_le _ _)), (proj2 (Nat.leb_le _ _)) by lia. simpl.
    rewrite take_app_length. rewrite (app_assoc A M B), <- length_app, drop_app_length. done.
  - unfold vec_splice. by rewrite (proj2 (Nat.leb_gt _ _)).
Qed.

Lemma filter_sorted (p : K * V -> bool) l : StronglySorted key_lt l -> StronglySorted key_lt (List.filter p l).
Proof.
  induction 1 as [|e l _ IH Hall]; simpl; [constructor|]. case_if E; [|done]. constructor; [done|].
  rewrite Forall_forall in *. intros x Hx. apply Hall. apply list_elem_of_In in Hx.
  apply List.filter_In in Hx as [Hx _]. by apply list_elem_of_In.
Qed.

(** *** [range_is_empty] *)

Lemma range_cmp_Eq r e : range_cmp r e.1 = Eq <-> in_bounds r e = true.
Proof.
  unfold range_cmp, in_bounds. fold (below_start r e.1) (above_end r e.1).
  by destruct (below_start r e.1), (above_end r e.1).
Qed.

Lemma below_closed r a b : cmp a b = Lt -> below_start r b = true -> below_start r a = true.
Proof.
  unfold below_start. intros Hl. destruct (start_bound r) as [k|k|]; [| |done]; intros Hb.
  - apply lt_b_true in Hb. apply lt_b_true. by apply cmp_trans with b.
  - rewrite lt_b_le_b. pose proof (lt_le_trans _ _ _ Hl Hb) as Ht. apply lt_b_true in Ht.
    unfold lt_b. rewrite (cmp_antisym a k), Ht. done.
Qed.

Lemma above_closed r a b : cmp a b = Lt -> above_end r a = true -> above_end r b = true.
Proof.
  unfold above_end. intros Hl. destruct (end_bound r) as [k|k|]; [| |done]; intros Ha.
  - apply lt_b_true in Ha. apply lt_b_true. by apply cmp_trans with a.
  - unfold le_b in *. destruct (cmp k a) eqn:E; [| |done].
    + apply cmp_eq in E as ->. by rewrite Hl.
    + by rewrite (cmp_trans _ _ _ E Hl).
Qed.

Lemma range_cmp_ordered r l : StronglySorted key_lt l -> ordered (fun e => range_cmp r e.1) l.
Proof.
  induction 1 as [|e l _ IH Hall]; intros i j x y Hij Hx Hy; [by rewrite lookup_nil in Hx|].
  destruct j as [|j]; [lia|]. simpl in Hy. destruct i as [|i]; simpl in Hx; [|apply (IH i j); auto; lia].
  injection Hx as <-. rewrite Forall_lookup in Hall. specialize (Hall j y Hy). unfold key_lt in Hall.
  pose proof (below_closed r _ _ Hall) as Hb. pose proof (above_closed r _ _ Hall) as Ha.
  unfold range_cmp. fold (below_start r e.1) (below_start r y.1) (above_end r e.1) (above_end r y.1).
  destruct (below_start r e.1), (below_start r y.1), (above_end r e.1), (above_end r y.1); simpl; try lia;
    try (specialize (Hb eq_refl); done); try (specialize (Ha eq_refl); done).
Qed.

Lemma range_is_empty_ok m r : wf m ->
  range_is_empty m r = true <-> List.filter (in_bounds r) (data m) = [].
Proof.
  intros Hw. unfold range_is_empty.
  pose proof (binary_search_by_spec _ _ (range_cmp_ordered r _ Hw)) as Hb. cbv beta in Hb.
  destruct (binary_search_by _ _) as [i|i].
  - destruct Hb as (e & He & Hc). apply range_cmp_Eq in Hc. split; [done|]. intros Hf.
    assert (Hin : List.In e (List.filter (in_bounds r) (data m))).
    { apply List.filter_In. split; [|done]. apply list_elem_of_In. by eapply list_elem_of_lookup_2. }
    by rewrite Hf in Hin.
  - destruct Hb as (_ & HL & HR). split; [|done]. intros _. apply filter_none, Forall_lookup.
    intros j e He. destruct (in_bounds r e) eqn:E; [|done]. apply range_cmp_Eq in E.
    destruct (decide (j < i)); [rewrite (HL j e) in E by done|rewrite (HR j e) in E by (done || lia)]; done.
Qed.

(** *** [insert_presorted] *)

Lemma assoc_cons k v l k' :
  assoc k' ((k, v) :: l) = if decide (k' = k) then Some v else assoc k' l.
Proof. by apply (assoc_middle k k' v [] l). Qed.

Lemma insert_each_ok m es : wf m -> StronglySorted key_lt es ->
  runs (insert_each m es) (fun m' => wf m' /\
    forall k, assoc k (data m') = match assoc k es with Some v => Some v | None => assoc k (data m) end).
Proof.
  revert m. induction es as [|[k v] es IH]; intros m Hw Hs; [by apply runs_ret|].
  cbn [insert_each]. destruct (insert_ok m k v Hw) as (m1 & -> & Hw1 & Ha1). cbn [obind].
  pose proof Hs as [Hs1 Hall]%StronglySorted_inv.
  eapply runs_mono; [apply (IH m1 Hw1 Hs1)|]. intros m' [Hw' Ha']. split; [done|]. intros k'.
  rewrite Ha', Ha1, assoc_cons. destruct (decide (k' = k)) as [->|]; [|done].
  by rewrite assoc_above.
Qed.

Lemma Forall_before_last k es : StronglySorted key_lt es ->
  match last es with Some l => cmp l.1 k = Lt | None => True end -> Forall (below k) es.
Proof.
  destruct es as [|l es _] using rev_ind; [done|]. rewrite last_snoc.
  intros (_ & _ & Hall)%StronglySorted_app_iff Hl. apply Forall_app. split; [|by repeat constructor].
  eapply Forall_impl; [exact Hall|]. intros e He. apply Forall_inv in He. unfold below.
  by apply cmp_trans with l.1.
Qed.

(** A run of elements that fits between two neighbours can be spliced in whole. *)
Lemma splice_sorted L R es first : StronglySorted key_lt (first :: es) ->
  StronglySorted key_lt (L ++ R) -> Forall (below first.1) L ->
  Forall (fun e => Forall (below e.1) (first :: es)) R ->
  StronglySorted key_lt (L ++ (first :: es) ++ R) /\
  forall k, assoc k (L ++ (first :: es) ++ R) =
    match assoc k (first :: es) with Some v => Some v | None => assoc k (L ++ R) end.
Proof.
  intros SE (SL & SR & SLR)%StronglySorted_app_iff HL HR.
  assert (HLE : Forall (fun x => Forall (key_lt x) (first :: es)) L).
  { eapply Forall_impl; [exact HL|]. intros x Hx. apply StronglySorted_inv in SE as [_ Hall].
    constructor; [done|]. eapply Forall_impl; [exact Hall|]. intros y Hy. by apply cmp_trans with first.1. }
  split.
  - apply StronglySorted_app_iff. split_and!; [done| |].
    + apply StronglySorted_app_iff. split_and!; [done|done|]. apply Forall_forall. intros x Hx.
      eapply Forall_impl; [exact HR|]. intros y Hy. rewrite Forall_forall in Hy. by apply Hy.
    + rewrite Forall_forall in *. intros x Hx. apply Forall_app. split; [by apply HLE|by apply SLR].
  - intros k. rewrite !assoc_app. destruct (assoc k L) as [v|] eqn:EL; [|by destruct (assoc k (first :: es))].
    apply assoc_elem in EL; [|done]. rewrite Forall_forall in HLE.
    rewrite assoc_above; [done|]. apply (HLE _ EL).
Qed.

Lemma insert_presorted_ok m es : wf m -> StronglySorted key_lt es ->
  insert_presorted m es = insert_each m es.
Proof.
  intros Hw Hs. destruct es as [|[k v] es]; [done|].
  destruct (insert_each_ok m ((k, v) :: es) Hw Hs) as (m2 & Hm2 & Hw2 & Ha2).
  cbn [insert_presorted fst]. rewrite Hm2. cbn [insert_each] in Hm2. unfold insert in Hm2.
  destruct (lookup_split m k Hw) as (L & R & HL & HR & HX).
  destruct (lookup_index_for m k) as [i|i].
  - destruct HX as (-> & v0 & Hd). rewrite Hd in *. rewrite lookup_middle in Hm2. cbn in Hm2.
    rewrite (proj2 (Nat.ltb_lt _ _)) by (rewrite length_app; simpl; lia). exact Hm2.
  - destruct HX as (-> & Hd). cbn [obind] in Hm2. rewrite Hd in *.
    set (whole := if length L =? length (L ++ R) then _ else _).
    destruct whole as [[]| |] eqn:Ew; unfold whole in Ew; clear whole; cbn [obind].
    + assert (HRE : Forall (fun e => Forall (below e.1) ((k, v) :: es)) R).
      { destruct R as [|r R]; [done|]. rewrite length_app in Ew. simpl in Ew.
        rewrite (proj2 (Nat.eqb_neq _ _)), lookup_middle in Ew by lia.
        assert (Hr : Forall (below r.1) ((k, v) :: es)).
        { apply StronglySorted_inv in Hs as [Hs _]. constructor; [by apply Forall_inv in HR|].
          apply Forall_before_last; [done|]. destruct (last es); [|done]. cbn in Ew.
          injection Ew as Ew. by apply lt_b_true. }
        constructor; [done|]. unfold wf in Hw. rewrite Hd in Hw.
        apply StronglySorted_app_iff in Hw as (_ & HSR & _). apply StronglySorted_inv in HSR as [_ HSR].
        eapply Forall_impl; [exact HSR|]. intros x Hx. eapply Forall_impl; [exact Hr|].
        intros y Hy. by apply cmp_trans with r.1. }
      unfold wf in Hw. rewrite Hd in Hw. destruct (splice_sorted L R es (k, v) Hs Hw HL HRE) as [HS HA].
      unfold vec_splice. rewrite Nat.leb_refl, (proj2 (Nat.leb_le _ _)) by (rewrite length_app; lia).
      cbn [andb obind]. rewrite take_app_length, drop_app_length. f_equal.
      destruct m2 as [d2]. f_equal. apply same_lookups; [done|done|]. intros k'. rewrite HA. symmetry. apply Ha2.
    + exact Hm2.
    + exfalso. revert Ew. case_ifs; [done|]. destruct (last es); [|done].
      destruct R; [rewrite app_nil_r in E; by rewrite Nat.eqb_refl in E|]. by rewrite lookup_middle.
    + exfalso. revert Ew. case_ifs; [done|]. destruct (last es); [|done].
      destruct ((L ++ R) !! length L); done.
Qed.

(** *** [from_iter] *)

Lemma dedup_from_ok kept l :
  StronglySorted (fun a b => le_b a.1 b.1 = true) (kept :: l) ->
  StronglySorted key_lt (dedup_from kept l) /\ Forall (fun e => e ∈ kept :: l) (dedup_from kept l)
  /\ Forall (fun e => le_b kept.1 e.1 = true) (dedup_from kept l)
  /\ forall k, k ∈ (kept :: l).*1 -> k ∈ (dedup_from kept l).*1.
Proof.
  revert kept. induction l as [|e l IH]; intros kept Hs; cbn [dedup_from].
  - split_and!; [repeat constructor|repeat constructor|repeat constructor; apply lt_b_refl|done].
  - pose proof Hs as [Hs1 Hall]%StronglySorted_inv. pose proof (Forall_inv Hall) as Hle.
    destruct (eq_b e.1 kept.1) eqn:E.
    + apply eq_b_true in E. destruct (IH kept) as (S1 & I1 & L1 & K1).
      { apply StronglySorted_inv in Hs1 as [Hs1 _]. constructor; [done|]. by inversion Hall. }
      split_and!; auto.
      * eapply Forall_impl; [exact I1|]. intros x. rewrite !elem_of_cons. tauto.
      * intros k Hk. apply K1. simpl in *. rewrite E in Hk. rewrite !elem_of_cons in *. tauto.
    + destruct (IH e Hs1) as (S1 & I1 & L1 & K1).
      assert (Hlt : cmp kept.1 e.1 = Lt).
      { unfold le_b in Hle. unfold eq_b in E. rewrite (cmp_antisym kept.1 e.1) in E.
        by destruct (cmp kept.1 e.1). }
      assert (Hk : Forall (key_lt kept) (dedup_from e l)).
      { eapply Forall_impl; [exact L1|]. intros x Hx. apply lt_b_true. by eapply lt_le_trans. }
      split_and!.
      * by constructor.
      * constructor; [left|]. eapply Forall_impl; [exact I1|]. intros x Hx. by right.
      * constructor; [apply lt_b_refl|]. eapply Forall_impl; [exact Hk|]. intros x Hx. unfold key_lt in Hx.
        unfold le_b. by rewrite Hx.
      * intros k Hx. simpl in Hx. rewrite fmap_cons, elem_of_cons. apply elem_of_cons in Hx as [?|?]; [by left|].
        right. by apply K1.
Qed.
End Laws.

(** ** [SortedIndexMultiMap] *)

Section Sorting.
Context {A : Type} (le : A -> A -> bool) (P : A -> Prop).
Context (le_total : forall x y, P x -> P y -> le x y = false -> le y x = true).
Context (le_trans : forall x y z, P x -> P y -> P z -> le x y = true -> le y z = true -> le x z = true).

Lemma sort_insert_perm x l : Permutation (x :: l) (sort_insert le x l).
Proof.
  induction l as [|y l IH]; simpl; [done|]. case_if E; [done|].
  etransitivity; [apply Permutation_swap|]. by constructor.
Qed.

Lemma stable_sort_perm l : Permutation l (stable_sort le l).
Proof.
  induction l as [|x l IH]; simpl; [done|]. etransitivity; [|apply sort_insert_perm]. by constructor.
Qed.

Lemma sort_insert_sorted x l : P x -> Forall P l ->
  StronglySorted (fun a b => le a b = true) l -> StronglySorted (fun a b => le a b = true) (sort_insert le x l).
Proof.
  intros Hx. induction l as [|y l IH]; intros HP Hs; simpl; [repeat constructor|].
  apply Forall_cons in HP as [Hy HP]. apply StronglySorted_inv in Hs as [Hs Hall].
  case_if E.
  - constructor; [by constructor|]. constructor; [done|]. rewrite Forall_forall in *. intros z Hz.
    apply le_trans with y; auto.
  - constructor; [by apply IH|]. rewrite <- sort_insert_perm. constructor; [by apply le_total|done].
Qed.

Lemma stable_sort_sorted l : Forall P l -> StronglySorted (fun a b => le a b = true) (stable_sort le l).
Proof.
  induction 1 as [|x l Hx Hl IH]; simpl; [constructor|]. apply sort_insert_sorted; [done| |done].
  by rewrite <- stable_sort_perm.
Qed.

(** Stability: among elements that are all [le] each other the order is kept. *)
Lemma stable_sort_filter (p : A -> bool) l : (forall x y, p x = true -> p y = true -> le x y = true) ->
  List.filter p (stable_sort le l) = List.filter p l.
Proof.
  intros Hp. assert (Hins : forall x l, List.filter p (sort_insert le x l) = List.filter p (x :: l)).
  { intros x l'. induction l' as [|y l' IH]; [done|]. cbn [sort_insert]. case_if E; [done|].
    cbn [List.filter] in *. rewrite IH. destruct (p x) eqn:Ex, (p y) eqn:Ey; try done.
    by rewrite (Hp x y Ex Ey) in E. }
  induction l as [|x l IH]; [done|]. change (stable_sort le (x :: l)) with (sort_insert le x (stable_sort le l)).
  rewrite Hins. cbn [List.filter]. by rewrite IH.
Qed.
End Sorting.

Section MultiLaws.
Context {K V : Type} `{Ord K}.
Context (l : list (K * V)).

Definition has_key (k : K) (i : nat) : bool :=
  match l !! i with Some (k', _) => eq_b k' k | None => false end.
Definition below_key (k : K) (i : nat) : bool :=
  match l !! i with Some (k', _) => lt_b k' k | None => false end.

Lemma le_b_trans (a b c : K) : le_b a b = true -> le_b b c = true -> le_b a c = true.
Proof.
  unfold le_b. intros H1 H2. destruct (cmp a b) eqn:E1; [apply cmp_eq in E1 as ->; done| |done].
  destruct (cmp b c) eqn:E2; [apply cmp_eq in E2 as <-; by rewrite E1| |done]. by rewrite (cmp_trans _ _ _ E1 E2).
Qed.

Lemma key_le_total i j : i < length l -> j < length l -> key_le l i j = false -> key_le l j i = true.
Proof.
  intros Hi Hj. unfold key_le. destruct (lookup_lt_ex l i Hi) as [[k1 v1] ->].
  destruct (lookup_lt_ex l j Hj) as [[k2 v2] ->]. unfold le_b. rewrite (cmp_antisym k1 k2).
  by destruct (cmp k1 k2).
Qed.

Lemma key_le_trans i j h : i < length l -> j < length l -> h < length l ->
  key_le l i j = true -> key_le l j h = true -> key_le l i h = true.
Proof.
  intros Hi Hj Hh. unfold key_le. destruct (lookup_lt_ex l i Hi) as [[k1 v1] ->].
  destruct (lookup_lt_ex l j Hj) as [[k2 v2] ->]. destruct (lookup_lt_ex l h Hh) as [[k3 v3] ->].
  apply le_b_trans.
Qed.

Definition sorted_idx : list nat := stable_sort (key_le l) (seq 0 (length l)).

Lemma seq_in_range : Forall (fun i => i < length l) (seq 0 (length l)).
Proof. apply Forall_forall. intros i ?%elem_of_seq. lia. Qed.

Lemma sorted_idx_in_range : Forall (fun i => i < length l) sorted_idx.
Proof. unfold sorted_idx. rewrite <- stable_sort_perm. apply seq_in_range. Qed.

Lemma sorted_idx_sorted : StronglySorted (fun i j => key_le l i j = true) sorted_idx.
Proof.
  apply (stable_sort_sorted _ (fun i => i < length l)); [apply key_le_total| |apply seq_in_range].
  intros i j h. apply key_le_trans.
Qed.

Lemma sorted_idx_filter k : List.filter (has_key k) sorted_idx = List.filter (has_key k) (seq 0 (length l)).
Proof.
  apply stable_sort_filter. intros i j. unfold has_key, key_le.
  destruct (l !! i) as [[k1 v1]|]; [|done]. destruct (l !! j) as [[k2 v2]|]; [|done].
  rewrite !eq_b_true. intros -> ->. apply lt_b_refl.
Qed.

(** The items with a key, in insertion order. *)
Definition enumerated_with (k : K) (idxs : list nat) : list (nat * V) :=
  omap (fun i => match l !! i with
                 | Some (k', v) => if eq_b k' k then Some (i, v) else None
                 | None => None
                 end) idxs.

Lemma enumerated_cons k i idxs : enumerated_with k (i :: idxs) =
  match l !! i with
  | Some (k', v) => if eq_b k' k then (i, v) :: enumerated_with k idxs else enumerated_with k idxs
  | None => enumerated_with k idxs
  end.
Proof. unfold enumerated_with. simpl. destruct (l !! i) as [[k' v]|]; [|done]. by destruct (eq_b k' k). Qed.

Lemma enumerated_filter k idxs : enumerated_with k (List.filter (has_key k) idxs) = enumerated_with k idxs.
Proof.
  induction idxs as [|i idxs IH]; [done|]. cbn [List.filter]. rewrite enumerated_cons. unfold has_key at 1.
  destruct (l !! i) as [[k' v]|] eqn:E; [|done]. destruct (eq_b k' k) eqn:Ek; [|done].
  by rewrite enumerated_cons, E, Ek, IH.
Qed.

(** On a run of indices sorted by key, none below [k], [map_while] stops exactly at the
    first item with a greater key. *)
Lemma while_key_ok k idxs : Forall (fun i => i < length l) idxs ->
  StronglySorted (fun i j => key_le l i j = true) idxs -> Forall (fun i => below_key k i = false) idxs ->
  while_key l k idxs = Ret (enumerated_with k idxs).
Proof.
  intros Hr Hs Hb. induction idxs as [|i idxs IH]; [done|].
  apply Forall_cons in Hr as [Hi Hr]. apply Forall_cons in Hb as [Hbi Hb].
  apply StronglySorted_inv in Hs as [Hs Hall].
  cbn [while_key]. rewrite enumerated_cons. destruct (lookup_lt_ex l i Hi) as [[k1 v1] E]. rewrite E.
  cbn [unwrap obind]. destruct (eq_b k1 k) eqn:Ek; [by rewrite IH|].
  f_equal. symmetry. unfold below_key in Hbi. rewrite E in Hbi. clear IH Hs Hb.
  induction idxs as [|j idxs IH]; [done|]. apply Forall_cons in Hr as [Hj Hr].
  apply Forall_cons in Hall as [Hij Hall]. rewrite enumerated_cons.
    unfold key_le in Hij. destruct (lookup_lt_ex l j Hj) as [[k2 v2] E2]. rewrite E2 in *. rewrite E in Hij.
    destruct (eq_b k2 k) eqn:Ek2; [|by apply IH]. apply eq_b_true in Ek2 as ->.
    unfold le_b in Hij. unfold lt_b in Hbi. unfold eq_b in Ek. by destruct (cmp k1 k).
Qed.

Lemma below_key_closed k i j : i < length l -> key_le l i j = true -> below_key k j = true -> below_key k i = true.
Proof.
  intros Hi. unfold key_le, below_key. destruct (lookup_lt_ex l i Hi) as [[k1 v1] ->].
  destruct (l !! j) as [[k2 v2]|]; [|done]. unfold le_b. destruct (cmp k1 k2) eqn:E; [| |done]; intros _.
  - apply cmp_eq in E as ->. done.
  - rewrite !lt_b_true. by apply cmp_trans.
Qed.

Lemma get_by_key_ok k :
  get_by_key_enumerated (multi_from_iter l) k = Ret (enumerated_with k (seq 0 (length l))).
Proof.
  unfold get_by_key_enumerated, multi_from_iter. cbn [items idx_sorted_by_item_key].
  change (stable_sort (key_le l) (seq 0 (length l))) with sorted_idx.
  assert (Hs : StronglySorted (fun i j => i < length l /\ key_le l i j = true) sorted_idx).
  { pose proof sorted_idx_in_range as Hr. induction sorted_idx_sorted as [|i idxs _ IH Hall]; [constructor|].
    apply Forall_cons in Hr as [Hi Hr]. constructor; [by apply IH|]. eapply Forall_impl; [exact Hall|]. done. }
  destruct (partition_point_split _ (below_key k) sorted_idx Hs) as (L & R & Hd & Hl & HL & HR).
  { intros i j [Hi Hij]. by apply below_key_closed. }
  fold (below_key k). change (fun i => match l !! i with Some (k', _) => lt_b k' k | None => false end) with (below_key k).
  rewrite <- Hl, <- enumerated_filter, <- sorted_idx_filter, enumerated_filter.
  pose proof sorted_idx_in_range as Hr. pose proof sorted_idx_sorted as Hso. rewrite Hd in *.
  rewrite drop_app_length. apply Forall_app in Hr as [_ Hr]. apply StronglySorted_app_iff in Hso as (_ & Hso & _).
  rewrite while_key_ok by done. f_equal. clear -HL. induction HL as [|i L Hi _ IH]; [done|].
  cbn [app]. rewrite enumerated_cons. unfold below_key in Hi. destruct (l !! i) as [[k1 v1]|]; [|done].
  unfold eq_b. unfold lt_b in Hi. by destruct (cmp k1 k).
Qed.
End MultiLaws.

(** ** The properties *)

Definition sample_map : SortedMap Z Z := mkSortedMap [(1, 10); (4, 40); (7, 70)]%Z.

Lemma sample_map_wf : wf sample_map.
Proof. repeat constructor. Qed.

(** C38: on a map with strictly increasing keys, [insert], [remove], [get] and
    [get_mut_or_insert_default] return (no index is out of range), keep the keys strictly increasing
    and obey the laws of finite maps: [insert] and [remove] return the value that was there, change
    the entry of their key and no other, and a slot obtained for writing is that of its key. *)
Theorem sorted_map_laws {K V : Type} `{Ord K} (m : SortedMap K V) (k : K) (v d : V) :
  wf m -> exists old mi mr, get m k = Ret old /\
    insert m k v = Ret (old, mi) /\ wf mi
    /\ (forall k', get mi k' = if eq_b k' k then Ret (Some v) else get m k') /\
    remove m k = Ret (old, mr) /\ wf mr
    /\ (forall k', get mr k' = if eq_b k' k then Ret None else get m k') /\
    exists write, get_mut_or_insert_default d m k = Ret (default d old, write) /\ write v = mi.
Proof.
  intros Hw. destruct (insert_ok m k v Hw) as (mi & Hi & Hwi & Hai).
  destruct (remove_ok m k Hw) as (mr & Hr & Hwr & Har). exists (assoc k (data m)), mi, mr.
  rewrite get_assoc by done. split_and!; auto.
  - intros k'. rewrite !get_assoc, Hai, decide_eq_b by done. by destruct (eq_b k' k).
  - intros k'. rewrite !get_assoc, Har, decide_eq_b by done. by destruct (eq_b k' k).
  - unfold get_mut_or_insert_default, slot_mut. unfold insert in Hi.
    destruct (lookup_split m k Hw) as (L & R & HL & HR & HX). destruct (lookup_index_for m k) as [i|i].
    + destruct HX as (-> & v0 & Hd). rewrite Hd in *. rewrite lookup_middle in *. cbn in *. inv_ret.
      exists (fun w => mkSortedMap (<[length L := (k, w)]> (L ++ (k, v0) :: R))). split; [|done].
      by rewrite assoc_middle, decide_True.
    + destruct HX as (-> & Hd). cbn [data]. inv_ret. rewrite Hd, !vec_insert_app, lookup_middle. cbn.
      exists (fun w => mkSortedMap (<[length L := (k, w)]> (L ++ (k, d) :: R))). rewrite insert_middle.
      split; [|done]. by rewrite assoc_app, assoc_below, assoc_above.
Qed.

Lemma sorted_map_laws_witness :
  exists old mi mr, get sample_map 4%Z = Ret old /\
    insert sample_map 4%Z 5%Z = Ret (old, mi) /\ wf mi
    /\ (forall k', get mi k' = if eq_b k' 4%Z then Ret (Some 5%Z) else get sample_map k') /\
    remove sample_map 4%Z = Ret (old, mr) /\ wf mr
    /\ (forall k', get mr k' = if eq_b k' 4%Z then Ret None else get sample_map k') /\
    exists write, get_mut_or_insert_default 0%Z sample_map 4%Z = Ret (default 0%Z old, write) /\ write 5%Z = mi.
Proof. apply (sorted_map_laws sample_map 4%Z 5%Z 0%Z sample_map_wf). Defined.

(** [range] is the slice of the entries whose keys are in the bounds, and [remove_range] drops
    exactly those; both panic exactly when the bounds are crossed over an entry of the map. On every
    range for which [range] returns, [range_is_empty] is whether the slice is empty, as documented. *)
Theorem range_exact {K V : Type} `{Ord K} (m : SortedMap K V) (r : RangeBounds K) :
  wf m ->
  range m r = (if crossed r (data m) then Panic else Ret (List.filter (in_bounds r) (data m))) /\
  remove_range m r = (if crossed r (data m) then Panic
    else Ret (mkSortedMap (List.filter (fun e => negb (in_bounds r e)) (data m)))) /\
  forall slice, range m r = Ret slice -> range_is_empty m r = bool_decide (length slice = 0).
Proof.
  intros Hw. split; [by apply range_ok|]. split; [by apply remove_range_ok|].
  intros slice Hs. rewrite range_ok in Hs by done. case_if_in Hs E; [done|]. inv_ret.
  apply eq_bool_prop_intro. rewrite !Is_true_true, range_is_empty_ok, bool_decide_eq_true by done.
  split; [by intros ->|]. apply length_zero_iff_nil.
Qed.

Lemma range_exact_witness :
  range sample_map (mkRange (Included 2%Z) (Included 7%Z)) = Ret [(4, 40); (7, 70)]%Z /\
  range sample_map (mkRange (Included 6%Z) (Excluded 3%Z)) = Panic /\
  forall slice, range sample_map (mkRange (Included 2%Z) (Excluded 4%Z)) = Ret slice ->
    range_is_empty sample_map (mkRange (Included 2%Z) (Excluded 4%Z)) = bool_decide (length slice = 0).
Proof.
  split; [reflexivity|split; [reflexivity|]].
  apply (range_exact sample_map (mkRange (Included 2%Z) (Excluded 4%Z)) sample_map_wf).
Defined.

(** [insert_presorted] of a run with strictly increasing keys computes the same map as inserting
    its elements one by one, on the path that splices the run in whole and on the one that does not. *)
Theorem insert_presorted_is_insert {K V : Type} `{Ord K} (m : SortedMap K V) (elements : list (K * V)) :
  wf m -> StronglySorted key_lt elements ->
  insert_presorted m elements = insert_each m elements /\
  exists m', insert_presorted m elements = Ret m' /\ wf m'.
Proof.
  intros Hw Hs. rewrite insert_presorted_ok by done. split; [done|].
  destruct (insert_each_ok m elements Hw Hs) as (m' & ? & ? & _). eauto.
Qed.

Lemma insert_presorted_is_insert_witness :
  insert_presorted sample_map [(5, 50); (6, 60)]%Z = insert_each sample_map [(5, 50); (6, 60)]%Z /\
  exists m', insert_presorted sample_map [(5, 50); (6, 60)]%Z = Ret m' /\ wf m'.
Proof.
  apply (insert_presorted_is_insert sample_map [(5, 50); (6, 60)]%Z sample_map_wf). repeat constructor.
Defined.

(** What [sort_unstable_by] promises: some permutation with the keys in order. *)
Definition sorts {K V : Type} `{Ord K} (sort : list (K * V) -> list (K * V)) : Prop :=
  forall l, Permutation l (sort l) /\ StronglySorted (fun a b => le_b a.1 b.1 = true) (sort l).

(** Whatever order the unstable sort leaves equal keys in, [from_iter] builds a map with strictly
    increasing keys, whose keys are the keys of the input and whose entries are entries of the input. *)
Theorem from_iter_any_sort {K V : Type} `{Ord K} (sort : list (K * V) -> list (K * V)) (l : list (K * V)) :
  sorts sort ->
  wf (from_iter sort l) /\ (forall k, k ∈ keys (from_iter sort l) <-> k ∈ l.*1) /\
  (forall e, e ∈ iter (from_iter sort l) -> e ∈ l).
Proof.
  intros Hs. destruct (Hs l) as [Hp Ho]. unfold wf, keys, iter, from_iter. cbn [data].
  unfold dedup_by_key. destruct (sort l) as [|e s] eqn:E.
  - apply Permutation_sym, Permutation_nil in Hp. subst l. split_and!; [constructor|done|done].
  - destruct (dedup_from_ok e s Ho) as (S1 & I1 & _ & K1).
    assert (Hel : forall x, x ∈ dedup_from e s -> x ∈ l).
    { intros x Hx. rewrite Hp. rewrite Forall_forall in I1. by apply I1. }
    split_and!; [done| |done]. intros k. split.
    + intros Hk. apply list_elem_of_fmap in Hk as (x & -> & Hx). apply list_elem_of_fmap_2. by apply Hel.
    + intros Hk. apply K1. by rewrite <- Hp.
Qed.

(** Insertion sort by key satisfies the contract. *)
Lemma insertion_sorts : sorts (stable_sort (fun a b : Z * Z => le_b a.1 b.1)).
Proof.
  intros l. split; [apply stable_sort_perm|].
  apply (stable_sort_sorted _ (fun _ => True)); [| |by apply Forall_true].
  - intros x y _ _. unfold le_b. rewrite (cmp_antisym x.1 y.1). by destruct (cmp x.1 y.1).
  - intros x y z _ _ _. apply le_b_trans.
Qed.

Lemma from_iter_any_sort_witness :
  let sort := stable_sort (fun a b : Z * Z => le_b a.1 b.1) in
  let l := [(4, 1); (2, 2); (4, 3)]%Z in
  wf (from_iter sort l) /\ (forall k, k ∈ keys (from_iter sort l) <-> k ∈ l.*1) /\
  (forall e, e ∈ iter (from_iter sort l) -> e ∈ l).
Proof. apply (from_iter_any_sort _ _ insertion_sorts). Defined.

(** [get_by_key_enumerated] of a multi-map yields exactly the items with the key, with their
    indices, in insertion order, although it walks an index sorted by key; no index is out of range. *)
Theorem multimap_by_key {K V : Type} `{Ord K} (l : list (K * V)) (k : K) :
  get_by_key_enumerated (multi_from_iter l) k =
  Ret (omap (fun '(i, (k', v)) => if eq_b k' k then Some (i, v) else None)
         (multi_iter_enumerated (multi_from_iter l))).
Proof.
  rewrite get_by_key_ok. f_equal. unfold multi_iter_enumerated, multi_from_iter. cbn [items].
  assert (HG : forall l1 l2, l = l1 ++ l2 -> enumerated_with l k (seq (length l1) (length l2)) =
    omap (fun '(i, (k', v)) => if eq_b k' k then Some (i, v) else None) (zip (seq (length l1) (length l2)) l2)).
  { intros l1 l2. revert l1. induction l2 as [|[k' v] l2 IH]; intros l1 Hl; [done|]. cbn [length seq zip zip_with].
    rewrite enumerated_cons. rewrite Hl at 1. rewrite lookup_middle.
    specialize (IH (l1 ++ [(k', v)])). rewrite length_app, Nat.add_1_r in IH. simpl in *.
    rewrite IH by (by rewrite <- app_assoc). by destruct (eq_b k' k). }
  by apply (HG []).
Qed.
