(* ===== verification/Leb128.v ===== *)
(** * Variable-length integers ([src/rustc_serialize/leb128.rs], [int_overflow.rs])

    The four macros of the file, at every width [bits] they are instantiated with, over the
    decoder of [opaque.rs].  Writes go through [get_unchecked_mut]: an index outside the
    output array is undefined behaviour, here a [Panic] the theorems exclude. *)
From Stdlib Require Import ZArith Lia.
From stdpp Require Import base numbers list.
From S2P Require Import Prelude.
Open Scope Z_scope.
Open Scope rust_scope.

(** ** [MemDecoder]: a slice and a cursor in it *)

Record MemDecoder := mkDecoder { bytes : list Z; current : nat }.

Definition remaining (d : MemDecoder) : nat := length (bytes d) - current d.

Definition advance (d : MemDecoder) (n : nat) : MemDecoder := mkDecoder (bytes d) (current d + n).

(** [decoder_exhausted] panics. *)
Definition read_u8 (d : MemDecoder) : outcome (Z * MemDecoder) :=
  if (current d =? length (bytes d))%nat then Panic
  else let* byte := unwrap (bytes d !! current d) in Ret (byte, advance d 1).

(** ** Lengths *)

(** [(size_of::<T>() * 8).div_ceil(7)], [T] having [bits] bits. *)
Definition max_leb128_len (bits : Z) : nat := Z.to_nat ((bits + 6) / 7).
Definition largest_max_leb128_len : nat := max_leb128_len 128.

(** ** Writing *)

(** [*out.get_unchecked_mut(i) = b]. *)
Definition store (out : list Z) (i : nat) (b : Z) : outcome (list Z) :=
  if (i <? length out)%nat then Ret (<[i := b]> out) else Panic.

Fixpoint write_unsigned_loop (fuel : nat) (out : list Z) (i : nat) (value : Z) : outcome (list Z * nat) :=
  match fuel with
  | O => OutOfFuel
  | S f =>
      if value <? 0x80 then
        let* out := store out i (wrap_u8 value) in Ret (out, S i)
      else
        let* out := store out i (wrap_u8 (Z.lor (Z.land value 0x7f) 0x80)) in
        write_unsigned_loop f out (S i) (Z.shiftr value 7)
  end.

(** The loop leaves through the bound of the array at the latest. *)
Definition write_unsigned_leb128 (out : list Z) (value : Z) : outcome (list Z * nat) :=
  write_unsigned_loop (S (length out)) out 0 value.

Definition write_u16_leb128 := write_unsigned_leb128.
Definition write_u32_leb128 := write_unsigned_leb128.
Definition write_u64_leb128 := write_unsigned_leb128.
Definition write_u128_leb128 := write_unsigned_leb128.
Definition write_usize_leb128 := write_unsigned_leb128.

Fixpoint write_signed_loop (fuel : nat) (out : list Z) (i : nat) (value : Z) : outcome (list Z * nat) :=
  match fuel with
  | O => OutOfFuel
  | S f =>
      let byte := Z.land (wrap_u8 value) 0x7f in
      let value := Z.shiftr value 7 in
      let more := negb (((value =? 0) && (Z.land byte 0x40 =? 0))
                        || ((value =? -1) && negb (Z.land byte 0x40 =? 0))) in
      let byte := if more then Z.lor byte 0x80 else byte in
      let* out := store out i byte in
      if more then write_signed_loop f out (S i) value else Ret (out, S i)
  end.

Definition write_signed_leb128 (out : list Z) (value : Z) : outcome (list Z * nat) :=
  write_signed_loop (S (length out)) out 0 value.

Definition write_i16_leb128 := write_signed_leb128.
Definition write_i32_leb128 := write_signed_leb128.
Definition write_i64_leb128 := write_signed_leb128.
Definition write_i128_leb128 := write_signed_leb128.
Definition write_isize_leb128 := write_signed_leb128.

(** ** Reading *)

(** [x << shift] at a width that is a power of two: the shift amount is masked and the high bits
    are lost.  Signed values are represented by their bit pattern. *)
Definition shl (bits x shift : Z) : Z := Z.shiftl x (shift mod bits) mod 2 ^ bits.

Definition as_signed (bits x : Z) : Z := if x <? 2 ^ (bits - 1) then x else x - 2 ^ bits.

(** [debug_strict_add] of a release build wraps. *)
Definition debug_strict_add_u32 (a b : Z) : Z := wrap_u32 (a + b).

Fixpoint read_unsigned_loop (fuel : nat) (bits result shift : Z) (d : MemDecoder) : outcome (Z * MemDecoder) :=
  match fuel with
  | O => OutOfFuel
  | S f =>
      let* '(byte, d) := read_u8 d in
      if Z.land byte 0x80 =? 0 then Ret (Z.lor result (shl bits byte shift), d)
      else read_unsigned_loop f bits (Z.lor result (shl bits (Z.land byte 0x7F) shift))
             (debug_strict_add_u32 shift 7) d
  end.

Definition read_unsigned_leb128 (bits : Z) (d : MemDecoder) : outcome (Z * MemDecoder) :=
  let* '(byte, d) := read_u8 d in
  if Z.land byte 0x80 =? 0 then Ret (byte, d)
  else read_unsigned_loop (S (remaining d)) bits (Z.land byte 0x7F) 7 d.

Definition read_u16_leb128 := read_unsigned_leb128 16.
Definition read_u32_leb128 := read_unsigned_leb128 32.
Definition read_u64_leb128 := read_unsigned_leb128 64.
Definition read_u128_leb128 := read_unsigned_leb128 128.
Definition read_usize_leb128 := read_unsigned_leb128 64.

Fixpoint read_signed_loop (fuel : nat) (bits result shift : Z) (d : MemDecoder)
    : outcome (Z * Z * Z * MemDecoder) :=
  match fuel with
  | O => OutOfFuel
  | S f =>
      let* '(byte, d) := read_u8 d in
      let result := Z.lor result (shl bits (Z.land byte 0x7F) shift) in
      let shift := debug_strict_add_u32 shift 7 in
      if Z.land byte 0x80 =? 0 then Ret (result, shift, byte, d)
      else read_signed_loop f bits result shift d
  end.

Definition read_signed_leb128 (bits : Z) (d : MemDecoder) : outcome (Z * MemDecoder) :=
  let* '(result, shift, byte, d) := read_signed_loop (S (remaining d)) bits 0 0 d in
  let result :=
    if (shift <? bits) && negb (Z.land byte 0x40 =? 0)
    then Z.lor result (shl bits (2 ^ bits - 1) shift) else result in
  Ret (as_signed bits result, d).

Definition read_i16_leb128 := read_signed_leb128 16.
Definition read_i32_leb128 := read_signed_leb128 32.
Definition read_i64_leb128 := read_signed_leb128 64.
Definition read_i128_leb128 := read_signed_leb128 128.
Definition read_isize_leb128 := read_signed_leb128 64.

(** ** The format *)

(** [uleb v bs]: [bs] is the unsigned encoding of [v]. *)
Inductive uleb : Z -> list Z -> Prop :=
| uleb_last v : 0 <= v < 128 -> uleb v [v]
| uleb_more v bs : 128 <= v -> uleb (v / 128) bs -> uleb v (v mod 128 + 128 :: bs).

Inductive sleb : Z -> list Z -> Prop :=
| sleb_last v : -64 <= v < 64 -> sleb v [v mod 128]
| sleb_more v bs : ~ (-64 <= v < 64) -> sleb (v / 128) bs -> sleb v (v mod 128 + 128 :: bs).

(** Bit facts about one byte, by enumeration. *)
Definition low7_facts (b : Z) : bool :=
  (Z.land b 0x80 =? 0) && (Z.land (b + 128) 0x7F =? b) && negb (Z.land (b + 128) 0x80 =? 0)
  && (Z.land b 0x7F =? b) && (Z.lor b 0x80 =? b + 128) && Bool.eqb (Z.land b 0x40 =? 0) (b <? 64).

Lemma low7 b : 0 <= b < 128 ->
  Z.land b 0x80 = 0 /\ Z.land (b + 128) 0x7F = b /\ Z.land (b + 128) 0x80 <> 0 /\ Z.land b 0x7F = b
  /\ Z.lor b 0x80 = b + 128 /\ (Z.land b 0x40 =? 0) = (b <? 64).
Proof.
  intros Hb. assert (H : Forall (fun b => low7_facts b = true) (seqZ 0 128)).
  { apply Forall_forall. intros x Hx. assert (Hall : forallb low7_facts (seqZ 0 128) = true) by reflexivity.
    rewrite List.forallb_forall in Hall. apply Hall. by apply list_elem_of_In. }
  rewrite Forall_forall in H. specialize (H b). unfold low7_facts in H.
  assert (Hin : b ∈ seqZ 0 128) by (apply elem_of_seqZ; lia). apply H in Hin.
  repeat (apply andb_true_iff in Hin as [Hin ?]). propify. by split_and!; auto; apply eqb_prop.
Qed.

Lemma land_7F v : Z.land v 0x7f = v mod 128.
Proof. change 0x7f with (Z.ones 7). by rewrite Z.land_ones. Qed.

Lemma shiftr_7 v : Z.shiftr v 7 = v / 128.
Proof. by rewrite Z.shiftr_div_pow2. Qed.

(** Bytes written at an index. *)
Definition overwrite (out : list Z) (i : nat) (bs : list Z) : list Z :=
  take i out ++ bs ++ drop (i + length bs) out.

Lemma store_overwrite out i b bs : (i + S (length bs) <= length out)%nat ->
  overwrite (<[i := b]> out) (S i) bs = overwrite out i (b :: bs).
Proof.
  intros Hl. unfold overwrite. rewrite insert_take_drop by lia.
  assert (Hi : length (take i out) = i) by (rewrite length_take; lia).
  rewrite take_app_ge, drop_app_ge by lia. rewrite Hi.
  replace (S i - i)%nat with 1%nat by lia. replace (S i + length bs - i)%nat with (S (length bs)) by lia.
  cbn [take drop length]. rewrite drop_drop, <- app_assoc. cbn [app].
  by replace (i + S (length bs))%nat with (S i + length bs)%nat by lia.
Qed.

Lemma overwrite_one out i b : (i < length out)%nat -> <[i := b]> out = overwrite out i [b].
Proof. intros Hl. unfold overwrite. rewrite insert_take_drop by done. by rewrite Nat.add_1_r. Qed.

Lemma write_unsigned_loop_ok n fuel out i v : (n < fuel)%nat -> 0 <= v < 128 * 128 ^ Z.of_nat n ->
  (i + S n <= length out)%nat ->
  exists bs, uleb v bs /\ (length bs <= S n)%nat /\
    write_unsigned_loop fuel out i v = Ret (overwrite out i bs, (i + length bs)%nat).
Proof.
  revert fuel out i v. induction n as [|n IH]; intros [|fuel] out i v Hf Hv Hl; try lia.
  all: cbn [write_unsigned_loop]; unfold store; rewrite (proj2 (Nat.ltb_lt _ _)) by lia; cbn [obind].
  all: destruct (Z.ltb_spec v 0x80) as [Hs|Hs].
  1, 3: exists [v]; split; [apply uleb_last; lia|]; split; [simpl; lia|]; cbn [length];
    rewrite overwrite_one, Nat.add_1_r by lia; unfold wrap_u8; rewrite Z.mod_small by lia; done.
  - exfalso. change (128 * 128 ^ Z.of_nat 0) with 128 in Hv. lia.
  - assert (Hm : 0 <= v mod 128 < 128) by (apply Z.mod_pos_bound; lia).
    rewrite land_7F, shiftr_7. destruct (low7 (v mod 128) Hm) as (_ & _ & _ & _ & -> & _).
    destruct (IH fuel (<[i := wrap_u8 (v mod 128 + 128)]> out) (S i) (v / 128)) as (bs & Hu & Hlen & Hw).
    + lia.
    + split; [apply Z.div_pos; lia|]. apply Z.div_lt_upper_bound; [lia|].
      rewrite Nat2Z.inj_succ, Z.pow_succ_r in Hv by lia. lia.
    + rewrite length_insert. lia.
    + exists (v mod 128 + 128 :: bs). split; [apply uleb_more; [lia|done]|]. split; [simpl; lia|].
      rewrite Hw, store_overwrite by (simpl; lia). unfold wrap_u8. rewrite (Z.mod_small (_ + _)) by lia.
      cbn [length]. do 2 f_equal. lia.
Qed.

(** The test that ends the signed loop: seven bits hold the value with its sign. *)
Lemma signed_done v :
  (((v / 128 =? 0) && (Z.land (v mod 128) 0x40 =? 0))
   || ((v / 128 =? -1) && negb (Z.land (v mod 128) 0x40 =? 0)))%bool = (-64 <=? v) && (v <? 64).
Proof.
  assert (Hm : 0 <= v mod 128 < 128) by (apply Z.mod_pos_bound; lia).
  destruct (low7 (v mod 128) Hm) as (_ & _ & _ & _ & _ & ->). pose proof (Z.div_mod v 128 ltac:(lia)) as Hd.
  destruct (Z.eqb_spec (v / 128) 0); destruct (Z.eqb_spec (v / 128) (-1)); destruct (Z.ltb_spec (v mod 128) 64);
    destruct (Z.leb_spec (-64) v); destruct (Z.ltb_spec v 64); simpl; try done; lia.
Qed.

Lemma land_wrap_7F v : Z.land (wrap_u8 v) 0x7f = v mod 128.
Proof.
  rewrite land_7F. unfold wrap_u8. symmetry. change 256 with (128 * 2).
  rewrite Z.rem_mul_r by lia. rewrite Z.mul_comm, Z_mod_plus_full, Z.mod_mod by lia. done.
Qed.

Lemma write_signed_loop_ok n fuel out i v :
  (n < fuel)%nat -> -64 * 128 ^ Z.of_nat n <= v < 64 * 128 ^ Z.of_nat n -> (i + S n <= length out)%nat ->
  exists bs, sleb v bs /\ (length bs <= S n)%nat /\
    write_signed_loop fuel out i v = Ret (overwrite out i bs, (i + length bs)%nat).
Proof.
  revert fuel out i v. induction n as [|n IH]; intros [|fuel] out i v Hf Hv Hl; try lia.
  all: cbn [write_signed_loop]; rewrite land_wrap_7F, shiftr_7, signed_done; unfold store;
    rewrite (proj2 (Nat.ltb_lt _ _)) by lia; cbn [obind].
  all: destruct ((-64 <=? v) && (v <? 64)) eqn:E; cbn [negb].
  1, 3: propify; exists [v mod 128]; split; [apply sleb_last; lia|]; split; [simpl; lia|]; cbn [length];
    rewrite overwrite_one, Nat.add_1_r by lia; done.
  all: assert (~ (-64 <= v < 64)) by (intros ?; rewrite (proj2 (Z.leb_le _ _)), (proj2 (Z.ltb_lt _ _)) in E by lia; done).
  - exfalso. change (128 ^ Z.of_nat 0) with 1 in Hv. lia.
  - assert (Hm : 0 <= v mod 128 < 128) by (apply Z.mod_pos_bound; lia).
    destruct (low7 (v mod 128) Hm) as (_ & _ & _ & _ & -> & _).
    destruct (IH fuel (<[i := v mod 128 + 128]> out) (S i) (v / 128)) as (bs & Hu & Hlen & Hw).
    + lia.
    + rewrite Nat2Z.inj_succ, Z.pow_succ_r in Hv by lia. split.
      * apply Z.div_le_lower_bound; lia.
      * apply Z.div_lt_upper_bound; lia.
    + rewrite length_insert. lia.
    + exists (v mod 128 + 128 :: bs). split; [by apply sleb_more|]. split; [simpl; lia|].
      rewrite Hw, store_overwrite by (simpl; lia). cbn [length]. do 2 f_equal. lia.
Qed.

(** ** Reading back *)

Lemma read_u8_at pre b bs rest : read_u8 (mkDecoder (pre ++ (b :: bs) ++ rest) (length pre))
  = Ret (b, mkDecoder ((pre ++ [b]) ++ bs ++ rest) (length (pre ++ [b]))).
Proof.
  unfold read_u8, advance. cbn [current bytes]. destruct (Nat.eqb_spec (length pre) (length (pre ++ (b :: bs) ++ rest))) as [E|_].
  { rewrite !length_app in E. simpl in E. lia. }
  rewrite lookup_app_r, Nat.sub_diag by done. cbn. by rewrite length_app, <- app_assoc.
Qed.

Lemma lor_shifted a b s : 0 <= s -> 0 <= a < 2 ^ s -> Z.lor a (b * 2 ^ s) = a + b * 2 ^ s.
Proof.
  intros Hs Ha. rewrite <- Z.add_lor_land. replace (Z.land a (b * 2 ^ s)) with 0; [lia|]. symmetry.
  apply Z.bits_inj'. intros n Hn. rewrite Z.land_spec, Z.bits_0.
  destruct (Z.ltb_spec n s).
  - rewrite Z.mul_pow2_bits_low by lia. apply andb_false_r.
  - rewrite <- (Z.mod_small a (2 ^ s)) by lia. rewrite Z.mod_pow2_bits_high by lia. done.
Qed.

Lemma shl_small bits x s : 0 <= s < bits -> 0 <= x * 2 ^ s < 2 ^ bits -> shl bits x s = x * 2 ^ s.
Proof.
  intros Hs Hx. unfold shl. rewrite (Z.mod_small s) by lia. rewrite Z.shiftl_mul_pow2 by lia. by apply Z.mod_small.
Qed.

Lemma shift_next s bits : 0 <= s < bits -> bits <= 128 -> debug_strict_add_u32 s 7 = s + 7.
Proof. intros Hs Hb. unfold debug_strict_add_u32, wrap_u32. apply Z.mod_small. lia. Qed.

Lemma uleb_pos v bs : uleb v bs -> 0 <= v.
Proof. destruct 1; lia. Qed.

(** A byte with its high bit set, then the rest of the number. *)
Lemma more_split v s : 0 <= s -> v mod 128 * 2 ^ s + v / 128 * 2 ^ (s + 7) = v * 2 ^ s.
Proof.
  intros Hs. rewrite Z.pow_add_r by lia. change (2 ^ 7) with 128. pose proof (Z.div_mod v 128 ltac:(lia)). nia.
Qed.

Lemma read_unsigned_loop_ok bits v bs : uleb v bs -> forall fuel pre rest result s,
  0 <= bits <= 128 -> (length bs <= fuel)%nat -> 0 <= s -> 0 <= result < 2 ^ s -> 1 <= v -> result + v * 2 ^ s < 2 ^ bits ->
  read_unsigned_loop fuel bits result s (mkDecoder (pre ++ bs ++ rest) (length pre))
  = Ret (result + v * 2 ^ s, mkDecoder ((pre ++ bs) ++ rest) (length (pre ++ bs))).
Proof.
  induction 1 as [v Hv|v bs Hv Hu IH]; intros [|fuel] pre rest result s Hb Hf Hs Hr H1 Hlt; cbn [length] in Hf; try lia.
  all: assert (Hp : 0 < 2 ^ s) by (apply Z.pow_pos_nonneg; lia).
  all: assert (Hsb : s < bits) by (apply (Z.pow_lt_mono_r_iff 2); [lia|lia|nia]).
  all: cbn [read_unsigned_loop]; rewrite read_u8_at; cbn [obind].
  - destruct (low7 v Hv) as (-> & _). cbn [Z.eqb]. rewrite shl_small by nia. rewrite lor_shifted by lia.
    by rewrite <- !app_assoc.
  - assert (Hm : 0 <= v mod 128 < 128) by (apply Z.mod_pos_bound; lia).
    destruct (low7 _ Hm) as (_ & -> & Hn & _). rewrite (proj2 (Z.eqb_neq _ _) Hn).
    pose proof (more_split v s Hs) as Hd. rewrite (shift_next s bits) by lia.
    assert (1 <= v / 128) by (apply Z.div_le_lower_bound; lia).
    assert (0 < 2 ^ (s + 7)) by (apply Z.pow_pos_nonneg; lia).
    rewrite shl_small by nia. rewrite lor_shifted by lia. rewrite IH; [|lia|lia|lia| |lia|lia].
    + replace (result + v mod 128 * 2 ^ s + v / 128 * 2 ^ (s + 7)) with (result + v * 2 ^ s) by lia.
      by rewrite <- !app_assoc.
    + rewrite Z.pow_add_r by lia. change (2 ^ 7) with 128. nia.
Qed.

Lemma read_unsigned_ok bits v bs pre rest : uleb v bs -> v < 2 ^ bits -> 7 < bits <= 128 ->
  read_unsigned_leb128 bits (mkDecoder (pre ++ bs ++ rest) (length pre))
  = Ret (v, mkDecoder ((pre ++ bs) ++ rest) (length (pre ++ bs))).
Proof.
  intros Hu Hv Hb. unfold read_unsigned_leb128. destruct Hu as [v Hs|v bs Hs Hu].
  - rewrite read_u8_at. cbn [obind]. destruct (low7 v Hs) as (-> & _). cbn [Z.eqb]. by rewrite <- !app_assoc.
  - assert (Hm : 0 <= v mod 128 < 128) by (apply Z.mod_pos_bound; lia).
    rewrite read_u8_at. cbn [obind]. destruct (low7 _ Hm) as (_ & -> & Hn & _). rewrite (proj2 (Z.eqb_neq _ _) Hn).
    pose proof (Z.div_mod v 128 ltac:(lia)) as Hd. assert (1 <= v / 128) by (apply Z.div_le_lower_bound; lia).
    rewrite (read_unsigned_loop_ok bits _ bs Hu); [|lia| |lia|change (2 ^ 7) with 128; lia|lia|change (2 ^ 7) with 128; lia].
    + replace (v mod 128 + v / 128 * 2 ^ 7) with v by (change (2 ^ 7) with 128; lia). by rewrite <- !app_assoc.
    + unfold remaining. cbn [bytes current]. rewrite !length_app. lia.
Qed.

(** *** Signed *)

Lemma as_signed_mod bits p w : 0 < bits -> - 2 ^ (bits - 1) <= w < 2 ^ (bits - 1) ->
  p = w \/ p = w + 2 ^ bits -> 0 <= p < 2 ^ bits -> as_signed bits p = w.
Proof.
  intros Hb Hw Hp Hr. unfold as_signed.
  assert (2 ^ bits = 2 * 2 ^ (bits - 1)) by (rewrite <- Z.pow_succ_r by lia; f_equal; lia).
  destruct (Z.ltb_spec p (2 ^ (bits - 1))); lia.
Qed.

(** Sign extension, as [read_signed_leb128] does it after its loop. *)
Definition sign_extend (bits result shift byte : Z) : Z :=
  if (shift <? bits) && negb (Z.land byte 0x40 =? 0)
  then Z.lor result (shl bits (2 ^ bits - 1) shift) else result.

Lemma pow_split bits s : 0 <= s <= bits -> 2 ^ bits = 2 ^ (bits - s) * 2 ^ s.
Proof. intros H. rewrite <- Z.pow_add_r by lia. f_equal. lia. Qed.

Lemma shl_ones bits s : 0 <= s < bits -> shl bits (2 ^ bits - 1) s = (2 ^ (bits - s) - 1) * 2 ^ s.
Proof.
  intros Hs. unfold shl. rewrite (Z.mod_small s) by lia. rewrite Z.shiftl_mul_pow2 by lia.
  pose proof (pow_split bits s ltac:(lia)) as Hp.
  assert (0 < 2 ^ s) by (apply Z.pow_pos_nonneg; lia). assert (0 < 2 ^ (bits - s)) by (apply Z.pow_pos_nonneg; lia).
  assert (Hk : 2 ^ s <= 2 ^ bits) by (apply Z.pow_le_mono_r; lia).
  replace ((2 ^ bits - 1) * 2 ^ s) with ((2 ^ bits - 2 ^ s) + (2 ^ s - 1) * 2 ^ bits) by lia.
  rewrite Z_mod_plus_full, Z.mod_small by lia. lia.
Qed.

(** The last byte when it reaches the top of the word: the shift drops the extra sign bits. *)
Lemma shl_last bits v s : 0 <= s < bits -> bits <= s + 7 ->
  - 2 ^ (bits - 1) <= v * 2 ^ s < 2 ^ (bits - 1) ->
  exists c, shl bits (v mod 128) s = c * 2 ^ s /\ 0 <= c * 2 ^ s < 2 ^ bits
    /\ (c * 2 ^ s = v * 2 ^ s \/ c * 2 ^ s = v * 2 ^ s + 2 ^ bits).
Proof.
  intros Hs Hb Hv. unfold shl. rewrite (Z.mod_small s) by lia. rewrite Z.shiftl_mul_pow2 by lia.
  pose proof (pow_split bits s ltac:(lia)) as Hp. pose proof (Z.div_mod v 128 ltac:(lia)) as Hd.
  assert (H2 : 2 ^ bits = 2 * 2 ^ (bits - 1)) by (rewrite <- Z.pow_succ_r by lia; f_equal; lia).
  assert (Hk : 128 * 2 ^ s = 2 ^ (7 - (bits - s)) * 2 ^ bits).
  { change 128 with (2 ^ 7). rewrite <- !Z.pow_add_r by lia. f_equal. lia. }
  assert (Hmod : v mod 128 * 2 ^ s mod 2 ^ bits = (v * 2 ^ s) mod 2 ^ bits).
  { replace (v mod 128 * 2 ^ s) with (v * 2 ^ s - v / 128 * (128 * 2 ^ s)) by (rewrite Hd at 1; ring).
    rewrite Hk. replace (v * 2 ^ s - v / 128 * (2 ^ (7 - (bits - s)) * 2 ^ bits))
      with (v * 2 ^ s + (- (v / 128) * 2 ^ (7 - (bits - s))) * 2 ^ bits) by ring.
    by rewrite Z_mod_plus_full. }
  rewrite Hmod. assert (0 < 2 ^ s) by (apply Z.pow_pos_nonneg; lia).
  assert (0 < 2 ^ (bits - 1)) by (apply Z.pow_pos_nonneg; lia).
  destruct (Z.ltb_spec v 0).
  - assert (Hneg : v * 2 ^ s < 0) by (apply Z.mul_neg_pos; lia).
    exists (v + 2 ^ (bits - s)). rewrite <- (Z_mod_plus_full _ 1), Z.mod_small by lia. rewrite Z.mul_add_distr_r. lia.
  - assert (Hpos : 0 <= v * 2 ^ s) by (apply Z.mul_nonneg_nonneg; lia). exists v. rewrite Z.mod_small by lia. lia.
Qed.

Lemma signed_last bits v s result : 0 <= s < bits -> -64 <= v < 64 -> 0 <= result < 2 ^ s ->
  - 2 ^ (bits - 1) <= v * 2 ^ s < 2 ^ (bits - 1) ->
  let p := sign_extend bits (Z.lor result (shl bits (v mod 128) s)) (s + 7) (v mod 128) in
  0 <= p < 2 ^ bits /\ (p = result + v * 2 ^ s \/ p = result + v * 2 ^ s + 2 ^ bits).
Proof.
  intros Hs H64 Hr Hv. cbv zeta. unfold sign_extend. assert (Hm : 0 <= v mod 128 < 128) by (apply Z.mod_pos_bound; lia).
  destruct (low7 _ Hm) as (_ & _ & _ & _ & _ & ->). assert (0 < 2 ^ s) by (apply Z.pow_pos_nonneg; lia).
  destruct (Z.ltb_spec (s + 7) bits) as [Hb|Hb]; cbn [andb].
  - assert (Hvm : v mod 128 = v \/ v mod 128 = v + 128).
    { pose proof (Z.div_mod v 128 ltac:(lia)). lia. }
    assert (H7 : 2 ^ (s + 7) = 128 * 2 ^ s) by (rewrite Z.pow_add_r by lia; change (2 ^ 7) with 128; lia).
    pose proof (pow_split bits (s + 7) ltac:(lia)) as Hp.
    assert (0 < 2 ^ (bits - (s + 7))) by (apply Z.pow_pos_nonneg; lia).
    assert (2 ^ (s + 7) <= 2 ^ bits) by (apply Z.pow_le_mono_r; lia).
    rewrite shl_small by nia. rewrite lor_shifted by lia.
    destruct (Z.ltb_spec (v mod 128) 64); cbn [negb]; [nia|].
    rewrite shl_ones by lia. rewrite lor_shifted by nia. nia.
  - destruct (shl_last bits v s ltac:(lia) ltac:(lia) Hv) as (c & -> & Hc & Heq). rewrite lor_shifted by lia.
    pose proof (pow_split bits s ltac:(lia)) as Hp. assert (0 < 2 ^ (bits - s)) by (apply Z.pow_pos_nonneg; lia).
    assert (Hck : c < 2 ^ (bits - s)) by (apply (Z.mul_lt_mono_pos_r (2 ^ s)); lia).
    assert (c * 2 ^ s <= (2 ^ (bits - s) - 1) * 2 ^ s) by (apply Z.mul_le_mono_nonneg_r; lia). lia.
Qed.

Lemma read_signed_loop_ok bits v bs : sleb v bs -> forall fuel pre rest result s,
  0 < bits <= 128 -> (length bs <= fuel)%nat -> 0 <= s < bits -> 0 <= result < 2 ^ s ->
  - 2 ^ (bits - 1) <= v * 2 ^ s < 2 ^ (bits - 1) ->
  exists r s' b, read_signed_loop fuel bits result s (mkDecoder (pre ++ bs ++ rest) (length pre))
      = Ret (r, s', b, mkDecoder ((pre ++ bs) ++ rest) (length (pre ++ bs)))
    /\ let p := sign_extend bits r s' b in
       0 <= p < 2 ^ bits /\ (p = result + v * 2 ^ s \/ p = result + v * 2 ^ s + 2 ^ bits).
Proof.
  induction 1 as [v Hv|v bs Hv Hu IH]; intros [|fuel] pre rest result s Hb Hf Hs Hr Hlt; cbn [length] in Hf; try lia.
  all: assert (Hm : 0 <= v mod 128 < 128) by (apply Z.mod_pos_bound; lia).
  all: assert (Hp : 0 < 2 ^ s) by (apply Z.pow_pos_nonneg; lia).
  all: cbn [read_signed_loop]; rewrite read_u8_at; cbn [obind]; rewrite (shift_next s bits) by lia.
  - destruct (low7 _ Hm) as (-> & _ & _ & -> & _). cbn [Z.eqb]. do 3 eexists. split; [by rewrite <- !app_assoc|].
    by apply signed_last.
  - destruct (low7 _ Hm) as (_ & -> & Hn & _). rewrite (proj2 (Z.eqb_neq _ _) Hn).
    assert (H7 : 2 ^ (s + 7) = 128 * 2 ^ s) by (rewrite Z.pow_add_r by lia; change (2 ^ 7) with 128; lia).
    assert (Hsb : s + 6 < bits - 1).
    { apply (Z.pow_lt_mono_r_iff 2); [lia|lia|]. rewrite Z.pow_add_r by lia. change (2 ^ 6) with 64. nia. }
    pose proof (pow_split (bits - 1) (s + 7) ltac:(lia)) as Hq. pose proof (more_split v s ltac:(lia)) as Hd.
    assert (Hbb : 2 ^ (bits - 1) < 2 ^ bits) by (apply Z.pow_lt_mono_r; lia).
    pose proof (Z.div_mod v 128 ltac:(lia)) as Hvd.
    assert (Hlo : - 2 ^ (bits - 1 - (s + 7)) <= v / 128) by (apply Z.div_le_lower_bound; [lia|]; nia).
    rewrite shl_small, lor_shifted; [|lia|lia|lia|].
    2: { assert (2 ^ (s + 7) <= 2 ^ (bits - 1)) by (apply Z.pow_le_mono_r; lia). nia. }
    destruct (IH fuel (pre ++ [v mod 128 + 128]) rest (result + v mod 128 * 2 ^ s) (s + 7)) as (r & s' & b & Hl & Hpp);
      [lia|lia|lia|nia|nia|].
    rewrite Hl. do 3 eexists. split; [by rewrite <- !app_assoc|]. cbv zeta in *.
    replace (result + v * 2 ^ s) with (result + v mod 128 * 2 ^ s + v / 128 * 2 ^ (s + 7)) by lia. done.
Qed.

Lemma read_signed_ok bits v bs pre rest : sleb v bs -> 0 < bits <= 128 ->
  - 2 ^ (bits - 1) <= v < 2 ^ (bits - 1) ->
  read_signed_leb128 bits (mkDecoder (pre ++ bs ++ rest) (length pre))
  = Ret (v, mkDecoder ((pre ++ bs) ++ rest) (length (pre ++ bs))).
Proof.
  intros Hu Hb Hv. unfold read_signed_leb128.
  destruct (read_signed_loop_ok bits v bs Hu (S (remaining (mkDecoder (pre ++ bs ++ rest) (length pre)))) pre rest 0 0)
    as (r & s' & b & -> & Hp & Heq); [lia| |lia|change (2 ^ 0) with 1; lia|change (2 ^ 0) with 1; lia|].
  { unfold remaining. cbn [bytes current]. rewrite !length_app. lia. }
  cbn [obind]. fold (sign_extend bits r s' b). f_equal. f_equal. apply as_signed_mod; [lia|lia| |done].
  change (2 ^ 0) with 1 in Heq. lia.
Qed.
