(* ===== verification/Opaque.v ===== *)
(** * The opaque encoders and decoder ([src/rustc_serialize/opaque.rs], [opaque/mem_encoder.rs]
    and the provided methods of [serialize.rs])

    [FileEncoder] writes through a fixed buffer to a file and delays errors to [finish];
    [MemEncoder] appends to a vector; [MemDecoder] reads.  The file is the one of an
    external crate: its [write_all] is a parameter.  Byte counts are natural numbers; they
    stay below [2^64]. *)
From Stdlib Require Import Ascii String.
From Stdlib Require Import ZArith Lia.
From stdpp Require Import base numbers list.
From S2P Require Import Prelude RustStr Leb128.
Open Scope Z_scope.
Open Scope rust_scope.

Definition MAGIC_END_BYTES : list Z := as_bytes (lit "rust-end-file").

(** [64 * 1024]. *)
Definition BUF_SIZE : nat := Z.to_nat (64 * 1024).

Definition STR_SENTINEL : Z := 0xC1.
Definition BYTE_STR_SENTINEL : Z := 0xC2.

(** ** What both encoders provide *)

(** [write_with] hands an array of [N] bytes to a visitor, which returns the array and how many
    bytes of it count; [emit_raw_bytes] appends a slice. *)
Class Encoder (E : Type) := {
  write_with : nat -> (list Z -> outcome (list Z * nat)) -> E -> outcome E;
  emit_raw_bytes : list Z -> E -> outcome E;
}.

Section Emit.
Context {E : Type} `{Encoder E}.

Definition write_array (bs : list Z) (e : E) : outcome E :=
  write_with (length bs) (fun _ => Ret (bs, length bs)) e.

Definition emit_usize (v : Z) (e : E) : outcome E :=
  write_with (max_leb128_len 64) (fun buf => write_usize_leb128 buf v) e.
Definition emit_u128 (v : Z) (e : E) : outcome E :=
  write_with (max_leb128_len 128) (fun buf => write_u128_leb128 buf v) e.
Definition emit_u64 (v : Z) (e : E) : outcome E :=
  write_with (max_leb128_len 64) (fun buf => write_u64_leb128 buf v) e.
Definition emit_u32 (v : Z) (e : E) : outcome E :=
  write_with (max_leb128_len 32) (fun buf => write_u32_leb128 buf v) e.
Definition emit_u16 (v : Z) (e : E) : outcome E := write_array (to_le_bytes 2 v) e.
Definition emit_u8 (v : Z) (e : E) : outcome E := write_array [v] e.
Definition emit_isize (v : Z) (e : E) : outcome E :=
  write_with (max_leb128_len 64) (fun buf => write_isize_leb128 buf v) e.
Definition emit_i128 (v : Z) (e : E) : outcome E :=
  write_with (max_leb128_len 128) (fun buf => write_i128_leb128 buf v) e.
Definition emit_i64 (v : Z) (e : E) : outcome E :=
  write_with (max_leb128_len 64) (fun buf => write_i64_leb128 buf v) e.
Definition emit_i32 (v : Z) (e : E) : outcome E :=
  write_with (max_leb128_len 32) (fun buf => write_i32_leb128 buf v) e.
Definition emit_i16 (v : Z) (e : E) : outcome E := write_array (to_le_bytes 2 (v mod 2 ^ 16)) e.

(** The provided methods of the trait. *)
Definition emit_i8 (v : Z) (e : E) : outcome E := emit_u8 (wrap_u8 v) e.
Definition emit_bool (v : bool) (e : E) : outcome E := emit_u8 (if v then 1 else 0) e.
Definition emit_char (v : char) (e : E) : outcome E := emit_u32 v e.
Definition emit_str (v : str) (e : E) : outcome E :=
  let* e := emit_usize (Z.of_nat (str_len v)) e in
  let* e := emit_raw_bytes (as_bytes v) e in
  emit_u8 STR_SENTINEL e.
Definition emit_byte_str (v : list Z) (e : E) : outcome E :=
  let* e := emit_usize (Z.of_nat (length v)) e in
  let* e := emit_raw_bytes v e in
  emit_u8 BYTE_STR_SENTINEL e.
Definition emit_u8_slice (s : list Z) (e : E) : outcome E := emit_raw_bytes s e.

(** [IntEncodedWithFixedSize]. *)
Definition encode_fixed (v : Z) (e : E) : outcome E := write_array (to_le_bytes 8 v) e.
End Emit.

(** ** [MemEncoder] *)

Record MemEncoder := mkMemEncoder { data : list Z }.

Definition mem_new : MemEncoder := mkMemEncoder [].
Definition mem_position (e : MemEncoder) : nat := length (data e).
Definition mem_finish (e : MemEncoder) : list Z := data e.

Definition mem_write_with (N : nat) (visitor : list Z -> outcome (list Z * nat)) (e : MemEncoder)
    : outcome MemEncoder :=
  let* '(buf, written) := visitor (replicate N 0) in
  if (N <? written)%nat then Panic else Ret (mkMemEncoder (data e ++ take written buf)).

Definition mem_emit_raw_bytes (s : list Z) (e : MemEncoder) : outcome MemEncoder :=
  Ret (mkMemEncoder (data e ++ s)).

#[export] Instance MemEncoder_Encoder : Encoder MemEncoder :=
  {| write_with := mem_write_with; emit_raw_bytes := mem_emit_raw_bytes |}.

(** ** [FileEncoder] *)

(** [eko::file::File]: [write_all] returns the file and an error, if any. *)
Class FileOps (File Error : Type) := {
  file_write_all : File -> list Z -> File * option Error;
  contents : File -> list Z;
}.

(** [write_all] succeeds only after appending the whole slice. *)
Class FileOk (File Error : Type) `{FileOps File Error} :=
  write_all_appends : forall f bs f', file_write_all f bs = (f', None) -> contents f' = contents f ++ bs.

Section FileEncoder.
Context {File Error : Type} `{FileOps File Error}.

(** [res] is [None] for [Ok(())]; [strategy] holds the slices a flush strategy was called with. *)
Record FileEncoder := mkFileEncoder {
  buf : list Z;
  buffered : nat;
  flushed : nat;
  file : File;
  res : option Error;
  strategy : option (list (list Z));
}.

Definition file_new (f : File) : FileEncoder := mkFileEncoder (replicate BUF_SIZE 0) 0 0 f None None.
Definition with_flush_strategy (f : File) : FileEncoder :=
  mkFileEncoder (replicate BUF_SIZE 0) 0 0 f None (Some []).

Definition file_position (e : FileEncoder) : nat := (flushed e + buffered e)%nat.

(** [if self.res.is_ok() { self.res = self.file.write_all(bs) }] *)
Definition try_write (e : FileEncoder) (bs : list Z) : File * option Error :=
  match res e with None => file_write_all (file e) bs | Some err => (file e, Some err) end.

Definition flush (e : FileEncoder) : outcome FileEncoder :=
  let* chunk := unwrap (get_range (buf e) 0 (buffered e)) in
  let '(f, r) := try_write e chunk in
  Ret (mkFileEncoder (buf e) 0 (flushed e + buffered e) f r ((fun l => l ++ [chunk]) <$> strategy e)).

Definition write_all_cold_path (e : FileEncoder) (bs : list Z) : outcome FileEncoder :=
  let* e := flush e in
  if (length bs <=? length (buf e))%nat then
    Ret (mkFileEncoder (overwrite (buf e) 0 bs) (buffered e + length bs) (flushed e) (file e) (res e) (strategy e))
  else
    let e :=
      match res e with
      | None =>
          let '(f, r) := file_write_all (file e) bs in
          mkFileEncoder (buf e) (buffered e) (flushed e) f r ((fun l => l ++ [bs]) <$> strategy e)
      | Some _ => e
      end in
    Ret (mkFileEncoder (buf e) (buffered e) (flushed e + length bs) (file e) (res e) (strategy e)).

Definition write_all (bs : list Z) (e : FileEncoder) : outcome FileEncoder :=
  if (buffered e + length bs <=? length (buf e))%nat then
    Ret (mkFileEncoder (overwrite (buf e) (buffered e) bs) (buffered e + length bs)
           (flushed e) (file e) (res e) (strategy e))
  else write_all_cold_path e bs.

Definition file_write_with (N : nat) (visitor : list Z -> outcome (list Z * nat)) (e : FileEncoder)
    : outcome FileEncoder :=
  let* _ := assert_that (N <=? BUF_SIZE)%nat in
  let flush_threshold := (BUF_SIZE - N)%nat in
  let* e := if (flush_threshold <? buffered e)%nat then flush e else Ret e in
  let* dest := unwrap (get_range (buf e) (buffered e) (buffered e + N)) in
  let* '(dest, written) := visitor dest in
  if (N <? written)%nat then Panic
  else Ret (mkFileEncoder (overwrite (buf e) (buffered e) dest) (buffered e + written)
              (flushed e) (file e) (res e) (strategy e)).

(** [Ok(position)] or the first error. *)
Definition finish (e : FileEncoder) : outcome ((nat + Error) * FileEncoder) :=
  let* e := write_all MAGIC_END_BYTES e in
  let* e := flush e in
  let r := res e in
  let e := mkFileEncoder (buf e) (buffered e) (flushed e) (file e) None (strategy e) in
  Ret (match r with None => inl (file_position e) | Some err => inr err end, e).
End FileEncoder.
Arguments FileEncoder : clear implicits.

#[export] Instance FileEncoder_Encoder {File Error} `{FileOps File Error} : Encoder (FileEncoder File Error) :=
  {| write_with := file_write_with; emit_raw_bytes := write_all |}.

(** ** [MemDecoder] *)

(** [slice::strip_suffix]. *)
Definition strip_suffix (suffix l : list Z) : option (list Z) :=
  let n := (length l - length suffix)%nat in
  if decide (drop n l = suffix) then Some (take n l) else None.

(** [None] is [Err(())]; [data[position..]] panics past the end. *)
Definition decoder_new (data : list Z) (position : nat) : outcome (option MemDecoder) :=
  match strip_suffix MAGIC_END_BYTES data with
  | None => Ret None
  | Some data => if (position <=? length data)%nat then Ret (Some (mkDecoder data position)) else Panic
  end.

Definition decoder_len (d : MemDecoder) : nat := length (bytes d).
Definition decoder_position (d : MemDecoder) : nat := current d.

Definition split_at (d : MemDecoder) (position : nat) : outcome MemDecoder :=
  let* _ := assert_that (position <=? decoder_len d)%nat in Ret (mkDecoder (bytes d) position).

(** The guard restores the cursor when [func] returns. *)
Definition with_position {T} (d : MemDecoder) (pos : nat) (func : MemDecoder -> outcome (T * MemDecoder))
    : outcome (T * MemDecoder) :=
  if (decoder_len d <=? pos)%nat then Panic
  else let* '(t, _) := func (mkDecoder (bytes d) pos) in Ret (t, d).

Definition read_raw_bytes (d : MemDecoder) (n : nat) : outcome (list Z * MemDecoder) :=
  if (remaining d <? n)%nat then Panic
  else Ret (take n (drop (current d) (bytes d)), advance d n).

Definition read_array (n : nat) (d : MemDecoder) : outcome (list Z * MemDecoder) := read_raw_bytes d n.

Definition read_u8_vec (d : MemDecoder) (len : nat) : outcome (list Z * MemDecoder) := read_raw_bytes d len.

Definition peek_byte (d : MemDecoder) : outcome Z :=
  if (current d =? length (bytes d))%nat then Panic else unwrap (bytes d !! current d).

Definition read_usize := read_usize_leb128.
Definition read_u128 := read_u128_leb128.
Definition read_u64 := read_u64_leb128.
Definition read_u32 := read_u32_leb128.
Definition read_u16 (d : MemDecoder) : outcome (Z * MemDecoder) :=
  let* '(bs, d) := read_array 2 d in Ret (from_le_bytes bs, d).
Definition read_isize := read_isize_leb128.
Definition read_i128 := read_i128_leb128.
Definition read_i64 := read_i64_leb128.
Definition read_i32 := read_i32_leb128.
Definition read_i16 (d : MemDecoder) : outcome (Z * MemDecoder) :=
  let* '(bs, d) := read_array 2 d in Ret (as_signed 16 (from_le_bytes bs), d).

Definition read_i8 (d : MemDecoder) : outcome (Z * MemDecoder) :=
  let* '(b, d) := read_u8 d in Ret (as_signed 8 b, d).
Definition read_bool (d : MemDecoder) : outcome (bool * MemDecoder) :=
  let* '(value, d) := read_u8 d in Ret (negb (value =? 0), d).
Definition read_char (d : MemDecoder) : outcome (char * MemDecoder) :=
  let* '(b, d) := read_u32 d in
  if is_scalar b then Ret (b, d) else Panic.

(** A length-prefixed slice and the byte after it, which must be the sentinel. *)
Definition read_sentinel (sentinel : Z) (d : MemDecoder) : outcome (list Z * MemDecoder) :=
  let* '(len, d) := read_usize d in
  let len := Z.to_nat len in
  let* '(bs, d) := read_raw_bytes d (len + 1) in
  let* last := unwrap (bs !! len) in
  let* _ := assert_that (last =? sentinel) in
  Ret (take len bs, d).
Definition read_str := read_sentinel STR_SENTINEL.
Definition read_byte_str := read_sentinel BYTE_STR_SENTINEL.

Definition decode_fixed (d : MemDecoder) : outcome (Z * MemDecoder) :=
  let* '(bs, d) := read_array 8 d in Ret (from_le_bytes bs, d).
