(* ===== verification/OpaqueTheorems.v ===== *)
(** * Serialization: what is written is what is read

    The laws of an encoder as a class, its two implementations, the encodings of the primitive
    values, and the round trip through a file. *)
From Stdlib Require Import Ascii String.
From Stdlib Require Import ZArith Lia.
From stdpp Require Import base numbers list.
From S2P Require Import Prelude RustStr Leb128 Opaque.
Open Scope Z_scope.
Open Scope rust_scope.

(** ** The interface *)

(** A visitor that fills its array of [N] bytes and reports the bytes [bs]. *)
Definition visits (N : nat) (visitor : list Z -> outcome (list Z * nat)) (bs : list Z) : Prop :=
  (length bs <= N <= 32)%nat /\
  forall dest, length dest = N ->
    exists dest', visitor dest = Ret (dest', length bs) /\ length dest' = N /\ take (length bs) dest' = bs.

(** [accepted e bs]: the encoder is in a valid state after accepting the bytes [bs]. *)
Class EncoderOk (E : Type) `{Encoder E} := {
  accepted : E -> list Z -> Prop;
  write_with_ok : forall e acc N visitor bs, accepted e acc -> visits N visitor bs ->
    runs (write_with N visitor e) (fun e' => accepted e' (acc ++ bs));
  emit_raw_bytes_ok : forall e acc bs, accepted e acc ->
    runs (emit_raw_bytes bs e) (fun e' => accepted e' (acc ++ bs));
}.

(** ** The vector *)

#[export, program] Instance MemEncoder_Ok : EncoderOk MemEncoder := {| accepted := fun e bs => data e = bs |}.
Next Obligation.
  intros e acc N visitor bs <- [Hl Hv]. cbn. unfold mem_write_with.
  destruct (Hv (replicate N 0)) as (dest & -> & Hd & Ht); [apply length_replicate|]. cbn [obind].
  rewrite (proj2 (Nat.ltb_ge _ _)) by lia. apply runs_ret. by rewrite <- Ht at 2.
Qed.
Next Obligation. intros e acc bs <-. by apply runs_ret. Qed.

(** ** The file *)

Lemma BUF_SIZE_val : Z.of_nat BUF_SIZE = 65536.
Proof. unfold BUF_SIZE. rewrite Z2Nat.id by lia. done. Qed.
#[local] Opaque BUF_SIZE.

Section File.
Context {File Error : Type} `{FO : FileOps File Error} {FOk : FileOk File Error}.
Context (init : list Z).

(** While no write failed, the file and the pending part of the buffer hold everything accepted
    since the file had the contents [init], and so do the slices of a flush strategy. *)
Record file_accepted (e : FileEncoder File Error) (bs : list Z) : Prop := {
  fa_buf : length (buf e) = BUF_SIZE;
  fa_buffered : (buffered e <= BUF_SIZE)%nat;
  fa_position : file_position e = length bs;
  fa_contents : res e = None -> contents (file e) ++ take (buffered e) (buf e) = init ++ bs;
  fa_strategy : res e = None -> forall l, strategy e = Some l -> mjoin l ++ take (buffered e) (buf e) = bs;
}.

Lemma mjoin_snoc {A} (l : list (list A)) x : mjoin (l ++ [x]) = mjoin l ++ x.
Proof. induction l as [|y l IH]; simpl; [by rewrite app_nil_r|]. change (list_join ?l) with (mjoin l). by rewrite IH, app_assoc. Qed.

Lemma flush_ok e acc : file_accepted e acc ->
  runs (flush e) (fun e' => file_accepted e' acc /\ buffered e' = 0%nat).
Proof.
  intros [Hb Hl Hp Hc Hs]. unfold flush, get_range. cbn [Nat.leb andb].
  rewrite (proj2 (Nat.leb_le _ _)) by lia. rewrite drop_0, Nat.sub_0_r. cbn [unwrap obind].
  unfold try_write. destruct (res e) as [err|] eqn:Er.
  - apply runs_ret. split; [|done]. constructor; cbn; try done; try lia.
    unfold file_position in *. cbn. lia.
  - destruct (file_write_all (file e) (take (buffered e) (buf e))) as [f' r] eqn:Ew. apply runs_ret.
    split; [|done]. constructor; cbn; try done; try lia.
    + unfold file_position in *. cbn. lia.
    + intros ->. apply write_all_appends in Ew. by rewrite Ew, app_nil_r, Hc.
    + intros ->. destruct (strategy e) as [l0|] eqn:El; [|done]. intros l [= <-].
      rewrite app_nil_r, mjoin_snoc. by apply Hs.
Qed.

Lemma take_overwrite l i dest n : (i + length dest <= length l)%nat -> (n <= length dest)%nat ->
  take (i + n) (overwrite l i dest) = take i l ++ take n dest /\ length (overwrite l i dest) = length l.
Proof.
  intros Hl Hn. unfold overwrite. assert (Hi : length (take i l) = i) by (rewrite length_take; lia). split.
  - rewrite take_app_ge by lia. rewrite Hi. replace (i + n - i)%nat with n by lia. by rewrite take_app_le.
  - rewrite !length_app, Hi, length_drop. lia.
Qed.

(** Appending to the pending part of the buffer. *)
Lemma append_accepted e acc dest n : file_accepted e acc ->
  (buffered e + length dest <= BUF_SIZE)%nat -> (n <= length dest)%nat ->
  file_accepted (mkFileEncoder (overwrite (buf e) (buffered e) dest) (buffered e + n)
    (flushed e) (file e) (res e) (strategy e)) (acc ++ take n dest).
Proof.
  intros [Hb Hl Hp Hc Hs] Hd Hn. destruct (take_overwrite (buf e) (buffered e) dest n) as [Ht Hlen]; [lia|lia|].
  constructor; cbn; [congruence|lia| | |].
  - unfold file_position in *. cbn. rewrite length_app, length_take. lia.
  - intros Hr. rewrite Ht, app_assoc, Hc by done. by rewrite app_assoc.
  - intros Hr l Hst. rewrite Ht, app_assoc. by rewrite (Hs Hr l Hst).
Qed.

Lemma write_all_ok e acc bs : file_accepted e acc ->
  runs (write_all bs e) (fun e' => file_accepted e' (acc ++ bs)).
Proof.
  intros HA. unfold write_all. rewrite (fa_buf e acc HA).
  destruct (Nat.leb_spec (buffered e + length bs) BUF_SIZE) as [Hle|Hgt].
  { apply runs_ret. pose proof (append_accepted e acc bs (length bs) HA Hle ltac:(lia)) as HB.
    by rewrite firstn_all in HB. }
  unfold write_all_cold_path. eapply runs_bind; [apply flush_ok, HA|]. intros e1 [HA1 H0].
  rewrite (fa_buf e1 acc HA1). destruct (Nat.leb_spec (length bs) BUF_SIZE) as [Hle|Hbig].
  { apply runs_ret. pose proof (append_accepted e1 acc bs (length bs) HA1 ltac:(lia) ltac:(lia)) as HB.
    rewrite firstn_all in HB. by rewrite H0 in *. }
  apply runs_ret. destruct HA1 as [Hb Hl Hp Hc Hs]. rewrite H0 in *. rewrite take_0 in Hc, Hs. rewrite app_nil_r in Hc. setoid_rewrite app_nil_r in Hs.
  unfold file_position in Hp. destruct (res e1) as [err|] eqn:Er; cbn -[BUF_SIZE].
  - constructor; cbn; rewrite ?Er, ?H0; try done; try lia. unfold file_position. cbn. rewrite length_app. lia.
  - destruct (file_write_all (file e1) bs) as [f' r] eqn:Ew. cbn. constructor; cbn; rewrite ?H0; try done; try lia.
    + unfold file_position. cbn. rewrite length_app. lia.
    + intros ->. apply write_all_appends in Ew. rewrite Ew, take_0, app_nil_r, Hc by done. by rewrite app_assoc.
    + intros ->. destruct (strategy e1) as [l0|] eqn:El; [|done]. intros l [= <-].
      rewrite take_0, app_nil_r, mjoin_snoc. by rewrite (Hs eq_refl l0 eq_refl).
Qed.

Lemma file_write_with_ok e acc N visitor bs : file_accepted e acc -> visits N visitor bs ->
  runs (file_write_with N visitor e) (fun e' => file_accepted e' (acc ++ bs)).
Proof.
  intros HA [Hl Hv]. unfold file_write_with. pose proof BUF_SIZE_val as HBS.
  rewrite (proj2 (Nat.leb_le _ _)) by lia. cbn [assert_that obind].
  apply (runs_bind _ _ (fun e1 => file_accepted e1 acc /\ (buffered e1 + N <= BUF_SIZE)%nat)).
  { destruct (Nat.ltb_spec (BUF_SIZE - N) (buffered e)).
    - eapply runs_mono; [apply flush_ok, HA|]. intros e1 [HA1 ->]. split; [done|lia].
    - apply runs_ret. split; [done|]. pose proof (fa_buffered e acc HA). lia. }
  intros e1 [HA1 Hf]. unfold get_range. rewrite (fa_buf e1 acc HA1).
  rewrite (proj2 (Nat.leb_le _ _)), (proj2 (Nat.leb_le _ _)) by lia. cbn [andb unwrap obind].
  destruct (Hv (take (buffered e1 + N - buffered e1) (drop (buffered e1) (buf e1)))) as (dest & -> & Hd & Ht).
  { rewrite length_take, length_drop, (fa_buf e1 acc HA1). lia. }
  cbn [obind]. rewrite (proj2 (Nat.ltb_ge _ _)) by lia. apply runs_ret.
  pose proof (append_accepted e1 acc dest (length bs) HA1 ltac:(lia) ltac:(lia)) as HB. by rewrite Ht in HB.
Qed.
End File.

#[export] Instance FileEncoder_Ok {File Error} `{FO : FileOps File Error} {FOk : FileOk File Error} (init : list Z)
  : EncoderOk (FileEncoder File Error) :=
  {| accepted := file_accepted init; write_with_ok := file_write_with_ok init;
     emit_raw_bytes_ok := fun e acc bs => write_all_ok init e acc bs |}.

(** ** Primitive values *)

Inductive value :=
| VUsize (v : Z) | VU128 (v : Z) | VU64 (v : Z) | VU32 (v : Z) | VU16 (v : Z) | VU8 (v : Z)
| VIsize (v : Z) | VI128 (v : Z) | VI64 (v : Z) | VI32 (v : Z) | VI16 (v : Z) | VI8 (v : Z)
| VBool (b : bool) | VChar (c : char) | VStr (s : str) | VBytes (bs : list Z) | VFixed (v : Z).

Definition unsigned (bits v : Z) : Prop := 0 <= v < 2 ^ bits.
Definition signed (bits v : Z) : Prop := - 2 ^ (bits - 1) <= v < 2 ^ (bits - 1).

(** The value fits its Rust type. *)
Definition value_ok (v : value) : Prop :=
  match v with
  | VUsize v | VU64 v | VFixed v => unsigned 64 v
  | VU128 v => unsigned 128 v | VU32 v => unsigned 32 v | VU16 v => unsigned 16 v | VU8 v => unsigned 8 v
  | VIsize v | VI64 v => signed 64 v
  | VI128 v => signed 128 v | VI32 v => signed 32 v | VI16 v => signed 16 v | VI8 v => signed 8 v
  | VBool _ => True
  | VChar c => is_scalar c = true
  | VStr s => unsigned 64 (Z.of_nat (str_len s))
  | VBytes bs => unsigned 64 (Z.of_nat (length bs))
  end.

Definition emit_value {E} `{Encoder E} (v : value) : E -> outcome E :=
  match v with
  | VUsize v => emit_usize v | VU128 v => emit_u128 v | VU64 v => emit_u64 v | VU32 v => emit_u32 v
  | VU16 v => emit_u16 v | VU8 v => emit_u8 v | VIsize v => emit_isize v | VI128 v => emit_i128 v
  | VI64 v => emit_i64 v | VI32 v => emit_i32 v | VI16 v => emit_i16 v | VI8 v => emit_i8 v
  | VBool b => emit_bool b | VChar c => emit_char c | VStr s => emit_str s | VBytes bs => emit_byte_str bs
  | VFixed v => encode_fixed v
  end.

(** Read a value of the same type; a string comes back as its bytes. *)
Definition wrapped {A} (f : A -> value) (m : outcome (A * MemDecoder)) : outcome (value * MemDecoder) :=
  let* '(a, d) := m in Ret (f a, d).
Definition read_value (ty : value) (d : MemDecoder) : outcome (value * MemDecoder) :=
  match ty with
  | VUsize _ => wrapped VUsize (read_usize d) | VU128 _ => wrapped VU128 (read_u128 d)
  | VU64 _ => wrapped VU64 (read_u64 d) | VU32 _ => wrapped VU32 (read_u32 d)
  | VU16 _ => wrapped VU16 (read_u16 d) | VU8 _ => wrapped VU8 (read_u8 d)
  | VIsize _ => wrapped VIsize (read_isize d) | VI128 _ => wrapped VI128 (read_i128 d)
  | VI64 _ => wrapped VI64 (read_i64 d) | VI32 _ => wrapped VI32 (read_i32 d)
  | VI16 _ => wrapped VI16 (read_i16 d) | VI8 _ => wrapped VI8 (read_i8 d)
  | VBool _ => wrapped VBool (read_bool d) | VChar _ => wrapped VChar (read_char d)
  | VStr _ => wrapped VBytes (read_str d) | VBytes _ => wrapped VBytes (read_byte_str d)
  | VFixed _ => wrapped VFixed (decode_fixed d)
  end.
Definition decoded (v : value) : value := match v with VStr s => VBytes (as_bytes s) | _ => v end.

(** The bytes of a value. *)
Definition encodes (v : value) (bs : list Z) : Prop :=
  match v with
  | VUsize v | VU128 v | VU64 v | VU32 v | VChar v => uleb v bs
  | VIsize v | VI128 v | VI64 v | VI32 v => sleb v bs
  | VU16 v => bs = to_le_bytes 2 v
  | VI16 v => bs = to_le_bytes 2 (v mod 2 ^ 16)
  | VU8 v => bs = [v]
  | VI8 v => bs = [wrap_u8 v]
  | VBool b => bs = [if b then 1 else 0]
  | VStr s => exists l, uleb (Z.of_nat (str_len s)) l /\ bs = l ++ as_bytes s ++ [STR_SENTINEL]
  | VBytes b => exists l, uleb (Z.of_nat (length b)) l /\ bs = l ++ b ++ [BYTE_STR_SENTINEL]
  | VFixed v => bs = to_le_bytes 8 v
  end.

(** *** Emitting *)

Lemma overwrite_0 dest bs : (length bs <= length dest)%nat ->
  length (overwrite dest 0 bs) = length dest /\ take (length bs) (overwrite dest 0 bs) = bs.
Proof.
  intros Hl. destruct (take_overwrite dest 0 bs (length bs)) as [Ht Hn]; [lia|lia|].
  rewrite Nat.add_0_l, take_0, firstn_all in Ht. done.
Qed.

Lemma uleb_fun v bs bs' : uleb v bs -> uleb v bs' -> bs = bs'.
Proof.
  intros H. revert bs'. induction H as [v Hv|v bs Hv Hu IH]; inversion 1; subst; try lia; [done|].
  f_equal. by apply IH.
Qed.

Lemma sleb_fun v bs bs' : sleb v bs -> sleb v bs' -> bs = bs'.
Proof.
  intros H. revert bs'. induction H as [v Hv|v bs Hv Hu IH]; inversion 1; subst; try lia; [done|].
  f_equal. by apply IH.
Qed.

Lemma visits_unsigned N v bs : (1 <= N <= 32)%nat -> 0 <= v < 128 * 128 ^ Z.of_nat (N - 1) -> uleb v bs ->
  visits N (fun buf => write_unsigned_leb128 buf v) bs.
Proof.
  intros HN Hv Hu.
  assert (HL : forall dest, length dest = N -> (length bs <= N)%nat /\
    write_unsigned_leb128 dest v = Ret (overwrite dest 0 bs, length bs)).
  { intros dest Hd. destruct (write_unsigned_loop_ok (N - 1) (S N) dest 0 v) as (bs' & Hu' & Hl & Hw); [lia|done|lia|].
    rewrite (uleb_fun _ _ _ Hu Hu'). split; [lia|]. unfold write_unsigned_leb128. by rewrite Hd, Hw. }
  split; [pose proof (HL (replicate N 0) (length_replicate _ _)); lia|].
  intros dest Hd. destruct (HL dest Hd) as [Hl Hw]. exists (overwrite dest 0 bs). rewrite <- Hd in *.
  split; [done|]. by apply overwrite_0.
Qed.

Lemma visits_signed N v bs : (1 <= N <= 32)%nat ->
  -64 * 128 ^ Z.of_nat (N - 1) <= v < 64 * 128 ^ Z.of_nat (N - 1) -> sleb v bs ->
  visits N (fun buf => write_signed_leb128 buf v) bs.
Proof.
  intros HN Hv Hu.
  assert (HL : forall dest, length dest = N -> (length bs <= N)%nat /\
    write_signed_leb128 dest v = Ret (overwrite dest 0 bs, length bs)).
  { intros dest Hd. destruct (write_signed_loop_ok (N - 1) (S N) dest 0 v) as (bs' & Hu' & Hl & Hw); [lia|done|lia|].
    rewrite (sleb_fun _ _ _ Hu Hu'). split; [lia|]. unfold write_signed_leb128. by rewrite Hd, Hw. }
  split; [pose proof (HL (replicate N 0) (length_replicate _ _)); lia|].
  intros dest Hd. destruct (HL dest Hd) as [Hl Hw]. exists (overwrite dest 0 bs). rewrite <- Hd in *.
  split; [done|]. by apply overwrite_0.
Qed.

(** The arrays are long enough at every width in use. *)
Lemma leb_sizes bits : bits ∈ [16; 32; 64; 128] ->
  (1 <= max_leb128_len bits <= 32)%nat
  /\ 2 ^ bits <= 128 * 128 ^ Z.of_nat (max_leb128_len bits - 1)
  /\ 2 ^ (bits - 1) <= 64 * 128 ^ Z.of_nat (max_leb128_len bits - 1).
Proof.
  intros Hb. repeat (apply elem_of_cons in Hb as [->|Hb]); [| | | |by apply elem_of_nil in Hb].
  all: split_and!; try (apply Nat.leb_le; reflexivity); apply Z.leb_le; reflexivity.
Qed.

Ltac width := apply list_elem_of_In; simpl; tauto.

Section Emitting.
Context {E : Type} `{EOk : EncoderOk E}.

Lemma emit_unsigned bits v bs e acc : bits ∈ [16; 32; 64; 128] -> unsigned bits v -> uleb v bs -> accepted e acc ->
  runs (write_with (max_leb128_len bits) (fun buf => write_unsigned_leb128 buf v) e) (fun e' => accepted e' (acc ++ bs)).
Proof.
  intros Hb Hv Hu HA. apply write_with_ok; [done|].
  unfold unsigned in Hv. apply visits_unsigned; [by apply leb_sizes| |done].
  destruct (leb_sizes bits Hb) as (_ & H1 & _). lia.
Qed.

Lemma emit_signed bits v bs e acc : bits ∈ [16; 32; 64; 128] -> signed bits v -> sleb v bs -> accepted e acc ->
  runs (write_with (max_leb128_len bits) (fun buf => write_signed_leb128 buf v) e) (fun e' => accepted e' (acc ++ bs)).
Proof.
  intros Hb Hv Hu HA. apply write_with_ok; [done|].
  unfold signed in Hv. apply visits_signed; [by apply leb_sizes| |done].
  destruct (leb_sizes bits Hb) as (_ & _ & H1). lia.
Qed.

Lemma emit_array bs e acc : (length bs <= 32)%nat -> accepted e acc ->
  runs (write_array bs e) (fun e' => accepted e' (acc ++ bs)).
Proof.
  intros Hl HA. apply write_with_ok; [done|]. split; [lia|]. intros dest Hd. exists bs.
  by rewrite firstn_all.
Qed.

Lemma emit_with_sentinel v l bs b e acc : unsigned 64 v -> uleb v l -> accepted e acc ->
  runs (let* e := emit_usize v e in let* e := emit_raw_bytes bs e in emit_u8 b e)
    (fun e' => accepted e' (acc ++ l ++ bs ++ [b])).
Proof.
  intros Hv Hu HA. eapply runs_bind; [apply (emit_unsigned 64 v l e acc); auto; width|]. intros e1 H1.
  eapply runs_bind; [apply (emit_raw_bytes_ok e1 (acc ++ l) bs H1)|]. intros e2 H2.
  eapply runs_mono; [apply (emit_array [b]); [simpl; lia|exact H2]|]. intros e3. by rewrite <- !app_assoc.
Qed.

Lemma emit_value_ok v bs e acc : value_ok v -> encodes v bs -> accepted e acc ->
  runs (emit_value v e) (fun e' => accepted e' (acc ++ bs)).
Proof.
  intros Hv He HA. destruct v; cbn [value_ok encodes emit_value] in *;
    try (subst bs; apply emit_array; [simpl; lia|done]).
  1, 3: by apply (emit_unsigned 64); auto; width.
  1: by apply (emit_unsigned 128); auto; width.
  1: by apply (emit_unsigned 32); auto; width.
  1, 3: by apply (emit_signed 64); auto; width.
  1: by apply (emit_signed 128); auto; width.
  1: by apply (emit_signed 32); auto; width.
  - apply (emit_unsigned 32); auto; [width|]. unfold unsigned. unfold is_scalar in Hv.
    change (2 ^ 32) with 4294967296. propify. destruct Hv; propify; lia.
  - destruct He as (l & Hl & ->). by apply emit_with_sentinel.
  - destruct He as (l & Hl & ->). by apply emit_with_sentinel.
Qed.
End Emitting.

(** *** Reading *)

Lemma uleb_exists bits v : bits ∈ [16; 32; 64; 128] -> unsigned bits v -> exists bs, uleb v bs.
Proof.
  intros Hb Hv. destruct (leb_sizes bits Hb) as (Hl & H1 & _). set (N := max_leb128_len bits) in *.
  destruct (write_unsigned_loop_ok (N - 1) (S N) (replicate N 0) 0 v) as (bs & Hu & _); eauto; [lia| |].
  - unfold unsigned in Hv. lia.
  - rewrite length_replicate. lia.
Qed.

Lemma sleb_exists bits v : bits ∈ [16; 32; 64; 128] -> signed bits v -> exists bs, sleb v bs.
Proof.
  intros Hb Hv. destruct (leb_sizes bits Hb) as (Hl & _ & H1). set (N := max_leb128_len bits) in *.
  destruct (write_signed_loop_ok (N - 1) (S N) (replicate N 0) 0 v) as (bs & Hu & _); eauto; [lia| |].
  - unfold signed in Hv. lia.
  - rewrite length_replicate. lia.
Qed.

Lemma scalar_u32 c : is_scalar c = true -> unsigned 32 c.
Proof.
  unfold is_scalar, unsigned. intros Hv. change (2 ^ 32) with 4294967296. propify. destruct Hv; propify; lia.
Qed.

Lemma encodes_exists v : value_ok v -> exists bs, encodes v bs.
Proof.
  destruct v; cbn [value_ok encodes]; eauto; intros Hv.
  1, 3: by apply (uleb_exists 64); [width|].
  1: by apply (uleb_exists 128); [width|].
  1: by apply (uleb_exists 32); [width|].
  1, 3: by apply (sleb_exists 64); [width|].
  1: by apply (sleb_exists 128); [width|].
  1: by apply (sleb_exists 32); [width|].
  - apply (uleb_exists 32); [width|by apply scalar_u32].
  - destruct (uleb_exists 64 _ ltac:(width) Hv) as [l Hl]. eauto.
  - destruct (uleb_exists 64 _ ltac:(width) Hv) as [l Hl]. eauto.
Qed.

(** A decoder in front of [bs], and after it. *)
Definition at_ (pre bs rest : list Z) : MemDecoder := mkDecoder (pre ++ bs ++ rest) (length pre).
Definition past (pre bs rest : list Z) : MemDecoder := mkDecoder ((pre ++ bs) ++ rest) (length (pre ++ bs)).

Lemma read_raw_at pre bs rest : read_raw_bytes (at_ pre bs rest) (length bs) = Ret (bs, past pre bs rest).
Proof.
  unfold read_raw_bytes, remaining, at_, past, advance. cbn [bytes current].
  rewrite (proj2 (Nat.ltb_ge _ _)) by (rewrite !length_app; lia).
  by rewrite drop_app_length, take_app_length, length_app, app_assoc.
Qed.

Lemma read_le_at n v pre rest : 0 <= v < 256 ^ Z.of_nat n ->
  (let* '(bs, d) := read_array n (at_ pre (to_le_bytes n v) rest) in Ret (from_le_bytes bs, d))
  = Ret (v, past pre (to_le_bytes n v) rest).
Proof.
  intros Hv. pose proof (read_raw_at pre (to_le_bytes n v) rest) as HR. rewrite length_to_le_bytes in HR.
  unfold read_array. rewrite HR. cbn [obind]. by rewrite from_to_le_bytes.
Qed.

Lemma read_sentinel_at b s l pre rest : unsigned 64 (Z.of_nat (length s)) -> uleb (Z.of_nat (length s)) l ->
  read_sentinel b (at_ pre (l ++ s ++ [b]) rest) = Ret (s, past pre (l ++ s ++ [b]) rest).
Proof.
  intros Hs Hl. unfold read_sentinel, at_, past.
  replace (pre ++ (l ++ s ++ [b]) ++ rest) with (pre ++ l ++ ((s ++ [b]) ++ rest)) by (by rewrite <- !app_assoc).
  unfold read_usize, read_usize_leb128. unfold unsigned in Hs. rewrite (read_unsigned_ok 64 _ l) by (done || lia).
  cbn [obind]. rewrite Nat2Z.id. pose proof (read_raw_at (pre ++ l) (s ++ [b]) rest) as HR.
  rewrite length_app in HR at 1. unfold at_ in HR. cbn [length] in HR. rewrite HR. cbn [obind].
  rewrite lookup_app_r, Nat.sub_diag by lia. cbn [unwrap obind lookup list_lookup].
  rewrite Z.eqb_refl. cbn [assert_that obind]. rewrite take_app_length. unfold past. by rewrite <- !app_assoc.
Qed.

Lemma read_value_ok v bs pre rest : value_ok v -> encodes v bs ->
  read_value v (at_ pre bs rest) = Ret (decoded v, past pre bs rest).
Proof.
  assert (HU : forall bits v bs, bits ∈ [16; 32; 64; 128] -> unsigned bits v -> uleb v bs ->
    read_unsigned_leb128 bits (at_ pre bs rest) = Ret (v, past pre bs rest)).
  { intros bits w b Hb Hw Hu. apply read_unsigned_ok; [done|apply Hw|].
    repeat (apply elem_of_cons in Hb as [->|Hb]); [lia..|by apply elem_of_nil in Hb]. }
  assert (HS : forall bits v bs, bits ∈ [16; 32; 64; 128] -> signed bits v -> sleb v bs ->
    read_signed_leb128 bits (at_ pre bs rest) = Ret (v, past pre bs rest)).
  { intros bits w b Hb Hw Hu. apply read_signed_ok; [done| |apply Hw].
    repeat (apply elem_of_cons in Hb as [->|Hb]); [lia..|by apply elem_of_nil in Hb]. }
  assert (H8 : forall b, read_u8 (at_ pre [b] rest) = Ret (b, past pre [b] rest)) by (intros b; apply read_u8_at).
  intros Hv He. destruct v; cbn [value_ok encodes read_value decoded] in *; unfold unsigned, signed in Hv.
  1, 3: unfold read_usize, read_usize_leb128, read_u64, read_u64_leb128; rewrite (HU 64 v) by (done || width); done.
  1: unfold read_u128, read_u128_leb128; rewrite (HU 128 v) by (done || width); done.
  1: unfold read_u32, read_u32_leb128; rewrite (HU 32 v) by (done || width); done.
  - subst bs. unfold read_u16. by rewrite (read_le_at 2 v) by (cbn; lia).
  - subst bs. by rewrite H8.
  - unfold read_isize, read_isize_leb128. by rewrite (HS 64 v) by (done || width).
  - unfold read_i128, read_i128_leb128. by rewrite (HS 128 v) by (done || width).
  - unfold read_i64, read_i64_leb128. by rewrite (HS 64 v) by (done || width).
  - unfold read_i32, read_i32_leb128. by rewrite (HS 32 v) by (done || width).
  - subst bs. pose proof (read_raw_at pre (to_le_bytes 2 (v mod 2 ^ 16)) rest) as HR.
    rewrite length_to_le_bytes in HR. unfold read_i16, read_array. rewrite HR. cbn [obind wrapped].
    assert (Hm : 0 <= v mod 2 ^ 16 < 2 ^ 16) by (apply Z.mod_pos_bound; lia).
    rewrite from_to_le_bytes by (exact Hm). rewrite (as_signed_mod 16 _ v); [done|lia|done| |done].
    pose proof (Z.div_mod v (2 ^ 16) ltac:(lia)). cbn in *. lia.
  - subst bs. unfold read_i8. rewrite H8. cbn [obind wrapped].
    assert (Hm : 0 <= v mod 256 < 256) by (apply Z.mod_pos_bound; lia).
    rewrite (as_signed_mod 8 _ v); [done|lia|done| |done].
    unfold wrap_u8. pose proof (Z.div_mod v 256 ltac:(lia)). cbn in *. lia.
  - subst bs. unfold read_bool. rewrite H8. by destruct b.
  - unfold read_char, read_u32, read_u32_leb128. rewrite (HU 32 c) by (done || width || by apply scalar_u32).
    cbn [obind]. by rewrite Hv.
  - destruct He as (l & Hl & ->). unfold read_str. rewrite <- length_as_bytes in *. by rewrite read_sentinel_at.
  - destruct He as (l & Hl & ->). unfold read_byte_str. by rewrite read_sentinel_at.
  - subst bs. unfold decode_fixed. by rewrite (read_le_at 8 v) by (cbn; lia).
Qed.

(** ** Sequences of values *)

Fixpoint emit_values {E} `{Encoder E} (vs : list value) (e : E) : outcome E :=
  match vs with
  | [] => Ret e
  | v :: vs => let* e := emit_value v e in emit_values vs e
  end.

Fixpoint read_values (tys : list value) (d : MemDecoder) : outcome (list value * MemDecoder) :=
  match tys with
  | [] => Ret ([], d)
  | ty :: tys =>
      let* '(v, d) := read_value ty d in
      let* '(vs, d) := read_values tys d in
      Ret (v :: vs, d)
  end.

Inductive all_encode : list value -> list Z -> Prop :=
| all_nil : all_encode [] []
| all_cons v vs b bs : encodes v b -> all_encode vs bs -> all_encode (v :: vs) (b ++ bs).

Lemma all_encode_exists vs : Forall value_ok vs -> exists bs, all_encode vs bs.
Proof.
  induction 1 as [|v vs Hv _ [bs Hbs]]; [eexists; constructor|].
  destruct (encodes_exists v Hv) as [b Hb]. eexists. by constructor.
Qed.

Lemma emit_values_ok {E} `{EOk : EncoderOk E} vs bs e acc :
  Forall value_ok vs -> all_encode vs bs -> accepted e acc ->
  runs (emit_values vs e) (fun e' => accepted e' (acc ++ bs)).
Proof.
  intros Hv He. revert e acc. induction He as [|v vs b bs Hb Hbs IH]; intros e acc HA.
  - apply runs_ret. by rewrite app_nil_r.
  - apply Forall_cons in Hv as [Hv Hvs]. cbn [emit_values].
    eapply runs_bind; [by apply (emit_value_ok v b e acc)|]. intros e1 H1.
    eapply runs_mono; [by apply (IH Hvs e1 (acc ++ b))|]. intros e2. by rewrite <- app_assoc.
Qed.

Lemma read_values_ok vs bs pre : Forall value_ok vs -> all_encode vs bs ->
  read_values vs (mkDecoder (pre ++ bs) (length pre))
  = Ret (decoded <$> vs, mkDecoder (pre ++ bs) (length (pre ++ bs))).
Proof.
  intros Hv He. revert pre. induction He as [|v vs b bs Hb Hbs IH]; intros pre.
  - by rewrite app_nil_r.
  - apply Forall_cons in Hv as [Hv Hvs]. cbn [read_values]. pose proof (read_value_ok v b pre bs Hv Hb) as HR.
    unfold at_, past in HR. rewrite HR. cbn [obind]. rewrite (IH Hvs (pre ++ b)). cbn [obind]. by rewrite <- !app_assoc.
Qed.

Lemma strip_magic bs : strip_suffix MAGIC_END_BYTES (bs ++ MAGIC_END_BYTES) = Some bs.
Proof.
  unfold strip_suffix. rewrite length_app, Nat.add_sub, drop_app_length, decide_True by done.
  by rewrite take_app_length.
Qed.

Section Files.
Context {File Error : Type} `{FO : FileOps File Error} {FOk : FileOk File Error}.

Lemma file_new_accepted f (s : bool) : file_accepted (contents f)
  (if s then with_flush_strategy f else file_new f) [].
Proof.
  constructor; destruct s; cbn [buf buffered res strategy with_flush_strategy file_new file]; rewrite ?length_replicate, ?app_nil_r;
    try done; try lia; intros _ l; try (intros [= <-]); done.
Qed.

(** Any number of values, then [finish]: it returns, and without an error the file and the flush
    strategy have received the bytes of the values and the end mark. *)
Lemma finish_ok f (s : bool) vs bs : Forall value_ok vs -> all_encode vs bs ->
  runs (let* e := emit_values vs (if s then with_flush_strategy f else file_new f) in finish e)
    (fun p => forall n, p.1 = inl n ->
       contents (file p.2) = contents f ++ bs ++ MAGIC_END_BYTES /\ n = length (bs ++ MAGIC_END_BYTES) /\
       forall l, strategy p.2 = Some l -> mjoin l = bs ++ MAGIC_END_BYTES).
Proof.
  intros Hv He. eapply runs_bind; [apply (@emit_values_ok _ _ (FileEncoder_Ok (contents f))); eauto; apply file_new_accepted|].
  intros e HA. unfold finish. eapply runs_bind; [apply (write_all_ok (contents f)), HA|]. intros e1 HA1.
  eapply runs_bind; [apply (flush_ok (contents f)), HA1|]. intros e2 [[Hb Hl Hp Hc Hs] H0].
  unfold file_position in Hp. rewrite H0, take_0 in *. apply runs_ret.
  cbn [fst snd file strategy]. destruct (res e2); [done|]. intros n [= <-].
  rewrite app_nil_r in Hc. rewrite Hc by done. split; [done|].
  split; [exact Hp|].
  intros l Hst. rewrite <- (app_nil_r (mjoin l)). by apply Hs.
Qed.
End Files.

(** ** The properties *)

(** A file in memory, whose writes succeed. *)
#[export] Instance memory_file : FileOps (list Z) unit :=
  {| file_write_all := fun f bs => (f ++ bs, None); contents := fun f => f |}.
#[export] Instance memory_file_ok : FileOk (list Z) unit.
Proof. intros f bs f' [= <-]. done. Qed.

(** At every width the compiler uses (16, 32, 64 and 128 bits), writing an integer of that width
    as LEB128, signed or unsigned, into an array of [max_leb128_len] bytes never stores outside the
    array, and reading the bytes back returns the integer and leaves the decoder right after them. *)
Theorem leb128_roundtrip (bits v : Z) (out pre rest : list Z) :
  bits ∈ [16; 32; 64; 128] -> length out = max_leb128_len bits ->
  (0 <= v < 2 ^ bits -> exists out' n, write_unsigned_leb128 out v = Ret (out', n) /\ (n <= length out)%nat /\
     read_unsigned_leb128 bits (mkDecoder (pre ++ take n out' ++ rest) (length pre))
     = Ret (v, mkDecoder ((pre ++ take n out') ++ rest) (length pre + n))) /\
  (- 2 ^ (bits - 1) <= v < 2 ^ (bits - 1) ->
     exists out' n, write_signed_leb128 out v = Ret (out', n) /\ (n <= length out)%nat /\
     read_signed_leb128 bits (mkDecoder (pre ++ take n out' ++ rest) (length pre))
     = Ret (v, mkDecoder ((pre ++ take n out') ++ rest) (length pre + n))).
Proof.
  intros Hb Hl. assert (H7 : 7 < bits <= 128).
  { clear -Hb. repeat (apply elem_of_cons in Hb as [->|Hb]); [lia..|by apply elem_of_nil in Hb]. }
  destruct (leb_sizes bits Hb) as (HN & HU & HS). split; intros Hv.
  - destruct (uleb_exists bits v Hb Hv) as [bs Hu].
    destruct (visits_unsigned (max_leb128_len bits) v bs HN ltac:(lia) Hu) as [Hlen Hvis].
    destruct (Hvis out Hl) as (out' & Hw & _ & Ht). exists out', (length bs).
    rewrite Ht, (read_unsigned_ok bits v bs), length_app by (done || lia). split_and!; [done|lia|done].
  - destruct (sleb_exists bits v Hb Hv) as [bs Hu].
    destruct (visits_signed (max_leb128_len bits) v bs HN ltac:(lia) Hu) as [Hlen Hvis].
    destruct (Hvis out Hl) as (out' & Hw & _ & Ht). exists out', (length bs).
    rewrite Ht, (read_signed_ok bits v bs), length_app by (done || lia). split_and!; [done|lia|done].
Qed.

Lemma leb128_roundtrip_witness :
  exists out' n, write_signed_leb128 (replicate 5 0) (-123456) = Ret (out', n) /\ (n <= 5)%nat /\
    read_signed_leb128 32 (mkDecoder ([7] ++ take n out' ++ [9]) 1) = Ret (-123456, mkDecoder (([7] ++ take n out') ++ [9]) (1 + n)).
Proof.
  destruct (leb128_roundtrip 32 (-123456) (replicate 5 0) [7] [9]) as [_ H].
  - width.
  - reflexivity.
  - destruct H as (out' & n & H1 & H2 & H3); [cbn; lia|]. exists out', n. split_and!; [exact H1|exact H2|exact H3].
Defined.

(** C17: values of every primitive type, written one after the other through the buffered
    [FileEncoder] and finished, come back from a [MemDecoder] over the file, whatever their number
    and wherever the buffer was flushed. No step panics, also when writes to the file fail; the
    statement about the contents is for a [finish] that reports success. *)
Theorem file_roundtrip {File Error : Type} `{FO : FileOps File Error} (f : File) (vs : list value) :
  FileOk File Error -> contents f = [] -> Forall value_ok vs ->
  exists r e, (let* e := emit_values vs (file_new f) in finish e) = Ret (r, e) /\
    forall n, r = inl n -> n = length (contents (file e)) /\
      exists d d', decoder_new (contents (file e)) 0 = Ret (Some d) /\
        read_values vs d = Ret (decoded <$> vs, d') /\ remaining d' = 0%nat.
Proof.
  intros FOk Hf Hv. destruct (all_encode_exists vs Hv) as [bs He].
  destruct (finish_ok f false vs bs Hv He) as ([r e] & Hr & HP). exists r, e. split; [exact Hr|].
  intros n ->. destruct (HP n eq_refl) as (Hc & -> & _). cbn [snd] in Hc. rewrite Hc, Hf. split; [done|].
  unfold decoder_new. cbn [app]. rewrite strip_magic. cbn [Nat.leb].
  eexists _, _. split; [reflexivity|]. split; [apply (read_values_ok vs bs []); done|].
  unfold remaining. cbn. lia.
Qed.

Lemma file_roundtrip_witness :
  let vs := [VU32 300; VI64 (-5); VBool true; VStr (lit "ok"); VU16 513] in
  exists r e, (let* e := emit_values vs (file_new (@nil Z)) in finish e) = Ret (r, e) /\
    forall n, r = inl n -> n = length (contents (file e)) /\
      exists d d', decoder_new (contents (file e)) 0 = Ret (Some d) /\
        read_values vs d = Ret (decoded <$> vs, d') /\ remaining d' = 0%nat.
Proof.
  cbv zeta. apply (file_roundtrip (@nil Z)); [exact memory_file_ok|reflexivity|].
  repeat constructor; cbn; try lia; done.
Defined.

(** The two encoders agree. After the same values, the file, and the concatenation of the slices
    handed to a flush strategy, hold what [MemEncoder] holds, followed by the end mark; the position
    [finish] reports is the number of bytes written. *)
Theorem encoders_agree {File Error : Type} `{FO : FileOps File Error} (f : File) (with_strategy : bool) (vs : list value) :
  FileOk File Error -> Forall value_ok vs ->
  exists m r e, emit_values vs mem_new = Ret m /\
    (let* e := emit_values vs (if with_strategy then with_flush_strategy f else file_new f) in finish e) = Ret (r, e) /\
    forall n, r = inl n ->
      contents (file e) = contents f ++ mem_finish m ++ MAGIC_END_BYTES /\
      n = length (mem_finish m ++ MAGIC_END_BYTES) /\
      forall l, strategy e = Some l -> mjoin l = mem_finish m ++ MAGIC_END_BYTES.
Proof.
  intros FOk Hv. destruct (all_encode_exists vs Hv) as [bs He].
  destruct (@emit_values_ok _ _ MemEncoder_Ok vs bs mem_new [] Hv He eq_refl) as (m & Hm & Hd).
  destruct (finish_ok f with_strategy vs bs Hv He) as ([r e] & Hr & HP). exists m, r, e.
  split; [done|]. split; [exact Hr|]. unfold mem_finish. cbn in Hd. rewrite Hd. exact HP.
Qed.

Lemma encoders_agree_witness :
  let vs := [VU64 1000; VChar 955] in
  exists m r e, emit_values vs mem_new = Ret m /\
    (let* e := emit_values vs (with_flush_strategy (@nil Z)) in finish e) = Ret (r, e) /\
    forall n, r = inl n ->
      contents (file e) = [] ++ mem_finish m ++ MAGIC_END_BYTES /\
      n = length (mem_finish m ++ MAGIC_END_BYTES) /\
      forall l, strategy e = Some l -> mjoin l = mem_finish m ++ MAGIC_END_BYTES.
Proof.
  cbv zeta. apply (@encoders_agree (list Z) unit memory_file [] true [VU64 1000; VChar 955]); [exact memory_file_ok|].
  repeat constructor; cbn; try lia; done.
Defined.
