(* ===== verification/DiagTemplate.v ===== *)
(** * Diagnostic message templates ([frontend_diag_template/src/lib.rs])

    The syntax tree, the parser (its [ptr] passed explicitly, errors as values, slicing off a
    character boundary as a panic) and the renderer.  The recursive-descent part is one mutual
    fixpoint on fuel, a unit per call or loop turn; [parse] passes enough for any message. *)
From Stdlib Require Import Ascii String.
From Stdlib Require Import ZArith Lia.
From stdpp Require Import base numbers list.
From S2P Require Import Prelude RustStr.
Open Scope Z_scope.
Open Scope rust_scope.

(** ** The syntax tree *)

Inductive Key := Name (name : str) | KeyNumber (n : Z).

Inductive Pattern : Type := mkPattern (elements : list Element)
with Element : Type := Text (s : str) | Placeable (e : Expression)
with Expression : Type := EInline (i : Inline) | Select (selector : Inline) (variants : list Variant)
with Inline : Type := Variable_ (name : str) | Literal (s : str) | Number (n : Z)
  | StrEq (a b : Inline) | Nested (e : Expression)
with Variant : Type := mkVariant (key : Key) (value : Pattern) (default : bool).

Definition elements (p : Pattern) : list Element := let 'mkPattern es := p in es.
Definition key (v : Variant) : Key := let 'mkVariant k _ _ := v in k.
Definition value (v : Variant) : Pattern := let 'mkVariant _ p _ := v in p.
Definition default (v : Variant) : bool := let 'mkVariant _ _ d := v in d.

Record ParseError := mkError { offset : nat; message : str }.

(** [for element in &pattern.elements] and the two other walkers, in source order. *)
Fixpoint walk_pattern (p : Pattern) : list str :=
  match p with
  | mkPattern es =>
      (fix go es := match es with
                    | [] => []
                    | Text _ :: es => go es
                    | Placeable e :: es => walk_expression e ++ go es
                    end) es
  end
with walk_expression (e : Expression) : list str :=
  match e with
  | EInline i => walk_inline i
  | Select s vs =>
      walk_inline s ++
      (fix go vs := match vs with
                    | [] => []
                    | mkVariant _ p _ :: vs => walk_pattern p ++ go vs
                    end) vs
  end
with walk_inline (i : Inline) : list str :=
  match i with
  | Variable_ name => [name]
  | Literal _ | Number _ => []
  | StrEq a b => walk_inline a ++ walk_inline b
  | Nested e => walk_expression e
  end.

Definition variable_references : Pattern -> list str := walk_pattern.

(** ** The parser *)

Inductive Position := InitialLineStart | LineStart | Continuation.
Inductive TextKind := Blank | NonBlank.
Inductive Termination := LineFeed | Crlf | PlaceableStart | Eof.
Inductive Placeholder :=
| PPlaceable (e : Expression)
| PText (start end_ indent : nat) (line_start : bool).

#[export] Instance Position_eq_dec : EqDecision Position.
Proof. solve_decision. Defined.
#[export] Instance TextKind_eq_dec : EqDecision TextKind.
Proof. solve_decision. Defined.
#[export] Instance Termination_eq_dec : EqDecision Termination.
Proof. solve_decision. Defined.

(** [Result<A, ParseError>], with the pointer after a success. *)
Definition presult (A : Type) : Type := ParseError + A * nat.
Definition POk {A} (a : A) (ptr : nat) : outcome (presult A) := Ret (inr (a, ptr)).
Definition PErr {A} (offset : nat) (message : str) : outcome (presult A) := Ret (inl (mkError offset message)).

(** The [?] operator. *)
Definition pbind {A B} (m : outcome (presult A)) (f : A -> nat -> outcome (presult B)) : outcome (presult B) :=
  let* r := m in match r with inl e => Ret (inl e) | inr (a, ptr) => f a ptr end.
Notation "'let?' ( x , p ) := m 'in' k" := (pbind m (fun x p => k))
  (at level 10, x name, p name, m at level 100, k at level 200) : rust_scope.

Definition SPACE : Z := 32.
Definition CR : Z := 13.

(** ** String literals *)

(** [u32::from_str_radix(s, 16)]: an optional [+], then at least one digit; overflow is an error. *)
Definition is_hexdigit (b : Z) : bool :=
  is_ascii_digit b || ((65 <=? b) && (b <=? 70)) || ((97 <=? b) && (b <=? 102)).
Definition hex_value (c : Z) : Z :=
  if is_ascii_digit c then c - 48 else if c <=? 70 then c - 55 else c - 87.
Definition from_str_radix_16 (s : str) : option Z :=
  let s := match s with c :: s' => if c =? ch "+" then s' else s | [] => [] end in
  match s with
  | [] => None
  | _ => if forallb is_hexdigit s then
           let v := fold_left (fun acc c => 16 * acc + hex_value c) s 0 in
           if v <=? u32_max then Some v else None
         else None
  end.

(** [char::from_u32]. *)
Definition from_u32 (v : Z) : option char := if is_scalar v then Some v else None.

Definition UNKNOWN : char := 0xfffd.

(** [input.get(a..b).and_then(from_str_radix).and_then(from_u32).unwrap_or(UNKNOWN)] *)
Definition unicode_escape (input : str) (a b : nat) : char :=
  match str_slice a b input with
  | Some s => match from_str_radix_16 s with
              | Some v => match from_u32 v with Some c => c | None => UNKNOWN end
              | None => UNKNOWN
              end
  | None => UNKNOWN
  end.

(** The character of the escape sequence whose letter is at [ptr], and the pointer at its last byte. *)
Definition escape_char (input : str) (ptr : nat) : char * nat :=
  match as_bytes input !! ptr with
  | Some b =>
      if b =? BACKSLASH then (BACKSLASH, ptr)
      else if b =? DQUOTE then (DQUOTE, ptr)
      else if (b =? ch "u") || (b =? ch "U") then
        let seq_start := S ptr in
        let n := if b =? ch "u" then 4%nat else 6%nat in
        (unicode_escape input seq_start (seq_start + n), (ptr + n)%nat)
      else (UNKNOWN, ptr)
  | None => (UNKNOWN, ptr)
  end.

Fixpoint unescape_loop (fuel : nat) (input : str) (out : str) (start ptr : nat) : outcome str :=
  match fuel with
  | O => OutOfFuel
  | S f =>
      match as_bytes input !! ptr with
      | None => let* tail := unwrap (str_from start input) in Ret (out ++ tail)
      | Some b =>
          if b =? BACKSLASH then
            let* run := unwrap (str_slice start ptr input) in
            let '(c, ptr) := escape_char input (S ptr) in
            unescape_loop f input (out ++ run ++ [c]) (S ptr) (S ptr)
          else unescape_loop f input out start (S ptr)
      end
  end.

Definition unescape (input : str) : outcome str :=
  if existsb (fun c => c =? BACKSLASH) input then unescape_loop (S (str_len input)) input [] 0 0
  else Ret input.

Section Parser.
Context (src : str).

Definition bytes : list Z := as_bytes src.
Definition len : nat := length bytes.
Definition at_ (pos : nat) : option Z := bytes !! pos.
Definition is_cur (ptr : nat) (b : Z) : bool :=
  match at_ ptr with Some c => c =? b | None => false end.

Definition take_byte_if (ptr : nat) (b : Z) : bool * nat :=
  if is_cur ptr b then (true, S ptr) else (false, ptr).

Definition expect_byte (ptr : nat) (b : Z) : outcome (presult unit) :=
  if is_cur ptr b then POk tt (S ptr) else PErr ptr (lit "expected `" ++ [b] ++ lit "`").

(** [\r\n] at the pointer. *)
Definition is_crlf (ptr : nat) : bool := is_cur ptr CR && is_cur (S ptr) NEWLINE.

Definition skip_eol (ptr : nat) : bool * nat :=
  if is_cur ptr NEWLINE then (true, S ptr)
  else if is_crlf ptr then (true, S (S ptr))
  else (false, ptr).

(** The scanning loops stop at the end of the input: [len - ptr] turns are enough. *)
Fixpoint skip_while (fuel : nat) (p : Z -> bool) (ptr : nat) : nat :=
  match fuel with
  | O => ptr
  | S f => match at_ ptr with
           | Some b => if p b then skip_while f p (S ptr) else ptr
           | None => ptr
           end
  end.

Definition skip_bytes (p : Z -> bool) (ptr : nat) : nat := skip_while (len - ptr) p ptr.

(** Returns how many spaces were skipped, and the pointer. *)
Definition skip_blank_inline (ptr : nat) : nat * nat :=
  let p := skip_bytes (fun b => b =? SPACE) ptr in ((p - ptr)%nat, p).

Fixpoint skip_blank_block_loop (fuel : nat) (ptr : nat) : nat :=
  match fuel with
  | O => ptr
  | S f =>
      let start := ptr in
      let '(_, ptr) := skip_blank_inline ptr in
      let '(eol, ptr) := skip_eol ptr in
      if eol then skip_blank_block_loop f ptr else start
  end.
Definition skip_blank_block (ptr : nat) : nat := skip_blank_block_loop (S (len - ptr)) ptr.

Fixpoint skip_blank_loop (fuel : nat) (ptr : nat) : nat :=
  match fuel with
  | O => ptr
  | S f =>
      if is_cur ptr SPACE || is_cur ptr NEWLINE then skip_blank_loop f (S ptr)
      else if is_crlf ptr then skip_blank_loop f (S (S ptr))
      else ptr
  end.
Definition skip_blank (ptr : nat) : nat := skip_blank_loop (len - ptr) ptr.

Definition is_pattern_continuation (b : Z) : bool :=
  negb ((b =? ch ".") || (b =? ch "}") || (b =? ch "[") || (b =? ch "*")).

Definition is_identifier_start (pos : nat) : bool :=
  match at_ pos with Some b => is_ascii_alphabetic b | None => false end.

Definition is_identifier_byte (b : Z) : bool :=
  is_ascii_alphanumeric b || (b =? ch "-") || (b =? ch "_").

(** [self.src[a..b]]. *)
Definition slice (a b : nat) : outcome str := unwrap (str_slice a b src).

Definition get_identifier_unchecked (ptr : nat) : outcome (str * nat) :=
  let start := (ptr - 1)%nat in
  let ptr := skip_bytes is_identifier_byte ptr in
  let* s := slice start ptr in
  Ret (s, ptr).

Definition get_identifier (ptr : nat) : outcome (presult str) :=
  if is_identifier_start ptr then
    let* '(s, ptr) := get_identifier_unchecked (S ptr) in POk s ptr
  else PErr ptr (lit "expected an identifier").

(** [str::parse::<i64>()] of an optional sign and digits. *)
Definition digits_value (s : str) : Z := fold_left (fun acc c => 10 * acc + (c - 48)) s 0.
Definition parse_i64 (s : str) : option Z :=
  let v := match s with c :: s' => if c =? ch "-" then - digits_value s' else digits_value s | [] => 0 end in
  if (- 9223372036854775808 <=? v) && (v <=? 9223372036854775807) then Some v else None.

Definition get_number_literal (ptr : nat) : outcome (presult Z) :=
  let start := ptr in
  let '(_, ptr) := take_byte_if ptr (ch "-") in
  let digits_start := ptr in
  let ptr := skip_bytes is_ascii_digit ptr in
  if (ptr =? digits_start)%nat then PErr ptr (lit "expected a digit")
  else if is_cur ptr (ch ".") then PErr ptr (lit "fractional numbers are not supported in a message")
  else
    let* s := slice start ptr in
    match parse_i64 s with
    | Some n => POk n ptr
    | None => PErr start (lit "number is too large for a message")
    end.

Definition text_kind (text : list Z) : TextKind :=
  if forallb (fun c => c =? SPACE) text then Blank else NonBlank.

Definition unbalanced : str :=
  lit "unbalanced `}`: write `{" ++ [DQUOTE] ++ lit "}" ++ [DQUOTE] ++ lit "}` for a literal one".

(** Returns [(start, end, kind, termination)]. *)
Definition get_text_slice (ptr : nat) : outcome (presult (nat * nat * TextKind * Termination)) :=
  let start := ptr in
  let* rest := (if (ptr <=? len)%nat then Ret (drop ptr bytes) else Panic) in
  match rest with
  | [] => POk (start, ptr, Blank, Eof) ptr
  | _ =>
      match position (fun c => (c =? NEWLINE) || (c =? ch "{") || (c =? ch "}")) rest with
      | Some pos =>
          let* c := unwrap (rest !! pos) in
          if c =? ch "}" then PErr (ptr + pos) unbalanced
          else if c =? NEWLINE then
            if (0 <? pos)%nat && match rest !! (pos - 1)%nat with Some b => b =? CR | None => false end then
              let text := take (pos - 1) rest in
              let ptr := (ptr + length text + 1)%nat in
              POk (start, (ptr - 1)%nat, text_kind text, Crlf) ptr
            else
              let text := take pos rest in
              let ptr := (ptr + length text + 1)%nat in
              POk (start, ptr, text_kind text, LineFeed) ptr
          else
            let text := take pos rest in
            let ptr := (ptr + length text)%nat in
            POk (start, ptr, text_kind text, PlaceableStart) ptr
      | None =>
          let ptr := (ptr + length rest)%nat in
          POk (start, ptr, text_kind rest, Eof) ptr
      end
  end.

Definition skip_hex_digits (count ptr : nat) : outcome (presult unit) :=
  let start := ptr in
  let ptr := skip_while count is_hexdigit ptr in
  if (ptr - start =? count)%nat then POk tt ptr else PErr start (lit "invalid unicode escape sequence").

Fixpoint literal_loop (fuel : nat) (ptr : nat) : outcome (presult unit) :=
  match fuel with
  | O => OutOfFuel
  | S f =>
      match at_ ptr with
      | None => POk tt ptr
      | Some b =>
          if b =? BACKSLASH then
            match at_ (S ptr) with
            | Some e =>
                if (e =? BACKSLASH) || (e =? DQUOTE) then literal_loop f (S (S ptr))
                else if e =? ch "u" then
                  let? (_, ptr) := skip_hex_digits 4 (S (S ptr)) in literal_loop f ptr
                else if e =? ch "U" then
                  let? (_, ptr) := skip_hex_digits 6 (S (S ptr)) in literal_loop f ptr
                else PErr ptr (lit "unknown escape sequence")
            | None => PErr ptr (lit "unknown escape sequence")
            end
          else if b =? DQUOTE then POk tt ptr
          else if b =? NEWLINE then PErr ptr (lit "unterminated string literal")
          else literal_loop f (S ptr)
      end
  end.

(** The arm of [get_inline_expression] for a quote, which is at [ptr]. *)
Definition get_string_literal (ptr : nat) : outcome (presult Inline) :=
  let ptr := S ptr in
  let start := ptr in
  let? (_, ptr) := literal_loop (S (len - ptr)) ptr in
  let? (_, ptr) := expect_byte ptr DQUOTE in
  let* s := slice start (ptr - 1) in
  let* v := unescape s in
  POk (Literal v) ptr.

Definition get_variant_key (ptr : nat) : outcome (presult Key) :=
  let ptr := skip_blank ptr in
  let? (key, ptr) :=
    if match at_ ptr with Some b => is_ascii_digit b || (b =? ch "-") | None => false end then
      let? (n, ptr) := get_number_literal ptr in POk (KeyNumber n) ptr
    else let? (s, ptr) := get_identifier ptr in POk (Name s) ptr in
  let ptr := skip_blank ptr in
  let? (_, ptr) := expect_byte ptr (ch "]") in
  POk key ptr.

(** *** Patterns *)

Definition trim_end (s : str) : str :=
  reverse (drop_while (fun c => (c =? SPACE) || (c =? CR) || (c =? NEWLINE)) (reverse s)).

(** The element of a placeholder once the common indent is known. *)
Definition build_element (common_indent : option nat) (is_last : bool) (p : Placeholder) : outcome Element :=
  match p with
  | PPlaceable e => Ret (Placeable e)
  | PText start end_ indent line_start =>
      let start := if line_start then
                     match common_indent with
                     | Some common => (start + Nat.min indent common)%nat
                     | None => (start + indent)%nat
                     end
                   else start in
      let* value := slice start end_ in
      Ret (Text (if is_last then trim_end value else value))
  end.

Fixpoint build_elements (common_indent : option nat) (last_non_blank i : nat) (ps : list Placeholder)
    : outcome (list Element) :=
  match ps with
  | [] => Ret []
  | p :: ps =>
      let* e := build_element common_indent (i =? last_non_blank)%nat p in
      let* es := build_elements common_indent last_non_blank (S i) ps in
      Ret (e :: es)
  end.

Definition finish_pattern (ps : list Placeholder) (last_non_blank common_indent : option nat)
    : outcome (option Pattern) :=
  match last_non_blank with
  | None => Ret None
  | Some l =>
      let* es := build_elements common_indent l 0 (take (l + 1) ps) in
      Ret (Some (mkPattern es))
  end.

(** One text run of the [while] loop: [None] is [break], otherwise the new state. *)
Definition text_step (ps : list Placeholder) (last_non_blank common_indent : option nat) (role : Position) (ptr : nat)
    : outcome (presult (option (list Placeholder * option nat * option nat * Position))) :=
  let slice_start := ptr in
  let '(stop, indent, ptr) :=
    if decide (role = LineStart) then
      let '(indent, ptr) := skip_blank_inline ptr in
      match at_ ptr with
      | Some b =>
          if (indent =? 0)%nat then
            if negb (b =? CR) && negb (b =? NEWLINE) then (true, indent, ptr) else (false, indent, ptr)
          else if negb (is_pattern_continuation b) then (true, indent, slice_start)
          else (false, indent, ptr)
      | None => (true, indent, ptr)
      end
    else (false, 0%nat, ptr) in
  if (stop : bool) then POk None ptr
  else
    let? (t, ptr) := get_text_slice ptr in
    let '(start, end_, kind, termination) := t in
    let '(ps, last_non_blank, common_indent) :=
      if (start =? end_)%nat then (ps, last_non_blank, common_indent)
      else
        let common_indent :=
          if decide (role = LineStart /\ kind = NonBlank) then
            Some (match common_indent with Some common => Nat.min common indent | None => indent end)
          else common_indent in
        if decide (role <> LineStart \/ kind = NonBlank \/ termination = LineFeed) then
          (ps ++ [PText slice_start end_ indent (bool_decide (role = LineStart))],
           (if decide (kind = NonBlank) then Some (length ps) else last_non_blank), common_indent)
        else (ps, last_non_blank, common_indent) in
    let role := match termination with LineFeed | Crlf => LineStart | PlaceableStart | Eof => Continuation end in
    POk (Some (ps, last_non_blank, common_indent, role)) ptr.

Fixpoint get_pattern (fuel : nat) (ptr : nat) : outcome (presult (option Pattern)) :=
  match fuel with
  | O => OutOfFuel
  | S f =>
      let '(_, ptr) := skip_blank_inline ptr in
      let '(eol, ptr) := skip_eol ptr in
      let '(role, ptr) := if (eol : bool) then (LineStart, skip_blank_block ptr) else (InitialLineStart, ptr) in
      let? (r, ptr) := pattern_loop f [] None None role ptr in
      let '(ps, last_non_blank, common_indent) := r in
      let* p := finish_pattern ps last_non_blank common_indent in
      POk p ptr
  end
with pattern_loop (fuel : nat) (ps : list Placeholder) (last_non_blank common_indent : option nat)
    (role : Position) (ptr : nat) : outcome (presult (list Placeholder * option nat * option nat)) :=
  match fuel with
  | O => OutOfFuel
  | S f =>
      if (ptr <? len)%nat then
        let '(brace, ptr) := take_byte_if ptr (ch "{") in
        if (brace : bool) then
          let common_indent := if decide (role = LineStart) then Some 0%nat else common_indent in
          let? (e, ptr) := get_placeable f ptr in
          pattern_loop f (ps ++ [PPlaceable e]) (Some (length ps)) common_indent Continuation ptr
        else
          let? (o, ptr) := text_step ps last_non_blank common_indent role ptr in
          match o with
          | None => POk (ps, last_non_blank, common_indent) ptr
          | Some (ps, last_non_blank, common_indent, role) =>
              pattern_loop f ps last_non_blank common_indent role ptr
          end
      else POk (ps, last_non_blank, common_indent) ptr
  end
with get_placeable (fuel : nat) (ptr : nat) : outcome (presult Expression) :=
  match fuel with
  | O => OutOfFuel
  | S f =>
      let ptr := skip_blank ptr in
      let? (e, ptr) := get_expression f ptr in
      let '(_, ptr) := skip_blank_inline ptr in
      let? (_, ptr) := expect_byte ptr (ch "}") in
      POk e ptr
  end
with get_expression (fuel : nat) (ptr : nat) : outcome (presult Expression) :=
  match fuel with
  | O => OutOfFuel
  | S f =>
      let? (selector, ptr) := get_inline_expression f ptr in
      let ptr := skip_blank ptr in
      if is_cur ptr (ch "-") && is_cur (S ptr) (ch ">") then
        let ptr := S (S ptr) in
        let '(_, ptr) := skip_blank_inline ptr in
        let '(eol, ptr) := skip_eol ptr in
        if (eol : bool) then
          let ptr := skip_blank ptr in
          let? (vs, ptr) := variants_loop f [] false ptr in
          POk (Select selector vs) ptr
        else PErr ptr (lit "`->` must be followed by a newline")
      else POk (EInline selector) ptr
  end
with variants_loop (fuel : nat) (variants : list Variant) (has_default : bool) (ptr : nat)
    : outcome (presult (list Variant)) :=
  match fuel with
  | O => OutOfFuel
  | S f =>
      let '(default, ptr) := take_byte_if ptr (ch "*") in
      if default && has_default then PErr ptr (lit "a select may only have one default variant")
      else
        let has_default := has_default || default in
        let '(open, ptr) := take_byte_if ptr (ch "[") in
        if (open : bool) then
          let? (key, ptr) := get_variant_key ptr in
          let? (o, ptr) := get_pattern f ptr in
          match o with
          | None => PErr ptr (lit "a variant must have a value")
          | Some value =>
              variants_loop f (variants ++ [mkVariant key value default]) has_default (skip_blank ptr)
          end
        else if has_default then POk variants ptr
        else PErr ptr (lit "a select must have a default variant, marked `*[...]`")
  end
with get_inline_expression (fuel : nat) (ptr : nat) : outcome (presult Inline) :=
  match fuel with
  | O => OutOfFuel
  | S f =>
      match at_ ptr with
      | Some b =>
          if b =? DQUOTE then get_string_literal ptr
          else if is_ascii_digit b then let? (n, ptr) := get_number_literal ptr in POk (Number n) ptr
          else if b =? ch "-" then
            if is_identifier_start (S ptr) then PErr ptr (lit "term references (`{-name}`) are not supported")
            else let? (n, ptr) := get_number_literal ptr in POk (Number n) ptr
          else if b =? ch "$" then let? (name, ptr) := get_identifier (S ptr) in POk (Variable_ name) ptr
          else if is_ascii_alphabetic b then
            let name_start := ptr in
            let* '(name, ptr) := get_identifier_unchecked (S ptr) in
            let ptr := skip_blank ptr in
            let '(open, ptr) := take_byte_if ptr (ch "(") in
            if (open : bool) then get_call f name_start name ptr
            else PErr name_start (lit "message references and named call arguments are not supported; write `{$name}` for an argument")
          else if b =? ch "{" then let? (e, ptr) := get_placeable f (S ptr) in POk (Nested e) ptr
          else PErr ptr (lit "expected an expression")
      | None => PErr ptr (lit "expected an expression")
      end
  end
with get_call (fuel : nat) (name_start : nat) (name : str) (ptr : nat) : outcome (presult Inline) :=
  match fuel with
  | O => OutOfFuel
  | S f =>
      if decide (name = lit "STREQ") then
        let? (args, ptr) := args_loop f [] (skip_blank ptr) in
        let? (_, ptr) := expect_byte ptr (ch ")") in
        match args with
        | [a; b] => POk (StrEq a b) ptr
        | _ => PErr name_start (lit "`STREQ` takes exactly two arguments")
        end
      else PErr name_start (lit "`" ++ name ++ lit "` is not a known function; the only one is `STREQ`")
  end
with args_loop (fuel : nat) (args : list Inline) (ptr : nat) : outcome (presult (list Inline)) :=
  match fuel with
  | O => OutOfFuel
  | S f =>
      if (ptr <? len)%nat && negb (is_cur ptr (ch ")")) then
        let? (a, ptr) := get_inline_expression f ptr in
        let ptr := skip_blank ptr in
        let '(_, ptr) := take_byte_if ptr (ch ",") in
        args_loop f (args ++ [a]) (skip_blank ptr)
      else POk args ptr
  end.
End Parser.

(** At every pointer a bounded number of calls is made before it moves: ten units a byte suffice. *)
Definition parse_fuel (src : str) : nat := 10 * (len src + 2).

(** [Result<Pattern, ParseError>]. *)
Definition parse (message : str) : outcome (ParseError + Pattern) :=
  let source := message ++ [NEWLINE] in
  let* r := get_pattern source (parse_fuel source) 0 in
  Ret match r with
      | inl e => inl e
      | inr (pattern, ptr) =>
          if (ptr <? len source)%nat then
            inl (mkError ptr (lit "message ends here: a continuation line must be indented, and must not begin with `.`, `[` or `*`"))
          else match pattern with
               | Some p => inr p
               | None => inl (mkError 0 (lit "message is empty"))
               end
      end.

(** ** The renderer *)

Inductive Value := VStr (s : str) | VNumber (n : Z).

(** The arguments: [Args::get]. *)
Definition Args : Type := str -> option Value.

Record Rendered := mkRendered { text : str; unresolved : list str }.

Inductive Selector := SStr (s : str) | SNumber (n : Z) | SError.

(** [i32::to_string] / [i64::to_string]: twenty digits are enough. *)
Fixpoint digits_of (fuel : nat) (n : Z) : str :=
  match fuel with
  | O => []
  | S f => if n <? 10 then [48 + n] else digits_of f (n / 10) ++ [48 + n mod 10]
  end.
Definition number_to_string (n : Z) : str :=
  if n <? 0 then ch "-" :: digits_of 20 (- n) else digits_of 20 n.

(** [unsigned_abs() == 1]. *)
Definition key_matches (k : Key) (s : Selector) : bool :=
  match k, s with
  | Name name, SStr v => bool_decide (name = v)
  | KeyNumber k, SNumber v => k =? v
  | Name name, SNumber v =>
      if decide (name = lit "one") then Z.abs v =? 1
      else if decide (name = lit "other") then negb (Z.abs v =? 1)
      else false
  | _, _ => false
  end.

Definition i32_try_from (n : Z) : option Z :=
  if (-2147483648 <=? n) && (n <=? 2147483647) then Some n else None.

Definition push_text (out : Rendered) (s : str) : Rendered := mkRendered (text out ++ s) (unresolved out).
Definition push_unresolved (out : Rendered) (s : str) : Rendered := mkRendered (text out) (unresolved out ++ [s]).

Definition selected (s : Selector) : bool := match s with SStr _ | SNumber _ => true | SError => false end.

Section Render.
Context (args : Args).


Fixpoint write_pattern (p : Pattern) (out : Rendered) {struct p} : Rendered :=
  match p with
  | mkPattern es =>
      (fix go es out :=
         match es with
         | [] => out
         | Text s :: es => go es (push_text out s)
         | Placeable e :: es => go es (write_expression e out)
         end) es out
  end
with write_expression (e : Expression) (out : Rendered) {struct e} : Rendered :=
  match e with
  | EInline i => write_inline i out
  | Select selector vs =>
      let '(s, out) := resolve selector out in
      let matched :=
        if selected s then
          (fix go vs := match vs with
                        | [] => None
                        | mkVariant k p _ :: vs => if key_matches k s then Some (write_pattern p out) else go vs
                        end) vs
        else None in
      match matched with
      | Some r => r
      | None =>
          match (fix go vs := match vs with
                              | [] => None
                              | mkVariant _ p d :: vs => if (d : bool) then Some (write_pattern p out) else go vs
                              end) vs with
          | Some r => r
          | None => out
          end
      end
  end
with write_inline (i : Inline) (out : Rendered) {struct i} : Rendered :=
  match i with
  | Variable_ name =>
      match args name with
      | Some (VStr s) => push_text out s
      | Some (VNumber n) => push_text out (number_to_string n)
      | None => push_text (push_unresolved out name) (lit "{$" ++ name ++ lit "}")
      end
  | Literal s => push_text out s
  | Number n => push_text out (number_to_string n)
  | StrEq a b =>
      let '(sa, out) := resolve a out in
      let '(sb, out) := resolve b out in
      match sa, sb with
      | SStr x, SStr y => push_text out (if decide (x = y) then lit "true" else lit "false")
      | _, _ => push_text out (lit "STREQ()")
      end
  | Nested e => write_expression e out
  end
with resolve (i : Inline) (out : Rendered) {struct i} : Selector * Rendered :=
  match i with
  | Variable_ name =>
      match args name with
      | Some (VStr s) => (SStr s, out)
      | Some (VNumber n) => (SNumber n, out)
      | None => (SError, push_unresolved out name)
      end
  | Literal s => (SStr s, out)
  | Number n => (match i32_try_from n with Some n => SNumber n | None => SError end, out)
  | StrEq a b =>
      let '(sa, out) := resolve a out in
      let '(sb, out) := resolve b out in
      (match sa, sb with
       | SStr x, SStr y => SStr (if decide (x = y) then lit "true" else lit "false")
       | _, _ => SError
       end, out)
  | Nested e =>
      let nested := write_expression e (mkRendered [] []) in
      (SStr (text nested), mkRendered (text out) (unresolved out ++ unresolved nested))
  end.
End Render.

Definition render (p : Pattern) (args : Args) : Rendered := write_pattern args p (mkRendered [] []).

(** *** Examples *)

Definition no_args : Args := fun _ => None.
Definition one_arg (name : str) (v : Value) : Args := fun n => if decide (n = name) then Some v else None.
Definition rendered (m : str) (args : Args) : option str :=
  match parse m with Ret (inr p) => Some (text (render p args)) | _ => None end.

Example render_plural :
  let m := lit "found {$n -> " ++ [NEWLINE] ++ lit " [one] one item" ++ [NEWLINE] ++ lit " *[other] {$n} items" ++ [NEWLINE] ++ lit "} here" in
  rendered m (one_arg (lit "n") (VNumber 3)) = Some (lit "found 3 items here")
  /\ rendered m (one_arg (lit "n") (VNumber 1)) = Some (lit "found one item here").
Proof. vm_compute. done. Qed.
