(* ===== verification/DiagParse.v ===== *)
(** * Templates: the parser is total

    Every pointer the parser slices at is a character boundary, every call makes progress before
    the fuel it is given runs out, and every error points into the message. *)
From Stdlib Require Import Ascii String.
From Stdlib Require Import ZArith Lia.
From stdpp Require Import base numbers list.
From S2P Require Import Prelude RustStr DiagTemplate.
Open Scope Z_scope.
Open Scope rust_scope.

(** ** Character boundaries *)

Lemma str_split_nested s1 s2 t1 t2 : s1 ++ s2 = t1 ++ t2 -> (str_len s1 <= str_len t1)%nat ->
  exists m, t1 = s1 ++ m /\ s2 = m ++ t2.
Proof.
  intros He Hl. apply app_eq_inv in He as [(m & -> & ->)|(m & -> & ->)]; [|eauto].
  rewrite str_len_app in Hl. destruct m as [|c m]; [exists []; rewrite !app_nil_r; auto|].
  simpl in Hl. pose proof (len_utf8_pos c). lia.
Qed.

Section Boundaries.
Context (src : str) (Hsrc : wf_str src).

Definition bd (i : nat) : Prop := exists s1 s2, src = s1 ++ s2 /\ str_len s1 = i.

Lemma len_str : len src = str_len src.
Proof. unfold len, bytes. apply length_as_bytes. Qed.

Lemma bd_le i : bd i -> (i <= len src)%nat.
Proof. intros (s1 & s2 & H & <-). rewrite len_str, H, str_len_app. lia. Qed.

Lemma bd_0 : bd 0.
Proof. by exists [], src. Qed.

Lemma bd_len : bd (len src).
Proof. exists src, []. rewrite app_nil_r, len_str. done. Qed.

Lemma bd_ascii i b : at_ src i = Some b -> b < 0x80 -> bd i /\ bd (S i).
Proof.
  unfold at_, bytes. intros Hb Ha.
  destruct (as_bytes_ascii_split src (take i (as_bytes src)) b (drop (S i) (as_bytes src)))
    as (s1 & s2 & Hs & H1 & H2); [done|by rewrite take_drop_middle|done|].
  assert (Hl : str_len s1 = i).
  { rewrite <- length_as_bytes, H1, length_take. apply lookup_lt_Some in Hb. lia. }
  split.
  - exists s1, (b :: s2). done.
  - exists (s1 ++ [b]), s2. rewrite <- app_assoc. split; [done|]. rewrite str_len_app. simpl.
    rewrite len_utf8_ascii; [lia|]. unfold is_ascii. by apply Z.ltb_lt.
Qed.

(** What a slice between two boundaries is. *)
Lemma slice_ok a b : bd a -> bd b -> (a <= b)%nat ->
  exists s1 s s2, slice src a b = Ret s /\ src = s1 ++ s ++ s2 /\ str_len s1 = a /\ (a + str_len s = b)%nat.
Proof.
  intros (s1 & s2 & Hs & Ha) (t1 & t2 & Ht & Hb) Hab. assert (He : s1 ++ s2 = t1 ++ t2) by congruence.
  destruct (str_split_nested _ _ _ _ He) as (m & -> & ->); [lia|].
  rewrite str_len_app in Hb. exists s1, m, t2. split_and!; [|done|done|lia].
  unfold slice, str_slice. rewrite (proj2 (Nat.ltb_ge _ _)) by lia. rewrite Hs, <- Ha, str_from_app. simpl.
  replace (b - str_len s1)%nat with (str_len m) by lia. by rewrite str_to_app.
Qed.

Lemma at_lt i b : at_ src i = Some b -> (i < len src)%nat.
Proof. apply lookup_lt_Some. Qed.

Lemma at_some i : (i < len src)%nat -> exists b, at_ src i = Some b.
Proof. intros H. destruct (lookup_lt_is_Some_2 (bytes src) i H) as [b Hb]. eauto. Qed.

Lemma is_cur_true i b : is_cur src i b = true -> at_ src i = Some b.
Proof. unfold is_cur. destruct (at_ src i); [|done]. intros H. propify. by subst. Qed.

Lemma is_cur_bd i b : is_cur src i b = true -> b < 0x80 -> bd (S i).
Proof. intros H%is_cur_true Hb. by apply (bd_ascii i b). Qed.

(** ** The scanning loops *)

(** A predicate that holds of ASCII bytes only. *)
Definition ascii_only (p : Z -> bool) : Prop := forall b, p b = true -> b < 0x80.

(** [moved ptr p]: [p] is a boundary at or after the boundary [ptr]. *)
Definition moved (ptr p : nat) : Prop := bd p /\ (ptr <= p)%nat.

Lemma moved_refl p : bd p -> moved p p.
Proof. by split. Qed.

Lemma moved_trans a b c : moved a b -> moved b c -> moved a c.
Proof. intros [? ?] [? ?]. split; [done|lia]. Qed.

Lemma skip_while_moved fuel p ptr : ascii_only p -> bd ptr -> moved ptr (skip_while src fuel p ptr).
Proof.
  intros Hp. revert ptr. induction fuel as [|f IH]; intros ptr Hb; simpl; [by apply moved_refl|].
  destruct (at_ src ptr) as [b|] eqn:E; [|by apply moved_refl]. destruct (p b) eqn:Ep; [|by apply moved_refl].
  assert (H1 : bd (S ptr)) by (eapply bd_ascii; eauto). apply (moved_trans _ (S ptr)); [split; [done|lia]|auto].
Qed.

(** Every byte skipped satisfies the predicate. *)
Lemma skip_while_all fuel p ptr i : (ptr <= i < skip_while src fuel p ptr)%nat ->
  exists b, at_ src i = Some b /\ p b = true.
Proof.
  revert ptr. induction fuel as [|f IH]; intros ptr; simpl; [lia|].
  destruct (at_ src ptr) as [b|] eqn:E; [|lia]. destruct (p b) eqn:Ep; [|lia]. intros Hi.
  destruct (decide (i = ptr)) as [->|]; [eauto|]. apply (IH (S ptr)). lia.
Qed.

Lemma skip_bytes_moved p ptr : ascii_only p -> bd ptr -> moved ptr (skip_bytes src p ptr).
Proof. apply skip_while_moved. Qed.

Lemma space_ascii : ascii_only (fun b => b =? SPACE).
Proof. intros b H. propify. unfold SPACE in H. lia. Qed.

Lemma skip_blank_inline_moved ptr n p : bd ptr -> skip_blank_inline src ptr = (n, p) ->
  moved ptr p /\ p = (ptr + n)%nat /\ forall k, (k <= n)%nat -> bd (ptr + k).
Proof.
  unfold skip_blank_inline. intros Hb [= <- <-].
  destruct (skip_bytes_moved (fun b => b =? SPACE) ptr space_ascii Hb) as [H1 H2].
  split; [by split|]. split; [lia|]. intros k Hk. destruct k as [|k]; [by rewrite Nat.add_0_r|].
  rewrite Nat.add_succ_r. destruct (skip_while_all (len src - ptr) (fun b => b =? SPACE) ptr (ptr + k)) as (b & Hb1 & Hb2).
  { unfold skip_bytes in Hk. lia. }
  apply (bd_ascii (ptr + k) b Hb1). by apply space_ascii.
Qed.

Lemma skip_eol_moved ptr e p : bd ptr -> skip_eol src ptr = (e, p) ->
  moved ptr p /\ (e = true -> (ptr < p)%nat) /\ (e = false -> p = ptr).
Proof.
  unfold skip_eol, is_crlf. intros Hb. destruct (is_cur src ptr NEWLINE) eqn:E1.
  - intros [= <- <-]. split; [split; [by eapply is_cur_bd|lia]|]. split; [lia|done].
  - destruct (is_cur src ptr CR && is_cur src (S ptr) NEWLINE) eqn:E2; intros [= <- <-].
    + apply andb_true_iff in E2 as [_ E2]. split; [split; [by eapply is_cur_bd|lia]|]. split; [lia|done].
    + split; [by apply moved_refl|done].
Qed.

Lemma skip_blank_block_moved ptr : bd ptr -> moved ptr (skip_blank_block src ptr).
Proof.
  unfold skip_blank_block. generalize (S (len src - ptr)). intros fuel. revert ptr.
  induction fuel as [|f IH]; intros ptr Hb; cbn [skip_blank_block_loop]; [by apply moved_refl|].
  destruct (skip_blank_inline src ptr) as [n p] eqn:E1. destruct (skip_blank_inline_moved _ _ _ Hb E1) as (M1 & _).
  destruct (skip_eol src p) as [e q] eqn:E2. destruct (skip_eol_moved _ _ _ (proj1 M1) E2) as (M2 & _).
  destruct e; [|by apply moved_refl]. apply (moved_trans _ p); [done|]. apply (moved_trans _ q); [done|].
  apply IH. apply M2.
Qed.

Lemma skip_blank_moved ptr : bd ptr -> moved ptr (skip_blank src ptr).
Proof.
  unfold skip_blank. generalize (len src - ptr)%nat. intros fuel. revert ptr.
  induction fuel as [|f IH]; intros ptr Hb; cbn [skip_blank_loop]; [by apply moved_refl|].
  destruct (is_cur src ptr SPACE || is_cur src ptr NEWLINE) eqn:E1.
  - assert (H1 : bd (S ptr)) by (apply orb_true_iff in E1 as [E1|E1]; by eapply is_cur_bd).
    apply (moved_trans _ (S ptr)); [split; [done|lia]|auto].
  - unfold is_crlf. destruct (is_cur src ptr CR && is_cur src (S ptr) NEWLINE) eqn:E2; [|by apply moved_refl].
    apply andb_true_iff in E2 as [_ E2]. assert (H1 : bd (S (S ptr))) by by eapply is_cur_bd.
    apply (moved_trans _ (S (S ptr))); [split; [done|lia]|auto].
Qed.

Lemma take_byte_if_moved ptr b t p : bd ptr -> b < 0x80 -> take_byte_if src ptr b = (t, p) ->
  moved ptr p /\ (t = true -> p = S ptr) /\ (t = false -> p = ptr).
Proof.
  unfold take_byte_if. intros Hb Ha. destruct (is_cur src ptr b) eqn:E; intros [= <- <-].
  - split; [split; [by eapply is_cur_bd|lia]|done].
  - split; [by apply moved_refl|done].
Qed.
End Boundaries.

(** ** Total correctness of a parsing step *)

Section Steps.
Context (src : str) (Hsrc : wf_str src).

(** The step returns; an error points into the message, a success moves to a boundary. *)
Definition okp {A} (m : outcome (presult A)) (ptr : nat) (P : A -> nat -> Prop) : Prop :=
  runs m (fun r => match r with
                   | inl e => (offset e <= len src)%nat
                   | inr (a, p) => moved src ptr p /\ P a p
                   end).

Lemma okp_ok {A} (a : A) ptr p (P : A -> nat -> Prop) : moved src ptr p -> P a p -> okp (POk a p) ptr P.
Proof. intros. apply runs_ret. done. Qed.

Lemma okp_err {A} n msg ptr (P : A -> nat -> Prop) : (n <= len src)%nat -> okp (PErr n msg) ptr P.
Proof. intros. by apply runs_ret. Qed.

Lemma okp_err_bd {A} n msg ptr (P : A -> nat -> Prop) : bd src n -> okp (PErr n msg) ptr P.
Proof. intros H. apply okp_err. by apply bd_le. Qed.

Lemma okp_bind {A B} (m : outcome (presult A)) (k : A -> nat -> outcome (presult B)) ptr P Q :
  okp m ptr P -> (forall a p, moved src ptr p -> P a p -> okp (k a p) ptr Q) -> okp (pbind m k) ptr Q.
Proof.
  intros (r & -> & Hr) Hk. unfold pbind. cbn [obind]. destruct r as [e|[a p]].
  - by apply runs_ret.
  - destruct Hr as [Hm HP]. by apply Hk.
Qed.

Lemma okp_from {A} (m : outcome (presult A)) ptr p P Q :
  okp m p P -> moved src ptr p -> (forall a q, moved src p q -> P a q -> Q a q) -> okp m ptr Q.
Proof.
  intros (r & -> & Hr) Hm HQ. exists r. split; [done|]. destruct r as [e|[a q]]; [done|].
  destruct Hr as [Hq HP]. split; [by eapply moved_trans|auto].
Qed.

Lemma okp_runs {A B} (m : outcome A) (k : A -> outcome (presult B)) ptr (P : A -> Prop) Q :
  runs m P -> (forall a, P a -> okp (k a) ptr Q) -> okp (let* x := m in k x) ptr Q.
Proof. intros (a & -> & HP) Hk. cbn [obind]. auto. Qed.

Definition any {A} (_ : A) (_ : nat) : Prop := True.

Lemma okp_expect {B} (k : unit -> nat -> outcome (presult B)) p b ptr Q : moved src ptr p -> b < 0x80 ->
  (moved src ptr (S p) -> okp (k tt (S p)) ptr Q) -> okp (pbind (expect_byte src p b) k) ptr Q.
Proof.
  intros [Hb Hp] Ha Hk. unfold expect_byte. destruct (is_cur src p b) eqn:E; [|by apply okp_err_bd].
  apply Hk. split; [by eapply is_cur_bd|lia].
Qed.

Lemma slice_runs a b : bd src a -> bd src b -> (a <= b)%nat -> runs (slice src a b) (fun _ => True).
Proof. intros Ha Hb Hab. destruct (slice_ok src a b Ha Hb Hab) as (_ & s & _ & -> & _). by exists s. Qed.

Lemma alphabetic_ascii b : is_ascii_alphabetic b = true -> b < 0x80.
Proof. unfold is_ascii_alphabetic, is_ascii_upper, is_ascii_lower. intros H. propify. destruct H; propify; lia. Qed.

Lemma digit_ascii : ascii_only is_ascii_digit.
Proof. intros b H. unfold is_ascii_digit in H. propify. lia. Qed.

Lemma identifier_ascii : ascii_only is_identifier_byte.
Proof.
  intros b H. unfold is_identifier_byte, is_ascii_alphanumeric in H. propify.
  destruct H as [H|H]; [|propify; subst b; reflexivity]. propify.
  destruct H as [H|H]; [|propify; subst b; reflexivity]. propify. destruct H as [H|H]; [by apply alphabetic_ascii|by apply digit_ascii].
Qed.

Lemma hexdigit_ascii : ascii_only is_hexdigit.
Proof.
  intros b H. unfold is_hexdigit, is_ascii_digit in H. propify. destruct H as [H|H]; [propify; destruct H|]; propify; lia.
Qed.

(** Called after the first byte [b], an ASCII letter at [ptr - 1]. *)
Lemma identifier_unchecked_ok ptr b : at_ src ptr = Some b -> is_ascii_alphabetic b = true ->
  runs (get_identifier_unchecked src (S ptr)) (fun r => moved src (S ptr) r.2).
Proof.
  intros Hb Ha. destruct (bd_ascii src Hsrc ptr b Hb (alphabetic_ascii b Ha)) as [B0 B1].
  unfold get_identifier_unchecked. pose proof (skip_bytes_moved src Hsrc _ _ identifier_ascii B1) as M.
  eapply runs_bind; [apply slice_runs; [|apply M|]|]; [by replace (S ptr - 1)%nat with ptr by lia|destruct M; lia|].
  intros s _. by apply runs_ret.
Qed.

Lemma get_identifier_ok ptr : bd src ptr -> okp (get_identifier src ptr) ptr (fun _ p => (ptr < p)%nat).
Proof.
  intros Hb. unfold get_identifier, is_identifier_start. destruct (at_ src ptr) as [b|] eqn:E; [|by apply okp_err_bd].
  destruct (is_ascii_alphabetic b) eqn:Ea; [|by apply okp_err_bd].
  eapply okp_runs; [by apply (identifier_unchecked_ok ptr b)|]. intros [s p] [H1 H2]. cbn [snd] in *.
  apply okp_ok; [split; [done|lia]|lia].
Qed.

Lemma get_number_literal_ok ptr : bd src ptr -> okp (get_number_literal src ptr) ptr (fun _ p => (ptr < p)%nat).
Proof.
  intros Hb. unfold get_number_literal. destruct (take_byte_if src ptr (ch "-")) as [t p] eqn:E.
  destruct (take_byte_if_moved src Hsrc ptr (ch "-") t p Hb eq_refl E) as ([M1 M1'] & _).
  pose proof (skip_bytes_moved src Hsrc _ _ digit_ascii M1) as [M2 M2'].
  destruct (Nat.eqb_spec (skip_bytes src is_ascii_digit p) p); [by apply okp_err_bd|].
  destruct (is_cur src _ (ch ".")); [by apply okp_err_bd|].
  eapply okp_runs; [apply slice_runs; [exact Hb|exact M2|lia]|]. intros s _. destruct (parse_i64 s).
  - apply okp_ok; [split; [done|lia]|lia].
  - by apply okp_err_bd.
Qed.

Lemma get_variant_key_ok ptr : bd src ptr -> okp (get_variant_key src ptr) ptr (fun _ p => (ptr < p)%nat).
Proof.
  intros Hb. unfold get_variant_key. pose proof (skip_blank_moved src Hsrc _ Hb) as M0.
  eapply (okp_bind _ _ _ (fun _ p => (ptr < p)%nat)).
  - destruct (match at_ src (skip_blank src ptr) with Some b => _ | None => _ end).
    + eapply okp_from; [|exact M0|]; [|intros a q [_ ?] Hq; exact Hq].
      eapply okp_bind; [apply get_number_literal_ok, M0|]. intros n p M Hp. apply okp_ok; [done|]. destruct M0, M. cbv beta in *. lia.
    + eapply okp_from; [|exact M0|]; [|intros a q [_ ?] Hq; exact Hq].
      eapply okp_bind; [apply get_identifier_ok, M0|]. intros n p M Hp. apply okp_ok; [done|]. destruct M0, M. cbv beta in *. lia.
  - intros k p M Hp. pose proof (skip_blank_moved src Hsrc _ (proj1 M)) as M1.
    assert (M2 : moved src ptr (skip_blank src p)) by by eapply moved_trans.
    apply okp_expect; [done|reflexivity|]. intros M3. apply okp_ok; [done|]. destruct M1. lia.
Qed.
End Steps.

(** ** String literals *)

(** The bytes between the quotes of a literal the parser accepts. *)
Inductive lit_ok : list Z -> Prop :=
| lit_nil : lit_ok []
| lit_plain b l : b <> BACKSLASH -> lit_ok l -> lit_ok (b :: l)
| lit_simple e l : e = BACKSLASH \/ e = DQUOTE -> lit_ok l -> lit_ok (BACKSLASH :: e :: l)
| lit_hex e h l : (e = ch "u" /\ length h = 4%nat) \/ (e = ch "U" /\ length h = 6%nat) ->
    Forall (fun b => is_hexdigit b = true) h -> lit_ok l -> lit_ok (BACKSLASH :: e :: h ++ l).

Section Literals.
Context (src : str) (Hsrc : wf_str src).

Definition between (a b : nat) : list Z := take (b - a) (drop a (bytes src)).

Lemma between_cons a b x : at_ src a = Some x -> (a < b)%nat -> between a b = x :: between (S a) b.
Proof.
  intros Hx Hab. unfold between. rewrite (drop_S _ _ _ Hx). destruct (b - a)%nat eqn:E; [lia|].
  cbn [take]. f_equal. f_equal. lia.
Qed.

Lemma skip_hex_digits_ok count ptr : (ptr <= len src)%nat ->
  runs (skip_hex_digits src count ptr) (fun r =>
    match r with
    | inl e => (offset e <= len src)%nat
    | inr (_, p) => p = (ptr + count)%nat /\ (p <= len src)%nat /\ forall q, (p <= q)%nat ->
        exists h, length h = count /\ Forall (fun b => is_hexdigit b = true) h /\ between ptr q = h ++ between p q
    end).
Proof.
  intros Hl. unfold skip_hex_digits. set (p := skip_while src count is_hexdigit ptr).
  destruct (Nat.eqb_spec (p - ptr) count) as [E|E]; [|by apply runs_ret]. apply runs_ret.
  assert (Hp : (ptr <= p)%nat).
  { unfold p. clear. revert ptr. induction count as [|c IH]; intros ptr; simpl; [lia|].
    destruct (at_ src ptr); [|lia]. destruct (is_hexdigit z); [|lia]. specialize (IH (S ptr)). lia. }
  assert (Hall : forall i, (ptr <= i < p)%nat -> exists b, at_ src i = Some b /\ is_hexdigit b = true)
    by (intros i; apply skip_while_all).
  split; [lia|]. split.
  { destruct (decide (p = ptr)) as [->|]; [done|]. destruct (Hall (p - 1)%nat ltac:(lia)) as (b & Hb & _).
    apply at_lt in Hb. lia. }
  intros q Hq. clearbody p. revert ptr Hl E Hp Hall. induction count as [|c IH]; intros ptr Hl E Hp Hall.
  - exists []. replace p with ptr by lia. done.
  - destruct (Hall ptr ltac:(lia)) as (b & Hb & Hx). pose proof (at_lt _ _ _ Hb).
    destruct (IH (S ptr)) as (h & Hh & Hf & Hbt); [lia|lia|lia|intros i Hi; apply Hall; lia|].
    exists (b :: h). rewrite (between_cons ptr q b), Hbt by (done || lia). split_and!; [simpl; lia|by constructor|done].
Qed.

Lemma literal_loop_ok fuel ptr : (ptr <= len src)%nat -> (len src - ptr < fuel)%nat ->
  runs (literal_loop src fuel ptr) (fun r =>
    match r with
    | inl e => (offset e <= len src)%nat
    | inr (_, p) => (ptr <= p <= len src)%nat /\ (forall b, at_ src p = Some b -> b = DQUOTE) /\ lit_ok (between ptr p)
    end).
Proof.
  revert ptr. induction fuel as [|f IH]; intros ptr Hl Hf; [lia|]. cbn [literal_loop].
  destruct (at_ src ptr) as [b|] eqn:Eb.
  2: { apply runs_ret. split; [lia|]. split; [congruence|]. unfold between. rewrite Nat.sub_diag. constructor. }
  pose proof (at_lt _ _ _ Eb) as Hlt. destruct (Z.eqb_spec b BACKSLASH) as [->|Hne].
  - destruct (at_ src (S ptr)) as [e|] eqn:Ee; [|apply runs_ret; simpl; lia]. pose proof (at_lt _ _ _ Ee) as Hlt2.
    assert (Hesc : forall n, (e = ch "u" /\ n = 4%nat) \/ (e = ch "U" /\ n = 6%nat) ->
      runs (let? (_, p) := skip_hex_digits src n (S (S ptr)) in literal_loop src f p) (fun r =>
        match r with
        | inl e => (offset e <= len src)%nat
        | inr (_, p) => (ptr <= p <= len src)%nat /\ (forall b, at_ src p = Some b -> b = DQUOTE) /\ lit_ok (between ptr p)
        end)).
    { intros n Hn. unfold pbind. eapply runs_bind; [apply skip_hex_digits_ok; lia|].
      intros [err|[u p]] Hp; [by apply runs_ret|]. destruct Hp as (-> & Hle & Hh).
      eapply runs_mono; [apply IH; lia|]. intros [err|[u' q]] Hq; [done|]. destruct Hq as (Hq1 & Hq2 & Hq3).
      split; [lia|]. split; [done|]. destruct (Hh q) as (h & Hlen & Hhex & Hbt); [lia|].
      rewrite (between_cons _ _ _ Eb), (between_cons _ _ _ Ee), Hbt by lia. apply lit_hex; [|done|done].
      destruct Hn as [[-> ->]|[-> ->]]; [left|right]; by rewrite Hlen. }
    destruct ((e =? BACKSLASH) || (e =? DQUOTE)) eqn:Es.
    + eapply runs_mono; [apply (IH (S (S ptr))); lia|]. intros [err|[u q]] Hq; [done|]. destruct Hq as (Hq1 & Hq2 & Hq3).
      split; [lia|]. split; [done|]. rewrite (between_cons _ _ _ Eb), (between_cons _ _ _ Ee) by lia.
      apply lit_simple; [|done]. propify. destruct Es; propify; auto.
    + destruct (Z.eqb_spec e (ch "u")) as [->|]; [apply Hesc; auto|].
      destruct (Z.eqb_spec e (ch "U")) as [->|]; [apply Hesc; auto|]. apply runs_ret. simpl. lia.
  - destruct (Z.eqb_spec b DQUOTE) as [->|Hnq].
    { apply runs_ret. split; [lia|]. split; [congruence|]. unfold between. rewrite Nat.sub_diag. constructor. }
    destruct (Z.eqb_spec b NEWLINE); [apply runs_ret; simpl; lia|].
    eapply runs_mono; [apply (IH (S ptr)); lia|]. intros [err|[u q]] Hq; [done|]. destruct Hq as (Hq1 & Hq2 & Hq3).
    split; [lia|]. split; [done|]. rewrite (between_cons _ _ _ Eb) by lia. by apply lit_plain.
Qed.

Lemma between_slice s1 s s2 a b : src = s1 ++ s ++ s2 -> str_len s1 = a -> (a + str_len s = b)%nat ->
  between a b = as_bytes s.
Proof.
  intros Hs <- <-. unfold between, bytes. rewrite Hs, !as_bytes_app, <- !length_as_bytes.
  rewrite drop_app_length. replace (_ + _ - _)%nat with (length (as_bytes s)) by lia. by rewrite take_app_length.
Qed.
End Literals.

Lemma lookup_of_drop {A} (l r : list A) i x : x :: r = drop i l -> l !! i = Some x.
Proof. intros H. rewrite <- (Nat.add_0_r i), <- lookup_drop, <- H. done. Qed.

(** [unescape] of such a literal never slices off a boundary. *)
Lemma unescape_loop_ok s fuel out start ptr : wf_str s -> lit_ok (drop ptr (bytes s)) ->
  bd s start -> (start <= ptr)%nat -> (ptr <= len s)%nat -> (len s - ptr < fuel)%nat ->
  runs (unescape_loop fuel s out start ptr) (fun _ => True).
Proof.
  intros Hs. revert out start ptr. induction fuel as [|f IH]; intros out start ptr Hok Hb Hle Hl Hf; [lia|].
  cbn [unescape_loop]. change (as_bytes s !! ptr) with (at_ s ptr).
  destruct (at_ s ptr) as [b|] eqn:Eb.
  2: { destruct Hb as (s1 & s2 & Hs12 & <-). rewrite Hs12, str_from_app. by apply runs_ret. }
  pose proof (at_lt _ _ _ Eb) as Hlt. rewrite (drop_S _ _ _ Eb) in Hok.
  destruct (Z.eqb_spec b BACKSLASH) as [->|Hne].
  - assert (B0 : bd s ptr) by (by eapply bd_ascii).
    destruct (slice_ok s start ptr Hb B0 Hle) as (_ & run & _ & Hr & _). unfold slice in Hr. rewrite Hr. cbn [obind].
    assert (Hesc : forall q e, at_ s (S ptr) = Some e -> (exists x, at_ s q = Some x /\ x < 0x80) -> (S ptr <= q)%nat ->
      lit_ok (drop (S q) (bytes s)) -> forall out', runs (unescape_loop f s out' (S q) (S q)) (fun _ => True)).
    { intros q e He (x & Hx & Hxa) Hpq Hrest out'. apply IH; [done| |done| |].
      - by eapply bd_ascii.
      - apply at_lt in Hx. lia.
      - apply at_lt in Hx. lia. }
    inversion Hok as [|b0 l Hb0 _|e l He Hrest Heq|e h l He Hh Hrest Heq]; subst; [done| |].
    + assert (Ee : at_ s (S ptr) = Some e) by (by eapply lookup_of_drop).
      assert (Hea : e < 0x80) by (destruct He as [->| ->]; reflexivity).
      unfold escape_char. change (as_bytes s !! S ptr) with (at_ s (S ptr)). rewrite Ee.
      replace (if e =? BACKSLASH then _ else _) with (e, S ptr) by (destruct He as [->| ->]; reflexivity).
      apply (Hesc (S ptr) e); eauto. rewrite (drop_S _ _ _ Ee) in Heq. by injection Heq as <-.
    + assert (Ee : at_ s (S ptr) = Some e) by (by eapply lookup_of_drop).
      unfold escape_char. change (as_bytes s !! S ptr) with (at_ s (S ptr)). rewrite Ee.
      set (n := if e =? ch "u" then 4%nat else 6%nat).
      assert (Hn : length h = n) by (unfold n; destruct He as [[-> ->]|[-> ->]]; reflexivity).
      replace (if e =? BACKSLASH then _ else _) with (unicode_escape s (S (S ptr)) (S (S ptr) + n), (S ptr + n)%nat)
        by (destruct He as [[-> _]|[-> _]]; reflexivity).
      rewrite (drop_S _ _ _ Ee) in Heq. injection Heq as Heq.
      assert (Hn1 : (1 <= n)%nat) by (unfold n; destruct (e =? ch "u"); lia).
      apply (Hesc (S ptr + n)%nat e); [done| |lia|].
      * destruct (lookup_lt_is_Some_2 h (n - 1)) as [x Hx]; [lia|]. exists x. split.
        -- assert (Hd : drop (S (S ptr)) (bytes s) !! (n - 1)%nat = Some x) by (rewrite <- Heq; by apply lookup_app_l_Some).
           rewrite lookup_drop in Hd. unfold at_. rewrite <- Hd. f_equal. lia.
        -- apply hexdigit_ascii. exact (Forall_lookup_1 _ _ _ _ Hh Hx).
      * replace (drop (S (S ptr + n)) (bytes s)) with l; [done|].
        rewrite <- (drop_app_length' h l n) by done. rewrite Heq, drop_drop. done.
  - assert (Hrest : lit_ok (drop (S ptr) (bytes s))) by (inversion Hok; subst; done).
    apply IH; auto; lia.
Qed.

Lemma unescape_ok s : wf_str s -> lit_ok (as_bytes s) -> runs (unescape s) (fun _ => True).
Proof.
  intros Hs Hok. unfold unescape. case_if E; [|by apply runs_ret].
  apply unescape_loop_ok; auto; try lia; [apply bd_0|]. rewrite len_str. lia.
Qed.

(** ** Defaults

    No select of the tree has more than one default variant. *)
Definition count_default (vs : list Variant) : nat := length (List.filter default vs).

Fixpoint pattern_ok (p : Pattern) : Prop :=
  match p with
  | mkPattern es =>
      (fix go es := match es with
                    | [] => True
                    | Text _ :: es => go es
                    | Placeable e :: es => expr_ok e /\ go es
                    end) es
  end
with expr_ok (e : Expression) : Prop :=
  match e with
  | EInline i => inline_ok i
  | Select s vs =>
      inline_ok s /\ (count_default vs <= 1)%nat /\
      (fix go vs := match vs with
                    | [] => True
                    | mkVariant _ p _ :: vs => pattern_ok p /\ go vs
                    end) vs
  end
with inline_ok (i : Inline) : Prop :=
  match i with
  | Variable_ _ | Literal _ | Number _ => True
  | StrEq a b => inline_ok a /\ inline_ok b
  | Nested e => expr_ok e
  end.

Definition elem_ok (e : Element) : Prop := match e with Text _ => True | Placeable e => expr_ok e end.

Lemma pattern_ok_forall es : pattern_ok (mkPattern es) <-> Forall elem_ok es.
Proof.
  cbn [pattern_ok]. induction es as [|[s|e] es IH]; rewrite ?Forall_nil, ?Forall_cons; cbn [elem_ok]; [done|tauto|tauto].
Qed.

Lemma select_ok s vs : expr_ok (Select s vs) <->
  inline_ok s /\ (count_default vs <= 1)%nat /\ Forall (fun v => pattern_ok (value v)) vs.
Proof.
  cbn [expr_ok]. assert (H : (fix go vs := match vs with [] => True | mkVariant _ p _ :: vs => pattern_ok p /\ go vs end) vs
    <-> Forall (fun v => pattern_ok (value v)) vs).
  { induction vs as [|[k p d] vs IH]; rewrite ?Forall_nil, ?Forall_cons; cbn [value]; [done|]. by rewrite IH. }
  by rewrite H.
Qed.

Definition maybe_ok (o : option Pattern) : Prop := match o with Some p => pattern_ok p | None => True end.

Section Rec.
Context (src : str) (Hsrc : wf_str src).

Lemma get_string_literal_ok ptr : bd src ptr -> at_ src ptr = Some DQUOTE ->
  okp src (get_string_literal src ptr) ptr (fun i p => (ptr < p)%nat /\ inline_ok i).
Proof.
  intros Hb Hq. unfold get_string_literal. pose proof (at_lt _ _ _ Hq) as Hlt.
  destruct (bd_ascii src Hsrc ptr DQUOTE Hq eq_refl) as [_ B1]. unfold okp, pbind.
  eapply runs_bind; [apply literal_loop_ok; lia|]. intros [e|[u p]] Hp; [by apply runs_ret|].
  destruct Hp as (Hle & Hd & Hok). unfold expect_byte. destruct (is_cur src p DQUOTE) eqn:E.
  2: { cbn [obind]. apply runs_ret. simpl. lia. }
  cbn [obind]. apply is_cur_true in E. destruct (bd_ascii src Hsrc p DQUOTE E eq_refl) as [B2 B3].
  cbn [POk obind]. replace (S p - 1)%nat with p by lia.
  destruct (slice_ok src (S ptr) p B1 B2 ltac:(lia)) as (s1 & s & s2 & -> & Hs & Ha & Hab). cbn [obind].
  eapply runs_bind; [apply unescape_ok|].
  - rewrite Hs in Hsrc. apply wf_str_app in Hsrc as [_ Hw]. by apply wf_str_app in Hw as [? _].
  - by rewrite <- (between_slice src s1 s s2 (S ptr) p).
  - intros v _. apply runs_ret. split; [split; [done|lia]|split; [lia|done]].
Qed.

(** *** Patterns *)

(** A recorded text run can be sliced after any dedent. *)
Definition run_ok (p : Placeholder) : Prop :=
  match p with
  | PPlaceable e => expr_ok e
  | PText start end_ indent _ =>
      bd src end_ /\ (start + indent <= end_)%nat /\ forall k, (k <= indent)%nat -> bd src (start + k)
  end.

Lemma build_element_ok ci l p : run_ok p -> runs (build_element src ci l p) elem_ok.
Proof.
  destruct p as [e|start end_ indent ls]; cbn [build_element run_ok]; [intros He; by apply runs_ret|].
  intros (He & Hle & Hk).
  set (st := if ls then _ else start).
  assert (Hst : exists k, (k <= indent)%nat /\ st = (start + k)%nat).
  { unfold st. destruct ls; [|exists 0%nat; lia]. destruct ci as [c|]; [exists (Nat.min indent c)|exists indent]; lia. }
  destruct Hst as (k & Hki & ->). eapply runs_bind; [apply slice_runs; [by apply Hk|done|lia]|].
  intros s _. by apply runs_ret.
Qed.

Lemma finish_pattern_ok ps lnb ci : Forall run_ok ps -> runs (finish_pattern src ps lnb ci) maybe_ok.
Proof.
  intros Hps. unfold finish_pattern. destruct lnb as [l|]; [|by apply runs_ret].
  apply (runs_bind _ _ (Forall elem_ok)); [|intros es Hes; apply runs_ret; by apply pattern_ok_forall].
  apply (Forall_take _ (l + 1)%nat) in Hps. revert Hps. generalize 0%nat (take (l + 1)%nat ps). clear ps.
  intros i ps Hps. revert i. induction Hps as [|p ps Hp _ IH]; intros i; cbn [build_elements]; [by apply runs_ret|].
  eapply runs_bind; [by apply build_element_ok|]. intros e He.
  eapply runs_bind; [apply IH|]. intros es Hes. apply runs_ret. by constructor.
Qed.

(** A text run: it ends at a boundary, and it is not empty unless a brace follows. *)
Lemma get_text_slice_ok ptr : bd src ptr -> (ptr < len src)%nat ->
  okp src (get_text_slice src ptr) ptr (fun t p => let '(s, e, _, _) := t in
    s = ptr /\ moved src ptr e /\ (is_cur src ptr (ch "{") = false -> (ptr < p)%nat)).
Proof.
  intros Hb Hlt. unfold get_text_slice. rewrite (proj2 (Nat.leb_le _ _)) by lia. cbn [obind].
  destruct (at_some src ptr Hlt) as [b0 Hb0]. unfold at_ in Hb0. rewrite (drop_S _ _ _ Hb0).
  set (stop := fun c => _). destruct (position stop (b0 :: drop (S ptr) (bytes src))) as [pos|] eqn:Ep.
  2: { pose proof (bd_len src) as BL.
       assert (HL : (ptr + length (b0 :: drop (S ptr) (bytes src)))%nat = len src).
       { cbn [length]. rewrite length_drop. unfold len in *. lia. }
       rewrite HL. apply okp_ok; [split; [done|lia]|]. split_and!; [done|split; [done|lia]|lia]. }
  apply position_Some in Ep as (l1 & c & l2 & Hl & Hpos & Hstop & Hbefore). rewrite Hl.
  rewrite lookup_app_r, Hpos, Nat.sub_diag by lia. cbn [lookup list_lookup unwrap obind].
  assert (Hat : forall i, (i <= pos)%nat -> at_ src (ptr + i) = (l1 ++ c :: l2) !! i).
  { intros i _. unfold at_. rewrite <- Hl, <- (drop_S _ _ _ Hb0), lookup_drop. done. }
  assert (Hc1 : at_ src (ptr + pos) = Some c) by (rewrite Hat, lookup_app_r, Hpos, Nat.sub_diag by lia; done).
  assert (Hca : c < 0x80).
  { unfold stop in Hstop. propify. destruct Hstop as [Hs|Hs]; [propify; destruct Hs as [Hs|Hs]|]; propify; subst c; reflexivity. }
  destruct (bd_ascii src Hsrc _ c Hc1 Hca) as [B1 B2]. pose proof (at_lt _ _ _ Hc1) as Hlt1.
  assert (Htake : take pos (l1 ++ c :: l2) = l1) by (rewrite <- Hpos; by rewrite take_app_length).
  destruct (Z.eqb_spec c (ch "}")) as [->|Hn1]; [apply okp_err; lia|].
  destruct (Z.eqb_spec c NEWLINE) as [->|Hn2].
  - destruct ((0 <? pos)%nat && _) eqn:Ecr.
    + (* a carriage return before the line feed: both end the run *)
      apply andb_true_iff in Ecr as [Ep Ecr]. propify.
      rewrite length_take, length_app. cbn [length].
      replace (ptr + Nat.min (pos - 1) (length l1 + S (length l2)) + 1)%nat with (ptr + pos)%nat by lia.
      apply okp_ok; [split; [done|lia]|]. split_and!; [done| |lia].
      destruct ((l1 ++ NEWLINE :: l2) !! (pos - 1)%nat) as [x|] eqn:Ex; [|done]. propify. subst x.
      assert (Hx : at_ src (ptr + (pos - 1)) = Some CR) by (rewrite Hat by lia; done).
      destruct (bd_ascii src Hsrc _ _ Hx eq_refl) as [B3 _].
      replace (ptr + pos - 1)%nat with (ptr + (pos - 1))%nat by lia. split; [done|lia].
    + rewrite Htake, Hpos. replace (ptr + pos + 1)%nat with (S (ptr + pos)) by lia.
      apply okp_ok; [split; [done|lia]|]. split_and!; [done|split; [done|lia]|lia].
  - rewrite Htake, Hpos. apply okp_ok; [split; [done|lia]|]. split_and!; [done|split; [done|lia]|]. intros Hc.
    destruct pos; [|lia]. exfalso. rewrite Nat.add_0_r in Hc1. unfold is_cur in Hc. rewrite Hc1 in Hc.
    unfold stop in Hstop. propify. destruct Hstop as [Hs|Hs]; [propify; destruct Hs as [Hs|Hs]|]; propify; done.
Qed.

Lemma text_step_ok ps lnb ci role ptr : bd src ptr -> (ptr < len src)%nat -> is_cur src ptr (ch "{") = false ->
  Forall run_ok ps ->
  okp src (text_step src ps lnb ci role ptr) ptr (fun o p =>
    match o with Some (ps', _, _, _) => Forall run_ok ps' /\ (ptr < p)%nat | None => True end).
Proof.
  intros Hb Hlt Hc Hps. unfold text_step.
  set (lead := if decide (role = LineStart) then _ else _).
  assert (Hlead : exists stop indent p, lead = (stop, indent, p) /\ moved src ptr p /\
    (stop = false -> p = (ptr + indent)%nat /\ (forall k, (k <= indent)%nat -> bd src (ptr + k)) /\ (p < len src)%nat)).
  { unfold lead. destruct (decide (role = LineStart)).
    2: { exists false, 0%nat, ptr. split; [done|]. split; [by apply moved_refl|]. intros _.
         rewrite Nat.add_0_r. split_and!; [done| |done]. intros k Hk. by replace (ptr + k)%nat with ptr by lia. }
    destruct (skip_blank_inline src ptr) as [indent p] eqn:Es.
    destruct (skip_blank_inline_moved src Hsrc _ _ _ Hb Es) as (M & Hp & Hk).
    destruct (at_ src p) as [b|] eqn:Eb; [|by exists true, indent, p].
    pose proof (at_lt _ _ _ Eb). case_ifs; eexists _, _, _; (split; [reflexivity|]); (split; [done || by apply moved_refl|done]). }
  destruct Hlead as (stop & indent & p & -> & M & Hgo). destruct stop; [by apply okp_ok|].
  destruct (Hgo eq_refl) as (Hp & Hk & Hpl). destruct M as [M1 M2].
  eapply okp_bind; [eapply okp_from; [apply (get_text_slice_ok p M1 Hpl)|by split|]|].
  { intros t q Hq HP. exact (conj Hq HP). }
  intros [[[s e] kind] term] q Mq [Mpq (-> & [Be Hpe] & Hstrict)].
  destruct (if (p =? e)%nat then _ else _) as [[ps' lnb'] ci'] eqn:Er. apply okp_ok; [done|].
  assert (Hlt' : (ptr < q)%nat).
  { destruct Mpq as [_ Hpq]. destruct (decide (indent = 0%nat)) as [->|]; [|lia].
    rewrite Nat.add_0_r in Hp. subst p. by apply Hstrict. }
  split; [|done]. revert Er. case_ifs; intros [= <- _ _]; auto.
  all: apply Forall_app; split; [done|]; constructor; [|done]; split_and!; auto; lia.
Qed.

(** *** The recursive descent *)

(** Fuel for a call at [ptr]: ten units for each byte that is left, and [c] more. *)
Definition enough (fuel c ptr : nat) : Prop := (10 * (len src - ptr) + c <= fuel)%nat.

(** The variants so far: well formed, at most one default, none before [has_default]. *)
Definition variants_ok (vs : list Variant) (has_default : bool) : Prop :=
  Forall (fun v => pattern_ok (value v)) vs /\ (count_default vs <= if has_default then 1 else 0)%nat.

Lemma variants_ok_snoc vs d k p def : variants_ok vs d -> pattern_ok p -> def && d = false ->
  variants_ok (vs ++ [mkVariant k p def]) (d || def).
Proof.
  intros [H1 H2] Hp Hd. split; [apply Forall_app; split; [done|by repeat constructor]|].
  unfold count_default in *. rewrite List.filter_app, length_app. destruct def, d; simpl in *; try done; lia.
Qed.

Record total (fuel : nat) : Prop := {
  t_pattern : forall ptr, bd src ptr -> enough fuel 2 ptr -> okp src (get_pattern src fuel ptr) ptr (fun o _ => maybe_ok o);
  t_loop : forall ps lnb ci role ptr, bd src ptr -> enough fuel 1 ptr -> Forall run_ok ps ->
    okp src (pattern_loop src fuel ps lnb ci role ptr) ptr (fun r _ => Forall run_ok r.1.1);
  t_placeable : forall ptr, bd src ptr -> enough fuel 3 ptr -> 
    okp src (get_placeable src fuel ptr) ptr (fun e p => (ptr < p)%nat /\ expr_ok e);
  t_expression : forall ptr, bd src ptr -> enough fuel 2 ptr -> okp src (get_expression src fuel ptr) ptr (fun e _ => expr_ok e);
  t_variants : forall vs d ptr, bd src ptr -> enough fuel 1 ptr -> variants_ok vs d ->
    okp src (variants_loop src fuel vs d ptr) ptr (fun vs _ => variants_ok vs true);
  t_inline : forall ptr, bd src ptr -> enough fuel 1 ptr -> 
    okp src (get_inline_expression src fuel ptr) ptr (fun i p => (ptr < p)%nat /\ inline_ok i);
  t_call : forall st name ptr, bd src st -> bd src ptr -> enough fuel 3 ptr ->
    okp src (get_call src fuel st name ptr) ptr (fun i _ => inline_ok i);
  t_args : forall args ptr, bd src ptr -> enough fuel 2 ptr -> Forall inline_ok args ->
    okp src (args_loop src fuel args ptr) ptr (fun args _ => Forall inline_ok args);
}.

Lemma okp_sub {A B} (m : outcome (presult A)) (k : A -> nat -> outcome (presult B)) ptr p P Q :
  moved src ptr p -> okp src m p P ->
  (forall a q, moved src p q -> moved src ptr q -> P a q -> okp src (k a q) ptr Q) -> okp src (pbind m k) ptr Q.
Proof.
  intros M Hm Hk. eapply okp_bind; [eapply (okp_from src m ptr p P (fun a q => moved src p q /\ P a q)); auto|].
  intros a q Mq [M2 HP]. auto.
Qed.

(** Calling at a later pointer with one unit less. *)
Lemma enough_step f c ptr c' p : enough (S f) c ptr -> (ptr <= p)%nat -> (c' < c)%nat -> enough f c' p.
Proof. unfold enough. lia. Qed.
Lemma enough_later f c ptr c' p : enough (S f) c ptr -> (ptr < p <= len src)%nat -> (c' < c + 10)%nat -> enough f c' p.
Proof. unfold enough. lia. Qed.

Section Step.
Context (f : nat) (IH : total f).

Lemma total_pattern ptr : bd src ptr -> enough (S f) 2 ptr -> 
  okp src (get_pattern src (S f) ptr) ptr (fun o _ => maybe_ok o).
Proof.
  intros Hb He. cbn [get_pattern]. destruct (skip_blank_inline src ptr) as [n p] eqn:E1.
  destruct (skip_blank_inline_moved src Hsrc _ _ _ Hb E1) as (M1 & _).
  destruct (skip_eol src p) as [eol q] eqn:E2. destruct (skip_eol_moved src Hsrc _ _ _ (proj1 M1) E2) as (M2 & _).
  assert (Mr : exists role r, (if eol then (LineStart, skip_blank_block src q) else (InitialLineStart, q)) = (role, r)
    /\ moved src ptr r).
  { assert (moved src ptr q) by by eapply moved_trans. destruct eol; eexists _, _; (split; [reflexivity|]); [|done].
    eapply moved_trans; [done|]. apply skip_blank_block_moved; [done|apply M2]. }
  destruct Mr as (role & r & -> & M3).
  apply (okp_sub _ _ ptr r (fun r _ => Forall run_ok r.1.1) _ M3).
  - apply (t_loop f IH); [apply M3| |done]. eapply enough_step; [exact He|apply M3|lia].
  - intros [[ps lnb] ci] s _ Ms Hps. eapply okp_runs; [by apply finish_pattern_ok|]. intros o Ho. by apply okp_ok.
Qed.

Lemma total_loop ps lnb ci role ptr : bd src ptr -> enough (S f) 1 ptr -> Forall run_ok ps ->
  okp src (pattern_loop src (S f) ps lnb ci role ptr) ptr (fun r _ => Forall run_ok r.1.1).
Proof.
  intros Hb He Hps. cbn [pattern_loop]. destruct (Nat.ltb_spec ptr (len src)) as [Hlt|_].
  2: { apply okp_ok; [by apply moved_refl|done]. }
  destruct (take_byte_if src ptr (ch "{")) as [t p] eqn:Et.
  destruct (take_byte_if_moved src Hsrc ptr (ch "{") t p Hb eq_refl Et) as (M1 & Ht & Hn). destruct t.
  - rewrite (Ht eq_refl) in *. pose proof (bd_le src _ (proj1 M1)).
    apply (okp_sub _ _ ptr (S ptr) (fun e p => (S ptr < p)%nat /\ expr_ok e) _ M1).
    + apply (t_placeable f IH); [apply M1|]. eapply enough_later; [exact He|lia|lia].
    + intros e q [_ Mq] Mq' [Hq Heok]. eapply okp_from; [apply (t_loop f IH); [apply Mq'| |]|exact Mq'|done].
      * pose proof (bd_le src _ (proj1 Mq')). eapply enough_later; [exact He|lia|lia].
      * apply Forall_app. split; [done|]. by repeat constructor.
  - rewrite (Hn eq_refl) in *.
    assert (Hc : is_cur src ptr (ch "{") = false) by (unfold take_byte_if in Et; by destruct (is_cur src ptr (ch "{"))).
    eapply okp_bind; [by apply text_step_ok|]. intros [[[[ps' lnb'] ci'] role']|] q Mq HQ; [|by apply okp_ok].
    destruct HQ as [Hps' Hq]. pose proof (bd_le src _ (proj1 Mq)).
    eapply okp_from; [apply (t_loop f IH); [apply Mq| |done]|exact Mq|done]. eapply enough_later; [exact He|lia|lia].
Qed.

Lemma total_placeable ptr : bd src ptr -> enough (S f) 3 ptr ->
  okp src (get_placeable src (S f) ptr) ptr (fun e p => (ptr < p)%nat /\ expr_ok e).
Proof.
  intros Hb He. cbn [get_placeable]. pose proof (skip_blank_moved src Hsrc _ Hb) as M0.
  apply (okp_sub _ _ ptr _ (fun e _ => expr_ok e) _ M0).
  - apply (t_expression f IH); [apply M0|]. eapply enough_step; [exact He|apply M0|lia].
  - intros e q _ Mq Heok. destruct (skip_blank_inline src q) as [n r] eqn:E1.
    destruct (skip_blank_inline_moved src Hsrc _ _ _ (proj1 Mq) E1) as (M1 & _).
    assert (Mr : moved src ptr r) by by eapply moved_trans.
    apply okp_expect; [done|done|reflexivity|]. intros M3. apply okp_ok; [done|]. split; [|done]. destruct Mr. lia.
Qed.

Lemma total_expression ptr : bd src ptr -> enough (S f) 2 ptr ->
  okp src (get_expression src (S f) ptr) ptr (fun e _ => expr_ok e).
Proof.
  intros Hb He. cbn [get_expression]. apply (okp_sub _ _ ptr ptr (fun i p => (ptr < p)%nat /\ inline_ok i)); [by apply moved_refl| |].
  - apply (t_inline f IH); [done|]. eapply enough_step; [exact He|lia|lia].
  - intros sel p _ M [Hp Hsel]. pose proof (skip_blank_moved src Hsrc _ (proj1 M)) as M1.
    assert (M2 : moved src ptr (skip_blank src p)) by by eapply moved_trans.
    destruct (is_cur src (skip_blank src p) (ch "-") && _) eqn:Ea; [|by apply okp_ok].
    apply andb_true_iff in Ea as [_ Ea]. assert (B : bd src (S (S (skip_blank src p)))) by by eapply is_cur_bd.
    destruct (skip_blank_inline src _) as [n r] eqn:E1.
    destruct (skip_blank_inline_moved src Hsrc _ _ _ B E1) as (M3 & _).
    destruct (skip_eol src r) as [eol q] eqn:E2. destruct (skip_eol_moved src Hsrc _ _ _ (proj1 M3) E2) as (M4 & _).
    destruct eol; [|apply okp_err_bd; apply M4].
    pose proof (skip_blank_moved src Hsrc _ (proj1 M4)) as M5. pose proof (bd_le src _ (proj1 M5)).
    assert (M6 : moved src ptr (skip_blank src q)).
    { split; [apply M5|]. destruct M2, M3, M4, M5. lia. }
    apply (okp_sub _ _ ptr _ (fun vs _ => variants_ok vs true) _ M6).
    + apply (t_variants f IH); [apply M5| |by split]. eapply enough_step; [exact He|apply M6|lia].
    + intros vs s _ Ms [Hvs Hc]. apply okp_ok; [done|]. by apply select_ok.
Qed.

Lemma total_variants vs d ptr : bd src ptr -> enough (S f) 1 ptr -> variants_ok vs d ->
  okp src (variants_loop src (S f) vs d ptr) ptr (fun vs _ => variants_ok vs true).
Proof.
  intros Hb He Hvs. cbn [variants_loop]. destruct (take_byte_if src ptr (ch "*")) as [def p] eqn:E1.
  destruct (take_byte_if_moved src Hsrc ptr (ch "*") def p Hb eq_refl E1) as (M1 & _).
  destruct (def && d) eqn:Edd; [apply okp_err_bd; apply M1|].
  destruct (take_byte_if src p (ch "[")) as [open q] eqn:E2.
  destruct (take_byte_if_moved src Hsrc p (ch "[") open q (proj1 M1) eq_refl E2) as (M2 & Ho & _).
  assert (Mq : moved src ptr q) by by eapply moved_trans.
  destruct open.
  2: { destruct (d || def); [|apply okp_err_bd; apply Mq]. apply okp_ok; [done|]. destruct Hvs as [H1 H2].
       split; [done|]. destruct d; lia. }
  pose proof (Ho eq_refl) as Hq. apply (okp_sub _ _ ptr q (fun _ r => (q < r)%nat) _ Mq); [apply get_variant_key_ok, Mq; done|].
  intros k r Mqr Mr Hr. pose proof (bd_le src _ (proj1 Mr)). destruct M1 as [_ M1]. apply (okp_sub _ _ ptr r (fun o _ => maybe_ok o) _ Mr).
  - apply (t_pattern f IH); [apply Mr|]. eapply enough_later; [exact He|lia|lia].
  - intros [value|] s Mrs Ms Hval; [|apply okp_err_bd; apply Ms].
    pose proof (skip_blank_moved src Hsrc _ (proj1 Ms)) as M5. pose proof (bd_le src _ (proj1 M5)).
    assert (M6 : moved src ptr (skip_blank src s)) by by eapply moved_trans.
    eapply okp_from; [apply (t_variants f IH); [apply M5| |by apply variants_ok_snoc]|exact M6|done].
    destruct Mrs, M5. eapply enough_later; [exact He|lia|lia].
Qed.

Lemma total_inline ptr : bd src ptr -> enough (S f) 1 ptr ->
  okp src (get_inline_expression src (S f) ptr) ptr (fun i p => (ptr < p)%nat /\ inline_ok i).
Proof.
  intros Hb He. cbn [get_inline_expression]. destruct (at_ src ptr) as [b|] eqn:Eb; [|by apply okp_err_bd].
  assert (HN : okp src (let? (n, p) := get_number_literal src ptr in POk (Number n) p) ptr
    (fun i p => (ptr < p)%nat /\ inline_ok i)).
  { eapply okp_bind; [by apply get_number_literal_ok|]. intros n p M Hp. by apply okp_ok. }
  destruct (Z.eqb_spec b DQUOTE) as [->|_]; [by apply get_string_literal_ok|].
  destruct (is_ascii_digit b); [done|]. destruct (Z.eqb_spec b (ch "-")); [case_ifs; [by apply okp_err_bd|done]|].
  destruct (Z.eqb_spec b (ch "$")) as [->|_].
  { destruct (bd_ascii src Hsrc ptr _ Eb eq_refl) as [_ B1].
    apply (okp_sub _ _ ptr (S ptr) (fun _ p => (S ptr < p)%nat)); [split; [done|lia]|by apply get_identifier_ok|].
    intros name p _ M Hp. apply okp_ok; [done|]. split; [lia|done]. }
  destruct (is_ascii_alphabetic b) eqn:Ea.
  { eapply okp_runs; [by apply (identifier_unchecked_ok src Hsrc ptr b)|]. intros [name p] M. cbn [snd] in M.
    pose proof (skip_blank_moved src Hsrc _ (proj1 M)) as M1.
    destruct (take_byte_if src (skip_blank src p) (ch "(")) as [open q] eqn:E2.
    destruct (take_byte_if_moved src Hsrc (skip_blank src p) (ch "(") open q (proj1 M1) eq_refl E2) as (M2 & _).
    destruct open; [|by apply okp_err_bd]. pose proof (bd_le src _ (proj1 M2)).
    assert (Hpq : (S ptr <= q)%nat) by (destruct M, M1, M2; lia).
    eapply (okp_from src _ ptr q (fun i _ => inline_ok i)); [apply (t_call f IH); [done|apply M2|]|split; [apply M2|lia]|].
    - eapply enough_later; [exact He|lia|lia].
    - intros i r [_ Hr] Hi. split; [lia|done]. }
  destruct (Z.eqb_spec b (ch "{")) as [->|_]; [|by apply okp_err_bd].
  destruct (bd_ascii src Hsrc ptr _ Eb eq_refl) as [_ B1]. pose proof (bd_le src _ B1).
  apply (okp_sub _ _ ptr (S ptr) (fun e p => (S ptr < p)%nat /\ expr_ok e)); [split; [done|lia]| |].
  - apply (t_placeable f IH); [done|]. eapply enough_later; [exact He|lia|lia].
  - intros e q _ M [Hq Heok]. apply okp_ok; [done|]. split; [lia|done].
Qed.

Lemma total_call st name ptr : bd src st -> bd src ptr -> enough (S f) 3 ptr ->
  okp src (get_call src (S f) st name ptr) ptr (fun i _ => inline_ok i).
Proof.
  intros Hst Hb He. cbn [get_call]. case_ifs; [|by apply okp_err_bd].
  pose proof (skip_blank_moved src Hsrc _ Hb) as M0. apply (okp_sub _ _ ptr _ (fun args _ => Forall inline_ok args) _ M0).
  - apply (t_args f IH); [apply M0| |done]. eapply enough_step; [exact He|apply M0|lia].
  - intros args p _ M Hargs. apply okp_expect; [done|done|reflexivity|]. intros M3.
    destruct args as [|a [|b [|]]]; try (by apply okp_err_bd). apply okp_ok; [done|].
    apply Forall_cons in Hargs as [Ha Hargs]. by apply Forall_cons in Hargs as [Hb2 _].
Qed.

Lemma total_args args ptr : bd src ptr -> enough (S f) 2 ptr -> Forall inline_ok args ->
  okp src (args_loop src (S f) args ptr) ptr (fun args _ => Forall inline_ok args).
Proof.
  intros Hb He Hargs. cbn [args_loop]. case_ifs; [|apply okp_ok; [by apply moved_refl|done]].
  apply (okp_sub _ _ ptr ptr (fun i p => (ptr < p)%nat /\ inline_ok i)); [by apply moved_refl| |].
  - apply (t_inline f IH); [done|]. eapply enough_step; [exact He|lia|lia].
  - intros a p _ M [Hp Ha]. pose proof (skip_blank_moved src Hsrc _ (proj1 M)) as M1.
    destruct (take_byte_if src (skip_blank src p) (ch ",")) as [t q] eqn:E2.
    destruct (take_byte_if_moved src Hsrc (skip_blank src p) (ch ",") t q (proj1 M1) eq_refl E2) as (M2 & _).
    pose proof (skip_blank_moved src Hsrc _ (proj1 M2)) as M3. pose proof (bd_le src _ (proj1 M3)).
    assert (Hlt : (ptr < skip_blank src q)%nat) by (destruct M, M1, M2, M3; lia).
    eapply okp_from; [apply (t_args f IH); [apply M3| |]|split; [apply M3|lia]|done];
      [|apply Forall_app; split; [done|by repeat constructor]].
    eapply enough_later; [exact He|lia|lia].
Qed.
End Step.

Lemma all_total fuel : total fuel.
Proof.
  induction fuel as [|f IH]; [constructor; unfold enough; intros; lia|].
  constructor; intros; [by apply total_pattern|by apply total_loop|by apply total_placeable|by apply total_expression|
    by apply total_variants|by apply total_inline|by apply total_call|by apply total_args].
Qed.
End Rec.

Lemma parse_ok m : wf_str m -> runs (parse m) (fun r =>
  match r with inl e => (offset e <= str_len m + 1)%nat | inr p => pattern_ok p end).
Proof.
  intros Hm. unfold parse. assert (Hw : wf_str (m ++ [NEWLINE])) by (apply wf_str_app; split; [done|by repeat constructor]).
  assert (Hl : len (m ++ [NEWLINE]) = (str_len m + 1)%nat) by (by rewrite len_str, str_len_app).
  eapply runs_bind.
  - apply (t_pattern _ _ (all_total _ Hw _)); [apply bd_0|]. unfold enough, parse_fuel. lia.
  - intros [e|[o p]] Hr; [apply runs_ret; by rewrite <- Hl|]. destruct Hr as [[Hb _] Ho]. apply runs_ret.
    pose proof (bd_le _ _ Hb). case_ifs; [simpl; lia|]. destruct o; simpl; [done|lia].
Qed.
