(* ===== verification/DiagTheorems.v ===== *)
(** * Templates: what parsing and rendering guarantee *)
From Stdlib Require Import Ascii String.
From Stdlib Require Import ZArith Lia.
From stdpp Require Import base numbers list.
From S2P Require Import Prelude RustStr DiagTemplate DiagParse.
Open Scope Z_scope.
Open Scope rust_scope.

(** ** Induction on the syntax tree *)

Section Induction.
Context (PP : Pattern -> Prop) (PE : Expression -> Prop) (PI : Inline -> Prop).
Definition PElement (el : Element) : Prop := match el with Text _ => True | Placeable e => PE e end.
Context (Hpattern : forall es, Forall PElement es -> PP (mkPattern es)).
Context (Hinline : forall i, PI i -> PE (EInline i)).
Context (Hselect : forall s vs, PI s -> Forall (fun v => PP (value v)) vs -> PE (Select s vs)).
Context (Hvariable : forall n, PI (Variable_ n)) (Hliteral : forall s, PI (Literal s)) (Hnumber : forall n, PI (Number n)).
Context (Hstreq : forall a b, PI a -> PI b -> PI (StrEq a b)) (Hnested : forall e, PE e -> PI (Nested e)).

Fixpoint pattern_tree_ind (p : Pattern) : PP p :=
  match p with
  | mkPattern es =>
      Hpattern es
        ((fix go es : Forall PElement es :=
            match es with
            | [] => Forall_nil_2 _
            | Text s :: es => Forall_cons_2 _ (Text s) es I (go es)
            | Placeable e :: es => Forall_cons_2 _ (Placeable e) es (expression_tree_ind e) (go es)
            end) es)
  end
with expression_tree_ind (e : Expression) : PE e :=
  match e with
  | EInline i => Hinline i (inline_tree_ind i)
  | Select s vs =>
      Hselect s vs (inline_tree_ind s)
        ((fix go vs : Forall (fun v => PP (value v)) vs :=
            match vs with
            | [] => Forall_nil_2 _
            | mkVariant k p d :: vs => Forall_cons_2 _ (mkVariant k p d) vs (pattern_tree_ind p) (go vs)
            end) vs)
  end
with inline_tree_ind (i : Inline) : PI i :=
  match i with
  | Variable_ n => Hvariable n
  | Literal s => Hliteral s
  | Number n => Hnumber n
  | StrEq a b => Hstreq a b (inline_tree_ind a) (inline_tree_ind b)
  | Nested e => Hnested e (expression_tree_ind e)
  end.

Lemma tree_ind : (forall p, PP p) /\ (forall e, PE e) /\ (forall i, PI i).
Proof. split; [exact pattern_tree_ind|split; [exact expression_tree_ind|exact inline_tree_ind]]. Qed.
End Induction.

(** ** Rendering *)

Section Rendering.
Context (args : Args).

(** [out'] is [out] with text appended and with unresolved names among [names] appended, each of
    which the arguments lack. *)
Definition extends (names : list str) (out out' : Rendered) : Prop :=
  exists t u, out' = mkRendered (text out ++ t) (unresolved out ++ u)
    /\ Forall (fun n => n ∈ names /\ args n = None) u.

Lemma extends_refl names out : extends names out out.
Proof. exists [], []. rewrite !app_nil_r. split; [by destruct out|constructor]. Qed.

Lemma extends_trans n1 n2 n3 o1 o2 o3 : extends n1 o1 o2 -> extends n2 o2 o3 ->
  n1 ⊆ n3 -> n2 ⊆ n3 -> extends n3 o1 o3.
Proof.
  intros (t1 & u1 & -> & H1) (t2 & u2 & -> & H2) S1 S2. exists (t1 ++ t2), (u1 ++ u2). cbn [text unresolved].
  rewrite !app_assoc. split; [done|]. apply Forall_app. split.
  - eapply Forall_impl; [exact H1|]. intros n [? ?]. split; [by apply S1|done].
  - eapply Forall_impl; [exact H2|]. intros n [? ?]. split; [by apply S2|done].
Qed.

Lemma extends_mono n1 n2 o1 o2 : extends n1 o1 o2 -> n1 ⊆ n2 -> extends n2 o1 o2.
Proof. intros H S. eapply extends_trans; [exact H|apply (extends_refl n1)|done|done]. Qed.

Lemma extends_text names out s : extends names out (push_text out s).
Proof. exists s, []. unfold push_text. rewrite app_nil_r. split; [done|constructor]. Qed.

Lemma extends_unresolved name out : args name = None -> extends [name] out (push_unresolved out name).
Proof.
  intros H. exists [], [name]. unfold push_unresolved. rewrite app_nil_r. split; [done|]. constructor; [|constructor].
  split; [left|done].
Qed.

(** The first variant that a condition on the key or the default mark selects. *)
Definition pick (p : Variant -> bool) (vs : list Variant) : option Variant := List.find p vs.

Lemma select_eq s vs out : write_expression args (Select s vs) out =
  let '(sel, out) := resolve args s out in
  match (if selected sel then pick (fun v => key_matches (key v) sel) vs else None) with
  | Some v => write_pattern args (value v) out
  | None => match pick default vs with Some v => write_pattern args (value v) out | None => out end
  end.
Proof.
  cbn [write_expression]. destruct (resolve args s out) as [sel o].
  assert (HG : forall p, (fix go vs := match vs with
      | [] => None
      | mkVariant k q d :: vs => if (p (mkVariant k q d) : bool) then Some (write_pattern args q o) else go vs
      end) vs = (fun v => write_pattern args (value v) o) <$> pick p vs).
  { intros p. induction vs as [|[k q d] vs IH]; [done|]. cbn [pick List.find]. by destruct (p (mkVariant k q d)). }
  pose proof (HG (fun v => key_matches (key v) sel)) as H1. pose proof (HG default) as H2. cbn [key default] in H1, H2.
  rewrite H1, H2. destruct (selected sel), (pick _ vs); try done; by destruct (pick default vs).
Qed.

Lemma pick_in p vs v : pick p vs = Some v -> v ∈ vs.
Proof. intros H. apply List.find_some in H as [H _]. by apply list_elem_of_In. Qed.

Lemma walk_variant s vs v : v ∈ vs -> walk_pattern (value v) ⊆ walk_expression (Select s vs).
Proof.
  intros Hv n Hn. cbn [walk_expression]. apply elem_of_app. right.
  induction vs as [|[k q d] vs IH]; [by apply elem_of_nil in Hv|]. apply elem_of_app.
  apply elem_of_cons in Hv as [->|Hv]; [left; exact Hn|right; by apply IH].
Qed.

Lemma app_sub_l {A} (l1 l2 : list A) : l1 ⊆ l1 ++ l2.
Proof. intros x Hx. apply elem_of_app. by left. Qed.
Lemma app_sub_r {A} (l1 l2 : list A) : l2 ⊆ l1 ++ l2.
Proof. intros x Hx. apply elem_of_app. by right. Qed.

Lemma render_extends :
  (forall p out, extends (walk_pattern p) out (write_pattern args p out)) /\
  (forall e out, extends (walk_expression e) out (write_expression args e out)) /\
  (forall i, (forall out, extends (walk_inline i) out (write_inline args i out))
             /\ (forall out, extends (walk_inline i) out (resolve args i out).2)).
Proof.
  apply tree_ind.
  - intros es. induction es as [|el es IH]; intros Hes out; [apply extends_refl|].
    apply Forall_cons in Hes as [Hel Hes]. specialize (IH Hes). destruct el as [s|e].
    + eapply extends_trans; [apply (extends_text [] out s)|apply IH| |done]. intros x Hx. by apply elem_of_nil in Hx.
    + eapply extends_trans; [apply Hel|apply IH|apply app_sub_l|apply app_sub_r].
  - intros i [Hi _] out. apply Hi.
  - intros s vs [_ Hs] Hvs out. rewrite select_eq. specialize (Hs out).
    destruct (resolve args s out) as [sel o]. cbn [snd] in Hs. rewrite Forall_forall in Hvs.
    assert (HV : forall p v, pick p vs = Some v -> extends (walk_expression (Select s vs)) out (write_pattern args (value v) o)).
    { intros p v Hp%pick_in. eapply extends_trans; [exact Hs|by apply Hvs|apply app_sub_l|by apply walk_variant]. }
    assert (H0 : extends (walk_expression (Select s vs)) out o) by (eapply extends_mono; [exact Hs|apply app_sub_l]).
    destruct (selected sel); [destruct (pick _ vs) eqn:E1; [by eapply HV|]|]; destruct (pick default vs) eqn:E2; eauto.
  - intros n. cbn [write_inline resolve walk_inline]. split; intros out; destruct (args n) as [[s|m]|] eqn:E.
    1, 2: apply extends_text.
    1: eapply extends_trans; [by apply extends_unresolved|apply (extends_text [n])|done|done].
    1, 2: apply extends_refl.
    by apply extends_unresolved.
  - intros s. split; intros out; [apply extends_text|apply extends_refl].
  - intros n. split; intros out; [apply extends_text|apply extends_refl].
  - intros a b [_ Ha] [_ Hb]. cbn [write_inline resolve walk_inline]. split; intros out; specialize (Ha out);
      destruct (resolve args a out) as [sa oa]; cbn [snd] in Ha; specialize (Hb oa);
      destruct (resolve args b oa) as [sb ob]; cbn [snd] in *.
    + assert (H : extends (walk_inline a ++ walk_inline b) out ob)
        by (eapply extends_trans; [exact Ha|exact Hb|apply app_sub_l|apply app_sub_r]).
      assert (HT : forall s, extends (walk_inline a ++ walk_inline b) out (push_text ob s)).
      { intros s. eapply extends_trans; [exact H|apply (extends_text [])|done|]. intros x Hx. by apply elem_of_nil in Hx. }
      destruct sa, sb; apply HT.
    + eapply extends_trans; [exact Ha|exact Hb|apply app_sub_l|apply app_sub_r].
  - intros e He. cbn [write_inline resolve walk_inline]. split; intros out; [apply He|]. cbn [snd].
    destruct (He (mkRendered [] [])) as (t & u & -> & Hu). exists [], u. cbn [text unresolved]. by rewrite app_nil_r.
Qed.
End Rendering.

(** ** Flat templates: text and [{$name}] *)

Inductive segment := SText (s : str) | SVar (name : str).

Definition print_segment (g : segment) : str :=
  match g with SText s => s | SVar n => lit "{$" ++ n ++ lit "}" end.
Definition print (gs : list segment) : str := mjoin (print_segment <$> gs).
Definition segment_element (g : segment) : Element :=
  match g with SText s => Text s | SVar n => Placeable (EInline (Variable_ n)) end.

Definition plain_char (c : char) : bool :=
  is_scalar c && negb ((c =? NEWLINE) || (c =? ch "{") || (c =? ch "}")).
Definition is_trimmed (c : char) : bool := (c =? SPACE) || (c =? CR) || (c =? NEWLINE).

Definition segment_ok (g : segment) : Prop :=
  match g with
  | SText s => s <> [] /\ Forall (fun c => plain_char c = true) s
  | SVar n => match n with
              | [] => False
              | c :: n' => is_ascii_alphabetic c = true /\ Forall (fun b => is_identifier_byte b = true) n'
              end
  end.

(** No two texts in a row, and the last text does not end in what the parser trims. *)
Fixpoint alternating (gs : list segment) : Prop :=
  match gs with
  | [] => True
  | SText s :: gs' =>
      match gs' with
      | [] => match last s with Some c => is_trimmed c = false | None => False end
      | SText _ :: _ => False
      | SVar _ :: _ => True
      end /\ alternating gs'
  | SVar _ :: gs' => alternating gs'
  end.

Lemma plain_ascii c b : plain_char c = true -> b ∈ encode_utf8 c ->
  (b =? NEWLINE) || (b =? ch "{") || (b =? ch "}") = false.
Proof.
  unfold plain_char. intros H Hb. apply andb_true_iff in H as [Hs H]. apply negb_true_iff in H.
  destruct (is_ascii c) eqn:Ea.
  - rewrite encode_utf8_ascii in Hb by done. by apply list_elem_of_singleton in Hb as ->.
  - pose proof (encode_utf8_high c b Hs Ea Hb) as Hh.
    destruct (Z.eqb_spec b NEWLINE) as [->|]; [unfold NEWLINE in Hh; lia|].
    destruct (Z.eqb_spec b (ch "{")) as [->|]; [exfalso; revert Hh; by vm_compute|].
    destruct (Z.eqb_spec b (ch "}")) as [->|]; [exfalso; revert Hh; by vm_compute|]. done.
Qed.

Lemma plain_bytes s : Forall (fun c => plain_char c = true) s ->
  Forall (fun b => (b =? NEWLINE) || (b =? ch "{") || (b =? ch "}") = false) (as_bytes s).
Proof.
  induction 1 as [|c s Hc _ IH]; [constructor|]. cbn [as_bytes]. apply Forall_app. split; [|done].
  apply Forall_forall. intros b Hb. by apply (plain_ascii c).
Qed.

(** *** The scanners at a known place: [src = pre ++ rest] and the pointer after [pre] *)

Lemma at_src pre rest i : at_ (pre ++ rest) (str_len pre + i) = as_bytes rest !! i.
Proof.
  unfold at_, bytes. rewrite as_bytes_app, <- length_as_bytes, lookup_app_r by lia. f_equal. lia.
Qed.

Lemma at_src_char pre c rest : is_ascii c = true -> at_ (pre ++ c :: rest) (str_len pre) = Some c.
Proof.
  intros Hc. rewrite <- (Nat.add_0_r (str_len pre)), at_src. cbn [as_bytes]. by rewrite encode_utf8_ascii.
Qed.

Lemma is_cur_src pre c rest b : is_ascii c = true -> is_cur (pre ++ c :: rest) (str_len pre) b = (c =? b).
Proof. intros Hc. unfold is_cur. by rewrite at_src_char. Qed.

Lemma slice_src pre t rest a b : a = str_len pre -> b = str_len (pre ++ t) -> slice (pre ++ t ++ rest) a b = Ret t.
Proof.
  intros -> ->. unfold slice, str_slice. rewrite str_len_app, (proj2 (Nat.ltb_ge _ _)) by lia. rewrite str_from_app. simpl.
  replace (str_len pre + str_len t - str_len pre)%nat with (str_len t) by lia. by rewrite str_to_app.
Qed.

Lemma str_len_snoc pre c : is_ascii c = true -> str_len (pre ++ [c]) = S (str_len pre).
Proof. intros Hc. rewrite str_len_app. simpl. rewrite len_utf8_ascii by done. lia. Qed.

Lemma len_src pre c rest : (str_len pre < len (pre ++ c :: rest))%nat.
Proof. rewrite len_str, str_len_app. simpl. pose proof (len_utf8_pos c). lia. Qed.

Lemma skip_bytes_stop src p ptr : (forall b, at_ src ptr = Some b -> p b = false) -> skip_bytes src p ptr = ptr.
Proof.
  intros H. unfold skip_bytes. destruct (len src - ptr)%nat; [done|]. cbn [skip_while].
  destruct (at_ src ptr) as [b|]; [|done]. by rewrite (H b eq_refl).
Qed.

Lemma skip_while_run p name : Forall (fun b => p b = true /\ is_ascii b = true) name -> forall fuel pre c rest,
  is_ascii c = true -> p c = false -> (length name <= fuel)%nat ->
  skip_while (pre ++ name ++ c :: rest) fuel p (str_len pre) = str_len (pre ++ name).
Proof.
  induction 1 as [|x name [Hx Hxa] _ IH]; intros fuel pre c rest Hc Hpc Hf.
  - rewrite app_nil_r. destruct fuel; [done|]. cbn [skip_while app]. by rewrite at_src_char, Hpc.
  - destruct fuel as [|fuel]; [simpl in Hf; lia|]. cbn [skip_while]. cbn [app].
    rewrite at_src_char, Hx by done. specialize (IH fuel (pre ++ [x]) c rest Hc Hpc ltac:(simpl in Hf; lia)).
    rewrite str_len_app in IH. simpl in IH. rewrite len_utf8_ascii in IH by done.
    rewrite <- !app_assoc in IH. simpl in IH. rewrite <- IH. f_equal. lia.
Qed.

Lemma skip_blank_inline_stop src ptr : is_cur src ptr SPACE = false -> skip_blank_inline src ptr = (0%nat, ptr).
Proof.
  intros H. unfold skip_blank_inline. rewrite skip_bytes_stop; [by rewrite Nat.sub_diag|].
  intros b Hb. unfold is_cur in H. by rewrite Hb in H.
Qed.

Lemma skip_blank_stop src ptr : is_cur src ptr SPACE = false -> is_cur src ptr NEWLINE = false ->
  is_cur src ptr CR = false -> skip_blank src ptr = ptr.
Proof.
  intros H1 H2 H3. unfold skip_blank. destruct (len src - ptr)%nat; [done|]. cbn [skip_blank_loop].
  unfold is_crlf. by rewrite H1, H2, H3.
Qed.

(** *** One variable *)

Definition name_ok (n : str) : Prop := segment_ok (SVar n).

Lemma get_identifier_src pre n c rest : name_ok n -> is_ascii c = true -> is_identifier_byte c = false ->
  get_identifier (pre ++ n ++ c :: rest) (str_len pre) = POk n (str_len (pre ++ n)).
Proof.
  destruct n as [|x n]; [done|]. intros [Hx Hn] Hc Hpc. unfold get_identifier, is_identifier_start.
  assert (Hxa : is_ascii x = true) by (apply Z.ltb_lt; by apply alphabetic_ascii).
  cbn [app]. rewrite at_src_char, Hx by done. unfold get_identifier_unchecked.
  assert (Hname : Forall (fun b => is_identifier_byte b = true /\ is_ascii b = true) n).
  { eapply Forall_impl; [exact Hn|]. intros b Hb. split; [done|]. apply Z.ltb_lt. by apply identifier_ascii. }
  assert (Hp1 : str_len (pre ++ [x]) = S (str_len pre)) by (by apply str_len_snoc).
  replace (skip_bytes (pre ++ x :: n ++ c :: rest) is_identifier_byte (S (str_len pre))) with (str_len (pre ++ x :: n)).
  - replace (S (str_len pre) - 1)%nat with (str_len pre) by lia.
    pose proof (slice_src pre (x :: n) (c :: rest) _ _ eq_refl eq_refl) as HS. cbn [app] in HS. rewrite HS. done.
  - unfold skip_bytes. rewrite <- Hp1. replace (pre ++ x :: n ++ c :: rest) with ((pre ++ [x]) ++ n ++ c :: rest)
      by (rewrite <- app_assoc; done).
    rewrite (skip_while_run is_identifier_byte n Hname); [by rewrite <- app_assoc|done|done|].
    rewrite len_str, !str_len_app. pose proof (str_len_length n). lia.
Qed.

Lemma get_placeable_src fuel pre n rest : name_ok n -> (3 <= fuel)%nat ->
  get_placeable (pre ++ lit "$" ++ n ++ lit "}" ++ rest) fuel (str_len pre)
  = POk (EInline (Variable_ n)) (str_len (pre ++ lit "$" ++ n ++ lit "}")).
Proof.
  intros Hn Hf. destruct fuel as [|[|[|fuel]]]; [lia..|]. set (src := pre ++ lit "$" ++ n ++ lit "}" ++ rest).
  assert (H0 : forall b, is_cur src (str_len pre) b = (ch "$" =? b)) by (intros b; by apply (is_cur_src pre (ch "$"))).
  set (p2 := str_len ((pre ++ lit "$") ++ n)).
  assert (H2 : forall b, is_cur src p2 b = (ch "}" =? b)).
  { intros b. unfold p2, src. replace (pre ++ lit "$" ++ n ++ lit "}" ++ rest)
      with (((pre ++ lit "$") ++ n) ++ ch "}" :: rest) by (rewrite <- !app_assoc; done). by apply is_cur_src. }
  assert (Hid : get_identifier src (S (str_len pre)) = POk n p2).
  { replace (S (str_len pre)) with (str_len (pre ++ lit "$")) by (by apply str_len_snoc).
    unfold src. rewrite (app_assoc pre). by apply (get_identifier_src (pre ++ lit "$") n (ch "}") rest). }
  cbn [get_placeable]. rewrite skip_blank_stop by (by rewrite H0). cbn [get_expression get_inline_expression].
  assert (Hat : at_ src (str_len pre) = Some (ch "$")) by (by apply (at_src_char pre (ch "$"))). rewrite Hat.
  change (ch "$" =? DQUOTE) with false. change (is_ascii_digit (ch "$")) with false. change (ch "$" =? ch "-") with false.
  change (ch "$" =? ch "$") with true. cbv beta iota. rewrite Hid. unfold pbind at 3. cbn [POk obind].
  cbn [pbind obind POk]. rewrite skip_blank_stop by (by rewrite H2). rewrite H2.
  change (ch "}" =? ch "-") with false. cbn [andb pbind obind POk].
  rewrite skip_blank_inline_stop by (by rewrite H2). unfold expect_byte. rewrite H2. cbn [Z.eqb pbind obind POk].
  change (ch "}" =? ch "}") with true. unfold POk, pbind. cbn [obind]. do 3 f_equal.
  rewrite !app_assoc. symmetry. by apply str_len_snoc.
Qed.

(** *** One text run *)

Lemma drop_src pre rest : drop (str_len pre) (bytes (pre ++ rest)) = as_bytes rest.
Proof. unfold bytes. by rewrite as_bytes_app, <- length_as_bytes, drop_app_length. Qed.

Lemma last_byte s b : last s <> Some CR -> last (as_bytes s) = Some b -> wf_str s -> b <> CR.
Proof.
  destruct s as [|c s _] using rev_ind; [done|]. rewrite last_snoc, as_bytes_app. cbn [as_bytes]. rewrite app_nil_r.
  intros Hc Hb Hw. assert (Hs : is_scalar c = true) by (apply wf_str_app in Hw as [_ Hw]; by inversion Hw).
  destruct (is_ascii c) eqn:Ea.
  - rewrite encode_utf8_ascii, last_snoc in Hb by done. congruence.
  - assert (Hin : b ∈ encode_utf8 c).
    { rewrite last_app in Hb. destruct (last (encode_utf8 c)) as [y|] eqn:El.
      - injection Hb as <-. by apply last_Some_elem_of.
      - apply last_None in El. pose proof (length_encode_utf8 c) as Hl. rewrite El in Hl. pose proof (len_utf8_pos c). simpl in Hl. lia. }
    pose proof (encode_utf8_high c b Hs Ea Hin). unfold CR. lia.
Qed.

Lemma plain_wf s : Forall (fun c => plain_char c = true) s -> wf_str s.
Proof. intros H. eapply Forall_impl; [exact H|]. intros c Hc. by apply andb_true_iff in Hc as [? _]. Qed.

(** A run of plain text ends at the brace or the line feed after it. *)
Lemma get_text_slice_src pre s (brace : bool) rest : Forall (fun c => plain_char c = true) s -> (brace = false -> last s <> Some CR) ->
  let e := str_len (pre ++ s) in let e' := if brace then e else S e in
  get_text_slice (pre ++ s ++ (if brace then ch "{" else NEWLINE) :: rest) (str_len pre)
  = POk (str_len pre, e', text_kind (as_bytes s), if brace then PlaceableStart else LineFeed) e'.
Proof.
  intros Hs Hcr. cbv zeta. set (c := if brace then ch "{" else NEWLINE).
  assert (Hc : is_ascii c = true) by (unfold c; by destruct brace). unfold get_text_slice.
  rewrite (proj2 (Nat.leb_le _ _)) by (rewrite len_str, !str_len_app; lia). cbn [obind]. rewrite drop_src.
  rewrite as_bytes_app. cbn [as_bytes]. rewrite (encode_utf8_ascii c Hc). cbn [app].
  set (tail := as_bytes rest). set (stop := fun b : Z => _).
  assert (Hpos : position stop (as_bytes s ++ c :: tail) = Some (length (as_bytes s))).
  { apply position_Some. exists (as_bytes s), c, tail. split_and!; [done|done|unfold c; by destruct brace|by apply plain_bytes]. }
  destruct (as_bytes s ++ c :: tail) as [|b0 l0] eqn:El; [by destruct (as_bytes s)|]. rewrite <- El in *. rewrite Hpos.
  rewrite lookup_app_r, Nat.sub_diag by done. cbn [lookup list_lookup unwrap obind]. rewrite take_app_length.
  rewrite str_len_app, length_as_bytes. unfold c. destruct brace.
  - change (ch "{" =? ch "}") with false. change (ch "{" =? NEWLINE) with false. cbv beta iota. done.
  - change (NEWLINE =? ch "}") with false. change (NEWLINE =? NEWLINE) with true. cbv beta iota.
    replace ((0 <? str_len s)%nat && _) with false.
    + rewrite Nat.add_1_r. done.
    + symmetry. apply andb_false_iff. destruct (Nat.ltb_spec 0 (str_len s)) as [Hl|]; [right|by left].
      rewrite lookup_app_l by (rewrite length_as_bytes; lia). rewrite <- length_as_bytes.
      destruct (as_bytes s !! _) as [b|] eqn:Eb; [|done]. apply Z.eqb_neq. apply (last_byte s); [by apply Hcr| |by apply plain_wf].
      by rewrite last_lookup, Nat.sub_1_r in *.
Qed.

(** The step of the loop that records it. *)
Lemma text_step_src pre s (brace : bool) rest ps lnb ci role :
  Forall (fun c => plain_char c = true) s -> (brace = true -> s <> []) -> (brace = false -> last s <> Some CR) -> role <> LineStart ->
  let e := str_len (pre ++ s) in let e' := if brace then e else S e in
  text_step (pre ++ s ++ (if brace then ch "{" else NEWLINE) :: rest) ps lnb ci role (str_len pre)
  = POk (Some (ps ++ [PText (str_len pre) e' 0 false],
               (if decide (text_kind (as_bytes s) = NonBlank) then Some (length ps) else lnb), ci,
               if brace then Continuation else LineStart)) e'.
Proof.
  intros Hs Hne Hcr Hrole. cbv zeta. unfold text_step. rewrite decide_False by done.
  rewrite get_text_slice_src by done. unfold pbind, POk at 1. cbn [obind].
  assert (Hneq : (str_len pre =? (if brace then str_len (pre ++ s) else S (str_len (pre ++ s))))%nat = false).
  { apply Nat.eqb_neq. rewrite str_len_app. destruct brace; [|lia]. destruct s as [|c s]; [by destruct (Hne eq_refl)|].
    simpl. pose proof (len_utf8_pos c). lia. }
  rewrite Hneq, (decide_False (P := role = LineStart /\ _)) by tauto.
  rewrite decide_True by tauto. rewrite bool_decide_eq_false_2 by done. by destruct brace.
Qed.

(** *** The whole pattern *)

Definition builds (src : str) (p : Placeholder) (g : segment) (is_last : bool) : Prop :=
  forall ci, build_element src ci is_last p = Ret (segment_element g).

Inductive built (src : str) : list Placeholder -> list segment -> Prop :=
| built_one p g : builds src p g true -> built src [p] [g]
| built_cons p g ps gs : builds src p g false -> built src ps gs -> built src (p :: ps) (g :: gs).

Lemma built_elements src ps gs ci i l : built src ps gs -> (i + length gs = l + 1)%nat ->
  length ps = length gs /\ build_elements src ci l i ps = Ret (segment_element <$> gs).
Proof.
  intros H. revert i. induction H as [p g Hp|p g ps gs Hp Hps IH]; intros i Hi; cbn [length] in Hi; cbn [build_elements].
  - replace (i =? l)%nat with true by (symmetry; apply Nat.eqb_eq; lia). by rewrite Hp.
  - assert (1 <= length gs)%nat by (destruct Hps; simpl; lia).
    replace (i =? l)%nat with false by (symmetry; apply Nat.eqb_neq; lia). rewrite Hp. cbn [obind].
    destruct (IH (S i)) as [Hl ->]; [lia|]. cbn [obind length fmap list_fmap]. by rewrite Hl.
Qed.

Lemma loop_end src fuel ps lnb ci role : (1 <= fuel)%nat ->
  pattern_loop src fuel ps lnb ci role (len src) = POk (ps, lnb, ci) (len src).
Proof. intros Hf. destruct fuel; [lia|]. cbn [pattern_loop]. by rewrite Nat.ltb_irrefl. Qed.

Lemma len_snoc pre c : is_ascii c = true -> len (pre ++ [c]) = S (str_len pre).
Proof. intros Hc. rewrite len_str. by apply str_len_snoc. Qed.

(** A text run, then the rest of the loop. *)
Lemma loop_text fuel pre s (brace : bool) rest ps lnb ci role :
  Forall (fun c => plain_char c = true) s -> (brace = true -> s <> []) -> (brace = false -> last s <> Some CR) -> role <> LineStart ->
  let src := pre ++ s ++ (if brace then ch "{" else NEWLINE) :: rest in
  let e := str_len (pre ++ s) in let e' := if brace then e else S e in
  pattern_loop src (S fuel) ps lnb ci role (str_len pre)
  = pattern_loop src fuel (ps ++ [PText (str_len pre) e' 0 false])
      (if decide (text_kind (as_bytes s) = NonBlank) then Some (length ps) else lnb) ci
      (if brace then Continuation else LineStart) e'.
Proof.
  intros Hs Hne Hcr Hrole. cbv zeta. cbn [pattern_loop].
  rewrite (proj2 (Nat.ltb_lt _ _)) by (rewrite len_str, !str_len_app; cbn [str_len]; pose proof (len_utf8_pos (if brace then ch "{" else NEWLINE)); lia).
  unfold take_byte_if. replace (is_cur _ (str_len pre) (ch "{")) with false; [by rewrite text_step_src|]. symmetry.
  unfold is_cur. rewrite <- (Nat.add_0_r (str_len pre)), at_src. destruct s as [|c s].
  - cbn [app as_bytes]. destruct brace; [by destruct (Hne eq_refl)|done].
  - cbn [app as_bytes]. apply Forall_inv in Hs. pose proof (length_encode_utf8 c). pose proof (len_utf8_pos c).
    destruct (encode_utf8 c) as [|b l] eqn:Ec; [simpl in *; lia|]. cbn [app lookup list_lookup].
    assert (Hb : b ∈ encode_utf8 c) by (rewrite Ec; left). pose proof (plain_ascii c b Hs Hb) as Hp.
    apply orb_false_iff in Hp as [Hp _]. by apply orb_false_iff in Hp as [_ Hp].
Qed.

Lemma trim_end_clean s c : last s = Some c -> is_trimmed c = false -> trim_end (s ++ [NEWLINE]) = s.
Proof.
  intros Hl Hc. destruct s as [|x s _] using rev_ind; [done|]. rewrite last_snoc in Hl. injection Hl as ->.
  unfold trim_end. rewrite !reverse_app, !reverse_singleton. cbn [app drop_while].
  change ((NEWLINE =? SPACE) || (NEWLINE =? CR) || (NEWLINE =? NEWLINE)) with true. cbv beta iota.
  cbn [app drop_while]. unfold is_trimmed in Hc. rewrite Hc. rewrite reverse_cons, reverse_involutive. done.
Qed.

Lemma nonblank_last s c : last s = Some c -> is_trimmed c = false -> text_kind (as_bytes s) = NonBlank.
Proof.
  intros Hl Hc. unfold text_kind. case_if E; [|done]. exfalso. destruct s as [|x s _] using rev_ind; [done|].
  rewrite last_snoc in Hl. injection Hl as ->. rewrite as_bytes_app in E. cbn [as_bytes] in E. rewrite app_nil_r in E.
  rewrite List.forallb_app in E. apply andb_true_iff in E as [_ E]. pose proof (length_encode_utf8 c). pose proof (len_utf8_pos c).
  destruct (is_ascii c) eqn:Ea.
  - rewrite encode_utf8_ascii in E by done. cbn [forallb] in E. propify. subst c. done.
  - unfold is_ascii in Ea. unfold encode_utf8 in E. rewrite Ea in E.
    assert (Hh : forall h x, 0xC0 <= h -> 0 <= x -> (Z.lor h x =? SPACE) = false).
    { intros h y Hh Hy. apply Z.eqb_neq. pose proof (lor_high h y). unfold SPACE. lia. }
    propify. case_if_in E E1; [|case_if_in E E2]; cbn [forallb] in E; rewrite Hh in E; try done; try lia;
      apply Z.shiftr_nonneg; lia.
Qed.

Lemma print_cons g gs : print (g :: gs) = print_segment g ++ print gs.
Proof. done. Qed.

(** What the loop does with the rest [gs] of a flat template, from the pointer after [pre]. *)
Definition parses_rest (src : str) (gs : list segment) (pre : str) (fuel : nat) (ps : list Placeholder)
    (lnb ci : option nat) (role : Position) : Prop :=
  exists hs tail, built src hs gs /\
    pattern_loop src fuel ps lnb ci role (str_len pre)
    = POk (ps ++ hs ++ tail, Some (length ps + length gs - 1)%nat, ci) (len src).

(** The last text, up to the line feed the parser added. *)
Lemma rest_last_text s c pre fuel ps lnb ci role : Forall (fun c => plain_char c = true) s ->
  last s = Some c -> is_trimmed c = false -> role <> LineStart -> (1 <= fuel)%nat ->
  parses_rest (pre ++ s ++ [NEWLINE]) [SText s] pre (S fuel) ps lnb ci role.
Proof.
  intros Hs El Hc Hrole Hf. set (src := pre ++ s ++ [NEWLINE]).
  assert (He : len src = S (str_len (pre ++ s))) by (unfold src; rewrite app_assoc; by apply len_snoc).
  exists [PText (str_len pre) (len src) 0 false], []. split.
  - constructor. intros ci'. cbn [build_element]. pose proof (slice_src pre (s ++ [NEWLINE]) []) as HS.
    rewrite app_nil_r in HS. unfold src. rewrite HS; [|done|apply len_str].
    cbn [obind segment_element]. by rewrite (trim_end_clean s c).
  - assert (Hcr : last s <> Some CR) by (rewrite El; intros [= ->]; done).
    pose proof (loop_text fuel pre s false [] ps lnb ci role Hs ltac:(done) ltac:(done) Hrole) as HL.
    cbv zeta beta iota in HL. rewrite <- He in HL. fold src in HL. rewrite HL, loop_end by lia.
    rewrite (nonblank_last s c), decide_True by done. cbn [length]. rewrite app_nil_r. do 5 f_equal. lia.
Qed.

(** A text before a brace. *)
Lemma rest_text s g gs pre fuel ps lnb ci role rest : Forall (fun c => plain_char c = true) s -> s <> [] ->
  role <> LineStart -> let src := pre ++ s ++ ch "{" :: rest in
  (forall ps lnb, parses_rest src (g :: gs) (pre ++ s) fuel ps lnb ci Continuation) ->
  parses_rest src (SText s :: g :: gs) pre (S fuel) ps lnb ci role.
Proof.
  intros Hs Hs0 Hrole src Hrest. set (h := PText (str_len pre) (str_len (pre ++ s)) 0 false).
  destruct (Hrest (ps ++ [h]) (if decide (text_kind (as_bytes s) = NonBlank) then Some (length ps) else lnb))
    as (hs & tail & Hb & Hl).
  exists (h :: hs), tail. split.
  - constructor; [|done]. intros ci'. cbn [build_element h]. unfold src. by rewrite (slice_src pre s).
  - pose proof (loop_text fuel pre s true rest ps lnb ci role Hs ltac:(done) ltac:(done) Hrole) as HL.
    cbv zeta beta iota in HL. fold src h in HL. rewrite HL, Hl. rewrite <- app_assoc, length_app. cbn [length app].
    do 5 f_equal. lia.
Qed.

(** A variable, then the rest. *)
Lemma loop_var n pre fuel ps lnb ci role rest : name_ok n -> role <> LineStart -> (3 <= fuel)%nat ->
  let src := pre ++ print_segment (SVar n) ++ rest in
  pattern_loop src (S fuel) ps lnb ci role (str_len pre)
  = pattern_loop src fuel (ps ++ [PPlaceable (EInline (Variable_ n))]) (Some (length ps)) ci Continuation
      (str_len (pre ++ print_segment (SVar n))).
Proof.
  intros Hn Hrole Hf src.
  assert (Hsrc : src = (pre ++ lit "{") ++ lit "$" ++ n ++ lit "}" ++ rest).
  { unfold src. cbn [print_segment]. change (lit "{$") with (lit "{" ++ lit "$"). by rewrite <- !app_assoc. }
  assert (Hp1 : str_len (pre ++ lit "{") = S (str_len pre)) by by apply str_len_snoc.
  cbn [pattern_loop]. rewrite (proj2 (Nat.ltb_lt _ _)) by (rewrite Hsrc, len_str, str_len_app, Hp1; lia).
  unfold take_byte_if. replace (is_cur src (str_len pre) (ch "{")) with true.
  2: { symmetry. rewrite Hsrc, <- app_assoc. by apply (is_cur_src pre (ch "{")). }
  rewrite decide_False by done. rewrite <- Hp1. rewrite Hsrc at 1. rewrite get_placeable_src by (done || lia).
  unfold pbind, POk. cbn [obind]. f_equal. cbn [print_segment]. change (lit "{$") with (lit "{" ++ lit "$").
  by rewrite <- !app_assoc.
Qed.

Lemma print_var_len pre n : (str_len pre + 3 <= str_len (pre ++ print_segment (SVar n)))%nat.
Proof.
  cbn [print_segment]. rewrite !str_len_app. change (str_len (lit "{$")) with 2%nat. change (str_len (lit "}")) with 1%nat. lia.
Qed.

Lemma flat_loop gs : Forall segment_ok gs -> alternating gs -> gs <> [] -> forall src pre fuel ps lnb ci role,
  role <> LineStart -> src = pre ++ print gs ++ [NEWLINE] -> (10 * (len src - str_len pre) + 1 <= fuel)%nat ->
  parses_rest src gs pre fuel ps lnb ci role.
Proof.
  induction gs as [|g gs IH]; intros Hok Halt Hne src pre fuel ps lnb ci role Hrole Hsrc Hf; [done|].
  apply Forall_cons in Hok as [Hg Hok]. destruct fuel as [|fuel]; [lia|].
  assert (Hlen : len src = (str_len pre + str_len (print (g :: gs)) + 1)%nat).
  { rewrite Hsrc, len_str, !str_len_app. simpl. lia. }
  rewrite print_cons, str_len_app in Hlen. rewrite print_cons, <- app_assoc in Hsrc. destruct g as [s|n].
  - destruct Hg as [Hs0 Hs]. cbn [alternating] in Halt. destruct Halt as [Hnext Halt]. cbn [print_segment] in *.
    assert (1 <= str_len s)%nat by (destruct s as [|c s]; [done|]; simpl; pose proof (len_utf8_pos c); lia).
    destruct gs as [|[s'|n] gs]; [|done|].
    + destruct (last s) as [c|] eqn:El; [|done]. rewrite Hsrc. apply (rest_last_text s c); auto. lia.
    + rewrite Hsrc. rewrite (print_cons (SVar n)). cbn [print_segment]. change (lit "{$") with (ch "{" :: lit "$").
      cbn [app]. apply rest_text; auto. intros ps' lnb'. apply IH; auto.
      * rewrite print_cons. cbn [print_segment]. change (lit "{$") with (ch "{" :: lit "$"). cbn [app].
        by rewrite <- !app_assoc.
      * rewrite print_cons in Hsrc. cbn [print_segment] in Hsrc. change (lit "{$") with (ch "{" :: lit "$") in Hsrc.
        cbn [app] in Hsrc. rewrite <- Hsrc, str_len_app. lia.
  - cbn [alternating] in Halt. pose proof (print_var_len pre n) as Hpv. rewrite str_len_app in Hpv.
    unfold parses_rest. rewrite Hsrc, loop_var by (done || lia). rewrite <- Hsrc. set (v := PPlaceable (EInline (Variable_ n))).
    rewrite app_assoc in Hsrc. set (pre2 := pre ++ print_segment (SVar n)) in *. destruct gs as [|g gs].
    + assert (He : len src = S (str_len pre2)) by (rewrite Hsrc; by apply len_snoc).
      exists [v], [PText (str_len pre2) (len src) 0 false]. split; [by constructor|]. destruct fuel as [|fuel]; [lia|].
      pose proof (loop_text fuel pre2 [] false [] (ps ++ [v]) (Some (length ps)) ci Continuation
        ltac:(done) ltac:(done) ltac:(done) ltac:(done)) as HL. cbv zeta beta iota in HL. rewrite app_nil_r, <- He in HL.
      change (pre2 ++ [] ++ [NEWLINE]) with (pre2 ++ print [] ++ [NEWLINE]) in HL. rewrite <- Hsrc in HL.
      rewrite HL, loop_end by lia. rewrite <- app_assoc. cbn [app length]. do 5 f_equal. lia.
    + destruct (IH Hok Halt ltac:(done) src pre2 fuel (ps ++ [v]) (Some (length ps)) ci Continuation ltac:(done) Hsrc)
        as (hs & tail & Hb & Hl); [unfold pre2; rewrite str_len_app; lia|].
      exists (v :: hs), tail. split; [by constructor|]. rewrite Hl, <- app_assoc, length_app. cbn [length app].
      do 5 f_equal. lia.
Qed.

(** The first character is not one that the parser skips before a pattern. *)
Definition starts_clean (gs : list segment) : Prop :=
  match gs with SText (c :: _) :: _ => is_trimmed c = false | _ => True end.

Lemma print_head gs : Forall segment_ok gs -> gs <> [] -> starts_clean gs ->
  exists b, as_bytes (print gs ++ [NEWLINE]) !! 0%nat = Some b /\ b <> SPACE /\ b <> CR /\ b <> NEWLINE.
Proof.
  intros Hok Hne Hc. destruct gs as [|[[|c s]|n] gs]; [done|by apply Forall_inv in Hok as []| |].
  - apply Forall_inv in Hok as [_ Hs]. apply Forall_inv in Hs. cbn [starts_clean] in Hc.
    rewrite print_cons. cbn [print_segment app as_bytes]. pose proof (length_encode_utf8 c). pose proof (len_utf8_pos c).
    destruct (is_ascii c) eqn:Ea.
    + rewrite encode_utf8_ascii by done. exists c. unfold is_trimmed in Hc. propify. done.
    + unfold plain_char in Hs. apply andb_true_iff in Hs as [Hs _]. pose proof (encode_utf8_high c) as Hh.
      destruct (encode_utf8 c) as [|b l]; [simpl in *; lia|]. specialize (Hh b Hs Ea ltac:(left)).
      exists b. split; [done|]. unfold SPACE, CR, NEWLINE. lia.
  - rewrite print_cons. cbn [print_segment]. change (lit "{$") with (ch "{" :: lit "$"). cbn [app as_bytes].
    exists (ch "{"). done.
Qed.

Lemma flat_pattern gs : Forall segment_ok gs -> alternating gs -> gs <> [] -> starts_clean gs ->
  let src := print gs ++ [NEWLINE] in
  get_pattern src (parse_fuel src) 0 = POk (Some (mkPattern (segment_element <$> gs))) (len src).
Proof.
  intros Hok Halt Hne Hc src. destruct (print_head gs Hok Hne Hc) as (b & Hb & H1 & H2 & H3).
  assert (Hat : at_ src 0 = Some b) by exact Hb.
  assert (Hcur : forall x, b <> x -> is_cur src 0 x = false).
  { intros x Hx. unfold is_cur. rewrite Hat. by apply Z.eqb_neq. }
  destruct (flat_loop gs Hok Halt Hne src [] (10 * (len src + 2) - 1)%nat [] None None InitialLineStart ltac:(done) eq_refl)
    as (hs & tail & Hbuilt & Hl); [lia|]. cbn [app length str_len] in Hl.
  unfold parse_fuel. replace (10 * (len src + 2))%nat with (S (10 * (len src + 2) - 1)) by lia. cbn [get_pattern].
  rewrite skip_blank_inline_stop by auto. unfold skip_eol, is_crlf. rewrite !Hcur by auto. cbn [andb].
  rewrite Hl. unfold pbind, POk. cbn [obind]. unfold finish_pattern.
  destruct (built_elements src hs gs None 0 (length gs - 1)%nat Hbuilt) as [Hlen He].
  { destruct gs; [done|]. simpl. lia. }
  replace (0 + length gs - 1 + 1)%nat with (length hs) by (destruct gs; [done|]; simpl in *; lia).
  rewrite take_app_length. cbn [Nat.add]. by rewrite He.
Qed.

(** *** What a flat template renders to *)

Definition segment_text (args : Args) (g : segment) : str :=
  match g with
  | SText s => s
  | SVar n => match args n with
              | Some (VStr s) => s
              | Some (VNumber k) => number_to_string k
              | None => print_segment (SVar n)
              end
  end.

Lemma flat_render args gs out :
  text (write_pattern args (mkPattern (segment_element <$> gs)) out) = text out ++ mjoin (segment_text args <$> gs).
Proof.
  revert out. induction gs as [|g gs IH]; intros out; [by rewrite app_nil_r|].
  cbn [fmap list_fmap mjoin list_join]. destruct g as [s|n].
  - cbn [segment_element write_pattern]. specialize (IH (push_text out s)). cbn [write_pattern] in IH.
    rewrite IH. cbn [push_text text]. by rewrite <- app_assoc.
  - cbn [segment_element write_pattern write_expression write_inline segment_text]. cbn [write_pattern] in IH.
    rewrite IH. destruct (args n) as [[s|k]|]; cbn [push_text push_unresolved text print_segment]; by rewrite <- !app_assoc.
Qed.

(** ** The claims *)

(** C37: on every message that is a valid string, [parse] returns: no slice is taken off a character
    boundary or out of range, no loop runs out of fuel. A refused message is reported at an offset of
    at most one byte after the message's end (the parser works on the message with a line feed added,
    and may have skipped it). In an accepted one no select, at any depth, has more than one default
    variant: which variant answers for an unmatched selector does not depend on their order. *)
Theorem parse_total m : wf_str m ->
  exists r, parse m = Ret r /\ match r with inl e => (offset e <= str_len m + 1)%nat | inr p => pattern_ok p end.
Proof. intros Hm. destruct (parse_ok m Hm) as (r & E & H). by exists r. Qed.

Definition plural_message : str :=
  lit "{$n ->" ++ [NEWLINE] ++ lit " [one] one" ++ [NEWLINE] ++ lit " *[other] many" ++ [NEWLINE] ++ lit "}".

Lemma parse_total_witness : exists p, parse plural_message = Ret (inr p) /\ pattern_ok p.
Proof.
  destruct (parse_total plural_message) as ([e|p] & E & H).
  - unfold plural_message. repeat (apply Forall_cons_2; [done|]). apply Forall_nil_2.
  - exfalso. revert E. vm_compute. discriminate.
  - exists p. split; [exact E|exact H].
Defined.

(** The bound is reached: an unclosed placeable is reported one byte after the end of the message. *)
Example parse_error_past_end :
  parse (lit "{$a") = Ret (inl (mkError 4 (lit "expected `}`"))) /\ str_len (lit "{$a") = 3%nat.
Proof. vm_compute. done. Qed.

(** A lone [*] after the variants counts as the default mark. Two messages that parse to a select
    without any default variant, the first without any variant: the first renders to nothing whatever
    the arguments are, the second renders to nothing when the selector is not [one]. *)
Theorem select_without_default_parses :
  parse (lit "{$n ->" ++ [NEWLINE] ++ lit " *}") = Ret (inr (mkPattern [Placeable (Select (Variable_ (lit "n")) [])]))
  /\ parse (lit "{$n ->" ++ [NEWLINE] ++ lit " [one] x" ++ [NEWLINE] ++ lit " *}")
     = Ret (inr (mkPattern [Placeable (Select (Variable_ (lit "n")) [mkVariant (Name (lit "one")) (mkPattern [Text (lit "x")]) false])]))
  /\ forall args k, args (lit "n") = Some (VNumber k) -> Z.abs k <> 1 ->
     render (mkPattern [Placeable (Select (Variable_ (lit "n")) [])]) args = mkRendered [] []
     /\ render (mkPattern [Placeable (Select (Variable_ (lit "n")) [mkVariant (Name (lit "one")) (mkPattern [Text (lit "x")]) false])]) args
        = mkRendered [] [].
Proof.
  split; [by vm_compute|]. split; [by vm_compute|]. intros args k Hn Hk. unfold render.
  cbn [write_pattern]. rewrite !select_eq. cbn [resolve]. rewrite Hn. cbn [selected pick List.find]. split; [done|].
  cbn [key_matches key default]. rewrite decide_True by done. by rewrite (proj2 (Z.eqb_neq _ _) Hk).
Qed.

Lemma select_without_default_parses_witness :
  render (mkPattern [Placeable (Select (Variable_ (lit "n")) [])]) (one_arg (lit "n") (VNumber 3)) = mkRendered [] [].
Proof. apply (proj2 (proj2 select_without_default_parses) (one_arg (lit "n") (VNumber 3)) 3); [done|lia]. Defined.

(** Rendering reports as unresolved only names that [variable_references] lists and that the
    arguments lack; so when every listed name has a value, nothing is unresolved. This is what a
    check of a message's references against the declared arguments relies on. *)
Theorem render_unresolved p args :
  Forall (fun n => n ∈ variable_references p /\ args n = None) (unresolved (render p args))
  /\ (Forall (fun n => args n <> None) (variable_references p) -> unresolved (render p args) = []).
Proof.
  destruct (proj1 (render_extends args) p (mkRendered [] [])) as (t & u & E & Hu). unfold render, variable_references.
  rewrite E. cbn [unresolved app]. split; [done|]. intros Hall. rewrite Forall_forall in Hall.
  destruct u as [|n u]; [done|]. apply Forall_inv in Hu as [Hn Ha]. by destruct (Hall n Hn).
Qed.

Lemma render_unresolved_witness :
  unresolved (render (mkPattern [Placeable (EInline (Variable_ (lit "n")))]) (one_arg (lit "n") (VNumber 3))) = [].
Proof.
  apply (proj2 (render_unresolved (mkPattern [Placeable (EInline (Variable_ (lit "n")))]) (one_arg (lit "n") (VNumber 3)))).
  constructor; [by vm_compute|constructor].
Defined.

(** A template of texts and [{$name}] placeables parses back to exactly those elements, and
    renders to the texts with each argument's value in place of its name ([{$name}] itself where the
    argument is missing). The texts are non-empty, free of braces and line feeds, no two in a row;
    the template neither starts nor ends in a blank that the parser trims. *)
Theorem flat_roundtrip gs : Forall segment_ok gs -> alternating gs -> gs <> [] -> starts_clean gs ->
  parse (print gs) = Ret (inr (mkPattern (segment_element <$> gs)))
  /\ forall args, text (render (mkPattern (segment_element <$> gs)) args) = mjoin (segment_text args <$> gs).
Proof.
  intros Hok Halt Hne Hc. split; [|intros args; apply flat_render].
  unfold parse. rewrite flat_pattern by done. unfold POk. cbn [obind]. by rewrite Nat.ltb_irrefl.
Qed.

Lemma flat_roundtrip_witness :
  let gs := [SText (lit "unused `"); SVar (lit "name"); SText (lit "` here")] in
  parse (print gs) = Ret (inr (mkPattern (segment_element <$> gs)))
  /\ forall args, text (render (mkPattern (segment_element <$> gs)) args) = mjoin (segment_text args <$> gs).
Proof.
  apply flat_roundtrip; [|by repeat split|done|done].
  repeat (apply Forall_cons_2; [split; [done|repeat (apply Forall_cons_2; [reflexivity|]); apply Forall_nil_2]|]). apply Forall_nil_2.
Defined.
