(* ===== verification/SnapshotVec.v ===== *)
(** * Snapshot vectors ([src/ena/undo_log.rs], [src/ena/snapshot_vec.rs])

    An undo log and a vector that records how to reverse each change while a snapshot is open.
    The traits [UndoLogs], [Snapshots] and [Rollback] are classes; [VecLog] and [NoUndo] are their
    instances. The forwarding implementations for [&mut] and the storage types without a log of
    their own ([SnapshotVecStorage], completed by [with_log]) share these definitions: a mutable
    borrow is the value passed and returned. Counts are natural numbers below [2^64]. *)
From Stdlib Require Import ZArith Lia.
From stdpp Require Import base numbers list.
From S2P Require Import Prelude.
#[local] Open Scope nat_scope.
Open Scope rust_scope.

(** ** The traits of [undo_log.rs] *)

Class UndoLogs (L T : Type) := {
  num_open_snapshots : L -> nat;
  push_undo : L -> T -> L;
  clear : L -> L;
}.

Definition in_snapshot {L T} `{UndoLogs L T} (l : L) : bool := 0 <? num_open_snapshots l.

(** [extend], as provided by the trait. *)
Definition extend_undo {L T} `{UndoLogs L T} (l : L) (undos : list T) : L := fold_left push_undo undos l.

Class Rollback (R T : Type) := reverse_undo : R -> T -> outcome R.

Class Snapshots (L T S : Type) `{UndoLogs L T} := {
  actions_since_snapshot : L -> S -> outcome (list T);
  start_snapshot : L -> S * L;
  rollback_to : forall {R} `{Rollback R T}, L -> R -> S -> outcome (L * R);
  commit : L -> S -> outcome L;
}.

(** ** [NoUndo] *)

Inductive NoUndo := mkNoUndo.

#[export] Instance NoUndo_UndoLogs {T} : UndoLogs NoUndo T :=
  {| num_open_snapshots _ := 0; push_undo l _ := l; clear l := l |}.

(** ** [VecLog] *)

Record VecLog (T : Type) := mkVecLog { log : list T; open_snapshots : nat }.
Arguments mkVecLog {T} _ _.
Arguments log {T} _.
Arguments open_snapshots {T} _.

Record Snapshot := mkSnapshot { undo_len : nat }.

Section VecLog.
Context {T : Type}.

Definition veclog_default : VecLog T := mkVecLog [] 0.

Definition veclog_push (l : VecLog T) (undo : T) : VecLog T := mkVecLog (log l ++ [undo]) (open_snapshots l).
Definition veclog_clear (l : VecLog T) : VecLog T := mkVecLog [] 0.

#[export] Instance VecLog_UndoLogs : UndoLogs (VecLog T) T :=
  {| num_open_snapshots := open_snapshots; push_undo := veclog_push; clear := veclog_clear |}.

Definition has_changes (l : VecLog T) (s : Snapshot) : bool := undo_len s <? length (log l).

(** [&self.log[snapshot.undo_len..]]. *)
Definition veclog_actions (l : VecLog T) (s : Snapshot) : outcome (list T) :=
  if undo_len s <=? length (log l) then Ret (drop (undo_len s) (log l)) else Panic.

Definition veclog_start (l : VecLog T) : Snapshot * VecLog T :=
  (mkSnapshot (length (log l)), mkVecLog (log l) (open_snapshots l + 1)).

Definition assert_open_snapshot (l : VecLog T) (s : Snapshot) : outcome unit :=
  let* _ := assert_that (undo_len s <=? length (log l)) in
  assert_that (0 <? open_snapshots l).

(** The [while] loop of [rollback_to]: each turn pops the log, so its length is enough fuel. *)
Fixpoint rollback_loop {R} `{Rollback R T} (fuel : nat) (l : list T) (target : nat) (values : R)
    : outcome (list T * R) :=
  if target <? length l then
    match fuel with
    | 0 => OutOfFuel
    | S f =>
        let* undo := unwrap (last l) in
        let* values := reverse_undo values undo in
        rollback_loop f (take (length l - 1) l) target values
    end
  else Ret (l, values).

Definition veclog_rollback_to {R} `{Rollback R T} (l : VecLog T) (values : R) (s : Snapshot)
    : outcome (VecLog T * R) :=
  let* _ := assert_open_snapshot l s in
  let* '(lg, values) := rollback_loop (length (log l)) (log l) (undo_len s) values in
  Ret (mkVecLog lg (open_snapshots l - 1), values).

Definition veclog_commit (l : VecLog T) (s : Snapshot) : outcome (VecLog T) :=
  let* _ := assert_open_snapshot l s in
  if open_snapshots l =? 1 then
    let* _ := assert_that (undo_len s =? 0) in
    Ret (mkVecLog [] (open_snapshots l - 1))
  else Ret (mkVecLog (log l) (open_snapshots l - 1)).

#[export] Instance VecLog_Snapshots : Snapshots (VecLog T) T Snapshot :=
  {| actions_since_snapshot := veclog_actions;
     start_snapshot := veclog_start;
     rollback_to := @veclog_rollback_to;
     commit := veclog_commit |}.
End VecLog.

(** ** [snapshot_vec.rs] *)

Inductive UndoLog (V U : Type) :=
| NewElem (i : nat)
| SetElem (i : nat) (v : V)
| Other (u : U).
Arguments NewElem {V U} i.
Arguments SetElem {V U} i v.
Arguments Other {V U} u.

(** [SnapshotVecDelegate::reverse]. *)
Class SnapshotVecDelegate (V U : Type) := delegate_reverse : list V -> U -> outcome (list V).

(** [Vec::pop] does nothing on an empty vector. *)
Definition vec_pop {A} (l : list A) : list A := take (length l - 1) l.

Section Reverse.
Context {V U : Type} `{SnapshotVecDelegate V U}.

Definition vec_reverse (values : list V) (undo : UndoLog V U) : outcome (list V) :=
  match undo with
  | NewElem i =>
      let values := vec_pop values in
      let* _ := assert_that (length values =? i) in
      Ret values
  | SetElem i v => set_index values i v
  | Other u => delegate_reverse values u
  end.

#[export] Instance Vec_Rollback : Rollback (list V) (UndoLog V U) := vec_reverse.
End Reverse.

Record SnapshotVec (V L : Type) := mkSnapshotVec { values : list V; undo_log : L }.
Arguments mkSnapshotVec {V L} _ _.
Arguments values {V L} _.
Arguments undo_log {V L} _.

(** The token of a snapshot: the length of the vector, and the log's token. *)
Record VecSnapshot (S : Type) := mkVecSnapshot { value_count : nat; snapshot : S }.
Arguments mkVecSnapshot {S} _ _.
Arguments value_count {S} _.
Arguments snapshot {S} _.

Section SnapshotVec.
Context {V U L : Type} `{UL : UndoLogs L (UndoLog V U)}.

Abbreviation SV := (SnapshotVec V L).

Definition sv_len (s : SV) : nat := length (values s).
Definition sv_get (s : SV) (index : nat) : outcome V := unwrap (values s !! index).

(** Log an action while a snapshot is open. *)
Definition record_undo (l : L) (undo : UndoLog V U) : L := if in_snapshot l then push_undo l undo else l.

Definition record (s : SV) (action : U) : SV := mkSnapshotVec (values s) (record_undo (undo_log s) (Other action)).

Definition sv_push (s : SV) (elem : V) : nat * SV :=
  let len := length (values s) in
  (len, mkSnapshotVec (values s ++ [elem]) (record_undo (undo_log s) (NewElem len))).

Definition sv_set (s : SV) (index : nat) (new_elem : V) : outcome SV :=
  let* old_elem := unwrap (values s !! index) in
  Ret (mkSnapshotVec (<[index := new_elem]> (values s)) (record_undo (undo_log s) (SetElem index old_elem))).

(** [for i in i0..i0 + n { self.set(i, new_elems(i)) }]. *)
Fixpoint set_each (s : SV) (i n : nat) (new_elems : nat -> V) : outcome SV :=
  match n with
  | 0 => Ret s
  | S n => let* s := sv_set s i (new_elems i) in set_each s (S i) n new_elems
  end.

Definition set_all (s : SV) (new_elems : nat -> V) : outcome SV :=
  if in_snapshot (undo_log s) then set_each s 0 (length (values s)) new_elems
  else Ret (mkSnapshotVec (imap (fun i _ => new_elems i) (values s)) (undo_log s)).

Definition sv_update (s : SV) (index : nat) (op : V -> V) : outcome SV :=
  let* old_elem := unwrap (values s !! index) in
  Ret (mkSnapshotVec (<[index := op old_elem]> (values s)) (record_undo (undo_log s) (SetElem index old_elem))).

Definition sv_extend (s : SV) (elems : list V) : SV :=
  let initial_len := length (values s) in
  mkSnapshotVec (values s ++ elems)
    (if in_snapshot (undo_log s) then extend_undo (undo_log s) (NewElem <$> seq initial_len (length elems))
     else undo_log s).

Context {S : Type} `{SN : !Snapshots L (UndoLog V U) S} `{SnapshotVecDelegate V U}.

Definition sv_start_snapshot (s : SV) : VecSnapshot S * SV :=
  let '(tok, l) := start_snapshot (undo_log s) in
  (mkVecSnapshot (length (values s)) tok, mkSnapshotVec (values s) l).

Definition sv_actions_since_snapshot (s : SV) (t : VecSnapshot S) : outcome (list (UndoLog V U)) :=
  actions_since_snapshot (undo_log s) (snapshot t).

Definition sv_rollback_to (s : SV) (t : VecSnapshot S) : outcome SV :=
  let* '(l, vs) := rollback_to (undo_log s) (values s) (snapshot t) in
  Ret (mkSnapshotVec vs l).

Definition sv_commit (s : SV) (t : VecSnapshot S) : outcome SV :=
  let* l := commit (undo_log s) (snapshot t) in
  Ret (mkSnapshotVec (values s) l).
End SnapshotVec.
