(* ===== verification/SnapshotFacts.v ===== *)
(** * Snapshot vectors refine a stack of saved vectors

    A snapshot saves the vector, a rollback restores the innermost saved one and a commit forgets it.
    The undo log implements this: between two open snapshots it holds what leads from the vector at
    the later one back to the vector at the earlier one. *)
From Stdlib Require Import ZArith Lia.
From stdpp Require Import base numbers list.
From S2P Require Import Prelude SnapshotVec.
#[local] Open Scope nat_scope.
Open Scope rust_scope.

Section Facts.
Context {V U : Type} `{SnapshotVecDelegate V U}.

Abbreviation Log := (list (UndoLog V U)).
Abbreviation SV := (SnapshotVec V (VecLog (UndoLog V U))).
Abbreviation Token := (VecSnapshot Snapshot).

(** Reversing the actions of a log, the last one first, leads from one vector to another. *)
Inductive unwinds : Log -> list V -> list V -> Prop :=
| unwinds_nil vs : unwinds [] vs vs
| unwinds_snoc l a vs vs1 vs0 : vec_reverse vs a = Ret vs1 -> unwinds l vs1 vs0 -> unwinds (l ++ [a]) vs vs0.

Lemma unwinds_app l1 l2 vs vs1 vs0 : unwinds l2 vs vs1 -> unwinds l1 vs1 vs0 -> unwinds (l1 ++ l2) vs vs0.
Proof.
  induction 1 as [vs|l a vs vs2 vs1 Ha Hl IH]; intros H1; [by rewrite app_nil_r|].
  rewrite app_assoc. econstructor; eauto.
Qed.

Lemma rollback_loop_ok l1 l2 vs vs0 fuel : unwinds l2 vs vs0 -> length l2 <= fuel ->
  rollback_loop fuel (l1 ++ l2) (length l1) vs = Ret (l1, vs0).
Proof.
  intros Hu. revert fuel. induction Hu as [vs|l a vs vs1 vs0 Ha Hl IH]; intros fuel Hf.
  - rewrite app_nil_r. destruct fuel; cbn [rollback_loop]; by rewrite Nat.ltb_irrefl.
  - rewrite length_app in Hf. cbn [length] in Hf. destruct fuel as [|fuel]; [lia|]. cbn [rollback_loop].
    rewrite (proj2 (Nat.ltb_lt _ _)) by (rewrite !length_app; simpl; lia).
    rewrite app_assoc, last_snoc. cbn [unwrap obind]. unfold reverse_undo, Vec_Rollback. rewrite Ha. cbn [obind].
    rewrite length_app. cbn [length]. replace (length (l1 ++ l) + 1 - 1) with (length (l1 ++ l)) by lia.
    rewrite take_app_length. apply IH. lia.
Qed.

(** The open snapshots, innermost first, with the vectors they saved: the log splits into one part
    per snapshot, and is empty when none is open. *)
Inductive chain : Log -> list V -> list Token -> list (list V) -> Prop :=
| chain_nil vs : chain [] vs [] []
| chain_cons l1 l2 vs saved toks stack :
    unwinds l2 vs saved -> chain l1 saved toks stack ->
    chain (l1 ++ l2) vs (mkVecSnapshot (length saved) (mkSnapshot (length l1)) :: toks) (saved :: stack).

Definition saved_in (s : SV) (toks : list Token) (stack : list (list V)) : Prop :=
  chain (log (undo_log s)) (values s) toks stack /\ open_snapshots (undo_log s) = length toks.

Lemma chain_action l vs vs' a toks stack : toks <> [] -> vec_reverse vs' a = Ret vs ->
  chain l vs toks stack -> chain (l ++ [a]) vs' toks stack.
Proof.
  intros Ht Ha Hc. destruct Hc as [|l1 l2 vs saved toks stack Hu Hc]; [done|].
  rewrite <- app_assoc. constructor; [|done]. econstructor; eauto.
Qed.

(** [s'] is [s] after changes that the log of [s'] can reverse, whatever snapshots are open. *)
Definition logged (s s' : SV) : Prop :=
  forall toks stack, saved_in s toks stack -> saved_in s' toks stack.

#[export] Instance logged_preorder : PreOrder logged.
Proof. split; [by intros s ? ?|]. intros s1 s2 s3 H1 H2 toks stack Hs. by apply H2, H1. Qed.

Lemma logged_action s vs' a : vec_reverse vs' a = Ret (values s) ->
  logged s (mkSnapshotVec vs' (record_undo (undo_log s) a)).
Proof.
  intros Ha toks stack [Hc Ho]. unfold record_undo, in_snapshot, saved_in. cbn [num_open_snapshots VecLog_UndoLogs undo_log values].
  destruct (Nat.ltb_spec 0 (open_snapshots (undo_log s))) as [Hl|Hl].
  - cbn [push_undo VecLog_UndoLogs veclog_push log open_snapshots]. split; [|done].
    apply (chain_action _ (values s)); [|done|done]. intros ->. simpl in Ho. lia.
  - split; [|done]. assert (toks = []) as -> by (destruct toks; [done|simpl in Ho; lia]). inversion Hc. constructor.
Qed.

Lemma push_logged s v : logged s (sv_push s v).2.
Proof.
  apply logged_action. cbn [vec_reverse]. unfold vec_pop. rewrite length_app. cbn [length].
  replace (length (values s) + 1 - 1) with (length (values s)) by lia. rewrite take_app_length.
  unfold assert_that. by rewrite Nat.eqb_refl.
Qed.

Lemma assign_logged s i x old : values s !! i = Some old ->
  logged s (mkSnapshotVec (<[i := x]> (values s)) (record_undo (undo_log s) (SetElem i old))).
Proof.
  intros Hi. apply logged_action. cbn [vec_reverse]. unfold set_index. rewrite length_insert.
  rewrite (proj2 (Nat.ltb_lt _ _)) by by eapply lookup_lt_Some. by rewrite list_insert_insert_eq, list_insert_id.
Qed.

Lemma update_ok s i f old : values s !! i = Some old ->
  exists s', sv_update s i f = Ret s' /\ values s' = <[i := f old]> (values s) /\ logged s s'.
Proof. intros Hi. unfold sv_update. rewrite Hi. eexists. split; [done|]. split; [done|]. by apply assign_logged. Qed.

Lemma set_ok s i x : i < length (values s) ->
  exists s', sv_set s i x = Ret s' /\ values s' = <[i := x]> (values s) /\ logged s s'.
Proof.
  intros Hi. destruct (lookup_lt_is_Some_2 _ _ Hi) as [old Ho]. unfold sv_set. rewrite Ho.
  eexists. split; [done|]. split; [done|]. by apply assign_logged.
Qed.

Lemma set_each_ok n s i f pre post : values s = pre ++ post -> length pre = i -> length post = n ->
  exists s', set_each s i n f = Ret s' /\ values s' = pre ++ imap (fun j _ => f (i + j)) post /\ logged s s'.
Proof.
  revert s i pre post. induction n as [|n IH]; intros s i pre post Hv Hp Hl.
  - destruct post; [|done]. exists s. split; [done|]. split; [by rewrite Hv|done].
  - destruct post as [|x post]; [done|]. cbn [length] in Hl. cbn [set_each].
    destruct (set_ok s i (f i)) as (s1 & -> & V1 & L1); [rewrite Hv, length_app; simpl; lia|]. cbn [obind].
    destruct (IH s1 (S i) (pre ++ [f i]) post) as (s2 & -> & V2 & L2); [|rewrite length_app; simpl; lia|lia|].
    + rewrite V1, Hv, <- Hp, <- app_assoc, insert_app_r_alt by lia. by rewrite Nat.sub_diag.
    + exists s2. split; [done|]. split; [|by etrans]. rewrite V2, <- app_assoc. cbn [imap app]. rewrite Nat.add_0_r.
      do 2 f_equal. apply imap_ext. intros j y _. cbn. f_equal. lia.
Qed.

Lemma set_all_ok s f : exists s', set_all s f = Ret s' /\ values s' = imap (fun i _ => f i) (values s) /\ logged s s'.
Proof.
  unfold set_all, in_snapshot. cbn [num_open_snapshots VecLog_UndoLogs].
  destruct (Nat.ltb_spec 0 (open_snapshots (undo_log s))) as [Hl|Hl].
  - by apply (set_each_ok (length (values s)) s 0 f [] (values s)).
  - eexists. split; [done|]. split; [done|]. intros toks stack [Hc Ho]. split; [|done]. cbn [undo_log values] in *.
    assert (toks = []) as -> by (destruct toks; [done|simpl in Ho; lia]). inversion Hc. constructor.
Qed.

Lemma extend_logged s elems : logged s (sv_extend s elems).
Proof.
  assert (HG : forall es (s0 : SV), in_snapshot (undo_log s0) = true ->
    logged s0 (mkSnapshotVec (values s0 ++ es) (extend_undo (undo_log s0) (NewElem <$> seq (length (values s0)) (length es))))).
  { induction es as [|e es IH]; intros s0 Ho.
    - cbn [length seq fmap list_fmap]. unfold extend_undo. cbn [fold_left]. rewrite app_nil_r. by destruct s0.
    - etrans; [apply (push_logged s0 e)|]. unfold sv_push, record_undo. cbn [snd]. rewrite Ho.
      set (s1 := mkSnapshotVec _ _). specialize (IH s1 Ho). unfold s1 in IH. cbn [values undo_log] in IH.
      rewrite length_app, Nat.add_1_r, <- app_assoc in IH. exact IH. }
  unfold sv_extend. destruct (in_snapshot (undo_log s)) eqn:Ho; [by apply HG|].
  intros toks stack [Hc Hn]. split; [|done]. cbn [undo_log values] in *. unfold in_snapshot in Ho.
  cbn [num_open_snapshots VecLog_UndoLogs] in Ho. apply Nat.ltb_ge in Ho.
  assert (toks = []) as -> by (destruct toks; [done|simpl in Hn; lia]). inversion Hc. constructor.
Qed.

(** *** The three snapshot operations *)

Lemma start_saved s toks stack : saved_in s toks stack ->
  let '(t, s') := sv_start_snapshot s in
  values s' = values s /\ value_count t = length (values s) /\ saved_in s' (t :: toks) (values s :: stack).
Proof.
  intros [Hc Ho]. cbn. split; [done|]. split; [done|]. split; [|cbn; lia]. cbn [undo_log values log].
  pose proof (chain_cons _ [] (values s) (values s) toks stack (unwinds_nil _) Hc) as HC. by rewrite app_nil_r in HC.
Qed.

Lemma assert_open_ok (l1 l2 : Log) n k : n = S k ->
  assert_open_snapshot (mkVecLog (l1 ++ l2) n) (mkSnapshot (length l1)) = Ret tt.
Proof.
  intros ->. unfold assert_open_snapshot, assert_that. cbn [undo_len log open_snapshots].
  rewrite (proj2 (Nat.leb_le _ _)); [done|]. rewrite length_app. lia.
Qed.

Lemma rollback_saved s t toks saved stack : saved_in s (t :: toks) (saved :: stack) ->
  exists s', sv_rollback_to s t = Ret s' /\ values s' = saved /\ saved_in s' toks stack.
Proof.
  intros [Hc Ho]. inversion Hc as [|l1 l2 vs sv' tk st Hu Hc' El Ev Et Es]; subst. destruct s as [vs [lg n]].
  cbn [undo_log values log open_snapshots length] in *. subst lg. unfold sv_rollback_to. cbn [rollback_to VecLog_Snapshots snapshot undo_log values].
  unfold veclog_rollback_to. rewrite (assert_open_ok l1 l2 n (length toks)) by done. cbn [obind log undo_len].
  rewrite (rollback_loop_ok l1 l2 vs saved) by (done || rewrite length_app; lia). cbn [obind].
  eexists. split; [done|]. split; [done|]. split; [done|]. cbn [undo_log open_snapshots]. lia.
Qed.

Lemma commit_saved s t toks saved stack : saved_in s (t :: toks) (saved :: stack) ->
  exists s', sv_commit s t = Ret s' /\ values s' = values s /\ saved_in s' toks stack.
Proof.
  intros [Hc Ho]. inversion Hc as [|l1 l2 vs sv' tk st Hu Hc' El Ev Et Es]; subst. destruct s as [vs [lg n]].
  cbn [undo_log values log open_snapshots length] in *. subst lg. unfold sv_commit. cbn [commit VecLog_Snapshots snapshot undo_log].
  unfold veclog_commit. rewrite (assert_open_ok l1 l2 n (length toks)) by done. cbn [obind open_snapshots undo_len log]. subst n.
  destruct Hc' as [vs0|l0 l1' vs0 saved2 toks stack Hu' Hc'].
  - cbn. eexists. split; [done|]. split; [done|]. split; [constructor|done].
  - cbn [length]. destruct (Nat.eqb_spec (S (S (length toks))) 1) as [E|_]; [lia|]. cbn [obind].
    eexists. split; [done|]. split; [done|]. split; [|cbn; lia]. cbn [undo_log values log].
    rewrite <- app_assoc. constructor; [|done]. by eapply unwinds_app.
Qed.

(** *** Sequences of operations

    The client holds the tokens of the open snapshots and uses the innermost one, as the documentation
    asks; without a token there is nothing to roll back or commit. *)

Inductive vec_op :=
| OPush (v : V)
| OSet (i : nat) (v : V)
| OUpdate (i : nat) (f : V -> V)
| OSetAll (f : nat -> V)
| OExtend (vs : list V)
| OStart
| ORollback
| OCommit.

Definition perform (o : vec_op) (c : SV * list Token) : outcome (SV * list Token) :=
  let '(s, toks) := c in
  match o with
  | OPush v => Ret ((sv_push s v).2, toks)
  | OSet i v => let* s := sv_set s i v in Ret (s, toks)
  | OUpdate i f => let* s := sv_update s i f in Ret (s, toks)
  | OSetAll f => let* s := set_all s f in Ret (s, toks)
  | OExtend vs => Ret (sv_extend s vs, toks)
  | OStart => let '(t, s) := sv_start_snapshot s in Ret (s, t :: toks)
  | ORollback => match toks with t :: toks => let* s := sv_rollback_to s t in Ret (s, toks) | [] => Ret (s, []) end
  | OCommit => match toks with t :: toks => let* s := sv_commit s t in Ret (s, toks) | [] => Ret (s, []) end
  end.

(** The specification: a vector and the stack of the saved ones. *)
Definition perform_abs (o : vec_op) (c : list V * list (list V)) : outcome (list V * list (list V)) :=
  let '(vs, stack) := c in
  match o with
  | OPush v => Ret (vs ++ [v], stack)
  | OSet i v => if i <? length vs then Ret (<[i := v]> vs, stack) else Panic
  | OUpdate i f => match vs !! i with Some v => Ret (<[i := f v]> vs, stack) | None => Panic end
  | OSetAll f => Ret (imap (fun i _ => f i) vs, stack)
  | OExtend l => Ret (vs ++ l, stack)
  | OStart => Ret (vs, vs :: stack)
  | ORollback => match stack with saved :: stack => Ret (saved, stack) | [] => Ret (vs, []) end
  | OCommit => match stack with _ :: stack => Ret (vs, stack) | [] => Ret (vs, []) end
  end.

Definition run_ops {C} (step : vec_op -> C -> outcome C) (ops : list vec_op) (c : C) : outcome C :=
  fold_left (fun m o => let* c := m in step o c) ops (Ret c).

(** The concrete outcome [m] implements the abstract one [a]. *)
Definition implements (m : outcome (SV * list Token)) (a : outcome (list V * list (list V))) : Prop :=
  match a with
  | Ret (vs, stack) => exists s toks, m = Ret (s, toks) /\ values s = vs /\ saved_in s toks stack
  | Panic => m = Panic
  | OutOfFuel => False
  end.

Lemma saved_lengths l vs toks stack : chain l vs toks stack -> value_count <$> toks = length <$> stack.
Proof. induction 1 as [|l1 l2 vs saved toks stack Hu Hc IH]; [done|]. cbn [fmap list_fmap]. by f_equal. Qed.

Lemma perform_ok o s toks stack : saved_in s toks stack -> implements (perform o (s, toks)) (perform_abs o (values s, stack)).
Proof.
  intros Hs. destruct o as [v|i v|i f|f|l| | |]; cbn [perform perform_abs implements].
  - exists (sv_push s v).2, toks. split; [done|]. split; [done|]. by apply push_logged.
  - destruct (Nat.ltb_spec i (length (values s))) as [Hi|Hi].
    + destruct (set_ok s i v Hi) as (s' & -> & Hv & Hl). exists s', toks. auto.
    + unfold sv_set. by rewrite lookup_ge_None_2.
  - destruct (values s !! i) as [old|] eqn:E.
    + destruct (update_ok s i f old E) as (s' & -> & Hv & Hl). exists s', toks. auto.
    + unfold sv_update. by rewrite E.
  - destruct (set_all_ok s f) as (s' & -> & Hv & Hl). exists s', toks. auto.
  - eexists _, toks. split; [done|]. split; [done|]. by apply extend_logged.
  - pose proof (start_saved s toks stack Hs) as HS. destruct (sv_start_snapshot s) as [t s']. destruct HS as (Hv & _ & HS).
    exists s', (t :: toks). auto.
  - destruct Hs as [Hc Ho]. destruct toks as [|t toks], stack as [|saved stack]; try by inversion Hc.
    + exists s, []. repeat split; done.
    + destruct (rollback_saved s t toks saved stack) as (s' & -> & Hv & Hl); [done|]. exists s', toks. auto.
  - destruct Hs as [Hc Ho]. destruct toks as [|t toks], stack as [|saved stack]; try by inversion Hc.
    + exists s, []. repeat split; done.
    + destruct (commit_saved s t toks saved stack) as (s' & -> & Hv & Hl); [done|]. exists s', toks. auto.
Qed.

Lemma run_ops_ok ops m a : implements m a ->
  implements (fold_left (fun m o => let* c := m in perform o c) ops m) (fold_left (fun m o => let* c := m in perform_abs o c) ops a).
Proof.
  revert m a. induction ops as [|o ops IH]; intros m a Hi; [done|]. cbn [fold_left]. apply IH.
  destruct a as [[vs stack]| |]; cbn [implements obind] in *; [|by subst|done].
  destruct Hi as (s & toks & -> & <- & Hs). by apply perform_ok.
Qed.
End Facts.
