(* ===== verification/Unify.v ===== *)
(** * Unification tables ([src/ena/unify/mod.rs], [unify/backing_vec.rs])

    Union-find with path compression and union by rank over a snapshot vector. The key and value
    types are the client's: the traits [UnifyKey] and [UnifyValue] are classes. The store [InPlace]
    forwards to its snapshot vector, so the table is modelled over the vector directly; the logging
    calls are left out. Ranks are [u32]s whose addition wraps as in a release build. *)
From Stdlib Require Import ZArith Lia.
From stdpp Require Import base numbers list.
From S2P Require Import Prelude SnapshotVec.
Open Scope Z_scope.
Open Scope rust_scope.

(** [UnifyValue]: [unify_values] returns the merged value or an error. *)
Class UnifyValue (V E : Type) := unify_values : V -> V -> E + V.

(** [UnifyKey]: a key is a newtyped [u32] compared with [==]. *)
Class UnifyKey (K V : Type) := {
  key_eq :: EqDecision K;
  index : K -> Z;
  from_index : Z -> K;
  order_roots : K -> V -> K -> V -> option (K * K);
}.

(** The blanket implementation for [EqUnifyValue], and those for [()] and [Option]. *)
Definition eq_unify_values {T} `{EqDecision T} (value1 value2 : T) : T * T + T :=
  if decide (value1 = value2) then inr value1 else inl (value1, value2).

(** [NoError] is never constructed. *)
Definition NoError : Type := Empty_set.

#[export] Instance unit_UnifyValue : UnifyValue unit NoError := fun _ _ => inr tt.

#[export] Instance option_UnifyValue {V E} `{UnifyValue V E} : UnifyValue (option V) E := fun a b =>
  match a, b with
  | None, None => inr None
  | Some v, None | None, Some v => inr (Some v)
  | Some a, Some b => match unify_values a b with inr v => inr (Some v) | inl err => inl err end
  end.

Record VarValue (K V : Type) := mkVarValue { parent : K; value : V; rank : Z }.
Arguments mkVarValue {K V} _ _ _.
Arguments parent {K V} _.
Arguments value {K V} _.
Arguments rank {K V} _.

(** [Delegate]: there are no other undo actions. *)
#[export] Instance Delegate {K V} : SnapshotVecDelegate (VarValue K V) unit := fun vs _ => Ret vs.

Section Table.
Context {K V E : Type} `{UK : UnifyKey K V} `{UV : UnifyValue V E}.
Context {L : Type} `{UL : UndoLogs L (UndoLog (VarValue K V) unit)}.

Abbreviation VarV := (VarValue K V).
Abbreviation Table := (SnapshotVec VarV L).

Definition new_var (key : K) (v : V) : VarV := mkVarValue key v 0.
Definition redirect (to : K) (x : VarV) : VarV := mkVarValue to (value x) (rank x).
Definition root (rk : Z) (v : V) (x : VarV) : VarV := mkVarValue (parent x) v rk.
Definition set_value (v : V) (x : VarV) : VarV := mkVarValue (parent x) v (rank x).

(** [key.index() as usize]. *)
Definition idx (key : K) : nat := Z.to_nat (index key).

Definition table_len (t : Table) : nat := sv_len t.
Definition table_value (t : Table) (key : K) : outcome VarV := sv_get t (idx key).

Definition new_key (t : Table) (v : V) : K * Table :=
  let len := table_len t in
  let key := from_index (wrap_u32 (Z.of_nat len)) in
  (key, (sv_push t (new_var key v)).2).

Definition reset_unifications (t : Table) (v : K -> V) : outcome Table :=
  set_all t (fun i => let key := from_index (wrap_u32 (Z.of_nat i)) in new_var key (v key)).

Definition update_value (t : Table) (key : K) (op : VarV -> VarV) : outcome Table := sv_update t (idx key) op.

(** [inlined_get_root_key] and [uninlined_get_root_key] call each other: one function, a unit of
    fuel per redirect followed. *)
Fixpoint get_root_key (fuel : nat) (t : Table) (vid : K) : outcome (K * Table) :=
  match fuel with
  | O => OutOfFuel
  | S f =>
      let* v := table_value t vid in
      if decide (parent v = vid) then Ret (vid, t)
      else
        let redirect_ := parent v in
        let* '(root_key, t) := get_root_key f t redirect_ in
        if decide (root_key = redirect_) then Ret (root_key, t)
        else
          let* t := update_value t vid (redirect root_key) in
          Ret (root_key, t)
  end.

(** Ranks grow along redirects and are below the number of keys, so that number is enough fuel. *)
Definition uninlined_get_root_key (t : Table) (vid : K) : outcome (K * Table) :=
  get_root_key (S (table_len t)) t vid.

Definition redirect_root (t : Table) (new_rank : Z) (old_root_key new_root_key : K) (new_value : V) : outcome Table :=
  let* t := update_value t old_root_key (redirect new_root_key) in
  update_value t new_root_key (root new_rank new_value).

Definition unify_roots (t : Table) (key_a key_b : K) (new_value : V) : outcome Table :=
  let* a := table_value t key_a in
  let* b := table_value t key_b in
  let rank_a := rank a in
  let rank_b := rank b in
  match order_roots key_a (value a) key_b (value b) with
  | Some (new_root, redirected) =>
      let new_rank :=
        if decide (new_root = key_a) then (if rank_b <? rank_a then rank_a else wrap_u32 (rank_b + 1))
        else (if rank_a <? rank_b then rank_b else wrap_u32 (rank_a + 1)) in
      redirect_root t new_rank redirected new_root new_value
  | None =>
      if rank_b <? rank_a then redirect_root t rank_a key_b key_a new_value
      else if rank_a <? rank_b then redirect_root t rank_b key_a key_b new_value
      else redirect_root t (wrap_u32 (rank_a + 1)) key_a key_b new_value
  end.

(** ** The public interface *)

Definition try_probe_value (t : Table) (id : K) : outcome (option V) :=
  let* v := table_value t id in Ret (if decide (parent v = id) then Some (value v) else None).

Definition find (t : Table) (id : K) : outcome (K * Table) := uninlined_get_root_key t id.

Definition unioned (t : Table) (a_id b_id : K) : outcome (bool * Table) :=
  let* '(a, t) := find t a_id in
  let* '(b, t) := find t b_id in
  Ret (bool_decide (a = b), t).

Definition unify_var_var (t : Table) (a_id b_id : K) : outcome ((E + unit) * Table) :=
  let* '(root_a, t) := uninlined_get_root_key t a_id in
  let* '(root_b, t) := uninlined_get_root_key t b_id in
  if decide (root_a = root_b) then Ret (inr tt, t)
  else
    let* a := table_value t root_a in
    let* b := table_value t root_b in
    match unify_values (value a) (value b) with
    | inl err => Ret (inl err, t)
    | inr combined => let* t := unify_roots t root_a root_b combined in Ret (inr tt, t)
    end.

Definition unify_var_value (t : Table) (a_id : K) (b : V) : outcome ((E + unit) * Table) :=
  let* '(root_a, t) := uninlined_get_root_key t a_id in
  let* a := table_value t root_a in
  match unify_values (value a) b with
  | inl err => Ret (inl err, t)
  | inr v => let* t := update_value t root_a (set_value v) in Ret (inr tt, t)
  end.

(** [self.unify_var_var(a, b).unwrap()], for an error type that is never constructed. *)
Definition union (t : Table) (a_id b_id : K) : outcome Table :=
  let* '(r, t) := unify_var_var t a_id b_id in
  match r with inr _ => Ret t | inl _ => Panic end.

Definition union_value (t : Table) (id : K) (v : V) : outcome Table :=
  let* '(r, t) := unify_var_value t id v in
  match r with inr _ => Ret t | inl _ => Panic end.

Definition inlined_probe_key_value (t : Table) (id : K) : outcome (K * V * Table) :=
  let* '(id, t) := uninlined_get_root_key t id in
  let* v := table_value t id in
  Ret (id, value v, t).

Definition probe_value (t : Table) (id : K) : outcome (V * Table) :=
  let* '(id, t) := uninlined_get_root_key t id in
  let* v := table_value t id in
  Ret (value v, t).

(** ** Snapshots *)

Context {S : Type} `{SN : !Snapshots L (UndoLog VarV unit) S}.

Definition table_snapshot (t : Table) : VecSnapshot S * Table := sv_start_snapshot t.
Definition table_rollback_to (t : Table) (s : VecSnapshot S) : outcome Table := sv_rollback_to t s.
Definition table_commit (t : Table) (s : VecSnapshot S) : outcome Table := sv_commit t s.

(** The half-open range of the keys created since the snapshot. *)
Definition vars_since_snapshot (t : Table) (s : VecSnapshot S) : K * K :=
  (from_index (wrap_u32 (Z.of_nat (value_count s))), from_index (wrap_u32 (Z.of_nat (table_len t)))).
End Table.
