(* ===== verification/UnifyFacts.v ===== *)
(** * Unification tables: the forest behind the vector

    The invariant of the vector (ranks grow along redirects and are bounded by the number of
    redirected keys), the root of an entry, and what path compression and the union of two roots do
    to roots and values. *)
From Stdlib Require Import ZArith Lia.
From stdpp Require Import base numbers list.
From S2P Require Import Prelude SnapshotVec SnapshotFacts Unify.
Open Scope Z_scope.
Open Scope rust_scope.

(** What a client's key type promises: keys and indices below its limit correspond, and [order_roots]
    returns the two keys it was given. *)
Class UnifyKeyOk (K V : Type) `{UnifyKey K V} := {
  key_limit : Z;
  key_limit_u32 : 0 <= key_limit <= u32_max + 1;
  index_u32 : forall k : K, 0 <= index k <= u32_max;
  from_index_index : forall k : K, from_index (index k) = k;
  index_from_index : forall i, 0 <= i < key_limit -> index (from_index i) = i;
  order_roots_keys : forall a va b vb r o, order_roots a va b vb = Some (r, o) -> (r, o) = (a, b) \/ (r, o) = (b, a);
}.

Section Forest.
Context {K V : Type} `{UK : UnifyKey K V} {UKOk : UnifyKeyOk K V}.

Abbreviation VarV := (VarValue K V).
Abbreviation Values := (list VarV).

Lemma idx_inj (k1 k2 : K) : idx k1 = idx k2 -> k1 = k2.
Proof.
  unfold idx. intros Hk. pose proof (index_u32 k1). pose proof (index_u32 k2).
  rewrite <- (from_index_index k1), <- (from_index_index k2). f_equal. lia.
Qed.

(** *** Counting roots *)

Definition is_root_at (i : nat) (v : VarV) : bool := (idx (parent v) =? i)%nat.
Definition one_if (b : bool) : Z := if b then 1 else 0.

Fixpoint roots_from (i : nat) (vs : Values) : Z :=
  match vs with [] => 0 | v :: vs => one_if (is_root_at i v) + roots_from (S i) vs end.
Definition roots (vs : Values) : Z := roots_from 0 vs.

Lemma roots_from_nonneg i vs : 0 <= roots_from i vs.
Proof. revert i. induction vs as [|v vs IH]; intros i; cbn [roots_from]; [lia|]. specialize (IH (S i)). unfold one_if. case_ifs; lia. Qed.

Lemma roots_from_le i vs : roots_from i vs <= Z.of_nat (length vs).
Proof. revert i. induction vs as [|v vs IH]; intros i; cbn [roots_from length]; [lia|]. specialize (IH (S i)). unfold one_if. case_ifs; lia. Qed.

Lemma roots_from_all i vs : (forall j v, vs !! j = Some v -> is_root_at (i + j) v = true) -> roots_from i vs = Z.of_nat (length vs).
Proof.
  revert i. induction vs as [|v vs IH]; intros i Hall; cbn [roots_from length]; [done|].
  pose proof (Hall 0%nat v eq_refl) as H0. rewrite Nat.add_0_r in H0. rewrite H0, IH; [cbn [one_if]; lia|].
  intros j w Hj. replace (S i + j)%nat with (i + S j)%nat by lia. by apply Hall.
Qed.

Lemma roots_from_insert i vs j old new : vs !! j = Some old ->
  roots_from i (<[j := new]> vs) + one_if (is_root_at (i + j) old) = roots_from i vs + one_if (is_root_at (i + j) new).
Proof.
  revert i j. induction vs as [|v vs IH]; intros i [|j] Hj; try done.
  - injection Hj as ->. change (<[0%nat := new]> (old :: vs)) with (new :: vs). cbn [roots_from]. rewrite Nat.add_0_r. lia.
  - change (<[S j := new]> (v :: vs)) with (v :: <[j := new]> vs). cbn [roots_from]. specialize (IH (S i) j Hj).
    replace (i + S j)%nat with (S i + j)%nat by lia. lia.
Qed.

Lemma roots_insert vs j old new : vs !! j = Some old ->
  roots (<[j := new]> vs) = roots vs + one_if (is_root_at j new) - one_if (is_root_at j old).
Proof. intros Hj. pose proof (roots_from_insert 0 vs j old new Hj) as HR. cbn [Nat.add] in HR. unfold roots. lia. Qed.

Lemma roots_from_pos i vs j v : vs !! j = Some v -> is_root_at (i + j) v = true -> 1 <= roots_from i vs.
Proof.
  revert i j. induction vs as [|w vs IH]; intros i [|j] Hj Hr; try done; cbn [lookup list_lookup roots_from] in *.
  - injection Hj as ->. rewrite Nat.add_0_r in Hr. rewrite Hr. pose proof (roots_from_nonneg (S i) vs). simpl. lia.
  - replace (i + S j)%nat with (S i + j)%nat in Hr by lia. specialize (IH (S i) j Hj Hr). unfold one_if. case_ifs; lia.
Qed.

Lemma roots_from_snoc i vs v : roots_from i (vs ++ [v]) = roots_from i vs + one_if (is_root_at (i + length vs) v).
Proof.
  revert i. induction vs as [|w vs IH]; intros i; cbn [app roots_from length]; [rewrite Nat.add_0_r; lia|].
  rewrite IH. replace (i + S (length vs))%nat with (S i + length vs)%nat by lia. lia.
Qed.

(** *** The invariant *)

Record table_wf (vs : Values) : Prop := {
  wf_len : Z.of_nat (length vs) <= key_limit (K := K) (V := V);
  wf_parent : forall i v, vs !! i = Some v -> (idx (parent v) < length vs)%nat;
  wf_rank : forall i v w, vs !! i = Some v -> idx (parent v) <> i -> vs !! idx (parent v) = Some w -> rank v < rank w;
  wf_bound : forall i v, vs !! i = Some v -> 0 <= rank v <= Z.of_nat (length vs) - roots vs;
}.

Inductive root_of (vs : Values) : nat -> nat -> Prop :=
| root_here i v : vs !! i = Some v -> idx (parent v) = i -> root_of vs i i
| root_next i v r : vs !! i = Some v -> idx (parent v) <> i -> root_of vs (idx (parent v)) r -> root_of vs i r.

Lemma root_of_fun vs i r1 r2 : root_of vs i r1 -> root_of vs i r2 -> r1 = r2.
Proof.
  intros H1. revert r2. induction H1 as [i v Hv Hp|i v r Hv Hp _ IH]; intros r2 H2; inversion H2; simplify_eq; try done; auto.
Qed.

Lemma root_of_root vs i r : root_of vs i r -> exists v, vs !! r = Some v /\ idx (parent v) = r.
Proof. induction 1; eauto. Qed.

Lemma root_of_self vs i r : root_of vs i r -> root_of vs r r.
Proof. intros (v & Hv & Hp)%root_of_root. by econstructor. Qed.

Lemma root_of_exists vs i : table_wf vs -> (i < length vs)%nat -> exists r, root_of vs i r.
Proof.
  intros Hw Hi. destruct (lookup_lt_is_Some_2 _ _ Hi) as [v Hv].
  remember (Z.to_nat (Z.of_nat (length vs) - rank v)) as n eqn:Hn.
  assert (Hle : (Z.to_nat (Z.of_nat (length vs) - rank v) <= n)%nat) by lia. clear Hn.
  revert i v Hv Hi Hle. induction n as [n IH] using lt_wf_ind; intros i v Hv Hi Hle.
  destruct (decide (idx (parent v) = i)) as [Hp|Hp]; [exists i; by econstructor|].
  pose proof (wf_parent vs Hw i v Hv) as Hpl. destruct (lookup_lt_is_Some_2 _ _ Hpl) as [w Hwv].
  pose proof (wf_rank vs Hw i v w Hv Hp Hwv). pose proof (wf_bound vs Hw _ _ Hwv).
  pose proof (roots_from_nonneg 0 vs). unfold roots in *.
  destruct (IH (Z.to_nat (Z.of_nat (length vs) - rank w)) ltac:(lia) _ w Hwv Hpl) as [r Hr]; [lia|].
  exists r. by econstructor.
Qed.

Lemma root_of_rank vs i r v w : table_wf vs -> root_of vs i r -> i <> r -> vs !! i = Some v -> vs !! r = Some w ->
  rank v < rank w.
Proof.
  intros Hw Hr. revert v. induction Hr as [i u Hu Hp|i u r Hu Hp Hr IH]; intros v Hne Hv Hwv; [done|].
  assert (u = v) as -> by congruence.
  pose proof (wf_parent vs Hw i v Hv) as Hpl. destruct (lookup_lt_is_Some_2 _ _ Hpl) as [x Hx].
  pose proof (wf_rank vs Hw i v x Hv Hp Hx). destruct (decide (idx (parent v) = r)) as [<-|Hn]; [by simplify_eq|].
  specialize (IH x Hn Hx Hwv). lia.
Qed.

(** *** What a class holds *)

Definition same_class (vs : Values) (i j : nat) : Prop := exists r, root_of vs i r /\ root_of vs j r.
Definition class_value (vs : Values) (i : nat) (x : V) : Prop :=
  exists r v, root_of vs i r /\ vs !! r = Some v /\ value v = x.

(** [vs'] has the same keys, roots, ranks and values as [vs]: only redirects may differ. *)
Record compressed (vs vs' : Values) : Prop := {
  cp_len : length vs' = length vs;
  cp_roots : forall i r, root_of vs i r <-> root_of vs' i r;
  cp_entry : forall i v, vs !! i = Some v -> exists v', vs' !! i = Some v' /\ value v' = value v /\ rank v' = rank v;
}.

#[export] Instance compressed_preorder : PreOrder compressed.
Proof.
  split.
  - intros vs. split; [done|done|]. eauto.
  - intros v1 v2 v3 [L1 R1 E1] [L2 R2 E2]. split; [congruence| |].
    + intros i r. by rewrite R1, R2.
    + intros i v Hv. destruct (E1 i v Hv) as (v' & Hv' & ? & ?). destruct (E2 i v' Hv') as (v'' & Hv'' & ? & ?).
      exists v''. split; [done|]. split; congruence.
Qed.

Lemma compressed_value vs vs' i x : compressed vs vs' -> class_value vs i x <-> class_value vs' i x.
Proof.
  intros [Hl Hr He]. split; intros (r & v & Hi & Hv & Hx).
  - destruct (He r v Hv) as (v' & Hv' & Hx' & _). exists r, v'. rewrite <- Hr. split; [done|]. split; congruence.
  - assert (Hlt : (r < length vs)%nat) by (rewrite <- Hl; by eapply lookup_lt_Some).
    destruct (lookup_lt_is_Some_2 _ _ Hlt) as [w Hw]. destruct (He r w Hw) as (v' & Hv' & Hx' & _).
    exists r, w. rewrite Hr. split; [done|]. split; congruence.
Qed.

Lemma compressed_class vs vs' i j : compressed vs vs' -> same_class vs i j <-> same_class vs' i j.
Proof. intros [_ Hr _]. unfold same_class. split; intros (r & H1 & H2); exists r; [by rewrite <- !Hr|by rewrite !Hr]. Qed.

Lemma root_of_lt vs i r : root_of vs i r -> (i < length vs)%nat.
Proof. destruct 1; by eapply lookup_lt_Some. Qed.

Lemma is_root_true i v : is_root_at i v = true <-> idx (parent v) = i.
Proof. apply Nat.eqb_eq. Qed.

Lemma is_root_false i v : is_root_at i v = false <-> idx (parent v) <> i.
Proof. apply Nat.eqb_neq. Qed.

(** *** Path compression *)

(** Redirecting an entry to its own root. *)
Lemma compress_step vs i v k : table_wf vs -> vs !! i = Some v -> idx (parent v) <> i -> root_of vs i (idx k) ->
  table_wf (<[i := redirect k v]> vs) /\ compressed vs (<[i := redirect k v]> vs).
Proof.
  intros Hw Hi Hp Hr. set (vs' := <[i := redirect k v]> vs).
  destruct (root_of_root _ _ _ Hr) as (x & Hx & Hxp).
  assert (Hne : idx k <> i) by (intros <-; simplify_eq; done).
  assert (Hlen : length vs' = length vs) by apply length_insert.
  assert (Hii : vs' !! i = Some (redirect k v)) by (apply list_lookup_insert_eq; by eapply lookup_lt_Some).
  assert (Hij : forall j, j <> i -> vs' !! j = vs !! j) by (intros j Hj; by apply list_lookup_insert_ne).
  assert (Hfwd : forall j r, root_of vs j r -> root_of vs' j r).
  { intros j r H. induction H as [j w Hj Hjp|j w r Hj Hjp Hjr IH].
    - econstructor; [|exact Hjp]. rewrite Hij; [done|]. intros ->. by simplify_eq.
    - destruct (decide (j = i)) as [->|Hji].
      + assert (r = idx k) as -> by (eapply root_of_fun; [|exact Hr]; by eapply root_next).
        eapply root_next; [exact Hii|done|]. econstructor; [|exact Hxp]. by rewrite Hij.
      + eapply root_next; [|exact Hjp|exact IH]. by rewrite Hij. }
  assert (Hroots : roots vs' = roots vs).
  { unfold vs'. rewrite (roots_insert vs i v) by done.
    rewrite (proj2 (is_root_false i v)), (proj2 (is_root_false i (redirect k v))) by done. lia. }
  split; [split|split].
  - rewrite Hlen. apply Hw.
  - rewrite Hlen. intros j w Hj. destruct (decide (j = i)) as [->|Hji].
    + rewrite Hii in Hj. injection Hj as <-. by eapply lookup_lt_Some.
    + rewrite Hij in Hj by done. by eapply wf_parent.
  - intros j w y Hj Hjp Hy. assert (Hyr : exists y0, vs !! idx (parent w) = Some y0 /\ rank y0 = rank y).
    { destruct (decide (idx (parent w) = i)) as [E|E]; [|rewrite Hij in Hy by done; eauto].
      rewrite E, Hii in Hy. injection Hy as <-. rewrite E. eauto. }
    destruct Hyr as (y0 & Hy0 & <-). destruct (decide (j = i)) as [->|Hji].
    + rewrite Hii in Hj. injection Hj as <-. cbn [redirect rank]. apply (root_of_rank vs i (idx k)); auto.
    + rewrite Hij in Hj by done. by eapply (wf_rank vs Hw j).
  - rewrite Hlen, Hroots. intros j w Hj. destruct (decide (j = i)) as [->|Hji].
    + rewrite Hii in Hj. injection Hj as <-. by apply (wf_bound vs Hw i v).
    + rewrite Hij in Hj by done. by eapply wf_bound.
  - done.
  - intros j r. split; [apply Hfwd|]. intros Hj. destruct (root_of_exists vs j Hw) as [r0 Hr0].
    { rewrite <- Hlen. by eapply root_of_lt. }
    by rewrite (root_of_fun _ _ _ _ Hj (Hfwd _ _ Hr0)).
  - intros j w Hj. destruct (decide (j = i)) as [->|Hji]; [|exists w; by rewrite Hij].
    simplify_eq. exists (redirect k v). done.
Qed.

(** *** Joining two roots *)

Section Join.
Context (vs : Values) (old new : K) (vo vn : VarV) (x : V) (rk : Z).
Context (Hw : table_wf vs) (Hold : vs !! idx old = Some vo) (Hnew : vs !! idx new = Some vn) (Hne : idx old <> idx new).
Context (Hro : idx (parent vo) = idx old) (Hrn : idx (parent vn) = idx new).
Context (Hrank : rank vo < rk) (Hrank' : rank vn <= rk) (Hup : rk <= Z.max (rank vo) (rank vn) + 1).

Definition joined : Values := <[idx new := root rk x vn]> (<[idx old := redirect new vo]> vs).

Lemma joined_new : joined !! idx new = Some (root rk x vn).
Proof. unfold joined. apply list_lookup_insert_eq. rewrite length_insert. by eapply lookup_lt_Some. Qed.

Lemma joined_old : joined !! idx old = Some (redirect new vo).
Proof.
  unfold joined. rewrite list_lookup_insert_ne by done. apply list_lookup_insert_eq. by eapply lookup_lt_Some.
Qed.

Lemma joined_other j : j <> idx old -> j <> idx new -> joined !! j = vs !! j.
Proof. intros H1 H2. unfold joined. by rewrite !list_lookup_insert_ne. Qed.

Lemma joined_len : length joined = length vs.
Proof. unfold joined. by rewrite !length_insert. Qed.

Lemma joined_roots : roots joined = roots vs - 1 /\ 1 <= roots joined.
Proof.
  assert (HP : 1 <= roots joined) by (eapply (roots_from_pos 0); [exact joined_new|by apply is_root_true]).
  split; [|done]. unfold joined. rewrite (roots_insert _ (idx new) vn) by by rewrite list_lookup_insert_ne.
  rewrite (roots_insert vs (idx old) vo) by done.
  rewrite (proj2 (is_root_true (idx new) (root rk x vn))), (proj2 (is_root_true (idx new) vn)),
    (proj2 (is_root_true (idx old) vo)), (proj2 (is_root_false (idx old) (redirect new vo))) by (done || by apply not_eq_sym). simpl. lia.
Qed.

(** The ranks of two different roots are below the number of keys: [rank + 1] does not wrap. *)
Lemma join_rank_u32 : rk <= u32_max.
Proof.
  pose proof joined_roots. pose proof (wf_bound vs Hw _ _ Hold). pose proof (wf_bound vs Hw _ _ Hnew).
  pose proof (wf_len vs Hw). pose proof (key_limit_u32 (K := K) (V := V)). lia.
Qed.

Lemma joined_root_of i r : root_of vs i r -> root_of joined i (if decide (r = idx old) then idx new else r).
Proof.
  assert (Hn : root_of joined (idx new) (idx new)) by (econstructor; [exact joined_new|done]).
  induction 1 as [i v Hi Hp|i v r Hi Hp Hr IH].
  - destruct (decide (i = idx old)) as [->|Hio].
    + eapply root_next; [exact joined_old| |exact Hn]. cbn [redirect parent]. by apply not_eq_sym.
    + destruct (decide (i = idx new)) as [->|Hin]; [done|]. econstructor; [|exact Hp]. by rewrite joined_other.
  - eapply root_next; [|exact Hp|exact IH]. rewrite joined_other; [done| |]; intros ->; by simplify_eq.
Qed.

Lemma joined_root_of_inv i r' : root_of joined i r' ->
  exists r, root_of vs i r /\ r' = if decide (r = idx old) then idx new else r.
Proof.
  intros Hi. destruct (root_of_exists vs i Hw) as [r Hr]; [rewrite <- joined_len; by eapply root_of_lt|].
  exists r. split; [done|]. eapply root_of_fun; [exact Hi|by apply joined_root_of].
Qed.

Lemma joined_wf : table_wf joined.
Proof.
  destruct joined_roots as [HR HR1]. split; rewrite ?joined_len.
  - apply Hw.
  - intros j w Hj. destruct (decide (j = idx new)) as [->|Hn]; [|destruct (decide (j = idx old)) as [->|Ho]].
    + rewrite joined_new in Hj. injection Hj as <-. exact (wf_parent vs Hw (idx new) vn Hnew).
    + rewrite joined_old in Hj. injection Hj as <-. by eapply lookup_lt_Some.
    + rewrite joined_other in Hj by done. by eapply wf_parent.
  - intros j w y Hj Hjp Hy.
    assert (HY : forall y0, vs !! idx (parent w) = Some y0 -> rank y0 <= rank y).
    { intros y0 Hy0. destruct (decide (idx (parent w) = idx new)) as [E|En]; [|destruct (decide (idx (parent w) = idx old)) as [E|Eo]].
      - rewrite E, joined_new in Hy. injection Hy as <-. rewrite E in Hy0. by simplify_eq.
      - rewrite E, joined_old in Hy. injection Hy as <-. rewrite E in Hy0. by simplify_eq.
      - rewrite joined_other in Hy by done. by simplify_eq. }
    destruct (decide (j = idx new)) as [->|Hn]; [|destruct (decide (j = idx old)) as [->|Ho]].
    + rewrite joined_new in Hj. by injection Hj as <-.
    + rewrite joined_old in Hj. injection Hj as <-. cbn [redirect parent rank] in *. rewrite joined_new in Hy. by injection Hy as <-.
    + rewrite joined_other in Hj by done. pose proof (wf_parent vs Hw j w Hj) as Hl.
      destruct (lookup_lt_is_Some_2 _ _ Hl) as [y0 Hy0]. pose proof (wf_rank vs Hw j w y0 Hj Hjp Hy0).
      specialize (HY y0 Hy0). lia.
  - rewrite HR. pose proof (wf_bound vs Hw _ _ Hold). pose proof (wf_bound vs Hw _ _ Hnew).
    intros j w Hj. destruct (decide (j = idx new)) as [->|Hn]; [|destruct (decide (j = idx old)) as [->|Ho]].
    + rewrite joined_new in Hj. injection Hj as <-. cbn [root rank]. lia.
    + rewrite joined_old in Hj. injection Hj as <-. cbn [redirect rank]. lia.
    + rewrite joined_other in Hj by done. pose proof (wf_bound vs Hw j w Hj). lia.
Qed.
End Join.
End Forest.
