(* ===== verification/EnaTheorems.v ===== *)
(** * Snapshot vectors and unification tables: the theorems *)
From Stdlib Require Import ZArith Lia.
From stdpp Require Import base numbers list relations.
From S2P Require Import Prelude SnapshotVec SnapshotFacts Unify UnifyFacts.
Open Scope Z_scope.
Open Scope rust_scope.

Section Table.
Context {K V E : Type} `{UK : UnifyKey K V} {UKOk : UnifyKeyOk K V} `{UV : UnifyValue V E}.

Abbreviation VarV := (VarValue K V).
Abbreviation Table := (SnapshotVec VarV (VecLog (UndoLog VarV unit))).

(** ** Finding a root *)

Lemma get_root_key_ok fuel (t : Table) k v : table_wf (values t) -> values t !! idx k = Some v ->
  Z.of_nat (length (values t)) - rank v < Z.of_nat fuel ->
  exists r t', get_root_key fuel t k = Ret (r, t') /\ root_of (values t) (idx k) (idx r)
    /\ table_wf (values t') /\ compressed (values t) (values t') /\ logged t t'.
Proof.
  revert t k v. induction fuel as [|fuel IH]; intros t k v Hw Hv Hf.
  { pose proof (wf_bound _ Hw _ _ Hv). pose proof (roots_from_nonneg 0 (values t)). unfold roots in *. lia. }
  cbn [get_root_key]. unfold table_value, sv_get. rewrite Hv. cbn [unwrap obind].
  destruct (decide (parent v = k)) as [Hp|Hp].
  { exists k, t. split; [done|]. split; [econstructor; [exact Hv|by rewrite Hp]|]. done. }
  assert (Hpi : idx (parent v) <> idx k) by (intros Hi%idx_inj; done).
  destruct (lookup_lt_is_Some_2 _ _ (wf_parent _ Hw _ _ Hv)) as [w Hwv].
  pose proof (wf_rank _ Hw _ _ _ Hv Hpi Hwv).
  destruct (IH t (parent v) w Hw Hwv ltac:(lia)) as (r & t1 & -> & Hr & Hw1 & Hc1 & Hl1). cbn [obind].
  assert (Hrk : root_of (values t) (idx k) (idx r)) by by eapply root_next.
  destruct (decide (r = parent v)) as [_|_]; [by exists r, t1|].
  destruct (cp_entry _ _ Hc1 _ _ Hv) as (v1 & Hv1 & _ & _).
  assert (Hr1 : root_of (values t1) (idx k) (idx r)) by by apply (cp_roots _ _ Hc1).
  assert (Hn1 : idx (parent v1) <> idx k).
  { intros E1. assert (idx k = idx r) as Ekr by (eapply root_of_fun; [by econstructor|exact Hr1]).
    destruct (root_of_root _ _ _ Hrk) as (u & Hu & Hup). rewrite <- Ekr in Hu, Hup. by simplify_eq. }
  destruct (update_ok t1 (idx k) (redirect r) v1 Hv1) as (t2 & Hu & Hv2 & Hl2). unfold update_value. rewrite Hu. cbn [obind].
  destruct (compress_step _ _ v1 r Hw1 Hv1 Hn1 Hr1) as [Hw2 Hc2]. rewrite <- Hv2 in Hw2, Hc2.
  exists r, t2. split; [done|]. split; [done|]. split; [done|]. split; by etrans.
Qed.

Lemma find_ok (t : Table) k : table_wf (values t) -> (idx k < length (values t))%nat ->
  exists r t', uninlined_get_root_key t k = Ret (r, t') /\ root_of (values t) (idx k) (idx r)
    /\ table_wf (values t') /\ compressed (values t) (values t') /\ logged t t'.
Proof.
  intros Hw Hk. destruct (lookup_lt_is_Some_2 _ _ Hk) as [v Hv]. apply (get_root_key_ok _ t k v Hw Hv).
  pose proof (wf_bound _ Hw _ _ Hv). unfold table_len, sv_len. lia.
Qed.

(** The root found is an entry of the table after the search, with the value of its class. *)
Lemma root_entry (t t' : Table) k r : compressed (values t) (values t') -> root_of (values t) (idx k) (idx r) ->
  exists v, table_value t' r = Ret v /\ values t' !! idx r = Some v /\ idx (parent v) = idx r
    /\ class_value (values t) (idx k) (value v).
Proof.
  intros Hc Hr. assert (Hr' : root_of (values t') (idx k) (idx r)) by by apply (cp_roots _ _ Hc).
  destruct (root_of_root _ _ _ Hr') as (v & Hv & Hp). exists v. unfold table_value, sv_get. rewrite Hv.
  split; [done|]. split; [done|]. split; [done|]. apply (compressed_value _ _ _ _ Hc). by exists (idx r), v.
Qed.

Lemma class_value_fun (vs : list VarV) i x y : class_value vs i x -> class_value vs i y -> x = y.
Proof. intros (r1 & v1 & R1 & V1 & <-) (r2 & v2 & R2 & V2 & <-). pose proof (root_of_fun _ _ _ _ R1 R2). by simplify_eq. Qed.

(** ** Joining two roots *)

(** The classes of [i] and [j] became one, with value [x]; nothing else changed. *)
Record merged (vs vs' : list VarV) (i j : nat) (x : V) : Prop := {
  mg_len : length vs' = length vs;
  mg_classes : forall p q, same_class vs' p q <->
    same_class vs p q \/ (same_class vs p i /\ same_class vs j q) \/ (same_class vs p j /\ same_class vs i q);
  mg_value : forall p, same_class vs p i \/ same_class vs p j -> class_value vs' p x;
  mg_others : forall p y, ~ same_class vs p i -> ~ same_class vs p j -> class_value vs p y <-> class_value vs' p y;
}.

Lemma merged_sym vs vs' i j x : merged vs vs' i j x -> merged vs vs' j i x.
Proof. intros [Hl Hc Hv Ho]. split; [done|intros p q; rewrite Hc; tauto|intros p Hp; apply Hv; tauto|auto]. Qed.

Lemma same_class_root (vs : list VarV) i j r : root_of vs j r -> same_class vs i j <-> root_of vs i r.
Proof.
  intros Hj. split; [|by exists r]. intros (r' & Hi & Hj'). by rewrite (root_of_fun _ _ _ _ Hj Hj').
Qed.

Lemma same_class_sym (vs : list VarV) i j : same_class vs i j -> same_class vs j i.
Proof. intros (r & ? & ?). by exists r. Qed.

Lemma joined_merged (vs : list VarV) old new vo vn x rk i j : table_wf vs ->
  vs !! idx old = Some vo -> vs !! idx new = Some vn -> idx old <> idx new ->
  idx (parent vo) = idx old -> idx (parent vn) = idx new ->
  root_of vs i (idx old) -> root_of vs j (idx new) -> merged vs (joined vs old new vo vn x rk) i j x.
Proof.
  intros Hw Ho Hn Hne Hpo Hpn Hi Hj. set (vs' := joined _ _ _ _ _ _ _).
  assert (Hfw : forall p r, root_of vs p r -> root_of vs' p (if decide (r = idx old) then idx new else r))
    by (intros p r; by apply joined_root_of).
  assert (Hbw : forall p r', root_of vs' p r' -> exists r, root_of vs p r /\ r' = if decide (r = idx old) then idx new else r)
    by (intros p r'; by apply joined_root_of_inv).
  split.
  - apply joined_len.
  - intros p q. rewrite !(same_class_root vs _ i _ Hi), !(same_class_root vs _ j _ Hj). split.
    + intros (r' & (rp & Hp & ->)%Hbw & (rq & Hq & E1)%Hbw).
      destruct (decide (rp = idx old)) as [->|Np], (decide (rq = idx old)) as [->|Nq].
      * left. by exists (idx old).
      * subst rq. right. left. split; [done|]. by exists (idx new).
      * subst rp. right. right. split; [done|]. by exists (idx old).
      * subst rq. left. by exists rp.
    + intros [(r & Hp & Hq)|[[Hp Hq]|[Hp Hq]]].
      * eexists. split; by eapply Hfw.
      * apply same_class_sym, (same_class_root vs _ j _ Hj) in Hq. exists (idx new). apply Hfw in Hp, Hq.
        rewrite decide_True in Hp by done. rewrite decide_False in Hq by congruence. done.
      * apply same_class_sym, (same_class_root vs _ i _ Hi) in Hq. exists (idx new). apply Hfw in Hp, Hq.
        rewrite decide_True in Hq by done. rewrite decide_False in Hp by congruence. done.
  - intros p Hp. rewrite (same_class_root vs _ i _ Hi), (same_class_root vs _ j _ Hj) in Hp.
    exists (idx new), (root rk x vn). split; [|split; [by eapply joined_new|done]].
    destruct Hp as [Hp|Hp]; apply Hfw in Hp; [by rewrite decide_True in Hp|by rewrite decide_False in Hp by congruence].
  - intros p y. rewrite (same_class_root vs _ i _ Hi), (same_class_root vs _ j _ Hj). intros Hpo' Hpn'.
    split.
    + intros (r & v & Hr & Hv & Hy). exists r, v. assert (r <> idx old) by (intros ->; done). assert (r <> idx new) by (intros ->; done).
      apply Hfw in Hr. rewrite decide_False in Hr by done. split; [done|]. split; [|done]. unfold vs'. by rewrite joined_other.
    + intros (r' & v & (r & Hr & ->)%Hbw & Hv & Hy). assert (r <> idx old) by (intros ->; done). assert (r <> idx new) by (intros ->; done).
      rewrite decide_False in Hv by done. unfold vs' in Hv. rewrite joined_other in Hv by done. by exists r, v.
Qed.

Lemma redirect_root_ok (t : Table) rk old new vo vn x :
  values t !! idx old = Some vo -> values t !! idx new = Some vn -> idx old <> idx new ->
  exists t', redirect_root t rk old new x = Ret t' /\ values t' = joined (values t) old new vo vn x rk /\ logged t t'.
Proof.
  intros Ho Hn Hne. unfold redirect_root, update_value.
  destruct (update_ok t (idx old) (redirect new) vo Ho) as (t1 & -> & V1 & L1). cbn [obind].
  destruct (update_ok t1 (idx new) (root rk x) vn) as (t2 & -> & V2 & L2); [by rewrite V1, list_lookup_insert_ne|].
  exists t2. split; [done|]. split; [by rewrite V2, V1|by etrans].
Qed.

(** What [unify_roots] leaves, whichever of the two roots it keeps. *)
Definition roots_joined (t t' : Table) (a b : K) (x : V) : Prop :=
  table_wf (values t') /\ logged t t' /\
  forall i j, root_of (values t) i (idx a) -> root_of (values t) j (idx b) -> merged (values t) (values t') i j x.

Lemma roots_joined_sym t t' a b x : roots_joined t t' b a x -> roots_joined t t' a b x.
Proof. intros (Hw & Hl & Hm). split; [done|]. split; [done|]. intros i j Hi Hj. apply merged_sym. by apply Hm. Qed.

Lemma keep_root (t : Table) old new vo vn x rk : table_wf (values t) ->
  values t !! idx old = Some vo -> values t !! idx new = Some vn -> idx old <> idx new ->
  idx (parent vo) = idx old -> idx (parent vn) = idx new ->
  rk = Z.max (rank vn) (rank vo + 1) ->
  exists t', redirect_root t (wrap_u32 rk) old new x = Ret t' /\ roots_joined t t' old new x.
Proof.
  intros Hw Ho Hn Hne Hpo Hpn Hrk.
  pose proof (wf_bound _ Hw _ _ Ho). pose proof (wf_bound _ Hw _ _ Hn).
  assert (Hm : wrap_u32 rk = rk).
  { assert (rk <= u32_max) by (eapply (join_rank_u32 (values t) old new vo vn x rk); eauto; lia).
    unfold wrap_u32, u32_max in *. rewrite Z.mod_small; lia. }
  rewrite Hm. destruct (redirect_root_ok t rk old new vo vn x Ho Hn Hne) as (t' & Hr & Hv & Hl).
  exists t'. split; [done|]. split; [rewrite Hv; eapply joined_wf; eauto; lia|]. split; [done|].
  intros i j Hi Hj. rewrite Hv. by eapply joined_merged.
Qed.

Lemma unify_roots_ok (t : Table) a b va vb x : table_wf (values t) ->
  values t !! idx a = Some va -> values t !! idx b = Some vb -> a <> b ->
  idx (parent va) = idx a -> idx (parent vb) = idx b ->
  exists t', unify_roots t a b x = Ret t' /\ roots_joined t t' a b x.
Proof.
  intros Hw Ha Hb Hab Hpa Hpb. assert (Hne : idx a <> idx b) by (intros Hi%idx_inj; done).
  pose proof (wf_bound _ Hw _ _ Ha) as Ba. pose proof (wf_bound _ Hw _ _ Hb) as Bb.
  (* either root may be kept, with a rank above the other's *)
  assert (HA : exists t', redirect_root t (wrap_u32 (Z.max (rank va) (rank vb + 1))) b a x = Ret t' /\ roots_joined t t' a b x).
  { destruct (keep_root t b a vb va x _ Hw Hb Ha (not_eq_sym Hne) Hpb Hpa eq_refl) as (t' & Hr & Hj).
    exists t'. split; [done|]. by apply roots_joined_sym. }
  assert (HB : exists t', redirect_root t (wrap_u32 (Z.max (rank vb) (rank va + 1))) a b x = Ret t' /\ roots_joined t t' a b x).
  { by apply (keep_root t a b va vb x _ Hw Ha Hb Hne Hpa Hpb). }
  pose proof (wf_len _ Hw) as Hlen. pose proof (key_limit_u32 (K := K) (V := V)) as Hu.
  assert (Hroots : 1 <= roots (values t)) by (eapply (roots_from_pos 0); [exact Ha|by apply is_root_true]).
  assert (Hs : forall z, 0 <= z <= Z.of_nat (length (values t)) - roots (values t) -> wrap_u32 z = z)
    by (intros z Hz; unfold wrap_u32, u32_max in *; rewrite Z.mod_small; lia).
  unfold unify_roots, table_value, sv_get. rewrite Ha, Hb. cbn [unwrap obind].
  destruct (order_roots a (value va) b (value vb)) as [[nr rd]|] eqn:Eo.
  - destruct (order_roots_keys _ _ _ _ _ _ Eo) as [[= -> ->]|[= -> ->]].
    + rewrite decide_True by done. destruct (Z.ltb_spec (rank vb) (rank va)) as [Hlt|Hge].
      * rewrite Z.max_l in HA by lia. by rewrite Hs in HA.
      * by rewrite Z.max_r in HA by lia.
    + rewrite decide_False by congruence. destruct (Z.ltb_spec (rank va) (rank vb)) as [Hlt|Hge].
      * rewrite Z.max_l in HB by lia. by rewrite Hs in HB.
      * by rewrite Z.max_r in HB by lia.
  - destruct (Z.ltb_spec (rank vb) (rank va)) as [Hlt|Hge].
    { rewrite Z.max_l in HA by lia. by rewrite Hs in HA. }
    destruct (Z.ltb_spec (rank va) (rank vb)) as [Hlt|Hge'].
    + rewrite Z.max_l in HB by lia. by rewrite Hs in HB.
    + by rewrite Z.max_r in HB by lia.
Qed.

(** ** The operations on keys *)

Lemma merged_compressed vs vs1 vs2 i j x : compressed vs vs1 -> merged vs1 vs2 i j x -> merged vs vs2 i j x.
Proof.
  intros Hc [Hl Hm Hv Ho]. split.
  - rewrite Hl. apply Hc.
  - intros p q. rewrite Hm, !(compressed_class _ _ _ _ Hc). done.
  - intros p Hp. apply Hv. by rewrite <- !(compressed_class _ _ _ _ Hc).
  - intros p y H1 H2. rewrite (compressed_value _ _ _ _ Hc). apply Ho; by rewrite <- (compressed_class _ _ _ _ Hc).
Qed.

(** What joining the classes of [a] and [b] must do. *)
Definition joins (vs vs' : list VarV) (a b : K) (res : E + unit) : Prop :=
  (same_class vs (idx a) (idx b) /\ res = inr tt /\ compressed vs vs') \/
  (~ same_class vs (idx a) (idx b) /\ exists va vb, class_value vs (idx a) va /\ class_value vs (idx b) vb /\
     match unify_values va vb with
     | inl err => res = inl err /\ compressed vs vs'
     | inr x => res = inr tt /\ merged vs vs' (idx a) (idx b) x
     end).

Lemma unify_var_var_ok (t : Table) a b : table_wf (values t) ->
  (idx a < length (values t))%nat -> (idx b < length (values t))%nat ->
  exists res t', unify_var_var t a b = Ret (res, t') /\ table_wf (values t') /\ logged t t'
    /\ joins (values t) (values t') a b res.
Proof.
  intros Hw Ha Hb. unfold unify_var_var.
  destruct (find_ok t a Hw Ha) as (ra & t1 & -> & Ra & Hw1 & Hc1 & Hl1). cbn [obind].
  destruct (find_ok t1 b Hw1) as (rb & t2 & -> & Rb & Hw2 & Hc2 & Hl2); [by rewrite (cp_len _ _ Hc1)|]. cbn [obind].
  assert (Hc : compressed (values t) (values t2)) by by etrans. assert (Hl : logged t t2) by by etrans.
  apply (cp_roots _ _ Hc1) in Rb.
  destruct (decide (ra = rb)) as [->|Hne].
  { exists (inr tt), t2. split; [done|]. split; [done|]. split; [done|]. left. split; [by exists (idx rb)|done]. }
  assert (Hns : ~ same_class (values t) (idx a) (idx b)).
  { intros Hs%(same_class_root _ _ _ _ Rb). pose proof (root_of_fun _ _ _ _ Ra Hs) as Hi. by apply idx_inj in Hi. }
  destruct (root_entry t t2 a ra Hc Ra) as (va & -> & Va & Pa & Ca). destruct (root_entry t t2 b rb Hc Rb) as (vb & -> & Vb & Pb & Cb).
  cbn [obind]. destruct (unify_values (value va) (value vb)) as [err|x] eqn:Eu.
  - exists (inl err), t2. split; [done|]. split; [done|]. split; [done|]. right. split; [done|].
    exists (value va), (value vb). by rewrite Eu.
  - destruct (unify_roots_ok t2 ra rb va vb x Hw2 Va Vb Hne Pa Pb) as (t3 & -> & Hw3 & Hl3 & Hm). cbn [obind].
    exists (inr tt), t3. split; [done|]. split; [done|]. split; [by etrans|]. right. split; [done|].
    exists (value va), (value vb). rewrite Eu. split; [done|]. split; [done|]. split; [done|].
    apply (merged_compressed _ _ _ _ _ _ Hc). apply Hm; by apply (cp_roots _ _ Hc).
Qed.

(** The class of [i] got the value [x]; the classes and the other values are as before. *)
Record assigned (vs vs' : list VarV) (i : nat) (x : V) : Prop := {
  as_len : length vs' = length vs;
  as_roots : forall p r, root_of vs p r <-> root_of vs' p r;
  as_value : forall p, same_class vs p i -> class_value vs' p x;
  as_others : forall p y, ~ same_class vs p i -> class_value vs p y <-> class_value vs' p y;
}.

(** Roots depend only on the redirects. *)
Lemma root_of_parents (vs vs' : list VarV) i r : (forall j, parent <$> vs !! j = parent <$> vs' !! j) ->
  root_of vs i r -> root_of vs' i r.
Proof.
  intros HP. induction 1 as [i v Hv Hp|i v r Hv Hp _ IH]; specialize (HP i); rewrite Hv in HP;
    destruct (vs' !! i) as [v'|] eqn:Hv'; try done; injection HP as HP.
  - econstructor; [exact Hv'|]. by rewrite <- HP.
  - eapply root_next; [exact Hv'|by rewrite <- HP|by rewrite <- HP].
Qed.

Lemma set_value_assigned (vs : list VarV) k v x i : table_wf vs -> vs !! idx k = Some v -> idx (parent v) = idx k ->
  root_of vs i (idx k) ->
  table_wf (<[idx k := set_value x v]> vs) /\ assigned vs (<[idx k := set_value x v]> vs) i x.
Proof.
  intros Hw Hk Hp Hi. set (vs' := <[idx k := set_value x v]> vs).
  assert (Hkk : vs' !! idx k = Some (set_value x v)) by (apply list_lookup_insert_eq; by eapply lookup_lt_Some).
  assert (Hkj : forall j, j <> idx k -> vs' !! j = vs !! j) by (intros j Hj; by apply list_lookup_insert_ne).
  assert (Hlen : length vs' = length vs) by apply length_insert.
  assert (HP : forall j, parent <$> vs !! j = parent <$> vs' !! j).
  { intros j. destruct (decide (j = idx k)) as [->|Hj]; [by rewrite Hk, Hkk|by rewrite Hkj]. }
  assert (HE : forall j w, vs' !! j = Some w -> exists w0, vs !! j = Some w0 /\ parent w0 = parent w /\ rank w0 = rank w).
  { intros j w Hj. destruct (decide (j = idx k)) as [->|Hn]; [|rewrite Hkj in Hj by done; eauto].
    rewrite Hkk in Hj. injection Hj as <-. eauto. }
  assert (HR : roots vs' = roots vs) by (unfold vs'; rewrite (roots_insert vs (idx k) v) by done; unfold is_root_at; cbn [set_value parent]; lia).
  split; split.
  - rewrite Hlen. apply Hw.
  - rewrite Hlen. intros j w (w0 & Hj & <- & _)%HE. by eapply wf_parent.
  - intros j w y (w0 & Hj & Ep & <-)%HE Hjp (y0 & Hy & _ & <-)%HE. rewrite <- Ep in *. by eapply wf_rank.
  - rewrite Hlen, HR. intros j w (w0 & Hj & _ & <-)%HE. by eapply wf_bound.
  - done.
  - intros p r. split; apply root_of_parents; [done|by symmetry].
  - intros p Hs%(same_class_root _ _ _ _ Hi). exists (idx k), (set_value x v). split; [|done]. by apply (root_of_parents vs).
  - intros p y Hs. rewrite (same_class_root _ _ _ _ Hi) in Hs. split; intros (r & w & Hr & Hv & Hy).
    + exists r, w. split; [by apply (root_of_parents vs)|]. rewrite Hkj; [done|]. intros ->. done.
    + apply (root_of_parents vs' vs) in Hr; [|by symmetry]. exists r, w. split; [done|]. rewrite Hkj in Hv; [done|]. intros ->. done.
Qed.

Definition assigns (vs vs' : list VarV) (a : K) (b : V) (res : E + unit) : Prop :=
  exists va, class_value vs (idx a) va /\
    match unify_values va b with
    | inl err => res = inl err /\ compressed vs vs'
    | inr x => res = inr tt /\ assigned vs vs' (idx a) x
    end.

Lemma assigned_compressed vs vs1 vs2 i x : compressed vs vs1 -> assigned vs1 vs2 i x -> assigned vs vs2 i x.
Proof.
  intros Hc [Hl Hr Hv Ho]. split.
  - rewrite Hl. apply Hc.
  - intros p r. by rewrite (cp_roots _ _ Hc).
  - intros p Hp. apply Hv. by rewrite <- (compressed_class _ _ _ _ Hc).
  - intros p y Hp. rewrite (compressed_value _ _ _ _ Hc). apply Ho. by rewrite <- (compressed_class _ _ _ _ Hc).
Qed.

Lemma unify_var_value_ok (t : Table) a b : table_wf (values t) -> (idx a < length (values t))%nat ->
  exists res t', unify_var_value t a b = Ret (res, t') /\ table_wf (values t') /\ logged t t'
    /\ assigns (values t) (values t') a b res.
Proof.
  intros Hw Ha. unfold unify_var_value.
  destruct (find_ok t a Hw Ha) as (ra & t1 & -> & Ra & Hw1 & Hc1 & Hl1). cbn [obind].
  destruct (root_entry t t1 a ra Hc1 Ra) as (va & -> & Va & Pa & Ca). cbn [obind].
  destruct (unify_values (value va) b) as [err|x] eqn:Eu.
  - exists (inl err), t1. split; [done|]. split; [done|]. split; [done|]. exists (value va). by rewrite Eu.
  - unfold update_value. destruct (update_ok t1 (idx ra) (set_value x) va Va) as (t2 & -> & V2 & L2). cbn [obind].
    destruct (set_value_assigned (values t1) ra va x (idx a) Hw1 Va Pa) as [Hw2 Has]; [by apply (cp_roots _ _ Hc1)|].
    exists (inr tt), t2. rewrite V2. split; [done|]. split; [done|]. split; [by etrans|].
    exists (value va). rewrite Eu. split; [done|]. split; [done|]. by eapply assigned_compressed.
Qed.

Lemma probe_value_ok (t : Table) k : table_wf (values t) -> (idx k < length (values t))%nat ->
  exists x t', probe_value t k = Ret (x, t') /\ table_wf (values t') /\ logged t t'
    /\ compressed (values t) (values t') /\ class_value (values t) (idx k) x.
Proof.
  intros Hw Hk. unfold probe_value. destruct (find_ok t k Hw Hk) as (r & t1 & -> & R & Hw1 & Hc1 & Hl1). cbn [obind].
  destruct (root_entry t t1 k r Hc1 R) as (v & -> & _ & _ & C). cbn [obind]. exists (value v), t1. done.
Qed.

(** ** New keys and resets *)

Lemma key_of_len n : (n < Z.to_nat (key_limit (K := K) (V := V)))%nat ->
  idx (from_index (wrap_u32 (Z.of_nat n)) : K) = n.
Proof.
  intros Hn. pose proof (key_limit_u32 (K := K) (V := V)). unfold idx, wrap_u32, u32_max in *.
  rewrite Z.mod_small by lia. rewrite index_from_index by lia. lia.
Qed.

Lemma new_key_ok (t : Table) x : table_wf (values t) -> Z.of_nat (length (values t)) < key_limit (K := K) (V := V) ->
  let '(k, t') := new_key t x in
  idx k = length (values t) /\ table_wf (values t') /\ logged t t'
  /\ length (values t') = S (length (values t)) /\ root_of (values t') (idx k) (idx k) /\ class_value (values t') (idx k) x
  /\ forall i r, (i < length (values t))%nat -> root_of (values t) i r <-> root_of (values t') i r.
Proof.
  intros Hw Hlim. unfold new_key. set (k := from_index _). set (t' := (sv_push t (new_var k x)).2).
  assert (Hk : idx k = length (values t)) by (apply key_of_len; lia).
  set (vs := values t) in *. assert (Hv : values t' = vs ++ [new_var k x]) by done.
  assert (Hnew : values t' !! idx k = Some (new_var k x)) by (rewrite Hv, Hk; by apply list_lookup_middle).
  assert (Hlow : forall i, (i < length vs)%nat -> values t' !! i = vs !! i) by (intros i Hi; rewrite Hv; by apply lookup_app_l).
  assert (Hcase : forall i w, values t' !! i = Some w -> vs !! i = Some w \/ (i = idx k /\ w = new_var k x)).
  { intros i w Hi. destruct (decide (i < length vs)%nat) as [Hl|Hl]; [left; by rewrite <- Hlow|right].
    assert (i = idx k) as -> by (apply lookup_lt_Some in Hi; rewrite Hv, length_app in Hi; simpl in Hi; lia).
    split; congruence. }
  assert (Hlen : length (values t') = S (length vs)) by (rewrite Hv, length_app; simpl; lia).
  assert (HR : roots (values t') = roots vs + 1).
  { unfold roots. rewrite Hv, roots_from_snoc. cbn [Nat.add]. rewrite (proj2 (is_root_true _ _)) by done. done. }
  assert (Hroot : root_of (values t') (idx k) (idx k)) by (econstructor; [exact Hnew|done]).
  assert (Hfw : forall i r, root_of vs i r -> root_of (values t') i r).
  { induction 1 as [i v Hi Hp|i v r Hi Hp _ IH].
    - econstructor; [|exact Hp]. rewrite Hlow; [done|by eapply lookup_lt_Some].
    - eapply root_next; [|exact Hp|exact IH]. rewrite Hlow; [done|by eapply lookup_lt_Some]. }
  split; [done|]. split; [|split; [apply push_logged|split; [done|split; [done|split]]]].
  - split.
    + rewrite Hlen. lia.
    + rewrite Hlen. intros i w [Hi|[-> ->]]%Hcase; [pose proof (wf_parent _ Hw _ _ Hi); lia|cbn [new_var parent]; lia].
    + intros i w y [Hi|[-> ->]]%Hcase Hp Hy; [|done]. rewrite Hlow in Hy by by apply (wf_parent _ Hw i w). by eapply wf_rank.
    + rewrite Hlen, HR. intros i w [Hi|[-> ->]]%Hcase; [pose proof (wf_bound _ Hw _ _ Hi); lia|]. cbn [new_var rank].
      pose proof (roots_from_le 0 vs). unfold roots. lia.
  - by exists (idx k), (new_var k x).
  - intros i r Hi. split; [apply Hfw|]. intros Hr. destruct (root_of_exists vs i Hw Hi) as [r0 Hr0].
    by rewrite (root_of_fun _ _ _ _ Hr (Hfw _ _ Hr0)).
Qed.

Lemma reset_ok (t : Table) f : table_wf (values t) ->
  exists t', reset_unifications t f = Ret t' /\ table_wf (values t') /\ logged t t'
    /\ length (values t') = length (values t)
    /\ forall k, (idx k < length (values t))%nat -> root_of (values t') (idx k) (idx k) /\ class_value (values t') (idx k) (f k).
Proof.
  intros Hw. unfold reset_unifications. set (g := fun i : nat => _).
  destruct (set_all_ok t g) as (t' & -> & Hv & Hl). exists t'.
  assert (Hlen : length (values t') = length (values t)) by (rewrite Hv; apply length_imap).
  pose proof (wf_len _ Hw) as Hlim.
  assert (Hg : forall i w, values t' !! i = Some w -> w = g i /\ idx (parent w) = i).
  { intros i w Hi. pose proof (lookup_lt_Some _ _ _ Hi) as Hil. rewrite Hv, list_lookup_imap in Hi.
    destruct (values t !! i) as [u|]; [|done]. injection Hi as <-. split; [done|]. apply key_of_len. lia. }
  assert (HR : roots (values t') = Z.of_nat (length (values t'))).
  { apply roots_from_all. intros j v Hj. apply is_root_true. by apply Hg. }
  split; [done|]. split; [|split; [done|split; [done|]]].
  - split; [by rewrite Hlen| | |].
    + intros i w Hi. destruct (Hg i w Hi) as [_ ->]. by eapply lookup_lt_Some.
    + intros i w y Hi Hp. by destruct (Hg i w Hi) as [_ ?].
    + intros i w Hi. destruct (Hg i w Hi) as [-> _]. cbn [g new_var rank]. rewrite HR. lia.
  - intros k Hk. rewrite <- Hlen in Hk. destruct (lookup_lt_is_Some_2 _ _ Hk) as [w Hwk]. destruct (Hg _ _ Hwk) as [Ew Hp].
    assert (Hr : root_of (values t') (idx k) (idx k)) by by econstructor. split; [done|].
    exists (idx k), w. split; [done|]. split; [done|]. rewrite Ew. cbn [g new_var value]. f_equal.
    apply idx_inj. rewrite <- Hp at 2. by rewrite Ew.
Qed.

(** ** The table as a state machine

    A client calls the operations in any order, on any keys, and ends its snapshots innermost first.
    The third component records, for the proofs only, the table at each open snapshot. *)

Abbreviation Token := (VecSnapshot Snapshot).
Definition config : Type := Table * list Token * list (list VarV).

Inductive step : config -> config -> Prop :=
| step_new_key t toks st x k t' : Z.of_nat (length (values t)) < key_limit (K := K) (V := V) ->
    new_key t x = (k, t') -> step (t, toks, st) (t', toks, st)
| step_reset t toks st f t' : reset_unifications t f = Ret t' -> step (t, toks, st) (t', toks, st)
| step_find t toks st k r t' : find t k = Ret (r, t') -> step (t, toks, st) (t', toks, st)
| step_probe t toks st k x t' : probe_value t k = Ret (x, t') -> step (t, toks, st) (t', toks, st)
| step_unify t toks st a b res t' : unify_var_var t a b = Ret (res, t') -> step (t, toks, st) (t', toks, st)
| step_assign t toks st a x res t' : unify_var_value t a x = Ret (res, t') -> step (t, toks, st) (t', toks, st)
| step_snapshot t toks st tok t' : table_snapshot t = (tok, t') -> step (t, toks, st) (t', tok :: toks, values t :: st)
| step_rollback t tok toks saved st t' : table_rollback_to t tok = Ret t' ->
    step (t, tok :: toks, saved :: st) (t', toks, st)
| step_commit t tok toks saved st t' : table_commit t tok = Ret t' ->
    step (t, tok :: toks, saved :: st) (t', toks, st).

Definition empty_table : Table := mkSnapshotVec [] veclog_default.
Definition reachable (c : config) : Prop := rtc step (empty_table, [], []) c.

Definition config_ok (c : config) : Prop :=
  let '(t, toks, st) := c in table_wf (values t) /\ Forall table_wf st /\ saved_in t toks st.

Lemma find_in_range (t : Table) k q : uninlined_get_root_key t k = Ret q -> (idx k < length (values t))%nat.
Proof.
  unfold uninlined_get_root_key. cbn [get_root_key]. unfold table_value, sv_get. intros Hq.
  destruct (values t !! idx k) as [v|] eqn:Ev; [by eapply lookup_lt_Some|done].
Qed.

Lemma config_logged (t t' : Table) toks st : config_ok (t, toks, st) -> table_wf (values t') -> logged t t' ->
  config_ok (t', toks, st).
Proof. intros (_ & Hst & Hs) Hw Hl. split; [done|]. split; [done|]. by apply Hl. Qed.

Lemma step_ok c c' : step c c' -> config_ok c -> config_ok c'.
Proof.
  intros Hs Hc. destruct Hs as [t toks st x k t' Hlim Hn|t toks st f t' Hr|t toks st k r t' Hf|t toks st k x t' Hp|t toks st a b res t' Hu
    |t toks st a x res t' Hu|t toks st tok t' Hn|t tok toks saved st t' Hr|t tok toks saved st t' Hr]; pose proof Hc as (Hw & Hst & Hsv).
  - pose proof (new_key_ok t x Hw Hlim) as HN. rewrite Hn in HN. destruct HN as (_ & Hw' & Hl & _). by eapply config_logged.
  - destruct (reset_ok t f Hw) as (t1 & E1 & Hw1 & Hl1 & _). rewrite Hr in E1. injection E1 as <-. by eapply config_logged.
  - destruct (find_ok t k Hw (find_in_range _ _ _ Hf)) as (r1 & t1 & E1 & _ & Hw1 & _ & Hl1). unfold find in Hf.
    rewrite Hf in E1. injection E1 as _ <-. by eapply config_logged.
  - assert (Hk : (idx k < length (values t))%nat).
    { unfold probe_value in Hp. apply obind_ret in Hp as (q & Hq & _). by eapply find_in_range. }
    destruct (probe_value_ok t k Hw Hk) as (x1 & t1 & E1 & Hw1 & Hl1 & _). rewrite Hp in E1. injection E1 as _ <-. by eapply config_logged.
  - assert (Hk : (idx a < length (values t))%nat /\ (idx b < length (values t))%nat).
    { unfold unify_var_var in Hu. apply obind_ret in Hu as ([ra t1] & Ha & Hu). pose proof (find_in_range _ _ _ Ha) as Hal.
      destruct (find_ok t a Hw Hal) as (r1 & t2 & E1 & _ & _ & Hc1 & _). rewrite Ha in E1. injection E1 as <- <-.
      apply obind_ret in Hu as (q & Hb & _). apply find_in_range in Hb. by rewrite (cp_len _ _ Hc1) in Hb. }
    destruct Hk as [Ha Hb]. destruct (unify_var_var_ok t a b Hw Ha Hb) as (r1 & t1 & E1 & Hw1 & Hl1 & _).
    rewrite Hu in E1. injection E1 as _ <-. by eapply config_logged.
  - assert (Hk : (idx a < length (values t))%nat).
    { unfold unify_var_value in Hu. apply obind_ret in Hu as (q & Hq & _). by eapply find_in_range. }
    destruct (unify_var_value_ok t a x Hw Hk) as (r1 & t1 & E1 & Hw1 & Hl1 & _). rewrite Hu in E1. injection E1 as _ <-. by eapply config_logged.
  - pose proof (start_saved t toks st Hsv) as HS. unfold table_snapshot in Hn. rewrite Hn in HS. destruct HS as (Hv & _ & HS).
    split; [by rewrite Hv|]. split; [by constructor|done].
  - apply Forall_cons in Hst as [Hw0 Hst]. destruct (rollback_saved t tok toks saved st Hsv) as (t1 & E1 & Hv & HS).
    unfold table_rollback_to in Hr. rewrite Hr in E1. injection E1 as <-. split; [by rewrite Hv|done].
  - apply Forall_cons in Hst as [Hw0 Hst]. destruct (commit_saved t tok toks saved st Hsv) as (t1 & E1 & Hv & HS).
    unfold table_commit in Hr. rewrite Hr in E1. injection E1 as <-. split; [by rewrite Hv|done].
Qed.

Lemma reachable_ok c : reachable c -> config_ok c.
Proof.
  intros Hr. assert (H0 : config_ok (empty_table, [], [])).
  { split; [|split; [constructor|]].
    - split; cbn; [apply key_limit_u32|done|done|done].
    - split; [constructor|done]. }
  revert H0. unfold reachable in Hr. induction Hr as [c|c1 c2 c3 H12 _ IH]; [done|]. intros H1. apply IH. by eapply step_ok.
Qed.

(** ** The claims *)

(** [find] of a key of the table returns the root of its class; following redirects and
    compressing the path changes no class, no value and no rank, keeps the invariant (ranks grow along
    redirects, so the search ends), and finding again gives the same key. *)
Theorem find_spec (t : Table) (k : K) : table_wf (values t) -> (idx k < length (values t))%nat ->
  exists r t', find t k = Ret (r, t') /\ root_of (values t) (idx k) (idx r)
    /\ table_wf (values t') /\ compressed (values t) (values t')
    /\ exists t'', find t' k = Ret (r, t'').
Proof.
  intros Hw Hk. destruct (find_ok t k Hw Hk) as (r & t1 & E1 & R1 & Hw1 & Hc1 & _). exists r, t1.
  split; [done|]. split; [done|]. split; [done|]. split; [done|].
  destruct (find_ok t1 k Hw1) as (r2 & t2 & E2 & R2 & _); [by rewrite (cp_len _ _ Hc1)|].
  apply (cp_roots _ _ Hc1) in R2. pose proof (root_of_fun _ _ _ _ R1 R2) as ->%idx_inj. by exists t2.
Qed.

(** C15: [unify_var_var] of two keys of the table returns. Keys already in one class are left there;
    when the values of the two classes do not merge, the error is returned and classes and values are
    untouched, as documented; otherwise exactly the two classes become one, with the merged value,
    whichever root the ranks or [order_roots] choose, and the new rank does not wrap. *)
Theorem unify_var_var_spec (t : Table) (a b : K) : table_wf (values t) ->
  (idx a < length (values t))%nat -> (idx b < length (values t))%nat ->
  exists res t', unify_var_var t a b = Ret (res, t') /\ table_wf (values t') /\ joins (values t) (values t') a b res.
Proof. intros Hw Ha Hb. destruct (unify_var_var_ok t a b Hw Ha Hb) as (res & t' & E1 & Hw' & _ & Hj). eauto. Qed.

(** [unify_var_value] merges a value into the value of the key's class and touches no other
    class; [probe_value] returns the value of the key's class and changes nothing; so a key probed
    after a successful [unify_var_value] has the merged value. *)
Theorem unify_var_value_spec (t : Table) (a : K) (b : V) : table_wf (values t) -> (idx a < length (values t))%nat ->
  exists res t', unify_var_value t a b = Ret (res, t') /\ table_wf (values t') /\ assigns (values t) (values t') a b res
    /\ exists x t'', probe_value t' a = Ret (x, t'') /\ compressed (values t') (values t'')
    /\ match res with
       | inr _ => exists va, class_value (values t) (idx a) va /\ unify_values va b = inr x
       | inl _ => class_value (values t) (idx a) x
       end.
Proof.
  intros Hw Ha. destruct (unify_var_value_ok t a b Hw Ha) as (res & t' & E1 & Hw' & _ & Hj). exists res, t'.
  split; [done|]. split; [done|]. split; [done|]. destruct Hj as (va & Hva & Hj).
  assert (Hl : length (values t') = length (values t)).
  { destruct (unify_values va b); destruct Hj as [_ Hj]; [apply (cp_len _ _ Hj)|apply (as_len _ _ _ _ Hj)]. }
  destruct (probe_value_ok t' a Hw') as (x & t'' & E2 & _ & _ & Hc & Hx); [by rewrite Hl|]. exists x, t''.
  split; [done|]. split; [done|]. destruct (unify_values va b) as [err|y] eqn:Eu; destruct Hj as [-> Hj].
  - by apply (compressed_value _ _ _ _ Hj).
  - exists va. split; [done|]. rewrite Eu. f_equal. eapply class_value_fun; [|exact Hx]. apply (as_value _ _ _ _ Hj).
    destruct Hva as (r & v & Hr & _). by exists r.
Qed.

(** C16: from the empty table, after any operations in any order with snapshots ended innermost first,
    the invariant holds, and the innermost open snapshot can be ended either way without panic: rolling
    back restores the table of the moment it was taken entry by entry, also the redirects that path
    compression changed and without the keys created since; committing keeps the present one. The keys
    created since are those that [vars_since_snapshot] reports. *)
Theorem table_snapshots_sound (t : Table) tok toks saved st : reachable (t, tok :: toks, saved :: st) ->
  table_wf (values t) /\
  (exists t', table_rollback_to t tok = Ret t' /\ values t' = saved) /\
  (exists t', table_commit t tok = Ret t' /\ values t' = values t) /\
  vars_since_snapshot t tok =
    (from_index (wrap_u32 (Z.of_nat (length saved))), from_index (wrap_u32 (Z.of_nat (length (values t))))).
Proof.
  intros (Hw & _ & Hs)%reachable_ok. split; [done|].
  destruct (rollback_saved t tok toks saved st Hs) as (t1 & E1 & V1 & _).
  destruct (commit_saved t tok toks saved st Hs) as (t2 & E2 & V2 & _).
  split; [by exists t1|]. split; [by exists t2|]. destruct Hs as [Hc _]. apply saved_lengths in Hc. injection Hc as Hc _.
  unfold vars_since_snapshot, table_len, sv_len. by rewrite Hc.
Qed.
End Table.

(** C14: a snapshot vector behaves as a vector with a stack of saved copies: for every sequence of
    operations, with snapshots ended innermost first, it panics exactly when an index is out of range,
    its values are those of the specification, where a rollback pops and restores the innermost saved
    vector and a commit forgets it, and each open token counts the values of its saved vector. *)
Theorem snapshot_vec_refines_stack {V U : Type} `{SnapshotVecDelegate V U} (vs : list V) (ops : list (vec_op (V := V))) :
  match run_ops perform_abs ops (vs, []) with
  | Ret (vs', stack) => exists s toks, run_ops (perform (U := U)) ops (mkSnapshotVec vs veclog_default, []) = Ret (s, toks)
                          /\ values s = vs' /\ (value_count <$> toks) = (length <$> stack)
  | Panic => run_ops (perform (U := U)) ops (mkSnapshotVec vs veclog_default, []) = Panic
  | OutOfFuel => False
  end.
Proof.
  assert (HI : implements (U := U) (Ret (mkSnapshotVec vs veclog_default, [])) (Ret (vs, []))).
  { exists (mkSnapshotVec vs veclog_default), []. split; [done|]. split; [done|]. split; [constructor|done]. }
  pose proof (run_ops_ok ops _ _ HI) as HR. unfold run_ops. destruct (fold_left _ ops (Ret (vs, []))) as [[vs' stack]| |]; try done.
  destruct HR as (s & toks & E1 & Hv & Hs & _). exists s, toks. split; [done|]. split; [done|]. by eapply saved_lengths.
Qed.

(** ** Witnesses *)

(** Keys that are [u32]s, with an optional integer each. *)
Record Vid := mkVid { vid : Z; vid_u32 : Is_true ((0 <=? vid) && (vid <=? u32_max)) }.

Lemma vid_eq a b : vid a = vid b -> a = b.
Proof. destruct a as [x px], b as [y py]. cbn. intros ->. f_equal. apply proof_irrel. Qed.

#[export] Instance Vid_eq_dec : EqDecision Vid.
Proof. intros a b. destruct (decide (vid a = vid b)) as [E|E]; [left; by apply vid_eq|right; congruence]. Defined.

Definition vid_of (i : Z) : Vid :=
  match decide (Is_true ((0 <=? i) && (i <=? u32_max))) with left p => mkVid i p | right _ => mkVid 0 I end.

#[export] Instance Vid_key : UnifyKey Vid (option Z) :=
  {| index := vid; from_index := vid_of; order_roots _ _ _ _ := None |}.
#[export] Instance int_value : UnifyValue Z (Z * Z) := eq_unify_values.

#[export] Instance Vid_key_ok : UnifyKeyOk Vid (option Z).
Proof.
  refine {| key_limit := u32_max + 1 |}; cbn.
  - unfold u32_max. lia.
  - intros [x p]. cbn. apply Is_true_true in p. propify. lia.
  - intros [x p]. apply vid_eq. unfold vid_of. cbn. by destruct (decide _).
  - intros i Hi. unfold vid_of. destruct (decide _) as [p|n]; [done|]. destruct n. apply Is_true_true. apply andb_true_intro.
    split; apply Z.leb_le; lia.
  - done.
Defined.

Abbreviation VidTable := (SnapshotVec (VarValue Vid (option Z)) (VecLog (UndoLog (VarValue Vid (option Z)) unit))).

Definition two_keys : VidTable := (new_key (new_key empty_table (Some 7)).2 None).2.

Lemma two_keys_reachable : reachable (two_keys, [], []).
Proof.
  eapply rtc_l; [by apply (step_new_key empty_table [] [] (Some 7) (vid_of 0) (new_key empty_table (Some 7)).2)|].
  eapply rtc_l; [by apply (step_new_key _ [] [] None (vid_of 1) two_keys)|]. apply rtc_refl.
Qed.

Lemma two_keys_wf : table_wf (values two_keys).
Proof. apply (reachable_ok _ two_keys_reachable). Qed.

Lemma find_spec_witness : exists r t', find two_keys (vid_of 1) = Ret (r, t')
  /\ root_of (values two_keys) (idx (vid_of 1)) (idx r) /\ table_wf (values t') /\ compressed (values two_keys) (values t')
  /\ exists t'', find t' (vid_of 1) = Ret (r, t'').
Proof. apply (find_spec two_keys (vid_of 1)); [exact two_keys_wf|vm_compute; lia]. Defined.

Lemma unify_var_var_spec_witness : exists res t', unify_var_var two_keys (vid_of 0) (vid_of 1) = Ret (res, t')
  /\ table_wf (values t') /\ joins (values two_keys) (values t') (vid_of 0) (vid_of 1) res.
Proof. apply (unify_var_var_spec two_keys (vid_of 0) (vid_of 1)); [exact two_keys_wf|vm_compute; lia|vm_compute; lia]. Defined.

Lemma unify_var_value_spec_witness : exists res t', unify_var_value two_keys (vid_of 0) (Some 8) = Ret (res, t')
  /\ table_wf (values t') /\ assigns (values two_keys) (values t') (vid_of 0) (Some 8) res.
Proof.
  destruct (unify_var_value_spec two_keys (vid_of 0) (Some 8)) as (res & t' & H1 & H2 & H3 & _); [exact two_keys_wf|vm_compute; lia|].
  exists res, t'. split; [exact H1|]. split; [exact H2|exact H3].
Defined.

(** The two keys joined within a snapshot. *)
Definition in_two_keys : VidTable := (table_snapshot two_keys).2.
Definition two_keys_token : VecSnapshot Snapshot := (table_snapshot two_keys).1.
Definition two_keys_joined : VidTable :=
  match unify_var_var in_two_keys (vid_of 0) (vid_of 1) with Ret (_, t) => t | _ => in_two_keys end.

Example join_and_probe :
  (let* '(x, _) := probe_value two_keys_joined (vid_of 1) in Ret x) = Ret (Some 7)
  /\ (let* '(r, _) := unify_var_value two_keys_joined (vid_of 1) (Some 8) in Ret r) = Ret (inl (7, 8))
  /\ (let* t := table_rollback_to two_keys_joined two_keys_token in let* '(b, _) := unioned t (vid_of 0) (vid_of 1) in Ret b) = Ret false.
Proof. vm_compute. done. Qed.

Lemma two_keys_joined_reachable : reachable (two_keys_joined, [two_keys_token], [values two_keys]).
Proof.
  unfold reachable. etrans; [exact two_keys_reachable|]. eapply rtc_l; [by apply (step_snapshot two_keys [] [] two_keys_token in_two_keys)|].
  eapply rtc_l; [|apply rtc_refl]. apply (step_unify in_two_keys _ _ (vid_of 0) (vid_of 1) (inr tt)).
  unfold two_keys_joined. destruct (unify_var_var in_two_keys (vid_of 0) (vid_of 1)) as [[[e|[]] t]| |] eqn:Eu; try done;
    exfalso; revert Eu; vm_compute; discriminate.
Qed.

Lemma table_snapshots_sound_witness : exists t', table_rollback_to two_keys_joined two_keys_token = Ret t' /\ values t' = values two_keys.
Proof. apply (table_snapshots_sound two_keys_joined two_keys_token [] (values two_keys) [] two_keys_joined_reachable). Defined.
