(* ===== verification/BitSet.v ===== *)
(** * Bit sets ([src/rustc_index/bit_set.rs])

    The dense bit set, its iterator, and the growable bit set. A set is a vector of 64-bit words; bit
    [i mod 64] of word [i / 64] is the membership of [i]. Index types are [usize]s, modelled as natural
    numbers; words are integers below [2^64]. *)
From Stdlib Require Import ZArith Lia.
From stdpp Require Import base numbers list.
From S2P Require Import Prelude Swar.
Open Scope Z_scope.
Open Scope rust_scope.

Definition WORD_BITS : nat := 64.

(** ** Helpers at the end of the file *)

(** [div_ceil]. *)
Definition num_words (domain_size : nat) : nat := ((domain_size + (WORD_BITS - 1)) / WORD_BITS)%nat.

Definition word_index_and_mask (elem : nat) : nat * Z :=
  ((elem / WORD_BITS)%nat, Z.shiftl 1 (Z.of_nat (elem mod WORD_BITS))).

(** [words[i] = op(words[i])]. *)
Definition update_word (words : list Z) (i : nat) (op : Z -> Z) : outcome (list Z) :=
  let* w := unwrap (words !! i) in Ret (<[i := op w]> words).

Definition clear_excess_bits_in_final_word (domain_size : nat) (words : list Z) : outcome (list Z) :=
  let num_bits_in_final_word := (domain_size mod WORD_BITS)%nat in
  if (0 <? num_bits_in_final_word)%nat then
    let mask := Z.shiftl 1 (Z.of_nat num_bits_in_final_word) - 1 in
    update_word words (length words - 1) (fun w => Z.land w mask)
  else Ret words.

(** [WORD_BITS - 1 - word.leading_zeros()], for a word that is not zero. *)
Definition max_bit (word : Z) : nat := Z.to_nat (Z.log2 word).

(** [u64::count_ones]. *)
Definition word_bits (w : Z) : list nat := filter (fun j => Z.testbit w (Z.of_nat j) = true) (seq 0 WORD_BITS).
Definition count_ones (words : list Z) : nat := sum_list ((fun w => length (word_bits w)) <$> words).

(** [assert_eq!(lhs.len(), rhs.len())], then the loop of [update_words]. *)
Fixpoint update_words_loop (op : Z -> Z -> Z) (lhs rhs : list Z) (changed : Z) : Z * list Z :=
  match lhs, rhs with
  | old_val :: lhs, rhs_val :: rhs =>
      let new_val := op old_val rhs_val in
      let '(changed, lhs) := update_words_loop op lhs rhs (Z.lor changed (Z.lxor old_val new_val)) in
      (changed, new_val :: lhs)
  | _, _ => (changed, lhs)
  end.

Definition update_words (lhs rhs : list Z) (op : Z -> Z -> Z) : outcome (bool * list Z) :=
  let* _ := assert_that (length lhs =? length rhs)%nat in
  let '(changed, lhs) := update_words_loop op lhs rhs 0 in
  Ret (negb (changed =? 0), lhs).

(** ** Ranges *)

Inductive Bound := Included (i : nat) | Excluded (i : nat) | Unbounded.
Record RangeBounds := mkRange { start_bound : Bound; end_bound : Bound }.

(** [None] is an empty range. With an unbounded end and an empty domain, [domain - 1] wraps (or, with
    overflow checks, panics) and the assertion fails; so it does for [0] here. *)
Definition inclusive_start_end (range : RangeBounds) (domain : nat) : outcome (option (nat * nat)) :=
  let start := match start_bound range with Included s => s | Excluded s => S s | Unbounded => O end in
  let end_ := match end_bound range with
              | Included e => Some e
              | Excluded e => match e with O => None | S e => Some e end
              | Unbounded => Some (domain - 1)%nat
              end in
  match end_ with
  | None => Ret None
  | Some end_ =>
      let* _ := assert_that (end_ <? domain)%nat in
      Ret (if (end_ <? start)%nat then None else Some (start, end_))
  end.

(** ** [DenseBitSet] *)

Record DenseBitSet := mkBitSet { domain_size : nat; words : list Z }.

Definition set_words (s : DenseBitSet) (ws : list Z) : DenseBitSet := mkBitSet (domain_size s) ws.

Definition new_empty (d : nat) : DenseBitSet := mkBitSet d (replicate (num_words d) 0).

Definition clear_excess_bits (s : DenseBitSet) : outcome DenseBitSet :=
  let* ws := clear_excess_bits_in_final_word (domain_size s) (words s) in Ret (set_words s ws).

Definition new_filled (d : nat) : outcome DenseBitSet :=
  clear_excess_bits (mkBitSet d (replicate (num_words d) u64_max)).

Definition clear (s : DenseBitSet) : DenseBitSet := set_words s ((fun _ => 0) <$> words s).

Definition count (s : DenseBitSet) : nat := count_ones (words s).

Definition contains (s : DenseBitSet) (elem : nat) : outcome bool :=
  let* _ := assert_that (elem <? domain_size s)%nat in
  let '(word_index, mask) := word_index_and_mask elem in
  let* w := unwrap (words s !! word_index) in
  Ret (negb (Z.land w mask =? 0)).

Definition superset (s other : DenseBitSet) : outcome bool :=
  let* _ := assert_that (domain_size s =? domain_size other)%nat in
  Ret (forallb (fun '(a, b) => Z.land a b =? b) (zip (words s) (words other))).

Definition is_empty (s : DenseBitSet) : bool := forallb (fun a => a =? 0) (words s).

Definition insert (s : DenseBitSet) (elem : nat) : outcome (bool * DenseBitSet) :=
  let* _ := assert_that (elem <? domain_size s)%nat in
  let '(word_index, mask) := word_index_and_mask elem in
  let* word := unwrap (words s !! word_index) in
  let new_word := Z.lor word mask in
  Ret (negb (new_word =? word), set_words s (<[word_index := new_word]> (words s))).

Definition remove (s : DenseBitSet) (elem : nat) : outcome (bool * DenseBitSet) :=
  let* _ := assert_that (elem <? domain_size s)%nat in
  let '(word_index, mask) := word_index_and_mask elem in
  let* word := unwrap (words s !! word_index) in
  let new_word := Z.land word (not_u64 mask) in
  Ret (negb (new_word =? word), set_words s (<[word_index := new_word]> (words s))).

(** [for word_index in i..i + n { self.words[word_index] = !0 }]. *)
Fixpoint fill_words (i n : nat) (ws : list Z) : outcome (list Z) :=
  match n with
  | O => Ret ws
  | S n => let* ws := set_index ws i u64_max in fill_words (S i) n ws
  end.

Definition insert_range (s : DenseBitSet) (elems : RangeBounds) : outcome DenseBitSet :=
  let* r := inclusive_start_end elems (domain_size s) in
  match r with
  | None => Ret s
  | Some (start, end_) =>
      let '(start_word_index, start_mask) := word_index_and_mask start in
      let '(end_word_index, end_mask) := word_index_and_mask end_ in
      let* ws := fill_words (start_word_index + 1) (end_word_index - (start_word_index + 1)) (words s) in
      let* ws :=
        if (start_word_index =? end_word_index)%nat then
          update_word ws start_word_index (fun w => Z.lor w (Z.lor end_mask (wrap_u64 (end_mask - start_mask))))
        else
          let* ws := update_word ws start_word_index (fun w => Z.lor w (not_u64 (wrap_u64 (start_mask - 1)))) in
          update_word ws end_word_index (fun w => Z.lor w (Z.lor end_mask (wrap_u64 (end_mask - 1)))) in
      Ret (set_words s ws)
  end.

Definition insert_all (s : DenseBitSet) : outcome DenseBitSet :=
  clear_excess_bits (set_words s ((fun _ => u64_max) <$> words s)).

Definition contains_any (s : DenseBitSet) (elems : RangeBounds) : outcome bool :=
  let* r := inclusive_start_end elems (domain_size s) in
  match r with
  | None => Ret false
  | Some (start, end_) =>
      let '(start_word_index, start_mask) := word_index_and_mask start in
      let '(end_word_index, end_mask) := word_index_and_mask end_ in
      if (start_word_index =? end_word_index)%nat then
        let* w := unwrap (words s !! start_word_index) in
        Ret (negb (Z.land w (Z.lor end_mask (wrap_u64 (end_mask - start_mask))) =? 0))
      else
        let* w := unwrap (words s !! start_word_index) in
        if negb (Z.land w (not_u64 (wrap_u64 (start_mask - 1))) =? 0) then Ret true
        else if (start_word_index + 1 <=? end_word_index)%nat then
          let* ws := unwrap (get_range (words s) (start_word_index + 1) end_word_index) in
          if existsb (fun w => negb (w =? 0)) ws then Ret true
          else
            let* w := unwrap (words s !! end_word_index) in
            Ret (negb (Z.land w (Z.lor end_mask (wrap_u64 (end_mask - 1))) =? 0))
        else Ret false
  end.

(** The words after [word_index], where [word] is what is left of the word there. *)
Fixpoint first_set_loop (word_index : nat) (word : Z) (rest : list Z) : option nat :=
  if negb (word =? 0) then Some (WORD_BITS * word_index + trailing_zeros word)%nat
  else match rest with
       | [] => None
       | word :: rest => first_set_loop (S word_index) word rest
       end.

Definition first_set_at_or_after (s : DenseBitSet) (elem : nat) : outcome (option nat) :=
  let* _ := assert_that (elem <? domain_size s)%nat in
  let '(word_index, mask) := word_index_and_mask elem in
  let* w := unwrap (words s !! word_index) in
  Ret (first_set_loop word_index (Z.land w (not_u64 (wrap_u64 (mask - 1)))) (drop (S word_index) (words s))).

(** [Iterator::rposition]. *)
Definition rposition {A} (p : A -> bool) (l : list A) : option nat :=
  match position p (reverse l) with Some i => Some (length l - 1 - i)%nat | None => None end.

Definition last_set_in (s : DenseBitSet) (range : RangeBounds) : outcome (option nat) :=
  let* r := inclusive_start_end range (domain_size s) in
  match r with
  | None => Ret None
  | Some (start, end_) =>
      let '(start_word_index, _) := word_index_and_mask start in
      let '(end_word_index, end_mask) := word_index_and_mask end_ in
      let* w := unwrap (words s !! end_word_index) in
      let end_word := Z.land w (Z.lor end_mask (wrap_u64 (end_mask - 1))) in
      let pos := (max_bit end_word + WORD_BITS * end_word_index)%nat in
      if negb (end_word =? 0) && (start <=? pos)%nat then Ret (Some pos)
      else
        let* ws := unwrap (get_range (words s) start_word_index end_word_index) in
        match rposition (fun w => negb (w =? 0)) ws with
        | Some offset =>
            let word_idx := (start_word_index + offset)%nat in
            let* start_word := unwrap (words s !! word_idx) in
            let pos := (max_bit start_word + WORD_BITS * word_idx)%nat in
            Ret (if (start <=? pos)%nat then Some pos else None)
        | None => Ret None
        end
  end.

(** The operations on two sets of one domain. *)
Definition bitwise (op : Z -> Z -> Z) (s other : DenseBitSet) : outcome (bool * DenseBitSet) :=
  let* _ := assert_that (domain_size s =? domain_size other)%nat in
  let* '(changed, ws) := update_words (words s) (words other) op in
  Ret (changed, set_words s ws).

Definition union_not (s other : DenseBitSet) : outcome DenseBitSet :=
  let* '(_, s) := bitwise (fun a b => Z.lor a (not_u64 b)) s other in clear_excess_bits s.
Definition union (s other : DenseBitSet) : outcome (bool * DenseBitSet) := bitwise Z.lor s other.
Definition subtract (s other : DenseBitSet) : outcome (bool * DenseBitSet) :=
  bitwise (fun a b => Z.land a (not_u64 b)) s other.
Definition intersect (s other : DenseBitSet) : outcome (bool * DenseBitSet) := bitwise Z.land s other.

(** ** [BitIter] *)

Record BitIter := mkBitIter { word : Z; offset : Z; rest : list Z }.

(** [usize::MAX - (WORD_BITS - 1)]: the first [wrapping_add] brings it to zero. *)
Definition bit_iter_new (ws : list Z) : BitIter := mkBitIter 0 (u64_max - 63) ws.

Fixpoint bit_iter_next_loop (w off : Z) (ws : list Z) : option (nat * BitIter) :=
  if negb (w =? 0) then
    let bit_pos := trailing_zeros w in
    Some (Z.to_nat (Z.of_nat bit_pos + off), mkBitIter (Z.lxor w (Z.shiftl 1 (Z.of_nat bit_pos))) off ws)
  else match ws with
       | [] => None
       | w :: ws => bit_iter_next_loop w (wrap_u64 (off + 64)) ws
       end.

Definition bit_iter_next (it : BitIter) : option (nat * BitIter) := bit_iter_next_loop (word it) (offset it) (rest it).

(** The items of the iterator; an item per bit is enough fuel. *)
Fixpoint collect (fuel : nat) (it : BitIter) : outcome (list nat) :=
  match bit_iter_next it with
  | None => Ret []
  | Some (i, it) => match fuel with O => OutOfFuel | S f => let* l := collect f it in Ret (i :: l) end
  end.

Definition iter (s : DenseBitSet) : outcome (list nat) :=
  collect (WORD_BITS * length (words s)) (bit_iter_new (words s)).

(** ** [GrowableBitSet], which wraps a [DenseBitSet] *)

(** [SmallVec::resize(n, 0)] of a shorter vector. *)
Definition resize_zero (n : nat) (ws : list Z) : list Z := take n ws ++ replicate (n - length ws) 0.

Definition ensure (s : DenseBitSet) (min_domain_size : nat) : DenseBitSet :=
  let d := if (domain_size s <? min_domain_size)%nat then min_domain_size else domain_size s in
  let min_num_words := num_words min_domain_size in
  mkBitSet d (if (length (words s) <? min_num_words)%nat then resize_zero min_num_words (words s) else words s).

Definition growable_new_empty : DenseBitSet := new_empty 0.
Definition with_capacity (capacity : nat) : DenseBitSet := new_empty capacity.

Definition growable_insert (s : DenseBitSet) (elem : nat) : outcome (bool * DenseBitSet) :=
  insert (ensure s (elem + 1)) elem.
Definition growable_insert_range (s : DenseBitSet) (start end_ : nat) : outcome DenseBitSet :=
  insert_range (ensure s end_) (mkRange (Included start) (Excluded end_)).
Definition growable_remove (s : DenseBitSet) (elem : nat) : outcome (bool * DenseBitSet) :=
  remove (ensure s (elem + 1)) elem.

Definition growable_contains (s : DenseBitSet) (elem : nat) : bool :=
  let '(word_index, mask) := word_index_and_mask elem in
  match words s !! word_index with Some w => negb (Z.land w mask =? 0) | None => false end.

Definition growable_contains_any (s : DenseBitSet) (start end_ : nat) : outcome bool :=
  if (start <? domain_size s)%nat then
    contains_any s (mkRange (Included start) (Excluded (Nat.min end_ (domain_size s))))
  else Ret false.
