(* ===== verification/BitSetFacts.v ===== *)
(** * Bit sets: words, masks, ranges, searches and iteration *)
From Stdlib Require Import ZArith Lia Sorted.
From stdpp Require Import base numbers list.
From S2P Require Import Prelude Swar BitSet RustSlice.
Open Scope Z_scope.
Open Scope rust_scope.

(** ** Words, masks and the set a vector of words denotes *)

(** *** Words *)

Definition is_word (w : Z) : Prop := 0 <= w < 2 ^ 64.

Lemma word_high w n : is_word w -> 64 <= n -> Z.testbit w n = false.
Proof.
  intros [H0 H1] Hn. destruct (Z.eq_dec w 0) as [->|Hw]; [apply Z.bits_0|].
  apply Z.bits_above_log2; [done|]. apply Z.log2_lt_pow2; [lia|]. eapply Z.lt_le_trans; [exact H1|]. apply Z.pow_le_mono_r; lia.
Qed.

Lemma word_of_bits w : 0 <= w -> (forall n, 64 <= n -> Z.testbit w n = false) -> is_word w.
Proof.
  intros H0 Hb. split; [done|]. destruct (Z.eq_dec w 0) as [->|Hw]; [done|]. apply Z.log2_lt_pow2; [lia|].
  destruct (Z.lt_ge_cases (Z.log2 w) 64) as [|Hl]; [done|]. specialize (Hb _ Hl). rewrite Z.bit_log2 in Hb by lia. done.
Qed.

Lemma u64_max_ones : u64_max = Z.ones 64.
Proof. done. Qed.

Lemma not_u64_spec w n : is_word w -> 0 <= n -> Z.testbit (not_u64 w) n = (n <? 64) && negb (Z.testbit w n).
Proof.
  intros Hw Hn. unfold not_u64. rewrite u64_max_ones, Z.sub_nocarry_ldiff.
  - rewrite Z.ldiff_spec, Z.testbit_ones_nonneg by lia. done.
  - apply Z.bits_inj'. intros m Hm. rewrite Z.ldiff_spec, Z.bits_0, Z.testbit_ones_nonneg by lia.
    destruct (Z.ltb_spec m 64); [apply andb_false_r|]. by rewrite word_high.
Qed.

Lemma is_word_not w : is_word w -> is_word (not_u64 w).
Proof. unfold is_word, not_u64, u64_max. intros. lia. Qed.
Lemma is_word_lor a b : is_word a -> is_word b -> is_word (Z.lor a b).
Proof.
  intros Ha Hb. apply word_of_bits; [apply Z.lor_nonneg; split; [apply Ha|apply Hb]|].
  intros n Hn. by rewrite Z.lor_spec, !word_high.
Qed.
Lemma is_word_land a b : is_word a -> is_word b -> is_word (Z.land a b).
Proof.
  intros Ha Hb. apply word_of_bits; [apply Z.land_nonneg; left; apply Ha|].
  intros n Hn. by rewrite Z.land_spec, !word_high.
Qed.
Lemma is_word_zero : is_word 0.
Proof. done. Qed.
Lemma is_word_max : is_word u64_max.
Proof. done. Qed.

Create HintDb word discriminated.
#[export] Hint Resolve is_word_not is_word_lor is_word_land is_word_zero is_word_max : word.

(** A word is zero exactly when it has no bit. *)
Lemma word_zero w : is_word w -> (w =? 0) = true <-> forall j, (j < 64)%nat -> Z.testbit w (Z.of_nat j) = false.
Proof.
  intros Hw. rewrite Z.eqb_eq. split; [intros -> j _; apply Z.bits_0|]. intros Hb. apply Z.bits_inj'. intros n Hn. rewrite Z.bits_0.
  destruct (Z.lt_ge_cases n 64) as [Hl|Hl]; [|by apply word_high]. specialize (Hb (Z.to_nat n)). rewrite Z2Nat.id in Hb by lia. apply Hb. lia.
Qed.

Lemma word_nonzero w : is_word w -> (w =? 0) = false -> exists j, (j < 64)%nat /\ Z.testbit w (Z.of_nat j) = true.
Proof.
  intros Hw Hz. apply Z.eqb_neq in Hz. assert (0 < w) by (destruct Hw; lia). exists (Z.to_nat (Z.log2 w)).
  pose proof (Z.log2_nonneg w). assert (Z.log2 w < 64) by (apply Z.log2_lt_pow2; [lia|apply Hw]).
  split; [lia|]. rewrite Z2Nat.id by done. by apply Z.bit_log2.
Qed.

(** *** Masks *)

Definition bit_mask (n : nat) : Z := Z.shiftl 1 (Z.of_nat n).

Lemma bit_mask_pow n : bit_mask n = 2 ^ Z.of_nat n.
Proof. unfold bit_mask. by rewrite Z.shiftl_1_l. Qed.

Lemma bit_mask_word n : (n < 64)%nat -> is_word (bit_mask n).
Proof. intros Hn. rewrite bit_mask_pow. split; [lia|]. apply Z.pow_lt_mono_r; lia. Qed.

Lemma bit_mask_spec n j : Z.testbit (bit_mask n) (Z.of_nat j) = (j =? n)%nat.
Proof.
  rewrite bit_mask_pow. destruct (Nat.eqb_spec j n) as [->|Hn].
  - apply Z.pow2_bits_true. lia.
  - apply Z.pow2_bits_false. lia.
Qed.

Lemma low_mask n : (n < 64)%nat -> wrap_u64 (bit_mask n - 1) = Z.ones (Z.of_nat n) /\ is_word (Z.ones (Z.of_nat n)).
Proof.
  intros Hn. rewrite bit_mask_pow, Z.ones_equiv. assert (0 < 2 ^ Z.of_nat n < 2 ^ 64) as Hp.
  { split; [lia|]. apply Z.pow_lt_mono_r; lia. }
  unfold is_word, wrap_u64. change (2 ^ 64) with 18446744073709551616 in *. rewrite Z.mod_small by lia. lia.
Qed.

(** [!(mask - 1)]: the bits from [n] on. *)
Lemma from_mask_spec n j : (n < 64)%nat -> (j < 64)%nat ->
  Z.testbit (not_u64 (wrap_u64 (bit_mask n - 1))) (Z.of_nat j) = (n <=? j)%nat.
Proof.
  intros Hn Hj. destruct (low_mask n Hn) as [-> Hw]. rewrite not_u64_spec, Z.testbit_ones_nonneg by (done || lia).
  replace (Z.of_nat j <? 64) with true by (symmetry; apply Z.ltb_lt; lia). cbn [andb].
  destruct (Z.ltb_spec (Z.of_nat j) (Z.of_nat n)), (Nat.leb_spec n j); done || lia.
Qed.

Lemma from_mask_word n : (n < 64)%nat -> is_word (not_u64 (wrap_u64 (bit_mask n - 1))).
Proof. intros Hn. destruct (low_mask n Hn) as [-> Hw]. by apply is_word_not. Qed.

(** [mask | (mask - 1)]: the bits up to [n]. *)
Lemma upto_mask_spec n j : (n < 64)%nat ->
  Z.testbit (Z.lor (bit_mask n) (wrap_u64 (bit_mask n - 1))) (Z.of_nat j) = (j <=? n)%nat.
Proof.
  intros Hn. destruct (low_mask n Hn) as [-> _]. rewrite Z.lor_spec, bit_mask_spec, Z.testbit_ones_nonneg by lia.
  destruct (Nat.eqb_spec j n), (Z.ltb_spec (Z.of_nat j) (Z.of_nat n)), (Nat.leb_spec j n); done || lia.
Qed.

Lemma upto_mask_word n : (n < 64)%nat -> is_word (Z.lor (bit_mask n) (wrap_u64 (bit_mask n - 1))).
Proof. intros Hn. destruct (low_mask n Hn) as [-> Hw]. apply is_word_lor; [by apply bit_mask_word|done]. Qed.

(** [end_mask | (end_mask - start_mask)]: the bits from [a] to [b]. *)
Lemma between_mask_eq a b : (a <= b)%nat -> (b < 64)%nat ->
  wrap_u64 (bit_mask b - bit_mask a) = Z.shiftl (Z.ones (Z.of_nat (b - a))) (Z.of_nat a).
Proof.
  intros Hab Hb. rewrite Z.shiftl_mul_pow2, Z.ones_equiv, !bit_mask_pow by lia.
  replace (2 ^ Z.of_nat b) with (2 ^ Z.of_nat (b - a) * 2 ^ Z.of_nat a) by (rewrite <- Z.pow_add_r by lia; f_equal; lia).
  assert (H1 : 2 ^ Z.of_nat (b - a) * 2 ^ Z.of_nat a < 2 ^ 64) by (rewrite <- Z.pow_add_r by lia; apply Z.pow_lt_mono_r; lia).
  assert (H2 : 1 <= 2 ^ Z.of_nat (b - a)) by (pose proof (Z.pow_pos_nonneg 2 (Z.of_nat (b - a)) ltac:(lia) ltac:(lia)); lia).
  assert (H3 : 1 <= 2 ^ Z.of_nat a) by (pose proof (Z.pow_pos_nonneg 2 (Z.of_nat a) ltac:(lia) ltac:(lia)); lia).
  unfold wrap_u64. change (2 ^ 64) with 18446744073709551616 in *. rewrite Z.mod_small by nia. lia.
Qed.

Lemma between_mask_spec a b j : (a <= b)%nat -> (b < 64)%nat ->
  Z.testbit (Z.lor (bit_mask b) (wrap_u64 (bit_mask b - bit_mask a))) (Z.of_nat j) = (a <=? j)%nat && (j <=? b)%nat.
Proof.
  intros Hab Hb. rewrite between_mask_eq by done. rewrite Z.lor_spec, bit_mask_spec, Z.shiftl_spec by lia.
  destruct (Nat.leb_spec a j) as [Haj|Haj].
  - rewrite Z.testbit_ones_nonneg by lia. destruct (Nat.eqb_spec j b), (Z.ltb_spec (Z.of_nat j - Z.of_nat a) (Z.of_nat (b - a))), (Nat.leb_spec j b); done || lia.
  - rewrite Z.testbit_neg_r by lia. destruct (Nat.eqb_spec j b); done || lia.
Qed.

Lemma between_mask_word a b : (a <= b)%nat -> (b < 64)%nat -> is_word (Z.lor (bit_mask b) (wrap_u64 (bit_mask b - bit_mask a))).
Proof.
  intros Hab Hb. apply is_word_lor; [by apply bit_mask_word|]. unfold wrap_u64. split; [apply Z.mod_pos_bound; lia|].
  apply Z.mod_pos_bound. lia.
Qed.

#[export] Hint Resolve bit_mask_word from_mask_word upto_mask_word between_mask_word : word.

(** *** The set of a vector of words *)

Definition bit (ws : list Z) (i : nat) : bool :=
  match ws !! (i / 64)%nat with Some w => Z.testbit w (Z.of_nat (i mod 64)) | None => false end.

#[export] Instance DenseBitSet_elem_of : ElemOf nat DenseBitSet := fun x s => bit (words s) x = true.

Lemma elem_of_bits x s : x ∈ s <-> bit (words s) x = true.
Proof. done. Qed.

Lemma mod_lt i : (i mod 64 < 64)%nat.
Proof. apply Nat.mod_upper_bound. lia. Qed.
#[export] Hint Resolve mod_lt : word.

Lemma index_and_mask e : word_index_and_mask e = ((e / 64)%nat, bit_mask (e mod 64)).
Proof. done. Qed.

Lemma bit_at k j ws w : ws !! k = Some w -> (j < 64)%nat -> bit ws (64 * k + j) = Z.testbit w (Z.of_nat j).
Proof.
  intros Hk Hj. unfold bit. rewrite Nat.mul_comm, Nat.div_add_l by lia. rewrite Nat.div_small, Nat.add_0_r by done.
  rewrite Hk. do 2 f_equal. rewrite Nat.add_comm, Nat.Div0.mod_add. by apply Nat.mod_small.
Qed.

Lemma split_index i : i = (64 * (i / 64) + i mod 64)%nat.
Proof. apply Nat.div_mod_eq. Qed.

Lemma bit_set_word ws k w w' i : ws !! k = Some w ->
  bit (<[k := w']> ws) i = if decide (i / 64 = k)%nat then Z.testbit w' (Z.of_nat (i mod 64)) else bit ws i.
Proof.
  intros Hk. unfold bit. case_decide as E.
  - subst k. rewrite list_lookup_insert_eq; [done|by eapply lookup_lt_Some].
  - by rewrite list_lookup_insert_ne by done.
Qed.

Lemma bit_lt ws i : bit ws i = true -> (i / 64 < length ws)%nat.
Proof. unfold bit. destruct (ws !! (i / 64)%nat) eqn:E; [|done]. intros _. by eapply lookup_lt_Some. Qed.

Lemma bit_map (ws : list Z) (f : Z -> Z) i : bit (f <$> ws) i = match ws !! (i / 64)%nat with Some w => Z.testbit (f w) (Z.of_nat (i mod 64)) | None => false end.
Proof. unfold bit. rewrite list_lookup_fmap. by destruct (ws !! (i / 64)%nat). Qed.

(** Words are determined by the bits. *)
Lemma word_ext a b : is_word a -> is_word b ->
  (forall j, (j < 64)%nat -> Z.testbit a (Z.of_nat j) = Z.testbit b (Z.of_nat j)) -> a = b.
Proof.
  intros Ha Hb Hj. apply Z.bits_inj'. intros n Hn. destruct (Z.lt_ge_cases n 64) as [Hl|Hl]; [|by rewrite !word_high].
  specialize (Hj (Z.to_nat n) ltac:(lia)). by rewrite !Z2Nat.id in Hj by lia.
Qed.

Lemma words_ext ws ws' : Forall is_word ws -> Forall is_word ws' -> length ws = length ws' ->
  (forall i, bit ws i = bit ws' i) -> ws = ws'.
Proof.
  intros Hw Hw' Hl Hb. apply list_eq_same_length with (length ws); [done|done|]. intros k w w' Hk Hwk Hwk'.
  apply word_ext; [exact (Forall_lookup_1 _ _ _ _ Hw Hwk)|exact (Forall_lookup_1 _ _ _ _ Hw' Hwk')|]. intros j Hj.
  rewrite <- (bit_at k j ws w), <- (bit_at k j ws' w') by done. apply Hb.
Qed.

Record wf (s : DenseBitSet) : Prop := {
  wf_len : length (words s) = num_words (domain_size s);
  wf_word : Forall is_word (words s);
  wf_domain : forall i, bit (words s) i = true -> (i < domain_size s)%nat;
}.

Lemma num_words_lt i d : (i < d)%nat -> (i / 64 < num_words d)%nat.
Proof. intros Hi. unfold num_words, WORD_BITS. apply Nat.Div0.div_lt_upper_bound. pose proof (Nat.div_mod_eq (d + (64 - 1)) 64). pose proof (mod_lt (d + (64 - 1))). lia. Qed.

Lemma num_words_bound d : (d <= 64 * num_words d < d + 64)%nat.
Proof. unfold num_words, WORD_BITS. pose proof (Nat.div_mod_eq (d + (64 - 1)) 64). pose proof (mod_lt (d + (64 - 1))). lia. Qed.

Lemma word_of_elem s i : wf s -> (i < domain_size s)%nat -> exists w, words s !! (i / 64)%nat = Some w /\ is_word w.
Proof.
  intros Hw Hi. destruct (lookup_lt_is_Some_2 (words s) (i / 64)) as [w Hwi]; [rewrite (wf_len s Hw); by apply num_words_lt|].
  exists w. split; [done|]. by eapply Forall_lookup_1; [apply (wf_word s Hw)|].
Qed.

Lemma set_word_ok ws k w' : Forall is_word ws -> is_word w' -> Forall is_word (<[k := w']> ws).
Proof. intros. by apply Forall_insert. Qed.

Lemma land_mask w j : is_word w -> (j < 64)%nat -> negb (Z.land w (bit_mask j) =? 0) = Z.testbit w (Z.of_nat j).
Proof.
  intros Hw Hj. assert (Hm : is_word (Z.land w (bit_mask j))) by auto with word.
  destruct (Z.land w (bit_mask j) =? 0) eqn:Ez; cbn [negb]; symmetry.
  - rewrite word_zero in Ez by done. specialize (Ez j Hj). rewrite Z.land_spec, bit_mask_spec, Nat.eqb_refl, andb_true_r in Ez. done.
  - destruct (word_nonzero _ Hm Ez) as (i & Hi & Hb). rewrite Z.land_spec, bit_mask_spec in Hb. apply andb_true_iff in Hb as [Hb E].
    apply Nat.eqb_eq in E. by subst i.
Qed.

Lemma assert_true b : b = true -> assert_that b = Ret tt.
Proof. by intros ->. Qed.

Lemma dense_contains_ok s i : wf s -> (i < domain_size s)%nat -> contains s i = Ret (bit (words s) i).
Proof.
  intros Hw Hi. unfold contains. rewrite assert_true by by apply Nat.ltb_lt. cbn [obind]. rewrite index_and_mask.
  destruct (word_of_elem s i Hw Hi) as (w & Hwi & Hww). rewrite Hwi. cbn [unwrap obind]. unfold bit. rewrite Hwi.
  f_equal. apply land_mask; auto with word.
Qed.

(** Changing one word, at the word of an element. *)
Lemma change_word s i w w' f : wf s -> (i < domain_size s)%nat -> words s !! (i / 64)%nat = Some w -> is_word w' ->
  (forall j, (j < 64)%nat -> Z.testbit w' (Z.of_nat j) = f (64 * (i / 64) + j)%nat (Z.testbit w (Z.of_nat j))) ->
  (forall x b, (x / 64 = i / 64)%nat -> f x b = true -> b = true \/ (x < domain_size s)%nat) ->
  let s' := set_words s (<[(i / 64)%nat := w']> (words s)) in
  wf s' /\ (forall x, bit (words s') x = if decide (x / 64 = i / 64)%nat then f x (bit (words s) x) else bit (words s) x)
  /\ (w' = w <-> forall x, bit (words s') x = bit (words s) x).
Proof.
  intros Hw Hi Hwi Hw' Hf Hd. cbn [set_words words domain_size].
  assert (HB : forall x, bit (<[(i / 64)%nat := w']> (words s)) x = if decide (x / 64 = i / 64)%nat then f x (bit (words s) x) else bit (words s) x).
  { intros x. rewrite (bit_set_word _ _ w) by done. case_decide as E; [|done]. rewrite Hf by apply mod_lt. rewrite <- E.
    rewrite <- (split_index x). unfold bit. rewrite E, Hwi. done. }
  split; [split|split]; cbn [words domain_size set_words].
  - rewrite length_insert. apply Hw.
  - apply set_word_ok; [apply Hw|done].
  - intros x Hx. cbn [words set_words] in Hx. rewrite HB in Hx. case_decide as E; [|by apply (wf_domain s Hw)].
    destruct (Hd x _ E Hx) as [Hb|]; [by apply (wf_domain s Hw)|done].
  - done.
  - split.
    + intros -> x. f_equal. by rewrite list_insert_id.
    + intros Hb. apply word_ext; [done|by eapply Forall_lookup_1; [apply (wf_word s Hw)|]|]. intros j Hj.
      rewrite <- (bit_at (i / 64) j (words s) w), <- Hb by done. symmetry. apply bit_at; [|done].
      apply list_lookup_insert_eq. by eapply lookup_lt_Some.
Qed.

Lemma dense_insert_ok s i : wf s -> (i < domain_size s)%nat ->
  exists c s', insert s i = Ret (c, s') /\ wf s' /\ domain_size s' = domain_size s
    /\ (forall x, x ∈ s' <-> x ∈ s \/ x = i) /\ (c = true <-> ~ i ∈ s).
Proof.
  intros Hw Hi. unfold insert. rewrite assert_true by by apply Nat.ltb_lt. cbn [obind]. rewrite index_and_mask.
  destruct (word_of_elem s i Hw Hi) as (w & Hwi & Hww). rewrite Hwi. cbn [unwrap obind].
  destruct (change_word s i w (Z.lor w (bit_mask (i mod 64))) (fun x b => b || (x =? i)%nat) Hw Hi Hwi) as (Hw' & HB & Hch).
  - auto with word.
  - intros j Hj. rewrite Z.lor_spec, bit_mask_spec. f_equal. pose proof (split_index i).
    destruct (Nat.eqb_spec j (i mod 64)), (Nat.eqb_spec (64 * (i / 64) + j) i); done || lia.
  - intros x b _ Hx. apply orb_true_iff in Hx as [->| ->%Nat.eqb_eq]; auto.
  - eexists _, _. split; [done|]. split; [exact Hw'|]. split; [done|].
    assert (HB' : forall x, x ∈ set_words s (<[(i / 64)%nat := Z.lor w (bit_mask (i mod 64))]> (words s)) <-> x ∈ s \/ x = i).
    { intros x. rewrite elem_of_bits, HB, elem_of_bits. case_decide as E; [by rewrite orb_true_iff, Nat.eqb_eq|]. split; [by left|].
      intros [Hx| ->]; [done|]. done. }
    split; [exact HB'|]. rewrite negb_true_iff, Z.eqb_neq, Hch. split.
    + intros Hn Hb. apply Hn. intros x. rewrite HB. case_decide; [|done]. destruct (Nat.eqb_spec x i) as [->|]; [|apply orb_false_r].
      by rewrite orb_true_r.
    + intros Hn Hb. apply Hn. rewrite elem_of_bits, <- Hb. apply HB'. by right.
Qed.

Lemma dense_remove_ok s i : wf s -> (i < domain_size s)%nat ->
  exists c s', remove s i = Ret (c, s') /\ wf s' /\ domain_size s' = domain_size s
    /\ (forall x, x ∈ s' <-> x ∈ s /\ x <> i) /\ (c = true <-> i ∈ s).
Proof.
  intros Hw Hi. unfold remove. rewrite assert_true by by apply Nat.ltb_lt. cbn [obind]. rewrite index_and_mask.
  destruct (word_of_elem s i Hw Hi) as (w & Hwi & Hww). rewrite Hwi. cbn [unwrap obind].
  destruct (change_word s i w (Z.land w (not_u64 (bit_mask (i mod 64)))) (fun x b => b && negb (x =? i)%nat) Hw Hi Hwi) as (Hw' & HB & Hch).
  - auto with word.
  - intros j Hj. rewrite Z.land_spec, not_u64_spec, bit_mask_spec by (auto with word || lia).
    replace (Z.of_nat j <? 64) with true by (symmetry; apply Z.ltb_lt; lia). cbn [andb]. f_equal. f_equal. pose proof (split_index i).
    destruct (Nat.eqb_spec j (i mod 64)), (Nat.eqb_spec (64 * (i / 64) + j) i); done || lia.
  - intros x b _ Hx. apply andb_true_iff in Hx as [-> _]. by left.
  - eexists _, _. split; [done|]. split; [exact Hw'|]. split; [done|].
    assert (HB' : forall x, x ∈ set_words s (<[(i / 64)%nat := Z.land w (not_u64 (bit_mask (i mod 64)))]> (words s)) <-> x ∈ s /\ x <> i).
    { intros x. rewrite elem_of_bits, HB, elem_of_bits. case_decide as E; [by rewrite andb_true_iff, negb_true_iff, Nat.eqb_neq|].
      split; [|by intros [? _]]. intros Hx. split; [done|]. by intros ->. }
    split; [exact HB'|]. rewrite negb_true_iff, Z.eqb_neq, Hch. split.
    + intros Hn. rewrite elem_of_bits. destruct (bit (words s) i) eqn:E; [done|]. destruct Hn. intros x. rewrite HB. case_decide; [|done].
      destruct (Nat.eqb_spec x i) as [->|]; [by rewrite E|apply andb_true_r].
    + intros Hs Hb. rewrite elem_of_bits, <- Hb in Hs. apply HB' in Hs as [_ Hs]. done.
Qed.

(** *** Whole-set operations *)

Lemma update_words_loop_ok op lhs rhs changed : length lhs = length rhs ->
  (update_words_loop op lhs rhs changed).2 = zip_with op lhs rhs
  /\ ((update_words_loop op lhs rhs changed).1 = 0 <-> changed = 0 /\ zip_with op lhs rhs = lhs).
Proof.
  revert rhs changed. induction lhs as [|a lhs IH]; intros [|b rhs] changed Hl; try done; [by cbn; tauto|].
  cbn [update_words_loop]. destruct (IH rhs (Z.lor changed (Z.lxor a (op a b)))) as [H2 H1]; [by injection Hl|].
  destruct (update_words_loop op lhs rhs (Z.lor changed (Z.lxor a (op a b)))) as [c l]. cbn [fst snd] in *.
  split; [by rewrite H2|]. rewrite H1, Z.lor_eq_0_iff, Z.lxor_eq_0_iff. cbn [zip_with]. split.
  - intros [[-> <-] ->]. done.
  - intros [-> [= E1 E2]]. rewrite E1, E2. done.
Qed.

Lemma bit_zip op f ws os i : length ws = length os -> Forall is_word ws -> Forall is_word os ->
  (forall a b j, is_word a -> is_word b -> (j < 64)%nat -> Z.testbit (op a b) (Z.of_nat j) = f (Z.testbit a (Z.of_nat j)) (Z.testbit b (Z.of_nat j))) ->
  (i / 64 < length ws)%nat -> bit (zip_with op ws os) i = f (bit ws i) (bit os i).
Proof.
  intros Hl Hw Ho Hf Hi. unfold bit. rewrite lookup_zip_with. destruct (lookup_lt_is_Some_2 _ _ Hi) as [a Ha].
  rewrite Hl in Hi. destruct (lookup_lt_is_Some_2 _ _ Hi) as [b Hb]. rewrite Ha, Hb. cbn.
  apply Hf; [exact (Forall_lookup_1 _ _ _ _ Hw Ha)|exact (Forall_lookup_1 _ _ _ _ Ho Hb)|apply mod_lt].
Qed.

Section Bitwise.
Context (op : Z -> Z -> Z) (f : bool -> bool -> bool).
Context (Hop : forall a b, is_word a -> is_word b -> is_word (op a b)).
Context (Hf : forall a b j, is_word a -> is_word b -> (j < 64)%nat ->
  Z.testbit (op a b) (Z.of_nat j) = f (Z.testbit a (Z.of_nat j)) (Z.testbit b (Z.of_nat j))).

Lemma zip_words ws os : Forall is_word ws -> Forall is_word os -> Forall is_word (zip_with op ws os).
Proof.
  intros Hw Ho. apply Forall_lookup_2. intros i w. rewrite lookup_zip_with_Some. intros (a & b & -> & Ha & Hb).
  apply Hop; [exact (Forall_lookup_1 _ _ _ _ Hw Ha)|exact (Forall_lookup_1 _ _ _ _ Ho Hb)].
Qed.

Lemma bitwise_raw s other : wf s -> wf other -> domain_size s = domain_size other ->
  exists c ws, bitwise op s other = Ret (c, set_words s ws) /\ length ws = length (words s) /\ Forall is_word ws
    /\ (forall i, (i / 64 < length (words s))%nat -> bit ws i = f (bit (words s) i) (bit (words other) i))
    /\ (c = true <-> ws <> words s).
Proof.
  intros Hs Ho Hd. unfold bitwise, update_words. assert (Hl : length (words s) = length (words other)) by (by rewrite (wf_len s Hs), (wf_len other Ho), Hd).
  rewrite !assert_true by by apply Nat.eqb_eq. cbn [obind].
  destruct (update_words_loop_ok op (words s) (words other) 0 Hl) as [H2 H1].
  destruct (update_words_loop op (words s) (words other) 0) as [c ws]. cbn [fst snd obind] in *. subst ws.
  eexists _, _. split; [done|]. split; [rewrite length_zip_with; lia|]. split; [apply zip_words; [apply Hs|apply Ho]|]. split.
  - intros i Hi. apply (bit_zip op f); try done; [apply Hs|apply Ho].
  - rewrite negb_true_iff, Z.eqb_neq, H1. tauto.
Qed.

(** An operation that keeps clear what is clear in both sets. *)
Lemma bitwise_ok s other : f false false = false -> wf s -> wf other -> domain_size s = domain_size other ->
  exists c s', bitwise op s other = Ret (c, s') /\ wf s' /\ domain_size s' = domain_size s
    /\ (forall x, x ∈ s' <-> f (bit (words s) x) (bit (words other) x) = true)
    /\ (c = true <-> exists x, ~ (x ∈ s' <-> x ∈ s)).
Proof.
  intros Hff Hs Ho Hd. destruct (bitwise_raw s other Hs Ho Hd) as (c & ws & Hb & Hl & Hw & Hbit & Hc).
  assert (HB : forall x, bit ws x = f (bit (words s) x) (bit (words other) x)).
  { intros x. destruct (Nat.lt_ge_cases (x / 64) (length (words s))) as [Hx|Hx]; [by apply Hbit|].
    assert (Hn : forall l, length l = length (words s) -> bit l x = false).
    { intros l El. unfold bit. by rewrite lookup_ge_None_2 by lia. }
    rewrite !Hn; [done| |done|done]. by rewrite (wf_len other Ho), (wf_len s Hs), Hd. }
  exists c, (set_words s ws). split; [done|]. split; [split; cbn [words set_words domain_size]|].
  - rewrite Hl. apply Hs.
  - done.
  - intros x. rewrite HB. destruct (bit (words s) x) eqn:E1; [intros _; by apply (wf_domain s Hs)|].
    destruct (bit (words other) x) eqn:E2; [intros _; rewrite Hd; by apply (wf_domain other Ho)|]. by rewrite Hff.
  - split; [done|]. split; [intros x; by rewrite elem_of_bits, <- HB|]. rewrite Hc. split.
    + intros Hn. destruct (decide (Exists (fun x => bit ws x <> bit (words s) x) (seq 0 (64 * length ws)))) as [He|He].
      * apply Exists_exists in He as (x & _ & Hx). exists x. rewrite !elem_of_bits. cbn [words set_words].
        destruct (bit ws x), (bit (words s) x); naive_solver.
      * destruct Hn. apply words_ext; [done|apply Hs|done|]. intros i. apply dec_stable. intros Hi. apply He, Exists_exists. exists i.
        split; [|done]. apply elem_of_seq. split; [lia|]. assert (i / 64 < length ws)%nat as Hlt.
        { destruct (Nat.lt_ge_cases (i / 64) (length ws)) as [|Hge]; [done|]. destruct Hi. unfold bit. by rewrite !lookup_ge_None_2 by lia. }
        pose proof (split_index i). pose proof (mod_lt i). lia.
    + intros (x & Hx) E. apply Hx. rewrite !elem_of_bits. cbn [words set_words]. by rewrite E.
Qed.
End Bitwise.

Lemma clear_excess_ok d ws : length ws = num_words d -> Forall is_word ws ->
  exists ws', clear_excess_bits_in_final_word d ws = Ret ws' /\ wf (mkBitSet d ws')
    /\ forall i, bit ws' i = bit ws i && (i <? d)%nat.
Proof.
  intros Hl Hw. unfold clear_excess_bits_in_final_word. change (d mod WORD_BITS)%nat with (d mod 64)%nat.
  pose proof (num_words_bound d) as Hn. pose proof (split_index d) as Hd. pose proof (mod_lt d) as Hm.
  assert (HG : forall ws', length ws' = num_words d -> Forall is_word ws' -> (forall i, bit ws' i = bit ws i && (i <? d)%nat) ->
    wf (mkBitSet d ws') /\ forall i, bit ws' i = bit ws i && (i <? d)%nat).
  { intros ws' Hl' Hw' Hb. split; [|done]. split; [done|done|]. cbn [words domain_size]. intros i. rewrite Hb, andb_true_iff, Nat.ltb_lt. tauto. }
  destruct (Nat.ltb_spec 0 (d mod 64)) as [Hr|Hr].
  - destruct (lookup_lt_is_Some_2 ws (length ws - 1)) as [w Hwl]; [lia|]. unfold update_word. rewrite Hwl. cbn [unwrap obind].
    set (mask := Z.shiftl 1 (Z.of_nat (d mod 64)) - 1). assert (Em : mask = Z.ones (Z.of_nat (d mod 64))) by (unfold mask; by rewrite Z.shiftl_1_l, Z.ones_equiv).
    destruct (low_mask (d mod 64) Hm) as [_ Hmw]. rewrite <- Em in Hmw. assert (Ek : (length ws - 1 = d / 64)%nat) by lia.
    eexists. split; [done|]. apply HG.
    + by rewrite length_insert.
    + apply set_word_ok; [done|]. pose proof (Forall_lookup_1 _ _ _ _ Hw Hwl). auto with word.
    + intros i. rewrite (bit_set_word _ _ w) by done. pose proof (split_index i). pose proof (mod_lt i). case_decide as E.
      * rewrite Z.land_spec, Em, Z.testbit_ones_nonneg by lia. unfold bit. rewrite E, Hwl. f_equal.
        destruct (Z.ltb_spec (Z.of_nat (i mod 64)) (Z.of_nat (d mod 64))), (Nat.ltb_spec i d); done || lia.
      * destruct (bit ws i) eqn:Eb; [|done]. apply bit_lt in Eb. symmetry. apply Nat.ltb_lt. lia.
  - exists ws. split; [done|]. apply HG; [done|done|]. intros i. destruct (bit ws i) eqn:Eb; [|done]. apply bit_lt in Eb. symmetry.
    apply Nat.ltb_lt. pose proof (split_index i). pose proof (mod_lt i). lia.
Qed.

Lemma bit_const (ws : list Z) v i : bit ((fun _ => v) <$> ws) i = if (i / 64 <? length ws)%nat then Z.testbit v (Z.of_nat (i mod 64)) else false.
Proof.
  rewrite bit_map. destruct (Nat.ltb_spec (i / 64) (length ws)) as [Hi|Hi].
  - by destruct (lookup_lt_is_Some_2 _ _ Hi) as [w ->].
  - by rewrite lookup_ge_None_2.
Qed.

Lemma max_bits j : (j < 64)%nat -> Z.testbit u64_max (Z.of_nat j) = true.
Proof. intros Hj. rewrite u64_max_ones. apply Z.ones_spec_low. lia. Qed.

Lemma dense_insert_all_ok s : wf s ->
  exists s', insert_all s = Ret s' /\ wf s' /\ domain_size s' = domain_size s /\ forall x, x ∈ s' <-> (x < domain_size s)%nat.
Proof.
  intros Hs. unfold insert_all, clear_excess_bits. cbn [set_words words domain_size].
  destruct (clear_excess_ok (domain_size s) ((fun _ => u64_max) <$> words s)) as (ws & -> & Hw & Hb).
  - rewrite length_fmap. apply Hs.
  - apply Forall_fmap, Forall_true. intros w. apply is_word_max.
  - cbn [obind]. eexists. split; [done|]. split; [exact Hw|]. split; [done|]. intros x. rewrite elem_of_bits. cbn [words set_words].
    rewrite Hb, bit_const, (wf_len s Hs). destruct (Nat.ltb_spec x (domain_size s)) as [Hx|Hx]; [|rewrite andb_false_r; split; [done|lia]].
    rewrite (proj2 (Nat.ltb_lt _ _)) by by apply num_words_lt. rewrite max_bits by apply mod_lt. tauto.
Qed.

Lemma bit_replicate n v i : bit (replicate n v) i = if (i / 64 <? n)%nat then Z.testbit v (Z.of_nat (i mod 64)) else false.
Proof.
  unfold bit. destruct (Nat.ltb_spec (i / 64) n) as [Hi|Hi]; [by rewrite lookup_replicate_2|].
  by rewrite lookup_ge_None_2 by (rewrite length_replicate; lia).
Qed.

Lemma new_empty_ok d : wf (new_empty d) /\ forall x, ~ x ∈ new_empty d.
Proof.
  assert (HB : forall i, bit (words (new_empty d)) i = false).
  { intros i. cbn [new_empty words]. rewrite bit_replicate, Z.bits_0. by destruct (_ <? _)%nat. }
  split; [split|].
  - apply length_replicate.
  - apply Forall_replicate, is_word_zero.
  - intros i. by rewrite HB.
  - intros x. by rewrite elem_of_bits, HB.
Qed.

Lemma new_filled_ok d : exists s, new_filled d = Ret s /\ wf s /\ domain_size s = d /\ forall x, x ∈ s <-> (x < d)%nat.
Proof.
  unfold new_filled, clear_excess_bits. cbn [words domain_size].
  destruct (clear_excess_ok d (replicate (num_words d) u64_max)) as (ws & -> & Hw & Hb); [apply length_replicate|apply Forall_replicate, is_word_max|].
  cbn [obind]. eexists. split; [done|]. split; [exact Hw|]. split; [done|]. intros x. rewrite elem_of_bits. cbn [words set_words].
  rewrite Hb, bit_replicate. destruct (Nat.ltb_spec x d) as [Hx|Hx]; [|rewrite andb_false_r; split; [done|lia]].
  rewrite (proj2 (Nat.ltb_lt _ _)) by by apply num_words_lt. rewrite max_bits by apply mod_lt. tauto.
Qed.

Lemma clear_ok s : wf s -> wf (clear s) /\ forall x, ~ x ∈ clear s.
Proof.
  intros Hs. assert (HB : forall i, bit (words (clear s)) i = false).
  { intros i. cbn [clear set_words words]. rewrite bit_const, Z.bits_0. by destruct (_ <? _)%nat. }
  split; [split|].
  - cbn. rewrite length_fmap. apply Hs.
  - apply Forall_fmap, Forall_true. intros w. apply is_word_zero.
  - intros i. by rewrite HB.
  - intros x. by rewrite elem_of_bits, HB.
Qed.

Lemma is_empty_ok s : wf s -> is_empty s = true <-> forall x, ~ x ∈ s.
Proof.
  intros Hs. unfold is_empty. rewrite forallb_forall. split.
  - intros Hz x Hx. rewrite elem_of_bits in Hx. unfold bit in Hx. destruct (words s !! (x / 64)%nat) as [w|] eqn:Ew; [|done].
    assert ((w =? 0) = true) as E0 by (apply Hz, list_elem_of_In; by eapply list_elem_of_lookup_2). apply Z.eqb_eq in E0. subst w. by rewrite Z.bits_0 in Hx.
  - intros He w Hw%list_elem_of_In. apply list_elem_of_lookup_1 in Hw as [k Hk]. pose proof (Forall_lookup_1 _ _ _ _ (wf_word s Hs) Hk) as Hww.
    apply word_zero; [done|]. intros j Hj. rewrite <- (bit_at k j (words s)) by done. apply not_true_iff_false. apply He.
Qed.

Lemma dense_superset_ok s other : wf s -> wf other -> domain_size s = domain_size other ->
  exists b, superset s other = Ret b /\ (b = true <-> forall x, x ∈ other -> x ∈ s).
Proof.
  intros Hs Ho Hd. unfold superset. rewrite assert_true by by apply Nat.eqb_eq. cbn [obind]. eexists. split; [done|].
  assert (Hl : length (words s) = length (words other)) by (by rewrite (wf_len s Hs), (wf_len other Ho), Hd).
  assert (HW : forall k a b, words s !! k = Some a -> words other !! k = Some b ->
    (Z.land a b =? b) = true <-> forall j, (j < 64)%nat -> Z.testbit b (Z.of_nat j) = true -> Z.testbit a (Z.of_nat j) = true).
  { intros k a b Ha Hb. pose proof (Forall_lookup_1 _ _ _ _ (wf_word s Hs) Ha). pose proof (Forall_lookup_1 _ _ _ _ (wf_word other Ho) Hb).
    rewrite Z.eqb_eq. split.
    - intros E j Hj Hbj. rewrite <- E, Z.land_spec in Hbj. by apply andb_true_iff in Hbj as [? _].
    - intros Hj. apply word_ext; [auto with word|done|]. intros j Hlt. rewrite Z.land_spec. specialize (Hj j Hlt).
      destruct (Z.testbit b (Z.of_nat j)); [by rewrite Hj|apply andb_false_r]. }
  rewrite forallb_forall. split.
  - intros Hall x Hx. rewrite elem_of_bits in *. unfold bit in *. destruct (words other !! (x / 64)%nat) as [b|] eqn:Eb; [|done].
    assert (Hlt : (x / 64 < length (words s))%nat) by (rewrite Hl; by eapply lookup_lt_Some). destruct (lookup_lt_is_Some_2 _ _ Hlt) as [a Ea].
    rewrite Ea. apply (HW _ _ _ Ea Eb); [|apply mod_lt|done]. apply (Hall (a, b)). apply list_elem_of_In, list_elem_of_lookup.
    exists (x / 64)%nat. apply lookup_zip_with_Some. by exists a, b.
  - intros Hsub [a b] Hab%list_elem_of_In. apply list_elem_of_lookup_1 in Hab as [k Hk]. apply lookup_zip_with_Some in Hk as (a' & b' & [= <- <-] & Ha & Hb).
    apply (HW k a b Ha Hb). intros j Hj Hbj. rewrite <- (bit_at k j (words s)) by done. apply Hsub. rewrite elem_of_bits. by rewrite (bit_at k j _ b).
Qed.

(** ** Ranges, searches and iteration *)

(** *** Ranges *)

Definition from_start (r : RangeBounds) (x : nat) : Prop :=
  match start_bound r with Included s => (s <= x)%nat | Excluded s => (s < x)%nat | Unbounded => True end.
Definition to_end (d : nat) (r : RangeBounds) (x : nat) : Prop :=
  match end_bound r with Included e => (x <= e)%nat | Excluded e => (x < e)%nat | Unbounded => (x < d)%nat end.
Definition in_range (d : nat) (r : RangeBounds) (x : nat) : Prop := from_start r x /\ to_end d r x.

(** The end is inside the domain: otherwise the code panics. *)
Definition range_ok (d : nat) (r : RangeBounds) : Prop :=
  match end_bound r with Included e => (e < d)%nat | Excluded e => (e <= d)%nat | Unbounded => (0 < d)%nat end.

Lemma start_end_ok d r : range_ok d r ->
  exists o, inclusive_start_end r d = Ret o /\
    match o with
    | None => forall x, ~ in_range d r x
    | Some (a, b) => (a <= b < d)%nat /\ forall x, in_range d r x <-> (a <= x <= b)%nat
    end.
Proof.
  intros Hr. unfold inclusive_start_end, range_ok, in_range, from_start, to_end in *. destruct r as [sb eb]. cbn [start_bound end_bound] in *.
  set (start := match sb with Included s => s | Excluded s => S s | Unbounded => 0%nat end).
  assert (Hst : forall x, match sb with Included s => (s <= x)%nat | Excluded s => (s < x)%nat | Unbounded => True end <-> (start <= x)%nat)
    by (intros x; destruct sb; unfold start; lia).
  assert (HG : forall e, (e < d)%nat -> exists o, (let* _ := assert_that (e <? d)%nat in Ret (if (e <? start)%nat then None else Some (start, e))) = Ret o /\
    match o with
    | None => forall x, ~ ((start <= x)%nat /\ (x <= e)%nat)
    | Some (a, b) => (a <= b < d)%nat /\ forall x, (start <= x)%nat /\ (x <= e)%nat <-> (a <= x <= b)%nat
    end).
  { intros e He. rewrite assert_true by by apply Nat.ltb_lt. cbn [obind]. eexists. split; [done|].
    destruct (Nat.ltb_spec e start); [intros x; lia|]. split; [lia|]. intros x. lia. }
  destruct eb as [e|[|e]|].
  - destruct (HG e Hr) as (o & E & Ho). exists o. split; [exact E|]. destruct o as [[a b]|]; [destruct Ho as [? Ho]; split; [done|]|]; intros x; rewrite Hst; apply Ho.
  - exists None. split; [done|]. intros x. lia.
  - destruct (HG e ltac:(lia)) as (o & E & Ho). exists o. split; [exact E|]. destruct o as [[a b]|]; [destruct Ho as [? Ho]; split; [done|]|]; intros x; rewrite Hst; specialize (Ho x); lia.
  - destruct (HG (d - 1)%nat ltac:(lia)) as (o & E & Ho). exists o. split; [exact E|]. destruct o as [[a b]|]; [destruct Ho as [? Ho]; split; [done|]|]; intros x; rewrite Hst; specialize (Ho x); lia.
Qed.

(** **** Writing words *)

Lemma or_word_ok ws k m : Forall is_word ws -> is_word m -> (k < length ws)%nat ->
  exists ws', update_word ws k (fun w => Z.lor w m) = Ret ws' /\ length ws' = length ws /\ Forall is_word ws'
    /\ forall x, bit ws' x = bit ws x || ((x / 64 =? k)%nat && Z.testbit m (Z.of_nat (x mod 64))).
Proof.
  intros Hw Hm Hk. destruct (lookup_lt_is_Some_2 _ _ Hk) as [w Hwk]. unfold update_word. rewrite Hwk. cbn [unwrap obind].
  pose proof (Forall_lookup_1 _ _ _ _ Hw Hwk). eexists. split; [done|]. split; [apply length_insert|]. split; [apply set_word_ok; auto with word|].
  intros x. rewrite (bit_set_word _ _ w) by done. case_decide as E.
  - rewrite E, Nat.eqb_refl. cbn [andb]. rewrite Z.lor_spec. unfold bit. by rewrite E, Hwk.
  - rewrite (proj2 (Nat.eqb_neq _ _) E). cbn [andb]. by rewrite orb_false_r.
Qed.

Lemma fill_words_ok n i ws : Forall is_word ws -> (i + n <= length ws)%nat ->
  exists ws', fill_words i n ws = Ret ws' /\ length ws' = length ws /\ Forall is_word ws'
    /\ forall x, bit ws' x = bit ws x || ((i <=? x / 64)%nat && (x / 64 <? i + n)%nat).
Proof.
  revert i ws. induction n as [|n IH]; intros i ws Hw Hl.
  - exists ws. split; [done|]. split; [done|]. split; [done|]. intros x. destruct (Nat.leb_spec i (x / 64)), (Nat.ltb_spec (x / 64) (i + 0)); try lia; by rewrite orb_false_r.
  - cbn [fill_words]. unfold set_index. rewrite (proj2 (Nat.ltb_lt _ _)) by lia. cbn [obind].
    destruct (IH (S i) (<[i := u64_max]> ws)) as (ws' & -> & Hl' & Hw' & Hb); [apply set_word_ok; auto with word|rewrite length_insert; lia|].
    exists ws'. split; [done|]. split; [by rewrite Hl', length_insert|]. split; [done|]. intros x. rewrite Hb.
    destruct (lookup_lt_is_Some_2 ws i) as [w Hwi]; [lia|]. rewrite (bit_set_word _ _ w) by done.
    case_decide as E.
    + rewrite max_bits by apply mod_lt. cbn [orb]. subst i. rewrite Nat.leb_refl. rewrite (proj2 (Nat.ltb_lt _ _)) by lia. by rewrite orb_true_r.
    + f_equal. destruct (Nat.leb_spec (S i) (x / 64)), (Nat.leb_spec i (x / 64)), (Nat.ltb_spec (x / 64) (S i + n)), (Nat.ltb_spec (x / 64) (i + S n)); done || lia.
Qed.

(** The words of the end points of a range. *)
Lemma range_words s a b : wf s -> (a <= b < domain_size s)%nat ->
  (a / 64 <= b / 64)%nat /\ (a / 64 < length (words s))%nat /\ (b / 64 < length (words s))%nat.
Proof.
  intros Hs Hab. rewrite (wf_len s Hs). split; [apply Nat.Div0.div_le_mono; lia|]. split; apply num_words_lt; lia.
Qed.

Definition between (a b x : nat) : bool := (a <=? x)%nat && (x <=? b)%nat.

Lemma insert_words s a b : wf s -> (a <= b < domain_size s)%nat ->
  exists ws, (let* ws := fill_words (a / 64 + 1) (b / 64 - (a / 64 + 1)) (words s) in
     if (a / 64 =? b / 64)%nat then
       update_word ws (a / 64) (fun w => Z.lor w (Z.lor (bit_mask (b mod 64)) (wrap_u64 (bit_mask (b mod 64) - bit_mask (a mod 64)))))
     else
       let* ws := update_word ws (a / 64) (fun w => Z.lor w (not_u64 (wrap_u64 (bit_mask (a mod 64) - 1)))) in
       update_word ws (b / 64) (fun w => Z.lor w (Z.lor (bit_mask (b mod 64)) (wrap_u64 (bit_mask (b mod 64) - 1))))) = Ret ws
   /\ length ws = length (words s) /\ Forall is_word ws /\ forall x, bit ws x = bit (words s) x || between a b x.
Proof.
  intros Hs Hab. destruct (range_words s a b Hs Hab) as (Hle & Hla & Hlb). pose proof (wf_word s Hs) as Hw.
  pose proof (split_index a) as Ea. pose proof (split_index b) as Eb. pose proof (mod_lt a) as Ma. pose proof (mod_lt b) as Mb.
  destruct (fill_words_ok (b / 64 - (a / 64 + 1)) (a / 64 + 1) (words s) Hw ltac:(lia)) as (w1 & -> & L1 & W1 & B1). cbn [obind].
  destruct (Nat.eqb_spec (a / 64) (b / 64)) as [E|E].
  - destruct (or_word_ok w1 (a / 64) (Z.lor (bit_mask (b mod 64)) (wrap_u64 (bit_mask (b mod 64) - bit_mask (a mod 64)))) W1) as (w2 & -> & L2 & W2 & B2);
      [apply between_mask_word; lia|lia|]. exists w2. split; [done|]. split; [lia|]. split; [done|]. intros x. rewrite B2, B1, between_mask_spec by lia.
    rewrite <- orb_assoc. f_equal. unfold between. pose proof (split_index x). pose proof (mod_lt x).
    destruct (Nat.leb_spec (a / 64 + 1) (x / 64)), (Nat.ltb_spec (x / 64) (a / 64 + 1 + (b / 64 - (a / 64 + 1)))), (Nat.eqb_spec (x / 64) (a / 64)),
      (Nat.leb_spec (a mod 64) (x mod 64)), (Nat.leb_spec (x mod 64) (b mod 64)), (Nat.leb_spec a x), (Nat.leb_spec x b); done || lia.
  - destruct (or_word_ok w1 (a / 64) (not_u64 (wrap_u64 (bit_mask (a mod 64) - 1))) W1) as (w2 & -> & L2 & W2 & B2); [by apply from_mask_word|lia|]. cbn [obind].
    destruct (or_word_ok w2 (b / 64) (Z.lor (bit_mask (b mod 64)) (wrap_u64 (bit_mask (b mod 64) - 1))) W2) as (w3 & -> & L3 & W3 & B3); [by apply upto_mask_word|lia|].
    exists w3. split; [done|]. split; [lia|]. split; [done|]. intros x. pose proof (split_index x). pose proof (mod_lt x).
    rewrite B3, B2, B1, upto_mask_spec, from_mask_spec by lia. rewrite <- !orb_assoc. f_equal. unfold between.
    destruct (Nat.leb_spec (a / 64 + 1) (x / 64)), (Nat.ltb_spec (x / 64) (a / 64 + 1 + (b / 64 - (a / 64 + 1)))), (Nat.eqb_spec (x / 64) (a / 64)), (Nat.eqb_spec (x / 64) (b / 64)),
      (Nat.leb_spec (a mod 64) (x mod 64)), (Nat.leb_spec (x mod 64) (b mod 64)), (Nat.leb_spec a x), (Nat.leb_spec x b); done || lia.
Qed.

Lemma dense_insert_range_ok s r : wf s -> range_ok (domain_size s) r ->
  exists s', insert_range s r = Ret s' /\ wf s' /\ domain_size s' = domain_size s
    /\ forall x, x ∈ s' <-> x ∈ s \/ in_range (domain_size s) r x.
Proof.
  intros Hs Hr. unfold insert_range. destruct (start_end_ok _ _ Hr) as (o & -> & Ho). cbn [obind].
  destruct o as [[a b]|]; [|exists s; split; [done|]; split; [done|]; split; [done|]; intros x; specialize (Ho x); tauto].
  destruct Ho as [Hab Hx]. rewrite !index_and_mask. destruct (insert_words s a b Hs Hab) as (ws & E & L & W & B).
  destruct (fill_words _ _ (words s)) as [w1| |]; cbn [obind] in E |- *; try done. rewrite E. cbn [obind].
  exists (set_words s ws). split; [done|]. assert (HB : forall x, x ∈ set_words s ws <-> x ∈ s \/ in_range (domain_size s) r x).
  { intros x. rewrite Hx, !elem_of_bits. cbn [words set_words]. rewrite B, orb_true_iff. unfold between. by rewrite andb_true_iff, !Nat.leb_le. }
  split; [split|done]; cbn [words set_words domain_size]; [rewrite L; apply Hs|done|]. intros x Hbx.
  destruct (proj1 (HB x) Hbx) as [Hb|Hb]; [by apply (wf_domain s Hs)|]. apply Hx in Hb. lia.
Qed.

(** *** Searching *)

(** A word meets a mask. *)
Lemma meets w m : is_word w -> is_word m ->
  negb (Z.land w m =? 0) = true <-> exists j, (j < 64)%nat /\ Z.testbit w (Z.of_nat j) = true /\ Z.testbit m (Z.of_nat j) = true.
Proof.
  intros Hw Hm. assert (Hl : is_word (Z.land w m)) by auto with word. rewrite negb_true_iff. split.
  - intros (j & Hj & Hb)%word_nonzero; [|done]. rewrite Z.land_spec in Hb. apply andb_true_iff in Hb. eauto.
  - intros (j & Hj & H1 & H2). apply not_true_iff_false. rewrite word_zero by done. intros Hz. specialize (Hz j Hj).
    rewrite Z.land_spec, H1, H2 in Hz. done.
Qed.

(** The same for the word at [k] of a set and the elements it holds. *)
Lemma meets_at ws k w m (P : nat -> Prop) : ws !! k = Some w -> is_word w -> is_word m ->
  (forall j, (j < 64)%nat -> Z.testbit m (Z.of_nat j) = true <-> P (64 * k + j)%nat) ->
  negb (Z.land w m =? 0) = true <-> exists x, (x / 64 = k)%nat /\ P x /\ bit ws x = true.
Proof.
  intros Hk Hw Hm HP. rewrite meets by done. split.
  - intros (j & Hj & H1 & H2). exists (64 * k + j)%nat. split; [|split; [by apply HP|by rewrite (bit_at k j ws w)]].
    rewrite Nat.mul_comm, Nat.div_add_l by lia. rewrite Nat.div_small by done. lia.
  - intros (x & <- & Hx & Hb). exists (x mod 64)%nat. split; [apply mod_lt|]. unfold bit in Hb. rewrite Hk in Hb. split; [done|].
    apply HP; [apply mod_lt|]. by rewrite <- split_index.
Qed.

Lemma any_word ws i j : Forall is_word ws -> (i <= j <= length ws)%nat ->
  exists l, get_range ws i j = Some l /\
    (existsb (fun w => negb (w =? 0)) l = true <-> exists x, (i <= x / 64 < j)%nat /\ bit ws x = true).
Proof.
  intros Hw Hij. unfold get_range. rewrite !(proj2 (Nat.leb_le _ _)) by lia. cbn [andb]. eexists. split; [done|].
  rewrite existsb_exists. split.
  - intros (w & Hin%list_elem_of_In & Hz). apply list_elem_of_lookup_1 in Hin as [k Hk]. apply lookup_take_Some in Hk as [Hk Hlt]. rewrite lookup_drop in Hk.
    pose proof (Forall_lookup_1 _ _ _ _ Hw Hk) as Hww. apply negb_true_iff in Hz. destruct (word_nonzero w Hww Hz) as (n & Hn & Hb).
    exists (64 * (i + k) + n)%nat. split; [|by rewrite (bit_at _ n ws w)]. rewrite Nat.mul_comm, Nat.div_add_l by lia. rewrite Nat.div_small by done. lia.
  - intros (x & Hx & Hb). unfold bit in Hb. destruct (ws !! (x / 64)%nat) as [w|] eqn:Ew; [|done]. exists w. split.
    + apply list_elem_of_In, list_elem_of_lookup. exists (x / 64 - i)%nat. apply lookup_take_Some. split; [|lia]. rewrite lookup_drop. by replace (i + (x / 64 - i))%nat with (x / 64)%nat by lia.
    + apply negb_true_iff, Z.eqb_neq. intros ->. by rewrite Z.bits_0 in Hb.
Qed.

Lemma contains_any_ok s r : wf s -> range_ok (domain_size s) r ->
  exists c, contains_any s r = Ret c /\ (c = true <-> exists x, in_range (domain_size s) r x /\ x ∈ s).
Proof.
  intros Hs Hr. unfold contains_any. destruct (start_end_ok _ _ Hr) as (o & -> & Ho). cbn [obind].
  destruct o as [[a b]|]; [|exists false; split; [done|]; split; [done|]; intros (x & Hx & _); by destruct (Ho x)].
  destruct Ho as [Hab Hx]. rewrite !index_and_mask. destruct (range_words s a b Hs Hab) as (Hle & Hla & Hlb). pose proof (wf_word s Hs) as Hw.
  pose proof (split_index a) as Ea. pose proof (split_index b) as Eb. pose proof (mod_lt a) as Ma. pose proof (mod_lt b) as Mb.
  destruct (lookup_lt_is_Some_2 _ _ Hla) as [wa Wa]. destruct (lookup_lt_is_Some_2 _ _ Hlb) as [wb Wb].
  pose proof (Forall_lookup_1 _ _ _ _ Hw Wa) as Va. pose proof (Forall_lookup_1 _ _ _ _ Hw Wb) as Vb.
  assert (HS : forall x, in_range (domain_size s) r x /\ x ∈ s <-> (a <= x <= b)%nat /\ bit (words s) x = true) by (intros x; by rewrite Hx, elem_of_bits).
  setoid_rewrite HS. destruct (Nat.eqb_spec (a / 64) (b / 64)) as [E|E].
  - rewrite Wa. cbn [unwrap obind]. eexists. split; [done|].
    rewrite (meets_at (words s) (a / 64) wa _ (fun x => (a <= x <= b)%nat) Wa Va) by
      (first [apply between_mask_word; lia | intros j Hj; rewrite between_mask_spec by lia; rewrite andb_true_iff, !Nat.leb_le; lia]).
    split; [intros (x & _ & ? & ?); eauto|]. intros (x & Hxr & Hb). exists x. split; [|done]. pose proof (split_index x). pose proof (mod_lt x). lia.
  - rewrite Wa, Wb. cbn [unwrap obind].
    pose proof (meets_at (words s) (a / 64) wa _ (fun x => (a <= x)%nat) Wa Va (from_mask_word _ Ma)
      ltac:(intros j Hj; rewrite from_mask_spec by lia; rewrite Nat.leb_le; lia)) as HA.
    pose proof (meets_at (words s) (b / 64) wb _ (fun x => (x <= b)%nat) Wb Vb (upto_mask_word _ Mb)
      ltac:(intros j Hj; rewrite upto_mask_spec by lia; rewrite Nat.leb_le; lia)) as HB.
    destruct (negb (Z.land wa _ =? 0)).
    { exists true. split; [done|]. split; [|done]. intros _. destruct (proj1 HA eq_refl) as (x & Ex & Hax & Hb). exists x. split; [|done].
      pose proof (split_index x). pose proof (mod_lt x). lia. }
    assert (NA : forall x, (x / 64 = a / 64)%nat -> (a <= x)%nat -> bit (words s) x = true -> False) by (intros x ? ? ?; by pose proof (proj2 HA ltac:(eauto))).
    rewrite (proj2 (Nat.leb_le _ _)) by lia. destruct (any_word (words s) (a / 64 + 1) (b / 64) Hw ltac:(lia)) as (l & -> & HL). cbn [unwrap obind].
    destruct (existsb _ l).
    { exists true. split; [done|]. split; [|done]. intros _. destruct (proj1 HL eq_refl) as (x & Ex & Hb). exists x. split; [|done].
      pose proof (split_index x). pose proof (mod_lt x). lia. }
    assert (NL : forall x, (a / 64 + 1 <= x / 64 < b / 64)%nat -> bit (words s) x = true -> False) by (intros x ? ?; by pose proof (proj2 HL ltac:(eauto))).
    eexists. split; [done|]. rewrite HB. split.
    + intros (x & Ex & Hxb & Hb). exists x. split; [|done]. pose proof (split_index x). pose proof (mod_lt x). lia.
    + intros (x & Hxr & Hb). exists x. pose proof (split_index x). pose proof (mod_lt x).
      assert (x / 64 = a / 64 \/ (a / 64 + 1 <= x / 64 < b / 64) \/ x / 64 = b / 64)%nat as [Hc|[Hc|Hc]] by lia.
      * exfalso. apply (NA x); [done|lia|done].
      * exfalso. by apply (NL x).
      * split; [done|]. split; [lia|done].
Qed.

(** **** The lowest bit *)

Lemma ctz_spec fuel w : 0 < w < 2 ^ Z.of_nat fuel ->
  Z.testbit w (Z.of_nat (ctz fuel w)) = true /\ (forall j, (j < ctz fuel w)%nat -> Z.testbit w (Z.of_nat j) = false) /\ (ctz fuel w < fuel)%nat.
Proof.
  revert w. induction fuel as [|f IH]; intros w Hw; [cbn in Hw; lia|]. cbn [ctz]. destruct (Z.odd w) eqn:Eo.
  - split; [by rewrite Z.bit0_odd|]. split; [lia|lia].
  - assert (Ew : w = 2 * Z.div2 w) by (pose proof (Z.div2_odd w) as H2; rewrite Eo in H2; simpl in H2; lia).
    destruct (IH (Z.div2 w)) as (H1 & H2 & H3).
    { rewrite Nat2Z.inj_succ, Z.pow_succ_r in Hw by lia. lia. }
    assert (HT : forall j, Z.testbit w (Z.of_nat (S j)) = Z.testbit (Z.div2 w) (Z.of_nat j)).
    { intros j. rewrite Ew at 1. rewrite Nat2Z.inj_succ. apply Z.testbit_even_succ. lia. }
    split; [by rewrite HT|]. split; [|lia]. intros [|j] Hj; [by rewrite Z.bit0_odd|]. rewrite HT. apply H2. lia.
Qed.

Lemma trailing_zeros_spec w : is_word w -> w <> 0 ->
  Z.testbit w (Z.of_nat (trailing_zeros w)) = true /\ (forall j, (j < trailing_zeros w)%nat -> Z.testbit w (Z.of_nat j) = false)
  /\ (trailing_zeros w < 64)%nat.
Proof. intros Hw Hn. apply (ctz_spec 64). destruct Hw. change (Z.of_nat 64) with 64. lia. Qed.

Lemma bit_cons w ws i : bit (w :: ws) i = if (i <? 64)%nat then Z.testbit w (Z.of_nat i) else bit ws (i - 64).
Proof.
  unfold bit. pose proof (split_index i). destruct (Nat.ltb_spec i 64) as [Hi|Hi].
  - rewrite Nat.div_small, Nat.mod_small by done. done.
  - assert (i / 64 = S ((i - 64) / 64))%nat as ->.
    { replace i with (1 * 64 + (i - 64))%nat at 1 by lia. rewrite Nat.div_add_l by lia. done. }
    cbn [lookup list_lookup]. replace (i mod 64)%nat with ((i - 64) mod 64)%nat; [done|].
    replace i with (i - 64 + 1 * 64)%nat at 2 by lia. by rewrite Nat.Div0.mod_add.
Qed.

Lemma first_set_loop_ok rest k w : Forall is_word (w :: rest) ->
  match first_set_loop k w rest with
  | Some x => (64 * k <= x)%nat /\ bit (w :: rest) (x - 64 * k) = true /\ forall y, (y < x - 64 * k)%nat -> bit (w :: rest) y = false
  | None => forall y, bit (w :: rest) y = false
  end.
Proof.
  revert k w. induction rest as [|w' rest IH]; intros k w Hw; apply Forall_cons in Hw as [Hww Hr]; cbn [first_set_loop].
  all: destruct (Z.eqb_spec w 0) as [->|Hn]; cbn [negb].
  2, 4: destruct (trailing_zeros_spec w Hww Hn) as (H1 & H2 & H3); change WORD_BITS with 64%nat;
    replace (64 * k + trailing_zeros w - 64 * k)%nat with (trailing_zeros w) by lia; split; [lia|];
    split; [rewrite bit_cons, (proj2 (Nat.ltb_lt _ _)) by lia; done|]; intros y Hy; rewrite bit_cons, (proj2 (Nat.ltb_lt _ _)) by lia; by apply H2.
  - intros y. rewrite bit_cons, Z.bits_0. by destruct (y <? 64)%nat.
  - specialize (IH (S k) w' Hr). destruct (first_set_loop (S k) w' rest) as [x|].
    + destruct IH as (H1 & H2 & H3). split; [lia|]. split.
      * rewrite bit_cons. destruct (Nat.ltb_spec (x - 64 * k) 64); [lia|]. by replace (x - 64 * k - 64)%nat with (x - 64 * S k)%nat by lia.
      * intros y Hy. rewrite bit_cons, Z.bits_0. destruct (Nat.ltb_spec y 64); [done|]. apply H3. lia.
    + intros y. rewrite bit_cons, Z.bits_0. by destruct (y <? 64)%nat.
Qed.

Lemma bit_drop k ws i : bit (drop k ws) i = bit ws (64 * k + i).
Proof.
  unfold bit. rewrite lookup_drop. rewrite (Nat.mul_comm 64 k), Nat.div_add_l by lia. rewrite Nat.add_comm with (n := (k * 64)%nat), Nat.Div0.mod_add. done.
Qed.

Lemma first_set_ok s i : wf s -> (i < domain_size s)%nat ->
  exists o, first_set_at_or_after s i = Ret o /\
    match o with
    | Some x => x ∈ s /\ (i <= x)%nat /\ forall y, (i <= y < x)%nat -> ~ y ∈ s
    | None => forall y, (i <= y)%nat -> ~ y ∈ s
    end.
Proof.
  intros Hs Hi. unfold first_set_at_or_after. rewrite assert_true by by apply Nat.ltb_lt. cbn [obind]. rewrite index_and_mask.
  destruct (word_of_elem s i Hs Hi) as (w & Hwi & Hww). rewrite Hwi. cbn [unwrap obind]. eexists. split; [done|].
  set (m := not_u64 (wrap_u64 (bit_mask (i mod 64) - 1))). pose proof (mod_lt i) as Mi. assert (Hm : is_word m) by by apply from_mask_word.
  pose proof (first_set_loop_ok (drop (S (i / 64)) (words s)) (i / 64) (Z.land w m)) as HF.
  assert (HB : forall y, bit (Z.land w m :: drop (S (i / 64)) (words s)) y = bit (words s) (64 * (i / 64) + y) && (i <=? 64 * (i / 64) + y)%nat).
  { intros y. pose proof (split_index i). rewrite <- bit_drop, (drop_S (words s) w (i / 64)) by done. rewrite !bit_cons. destruct (Nat.ltb_spec y 64) as [Hy|Hy].
    - rewrite Z.land_spec. unfold m. rewrite from_mask_spec by done. f_equal.
      destruct (Nat.leb_spec (i mod 64) y), (Nat.leb_spec i (64 * (i / 64) + y)); done || lia.
    - rewrite (proj2 (Nat.leb_le _ _)) by lia. by rewrite andb_true_r. }
  specialize (HF ltac:(constructor; [auto with word|apply Forall_drop, (wf_word s Hs)])). pose proof (split_index i).
  destruct (first_set_loop _ _ _) as [x|].
  - destruct HF as (H1 & H2 & H3). rewrite HB in H2. replace (64 * (i / 64) + (x - 64 * (i / 64)))%nat with x in H2 by lia.
    apply andb_true_iff in H2 as [H2 H2i%Nat.leb_le]. split; [done|]. split; [done|]. intros y Hy. rewrite elem_of_bits. apply not_true_iff_false.
    specialize (H3 (y - 64 * (i / 64))%nat ltac:(lia)). rewrite HB in H3. replace (64 * (i / 64) + (y - 64 * (i / 64)))%nat with y in H3 by lia.
    by rewrite (proj2 (Nat.leb_le i y)), andb_true_r in H3 by lia.
  - intros y Hy. rewrite elem_of_bits. apply not_true_iff_false. specialize (HF (y - 64 * (i / 64))%nat). rewrite HB in HF.
    replace (64 * (i / 64) + (y - 64 * (i / 64)))%nat with y in HF by lia. by rewrite (proj2 (Nat.leb_le i y)), andb_true_r in HF by lia.
Qed.

(** **** The highest bit *)

Lemma max_bit_spec w : is_word w -> w <> 0 ->
  Z.testbit w (Z.of_nat (max_bit w)) = true /\ (forall j, (max_bit w < j)%nat -> Z.testbit w (Z.of_nat j) = false) /\ (max_bit w < 64)%nat.
Proof.
  intros Hw Hn. unfold max_bit. pose proof (Z.log2_nonneg w). assert (0 < w) by (destruct Hw; lia).
  assert (Z.log2 w < 64) by (apply Z.log2_lt_pow2; [done|apply Hw]). split; [rewrite Z2Nat.id by done; by apply Z.bit_log2|].
  split; [|lia]. intros j Hj. apply Z.bits_above_log2; lia.
Qed.

Lemma rposition_spec {A} (p : A -> bool) l :
  match rposition p l with
  | Some k => exists x, l !! k = Some x /\ p x = true /\ forall k' y, (k < k')%nat -> l !! k' = Some y -> p y = false
  | None => forall k y, l !! k = Some y -> p y = false
  end.
Proof.
  assert (HR : forall k y, l !! k = Some y -> reverse l !! (length l - S k)%nat = Some y).
  { intros k y Hk. pose proof (lookup_lt_Some _ _ _ Hk). rewrite reverse_lookup by lia. by replace (length l - S (length l - S k))%nat with k by lia. }
  unfold rposition. destruct (position p (reverse l)) as [i|] eqn:E.
  - apply position_Some in E as (l1 & x & l2 & El & <- & Hp & Hall). assert (Hx : reverse l !! length l1 = Some x) by (rewrite El; by apply list_lookup_middle).
    pose proof (lookup_lt_Some _ _ _ Hx) as Hi. rewrite length_reverse in Hi. exists x. split; [|split; [done|]].
    + rewrite reverse_lookup in Hx by done. by replace (length l - 1 - length l1)%nat with (length l - S (length l1))%nat by lia.
    + intros k' y Hk Hy. pose proof (lookup_lt_Some _ _ _ Hy). apply HR in Hy. rewrite El, lookup_app_l in Hy by lia.
      exact (Forall_lookup_1 _ _ _ _ Hall Hy).
  - intros k y Hk. apply HR in Hk. apply position_None in E. exact (Forall_lookup_1 _ _ _ _ E Hk).
Qed.

(** The highest element up to the top of word [k] is in word [k]. *)
Lemma highest_in_word ws k w m : ws !! k = Some w -> is_word w -> is_word m -> Z.land w m <> 0 ->
  let pos := (max_bit (Z.land w m) + 64 * k)%nat in
  bit ws pos = true /\ (pos / 64 = k)%nat /\ Z.testbit m (Z.of_nat (pos mod 64)) = true
  /\ forall x, (x / 64 = k)%nat -> Z.testbit m (Z.of_nat (x mod 64)) = true -> (pos < x)%nat -> bit ws x = false.
Proof.
  intros Hk Hw Hm Hn. assert (Hl : is_word (Z.land w m)) by auto with word. destruct (max_bit_spec _ Hl Hn) as (H1 & H2 & H3).
  set (j := max_bit (Z.land w m)) in *. cbv zeta. rewrite (Nat.add_comm j). rewrite Z.land_spec in H1. apply andb_true_iff in H1 as [H1 H1m].
  assert (Hmod : ((64 * k + j) mod 64 = j)%nat) by (rewrite Nat.add_comm, Nat.mul_comm, Nat.Div0.mod_add; by apply Nat.mod_small).
  assert (Hdiv : ((64 * k + j) / 64 = k)%nat) by (rewrite Nat.mul_comm, Nat.div_add_l by lia; rewrite Nat.div_small by done; lia).
  split; [by rewrite (bit_at k j ws w)|]. split; [done|]. split; [by rewrite Hmod|]. intros x Hx Hxm Hlt.
  unfold bit. rewrite Hx, Hk. pose proof (split_index x). specialize (H2 (x mod 64)%nat ltac:(lia)). rewrite Z.land_spec, Hxm, andb_true_r in H2. done.
Qed.

(** The part of the last word up to [b], when the search finds nothing there from [a] on. *)
Lemma last_word_clear ws a b wb : ws !! (b / 64)%nat = Some wb -> is_word wb ->
  let m := Z.lor (bit_mask (b mod 64)) (wrap_u64 (bit_mask (b mod 64) - 1)) in
  negb (Z.land wb m =? 0) && (a <=? max_bit (Z.land wb m) + 64 * (b / 64))%nat = false ->
  forall y, (a <= y <= b)%nat -> (y / 64 = b / 64)%nat -> bit ws y = false.
Proof.
  intros Wb Vb m Hc y Hy Ey. pose proof (mod_lt b) as Mb. assert (Hm : is_word m) by by apply upto_mask_word.
  assert (Hmy : Z.testbit m (Z.of_nat (y mod 64)) = true).
  { unfold m. rewrite upto_mask_spec by done. apply Nat.leb_le. pose proof (split_index y). pose proof (split_index b). lia. }
  destruct (Z.eqb_spec (Z.land wb m) 0) as [Ez|Hn]; cbn [negb andb] in Hc.
  - unfold bit. rewrite Ey, Wb. apply (f_equal (fun z => Z.testbit z (Z.of_nat (y mod 64)))) in Ez.
    by rewrite Z.land_spec, Hmy, andb_true_r, Z.bits_0 in Ez.
  - destruct (highest_in_word _ _ _ m Wb Vb Hm Hn) as (_ & _ & _ & Hhi). apply Nat.leb_gt in Hc. apply Hhi; [done|done|lia].
Qed.

(** The words from [i] to before [j], from the top. *)
Lemma lower_words ws i j : Forall is_word ws -> (i <= j <= length ws)%nat ->
  match rposition (fun w => negb (w =? 0)) (take (j - i) (drop i ws)) with
  | Some k => exists w, ws !! (i + k)%nat = Some w /\ (k < j - i)%nat /\ (max_bit w < 64)%nat
      /\ bit ws (max_bit w + 64 * (i + k)) = true
      /\ forall y, (max_bit w + 64 * (i + k) < y)%nat -> (y / 64 < j)%nat -> bit ws y = false
  | None => forall y, (i <= y / 64 < j)%nat -> bit ws y = false
  end.
Proof.
  intros Hw Hij. pose proof (rposition_spec (fun w => negb (w =? 0)) (take (j - i) (drop i ws))) as HR.
  assert (Hl : forall y w, (i <= y / 64 < j)%nat -> ws !! (y / 64)%nat = Some w -> take (j - i) (drop i ws) !! (y / 64 - i)%nat = Some w).
  { intros y w Hy Hyw. rewrite lookup_take_lt, lookup_drop by lia. by replace (i + (y / 64 - i))%nat with (y / 64)%nat by lia. }
  assert (Hz : forall y w, negb (w =? 0) = false -> ws !! (y / 64)%nat = Some w -> bit ws y = false).
  { intros y w Hz Hyw. apply negb_false_iff, Z.eqb_eq in Hz. subst w. unfold bit. rewrite Hyw. apply Z.bits_0. }
  assert (Hnone : forall y, ws !! (y / 64)%nat = None -> bit ws y = false) by (intros y Hy; unfold bit; by rewrite Hy).
  destruct (rposition _ _) as [k|].
  - destruct HR as (w & Hwk & Hnz & Hafter). apply lookup_take_Some in Hwk as [Hwk Hk]. rewrite lookup_drop in Hwk.
    pose proof (Forall_lookup_1 _ _ _ _ Hw Hwk) as Vw. apply negb_true_iff, Z.eqb_neq in Hnz. destruct (max_bit_spec w Vw Hnz) as (H1 & H2 & H3).
    exists w. split; [done|]. split; [done|]. split; [done|]. split; [by rewrite Nat.add_comm, (bit_at _ _ _ w)|].
    intros y Hlt Hy. pose proof (split_index y). pose proof (mod_lt y). destruct (ws !! (y / 64)%nat) as [wy|] eqn:Ewy; [|by apply Hnone].
    destruct (decide (y / 64 = i + k)%nat) as [Ek|Ek].
    + unfold bit. rewrite Ewy. rewrite Ek, Hwk in Ewy. injection Ewy as <-. apply H2. lia.
    + apply (Hz y wy); [|done]. apply (Hafter (y / 64 - i)%nat); [lia|]. apply Hl; [lia|done].
  - intros y Hy. destruct (ws !! (y / 64)%nat) as [wy|] eqn:Ewy; [|by apply Hnone]. apply (Hz y wy); [|done]. apply (HR (y / 64 - i)%nat). by apply Hl.
Qed.

Lemma last_set_in_ok s r : wf s -> range_ok (domain_size s) r ->
  exists o, last_set_in s r = Ret o /\
    match o with
    | Some x => x ∈ s /\ in_range (domain_size s) r x /\ forall y, in_range (domain_size s) r y -> (x < y)%nat -> ~ y ∈ s
    | None => forall y, in_range (domain_size s) r y -> ~ y ∈ s
    end.
Proof.
  intros Hs Hr. unfold last_set_in. destruct (start_end_ok _ _ Hr) as (o & -> & Ho). cbn [obind].
  destruct o as [[a b]|]; [|exists None; split; [done|]; intros y Hy; by destruct (Ho y)].
  destruct Ho as [Hab Hx]. rewrite !index_and_mask.
  match goal with |- exists o, ?E = _ /\ _ => enough (exists o, E = Ret o /\
    match o with
    | Some x => x ∈ s /\ (a <= x <= b)%nat /\ forall y, (a <= y <= b)%nat -> (x < y)%nat -> ~ y ∈ s
    | None => forall y, (a <= y <= b)%nat -> ~ y ∈ s
    end) as (o & HEo & Ho) end.
  { exists o. split; [exact HEo|]. destruct o as [x|]; [rewrite Hx; split_and!; [apply Ho|apply Ho|apply Ho|]|]; intros y Hy%Hx; by apply Ho. }
  destruct (range_words s a b Hs Hab) as (Hle & Hla & Hlb).
  pose proof (wf_word s Hs) as Hw. pose proof (split_index a). pose proof (split_index b). pose proof (mod_lt a). pose proof (mod_lt b) as Mb.
  destruct (lookup_lt_is_Some_2 _ _ Hlb) as [wb Wb]. pose proof (Forall_lookup_1 _ _ _ _ Hw Wb) as Vb. rewrite Wb. cbn [unwrap obind].
  pose proof (last_word_clear (words s) a b wb Wb Vb) as HE. cbv zeta in HE. change WORD_BITS with 64%nat.
  set (m := Z.lor (bit_mask (b mod 64)) (wrap_u64 (bit_mask (b mod 64) - 1))) in *. assert (Hm : is_word m) by by apply upto_mask_word.
  set (pos := (max_bit (Z.land wb m) + 64 * (b / 64))%nat) in *.
  assert (HB : forall y, bit (words s) y = false -> ~ y ∈ s) by (intros y Hy; rewrite elem_of_bits; congruence).
  destruct (negb (Z.land wb m =? 0) && (a <=? pos)%nat) eqn:Ec.
  - apply andb_true_iff in Ec as [Hn Ha%Nat.leb_le]. apply negb_true_iff, Z.eqb_neq in Hn.
    destruct (highest_in_word _ _ _ m Wb Vb Hm Hn) as (Hb & Hd & Hmm & Hhi). fold pos in Hb, Hd, Hmm, Hhi. exists (Some pos). split; [done|]. split; [exact Hb|].
    assert (Hmb : forall y, (y / 64 = b / 64)%nat -> Z.testbit m (Z.of_nat (y mod 64)) = true <-> (y <= b)%nat).
    { intros y Ey. unfold m. rewrite upto_mask_spec, Nat.leb_le by done. pose proof (split_index y). lia. }
    apply Hmb in Hmm; [|done]. split; [lia|]. intros y Hy Hlt. apply HB. pose proof (split_index y). pose proof (mod_lt y).
    pose proof (split_index pos). pose proof (mod_lt pos). apply Hhi; [lia|apply Hmb; lia|done].
  - specialize (HE eq_refl). unfold get_range. rewrite !(proj2 (Nat.leb_le _ _)) by lia. cbn [andb unwrap obind].
    pose proof (lower_words (words s) (a / 64) (b / 64) Hw ltac:(lia)) as HL. destruct (rposition _ _) as [k|].
    + destruct HL as (w & -> & Hk & Hmax & Hbit & Hrest). cbn [unwrap obind]. set (low := (max_bit w + 64 * (a / 64 + k))%nat) in *.
      assert (Hnot : forall y, (a <= y <= b)%nat -> (low < y)%nat -> ~ y ∈ s).
      { intros y Hy Hlt. apply HB. pose proof (split_index y). pose proof (mod_lt y). destruct (decide (y / 64 = b / 64)%nat) as [Ey|Ey]; [by apply HE|].
        apply Hrest; lia. }
      eexists. split; [done|]. destruct (Nat.leb_spec a low) as [Hap|Hap].
      * split; [exact Hbit|]. split; [unfold low; lia|]. done.
      * intros y Hy. apply Hnot; lia.
    + exists None. split; [done|]. intros y Hy. apply HB. pose proof (split_index y). pose proof (mod_lt y).
      destruct (decide (y / 64 = b / 64)%nat) as [Ey|Ey]; [by apply HE|]. apply HL. lia.
Qed.

(** *** Iteration *)

Lemma word_bits_elem w j : j ∈ word_bits w <-> (j < 64)%nat /\ Z.testbit w (Z.of_nat j) = true.
Proof. unfold word_bits. rewrite list_elem_of_filter, elem_of_seq. change WORD_BITS with 64%nat. split; intros [? ?]; (split; [lia|done]) || (split; [done|lia]). Qed.

Lemma seq_split t n : (t < n)%nat -> seq 0 n = seq 0 t ++ t :: seq (S t) (n - S t).
Proof. intros Ht. replace n with (t + S (n - S t))%nat at 1 by lia. rewrite seq_app. cbn [seq]. done. Qed.

Lemma filter_on {A} (P Q : A -> Prop) `{!forall x, Decision (P x)} `{!forall x, Decision (Q x)} (l : list A) :
  (forall x, x ∈ l -> P x <-> Q x) -> filter P l = filter Q l.
Proof.
  induction l as [|x l IH]; intros HPQ; [done|]. rewrite !filter_cons, IH by (intros y Hy; apply HPQ; by right).
  pose proof (HPQ x ltac:(left)). do 2 case_decide; done || tauto.
Qed.

(** Taking the lowest bit off a word. *)
Lemma word_bits_next w : is_word w -> w <> 0 ->
  word_bits w = trailing_zeros w :: word_bits (Z.lxor w (Z.shiftl 1 (Z.of_nat (trailing_zeros w))))
  /\ is_word (Z.lxor w (Z.shiftl 1 (Z.of_nat (trailing_zeros w)))).
Proof.
  intros Hw Hn. destruct (trailing_zeros_spec w Hw Hn) as (H1 & H2 & H3). set (t := trailing_zeros w) in *. fold (bit_mask t).
  assert (Hx : forall j, Z.testbit (Z.lxor w (bit_mask t)) (Z.of_nat j) = if (j =? t)%nat then false else Z.testbit w (Z.of_nat j)).
  { intros j. rewrite Z.lxor_spec, bit_mask_spec. destruct (Nat.eqb_spec j t) as [->|]; [by rewrite H1|apply xorb_false_r]. }
  split.
  - unfold word_bits. change WORD_BITS with 64%nat. rewrite (seq_split t 64 H3), !filter_app.
    assert (HL : forall v, (forall j, (j < t)%nat -> Z.testbit v (Z.of_nat j) = false) -> filter (fun j => Z.testbit v (Z.of_nat j) = true) (seq 0 t) = []).
    { intros v Hv. rewrite (filter_on _ (fun _ => False)); [by induction (seq 0 t)|]. intros j Hj%elem_of_seq. by rewrite Hv by lia. }
    rewrite !HL; [|intros j Hj; rewrite Hx, (proj2 (Nat.eqb_neq _ _)) by lia; by apply H2|done]. cbn [app]. rewrite !filter_cons.
    rewrite decide_True by done. rewrite decide_False by (by rewrite Hx, Nat.eqb_refl). f_equal. apply filter_on.
    intros j Hj%elem_of_seq. by rewrite Hx, (proj2 (Nat.eqb_neq _ _)) by lia.
  - apply word_of_bits.
    + apply Z.lxor_nonneg. pose proof (bit_mask_word t H3) as [? _]. destruct Hw. tauto.
    + intros n Hn64. rewrite Z.lxor_spec, !word_high; [done|by apply bit_mask_word|done|done|done].
Qed.

(** The elements of the words from word [k] on. *)
Fixpoint items (k : nat) (ws : list Z) : list nat :=
  match ws with [] => [] | w :: ws => ((fun j => 64 * k + j)%nat <$> word_bits w) ++ items (S k) ws end.

Lemma items_elem ws k x : x ∈ items k ws <-> (64 * k <= x)%nat /\ bit ws (x - 64 * k) = true.
Proof.
  revert k. induction ws as [|w ws IH]; intros k; cbn [items].
  - split; [intros H; by apply elem_of_nil in H|]. intros [_ Hb]. unfold bit in Hb. done.
  - rewrite elem_of_app, IH, list_elem_of_fmap, bit_cons. split.
    + intros [(j & -> & [Hj Hb]%word_bits_elem)|[Hx Hb]].
      * split; [lia|]. replace (64 * k + j - 64 * k)%nat with j by lia. by rewrite (proj2 (Nat.ltb_lt _ _)).
      * split; [lia|]. destruct (Nat.ltb_spec (x - 64 * k) 64); [lia|]. by replace (x - 64 * k - 64)%nat with (x - 64 * S k)%nat by lia.
    + intros [Hx Hb]. destruct (Nat.ltb_spec (x - 64 * k) 64) as [Hl|Hl].
      * left. exists (x - 64 * k)%nat. split; [lia|]. apply word_bits_elem. auto.
      * right. split; [lia|]. by replace (x - 64 * S k)%nat with (x - 64 * k - 64)%nat by lia.
Qed.

Lemma word_bits_sorted w : StronglySorted lt (word_bits w).
Proof.
  unfold word_bits. generalize 0%nat as s. induction WORD_BITS as [|n IH]; intros s; cbn [seq]; [constructor|]. rewrite filter_cons.
  case_decide; [|apply IH]. constructor; [apply IH|]. apply Forall_forall. intros x [_ Hx%elem_of_seq]%list_elem_of_filter. lia.
Qed.

Lemma items_sorted ws k : StronglySorted lt (items k ws).
Proof.
  revert k. induction ws as [|w ws IH]; intros k; cbn [items]; [constructor|]. apply StronglySorted_app_iff. split; [|split; [apply IH|]].
  - pose proof (word_bits_sorted w) as Hs. induction Hs as [|j l Hs IHs Hj]; cbn [fmap list_fmap]; constructor; [done|].
    apply Forall_fmap. eapply Forall_impl; [exact Hj|]. intros x Hx. cbn. lia.
  - apply Forall_forall. intros x (j & -> & [Hj _]%word_bits_elem)%list_elem_of_fmap. apply Forall_forall. intros y [Hy _]%items_elem. lia.
Qed.

(** The offset before word [k]; the first one wraps around. *)
Definition offset_before (k : nat) : Z := wrap_u64 (64 * Z.of_nat k - 64).

Lemma next_nonzero w off ws : w <> 0 -> bit_iter_next (mkBitIter w off ws)
  = Some (Z.to_nat (Z.of_nat (trailing_zeros w) + off), mkBitIter (Z.lxor w (Z.shiftl 1 (Z.of_nat (trailing_zeros w)))) off ws).
Proof. intros Hn%Z.eqb_neq. unfold bit_iter_next. cbn [word offset rest]. destruct ws; cbn [bit_iter_next_loop]; by rewrite Hn. Qed.

Lemma collect_next fuel it it' : bit_iter_next it = bit_iter_next it' -> collect fuel it = collect fuel it'.
Proof. intros E. destruct fuel; cbn [collect]; by rewrite E. Qed.

Lemma collect_word n fuel w k ws : length (word_bits w) = n -> is_word w -> (1 <= k)%nat -> (n <= fuel)%nat ->
  64 * Z.of_nat k <= 2 ^ 64 ->
  collect fuel (mkBitIter w (offset_before k) ws)
  = let* l := collect (fuel - n) (mkBitIter 0 (offset_before k) ws) in Ret (((fun j => 64 * (k - 1) + j)%nat <$> word_bits w) ++ l).
Proof.
  intros Hn Hw Hk Hf Hb. revert w fuel Hn Hw Hf. induction n as [|n IH]; intros w fuel Hn Hw Hf; destruct (Z.eq_dec w 0) as [->|Hz].
  - rewrite Nat.sub_0_r. change (word_bits 0) with (@nil nat). cbn [fmap list_fmap app]. by destruct (collect fuel _).
  - destruct (word_bits_next w Hw Hz) as [E _]. by rewrite E in Hn.
  - done.
  - destruct (word_bits_next w Hw Hz) as [E Hw']. rewrite E in Hn |- *. injection Hn as Hn. destruct fuel as [|fuel]; [lia|].
    cbn [collect]. rewrite next_nonzero by done. rewrite (IH _ fuel Hn Hw') by lia. cbn [Nat.sub fmap list_fmap].
    assert (Hoff : offset_before k = 64 * Z.of_nat k - 64) by (unfold offset_before, wrap_u64; change (2 ^ 64) with 18446744073709551616 in Hb; rewrite Z.mod_small; lia).
    rewrite Hoff. replace (Z.to_nat (Z.of_nat (trailing_zeros w) + (64 * Z.of_nat k - 64))) with (64 * (k - 1) + trailing_zeros w)%nat by lia.
    by destruct (collect (fuel - n) _).
Qed.

Lemma word_bits_len w : (length (word_bits w) <= 64)%nat.
Proof. unfold word_bits. etrans; [apply length_filter|]. by rewrite length_seq. Qed.

Lemma collect_items ws k fuel : Forall is_word ws -> (64 * length ws <= fuel)%nat -> 64 * Z.of_nat (k + length ws) <= 2 ^ 64 ->
  collect fuel (mkBitIter 0 (offset_before k) ws) = Ret (items k ws).
Proof.
  revert k fuel. induction ws as [|w ws IH]; intros k fuel Hw Hf Hb; [by destruct fuel|].
  apply Forall_cons in Hw as [Hww Hw]. cbn [length] in *. pose proof (word_bits_len w) as Hl.
  rewrite (collect_next fuel _ (mkBitIter w (offset_before (S k)) ws)).
  - rewrite (collect_word _ fuel w (S k) ws eq_refl) by (done || lia). rewrite IH by (done || lia). cbn [obind items].
    by replace (S k - 1)%nat with k by lia.
  - unfold bit_iter_next. cbn [word offset rest bit_iter_next_loop Z.eqb negb]. f_equal. unfold offset_before, wrap_u64.
    rewrite Zplus_mod_idemp_l. f_equal. lia.
Qed.

Lemma iter_ok s : wf s -> Z.of_nat (domain_size s) <= u64_max - 63 ->
  iter s = Ret (items 0 (words s)) /\ count s = length (items 0 (words s)).
Proof.
  intros Hs Hd. split.
  - unfold iter. change WORD_BITS with 64%nat. apply (collect_items (words s) 0); [apply Hs|done|].
    pose proof (num_words_bound (domain_size s)). rewrite (wf_len s Hs). unfold u64_max in Hd. change (2 ^ 64) with 18446744073709551616. lia.
  - unfold count, count_ones. generalize 0%nat as k. induction (words s) as [|w ws IH]; intros k; [done|].
    cbn [fmap list_fmap sum_list items]. rewrite length_app, length_fmap. f_equal. apply IH.
Qed.

(** *** Growing *)

Lemma num_words_mono a b : (a <= b)%nat -> (num_words a <= num_words b)%nat.
Proof. intros Hab. unfold num_words, WORD_BITS. apply Nat.Div0.div_le_mono. lia. Qed.

Lemma bit_app_zero ws n i : bit (ws ++ replicate n 0) i = bit ws i.
Proof.
  unfold bit. destruct (Nat.lt_ge_cases (i / 64) (length ws)) as [Hi|Hi]; [by rewrite lookup_app_l|].
  rewrite lookup_app_r by done. rewrite (lookup_ge_None_2 ws) by done. destruct (replicate n 0 !! (i / 64 - length ws)%nat) as [w|] eqn:E; [|done].
  apply lookup_replicate in E as [-> _]. apply Z.bits_0.
Qed.

Lemma ensure_ok s n : wf s -> wf (ensure s n) /\ (forall x, x ∈ ensure s n <-> x ∈ s)
  /\ domain_size (ensure s n) = Nat.max (domain_size s) n.
Proof.
  intros Hs. set (s' := ensure s n). assert (Hd : domain_size s' = Nat.max (domain_size s) n).
  { unfold s', ensure. cbn [domain_size]. destruct (Nat.ltb_spec (domain_size s) n); lia. }
  pose proof (num_words_mono n (domain_size s)) as HM1. pose proof (num_words_mono (domain_size s) n) as HM2. pose proof (wf_len s Hs) as Hl.
  assert (Hw : words s' = words s ++ replicate (num_words (domain_size s') - length (words s)) 0).
  { rewrite Hd, Hl. unfold s', ensure. cbn [words]. destruct (Nat.ltb_spec (length (words s)) (num_words n)) as [Hlt|Hge].
    - unfold resize_zero. rewrite take_ge by lia. rewrite Hl. assert (domain_size s < n)%nat by (destruct (Nat.lt_ge_cases (domain_size s) n); [done|lia]).
      by rewrite Nat.max_r by lia.
    - replace (num_words (Nat.max (domain_size s) n) - num_words (domain_size s))%nat with 0%nat; [by rewrite app_nil_r|].
      destruct (Nat.le_ge_cases n (domain_size s)); [rewrite Nat.max_l by done; lia|rewrite Nat.max_r by done; lia]. }
  assert (HB : forall x, bit (words s') x = bit (words s) x) by (intros x; rewrite Hw; apply bit_app_zero).
  assert (HM : (num_words (domain_size s) <= num_words (domain_size s'))%nat) by (apply num_words_mono; lia).
  split; [split|split; [intros x; by rewrite !elem_of_bits, HB|done]].
  - rewrite Hw, length_app, length_replicate. lia.
  - rewrite Hw. apply Forall_app. split; [apply Hs|apply Forall_replicate, is_word_zero].
  - intros i. rewrite HB. intros Hi%(wf_domain s Hs). lia.
Qed.

Lemma growable_contains_ok s x : wf s -> growable_contains s x = true <-> x ∈ s.
Proof.
  intros Hs. unfold growable_contains. rewrite index_and_mask, elem_of_bits. unfold bit. destruct (words s !! (x / 64)%nat) as [w|] eqn:E; [|done].
  pose proof (Forall_lookup_1 _ _ _ _ (wf_word s Hs) E). by rewrite land_mask by auto with word.
Qed.
