(* ===== verification/BitSetTheorems.v ===== *)
(** * Bit sets: the theorems *)
From Stdlib Require Import ZArith Lia Sorted.
From stdpp Require Import base numbers list.
From S2P Require Import Prelude RustSlice Swar BitSet BitSetFacts.
Open Scope Z_scope.
Open Scope rust_scope.

(** What an update with a change flag promises: the elements after it, and whether any changed. *)
Definition updates (m : outcome (bool * DenseBitSet)) (s : DenseBitSet) (P : nat -> Prop) : Prop :=
  runs m (fun q => wf q.2 /\ domain_size q.2 = domain_size s /\ (forall x, x ∈ q.2 <-> P x)
    /\ (q.1 = true <-> exists x, ~ (P x <-> x ∈ s))).

Lemma bitwise_updates op f s other (P : nat -> Prop) : (forall a b, is_word a -> is_word b -> is_word (op a b)) ->
  (forall a b j, is_word a -> is_word b -> (j < 64)%nat -> Z.testbit (op a b) (Z.of_nat j) = f (Z.testbit a (Z.of_nat j)) (Z.testbit b (Z.of_nat j))) ->
  f false false = false -> wf s -> wf other -> domain_size s = domain_size other ->
  (forall x, f (bit (words s) x) (bit (words other) x) = true <-> P x) -> updates (bitwise op s other) s P.
Proof.
  intros Hop Hf Hff Hs Ho Hd HP. destruct (bitwise_ok op f Hop Hf s other Hff Hs Ho Hd) as (c & s' & E & Hw & Hd' & Hx & Hc).
  exists (c, s'). split; [done|]. cbn [fst snd]. split; [done|]. split; [done|].
  assert (HX : forall x, x ∈ s' <-> P x) by (intros x; by rewrite Hx, HP). split; [done|]. rewrite Hc.
  split; intros (x & Hn); exists x; [by rewrite <- HX|by rewrite HX].
Qed.

Lemma union_not_ok s other : wf s -> wf other -> domain_size s = domain_size other ->
  runs (union_not s other) (fun q => wf q /\ domain_size q = domain_size s
    /\ forall x, x ∈ q <-> (x < domain_size s)%nat /\ (x ∈ s \/ ~ x ∈ other)).
Proof.
  intros Hs Ho Hd. unfold union_not.
  destruct (bitwise_raw (fun a b => Z.lor a (not_u64 b)) (fun a b => a || negb b)) with (s := s) (other := other) as (c & ws & -> & Hl & Hw & Hb & _); try done.
  - intros a b Ha Hb. auto with word.
  - intros a b j Ha Hb Hj. rewrite Z.lor_spec, not_u64_spec by (done || lia). by replace (Z.of_nat j <? 64) with true by (symmetry; apply Z.ltb_lt; lia).
  - cbn [obind]. unfold clear_excess_bits. cbn [set_words words domain_size].
    destruct (clear_excess_ok (domain_size s) ws) as (ws' & -> & Hwf & Hb'); [rewrite Hl; apply Hs|done|]. cbn [obind].
    eexists. split; [done|]. split; [exact Hwf|]. split; [done|]. intros x. rewrite !elem_of_bits. cbn [words set_words]. rewrite Hb', andb_true_iff, Nat.ltb_lt.
    split; intros [H1 H2].
    + rewrite Hb, orb_true_iff, negb_true_iff in H1 by (rewrite (wf_len s Hs); by apply num_words_lt). split; [done|]. destruct H1 as [H1|H1]; [by left|right; congruence].
    + split; [|done]. rewrite Hb, orb_true_iff, negb_true_iff by (rewrite (wf_len s Hs); by apply num_words_lt).
      destruct H2 as [H2|H2]; [by left|right; by apply not_true_iff_false].
Qed.

(** C39: the operations of a dense bit set on elements of its domain and on sets of the same domain do
    not panic, keep the bits outside the domain clear, and are those of mathematical sets; every change
    flag is true exactly when the set changed, as documented. *)
Theorem dense_set_operations (s other : DenseBitSet) (i : nat) :
  wf s -> wf other -> domain_size s = domain_size other -> (i < domain_size s)%nat ->
  runs (contains s i) (fun c => c = true <-> i ∈ s) /\
  updates (insert s i) s (fun x => x ∈ s \/ x = i) /\
  updates (remove s i) s (fun x => x ∈ s /\ x <> i) /\
  updates (union s other) s (fun x => x ∈ s \/ x ∈ other) /\
  updates (subtract s other) s (fun x => x ∈ s /\ ~ x ∈ other) /\
  updates (intersect s other) s (fun x => x ∈ s /\ x ∈ other) /\
  runs (union_not s other) (fun q => wf q /\ domain_size q = domain_size s
    /\ forall x, x ∈ q <-> (x < domain_size s)%nat /\ (x ∈ s \/ ~ x ∈ other)) /\
  runs (insert_all s) (fun q => wf q /\ domain_size q = domain_size s /\ forall x, x ∈ q <-> (x < domain_size s)%nat) /\
  runs (superset s other) (fun c => c = true <-> forall x, x ∈ other -> x ∈ s) /\
  (is_empty s = true <-> forall x, ~ x ∈ s).
Proof.
  intros Hs Ho Hd Hi. split; [exists (bit (words s) i); split; [by apply dense_contains_ok|done]|].
  split; [|split; [|split; [|split; [|split; [|split; [by apply union_not_ok|split; [|split; [|by apply is_empty_ok]]]]]]]].
  - destruct (dense_insert_ok s i Hs Hi) as (c & s' & E & Hw & Hd' & Hx & Hc). exists (c, s'). split; [done|]. cbn [fst snd].
    split; [done|]. split; [done|]. split; [done|]. rewrite Hc. split; [intros Hn; exists i; tauto|]. intros (x & Hn) Hin. apply Hn. split; [|tauto]. intros [Hx'| ->]; done.
  - destruct (dense_remove_ok s i Hs Hi) as (c & s' & E & Hw & Hd' & Hx & Hc). exists (c, s'). split; [done|]. cbn [fst snd].
    split; [done|]. split; [done|]. split; [done|]. rewrite Hc. split; [intros Hn; exists i; tauto|]. intros (x & Hn).
    destruct (decide (x = i)) as [->|Hne]; [|tauto]. rewrite elem_of_bits in *. destruct (bit (words s) i); [done|]. destruct Hn. split; [tauto|done].
  - apply (bitwise_updates _ orb); try done; [auto with word|intros; apply Z.lor_spec|intros x; apply orb_true_iff].
  - apply (bitwise_updates _ (fun a b => a && negb b)); try done; [auto with word| |].
    + intros a b j Ha Hb Hj. rewrite Z.land_spec, not_u64_spec by (done || lia). by replace (Z.of_nat j <? 64) with true by (symmetry; apply Z.ltb_lt; lia).
    + intros x. by rewrite andb_true_iff, negb_true_iff, !elem_of_bits, not_true_iff_false.
  - apply (bitwise_updates _ andb); try done; [auto with word|intros; apply Z.land_spec|intros x; apply andb_true_iff].
  - destruct (dense_insert_all_ok s Hs) as (s' & E & Hw & Hd' & Hx). by exists s'.
  - destruct (dense_superset_ok s other Hs Ho Hd) as (b & E & Hb). by exists b.
Qed.

(** The range operations, which work a word at a time with masks for the two end words, agree with
    the elements: [insert_range] adds exactly the range, [contains_any] tells whether the range meets the
    set, [last_set_in] is the greatest element of the range, [first_set_at_or_after] the least element
    from an index on. They return for every range that ends inside the domain, and panic otherwise. *)
Theorem dense_range_operations (s : DenseBitSet) (r : RangeBounds) (i : nat) : wf s -> (i < domain_size s)%nat ->
  (range_ok (domain_size s) r ->
    runs (insert_range s r) (fun q => wf q /\ domain_size q = domain_size s /\ forall x, x ∈ q <-> x ∈ s \/ in_range (domain_size s) r x) /\
    runs (contains_any s r) (fun c => c = true <-> exists x, in_range (domain_size s) r x /\ x ∈ s) /\
    runs (last_set_in s r) (fun o =>
      match o with
      | Some x => x ∈ s /\ in_range (domain_size s) r x /\ forall y, in_range (domain_size s) r y -> (x < y)%nat -> ~ y ∈ s
      | None => forall y, in_range (domain_size s) r y -> ~ y ∈ s
      end)) /\
  (~ range_ok (domain_size s) r -> insert_range s r = Panic /\ contains_any s r = Panic /\ last_set_in s r = Panic) /\
  runs (first_set_at_or_after s i) (fun o =>
    match o with
    | Some x => x ∈ s /\ (i <= x)%nat /\ forall y, (i <= y < x)%nat -> ~ y ∈ s
    | None => forall y, (i <= y)%nat -> ~ y ∈ s
    end).
Proof.
  intros Hs Hi. split; [|split].
  - intros Hr. split; [|split].
    + destruct (dense_insert_range_ok s r Hs Hr) as (s' & E & H). by exists s'.
    + destruct (contains_any_ok s r Hs Hr) as (c & E & H). by exists c.
    + destruct (last_set_in_ok s r Hs Hr) as (o & E & H). by exists o.
  - intros Hr. assert (E : inclusive_start_end r (domain_size s) = Panic).
    { unfold inclusive_start_end, range_ok in *. destruct r as [sb [e|[|e]|]]; cbn [start_bound end_bound] in *; try lia;
        unfold assert_that; rewrite (proj2 (Nat.ltb_ge _ _)) by lia; done. }
    unfold insert_range, contains_any, last_set_in. by rewrite E.
  - destruct (first_set_ok s i Hs Hi) as (o & E & H). by exists o.
Qed.

(** Iterating a bit set yields its elements in increasing order, each once, although the iterator
    starts from a wrapped offset; [count] is their number; and sets of one domain with the same elements
    are equal as vectors of words, so that derived equality is equality of sets. *)
Theorem iter_count_equality (s other : DenseBitSet) :
  wf s -> wf other -> domain_size s = domain_size other -> Z.of_nat (domain_size s) <= u64_max - 63 ->
  (exists l, iter s = Ret l /\ StronglySorted lt l /\ (forall x, x ∈ l <-> x ∈ s) /\ count s = length l) /\
  (words s = words other <-> forall x, x ∈ s <-> x ∈ other).
Proof.
  intros Hs Ho Hd Hlim. destruct (iter_ok s Hs Hlim) as [E Hc]. split.
  - exists (items 0 (words s)). split; [done|]. split; [apply items_sorted|]. split; [|done]. intros x. rewrite items_elem, elem_of_bits.
    replace (x - 64 * 0)%nat with x by lia. split; [tauto|]. intros; split; [lia|done].
  - split; [intros Ew x; by rewrite !elem_of_bits, Ew|]. intros Hx. apply words_ext; [apply Hs|apply Ho| |].
    + by rewrite (wf_len s Hs), (wf_len other Ho), Hd.
    + intros i. specialize (Hx i). rewrite !elem_of_bits in Hx. destruct (bit (words s) i), (bit (words other) i); naive_solver.
Qed.

(** A growable set takes any element: [insert] and [remove] grow the domain to include it and change
    that element alone, [insert_range] adds the range, [contains] answers for every index, also outside
    the domain, and [contains_any] for every range; growing never changes the elements. *)
Theorem growable_operations (s : DenseBitSet) (i a b : nat) : wf s ->
  updates (growable_insert s i) (ensure s (i + 1)) (fun x => x ∈ s \/ x = i) /\
  updates (growable_remove s i) (ensure s (i + 1)) (fun x => x ∈ s /\ x <> i) /\
  runs (growable_insert_range s a b) (fun q => wf q /\ forall x, x ∈ q <-> x ∈ s \/ (a <= x < b)%nat) /\
  (growable_contains s i = true <-> i ∈ s) /\
  runs (growable_contains_any s a b) (fun c => c = true <-> exists x, (a <= x < b)%nat /\ x ∈ s).
Proof.
  intros Hs. destruct (ensure_ok s (i + 1) Hs) as (Hw1 & Hx1 & Hd1). destruct (ensure_ok s b Hs) as (Hw2 & Hx2 & Hd2).
  split; [|split; [|split; [|split; [by apply growable_contains_ok|]]]].
  - unfold growable_insert. destruct (dense_insert_ok (ensure s (i + 1)) i Hw1) as (c & s' & E & Hw & Hd & Hx & Hc); [lia|]. exists (c, s'). split; [done|]. cbn [fst snd].
    split; [done|]. split; [done|]. split; [intros x; by rewrite Hx, Hx1|]. rewrite Hc. split; [intros Hn; exists i; rewrite Hx1 in *; tauto|].
    intros (x & Hn) Hin. apply Hn. rewrite Hx1 in *. split; [|tauto]. intros [Hx'| ->]; done.
  - unfold growable_remove. destruct (dense_remove_ok (ensure s (i + 1)) i Hw1) as (c & s' & E & Hw & Hd & Hx & Hc); [lia|]. exists (c, s'). split; [done|]. cbn [fst snd].
    split; [done|]. split; [done|]. split; [intros x; by rewrite Hx, Hx1|]. rewrite Hc. split; [intros Hn; exists i; rewrite Hx1 in *; tauto|].
    intros (x & Hn). destruct (decide (x = i)) as [->|Hne]; [|rewrite Hx1 in Hn; tauto]. rewrite Hx1 in *. rewrite elem_of_bits in *. destruct (bit (words s) i); [done|]. destruct Hn. split; [tauto|done].
  - unfold growable_insert_range. destruct (dense_insert_range_ok (ensure s b) (mkRange (Included a) (Excluded b)) Hw2) as (s' & E & Hw & Hd & Hx); [unfold range_ok; cbn [end_bound]; lia|].
    exists s'. split; [done|]. split; [done|]. intros x. by rewrite Hx, Hx2.
  - unfold growable_contains_any. destruct (Nat.ltb_spec a (domain_size s)) as [Ha|Ha].
    + destruct (contains_any_ok s (mkRange (Included a) (Excluded (Nat.min b (domain_size s)))) Hs) as (c & E & Hc); [cbn; lia|].
      exists c. split; [done|]. rewrite Hc. unfold in_range, from_start, to_end. cbn [start_bound end_bound].
      split; intros (x & Hr & Hx); exists x; (split; [|done]); [lia|]. pose proof (wf_domain s Hs x Hx). lia.
    + exists false. split; [done|]. split; [done|]. intros (x & Hr & Hx). pose proof (wf_domain s Hs x Hx). lia.
Qed.

(** ** Witnesses *)

(** The elements 60 to 69 of a domain of 200, across a word boundary. *)
Definition sample_set : DenseBitSet :=
  match insert_range (new_empty 200) (mkRange (Included 60%nat) (Excluded 70%nat)) with Ret s => s | _ => new_empty 200 end.

Lemma sample_set_wf : wf sample_set /\ domain_size sample_set = 200%nat.
Proof.
  destruct (dense_insert_range_ok (new_empty 200) (mkRange (Included 60%nat) (Excluded 70%nat)) (proj1 (new_empty_ok 200))) as (s & E & Hw & Hd & _).
  - vm_compute. lia.
  - unfold sample_set. rewrite E. split; [exact Hw|exact Hd].
Qed.

Example sample_iter : iter sample_set = Ret (seq 60 10) /\ count sample_set = 10%nat.
Proof. vm_compute. done. Qed.

Lemma dense_set_operations_witness : updates (insert sample_set 70) sample_set (fun x => x ∈ sample_set \/ x = 70%nat).
Proof.
  destruct sample_set_wf as [Hw Hd]. apply (dense_set_operations sample_set sample_set 70 Hw Hw eq_refl). rewrite Hd. lia.
Defined.

Lemma dense_range_operations_witness :
  runs (contains_any sample_set (mkRange (Included 69%nat) (Excluded 130%nat)))
    (fun c => c = true <-> exists x, in_range 200 (mkRange (Included 69%nat) (Excluded 130%nat)) x /\ x ∈ sample_set).
Proof.
  destruct sample_set_wf as [Hw Hd]. pose proof (dense_range_operations sample_set (mkRange (Included 69%nat) (Excluded 130%nat)) 0 Hw) as HT.
  rewrite Hd in HT. destruct HT as [HT _]; [lia|]. apply HT. cbn. lia.
Defined.

Lemma iter_count_equality_witness :
  exists l, iter sample_set = Ret l /\ StronglySorted lt l /\ (forall x, x ∈ l <-> x ∈ sample_set) /\ count sample_set = length l.
Proof.
  destruct sample_set_wf as [Hw Hd]. apply (iter_count_equality sample_set sample_set Hw Hw eq_refl). rewrite Hd. vm_compute. discriminate.
Defined.

Lemma growable_operations_witness : growable_contains sample_set 500 = true <-> 500%nat ∈ sample_set.
Proof. apply (growable_operations sample_set 500 0 0). apply sample_set_wf. Defined.
