(* ===== verification/Chunked.v ===== *)
(** * Chunked and mixed bit sets ([src/rustc_index/bit_set.rs])

    [ChunkedBitSet] keeps a chunk of 2048 bits as "all zeros", "all ones" or explicit words;
    [MixedBitSet] is a dense set for small domains and a chunked one for large domains.  The words of a
    chunk are behind an [Rc] that is copied before it is written ([Rc::make_mut]), so a chunk is a value
    here.  [ChunkSize] is [u16]; the casts to it are written out. *)
From Stdlib Require Import ZArith Lia.
From stdpp Require Import base numbers list.
From S2P Require Import Prelude Swar BitSet.
Open Scope Z_scope.
Open Scope rust_scope.

Definition CHUNK_WORDS : nat := 32.
Definition CHUNK_BITS : nat := (CHUNK_WORDS * WORD_BITS)%nat.

(** [n as ChunkSize]. *)
Definition as_chunk_size (n : nat) : nat := Z.to_nat (Z.of_nat n mod 65536).

Inductive Chunk : Type :=
| Zeros (chunk_domain_size : nat)
| Ones (chunk_domain_size : nat)
| Mixed (chunk_domain_size ones_count : nat) (words : list Z).

Record ChunkedBitSet := mkChunked { chunked_domain_size : nat; chunks : list Chunk }.

Definition set_chunks (s : ChunkedBitSet) (cs : list Chunk) : ChunkedBitSet := mkChunked (chunked_domain_size s) cs.

Definition chunk_index (elem : nat) : nat := (elem / CHUNK_BITS)%nat.
Definition chunk_word_index_and_mask (elem : nat) : nat * Z := word_index_and_mask (elem mod CHUNK_BITS)%nat.

(** [count_ones(words) as ChunkSize]. *)
Definition count_chunk (words : list Z) : nat := as_chunk_size (count_ones words).

(** ** [would_modify_words] *)

(** [slice::as_chunks::<N>]: the full chunks and the tail. *)
Definition as_chunks {A} (n : nat) (l : list A) : list (list A) * list A :=
  let k := (length l / n)%nat in
  ((fun i => take n (drop (i * n) l)) <$> seq 0 k, drop (k * n) l).

Definition SUBCHUNK_LEN : nat := 8.

Definition would_modify_subchunk (op : Z -> Z -> Z) (lhs rhs : list Z) : bool :=
  negb (foldl (fun changed '(old_val, rhs_val) => Z.lor changed (Z.lxor old_val (op old_val rhs_val))) 0 (zip lhs rhs) =? 0).

Definition would_modify_words (lhs rhs : list Z) (op : Z -> Z -> Z) : outcome bool :=
  let* _ := assert_that (length lhs =? length rhs)%nat in
  let '(lhs_chunks, lhs_tail) := as_chunks SUBCHUNK_LEN lhs in
  let '(rhs_chunks, rhs_tail) := as_chunks SUBCHUNK_LEN rhs in
  Ret (existsb (fun '(l, r) => would_modify_subchunk op l r) (zip lhs_chunks rhs_chunks)
       || would_modify_subchunk op lhs_tail rhs_tail).

(** ** [ChunkedBitSet] *)

Definition chunked_new (domain_size : nat) (is_empty : bool) : outcome ChunkedBitSet :=
  if (domain_size =? 0)%nat then Ret (mkChunked domain_size [])
  else
    let num_chunks := ((domain_size + (CHUNK_BITS - 1)) / CHUNK_BITS)%nat in
    let last := (domain_size mod CHUNK_BITS)%nat in
    let last := if (last =? 0)%nat then CHUNK_BITS else last in
    let '(normal_chunk, final_chunk) :=
      if is_empty then (Zeros (as_chunk_size CHUNK_BITS), Zeros (as_chunk_size last))
      else (Ones (as_chunk_size CHUNK_BITS), Ones (as_chunk_size last)) in
    let cs := replicate num_chunks normal_chunk in
    let* cs := set_index cs (length cs - 1) final_chunk in
    Ret (mkChunked domain_size cs).

Definition chunked_new_empty (domain_size : nat) : outcome ChunkedBitSet := chunked_new domain_size true.
Definition chunked_new_filled (domain_size : nat) : outcome ChunkedBitSet := chunked_new domain_size false.
Definition chunked_clear (s : ChunkedBitSet) : outcome ChunkedBitSet := chunked_new_empty (chunked_domain_size s).
Definition chunked_insert_all (s : ChunkedBitSet) : outcome ChunkedBitSet := chunked_new_filled (chunked_domain_size s).

Definition chunk_count (c : Chunk) : nat :=
  match c with Zeros _ => 0 | Ones d => d | Mixed _ ones_count _ => ones_count end%nat.

Definition chunked_count (s : ChunkedBitSet) : nat := sum_list (chunk_count <$> chunks s).

Definition chunked_is_empty (s : ChunkedBitSet) : bool :=
  forallb (fun c => match c with Zeros _ => true | _ => false end) (chunks s).

Definition chunked_contains (s : ChunkedBitSet) (elem : nat) : outcome bool :=
  let* _ := assert_that (elem <? chunked_domain_size s)%nat in
  let* chunk := unwrap (chunks s !! chunk_index elem) in
  match chunk with
  | Zeros _ => Ret false
  | Ones _ => Ret true
  | Mixed _ _ words =>
      let '(word_index, mask) := chunk_word_index_and_mask elem in
      let* w := unwrap (words !! word_index) in
      Ret (negb (Z.land w mask =? 0))
  end.

(** The body of [insert] on the chunk of the element. *)
Definition chunk_insert (chunk : Chunk) (elem : nat) : outcome (bool * Chunk) :=
  let '(word_index, mask) := chunk_word_index_and_mask elem in
  match chunk with
  | Zeros d =>
      if (1 <? d)%nat then
        let* words := update_word (replicate CHUNK_WORDS 0) word_index (fun w => Z.lor w mask) in
        Ret (true, Mixed d 1 words)
      else Ret (true, Ones d)
  | Ones d => Ret (false, Ones d)
  | Mixed d ones_count words =>
      let* w := unwrap (words !! word_index) in
      if Z.land w mask =? 0 then
        let ones_count := S ones_count in
        if (ones_count <? d)%nat then
          let* words := update_word words word_index (fun w => Z.lor w mask) in
          Ret (true, Mixed d ones_count words)
        else Ret (true, Ones d)
      else Ret (false, chunk)
  end.

Definition chunked_insert (s : ChunkedBitSet) (elem : nat) : outcome (bool * ChunkedBitSet) :=
  let* _ := assert_that (elem <? chunked_domain_size s)%nat in
  let* chunk := unwrap (chunks s !! chunk_index elem) in
  let* '(changed, chunk) := chunk_insert chunk elem in
  Ret (changed, set_chunks s (<[chunk_index elem := chunk]> (chunks s))).

(** [words[..n].fill(!0)], then [clear_excess_bits_in_final_word] on that prefix. *)
Definition fill_chunk (d : nat) : outcome (list Z) :=
  let n := num_words d in
  let* ws := fill_words 0 n (replicate CHUNK_WORDS 0) in
  let* pre := unwrap (get_range ws 0 n) in
  let* pre := clear_excess_bits_in_final_word d pre in
  Ret (pre ++ drop n ws).

Definition chunk_remove (chunk : Chunk) (elem : nat) : outcome (bool * Chunk) :=
  let '(word_index, mask) := chunk_word_index_and_mask elem in
  match chunk with
  | Zeros d => Ret (false, Zeros d)
  | Ones d =>
      if (1 <? d)%nat then
        let* words := fill_chunk d in
        let* words := update_word words word_index (fun w => Z.land w (not_u64 mask)) in
        Ret (true, Mixed d (d - 1) words)
      else Ret (true, Zeros d)
  | Mixed d ones_count words =>
      let* w := unwrap (words !! word_index) in
      if negb (Z.land w mask =? 0) then
        let ones_count := (ones_count - 1)%nat in
        if (0 <? ones_count)%nat then
          let* words := update_word words word_index (fun w => Z.land w (not_u64 mask)) in
          Ret (true, Mixed d ones_count words)
        else Ret (true, Zeros d)
      else Ret (false, chunk)
  end.

Definition chunked_remove (s : ChunkedBitSet) (elem : nat) : outcome (bool * ChunkedBitSet) :=
  let* _ := assert_that (elem <? chunked_domain_size s)%nat in
  let* chunk := unwrap (chunks s !! chunk_index elem) in
  let* '(changed, chunk) := chunk_remove chunk elem in
  Ret (changed, set_chunks s (<[chunk_index elem := chunk]> (chunks s))).

(** The turn of the loop of [union] for one pair of chunks. *)
Definition chunk_union (self_chunk other_chunk : Chunk) : outcome (bool * Chunk) :=
  match self_chunk, other_chunk with
  | _, Zeros _ => Ret (false, self_chunk)
  | Ones _, _ => Ret (false, self_chunk)
  | Zeros _, _ => Ret (true, other_chunk)
  | Mixed _ _ _, Ones _ => Ret (true, other_chunk)
  | Mixed d ones_count self_words, Mixed _ _ other_words =>
      let n := num_words d in
      let* a := unwrap (get_range self_words 0 n) in
      let* b := unwrap (get_range other_words 0 n) in
      if bool_decide (a = b) then Ret (false, self_chunk)
      else
        let* modify := would_modify_words a b Z.lor in
        if negb modify then Ret (false, self_chunk)
        else
          let* '(_, a) := update_words a b Z.lor in
          let ones_count := count_chunk a in
          if (ones_count =? d)%nat then Ret (true, Ones d)
          else Ret (true, Mixed d ones_count (a ++ drop n self_words))
  end.

Definition chunk_subtract (self_chunk other_chunk : Chunk) : outcome (bool * Chunk) :=
  match self_chunk, other_chunk with
  | Zeros _, _ => Ret (false, self_chunk)
  | _, Zeros _ => Ret (false, self_chunk)
  | Ones d, Ones _ => Ret (true, Zeros d)
  | Mixed d _ _, Ones _ => Ret (true, Zeros d)
  | Ones d, Mixed _ other_ones_count other_words =>
      let n := num_words d in
      let* pre := unwrap (get_range other_words 0 n) in
      let pre := not_u64 <$> pre in
      let* pre := clear_excess_bits_in_final_word d pre in
      Ret (true, Mixed d (d - other_ones_count) (pre ++ drop n other_words))
  | Mixed d _ self_words, Mixed _ _ other_words =>
      let n := num_words d in
      let op := fun a b => Z.land a (not_u64 b) in
      let* a := unwrap (get_range self_words 0 n) in
      let* b := unwrap (get_range other_words 0 n) in
      let* modify := would_modify_words a b op in
      if negb modify then Ret (false, self_chunk)
      else
        let* '(_, a) := update_words a b op in
        let ones_count := count_chunk a in
        if (ones_count =? 0)%nat then Ret (true, Zeros d)
        else Ret (true, Mixed d ones_count (a ++ drop n self_words))
  end.

(** [for (self_chunk, other_chunk) in self.chunks.iter_mut().zip(other.chunks.iter())]. *)
Fixpoint zip_chunks (f : Chunk -> Chunk -> outcome (bool * Chunk)) (l r : list Chunk) : outcome (bool * list Chunk) :=
  match l, r with
  | a :: l, b :: r =>
      let* '(changed, a) := f a b in
      let* '(changed', l) := zip_chunks f l r in
      Ret (changed || changed', a :: l)
  | _, _ => Ret (false, l)
  end.

Definition zip_update (f : Chunk -> Chunk -> outcome (bool * Chunk)) (s other : ChunkedBitSet) : outcome (bool * ChunkedBitSet) :=
  let* _ := assert_that (chunked_domain_size s =? chunked_domain_size other)%nat in
  let* '(changed, cs) := zip_chunks f (chunks s) (chunks other) in
  Ret (changed, set_chunks s cs).

Definition chunked_union : ChunkedBitSet -> ChunkedBitSet -> outcome (bool * ChunkedBitSet) := zip_update chunk_union.
Definition chunked_subtract : ChunkedBitSet -> ChunkedBitSet -> outcome (bool * ChunkedBitSet) := zip_update chunk_subtract.

Definition chunked_clone_from (s from : ChunkedBitSet) : outcome ChunkedBitSet :=
  let* _ := assert_that (chunked_domain_size s =? chunked_domain_size from)%nat in
  Ret (set_chunks s (chunks from)).

(** ** [ChunkedBitIter] *)

Inductive ChunkIter : Type :=
| IterZeros
| IterOnes (start end_ : nat)
| IterMixed (it : BitIter)
| IterFinished.

Definition chunk_iter (s : ChunkedBitSet) (i : nat) : outcome ChunkIter :=
  match chunks s !! i with
  | Some (Zeros _) => Ret IterZeros
  | Some (Ones d) => Ret (IterOnes 0 d)
  | Some (Mixed d _ words) => let* ws := unwrap (get_range words 0 (num_words d)) in Ret (IterMixed (bit_iter_new ws))
  | None => Ret IterFinished
  end.

Record ChunkedBitIter := mkChunkedIter { bit_set : ChunkedBitSet; iter_index : nat; iter_chunk : ChunkIter }.

Definition chunked_iter_new (s : ChunkedBitSet) : outcome ChunkedBitIter :=
  let* it := chunk_iter s 0 in Ret (mkChunkedIter s 0 it).

(** The sub-iterator's [next]; [None] when it has no more items. *)
Definition sub_next (it : ChunkIter) : option (nat * ChunkIter) :=
  match it with
  | IterOnes a b => if (a <? b)%nat then Some (a, IterOnes (S a) b) else None
  | IterMixed it => match bit_iter_next it with Some (i, it) => Some (i, IterMixed it) | None => None end
  | _ => None
  end.

(** A unit of fuel per turn of the [loop]. *)
Fixpoint chunked_iter_next (fuel : nat) (it : ChunkedBitIter) : outcome (option (nat * ChunkedBitIter)) :=
  match fuel with
  | O => OutOfFuel
  | S fuel =>
      match iter_chunk it with
      | IterFinished => Ret None
      | _ =>
          match sub_next (iter_chunk it) with
          | Some (next, sub) =>
              Ret (Some ((next + iter_index it * CHUNK_BITS)%nat, mkChunkedIter (bit_set it) (iter_index it) sub))
          | None =>
              let* sub := chunk_iter (bit_set it) (S (iter_index it)) in
              chunked_iter_next fuel (mkChunkedIter (bit_set it) (S (iter_index it)) sub)
          end
      end
  end.

Fixpoint chunked_collect (fuel : nat) (it : ChunkedBitIter) : outcome (list nat) :=
  let* o := chunked_iter_next (length (chunks (bit_set it)) + 1) it in
  match o with
  | None => Ret []
  | Some (i, it) => match fuel with O => OutOfFuel | S f => let* l := chunked_collect f it in Ret (i :: l) end
  end.

Definition chunked_iter (s : ChunkedBitSet) : outcome (list nat) :=
  let* it := chunked_iter_new s in chunked_collect (chunked_domain_size s) it.

(** ** [MixedBitSet] *)

Inductive MixedBitSet : Type :=
| Small (s : DenseBitSet)
| Large (s : ChunkedBitSet).

Definition mixed_domain_size (s : MixedBitSet) : nat :=
  match s with Small s => domain_size s | Large s => chunked_domain_size s end.

Definition mixed_new_empty (d : nat) : outcome MixedBitSet :=
  if (d <=? CHUNK_BITS)%nat then Ret (Small (new_empty d))
  else let* s := chunked_new_empty d in Ret (Large s).

Definition mixed_is_empty (s : MixedBitSet) : bool :=
  match s with Small s => is_empty s | Large s => chunked_is_empty s end.

Definition mixed_contains (s : MixedBitSet) (elem : nat) : outcome bool :=
  match s with Small s => contains s elem | Large s => chunked_contains s elem end.

(** An operation of either representation, put back in place. *)
Definition small {A} (m : outcome (A * DenseBitSet)) : outcome (A * MixedBitSet) :=
  let* '(a, s) := m in Ret (a, Small s).
Definition large {A} (m : outcome (A * ChunkedBitSet)) : outcome (A * MixedBitSet) :=
  let* '(a, s) := m in Ret (a, Large s).

Definition mixed_insert (s : MixedBitSet) (elem : nat) : outcome (bool * MixedBitSet) :=
  match s with Small s => small (insert s elem) | Large s => large (chunked_insert s elem) end.
Definition mixed_remove (s : MixedBitSet) (elem : nat) : outcome (bool * MixedBitSet) :=
  match s with Small s => small (remove s elem) | Large s => large (chunked_remove s elem) end.
Definition mixed_insert_all (s : MixedBitSet) : outcome MixedBitSet :=
  match s with
  | Small s => let* s := insert_all s in Ret (Small s)
  | Large s => let* s := chunked_insert_all s in Ret (Large s)
  end.
Definition mixed_clear (s : MixedBitSet) : outcome MixedBitSet :=
  match s with
  | Small s => Ret (Small (clear s))
  | Large s => let* s := chunked_clear s in Ret (Large s)
  end.
Definition mixed_union (s other : MixedBitSet) : outcome (bool * MixedBitSet) :=
  match s, other with
  | Small s, Small other => small (union s other)
  | Large s, Large other => large (chunked_union s other)
  | _, _ => Panic
  end.
Definition mixed_subtract (s other : MixedBitSet) : outcome (bool * MixedBitSet) :=
  match s, other with
  | Small s, Small other => small (subtract s other)
  | Large s, Large other => large (chunked_subtract s other)
  | _, _ => Panic
  end.
Definition mixed_iter (s : MixedBitSet) : outcome (list nat) :=
  match s with Small s => iter s | Large s => chunked_iter s end.

(** [clone_from] of a dense set takes any source; the others panic on a different size. *)
Definition dense_clone_from (_ from : DenseBitSet) : DenseBitSet := mkBitSet (domain_size from) (words from).
Definition mixed_clone_from (s from : MixedBitSet) : outcome MixedBitSet :=
  match s, from with
  | Small s, Small from => Ret (Small (dense_clone_from s from))
  | Large s, Large from => let* s := chunked_clone_from s from in Ret (Large s)
  | _, _ => Panic
  end.
