(* ===== verification/ChunkedFacts.v ===== *)
(** * Chunked bit sets: the invariant of a chunk, and the whole set *)
From Stdlib Require Import ZArith Lia Sorted.
From stdpp Require Import base numbers list sorting.
From S2P Require Import Prelude RustSlice Swar BitSet BitSetFacts Chunked.
Open Scope Z_scope.
Open Scope rust_scope.

(** ** Counting, the invariant of a chunk, and the operations on one chunk *)

(** *** The number of elements below a bound *)

Fixpoint card (d : nat) (f : nat -> bool) : nat :=
  match d with O => 0 | S d => card d f + (if f d then 1 else 0) end%nat.

Lemma card_ext d f g : (forall i, (i < d)%nat -> f i = g i) -> card d f = card d g.
Proof. induction d as [|d IH]; intros Hfg; cbn [card]; [done|]. rewrite IH, Hfg by (intros; try apply Hfg; lia). done. Qed.

Lemma card_le d f : (card d f <= d)%nat.
Proof. induction d as [|d IH]; cbn [card]; [lia|]. destruct (f d); lia. Qed.

Lemma card_full d f : card d f = d <-> forall i, (i < d)%nat -> f i = true.
Proof.
  induction d as [|d IH]; cbn [card]; [split; [lia|done]|]. pose proof (card_le d f). split.
  - intros Hc i Hi. destruct (f d) eqn:Ed; [|lia]. destruct (decide (i = d)) as [->|]; [done|]. apply IH; lia.
  - intros Hf. rewrite (Hf d) by lia. rewrite (proj2 IH); [lia|]. intros; apply Hf; lia.
Qed.

Lemma card_zero d f : card d f = 0%nat <-> forall i, (i < d)%nat -> f i = false.
Proof.
  induction d as [|d IH]; cbn [card]; [split; [lia|done]|]. split.
  - intros Hc i Hi. destruct (f d) eqn:Ed; [lia|]. destruct (decide (i = d)) as [->|]; [done|]. apply IH; lia.
  - intros Hf. rewrite (Hf d) by lia. rewrite (proj2 IH); [lia|]. intros; apply Hf; lia.
Qed.

Lemma card_flip d f g i : (i < d)%nat -> f i = false -> g i = true -> (forall j, j <> i -> f j = g j) -> card d g = S (card d f).
Proof.
  intros Hi Hf Hg Hj. induction d as [|d IH]; [lia|]. cbn [card]. destruct (decide (i = d)) as [->|].
  - rewrite Hf, Hg, (card_ext d f g) by (intros; apply Hj; lia). lia.
  - rewrite IH, Hj by lia. lia.
Qed.

Lemma card_compl d f : (card d (fun i => negb (f i)) + card d f)%nat = d.
Proof. induction d as [|d IH]; cbn [card]; [done|]. destruct (f d); cbn [negb]; lia. Qed.

Lemma card_filter d f : length (filter (fun i => f i = true) (seq 0 d)) = card d f.
Proof.
  induction d as [|d IH]; [done|]. rewrite seq_S, filter_app, length_app, IH. cbn [card]. f_equal.
  rewrite filter_cons, filter_nil. change (0 + d)%nat with d. destruct (f d); case_decide; done.
Qed.

Lemma items_count ws k : length (items k ws) = count_ones ws.
Proof.
  revert k. induction ws as [|w ws IH]; intros k; [done|]. cbn [items]. rewrite length_app, length_fmap, IH. done.
Qed.

Lemma StronglySorted_NoDup (l : list nat) : StronglySorted lt l -> NoDup l.
Proof.
  induction 1 as [|x l _ IH Hx]; constructor; [|done]. rewrite Forall_forall in Hx. intros Hin. specialize (Hx x Hin). lia.
Qed.

Lemma count_card d ws : wf (mkBitSet d ws) -> count_ones ws = card d (bit ws).
Proof.
  intros Hs. rewrite <- (items_count ws 0), <- card_filter. apply Permutation_length, NoDup_Permutation.
  - apply StronglySorted_NoDup, items_sorted.
  - apply NoDup_filter, NoDup_seq.
  - intros x. rewrite items_elem, list_elem_of_filter, elem_of_seq. replace (x - 64 * 0)%nat with x by lia.
    split; [|intros [? ?]; split; [lia|done]]. intros [_ Hb]. pose proof (wf_domain _ Hs x Hb) as Hd. cbn in Hd. split; [done|lia].
Qed.

(** *** Will the words change? *)

Lemma changed_fold (op : Z -> Z -> Z) (l r : list Z) c : (foldl (fun changed '(old_val, rhs_val) => Z.lor changed (Z.lxor old_val (op old_val rhs_val))) c (zip l r) = 0)
  <-> c = 0 /\ Forall (fun '(a, b) => op a b = a) (zip l r).
Proof.
  revert c. induction (zip l r) as [|[a b] t IH]; intros c; cbn [foldl].
  - split; [intros ->; split; [done|constructor]|tauto].
  - rewrite IH, Z.lor_eq_0_iff, Z.lxor_eq_0_iff, Forall_cons. intuition congruence.
Qed.

Lemma would_modify_subchunk_ok op l r : would_modify_subchunk op l r = false <-> Forall (fun '(a, b) => op a b = a) (zip l r).
Proof. unfold would_modify_subchunk. rewrite negb_false_iff, Z.eqb_eq, changed_fold. tauto. Qed.

Lemma Forall_zip_lookup {A B} (P : A * B -> Prop) l r :
  Forall P (zip l r) <-> forall i a b, l !! i = Some a -> r !! i = Some b -> P (a, b).
Proof.
  rewrite Forall_lookup. split.
  - intros H i a b Ha Hb. apply (H i). apply lookup_zip_with_Some. by exists a, b.
  - intros H i [a b] Hab. apply lookup_zip_with_Some in Hab as (a' & b' & [= <- <-] & Ha & Hb). eauto.
Qed.

Lemma existsb_false {A} (p : A -> bool) l : existsb p l = false <-> Forall (fun x => p x = false) l.
Proof.
  induction l as [|x l IH]; cbn; [split; [constructor|done]|]. rewrite orb_false_iff, IH, Forall_cons. done.
Qed.

(** The subchunks and the tail cover every index. *)
Lemma would_modify_words_ok op l r : length l = length r ->
  exists b, would_modify_words l r op = Ret b /\ (b = false <-> zip_with op l r = l).
Proof.
  intros Hl. unfold would_modify_words. rewrite assert_true by by apply Nat.eqb_eq. cbn [obind as_chunks]. eexists. split; [done|].
  assert (HZ : zip_with op l r = l <-> forall i a b, l !! i = Some a -> r !! i = Some b -> op a b = a).
  { split.
    - intros E i a b Ha Hb. assert (zip_with op l r !! i = Some (op a b)) as E' by (apply lookup_zip_with_Some; by exists a, b). rewrite E in E'. congruence.
    - intros H. apply list_eq_same_length with (length l); [done|rewrite length_zip_with; lia|]. intros i x y Hi Hx Hy.
      apply lookup_zip_with_Some in Hx as (a & b & -> & Ha & Hb). rewrite (H i a b) by done. congruence. }
  rewrite HZ, orb_false_iff, would_modify_subchunk_ok, existsb_false, !Forall_zip_lookup, <- Hl. clear HZ.
  set (n := SUBCHUNK_LEN). assert (0 < n)%nat by (unfold n, SUBCHUNK_LEN; lia). clearbody n. split.
  - intros [H1 H2] i a b Ha Hb. pose proof (Nat.div_mod_eq i n) as Ei. pose proof (Nat.mod_upper_bound i n ltac:(lia)).
    destruct (Nat.lt_ge_cases (i / n) (length l / n)) as [Hk|Hk].
    + specialize (H1 (i / n)%nat). rewrite !list_lookup_fmap, !lookup_seq_lt in H1 by done. cbn [fmap option_fmap option_map Nat.add] in H1.
      specialize (H1 _ _ eq_refl eq_refl). cbn in H1. apply would_modify_subchunk_ok in H1. rewrite Forall_zip_lookup in H1.
      apply (H1 (i mod n)%nat a b); (rewrite lookup_take_lt, lookup_drop by done).
      * by replace (i / n * n + i mod n)%nat with i by lia.
      * by replace (i / n * n + i mod n)%nat with i by lia.
    + apply (H2 (i - length l / n * n)%nat a b); rewrite lookup_drop; assert (length l / n * n <= i)%nat by nia.
      * by replace (length l / n * n + (i - length l / n * n))%nat with i by lia.
      * by replace (length l / n * n + (i - length l / n * n))%nat with i by lia.
  - intros H0. split.
    + intros k x y Hx Hy. rewrite list_lookup_fmap in Hx, Hy. destruct (seq 0 (length l / n) !! k) as [k'|]; [|done].
      injection Hx as <-. injection Hy as <-. cbn. apply would_modify_subchunk_ok, Forall_zip_lookup. intros i a b Ha Hb.
      apply lookup_take_Some in Ha as [Ha _]. apply lookup_take_Some in Hb as [Hb _]. rewrite lookup_drop in Ha, Hb. eauto.
    + intros i a b Ha Hb. rewrite lookup_drop in Ha, Hb. eauto.
Qed.

(** *** Chunks *)

Lemma as_chunk_size_small n : (n <= CHUNK_BITS)%nat -> as_chunk_size n = n.
Proof.
  intros Hn. unfold as_chunk_size. assert (Z.of_nat CHUNK_BITS = 2048) by done. rewrite Z.mod_small by lia. apply Nat2Z.id.
Qed.

Definition chunk_dom (c : Chunk) : nat := match c with Zeros d | Ones d | Mixed d _ _ => d end.

Definition chunk_bit (c : Chunk) (i : nat) : bool :=
  match c with Zeros _ => false | Ones d => (i <? d)%nat | Mixed _ _ ws => bit ws i end.

Definition zero_words (n : nat) : list Z := replicate n 0.

(** The words of a mixed chunk: those in use, then zeros. *)
Record mixed_wf (d n : nat) (ws a : list Z) : Prop := {
  mixed_set : wf (mkBitSet d a);
  mixed_words : ws = a ++ zero_words (CHUNK_WORDS - num_words d);
  mixed_count : count_ones a = n;
}.

Definition chunk_wf (c : Chunk) : Prop :=
  (0 < chunk_dom c <= CHUNK_BITS)%nat /\
  match c with Mixed d n ws => (0 < n < d)%nat /\ exists a, mixed_wf d n ws a | _ => True end.

Lemma chunk_words_in_use d : (d <= CHUNK_BITS)%nat -> (num_words d <= CHUNK_WORDS)%nat.
Proof.
  intros Hd. pose proof (num_words_bound d). unfold CHUNK_BITS, WORD_BITS in Hd. lia.
Qed.

Lemma mixed_bit d n ws a : mixed_wf d n ws a -> forall i, bit ws i = bit a i.
Proof. intros [_ -> _] i. apply bit_app_zero. Qed.

Lemma chunk_bit_dom c i : chunk_wf c -> chunk_bit c i = true -> (i < chunk_dom c)%nat.
Proof.
  intros [_ Hc]. destruct c as [d|d|d n ws]; cbn; [done|apply Nat.ltb_lt|].
  destruct Hc as [_ [a Ha]]. rewrite (mixed_bit d n ws a Ha). apply (wf_domain _ (mixed_set _ _ _ _ Ha)).
Qed.

Lemma chunk_count_card c : chunk_wf c -> chunk_count c = card (chunk_dom c) (chunk_bit c).
Proof.
  intros [_ Hc]. destruct c as [d|d|d n ws]; cbn [chunk_count chunk_dom chunk_bit].
  - symmetry. by apply card_zero.
  - symmetry. apply card_full. intros. by apply Nat.ltb_lt.
  - destruct Hc as [_ [a Ha]]. rewrite <- (mixed_count _ _ _ _ Ha), (count_card d a) by apply Ha.
    apply card_ext. intros i _. symmetry. by apply (mixed_bit d n).
Qed.

(** A mixed chunk has both a one and a zero. *)
Lemma mixed_both d n ws : chunk_wf (Mixed d n ws) -> (exists i, (i < d)%nat /\ bit ws i = true) /\ (exists i, (i < d)%nat /\ bit ws i = false).
Proof.
  intros Hc. pose proof (chunk_count_card _ Hc) as Hn. change (n = card d (bit ws)) in Hn. destruct Hc as [Hd [Hb _]]. cbn in Hd. split.
  - destruct (decide (Exists (fun i => bit ws i = true) (seq 0 d))) as [He|He].
    + apply Exists_exists in He as (i & Hi%elem_of_seq & Hb'). exists i. split; [lia|done].
    + assert (card d (bit ws) = 0%nat); [|lia]. apply card_zero. intros i Hi. apply not_true_iff_false. intros E. apply He, Exists_exists.
      exists i. split; [apply elem_of_seq; lia|done].
  - destruct (decide (Exists (fun i => bit ws i = false) (seq 0 d))) as [He|He].
    + apply Exists_exists in He as (i & Hi%elem_of_seq & Hb'). exists i. split; [lia|done].
    + assert (card d (bit ws) = d); [|lia]. apply card_full. intros i Hi. apply not_false_iff_true. intros E. apply He, Exists_exists.
      exists i. split; [apply elem_of_seq; lia|done].
Qed.

(** Chunks of one domain with the same elements are equal. *)
Lemma chunk_ext c c' : chunk_wf c -> chunk_wf c' -> chunk_dom c = chunk_dom c' ->
  (forall i, chunk_bit c i = chunk_bit c' i) -> c = c'.
Proof.
  intros Hc Hc' Hd Hb. pose proof (chunk_count_card c Hc) as Hn. pose proof (chunk_count_card c' Hc') as Hn'.
  rewrite <- Hd, (card_ext _ _ (chunk_bit c)) in Hn' by (intros; symmetry; apply Hb). rewrite <- Hn in Hn'. clear Hn.
  destruct Hc as [Hp Hc], Hc' as [Hp' Hc']. destruct c as [d|d|d n ws], c' as [d'|d'|d' n' ws']; cbn in *; try (f_equal; lia); try lia.
  subst d' n'. f_equal. destruct Hc as [_ [a Ha]], Hc' as [_ [a' Ha']]. rewrite (mixed_words _ _ _ _ Ha), (mixed_words _ _ _ _ Ha'). f_equal.
  apply words_ext; [apply Ha|apply Ha'|exact (eq_trans (wf_len _ (mixed_set _ _ _ _ Ha)) (eq_sym (wf_len _ (mixed_set _ _ _ _ Ha'))))|].
  intros i. rewrite <- (mixed_bit _ _ _ _ Ha), <- (mixed_bit _ _ _ _ Ha'). apply Hb.
Qed.

(** Any proper subset that is neither empty nor full is the set of a mixed chunk. *)
Lemma mixed_intro d a : (0 < d <= CHUNK_BITS)%nat -> wf (mkBitSet d a) -> (0 < count_ones a < d)%nat ->
  chunk_wf (Mixed d (count_ones a) (a ++ zero_words (CHUNK_WORDS - num_words d)))
  /\ forall i, chunk_bit (Mixed d (count_ones a) (a ++ zero_words (CHUNK_WORDS - num_words d))) i = bit a i.
Proof.
  intros Hd Ha Hn. split; [|intros i; apply bit_app_zero]. split; [done|]. split; [done|]. exists a. by split.
Qed.

(** *** Changing one bit of a chunk *)

Definition chunk_updates (m : outcome (bool * Chunk)) (c : Chunk) (f : nat -> bool) : Prop :=
  runs m (fun q => chunk_wf q.2 /\ chunk_dom q.2 = chunk_dom c /\ (forall i, chunk_bit q.2 i = f i)
    /\ (q.1 = true <-> exists i, chunk_bit c i <> f i)).

Lemma chunk_updates_intro m c f changed c' : m = Ret (changed, c') -> chunk_wf c' -> chunk_dom c' = chunk_dom c ->
  (forall i, chunk_bit c' i = f i) -> (changed = true <-> exists i, chunk_bit c i <> f i) -> chunk_updates m c f.
Proof. intros -> Hw Hd Hb Hc. by exists (changed, c'). Qed.

(** A chunk stays as it is when no bit changes. *)
Lemma chunk_same m c f : m = Ret (false, c) -> chunk_wf c -> (forall i, chunk_bit c i = f i) -> chunk_updates m c f.
Proof. intros E Hc Hb. apply (chunk_updates_intro _ _ _ false c); try done. split; [done|]. intros [i Hi]. by destruct Hi. Qed.

(** A chunk changed: one bit tells. *)
Lemma chunk_changed m c f c' j : m = Ret (true, c') -> chunk_wf c' -> chunk_dom c' = chunk_dom c ->
  (forall i, chunk_bit c' i = f i) -> chunk_bit c j <> f j -> chunk_updates m c f.
Proof. intros E Hc Hd Hb Hj. apply (chunk_updates_intro _ _ _ true c'); try done. split; [|done]. intros _. by exists j. Qed.

Definition with_bit (f : nat -> bool) (i : nat) (b : bool) (x : nat) : bool := if (x =? i)%nat then b else f x.

Lemma set_bit_words d a i w w' b : wf (mkBitSet d a) -> (i < d)%nat -> a !! (i / 64)%nat = Some w -> is_word w' ->
  (forall j, (j < 64)%nat -> Z.testbit w' (Z.of_nat j) = if (j =? i mod 64)%nat then b else Z.testbit w (Z.of_nat j)) ->
  wf (mkBitSet d (<[(i / 64)%nat := w']> a)) /\ forall x, bit (<[(i / 64)%nat := w']> a) x = with_bit (bit a) i b x.
Proof.
  intros Ha Hi Hw Hw' Hj. destruct (change_word (mkBitSet d a) i w w' (fun x c => if (x =? i)%nat then b else c)) as (H1 & H2 & _); try done.
  - intros j Hlt. rewrite Hj by done. pose proof (split_index i). destruct (Nat.eqb_spec j (i mod 64)), (Nat.eqb_spec (64 * (i / 64) + j) i); done || lia.
  - intros x c _. destruct (Nat.eqb_spec x i) as [->|]; [by right|by left].
  - split; [exact H1|]. intros x. change (bit (<[(i / 64)%nat:=w']> a) x) with (bit (words (set_words (mkBitSet d a) (<[(i / 64)%nat:=w']> a))) x).
    rewrite H2. unfold with_bit. case_decide as E; [done|]. destruct (Nat.eqb_spec x i) as [->|]; [done|done].
Qed.

Lemma lor_mask_bits w i : is_word w -> (i < 64)%nat -> is_word (Z.lor w (bit_mask i)) /\
  forall j, (j < 64)%nat -> Z.testbit (Z.lor w (bit_mask i)) (Z.of_nat j) = if (j =? i)%nat then true else Z.testbit w (Z.of_nat j).
Proof.
  intros Hw Hi. split; [auto with word|]. intros j Hj. rewrite Z.lor_spec, bit_mask_spec. destruct (j =? i)%nat; [apply orb_true_r|apply orb_false_r].
Qed.

Lemma clear_mask_bits w i : is_word w -> (i < 64)%nat -> is_word (Z.land w (not_u64 (bit_mask i))) /\
  forall j, (j < 64)%nat -> Z.testbit (Z.land w (not_u64 (bit_mask i))) (Z.of_nat j) = if (j =? i)%nat then false else Z.testbit w (Z.of_nat j).
Proof.
  intros Hw Hi. split; [auto with word|]. intros j Hj. rewrite Z.land_spec, not_u64_spec, bit_mask_spec by (auto with word || lia).
  replace (Z.of_nat j <? 64) with true by (symmetry; apply Z.ltb_lt; lia). destruct (j =? i)%nat; [apply andb_false_r|apply andb_true_r].
Qed.

Lemma count_with_bit d a a' i : wf (mkBitSet d a) -> wf (mkBitSet d a') -> (i < d)%nat -> bit a i = false ->
  (forall x, bit a' x = with_bit (bit a) i true x) -> count_ones a' = S (count_ones a).
Proof.
  intros Ha Ha' Hi Hf Hx. rewrite (count_card d a), (count_card d a') by done. apply (card_flip d _ _ i); [done|done| |].
  - rewrite Hx. unfold with_bit. by rewrite Nat.eqb_refl.
  - intros j Hj. rewrite Hx. unfold with_bit. by rewrite (proj2 (Nat.eqb_neq j i)).
Qed.

(** The word of an element in use, seen in the words of the chunk. *)
Lemma mixed_lookup d a i : wf (mkBitSet d a) -> (i < d)%nat ->
  exists w, a !! (i / 64)%nat = Some w /\ is_word w /\ (forall z, (a ++ z) !! (i / 64)%nat = Some w)
    /\ (forall z w', <[(i / 64)%nat := w']> (a ++ z) = <[(i / 64)%nat := w']> a ++ z) /\ Z.testbit w (Z.of_nat (i mod 64)) = bit a i.
Proof.
  intros Ha Hi. destruct (word_of_elem (mkBitSet d a) i Ha Hi) as (w & Hw & Hww). cbn [words] in Hw. exists w.
  pose proof (lookup_lt_Some _ _ _ Hw) as Hl. split; [done|]. split; [done|]. split; [intros z; by rewrite lookup_app_l|].
  split; [intros z w'; by rewrite insert_app_l|]. unfold bit. by rewrite Hw.
Qed.

Lemma chunk_mask e : chunk_word_index_and_mask e = ((e mod CHUNK_BITS / 64)%nat, bit_mask ((e mod CHUNK_BITS) mod 64)).
Proof. done. Qed.

(** Empty and full words of a domain. *)
Lemma zero_set d : wf (mkBitSet d (zero_words (num_words d))) /\ (forall i, bit (zero_words (num_words d)) i = false) /\ count_ones (zero_words (num_words d)) = 0%nat.
Proof.
  destruct (new_empty_ok d) as [Hw Hb]. assert (HB : forall i, bit (zero_words (num_words d)) i = false) by (intros i; apply not_true_iff_false, Hb).
  split; [done|]. split; [done|]. rewrite (count_card d) by done. by apply card_zero.
Qed.

Lemma zero_chunk d : (d <= CHUNK_BITS)%nat -> replicate CHUNK_WORDS 0 = zero_words (num_words d) ++ zero_words (CHUNK_WORDS - num_words d).
Proof.
  intros Hd%chunk_words_in_use. unfold zero_words. rewrite <- replicate_add. f_equal. lia.
Qed.

Lemma chunk_insert_ok c e : chunk_wf c -> (e mod CHUNK_BITS < chunk_dom c)%nat ->
  chunk_updates (chunk_insert c e) c (with_bit (chunk_bit c) (e mod CHUNK_BITS) true).
Proof.
  intros Hc He. unfold chunk_insert. rewrite chunk_mask. set (i := (e mod CHUNK_BITS)%nat) in *. clearbody i. destruct c as [d|d|d n ws]; cbn [chunk_dom chunk_bit] in *.
  - destruct Hc as [Hd _]. cbn [chunk_dom] in Hd. destruct (Nat.ltb_spec 1 d) as [H1|H1].
    + destruct (zero_set d) as (Hz & Hb & Hn). destruct (mixed_lookup d _ i Hz He) as (w & Hw & Hww & Hw1 & Hw2 & Ht).
      unfold update_word. rewrite (zero_chunk d) by lia. rewrite Hw1. cbn [unwrap obind]. rewrite Hw2.
      destruct (lor_mask_bits w (i mod 64) Hww (mod_lt i)) as [Hlw Hlb]. destruct (set_bit_words d _ i w _ true Hz He Hw Hlw Hlb) as [Hs Hx].
      assert (Hc1 : count_ones (<[(i / 64)%nat:=Z.lor w (bit_mask (i mod 64))]> (zero_words (num_words d))) = 1%nat) by (rewrite (count_with_bit d _ _ i Hz Hs He (Hb i) Hx); lia).
      destruct (mixed_intro d _ ltac:(lia) Hs) as [Hm Hmb]; [lia|]. rewrite Hc1 in Hm, Hmb.
      eapply (chunk_changed _ _ _ _ i); [done|exact Hm|done| |].
      * intros x. rewrite Hmb, Hx. unfold with_bit. by destruct (x =? i)%nat.
      * unfold with_bit. rewrite Nat.eqb_refl. done.
    + replace d with 1%nat in * by lia. eapply (chunk_changed _ _ _ _ i); [done|split; [cbn [chunk_dom]; lia|done]|done| |].
      * intros x. unfold with_bit. cbn [chunk_bit]. destruct (Nat.eqb_spec x i) as [->|]; [apply Nat.ltb_lt; lia|apply Nat.ltb_ge; lia].
      * unfold with_bit. rewrite Nat.eqb_refl. done.
  - apply chunk_same; [done|done|]. intros x. unfold with_bit. cbn [chunk_bit]. destruct (Nat.eqb_spec x i) as [->|]; [by apply Nat.ltb_lt|done].
  - pose proof Hc as [Hd [Hn [a Ha]]]. cbn [chunk_dom] in Hd. pose proof (mixed_bit _ _ _ _ Ha) as Hb. pose proof Ha as [Has -> Hcnt].
    destruct (mixed_lookup d a i Has He) as (w & Hw & Hww & Hw1 & Hw2 & Ht). rewrite Hw1. cbn [unwrap obind].
    pose proof (land_mask w (i mod 64) Hww (mod_lt i)) as Hl. rewrite Ht in Hl.
    destruct (Z.land w (bit_mask (i mod 64)) =? 0) eqn:Ez; cbn [negb] in Hl.
    + destruct (lor_mask_bits w (i mod 64) Hww (mod_lt i)) as [Hlw Hlb]. destruct (set_bit_words d _ i w _ true Has He Hw Hlw Hlb) as [Hs Hx].
      pose proof (count_with_bit d _ _ i Has Hs He (eq_sym Hl) Hx) as Hc1. rewrite Hcnt in Hc1. destruct (Nat.ltb_spec (S n) d) as [H1|H1].
      * unfold update_word. rewrite Hw1. cbn [unwrap obind]. rewrite Hw2. destruct (mixed_intro d _ ltac:(lia) Hs) as [Hm Hmb]; [lia|]. rewrite Hc1 in Hm, Hmb.
        eapply (chunk_changed _ _ _ _ i); [done|exact Hm|done| |].
        { intros x. rewrite Hmb, Hx. unfold with_bit. cbn [chunk_bit]. by rewrite Hb. }
        { unfold with_bit. cbn [chunk_bit]. rewrite Nat.eqb_refl, Hb. congruence. }
      * assert (Hfull : count_ones (<[(i / 64)%nat:=Z.lor w (bit_mask (i mod 64))]> a) = d) by lia. rewrite (count_card d) in Hfull by done.
        pose proof (proj1 (card_full _ _) Hfull) as Hall. eapply (chunk_changed _ _ _ _ i); [done|split; [cbn [chunk_dom]; lia|done]|done| |].
        { intros x. unfold with_bit. cbn [chunk_bit]. rewrite Hb. specialize (Hx x). unfold with_bit in Hx. rewrite <- Hx.
          destruct (Nat.ltb_spec x d) as [Hlt|Hge]; [by rewrite Hall|]. symmetry. apply not_true_iff_false. intros Hxx. pose proof (wf_domain _ Hs x Hxx) as Hdx. cbn in Hdx. lia. }
        { unfold with_bit. cbn [chunk_bit]. rewrite Nat.eqb_refl, Hb. congruence. }
    + apply chunk_same; [done|done|]. intros x. unfold with_bit. cbn [chunk_bit]. destruct (Nat.eqb_spec x i) as [->|]; [by rewrite Hb|done].
Qed.

Lemma fill_chunk_ok d : (d <= CHUNK_BITS)%nat ->
  exists a, fill_chunk d = Ret (a ++ zero_words (CHUNK_WORDS - num_words d)) /\ wf (mkBitSet d a) /\ forall i, bit a i = (i <? d)%nat.
Proof.
  intros Hd%chunk_words_in_use. unfold fill_chunk. set (n := num_words d) in *.
  destruct (fill_words_ok n 0 (replicate CHUNK_WORDS 0)) as (ws & -> & Hl & Hw & Hb).
  { apply Forall_replicate, is_word_zero. }
  { rewrite length_replicate. lia. }
  rewrite length_replicate in Hl. cbn [obind]. unfold get_range. rewrite !(proj2 (Nat.leb_le _ _)) by lia. cbn [andb unwrap obind].
  rewrite Nat.sub_0_r, drop_0. assert (Hb' : forall x, bit ws x = (x / 64 <? n)%nat).
  { intros x. rewrite Hb, bit_replicate, Z.bits_0. by destruct (x / 64 <? CHUNK_WORDS)%nat. }
  destruct (clear_excess_ok d (take n ws)) as (a & -> & Ha & Hba); [rewrite length_take; unfold n in *; lia|by apply Forall_take|]. cbn [obind].
  exists a. split; [|split; [done|]].
  - do 2 f_equal. apply words_ext; [by apply Forall_drop|apply Forall_replicate, is_word_zero|unfold zero_words; rewrite length_drop, length_replicate; lia|].
    intros i. unfold zero_words. rewrite bit_drop, Hb', bit_replicate, Z.bits_0. rewrite (proj2 (Nat.ltb_ge _ _)); [by destruct (_ <? _)%nat|].
    rewrite (Nat.mul_comm 64 n), Nat.div_add_l by lia. lia.
  - intros i. rewrite Hba. unfold bit. destruct (Nat.ltb_spec i d) as [Hi|]; [|apply andb_false_r]. rewrite andb_true_r.
    pose proof (num_words_lt i d Hi) as Hk. rewrite lookup_take_lt by done. specialize (Hb' i). unfold bit in Hb'. rewrite Hb'. by apply Nat.ltb_lt.
Qed.

Lemma chunk_remove_ok c e : chunk_wf c -> (e mod CHUNK_BITS < chunk_dom c)%nat ->
  chunk_updates (chunk_remove c e) c (with_bit (chunk_bit c) (e mod CHUNK_BITS) false).
Proof.
  intros Hc He. unfold chunk_remove. rewrite chunk_mask. set (i := (e mod CHUNK_BITS)%nat) in *. clearbody i. destruct c as [d|d|d n ws]; cbn [chunk_dom chunk_bit] in *.
  - apply chunk_same; [done|done|]. intros x. unfold with_bit. cbn [chunk_bit]. by destruct (x =? i)%nat.
  - destruct Hc as [Hd _]. cbn [chunk_dom] in Hd. destruct (Nat.ltb_spec 1 d) as [H1|H1].
    + destruct (fill_chunk_ok d ltac:(lia)) as (a & -> & Has & Hb). cbn [obind].
      destruct (mixed_lookup d a i Has He) as (w & Hw & Hww & Hw1 & Hw2 & Ht). unfold update_word. rewrite Hw1. cbn [unwrap obind]. rewrite Hw2.
      destruct (clear_mask_bits w (i mod 64) Hww (mod_lt i)) as [Hlw Hlb]. destruct (set_bit_words d a i w _ false Has He Hw Hlw Hlb) as [Hs Hx].
      set (a' := <[(i / 64)%nat:=_]> a) in *. assert (Hca : count_ones a = d) by (rewrite (count_card d) by done; apply card_full; intros; rewrite Hb; by apply Nat.ltb_lt).
      assert (Hc1 : d = S (count_ones a')).
      { rewrite <- Hca. apply (count_with_bit d a' a i); [done|done|done| |].
        - rewrite Hx. unfold with_bit. by rewrite Nat.eqb_refl.
        - intros x. unfold with_bit. rewrite Hx, Hb. unfold with_bit. destruct (Nat.eqb_spec x i) as [->|]; [by apply Nat.ltb_lt|by rewrite Hb]. }
      destruct (mixed_intro d a' ltac:(lia) Hs) as [Hm Hmb]; [lia|]. replace (count_ones a') with (d - 1)%nat in Hm, Hmb by lia.
      eapply (chunk_changed _ _ _ _ i); [done|exact Hm|done| |].
      * intros x. rewrite Hmb, Hx. unfold with_bit. cbn [chunk_bit]. by rewrite Hb.
      * unfold with_bit. cbn [chunk_bit]. rewrite Nat.eqb_refl, (proj2 (Nat.ltb_lt i d)) by lia. done.
    + replace d with 1%nat in * by lia. eapply (chunk_changed _ _ _ _ i); [done|split; [cbn [chunk_dom]; lia|done]|done| |].
      * intros x. unfold with_bit. cbn [chunk_bit]. destruct (Nat.eqb_spec x i); [done|]. symmetry. apply Nat.ltb_ge. lia.
      * unfold with_bit. cbn [chunk_bit]. rewrite Nat.eqb_refl, (proj2 (Nat.ltb_lt i 1)) by lia. done.
  - pose proof Hc as [Hd [Hn [a Ha]]]. cbn [chunk_dom] in Hd. pose proof (mixed_bit _ _ _ _ Ha) as Hb. pose proof Ha as [Has -> Hcnt].
    destruct (mixed_lookup d a i Has He) as (w & Hw & Hww & Hw1 & Hw2 & Ht). rewrite Hw1. cbn [unwrap obind].
    rewrite (land_mask w (i mod 64) Hww (mod_lt i)), Ht. destruct (bit a i) eqn:Eb.
    + destruct (clear_mask_bits w (i mod 64) Hww (mod_lt i)) as [Hlw Hlb]. destruct (set_bit_words d a i w _ false Has He Hw Hlw Hlb) as [Hs Hx].
      set (a' := <[(i / 64)%nat:=_]> a) in *. assert (Hc1 : n = S (count_ones a')).
      { rewrite <- Hcnt. apply (count_with_bit d a' a i); [done|done|done| |].
        - rewrite Hx. unfold with_bit. by rewrite Nat.eqb_refl.
        - intros x. unfold with_bit. rewrite Hx. unfold with_bit. by destruct (Nat.eqb_spec x i) as [->|]. }
      destruct (Nat.ltb_spec 0 (n - 1)) as [H1|H1].
      * unfold update_word. rewrite Hw1. cbn [unwrap obind]. rewrite Hw2. fold a'. destruct (mixed_intro d a' ltac:(lia) Hs) as [Hm Hmb]; [lia|].
        replace (count_ones a') with (n - 1)%nat in Hm, Hmb by lia. eapply (chunk_changed _ _ _ _ i); [done|exact Hm|done| |].
        { intros x. rewrite Hmb, Hx. unfold with_bit. cbn [chunk_bit]. by rewrite Hb. }
        { unfold with_bit. cbn [chunk_bit]. rewrite Nat.eqb_refl, Hb. congruence. }
      * assert (Hz : count_ones a' = 0%nat) by lia. rewrite (count_card d) in Hz by done. pose proof (proj1 (card_zero _ _) Hz) as Hall.
        eapply (chunk_changed _ _ _ _ i); [done|split; [cbn [chunk_dom]; lia|done]|done| |].
        { intros x. unfold with_bit. cbn [chunk_bit]. rewrite Hb. specialize (Hx x). unfold with_bit in Hx. rewrite <- Hx.
          destruct (Nat.lt_ge_cases x d) as [Hlt|Hge]; [by rewrite Hall|]. symmetry. apply not_true_iff_false. intros Hxx. pose proof (wf_domain _ Hs x Hxx) as Hdx. cbn in Hdx. lia. }
        { unfold with_bit. cbn [chunk_bit]. rewrite Nat.eqb_refl, Hb. congruence. }
    + apply chunk_same; [done|done|]. intros x. unfold with_bit. cbn [chunk_bit]. destruct (Nat.eqb_spec x i) as [->|]; [by rewrite Hb|done].
Qed.

(** *** Combining two chunks *)

Lemma bits_differ d a a' : wf (mkBitSet d a) -> wf (mkBitSet d a') -> a' = a \/ exists i, bit a i <> bit a' i.
Proof.
  intros Ha Ha'. destruct (decide (Exists (fun i => bit a i <> bit a' i) (seq 0 d))) as [He|He].
  - right. apply Exists_exists in He as (i & _ & Hi). by exists i.
  - left. apply words_ext; [apply Ha'|apply Ha|exact (eq_trans (wf_len _ Ha') (eq_sym (wf_len _ Ha)))|]. intros i.
    apply dec_stable. intros Hi. apply He, Exists_exists. exists i. split; [|congruence]. apply elem_of_seq. split; [lia|].
    destruct (bit a' i) eqn:E'; [exact (wf_domain _ Ha' i E')|]. destruct (bit a i) eqn:E; [exact (wf_domain _ Ha i E)|done].
Qed.

Section MixedZip.
Context (op : Z -> Z -> Z) (f : bool -> bool -> bool).
Context (Hop : forall a b, is_word a -> is_word b -> is_word (op a b)).
Context (Hf : forall a b j, is_word a -> is_word b -> (j < 64)%nat ->
  Z.testbit (op a b) (Z.of_nat j) = f (Z.testbit a (Z.of_nat j)) (Z.testbit b (Z.of_nat j))).
Context (Hff : f false false = false).

Lemma mixed_zip d a b : wf (mkBitSet d a) -> wf (mkBitSet d b) ->
  exists m c a', would_modify_words a b op = Ret m /\ update_words a b op = Ret (c, a') /\ wf (mkBitSet d a')
    /\ (forall i, bit a' i = f (bit a i) (bit b i)) /\ (m = true <-> exists i, bit a i <> bit a' i).
Proof.
  intros Ha Hb. destruct (bitwise_ok op f Hop Hf (mkBitSet d a) (mkBitSet d b) Hff Ha Hb eq_refl) as (c & s' & E & Hs & Hd & Hx & _).
  unfold bitwise in E. cbn [domain_size words] in E. rewrite assert_true in E by by apply Nat.eqb_eq. cbn [obind] in E.
  assert (Hl : length a = length b) by exact (eq_trans (wf_len _ Ha) (eq_sym (wf_len _ Hb))).
  destruct (would_modify_words_ok op a b Hl) as (m & Em & Hm).
  unfold update_words in E |- *. rewrite assert_true in E |- * by by apply Nat.eqb_eq. cbn [obind] in E |- *.
  destruct (update_words_loop_ok op a b 0 Hl) as [H2 _]. destruct (update_words_loop op a b 0) as [ch a']. cbn [fst snd] in H2. subst a'.
  cbn [obind set_words domain_size] in E. injection E as _ <-. exists m. eexists _, _. split; [done|]. split; [done|]. split; [exact Hs|].
  assert (HB : forall i, bit (zip_with op a b) i = f (bit a i) (bit b i)).
  { intros i. apply eq_true_iff_eq. exact (Hx i). }
  split; [exact HB|]. rewrite <- not_false_iff_true, Hm. split.
  - intros Hn. destruct (bits_differ d a (zip_with op a b) Ha Hs); done.
  - intros (i & Hi) E. by rewrite E in Hi.
Qed.
End MixedZip.

Lemma chunk_slice d a : wf (mkBitSet d a) -> get_range (a ++ zero_words (CHUNK_WORDS - num_words d)) 0 (num_words d) = Some a
  /\ drop (num_words d) (a ++ zero_words (CHUNK_WORDS - num_words d)) = zero_words (CHUNK_WORDS - num_words d).
Proof.
  intros Ha. pose proof (wf_len _ Ha) as Hl. cbn [words domain_size] in Hl. unfold get_range. rewrite (proj2 (Nat.leb_le 0 _)) by lia.
  rewrite (proj2 (Nat.leb_le _ _)) by (rewrite length_app; lia). cbn [andb]. rewrite Nat.sub_0_r, drop_0, <- Hl.
  by rewrite take_app_length, drop_app_length.
Qed.

Lemma count_chunk_ok d a : (d <= CHUNK_BITS)%nat -> wf (mkBitSet d a) -> count_chunk a = count_ones a /\ count_ones a = card d (bit a).
Proof.
  intros Hd Ha. pose proof (count_card d a Ha) as Hc. split; [|done]. unfold count_chunk. apply as_chunk_size_small. rewrite Hc. pose proof (card_le d (bit a)). lia.
Qed.

Lemma orb_word a b j : is_word a -> is_word b -> (j < 64)%nat ->
  Z.testbit (Z.lor a b) (Z.of_nat j) = Z.testbit a (Z.of_nat j) || Z.testbit b (Z.of_nat j).
Proof. intros _ _ _. apply Z.lor_spec. Qed.

Lemma andn_word a b j : is_word a -> is_word b -> (j < 64)%nat ->
  Z.testbit (Z.land a (not_u64 b)) (Z.of_nat j) = Z.testbit a (Z.of_nat j) && negb (Z.testbit b (Z.of_nat j)).
Proof.
  intros Ha Hb Hj. rewrite Z.land_spec, not_u64_spec by (done || lia). by replace (Z.of_nat j <? 64) with true by (symmetry; apply Z.ltb_lt; lia).
Qed.

Lemma word_of_not_in_dom d a i : wf (mkBitSet d a) -> (d <= i)%nat -> bit a i = false.
Proof. intros Ha Hi. apply not_true_iff_false. intros Hb. pose proof (wf_domain _ Ha i Hb) as Hd. cbn in Hd. lia. Qed.

Lemma chunk_union_ok c o : chunk_wf c -> chunk_wf o -> chunk_dom c = chunk_dom o ->
  chunk_updates (chunk_union c o) c (fun i => chunk_bit c i || chunk_bit o i).
Proof.
  intros Hc Ho Hd. destruct o as [d'|d'|d' n' ws']; [apply chunk_same; [by destruct c|done|intros i; cbn; by rewrite orb_false_r]| |].
  - destruct c as [d|d|d n ws]; cbn [chunk_dom] in Hd; subst d'.
    + eapply (chunk_changed _ _ _ _ 0); [done|done|done|done|]. cbn [chunk_bit]. destruct Ho as [Hp _]. cbn in Hp. by rewrite (proj2 (Nat.ltb_lt 0 d)) by lia.
    + apply chunk_same; [done|done|]. intros i. cbn. by rewrite orb_diag.
    + destruct (mixed_both _ _ _ Hc) as [_ (j & Hj & Hb)]. eapply (chunk_changed _ _ _ _ j); [done|done|done| |].
      * intros i. destruct (chunk_bit (Mixed d n ws) i) eqn:E; [|done]. apply (chunk_bit_dom _ i Hc) in E. cbn [chunk_dom chunk_bit] in E |- *. by apply Nat.ltb_lt.
      * cbn [chunk_bit]. rewrite Hb, (proj2 (Nat.ltb_lt j d)) by done. done.
  - destruct c as [d|d|d n ws]; cbn [chunk_dom] in Hd; subst d'.
    + destruct (mixed_both _ _ _ Ho) as [(j & Hj & Hb) _]. eapply (chunk_changed _ _ _ _ j); [done|done|done|done|]. cbn [chunk_bit]. by rewrite Hb.
    + apply chunk_same; [done|done|]. intros i. destruct (chunk_bit (Mixed d n' ws') i) eqn:E; [|by rewrite orb_false_r]. apply (chunk_bit_dom _ i Ho) in E.
      rewrite orb_true_r. cbn [chunk_dom chunk_bit] in E |- *. by apply Nat.ltb_lt.
    + pose proof (mixed_both _ _ _ Hc) as [(k & Hk & Hbk) _].
      pose proof Hc as [Hp [Hn [a Ha]]]. pose proof Ho as [_ [_ [b Hb]]]. cbn [chunk_dom] in Hp.
      pose proof (mixed_bit _ _ _ _ Ha) as HBa. pose proof (mixed_bit _ _ _ _ Hb) as HBb. destruct Ha as [Ha -> Hna]. destruct Hb as [Hb -> Hnb].
      unfold chunk_union. destruct (chunk_slice d a Ha) as [-> ->]. destruct (chunk_slice d b Hb) as [-> _]. cbn [unwrap obind].
      case_bool_decide as Eab; [subst b; apply chunk_same; [done|done|]; intros i; cbn [chunk_bit]; by rewrite orb_diag|].
      destruct (mixed_zip Z.lor orb is_word_lor orb_word eq_refl d a b Ha Hb) as (m & ch & a' & -> & -> & Ha' & HB & Hm). cbn [obind].
      assert (HF : forall i, bit a' i = chunk_bit (Mixed d n (a ++ zero_words (CHUNK_WORDS - num_words d))) i || chunk_bit (Mixed d n' (b ++ zero_words (CHUNK_WORDS - num_words d))) i)
        by (intros i; cbn [chunk_bit]; by rewrite HBa, HBb, HB).
      destruct m; cbn [negb].
      * destruct (proj1 Hm eq_refl) as [j Hj]. destruct (count_chunk_ok d a' ltac:(lia) Ha') as [Hcc Hcard]. rewrite Hcc. rewrite <- (HBa j), (HF j) in Hj.
        destruct (Nat.eqb_spec (count_ones a') d) as [Ed|Ed].
        { eapply (chunk_changed _ _ _ _ j); [done|split; [cbn [chunk_dom]; lia|done]|done| |exact Hj]. intros i. rewrite <- HF. cbn [chunk_bit].
          rewrite Hcard in Ed. destruct (Nat.ltb_spec i d) as [Hi|Hi]; [by rewrite (proj1 (card_full _ _) Ed)|]. by rewrite (word_of_not_in_dom d). }
        { pose proof (card_le d (bit a')). destruct (mixed_intro d a' Hp Ha') as [Hmw Hmb].
          - split; [|lia]. destruct (count_ones a') eqn:E0; [|lia]. symmetry in Hcard. pose proof (proj1 (card_zero _ _) Hcard k Hk) as Hz. rewrite HB, <- HBa, Hbk in Hz. done.
          - eapply (chunk_changed _ _ _ _ j); [done|exact Hmw|done|intros i; by rewrite Hmb, HF|exact Hj]. }
      * apply chunk_same; [done|done|]. intros i. rewrite <- HF. cbn [chunk_bit]. rewrite HBa. apply dec_stable. intros Hi. by pose proof (proj2 Hm (ex_intro _ i Hi)).
Qed.

Lemma chunk_subtract_ok c o : chunk_wf c -> chunk_wf o -> chunk_dom c = chunk_dom o ->
  chunk_updates (chunk_subtract c o) c (fun i => chunk_bit c i && negb (chunk_bit o i)).
Proof.
  intros Hc Ho Hd. destruct c as [d|d|d n ws]; [by apply chunk_same| |].
  - destruct o as [d'|d'|d' n' ws']; cbn [chunk_dom] in Hd; subst d'.
    + apply chunk_same; [done|done|]. intros i. cbn. by rewrite andb_true_r.
    + destruct Hc as [Hp _]. eapply (chunk_changed _ _ _ _ 0); [done|by split|done| |].
      * intros i. cbn [chunk_bit]. by rewrite andb_negb_r.
      * cbn [chunk_bit chunk_dom] in *. rewrite (proj2 (Nat.ltb_lt 0 d)) by lia. done.
    + pose proof (mixed_both _ _ _ Ho) as [(k & Hk & Hbk) _]. pose proof Ho as [Hp [Hn [b Hb]]]. cbn [chunk_dom] in Hp.
      pose proof (mixed_bit _ _ _ _ Hb) as HBb. destruct Hb as [Hb -> Hnb]. unfold chunk_subtract. destruct (chunk_slice d b Hb) as [-> ->]. cbn [unwrap obind].
      destruct (clear_excess_ok d (not_u64 <$> b)) as (a' & -> & Ha' & HB).
      { rewrite length_fmap. apply Hb. }
      { apply Forall_fmap. eapply Forall_impl; [apply (wf_word _ Hb)|]. intros w. apply is_word_not. }
      cbn [obind]. assert (HF : forall i, bit a' i = (i <? d)%nat && negb (bit b i)).
      { intros i. rewrite HB, bit_map, andb_comm. destruct (Nat.ltb_spec i d) as [Hi|]; [|done]. cbn [andb]. unfold bit.
        destruct (word_of_elem _ i Hb Hi) as (w & Hw & Hww). cbn [words] in Hw. rewrite Hw. rewrite not_u64_spec by (done || lia).
        pose proof (mod_lt i). by replace (Z.of_nat (i mod 64) <? 64) with true by (symmetry; apply Z.ltb_lt; lia). }
      assert (Hcnt : count_ones a' = (d - n')%nat).
      { rewrite (count_card d a' Ha'). rewrite <- Hnb, (count_card d b Hb). pose proof (card_compl d (bit b)) as Hcm.
        rewrite (card_ext d (bit a') (fun i => negb (bit b i))); [lia|]. intros i Hi. rewrite HF. by rewrite (proj2 (Nat.ltb_lt i d)). }
      destruct (mixed_intro d a' Hp Ha') as [Hmw Hmb]; [lia|]. rewrite Hcnt in Hmw, Hmb.
      eapply (chunk_changed _ _ _ _ k); [done|exact Hmw|done| |].
      * intros i. rewrite Hmb, HF. cbn [chunk_bit]. by rewrite HBb.
      * cbn [chunk_bit]. rewrite Hbk. rewrite (proj2 (Nat.ltb_lt k d)) by done. done.
  - destruct o as [d'|d'|d' n' ws']; cbn [chunk_dom] in Hd; subst d'.
    + apply chunk_same; [done|done|]. intros i. cbn. by rewrite andb_true_r.
    + destruct (mixed_both _ _ _ Hc) as [(j & Hj & Hb) _]. eapply (chunk_changed _ _ _ _ j); [done|by split; [apply Hc|]|done| |].
      * intros i. destruct (chunk_bit (Mixed d n ws) i) eqn:E; [|done]. apply (chunk_bit_dom _ i Hc) in E. cbn [chunk_dom chunk_bit] in E |- *. by rewrite (proj2 (Nat.ltb_lt i d)).
      * cbn [chunk_bit]. rewrite Hb, (proj2 (Nat.ltb_lt j d)) by done. done.
    + pose proof (mixed_both _ _ _ Hc) as [_ (k & Hk & Hbk)].
      pose proof Hc as [Hp [Hn [a Ha]]]. pose proof Ho as [_ [_ [b Hb]]]. cbn [chunk_dom] in Hp.
      pose proof (mixed_bit _ _ _ _ Ha) as HBa. pose proof (mixed_bit _ _ _ _ Hb) as HBb. destruct Ha as [Ha -> Hna]. destruct Hb as [Hb -> Hnb].
      unfold chunk_subtract. destruct (chunk_slice d a Ha) as [-> ->]. destruct (chunk_slice d b Hb) as [-> _]. cbn [unwrap obind].
      destruct (mixed_zip (fun a b => Z.land a (not_u64 b)) (fun a b => a && negb b)) with (d := d) (a := a) (b := b) as (m & ch & a' & -> & -> & Ha' & HB & Hm);
        [auto with word|apply andn_word|done|done|done|]. cbn [obind].
      assert (HF : forall i, bit a' i = chunk_bit (Mixed d n (a ++ zero_words (CHUNK_WORDS - num_words d))) i && negb (chunk_bit (Mixed d n' (b ++ zero_words (CHUNK_WORDS - num_words d))) i))
        by (intros i; cbn [chunk_bit]; by rewrite HBa, HBb, HB).
      destruct m; cbn [negb].
      * destruct (proj1 Hm eq_refl) as [j Hj]. destruct (count_chunk_ok d a' ltac:(lia) Ha') as [Hcc Hcard]. rewrite Hcc. rewrite <- (HBa j), (HF j) in Hj.
        destruct (Nat.eqb_spec (count_ones a') 0) as [Ed|Ed].
        { eapply (chunk_changed _ _ _ _ j); [done|split; [cbn [chunk_dom]; lia|done]|done| |exact Hj]. intros i. rewrite <- HF. cbn [chunk_bit].
          rewrite Hcard in Ed. destruct (Nat.lt_ge_cases i d) as [Hi|Hi]; [by rewrite (proj1 (card_zero _ _) Ed)|]. by rewrite (word_of_not_in_dom d). }
        { pose proof (card_le d (bit a')). destruct (mixed_intro d a' Hp Ha') as [Hmw Hmb].
          - split; [lia|]. destruct (decide (count_ones a' = d)) as [E0|]; [|lia]. rewrite Hcard in E0. pose proof (proj1 (card_full _ _) E0 k Hk) as Hz. rewrite HB, <- HBa, Hbk in Hz. done.
          - eapply (chunk_changed _ _ _ _ j); [done|exact Hmw|done|intros i; by rewrite Hmb, HF|exact Hj]. }
      * apply chunk_same; [done|done|]. intros i. rewrite <- HF. cbn [chunk_bit]. rewrite HBa. apply dec_stable. intros Hi. by pose proof (proj2 Hm (ex_intro _ i Hi)).
Qed.

(** ** The whole set, its operations and its iterator *)

(** *** The set denoted *)

Definition chunk_bits (cs : list Chunk) (i : nat) : bool :=
  match cs !! chunk_index i with Some c => chunk_bit c (i mod CHUNK_BITS) | None => false end.

#[export] Instance ChunkedBitSet_elem_of : ElemOf nat ChunkedBitSet := fun x s => chunk_bits (chunks s) x = true.

Definition size_at (d k : nat) : nat := Nat.min CHUNK_BITS (d - k * CHUNK_BITS).

Record chunked_wf (s : ChunkedBitSet) : Prop := {
  cw_len : length (chunks s) = ((chunked_domain_size s + (CHUNK_BITS - 1)) / CHUNK_BITS)%nat;
  cw_chunk : forall k c, chunks s !! k = Some c -> chunk_wf c /\ chunk_dom c = size_at (chunked_domain_size s) k;
}.

Lemma chunk_bits_pos : (0 < CHUNK_BITS)%nat.
Proof. unfold CHUNK_BITS, CHUNK_WORDS, WORD_BITS. lia. Qed.

Lemma chunk_split i : i = (CHUNK_BITS * chunk_index i + i mod CHUNK_BITS)%nat /\ (i mod CHUNK_BITS < CHUNK_BITS)%nat.
Proof. pose proof chunk_bits_pos. split; [apply Nat.div_mod_eq|apply Nat.mod_upper_bound; lia]. Qed.

Lemma chunk_count_bound d : (d <= CHUNK_BITS * ((d + (CHUNK_BITS - 1)) / CHUNK_BITS) < d + CHUNK_BITS)%nat.
Proof.
  pose proof chunk_bits_pos. pose proof (Nat.div_mod_eq (d + (CHUNK_BITS - 1)) CHUNK_BITS).
  pose proof (Nat.mod_upper_bound (d + (CHUNK_BITS - 1)) CHUNK_BITS ltac:(lia)). lia.
Qed.

#[global] Opaque CHUNK_BITS.

Lemma chunk_of_elem s i : chunked_wf s -> (i < chunked_domain_size s)%nat ->
  exists c, chunks s !! chunk_index i = Some c /\ chunk_wf c /\ (i mod CHUNK_BITS < chunk_dom c)%nat.
Proof.
  intros Hs Hi. destruct (chunk_split i) as [Hspl Hmod]. pose proof (chunk_count_bound (chunked_domain_size s)) as Hn. rewrite <- (cw_len s Hs) in Hn.
  destruct (lookup_lt_is_Some_2 (chunks s) (chunk_index i)) as [c Hc]; [nia|]. exists c. split; [done|].
  destruct (cw_chunk s Hs _ _ Hc) as [Hw Hd]. split; [done|]. rewrite Hd. unfold size_at. nia.
Qed.

Lemma chunked_in_domain s i : chunked_wf s -> i ∈ s -> (i < chunked_domain_size s)%nat.
Proof.
  intros Hs Hi. unfold elem_of, ChunkedBitSet_elem_of, chunk_bits in Hi. destruct (chunks s !! chunk_index i) as [c|] eqn:Ec; [|done].
  destruct (cw_chunk s Hs _ _ Ec) as [Hw Hd]. pose proof (chunk_bit_dom c _ Hw Hi) as Hlt. rewrite Hd in Hlt. destruct (chunk_split i). unfold size_at in Hlt. nia.
Qed.

Lemma chunk_index_at k j : (j < CHUNK_BITS)%nat -> chunk_index (CHUNK_BITS * k + j) = k /\ ((CHUNK_BITS * k + j) mod CHUNK_BITS = j)%nat.
Proof.
  intros Hj. unfold chunk_index. rewrite Nat.mul_comm, Nat.div_add_l, Nat.div_small by lia. split; [lia|].
  rewrite Nat.add_comm, Nat.Div0.mod_add. by apply Nat.mod_small.
Qed.

Lemma chunk_bits_at cs k c j : cs !! k = Some c -> (j < CHUNK_BITS)%nat -> chunk_bits cs (CHUNK_BITS * k + j) = chunk_bit c j.
Proof. intros Hc Hj. unfold chunk_bits. destruct (chunk_index_at k j Hj) as [-> ->]. by rewrite Hc. Qed.

(** Sets of one domain with the same elements are equal, so derived equality is equality of sets. *)
Lemma chunked_ext s s' : chunked_wf s -> chunked_wf s' -> chunked_domain_size s = chunked_domain_size s' ->
  (forall x, x ∈ s <-> x ∈ s') -> s = s'.
Proof.
  intros Hs Hs' Hd Hx. assert (Hb : forall x, chunk_bits (chunks s) x = chunk_bits (chunks s') x) by (intros x; apply eq_true_iff_eq, Hx).
  assert (E : chunks s = chunks s').
  { apply list_eq_same_length with (length (chunks s)); [by rewrite (cw_len s Hs), (cw_len s' Hs'), Hd|done|].
    intros k c c' Hk Hc Hc'. destruct (cw_chunk s Hs k c Hc) as [Hw Hdc], (cw_chunk s' Hs' k c' Hc') as [Hw' Hdc'].
    apply chunk_ext; [done|done|by rewrite Hdc, Hdc', Hd|]. intros i.
    destruct (Nat.lt_ge_cases i CHUNK_BITS) as [Hi|Hi]; [by rewrite <- (chunk_bits_at (chunks s) k c), <- (chunk_bits_at (chunks s') k c')|].
    assert (Hout : forall q, chunk_wf q -> chunk_dom q = size_at (chunked_domain_size s) k -> chunk_bit q i = false).
    { intros q Hq Hqd. apply not_true_iff_false. intros Hqb%(chunk_bit_dom q i Hq). rewrite Hqd in Hqb. unfold size_at in Hqb. lia. }
    rewrite !Hout; [done|done|by rewrite Hdc', Hd|done|done]. }
  destruct s, s'. cbn in *. congruence.
Qed.

(** *** Updates with a change flag *)

Definition chunked_updates (m : outcome (bool * ChunkedBitSet)) (s : ChunkedBitSet) (P : nat -> Prop) : Prop :=
  runs m (fun q => chunked_wf q.2 /\ chunked_domain_size q.2 = chunked_domain_size s /\ (forall x, x ∈ q.2 <-> P x)
    /\ (q.1 = true <-> exists x, ~ (P x <-> x ∈ s))).

(** A change to the chunk of one element. *)
Lemma chunk_lift (f : Chunk -> nat -> outcome (bool * Chunk)) s i b (P : nat -> Prop) :
  (forall c, chunk_wf c -> (i mod CHUNK_BITS < chunk_dom c)%nat -> chunk_updates (f c i) c (with_bit (chunk_bit c) (i mod CHUNK_BITS) b)) ->
  chunked_wf s -> (i < chunked_domain_size s)%nat ->
  (forall x, P x <-> if decide (x = i) then b = true else x ∈ s) ->
  chunked_updates (let* _ := assert_that (i <? chunked_domain_size s)%nat in
    let* chunk := unwrap (chunks s !! chunk_index i) in
    let* '(changed, chunk) := f chunk i in
    Ret (changed, set_chunks s (<[chunk_index i := chunk]> (chunks s)))) s P.
Proof.
  intros Hf Hs Hi HP. rewrite assert_true by by apply Nat.ltb_lt. cbn [obind]. destruct (chunk_of_elem s i Hs Hi) as (c & Hc & Hw & Hm). rewrite Hc. cbn [unwrap obind].
  destruct (Hf c Hw Hm) as ([ch c'] & -> & Hw' & Hd' & Hb' & Hch). cbn [fst snd obind] in *. eexists (_, _). split; [done|]. cbn [fst snd].
  assert (HX : forall x, chunk_bits (<[chunk_index i := c']> (chunks s)) x = if decide (x = i) then b else chunk_bits (chunks s) x).
  { intros x. unfold chunk_bits. destruct (chunk_split x) as [Hx _], (chunk_split i) as [Hii _]. destruct (decide (chunk_index x = chunk_index i)) as [E|E].
    - rewrite E, list_lookup_insert_eq by (by eapply lookup_lt_Some). rewrite Hb', Hc. unfold with_bit. case_decide as Exi.
      + subst x. by rewrite Nat.eqb_refl.
      + rewrite (proj2 (Nat.eqb_neq _ _)); [done|]. intros E'. apply Exi. rewrite Hx, Hii, E, E'. done.
    - rewrite list_lookup_insert_ne by done. case_decide; [by subst x|done]. }
  split; [split|split; [done|]]; cbn [set_chunks chunked_domain_size chunks].
  - rewrite length_insert. apply Hs.
  - intros k q Hq. destruct (decide (k = chunk_index i)) as [->|Hk].
    + rewrite list_lookup_insert_eq in Hq by (by eapply lookup_lt_Some). injection Hq as <-. split; [done|]. rewrite Hd'. by apply Hs.
    + rewrite list_lookup_insert_ne in Hq by done. by apply Hs.
  - split.
    + intros x. rewrite HP. unfold elem_of, ChunkedBitSet_elem_of. cbn [chunks set_chunks]. rewrite HX. by case_decide.
    + assert (HI : chunk_bit c (i mod CHUNK_BITS) = chunk_bits (chunks s) i) by (unfold chunk_bits; by rewrite Hc).
      rewrite Hch. split.
      * intros (j & Hj). unfold with_bit in Hj. destruct (Nat.eqb_spec j (i mod CHUNK_BITS)) as [Ej|]; [subst j|done]. exists i. rewrite HP, decide_True by done.
        rewrite HI in Hj. unfold elem_of, ChunkedBitSet_elem_of. destruct b, (chunk_bits (chunks s) i); intuition congruence.
      * intros (x & Hx). rewrite HP in Hx. case_decide as E; [|tauto]. subst x. exists (i mod CHUNK_BITS)%nat. unfold with_bit. rewrite Nat.eqb_refl, HI.
        unfold elem_of, ChunkedBitSet_elem_of in Hx. intros E. apply Hx. by rewrite E.
Qed.

Lemma chunked_insert_ok s i : chunked_wf s -> (i < chunked_domain_size s)%nat ->
  chunked_updates (chunked_insert s i) s (fun x => x ∈ s \/ x = i).
Proof.
  intros Hs Hi. apply (chunk_lift chunk_insert s i true); [intros; by apply chunk_insert_ok|done|done|]. intros x. case_decide; intuition.
Qed.

Lemma chunked_remove_ok s i : chunked_wf s -> (i < chunked_domain_size s)%nat ->
  chunked_updates (chunked_remove s i) s (fun x => x ∈ s /\ x <> i).
Proof.
  intros Hs Hi. apply (chunk_lift chunk_remove s i false); [intros; by apply chunk_remove_ok|done|done|]. intros x. case_decide; [subst x|]; intuition congruence.
Qed.

Lemma chunked_contains_ok s i : chunked_wf s -> (i < chunked_domain_size s)%nat -> runs (chunked_contains s i) (fun c => c = true <-> i ∈ s).
Proof.
  intros Hs Hi. unfold chunked_contains. rewrite assert_true by by apply Nat.ltb_lt. cbn [obind]. destruct (chunk_of_elem s i Hs Hi) as (c & Hc & Hw & Hm).
  rewrite Hc. cbn [unwrap obind]. assert (HE : i ∈ s <-> chunk_bit c (i mod CHUNK_BITS) = true) by (unfold elem_of, ChunkedBitSet_elem_of, chunk_bits; by rewrite Hc).
  destruct c as [d|d|d n ws]; cbn [chunk_bit chunk_dom] in *.
  - exists false. split; [done|]. by rewrite HE.
  - exists true. split; [done|]. by rewrite HE, Nat.ltb_lt.
  - destruct Hw as [_ [_ [a Ha]]]. pose proof (mixed_bit _ _ _ _ Ha) as Hb. destruct Ha as [Ha -> _]. rewrite chunk_mask.
    destruct (mixed_lookup d a _ Ha Hm) as (w & Hw & Hww & Hw1 & _ & Ht). rewrite Hw1. cbn [unwrap obind]. eexists. split; [done|].
    rewrite land_mask by (auto with word). by rewrite Ht, HE, Hb.
Qed.

(** A change to every pair of chunks. *)
Lemma zip_chunks_ok f g l r : length l = length r ->
  (forall k a b, l !! k = Some a -> r !! k = Some b -> chunk_updates (f a b) a (fun i => g (chunk_bit a i) (chunk_bit b i))) ->
  exists ch l', zip_chunks f l r = Ret (ch, l') /\ length l' = length l /\
    (forall k a b c, l !! k = Some a -> r !! k = Some b -> l' !! k = Some c ->
      chunk_wf c /\ chunk_dom c = chunk_dom a /\ forall i, chunk_bit c i = g (chunk_bit a i) (chunk_bit b i)) /\
    (ch = true <-> exists k a b i, l !! k = Some a /\ r !! k = Some b /\ chunk_bit a i <> g (chunk_bit a i) (chunk_bit b i)).
Proof.
  revert r. induction l as [|a l IH]; intros [|b r] Hl Hf; try done.
  - exists false, []. split; [done|]. split; [done|]. split; [intros k ? ? ? Hk; by rewrite lookup_nil in Hk|]. split; [done|].
    intros (k & a & b & i & Hk & _). by rewrite lookup_nil in Hk.
  - cbn [zip_chunks]. destruct (Hf 0%nat a b eq_refl eq_refl) as ([c1 a'] & -> & Hw & Hd & Hb & Hc). cbn [fst snd obind] in *.
    destruct (IH r ltac:(by injection Hl)) as (c2 & l' & -> & Hl' & Hk & Hch). { intros k x y Hx Hy. by apply (Hf (S k)). }
    cbn [obind]. eexists _, _. split; [done|]. split; [cbn; by rewrite Hl'|]. split.
    + intros [|k] x y z Hx Hy Hz; [|by eapply Hk]. cbn in *. injection Hx as <-. injection Hy as <-. injection Hz as <-. done.
    + rewrite orb_true_iff, Hc, Hch. split.
      * intros [[i Hi]|(k & x & y & i & Hx & Hy & Hi)]; [by exists 0%nat, a, b, i|by exists (S k), x, y, i].
      * intros ([|k] & x & y & i & Hx & Hy & Hi); cbn in *; [left; simplify_eq; by exists i|right; by exists k, x, y, i].
Qed.

Lemma zip_update_ok f g s o (P : nat -> Prop) : chunked_wf s -> chunked_wf o -> chunked_domain_size s = chunked_domain_size o -> g false false = false ->
  (forall a b, chunk_wf a -> chunk_wf b -> chunk_dom a = chunk_dom b -> chunk_updates (f a b) a (fun i => g (chunk_bit a i) (chunk_bit b i))) ->
  (forall x, P x <-> g (chunk_bits (chunks s) x) (chunk_bits (chunks o) x) = true) -> chunked_updates (zip_update f s o) s P.
Proof.
  intros Hs Ho Hd Hg Hf HP. unfold zip_update. rewrite assert_true by by apply Nat.eqb_eq. cbn [obind].
  assert (Hl : length (chunks s) = length (chunks o)) by (by rewrite (cw_len s Hs), (cw_len o Ho), Hd).
  destruct (zip_chunks_ok f g (chunks s) (chunks o) Hl) as (ch & l' & -> & Hl' & Hk & Hch).
  { intros k a b Ha Hb. destruct (cw_chunk s Hs k a Ha), (cw_chunk o Ho k b Hb). apply Hf; [done|done|congruence]. }
  cbn [obind]. eexists (_, _). split; [done|]. cbn [fst snd]. assert (HX : forall x, chunk_bits l' x = g (chunk_bits (chunks s) x) (chunk_bits (chunks o) x)).
  { intros x. unfold chunk_bits. destruct (l' !! chunk_index x) as [c|] eqn:Ec.
    - pose proof (lookup_lt_Some _ _ _ Ec) as Hlt. destruct (lookup_lt_is_Some_2 (chunks s) (chunk_index x)) as [a Ha]; [lia|].
      destruct (lookup_lt_is_Some_2 (chunks o) (chunk_index x)) as [b Hb]; [lia|]. rewrite Ha, Hb. by apply (Hk _ a b c Ha Hb Ec).
    - apply lookup_ge_None in Ec. by rewrite !lookup_ge_None_2 by lia. }
  split; [split|split; [done|]]; cbn [set_chunks chunked_domain_size chunks].
  - rewrite Hl'. apply Hs.
  - intros k c Hc. pose proof (lookup_lt_Some _ _ _ Hc) as Hlt. destruct (lookup_lt_is_Some_2 (chunks s) k) as [a Ha]; [lia|].
    destruct (lookup_lt_is_Some_2 (chunks o) k) as [b Hb]; [lia|]. destruct (Hk k a b c Ha Hb Hc) as (Hw & Hdc & _). split; [done|]. rewrite Hdc. by apply Hs.
  - split; [intros x; unfold elem_of, ChunkedBitSet_elem_of; cbn [chunks set_chunks]; by rewrite HP, HX|]. rewrite Hch. split.
    + intros (k & a & b & i & Ha & Hb & Hi). destruct (cw_chunk s Hs k a Ha) as [Hwa Hda], (cw_chunk o Ho k b Hb) as [Hwb Hdb].
      assert (i < CHUNK_BITS)%nat as Hlt.
      { destruct (Nat.lt_ge_cases i CHUNK_BITS) as [|Hge]; [done|]. destruct Hi.
        assert (Hout : forall q, chunk_wf q -> chunk_bit q i = false).
        { intros q Hq. apply not_true_iff_false. intros Hqb%(chunk_bit_dom q i Hq). destruct Hq as [? _]. lia. }
        by rewrite !Hout. }
      exists (CHUNK_BITS * k + i)%nat. rewrite HP. unfold elem_of, ChunkedBitSet_elem_of. rewrite (chunk_bits_at _ k a), (chunk_bits_at _ k b) by done.
      intros E. apply Hi. symmetry. by apply eq_true_iff_eq.
    + intros (x & Hx). rewrite HP in Hx. unfold elem_of, ChunkedBitSet_elem_of, chunk_bits in Hx.
      destruct (chunks s !! chunk_index x) as [a|] eqn:Ea; [|apply lookup_ge_None in Ea; rewrite lookup_ge_None_2 in Hx by lia; by rewrite Hg in Hx].
      destruct (lookup_lt_is_Some_2 (chunks o) (chunk_index x)) as [b Hb]; [rewrite <- Hl; by eapply lookup_lt_Some|]. rewrite Hb in Hx.
      exists (chunk_index x), a, b, (x mod CHUNK_BITS)%nat. split; [done|]. split; [done|]. intros E. apply Hx. by rewrite <- E.
Qed.

Lemma chunked_union_ok s o : chunked_wf s -> chunked_wf o -> chunked_domain_size s = chunked_domain_size o ->
  chunked_updates (chunked_union s o) s (fun x => x ∈ s \/ x ∈ o).
Proof.
  intros Hs Ho Hd. apply (zip_update_ok chunk_union orb); [done|done|done|done|intros; by apply chunk_union_ok|]. intros x. by rewrite orb_true_iff.
Qed.

Lemma chunked_subtract_ok s o : chunked_wf s -> chunked_wf o -> chunked_domain_size s = chunked_domain_size o ->
  chunked_updates (chunked_subtract s o) s (fun x => x ∈ s /\ ~ x ∈ o).
Proof.
  intros Hs Ho Hd. apply (zip_update_ok chunk_subtract (fun a b => a && negb b)); [done|done|done|done|intros; by apply chunk_subtract_ok|].
  intros x. by rewrite andb_true_iff, negb_true_iff, <- not_true_iff_false.
Qed.

(** *** Construction *)

Lemma size_at_full d k : (k + 1 < (d + (CHUNK_BITS - 1)) / CHUNK_BITS)%nat -> size_at d k = CHUNK_BITS.
Proof. intros Hk. pose proof (chunk_count_bound d). unfold size_at. nia. Qed.

Lemma size_at_last d : (0 < d)%nat ->
  size_at d ((d + (CHUNK_BITS - 1)) / CHUNK_BITS - 1) = if (d mod CHUNK_BITS =? 0)%nat then CHUNK_BITS else (d mod CHUNK_BITS)%nat.
Proof.
  intros Hd. pose proof chunk_bits_pos. pose proof (chunk_count_bound d) as Hb. destruct (chunk_split d) as [Hs Hm]. set (n := ((d + (CHUNK_BITS - 1)) / CHUNK_BITS)%nat) in *.
  unfold size_at. destruct (Nat.eqb_spec (d mod CHUNK_BITS) 0) as [E|E].
  - assert (n = chunk_index d) as -> by nia. destruct (chunk_index d) as [|q]; [lia|]. replace (S q - 1)%nat with q by lia. nia.
  - assert (n = S (chunk_index d)) as -> by nia. replace (S (chunk_index d) - 1)%nat with (chunk_index d) by lia. nia.
Qed.

Lemma last_size_bound d : (0 < (if (d mod CHUNK_BITS =? 0)%nat then CHUNK_BITS else d mod CHUNK_BITS) <= CHUNK_BITS)%nat.
Proof. pose proof chunk_bits_pos. destruct (chunk_split d). destruct (Nat.eqb_spec (d mod CHUNK_BITS) 0); lia. Qed.

Lemma chunked_new_ok d (e : bool) : exists s, chunked_new d e = Ret s /\ chunked_wf s /\ chunked_domain_size s = d
  /\ forall x, x ∈ s <-> (x < d)%nat /\ e = false.
Proof.
  unfold chunked_new. pose proof chunk_bits_pos as Hpos. destruct (Nat.eqb_spec d 0) as [->|Hd].
  { eexists. split; [done|]. split; [split; cbn [chunks chunked_domain_size]|split; [done|]].
    - symmetry. apply Nat.div_small. lia.
    - intros k c Hk. by rewrite lookup_nil in Hk.
    - intros x. unfold elem_of, ChunkedBitSet_elem_of, chunk_bits. cbn. split; [done|lia]. }
  set (n := ((d + (CHUNK_BITS - 1)) / CHUNK_BITS)%nat). set (last := if (d mod CHUNK_BITS =? 0)%nat then CHUNK_BITS else (d mod CHUNK_BITS)%nat).
  pose proof (last_size_bound d) as Hlast. fold last in Hlast. pose proof (chunk_count_bound d) as Hn. fold n in Hn. assert (Hn1 : (1 <= n)%nat) by nia.
  rewrite !as_chunk_size_small by lia. set (mk := if e then Zeros else Ones).
  assert (Hp : (if e then (Zeros CHUNK_BITS, Zeros last) else (Ones CHUNK_BITS, Ones last)) = (mk CHUNK_BITS, mk last)) by (by destruct e). rewrite Hp. clear Hp.
  unfold set_index. rewrite length_replicate, (proj2 (Nat.ltb_lt _ _)) by lia. cbn [obind]. eexists. split; [done|].
  assert (HC : forall k c, <[(n - 1)%nat:=mk last]> (replicate n (mk CHUNK_BITS)) !! k = Some c -> c = mk (size_at d k)).
  { intros k c Hk. destruct (decide (k = n - 1)%nat) as [->|Hne].
    - rewrite list_lookup_insert_eq in Hk by (rewrite length_replicate; lia). injection Hk as <-. unfold n. by rewrite size_at_last by lia.
    - rewrite list_lookup_insert_ne in Hk by done. apply lookup_replicate in Hk as [-> Hk]. rewrite size_at_full; [done|]. fold n. lia. }
  assert (HM : forall q, chunk_dom (mk q) = q) by (intros q; unfold mk; by destruct e).
  assert (HW : chunked_wf (mkChunked d (<[(n - 1)%nat:=mk last]> (replicate n (mk CHUNK_BITS))))).
  { split; cbn [chunks chunked_domain_size]; [by rewrite length_insert, length_replicate|]. intros k c Hk. pose proof (lookup_lt_Some _ _ _ Hk) as Hlt. rewrite length_insert, length_replicate in Hlt.
    rewrite (HC k c Hk), HM. split; [|done]. split; [rewrite HM; unfold size_at; nia|]. unfold mk. by destruct e. }
  split; [exact HW|]. split; [done|]. intros x. split.
  - intros Hx. split; [by apply (chunked_in_domain _ x HW)|]. unfold elem_of, ChunkedBitSet_elem_of, chunk_bits in Hx. cbn [chunks] in Hx.
    destruct (_ !! chunk_index x) as [c|] eqn:Ec; [|done]. rewrite (HC _ _ Ec) in Hx. unfold mk in Hx. by destruct e.
  - intros [Hx ->]. destruct (chunk_of_elem _ x HW Hx) as (c & Hc & Hwc & Hm). cbn [chunks] in Hc. unfold elem_of, ChunkedBitSet_elem_of, chunk_bits. cbn [chunks].
    rewrite Hc. rewrite (HC _ _ Hc) in *. rewrite HM in Hm. unfold mk. cbn [chunk_bit]. by apply Nat.ltb_lt.
Qed.

Lemma chunked_is_empty_ok s : chunked_wf s -> chunked_is_empty s = true <-> forall x, ~ x ∈ s.
Proof.
  intros Hs. unfold chunked_is_empty. rewrite forallb_forall. split.
  - intros Hz x Hx. unfold elem_of, ChunkedBitSet_elem_of, chunk_bits in Hx. destruct (chunks s !! chunk_index x) as [c|] eqn:Ec; [|done].
    specialize (Hz c). rewrite <- list_elem_of_In in Hz. specialize (Hz (list_elem_of_lookup_2 _ _ _ Ec)). by destruct c.
  - intros He c Hc%list_elem_of_In. apply list_elem_of_lookup_1 in Hc as [k Hk]. destruct (cw_chunk s Hs k c Hk) as [Hw Hd].
    assert (Hno : forall i, (i < chunk_dom c)%nat -> chunk_bit c i = false).
    { intros i Hi. assert (i < CHUNK_BITS)%nat by (destruct Hw as [? _]; lia). apply not_true_iff_false. intros Hb. apply (He (CHUNK_BITS * k + i)%nat).
      unfold elem_of, ChunkedBitSet_elem_of. by rewrite (chunk_bits_at _ k c). }
    pose proof (chunk_count_card c Hw) as Hcc. rewrite (proj2 (card_zero _ _) Hno) in Hcc. destruct Hw as [Hp Hw]. destruct c as [d|d|d n ws]; cbn in *; [done|lia|lia].
Qed.

(** *** Iteration *)

Definition chunk_items (c : Chunk) : list nat := filter (fun i => chunk_bit c i = true) (seq 0 (chunk_dom c)).

Fixpoint chunk_lists (k : nat) (cs : list Chunk) : list nat :=
  match cs with [] => [] | c :: cs => ((fun j => j + k * CHUNK_BITS)%nat <$> chunk_items c) ++ chunk_lists (S k) cs end.

Lemma filter_seq_sorted (P : nat -> Prop) `{!forall x, Decision (P x)} a n : StronglySorted lt (filter P (seq a n)).
Proof.
  revert a. induction n as [|n IH]; intros a; cbn [seq]; [constructor|]. rewrite filter_cons. case_decide; [|apply IH]. constructor; [apply IH|].
  apply Forall_forall. intros x [_ Hx%elem_of_seq]%list_elem_of_filter. lia.
Qed.

Lemma sorted_lists_eq (l l' : list nat) : StronglySorted lt l -> StronglySorted lt l' -> (forall x, x ∈ l <-> x ∈ l') -> l = l'.
Proof.
  intros Hl Hl' Hx. assert (AntiSymm (=) lt) by (intros x y ? ?; lia). apply (StronglySorted_unique lt); [done|done|]. apply NoDup_Permutation; [by apply StronglySorted_NoDup|by apply StronglySorted_NoDup|done].
Qed.

Inductive sub_yields : ChunkIter -> list nat -> Prop :=
| yields_nil it : it <> IterFinished -> sub_next it = None -> sub_yields it []
| yields_cons it x it' l : it <> IterFinished -> sub_next it = Some (x, it') -> sub_yields it' l -> sub_yields it (x :: l).

Lemma ones_yield n a : sub_yields (IterOnes a (a + n)) (seq a n).
Proof.
  revert a. induction n as [|n IH]; intros a; cbn [seq].
  - constructor; [done|]. cbn [sub_next]. by rewrite (proj2 (Nat.ltb_ge _ _)) by lia.
  - econstructor; [done| |specialize (IH (S a)); by replace (a + S n)%nat with (S a + n)%nat by lia]. cbn [sub_next]. rewrite (proj2 (Nat.ltb_lt _ _)) by lia. do 3 f_equal. lia.
Qed.

Lemma mixed_yield fuel it l : collect fuel it = Ret l -> sub_yields (IterMixed it) l.
Proof.
  revert it l. induction fuel as [|f IH]; intros it l; cbn [collect]; destruct (bit_iter_next it) as [[x it']|] eqn:En.
  - done.
  - intros [= <-]. constructor; [done|]. cbn. by rewrite En.
  - intros H. inv_ret. econstructor; [done|cbn; by rewrite En|by apply IH].
  - intros [= <-]. constructor; [done|]. cbn. by rewrite En.
Qed.

Inductive pending (s : ChunkedBitSet) : ChunkedBitIter -> list nat -> Prop :=
| pending_end k : (length (chunks s) <= k)%nat -> pending s (mkChunkedIter s k IterFinished) []
| pending_sub k sub l : (k < length (chunks s))%nat -> sub_yields sub l ->
    pending s (mkChunkedIter s k sub) (((fun j => j + k * CHUNK_BITS)%nat <$> l) ++ chunk_lists (S k) (drop (S k) (chunks s))).

Lemma chunk_iter_pending s k : chunked_wf s ->
  exists sub, chunk_iter s k = Ret sub /\ pending s (mkChunkedIter s k sub) (chunk_lists k (drop k (chunks s))).
Proof.
  intros Hs. unfold chunk_iter. destruct (chunks s !! k) as [c|] eqn:Ec.
  - pose proof (lookup_lt_Some _ _ _ Ec) as Hlt. rewrite (drop_S _ _ _ Ec). cbn [chunk_lists]. destruct (cw_chunk s Hs k c Ec) as [Hw Hd].
    assert (HI : forall sub, sub_yields sub (chunk_items c) -> pending s (mkChunkedIter s k sub) (((fun j => j + k * CHUNK_BITS)%nat <$> chunk_items c) ++ chunk_lists (S k) (drop (S k) (chunks s)))) by (intros; by constructor).
    unfold chunk_items in *. destruct c as [d|d|d n ws]; cbn [chunk_bit chunk_dom] in *.
    + eexists. split; [done|]. apply HI. rewrite (filter_on _ (fun _ => False)) by done. assert (filter (fun _ : nat => False) (seq 0 d) = []) as ->; [|by constructor].
      clear. generalize 0%nat. induction d as [|d IH]; intros a; cbn [seq]; [done|]. rewrite filter_cons_False by tauto. apply IH.
    + eexists. split; [done|]. apply HI. rewrite (filter_on _ (fun _ => True)) by (intros x Hx%elem_of_seq; rewrite Nat.ltb_lt; intuition lia).
      assert (filter (fun _ : nat => True) (seq 0 d) = seq 0 d) as ->; [|apply (ones_yield d 0)].
      clear. generalize 0%nat. induction d as [|d IH]; intros a; cbn [seq]; [done|]. rewrite filter_cons_True by done. by rewrite IH.
    + destruct Hw as [Hp [_ [a Ha]]]. cbn [chunk_dom] in Hp. pose proof (mixed_bit _ _ _ _ Ha) as Hb. destruct Ha as [Ha -> _]. rewrite (proj1 (chunk_slice d a Ha)). cbn [unwrap obind].
      eexists. split; [done|]. apply HI. apply (mixed_yield (64 * length a)).
      assert (E : filter (fun i => bit (a ++ zero_words (CHUNK_WORDS - num_words d)) i = true) (seq 0 d) = items 0 a).
      { apply sorted_lists_eq; [apply filter_seq_sorted|apply items_sorted|]. intros x. rewrite list_elem_of_filter, elem_of_seq, items_elem, Hb.
        replace (x - 64 * 0)%nat with x by lia. split; [intros [? ?]; split; [lia|done]|]. intros [_ Hx]. split; [done|]. pose proof (wf_domain _ Ha x Hx) as Hxd. cbn in Hxd. lia. }
      rewrite E. apply (collect_items a 0); [apply Ha|done|]. pose proof (wf_len _ Ha) as Hl. cbn [words domain_size] in Hl. rewrite Hl.
      pose proof (chunk_words_in_use d ltac:(lia)) as Hu. unfold CHUNK_WORDS in Hu. lia.
  - apply lookup_ge_None in Ec. eexists. split; [done|]. rewrite drop_ge by done. by constructor.
Qed.

Lemma chunked_next_ok s it l fuel : chunked_wf s -> pending s it l -> (length (chunks s) - iter_index it < fuel)%nat ->
  match l with
  | [] => chunked_iter_next fuel it = Ret None
  | x :: l' => exists it', chunked_iter_next fuel it = Ret (Some (x, it')) /\ pending s it' l'
  end.
Proof.
  intros Hs. revert it l. induction fuel as [|f IH]; intros it l Hp Hf; [lia|]. destruct Hp as [k Hk|k sub l Hk Hy]; [done|]. cbn [iter_index] in Hf.
  assert (HN : forall A B : outcome (option (nat * ChunkedBitIter)), sub <> IterFinished -> match sub with IterFinished => A | _ => B end = B) by (by destruct sub).
  cbn [chunked_iter_next iter_chunk]. destruct Hy as [sub Hne Hn|sub x sub' l Hne Hn Hy]; rewrite HN, Hn by done; clear HN; cbn [bit_set iter_index].
  - destruct (chunk_iter_pending s (S k) Hs) as (sub' & -> & Hp'). cbn [obind fmap list_fmap app]. specialize (IH _ _ Hp'). apply IH. cbn [iter_index]. lia.
  - cbn [fmap list_fmap app]. eexists. split; [done|]. by constructor.
Qed.

Lemma pending_bit_set s it l : pending s it l -> bit_set it = s.
Proof. by destruct 1. Qed.

Lemma chunked_collect_ok s l : forall it fuel, chunked_wf s -> pending s it l -> (length l <= fuel)%nat -> chunked_collect fuel it = Ret l.
Proof.
  induction l as [|x l IH]; intros it fuel Hs Hp Hf; pose proof (chunked_next_ok s it _ (length (chunks (bit_set it)) + 1) Hs Hp) as Hn; rewrite (pending_bit_set _ _ _ Hp) in Hn.
  - specialize (Hn ltac:(lia)). cbn in Hn. destruct fuel; cbn [chunked_collect]; by rewrite (pending_bit_set _ _ _ Hp), Hn.
  - destruct (Hn ltac:(lia)) as (it' & E & Hp'). destruct fuel as [|fuel]; [cbn in Hf; lia|]. cbn [chunked_collect]. rewrite (pending_bit_set _ _ _ Hp), E. cbn [obind].
    rewrite (IH it') by (done || cbn in Hf; lia). done.
Qed.

Lemma chunk_lists_elem cs k x : (forall c, c ∈ cs -> chunk_wf c) ->
  x ∈ chunk_lists k cs <-> (k * CHUNK_BITS <= x)%nat /\ chunk_bits cs (x - k * CHUNK_BITS) = true.
Proof.
  revert k. pose proof chunk_bits_pos as Hpos. induction cs as [|c cs IH]; intros k Hcs; cbn [chunk_lists].
  - split; [intros H; by apply elem_of_nil in H|]. intros [_ Hb]. done.
  - rewrite elem_of_app, IH, list_elem_of_fmap by (intros q Hq; apply Hcs; by right). pose proof (Hcs c ltac:(left)) as Hc. unfold chunk_bits at 2.
    assert (HC : forall y, (y < CHUNK_BITS)%nat -> chunk_index y = 0%nat) by (intros; by apply Nat.div_small).
    split.
    + intros [(j & -> & [Hj Hlt%elem_of_seq]%list_elem_of_filter)|[Hle Hb]].
      * destruct Hc as [Hd _]. split; [lia|]. replace (j + k * CHUNK_BITS - k * CHUNK_BITS)%nat with j by lia. rewrite HC, Nat.mod_small by lia. done.
      * split; [lia|]. replace (x - k * CHUNK_BITS)%nat with (x - S k * CHUNK_BITS + 1 * CHUNK_BITS)%nat by lia. unfold chunk_index. rewrite Nat.div_add, Nat.Div0.mod_add by lia.
        rewrite Nat.add_1_r. exact Hb.
    + intros [Hle Hb]. destruct (Nat.lt_ge_cases (x - k * CHUNK_BITS) CHUNK_BITS) as [Hlt|Hge].
      * left. rewrite HC, Nat.mod_small in Hb by done. cbn in Hb. exists (x - k * CHUNK_BITS)%nat. split; [lia|]. apply list_elem_of_filter. split; [done|].
        apply elem_of_seq. pose proof (chunk_bit_dom c _ Hc Hb). lia.
      * right. split; [lia|]. replace (x - k * CHUNK_BITS)%nat with (x - S k * CHUNK_BITS + 1 * CHUNK_BITS)%nat in Hb by lia. unfold chunk_index in Hb. rewrite Nat.div_add, Nat.Div0.mod_add in Hb by lia.
        rewrite Nat.add_1_r in Hb. exact Hb.
Qed.

Lemma chunk_lists_sorted cs k : (forall c, c ∈ cs -> chunk_wf c) -> StronglySorted lt (chunk_lists k cs).
Proof.
  revert k. induction cs as [|c cs IH]; intros k Hcs; cbn [chunk_lists]; [constructor|]. apply StronglySorted_app_iff. split; [|split; [apply IH; intros q Hq; apply Hcs; by right|]].
  - pose proof (filter_seq_sorted (fun i => chunk_bit c i = true) 0 (chunk_dom c)) as Hs. unfold chunk_items. induction Hs as [|j l Hs IHs Hj]; cbn [fmap list_fmap]; constructor; [done|].
    apply Forall_fmap. eapply Forall_impl; [exact Hj|]. intros x Hx. cbn. lia.
  - apply Forall_fmap, Forall_forall. intros j [_ Hj%elem_of_seq]%list_elem_of_filter. apply Forall_forall. intros y Hy.
    apply chunk_lists_elem in Hy as [Hy _]; [|intros q Hq; apply Hcs; by right]. destruct (Hcs c ltac:(left)) as [Hd _]. cbn. lia.
Qed.

Lemma sorted_below_length (l : list nat) n : StronglySorted lt l -> (forall x, x ∈ l -> (x < n)%nat) -> (length l <= n)%nat.
Proof.
  intros Hs Hn. rewrite <- (length_seq n 0). apply submseteq_length, NoDup_submseteq; [by apply StronglySorted_NoDup|].
  intros x Hx%Hn. apply elem_of_seq. lia.
Qed.

Lemma chunked_iter_ok s : chunked_wf s ->
  exists l, chunked_iter s = Ret l /\ StronglySorted lt l /\ (forall x, x ∈ l <-> x ∈ s) /\ chunked_count s = length l.
Proof.
  intros Hs. assert (Hcs : forall c, c ∈ chunks s -> chunk_wf c) by (intros c [k Hk]%list_elem_of_lookup_1; by eapply cw_chunk).
  exists (chunk_lists 0 (chunks s)). assert (HE : forall x, x ∈ chunk_lists 0 (chunks s) <-> x ∈ s).
  { intros x. rewrite chunk_lists_elem by done. rewrite Nat.mul_0_l, Nat.sub_0_r. split; [intros [_ ?]; done|split; [lia|done]]. }
  pose proof (chunk_lists_sorted (chunks s) 0 Hcs) as Hsort. split; [|split; [done|split; [done|]]].
  - unfold chunked_iter, chunked_iter_new. destruct (chunk_iter_pending s 0 Hs) as (sub & -> & Hp). cbn [obind]. apply (chunked_collect_ok s); [done|done|].
    apply sorted_below_length; [done|]. intros x Hx%HE. by apply chunked_in_domain.
  - unfold chunked_count. clear -Hcs. generalize 0%nat. induction (chunks s) as [|c cs IH]; intros k; [done|]. cbn [chunk_lists fmap list_fmap sum_list_with].
    rewrite length_app, length_fmap. cbn [sum_list_with]. unfold chunk_items. rewrite card_filter, <- (chunk_count_card c) by (apply Hcs; left).
    rewrite <- (IH (fun q Hq => Hcs q (list_elem_of_further q _ _ Hq)) (S k)). done.
Qed.
