(* ===== verification/ChunkedTheorems.v ===== *)
(** * Chunked and mixed bit sets: the theorems

    What the compiler's passes use of a bit set is one interface, [BitSetOps]; [set_laws] says what it
    promises.  The dense and the chunked set are proved to keep the promise, and the mixed set, which
    chooses between them, is proved against the interface. *)
From Stdlib Require Import ZArith Lia Sorted.
From stdpp Require Import base numbers list.
From S2P Require Import Prelude RustSlice Swar BitSet BitSetFacts BitSetTheorems Chunked ChunkedFacts.
Open Scope Z_scope.
Open Scope rust_scope.

Class BitSetOps (S : Type) := {
  bs_elem :: ElemOf nat S;
  bs_wf : S -> Prop;
  bs_domain : S -> nat;
  bs_contains : S -> nat -> outcome bool;
  bs_insert : S -> nat -> outcome (bool * S);
  bs_remove : S -> nat -> outcome (bool * S);
  bs_union : S -> S -> outcome (bool * S);
  bs_subtract : S -> S -> outcome (bool * S);
  bs_insert_all : S -> outcome S;
  bs_clear : S -> outcome S;
  bs_is_empty : S -> bool;
  bs_iter : S -> outcome (list nat);
}.

#[export] Instance dense_ops : BitSetOps DenseBitSet := {|
  bs_wf := wf; bs_domain := domain_size; bs_contains := contains; bs_insert := insert; bs_remove := remove;
  bs_union := union; bs_subtract := subtract; bs_insert_all := insert_all; bs_clear := fun s => Ret (clear s);
  bs_is_empty := is_empty; bs_iter := iter |}.

#[export] Instance chunked_ops : BitSetOps ChunkedBitSet := {|
  bs_wf := chunked_wf; bs_domain := chunked_domain_size; bs_contains := chunked_contains; bs_insert := chunked_insert;
  bs_remove := chunked_remove; bs_union := chunked_union; bs_subtract := chunked_subtract; bs_insert_all := chunked_insert_all;
  bs_clear := chunked_clear; bs_is_empty := chunked_is_empty; bs_iter := chunked_iter |}.

(** The representation is chosen by the size of the domain. *)
Definition mixed_wf (s : MixedBitSet) : Prop :=
  match s with
  | Small s => wf s /\ (domain_size s <= CHUNK_BITS)%nat
  | Large s => chunked_wf s /\ (CHUNK_BITS < chunked_domain_size s)%nat
  end.

#[export] Instance mixed_elem_of : ElemOf nat MixedBitSet := fun x s => match s with Small s => x ∈ s | Large s => x ∈ s end.

#[export] Instance mixed_ops : BitSetOps MixedBitSet := {|
  bs_wf := mixed_wf; bs_domain := mixed_domain_size; bs_contains := mixed_contains; bs_insert := mixed_insert;
  bs_remove := mixed_remove; bs_union := mixed_union; bs_subtract := mixed_subtract; bs_insert_all := mixed_insert_all;
  bs_clear := mixed_clear; bs_is_empty := mixed_is_empty; bs_iter := mixed_iter |}.

Section Laws.
Context {S : Type} `{!BitSetOps S}.

(** An update with a change flag: the elements after it, and whether any changed. *)
Definition set_updates (m : outcome (bool * S)) (s : S) (P : nat -> Prop) : Prop :=
  runs m (fun q => bs_wf q.2 /\ bs_domain q.2 = bs_domain s /\ (forall x, x ∈ q.2 <-> P x)
    /\ (q.1 = true <-> exists x, ~ (P x <-> x ∈ s))).

Definition set_becomes (m : outcome S) (s : S) (P : nat -> Prop) : Prop :=
  runs m (fun q => bs_wf q /\ bs_domain q = bs_domain s /\ forall x, x ∈ q <-> P x).

Definition set_laws (s other : S) (i : nat) : Prop :=
  runs (bs_contains s i) (fun c => c = true <-> i ∈ s) /\
  set_updates (bs_insert s i) s (fun x => x ∈ s \/ x = i) /\
  set_updates (bs_remove s i) s (fun x => x ∈ s /\ x <> i) /\
  set_updates (bs_union s other) s (fun x => x ∈ s \/ x ∈ other) /\
  set_updates (bs_subtract s other) s (fun x => x ∈ s /\ ~ x ∈ other) /\
  set_becomes (bs_insert_all s) s (fun x => (x < bs_domain s)%nat) /\
  set_becomes (bs_clear s) s (fun _ => False) /\
  (bs_is_empty s = true <-> forall x, ~ x ∈ s) /\
  runs (bs_iter s) (fun l => StronglySorted lt l /\ forall x, x ∈ l <-> x ∈ s) /\
  (s = other <-> forall x, x ∈ s <-> x ∈ other).

(** Two sets of one domain, and an element of it. *)
Record same_domain (s other : S) (i : nat) : Prop := {
  sd_left : bs_wf s;
  sd_right : bs_wf other;
  sd_domain : bs_domain s = bs_domain other;
  sd_elem : (i < bs_domain s)%nat;
  sd_size : Z.of_nat (bs_domain s) <= u64_max - 63;
}.
End Laws.

Class BitSetLaws (S : Type) `{!BitSetOps S} : Prop :=
  laws : forall s other i, same_domain s other i -> set_laws s other i.

#[export] Instance dense_laws : BitSetLaws DenseBitSet.
Proof.
  intros s o i [Hs Ho Hd Hi Hlim]. cbn in Hs, Ho, Hd, Hi, Hlim.
  destruct (dense_insert_ok s i Hs Hi) as (c1 & s1 & E1 & Hw1 & Hd1 & Hx1 & Hc1).
  destruct (dense_remove_ok s i Hs Hi) as (c2 & s2 & E2 & Hw2 & Hd2 & Hx2 & Hc2).
  destruct (iter_ok s Hs Hlim) as [Eit _]. unfold set_laws.
  split; [|split; [|split; [|split; [|split; [|split; [|split; [|split; [|split]]]]]]]]; cbn [bs_contains bs_insert bs_remove bs_union bs_subtract bs_insert_all bs_clear bs_is_empty bs_iter dense_ops].
  - exists (bit (words s) i). split; [by apply dense_contains_ok|done].
  - exists (c1, s1). split; [done|]. split; [done|]. split; [done|]. split; [done|]. cbn [fst]. rewrite Hc1. split; [intros Hn; exists i; tauto|].
    intros (x & Hn) Hin. apply Hn. split; [|tauto]. intros [Hx'| ->]; done.
  - exists (c2, s2). split; [done|]. split; [done|]. split; [done|]. split; [done|]. cbn [fst]. rewrite Hc2. split; [intros Hn; exists i; tauto|]. intros (x & Hn).
    destruct (decide (x = i)) as [->|Hne]; [|tauto]. change (bit (words s) i = true). apply dec_stable. change (~ ~ i ∈ s). intros Hni. apply Hn. tauto.
  - apply (bitwise_updates _ orb); try done; [auto with word|apply orb_word|intros x; apply orb_true_iff].
  - apply (bitwise_updates _ (fun a b => a && negb b)); try done; [auto with word|apply andn_word|].
    intros x. by rewrite andb_true_iff, negb_true_iff, !elem_of_bits, not_true_iff_false.
  - destruct (dense_insert_all_ok s Hs) as (s' & E & Hw & Hd' & Hx). by exists s'.
  - destruct (clear_ok s Hs) as [Hw Hx]. eexists. split; [done|]. split; [done|]. split; [done|]. intros x. split; [apply Hx|done].
  - by apply is_empty_ok.
  - exists (items 0 (words s)). split; [done|]. split; [apply items_sorted|]. intros x. rewrite items_elem. change (x ∈ s) with (bit (words s) x = true).
    replace (x - 64 * 0)%nat with x by lia. split; [tauto|]. intros; split; [lia|done].
  - split; [by intros ->|]. intros Hx. assert (words s = words o).
    { apply words_ext; [apply Hs|apply Ho|by rewrite (wf_len s Hs), (wf_len o Ho), Hd|]. intros x. apply eq_true_iff_eq, Hx. }
    destruct s, o. cbn in *. congruence.
Qed.

#[export] Instance chunked_laws : BitSetLaws ChunkedBitSet.
Proof.
  intros s o i [Hs Ho Hd Hi Hlim]. cbn in Hs, Ho, Hd, Hi, Hlim. unfold set_laws.
  split; [by apply chunked_contains_ok|]. split; [by apply chunked_insert_ok|]. split; [by apply chunked_remove_ok|]. split; [by apply chunked_union_ok|].
  split; [by apply chunked_subtract_ok|].
  destruct (chunked_new_ok (chunked_domain_size s) false) as (s1 & E1 & Hw1 & Hd1 & Hx1). destruct (chunked_new_ok (chunked_domain_size s) true) as (s2 & E2 & Hw2 & Hd2 & Hx2).
  split; [exists s1; split; [done|split; [done|split; [done|]]]; intros x; etrans; [apply Hx1|]; cbn; tauto|].
  split; [exists s2; split; [done|split; [done|split; [done|]]]; intros x; etrans; [apply Hx2|]; intuition congruence|].
  split; [by apply chunked_is_empty_ok|]. split; [|split; [by intros ->|by apply chunked_ext]].
  destruct (chunked_iter_ok s Hs) as (l & E & Hl & Hx & _). by exists l.
Qed.

(** Moving a law through the constructor of the mixed set. *)
Lemma runs_map {A B} (f : A -> B) (m : outcome A) (P : A -> Prop) (Q : B -> Prop) :
  runs m P -> (forall a, P a -> Q (f a)) -> runs (let* a := m in Ret (f a)) Q.
Proof. intros (a & -> & Ha) HQ. exists (f a). auto. Qed.

Section Inject.
Context {S : Type} `{!BitSetOps S} (inj : S -> MixedBitSet).
Context (Hdom : forall s, mixed_domain_size (inj s) = bs_domain s) (Helem : forall x s, x ∈ inj s <-> x ∈ s).
Context (s : S) (Hwf : forall q, bs_wf q -> bs_domain q = bs_domain s -> mixed_wf (inj q)).

Lemma inject_updates m P : set_updates m s P -> set_updates (let* '(a, q) := m in Ret (a, inj q)) (inj s) P.
Proof.
  intros ([c q] & -> & Hw & Hd & Hx & Hc). cbn [fst snd] in *. exists (c, inj q). split; [done|]. cbn [fst snd bs_wf bs_domain mixed_ops].
  split; [by apply Hwf|]. split; [by rewrite !Hdom|]. split; [intros x; by rewrite <- Hx; apply Helem|]. rewrite Hc. split; intros (x & Hn); exists x; intros E; apply Hn; rewrite E; [apply Helem|symmetry; apply Helem].
Qed.

Lemma inject_becomes m P : set_becomes m s P -> set_becomes (let* q := m in Ret (inj q)) (inj s) P.
Proof.
  intros Hm. apply (runs_map inj _ _ _ Hm). intros q (Hw & Hd & Hx). split; [by apply Hwf|]. split; [cbn; by rewrite !Hdom|]. intros x. rewrite <- Hx. apply Helem.
Qed.
End Inject.

#[export] Instance mixed_laws : BitSetLaws MixedBitSet.
Proof.
  intros s o i [Hs Ho Hd Hi Hlim]. cbn in Hs, Ho, Hd, Hi, Hlim. destruct s as [s|s], o as [o|o]; cbn in Hs, Ho, Hd, Hi, Hlim; try lia.
  - destruct (laws s o i ltac:(split; [apply Hs|apply Ho|done|done|done])) as (L1 & L2 & L3 & L4 & L5 & L6 & L7 & L8 & L9 & L10).
    pose proof (inject_updates Small ltac:(done) ltac:(done) s) as HU. pose proof (inject_becomes Small ltac:(done) ltac:(done) s) as HB.
    assert (Hwf : forall q, bs_wf q -> bs_domain q = bs_domain s -> mixed_wf (Small q)) by (intros q Hq Hdq; split; [done|]; cbn in Hdq; lia).
    specialize (HU Hwf). specialize (HB Hwf). unfold set_laws. split; [done|]. split; [by apply HU|]. split; [by apply HU|]. split; [by apply HU|]. split; [by apply HU|].
    split; [by apply HB|]. split; [by apply (HB (Ret (clear s)))|]. split; [done|]. split; [done|]. rewrite <- L10. split; [by intros [= ->]|by intros ->].
  - destruct (laws s o i ltac:(split; [apply Hs|apply Ho|done|done|done])) as (L1 & L2 & L3 & L4 & L5 & L6 & L7 & L8 & L9 & L10).
    pose proof (inject_updates Large ltac:(done) ltac:(done) s) as HU. pose proof (inject_becomes Large ltac:(done) ltac:(done) s) as HB.
    assert (Hwf : forall q, bs_wf q -> bs_domain q = bs_domain s -> mixed_wf (Large q)) by (intros q Hq Hdq; split; [done|]; cbn in Hdq; lia).
    specialize (HU Hwf). specialize (HB Hwf). unfold set_laws. split; [done|]. split; [by apply HU|]. split; [by apply HU|]. split; [by apply HU|]. split; [by apply HU|].
    split; [by apply HB|]. split; [by apply HB|]. split; [done|]. split; [done|]. rewrite <- L10. split; [by intros [= ->]|by intros ->].
Qed.

Lemma mixed_new_empty_ok d : runs (mixed_new_empty d) (fun s => mixed_wf s /\ mixed_domain_size s = d /\ forall x, ~ x ∈ s).
Proof.
  unfold mixed_new_empty. destruct (Nat.leb_spec d CHUNK_BITS) as [Hd|Hd].
  - destruct (new_empty_ok d) as [Hw Hx]. eexists. split; [done|]. split; [by split|]. by split.
  - destruct (chunked_new_ok d true) as (s & E & Hw & Hds & Hx). unfold chunked_new_empty. rewrite E. cbn [obind]. eexists. split; [done|].
    split; [split; [done|by rewrite Hds]|]. split; [done|]. intros x Hin. apply Hx in Hin. by destruct Hin.
Qed.

(** The chunked set, which stores a chunk as "all zeros", "all ones" or words with a count of its
    ones, and the mixed set, which is dense or chunked by the size of its domain, are mathematical sets:
    on a domain's elements and on sets of one domain every operation returns, keeps the representation
    canonical (so that derived equality is equality of sets), computes the set operation, and its change
    flag is true exactly when the set changed; iteration is in increasing order and [count] its length. *)
Theorem chunked_mixed_are_sets :
  (forall (s other : ChunkedBitSet) i, same_domain s other i ->
    set_laws s other i /\ runs (chunked_iter s) (fun l => chunked_count s = length l)) /\
  (forall (s other : MixedBitSet) i, same_domain s other i -> set_laws s other i) /\
  (forall d, runs (mixed_new_empty d) (fun s => mixed_wf s /\ mixed_domain_size s = d /\ forall x, ~ x ∈ s)).
Proof.
  split; [|split; [intros; by apply laws|apply mixed_new_empty_ok]]. intros s o i Hs. split; [by apply laws|].
  destruct (chunked_iter_ok s (sd_left _ _ _ Hs)) as (l & E & _ & _ & Hc). by exists l.
Qed.

(** ** Witnesses *)

(** A domain of three chunks, the last one short: everything but 4000. *)
Definition sample_chunked : ChunkedBitSet :=
  match (let* s := chunked_new_filled 4500 in let* '(_, s) := chunked_remove s 4000 in Ret s) with Ret s => s | _ => mkChunked 0 [] end.

Example sample_chunked_count : chunked_count sample_chunked = Z.to_nat 4499
  /\ (let* '(c, s) := chunked_insert sample_chunked 4000 in Ret (c, chunked_count s)) = Ret (true, Z.to_nat 4500)
  /\ (let* '(c, s) := chunked_subtract sample_chunked sample_chunked in Ret (c, chunked_is_empty s)) = Ret (true, true).
Proof. vm_compute. done. Qed.

Lemma sample_chunked_wf : chunked_wf sample_chunked /\ chunked_domain_size sample_chunked = 4500%nat.
Proof.
  unfold sample_chunked, chunked_new_filled. destruct (chunked_new_ok 4500 false) as (s & -> & Hw & Hd & _). cbn [obind].
  destruct (chunked_remove_ok s 4000 Hw) as ([c q] & -> & Hq & Hdq & _); [rewrite Hd; lia|]. cbn [obind fst snd] in *. split; [done|]. by rewrite Hdq.
Qed.

Lemma chunked_mixed_are_sets_witness : set_laws (Large sample_chunked) (Large sample_chunked) 17.
Proof.
  destruct sample_chunked_wf as [Hw Hd]. apply chunked_mixed_are_sets.
  assert (CHUNK_BITS < 4500)%nat by (apply Nat.ltb_lt; vm_compute; reflexivity).
  split; cbn [bs_wf bs_domain mixed_ops mixed_wf mixed_domain_size]; try rewrite Hd; [by split|by split|done|lia|vm_compute; discriminate].
Defined.
