(* ===== verification/BitMatrix.v ===== *)
(** * Bit matrices ([src/rustc_index/bit_set.rs])

    [BitMatrix] is one vector of words, a fixed number of words per row; [SparseBitMatrix] is a vector of
    optional dense bit sets, with the operations of [IndexVec] it uses ([src/rustc_index/vec.rs] and
    [slice.rs]). *)
From Stdlib Require Import ZArith Lia.
From stdpp Require Import base numbers list.
From S2P Require Import Prelude Swar BitSet.
Open Scope Z_scope.
Open Scope rust_scope.

(** ** [BitMatrix] *)

Record BitMatrix := mkMatrix { num_rows : nat; num_columns : nat; matrix_words : list Z }.

Definition with_words (m : BitMatrix) (ws : list Z) : BitMatrix := mkMatrix (num_rows m) (num_columns m) ws.

Definition matrix_new (num_rows num_columns : nat) : BitMatrix :=
  mkMatrix num_rows num_columns (replicate (num_rows * num_words num_columns) 0).

Definition from_row_n (row : DenseBitSet) (num_rows : nat) : outcome BitMatrix :=
  let num_columns := domain_size row in
  let* _ := assert_that (num_words num_columns =? length (words row))%nat in
  Ret (mkMatrix num_rows num_columns (concat (replicate num_rows (words row)))).

Definition matrix_rows (m : BitMatrix) : list nat := seq 0 (num_rows m).

(** The words of a row, as a range. *)
Definition row_range (m : BitMatrix) (row : nat) : nat * nat :=
  let words_per_row := num_words (num_columns m) in
  let start := (row * words_per_row)%nat in
  (start, (start + words_per_row)%nat).

Definition matrix_insert (m : BitMatrix) (row column : nat) : outcome (bool * BitMatrix) :=
  let* _ := assert_that ((row <? num_rows m)%nat && (column <? num_columns m)%nat) in
  let '(start, _) := row_range m row in
  let '(word_index, mask) := word_index_and_mask column in
  let* word := unwrap (matrix_words m !! (start + word_index)%nat) in
  let new_word := Z.lor word mask in
  let* ws := set_index (matrix_words m) (start + word_index) new_word in
  Ret (negb (word =? new_word), with_words m ws).

Definition matrix_contains (m : BitMatrix) (row column : nat) : outcome bool :=
  let* _ := assert_that ((row <? num_rows m)%nat && (column <? num_columns m)%nat) in
  let '(start, _) := row_range m row in
  let '(word_index, mask) := word_index_and_mask column in
  let* word := unwrap (matrix_words m !! (start + word_index)%nat) in
  Ret (negb (Z.land word mask =? 0)).

(** [for bit in bit..bit + n], which stops when no bit is left. *)
Fixpoint push_bits (n bit base : nat) (v : Z) : list nat :=
  match n with
  | O => []
  | S n =>
      if v =? 0 then []
      else
        let rest := push_bits n (S bit) base (Z.shiftr v 1) in
        if negb (Z.land v 1 =? 0) then (base * WORD_BITS + bit)%nat :: rest else rest
  end.

(** [for (base, (i, j)) in (i..).zip(j..).enumerate()], for [n] turns from [base]. *)
Fixpoint intersect_loop (ws : list Z) (n base i j : nat) : outcome (list nat) :=
  match n with
  | O => Ret []
  | S n =>
      let* a := unwrap (ws !! i) in
      let* b := unwrap (ws !! j) in
      let found := push_bits WORD_BITS 0 base (Z.land a b) in
      let* rest := intersect_loop ws n (S base) (S i) (S j) in
      Ret (found ++ rest)
  end.

Definition intersect_rows (m : BitMatrix) (row1 row2 : nat) : outcome (list nat) :=
  let* _ := assert_that ((row1 <? num_rows m)%nat && (row2 <? num_rows m)%nat) in
  let '(row1_start, row1_end) := row_range m row1 in
  let '(row2_start, _) := row_range m row2 in
  intersect_loop (matrix_words m) (row1_end - row1_start) 0 row1_start row2_start.

(** Reads and writes one vector, so that the two rows may be the same. *)
Fixpoint union_rows_loop (n read write : nat) (ws : list Z) (changed : Z) : outcome (Z * list Z) :=
  match n with
  | O => Ret (changed, ws)
  | S n =>
      let* word := unwrap (ws !! write) in
      let* r := unwrap (ws !! read) in
      let new_word := Z.lor word r in
      let* ws := set_index ws write new_word in
      union_rows_loop n (S read) (S write) ws (Z.lor changed (Z.lxor word new_word))
  end.

Definition union_rows (m : BitMatrix) (read write : nat) : outcome (bool * BitMatrix) :=
  let* _ := assert_that ((read <? num_rows m)%nat && (write <? num_rows m)%nat) in
  let '(read_start, read_end) := row_range m read in
  let '(write_start, _) := row_range m write in
  let* '(changed, ws) := union_rows_loop (read_end - read_start) read_start write_start (matrix_words m) 0 in
  Ret (negb (changed =? 0), with_words m ws).

Definition union_row_with (m : BitMatrix) (with_ : DenseBitSet) (write : nat) : outcome (bool * BitMatrix) :=
  let* _ := assert_that (write <? num_rows m)%nat in
  let* _ := assert_that (domain_size with_ =? num_columns m)%nat in
  let '(write_start, write_end) := row_range m write in
  let* row := unwrap (get_range (matrix_words m) write_start write_end) in
  let* '(changed, row) := update_words row (words with_) Z.lor in
  Ret (changed, with_words m (take write_start (matrix_words m) ++ row ++ drop write_end (matrix_words m))).

Definition insert_all_into_row (m : BitMatrix) (row : nat) : outcome BitMatrix :=
  let* _ := assert_that (row <? num_rows m)%nat in
  let '(start, end_) := row_range m row in
  let* ws := fill_words start (end_ - start) (matrix_words m) in
  let* pre := unwrap (get_range ws 0 end_) in
  let* pre := clear_excess_bits_in_final_word (num_columns m) pre in
  Ret (with_words m (pre ++ drop end_ ws)).

(** The items of [iter], and the number of elements of a row. *)
Definition matrix_iter (m : BitMatrix) (row : nat) : outcome (list nat) :=
  let* _ := assert_that (row <? num_rows m)%nat in
  let '(start, end_) := row_range m row in
  let* ws := unwrap (get_range (matrix_words m) start end_) in
  collect (WORD_BITS * length ws) (bit_iter_new ws).

Definition matrix_count (m : BitMatrix) (row : nat) : outcome nat :=
  let '(start, end_) := row_range m row in
  let* ws := unwrap (get_range (matrix_words m) start end_) in
  Ret (count_ones ws).

(** ** [IndexVec], as far as the sparse matrix uses it *)

(** [ensure_contains_elem] with a constant fill value: grow to [elem + 1] elements. *)
Definition ensure_contains_elem {A} (v : list A) (elem : nat) (fill_value : A) : list A :=
  let min_new_len := (elem + 1)%nat in
  if (length v <? min_new_len)%nat then v ++ replicate (min_new_len - length v) fill_value else v.

(** [get_or_insert_with] on a vector of options, the reference it returns as the value. *)
Definition get_or_insert_with {A} (v : list (option A)) (index : nat) (value : A) : outcome (A * list (option A)) :=
  let v := ensure_contains_elem v index None in
  let* o := unwrap (v !! index) in
  match o with
  | Some a => Ret (a, v)
  | None => Ret (value, <[index := Some value]> v)
  end.

(** [pick2_mut]: panics on equal or out-of-range indices. *)
Definition pick2_mut {A} (v : list A) (a b : nat) : outcome (A * A) :=
  if (a =? b)%nat then Panic
  else let* x := unwrap (v !! a) in let* y := unwrap (v !! b) in Ret (x, y).

(** ** [SparseBitMatrix] *)

Record SparseBitMatrix := mkSparse { sparse_columns : nat; rows : list (option DenseBitSet) }.

Definition with_rows (m : SparseBitMatrix) (rs : list (option DenseBitSet)) : SparseBitMatrix := mkSparse (sparse_columns m) rs.

Definition sparse_new (num_columns : nat) : SparseBitMatrix := mkSparse num_columns [].

Definition ensure_row (m : SparseBitMatrix) (row : nat) : outcome (DenseBitSet * SparseBitMatrix) :=
  let* '(r, rs) := get_or_insert_with (rows m) row (new_empty (sparse_columns m)) in Ret (r, with_rows m rs).

(** Write back through the reference to a row. *)
Definition put_row (m : SparseBitMatrix) (row : nat) (r : DenseBitSet) : SparseBitMatrix := with_rows m (<[row := Some r]> (rows m)).

Definition sparse_row (m : SparseBitMatrix) (row : nat) : option DenseBitSet := match rows m !! row with Some o => o | None => None end.

Definition sparse_insert (m : SparseBitMatrix) (row column : nat) : outcome (bool * SparseBitMatrix) :=
  let* '(r, m) := ensure_row m row in
  let* '(c, r) := insert r column in
  Ret (c, put_row m row r).

Definition sparse_remove (m : SparseBitMatrix) (row column : nat) : outcome (bool * SparseBitMatrix) :=
  match rows m !! row with
  | Some (Some r) => let* '(c, r) := remove r column in Ret (c, put_row m row r)
  | _ => Ret (false, m)
  end.

Definition sparse_clear (m : SparseBitMatrix) (row : nat) : SparseBitMatrix :=
  match rows m !! row with
  | Some (Some r) => put_row m row (clear r)
  | _ => m
  end.

Definition sparse_contains (m : SparseBitMatrix) (row column : nat) : outcome bool :=
  match sparse_row m row with Some r => contains r column | None => Ret false end.

Definition sparse_union_rows (m : SparseBitMatrix) (read write : nat) : outcome (bool * SparseBitMatrix) :=
  if (read =? write)%nat || match sparse_row m read with None => true | Some _ => false end then Ret (false, m)
  else
    let* '(_, m) := ensure_row m write in
    let* '(read_row, write_row) := pick2_mut (rows m) read write in
    match read_row, write_row with
    | Some read_row, Some write_row => let* '(c, r) := union write_row read_row in Ret (c, put_row m write r)
    | _, _ => Panic
    end.

Definition sparse_insert_all_into_row (m : SparseBitMatrix) (row : nat) : outcome SparseBitMatrix :=
  let* '(r, m) := ensure_row m row in
  let* r := insert_all r in
  Ret (put_row m row r).

Definition sparse_rows (m : SparseBitMatrix) : list nat := seq 0 (length (rows m)).

Definition sparse_iter (m : SparseBitMatrix) (row : nat) : outcome (list nat) :=
  match sparse_row m row with Some r => iter r | None => Ret [] end.
