(* ===== verification/BitMatrixTheorems.v ===== *)
(** * Bit matrices: a matrix is a vector of dense bit sets

    [row_set m r] is row [r] of a matrix as a dense bit set.  Every operation of a matrix is the
    operation of that bit set on that row, and leaves the other rows alone. *)
From Stdlib Require Import ZArith Lia Sorted.
From stdpp Require Import base numbers list.
From S2P Require Import Prelude RustSlice Swar BitSet BitSetFacts BitSetTheorems BitMatrix.
Open Scope Z_scope.
Open Scope rust_scope.

Definition words_per_row (m : BitMatrix) : nat := num_words (num_columns m).
Definition row_words (m : BitMatrix) (r : nat) : list Z := take (words_per_row m) (drop (r * words_per_row m) (matrix_words m)).
Definition row_set (m : BitMatrix) (r : nat) : DenseBitSet := mkBitSet (num_columns m) (row_words m r).

Record matrix_wf (m : BitMatrix) : Prop := {
  mw_len : length (matrix_words m) = (num_rows m * words_per_row m)%nat;
  mw_row : forall r, (r < num_rows m)%nat -> wf (row_set m r);
}.

(** Replacing the words of a row. *)
Definition put_words (m : BitMatrix) (r : nat) (row : list Z) : BitMatrix :=
  with_words m (take (r * words_per_row m) (matrix_words m) ++ row ++ drop (S r * words_per_row m) (matrix_words m)).

Lemma row_split m r : matrix_wf m -> (r < num_rows m)%nat ->
  exists A B, matrix_words m = A ++ row_words m r ++ B /\ length A = (r * words_per_row m)%nat /\ length (row_words m r) = words_per_row m
    /\ forall row, put_words m r row = with_words m (A ++ row ++ B).
Proof.
  intros Hm Hr. set (n := words_per_row m). pose proof (mw_len m Hm) as Hl. fold n in Hl. exists (take (r * n) (matrix_words m)), (drop (S r * n) (matrix_words m)).
  assert (HL : (S r * n <= length (matrix_words m))%nat) by nia. split; [|split; [|split]].
  - unfold row_words. fold n. replace (S r * n)%nat with (r * n + n)%nat by lia. rewrite <- drop_drop, take_drop. by rewrite take_drop.
  - rewrite length_take. nia.
  - unfold row_words. fold n. rewrite length_take, length_drop. nia.
  - done.
Qed.

Lemma row_put m r r' row : matrix_wf m -> (r < num_rows m)%nat -> (r' < num_rows m)%nat -> length row = words_per_row m ->
  row_words (put_words m r row) r' = if decide (r' = r) then row else row_words m r'.
Proof.
  intros Hm Hr Hr' Hl. unfold row_words at 1. unfold put_words, words_per_row. cbn [with_words num_columns matrix_words]. fold (words_per_row m).
  set (n := words_per_row m) in *. pose proof (mw_len m Hm) as HL. fold n in HL. set (ws := matrix_words m) in *.
  assert (H1 : length (take (r * n) ws) = (r * n)%nat) by (rewrite length_take; nia). case_decide as E.
  - subst r'. rewrite drop_app_length' by done. by rewrite take_app_length'.
  - unfold row_words. fold n ws. destruct (Nat.lt_ge_cases r' r) as [Hlt|Hge].
    + rewrite drop_app_le by (rewrite H1; nia). rewrite take_app_le by (rewrite length_drop, H1; nia).
      rewrite !take_drop_commute, take_take. do 2 f_equal. nia.
    + rewrite app_assoc. rewrite drop_app_ge by (rewrite length_app, H1, Hl; nia). rewrite drop_drop, length_app, H1, Hl. do 2 f_equal. nia.
Qed.

(** A row replaced by the words of a bit set of the same domain. *)
Definition put_set (m : BitMatrix) (r : nat) (s : DenseBitSet) : BitMatrix := put_words m r (words s).

Lemma put_set_ok m r s : matrix_wf m -> (r < num_rows m)%nat -> wf s -> domain_size s = num_columns m ->
  matrix_wf (put_set m r s) /\ row_set (put_set m r s) r = s
  /\ forall r', (r' < num_rows m)%nat -> r' <> r -> row_set (put_set m r s) r' = row_set m r'.
Proof.
  intros Hm Hr Hs Hd. assert (Hl : length (words s) = words_per_row m) by (rewrite (wf_len s Hs), Hd; done).
  assert (HR : forall r', (r' < num_rows m)%nat -> row_set (put_set m r s) r' = if decide (r' = r) then s else row_set m r').
  { intros r' Hr'. unfold row_set, put_set at 2. rewrite row_put by done. case_decide; [|done]. destruct s as [d ws]. cbn in *. by rewrite Hd. }
  split; [split|split].
  - destruct (row_split m r Hm Hr) as (A & B & E & HA & HB & HP). unfold put_set. rewrite HP. cbn [with_words matrix_words num_rows]. pose proof (mw_len m Hm) as HL.
    rewrite E in HL. rewrite !length_app in *. change (words_per_row (with_words m (A ++ words s ++ B))) with (words_per_row m). lia.
  - intros r' Hr'. rewrite HR by exact Hr'. case_decide; [done|]. by apply Hm.
  - rewrite HR by done. by rewrite decide_True.
  - intros r' Hr' Hne. rewrite HR by done. by rewrite decide_False.
Qed.

Lemma matrix_range m r : row_range m r = ((r * words_per_row m)%nat, (r * words_per_row m + words_per_row m)%nat).
Proof. done. Qed.

Lemma get_row m r : matrix_wf m -> (r < num_rows m)%nat ->
  get_range (matrix_words m) (r * words_per_row m) (r * words_per_row m + words_per_row m) = Some (row_words m r).
Proof.
  intros Hm Hr. pose proof (mw_len m Hm). unfold get_range. rewrite !(proj2 (Nat.leb_le _ _)) by nia. cbn [andb].
  by replace (r * words_per_row m + words_per_row m - r * words_per_row m)%nat with (words_per_row m) by lia.
Qed.

(** ** Each operation is the one of the row *)

Lemma matrix_contains_row m r c : matrix_wf m -> (r < num_rows m)%nat -> (c < num_columns m)%nat -> matrix_contains m r c = contains (row_set m r) c.
Proof.
  intros Hm Hr Hc. unfold matrix_contains, contains. rewrite !assert_true by (rewrite ?andb_true_iff, !Nat.ltb_lt; done). cbn [obind]. rewrite matrix_range, index_and_mask.
  destruct (row_split m r Hm Hr) as (A & B & E & HA & HB & HP). cbn [row_set words]. rewrite E. rewrite lookup_app_r by lia. rewrite HA.
  replace (r * words_per_row m + c / 64 - r * words_per_row m)%nat with (c / 64)%nat by lia.
  rewrite lookup_app_l; [done|]. rewrite HB. by apply num_words_lt.
Qed.

Lemma matrix_insert_row m r c : matrix_wf m -> (r < num_rows m)%nat -> (c < num_columns m)%nat ->
  matrix_insert m r c = let* '(ch, s) := insert (row_set m r) c in Ret (ch, put_set m r s).
Proof.
  intros Hm Hr Hc. unfold matrix_insert, insert. rewrite !assert_true by (rewrite ?andb_true_iff, !Nat.ltb_lt; done). cbn [obind]. rewrite matrix_range, index_and_mask.
  destruct (row_split m r Hm Hr) as (A & B & E & HA & HB & HP). cbn [row_set words]. pose proof (num_words_lt c _ Hc) as Hk. fold (words_per_row m) in Hk.
  assert (Hlk : matrix_words m !! (r * words_per_row m + c / 64)%nat = row_words m r !! (c / 64)%nat).
  { rewrite E. rewrite lookup_app_r by lia. rewrite HA, lookup_app_l by lia. f_equal. lia. }
  rewrite Hlk. destruct (row_words m r !! (c / 64)%nat) as [w|] eqn:Ew; [|done]. cbn [unwrap obind]. unfold set_index.
  rewrite (proj2 (Nat.ltb_lt _ _)) by (rewrite (mw_len m Hm); nia). cbn [obind]. unfold put_set, set_words. cbn [words domain_size]. rewrite HP, E. do 2 f_equal.
  - f_equal. apply Z.eqb_sym.
  - f_equal. rewrite <- HA. rewrite insert_app_r. f_equal. by rewrite insert_app_l by lia.
Qed.

Lemma list_filter_fmap {A B} (P : B -> Prop) `{!forall x, Decision (P x)} (f : A -> B) (l : list A) : filter P (f <$> l) = f <$> filter (fun x => P (f x)) l.
Proof. induction l as [|x l IH]; [done|]. cbn [fmap list_fmap]. rewrite !filter_cons. case_decide; cbn [fmap list_fmap]; by rewrite IH. Qed.

Lemma push_bits_all n bit base v : 0 <= v < 2 ^ Z.of_nat n ->
  push_bits n bit base v = (fun j => base * 64 + bit + j)%nat <$> filter (fun j => Z.testbit v (Z.of_nat j) = true) (seq 0 n).
Proof.
  revert bit v. induction n as [|n IH]; intros bit v Hv; [done|]. cbn [push_bits]. destruct (Z.eqb_spec v 0) as [->|Hn].
  - rewrite (filter_on _ (fun _ => False)) by (intros x _; by rewrite Z.bits_0). assert (HF : forall l : list nat, filter (fun _ : nat => False) l = []) by (induction l as [|x l IHl]; [done|by rewrite filter_cons_False by tauto]).
    by rewrite HF.
  - rewrite IH by (rewrite Z.shiftr_div_pow2, Nat2Z.inj_succ, Z.pow_succ_r in * by lia; split; [apply Z.div_pos; lia|apply Z.div_lt_upper_bound; lia]).
    cbn [seq]. rewrite <- fmap_S_seq, filter_cons. change (Z.of_nat 0) with 0. rewrite Z.bit0_odd.
    assert (Hodd : negb (Z.land v 1 =? 0) = Z.odd v).
    { change 1 with (Z.ones 1). rewrite Z.land_ones by lia. change (2 ^ 1) with 2. rewrite Zmod_odd. by destruct (Z.odd v). }
    rewrite Hodd. rewrite list_filter_fmap. assert (HE : forall l : list nat, (fun j => base * 64 + S bit + j)%nat <$> filter (fun j => Z.testbit (Z.shiftr v 1) (Z.of_nat j) = true) l
      = (fun j => base * 64 + bit + j)%nat <$> (S <$> filter (fun j => Z.testbit v (Z.of_nat (S j)) = true) l)).
    { intros l. rewrite <- list_fmap_compose. rewrite (filter_on _ (fun j => Z.testbit v (Z.of_nat (S j)) = true)).
      - apply list_fmap_ext. intros _ x _. cbn. lia.
      - intros x _. cbn. rewrite Z.shiftr_spec by lia. by rewrite Z.add_1_r, Nat2Z.inj_succ. }
    rewrite HE. change WORD_BITS with 64%nat. destruct (Z.odd v); case_decide; try done. cbn [fmap list_fmap]. f_equal. lia.
Qed.

Lemma intersect_loop_ok ws n base i j : Forall is_word ws -> (i + n <= length ws)%nat -> (j + n <= length ws)%nat ->
  intersect_loop ws n base i j = Ret (items base (zip_with Z.land (take n (drop i ws)) (take n (drop j ws)))).
Proof.
  intros Hw. revert base i j. induction n as [|n IH]; intros base i j Hi Hj; [done|]. cbn [intersect_loop].
  destruct (lookup_lt_is_Some_2 ws i) as [a Ha]; [lia|]. destruct (lookup_lt_is_Some_2 ws j) as [b Hb]; [lia|]. rewrite Ha, Hb. cbn [unwrap obind].
  rewrite IH by lia. cbn [obind]. rewrite (drop_S _ _ _ Ha), (drop_S _ _ _ Hb). cbn [take firstn zip_with items]. f_equal.
  pose proof (Forall_lookup_1 _ _ _ _ Hw Ha). pose proof (Forall_lookup_1 _ _ _ _ Hw Hb). change WORD_BITS with 64%nat.
  rewrite push_bits_all by (apply is_word_land; done). f_equal. apply list_fmap_ext. intros _ x _. lia.
Qed.

Lemma matrix_is_word m : matrix_wf m -> Forall is_word (matrix_words m).
Proof.
  intros Hm. apply Forall_lookup_2. intros i w Hw. pose proof (lookup_lt_Some _ _ _ Hw) as Hlt. rewrite (mw_len m Hm) in Hlt. set (n := words_per_row m) in *.
  assert (n <> 0)%nat by lia. assert (Hr : (i / n < num_rows m)%nat) by (apply Nat.Div0.div_lt_upper_bound; lia).
  apply (Forall_lookup_1 _ (row_words m (i / n)) (i mod n)); [apply (mw_row m Hm _ Hr)|]. unfold row_words. fold n.
  rewrite lookup_take_lt by (apply Nat.mod_upper_bound; done). rewrite lookup_drop. rewrite <- Hw. f_equal. pose proof (Nat.div_mod_eq i n). lia.
Qed.

Lemma intersect_rows_row m a b : matrix_wf m -> (a < num_rows m)%nat -> (b < num_rows m)%nat ->
  intersect_rows m a b = Ret (items 0 (zip_with Z.land (row_words m a) (row_words m b))).
Proof.
  intros Hm Ha Hb. unfold intersect_rows. rewrite assert_true by (rewrite andb_true_iff, !Nat.ltb_lt; done). cbn [obind]. rewrite !matrix_range. pose proof (mw_len m Hm).
  replace (a * words_per_row m + words_per_row m - a * words_per_row m)%nat with (words_per_row m) by lia.
  rewrite intersect_loop_ok; [done|by apply matrix_is_word|nia|nia].
Qed.

(** The row written is behind the row read, or they are apart. *)
Lemma union_rows_loop_ok W : forall A B R read changed, length R = length W -> (forall k, (k < length W)%nat -> (A ++ W ++ B) !! (read + k)%nat = R !! k) ->
  (length A <= read \/ read + length W <= length A)%nat ->
  exists c, union_rows_loop (length W) read (length A) (A ++ W ++ B) changed = Ret (c, A ++ zip_with Z.lor W R ++ B)
    /\ (c = 0 <-> changed = 0 /\ zip_with Z.lor W R = W).
Proof.
  induction W as [|w W IH]; intros A B [|r R] read changed Hl HR Hap; try done; [exists changed; split; [done|]; tauto|].
  cbn [length union_rows_loop]. rewrite lookup_app_r by lia. rewrite Nat.sub_diag. cbn [app lookup list_lookup unwrap obind].
  pose proof (HR 0%nat ltac:(cbn; lia)) as H0. rewrite Nat.add_0_r in H0. cbn [app] in H0. rewrite H0. cbn [unwrap obind lookup list_lookup]. unfold set_index.
  rewrite (proj2 (Nat.ltb_lt _ _)) by (rewrite length_app; cbn; lia). cbn [obind]. set (w' := Z.lor w r).
  assert (E : <[length A := w']> (A ++ w :: W ++ B) = (A ++ [w']) ++ W ++ B) by (rewrite <- (Nat.add_0_r (length A)), insert_app_r, <- app_assoc; done).
  rewrite E. destruct (IH (A ++ [w']) B R (S read) (Z.lor changed (Z.lxor w w'))) as (c & Ec & Hc).
  - cbn in Hl. lia.
  - intros k Hk. pose proof (HR (S k) ltac:(cbn; lia)) as HS. change ((r :: R) !! S k) with (R !! k) in HS. rewrite <- HS. rewrite <- E. cbn [app].
    rewrite list_lookup_insert_ne; [f_equal; lia|]. cbn [length] in Hap. lia.
  - rewrite length_app. cbn [length] in *. lia.
  - rewrite length_app, Nat.add_1_r in Ec. rewrite Ec. exists c. split; [by rewrite <- app_assoc|]. rewrite Hc, Z.lor_eq_0_iff, Z.lxor_eq_0_iff. cbn [zip_with]. fold w'. split.
    + intros [[-> <-] ->]. done.
    + intros [-> [= E1 E2]]. rewrite E1, E2. done.
Qed.

Lemma union_rows_row m read write : matrix_wf m -> (read < num_rows m)%nat -> (write < num_rows m)%nat ->
  union_rows m read write = let* '(ch, s) := union (row_set m write) (row_set m read) in Ret (ch, put_set m write s).
Proof.
  intros Hm Hr Hw. unfold union_rows. rewrite assert_true by (rewrite andb_true_iff, !Nat.ltb_lt; done). cbn [obind]. rewrite !matrix_range.
  replace (read * words_per_row m + words_per_row m - read * words_per_row m)%nat with (words_per_row m) by lia.
  destruct (row_split m write Hm Hw) as (A & B & E & HA & HB & HP). destruct (row_split m read Hm Hr) as (A' & B' & E' & HA' & HB' & _).
  unfold union, bitwise, update_words. cbn [row_set domain_size words]. rewrite !assert_true by (apply Nat.eqb_eq; congruence). cbn [obind].
  destruct (union_rows_loop_ok (row_words m write) A B (row_words m read) (read * words_per_row m) 0) as (c & Ec & Hc); [lia| | |].
  - intros k Hk. rewrite <- E, E'. rewrite <- HA'. rewrite lookup_app_r by lia. rewrite lookup_app_l by lia. f_equal. lia.
  - rewrite HA, HB. destruct (Nat.lt_ge_cases read write); nia.
  - rewrite HA, HB, <- E in Ec. rewrite Ec. cbn [obind]. destruct (update_words_loop_ok Z.lor (row_words m write) (row_words m read) 0) as [H2 H1]; [congruence|].
    destruct (update_words_loop Z.lor (row_words m write) (row_words m read) 0) as [ch l]. cbn [fst snd obind] in *. subst l. unfold put_set, set_words. cbn [words domain_size].
    rewrite HP. do 2 f_equal. f_equal. apply eq_true_iff_eq. rewrite !Z.eqb_eq, Hc, H1. done.
Qed.

Lemma union_row_with_row m s write : matrix_wf m -> (write < num_rows m)%nat -> wf s -> domain_size s = num_columns m ->
  union_row_with m s write = let* '(ch, q) := union (row_set m write) s in Ret (ch, put_set m write q).
Proof.
  intros Hm Hw Hs Hd. unfold union_row_with. rewrite !assert_true by (by apply Nat.ltb_lt || by apply Nat.eqb_eq). cbn [obind]. rewrite matrix_range, get_row by done. cbn [unwrap obind].
  unfold union, bitwise. cbn [row_set domain_size words]. rewrite assert_true by by apply Nat.eqb_eq. cbn [obind]. destruct (update_words _ _ _) as [[ch l]| |]; try done. cbn [obind].
  unfold put_set, set_words, put_words. cbn [words domain_size]. by replace (write * words_per_row m + words_per_row m)%nat with (S write * words_per_row m)%nat by lia.
Qed.

Lemma fill_middle W : forall A B, fill_words (length A) (length W) (A ++ W ++ B) = Ret (A ++ replicate (length W) u64_max ++ B).
Proof.
  induction W as [|w W IH]; intros A B; [done|]. cbn [length fill_words]. unfold set_index. rewrite (proj2 (Nat.ltb_lt _ _)) by (rewrite length_app; cbn; lia). cbn [obind app].
  assert (E : <[length A := u64_max]> (A ++ w :: W ++ B) = (A ++ [u64_max]) ++ W ++ B) by (rewrite <- (Nat.add_0_r (length A)), insert_app_r, <- app_assoc; done).
  rewrite E. specialize (IH (A ++ [u64_max]) B). rewrite length_app, Nat.add_1_r in IH. rewrite IH. by rewrite <- app_assoc.
Qed.

Lemma clear_excess_app d A R : length R = num_words d ->
  clear_excess_bits_in_final_word d (A ++ R) = let* R := clear_excess_bits_in_final_word d R in Ret (A ++ R).
Proof.
  intros Hl. unfold clear_excess_bits_in_final_word. destruct (Nat.ltb_spec 0 (d mod WORD_BITS)) as [Hd|Hd]; [|done].
  assert (0 < length R)%nat. { rewrite Hl. pose proof (num_words_bound d). destruct d; [done|lia]. }
  unfold update_word. rewrite length_app. rewrite lookup_app_r by lia. replace (length A + length R - 1 - length A)%nat with (length R - 1)%nat by lia.
  destruct (R !! (length R - 1)%nat); [|done]. cbn [unwrap obind]. f_equal. replace (length A + length R - 1)%nat with (length A + (length R - 1))%nat by lia. by rewrite insert_app_r.
Qed.

Lemma const_fmap {A B} (x : B) (l : list A) : (fun _ => x) <$> l = replicate (length l) x.
Proof. induction l as [|a l IH]; [done|]. cbn. by rewrite <- IH. Qed.

Lemma insert_all_into_row_row m r : matrix_wf m -> (r < num_rows m)%nat ->
  insert_all_into_row m r = let* s := insert_all (row_set m r) in Ret (put_set m r s).
Proof.
  intros Hm Hr. unfold insert_all_into_row. rewrite assert_true by by apply Nat.ltb_lt. cbn [obind]. rewrite matrix_range.
  replace (r * words_per_row m + words_per_row m - r * words_per_row m)%nat with (words_per_row m) by lia.
  destruct (row_split m r Hm Hr) as (A & B & E & HA & HB & HP). rewrite <- HA, <- HB, E, fill_middle. cbn [obind]. rewrite HB. set (F := replicate (words_per_row m) u64_max).
  assert (HF : length F = words_per_row m) by apply length_replicate. unfold get_range. rewrite (proj2 (Nat.leb_le 0 _)) by lia. rewrite (proj2 (Nat.leb_le _ _)) by (rewrite !length_app; lia).
  cbn [andb unwrap obind]. rewrite drop_0, Nat.sub_0_r. rewrite app_assoc. assert (HAF : length (A ++ F) = (length A + words_per_row m)%nat) by (rewrite length_app; lia).
  rewrite (take_app_length' (A ++ F)) by done. rewrite (drop_app_length' (A ++ F)) by done. rewrite clear_excess_app by exact HF.
  unfold insert_all, clear_excess_bits. cbn [set_words row_set words domain_size]. rewrite const_fmap, HB. fold F. destruct (clear_excess_bits_in_final_word (num_columns m) F) as [q| |]; try done.
  cbn [obind]. unfold put_set. cbn [words]. by rewrite HP, app_assoc.
Qed.

Lemma matrix_iter_row m r : matrix_wf m -> (r < num_rows m)%nat -> matrix_iter m r = iter (row_set m r) /\ matrix_count m r = Ret (count (row_set m r)).
Proof.
  intros Hm Hr. unfold matrix_iter, matrix_count. rewrite assert_true by by apply Nat.ltb_lt. cbn [obind]. rewrite matrix_range, get_row by done. done.
Qed.

Lemma matrix_new_ok r c : matrix_wf (matrix_new r c) /\ forall i, (i < r)%nat -> row_set (matrix_new r c) i = new_empty c.
Proof.
  assert (HR : forall i, (i < r)%nat -> row_set (matrix_new r c) i = new_empty c).
  { intros i Hi. unfold row_set, row_words, new_empty, words_per_row. cbn [matrix_new matrix_words num_columns]. f_equal. rewrite drop_replicate, take_replicate. f_equal. nia. }
  split; [|done]. split; [apply length_replicate|]. intros i Hi. rewrite HR by done. apply new_empty_ok.
Qed.

Lemma concat_replicate_drop {A} (l : list A) n k : (k <= n)%nat -> drop (k * length l) (concat (replicate n l)) = concat (replicate (n - k) l).
Proof.
  revert n. induction k as [|k IH]; intros n Hk; [by rewrite Nat.sub_0_r|]. destruct n as [|n]; [lia|]. cbn [replicate concat Nat.mul Nat.sub].
  rewrite <- drop_drop, drop_app_length. apply IH. lia.
Qed.

Lemma from_row_n_ok s n : wf s -> runs (from_row_n s n) (fun m => matrix_wf m /\ num_rows m = n /\ num_columns m = domain_size s
  /\ forall i, (i < n)%nat -> row_set m i = s).
Proof.
  intros Hs. unfold from_row_n. rewrite assert_true by (apply Nat.eqb_eq; symmetry; apply Hs). cbn [obind]. eexists. split; [done|].
  assert (HR : forall i, (i < n)%nat -> row_set (mkMatrix n (domain_size s) (concat (replicate n (words s)))) i = s).
  { intros i Hi. unfold row_set, row_words, words_per_row. cbn [matrix_words num_columns]. rewrite <- (wf_len s Hs). rewrite concat_replicate_drop by lia.
    replace (n - i)%nat with (S (n - S i)) by lia. cbn [replicate concat]. rewrite take_app_length. by destruct s. }
  split; [split|done].
  - cbn [matrix_words num_rows]. unfold words_per_row. cbn [num_columns]. rewrite <- (wf_len s Hs). clear. induction n as [|n IH]; [done|]. cbn [replicate concat]. rewrite length_app, IH. done.
  - cbn [num_rows]. intros r Hr. by rewrite HR.
Qed.

(** ** What an update of one row promises *)

Definition row_updates (out : outcome (bool * BitMatrix)) (m : BitMatrix) (r : nat) (P : nat -> Prop) : Prop :=
  runs out (fun q => matrix_wf q.2 /\ num_rows q.2 = num_rows m /\ num_columns q.2 = num_columns m
    /\ (forall r' x, (r' < num_rows m)%nat -> x ∈ row_set q.2 r' <-> if decide (r' = r) then P x else x ∈ row_set m r')
    /\ (q.1 = true <-> exists x, ~ (P x <-> x ∈ row_set m r))).

Lemma updates_row out m r P : matrix_wf m -> (r < num_rows m)%nat -> updates out (row_set m r) P ->
  row_updates (let* '(ch, s) := out in Ret (ch, put_set m r s)) m r P.
Proof.
  intros Hm Hr ([c s] & -> & Hs & Hd & Hx & Hc). cbn [fst snd obind] in *. exists (c, put_set m r s). split; [done|]. cbn [fst snd].
  destruct (put_set_ok m r s Hm Hr Hs Hd) as (Hw & Hrow & Hoth). split; [done|]. split; [done|]. split; [done|]. split; [|done].
  intros r' x Hr'. case_decide as E; [subst r'; by rewrite Hrow|by rewrite Hoth].
Qed.

Lemma union_updates s o : wf s -> wf o -> domain_size s = domain_size o -> updates (union s o) s (fun x => x ∈ s \/ x ∈ o).
Proof. intros Hs Ho Hd. apply (bitwise_updates _ orb); try done; [auto with word|intros; apply Z.lor_spec|intros x; apply orb_true_iff]. Qed.

Lemma insert_updates s i : wf s -> (i < domain_size s)%nat -> updates (insert s i) s (fun x => x ∈ s \/ x = i).
Proof.
  intros Hs Hi. destruct (dense_insert_ok s i Hs Hi) as (c & s' & E & Hw & Hd & Hx & Hc). exists (c, s'). split; [done|]. cbn [fst snd].
  split; [done|]. split; [done|]. split; [done|]. rewrite Hc. split; [intros Hn; exists i; tauto|]. intros (x & Hn) Hin. apply Hn. split; [|tauto]. intros [Hx'| ->]; done.
Qed.

Lemma remove_updates s i : wf s -> (i < domain_size s)%nat -> updates (remove s i) s (fun x => x ∈ s /\ x <> i).
Proof.
  intros Hs Hi. destruct (dense_remove_ok s i Hs Hi) as (c & s' & E & Hw & Hd & Hx & Hc). exists (c, s'). split; [done|]. cbn [fst snd].
  split; [done|]. split; [done|]. split; [done|]. rewrite Hc. split; [intros Hn; exists i; tauto|]. intros (x & Hn).
  destruct (decide (x = i)) as [->|Hne]; [|tauto]. change (bit (words s) i = true). apply dec_stable. change (~ ~ i ∈ s). tauto.
Qed.

(** The elements common to two rows. *)
Lemma intersect_ok m a b : matrix_wf m -> (a < num_rows m)%nat -> (b < num_rows m)%nat ->
  runs (intersect_rows m a b) (fun l => StronglySorted lt l /\ forall x, x ∈ l <-> x ∈ row_set m a /\ x ∈ row_set m b).
Proof.
  intros Hm Ha Hb. rewrite intersect_rows_row by done. eexists. split; [done|]. split; [apply items_sorted|]. intros x. rewrite items_elem, !elem_of_bits. cbn [row_set words].
  replace (x - 64 * 0)%nat with x by lia. destruct (mw_row m Hm a Ha) as [La Wa _]. destruct (mw_row m Hm b Hb) as [Lb Wb _]. cbn [row_set words domain_size] in *.
  rewrite <- andb_true_iff. destruct (Nat.lt_ge_cases (x / 64) (length (row_words m a))) as [Hx|Hx].
  - rewrite (bit_zip Z.land andb) by (done || congruence || (intros; apply Z.land_spec)). split; [tauto|]. intros; split; [lia|done].
  - assert (Hn : forall l, (length l <= x / 64)%nat -> bit l x = false) by (intros l Hl; unfold bit; by rewrite lookup_ge_None_2).
    rewrite !Hn; [cbn [andb]; split; [intros [_ ?]; done|done]|lia|lia|rewrite length_zip_with; lia].
Qed.

(** ** The sparse matrix *)

Definition sparse_set (m : SparseBitMatrix) (r : nat) : DenseBitSet :=
  match sparse_row m r with Some s => s | None => new_empty (sparse_columns m) end.

Definition sparse_wf (m : SparseBitMatrix) : Prop :=
  forall r s, rows m !! r = Some (Some s) -> wf s /\ domain_size s = sparse_columns m.

Lemma sparse_set_ok m r : sparse_wf m -> wf (sparse_set m r) /\ domain_size (sparse_set m r) = sparse_columns m.
Proof.
  intros Hm. unfold sparse_set, sparse_row. destruct (rows m !! r) as [[s|]|] eqn:E; [by apply (Hm r)|split; [apply new_empty_ok|done]|split; [apply new_empty_ok|done]].
Qed.

Lemma ensure_lookup {A} (v : list A) i x k : ensure_contains_elem v i x !! k = match v !! k with Some y => Some y | None => if (k <=? i)%nat then Some x else None end.
Proof.
  unfold ensure_contains_elem. destruct (Nat.ltb_spec (length v) (i + 1)) as [Hl|Hl].
  - destruct (v !! k) as [y|] eqn:E; [by rewrite (lookup_app_l_Some _ _ _ _ E)|]. apply lookup_ge_None in E. rewrite lookup_app_r by done.
    destruct (Nat.leb_spec k i); [rewrite lookup_replicate_2 by lia; done|apply lookup_ge_None_2; rewrite length_replicate; lia].
  - destruct (v !! k) as [y|] eqn:E; [done|]. apply lookup_ge_None in E. by rewrite (proj2 (Nat.leb_gt k i)) by lia.
Qed.

(** The row exists afterwards; no row has changed. *)
Lemma ensure_row_ok m r : sparse_wf m ->
  exists m', ensure_row m r = Ret (sparse_set m r, m') /\ sparse_wf m' /\ sparse_columns m' = sparse_columns m /\ rows m' !! r = Some (Some (sparse_set m r))
    /\ (forall r', sparse_set m' r' = sparse_set m r') /\ (forall r' s, rows m !! r' = Some (Some s) -> rows m' !! r' = Some (Some s)).
Proof.
  intros Hm. unfold ensure_row, get_or_insert_with. pose proof (sparse_set_ok m r Hm) as Hs. set (v := ensure_contains_elem (rows m) r None).
  assert (Hv : forall k, v !! k = match rows m !! k with Some y => Some y | None => if (k <=? r)%nat then Some None else None end) by (intros; apply ensure_lookup).
  assert (HI : forall rs, (forall k, rs !! k = if decide (k = r) then Some (Some (sparse_set m r)) else v !! k) ->
    sparse_wf (with_rows m rs) /\ rs !! r = Some (Some (sparse_set m r)) /\ (forall r', sparse_set (with_rows m rs) r' = sparse_set m r')
    /\ (forall r' s, rows m !! r' = Some (Some s) -> rs !! r' = Some (Some s))).
  { intros rs Hrs. split; [|split; [|split]].
    - intros k s. cbn [with_rows rows sparse_columns]. rewrite Hrs, Hv. case_decide; [intros [= <-]; done|]. destruct (rows m !! k) as [y|] eqn:E; [intros [= ->]; by apply (Hm k)|]. by destruct (_ <=? _)%nat.
    - rewrite Hrs. by rewrite decide_True.
    - intros k. unfold sparse_set at 1, sparse_row. cbn [with_rows rows sparse_columns]. rewrite Hrs, Hv. case_decide as E; [by subst k|]. unfold sparse_set, sparse_row.
      destruct (rows m !! k); [done|]. by destruct (_ <=? _)%nat.
    - intros k s Hk. rewrite Hrs, Hv, Hk. case_decide as E; [|done]. subst k. unfold sparse_set, sparse_row. by rewrite Hk. }
  assert (Hlt : (r < length v)%nat) by (apply lookup_lt_is_Some_1; rewrite Hv, Nat.leb_refl; destruct (rows m !! r); eauto).
  specialize (Hv r) as Hvr. rewrite Nat.leb_refl in Hvr. unfold sparse_set, sparse_row in HI, Hs |- *. destruct (rows m !! r) as [[s|]|] eqn:E; rewrite Hvr; cbn [unwrap obind].
  - exists (with_rows m v). split; [done|]. destruct (HI v) as (H1 & H2 & H3 & H4); [intros k; case_decide; [by subst k|done]|]. by split_and!.
  - eexists. split; [done|]. destruct (HI (<[r := Some (new_empty (sparse_columns m))]> v)) as (H1 & H2 & H3 & H4).
    { intros k. case_decide as Ek; [subst k; by rewrite list_lookup_insert_eq|by rewrite list_lookup_insert_ne by done]. }
    by split_and!.
  - eexists. split; [done|]. destruct (HI (<[r := Some (new_empty (sparse_columns m))]> v)) as (H1 & H2 & H3 & H4).
    { intros k. case_decide as Ek; [subst k; by rewrite list_lookup_insert_eq|by rewrite list_lookup_insert_ne by done]. }
    by split_and!.
Qed.

Definition sparse_updates (out : outcome (bool * SparseBitMatrix)) (m : SparseBitMatrix) (r : nat) (P : nat -> Prop) : Prop :=
  runs out (fun q => sparse_wf q.2 /\ sparse_columns q.2 = sparse_columns m
    /\ (forall r' x, x ∈ sparse_set q.2 r' <-> if decide (r' = r) then P x else x ∈ sparse_set m r')
    /\ (q.1 = true <-> exists x, ~ (P x <-> x ∈ sparse_set m r))).

(** An update of a row that exists in [m'], which has the rows of [m]. *)
Lemma sparse_put out m m' r s P : sparse_wf m' -> sparse_columns m' = sparse_columns m -> (forall r', sparse_set m' r' = sparse_set m r') ->
  rows m' !! r = Some (Some s) -> updates out s P -> sparse_updates (let* '(c, q) := out in Ret (c, put_row m' r q)) m r P.
Proof.
  intros Hm' Hc Hsame Hr ([c q] & -> & Hq & Hd & Hx & Hch). cbn [fst snd obind] in *. exists (c, put_row m' r q). split; [done|]. cbn [fst snd].
  pose proof (lookup_lt_Some _ _ _ Hr) as Hlt. assert (Es : sparse_set m r = s) by (rewrite <- Hsame; unfold sparse_set, sparse_row; by rewrite Hr).
  split; [|split; [done|split; [|by rewrite Es]]].
  - intros k s' Hk. cbn [put_row with_rows rows sparse_columns] in *. destruct (decide (k = r)) as [->|Hne].
    + rewrite list_lookup_insert_eq in Hk by done. injection Hk as <-. split; [done|]. rewrite Hd. by apply (Hm' r).
    + rewrite list_lookup_insert_ne in Hk by done. by apply (Hm' k).
  - intros k x. rewrite <- (Hsame k). unfold sparse_set at 1, sparse_row. cbn [put_row with_rows rows sparse_columns]. case_decide as E.
    + subst k. rewrite list_lookup_insert_eq by done. apply Hx.
    + rewrite list_lookup_insert_ne by done. done.
Qed.

Lemma sparse_insert_ok m r c : sparse_wf m -> (c < sparse_columns m)%nat -> sparse_updates (sparse_insert m r c) m r (fun x => x ∈ sparse_set m r \/ x = c).
Proof.
  intros Hm Hc. unfold sparse_insert. destruct (ensure_row_ok m r Hm) as (m' & -> & Hm' & Hcol & Hr & Hsame & _). cbn [obind]. destruct (sparse_set_ok m r Hm) as [Hs Hd].
  eapply sparse_put; [done|done|done|done|]. apply insert_updates; [done|lia].
Qed.

Lemma sparse_same m r P : sparse_wf m -> (forall x, P x <-> x ∈ sparse_set m r) -> sparse_updates (Ret (false, m)) m r P.
Proof.
  intros Hm HP. exists (false, m). split; [done|]. split; [done|]. split; [done|]. split; [intros r' x; case_decide as E; [subst r'; by rewrite HP|done]|].
  split; [done|]. intros (x & Hx). destruct Hx. apply HP.
Qed.

Lemma no_row_empty m r x : sparse_row m r = None -> ~ x ∈ sparse_set m r.
Proof. intros E. unfold sparse_set. rewrite E. apply new_empty_ok. Qed.

Lemma sparse_remove_ok m r c : sparse_wf m -> (c < sparse_columns m)%nat -> sparse_updates (sparse_remove m r c) m r (fun x => x ∈ sparse_set m r /\ x <> c).
Proof.
  intros Hm Hc. unfold sparse_remove. assert (HN : sparse_row m r = None -> sparse_updates (Ret (false, m)) m r (fun x => x ∈ sparse_set m r /\ x <> c)).
  { intros E. apply sparse_same; [done|]. intros x. pose proof (no_row_empty m r x E). tauto. }
  destruct (rows m !! r) as [[s|]|] eqn:E; [|apply HN; unfold sparse_row; by rewrite E|apply HN; unfold sparse_row; by rewrite E].
  destruct (Hm r s E) as [Hs Hd]. eapply sparse_put; [done|done|done|exact E|]. assert (sparse_set m r = s) as -> by (unfold sparse_set, sparse_row; by rewrite E).
  apply remove_updates; [done|lia].
Qed.

Lemma sparse_union_rows_ok m a b : sparse_wf m -> sparse_updates (sparse_union_rows m a b) m b (fun x => x ∈ sparse_set m b \/ x ∈ sparse_set m a).
Proof.
  intros Hm. unfold sparse_union_rows. destruct (Nat.eqb_spec a b) as [->|Hne]; cbn [orb]; [apply sparse_same; [done|tauto]|].
  destruct (sparse_row m a) as [s|] eqn:Ea; [|apply sparse_same; [done|]; intros x; pose proof (no_row_empty m a x Ea); tauto].
  destruct (ensure_row_ok m b Hm) as (m' & -> & Hm' & Hcol & Hr & Hsame & Hkeep). cbn [obind]. assert (Hra : rows m !! a = Some (Some s)) by (unfold sparse_row in Ea; destruct (rows m !! a); congruence).
  unfold pick2_mut. rewrite (proj2 (Nat.eqb_neq a b) Hne), (Hkeep a s Hra), Hr. cbn [unwrap obind]. destruct (Hm a s Hra) as [Hs Hd]. destruct (sparse_set_ok m b Hm) as [Hsb Hdb].
  eapply sparse_put; [done|done|done|exact Hr|]. assert (sparse_set m a = s) as -> by (unfold sparse_set, sparse_row; by rewrite Hra). apply union_updates; [done|done|congruence].
Qed.

Lemma sparse_contains_ok m r c : sparse_wf m -> (c < sparse_columns m)%nat -> runs (sparse_contains m r c) (fun b => b = true <-> c ∈ sparse_set m r).
Proof.
  intros Hm Hc. unfold sparse_contains, sparse_set. destruct (sparse_row m r) as [s|] eqn:E.
  - assert (Hr : rows m !! r = Some (Some s)) by (unfold sparse_row in E; destruct (rows m !! r); congruence). destruct (Hm r s Hr) as [Hs Hd].
    eexists. split; [apply dense_contains_ok; [done|lia]|done].
  - exists false. split; [done|]. split; [done|]. intros H. by apply new_empty_ok in H.
Qed.

Lemma sparse_clear_ok m r : sparse_wf m -> sparse_wf (sparse_clear m r) /\ forall r' x, x ∈ sparse_set (sparse_clear m r) r' <-> x ∈ sparse_set m r' /\ r' <> r.
Proof.
  intros Hm. unfold sparse_clear. assert (HN : sparse_row m r = None -> sparse_wf m /\ forall r' x, x ∈ sparse_set m r' <-> x ∈ sparse_set m r' /\ r' <> r).
  { intros E. split; [done|]. intros r' x. split; [|tauto]. intros Hx. split; [done|]. intros ->. by apply (no_row_empty m r x E). }
  destruct (rows m !! r) as [[s|]|] eqn:E; [|apply HN; unfold sparse_row; by rewrite E|apply HN; unfold sparse_row; by rewrite E].
  destruct (Hm r s E) as [Hs Hd]. destruct (clear_ok s Hs) as [Hcw Hcx]. pose proof (lookup_lt_Some _ _ _ E) as Hlt. split.
  - intros k q Hk. cbn [put_row with_rows rows sparse_columns] in *. destruct (decide (k = r)) as [->|Hne].
    + rewrite list_lookup_insert_eq in Hk by done. injection Hk as <-. done.
    + rewrite list_lookup_insert_ne in Hk by done. by apply (Hm k).
  - intros k x. unfold sparse_set at 1, sparse_row. cbn [put_row with_rows rows sparse_columns]. destruct (decide (k = r)) as [->|Hne].
    + rewrite list_lookup_insert_eq by done. split; [intros Hx; by destruct (Hcx x)|tauto].
    + rewrite list_lookup_insert_ne by done. split; [done|tauto].
Qed.

(** A dense bit matrix, one vector of words, is a vector of bit sets: every cell or row operation
    returns on indices in range, keeps the invariant, changes the one row as the set operation says and no
    other, and its flag is true exactly when the row changed, also when [union_rows] reads the row it
    writes; [intersect_rows] and [iter] list a row's columns in increasing order. *)
Theorem bit_matrix_is_rows (m : BitMatrix) (r r2 c : nat) (s : DenseBitSet) :
  matrix_wf m -> (r < num_rows m)%nat -> (r2 < num_rows m)%nat -> (c < num_columns m)%nat ->
  wf s -> domain_size s = num_columns m -> Z.of_nat (num_columns m) <= u64_max - 63 ->
  runs (matrix_contains m r c) (fun b => b = true <-> c ∈ row_set m r) /\
  row_updates (matrix_insert m r c) m r (fun x => x ∈ row_set m r \/ x = c) /\
  row_updates (union_rows m r2 r) m r (fun x => x ∈ row_set m r \/ x ∈ row_set m r2) /\
  row_updates (union_row_with m s r) m r (fun x => x ∈ row_set m r \/ x ∈ s) /\
  runs (insert_all_into_row m r) (fun q => matrix_wf q /\ forall r' x, (r' < num_rows m)%nat ->
    x ∈ row_set q r' <-> if decide (r' = r) then (x < num_columns m)%nat else x ∈ row_set m r') /\
  runs (intersect_rows m r r2) (fun l => StronglySorted lt l /\ forall x, x ∈ l <-> x ∈ row_set m r /\ x ∈ row_set m r2) /\
  runs (matrix_iter m r) (fun l => StronglySorted lt l /\ (forall x, x ∈ l <-> x ∈ row_set m r) /\ matrix_count m r = Ret (length l)).
Proof.
  intros Hm Hr Hr2 Hc Hs Hd Hlim. pose proof (mw_row m Hm r Hr) as Hrow. pose proof (mw_row m Hm r2 Hr2) as Hrow2.
  split; [rewrite matrix_contains_row by done; eexists; split; [by apply dense_contains_ok|done]|].
  split; [rewrite matrix_insert_row by done; apply updates_row; [done|done|by apply insert_updates]|].
  split; [rewrite union_rows_row by done; apply updates_row; [done|done|by apply union_updates]|].
  split; [rewrite union_row_with_row by done; apply updates_row; [done|done|by apply union_updates]|]. split; [|split; [by apply intersect_ok|]].
  - rewrite insert_all_into_row_row by done. destruct (dense_insert_all_ok (row_set m r) Hrow) as (q & -> & Hq & Hdq & Hx). cbn [obind]. eexists. split; [done|].
    destruct (put_set_ok m r q Hm Hr Hq Hdq) as (Hw & Hrq & Hoth). split; [done|]. intros r' x Hr'. case_decide as E; [subst r'; by rewrite Hrq, Hx|by rewrite Hoth].
  - destruct (matrix_iter_row m r Hm Hr) as [-> ->]. destruct (iter_ok (row_set m r) Hrow Hlim) as [-> Hcnt]. eexists. split; [done|]. split; [apply items_sorted|].
    split; [|by rewrite Hcnt]. intros x. rewrite items_elem, elem_of_bits. replace (x - 64 * 0)%nat with x by lia. split; [tauto|]. intros; split; [lia|done].
Qed.

(** A sparse bit matrix has a row for every index, empty unless a bit was set: [insert] and
    [union_rows] create the rows they need, [remove] and [clear] leave missing rows missing, and each
    changes exactly the row it names as the set operation says; no operation panics on a column in range. *)
Theorem sparse_matrix_rows (m : SparseBitMatrix) (r r2 c : nat) : sparse_wf m -> (c < sparse_columns m)%nat ->
  sparse_updates (sparse_insert m r c) m r (fun x => x ∈ sparse_set m r \/ x = c) /\
  sparse_updates (sparse_remove m r c) m r (fun x => x ∈ sparse_set m r /\ x <> c) /\
  sparse_updates (sparse_union_rows m r2 r) m r (fun x => x ∈ sparse_set m r \/ x ∈ sparse_set m r2) /\
  runs (sparse_contains m r c) (fun b => b = true <-> c ∈ sparse_set m r) /\
  sparse_wf (sparse_clear m r) /\ (forall r' x, x ∈ sparse_set (sparse_clear m r) r' <-> x ∈ sparse_set m r' /\ r' <> r).
Proof.
  intros Hm Hc. split; [by apply sparse_insert_ok|]. split; [by apply sparse_remove_ok|]. split; [by apply sparse_union_rows_ok|].
  split; [by apply sparse_contains_ok|by apply sparse_clear_ok].
Qed.

(** ** Witnesses *)

Definition sample_matrix : BitMatrix := match matrix_insert (matrix_new 3 100) 1 70 with Ret (_, m) => m | _ => matrix_new 0 0 end.

Lemma sample_matrix_wf : matrix_wf sample_matrix /\ num_rows sample_matrix = 3%nat /\ num_columns sample_matrix = 100%nat.
Proof.
  destruct (matrix_new_ok 3 100) as [Hw HR]. unfold sample_matrix. rewrite matrix_insert_row by (done || (cbn; lia)).
  assert (Hu : updates (insert (row_set (matrix_new 3 100) 1) 70) (row_set (matrix_new 3 100) 1) (fun x => x ∈ row_set (matrix_new 3 100) 1 \/ x = 70%nat)).
  { apply insert_updates; [apply Hw|]; cbn [matrix_new row_set domain_size num_columns num_rows]; lia. }
  destruct (updates_row _ _ 1 _ Hw ltac:(cbn; lia) Hu) as ([c q] & -> & Hq & Hr & Hcol & _). done.
Qed.

Example sample_matrix_runs :
  (let* '(c, m) := union_rows sample_matrix 1 2 in let* l := matrix_iter m 2 in Ret (c, l)) = Ret (true, [70%nat])
  /\ (let* '(c, m) := union_rows sample_matrix 1 1 in Ret c) = Ret false.
Proof. vm_compute. done. Qed.

Lemma bit_matrix_is_rows_witness :
  row_updates (union_rows sample_matrix 1 0) sample_matrix 0 (fun x => x ∈ row_set sample_matrix 0 \/ x ∈ row_set sample_matrix 1).
Proof.
  destruct sample_matrix_wf as (Hw & Hr & Hc). destruct (bit_matrix_is_rows sample_matrix 0 1 5 (new_empty 100)) as (_ & _ & H & _);
    rewrite ?Hr, ?Hc; try lia; [done|apply new_empty_ok|done|vm_compute; discriminate|exact H].
Defined.

Lemma sparse_matrix_rows_witness : sparse_updates (sparse_insert (sparse_new 10) 4 3) (sparse_new 10) 4 (fun x => x ∈ sparse_set (sparse_new 10) 4 \/ x = 3%nat).
Proof. apply (sparse_matrix_rows (sparse_new 10) 4 0 3); [intros r s Hs; by destruct r|cbn; lia]. Defined.
