(* ===== verification/TransRel.v ===== *)
(** * Transitive relations ([src/rustc_data_structures/transitive_relation.rs])

    A builder collects elements and base edges; [freeze] computes the transitive closure in a bit matrix,
    by passes over the edges until one changes nothing; the frozen relation answers reachability, minimal
    upper bounds, parents and the "postdominating" upper bound.  [FxIndexSet] is a list without
    duplicates, an element's index its position.  The edges are a hash set: the order in which it is
    iterated is [hash_order], a parameter of which only that it lists the same edges is assumed. *)
From Stdlib Require Import ZArith Lia.
From stdpp Require Import base numbers list.
From S2P Require Import Prelude Swar BitSet BitMatrix.
Open Scope Z_scope.
Open Scope rust_scope.

Record Edge := mkEdge { source : nat; target : nat }.

#[export] Instance Edge_eq_dec : EqDecision Edge.
Proof. solve_decision. Defined.

(** The iteration order of a hash set of edges, and what is assumed of it. *)
Class HashOrder := hash_order : list Edge -> list Edge.
Class HashOrderOk `{!HashOrder} : Prop := hash_order_perm : forall l, Permutation (hash_order l) l.

Section TransitiveRelation.
Context {T : Type} `{!EqDecision T} `{!HashOrder}.

Record TransitiveRelationBuilder := mkBuilder { elements : list T; edges : list Edge }.

Record TransitiveRelation := mkRelation { builder : TransitiveRelationBuilder; closure : BitMatrix }.

(** [with_element_capacity] only reserves room. *)
Definition builder_default : TransitiveRelationBuilder := mkBuilder [] [].

Definition builder_is_empty (r : TransitiveRelationBuilder) : bool := match edges r with [] => true | _ => false end.

(** [get_index_of]. *)
Definition index (r : TransitiveRelationBuilder) (a : T) : option nat := position (fun x => bool_decide (x = a)) (elements r).

(** [insert_full]. *)
Definition add_index (r : TransitiveRelationBuilder) (a : T) : nat * TransitiveRelationBuilder :=
  match index r a with
  | Some i => (i, r)
  | None => (length (elements r), mkBuilder (elements r ++ [a]) (edges r))
  end.

Definition add (r : TransitiveRelationBuilder) (a b : T) : TransitiveRelationBuilder :=
  let '(a, r) := add_index r a in
  let '(b, r) := add_index r b in
  let edge := mkEdge a b in
  mkBuilder (elements r) (if bool_decide (edge ∈ edges r) then edges r else edges r ++ [edge]).

(** One [for edge in &self.edges]. *)
Fixpoint freeze_pass (es : list Edge) (matrix : BitMatrix) (changed : bool) : outcome (bool * BitMatrix) :=
  match es with
  | [] => Ret (changed, matrix)
  | edge :: es =>
      let* '(c1, matrix) := matrix_insert matrix (source edge) (target edge) in
      let* '(c2, matrix) := union_rows matrix (target edge) (source edge) in
      freeze_pass es matrix (changed || c1 || c2)
  end.

(** [while changed], a unit of fuel per pass. *)
Fixpoint freeze_loop (fuel : nat) (es : list Edge) (matrix : BitMatrix) : outcome BitMatrix :=
  match fuel with
  | O => OutOfFuel
  | S fuel =>
      let* '(changed, matrix) := freeze_pass es matrix false in
      if changed then freeze_loop fuel es matrix else Ret matrix
  end.

(** Every pass but the last sets a bit of the matrix. *)
Definition freeze (r : TransitiveRelationBuilder) : outcome TransitiveRelation :=
  let n := length (elements r) in
  let* matrix := freeze_loop (n * n + 1) (hash_order (edges r)) (matrix_new n n) in
  Ret (mkRelation r matrix).

(** [self.elements[i]]. *)
Definition element (r : TransitiveRelation) (i : nat) : outcome T := unwrap (elements (builder r) !! i).

Fixpoint elements_at (r : TransitiveRelation) (l : list nat) : outcome (list T) :=
  match l with
  | [] => Ret []
  | i :: l => let* a := element r i in let* rest := elements_at r l in Ret (a :: rest)
  end.

Definition rel_contains (r : TransitiveRelation) (a b : T) : outcome bool :=
  match index (builder r) a, index (builder r) b with
  | Some a, Some b => matrix_contains (closure r) a b
  | _, _ => Ret false
  end.

Definition reachable_from (r : TransitiveRelation) (a : T) : outcome (list T) :=
  match index (builder r) a with
  | Some a => let* l := matrix_iter (closure r) a in elements_at r l
  | None => Ret []
  end.

(** ** [pare_down] *)

(** The inner loop: [j] runs to the end of the vector, [dead] counts what is removed. *)
Fixpoint pare_inner (fuel : nat) (m : BitMatrix) (candidate_i : nat) (candidates : list nat) (j dead : nat) : outcome (nat * nat * list nat) :=
  match fuel with
  | O => OutOfFuel
  | S fuel =>
      match candidates !! j with
      | None => Ret (j, dead, candidates)
      | Some candidate_j =>
          let* c := matrix_contains m candidate_i candidate_j in
          if (c : bool) then pare_inner fuel m candidate_i candidates (S j) (S dead)
          else
            let* candidates := set_index candidates (j - dead) candidate_j in
            pare_inner fuel m candidate_i candidates (S j) dead
      end
  end.

Fixpoint pare_outer (fuel : nat) (m : BitMatrix) (candidates : list nat) (i : nat) : outcome (list nat) :=
  match fuel with
  | O => OutOfFuel
  | S fuel =>
      match candidates !! i with
      | None => Ret candidates
      | Some candidate_i =>
          let i := S i in
          let* '(j, dead, candidates) := pare_inner (S (length candidates)) m candidate_i candidates i 0 in
          pare_outer fuel m (take (j - dead) candidates) i
      end
  end.

Definition pare_down (candidates : list nat) (m : BitMatrix) : outcome (list nat) :=
  pare_outer (S (length candidates)) m candidates 0.

(** Steps (2), (3a) and (3b) of the algorithm. *)
Definition pare_both (candidates : list nat) (m : BitMatrix) : outcome (list nat) :=
  let* candidates := pare_down candidates m in
  let candidates := reverse candidates in
  pare_down candidates m.

Definition minimal_upper_bounds (r : TransitiveRelation) (a b : T) : outcome (list T) :=
  match index (builder r) a, index (builder r) b with
  | Some a, Some b =>
      let '(a, b) := if (b <? a)%nat then (b, a) else (a, b) in
      let* lub_indices :=
        let* ab := matrix_contains (closure r) a b in
        if (ab : bool) then Ret [b]
        else
          let* ba := matrix_contains (closure r) b a in
          if (ba : bool) then Ret [a]
          else
            let* candidates := intersect_rows (closure r) a b in
            pare_both candidates (closure r) in
      elements_at r (reverse lub_indices)
  | _, _ => Ret []
  end.

(** [retain(|&e| !closure.contains(e, a.0))]. *)
Fixpoint retain_unrelated (m : BitMatrix) (a : nat) (l : list nat) : outcome (list nat) :=
  match l with
  | [] => Ret []
  | e :: l =>
      let* c := matrix_contains m e a in
      let* rest := retain_unrelated m a l in
      Ret (if (c : bool) then rest else e :: rest)
  end.

Definition parents (r : TransitiveRelation) (a : T) : outcome (list T) :=
  match index (builder r) a with
  | None => Ret []
  | Some a =>
      let* ancestors := intersect_rows (closure r) a a in
      let* ancestors := retain_unrelated (closure r) a ancestors in
      let* ancestors := pare_both ancestors (closure r) in
      elements_at r (reverse ancestors)
  end.

(** [mubs.pop()] twice, then [mubs.extend(..)]. *)
Fixpoint mutual_immediate_postdominator (fuel : nat) (r : TransitiveRelation) (mubs : list T) : outcome (option T) :=
  match fuel with
  | O => OutOfFuel
  | S fuel =>
      match reverse mubs with
      | [] => Ret None
      | [mub] => Ret (Some mub)
      | m :: n :: rest =>
          let* bounds := minimal_upper_bounds r n m in
          mutual_immediate_postdominator fuel r (reverse rest ++ bounds)
      end
  end.

Definition postdom_upper_bound (fuel : nat) (r : TransitiveRelation) (a b : T) : outcome (option T) :=
  let* mubs := minimal_upper_bounds r a b in
  mutual_immediate_postdominator fuel r mubs.

(** [closure.iter(a).find(|i| closure.contains(i, a))]. *)
Fixpoint find_scc (m : BitMatrix) (a : nat) (l : list nat) : outcome (option nat) :=
  match l with
  | [] => Ret None
  | i :: l => let* c := matrix_contains m i a in if (c : bool) then Ret (Some i) else find_scc m a l
  end.

Definition minimal_scc_representative (r : TransitiveRelation) (a : T) : outcome T :=
  match index (builder r) a with
  | Some a_i =>
      let* l := matrix_iter (closure r) a_i in
      let* o := find_scc (closure r) a_i l in
      match o with Some i => element r i | None => Ret a end
  | None => Ret a
  end.

Definition base_edges (r : TransitiveRelation) : outcome (list (T * T)) :=
  (fix go es := match es with
     | [] => Ret []
     | e :: es => let* a := element r (source e) in let* b := element r (target e) in let* rest := go es in Ret ((a, b) :: rest)
     end) (hash_order (edges (builder r))).
End TransitiveRelation.
Arguments TransitiveRelationBuilder : clear implicits.
Arguments TransitiveRelation : clear implicits.

(** [maybe_map]: a partial function on the elements, [None] if it fails on an end point. *)
Section MaybeMap.
Context {T U : Type} `{!EqDecision T, !EqDecision U} `{!HashOrder}.

Fixpoint map_edges (f : T -> option U) (els : list T) (es : list Edge) (result : TransitiveRelationBuilder U) : outcome (option (TransitiveRelationBuilder U)) :=
  match es with
  | [] => Ret (Some result)
  | edge :: es =>
      let* s := unwrap (els !! source edge) in
      match f s with
      | None => Ret None
      | Some a =>
          let* t := unwrap (els !! target edge) in
          match f t with
          | None => Ret None
          | Some b => map_edges f els es (add result a b)
          end
      end
  end.

Definition builder_maybe_map (r : TransitiveRelationBuilder T) (f : T -> option U) : outcome (option (TransitiveRelationBuilder U)) :=
  map_edges f (elements r) (hash_order (edges r)) builder_default.

Definition maybe_map (r : TransitiveRelation T) (f : T -> option U) : outcome (option (TransitiveRelation U)) :=
  let* o := builder_maybe_map (builder r) f in
  match o with
  | None => Ret None
  | Some b => let* r := freeze b in Ret (Some r)
  end.
End MaybeMap.
