(* ===== verification/TransRelFacts.v ===== *)
(** * Transitive relations: the closure loop, paring down, elements and indices *)
From Stdlib Require Import ZArith Lia Sorted.
From stdpp Require Import base numbers list relations.
From S2P Require Import Prelude RustSlice Swar BitSet BitSetFacts BitSetTheorems ChunkedFacts BitMatrix BitMatrixTheorems TransRel.
Open Scope Z_scope.
Open Scope rust_scope.

(** ** Cells of a square matrix *)

Definition cell (m : BitMatrix) (r c : nat) : Prop := c ∈ row_set m r.

#[export] Instance cell_dec m r c : Decision (cell m r c).
Proof. change (Decision (bit (words (row_set m r)) c = true)). apply _. Defined.

Record square (n : nat) (m : BitMatrix) : Prop := {
  sq_wf : matrix_wf m;
  sq_rows : num_rows m = n;
  sq_cols : num_columns m = n;
}.

Lemma cell_range n m r c : square n m -> (r < n)%nat -> cell m r c -> (c < n)%nat.
Proof. intros [Hw Hr Hc] Hlt Hm. rewrite <- Hc. apply (wf_domain (row_set m r)); [apply Hw; lia|done]. Qed.

Lemma square_insert n m s t : square n m -> (s < n)%nat -> (t < n)%nat ->
  runs (matrix_insert m s t) (fun q => square n q.2 /\ (forall r c, (r < n)%nat -> cell q.2 r c <-> cell m r c \/ (r = s /\ c = t)) /\ (q.1 = true <-> ~ cell m s t)).
Proof.
  intros [Hw Hr Hc] Hs Ht. rewrite matrix_insert_row by (done || lia). assert (HU : updates (insert (row_set m s) t) (row_set m s) (fun x => x ∈ row_set m s \/ x = t)) by (apply insert_updates; [apply Hw; lia|cbn; lia]).
  destruct (updates_row _ m s _ Hw ltac:(lia) HU) as ([c q] & -> & Hq & Hr' & Hc' & Hx & Hch). cbn [fst snd] in *. eexists. split; [done|]. cbn [fst snd].
  split; [by split; [|lia|lia]|]. split.
  - intros r x Hlt. unfold cell. rewrite Hx by lia. case_decide; [subst r|]; intuition.
  - rewrite Hch. fold (cell m s t). split; [|intros Hn; exists t; unfold cell in Hn; tauto]. intros (x & Hn) Hin. apply Hn. unfold cell in Hin. split; [|tauto]. intros [?| ->]; done.
Qed.

Lemma square_union n m t s : square n m -> (s < n)%nat -> (t < n)%nat ->
  runs (union_rows m t s) (fun q => square n q.2 /\ (forall r c, (r < n)%nat -> cell q.2 r c <-> cell m r c \/ (r = s /\ cell m t c)) /\ (q.1 = true <-> exists c, cell m t c /\ ~ cell m s c)).
Proof.
  intros [Hw Hr Hc] Hs Ht. rewrite union_rows_row by (done || lia).
  assert (HU : updates (union (row_set m s) (row_set m t)) (row_set m s) (fun x => x ∈ row_set m s \/ x ∈ row_set m t)) by (apply union_updates; [apply Hw; lia|apply Hw; lia|done]).
  destruct (updates_row _ m s _ Hw ltac:(lia) HU) as ([c q] & -> & Hq & Hr' & Hc' & Hx & Hch). cbn [fst snd] in *. eexists. split; [done|]. cbn [fst snd].
  split; [by split; [|lia|lia]|]. split.
  - intros r x Hlt. unfold cell. rewrite Hx by lia. case_decide; [subst r|]; intuition.
  - rewrite Hch. split; intros (x & Hn); exists x; [|unfold cell in Hn; tauto]. destruct (decide (cell m s x)) as [E|E]; [exfalso; apply Hn; unfold cell in E; tauto|].
    destruct (decide (cell m t x)) as [E'|E']; [done|]. exfalso. unfold cell in *. tauto.
Qed.

Lemma square_contains n m r c : square n m -> (r < n)%nat -> (c < n)%nat -> matrix_contains m r c = Ret (bool_decide (cell m r c)).
Proof.
  intros [Hw Hr Hc] Hlt Hlt'. rewrite matrix_contains_row, dense_contains_ok by (done || (cbn; lia) || (apply Hw; lia)). f_equal. apply eq_true_iff_eq. rewrite bool_decide_eq_true. done.
Qed.

(** The number of cells. *)
Definition cells (n : nat) (m : BitMatrix) : nat := card (n * n) (fun k => bool_decide (cell m (k / n) (k mod n))).

Lemma card_lt d f g i : (forall j, (j < d)%nat -> f j = true -> g j = true) -> (i < d)%nat -> f i = false -> g i = true -> (card d f < card d g)%nat.
Proof.
  intros Hfg Hi Hf Hg. assert (HM : forall e, (e <= d)%nat -> (card e f <= card e g)%nat).
  { induction e as [|e IH]; intros He; [done|]. cbn [card]. specialize (IH ltac:(lia)). specialize (Hfg e ltac:(lia)). destruct (f e); [rewrite Hfg by done; lia|destruct (g e); lia]. }
  induction d as [|d IH]; [lia|]. cbn [card]. destruct (decide (i = d)) as [->|].
  - rewrite Hf, Hg. specialize (HM d ltac:(lia)). lia.
  - specialize (IH ltac:(intros; apply Hfg; [lia|done]) ltac:(lia) ltac:(intros; apply HM; lia)). specialize (Hfg d ltac:(lia)). destruct (f d); [rewrite Hfg by done; lia|destruct (g d); lia].
Qed.

Lemma cells_grow n m m' r c : (forall i j, (i < n)%nat -> cell m i j -> cell m' i j) -> (r < n)%nat -> (c < n)%nat -> ~ cell m r c -> cell m' r c -> (cells n m < cells n m')%nat.
Proof.
  intros Hmono Hr Hc Hn Hy. assert (Hd : ((r * n + c) / n = r)%nat /\ ((r * n + c) mod n = c)%nat).
  { rewrite Nat.div_add_l by lia. rewrite Nat.div_small by done. rewrite (Nat.add_comm (r * n) c), Nat.Div0.mod_add. rewrite Nat.mod_small by done. lia. }
  apply (card_lt _ _ _ (r * n + c)).
  - intros j Hj. rewrite !bool_decide_eq_true. apply Hmono. apply Nat.Div0.div_lt_upper_bound. lia.
  - nia.
  - destruct Hd as [-> ->]. by apply bool_decide_eq_false.
  - destruct Hd as [-> ->]. by apply bool_decide_eq_true.
Qed.

(** ** The passes of [freeze] *)

Section Freeze.
Context (n : nat) (all : list Edge) (Hall : forall e, e ∈ all -> (source e < n)%nat /\ (target e < n)%nat).

Definition step (i j : nat) : Prop := mkEdge i j ∈ all.

Lemma pass_ok es m ch : (forall e, e ∈ es -> e ∈ all) -> square n m -> (forall r c, (r < n)%nat -> cell m r c -> tc step r c) ->
  runs (freeze_pass es m ch) (fun q => square n q.2
    /\ (forall r c, (r < n)%nat -> cell q.2 r c -> tc step r c) /\ (forall r c, (r < n)%nat -> cell m r c -> cell q.2 r c)
    /\ (q.1 = true -> ch = true \/ exists r c, (r < n)%nat /\ ~ cell m r c /\ cell q.2 r c)
    /\ (q.1 = false -> ch = false /\ (forall r c, (r < n)%nat -> cell q.2 r c <-> cell m r c)
         /\ forall e, e ∈ es -> cell m (source e) (target e) /\ forall c, cell m (target e) c -> cell m (source e) c)).
Proof.
  revert m ch. induction es as [|e es IH]; intros m ch Hes Hm Hsnd.
  { exists (ch, m). split; [done|]. cbn [fst snd]. split; [done|]. split; [done|]. split; [done|]. split; [by left|]. intros ->. split; [done|]. split; [done|]. intros e He. by apply elem_of_nil in He. }
  destruct (Hall e (Hes e ltac:(left))) as [Hs Ht]. cbn [freeze_pass].
  destruct (square_insert n m _ _ Hm Hs Ht) as ([c1 m1] & -> & Hm1 & Hx1 & Hc1). cbn [fst snd obind] in *.
  destruct (square_union n m1 _ _ Hm1 Hs Ht) as ([c2 m2] & -> & Hm2 & Hx2 & Hc2). cbn [fst snd obind] in *.
  assert (Hst : step (source e) (target e)) by (unfold step; destruct e; apply Hes; left).
  assert (Hsnd1 : forall r c, (r < n)%nat -> cell m1 r c -> tc step r c) by (intros r c Hr Hrc; apply Hx1 in Hrc as [?|[-> ->]]; [auto|by apply tc_once|done]).
  assert (Hsnd2 : forall r c, (r < n)%nat -> cell m2 r c -> tc step r c) by (intros r c Hr Hrc; apply Hx2 in Hrc as [?|[-> ?]]; [auto|eapply tc_l; [exact Hst|auto]|done]).
  assert (Hmono2 : forall r c, (r < n)%nat -> cell m r c -> cell m2 r c) by (intros r c Hr Hrc; apply Hx2; [done|]; left; apply Hx1; [done|by left]).
  destruct (IH m2 (ch || c1 || c2) ltac:(intros x Hx; apply Hes; by right) Hm2 Hsnd2) as ([c3 m3] & E & Hm3 & Hsnd3 & Hmono3 & Ht3 & Hf3). cbn [fst snd] in *.
  exists (c3, m3). split; [done|]. cbn [fst snd]. split; [done|]. split; [done|]. split; [auto|]. split.
  - intros Hc3. destruct (Ht3 Hc3) as [Hch|(r & c & Hr & Hn & Hy)]; [|right; exists r, c; split; [done|]; split; [intros Hm'; apply Hn; auto|done]].
    destruct ch; [by left|]. right. cbn [orb] in Hch. apply orb_true_iff in Hch as [->| ->].
    + exists (source e), (target e). split; [done|]. split; [by apply Hc1|]. apply Hmono3; [done|]. apply Hx2; [done|]. left. apply Hx1; [done|]. by right.
    + destruct (proj1 Hc2 eq_refl) as (c & Hy & Hn). exists (source e), c. split; [done|]. split; [intros Hm'; apply Hn, Hx1; [done|by left]|]. apply Hmono3; [done|]. apply Hx2; [done|]. by right.
  - intros Hc3. destruct (Hf3 Hc3) as (Hch & Heq & Hes3). apply orb_false_iff in Hch as [Hch ->]. apply orb_false_iff in Hch as [-> ->]. split; [done|].
    assert (Hin : cell m (source e) (target e)) by (apply dec_stable; intros Hn; by discriminate (proj2 Hc1 Hn)).
    assert (Heq1 : forall r c, (r < n)%nat -> cell m1 r c <-> cell m r c) by (intros r c Hr; rewrite Hx1 by done; split; [intros [?|[-> ->]]; done|by left]).
    assert (Hsub : forall c, cell m (target e) c -> cell m (source e) c).
    { intros c Hc. apply dec_stable. intros Hn. assert (false = true); [|done]. apply Hc2. exists c. by rewrite !Heq1 by done. }
    assert (Heq2 : forall r c, (r < n)%nat -> cell m2 r c <-> cell m r c) by (intros r c Hr; rewrite Hx2, !Heq1 by done; split; [intros [?|[-> ?]]; auto|by left]).
    split; [intros r c Hr; by rewrite Heq, Heq2|]. intros x [->|Hx]%elem_of_cons; [done|]. destruct (Hes3 x Hx) as [H1 H2]. destruct (Hall x (Hes x ltac:(by right))) as [Hxs Hxt].
    split; [by apply Heq2|]. intros c Hc. apply Heq2; [done|]. apply H2, Heq2; done.
Qed.

Lemma loop_ok es fuel m : Permutation es all -> square n m -> (forall r c, (r < n)%nat -> cell m r c -> tc step r c) -> (n * n - cells n m < fuel)%nat ->
  runs (freeze_loop fuel es m) (fun q => square n q /\ forall r c, (r < n)%nat -> cell q r c <-> tc step r c).
Proof.
  intros Hp. revert m. induction fuel as [|f IH]; intros m Hm Hsnd Hf; [lia|]. cbn [freeze_loop].
  destruct (pass_ok es m false ltac:(intros e He; by rewrite <- Hp) Hm Hsnd) as ([ch m1] & -> & Hm1 & Hsnd1 & Hmono & Ht & Hfls). cbn [fst snd obind] in *. destruct ch.
  - destruct (Ht eq_refl) as [|(r & c & Hr & Hn & Hy)]; [done|]. apply IH; [done|done|].
    pose proof (cells_grow n m m1 r c Hmono Hr (cell_range n m1 r c Hm1 Hr Hy) Hn Hy). pose proof (card_le (n * n) (fun k => bool_decide (cell m1 (k / n) (k mod n)))). unfold cells in *. lia.
  - destruct (Hfls eq_refl) as (_ & Heq & Hcl). exists m1. split; [done|]. split; [done|]. intros r c Hr. split; [auto|]. intros Htc. rewrite Heq by done. clear Hf.
    induction Htc as [x y Hxy|x y z Hxy Hyz IHyz].
    + destruct (Hcl (mkEdge x y)) as [H1 _]; [by rewrite Hp|done].
    + destruct (Hcl (mkEdge x y)) as [_ H2]; [by rewrite Hp|]. apply H2, IHyz. exact (proj2 (Hall _ Hxy)).
Qed.
End Freeze.

(** ** Paring down *)

Section Pare.
Context (n : nat) (m : BitMatrix) (Hm : square n m).

Definition reaches (x y : nat) : bool := bool_decide (cell m x y).
Definition unreached (x : nat) (l : list nat) : list nat := filter (fun y => reaches x y = false) l.

(** What one pass leaves: the first element, then what is left of the elements it does not reach. *)
Inductive pared : list nat -> list nat -> Prop :=
| pared_nil : pared [] []
| pared_cons x l l' : pared (unreached x l) l' -> pared (x :: l) (x :: l').

Lemma pare_inner_ok ci l : forall K G v j dead fuel, v = K ++ G ++ l -> j = (length K + length G)%nat -> dead = length G ->
  (ci < n)%nat -> Forall (fun y => (y < n)%nat) l -> (length l < fuel)%nat ->
  exists G', pare_inner fuel m ci v j dead = Ret (length v, length G', K ++ unreached ci l ++ G') /\ length v = length (K ++ unreached ci l ++ G').
Proof.
  induction l as [|y l IH]; intros K G v j dead fuel -> -> -> Hci Hl Hf; (destruct fuel as [|f]; [cbn in Hf; lia|]); cbn [pare_inner].
  - exists G. rewrite app_nil_r. rewrite lookup_ge_None_2 by (rewrite length_app; lia). unfold unreached. rewrite filter_nil. cbn [app]. by rewrite length_app.
  - apply Forall_cons in Hl as [Hy Hl]. cbn [length] in Hf.
    assert (Elk : (K ++ G ++ y :: l) !! (length K + length G)%nat = Some y) by (rewrite app_assoc, lookup_app_r by (rewrite length_app; lia); by rewrite length_app, Nat.sub_diag).
    rewrite Elk. rewrite (square_contains n) by done. fold (reaches ci y). cbn [obind]. unfold unreached. rewrite filter_cons. fold (unreached ci l). destruct (reaches ci y) eqn:Er; case_decide; try done.
    + destruct (IH K (G ++ [y]) (K ++ G ++ y :: l) (S (length K + length G)) (S (length G)) f) as (G' & E & HL); [by rewrite <- app_assoc|rewrite length_app; cbn; lia|rewrite length_app; cbn; lia|done|done|lia|].
      rewrite E. by exists G'.
    + unfold set_index. rewrite (proj2 (Nat.ltb_lt _ _)) by (rewrite !length_app; cbn; lia). cbn [obind].
      assert (EW : exists G1, length G1 = length G /\ <[(length K + length G - length G)%nat := y]> (K ++ G ++ y :: l) = (K ++ [y]) ++ G1 ++ l).
      { replace (length K + length G - length G)%nat with (length K + 0)%nat by lia. rewrite insert_app_r. destruct G as [|g G].
        - exists []. split; [done|]. by rewrite <- app_assoc.
        - exists (G ++ [y]). split; [rewrite length_app; cbn; lia|]. by rewrite <- !app_assoc. }
      destruct EW as (G1 & HG1 & EW). rewrite EW. assert (HLv : length (K ++ G ++ y :: l) = length ((K ++ [y]) ++ G1 ++ l)) by (rewrite <- EW; by rewrite length_insert).
      destruct (IH (K ++ [y]) G1 ((K ++ [y]) ++ G1 ++ l) (S (length K + length G)) (length G) f) as (G' & E & HL); [done|rewrite length_app; cbn; lia|done|done|done|lia|].
      rewrite E. exists G'. rewrite HLv, HL. rewrite <- !app_assoc. done.
Qed.

Lemma unreached_range x l : Forall (fun y => (y < n)%nat) l -> Forall (fun y => (y < n)%nat) (unreached x l).
Proof. intros Hl. rewrite Forall_forall in *. intros y [_ Hy]%list_elem_of_filter. auto. Qed.

Lemma pare_outer_ok k : forall P l fuel, (length l <= k)%nat -> Forall (fun y => (y < n)%nat) l -> (length l < fuel)%nat ->
  exists l', pare_outer fuel m (P ++ l) (length P) = Ret (P ++ l') /\ pared l l'.
Proof.
  induction k as [|k IH]; intros P l fuel Hk Hl Hf; (destruct fuel as [|f]; [lia|]); cbn [pare_outer]; (destruct l as [|x l]; [exists []; rewrite lookup_ge_None_2 by (rewrite app_nil_r; lia); split; [done|constructor]|]).
  - cbn in Hk. lia.
  - apply Forall_cons in Hl as [Hx Hl]. cbn [length] in *. rewrite lookup_app_r, Nat.sub_diag by done. cbn [lookup list_lookup obind].
    destruct (pare_inner_ok x l (P ++ [x]) [] (P ++ x :: l) (S (length P)) 0 (S (length (P ++ x :: l)))) as (G' & E & HL); [by rewrite <- app_assoc|rewrite length_app; cbn; lia|done|done|done|rewrite length_app; cbn; lia|].
    rewrite E. cbn [obind]. rewrite HL. rewrite (app_assoc (P ++ [x])), length_app. replace (length ((P ++ [x]) ++ unreached x l) + length G' - length G')%nat with (length ((P ++ [x]) ++ unreached x l)) by lia.
    rewrite take_app_length. assert (Hul : (length (unreached x l) <= length l)%nat) by apply length_filter.
    destruct (IH (P ++ [x]) (unreached x l) f ltac:(lia) (unreached_range x l Hl) ltac:(lia)) as (l' & E' & Hp). rewrite length_app, Nat.add_1_r in E'. rewrite E'.
    exists (x :: l'). split; [by rewrite <- app_assoc|by constructor].
Qed.

Lemma pare_down_ok l : Forall (fun y => (y < n)%nat) l -> exists l', pare_down l m = Ret l' /\ pared l l'.
Proof. intros Hl. apply (pare_outer_ok (length l) [] l (S (length l))); [done|done|lia]. Qed.

Lemma pared_sublist l l' : pared l l' -> sublist l' l.
Proof. induction 1 as [|x l l' _ IH]; [constructor|]. constructor. etrans; [exact IH|apply sublist_filter]. Qed.

Lemma pared_forward l l' : pared l l' -> StronglySorted (fun x y => reaches x y = false) l'.
Proof.
  induction 1 as [|x l l' Hp IH]; constructor; [done|]. apply Forall_forall. intros y Hy.
  assert (Hy2 : y ∈ unreached x l) by (eapply elem_of_submseteq; [exact Hy|by apply sublist_submseteq, pared_sublist]). clear Hy. rename Hy2 into Hy. by apply list_elem_of_filter in Hy as [? _].
Qed.

Lemma pared_covers l l' : pared l l' -> forall y, y ∈ l -> y ∈ l' \/ exists x, x ∈ l' /\ reaches x y = true.
Proof.
  induction 1 as [|x l l' _ IH]; intros y Hy; [by left|]. apply elem_of_cons in Hy as [->|Hy]; [left; left|]. destruct (reaches x y) eqn:E.
  - right. exists x. split; [left|done].
  - destruct (IH y) as [?|(z & ? & ?)]; [by apply list_elem_of_filter|left; by right|right; exists z; split; [by right|done]].
Qed.
End Pare.

(** ** Both passes: an antichain that covers the candidates *)

Lemma sorted_pair {A} (R : A -> A -> Prop) l i j x y : StronglySorted R l -> (i < j)%nat -> l !! i = Some x -> l !! j = Some y -> R x y.
Proof.
  intros Hs. revert i j. induction Hs as [|a l _ IH Ha]; intros i j Hij Hx Hy; [by rewrite lookup_nil in Hx|]. destruct j as [|j]; [lia|]. cbn in Hy.
  destruct i as [|i]; [|apply (IH i j); [lia|done|done]]. cbn in Hx. injection Hx as <-. rewrite Forall_forall in Ha. apply Ha. by eapply list_elem_of_lookup_2.
Qed.

Lemma sorted_reverse {A} (R : A -> A -> Prop) (l : list A) : StronglySorted R l -> StronglySorted (flip R) (reverse l).
Proof.
  induction 1 as [|a l _ IH Ha]; [constructor|]. rewrite reverse_cons. apply StronglySorted_app_iff. split; [done|]. split; [repeat constructor|].
  apply Forall_reverse. eapply Forall_impl; [exact Ha|]. intros x Hx. repeat constructor. exact Hx.
Qed.

Lemma sorted_sublist {A} (R : A -> A -> Prop) (l l' : list A) : sublist l' l -> StronglySorted R l -> StronglySorted R l'.
Proof.
  induction 1 as [|x l1 l2 Hsub IH|x l1 l2 Hsub IH]; intros Hs; [done| |].
  - apply StronglySorted_inv in Hs as [Hs Hx]. constructor; [auto|]. rewrite Forall_forall in *. intros y Hy. apply Hx. eapply elem_of_submseteq; [exact Hy|by apply sublist_submseteq].
  - apply StronglySorted_inv in Hs as [Hs _]. auto.
Qed.

Lemma sublist_reverse {A} (l l' : list A) : sublist l l' -> sublist (reverse l) (reverse l').
Proof.
  induction 1 as [|x l1 l2 _ IH|x l1 l2 _ IH]; [done| |]; rewrite !reverse_cons; [by apply sublist_app|by apply sublist_inserts_r].
Qed.

Lemma sublist_in {A} (l l' : list A) x : sublist l l' -> x ∈ l -> x ∈ l'.
Proof. intros Hs Hx. eapply elem_of_submseteq; [exact Hx|by apply sublist_submseteq]. Qed.

Lemma pare_both_ok n m l : square n m -> (forall x y z, (x < n)%nat -> cell m x y -> cell m y z -> cell m x z) -> StronglySorted lt l -> Forall (fun y => (y < n)%nat) l ->
  exists l2, pare_both l m = Ret l2 /\ StronglySorted lt (reverse l2) /\ (forall x, x ∈ l2 -> x ∈ l)
    /\ (forall x y, x ∈ l2 -> y ∈ l2 -> x <> y -> ~ cell m x y) /\ (forall y, y ∈ l -> exists x, x ∈ l2 /\ (x = y \/ cell m x y)).
Proof.
  intros Hm Htr Hsort Hl. unfold pare_both. destruct (pare_down_ok n m Hm l Hl) as (l1 & -> & Hp1). cbn [obind]. pose proof (pared_sublist m _ _ Hp1) as Hs1.
  assert (Hl1 : Forall (fun y => (y < n)%nat) (reverse l1)) by (apply Forall_reverse; rewrite Forall_forall in *; intros x Hx; apply Hl; by eapply sublist_in).
  destruct (pare_down_ok n m Hm (reverse l1) Hl1) as (l2 & -> & Hp2). exists l2. split; [done|]. pose proof (pared_sublist m _ _ Hp2) as Hs2.
  assert (Hsr : sublist (reverse l2) l1) by (rewrite <- (reverse_involutive l1); by apply sublist_reverse).
  assert (Hin : forall x, x ∈ l2 -> x ∈ l) by (intros x Hx; eapply sublist_in; [exact Hs1|]; eapply sublist_in; [exact Hsr|by apply elem_of_reverse]). split; [|split; [done|split]].
  - eapply sorted_sublist; [exact Hsr|]. by eapply sorted_sublist.
  - intros x y [i Hi]%list_elem_of_lookup_1 [j Hj]%list_elem_of_lookup_1 Hne Hc. pose proof (pared_forward m _ _ Hp2) as F2.
    pose proof (sorted_sublist _ _ _ Hs2 (sorted_reverse _ _ (pared_forward m _ _ Hp1))) as F1. destruct (Nat.lt_trichotomy i j) as [Hij|[->|Hij]]; [|congruence|].
    + pose proof (sorted_pair _ _ _ _ _ _ F2 Hij Hi Hj) as H0. unfold reaches in H0. apply bool_decide_eq_false in H0. done.
    + pose proof (sorted_pair _ _ _ _ _ _ F1 Hij Hj Hi) as H0. unfold flip, reaches in H0. apply bool_decide_eq_false in H0. done.
  - intros y Hy. assert (HC : forall z, z ∈ l1 -> exists x, x ∈ l2 /\ (x = z \/ cell m x z)).
    { intros z Hz. destruct (pared_covers m _ _ Hp2 z) as [Hx|(x & Hx & Hc)]; [by apply elem_of_reverse|exists z; auto|]. apply bool_decide_eq_true in Hc. exists x; auto. }
    destruct (pared_covers m _ _ Hp1 y Hy) as [Hx|(z & Hz & Hc)]; [auto|]. apply bool_decide_eq_true in Hc. destruct (HC z Hz) as (x & Hx & Hor). exists x. split; [done|]. right. destruct Hor as [->|Hxz]; [done|].
    apply (Htr x z y); [|done|done]. rewrite Forall_forall in Hl. apply Hl. auto.
Qed.

(** ** Elements and indices *)

Section Elements.
Context {T : Type} `{!EqDecision T}.

Record builder_wf (b : TransitiveRelationBuilder T) : Prop := {
  bw_nodup : NoDup (elements b);
  bw_edges : forall e, e ∈ edges b -> (source e < length (elements b))%nat /\ (target e < length (elements b))%nat;
}.

(** The pairs given to [add]. *)
Definition base (b : TransitiveRelationBuilder T) (x y : T) : Prop :=
  exists i j, elements b !! i = Some x /\ elements b !! j = Some y /\ mkEdge i j ∈ edges b.

Lemma index_Some b x i : builder_wf b -> index b x = Some i <-> elements b !! i = Some x.
Proof.
  intros Hb. unfold index. split.
  - intros (l1 & y & l2 & E & <- & Hy & _)%position_Some. apply bool_decide_eq_true in Hy. subst y. rewrite E. by rewrite lookup_app_r, Nat.sub_diag.
  - intros Hi. destruct (position (fun y => bool_decide (y = x)) (elements b)) as [j|] eqn:E.
    + apply position_Some in E as (l1 & y & l2 & E & <- & Hy & _). apply bool_decide_eq_true in Hy. subst y. f_equal.
      apply (NoDup_lookup (elements b) _ _ x); [apply Hb| |done]. rewrite E. by rewrite lookup_app_r, Nat.sub_diag.
    + apply position_None in E. rewrite Forall_lookup in E. specialize (E i x Hi). cbn in E. by apply bool_decide_eq_false in E.
Qed.

Lemma index_None b x : builder_wf b -> index b x = None -> forall i, elements b !! i <> Some x.
Proof. intros Hb Hn i Hi. apply index_Some in Hi; [congruence|done]. Qed.

Lemma tc_step_base b i j x y : builder_wf b -> elements b !! i = Some x -> elements b !! j = Some y -> tc (step (edges b)) i j <-> tc (base b) x y.
Proof.
  intros Hb Hi Hj. split.
  - intros Ht. revert x Hi. induction Ht as [i j Hij|i k j Hik Hkj IH]; intros x Hi; [apply tc_once; by exists i, j|].
    destruct (bw_edges b Hb _ Hik) as [_ Hk]. cbn in Hk. destruct (lookup_lt_is_Some_2 _ _ Hk) as [z Hz]. eapply tc_l; [exists i, k; done|]. by apply IH.
  - intros Ht. revert i Hi. induction Ht as [x y (i' & j' & Hi' & Hj' & He)|x z y (i' & k & Hi' & Hk & He) Hzy IH]; intros i Hi.
    + assert (i = i') as -> by (eapply NoDup_lookup; [apply Hb|done|done]). assert (j = j') as -> by (eapply NoDup_lookup; [apply Hb|done|done]). by apply tc_once.
    + assert (i = i') as -> by (eapply NoDup_lookup; [apply Hb|done|done]). eapply tc_l; [exact He|]. by apply IH.
Qed.

Lemma base_known b x y : base b x y -> (exists i, elements b !! i = Some x) /\ exists j, elements b !! j = Some y.
Proof. intros (i & j & Hi & Hj & _). split; eauto. Qed.

Lemma tc_known b x y : tc (base b) x y -> (exists i, elements b !! i = Some x) /\ exists j, elements b !! j = Some y.
Proof. induction 1 as [x y H|x z y H _ IH]; [by eapply base_known|]. apply base_known in H as [H _]. split; [done|apply IH]. Qed.

Lemma add_index_ok b x : builder_wf b -> let '(i, b') := add_index b x in
  builder_wf b' /\ elements b' !! i = Some x /\ edges b' = edges b /\ prefix (elements b) (elements b').
Proof.
  intros Hb. unfold add_index. destruct (index b x) as [i|] eqn:E.
  - apply index_Some in E; [|done]. done.
  - split; [split; cbn [elements edges]|split; [|split; [done|by exists [x]]]].
    + apply NoDup_app. split; [apply Hb|]. split; [|apply NoDup_singleton]. intros y Hy ->%list_elem_of_singleton. apply list_elem_of_lookup_1 in Hy as [k Hk]. by apply (index_None b x Hb E k).
    + intros e He. rewrite length_app. cbn. destruct (bw_edges b Hb e He). lia.
    + cbn [elements]. by rewrite lookup_app_r, Nat.sub_diag.
Qed.

Lemma base_prefix b b' x y : builder_wf b -> builder_wf b' -> edges b' = edges b -> prefix (elements b) (elements b') -> base b' x y <-> base b x y.
Proof.
  intros Hb Hb' He [k Hp]. split; intros (i & j & Hi & Hj & Hij).
  - rewrite He in Hij. destruct (bw_edges b Hb _ Hij) as [Hs Ht]. cbn in Hs, Ht. rewrite Hp in Hi, Hj. rewrite lookup_app_l in Hi, Hj by done. by exists i, j.
  - exists i, j. rewrite He, Hp. split; [by apply lookup_app_l_Some|]. split; [by apply lookup_app_l_Some|done].
Qed.

Lemma add_ok b x y : builder_wf b -> builder_wf (add b x y) /\ forall u v, base (add b x y) u v <-> base b u v \/ (u = x /\ v = y).
Proof.
  intros Hb. unfold add. pose proof (add_index_ok b x Hb) as H1. destruct (add_index b x) as [i b1]. destruct H1 as (Hb1 & Hi & He1 & Hp1).
  pose proof (add_index_ok b1 y Hb1) as H2. destruct (add_index b1 y) as [j b2]. destruct H2 as (Hb2 & Hj & He2 & Hp2).
  assert (Hi2 : elements b2 !! i = Some x) by (destruct Hp2 as [k ->]; by apply lookup_app_l_Some).
  assert (HB : forall u v, base b2 u v <-> base b u v) by (intros u v; rewrite (base_prefix b1 b2), (base_prefix b b1); done).
  set (es := if bool_decide (mkEdge i j ∈ edges b2) then edges b2 else edges b2 ++ [mkEdge i j]).
  assert (HE : forall e, e ∈ es <-> e ∈ edges b2 \/ e = mkEdge i j).
  { intros e. unfold es. case_bool_decide; [split; [by left|intros [?| ->]; done]|]. by rewrite elem_of_app, list_elem_of_singleton. }
  split; [split; cbn [elements edges]|].
  - apply Hb2.
  - intros e [He| ->]%HE; [by apply Hb2|]. cbn. split; by eapply lookup_lt_Some.
  - intros u v. rewrite <- HB. split.
    + intros (i' & j' & Hi' & Hj' & [He|[= -> ->]]%HE); [left; by exists i', j'|]. right. cbn [elements] in *. split; congruence.
    + intros [(i' & j' & Hi' & Hj' & He)|[-> ->]]; [exists i', j'|exists i, j]; cbn [elements edges]; (split; [done|split; [done|]]); apply HE; [by left|by right].
Qed.
End Elements.

Lemma builder_default_ok {T} : builder_wf (T := T) builder_default.
Proof. split; [constructor|]. intros e He. by apply elem_of_nil in He. Qed.
