(* ===== verification/TransRelTheorems.v ===== *)
(** * Transitive relations: the theorems *)
From Stdlib Require Import ZArith Lia Sorted.
From stdpp Require Import base numbers list relations.
From S2P Require Import Prelude RustSlice Swar BitSet BitSetFacts BitSetTheorems ChunkedFacts BitMatrix BitMatrixTheorems TransRel TransRelFacts.
Open Scope Z_scope.
Open Scope rust_scope.

Section Relation.
Context {T : Type} `{!EqDecision T} `{!HashOrder} `{!HashOrderOk}.

(** A frozen relation: the matrix is the transitive closure of the base edges. *)
Record rel_wf (r : TransitiveRelation T) : Prop := {
  rw_builder : builder_wf (builder r);
  rw_square : square (length (elements (builder r))) (closure r);
  rw_cells : forall i j, (i < length (elements (builder r)))%nat -> cell (closure r) i j <-> tc (step (edges (builder r))) i j;
  rw_size : Z.of_nat (length (elements (builder r))) <= u64_max - 63;
}.

(** The order of the relation: [below r a b] is "[b] is reachable from [a]". *)
Definition below (r : TransitiveRelation T) : T -> T -> Prop := tc (base (builder r)).
Definition below_eq (r : TransitiveRelation T) (x y : T) : Prop := x = y \/ below r x y.

Lemma freeze_ok b : builder_wf b -> Z.of_nat (length (elements b)) <= u64_max - 63 -> runs (freeze b) (fun r => rel_wf r /\ builder r = b).
Proof.
  intros Hb Hlim. unfold freeze. set (n := length (elements b)). destruct (matrix_new_ok n n) as [Hw HR].
  assert (He : forall i j, (i < n)%nat -> ~ cell (matrix_new n n) i j) by (intros i j Hi; unfold cell; rewrite HR by done; apply new_empty_ok).
  destruct (loop_ok n (edges b) (bw_edges b Hb) (hash_order (edges b)) (n * n + 1) (matrix_new n n)) as (m & -> & Hm & Hc).
  - apply hash_order_perm.
  - by split.
  - intros r c Hr Hrc. by destruct (He r c Hr).
  - lia.
  - cbn [obind]. eexists. split; [done|]. split; [by split|done].
Qed.

Section Frozen.
Context (r : TransitiveRelation T) (Hr : rel_wf r).
Abbreviation n := (length (elements (builder r))).
Abbreviation els := (elements (builder r)).

Lemma cell_below i j x y : els !! i = Some x -> els !! j = Some y -> cell (closure r) i j <-> below r x y.
Proof.
  intros Hi Hj. rewrite (rw_cells r Hr) by (by eapply lookup_lt_Some). apply tc_step_base; [apply Hr|done|done].
Qed.

Lemma index_ok x : match index (builder r) x with Some i => els !! i = Some x | None => forall y, ~ below r x y /\ ~ below r y x end.
Proof.
  destruct (index (builder r) x) as [i|] eqn:E; [by apply index_Some; [apply Hr|]|]. intros y. split; intros [[i Hi] [j Hj]]%tc_known; by eapply (index_None _ _ (rw_builder r Hr) E).
Qed.

Lemma below_trans x y z : below r x y -> below r y z -> below r x z.
Proof. apply tc_transitive. Qed.

Lemma closure_trans i j k : (i < n)%nat -> cell (closure r) i j -> cell (closure r) j k -> cell (closure r) i k.
Proof.
  intros Hi Hij Hjk. pose proof (cell_range _ _ _ _ (rw_square r Hr) Hi Hij) as Hj. rewrite (rw_cells r Hr) in * by done. by eapply tc_transitive.
Qed.

Lemma elements_at_ok l : Forall (fun i => (i < n)%nat) l -> exists ts, elements_at r l = Ret ts /\ Forall2 (fun i x => els !! i = Some x) l ts.
Proof.
  induction 1 as [|i l Hi _ (ts & E & IH)]; [exists []; by split|]. cbn [elements_at]. unfold element. destruct (lookup_lt_is_Some_2 _ _ Hi) as [x Hx]. rewrite Hx. cbn [unwrap obind].
  rewrite E. cbn [obind]. exists (x :: ts). split; [done|by constructor].
Qed.

(** Elements against indices. *)
Lemma at_elem l ts x : Forall2 (fun i x => els !! i = Some x) l ts -> x ∈ ts <-> exists i, i ∈ l /\ els !! i = Some x.
Proof.
  intros HF. split.
  - intros [k Hk]%list_elem_of_lookup_1. destruct (Forall2_lookup_r _ _ _ _ _ HF Hk) as (i & Hi & Hx). exists i. split; [by eapply list_elem_of_lookup_2|done].
  - intros (i & [k Hk]%list_elem_of_lookup_1 & Hx). destruct (Forall2_lookup_l _ _ _ _ _ HF Hk) as (y & Hy & Hxy). assert (x = y) as -> by congruence. by eapply list_elem_of_lookup_2.
Qed.

Lemma at_nodup l ts : Forall2 (fun i x => els !! i = Some x) l ts -> NoDup l -> NoDup ts.
Proof.
  intros HF Hnd. apply NoDup_alt. intros i j x Hi Hj. destruct (Forall2_lookup_r _ _ _ _ _ HF Hi) as (a & Ha & Hxa). destruct (Forall2_lookup_r _ _ _ _ _ HF Hj) as (b & Hb & Hxb).
  assert (a = b) as -> by (eapply NoDup_lookup; [apply (rw_builder r Hr)|done|done]). by eapply NoDup_lookup.
Qed.

Lemma rel_contains_ok a b : runs (rel_contains r a b) (fun c => c = true <-> below r a b).
Proof.
  unfold rel_contains. pose proof (index_ok a) as Ha. pose proof (index_ok b) as Hb. destruct (index (builder r) a) as [i|].
  - destruct (index (builder r) b) as [j|].
    + rewrite (square_contains n) by (apply Hr || by eapply lookup_lt_Some). eexists. split; [done|]. rewrite bool_decide_eq_true. by apply cell_below.
    + exists false. split; [done|]. split; [done|]. intros Hab. by destruct (Hb a) as [_ []].
  - exists false. split; [done|]. split; [done|]. intros Hab. by destruct (Ha b) as [[] _].
Qed.

Lemma row_iter i : (i < n)%nat -> exists l, matrix_iter (closure r) i = Ret l /\ StronglySorted lt l /\ forall j, j ∈ l <-> cell (closure r) i j.
Proof.
  intros Hi. destruct (rw_square r Hr) as [Hw Hrows Hcols]. destruct (matrix_iter_row (closure r) i Hw ltac:(lia)) as [-> _].
  destruct (iter_ok (row_set (closure r) i)) as [-> _]; [apply Hw; lia|cbn [row_set domain_size]; rewrite Hcols; apply Hr|]. eexists. split; [done|]. split; [apply items_sorted|].
  intros j. unfold cell. rewrite items_elem, elem_of_bits. replace (j - 64 * 0)%nat with j by lia. split; [tauto|]. intros; split; [lia|done].
Qed.

Lemma reachable_from_ok a : runs (reachable_from r a) (fun l => NoDup l /\ forall x, x ∈ l <-> below r a x).
Proof.
  unfold reachable_from. pose proof (index_ok a) as Ha. destruct (index (builder r) a) as [i|].
  - pose proof (lookup_lt_Some _ _ _ Ha) as Hi. destruct (row_iter i Hi) as (l & -> & Hs & Hl). cbn [obind].
    assert (HF : Forall (fun j => (j < n)%nat) l) by (apply Forall_forall; intros j Hj%Hl; by eapply cell_range; [apply Hr| |]).
    destruct (elements_at_ok l HF) as (ts & -> & H2). exists ts. split; [done|]. split; [eapply at_nodup; [exact H2|by apply StronglySorted_NoDup]|]. intros x. rewrite (at_elem l ts x H2). split.
    + intros (j & Hj%Hl & Hx). by apply (cell_below i j).
    + intros Hb. destruct (tc_known _ _ _ Hb) as [_ [j Hj]]. exists j. split; [|done]. apply Hl. by apply (cell_below i j a x).
  - exists []. split; [done|]. split; [constructor|]. intros x. split; [intros Hx; by apply elem_of_nil in Hx|]. intros Hx. by destruct (Ha x) as [[] _].
Qed.

(** ** Minimal upper bounds *)

(** An antichain of elements that satisfy [P], above which all others that satisfy [P] lie. *)
Record minimal_set (P : T -> Prop) (l : list T) : Prop := {
  ms_nodup : NoDup l;
  ms_in : forall x, x ∈ l -> P x;
  ms_antichain : forall x y, x ∈ l -> y ∈ l -> x <> y -> ~ below r x y;
  ms_least : forall y, P y -> exists x, x ∈ l /\ below_eq r x y;
}.

Lemma pare_both_elements c (P : T -> Prop) : StronglySorted lt c -> (forall j, j ∈ c <-> exists x, els !! j = Some x /\ P x) ->
  (forall x, P x -> exists j, els !! j = Some x) ->
  runs (let* l := pare_both c (closure r) in elements_at r (reverse l)) (minimal_set P).
Proof.
  intros Hs Hc HP. assert (Hrange : Forall (fun y => (y < n)%nat) c) by (apply Forall_forall; intros j (x & Hx & _)%Hc; by eapply lookup_lt_Some).
  destruct (pare_both_ok n (closure r) c (rw_square r Hr) closure_trans Hs Hrange) as (l & -> & Hl & Hin & Hanti & Hcov). cbn [obind].
  assert (HF : Forall (fun y => (y < n)%nat) (reverse l)) by (apply Forall_reverse; rewrite Forall_forall in *; auto).
  destruct (elements_at_ok (reverse l) HF) as (ts & -> & H2). exists ts. split; [done|].
  assert (HE : forall x, x ∈ ts <-> exists i, i ∈ l /\ els !! i = Some x) by (intros x; rewrite (at_elem _ _ x H2); by setoid_rewrite elem_of_reverse). split.
  - eapply at_nodup; [exact H2|by apply StronglySorted_NoDup].
  - intros x (i & Hi & Hx)%HE. apply Hin, Hc in Hi as (y & Hy & HPy). congruence.
  - intros x y (i & Hi & Hx)%HE (j & Hj & Hy)%HE Hne Hb. apply (Hanti i j Hi Hj); [congruence|]. by apply (cell_below i j x y).
  - intros y HPy. destruct (HP y HPy) as [j Hj]. destruct (Hcov j) as (i & Hi & Hij); [apply Hc; by exists y|]. destruct (lookup_lt_is_Some_2 els i) as [x Hx].
    { rewrite Forall_forall in Hrange. auto. }
    exists x. split; [apply HE; by exists i|]. destruct Hij as [->|Hij]; [left; congruence|right; by apply (cell_below i j)].
Qed.

(** The bounds of two elements, the case of comparable elements included. *)
Record upper_bounds (a b : T) (l : list T) : Prop := {
  ub_nodup : NoDup l;
  ub_above : forall x, x ∈ l -> below_eq r a x /\ below_eq r b x;
  ub_antichain : forall x y, x ∈ l -> y ∈ l -> x <> y -> ~ below r x y;
  ub_least : forall y, below r a y -> below r b y -> exists x, x ∈ l /\ below_eq r x y;
  (** one of the two, or strictly above both *)
  ub_shape : l = [a] \/ l = [b] \/ forall x, x ∈ l -> below r a x /\ below r b x /\ ~ below r x a /\ ~ below r x b;
}.

Lemma upper_bounds_sym a b l : upper_bounds a b l -> upper_bounds b a l.
Proof.
  intros [H1 H2 H3 H4 H5]. split; [done|intros x Hx; destruct (H2 x Hx); done|done|auto|].
  destruct H5 as [?|[?|H5]]; [auto|auto|]. right. right. intros x Hx. destruct (H5 x Hx) as (? & ? & ? & ?). done.
Qed.

Lemma comparable_bounds a b : below r a b -> upper_bounds a b [b].
Proof.
  intros Hab. split; [apply NoDup_singleton| | | |by right; left].
  - intros x ->%list_elem_of_singleton. split; [by right|by left].
  - intros x y ->%list_elem_of_singleton ->%list_elem_of_singleton. done.
  - intros y _ Hy. exists b. split; [by apply list_elem_of_singleton|by right].
Qed.

Lemma mub_ordered i j a b : els !! i = Some a -> els !! j = Some b ->
  runs (let* lub_indices :=
      let* ab := matrix_contains (closure r) i j in
      if (ab : bool) then Ret [j]
      else let* ba := matrix_contains (closure r) j i in
        if (ba : bool) then Ret [i] else let* candidates := intersect_rows (closure r) i j in pare_both candidates (closure r) in
    elements_at r (reverse lub_indices)) (upper_bounds a b).
Proof.
  intros Hi Hj. pose proof (lookup_lt_Some _ _ _ Hi) as Hin. pose proof (lookup_lt_Some _ _ _ Hj) as Hjn. rewrite !(square_contains n) by (apply Hr || done). cbn [obind].
  case_bool_decide as Eij.
  { cbn [obind elements_at reverse rev_append]. unfold element. rewrite Hj. cbn [unwrap obind]. eexists. split; [done|]. apply comparable_bounds. by apply (cell_below i j). }
  case_bool_decide as Eji.
  { cbn [obind elements_at reverse rev_append]. unfold element. rewrite Hi. cbn [unwrap obind]. eexists. split; [done|]. apply upper_bounds_sym, comparable_bounds. by apply (cell_below j i). }
  destruct (rw_square r Hr) as [Hw Hrows Hcols]. destruct (intersect_ok (closure r) i j Hw ltac:(lia) ltac:(lia)) as (c & -> & Hs & Hc). cbn [obind].
  eapply runs_mono; [apply (pare_both_elements c (fun x => below r a x /\ below r b x)); [done| |]|].
  - intros k. rewrite Hc. fold (cell (closure r) i k) (cell (closure r) j k). split.
    + intros [H1 H2]. destruct (lookup_lt_is_Some_2 els k) as [x Hx]; [by eapply (cell_range n); [apply Hr| |]|]. exists x. split; [done|]. split; [by apply (cell_below i k)|by apply (cell_below j k)].
    + intros (x & Hx & H1 & H2). split; [by apply (cell_below i k a x)|by apply (cell_below j k b x)].
  - intros x [H1 _]. by destruct (tc_known _ _ _ H1) as [_ ?].
  - intros l [Hnd Hin' Hanti Hleast]. rewrite (cell_below i j a b) in Eij by done. rewrite (cell_below j i b a) in Eji by done. split; [done| |done|auto|].
    + intros x Hx. destruct (Hin' x Hx). split; by right.
    + right. right. intros x Hx. destruct (Hin' x Hx) as [Hax Hbx]. split; [done|]. split; [done|]. split; intros Hxx; [apply Eji|apply Eij]; by eapply below_trans.
Qed.

Lemma minimal_upper_bounds_ok a b : runs (minimal_upper_bounds r a b)
  (fun l => match index (builder r) a, index (builder r) b with Some _, Some _ => upper_bounds a b l | _, _ => l = [] end).
Proof.
  unfold minimal_upper_bounds. pose proof (index_ok a) as Ha. pose proof (index_ok b) as Hb.
  destruct (index (builder r) a) as [i|]; [|by exists []]. destruct (index (builder r) b) as [j|]; [|by exists []].
  destruct (j <? i)%nat; [|by apply mub_ordered]. eapply runs_mono; [by apply mub_ordered|]. intros l. apply upper_bounds_sym.
Qed.

Lemma retain_ok a l : (a < n)%nat -> Forall (fun j => (j < n)%nat) l ->
  retain_unrelated (closure r) a l = Ret (filter (fun e => ~ cell (closure r) e a) l).
Proof.
  intros Ha. induction 1 as [|e l He _ IH]; [done|]. cbn [retain_unrelated]. rewrite (square_contains n) by (apply Hr || done). cbn [obind]. rewrite IH. cbn [obind]. rewrite filter_cons.
  case_bool_decide; case_decide; done || tauto.
Qed.

Lemma parents_ok a : runs (parents r a) (minimal_set (fun x => below r a x /\ ~ below r x a)).
Proof.
  unfold parents. pose proof (index_ok a) as Ha. destruct (index (builder r) a) as [i|].
  - pose proof (lookup_lt_Some _ _ _ Ha) as Hi. destruct (rw_square r Hr) as [Hw Hrows Hcols]. destruct (intersect_ok (closure r) i i Hw ltac:(lia) ltac:(lia)) as (c & -> & Hs & Hc). cbn [obind].
    assert (HF : Forall (fun j => (j < n)%nat) c) by (apply Forall_forall; intros j [Hj _]%Hc; by eapply (cell_range n); [apply Hr| |]).
    rewrite retain_ok by done. cbn [obind]. apply pare_both_elements.
    + eapply sorted_sublist; [apply sublist_filter|done].
    + intros k. rewrite list_elem_of_filter, Hc. fold (cell (closure r) i k). split.
      * intros [Hnk [Hk _]]. destruct (lookup_lt_is_Some_2 els k) as [x Hx]; [by eapply (cell_range n); [apply Hr| |]|]. exists x. split; [done|].
        split; [by apply (cell_below i k)|]. intros Hxa. apply Hnk. by apply (cell_below k i x a).
      * intros (x & Hx & H1 & H2). split; [intros Hki; apply H2; by apply (cell_below k i x a)|]. split; by apply (cell_below i k a x).
    + intros x [H1 _]. by destruct (tc_known _ _ _ H1) as [_ ?].
  - exists []. split; [done|]. split; [constructor|intros x Hx; by apply elem_of_nil in Hx|intros x y Hx; by apply elem_of_nil in Hx|]. intros y [Hy _]. by destruct (Ha y) as [[] _].
Qed.

(** ** The loop of [mutual_immediate_postdominator] terminates *)

(** How many elements an element reaches, itself included: it shrinks upwards. *)
Definition reach_count (i : nat) : nat := card n (fun j => bool_decide (i = j \/ cell (closure r) i j)).
Definition weight (x : T) : nat := match index (builder r) x with Some i => (n + 1) ^ reach_count i | None => 1 end.
Definition total (l : list T) : nat := sum_list_with weight l.

Lemma weight_pos x : (0 < weight x)%nat.
Proof. unfold weight. destruct (index (builder r) x) as [i|]; [|lia]. pose proof (Nat.pow_nonzero (n + 1) (reach_count i) ltac:(lia)). lia. Qed.

Lemma reach_count_lt i j : (i < n)%nat -> cell (closure r) i j -> ~ cell (closure r) j i -> (reach_count j < reach_count i)%nat.
Proof.
  intros Hi Hij Hji. pose proof (cell_range n _ i j (rw_square r Hr) Hi Hij) as Hj. apply (card_lt _ _ _ i).
  - intros k Hk. rewrite !bool_decide_eq_true. intros [->|Hjk]; [by right|]. right. by eapply closure_trans.
  - done.
  - apply bool_decide_eq_false. intros [->|Hc]; done.
  - apply bool_decide_eq_true. by left.
Qed.

Lemma total_bound l k : (forall x, x ∈ l -> (weight x <= k)%nat) -> (total l <= length l * k)%nat.
Proof.
  induction l as [|x l IH]; intros Hk; [done|]. unfold total in *. cbn [sum_list_with length]. pose proof (Hk x ltac:(left)). specialize (IH ltac:(intros y Hy; apply Hk; by right)). lia.
Qed.

Lemma known_length l : NoDup l -> (forall x, x ∈ l -> exists i, els !! i = Some x) -> (length l <= n)%nat.
Proof.
  intros Hnd Hk. apply submseteq_length, NoDup_submseteq; [done|]. intros x Hx. destruct (Hk x Hx) as [i Hi]. by eapply list_elem_of_lookup_2.
Qed.

Lemma bounds_lighter a b l : upper_bounds a b l -> index (builder r) a <> None -> (total l < weight a + weight b)%nat.
Proof.
  intros Hub Ha. pose proof (weight_pos a). pose proof (weight_pos b). destruct (ub_shape a b l Hub) as [->|[->|Hs]]; [unfold total; cbn; lia|unfold total; cbn; lia|].
  pose proof (index_ok a) as Hia. destruct (index (builder r) a) as [i|] eqn:Ei; [|done]. pose proof (lookup_lt_Some _ _ _ Hia) as Hi.
  assert (Hone : (1 <= reach_count i)%nat).
  { destruct (reach_count i) eqn:E; [|lia]. pose proof (proj1 (card_zero _ _) E i Hi) as Hf. cbn in Hf. apply bool_decide_eq_false in Hf. tauto. }
  assert (Hx : forall x, x ∈ l -> (weight x <= (n + 1) ^ (reach_count i - 1))%nat).
  { intros x Hx. destruct (Hs x Hx) as (Hax & _ & Hnxa & _). pose proof (index_ok x) as Hix. unfold weight. destruct (index (builder r) x) as [j|].
    - apply Nat.pow_le_mono_r; [lia|]. assert (reach_count j < reach_count i)%nat; [|lia]. apply reach_count_lt; [done|by apply (cell_below i j a x)|]. intros Hc. apply Hnxa. by apply (cell_below j i x a).
    - by destruct (Hix a) as [_ []]. }
  assert (Hlen : (length l <= n)%nat) by (apply known_length; [apply Hub|]; intros x Hxl; destruct (Hs x Hxl) as [Hax _]; by destruct (tc_known _ _ _ Hax)).
  pose proof (total_bound l _ Hx) as Ht. unfold weight at 1. rewrite Ei. replace (reach_count i) with (S (reach_count i - 1)) at 1 by lia. cbn [Nat.pow].
  assert (0 < (n + 1) ^ (reach_count i - 1))%nat by (apply Nat.neq_0_lt_0, Nat.pow_nonzero; lia). nia.
Qed.

(** The bounds of two elements are lighter than the elements, and above them. *)
Lemma bounds_step a b : exists l, minimal_upper_bounds r a b = Ret l /\ (total l < weight a + weight b)%nat /\ forall x, x ∈ l -> below_eq r a x /\ below_eq r b x.
Proof.
  destruct (minimal_upper_bounds_ok a b) as (l & -> & Hl). exists l. split; [done|]. pose proof (weight_pos a). pose proof (weight_pos b).
  destruct (index (builder r) a) as [i|] eqn:Ea; [|subst l; split; [cbn; lia|intros x Hx; by apply elem_of_nil in Hx]].
  destruct (index (builder r) b) as [j|] eqn:Eb; [|subst l; split; [cbn; lia|intros x Hx; by apply elem_of_nil in Hx]].
  split; [apply bounds_lighter; [done|by rewrite Ea]|apply Hl].
Qed.

Lemma below_eq_trans x y z : below_eq r x y -> below_eq r y z -> below_eq r x z.
Proof. intros [->|H1] [->|H2]; [by left|by right|by right|right; by eapply below_trans]. Qed.

Lemma total_app l l' : total (l ++ l') = (total l + total l')%nat.
Proof. unfold total. apply sum_list_with_app. Qed.

Lemma postdominator_ok k : forall mubs, (total mubs <= k)%nat ->
  exists o, (forall fuel, (total mubs < fuel)%nat -> mutual_immediate_postdominator fuel r mubs = Ret o)
    /\ forall x, o = Some x -> exists y, y ∈ mubs /\ below_eq r y x.
Proof.
  induction k as [|k IH]; intros mubs Hk.
  - destruct mubs as [|x l]; [|unfold total in Hk; cbn in Hk; pose proof (weight_pos x); lia]. exists None. split; [|done]. intros [|f] Hf; [cbn in Hf; lia|done].
  - destruct (reverse mubs) as [|m [|p rest]] eqn:E.
    + exists None. split; [|done]. intros [|f] Hf; [lia|]. cbn [mutual_immediate_postdominator]. by rewrite E.
    + exists (Some m). split; [intros [|f] Hf; [lia|]; cbn [mutual_immediate_postdominator]; by rewrite E|]. intros x [= <-]. exists m. split; [|by left]. apply elem_of_reverse. rewrite E. left.
    + assert (Em : mubs = reverse rest ++ [p; m]) by (rewrite <- (reverse_involutive mubs), E, !reverse_cons, <- app_assoc; done).
      destruct (bounds_step p m) as (l & El & Hl & Hab). assert (Ht : (total (reverse rest ++ l) < total mubs)%nat) by (rewrite Em, !total_app; unfold total in *; cbn [sum_list_with]; lia).
      destruct (IH (reverse rest ++ l) ltac:(lia)) as (o & Ho & Hx). exists o. split.
      * intros [|f] Hf; [lia|]. cbn [mutual_immediate_postdominator]. rewrite E, El. cbn [obind]. apply Ho. lia.
      * intros x ->. destruct (Hx x eq_refl) as (y & [Hy|Hy]%elem_of_app & Hyx); [exists y; split; [rewrite Em; apply elem_of_app; by left|done]|]. exists p.
        split; [rewrite Em; apply elem_of_app; right; left|]. destruct (Hab y Hy) as [Hpy _]. by eapply below_eq_trans.
Qed.
End Frozen.
End Relation.


(** The builder of a list of pairs. *)
Definition of_pairs {T} `{!EqDecision T} (pairs : list (T * T)) : TransitiveRelationBuilder T := foldl (fun b '(x, y) => add b x y) builder_default pairs.

Lemma of_pairs_ok {T} `{!EqDecision T} (pairs : list (T * T)) : builder_wf (of_pairs pairs) /\ forall x y, base (of_pairs pairs) x y <-> (x, y) ∈ pairs.
Proof.
  unfold of_pairs. assert (HG : forall b : TransitiveRelationBuilder T, builder_wf b -> builder_wf (foldl (fun b '(x, y) => add b x y) b pairs)
    /\ forall x y, base (foldl (fun b '(x, y) => add b x y) b pairs) x y <-> base b x y \/ (x, y) ∈ pairs).
  { induction pairs as [|[u v] ps IH]; intros b Hb; cbn [foldl].
    - split; [done|]. intros x y. split; [by left|]. intros [?|Hn]; [done|by apply elem_of_nil in Hn].
    - destruct (add_ok b u v Hb) as [Hb' Hx]. destruct (IH _ Hb') as [Hw Hp]. split; [done|]. intros x y. rewrite Hp, Hx, elem_of_cons. intuition congruence. }
  destruct (HG builder_default builder_default_ok) as [Hw Hp]. split; [done|]. intros x y. rewrite Hp. split; [|by right]. intros [(i & j & Hi & _)|?]; [|done]. by destruct i.
Qed.

Section Claims.
Context {T : Type} `{!EqDecision T} `{!HashOrder} `{!HashOrderOk}.

(** The relation of a list of pairs. *)
Definition pair_below (pairs : list (T * T)) : T -> T -> Prop := tc (fun x y => (x, y) ∈ pairs).

Lemma below_pairs (pairs : list (T * T)) r : builder r = of_pairs pairs -> forall x y, below r x y <-> pair_below pairs x y.
Proof.
  intros E x y. unfold below, pair_below. rewrite E. destruct (of_pairs_ok pairs) as [_ Hp]. split; intros Ht; (induction Ht as [u v Huv|u w v Huw _ IH]; [apply tc_once, Hp, Huv|eapply tc_l; [apply Hp, Huw|done]]).
Qed.

Lemma frozen_pairs (pairs : list (T * T)) : Z.of_nat (length (elements (of_pairs pairs))) <= u64_max - 63 ->
  runs (freeze (of_pairs pairs)) (fun r => rel_wf r /\ builder r = of_pairs pairs).
Proof. intros Hlim. apply freeze_ok; [apply of_pairs_ok|done]. Qed.

(** C36: whatever order the hash set of edges is iterated in, [freeze] terminates within one pass per
    possible edge and one more, does not panic, and the relation it builds from a list of pairs contains
    exactly the transitive closure of the pairs; [reachable_from] lists each reachable element once. *)
Theorem transitive_closure_exact (pairs : list (T * T)) : Z.of_nat (length (elements (of_pairs pairs))) <= u64_max - 63 ->
  runs (freeze (of_pairs pairs)) (fun r =>
    (forall a b, runs (rel_contains r a b) (fun c => c = true <-> pair_below pairs a b)) /\
    (forall a, runs (reachable_from r a) (fun l => NoDup l /\ forall x, x ∈ l <-> pair_below pairs a x))).
Proof.
  intros Hlim. eapply runs_mono; [by apply frozen_pairs|]. intros r [Hr E]. split.
  - intros a b. eapply runs_mono; [by apply rel_contains_ok|]. intros c Hc. etrans; [exact Hc|by apply below_pairs].
  - intros a. eapply runs_mono; [by apply reachable_from_ok|]. intros l [Hn Hl]. split; [done|]. intros x. etrans; [apply Hl|by apply below_pairs].
Qed.

(** The two paring passes leave a minimal set, as the comment in the code conjectures: the minimal
    upper bounds of two known elements are upper bounds, none is below another, and every element
    strictly above both lies above one of them; [parents] is the minimal set of the elements strictly
    above [a]. *)
Theorem minimal_upper_bounds_minimal (pairs : list (T * T)) : Z.of_nat (length (elements (of_pairs pairs))) <= u64_max - 63 ->
  runs (freeze (of_pairs pairs)) (fun r =>
    (forall a b, runs (minimal_upper_bounds r a b) (fun l =>
       match index (builder r) a, index (builder r) b with Some _, Some _ => upper_bounds r a b l | _, _ => l = [] end)) /\
    (forall a, runs (parents r a) (minimal_set r (fun x => below r a x /\ ~ below r x a))) /\
    (forall x y, below r x y <-> pair_below pairs x y)).
Proof.
  intros Hlim. eapply runs_mono; [by apply frozen_pairs|]. intros r [Hr E].
  split; [intros a b; by apply minimal_upper_bounds_ok|]. split; [intros a; by apply parents_ok|by apply below_pairs].
Qed.

(** The loop that replaces two bounds by their minimal upper bounds terminates on every relation,
    cyclic ones included: from some number of turns on, the result no longer depends on it. What
    [postdom_upper_bound] returns is an upper bound of both elements. *)
Theorem postdom_terminates (pairs : list (T * T)) (a b : T) : Z.of_nat (length (elements (of_pairs pairs))) <= u64_max - 63 ->
  runs (freeze (of_pairs pairs)) (fun r => exists (turns : nat) (o : option T),
    (forall fuel, (turns <= fuel)%nat -> postdom_upper_bound fuel r a b = Ret o) /\
    (forall x, o = Some x -> (a = x \/ pair_below pairs a x) /\ (b = x \/ pair_below pairs b x))).
Proof.
  intros Hlim. eapply runs_mono; [by apply frozen_pairs|]. intros r [Hr E]. unfold postdom_upper_bound. destruct (bounds_step r Hr a b) as (l & -> & _ & Hab). cbn [obind].
  destruct (postdominator_ok r Hr (total r l) l ltac:(done)) as (o & Ho & Hx). exists (S (total r l)), o. split; [intros fuel Hf; by apply Ho|].
  intros x Eo. destruct (Hx x Eo) as (y & Hy & Hyx). destruct (Hab y Hy) as [Hay Hby]. setoid_rewrite <- (below_pairs pairs r E).
  split; by eapply (below_eq_trans r).
Qed.
End Claims.

(** When two elements have three minimal upper bounds of which two have no common bound, those two
    are dropped and the third is returned, although it does not postdominate: from [0] and [1], which
    both lead to [2], [3] and [4] and nowhere else, the answer is [2]. The documentation promises the
    mutual immediate postdominator, if one exists. *)
Theorem postdom_drops_bounds :
  let pairs := [(0, 2); (0, 3); (0, 4); (1, 2); (1, 3); (1, 4)] in
  let insertion_order : HashOrder := fun l => l in
  runs (freeze (of_pairs pairs)) (fun r =>
    minimal_upper_bounds r 0 1 = Ret [2; 3; 4] /\ postdom_upper_bound 20 r 0 1 = Ret (Some 2) /\ ~ pair_below pairs 3 2 /\ ~ pair_below pairs 4 2).
Proof.
  intros pairs insertion_order. assert (HN : forall x y, x <> 0 -> x <> 1 -> ~ pair_below pairs x y).
  { intros x y H0 H1 Ht. assert (exists z, (x, z) ∈ pairs) as [z Hz] by (destruct Ht as [? z Hz|? z ? Hz _]; by exists z).
    unfold pairs in Hz. rewrite !elem_of_cons, elem_of_nil in Hz. naive_solver. }
  eexists. split; [vm_compute; reflexivity|]. split; [by vm_compute|]. split; [by vm_compute|]. split; by apply HN.
Qed.

(** ** Witnesses *)

(** A hash set iterated backwards, and a relation with a cycle. *)
Definition backwards : HashOrder := fun l => reverse l.

Lemma backwards_ok : @HashOrderOk backwards.
Proof. intros l. change (reverse l ≡ₚ l). apply reverse_Permutation. Qed.

Definition sample_pairs : list (Z * Z) := [(1, 2); (2, 3); (3, 2); (1, 4); (3, 5); (4, 5)].

Example sample_relation : (let* r := @freeze Z backwards (of_pairs sample_pairs) in let* c := rel_contains r 1 5 in let* d := rel_contains r 5 1 in
  let* l := reachable_from r 2 in let* p := parents r 1 in let* m := minimal_upper_bounds r 2 4 in Ret (c, d, l, p, m)) = Ret (true, false, [2; 3; 5], [2; 4], [5]).
Proof. vm_compute. done. Qed.

Lemma transitive_closure_exact_witness : runs (@freeze Z backwards (of_pairs sample_pairs)) (fun r =>
  (forall a b, runs (rel_contains r a b) (fun c => c = true <-> pair_below sample_pairs a b)) /\
  (forall a, runs (reachable_from r a) (fun l => NoDup l /\ forall x, x ∈ l <-> pair_below sample_pairs a x))).
Proof. apply (@transitive_closure_exact Z _ backwards backwards_ok sample_pairs). vm_compute. discriminate. Defined.

Lemma minimal_upper_bounds_minimal_witness : runs (@freeze Z backwards (of_pairs sample_pairs)) (fun r =>
  (forall a b, runs (minimal_upper_bounds r a b) (fun l =>
       match index (builder r) a, index (builder r) b with Some _, Some _ => upper_bounds r a b l | _, _ => l = [] end)) /\
  (forall a, runs (parents r a) (minimal_set r (fun x => below r a x /\ ~ below r x a))) /\
  (forall x y, below r x y <-> pair_below sample_pairs x y)).
Proof. apply (@minimal_upper_bounds_minimal Z _ backwards backwards_ok sample_pairs). vm_compute. discriminate. Defined.

Lemma postdom_terminates_witness : runs (@freeze Z backwards (of_pairs sample_pairs)) (fun r => exists (turns : nat) (o : option Z),
  (forall fuel, (turns <= fuel)%nat -> postdom_upper_bound fuel r 2 4 = Ret o) /\
  (forall x, o = Some x -> (2 = x \/ pair_below sample_pairs 2 x) /\ (4 = x \/ pair_below sample_pairs 4 x))).
Proof. apply (@postdom_terminates Z _ backwards backwards_ok sample_pairs 2 4). vm_compute. discriminate. Defined.
