(* ===== verification/Datafrog.v ===== *)
(** * The Datalog engine ([src/datafrog/])

    Relations (sorted vectors of distinct tuples), variables (a stack of stable relations, the recent
    tuples, the tuples to add), joins, and the leapjoin over extension and filter leapers.  A
    [Relation] is its vector of tuples.  A variable's [Rc] cells are shared by the [Iteration] and by the
    program that uses the variable; both see the one value that is threaded here.  The galloping search
    and the join recurse on fuel, the length of what they search; their specifications show it is
    enough.  A variable's name, which nothing reads, is left out. *)
From Stdlib Require Import ZArith Lia.
From stdpp Require Import base numbers list.
From S2P Require Import Prelude RustSlice.
#[local] Open Scope nat_scope.
Open Scope rust_scope.

Definition Relation (Tuple : Type) : Type := list Tuple.

(** ** Searching ([join.rs], [treefrog.rs]) *)

(** [step < slice.len() && cmp(&slice[step])]. *)
Definition probe {A} (f : A -> bool) (slice : list A) (step : nat) : bool :=
  match slice !! step with Some y => f y | None => false end.

Fixpoint gallop_up {A} (fuel : nat) (f : A -> bool) (slice : list A) (step : nat) : list A * nat :=
  match fuel with
  | O => (slice, step)
  | S fuel => if probe f slice step then gallop_up fuel f (drop step slice) (step * 2) else (slice, step)
  end.

Fixpoint gallop_down {A} (fuel : nat) (f : A -> bool) (slice : list A) (step : nat) : list A :=
  match fuel with
  | O => slice
  | S fuel =>
      if 0 <? step then gallop_down fuel f (if probe f slice step then drop step slice else slice) (step / 2)
      else slice
  end.

Definition gallop {A} (f : A -> bool) (slice : list A) : list A :=
  if probe f slice 0 then
    let '(slice, step) := gallop_up (length slice) f slice 1 in
    let slice := gallop_down (S step) f slice (step / 2) in
    drop 1 slice
  else slice.

(** [binary_search]: the number of leading elements that satisfy [f]. *)
Fixpoint binary_search_loop {A} (fuel : nat) (f : A -> bool) (slice : list A) (lo hi : nat) : nat :=
  match fuel with
  | O => lo
  | S fuel =>
      if lo <? hi then
        let mid := lo + (hi - lo) / 2 in
        if probe f slice mid then binary_search_loop fuel f slice (mid + 1) hi
        else binary_search_loop fuel f slice lo mid
      else lo
  end.

Definition binary_search {A} (f : A -> bool) (slice : list A) : nat := binary_search_loop (length slice) f slice 0 (length slice).

(** ** [Relation] *)

Section Relations.
Context {Tuple : Type} `{Ord Tuple}.

(** [Vec::sort], stable; equal elements are identical here, so the order is all there is to it. *)
Fixpoint sort_insert (x : Tuple) (l : list Tuple) : list Tuple :=
  match l with
  | [] => [x]
  | y :: l' => if le_b x y then x :: l else y :: sort_insert x l'
  end.
Definition sort (l : list Tuple) : list Tuple := foldr sort_insert [] l.

(** [Vec::dedup]: drop an element equal to the one kept before it. *)
Fixpoint dedup (l : list Tuple) : list Tuple :=
  match l with
  | [] => []
  | x :: l => match dedup l with
              | [] => [x]
              | y :: l' => if eq_b x y then x :: l' else x :: y :: l'
              end
  end.

Definition from_vec (elements : list Tuple) : Relation Tuple := dedup (sort elements).

(** [if elements2.peek() == Some(elem) { elements2.next(); }]. *)
Definition skip_equal (elem : Tuple) (l : list Tuple) : list Tuple :=
  match l with x :: l' => if eq_b x elem then l' else l | [] => [] end.

(** [for elem in elements1], then the rest of [elements2]. *)
Fixpoint merge_loop (elements1 elements2 : list Tuple) : list Tuple :=
  match elements1 with
  | [] => elements2
  | elem :: elements1 =>
      take_while (fun x => lt_b x elem) elements2 ++
      elem :: merge_loop elements1 (skip_equal elem (drop_while (fun x => lt_b x elem) elements2))
  end.

Definition merge (self other : Relation Tuple) : Relation Tuple :=
  match self, other with
  | [], _ => other
  | _, [] => self
  | x :: _, y :: _ =>
      let '(elements1, elements2) := if lt_b y x then (other, self) else (self, other) in
      match elements1, elements2 with
      | first1 :: rest1, first2 :: _ =>
          if lt_b (default first1 (last elements1)) first2 then elements1 ++ elements2
          else first1 :: merge_loop rest1 (skip_equal first1 elements2)
      | _, _ => []
      end
  end.
End Relations.

(** ** Joins ([join.rs]) *)

Section Joins.
Context {Key Val1 Val2 Result : Type} `{Ord Key}.

(** The results in the order of the calls of [result]; each turn shortens one of the slices. *)
Fixpoint join_helper (fuel : nat) (slice1 : list (Key * Val1)) (slice2 : list (Key * Val2)) (logic : Key -> Val1 -> Val2 -> Result) : list Result :=
  match fuel with
  | O => []
  | S fuel =>
      match slice1, slice2 with
      | (k1, v1) :: _, (k2, v2) :: _ =>
          match cmp k1 k2 with
          | Lt => join_helper fuel (gallop (fun x => lt_b x.1 k2) slice1) slice2 logic
          | Eq =>
              let count1 := length (take_while (fun x => eq_b x.1 k1) slice1) in
              let count2 := length (take_while (fun x => eq_b x.1 k2) slice2) in
              flat_map (fun s1 => (fun s2 => logic k1 s1.2 s2.2) <$> take count2 slice2) (take count1 slice1) ++
              join_helper fuel (drop count1 slice1) (drop count2 slice2) logic
          | Gt => join_helper fuel slice1 (gallop (fun x => lt_b x.1 k1) slice2) logic
          end
      | _, _ => []
      end
  end.

Definition join_slices (slice1 : list (Key * Val1)) (slice2 : list (Key * Val2)) (logic : Key -> Val1 -> Val2 -> Result) : list Result :=
  join_helper (length slice1 + length slice2) slice1 slice2 logic.

Definition join_into_relation `{Ord Result} (input1 : Relation (Key * Val1)) (input2 : Relation (Key * Val2)) (logic : Key -> Val1 -> Val2 -> Result) : Relation Result :=
  from_vec (join_slices input1 input2 logic).

End Joins.

(** ** [Variable] (a keyword of the language: [DVariable] here) *)

Record DVariable (Tuple : Type) := mkVariable {
  distinct : bool;
  stable : list (Relation Tuple);
  recent : Relation Tuple;
  to_add : list (Relation Tuple);
}.
Arguments mkVariable {Tuple} _ _ _ _.
Arguments distinct {Tuple} _.
Arguments stable {Tuple} _.
Arguments recent {Tuple} _.
Arguments to_add {Tuple} _.

(** A [Relation] has no recent tuples and is its own stable batch. *)
Class JoinInput (I Tuple : Type) := { recent_of : I -> list Tuple; stable_of : I -> list (Relation Tuple) }.
#[export] Instance Variable_JoinInput {Tuple} : JoinInput (DVariable Tuple) Tuple := {| recent_of := recent; stable_of := stable |}.
#[export] Instance Relation_JoinInput {Tuple} : JoinInput (Relation Tuple) Tuple := {| recent_of := fun _ => []; stable_of := fun r => [r] |}.

Section Antijoin.
Context {Key Val1 Result : Type} `{Ord Key}.

(** The stateful filter of [antijoin]. *)
Fixpoint antijoin_loop (recent : list (Key * Val1)) (tuples2 : list Key) (logic : Key -> Val1 -> Result) : list Result :=
  match recent with
  | [] => []
  | (key, val) :: recent =>
      let tuples2 := gallop (fun k => lt_b k key) tuples2 in
      let rest := antijoin_loop recent tuples2 logic in
      match tuples2 with
      | k :: _ => if eq_b k key then rest else logic key val :: rest
      | [] => logic key val :: rest
      end
  end.

Definition antijoin {I1} `{!JoinInput I1 (Key * Val1)} `{Ord Result} (input1 : I1) (input2 : Relation Key) (logic : Key -> Val1 -> Result) : Relation Result :=
  from_vec (antijoin_loop (recent_of input1) input2 logic).
End Antijoin.

Section Variables.
Context {Tuple : Type} `{Ord Tuple}.

(** [Iteration::variable] and [variable_indistinct]. *)
Definition variable : DVariable Tuple := mkVariable true [] [] [].
Definition variable_indistinct : DVariable Tuple := mkVariable false [] [] [].

Definition insert (v : DVariable Tuple) (relation : Relation Tuple) : DVariable Tuple :=
  match relation with
  | [] => v
  | _ => mkVariable (distinct v) (stable v) (recent v) (to_add v ++ [relation])
  end.

Definition extend (v : DVariable Tuple) (iterator : list Tuple) : DVariable Tuple := insert v (from_vec iterator).

(** Step 1: pop the batches at the end of [stable] that are not much longer than [recent]. *)
Fixpoint pop_batches (rev_stable : list (Relation Tuple)) (recent : Relation Tuple) : list (Relation Tuple) * Relation Tuple :=
  match rev_stable with
  | last :: rest => if length last <=? 2 * length recent then pop_batches rest (merge recent last) else (rev_stable, recent)
  | [] => ([], recent)
  end.

Definition push_recent (v : DVariable Tuple) : DVariable Tuple :=
  match recent v with
  | [] => v
  | _ => let '(rest, r) := pop_batches (reverse (stable v)) (recent v) in
         mkVariable (distinct v) (reverse rest ++ [r]) [] (to_add v)
  end.

(** Step 2b: keep what is not in the batch; the slice moves along with the tuples. *)
Fixpoint retain_new (advance : (Tuple -> bool) -> list Tuple -> list Tuple) (slice tuples : list Tuple) : list Tuple :=
  match tuples with
  | [] => []
  | x :: tuples =>
      let slice := advance (fun y => lt_b y x) slice in
      let rest := retain_new advance slice tuples in
      match slice with
      | y :: _ => if eq_b y x then rest else x :: rest
      | [] => x :: rest
      end
  end.

Definition restrict (tuples : Relation Tuple) (batch : Relation Tuple) : Relation Tuple :=
  if 4 * length tuples <? length batch then retain_new gallop batch tuples else retain_new drop_while batch tuples.

Definition changed (v : DVariable Tuple) : bool * DVariable Tuple :=
  let v := push_recent v in
  let v := match reverse (to_add v) with
           | [] => v
           | add :: more =>
               let add := foldl merge add more in
               let add := if distinct v then foldl restrict add (stable v) else add in
               mkVariable (distinct v) (stable v) add []
           end in
  (match recent v with [] => false | _ => true end, v).

(** [while let Some(batch) = self.stable.borrow_mut().pop()]. *)
Definition complete (v : DVariable Tuple) : outcome (Relation Tuple) :=
  let* _ := assert_that (match recent v with [] => true | _ => false end) in
  let* _ := assert_that (match to_add v with [] => true | _ => false end) in
  Ret (foldl merge [] (reverse (stable v))).

Definition from_map {T2} (out : DVariable Tuple) (input : DVariable T2) (logic : T2 -> Tuple) : DVariable Tuple :=
  insert out (from_vec (logic <$> recent input)).

Definition from_join {Key Val1 Val2 I2} `{Ord Key} `{!JoinInput I2 (Key * Val2)} (out : DVariable Tuple) (input1 : DVariable (Key * Val1)) (input2 : I2)
    (logic : Key -> Val1 -> Val2 -> Tuple) : DVariable Tuple :=
  let recent1 := recent input1 in
  let recent2 := recent_of input2 in
  let results :=
    flat_map (fun batch2 => join_slices recent1 batch2 logic) (stable_of input2) ++
    flat_map (fun batch1 => join_slices batch1 recent2 logic) (stable input1) ++
    join_slices recent1 recent2 logic in
  insert out (from_vec results).

Definition from_antijoin {Key Val1} `{Ord Key} (out : DVariable Tuple) (input1 : DVariable (Key * Val1)) (input2 : Relation Key) (logic : Key -> Val1 -> Tuple) : DVariable Tuple :=
  insert out (antijoin input1 input2 logic).
End Variables.

(** ** Leapers ([treefrog.rs]) *)

(** [ExtendWith] keeps the range that [count] found for the last prefix. *)
Inductive Leaper (Tuple Val : Type) : Type :=
| ExtendWith {Key : Type} (ord : Ord Key) (relation : Relation (Key * Val)) (start end_ : nat) (key_func : Tuple -> Key)
| ExtendAnti {Key : Type} (ord : Ord Key) (relation : Relation (Key * Val)) (key_func : Tuple -> Key)
| FilterWith {KV : Type} (ord : Ord KV) (relation : Relation KV) (key_func : Tuple -> KV)
| FilterAnti {KV : Type} (ord : Ord KV) (relation : Relation KV) (key_func : Tuple -> KV)
| PrefixFilter (predicate : Tuple -> bool)
| ValueFilter (predicate : Tuple -> Val -> bool).
Arguments ExtendWith {Tuple Val Key} _ _ _ _ _.
Arguments ExtendAnti {Tuple Val Key} _ _ _.
Arguments FilterWith {Tuple Val KV} _ _ _.
Arguments FilterAnti {Tuple Val KV} _ _ _.
Arguments PrefixFilter {Tuple Val} _.
Arguments ValueFilter {Tuple Val} _.

Definition extend_with {Tuple Key Val} `{ord : Ord Key} (relation : Relation (Key * Val)) (key_func : Tuple -> Key) : Leaper Tuple Val := ExtendWith ord relation 0 0 key_func.
Definition extend_anti {Tuple Key Val} `{ord : Ord Key} (relation : Relation (Key * Val)) (key_func : Tuple -> Key) : Leaper Tuple Val := ExtendAnti ord relation key_func.
Definition filter_with {Tuple KV Val} `{ord : Ord KV} (relation : Relation KV) (key_func : Tuple -> KV) : Leaper Tuple Val := FilterWith ord relation key_func.
Definition filter_anti {Tuple KV Val} `{ord : Ord KV} (relation : Relation KV) (key_func : Tuple -> KV) : Leaper Tuple Val := FilterAnti ord relation key_func.

(** Where a key starts in a relation, the slice from there on, and the slice after the key. *)
Definition key_slices {Key Val} `{Ord Key} (relation : Relation (Key * Val)) (key : Key) : nat * list (Key * Val) * list (Key * Val) :=
  let start := binary_search (fun x => lt_b x.1 key) relation in
  let slice1 := drop start relation in
  (start, slice1, gallop (fun x => le_b x.1 key) slice1).

(** [self.relation.binary_search(&key_val).is_ok()]. *)
Definition relation_contains {A} `{Ord A} (relation : Relation A) (x : A) : bool :=
  match binary_search_by (fun y => cmp y x) relation with inl _ => true | inr _ => false end.

Section Leapers.
Context {Tuple Val : Type} `{Ord Val}.

(** [usize::max_value()] stands for "no restriction". *)
Definition leaper_count (l : Leaper Tuple Val) (prefix : Tuple) : Z * Leaper Tuple Val :=
  match l with
  | ExtendWith ord relation _ _ key_func =>
      let '(start, slice1, slice2) := key_slices relation (key_func prefix) in
      (Z.of_nat (length slice1 - length slice2), ExtendWith ord relation start (length relation - length slice2) key_func)
  | ExtendAnti _ _ _ => (u64_max, l)
  | FilterWith _ relation key_func => ((if relation_contains relation (key_func prefix) then u64_max else 0)%Z, l)
  | FilterAnti _ relation key_func => ((if relation_contains relation (key_func prefix) then 0 else u64_max)%Z, l)
  | PrefixFilter predicate => ((if predicate prefix then u64_max else 0)%Z, l)
  | ValueFilter _ => (u64_max, l)
  end.

Definition leaper_propose (l : Leaper Tuple Val) (prefix : Tuple) (values : list Val) : outcome (list Val) :=
  match l with
  | ExtendWith _ relation start end_ _ => let* slice := unwrap (get_range relation start end_) in Ret (values ++ (snd <$> slice))
  | _ => Panic
  end.

(** The stateful [retain]: keep the values found in the slice, or those not found. *)
Fixpoint retain_found {Key} (keep : bool) (slice : list (Key * Val)) (values : list Val) : list Val :=
  match values with
  | [] => []
  | v :: values =>
      let slice := gallop (fun kv => lt_b kv.2 v) slice in
      let rest := retain_found keep slice values in
      let found := match slice with kv :: _ => eq_b kv.2 v | [] => false end in
      if Bool.eqb found keep then v :: rest else rest
  end.

Definition leaper_intersect (l : Leaper Tuple Val) (prefix : Tuple) (values : list Val) : outcome (list Val) :=
  match l with
  | ExtendWith _ relation start end_ _ => let* slice := unwrap (get_range relation start end_) in Ret (retain_found true slice values)
  | ExtendAnti _ relation key_func =>
      let '(_, slice1, slice2) := key_slices relation (key_func prefix) in
      let slice := take (length slice1 - length slice2) slice1 in
      Ret (match slice with [] => values | _ => retain_found false slice values end)
  | FilterWith _ _ _ | FilterAnti _ _ _ | PrefixFilter _ => Ret values
  | ValueFilter predicate => Ret (List.filter (predicate prefix) values)
  end.
End Leapers.

(** [Leapers]: what [leapjoin] needs of a tuple of leapers. *)
Class Leapers (L Tuple Val : Type) := {
  for_each_count : L -> Tuple -> list (nat * Z) * L;
  propose : L -> Tuple -> nat -> list Val -> outcome (list Val);
  intersect : L -> Tuple -> nat -> list Val -> outcome (list Val);
}.

(** [tuple_leapers!], and the implementation for a single [ExtendWith]: a tuple of leapers as a list. *)
Fixpoint counts {Tuple Val} `{Ord Val} (ls : list (Leaper Tuple Val)) (tuple : Tuple) (index : nat) : list (nat * Z) * list (Leaper Tuple Val) :=
  match ls with
  | [] => ([], [])
  | l :: ls =>
      let '(count, l) := leaper_count l tuple in
      let '(rest, ls) := counts ls tuple (S index) in
      ((index, count) :: rest, l :: ls)
  end.

Fixpoint intersect_others {Tuple Val} `{Ord Val} (ls : list (Leaper Tuple Val)) (tuple : Tuple) (index min_index : nat) (values : list Val) : outcome (list Val) :=
  match ls with
  | [] => Ret values
  | l :: ls =>
      let* values := if negb (min_index =? index) then leaper_intersect l tuple values else Ret values in
      intersect_others ls tuple (S index) min_index values
  end.

#[export] Instance tuple_leapers {Tuple Val} `{Ord Val} : Leapers (list (Leaper Tuple Val)) Tuple Val := {|
  for_each_count := fun ls tuple => counts ls tuple 0;
  propose := fun ls tuple min_index values => match ls !! min_index with Some l => leaper_propose l tuple values | None => Panic end;
  intersect := fun ls tuple min_index values => intersect_others ls tuple 0 min_index values;
|}.

(** A single filter, which proposes the value [()]. *)
Record SingleFilter (Tuple : Type) := mkSingleFilter { the_filter : Leaper Tuple unit }.
Arguments mkSingleFilter {Tuple} _.
Arguments the_filter {Tuple} _.

#[export] Instance single_filter {Tuple} : Leapers (SingleFilter Tuple) Tuple unit := {|
  for_each_count := fun l tuple => let '(count, f) := leaper_count (the_filter l) tuple in ([(0, (if count =? 0 then 0 else 1)%Z)], mkSingleFilter f);
  propose := fun _ _ min_index values => let* _ := assert_that (min_index =? 0) in Ret (values ++ [tt]);
  intersect := fun _ _ min_index values => let* _ := assert_that (min_index =? 0) in let* _ := assert_that (length values =? 1) in Ret values;
|}.

(** [if min_count > count { min_count = count; min_index = index; }]. *)
Definition min_leaper (cs : list (nat * Z)) : Z * Z :=
  foldl (fun '(min_count, min_index) '(index, count) => if (count <? min_count)%Z then (count, Z.of_nat index) else (min_count, min_index)) (u64_max, u64_max) cs.

Fixpoint leapjoin_loop {L Tuple Val Result} `{!Leapers L Tuple Val} (source : list Tuple) (leapers : L) (logic : Tuple -> Val -> Result) : outcome (list Result) :=
  match source with
  | [] => Ret []
  | tuple :: source =>
      let '(cs, leapers) := for_each_count leapers tuple in
      let '(min_count, min_index) := min_leaper cs in
      let* _ := assert_that (min_count <? u64_max)%Z in
      let* found :=
        if (0 <? min_count)%Z then
          let* values := propose leapers tuple (Z.to_nat min_index) [] in
          let* values := intersect leapers tuple (Z.to_nat min_index) values in
          Ret (logic tuple <$> values)
        else Ret [] in
      let* rest := leapjoin_loop source leapers logic in
      Ret (found ++ rest)
  end.

Definition leapjoin {L Tuple Val Result} `{!Leapers L Tuple Val} `{Ord Result} (source : list Tuple) (leapers : L) (logic : Tuple -> Val -> Result) : outcome (Relation Result) :=
  let* result := leapjoin_loop source leapers logic in Ret (from_vec result).

Definition from_leapjoin {L Tuple Val Result} `{!Leapers L Tuple Val} `{Ord Result} (out : DVariable Result) (source : DVariable Tuple) (leapers : L) (logic : Tuple -> Val -> Result) : outcome (DVariable Result) :=
  let* r := leapjoin (recent source) leapers logic in Ret (insert out r).

(** The same operations on relations that do not vary. *)
Definition relation_from_map {T2 Tuple} `{Ord Tuple} (input : Relation T2) (logic : T2 -> Tuple) : Relation Tuple := from_vec (logic <$> input).
Definition relation_from_antijoin {Key Val1 Tuple} `{Ord Key, Ord Tuple} (input1 : Relation (Key * Val1)) (input2 : Relation Key) (logic : Key -> Val1 -> Tuple) : Relation Tuple := antijoin input1 input2 logic.
Definition relation_from_leapjoin {L Source Val Tuple} `{!Leapers L Source Val} `{Ord Tuple} (source : Relation Source) (leapers : L) (logic : Source -> Val -> Tuple) : outcome (Relation Tuple) := leapjoin source leapers logic.

(** ** [Iteration]

    [changed] asks every variable, with no short cut; a program lists its variables in the order of their
    creation.  [while iteration.changed() { body }]; the results on the loop show what fuel is enough. *)
Definition any_changed (flags : list bool) : bool := foldl (fun result (flag : bool) => if flag then true else result) false flags.

Fixpoint iterate {St} (fuel : nat) (changed_all : St -> bool * St) (body : St -> outcome St) (st : St) : outcome St :=
  match fuel with
  | O => OutOfFuel
  | S fuel =>
      let '(c, st) := changed_all st in
      if c then let* st := body st in iterate fuel changed_all body st else Ret st
  end.
