(* ===== verification/DatafrogFacts.v ===== *)
(** * The Datalog engine: searches, relations and joins *)
From Stdlib Require Import ZArith Lia Sorted.
From stdpp Require Import base numbers list.
From S2P Require Import Prelude RustSlice Datafrog.
#[local] Open Scope nat_scope.
Open Scope rust_scope.

(** ** Searches, relations and joins

    The galloping and binary searches skip exactly the leading elements that satisfy a predicate closed
    downwards in the order of the slice; sorting, merging and restricting relations are the set
    operations on sorted vectors; the joins pair exactly the tuples with a common key. *)

(** *** Searches *)

Section Search.
Context {A : Type} (p : A -> bool).

(** [p] holds of the first [n] elements of [l] and of no other. *)
Definition splits (l : list A) (n : nat) : Prop := n <= length l /\ forall i x, l !! i = Some x -> p x = (i <? n).

Lemma splits_probe l n i : splits l n -> probe p l i = (i <? n).
Proof.
  intros [Hn Hp]. unfold probe. destruct (l !! i) as [x|] eqn:E; [by apply Hp|]. apply lookup_ge_None in E. symmetry. apply Nat.ltb_ge. lia.
Qed.

Lemma splits_drop l n k : splits l n -> k <= n -> splits (drop k l) (n - k).
Proof.
  intros [Hn Hp] Hk. split; [rewrite length_drop; lia|]. intros i x Hx. rewrite lookup_drop in Hx. rewrite (Hp _ _ Hx). destruct (Nat.ltb_spec (k + i) n), (Nat.ltb_spec i (n - k)); lia || done.
Qed.

Lemma splits_drop_while l n : splits l n -> drop_while p l = drop n l.
Proof.
  revert n. induction l as [|x l IH]; intros n [Hn Hp]; [by rewrite drop_nil|]. pose proof (Hp 0 x eq_refl) as H0. cbn [drop_while]. destruct n as [|n]; [by rewrite H0|].
  rewrite H0. apply IH. split; [cbn in Hn; lia|]. intros i y Hy. exact (Hp (S i) y Hy).
Qed.

Lemma splits_take_while l n : splits l n -> take_while p l = take n l.
Proof.
  intros Hs. pose proof (take_drop_while p l) as Ht. rewrite (splits_drop_while _ _ Hs) in Ht. rewrite <- (take_drop n l) in Ht at 3. by apply app_inv_tail in Ht.
Qed.

(** A predicate closed downwards splits a sorted slice. *)
Lemma splits_sorted (R : A -> A -> Prop) l :
  StronglySorted R l -> (forall x y, R x y -> p y = true -> p x = true) -> splits l (length (take_while p l)).
Proof.
  intros Hs HR. induction Hs as [|x l Hs IH Hx]; [split; [done|]; intros ? ? Hi; by rewrite lookup_nil in Hi|]. cbn [take_while]. destruct (p x) eqn:Ex.
  - destruct IH as [Hn Hp]. split; [cbn; lia|]. intros [|i] y Hy; [by injection Hy as <-|]. cbn in Hy. rewrite (Hp _ _ Hy). done.
  - split; [cbn; lia|]. intros i y Hy. cbn [length]. change (i <? 0) with false. destruct i as [|i]; [by injection Hy as <-|]. cbn in Hy.
    destruct (p y) eqn:Ey; [|done]. rewrite Forall_lookup in Hx. rewrite <- Ex. symmetry. by apply (HR x y (Hx _ _ Hy)).
Qed.

Lemma gallop_up_spec fuel l n k :
  splits l n -> 1 <= n -> n <= fuel -> exists d m, d < n /\ gallop_up fuel p l (2 ^ k) = (drop d l, 2 ^ m) /\ n - d <= 2 ^ m.
Proof.
  revert l n k. induction fuel as [|fuel IH]; intros l n k Hs Hn Hf; [lia|]. cbn [gallop_up]. rewrite (splits_probe _ _ _ Hs). pose proof (Nat.pow_nonzero 2 k ltac:(lia)).
  destruct (Nat.ltb_spec (2 ^ k) n) as [Hk|Hk]; [|exists 0, k; split; [lia|]; rewrite drop_0; split; [done|lia]].
  replace (2 ^ k * 2) with (2 ^ S k) by (cbn; lia).
  destruct (IH (drop (2 ^ k) l) (n - 2 ^ k) (S k)) as (d & m & Hd & -> & Hm); [apply splits_drop; [done|lia]|lia|lia|].
  exists (2 ^ k + d), m. rewrite drop_drop. split_and!; [lia|done|lia].
Qed.

Lemma gallop_down_spec fuel l n s :
  splits l n -> 1 <= n -> s < fuel -> (s = 0 /\ n = 1) \/ (exists k, s = 2 ^ k /\ n <= 2 * 2 ^ k) -> gallop_down fuel p l s = drop (n - 1) l.
Proof.
  revert l n s. induction fuel as [|fuel IH]; intros l n s Hs Hn Hf Hk; [lia|]. cbn [gallop_down]. destruct (Nat.ltb_spec 0 s) as [H0|H0].
  2: { destruct Hk as [[_ ->]|(k & -> & _)]; [by rewrite drop_0|]. pose proof (Nat.pow_nonzero 2 k ltac:(lia)). lia. }
  destruct Hk as [[-> _]|(k & -> & Hk)]; [lia|]. rewrite (splits_probe _ _ _ Hs).
  assert (Hnext : forall n', 1 <= n' -> n' <= 2 ^ k -> (2 ^ k / 2 = 0 /\ n' = 1) \/ (exists k', 2 ^ k / 2 = 2 ^ k' /\ n' <= 2 * 2 ^ k')).
  { intros n' H1 H2. destruct k as [|k]; [left; cbn in *; split; [done|lia]|]. right. exists k. cbn [Nat.pow] in *. rewrite Nat.mul_comm, Nat.div_mul by lia. split; [done|lia]. }
  assert (2 ^ k / 2 < 2 ^ k) by (apply Nat.div_lt; lia).
  destruct (Nat.ltb_spec (2 ^ k) n) as [Hlt|Hge].
  - rewrite (IH (drop (2 ^ k) l) (n - 2 ^ k)); [rewrite drop_drop; f_equal; lia|apply splits_drop; [done|lia]|lia|lia|apply Hnext; lia].
  - apply IH; [done|lia|lia|apply Hnext; lia].
Qed.

Lemma gallop_split l n : splits l n -> gallop p l = drop n l.
Proof.
  intros Hs. unfold gallop. rewrite (splits_probe _ _ _ Hs). destruct (Nat.ltb_spec 0 n) as [H0|H0]; [|replace n with 0 by lia; by rewrite drop_0].
  destruct (gallop_up_spec (length l) l n 0 Hs) as (d & m & Hd & Hup & Hm); [lia|destruct Hs; lia|]. change (2 ^ 0) with 1 in Hup. rewrite Hup.
  rewrite (gallop_down_spec _ _ (n - d)); [rewrite !drop_drop; f_equal; lia|apply splits_drop; [done|lia]|lia| |].
  - pose proof (Nat.pow_nonzero 2 m ltac:(lia)). assert (2 ^ m / 2 < 2 ^ m) by (apply Nat.div_lt; lia). lia.
  - destruct m as [|m]; [left; cbn in *; split; [done|lia]|]. right. exists m. cbn [Nat.pow] in *. rewrite Nat.mul_comm, Nat.div_mul by lia. split; [done|lia].
Qed.

Lemma binary_search_loop_spec fuel l n lo hi : splits l n -> lo <= n -> n <= hi -> hi <= length l -> hi - lo <= fuel -> binary_search_loop fuel p l lo hi = n.
Proof.
  revert lo hi. induction fuel as [|fuel IH]; intros lo hi Hs H1 H2 H3 Hf; cbn [binary_search_loop]; [lia|]. destruct (Nat.ltb_spec lo hi) as [Hlt|Hge]; [|lia].
  rewrite (splits_probe _ _ _ Hs). pose proof (Nat.div_lt (hi - lo) 2 ltac:(lia) ltac:(lia)). destruct (Nat.ltb_spec (lo + (hi - lo) / 2) n); apply IH; lia || done.
Qed.

Lemma binary_search_split l n : splits l n -> binary_search p l = n.
Proof. intros Hs. apply binary_search_loop_spec; [done|lia|apply Hs|done|lia]. Qed.
End Search.

(** *** Relations *)

Section RelationFacts.
Context {A : Type} `{Ord A}.
Implicit Types (l : list A) (x y : A).

Definition ord_le x y : Prop := cmp x y <> Gt.

Lemma le_b_true x y : le_b x y = true <-> ord_le x y.
Proof. unfold le_b, ord_le. destruct (cmp x y); split; congruence. Qed.

Lemma ord_le_lt_eq x y : ord_le x y <-> ord_lt x y \/ x = y.
Proof.
  unfold ord_le, ord_lt. split; [intros Hc; destruct (cmp x y) eqn:E; [right; by apply cmp_eq|by left|done]|intros [Hc| ->]; [by rewrite Hc|by rewrite cmp_refl]].
Qed.

Lemma ord_lt_not_le x y : ~ ord_lt x y <-> ord_le y x.
Proof. unfold ord_le, ord_lt. rewrite (cmp_antisym x y). destruct (cmp x y); cbn; split; congruence. Qed.

Lemma ord_le_lt_trans x y z : ord_le x y -> ord_lt y z -> ord_lt x z.
Proof. rewrite ord_le_lt_eq. intros [Hx| ->] Hy; [by transitivity y|done]. Qed.

Lemma ord_lt_le_trans x y z : ord_lt x y -> ord_le y z -> ord_lt x z.
Proof. rewrite ord_le_lt_eq. intros Hx [Hy| <-]; [by transitivity y|done]. Qed.

#[export] Instance ord_le_trans : Transitive ord_le.
Proof. intros x y z Hx [Hy| <-]%ord_le_lt_eq; [|done]. apply ord_le_lt_eq. left. by apply ord_le_lt_trans with y. Qed.

Lemma lt_b_lt x y : lt_b x y = true <-> ord_lt x y.
Proof. apply lt_b_true. Qed.

Lemma lt_b_ge x y : lt_b x y = false <-> ord_le y x.
Proof. rewrite <- ord_lt_not_le, <- lt_b_lt, not_true_iff_false. done. Qed.

Lemma ord_lt_neq x y : ord_lt x y -> x <> y.
Proof. intros Hl ->. by apply ord_lt_irrefl in Hl. Qed.

Lemma sort_insert_in x l y : y ∈ sort_insert x l <-> y = x \/ y ∈ l.
Proof.
  induction l as [|z l IH]; cbn [sort_insert]; [by rewrite list_elem_of_singleton, elem_of_nil; intuition|]. case_if E; [by rewrite elem_of_cons|]. rewrite !elem_of_cons, IH. intuition.
Qed.

Lemma sort_in l y : y ∈ sort l <-> y ∈ l.
Proof. induction l as [|x l IH]; [done|]. cbn [sort foldr]. rewrite sort_insert_in, elem_of_cons. fold (sort l). by rewrite IH. Qed.

Lemma sort_insert_ordered x l : StronglySorted ord_le l -> StronglySorted ord_le (sort_insert x l).
Proof.
  induction 1 as [|z l Hs IH Hz]; cbn [sort_insert]; [repeat constructor|]. case_if E.
  - apply le_b_true in E. constructor; [by constructor|]. constructor; [done|]. eapply Forall_impl; [exact Hz|]. intros y Hy. by transitivity z.
  - constructor; [done|]. apply Forall_forall. intros y Hy. apply sort_insert_in in Hy as [->|Hy]; [|rewrite Forall_forall in Hz; by apply Hz].
    rewrite lt_b_le_b in E. apply negb_false_iff, lt_b_lt in E. apply ord_le_lt_eq. by left.
Qed.

Lemma sort_sorted l : StronglySorted ord_le (sort l).
Proof. induction l; [constructor|]. by apply sort_insert_ordered. Qed.

Lemma dedup_in l y : y ∈ dedup l <-> y ∈ l.
Proof.
  induction l as [|x l IH]; [done|]. cbn [dedup]. rewrite elem_of_cons, <- IH. destruct (dedup l) as [|z l']; [by rewrite elem_of_cons|]. case_if E; [|by rewrite elem_of_cons].
  apply eq_b_true in E. subst z. rewrite !elem_of_cons. tauto.
Qed.

Lemma dedup_sorted l : StronglySorted ord_le l -> sorted (dedup l).
Proof.
  induction 1 as [|x l Hs IH Hx]; [constructor|]. cbn [dedup]. pose proof (dedup_in l) as Hin. destruct (dedup l) as [|z l']; [repeat constructor|].
  rewrite Forall_forall in Hx. case_if E.
  - apply eq_b_true in E. by subst z.
  - apply sorted_cons; [done|]. assert (Hz : ord_lt x z).
    { assert (Hle : ord_le x z) by (apply Hx, Hin; left). apply ord_le_lt_eq in Hle as [?| ->]; [done|]. assert (eq_b z z = true) by by apply eq_b_true. congruence. }
    intros y [->|Hy]%elem_of_cons; [done|]. transitivity z; [done|]. by apply sorted_cons_inv in IH as [_ ?]; auto.
Qed.

Lemma from_vec_in l x : x ∈ from_vec l <-> x ∈ l.
Proof. unfold from_vec. by rewrite dedup_in, sort_in. Qed.

Lemma from_vec_sorted l : sorted (from_vec l).
Proof. apply dedup_sorted, sort_sorted. Qed.

Lemma sorted_nil : sorted (@nil A).
Proof. constructor. Qed.

Lemma sorted_drop n l : sorted l -> sorted (drop n l).
Proof. intros Hs. rewrite <- (take_drop n l) in Hs. by apply sorted_app in Hs as (_ & ? & _). Qed.

(** What a sorted slice looks like on each side of a bound. *)
Lemma sorted_below l x : sorted l -> splits (fun y => lt_b y x) l (length (take_while (fun y => lt_b y x) l)).
Proof. intros Hs. apply (splits_sorted _ ord_lt); [done|]. intros y z Hyz. rewrite !lt_b_lt. intros Hz. by transitivity z. Qed.

Lemma gallop_drop_while l x : sorted l -> gallop (fun y => lt_b y x) l = drop_while (fun y => lt_b y x) l.
Proof. intros Hs. pose proof (sorted_below l x Hs) as Hd. by rewrite (gallop_split _ _ _ Hd), (splits_drop_while _ _ _ Hd). Qed.

Lemma drop_below_sorted l x : sorted l -> sorted (drop_while (fun y => lt_b y x) l).
Proof. intros Hs. rewrite (splits_drop_while _ _ _ (sorted_below l x Hs)). by apply sorted_drop. Qed.

Lemma drop_below_in l x y : sorted l -> y ∈ drop_while (fun y => lt_b y x) l <-> y ∈ l /\ ord_le x y.
Proof.
  induction l as [|z l IH]; intros Hs; cbn [drop_while]; [rewrite elem_of_nil; tauto|]. apply sorted_cons_inv in Hs as [Hs Hz]. case_if E.
  - rewrite (IH Hs), elem_of_cons. apply lt_b_lt in E. split; [tauto|]. intros [[->|?] Hx]; [|done]. by apply ord_lt_not_le in Hx.
  - apply lt_b_ge in E. split; [|tauto]. intros Hy. split; [done|]. apply elem_of_cons in Hy as [->|Hy]; [done|]. transitivity z; [done|]. apply ord_le_lt_eq. left. by apply Hz.
Qed.

(** The first element that is not below [x] is [x] itself, if [x] is there. *)
Lemma head_found l x : sorted l -> match drop_while (fun y => lt_b y x) l with y :: _ => eq_b y x | [] => false end = true <-> x ∈ l.
Proof.
  intros Hs. assert (Hx : x ∈ drop_while (fun y => lt_b y x) l <-> x ∈ l). { rewrite drop_below_in by done. assert (ord_le x x) by (apply ord_le_lt_eq; by right). tauto. }
  rewrite <- Hx. pose proof (drop_below_sorted l x Hs) as Hss. pose proof (fun y => proj1 (drop_below_in l x y Hs)) as Hge. destruct (drop_while _ l) as [|y s]; [split; [done|]; by intros ?%elem_of_nil|].
  rewrite eq_b_true. split; [intros ->; left|]. intros [->|Hxs]%elem_of_cons; [done|]. exfalso. destruct (Hge y (list_elem_of_here _ _)) as [_ Hle]. apply sorted_cons_inv in Hss as [_ Hlt].
  apply (proj2 (ord_lt_not_le y x) Hle). by apply Hlt.
Qed.

Lemma take_below_in l x y : sorted l -> y ∈ take_while (fun y => lt_b y x) l <-> y ∈ l /\ ord_lt y x.
Proof.
  intros Hs. pose proof (take_drop_while (fun y => lt_b y x) l) as Ht. split.
  - intros Hy. split; [rewrite <- Ht; apply elem_of_app; by left|]. pose proof (take_while_Forall (fun y => lt_b y x) l) as Hf. rewrite Forall_forall in Hf. by apply lt_b_lt, Hf.
  - intros [Hy Hx]. rewrite <- Ht in Hy. apply elem_of_app in Hy as [?|Hy]; [done|]. apply (drop_below_in l x y Hs) in Hy as [_ Hy]. by apply ord_lt_not_le in Hy.
Qed.

Lemma skip_equal_in x l y : sorted l -> (forall z, z ∈ l -> ord_le x z) -> y ∈ skip_equal x l <-> y ∈ l /\ ord_lt x y.
Proof.
  intros Hs Hx. destruct l as [|z l]; cbn [skip_equal]; [rewrite elem_of_nil; tauto|]. apply sorted_cons_inv in Hs as [Hs Hz]. rewrite elem_of_cons. case_if E.
  - apply eq_b_true in E. subst z. split; [auto|]. intros [[->|?] Hy]; [by apply ord_lt_irrefl in Hy|done].
  - rewrite elem_of_cons. assert (Hlt : ord_lt x z). { assert (Hle : ord_le x z) by (apply Hx; left). apply ord_le_lt_eq in Hle as [?| ->]; [done|]. assert (eq_b z z = true) by by apply eq_b_true. congruence. }
    split; [|tauto]. intros [->|Hy]; [tauto|]. split; [by right|]. transitivity z; auto.
Qed.

Lemma skip_equal_sorted x l : sorted l -> sorted (skip_equal x l).
Proof. intros Hs. destruct l as [|z l]; [done|]. cbn [skip_equal]. case_if E; [|done]. by apply sorted_cons_inv in Hs as [? _]. Qed.

Lemma ord_le_or_lt x y : ord_le x y \/ ord_lt y x.
Proof. destruct (lt_b y x) eqn:E; [right; by apply lt_b_lt|left; by apply lt_b_ge]. Qed.

Lemma merge_loop_spec l1 l2 : sorted l1 -> sorted l2 -> sorted (merge_loop l1 l2) /\ forall x, x ∈ merge_loop l1 l2 <-> x ∈ l1 \/ x ∈ l2.
Proof.
  revert l2. induction l1 as [|e l1 IH]; intros l2 H1 H2; cbn [merge_loop]; [split; [done|]; intros x; rewrite elem_of_nil; tauto|]. apply sorted_cons_inv in H1 as [H1 He].
  set (rest := drop_while _ l2). assert (Hr : sorted rest) by by apply drop_below_sorted.
  assert (Hge : forall z, z ∈ rest -> ord_le e z) by (intros z Hz; by apply drop_below_in in Hz as [_ ?]).
  destruct (IH (skip_equal e rest) H1 (skip_equal_sorted _ _ Hr)) as [IHs IHin].
  assert (Hgt : forall y, y ∈ merge_loop l1 (skip_equal e rest) -> ord_lt e y).
  { intros y [?|Hy]%IHin; [by apply He|]. by apply (skip_equal_in _ _ _ Hr Hge) in Hy as [_ ?]. }
  split.
  - apply sorted_app. split; [|split].
    + pose proof (take_drop_while (fun y => lt_b y e) l2) as Ht. rewrite <- Ht in H2. by apply sorted_app in H2 as (? & _).
    + by apply sorted_cons.
    + intros x y Hx Hy. apply take_below_in in Hx as [_ Hx]; [|done]. apply elem_of_cons in Hy as [->|Hy]; [done|]. transitivity e; auto.
  - intros x. rewrite elem_of_app, !elem_of_cons, IHin, (take_below_in l2 e x H2), (skip_equal_in _ _ x Hr Hge). unfold rest. rewrite (drop_below_in l2 e x H2).
    destruct (ord_total x e) as [?|[->|?]]; [tauto|tauto|]. assert (ord_le e x) by (apply ord_le_lt_eq; by left). tauto.
Qed.

Lemma merge_spec l1 l2 : sorted l1 -> sorted l2 -> sorted (merge l1 l2) /\ forall x, x ∈ merge l1 l2 <-> x ∈ l1 \/ x ∈ l2.
Proof.
  assert (Hm : forall a l b l', sorted (a :: l) -> sorted (b :: l') -> ord_le a b ->
    let m := if lt_b (default a (last (a :: l))) b then (a :: l) ++ b :: l' else a :: merge_loop l (skip_equal a (b :: l')) in sorted m /\ forall x, x ∈ m <-> x ∈ a :: l \/ x ∈ b :: l').
  { intros a l b l' H1 H2 Hab m. assert (Hge : forall z, z ∈ b :: l' -> ord_le a z).
    { intros z [->|Hz]%elem_of_cons; [done|]. transitivity b; [done|]. apply ord_le_lt_eq. left. apply sorted_cons_inv in H2 as [_ H2]. by apply H2. }
    unfold m. case_if E.
    - split; [|intros x; by rewrite elem_of_app]. apply sorted_app. split; [done|]. split; [done|]. apply lt_b_lt in E.
      assert (Hl : forall x, x ∈ a :: l -> ord_le x (default a (last (a :: l)))).
      { intros x Hx. destruct (last (a :: l)) as [z|] eqn:El; [|by apply last_None in El]. cbn. apply last_Some in El as [l'' El]. rewrite El in Hx, H1. apply sorted_app in H1 as (_ & _ & H1). apply ord_le_lt_eq.
        apply elem_of_app in Hx as [Hx|Hx]; [left; apply H1; [done|left]|right; by apply list_elem_of_singleton in Hx]. }
      intros x y Hx Hy. apply ord_le_lt_trans with (default a (last (a :: l))); [by apply Hl|]. apply ord_lt_le_trans with b; [done|]. apply ord_le_lt_eq. apply elem_of_cons in Hy as [->|Hy]; [by right|left]. apply sorted_cons_inv in H2 as [_ H2]. by apply H2.
    - apply sorted_cons_inv in H1 as [H1 Ha]. destruct (merge_loop_spec l (skip_equal a (b :: l')) H1 (skip_equal_sorted _ _ H2)) as [Hs Hin]. split.
      + apply sorted_cons; [done|]. intros y [?|Hy]%Hin; [by apply Ha|]. by apply (skip_equal_in _ _ _ H2 Hge) in Hy as [_ ?].
      + intros x. rewrite (elem_of_cons _ x a), Hin, (skip_equal_in _ _ x H2 Hge), (elem_of_cons l x a). split; [tauto|]. intros [?|Hx]; [tauto|]. destruct (proj1 (ord_le_lt_eq a x) (Hge x Hx)) as [?| ->]; tauto. }
  intros H1 H2. destruct l1 as [|a l1]; [split; [done|]; intros x; cbn; rewrite elem_of_nil; tauto|]. destruct l2 as [|b l2]; [split; [done|]; intros x; cbn; rewrite elem_of_nil; tauto|].
  unfold merge. destruct (lt_b b a) eqn:E.
  - apply lt_b_lt in E. destruct (Hm b l2 a l1 H2 H1) as [Hs Hin]; [apply ord_le_lt_eq; by left|]. split; [done|]. intros x. rewrite Hin. tauto.
  - apply lt_b_ge in E. by apply Hm.
Qed.

Lemma merge_all_spec (ls : list (Relation A)) l : sorted l -> Forall sorted ls -> sorted (foldl merge l ls) /\ forall x, x ∈ foldl merge l ls <-> x ∈ l \/ exists b, b ∈ ls /\ x ∈ b.
Proof.
  revert l. induction ls as [|b ls IH]; intros l Hl Hls; cbn [foldl].
  - split; [done|]. intros x. split; [auto|]. intros [?|(b & Hb & _)]; [done|]. by apply elem_of_nil in Hb.
  - inversion_clear Hls as [|? ? Hb Hr]. destruct (merge_spec l b Hl Hb) as [Hs Hin]. destruct (IH _ Hs Hr) as [Hs' Hin']. split; [done|]. intros x. rewrite Hin', Hin. split.
    + intros [[?|?]|(c & Hc & Hx)]; [by left|right; exists b; split; [left|done]|right; exists c; split; [by right|done]].
    + intros [?|(c & [->|Hc]%elem_of_cons & Hx)]; [tauto|tauto|right; eauto].
Qed.

Lemma retain_new_spec slice tuples :
  sorted slice -> sorted tuples ->
  retain_new gallop slice tuples = retain_new drop_while slice tuples /\ sorted (retain_new drop_while slice tuples) /\
  forall x, x ∈ retain_new drop_while slice tuples <-> x ∈ tuples /\ x ∉ slice.
Proof.
  revert slice. induction tuples as [|x l IH]; intros slice Hs Ht; cbn [retain_new]; [split; [done|]; split; [done|]; intros x; rewrite elem_of_nil; tauto|].
  rewrite gallop_drop_while by done. apply sorted_cons_inv in Ht as [Ht Hx]. set (s := drop_while _ slice). assert (Hss : sorted s) by by apply drop_below_sorted.
  destruct (IH s Hss Ht) as (Heq & Hso & Hin). rewrite Heq.
  assert (Hmem : forall y, y = x \/ y ∈ l -> y ∈ s <-> y ∈ slice).
  { intros y Hy. unfold s. rewrite drop_below_in by done. split; [tauto|]. intros Hys. split; [done|]. apply ord_le_lt_eq. destruct Hy as [->|Hy]; [by right|left; by apply Hx]. }
  pose proof (head_found slice x Hs) as Hfound. fold s in Hfound.
  assert (Hl : forall y, y ∈ l /\ y ∉ s <-> y ∈ l /\ y ∉ slice) by (intros y; split; intros [Hy Hn]; split; try done; intros Hz; apply Hn; by apply (Hmem y (or_intror Hy))).
  assert (Hkeep : x ∉ slice -> sorted (x :: retain_new drop_while s l) /\ forall y, y ∈ x :: retain_new drop_while s l <-> y ∈ x :: l /\ y ∉ slice).
  { intros Hn. split; [apply sorted_cons; [done|]; intros y [Hy _]%Hin; by apply Hx|]. intros y. rewrite !elem_of_cons, Hin, Hl. intuition congruence. }
  assert (Hdrop : x ∈ slice -> sorted (retain_new drop_while s l) /\ forall y, y ∈ retain_new drop_while s l <-> y ∈ x :: l /\ y ∉ slice).
  { intros Hn. split; [done|]. intros y. rewrite elem_of_cons, Hin, Hl. intuition congruence. }
  split; [done|]. destruct s as [|y s']; [apply Hkeep; rewrite <- Hfound; done|]. destruct (eq_b y x) eqn:E; [apply Hdrop; by rewrite <- Hfound|apply Hkeep; rewrite <- Hfound; congruence].
Qed.

Lemma restrict_spec tuples batch : sorted tuples -> sorted batch -> sorted (restrict tuples batch) /\ forall x, x ∈ restrict tuples batch <-> x ∈ tuples /\ x ∉ batch.
Proof. intros Ht Hb. destruct (retain_new_spec batch tuples Hb Ht) as (Heq & Hs & Hin). unfold restrict. case_if E; [rewrite Heq|]; done. Qed.

Lemma restrict_all_spec (batches : list (Relation A)) tuples : sorted tuples -> Forall sorted batches -> sorted (foldl restrict tuples batches) /\ forall x, x ∈ foldl restrict tuples batches <-> x ∈ tuples /\ ~ exists b, b ∈ batches /\ x ∈ b.
Proof.
  revert tuples. induction batches as [|b bs IH]; intros l Hl Hbs; cbn [foldl].
  - split; [done|]. intros x. split; [|tauto]. intros Hx. split; [done|]. intros (b & Hb & _). by apply elem_of_nil in Hb.
  - inversion_clear Hbs as [|? ? Hb Hr]. destruct (restrict_spec l b Hl Hb) as [Hs Hin]. destruct (IH _ Hs Hr) as [Hs' Hin']. split; [done|]. intros x. rewrite Hin', Hin. split.
    + intros [[Hx Hn] Hm]. split; [done|]. intros (c & [->|Hc]%elem_of_cons & Hxc); [done|]. apply Hm. eauto.
    + intros [Hx Hn]. split; [split; [done|]; intros Hxb; apply Hn; exists b; split; [left|done]|]. intros (c & Hc & Hxc). apply Hn. exists c. split; [by right|done].
Qed.
End RelationFacts.
#[export] Hint Resolve from_vec_sorted sorted_nil : rust.

(** ** Joins and leapers

    [join_helper] finds exactly the pairs of tuples with a common key, [antijoin] the tuples whose key is
    absent, and a leapjoin the values that every leaper accepts. *)

(** *** Slices in the order of their keys *)

Section Keyed.
Context {Key Val : Type} `{Ord Key}.
Implicit Types (l : list (Key * Val)) (k : Key).

Definition key_sorted l : Prop := StronglySorted (fun x y => ord_le x.1 y.1) l.

Lemma sorted_key_sorted `{Ord Val} l : sorted l -> key_sorted l.
Proof.
  induction 1 as [|[k v] l _ IH Hx]; constructor; [done|]. eapply Forall_impl; [exact Hx|]. intros [k' v']. unfold ord_lt, ord_le. cbn. unfold pair_cmp. cbn. destruct (cmp k k'); congruence.
Qed.

Lemma key_sorted_drop n l : key_sorted l -> key_sorted (drop n l).
Proof. intros Hs. rewrite <- (take_drop n l) in Hs. by apply StronglySorted_app_iff in Hs as (_ & ? & _). Qed.

Lemma key_sorted_head k v l x : key_sorted ((k, v) :: l) -> x ∈ (k, v) :: l -> ord_le k x.1.
Proof.
  intros [_ Hx]%StronglySorted_inv. rewrite Forall_forall in Hx. intros [->|Hin]%elem_of_cons; [|by apply Hx]. cbn. apply ord_le_lt_eq. by right.
Qed.

(** Skipping the keys below a bound, or up to it, skips exactly those. *)
Lemma below_splits l k : key_sorted l -> splits (fun x => lt_b x.1 k) l (length (take_while (fun x => lt_b x.1 k) l)).
Proof. intros Hs. apply (splits_sorted _ _ _ Hs). intros x y Hxy. rewrite !lt_b_lt. intros Hy. by apply ord_le_lt_trans with y.1. Qed.

Lemma upto_splits l k : key_sorted l -> splits (fun x => le_b x.1 k) l (length (take_while (fun x => le_b x.1 k) l)).
Proof. intros Hs. apply (splits_sorted _ _ _ Hs). intros x y Hxy. rewrite !le_b_true. intros Hy. by transitivity y.1. Qed.

Lemma equal_splits l k v : key_sorted ((k, v) :: l) -> splits (fun x => eq_b x.1 k) ((k, v) :: l) (length (take_while (fun x => eq_b x.1 k) ((k, v) :: l))).
Proof.
  intros Hs. pose proof (upto_splits _ k Hs) as Hu. assert (Hext : forall x, x ∈ (k, v) :: l -> eq_b x.1 k = le_b x.1 k).
  { intros x Hx. pose proof (key_sorted_head _ _ _ _ Hs Hx) as Hle. destruct (le_b x.1 k) eqn:E.
    - apply le_b_true, ord_le_lt_eq in E as [E|E]; [by apply ord_lt_not_le in Hle|by apply eq_b_true].
    - destruct (eq_b x.1 k) eqn:E'; [|done]. apply eq_b_true in E'. rewrite E' in E. assert (le_b k k = true) by (apply le_b_true, ord_le_lt_eq; by right). congruence. }
  assert (Ht : take_while (fun x => eq_b x.1 k) ((k, v) :: l) = take_while (fun x => le_b x.1 k) ((k, v) :: l)).
  { revert Hext. generalize ((k, v) :: l). induction l0 as [|x l0 IH]; intros He; [done|]. cbn [take_while]. rewrite (He x (list_elem_of_here _ _)). case_if E; [|done]. f_equal. apply IH. intros y Hy. apply He. by right. }
  rewrite Ht. destruct Hu as [Hn Hp]. split; [done|]. intros i x Hx. rewrite (Hext x (list_elem_of_lookup_2 _ _ _ Hx)). by apply Hp.
Qed.

Lemma gallop_below l k : key_sorted l -> gallop (fun x => lt_b x.1 k) l = drop_while (fun x => lt_b x.1 k) l.
Proof. intros Hs. pose proof (below_splits l k Hs) as Hd. by rewrite (gallop_split _ _ _ Hd), (splits_drop_while _ _ _ Hd). Qed.

Lemma below_in l k x : key_sorted l -> x ∈ drop_while (fun x => lt_b x.1 k) l <-> x ∈ l /\ ord_le k x.1.
Proof.
  induction l as [|z l IH]; intros Hs; cbn [drop_while]; [rewrite elem_of_nil; tauto|]. pose proof Hs as [Hs' Hz]%StronglySorted_inv. case_if E.
  - rewrite (IH Hs'), elem_of_cons. apply lt_b_lt in E. split; [tauto|]. intros [[->|?] Hx]; [|done]. by apply ord_lt_not_le in Hx.
  - apply lt_b_ge in E. split; [|tauto]. intros Hx. split; [done|]. destruct z as [kz vz]. transitivity kz; [done|]. by apply (key_sorted_head kz vz l).
Qed.

(** The part of a slice that has the key of its first tuple, and the rest. *)
Lemma equal_run k v l : key_sorted ((k, v) :: l) ->
  let n := length (take_while (fun x => eq_b x.1 k) ((k, v) :: l)) in
  1 <= n /\ (forall x, x ∈ take n ((k, v) :: l) <-> x ∈ (k, v) :: l /\ x.1 = k) /\ (forall x, x ∈ drop n ((k, v) :: l) <-> x ∈ (k, v) :: l /\ ord_lt k x.1).
Proof.
  intros Hs n. pose proof (equal_splits _ _ _ Hs) as Hd. fold n in Hd. set (l' := (k, v) :: l) in *. pose proof (key_sorted_head k v l) as Hhd. fold l' in Hhd.
  assert (Htake : forall x, x ∈ take n l' -> x.1 = k).
  { intros x Hx. rewrite <- (splits_take_while _ _ _ Hd) in Hx. pose proof (take_while_Forall (fun x => eq_b x.1 k) l') as Hf. rewrite Forall_forall in Hf. by apply eq_b_true, Hf. }
  assert (Hdrop : forall x, x ∈ drop n l' -> ord_lt k x.1).
  { intros x Hx. assert (Hin : x ∈ l') by (rewrite <- (take_drop n l'); apply elem_of_app; by right). destruct (proj1 (ord_le_lt_eq _ _) (Hhd x Hs Hin)) as [?|Heq]; [done|]. exfalso.
    apply list_elem_of_lookup_1 in Hx as [i Hi]. rewrite lookup_drop in Hi. destruct Hd as [_ Hp]. specialize (Hp _ _ Hi). destruct (Nat.ltb_spec (n + i) n); [lia|]. rewrite <- Heq in Hp. assert (eq_b k k = true) by by apply eq_b_true. congruence. }
  split; [|split].
  - unfold n, l'. cbn [take_while fst]. assert (eq_b k k = true) as -> by by apply eq_b_true. cbn. lia.
  - intros x. split; [intros Hx; split; [|by apply Htake]; rewrite <- (take_drop n l'); apply elem_of_app; by left|]. intros [Hx Hk]. rewrite <- (take_drop n l') in Hx. apply elem_of_app in Hx as [?|Hx]; [done|].
    apply Hdrop in Hx. rewrite Hk in Hx. by apply ord_lt_irrefl in Hx.
  - intros x. split; [intros Hx; split; [|by apply Hdrop]; rewrite <- (take_drop n l'); apply elem_of_app; by right|]. intros [Hx Hk]. rewrite <- (take_drop n l') in Hx. apply elem_of_app in Hx as [Hx|?]; [|done].
    apply Htake in Hx. rewrite Hx in Hk. by apply ord_lt_irrefl in Hk.
Qed.
End Keyed.

(** *** Joins *)

Section JoinFacts.
Context {Key Val1 Val2 Result : Type} `{Ord Key}.

(** The results of a join: one for each pair of tuples with a common key. *)
Definition joined (logic : Key -> Val1 -> Val2 -> Result) (P1 : Key * Val1 -> Prop) (P2 : Key * Val2 -> Prop) (r : Result) : Prop :=
  exists k v1 v2, P1 (k, v1) /\ P2 (k, v2) /\ r = logic k v1 v2.

Lemma joined_iff logic (P1 Q1 : Key * Val1 -> Prop) (P2 Q2 : Key * Val2 -> Prop) r :
  (forall k v1 v2, P1 (k, v1) /\ P2 (k, v2) <-> Q1 (k, v1) /\ Q2 (k, v2)) -> joined logic P1 P2 r <-> joined logic Q1 Q2 r.
Proof. intros HE. unfold joined. split; intros (k & v1 & v2 & H1 & H2 & ->); exists k, v1, v2; [destruct (proj1 (HE k v1 v2) (conj H1 H2))|destruct (proj2 (HE k v1 v2) (conj H1 H2))]; auto. Qed.

Lemma length_gallop_below {Val} (l : list (Key * Val)) k : key_sorted l -> length (gallop (fun x => lt_b x.1 k) l) <= length l - (match l with x :: _ => if lt_b x.1 k then 1 else 0 | [] => 0 end).
Proof.
  intros Hs. rewrite gallop_below by done. rewrite (splits_drop_while _ _ _ (below_splits l k Hs)), length_drop. destruct l as [|x l]; [cbn; lia|]. cbn [take_while]. destruct (lt_b x.1 k); cbn [length]; lia.
Qed.

Lemma key_sorted_gallop {Val} (l : list (Key * Val)) k : key_sorted l -> key_sorted (gallop (fun x => lt_b x.1 k) l).
Proof. intros Hs. rewrite gallop_below, (splits_drop_while _ _ _ (below_splits l k Hs)) by done. by apply key_sorted_drop. Qed.

Lemma gallop_in {Val} (l : list (Key * Val)) k x : key_sorted l -> x ∈ gallop (fun x => lt_b x.1 k) l <-> x ∈ l /\ ord_le k x.1.
Proof. intros Hs. rewrite gallop_below by done. by apply below_in. Qed.

Lemma join_helper_spec fuel (l1 : list (Key * Val1)) (l2 : list (Key * Val2)) logic (r : Result) : key_sorted l1 -> key_sorted l2 -> length l1 + length l2 <= fuel ->
  r ∈ join_helper fuel l1 l2 logic <-> joined logic (fun x => x ∈ l1) (fun x => x ∈ l2) r.
Proof.
  revert l1 l2. induction fuel as [|fuel IH]; intros l1 l2 H1 H2 Hf.
  { destruct l1 as [|a l1]; [|cbn in Hf; lia]. cbn. rewrite elem_of_nil. split; [done|]. by intros (k & v1 & v2 & ?%elem_of_nil & _). }
  destruct l1 as [|[k1 v1] l1]; [cbn; rewrite elem_of_nil; split; [done|]; by intros (k & w1 & w2 & ?%elem_of_nil & _)|].
  destruct l2 as [|[k2 v2] l2]; [cbn; rewrite elem_of_nil; split; [done|]; by intros (k & w1 & w2 & _ & ?%elem_of_nil & _)|].
  pose proof (fun x => key_sorted_head k1 v1 l1 x H1) as Hh1. pose proof (fun x => key_sorted_head k2 v2 l2 x H2) as Hh2. cbn [join_helper].
  set (s1 := (k1, v1) :: l1) in *. set (s2 := (k2, v2) :: l2) in *. destruct (cmp k1 k2) eqn:Ek.
  - apply cmp_eq in Ek. subst k2. destruct (equal_run _ _ _ H1) as (Hn1 & Ht1 & Hd1). destruct (equal_run _ _ _ H2) as (Hn2 & Ht2 & Hd2). fold s1 in Hn1, Ht1, Hd1. fold s2 in Hn2, Ht2, Hd2.
    set (n1 := length _) in *. set (n2 := length _) in Hn2, Ht2, Hd2 |- *.
    rewrite elem_of_app, IH; [|by apply key_sorted_drop|by apply key_sorted_drop|rewrite !length_drop; lia]. split.
    + intros [Hr|(k & w1 & w2 & Hx & Hy & ->)]; [|exists k, w1, w2; by apply Hd1 in Hx as [? _]; apply Hd2 in Hy as [? _]].
      apply list_elem_of_In, in_flat_map in Hr as ([k w1] & Hx%list_elem_of_In & Hr%list_elem_of_In). apply Ht1 in Hx as [Hx Hk]. cbn in Hk. subst k.
      apply list_elem_of_fmap in Hr as ([k w2] & -> & Hy). apply Ht2 in Hy as [Hy Hk]. cbn in Hk. subst k. by exists k1, w1, w2.
    + intros (k & w1 & w2 & Hx & Hy & ->). destruct (proj1 (ord_le_lt_eq _ _) (Hh1 _ Hx)) as [Hlt|Heq]; cbn in *.
      * right. exists k, w1, w2. split; [by apply Hd1|]. split; [by apply Hd2|done].
      * subst k. left. apply list_elem_of_In, in_flat_map. exists (k1, w1). split; [by apply list_elem_of_In, Ht1|]. apply list_elem_of_In, list_elem_of_fmap. exists (k1, w2). split; [done|]. by apply Ht2.
  - rewrite IH; [|by apply key_sorted_gallop|done|]. 2: { pose proof (length_gallop_below s1 k2 H1) as Hl. cbn [s1 fst] in Hl. rewrite (proj2 (lt_b_lt k1 k2) Ek) in Hl. unfold s1 in *. cbn [length] in *. lia. }
    apply joined_iff. intros k w1 w2. rewrite (gallop_in s1 k2 _ H1). cbn. split; [tauto|]. intros [Hx Hy]. pose proof (Hh2 _ Hy). tauto.
  - apply cmp_gt_lt in Ek. rewrite IH; [|done|by apply key_sorted_gallop|]. 2: { pose proof (length_gallop_below s2 k1 H2) as Hl. cbn [s2 fst] in Hl. rewrite (proj2 (lt_b_lt k2 k1) Ek) in Hl. unfold s2 in *. cbn [length] in *. lia. }
    apply joined_iff. intros k w1 w2. rewrite (gallop_in s2 k1 _ H2). cbn. split; [tauto|]. intros [Hx Hy]. pose proof (Hh1 _ Hx). tauto.
Qed.

Lemma join_slices_spec `{Ord Val1, Ord Val2} (l1 : list (Key * Val1)) (l2 : list (Key * Val2)) logic (r : Result) : sorted l1 -> sorted l2 -> r ∈ join_slices l1 l2 logic <-> joined logic (fun x => x ∈ l1) (fun x => x ∈ l2) r.
Proof. intros Hl1 Hl2. by apply join_helper_spec; [apply sorted_key_sorted|apply sorted_key_sorted|]. Qed.
End JoinFacts.

Section AntijoinFacts.
Context {Key Val Result : Type} `{Ord Key}.

Lemma antijoin_loop_spec (l : list (Key * Val)) tuples2 (logic : Key -> Val -> Result) r : key_sorted l -> sorted tuples2 ->
  r ∈ antijoin_loop l tuples2 logic <-> exists k v, (k, v) ∈ l /\ k ∉ tuples2 /\ r = logic k v.
Proof.
  revert tuples2. induction l as [|[k v] l IH]; intros t Hl Ht; cbn [antijoin_loop]; [rewrite elem_of_nil; split; [done|]; by intros (k & v & ?%elem_of_nil & _)|].
  rewrite gallop_drop_while by done. set (t' := drop_while _ t). assert (Ht' : sorted t') by by apply drop_below_sorted.
  assert (Hm : forall k' v', (k', v') ∈ (k, v) :: l -> k' ∈ t' <-> k' ∈ t).
  { intros k' v' Hin. unfold t'. rewrite drop_below_in by done. pose proof (key_sorted_head _ _ _ _ Hl Hin). tauto. }
  pose proof Hl as [Hl' _]%StronglySorted_inv. specialize (IH t' Hl' Ht').
  assert (Hrest : r ∈ antijoin_loop l t' logic <-> exists k' v', (k', v') ∈ l /\ k' ∉ t /\ r = logic k' v').
  { rewrite IH. split; intros (k' & v' & Hin & Hn & ->); exists k', v'; (split; [done|]; split; [|done]); by rewrite (Hm k' v' (list_elem_of_further _ _ _ Hin)) in *. }
  pose proof (head_found t k Ht) as Hfound. fold t' in Hfound.
  assert (Hkeep : k ∉ t -> r ∈ logic k v :: antijoin_loop l t' logic <-> exists k' v', (k', v') ∈ (k, v) :: l /\ k' ∉ t /\ r = logic k' v').
  { intros Hn. rewrite elem_of_cons, Hrest. split.
    - intros [->|(k' & v' & ? & ? & ->)]; [exists k, v; split; [left|done]|exists k', v'; split; [by right|done]].
    - intros (k' & v' & [[= -> ->]|?]%elem_of_cons & ? & ->); [by left|right; eauto]. }
  assert (Hdrop : k ∈ t -> r ∈ antijoin_loop l t' logic <-> exists k' v', (k', v') ∈ (k, v) :: l /\ k' ∉ t /\ r = logic k' v').
  { intros Hn. rewrite Hrest. split; [intros (k' & v' & ? & ? & ->); exists k', v'; split; [by right|done]|]. intros (k' & v' & [[= -> ->]|?]%elem_of_cons & ? & ->); [done|eauto]. }
  destruct t' as [|y s']; [apply Hkeep; rewrite <- Hfound; done|]. destruct (eq_b y k) eqn:E; [apply Hdrop; by rewrite <- Hfound|apply Hkeep; rewrite <- Hfound; congruence].
Qed.
End AntijoinFacts.
