(* ===== verification/DatafrogLeap.v ===== *)
(** * The Datalog engine: leapers

    What each leaper accepts, and the law that [leapjoin] needs of a tuple of leapers ([LeapersLaws]):
    the leaper with the smallest count proposes, the others narrow, and what remains is what all of them
    accept.  [leapjoin] is proved against the interface; tuples of leapers and single filters implement it. *)
From Stdlib Require Import ZArith Lia Sorted.
From stdpp Require Import base numbers list.
From S2P Require Import Prelude RustSlice Datafrog DatafrogFacts.
#[local] Open Scope nat_scope.
Open Scope rust_scope.

(** A vector holds fewer than [usize::MAX] elements. *)
Definition fits {A} (l : list A) : Prop := (Z.of_nat (length l) < u64_max)%Z.

(** ** The tuples of a key *)

Section KeyRun.
Context {Key Val : Type} `{Ord Key, Ord Val}.
Implicit Types (relation : Relation (Key * Val)) (key : Key).

Definition key_run relation key : list (Key * Val) :=
  let '(_, slice1, slice2) := key_slices relation key in take (length slice1 - length slice2) slice1.

Lemma key_slices_eq relation key : sorted relation ->
  exists m, key_slices relation key = (length (take_while (fun x => lt_b x.1 key) relation), drop_while (fun x => lt_b x.1 key) relation, drop m (drop_while (fun x => lt_b x.1 key) relation)) /\
  splits (fun x => le_b x.1 key) (drop_while (fun x => lt_b x.1 key) relation) m.
Proof.
  intros Hs. apply sorted_key_sorted in Hs. pose proof (below_splits relation key Hs) as Hb. unfold key_slices. rewrite (binary_search_split _ _ _ Hb), (splits_drop_while _ _ _ Hb).
  pose proof (upto_splits _ key (key_sorted_drop (length (take_while (fun x => lt_b x.1 key) relation)) _ Hs)) as Hu. eexists. split; [|exact Hu]. by rewrite (gallop_split _ _ _ Hu).
Qed.

Lemma key_run_in relation key x : sorted relation -> x ∈ key_run relation key <-> x ∈ relation /\ x.1 = key.
Proof.
  intros Hs. destruct (key_slices_eq relation key Hs) as (m & Hk & Hm). unfold key_run. rewrite Hk. set (s := drop_while _ relation) in *.
  rewrite length_drop. replace (length s - (length s - m)) with m by (destruct Hm; lia). apply sorted_key_sorted in Hs. pose proof (below_in relation key x Hs) as Hin. fold s in Hin. destruct Hm as [Hlen Hp]. split.
  - intros [i Hi]%list_elem_of_lookup_1. assert (i < m) by (apply lookup_lt_Some in Hi; rewrite length_take in Hi; lia). rewrite lookup_take_lt in Hi by done. destruct (proj1 Hin (list_elem_of_lookup_2 _ _ _ Hi)) as [Hx Hge].
    split; [done|]. specialize (Hp _ _ Hi). rewrite (proj2 (Nat.ltb_lt i m)) in Hp by done. apply le_b_true, ord_le_lt_eq in Hp as [Hp|Hp]; [by apply ord_lt_not_le in Hge|done].
  - intros [Hx Hk']. assert (Hge : ord_le key x.1) by (apply ord_le_lt_eq; by right). destruct (list_elem_of_lookup_1 _ _ (proj2 Hin (conj Hx Hge))) as [i Hi]. specialize (Hp _ _ Hi).
    assert (Hle : le_b x.1 key = true) by (apply le_b_true, ord_le_lt_eq; by right). rewrite Hle in Hp. symmetry in Hp. apply Nat.ltb_lt in Hp. apply list_elem_of_lookup_2 with i. by rewrite lookup_take_lt.
Qed.

Lemma key_run_sorted relation key : sorted relation -> sorted (snd <$> key_run relation key).
Proof.
  intros Hs. assert (Hr : sorted (key_run relation key)).
  { destruct (key_slices_eq relation key Hs) as (m & Hk & _). unfold key_run. rewrite Hk. pose proof (below_splits relation key (sorted_key_sorted _ Hs)) as Hb. rewrite (splits_drop_while _ _ _ Hb).
    apply (sorted_drop (length (take_while (fun x => lt_b x.1 key) relation))) in Hs. set (s := drop _ relation) in *. set (k := length s - _). rewrite <- (take_drop k s) in Hs. by apply sorted_app in Hs as (? & _). }
  assert (Hkey : forall x, x ∈ key_run relation key -> x.1 = key) by (intros x Hx; by apply key_run_in in Hx as [_ ?]).
  revert Hr Hkey. generalize (key_run relation key). intros l Hl. induction l as [|[k v] l IH]; intros Hkey; [constructor|]. apply sorted_cons_inv in Hl as [Hl Hv]. apply sorted_cons; [apply IH; [done|]; intros x Hx; apply Hkey; by right|].
  intros w ([k' w'] & -> & Hw)%list_elem_of_fmap. cbn. specialize (Hv _ Hw). pose proof (Hkey _ (list_elem_of_here _ _)) as Hk1. pose proof (Hkey _ (list_elem_of_further _ _ _ Hw)) as Hk2. cbn in Hk1, Hk2. subst k k'.
  unfold ord_lt in Hv |- *. cbn in Hv. unfold pair_cmp in Hv. cbn in Hv. by rewrite cmp_refl in Hv.
Qed.

Lemma key_run_range relation key : sorted relation ->
  let '(start, slice1, slice2) := key_slices relation key in
  get_range relation start (length relation - length slice2) = Some (key_run relation key) /\ length slice1 - length slice2 = length (key_run relation key) /\ length (key_run relation key) <= length relation.
Proof.
  intros Hs. unfold key_run. destruct (key_slices_eq relation key Hs) as (m & Hk & Hm & _). rewrite Hk. pose proof (below_splits relation key (sorted_key_sorted _ Hs)) as Hb. rewrite (splits_drop_while _ _ _ Hb) in *. set (n := length _) in *.
  rewrite !length_drop in Hm. destruct Hb as [Hn _]. rewrite length_take, !length_drop. split; [|lia].
  replace (length relation - n - (length relation - n - m)) with m by lia. replace (length relation - (length relation - n - m)) with (n + m) by lia. unfold get_range.
  destruct (Nat.leb_spec n (n + m)); [|lia]. destruct (Nat.leb_spec (n + m) (length relation)); [|lia]. cbn [andb]. by replace (n + m - n) with m by lia.
Qed.

Lemma retain_found_spec {K} keep (slice : list (K * Val)) values : sorted (snd <$> slice) -> sorted values ->
  sorted (retain_found keep slice values) /\ forall v, v ∈ retain_found keep slice values <-> v ∈ values /\ (v ∈ snd <$> slice <-> keep = true).
Proof.
  revert slice. induction values as [|v values IH]; intros slice Hs Hv; cbn [retain_found]; [split; [done|]; intros v; rewrite elem_of_nil; tauto|]. apply sorted_cons_inv in Hv as [Hv Hlt].
  assert (Hg : gallop (fun kv => lt_b kv.2 v) slice = drop_while (fun kv => lt_b kv.2 v) slice).
  { assert (Hd : splits (fun kv => lt_b kv.2 v) slice (length (take_while (fun kv => lt_b kv.2 v) slice))).
    { apply (splits_sorted _ (fun x y => ord_lt x.2 y.2)); [|intros x y Hxy; rewrite !lt_b_lt; intros; by transitivity y.2]. clear -Hs. induction slice as [|x l IH]; [constructor|]. apply sorted_cons_inv in Hs as [Hs Hx]. constructor; [by apply IH|].
      apply Forall_forall. intros y Hy. apply Hx, list_elem_of_fmap. by exists y. }
    by rewrite (gallop_split _ _ _ Hd), (splits_drop_while _ _ _ Hd). }
  rewrite Hg. set (s := drop_while _ slice).
  assert (Hmap : snd <$> s = drop_while (fun y => lt_b y v) (snd <$> slice)).
  { unfold s. clear. induction slice as [|x l IH]; [done|]. cbn. by destruct (lt_b x.2 v). }
  destruct (IH s) as [IHs IHin]; [rewrite Hmap; by apply drop_below_sorted|done|].
  assert (Hm : forall w, w ∈ values -> w ∈ snd <$> s <-> w ∈ snd <$> slice).
  { intros w Hw. rewrite Hmap, drop_below_in by done. assert (ord_le v w) by (apply ord_le_lt_eq; left; by apply Hlt). tauto. }
  set (found := match s with kv :: _ => eq_b kv.2 v | [] => false end).
  assert (Hf : found = true <-> v ∈ snd <$> slice).
  { rewrite <- (head_found _ v Hs), <- Hmap. unfold found. by destruct s. }
  assert (Hrest : forall w, w ∈ retain_found keep s values <-> w ∈ values /\ (w ∈ snd <$> slice <-> keep = true)).
  { intros w. rewrite IHin. split; intros [Hw Hk]; (split; [done|]); by rewrite (Hm w Hw) in *. }
  destruct (Bool.eqb found keep) eqn:E.
  - apply eqb_prop in E. split; [apply sorted_cons; [done|]; intros w [Hw _]%Hrest; by apply Hlt|]. intros w. rewrite !elem_of_cons, Hrest. subst keep. split; [intros [->|?]; [|tauto]|tauto]. rewrite Hf. tauto.
  - apply eqb_false_iff in E. split; [done|]. intros w. rewrite Hrest, elem_of_cons. split; [tauto|]. intros [[->|?] Hk]; [|tauto]. exfalso. apply E. rewrite <- Hf in Hk. destruct found, keep; intuition congruence.
Qed.
End KeyRun.

Lemma relation_contains_spec {A} `{Ord A} (relation : Relation A) x : sorted relation -> relation_contains relation x = true <-> x ∈ relation.
Proof.
  intros Hs. unfold relation_contains. assert (Ho : ordered (fun y => cmp y x) relation).
  { intros i j y z Hij Hy Hz. assert (Hlt : ord_lt y z).
    { revert i j Hij Hy Hz. induction Hs as [|a l _ IH Ha]; intros i j Hij Hy Hz; [by rewrite lookup_nil in Hy|]. destruct j as [|j]; [lia|]. cbn in Hz. destruct i as [|i]; cbn in Hy; [|apply (IH i j); auto; lia].
      injection Hy as <-. rewrite Forall_lookup in Ha. by apply (Ha j). }
    destruct (cmp y x) eqn:Ey; cbn; [|lia|].
    - apply cmp_eq in Ey. subst y. apply cmp_gt_lt in Hlt. rewrite Hlt. cbn. lia.
    - apply cmp_gt_lt in Ey. assert (Hz' : cmp z x = Gt) by (apply cmp_gt_lt; by apply cmp_trans with y). by rewrite Hz'. }
  pose proof (binary_search_by_spec _ _ Ho) as Hb. destruct (binary_search_by _ relation) as [i|i].
  - destruct Hb as (y & Hy & ->%cmp_eq). split; [|done]. intros _. by apply list_elem_of_lookup_2 with i.
  - destruct Hb as (_ & H1 & H2). split; [done|]. intros [j Hj]%list_elem_of_lookup_1. pose proof (cmp_refl x) as Hr. destruct (decide (j < i)); [rewrite (H1 j x) in Hr|rewrite (H2 j x) in Hr]; done || lia.
Qed.

(** ** What a leaper accepts *)

Section LeaperFacts.
Context {Tuple Val : Type} `{Ord Val}.
Implicit Types (l : Leaper Tuple Val) (t : Tuple) (v : Val).

Definition accepts l t v : Prop :=
  match l with
  | ExtendWith _ relation _ _ key_func => (key_func t, v) ∈ relation
  | ExtendAnti _ relation key_func => (key_func t, v) ∉ relation
  | FilterWith _ relation key_func => key_func t ∈ relation
  | FilterAnti _ relation key_func => key_func t ∉ relation
  | PrefixFilter predicate => predicate t = true
  | ValueFilter predicate => predicate t v = true
  end.

Definition leaper_ok l : Prop :=
  match l with
  | ExtendWith _ relation _ _ _ => sorted relation /\ fits relation
  | ExtendAnti _ relation _ => sorted relation
  | FilterWith _ relation _ | FilterAnti _ relation _ => sorted relation
  | PrefixFilter _ | ValueFilter _ => True
  end.

Definition is_extend_with l : bool := match l with ExtendWith _ _ _ _ _ => true | _ => false end.

(** A leaper that does not propose only looks at the tuple: it lets it pass or not. *)
Definition admits l t : Prop :=
  match l with
  | FilterWith _ relation key_func => key_func t ∈ relation
  | FilterAnti _ relation key_func => key_func t ∉ relation
  | PrefixFilter predicate => predicate t = true
  | ExtendWith _ _ _ _ _ | ExtendAnti _ _ _ | ValueFilter _ => True
  end.

(** The leaper has been told of the tuple by [count]. *)
Definition primed l t : Prop :=
  match l with
  | ExtendWith _ relation start end_ key_func => get_range relation start end_ = Some (key_run relation (key_func t))
  | _ => True
  end.

Lemma leaper_count_spec l t : leaper_ok l ->
  let '(c, l') := leaper_count l t in
  leaper_ok l' /\ primed l' t /\ is_extend_with l' = is_extend_with l /\ (forall t' v, accepts l' t' v <-> accepts l t' v) /\
  (0 <= c <= u64_max)%Z /\ (is_extend_with l = true -> (c < u64_max)%Z) /\ (is_extend_with l = false -> c = 0%Z \/ c = u64_max) /\
  (c = 0%Z -> forall v, ~ accepts l t v) /\
  ((0 < c)%Z -> match l with FilterWith _ _ _ | FilterAnti _ _ _ | PrefixFilter _ => forall v, accepts l t v | _ => True end).
Proof.
  assert (Hmax : (0 < u64_max)%Z) by done. destruct l as [Key ord relation start end_ f|Key ord relation f|KV ord relation f|KV ord relation f|f|f]; cbn [leaper_count leaper_ok]; intros Hok.
  - destruct Hok as [Hs Hfit]. pose proof (key_run_range relation (f t) Hs) as Hr. pose proof (key_run_in relation (f t)) as Hin. destruct (key_slices relation (f t)) as [[st s1] s2]. destruct Hr as (Hr & Hlen & Hle). rewrite Hlen. cbn [leaper_ok primed is_extend_with accepts]. unfold fits in Hfit.
    split_and!; try done; try lia. intros H0 v Hv. assert (Hn : (f t, v) ∈ key_run relation (f t)) by (apply Hin; done). destruct (key_run relation (f t)); [by apply elem_of_nil in Hn|cbn [length] in H0; lia].
  - split_and!; try done; try lia; try (intros _; by right).
  - pose proof (relation_contains_spec relation (f t) Hok) as Hc. destruct (relation_contains relation (f t)); split_and!; try done; try lia; try (intros _; by (left + right)).
    + intros _ v. by apply Hc.
    + intros _ v Hv. by apply Hc in Hv.
  - pose proof (relation_contains_spec relation (f t) Hok) as Hc. destruct (relation_contains relation (f t)); split_and!; try done; try lia; try (intros _; by (left + right)).
    + intros _ v Hv. by apply Hv, Hc.
    + intros _ v Hv. by apply Hc in Hv.
  - destruct (f t) eqn:Ef; split_and!; try done; try lia; try (intros _; by (left + right)). intros _ v. cbn. congruence.
  - split_and!; try done; try lia; try (intros _; by right).
Qed.

(** A leaper that cannot propose counts everything or nothing. *)
Lemma unrestricting_count l t : leaper_ok l -> is_extend_with l = false ->
  exists c, leaper_count l t = (c, l) /\ ((admits l t /\ c = u64_max) \/ (~ admits l t /\ c = 0%Z)).
Proof.
  destruct l as [Key ord relation start end_ f|Key ord relation f|KV ord relation f|KV ord relation f|f|f]; cbn [leaper_ok leaper_count admits]; intros Hok Hx; try done.
  - exists u64_max. split; [done|by left].
  - pose proof (relation_contains_spec relation (f t) Hok) as Hc. eexists. split; [done|]. destruct (relation_contains relation (f t)); [left|right]; (split; [|done]); [by apply Hc|]. intros Hin%Hc. done.
  - pose proof (relation_contains_spec relation (f t) Hok) as Hc. eexists. split; [done|]. destruct (relation_contains relation (f t)); [right|left]; (split; [|done]); [|by intros Hin%Hc]. intros Hn. by apply Hn, Hc.
  - eexists. split; [done|]. destruct (f t); [by left|right; by split].
  - exists u64_max. split; [done|by left].
Qed.

Lemma leaper_propose_spec l t : leaper_ok l -> primed l t -> is_extend_with l = true -> exists vs, leaper_propose l t [] = Ret vs /\ sorted vs /\ forall v, v ∈ vs <-> accepts l t v.
Proof.
  destruct l as [Key ord relation start end_ f| | | | |]; try done. intros [Hs _] Hp _. cbn in Hp |- *. rewrite Hp. cbn. eexists. split; [done|]. split; [by apply key_run_sorted|].
  intros v. split; [intros ([k w] & -> & Hw)%list_elem_of_fmap; apply key_run_in in Hw as [Hw Hk]; [|done]; cbn in Hk; by subst k|]. intros Hv. apply list_elem_of_fmap. exists (f t, v). split; [done|]. by apply key_run_in.
Qed.

Lemma run_values_in {Key} `{Ord Key} (relation : Relation (Key * Val)) key v : sorted relation -> v ∈ snd <$> key_run relation key <-> (key, v) ∈ relation.
Proof.
  intros Hs. split; [intros ([k w] & -> & Hw)%list_elem_of_fmap; apply key_run_in in Hw as [Hw Hk]; [|done]; cbn in Hk; by subst k|]. intros Hv. apply list_elem_of_fmap. exists (key, v). split; [done|]. by apply key_run_in.
Qed.

(** Filters are trusted to have shown in their count that they accept the tuple. *)
Lemma leaper_intersect_spec l t vs : leaper_ok l -> primed l t -> sorted vs ->
  match l with FilterWith _ _ _ | FilterAnti _ _ _ | PrefixFilter _ => forall v, accepts l t v | _ => True end ->
  exists vs', leaper_intersect l t vs = Ret vs' /\ sorted vs' /\ forall v, v ∈ vs' <-> v ∈ vs /\ accepts l t v.
Proof.
  intros Hok Hp Hvs Hf. destruct l as [Key ord relation start end_ f|Key ord relation f|KV ord relation f|KV ord relation f|f|f]; cbn [leaper_intersect leaper_ok primed accepts] in *;
    try (eexists; split; [done|]; split; [done|]; intros v; split; [intros ?; split; [done|by apply Hf]|tauto]).
  - destruct Hok as [Hs _]. rewrite Hp. cbn. destruct (retain_found_spec true (key_run relation (f t)) vs (key_run_sorted _ _ Hs) Hvs) as [Hrs Hin]. eexists. split; [done|]. split; [done|]. intros v. rewrite Hin, run_values_in by done. intuition.
  - pose proof (fun v => run_values_in relation (f t) v Hok) as Hin. pose proof (key_run_sorted relation (f t) Hok) as Hr. unfold key_run in *. destruct (key_slices relation (f t)) as [[st s1] s2]. set (s := take _ s1) in *. eexists. split; [done|].
    destruct (retain_found_spec false s vs Hr Hvs) as [Hrs Hri]. destruct s as [|a s]; [split; [done|]; intros v; rewrite <- Hin; cbn; rewrite elem_of_nil; tauto|]. split; [done|]. intros v. rewrite Hri, Hin. intuition congruence.
  - eexists. split; [done|]. clear -Hvs. split.
    + induction Hvs as [|x l Hl IH Hx]; cbn; [constructor|]. destruct (f t x); [|done]. apply sorted_cons; [done|]. intros y Hy%list_elem_of_In%filter_In. rewrite Forall_forall in Hx. apply Hx, list_elem_of_In. by destruct Hy.
    + intros v. by rewrite !list_elem_of_In, filter_In.
Qed.
End LeaperFacts.

(** ** The interface of a leapjoin *)

Class LeapersLaws (L Tuple Val : Type) `{!Leapers L Tuple Val} := {
  leapers_ok : L -> Prop;
  accepted : L -> Tuple -> Val -> Prop;
  leapers_law : forall ls t, leapers_ok ls ->
    let '(cs, ls') := for_each_count ls t in
    let '(c, m) := min_leaper cs in
    leapers_ok ls' /\ (forall t' v, accepted ls' t' v <-> accepted ls t' v) /\ (0 <= c < u64_max)%Z /\
    (c = 0%Z -> forall v, ~ accepted ls t v) /\
    ((0 < c)%Z -> exists vs vs', propose ls' t (Z.to_nat m) [] = Ret vs /\ intersect ls' t (Z.to_nat m) vs = Ret vs' /\ forall v, v ∈ vs' <-> accepted ls t v);
}.

Section Leapjoin.
Context {L Tuple Val Result : Type} `{LeapersLaws L Tuple Val}.

Lemma leapjoin_loop_spec source (ls : L) (logic : Tuple -> Val -> Result) : leapers_ok ls ->
  exists rs, leapjoin_loop source ls logic = Ret rs /\ forall r, r ∈ rs <-> exists t v, t ∈ source /\ accepted ls t v /\ r = logic t v.
Proof.
  revert ls. induction source as [|t source IH]; intros ls Hok; cbn [leapjoin_loop].
  { exists []. split; [done|]. intros r. rewrite elem_of_nil. split; [done|]. by intros (t & v & ?%elem_of_nil & _). }
  pose proof (leapers_law ls t Hok) as Hl. destruct (for_each_count ls t) as [cs ls']. destruct (min_leaper cs) as [c m]. destruct Hl as (Hok' & Hacc & Hc & H0 & H1).
  destruct (Z.ltb_spec c u64_max) as [_|]; [|lia]. cbn [assert_that obind]. destruct (IH ls' Hok') as (rs & -> & Hrs).
  assert (Hrest : forall r, r ∈ rs <-> exists t' v, t' ∈ source /\ accepted ls t' v /\ r = logic t' v).
  { intros r. rewrite Hrs. split; intros (t' & v & Ht & Ha & ->); exists t', v; (split; [done|]; split; [by apply Hacc|done]). }
  assert (Hfound : exists found, (if (0 <? c)%Z then let* values := propose ls' t (Z.to_nat m) [] in let* values := intersect ls' t (Z.to_nat m) values in Ret (logic t <$> values) else Ret []) = Ret found /\ forall r, r ∈ found <-> exists v, accepted ls t v /\ r = logic t v).
  { destruct (Z.ltb_spec 0 c) as [Hp|Hp].
    - destruct (H1 Hp) as (vs & vs' & -> & Hi & Hin). cbn [obind]. rewrite Hi. eexists. split; [done|]. intros r. rewrite list_elem_of_fmap. split; intros (v & Ha & Hb); exists v; [by rewrite <- Hin|by rewrite Hin].
    - exists []. split; [done|]. intros r. rewrite elem_of_nil. split; [done|]. intros (v & Ha & _). apply (H0 ltac:(lia) v Ha). }
  destruct Hfound as (found & -> & Hf). cbn [obind]. eexists. split; [done|]. intros r. rewrite elem_of_app, Hf, Hrest. split.
  - intros [(v & Ha & ->)|(t' & v & Ht & Ha & ->)]; [exists t, v; split; [left|done]|exists t', v; split; [by right|done]].
  - intros (t' & v & [->|Ht]%elem_of_cons & Ha & ->); [left; eauto|right; eauto].
Qed.

Lemma leapjoin_spec `{Ord Result} source (ls : L) (logic : Tuple -> Val -> Result) : leapers_ok ls ->
  exists rs, leapjoin source ls logic = Ret rs /\ sorted rs /\ forall r, r ∈ rs <-> exists t v, t ∈ source /\ accepted ls t v /\ r = logic t v.
Proof.
  intros Hok. destruct (leapjoin_loop_spec source ls logic Hok) as (rs & Hl & Hrs). unfold leapjoin. rewrite Hl. cbn [obind]. eexists. split; [done|]. split; [apply from_vec_sorted|]. intros r. by rewrite from_vec_in.
Qed.
End Leapjoin.

(** ** Tuples of leapers *)

Section TupleLeapers.
Context {Tuple Val : Type} `{Ord Val}.
Implicit Types (ls : list (Leaper Tuple Val)).

Lemma min_leaper_fold cs mc mi :
  let '(c, m) := foldl (fun '(min_count, min_index) '(index, count) => if (count <? min_count)%Z then (count, Z.of_nat index) else (min_count, min_index)) (mc, mi) cs in
  (c <= mc)%Z /\ (forall j cj, (j, cj) ∈ cs -> (c <= cj)%Z) /\ ((c = mc /\ m = mi) \/ exists j, (j, c) ∈ cs /\ m = Z.of_nat j).
Proof.
  revert mc mi. induction cs as [|[j cj] cs IH]; intros mc mi; cbn [foldl].
  - split; [lia|]. split; [intros j cj Hj; by apply elem_of_nil in Hj|by left].
  - destruct (Z.ltb_spec cj mc) as [Hlt|Hge].
    + specialize (IH cj (Z.of_nat j)). destruct (foldl _ _ cs) as [c m]. destruct IH as (H1 & H2 & H3). split; [lia|]. split.
      * intros k ck [[= -> ->]|Hk]%elem_of_cons; [done|by apply (H2 k)].
      * right. destruct H3 as [[-> ->]|(k & Hk & ->)]; [exists j; split; [left|done]|exists k; split; [by right|done]].
    + specialize (IH mc mi). destruct (foldl _ _ cs) as [c m]. destruct IH as (H1 & H2 & H3). split; [lia|]. split.
      * intros k ck [[= -> ->]|Hk]%elem_of_cons; [lia|by apply (H2 k)].
      * destruct H3 as [?|(k & Hk & ->)]; [by left|right; exists k; split; [by right|done]].
Qed.

(** Each leaper is asked for its count, in order. *)
Lemma counts_spec ls t i : let '(cs, ls') := counts ls t i in
  length ls' = length ls /\ (forall j c, (j, c) ∈ cs -> exists k l, j = i + k /\ ls !! k = Some l /\ c = (leaper_count l t).1) /\
  forall k l, ls !! k = Some l -> (i + k, (leaper_count l t).1) ∈ cs /\ ls' !! k = Some (leaper_count l t).2.
Proof.
  revert i. induction ls as [|l ls IH]; intros i; cbn [counts].
  { split; [done|]. split; [intros j c Hj; by apply elem_of_nil in Hj|]. intros k l Hl. by rewrite lookup_nil in Hl. }
  destruct (leaper_count l t) as [c l'] eqn:Ec. specialize (IH (S i)). destruct (counts ls t (S i)) as [cs ls']. destruct IH as (Hlen & H1 & H2). split; [cbn; by rewrite Hlen|]. split.
  - intros j cj [[= -> ->]|Hj]%elem_of_cons; [exists 0, l; rewrite Ec; split; [lia|done]|]. destruct (H1 _ _ Hj) as (k & l0 & -> & Hk & ->). exists (S k), l0. split; [lia|done].
  - intros [|k] l0 Hk; cbn in Hk.
    + injection Hk as <-. rewrite Ec, Nat.add_0_r. split; [left|done].
    + destruct (H2 _ _ Hk) as [Hin Hl]. split; [right; by replace (i + S k) with (S i + k) by lia|done].
Qed.

(** Without an [ExtendWith], the smallest count is [usize::MAX] when all leapers let the tuple pass, and 0 otherwise. *)
Lemma unrestricted_counts ls t i : Forall leaper_ok ls -> existsb is_extend_with ls = false ->
  exists cs, counts ls t i = (cs, ls) /\ (forall j c, (j, c) ∈ cs -> c = 0%Z \/ c = u64_max) /\ (Forall (fun l => admits l t) ls -> forall j c, (j, c) ∈ cs -> c = u64_max) /\ (Exists (fun l => ~ admits l t) ls -> exists j, (j, 0%Z) ∈ cs).
Proof.
  revert i. induction ls as [|l ls IH]; intros i Hok Hx; cbn [counts].
  { exists []. split; [done|]. split; [intros j c Hj; by apply elem_of_nil in Hj|]. split; [intros _ j c Hj; by apply elem_of_nil in Hj|intros He; by apply Exists_nil in He]. }
  cbn [existsb] in Hx. apply orb_false_iff in Hx as [Hl Hx]. apply Forall_cons in Hok as [Hlok Hok]. destruct (IH (S i) Hok Hx) as (cs & -> & Hval & Hall & Hno). destruct (unrestricting_count l t Hlok Hl) as (c & -> & Hc).
  eexists. split; [done|]. split; [|split].
  - intros j c' [[= -> ->]|Hj]%elem_of_cons; [by destruct Hc as [[_ ->]|[_ ->]]; [right|left]|by apply (Hval j)].
  - intros [Ha Hrest]%Forall_cons j c' [[= -> ->]|Hj]%elem_of_cons; [by destruct Hc as [[_ ->]|[Hn _]]|by apply (Hall Hrest j)].
  - intros [Hn|He]%Exists_cons; [destruct Hc as [[Ha _]|[_ ->]]; [done|exists i; left]|]. destruct (Hno He) as [j Hj]. exists j. by right.
Qed.

Lemma unrestricted_loop {Result} source ls (logic : Tuple -> Val -> Result) : Forall leaper_ok ls -> existsb is_extend_with ls = false ->
  (Exists (fun t => Forall (fun l => admits l t) ls) source -> leapjoin_loop source ls logic = Panic) /\
  (Forall (fun t => Exists (fun l => ~ admits l t) ls) source -> leapjoin_loop source ls logic = Ret []).
Proof.
  intros Hok Hx. induction source as [|t source [IHp IHr]]; [split; [intros He; by apply Exists_nil in He|done]|].
  cbn [leapjoin_loop for_each_count tuple_leapers]. destruct (unrestricted_counts ls t 0 Hok Hx) as (cs & -> & Hval & Hall & Hno).
  pose proof (min_leaper_fold cs u64_max u64_max) as Hm. fold (min_leaper cs) in Hm. destruct (min_leaper cs) as [c m]. destruct Hm as (_ & Hmin & Hidx).
  assert (Hpass : Forall (fun l => admits l t) ls -> c = u64_max) by (intros Ha; destruct Hidx as [[-> _]|(j & Hj & _)]; [done|by apply (Hall Ha j)]).
  assert (Hc : c = 0%Z \/ c = u64_max) by (destruct Hidx as [[-> _]|(j & Hj & _)]; [by right|by apply (Hval j)]). split.
  - intros [Ha|He]%Exists_cons; [by rewrite (Hpass Ha)|]. destruct Hc as [-> | ->]; cbn; [by rewrite (IHp He)|done].
  - intros [He Hrest]%Forall_cons. destruct (Hno He) as [j Hj]. specialize (Hmin _ _ Hj). destruct Hc as [-> | ->]; [|done]. cbn. by rewrite (IHr Hrest).
Qed.

Definition ready (t : Tuple) (l : Leaper Tuple Val) : Prop :=
  leaper_ok l /\ primed l t /\ match l with FilterWith _ _ _ | FilterAnti _ _ _ | PrefixFilter _ => forall v, accepts l t v | _ => True end.

Lemma intersect_others_spec ls t i m vs : Forall (ready t) ls -> sorted vs ->
  exists vs', intersect_others ls t i m vs = Ret vs' /\ forall v, v ∈ vs' <-> v ∈ vs /\ forall k l, ls !! k = Some l -> m <> i + k -> accepts l t v.
Proof.
  intros Hr. revert i vs. induction Hr as [|l ls (Hok & Hp & Hf) _ IH]; intros i vs Hvs; cbn [intersect_others].
  { exists vs. split; [done|]. intros v. split; [intros ?; split; [done|]; intros k l Hl; by rewrite lookup_nil in Hl|tauto]. }
  assert (Hstep : exists vs', (if negb (m =? i) then leaper_intersect l t vs else Ret vs) = Ret vs' /\ sorted vs' /\ forall v, v ∈ vs' <-> v ∈ vs /\ (m <> i -> accepts l t v)).
  { destruct (Nat.eqb_spec m i) as [->|Hne]; cbn [negb]; [exists vs; split; [done|]; split; [done|]; tauto|]. destruct (leaper_intersect_spec l t vs Hok Hp Hvs Hf) as (vs' & -> & Hs & Hin). exists vs'. split; [done|]. split; [done|]. intros v. rewrite Hin. tauto. }
  destruct Hstep as (vs' & -> & Hs & Hin). cbn [obind]. destruct (IH (S i) vs' Hs) as (vs'' & -> & Hin'). exists vs''. split; [done|]. intros v. rewrite Hin', Hin. split.
  - intros [[Hv Hl] Hrest]. split; [done|]. intros [|k] l0 Hk Hne; cbn in Hk; [injection Hk as <-; apply Hl; lia|]. apply (Hrest k l0 Hk). lia.
  - intros [Hv Hall]. split; [split; [done|]; intros Hne; apply (Hall 0 l eq_refl); lia|]. intros k l0 Hk Hne. apply (Hall (S k) l0 Hk). lia.
Qed.

Definition tuple_ok ls : Prop := Forall leaper_ok ls /\ exists l, l ∈ ls /\ is_extend_with l = true.
Definition tuple_accepted ls (t : Tuple) (v : Val) : Prop := Forall (fun l => accepts l t v) ls.

#[export, program] Instance tuple_leapers_laws : LeapersLaws (list (Leaper Tuple Val)) Tuple Val := {| leapers_ok := tuple_ok; accepted := tuple_accepted |}.
Next Obligation.
  intros ls t [Hok (le & Hle & He)]. cbn [for_each_count propose intersect tuple_leapers]. pose proof (counts_spec ls t 0) as Hcs. destruct (counts ls t 0) as [cs ls']. destruct Hcs as (Hlen & H1 & H2).
  pose proof (min_leaper_fold cs u64_max u64_max) as Hm. fold (min_leaper cs) in Hm. destruct (min_leaper cs) as [c m]. destruct Hm as (Hcmax & Hmin & Hidx). rewrite Forall_lookup in Hok.
  assert (Hspec : forall k l, ls !! k = Some l -> exists c' l', leaper_count l t = (c', l') /\ (k, c') ∈ cs /\ ls' !! k = Some l') by (intros k l Hk; destruct (H2 k l Hk) as [Ha Hb]; destruct (leaper_count l t) as [c' l']; eauto).
  assert (Hback : forall k l', ls' !! k = Some l' -> exists l, ls !! k = Some l).
  { intros k l' Hk. apply lookup_lt_is_Some_2. rewrite <- Hlen. by apply lookup_lt_Some in Hk. }
  assert (Hacc : forall t' v, tuple_accepted ls' t' v <-> tuple_accepted ls t' v).
  { intros t' v. unfold tuple_accepted. rewrite !Forall_lookup. split; intros Ha k l Hk.
    - destruct (Hspec k l Hk) as (c' & l' & Hc & _ & Hl'). pose proof (leaper_count_spec l t (Hok k l Hk)) as Hs. rewrite Hc in Hs. destruct Hs as (_ & _ & _ & Hs & _). apply Hs. by apply (Ha k).
    - destruct (Hback k l Hk) as [l0 Hl0]. destruct (Hspec k l0 Hl0) as (c' & l' & Hc & _ & Hl'). pose proof (leaper_count_spec l0 t (Hok k l0 Hl0)) as Hs. rewrite Hc in Hs. destruct Hs as (_ & _ & _ & Hs & _). simplify_eq. apply Hs. by apply (Ha k). }
  assert (Hok' : forall k l', ls' !! k = Some l' -> leaper_ok l' /\ primed l' t).
  { intros k l' Hk. destruct (Hback k l' Hk) as [l0 Hl0]. destruct (Hspec k l0 Hl0) as (c' & l'' & Hc & _ & Hl'). pose proof (leaper_count_spec l0 t (Hok k l0 Hl0)) as Hs. rewrite Hc in Hs. destruct Hs as (? & ? & _). by simplify_eq. }
  assert (Hclt : (c < u64_max)%Z).
  { apply list_elem_of_lookup_1 in Hle as [k Hk]. destruct (Hspec k le Hk) as (c' & l' & Hc & Hin & _). pose proof (leaper_count_spec le t (Hok k le Hk)) as Hs. rewrite Hc in Hs. destruct Hs as (_ & _ & _ & _ & _ & Hlt & _). specialize (Hmin _ _ Hin). specialize (Hlt He). lia. }
  destruct Hidx as [[-> _]|(j & Hj & ->)]; [lia|]. destruct (H1 j c Hj) as (k & l & -> & Hk & Hcl). cbn [plus] in *. rewrite Nat2Z.id.
  destruct (Hspec k l Hk) as (c' & l' & Hc & _ & Hl'). rewrite Hc in Hcl. cbn in Hcl. subst c'. pose proof (leaper_count_spec l t (Hok k l Hk)) as Hs. rewrite Hc in Hs. destruct Hs as (Hlok & Hlp & Hext & Hla & Hcr & _ & Hne & Hzero & _).
  split; [|split; [done|]; split; [lia|]; split].
  - split; [apply Forall_lookup; intros k' l0 Hl0; by apply (Hok' k')|]. apply list_elem_of_lookup_1 in Hle as [ke Hke]. destruct (Hspec ke le Hke) as (ce & le' & Hce & _ & Hle'). pose proof (leaper_count_spec le t (Hok ke le Hke)) as Hse. rewrite Hce in Hse. destruct Hse as (_ & _ & Hx & _).
    exists le'. split; [by apply list_elem_of_lookup_2 with ke|congruence].
  - intros -> v Hv. apply (Hzero eq_refl v). unfold tuple_accepted in Hv. rewrite Forall_lookup in Hv. by apply (Hv k).
  - intros Hpos. rewrite Hl'. assert (Hisx : is_extend_with l = true) by (destruct (is_extend_with l); [done|]; destruct (Hne eq_refl); lia).
    destruct (leaper_propose_spec l' t Hlok Hlp) as (vs & Hvs & Hsorted & Hin); [congruence|].
    destruct (intersect_others_spec ls' t 0 k vs) as (vs' & Hvs' & Hin'); [|done|].
    { apply Forall_lookup. intros k0 l0' Hl0'. destruct (Hok' _ _ Hl0') as [? ?]. split; [done|]. split; [done|]. destruct (Hback _ _ Hl0') as [l0 Hl0]. destruct (Hspec k0 l0 Hl0) as (c0 & l0'' & Hc0 & Hin0 & Hl0''). simplify_eq.
      pose proof (leaper_count_spec l0 t (Hok k0 l0 Hl0)) as Hs. rewrite Hc0 in Hs. destruct Hs as (_ & _ & _ & Ha0 & _ & _ & _ & _ & Hf0). specialize (Hmin _ _ Hin0). specialize (Hf0 ltac:(lia)).
      clear -Ha0 Hf0 Hc0. destruct l0; cbn in Hc0; by injection Hc0 as <- <-. }
    exists vs, vs'. split; [done|]. split; [done|]. intros v. rewrite Hin', Hin, <- Hacc. unfold tuple_accepted. rewrite Forall_lookup. split.
    + intros [Hv Hall] k0 l0 Hk0. destruct (decide (k = k0)) as [->|Hne']; [by simplify_eq|by apply (Hall k0)].
    + intros Hall. split; [by apply (Hall k)|]. intros k0 l0 Hk0 _. by apply (Hall k0).
Qed.
End TupleLeapers.

(** ** A filter alone *)

Definition is_filter {Tuple Val} (l : Leaper Tuple Val) : Prop := match l with FilterWith _ _ _ | FilterAnti _ _ _ | PrefixFilter _ => True | _ => False end.

#[export, program] Instance single_filter_laws {Tuple} : LeapersLaws (SingleFilter Tuple) Tuple unit := {|
  leapers_ok := fun l => leaper_ok (the_filter l) /\ is_filter (the_filter l);
  accepted := fun l => accepts (the_filter l) |}.
Next Obligation.
  intros Tuple [l] t [Hok Hf]. cbn [for_each_count propose intersect single_filter the_filter] in *. pose proof (leaper_count_spec l t Hok) as Hs. destruct (leaper_count l t) as [c l'] eqn:Ec. destruct Hs as (Hok' & _ & Hx & Ha & Hc & _ & Hne & H0 & H1). cbn [the_filter].
  assert (Hfl : is_filter l') by (destruct l; try done; cbn in Ec; by injection Ec as <- <-).
  unfold min_leaper. cbn [foldl]. destruct (Z.eqb_spec c 0) as [->|Hc0]; cbn.
  - split; [done|]. split; [done|]. split; [done|]. split; [intros _; by apply H0|done].
  - split; [done|]. split; [done|]. split; [done|]. split; [done|]. intros _. exists [tt], [tt]. split; [done|]. split; [done|]. intros []. split; [|intros _; left]. intros _. specialize (H1 ltac:(lia)). by destruct l.
Qed.
