(* ===== verification/DatafrogVar.v ===== *)
(** * The Datalog engine: variables

    A variable as three sets of tuples (stable, recent, to be added), the invariant of its vectors, and what
    each operation does to the sets. *)
From Stdlib Require Import ZArith Lia Sorted.
From stdpp Require Import base numbers list.
From S2P Require Import Prelude RustSlice Datafrog DatafrogFacts DatafrogLeap.
#[local] Open Scope nat_scope.
Open Scope rust_scope.

Definition in_batches {A} (bs : list (Relation A)) (x : A) : Prop := exists b, b ∈ bs /\ x ∈ b.

Lemma in_batches_nil {A} (x : A) : in_batches [] x <-> False.
Proof. split; [|done]. by intros (b & ?%elem_of_nil & _). Qed.

Lemma in_batches_cons {A} b bs (x : A) : in_batches (b :: bs) x <-> x ∈ b \/ in_batches bs x.
Proof.
  unfold in_batches. split; [intros (c & [->|Hc]%elem_of_cons & Hx); eauto|]. intros [Hx|(c & Hc & Hx)]; [exists b; split; [left|done]|exists c; split; [by right|done]].
Qed.

Lemma in_batches_app {A} bs bs' (x : A) : in_batches (bs ++ bs') x <-> in_batches bs x \/ in_batches bs' x.
Proof. induction bs as [|b bs IH]; cbn [app]; [rewrite in_batches_nil; tauto|]. rewrite !in_batches_cons, IH. tauto. Qed.

Lemma in_batches_reverse {A} bs (x : A) : in_batches (reverse bs) x <-> in_batches bs x.
Proof. unfold in_batches. split; intros (b & Hb & Hx); exists b; (split; [|done]); by rewrite elem_of_reverse in *. Qed.

Section VariableFacts.
Context {Tuple : Type} `{Ord Tuple}.
Implicit Types (v out : DVariable Tuple) (x : Tuple).

Definition known v x : Prop := in_batches (stable v) x \/ x ∈ recent v.
Definition pending v x : Prop := in_batches (to_add v) x.

Definition var_ok v : Prop :=
  Forall sorted (stable v) /\ sorted (recent v) /\ Forall sorted (to_add v).
(** The recent tuples of a variable that is kept distinct are not stable yet. *)
Definition var_fresh v : Prop := forall x, x ∈ recent v -> ~ in_batches (stable v) x.

Lemma variable_ok : var_ok variable /\ var_ok variable_indistinct.
Proof. repeat split; constructor. Qed.

#[export] Instance known_dec v x : Decision (known v x).
Proof.
  assert (Hd : Decision (Exists (fun b => x ∈ b) (stable v))) by apply _. refine (cast_if (decide (Exists (fun b => x ∈ b) (stable v) \/ x ∈ recent v))); unfold known, in_batches; by rewrite <- Exists_exists.
Defined.

Lemma pop_batches_spec bs r : Forall sorted bs -> sorted r ->
  let '(rest, r') := pop_batches bs r in Forall sorted rest /\ sorted r' /\ forall x, in_batches rest x \/ x ∈ r' <-> in_batches bs x \/ x ∈ r.
Proof.
  revert r. induction bs as [|b bs IH]; intros r Hbs Hr; cbn [pop_batches]; [done|]. case_if E; [|done]. inversion_clear Hbs as [|? ? Hb Hbs']. destruct (merge_spec r b Hr Hb) as [Hs Hin]. specialize (IH _ Hbs' Hs).
  destruct (pop_batches bs (merge r b)) as [rest r']. destruct IH as (H1 & H2 & H3). split; [done|]. split; [done|]. intros x. rewrite H3, Hin, in_batches_cons. tauto.
Qed.

Lemma push_recent_spec v : var_ok v -> let v' := push_recent v in
  var_ok v' /\ distinct v' = distinct v /\ recent v' = [] /\ to_add v' = to_add v /\ forall x, in_batches (stable v') x <-> known v x.
Proof.
  intros (Hs & Hr & Ha). unfold push_recent, known. destruct (recent v) as [|a r] eqn:Er.
  - split; [split_and!; [done|rewrite Er; constructor|done]|]. split_and!; try done. intros x. rewrite elem_of_nil. tauto.
  - pose proof (pop_batches_spec (reverse (stable v)) (a :: r)) as Hp. destruct (pop_batches _ _) as [rest r']. destruct Hp as (H1 & H2 & H3); [by apply Forall_reverse|done|].
    split; [split_and!; [|constructor|done]|split_and!; try done].
    + apply Forall_app. split; [by apply Forall_reverse|by constructor].
    + intros x. cbn [stable]. rewrite in_batches_app, in_batches_reverse, in_batches_cons, in_batches_nil. specialize (H3 x). rewrite in_batches_reverse in H3. tauto.
Qed.

(** [changed]: the recent tuples become stable; the tuples to add become recent, without those that are
    stable if the variable is distinct. *)
Lemma changed_spec v c v' : var_ok v -> changed v = (c, v') ->
  var_ok v' /\ distinct v' = distinct v /\ to_add v' = [] /\ (forall x, in_batches (stable v') x <-> known v x) /\
  (forall x, x ∈ recent v' <-> pending v x /\ (distinct v = true -> ~ known v x)) /\ (c = true <-> recent v' <> []).
Proof.
  intros Hok Hc. destruct (push_recent_spec v Hok) as ((Hs & _ & Ha) & Hd & Hr & Hta & Hin). unfold changed in Hc. set (w := push_recent v) in *.
  assert (Hflag : forall u, (match recent u with [] => false | _ => true end, u) = (c, v') -> v' = u /\ (c = true <-> recent v' <> [])) by (intros u [= <- <-]; split; [done|]; by destruct (recent u)).
  destruct (reverse (to_add w)) as [|add more] eqn:Erev; apply Hflag in Hc as [-> Hf].
  - assert (Hnil : to_add w = []) by (apply (f_equal reverse) in Erev; by rewrite reverse_involutive in Erev). split; [by split; [|rewrite Hr; split; [constructor|]]|]. split_and!; try done.
    intros x. rewrite Hr, elem_of_nil. unfold pending. rewrite <- Hta, Hnil, in_batches_nil. tauto.
  - assert (Hall : Forall sorted (add :: more)) by (rewrite <- Erev; by apply Forall_reverse). inversion_clear Hall as [|? ? Hadd Hmore]. destruct (merge_all_spec more add Hadd Hmore) as [Hms Hmin].
    assert (Hpend : forall x, x ∈ foldl merge add more <-> pending v x).
    { intros x. rewrite Hmin. unfold pending. rewrite <- Hta, <- (in_batches_reverse (to_add w)), Erev, in_batches_cons. done. }
    destruct (restrict_all_spec (stable w) _ Hms Hs) as [Hrs Hrin]. split; [split_and!; [done|cbn [recent]; by destruct (distinct w)|constructor]|]. split_and!; try done.
    intros x. cbn [recent]. rewrite Hd. destruct (distinct v).
    + rewrite Hrin, Hpend. fold (in_batches (stable w) x). rewrite Hin. intuition.
    + rewrite Hpend. intuition congruence.
Qed.

Lemma complete_spec v : var_ok v -> recent v = [] -> to_add v = [] -> exists r, complete v = Ret r /\ sorted r /\ forall x, x ∈ r <-> in_batches (stable v) x.
Proof.
  intros (Hs & _ & _) Hr Ha. unfold complete. rewrite Hr, Ha. cbn [assert_that obind]. destruct (merge_all_spec (reverse (stable v)) [] sorted_nil) as [Hms Hin]; [by apply Forall_reverse|]. eexists. split; [done|]. split; [done|].
  intros x. rewrite Hin, elem_of_nil. fold (in_batches (reverse (stable v)) x). rewrite in_batches_reverse. tauto.
Qed.

(** ** Adding tuples *)

(** The operation only adds the tuples of [P]. *)
Definition adds v (P : Tuple -> Prop) v' : Prop :=
  distinct v' = distinct v /\ stable v' = stable v /\ recent v' = recent v /\ (var_ok v -> var_ok v') /\ forall x, pending v' x <-> pending v x \/ P x.

Lemma adds_trans v v' v'' P Q : adds v P v' -> adds v' Q v'' -> adds v (fun x => P x \/ Q x) v''.
Proof.
  intros (H1 & H2 & H3 & H4 & H5) (H1' & H2' & H3' & H4' & H5'). split; [congruence|]. split; [congruence|]. split; [congruence|]. split; [tauto|]. intros x. rewrite H5', H5. tauto.
Qed.

Lemma adds_refl v : adds v (fun _ => False) v.
Proof. unfold adds. split_and!; try done. tauto. Qed.

Lemma adds_iff v v' P Q : (forall x, P x <-> Q x) -> adds v P v' -> adds v Q v'.
Proof. intros HE (H1 & H2 & H3 & H4 & H5). split_and!; try done. intros x. by rewrite H5, HE. Qed.

Lemma insert_adds v r : sorted r -> adds v (fun x => x ∈ r) (insert v r).
Proof.
  intros Hr. unfold insert. destruct r as [|a r]; [eapply adds_iff; [|apply adds_refl]; intros x; rewrite elem_of_nil; done|]. split_and!; try done.
  - intros (Hs & Hre & Ha). split_and!; try done. cbn. apply Forall_app. split; [done|by constructor].
  - intros x. unfold pending. cbn. rewrite in_batches_app, in_batches_cons, in_batches_nil. tauto.
Qed.

Lemma extend_adds v l : adds v (fun x => x ∈ l) (extend v l).
Proof. eapply adds_iff; [|apply insert_adds, from_vec_sorted]. intros x. apply from_vec_in. Qed.

Lemma from_map_adds {T2} v (input : DVariable T2) logic : adds v (fun x => exists y, y ∈ recent input /\ x = logic y) (from_map v input logic).
Proof. eapply adds_iff; [|apply insert_adds, from_vec_sorted]. intros x. rewrite from_vec_in, list_elem_of_fmap. split; intros (y & ? & ?); eauto. Qed.

Lemma from_antijoin_adds {Key Val} `{Ord Key, Ord Val} v (input1 : DVariable (Key * Val)) (input2 : Relation Key) logic : sorted (recent input1) -> sorted input2 ->
  adds v (fun x => exists k w, (k, w) ∈ recent input1 /\ (k ∉ input2) /\ x = logic k w) (from_antijoin v input1 input2 logic).
Proof. intros Hr1 Hr2. eapply adds_iff; [|apply insert_adds, from_vec_sorted]. intros x. unfold antijoin. rewrite from_vec_in. apply antijoin_loop_spec; [by apply sorted_key_sorted|done]. Qed.

Lemma from_leapjoin_adds {L Source Val} `{LeapersLaws L Source Val} v (source : DVariable Source) (ls : L) logic : leapers_ok ls ->
  exists v', from_leapjoin v source ls logic = Ret v' /\ adds v (fun x => exists t w, t ∈ recent source /\ accepted ls t w /\ x = logic t w) v'.
Proof.
  intros Hok. destruct (leapjoin_spec (recent source) ls logic Hok) as (rs & Hl & Hs & Hin). unfold from_leapjoin. rewrite Hl. cbn [obind]. eexists. split; [done|]. eapply adds_iff; [|by apply insert_adds]. done.
Qed.
End VariableFacts.

(** ** A round, for a variable that is kept distinct *)

Section Rounds.
Context {Tuple : Type} `{Ord Tuple}.
Implicit Types (v : DVariable Tuple) (x : Tuple).

Definition dvar_ok v : Prop := var_ok v /\ distinct v = true.

Lemma changed_exit v v' : dvar_ok v -> changed v = (false, v') ->
  dvar_ok v' /\ recent v' = [] /\ to_add v' = [] /\ (forall x, in_batches (stable v') x <-> known v x) /\ forall x, pending v x -> known v x.
Proof.
  intros [Hok Hd] Hc. destruct (changed_spec v _ v' Hok Hc) as (Hok' & Hd' & Ha & Hs & Hr & Hf). assert (Hnil : recent v' = []) by (destruct (recent v'); [done|]; by assert (false = true) by by apply Hf).
  split; [split; [done|congruence]|]. split_and!; try done. intros x Hx. destruct (decide (known v x)) as [?|Hn]; [done|]. exfalso. assert (Hin : x ∈ recent v') by by apply Hr. rewrite Hnil in Hin. by apply elem_of_nil in Hin.
Qed.

Lemma changed_pending v v' : dvar_ok v -> changed v = (true, v') -> exists x, pending v x.
Proof.
  intros [Hok _] Hc. destruct (changed_spec v _ v' Hok Hc) as (_ & _ & _ & _ & Hr & Hf). destruct (recent v') as [|x l]; [by destruct (proj1 Hf eq_refl)|]. exists x. apply Hr. left.
Qed.

(** [changed], and then operations that add the tuples of [P]. *)
Lemma changed_adds v c v1 P v2 : dvar_ok v -> changed v = (c, v1) -> adds v1 P v2 ->
  dvar_ok v2 /\ (forall x, in_batches (stable v2) x <-> known v x) /\ (forall x, x ∈ recent v2 <-> pending v x /\ ~ known v x) /\ (forall x, pending v2 x <-> P x).
Proof.
  intros [Hok Hd] Hc (Hd1 & Hs1 & Hr1 & Hok1 & Hp1). destruct (changed_spec v _ v1 Hok Hc) as (Hok' & Hd' & Ha & Hs & Hr & Hf).
  split; [split; [auto|congruence]|]. rewrite Hs1, Hr1. split; [done|]. split; [intros x; rewrite Hr; tauto|]. intros x. rewrite Hp1. unfold pending. rewrite Ha, in_batches_nil. tauto.
Qed.

Lemma changed_ok v c v1 : dvar_ok v -> changed v = (c, v1) -> dvar_ok v1.
Proof. intros Hok Hc. by destruct (changed_adds v c v1 _ v1 Hok Hc (adds_refl v1)). Qed.

Lemma adds_known v P v' x : adds v P v' -> known v' x <-> known v x.
Proof. intros (_ & Hs & Hr & _). unfold known. by rewrite Hs, Hr. Qed.

Lemma adds_recent v P v' : adds v P v' -> recent v' = recent v.
Proof. by intros (_ & _ & Hr & _). Qed.

(** A new variable with its initial facts. *)
Lemma variable_adds P v' : adds variable P v' -> dvar_ok v' /\ (forall x, ~ known v' x) /\ forall x, pending v' x <-> P x.
Proof.
  intros (Hd & Hs & Hr & Hok & Hp). split; [split; [apply Hok, variable_ok|done]|]. split.
  - intros x. unfold known. rewrite Hs, Hr. cbn. rewrite in_batches_nil, elem_of_nil. tauto.
  - intros x. rewrite Hp. unfold pending. cbn. rewrite in_batches_nil. tauto.
Qed.
End Rounds.

Lemma any_changed_iff flags : any_changed flags = true <-> true ∈ flags.
Proof.
  assert (Ht : forall l, foldl (fun result (flag : bool) => if flag then true else result) true l = true) by (induction l as [|[] l IH]; done).
  unfold any_changed. induction flags as [|[] flags IH]; cbn; [split; [done|by intros ?%elem_of_nil]|rewrite Ht; split; [left|done]|]. rewrite IH, elem_of_cons. split; [tauto|]. intros [?|?]; done.
Qed.

(** ** Joining with a variable or a relation *)

Section FromJoin.
Context {Key Val1 Val2 Tuple I2 : Type} `{Ord Key, Ord Val1, Ord Val2, Ord Tuple} `{!JoinInput I2 (Key * Val2)}.

Definition input_known (i : I2) (x : Key * Val2) : Prop := in_batches (stable_of i) x \/ x ∈ recent_of (Tuple := Key * Val2) i.
Definition input_ok (i : I2) : Prop := Forall (sorted (A := Key * Val2)) (stable_of i) /\ sorted (A := Key * Val2) (recent_of i).

Lemma flat_join_in {B} (bs : list B) (f : B -> list Tuple) (P : B -> Tuple -> Prop) x :
  (forall b, b ∈ bs -> x ∈ f b <-> P b x) -> x ∈ flat_map f bs <-> exists b, b ∈ bs /\ P b x.
Proof.
  intros HP. rewrite list_elem_of_In, in_flat_map. split; intros (b & Hb & Hx); exists b.
  - apply list_elem_of_In in Hb, Hx. split; [done|by apply HP].
  - split; apply list_elem_of_In; [done|by apply HP].
Qed.

Lemma from_join_adds (v : DVariable Tuple) (input1 : DVariable (Key * Val1)) (input2 : I2) logic : var_ok input1 -> input_ok input2 ->
  adds v (fun x => exists k v1 v2, known input1 (k, v1) /\ input_known input2 (k, v2) /\ ((k, v1) ∈ recent input1 \/ (k, v2) ∈ recent_of (Tuple := Key * Val2) input2) /\ x = logic k v1 v2) (from_join v input1 input2 logic).
Proof.
  intros (Hs1 & Hr1 & _) (Hs2 & Hr2). pose proof (proj1 (Forall_forall _ _) Hs1) as Hb1. pose proof (proj1 (Forall_forall _ _) Hs2) as Hb2. eapply adds_iff; [|apply insert_adds, from_vec_sorted]. intros x. rewrite from_vec_in, !elem_of_app.
  rewrite (flat_join_in _ _ (fun b => joined logic (fun x => x ∈ recent input1) (fun x => x ∈ b))) by (intros b Hb; apply join_slices_spec; auto).
  rewrite (flat_join_in _ _ (fun b => joined logic (fun x => x ∈ b) (fun x => x ∈ recent_of (Tuple := Key * Val2) input2))) by (intros b Hb; apply join_slices_spec; auto).
  rewrite join_slices_spec by done. unfold joined, known, input_known. split.
  - intros [(b & Hb & k & v1 & v2 & ? & ? & ->)|[(b & Hb & k & v1 & v2 & ? & ? & ->)|(k & v1 & v2 & ? & ? & ->)]]; exists k, v1, v2; split_and!; try done; try tauto; left; by exists b.
  - intros (k & v1 & v2 & [(b & Hb & ?)|?] & [(b' & Hb' & ?)|?] & Hr & ->); [destruct Hr| | |]; try (by left; exists b'; split; [done|]; exists k, v1, v2);
      try (by right; left; exists b; split; [done|]; exists k, v1, v2); right; right; by exists k, v1, v2.
Qed.
End FromJoin.

(** A relation is all stable. *)
Lemma relation_known {Key Val : Type} `{Ord Key, Ord Val} (r : Relation (Key * Val)) x : input_known r x <-> x ∈ r.
Proof. unfold input_known. cbn. rewrite in_batches_cons, in_batches_nil, elem_of_nil. tauto. Qed.

Lemma relation_input_ok {Key Val : Type} `{Ord Key, Ord Val} (r : Relation (Key * Val)) : sorted r -> input_ok r.
Proof. intros Hr. split; [by repeat constructor|constructor]. Qed.

Lemma variable_input_ok {Key Val : Type} `{Ord Key, Ord Val} (v : DVariable (Key * Val)) : var_ok v -> input_ok v.
Proof. by intros (? & ? & _). Qed.
