(* ===== verification/SemiNaive.v ===== *)
(** * Semi-naive evaluation

    A Datalog program is given by its rules on ground facts; [derives] is its least model.  A loop
    [while iteration.changed() { body }] that, in each round, turns the recent facts stable and the pending
    ones recent, and adds the conclusions of the rules with at least one recent premise ([Round]), reaches
    exactly the least model, in at most twice as many rounds as there are facts, plus three.  Facts a program
    throws away when they arrive are those that [keep] rejects.  A fact that arrives again is recent
    again, unless it is one of those kept [exact]; no rule leads from a fact that is not kept exact to
    another. *)
From Stdlib Require Import ZArith Lia.
From stdpp Require Import base numbers list.
From S2P Require Import Prelude Datafrog.
#[local] Open Scope nat_scope.
Open Scope rust_scope.

Section Model.
Context {Fact : Type} (rule : list Fact -> Fact -> Prop) (keep : Fact -> Prop).

Inductive derives : Fact -> Prop :=
| derives_rule prems f : rule prems f -> keep f -> (forall p, p ∈ prems -> derives p) -> derives f.

(** The least model: any set closed under the rules contains it. *)
Lemma derives_least (S : Fact -> Prop) f :
  (forall prems f, rule prems f -> keep f -> (forall p, p ∈ prems -> S p) -> S f) -> derives f -> S f.
Proof. intros HS. induction 1 as [prems f Hr Hk _ IH]. by apply (HS prems). Qed.
End Model.

Lemma derives_ext {F} (rule rule' : list F -> F -> Prop) (keep keep' : F -> Prop) : (forall prems f, rule prems f <-> rule' prems f) -> (forall f, keep f <-> keep' f) -> forall f, derives rule keep f <-> derives rule' keep' f.
Proof. intros HR HK f. split; induction 1 as [prems f Hr Hk _ IH]; (apply (derives_rule _ _ prems); [by apply HR|by apply HK|done]). Qed.

(** Derivations of one program simulated in another. *)
Lemma derives_mono {F G : Type} (rule : list F -> F -> Prop) keep (rule' : list G -> G -> Prop) keep' (R : F -> G -> Prop) f g :
  (forall prems f g, rule prems f -> keep f -> R f g -> (forall p q, p ∈ prems -> R p q -> derives rule' keep' q) -> derives rule' keep' g) ->
  derives rule keep f -> R f g -> derives rule' keep' g.
Proof. intros HS Hd. revert g. induction Hd as [prems f Hr Hk _ IH]. intros g HR. apply (HS prems f); [done|done|done|]. intros p q Hp Hq. by apply (IH p Hp). Qed.

(** A rule fires in a round: its premises are known, one of them since this round. *)
Definition fires {Fact} (known recent : Fact -> Prop) (prems : list Fact) : Prop := (forall p, p ∈ prems -> known p) /\ exists p, p ∈ prems /\ recent p.

Lemma fires_nil {Fact} (K R : Fact -> Prop) : fires K R [] <-> False.
Proof. split; [|done]. by intros (_ & p & ?%elem_of_nil & _). Qed.

Lemma fires_1 {Fact} (K R : Fact -> Prop) a : fires K R [a] <-> K a /\ R a.
Proof.
  split; [intros (Hk & p & ->%list_elem_of_singleton & Hr); split; [apply Hk; left|done]|]. intros [Hk Hr]. split; [by intros p ->%list_elem_of_singleton|]. exists a. split; [left|done].
Qed.

Lemma fires_2 {Fact} (K R : Fact -> Prop) a b : fires K R [a; b] <-> K a /\ K b /\ (R a \/ R b).
Proof.
  split.
  - intros (Hk & p & Hp & Hr). split; [apply Hk; left|]. split; [apply Hk; right; left|]. apply elem_of_cons in Hp as [->| ->%list_elem_of_singleton]; tauto.
  - intros (Ha & Hb & Hr). split; [by intros p [->| ->%list_elem_of_singleton]%elem_of_cons|]. destruct Hr; [exists a; split; [left|done]|exists b; split; [right; left|done]].
Qed.

(** The conclusions of the rules that fire. *)
Definition delta {Fact} (rule : list Fact -> Fact -> Prop) (known recent : Fact -> Prop) (f : Fact) : Prop := exists prems, rule prems f /\ fires known recent prems.

Lemma delta_ext {Fact} (rule : list Fact -> Fact -> Prop) (K K' R R' : Fact -> Prop) f : (forall g, K g <-> K' g) -> (forall g, R g <-> R' g) -> delta rule K R f <-> delta rule K' R' f.
Proof.
  intros HK HR. unfold delta, fires. split; intros (prems & Hrule & Hk & p & Hp & Hr); exists prems; (split; [done|]); (split; [intros q Hq; by apply HK, Hk|]); exists p; (split; [done|]); by apply HR.
Qed.

Section SemiNaive.
Context {St Fact : Type} (changed_all : St -> bool * St) (body : St -> outcome St).
Context (stable_f recent_f pending_f : St -> Fact -> Prop) (ok : St -> Prop).
Context (rule : list Fact -> Fact -> Prop) (keep exact : Fact -> Prop).

Definition known_f (st : St) (f : Fact) : Prop := stable_f st f \/ recent_f st f.

(** What a round of the loop must do. *)
Record Round : Prop := {
  round_exit : forall st st1, ok st -> changed_all st = (false, st1) ->
    (forall f, stable_f st1 f <-> known_f st f) /\ (forall f, pending_f st f -> known_f st f);
  round_step : forall st st1, ok st -> changed_all st = (true, st1) ->
    exists st2, body st1 = Ret st2 /\ ok st2 /\ (exists f, pending_f st f) /\
    (forall f, stable_f st2 f <-> known_f st f) /\ (forall f, recent_f st2 f <-> pending_f st f /\ keep f /\ (exact f -> ~ known_f st f)) /\
    (forall f, pending_f st2 f <-> delta rule (known_f st2) (recent_f st2) f);
  round_exact : forall prems f p, rule prems f -> p ∈ prems -> exact p \/ exact f;
}.

Context (HR : Round) (known_dec : forall st f, Decision (known_f st f)).
Context (U : list Fact) (HU : forall f, derives rule keep f -> f ∈ U).

(** Nothing is known or pending without a derivation; what the known facts entail is known or pending. *)
Definition loop_inv (st : St) : Prop :=
  ok st /\ (forall f, known_f st f -> derives rule keep f) /\ (forall f, pending_f st f -> keep f -> derives rule keep f) /\
  (forall prems f, rule prems f -> keep f -> (forall p, p ∈ prems -> known_f st p) -> known_f st f \/ pending_f st f).

Definition unknown_in (V : list Fact) (st : St) : nat := length (List.filter (fun f => negb (bool_decide (known_f st f))) V).
Abbreviation unknown := (unknown_in U).

Lemma stable_or_recent st (prems : list Fact) : (forall p, p ∈ prems -> known_f st p) -> (forall p, p ∈ prems -> stable_f st p) \/ exists p, p ∈ prems /\ recent_f st p.
Proof.
  induction prems as [|q prems IH]; intros Hk; [left; intros p Hp; by apply elem_of_nil in Hp|]. destruct (Hk q (list_elem_of_here _ _)) as [Hs|Hr]; [|right; exists q; split; [left|done]].
  destruct IH as [IH|(p & Hp & Hr)]; [intros p Hp; apply Hk; by right|left; intros p [->|Hp]%elem_of_cons; auto|right; exists p; split; [by right|done]].
Qed.

Lemma loop_inv_step st st1 st2 : loop_inv st -> changed_all st = (true, st1) -> body st1 = Ret st2 -> loop_inv st2.
Proof.
  intros (Hok & Hkn & Hp & Hcl) Hc Hb. destruct (round_step HR st st1 Hok Hc) as (st2' & Hb' & Hok2 & _ & Hs & Hr & Hpe). rewrite Hb in Hb'. injection Hb' as <-.
  assert (Hkn2 : forall f, known_f st2 f -> derives rule keep f) by (intros f [Hf|Hf]; [by apply Hkn, Hs|apply Hr in Hf as (? & ? & _); by apply Hp]).
  split; [done|]. split; [done|]. split.
  - intros f (prems & Hrule & Hprems & _)%Hpe Hkeep. apply (derives_rule _ _ prems); [done|done|]. auto.
  - intros prems f Hrule Hkeep Hprems. destruct (stable_or_recent st2 prems Hprems) as [Hst|Hre].
    + left. destruct (decide (known_f st f)) as [Hf|Hf]; [left; by apply Hs|]. destruct (Hcl prems f Hrule Hkeep) as [?|Hpf]; [intros p Hp'; by apply Hs, Hst|done|right; apply Hr; auto].
    + right. apply Hpe. exists prems. split; [done|]. by split.
Qed.

Lemma unknown_le V st st2 : (forall f, known_f st f -> known_f st2 f) -> unknown_in V st2 <= unknown_in V st.
Proof.
  intros Hmono. unfold unknown_in. induction V as [|g V IH]; cbn [List.filter]; [done|].
  destruct (bool_decide_reflect (known_f st2 g)) as [Hg2|Hg2], (bool_decide_reflect (known_f st g)) as [Hg|Hg]; cbn [negb length]; [done|lia|by apply Hmono in Hg|lia].
Qed.

Lemma unknown_lt V st st2 f : (forall f, known_f st f -> known_f st2 f) -> f ∈ V -> known_f st2 f -> ~ known_f st f -> unknown_in V st2 < unknown_in V st.
Proof.
  intros Hmono Hf Hk2 Hk. induction V as [|g V IH]; [by apply elem_of_nil in Hf|]. pose proof (unknown_le V st st2 Hmono) as Hle. unfold unknown_in in *. cbn [List.filter]. apply elem_of_cons in Hf as [<-|Hf].
  - rewrite (bool_decide_eq_true_2 _ Hk2), (bool_decide_eq_false_2 _ Hk). cbn [negb length]. lia.
  - specialize (IH Hf). destruct (bool_decide_reflect (known_f st2 g)) as [Hg2|Hg2], (bool_decide_reflect (known_f st g)) as [Hg|Hg]; cbn [negb length]; [done|lia|by apply Hmono in Hg|lia].
Qed.

(** A round learns a new fact, or its recent facts are all old. *)
Lemma unknown_step st st1 st2 : loop_inv st -> changed_all st = (true, st1) -> body st1 = Ret st2 ->
  unknown st2 <= unknown st /\ (unknown st2 < unknown st \/ forall f, recent_f st2 f -> known_f st f).
Proof.
  intros Hi Hc Hb. pose proof (loop_inv_step _ _ _ Hi Hc Hb) as Hi2. destruct Hi as (Hok & _). destruct (round_step HR st st1 Hok Hc) as (st2' & Hb' & _ & _ & Hs & Hr & Hpe). rewrite Hb in Hb'. injection Hb' as <-.
  assert (Hmono : forall f, known_f st f -> known_f st2 f) by (intros f Hf; left; by apply Hs). split; [by apply unknown_le|]. destruct (decide (unknown st2 < unknown st)) as [?|Hnl]; [by left|right]. intros f Hf.
  destruct (decide (known_f st f)) as [?|Hn]; [done|]. exfalso. apply Hnl, (unknown_lt _ st st2 f); [done| |by right|done]. apply HU. destruct Hi2 as (_ & Hk2 & _). apply Hk2. by right.
Qed.

(** When the recent facts are all old, the pending ones are kept exact; when there are none, nothing is pending. *)
Lemma stale_step st st1 st2 : ok st -> changed_all st = (true, st1) -> body st1 = Ret st2 -> (forall f, recent_f st2 f -> known_f st f) ->
  (forall f, pending_f st2 f -> exact f) /\ ((forall f, pending_f st f -> exact f) -> forall f, ~ pending_f st2 f).
Proof.
  intros Hok Hc Hb Hold. destruct (round_step HR st st1 Hok Hc) as (st2' & Hb' & _ & _ & _ & Hr & Hpe). rewrite Hb in Hb'. injection Hb' as <-. split.
  - intros f (prems & Hrule & _ & p & Hp & Hpr)%Hpe. destruct (round_exact HR _ _ _ Hrule Hp) as [He|?]; [|done]. exfalso. destruct (proj1 (Hr p) Hpr) as (_ & _ & Hn). by apply Hn, Hold.
  - intros Hex f (prems & _ & _ & p & _ & Hpr)%Hpe. destruct (proj1 (Hr p) Hpr) as (Hpp & _ & Hn). by apply Hn; [apply Hex|apply Hold].
Qed.

Lemma iterate_more fuel st r : iterate fuel changed_all body st = Ret r -> iterate (S fuel) changed_all body st = Ret r.
Proof.
  revert st. induction fuel as [|fuel IH]; intros st; [done|]. cbn [iterate]. intros Hi. destruct (changed_all st) as [[] st1]; [|done]. destruct (body st1) as [st2| |]; cbn [obind] in *; [|done|done]. by apply IH.
Qed.

Lemma iterate_fuel fuel fuel' st r : fuel <= fuel' -> iterate fuel changed_all body st = Ret r -> iterate fuel' changed_all body st = Ret r.
Proof. induction 1 as [|fuel' _ IH]; [done|]. intros Hi. by apply iterate_more, IH. Qed.

Lemma loop_exit st r : loop_inv st -> changed_all st = (false, r) -> ok st /\ forall f, stable_f r f <-> derives rule keep f.
Proof.
  intros (Hok & Hkn & Hp & Hcl) Hc. destruct (round_exit HR st r Hok Hc) as [Hs Hpk]. split; [done|]. intros f. rewrite Hs. split; [apply Hkn|].
  apply derives_least. intros prems g Hrule Hkeep Hprems. destruct (Hcl prems g Hrule Hkeep Hprems) as [?|?]; auto.
Qed.

Definition finishes (fuel : nat) (st : St) : Prop :=
  exists r st', iterate fuel changed_all body st = Ret r /\ ok st' /\ changed_all st' = (false, r) /\ forall f, stable_f r f <-> derives rule keep f.

Lemma finishes_fuel fuel fuel' st : fuel <= fuel' -> finishes fuel st -> finishes fuel' st.
Proof. intros Hle (r & st' & Hit & Hrest). exists r, st'. split; [by apply (iterate_fuel fuel)|done]. Qed.

(** One round of the loop: it ends, or goes on from the next state. *)
Lemma finishes_step fuel st : loop_inv st ->
  (forall st1 st2, changed_all st = (true, st1) -> body st1 = Ret st2 -> loop_inv st2 -> finishes fuel st2) -> finishes (S fuel) st.
Proof.
  intros Hi Hnext. unfold finishes. cbn [iterate]. destruct (changed_all st) as [[] st1] eqn:Ec; [|destruct (loop_exit st st1 Hi Ec); by exists st1, st].
  destruct (round_step HR st st1 (proj1 Hi) Ec) as (st2 & Hb & _). rewrite Hb. cbn [obind]. apply (Hnext st1 st2 eq_refl Hb). by apply (loop_inv_step st st1).
Qed.

Lemma iterate_exact st : loop_inv st -> finishes (2 * unknown st + 3) st.
Proof.
  intros Hi. remember (unknown st) as n eqn:En. revert st Hi En. induction n as [n IH] using lt_wf_ind. intros st Hi En.
  apply (finishes_fuel (S (2 * n + 2))); [lia|]. apply finishes_step; [done|]. intros st1 st2 Hc Hb Hi2. destruct (unknown_step _ _ _ Hi Hc Hb) as [Hle [Hlt|Hold]].
  { apply (finishes_fuel (2 * unknown st2 + 3)); [lia|]. apply (IH (unknown st2)); [lia|done|done]. }
  destruct (stale_step _ _ _ (proj1 Hi) Hc Hb Hold) as [Hex _].
  apply (finishes_fuel (S (2 * n + 1))); [lia|]. apply finishes_step; [done|]. intros st3 st4 Hc2 Hb2 Hi4. destruct (unknown_step _ _ _ Hi2 Hc2 Hb2) as [Hle4 [Hlt|Hold2]].
  { apply (finishes_fuel (2 * unknown st4 + 3)); [lia|]. apply (IH (unknown st4)); [lia|done|done]. }
  destruct (stale_step _ _ _ (proj1 Hi2) Hc2 Hb2 Hold2) as [_ Hnone]. apply (finishes_fuel (S (2 * n))); [lia|]. apply finishes_step; [done|]. intros st5 st6 Hc3 _ _.
  destruct (round_step HR st4 st5 (proj1 Hi4) Hc3) as (_ & _ & _ & (f & Hf) & _). by apply Hnone in Hf.
Qed.

(** From a state with nothing known and the premise-free facts pending, the loop computes the least model. *)
Lemma semi_naive_exact st : ok st -> (forall f, ~ known_f st f) -> (forall f, pending_f st f <-> rule [] f) ->
  exists r, (forall fuel, 2 * length U + 3 <= fuel -> iterate fuel changed_all body st = Ret r) /\
    (exists st', ok st' /\ changed_all st' = (false, r)) /\ forall f, stable_f r f <-> derives rule keep f.
Proof.
  intros Hok Hk Hp. assert (Hi : loop_inv st).
  { split; [done|]. split; [intros f Hf; by apply Hk in Hf|]. split.
    - intros f Hf%Hp Hkeep. apply (derives_rule _ _ []); [done|done|]. intros p Hp'. by apply elem_of_nil in Hp'.
    - intros prems f Hr _ Hprems. right. apply Hp. destruct prems as [|p prems]; [done|]. exfalso. by apply (Hk p), Hprems, list_elem_of_here. }
  destruct (iterate_exact st Hi) as (r & st' & Hit & Hok' & Hc & Hd). exists r. split; [|split; [by exists st'|done]]. intros fuel Hf. apply (iterate_fuel (2 * unknown st + 3)); [|done].
  unfold unknown_in. pose proof (filter_length_le (fun f => negb (bool_decide (known_f st f))) U). lia.
Qed.
End SemiNaive.
Arguments Round {St Fact} _ _ _ _ _ _ _ _ _.
