(* ===== verification/DatafrogProgram.v ===== *)
(** * Datalog programs on the engine

    A program is a state whose variables are a family [vars st i] indexed by the relations of the program, with a
    [changed] that asks each of them and a body that adds, for each rule, the conclusions with a recent
    premise.  Such a program computes the least model of its rules: the loop ends, and [complete] of each variable
    lists the derivable tuples of its relation. *)
From Stdlib Require Import ZArith Lia.
From stdpp Require Import base numbers list.
From S2P Require Import Prelude RustSlice Datafrog DatafrogFacts DatafrogLeap DatafrogVar SemiNaive.
#[local] Open Scope nat_scope.
Open Scope rust_scope.

(** No fact is thrown away. *)
Definition keep_all {F} (_ : F) : Prop := True.

(** The computation terminates: with enough fuel it returns one result, which satisfies [Q]. *)
Definition settles {A} (run : nat -> outcome A) (Q : A -> Prop) : Prop :=
  exists bound r, (forall fuel, bound <= fuel -> run fuel = Ret r) /\ Q r.

Lemma settles_ret {A} (a : A) (Q : A -> Prop) : Q a -> settles (fun _ => Ret a) Q.
Proof. intros Ha. exists 0, a. done. Qed.

Lemma settles_bind {A B} (run : nat -> outcome A) (k : nat -> A -> outcome B) (P : A -> Prop) (Q : B -> Prop) :
  settles run P -> (forall a, P a -> settles (fun fuel => k fuel a) Q) -> settles (fun fuel => obind (run fuel) (k fuel)) Q.
Proof.
  intros (b1 & a & H1 & Ha) Hk. destruct (Hk a Ha) as (b2 & r & H2 & Hr). exists (b1 `max` b2), r. split; [|done]. intros fuel Hf. rewrite H1 by lia. cbn [obind]. apply H2. lia.
Qed.

Lemma settles_mono {A} (run : nat -> outcome A) (P Q : A -> Prop) : settles run P -> (forall a, P a -> Q a) -> settles run Q.
Proof. intros (b & a & H1 & Ha) HPQ. exists b, a. auto. Qed.

(** More fuel does not change a result. *)
Definition steady {A} (run : nat -> outcome A) : Prop := forall fuel fuel' r, fuel <= fuel' -> run fuel = Ret r -> run fuel' = Ret r.

Lemma steady_ret {A} (m : outcome A) : steady (fun _ => m).
Proof. by intros fuel fuel' r _. Qed.

Lemma steady_bind {A B} (run : nat -> outcome A) (k : nat -> A -> outcome B) : steady run -> (forall a, steady (fun fuel => k fuel a)) -> steady (fun fuel => obind (run fuel) (k fuel)).
Proof. intros Hrun Hk fuel fuel' r Hle. destruct (run fuel) as [a| |] eqn:Er; cbn [obind]; [|done|done]. rewrite (Hrun fuel fuel' a Hle Er). cbn [obind]. by apply Hk. Qed.

Lemma steady_iterate {St} (changed_all : St -> bool * St) body st : steady (fun fuel => iterate fuel changed_all body st).
Proof. intros fuel fuel' r. apply iterate_fuel. Qed.

Lemma settles_at {A} (run : nat -> outcome A) Q fuel r : settles run Q -> steady run -> run fuel = Ret r -> Q r.
Proof. intros (b & r' & Hrun & HQ) Hst Hr. assert (Ret r = Ret r') as [= ->]; [|done]. rewrite <- (Hrun (fuel `max` b)) by lia. symmetry. apply (Hst fuel); [lia|done]. Qed.

(** Every definition that loops is a sequence of steps, of which some loop. *)
Ltac steady := repeat first [apply steady_ret | apply steady_iterate | apply steady_bind; [|intros] | match goal with |- steady (fun fuel => let '(_, _) := ?x in _) => destruct x end].

(** Finitely many facts. *)
Definition finite_set {F} (P : F -> Prop) : Prop := exists U : list F, forall f, P f -> f ∈ U.

Lemma finite_pairs {A B} (la : list A) (lb : list B) : finite_set (fun '(a, b) => a ∈ la /\ b ∈ lb).
Proof. exists (list_prod la lb). intros [a b] [Ha Hb]. rewrite list_elem_of_In. apply in_prod_iff. by rewrite <- !list_elem_of_In. Qed.

Lemma finite_triples {A B C} (la : list A) (lb : list B) (lc : list C) : finite_set (fun '(a, b, c) => a ∈ la /\ b ∈ lb /\ c ∈ lc).
Proof. exists (list_prod (list_prod la lb) lc). intros [[a b] c] (Ha & Hb & Hc). rewrite list_elem_of_In. apply in_prod_iff. split; [apply in_prod_iff|]; by rewrite <- ?list_elem_of_In. Qed.

Lemma finite_map {A F} (g : A -> F) (P : A -> Prop) : finite_set P -> finite_set (fun f => exists a, P a /\ f = g a).
Proof. intros [U HU]. exists (g <$> U). intros f (a & Ha & ->). apply list_elem_of_fmap. eauto. Qed.

Lemma finite_or {F} (P Q : F -> Prop) : finite_set P -> finite_set Q -> finite_set (fun f => P f \/ Q f).
Proof. intros [U HU] [V HV]. exists (U ++ V). intros f [Hf|Hf]; apply elem_of_app; [left|right]; auto. Qed.

Lemma finite_sub {F} (P Q : F -> Prop) : finite_set P -> (forall f, Q f -> P f) -> finite_set Q.
Proof. intros [U HU] HQ. exists U. auto. Qed.

(** The loop, from its initial facts, when the least model is finite. *)
Lemma loop_settles {St Fact} (changed_all : St -> bool * St) body (stable_f recent_f pending_f : St -> Fact -> Prop) ok rule keep exact st (Q : St -> Prop) :
  Round changed_all body stable_f recent_f pending_f ok rule keep exact -> (forall st f, Decision (known_f stable_f recent_f st f)) -> finite_set (derives rule keep) ->
  ok st -> (forall f, ~ known_f stable_f recent_f st f) -> (forall f, pending_f st f <-> rule [] f) ->
  (forall st' r, ok st' -> changed_all st' = (false, r) -> (forall f, stable_f r f <-> derives rule keep f) -> Q r) ->
  settles (fun fuel => iterate fuel changed_all body st) Q.
Proof.
  intros HR Hdec [U HU] Hok Hk Hp HQ. destruct (semi_naive_exact _ _ _ _ _ _ _ _ _ HR Hdec U HU st Hok Hk Hp) as (r & Hit & (st' & Hok' & Hc) & Hd). exists (2 * length U + 3), r. split; [done|]. by apply (HQ st').
Qed.

(** Facts are finitely many when each relation has finitely many tuples. *)
Lemma finite_view {I Fact} {T : I -> Type} (mk : forall i, T i -> Fact) (view : Fact -> sigT T) (mk_view : forall f, mk (projT1 (view f)) (projT2 (view f)) = f) (rels : list I) (tuples : forall i, list (T i)) (P : Fact -> Prop) :
  (forall i, i ∈ rels) -> (forall f, P f -> projT2 (view f) ∈ tuples (projT1 (view f))) -> finite_set P.
Proof.
  intros Hrels HP. exists (flat_map (fun i => mk i <$> tuples i) rels). intros f Hf. apply list_elem_of_In, in_flat_map. exists (projT1 (view f)). split; apply list_elem_of_In; [done|]. apply list_elem_of_fmap. eauto.
Qed.

(** A sorted vector with exactly the tuples of [P]. *)
Definition enumerates {A} `{Ord A} (l : list A) (P : A -> Prop) : Prop := sorted l /\ forall x, x ∈ l <-> P x.

Lemma enumerates_iff {A} `{Ord A} (l : list A) (P Q : A -> Prop) : enumerates l P -> (forall x, P x <-> Q x) -> enumerates l Q.
Proof. intros [Hs Hin] HPQ. split; [done|]. intros x. by rewrite Hin. Qed.

Lemma complete_enumerates {A} `{Ord A} (v v' : DVariable A) (P : A -> Prop) : dvar_ok v -> changed v = (false, v') -> (forall x, in_batches (stable v') x <-> P x) -> exists r, complete v' = Ret r /\ enumerates r P.
Proof.
  intros Hok Hc HP. destruct (changed_exit v v' Hok Hc) as ([Hok' _] & Hr & Ha & _). destruct (complete_spec v' Hok' Hr Ha) as (r & Hcr & Hs & Hin). exists r. split; [done|]. split; [done|]. intros x. by rewrite Hin.
Qed.

(** Facts about fired rules: go from the rule to its premises. *)
Ltac fired H :=
  let prems := fresh "prems" in let Hr := fresh "Hrule" in let Hf := fresh "Hfires" in
  destruct H as (prems & Hr & Hf); inversion Hr; subst; clear Hr;
  first [rewrite fires_nil in Hf; destruct Hf | rewrite fires_1 in Hf; destruct Hf | rewrite fires_2 in Hf; destruct Hf as (? & ? & ?)].

(** Choose a rule and show that it fires. *)
Ltac fire prems := exists prems; split; [|first [apply fires_1 | apply fires_2]].

(** A join with a relation that does not vary. *)
Lemma from_join_rel {Key Val1 Val2 Tuple} `{Ord Key, Ord Val1, Ord Val2, Ord Tuple} (v : DVariable Tuple) (w : DVariable (Key * Val1)) (r : Relation (Key * Val2)) logic :
  dvar_ok w -> sorted r -> adds v (fun x => exists k v1 v2, (k, v1) ∈ recent w /\ (k, v2) ∈ r /\ x = logic k v1 v2) (from_join v w r logic).
Proof.
  intros [Hw _] Hr. eapply adds_iff; [|by apply from_join_adds; [|apply relation_input_ok]]. intros x. split.
  - intros (k & v1 & v2 & Hk & Hrel & [?|Hrec] & ->); [|by apply elem_of_nil in Hrec]. apply relation_known in Hrel. eauto 10.
  - intros (k & v1 & v2 & ? & ? & ->). exists k, v1, v2. split; [by right|]. split; [by apply relation_known|]. auto.
Qed.

(** A join of two variables. *)
Lemma from_join_var {Key Val1 Val2 Tuple} `{Ord Key, Ord Val1, Ord Val2, Ord Tuple} (v : DVariable Tuple) (w : DVariable (Key * Val1)) (u : DVariable (Key * Val2)) logic :
  var_ok w -> var_ok u -> adds v (fun x => exists k v1 v2, known w (k, v1) /\ known u (k, v2) /\ ((k, v1) ∈ recent w \/ (k, v2) ∈ recent u) /\ x = logic k v1 v2) (from_join v w u logic).
Proof. intros Hw Hu. exact (from_join_adds v w u logic Hw (variable_input_ok u Hu)). Qed.

(** A leapjoin over a tuple of leapers, one of which proposes values. *)
Fixpoint all_accept {Tuple Val} `{Ord Val} (ls : list (Leaper Tuple Val)) (t : Tuple) (w : Val) : Prop :=
  match ls with [] => True | l :: ls => accepts l t w /\ all_accept ls t w end.

Fixpoint all_ok {Tuple Val} `{Ord Val} (ls : list (Leaper Tuple Val)) : Prop :=
  match ls with [] => True | l :: ls => leaper_ok l /\ all_ok ls end.

Lemma from_leapjoin_list {Source Val Tuple} `{Ord Val, Ord Tuple} (v : DVariable Tuple) (source : DVariable Source) (ls : list (Leaper Source Val)) logic :
  all_ok ls -> existsb is_extend_with ls = true ->
  exists v', from_leapjoin v source ls logic = Ret v' /\ adds v (fun x => exists t w, t ∈ recent source /\ all_accept ls t w /\ x = logic t w) v'.
Proof.
  intros Hok He. destruct (from_leapjoin_adds v source ls logic) as (v' & Hv & Hadd).
  - split; [clear He; induction ls; [constructor|]; destruct Hok; constructor; auto|]. apply existsb_exists in He as (l & Hl%list_elem_of_In & He). eauto.
  - exists v'. split; [done|]. eapply adds_iff; [|exact Hadd]. intros x. assert (Hall : forall t w, accepted ls t w <-> all_accept ls t w).
    { intros t w. cbn [accepted tuple_leapers_laws]. unfold tuple_accepted. clear. induction ls as [|l ls IH]; cbn; [split; [done|constructor]|]. by rewrite Forall_cons, IH. }
    split; intros (t & w & ? & Ha & ->); exists t, w; split_and!; try done; by apply Hall.
Qed.

(** ** Programs *)

(** A variable before the loop, with its initial tuples to be added. *)
Definition starts {A} `{Ord A} (v : DVariable A) (kept : bool) (P : A -> Prop) : Prop := (var_ok v /\ distinct v = kept) /\ (forall x, ~ known v x) /\ forall x, pending v x <-> P x.

Lemma starts_adds {A} `{Ord A} (v : DVariable A) (P Q : A -> Prop) : adds variable P v -> (forall x, P x <-> Q x) -> starts v true Q.
Proof. intros Hv HPQ. destruct (variable_adds _ _ Hv) as ([? ?] & ? & Hp). split_and!; try done. intros x. by rewrite Hp. Qed.

Lemma starts_empty {A} `{Ord A} (P : A -> Prop) : (forall x, ~ P x) -> starts variable true P /\ starts variable_indistinct false P.
Proof.
  intros HP. split; [eapply starts_adds; [apply adds_refl|]; intros x; specialize (HP x); tauto|]. split_and!; [apply variable_ok|done| |]; intros x; unfold known, pending; cbn; rewrite in_batches_nil, ?elem_of_nil; [tauto|]. specialize (HP x). tauto.
Qed.

Section Program.
Context {I : Type} {T : I -> Type} {HO : forall i, Ord (T i)} {St Fact : Type}.
Context (vars : St -> forall i, DVariable (T i)) (mk : forall i, T i -> Fact) (view : Fact -> sigT T) (view_mk : forall i x, view (mk i x) = existT i x) (mk_view : forall f, mk (projT1 (view f)) (projT2 (view f)) = f).
Context (changed_all : St -> bool * St) (body : St -> outcome St) (rule : list Fact -> Fact -> Prop) (keep : Fact -> Prop) (kept : I -> bool).

Definition in_stable (st : St) (f : Fact) : Prop := in_batches (stable (vars st (projT1 (view f)))) (projT2 (view f)).
Definition in_recent (st : St) (f : Fact) : Prop := projT2 (view f) ∈ recent (vars st (projT1 (view f))).
Definition in_pending (st : St) (f : Fact) : Prop := pending (vars st (projT1 (view f))) (projT2 (view f)).
Definition in_known (st : St) (f : Fact) : Prop := known_f in_stable in_recent st f.

(** The variables that are kept distinct are those of [kept]. *)
Definition prog_ok (st : St) : Prop := forall i, var_ok (vars st i) /\ distinct (vars st i) = kept i.

Definition kept_fact (f : Fact) : Prop := kept (projT1 (view f)) = true.

(** The body, from a state right after [changed]. *)
Record Program : Prop := {
  prog_vars : forall st i, vars (changed_all st).2 i = (changed (vars st i)).2;
  prog_flag : forall st, (changed_all st).1 = true <-> exists i, (changed (vars st i)).1 = true;
  prog_kept : forall prems f p, rule prems f -> p ∈ prems -> kept_fact p \/ kept_fact f;
  prog_body : forall st, prog_ok st -> (forall i, to_add (vars st i) = []) ->
    exists st', body st = Ret st' /\ prog_ok st' /\ (forall f, in_stable st' f <-> in_stable st f) /\ (forall f, in_recent st' f <-> in_recent st f /\ keep f) /\
    (forall f, in_pending st' f <-> delta rule (in_known st') (in_recent st') f);
}.

Lemma in_known_dec st f : Decision (in_known st f).
Proof. apply (known_dec (vars st (projT1 (view f))) (projT2 (view f))). Defined.

(** What [changed] does to each variable of a state. *)
Lemma prog_changed_spec (HP : Program) st c st1 : prog_ok st -> changed_all st = (c, st1) ->
  prog_ok st1 /\ (forall i, to_add (vars st1 i) = []) /\ (forall f, in_stable st1 f <-> in_known st f) /\ (forall f, in_recent st1 f <-> in_pending st f /\ (kept_fact f -> ~ in_known st f)) /\
  (c = true <-> exists i, recent (vars st1 i) <> []).
Proof.
  intros Hok Hc. assert (Hi : forall i, exists ci, changed (vars st i) = (ci, vars st1 i)).
  { intros i. pose proof (prog_vars HP st i) as Hv. rewrite Hc in Hv. destruct (changed (vars st i)) as [ci v]. cbn [fst snd] in Hv. rewrite Hv. eauto. }
  assert (Hspec : forall i, var_ok (vars st1 i) /\ to_add (vars st1 i) = [] /\ distinct (vars st1 i) = kept i /\ (forall x, in_batches (stable (vars st1 i)) x <-> known (vars st i) x) /\
    (forall x, x ∈ recent (vars st1 i) <-> pending (vars st i) x /\ (kept i = true -> ~ known (vars st i) x)) /\ ((changed (vars st i)).1 = true <-> recent (vars st1 i) <> [])).
  { intros i. destruct (Hi i) as [ci Hci]. destruct (Hok i) as [Hv Hd]. destruct (changed_spec _ _ _ Hv Hci) as (H1 & H2 & H3 & H4 & H5 & H6). rewrite Hd in *. rewrite Hci. done. }
  split_and!.
  - intros i. destruct (Hspec i) as (? & _ & ? & _). done.
  - intros i. apply Hspec.
  - intros f. apply Hspec.
  - intros f. apply Hspec.
  - pose proof (prog_flag HP st) as Hf. rewrite Hc in Hf. cbn [fst] in Hf. rewrite Hf. split; intros [i Hx]; exists i; by apply (Hspec i).
Qed.

Lemma program_round : Program -> Round changed_all body in_stable in_recent in_pending prog_ok rule keep kept_fact.
Proof.
  intros HP. split; [| |apply (prog_kept HP)]; intros st st1 Hok Hc; destruct (prog_changed_spec HP st _ st1 Hok Hc) as (Hok1 & Hta & Hs & Hr & Hf).
  - split; [done|]. intros f Hp. destruct (in_known_dec st f) as [?|Hn]; [done|]. exfalso. assert (Hin : in_recent st1 f) by by apply Hr. assert (Ht : false = true); [|done]. apply Hf. exists (projT1 (view f)). unfold in_recent in Hin. intros Hnil. rewrite Hnil in Hin. by apply elem_of_nil in Hin.
  - destruct (prog_body HP st1 Hok1 Hta) as (st2 & Hb & Hok2 & Hs2 & Hr2 & Hp2). exists st2. split; [done|]. split; [done|]. split; [|split; [intros f; by rewrite Hs2, Hs|split; [intros f; rewrite Hr2, Hr; tauto|done]]].
    destruct (proj1 Hf eq_refl) as [i Hi]. destruct (recent (vars st1 i)) as [|x l] eqn:El; [done|]. exists (mk i x). assert (Hx : in_recent st1 (mk i x)) by (unfold in_recent; rewrite view_mk; cbn; rewrite El; left). by apply Hr in Hx as [? _].
Qed.

(** Operations that only add to the variables of [st] leave what is stable and recent there. *)
Lemma adds_program st st' : prog_ok st -> (forall i, exists P, adds (vars st i) P (vars st' i)) -> (forall f, in_pending st' f <-> delta rule (in_known st) (in_recent st) f) ->
  prog_ok st' /\ (forall f, in_stable st' f <-> in_stable st f) /\ (forall f, in_recent st' f <-> in_recent st f) /\ (forall f, in_pending st' f <-> delta rule (in_known st') (in_recent st') f).
Proof.
  intros Hok Hadds Hp. assert (Hs : forall f, in_stable st' f <-> in_stable st f) by (intros f; unfold in_stable; destruct (Hadds (projT1 (view f))) as (P & _ & -> & _); done).
  assert (Hr : forall f, in_recent st' f <-> in_recent st f) by (intros f; unfold in_recent; destruct (Hadds (projT1 (view f))) as (P & _ & _ & -> & _); done).
  split; [|split; [done|]; split; [done|]].
  - intros i. destruct (Hadds i) as (P & -> & _ & _ & Hv & _). destruct (Hok i). auto.
  - intros f. rewrite Hp. apply delta_ext; [|done]. intros g. unfold in_known, known_f. by rewrite Hs, Hr.
Qed.

(** The relations of the program at the end of its loop. *)
Definition completed (st : St) : Prop := forall i, exists r, complete (vars st i) = Ret r /\ enumerates r (fun x => derives rule keep (mk i x)).

Lemma program_settles st : Program -> finite_set (derives rule keep) -> (forall i, starts (vars st i) (kept i) (fun x => rule [] (mk i x))) -> settles (fun fuel => iterate fuel changed_all body st) completed.
Proof.
  intros HP Hfin Hst. eapply loop_settles; [by apply program_round|apply in_known_dec|done|intros i; apply Hst| | |].
  - intros f. apply Hst.
  - intros f. unfold in_pending. rewrite (proj2 (proj2 (Hst _))). by rewrite mk_view.
  - intros st' r Hok' Hc Hd i. destruct (prog_changed_spec HP st' _ r Hok' Hc) as (Hv & Ha & _ & _ & Hf). destruct (Hv i) as [Hvi _]. pose proof (Ha i) as Hai.
    assert (Hnil : recent (vars r i) = []) by (destruct (recent (vars r i)) eqn:E; [done|]; assert (false = true); [|done]; apply Hf; exists i; by rewrite E).
    destruct (complete_spec _ Hvi Hnil Hai) as (l & Hl & Hs & Hin). exists l. split; [done|]. split; [done|]. intros x. rewrite Hin, <- Hd. unfold in_stable. by rewrite view_mk.
Qed.
End Program.

(** ** Programs whose variables are all kept distinct *)

Section Simple.
Context {I : Type} {T : I -> Type} {HO : forall i, Ord (T i)} {St Fact : Type}.
Context (vars : St -> forall i, DVariable (T i)) (mk : forall i, T i -> Fact) (view : Fact -> sigT T).
Context (changed_all : St -> bool * St) (body : St -> outcome St) (rule : list Fact -> Fact -> Prop).

Definition all_distinct (i : I) : bool := true.
(** A state right after [changed]. *)
Definition settled (st : St) : Prop := forall i, dvar_ok (vars st i) /\ forall x, ~ pending (vars st i) x.

Lemma simple_program :
  (forall st i, vars (changed_all st).2 i = (changed (vars st i)).2) -> (forall st, (changed_all st).1 = true <-> exists i, (changed (vars st i)).1 = true) ->
  (forall st, settled st -> exists st', body st = Ret st' /\ (forall i, exists P, adds (vars st i) P (vars st' i)) /\
    forall f, in_pending vars view st' f <-> delta rule (in_known vars view st) (in_recent vars view st) f) ->
  Program vars view changed_all body rule keep_all all_distinct.
Proof.
  intros Hv Hf Hb. split; [done|done|by left|]. intros st Hok Hta. destruct (Hb st) as (st' & Hst' & Hadds & Hp).
  { intros i. split; [apply Hok|]. intros x. unfold pending. rewrite Hta, in_batches_nil. tauto. }
  destruct (adds_program vars view rule all_distinct st st' Hok Hadds Hp) as (Hok' & Hs' & Hr' & Hp'). exists st'. split_and!; try done. intros f. rewrite Hr'. unfold keep_all. tauto.
Qed.

Context (view_mk : forall i x, view (mk i x) = existT i x) (mk_view : forall f, mk (projT1 (view f)) (projT2 (view f)) = f).

Lemma simple_settles st : Program vars view changed_all body rule keep_all all_distinct -> finite_set (derives rule keep_all) ->
  (forall i, adds variable (fun x => rule [] (mk i x)) (vars st i)) -> settles (fun fuel => iterate fuel changed_all body st) (completed vars mk rule keep_all).
Proof.
  intros HP Hfin Hinit. eapply program_settles; [done|done|done|done|]. intros i. by apply (starts_adds _ _ _ (Hinit i)).
Qed.

End Simple.

Lemma settled_pending {I : Type} {T : I -> Type} {HO : forall i, Ord (T i)} {St : Type} (vars : St -> forall i, DVariable (T i)) st st' i P x :
  settled vars st -> adds (vars st i) P (vars st' i) -> pending (vars st' i) x <-> P x.
Proof. intros Hs (_ & _ & _ & _ & ->). destruct (Hs i) as [_ Hn]. specialize (Hn x). tauto. Qed.
