(* ===== verification/DatafrogTheorems.v ===== *)
(** * The Datalog engine: what it promises

    Relations are sorted sets; a variable moves its tuples from "to be added" to recent to stable; joins, antijoins and
    leapjoins find exactly the tuples that their definitions ask for. *)
From Stdlib Require Import ZArith Lia.
From stdpp Require Import base numbers list.
From S2P Require Import Prelude RustSlice Datafrog DatafrogFacts DatafrogLeap DatafrogVar DatafrogProgram.
#[local] Open Scope nat_scope.
Open Scope rust_scope.

(** A [Relation] is a strictly sorted vector, whatever builds it: [from_vec] (from any vector) keeps the elements,
    [merge] is the union of two relations, and removing a batch from one ([changed]'s deduplication, whether by galloping
    or by a linear scan) is the difference; two relations with the same tuples are the same vector. *)
Theorem relation_operations {A} `{Ord A} (l : list A) (r1 r2 : Relation A) : sorted r1 -> sorted r2 ->
  (sorted (from_vec l) /\ forall x, x ∈ from_vec l <-> x ∈ l) /\
  (sorted (merge r1 r2) /\ forall x, x ∈ merge r1 r2 <-> x ∈ r1 \/ x ∈ r2) /\
  (sorted (restrict r1 r2) /\ forall x, x ∈ restrict r1 r2 <-> x ∈ r1 /\ x ∉ r2) /\
  ((forall x, x ∈ r1 <-> x ∈ r2) -> r1 = r2).
Proof.
  intros H1 H2. split; [split; [apply from_vec_sorted|intros x; apply from_vec_in]|]. split; [by apply merge_spec|]. split; [by apply restrict_spec|]. by apply sorted_ext.
Qed.

(** C33: the life cycle of a variable.  [changed] makes the recent tuples stable and the pending ones recent (without those
    already known, if the variable is kept distinct), leaves nothing pending and says whether anything is recent;
    [extend] only adds to what is pending; [complete] returns the stable tuples as a relation when nothing is recent or
    pending, and panics otherwise. *)
Theorem variable_life_cycle {A} `{Ord A} (v : DVariable A) (l : list A) : var_ok v ->
  (forall c v', changed v = (c, v') -> var_ok v' /\ distinct v' = distinct v /\ to_add v' = [] /\ (forall x, in_batches (stable v') x <-> known v x) /\
    (forall x, x ∈ recent v' <-> pending v x /\ (distinct v = true -> ~ known v x)) /\ (c = true <-> recent v' <> [])) /\
  (var_ok (extend v l) /\ stable (extend v l) = stable v /\ recent (extend v l) = recent v /\ forall x, pending (extend v l) x <-> pending v x \/ x ∈ l) /\
  (recent v = [] -> to_add v = [] -> exists r, complete v = Ret r /\ sorted r /\ forall x, x ∈ r <-> in_batches (stable v) x) /\
  (recent v <> [] \/ to_add v <> [] -> complete v = Panic).
Proof.
  intros Hok. split; [intros c v'; by apply changed_spec|]. split; [destruct (extend_adds v l) as (_ & Hs & Hr & Hv & Hp); auto|]. split; [by apply complete_spec|].
  unfold complete. destruct (recent v); [|done]. destruct (to_add v); [by intros [?|?]|done].
Qed.

(** C34: [Variable::from_join] adds, for each key, the results of the pairs of known tuples with that key of which at
    least one is recent, and nothing else; [Variable::from_antijoin] those of the recent tuples whose key is absent
    from the relation; [Relation::from_join] those of all the pairs with a common key. *)
Theorem joins_exact {K V1 V2 A} `{Ord K, Ord V1, Ord V2, Ord A} (out : DVariable A) (v1 : DVariable (K * V1)) (v2 : DVariable (K * V2)) (r1 : Relation (K * V1)) (r2 : Relation (K * V2)) (keys : Relation K) (f : K -> V1 -> V2 -> A) (g : K -> V1 -> A) :
  var_ok v1 -> var_ok v2 -> sorted r1 -> sorted r2 -> sorted keys ->
  adds out (fun x => exists k a b, known v1 (k, a) /\ known v2 (k, b) /\ ((k, a) ∈ recent v1 \/ (k, b) ∈ recent v2) /\ x = f k a b) (from_join out v1 v2 f) /\
  adds out (fun x => exists k a, (k, a) ∈ recent v1 /\ (k ∉ keys) /\ x = g k a) (from_antijoin out v1 keys g) /\
  enumerates (join_into_relation r1 r2 f) (fun x => exists k a b, (k, a) ∈ r1 /\ (k, b) ∈ r2 /\ x = f k a b).
Proof.
  intros O1 O2 S1 S2 Sk. split; [by apply from_join_var|]. split; [apply from_antijoin_adds; [apply O1|done]|]. split; [apply from_vec_sorted|]. intros x. unfold join_into_relation. rewrite from_vec_in. by apply join_slices_spec.
Qed.

(** C35: a leapjoin over a tuple of leapers, of which one at least is an [ExtendWith], returns the results of exactly the
    values that every leaper accepts for each tuple, without panicking, whichever leaper proposes; over a single
    filter, the tuples it accepts.  Over a tuple of two or more leapers without an [ExtendWith], which have no values to
    propose, it panics as soon as one tuple of the source passes all the filters of the tuple, and otherwise returns
    the empty relation. *)
Theorem leapjoin_exact {T V A} `{Ord T, Ord V, Ord A} (source : Relation T) (ls unrestricted : list (Leaper T V)) (filter : Leaper T unit) (f : T -> V -> A) (g : T -> unit -> A) :
  Forall leaper_ok ls -> existsb is_extend_with ls = true -> leaper_ok filter -> is_filter filter ->
  (2 <= length unrestricted)%nat -> Forall leaper_ok unrestricted -> existsb is_extend_with unrestricted = false ->
  (exists rs, relation_from_leapjoin source ls f = Ret rs /\ enumerates rs (fun x => exists t v, t ∈ source /\ Forall (fun l => accepts l t v) ls /\ x = f t v)) /\
  (exists rs, relation_from_leapjoin source (mkSingleFilter filter) g = Ret rs /\ enumerates rs (fun x => exists t v, t ∈ source /\ accepts filter t v /\ x = g t v)) /\
  ((exists t, t ∈ source /\ Forall (fun l => admits l t) unrestricted) -> relation_from_leapjoin source unrestricted f = Panic) /\
  ((forall t, t ∈ source -> Exists (fun l => ~ admits l t) unrestricted) -> relation_from_leapjoin source unrestricted f = Ret []).
Proof.
  intros Hok He Hf Hfilter _ Huok Hux. destruct (unrestricted_loop source unrestricted f Huok Hux) as [Hp Hr]. split; [|split; [|split]].
  - destruct (leapjoin_spec source ls f) as (rs & Hl & Hs & Hin); [split; [done|]; apply existsb_exists in He as (l & Hl%list_elem_of_In & He); by exists l|]. by exists rs.
  - destruct (leapjoin_spec source (mkSingleFilter filter) g) as (rs & Hl & Hs & Hin); [done|]. by exists rs.
  - intros Ht. unfold relation_from_leapjoin, leapjoin. rewrite Hp; [done|]. by apply Exists_exists.
  - intros Ht. unfold relation_from_leapjoin, leapjoin. rewrite Hr; [done|]. by apply list.Forall_forall.
Qed.

(** [Relation::from_antijoin] always returns the empty relation: it joins the recent tuples of its first input, and
    a [Relation] has none.  (Its documentation says that it removes the values that share a key with the second.) *)
Theorem relation_antijoin_empty {K V A} `{Ord K, Ord V, Ord A} (input1 : Relation (K * V)) (input2 : Relation K) (logic : K -> V -> A) : relation_from_antijoin input1 input2 logic = [].
Proof. done. Qed.

(** ** Witnesses *)

#[local] Open Scope Z_scope.

Lemma sorted_of_bool (l : list (Z * Z)) : from_vec l = l -> sorted l.
Proof. intros <-. apply from_vec_sorted. Qed.

Definition a_variable : DVariable (Z * Z) := mkVariable true [[(1, 2); (4, 4)]] [(2, 3); (3, 1)] [[(1, 2); (5, 6)]; [(2, 3)]].

Lemma a_variable_ok : var_ok a_variable.
Proof. split; [|split]; repeat constructor; by apply sorted_of_bool. Qed.

(** The relation has two tuples, and a third is added. *)
Lemma relation_operations_witness : (forall x : Z * Z, x ∈ merge [(1, 2); (2, 3)] [(2, 3); (4, 1)] <-> x ∈ [(1, 2); (2, 3)] \/ x ∈ [(2, 3); (4, 1)]) /\ merge [(1, 2); (2, 3)] [(2, 3); (4, 1)] = [(1, 2); (2, 3); (4, 1)] /\ restrict [(1, 2); (2, 3)] [(2, 3); (4, 1)] = [(1, 2)].
Proof.
  split; [|by vm_compute]. apply (relation_operations [(3, 1); (3, 1)] [(1, 2); (2, 3)] [(2, 3); (4, 1)]); by apply sorted_of_bool.
Defined.

Lemma variable_life_cycle_witness : (changed a_variable).1 = true /\ recent (changed a_variable).2 = [(5, 6)] /\ forall x, x ∈ recent (changed a_variable).2 <-> pending a_variable x /\ (true = true -> ~ known a_variable x).
Proof.
  split; [by vm_compute|]. split; [by vm_compute|]. destruct (variable_life_cycle a_variable [(7, 7)] a_variable_ok) as [Hc _]. apply (Hc true). by vm_compute.
Defined.

Lemma joins_exact_witness : to_add (from_join variable a_variable a_variable (fun k a b => (a, b))) = [[(1, 1); (3, 3)]] /\
  adds variable (fun x => exists k a b, known a_variable (k, a) /\ known a_variable (k, b) /\ ((k, a) ∈ recent a_variable \/ (k, b) ∈ recent a_variable) /\ x = (a, b)) (from_join variable a_variable a_variable (fun k a b => (a, b))) /\
  from_antijoin variable a_variable [3] (fun k a => (a, k)) = insert variable [(3, 2)].
Proof.
  split; [by vm_compute|]. split; [|by vm_compute]. apply (joins_exact variable a_variable a_variable [(1, 2)] [(1, 2)] [1; 3] (fun k a b => (a, b)) (fun k a => (a, k))); first [apply a_variable_ok|by apply sorted_of_bool|by repeat constructor].
Defined.

(** The second tuple of leapers proposes nothing: 1 passes its filter, 3 does not. *)
Lemma leapjoin_exact_witness : relation_from_leapjoin [1; 2] [extend_with [(1, 5); (1, 6); (2, 7)] (fun t => t); extend_anti [(1, 6)] (fun t => t)] (fun t v => (t, v)) = Ret [(1, 5); (2, 7)] /\
  (exists rs, relation_from_leapjoin [1; 2] [extend_with [(1, 5); (1, 6); (2, 7)] (fun t => t); extend_anti [(1, 6)] (fun t => t)] (fun t v => (t, v)) = Ret rs /\
    enumerates rs (fun x => exists t v, t ∈ [1; 2] /\ Forall (fun l => accepts l t v) [extend_with [(1, 5); (1, 6); (2, 7)] (fun t => t); extend_anti [(1, 6)] (fun t => t)] /\ x = (t, v))) /\
  relation_from_leapjoin [1; 2] [extend_anti [(1, 6)] (fun t => t); PrefixFilter (fun t => t <? 2)] (fun t v => (t, v)) = Panic.
Proof.
  split; [by vm_compute|].
  destruct (leapjoin_exact [1; 2] [extend_with [(1, 5); (1, 6); (2, 7)] (fun t => t); extend_anti [(1, 6)] (fun t => t)] [extend_anti [(1, 6)] (fun t => t); PrefixFilter (fun t => t <? 2)] (PrefixFilter (fun t => t <? 2)) (fun t v => (t, v)) (fun t _ => (t, t))) as (H1 & _ & H3 & _); [|done..| |done|].
  - repeat constructor; first [by apply sorted_of_bool|by vm_compute].
  - repeat constructor; first [by apply sorted_of_bool|by vm_compute].
  - split; [exact H1|]. apply H3. exists 1. split; [left|by repeat constructor].
Defined.
