(* ===== verification/Polonius.v ===== *)
(** * The Polonius borrow checker: initialization and liveness

    [src/polonius_engine/facts.rs] and the parts of [output/] that every variant shares:
    [compute_known_contains], [compute_known_placeholder_subset], [initialization.rs], [liveness.rs].
    A [FactTypes] is five ordered types.  The variables of a Datalog computation are the fields of a record, in
    the order of their creation; [changed] of the iteration asks all of them.  Each loop runs on fuel; the
    theorems give the fuel that is enough.  The hash maps and B-tree maps of [Output], which nothing iterates
    over except [compare_errors], are association lists in the order of first insertion; a B-tree set is its sorted vector. *)
From Stdlib Require Import ZArith Lia.
From stdpp Require Import base numbers list.
From S2P Require Import Prelude RustSlice Datafrog.
#[local] Open Scope nat_scope.
Open Scope rust_scope.

(** ** Maps *)

Definition FxHashMap (K V : Type) : Type := list (K * V).

(** [map.entry(k).or_default()] followed by an update [f] of the value. *)
Fixpoint entry_or_default {K V} `{Ord K} (m : FxHashMap K V) (k : K) (d : V) (f : V -> V) : FxHashMap K V :=
  match m with
  | [] => [(k, f d)]
  | (k', v) :: m => if eq_b k' k then (k', f v) :: m else (k', v) :: entry_or_default m k d f
  end.

Fixpoint map_get {K V} `{Ord K} (m : FxHashMap K V) (k : K) : option V :=
  match m with
  | [] => None
  | (k', v) :: m => if eq_b k' k then Some v else map_get m k
  end.

Definition btree_insert {A} `{Ord A} (x : A) (s : list A) : list A := dedup (sort_insert x s).

(** [map.entry(k).or_default().push(x)] for each pair, and the same with [insert] into a set. *)
Definition push_each {K A} `{Ord K} (pairs : list (A * K)) (m : FxHashMap K (list A)) : FxHashMap K (list A) :=
  foldl (fun m '(x, k) => entry_or_default m k [] (fun l => l ++ [x])) m pairs.
Definition insert_each {K A} `{Ord K, Ord A} (pairs : list (A * K)) (m : FxHashMap K (list A)) : FxHashMap K (list A) :=
  foldl (fun m '(x, k) => entry_or_default m k [] (btree_insert x)) m pairs.
Definition insert_each2 {K1 K2 A} `{Ord K1, Ord K2, Ord A} (triples : list (K2 * A * K1)) (m : FxHashMap K1 (FxHashMap K2 (list A))) : FxHashMap K1 (FxHashMap K2 (list A)) :=
  foldl (fun m '(k2, x, k1) => entry_or_default m k1 [] (fun m2 => entry_or_default m2 k2 [] (btree_insert x))) m triples.

Section Facts.
Context {Origin Loan Point Var Path : Type}.

(** ** Facts ([facts.rs]) *)

Record AllFacts := mkFacts {
  loan_issued_at : list (Origin * Loan * Point);
  universal_region : list Origin;
  cfg_edge : list (Point * Point);
  loan_killed_at : list (Loan * Point);
  subset_base : list (Origin * Origin * Point);
  loan_invalidated_at : list (Point * Loan);
  var_used_at : list (Var * Point);
  var_defined_at : list (Var * Point);
  var_dropped_at : list (Var * Point);
  use_of_var_derefs_origin : list (Var * Origin);
  drop_of_var_derefs_origin : list (Var * Origin);
  child_path : list (Path * Path);
  path_is_var : list (Path * Var);
  path_assigned_at_base : list (Path * Point);
  path_moved_at_base : list (Path * Point);
  path_accessed_at_base : list (Path * Point);
  known_placeholder_subset : list (Origin * Origin);
  placeholder : list (Origin * Loan);
}.

Record InitializationContext := mkInitCtx {
  ic_child_path : list (Path * Path);
  ic_path_is_var : list (Path * Var);
  ic_path_assigned_at_base : list (Path * Point);
  ic_path_moved_at_base : list (Path * Point);
  ic_path_accessed_at_base : list (Path * Point);
}.

Record LivenessContext := mkLiveCtx {
  lc_var_used_at : list (Var * Point);
  lc_var_defined_at : list (Var * Point);
  lc_var_dropped_at : list (Var * Point);
  lc_use_of_var_derefs_origin : list (Var * Origin);
  lc_drop_of_var_derefs_origin : list (Var * Origin);
}.

(** ** Output ([output/mod.rs]) *)

Record Output := mkOutput {
  errors : FxHashMap Point (list Loan);
  subset_errors : FxHashMap Point (list (Origin * Origin));
  move_errors : FxHashMap Point (list Path);
  dump_enabled : bool;
  o_loan_live_at : FxHashMap Point (list Loan);
  o_origin_contains_loan_at : FxHashMap Point (FxHashMap Origin (list Loan));
  o_origin_contains_loan_anywhere : FxHashMap Origin (list Loan);
  o_origin_live_on_entry : FxHashMap Point (list Origin);
  o_loan_invalidated_at : FxHashMap Point (list Loan);
  o_subset : FxHashMap Point (FxHashMap Origin (list Origin));
  o_subset_anywhere : FxHashMap Origin (list Origin);
  o_var_live_on_entry : FxHashMap Point (list Var);
  o_var_drop_live_on_entry : FxHashMap Point (list Var);
  o_path_maybe_initialized_on_exit : FxHashMap Point (list Path);
  o_path_maybe_uninitialized_on_exit : FxHashMap Point (list Path);
  o_known_contains : FxHashMap Origin (list Loan);
  o_var_maybe_partly_initialized_on_exit : FxHashMap Point (list Var);
}.

(** [Output::new]. *)
Definition Output_new (dump_enabled : bool) : Output :=
  mkOutput [] [] [] dump_enabled [] [] [] [] [] [] [] [] [] [] [] [] [].

Record Context_ := mkContext {
  c_origin_live_on_entry : Relation (Origin * Point);
  c_loan_invalidated_at : Relation (Loan * Point);
  c_subset_base : list (Origin * Origin * Point);
  c_loan_issued_at : list (Origin * Loan * Point);
  c_loan_killed_at : Relation (Loan * Point);
  c_known_contains : Relation (Origin * Loan);
  c_placeholder_origin : Relation (Origin * unit);
  c_placeholder_loan : Relation (Loan * Origin);
  c_known_placeholder_subset : Relation (Origin * Origin);
  c_cfg_edge : Relation (Point * Point);
}.
End Facts.
Arguments AllFacts : clear implicits.
Arguments InitializationContext : clear implicits.
Arguments LivenessContext : clear implicits.
Arguments Output : clear implicits.
Arguments Context_ : clear implicits.

(** ** Placeholders ([output/mod.rs]) *)

Section Placeholders.
Context {Origin Loan : Type} `{Ord Origin, Ord Loan}.

Definition known_contains_body (known_placeholder_subset : Relation (Origin * Origin)) (known_contains : DVariable (Origin * Loan)) : outcome (DVariable (Origin * Loan)) :=
  Ret (from_join known_contains known_contains known_placeholder_subset (fun _ loan1 origin2 => (origin2, loan1))).

Definition compute_known_contains (fuel : nat) (known_placeholder_subset : Relation (Origin * Origin)) (placeholder : list (Origin * Loan)) : outcome (Relation (Origin * Loan)) :=
  let known_contains := extend variable placeholder in
  let* known_contains := iterate fuel changed (known_contains_body known_placeholder_subset) known_contains in
  complete known_contains.

Definition known_subset_body (base : Relation (Origin * Origin)) (known : DVariable (Origin * Origin)) : outcome (DVariable (Origin * Origin)) :=
  from_leapjoin known known [extend_with base (fun '(_, origin2) => origin2)] (fun '(origin1, _) origin3 => (origin1, origin3)).

Definition compute_known_placeholder_subset (fuel : nat) (base : Relation (Origin * Origin)) : outcome (Relation (Origin * Origin)) :=
  let known := extend variable base in
  let* known := iterate fuel changed (known_subset_body base) known in
  complete known.
End Placeholders.

(** ** Initialization ([initialization.rs]) *)

Section Initialization.
Context {Point Var Path : Type} `{Ord Point, Ord Var, Ord Path}.

Record TransitivePaths := mkTransitivePaths {
  path_moved_at : Relation (Path * Point);
  path_assigned_at : Relation (Path * Point);
  path_accessed_at : Relation (Path * Point);
  path_begins_with_var : Relation (Path * Var);
}.

Record PathVars := mkPathVars {
  ancestor_path : DVariable (Path * Path);
  v_path_moved_at : DVariable (Path * Point);
  v_path_assigned_at : DVariable (Path * Point);
  v_path_accessed_at : DVariable (Path * Point);
  v_path_begins_with_var : DVariable (Path * Var);
}.

Definition paths_changed (st : PathVars) : bool * PathVars :=
  let '(c1, v1) := changed (ancestor_path st) in
  let '(c2, v2) := changed (v_path_moved_at st) in
  let '(c3, v3) := changed (v_path_assigned_at st) in
  let '(c4, v4) := changed (v_path_accessed_at st) in
  let '(c5, v5) := changed (v_path_begins_with_var st) in
  (any_changed [c1; c2; c3; c4; c5], mkPathVars v1 v2 v3 v4 v5).

Definition paths_body (child_path : Relation (Path * Path)) (st : PathVars) : outcome PathVars :=
  let ancestor := from_join (ancestor_path st) (ancestor_path st) child_path (fun _ child grandparent => (grandparent, child)) in
  let moved := from_join (v_path_moved_at st) (v_path_moved_at st) ancestor (fun _ p child => (child, p)) in
  let assigned := from_join (v_path_assigned_at st) (v_path_assigned_at st) ancestor (fun _ p child => (child, p)) in
  let accessed := from_join (v_path_accessed_at st) (v_path_accessed_at st) ancestor (fun _ p child => (child, p)) in
  let begins := from_join (v_path_begins_with_var st) (v_path_begins_with_var st) ancestor (fun _ var child => (child, var)) in
  Ret (mkPathVars ancestor moved assigned accessed begins).

Definition compute_transitive_paths (fuel : nat) (child_path : list (Path * Path)) (path_assigned_at_base path_moved_at_base path_accessed_at_base : list (Path * Point)) (path_is_var : list (Path * Var)) : outcome TransitivePaths :=
  let child_path := from_vec child_path in
  let st := mkPathVars
    (extend variable ((fun '(child, parent) => (parent, child)) <$> child_path))
    (insert variable (from_vec path_moved_at_base))
    (insert variable (from_vec path_assigned_at_base))
    (insert variable (from_vec path_accessed_at_base))
    (insert variable (from_vec path_is_var)) in
  let* st := iterate fuel paths_changed (paths_body child_path) st in
  let* assigned := complete (v_path_assigned_at st) in
  let* moved := complete (v_path_moved_at st) in
  let* accessed := complete (v_path_accessed_at st) in
  let* begins := complete (v_path_begins_with_var st) in
  Ret (mkTransitivePaths moved assigned accessed begins).

Record MoveVars := mkMoveVars {
  var_maybe_partly_initialized_on_exit : DVariable (Var * Point);
  path_maybe_initialized_on_exit : DVariable (Path * Point);
  path_maybe_uninitialized_on_exit : DVariable (Path * Point);
  move_error : DVariable (Path * Point);
}.

Definition moves_changed (st : MoveVars) : bool * MoveVars :=
  let '(c1, v1) := changed (var_maybe_partly_initialized_on_exit st) in
  let '(c2, v2) := changed (path_maybe_initialized_on_exit st) in
  let '(c3, v3) := changed (path_maybe_uninitialized_on_exit st) in
  let '(c4, v4) := changed (move_error st) in
  (any_changed [c1; c2; c3; c4], mkMoveVars v1 v2 v3 v4).

Definition moves_body (ctx : TransitivePaths) (cfg_edge : Relation (Point * Point)) (st : MoveVars) : outcome MoveVars :=
  let* init := from_leapjoin (path_maybe_initialized_on_exit st) (path_maybe_initialized_on_exit st)
    [extend_with cfg_edge (fun '(_, point1) => point1); extend_anti (path_moved_at ctx) (fun '(path, _) => path)]
    (fun '(path, _) point2 => (path, point2)) in
  let* uninit := from_leapjoin (path_maybe_uninitialized_on_exit st) (path_maybe_uninitialized_on_exit st)
    [extend_with cfg_edge (fun '(_, point1) => point1); extend_anti (path_assigned_at ctx) (fun '(path, _) => path)]
    (fun '(path, _) point2 => (path, point2)) in
  let* partly := from_leapjoin (var_maybe_partly_initialized_on_exit st) init
    [extend_with (path_begins_with_var ctx) (fun '(path, _) => path)]
    (fun '(_, point) var => (var, point)) in
  let* err := from_leapjoin (move_error st) uninit
    [extend_with cfg_edge (fun '(_, source_node) => source_node); extend_with (path_accessed_at ctx) (fun '(path, _) => path)]
    (fun '(path, _) target_node => (path, target_node)) in
  Ret (mkMoveVars partly init uninit err).

Record InitializationStatus := mkInitStatus {
  s_var_maybe_partly_initialized_on_exit : Relation (Var * Point);
  s_move_error : Relation (Path * Point);
}.
End Initialization.
Arguments TransitivePaths : clear implicits.
Arguments PathVars : clear implicits.
Arguments MoveVars : clear implicits.
Arguments InitializationStatus : clear implicits.

Section InitCompute.
Context {Origin Loan Point Var Path : Type} `{Ord Origin, Ord Loan, Ord Point, Ord Var, Ord Path}.
Abbreviation Out := (Output Origin Loan Point Var Path).

(** The debugging maps of [Output], filled under [dump_enabled]. *)
Definition dump_paths (init uninit : list (Path * Point)) (o : Out) : Out :=
  mkOutput (errors o) (subset_errors o) (move_errors o) (dump_enabled o) (o_loan_live_at o) (o_origin_contains_loan_at o) (o_origin_contains_loan_anywhere o) (o_origin_live_on_entry o) (o_loan_invalidated_at o) (o_subset o) (o_subset_anywhere o)
    (o_var_live_on_entry o) (o_var_drop_live_on_entry o) (push_each init (o_path_maybe_initialized_on_exit o)) (push_each uninit (o_path_maybe_uninitialized_on_exit o)) (o_known_contains o) (o_var_maybe_partly_initialized_on_exit o).
Definition dump_partly (partly : list (Var * Point)) (o : Out) : Out :=
  mkOutput (errors o) (subset_errors o) (move_errors o) (dump_enabled o) (o_loan_live_at o) (o_origin_contains_loan_at o) (o_origin_contains_loan_anywhere o) (o_origin_live_on_entry o) (o_loan_invalidated_at o) (o_subset o) (o_subset_anywhere o)
    (o_var_live_on_entry o) (o_var_drop_live_on_entry o) (o_path_maybe_initialized_on_exit o) (o_path_maybe_uninitialized_on_exit o) (o_known_contains o) (push_each partly (o_var_maybe_partly_initialized_on_exit o)).
Definition dump_live (drop_live live : list (Var * Point)) (o : Out) : Out :=
  mkOutput (errors o) (subset_errors o) (move_errors o) (dump_enabled o) (o_loan_live_at o) (o_origin_contains_loan_at o) (o_origin_contains_loan_anywhere o) (o_origin_live_on_entry o) (o_loan_invalidated_at o) (o_subset o) (o_subset_anywhere o)
    (push_each live (o_var_live_on_entry o)) (push_each drop_live (o_var_drop_live_on_entry o)) (o_path_maybe_initialized_on_exit o) (o_path_maybe_uninitialized_on_exit o) (o_known_contains o) (o_var_maybe_partly_initialized_on_exit o).

Definition compute_move_errors (fuel : nat) (ctx : TransitivePaths Point Var Path) (cfg_edge : Relation (Point * Point)) (output : Out) : outcome (InitializationStatus Point Var Path * Out) :=
  let st := mkMoveVars variable (insert variable (path_assigned_at ctx)) (insert variable (path_moved_at ctx)) variable in
  let* st := iterate fuel moves_changed (moves_body ctx cfg_edge) st in
  let* output :=
    if dump_enabled output then
      let* init := complete (path_maybe_initialized_on_exit st) in
      let* uninit := complete (path_maybe_uninitialized_on_exit st) in
      Ret (dump_paths init uninit output)
    else Ret output in
  let* partly := complete (var_maybe_partly_initialized_on_exit st) in
  let* err := complete (move_error st) in
  Ret (mkInitStatus partly err, output).

(** [initialization::compute]. *)
Definition initialization_compute (fuel : nat) (ctx : InitializationContext Point Var Path) (cfg_edge : Relation (Point * Point)) (output : Out) : outcome (Relation (Var * Point) * Relation (Path * Point) * Out) :=
  let* transitive_paths := compute_transitive_paths fuel (ic_child_path ctx) (ic_path_assigned_at_base ctx) (ic_path_moved_at_base ctx) (ic_path_accessed_at_base ctx) (ic_path_is_var ctx) in
  let* ' (status, output) := compute_move_errors fuel transitive_paths cfg_edge output in
  let partly := s_var_maybe_partly_initialized_on_exit status in
  let output := if dump_enabled output then dump_partly partly output else output in
  Ret (partly, s_move_error status, output).

(** ** Liveness ([liveness.rs]) *)

Record LiveVars := mkLiveVars {
  var_live_on_entry : DVariable (Var * Point);
  var_drop_live_on_entry : DVariable (Var * Point);
  v_origin_live_on_entry : DVariable (Origin * Point);
}.

Definition live_changed (st : LiveVars) : bool * LiveVars :=
  let '(c1, v1) := changed (var_live_on_entry st) in
  let '(c2, v2) := changed (var_drop_live_on_entry st) in
  let '(c3, v3) := changed (v_origin_live_on_entry st) in
  (any_changed [c1; c2; c3], mkLiveVars v1 v2 v3).

(** The relations the loop uses, as [compute_live_origins] prepares them. *)
Record LiveRels := mkLiveRels {
  r_var_defined_at : Relation (Var * Point);
  r_cfg_edge_reverse : Relation (Point * Point);
  r_use_of_var_derefs_origin : Relation (Var * Origin);
  r_drop_of_var_derefs_origin : Relation (Var * Origin);
  r_partly : Relation (Var * Point);
}.

Definition live_body (r : LiveRels) (st : LiveVars) : outcome LiveVars :=
  let origin := from_join (v_origin_live_on_entry st) (var_drop_live_on_entry st) (r_drop_of_var_derefs_origin r) (fun _ point origin => (origin, point)) in
  let origin := from_join origin (var_live_on_entry st) (r_use_of_var_derefs_origin r) (fun _ point origin => (origin, point)) in
  let* live := from_leapjoin (var_live_on_entry st) (var_live_on_entry st)
    [extend_anti (r_var_defined_at r) (fun '(var, _) => var); extend_with (r_cfg_edge_reverse r) (fun '(_, point2) => point2)]
    (fun '(var, _) point1 => (var, point1)) in
  let* drop_live := from_leapjoin (var_drop_live_on_entry st) (var_drop_live_on_entry st)
    [extend_anti (r_var_defined_at r) (fun '(var, _) => var); extend_with (r_cfg_edge_reverse r) (fun '(_, target_node) => target_node); extend_with (r_partly r) (fun '(var, _) => var)]
    (fun '(var, _) source_node => (var, source_node)) in
  Ret (mkLiveVars live drop_live origin).

Definition compute_live_origins (fuel : nat) (ctx : LivenessContext Origin Point Var) (cfg_edge : Relation (Point * Point)) (partly : Relation (Var * Point)) (output : Out) : outcome (list (Origin * Point) * Out) :=
  let r := mkLiveRels (from_vec (lc_var_defined_at ctx)) (from_vec ((fun '(point1, point2) => (point2, point1)) <$> cfg_edge))
    (from_vec (lc_use_of_var_derefs_origin ctx)) (from_vec (lc_drop_of_var_derefs_origin ctx)) partly in
  let var_dropped_at := from_vec ((fun '(var, point) => ((var, point), tt)) <$> lc_var_dropped_at ctx) in
  let live := insert variable (from_vec (lc_var_used_at ctx)) in
  let* partly_on_entry := relation_from_leapjoin partly [extend_with cfg_edge (fun '(_, point1) => point1)] (fun '(var, _) point2 => ((var, point2), tt)) in
  let drop_live := insert variable (join_into_relation var_dropped_at partly_on_entry (fun '(var, point) _ _ => (var, point))) in
  let* st := iterate fuel live_changed (live_body r) (mkLiveVars live drop_live variable) in
  let* origin_live_on_entry := complete (v_origin_live_on_entry st) in
  let* output :=
    if dump_enabled output then
      let* drop_live := complete (var_drop_live_on_entry st) in
      let* live := complete (var_live_on_entry st) in
      Ret (dump_live drop_live live output)
    else Ret output in
  Ret (origin_live_on_entry, output).

Definition make_universal_regions_live (origin_live_on_entry : list (Origin * Point)) (cfg_node : list Point) (universal_regions : list Origin) : list (Origin * Point) :=
  origin_live_on_entry ++ flat_map (fun origin => (fun point => (origin, point)) <$> cfg_node) universal_regions.
End InitCompute.
Arguments LiveVars : clear implicits.
Arguments LiveRels : clear implicits.
