(* ===== verification/PoloniusLoops.v ===== *)
(** * The Polonius loops: placeholders, paths, moves and liveness

    For each loop, the Datalog rules that its comments state, as an inductive relation from premises to a
    conclusion, and the proof that the loop is a semi-naive evaluation of them: with enough fuel it returns
    exactly the derivable facts. *)
From Stdlib Require Import ZArith Lia.
From stdpp Require Import base numbers list.
From S2P Require Import Prelude RustSlice Datafrog DatafrogFacts DatafrogLeap DatafrogVar SemiNaive DatafrogProgram Polonius.
#[local] Open Scope nat_scope.
Open Scope rust_scope.

Lemma elem_of_pair_proj {A B} (l : list (A * B)) a b : (a, b) ∈ l -> a ∈ l.*1 /\ b ∈ l.*2.
Proof. intros Hl. split; apply list_elem_of_fmap; by exists (a, b). Qed.

(** A loop over one variable. *)
Definition one {A} (v : DVariable A) (_ : unit) : DVariable A := v.

Lemma one_flag {A} `{Ord A} (v : DVariable A) : (changed v).1 = true <-> exists i, (changed (one v i)).1 = true.
Proof. split; [by exists tt|by intros [[] ?]]. Qed.

Definition one_program {A} `{Ord A} (body : DVariable A -> outcome (DVariable A)) (rule : list A -> A -> Prop) : Prop :=
  Program (T := fun _ => A) one (existT tt) changed body rule keep_all all_distinct.

Lemma one_settles {A} `{Ord A} body (rule : list A -> A -> Prop) (l : list A) : one_program body rule -> finite_set (derives rule keep_all) -> (forall x, rule [] x <-> x ∈ l) ->
  settles (fun fuel => obind (iterate fuel changed body (extend variable l)) complete) (fun r => enumerates r (derives rule keep_all)).
Proof.
  intros HP Hfin Hl. eapply settles_bind; [eapply (simple_settles (T := fun _ => A) one (fun _ x => x) (existT tt) _ _ rule); [by intros [] x|done|done|done|]|].
  - intros i. eapply adds_iff; [|apply extend_adds]. intros x. by rewrite Hl.
  - intros st Hst. destruct (Hst tt) as (r & Hr & He). unfold one in Hr. rewrite Hr. by apply settles_ret.
Qed.

Section Known.
Context {Origin Loan : Type} `{Ord Origin, Ord Loan}.

(** ** [compute_known_contains] *)

(** known_contains(Origin1, Loan1) :- placeholder(Origin1, Loan1).
    known_contains(Origin2, Loan1) :- known_contains(Origin1, Loan1), known_placeholder_subset(Origin1, Origin2). *)
Inductive known_contains_rule (subset : list (Origin * Origin)) (placeholder : list (Origin * Loan)) : list (Origin * Loan) -> Origin * Loan -> Prop :=
| kc_base x : x ∈ placeholder -> known_contains_rule subset placeholder [] x
| kc_step o1 o2 l : (o1, o2) ∈ subset -> known_contains_rule subset placeholder [(o1, l)] (o2, l).

Lemma known_contains_program (subset : Relation (Origin * Origin)) (placeholder : list (Origin * Loan)) : sorted subset ->
  one_program (known_contains_body subset) (known_contains_rule subset placeholder).
Proof.
  intros Hsub. apply simple_program; [done|intros; apply one_flag|]. intros v Hv. pose proof (from_join_rel v v subset (fun _ loan1 origin2 => (origin2, loan1)) (proj1 (Hv tt)) Hsub) as A.
  eexists. split; [reflexivity|]. split; [eauto|]. intros x. unfold in_pending. rewrite (settled_pending (T := fun _ => (Origin * Loan)%type) one v _ tt _ _ Hv A). split.
  - intros (k & l & o2 & Hr & Hx & Heq). cbn in Heq. subst x. fire [(k, l)]; [by constructor|]. split; [by right|done].
  - intros Hf. fired Hf. eauto 10.
Qed.

Lemma known_contains_settles (subset : Relation (Origin * Origin)) (placeholder : list (Origin * Loan)) : sorted subset ->
  settles (fun fuel => compute_known_contains fuel subset placeholder) (fun r => enumerates r (derives (known_contains_rule subset placeholder) keep_all)).
Proof.
  intros Hsub. apply (one_settles _ _ placeholder (known_contains_program subset placeholder Hsub)).
  - eapply finite_sub; [apply (finite_pairs (placeholder.*1 ++ subset.*2) placeholder.*2)|]. intros f. apply derives_least. intros prems g Hr _ Hin.
    destruct Hr as [[o l] [? ?]%elem_of_pair_proj|o1 o2 l [? ?]%elem_of_pair_proj]; rewrite elem_of_app; [tauto|]. destruct (Hin _ (list_elem_of_here _ _)) as [_ Hl]. tauto.
  - intros x. split; [intros Hr; by inversion Hr|by constructor].
Qed.

(** ** [compute_known_placeholder_subset] *)

(** known_placeholder_subset(Origin1, Origin2) :- known_placeholder_subset_base(Origin1, Origin2).
    known_placeholder_subset(Origin1, Origin3) :-
      known_placeholder_subset(Origin1, Origin2), known_placeholder_subset_base(Origin2, Origin3). *)
Inductive known_subset_rule (base : list (Origin * Origin)) : list (Origin * Origin) -> Origin * Origin -> Prop :=
| ks_base x : x ∈ base -> known_subset_rule base [] x
| ks_step o1 o2 o3 : (o2, o3) ∈ base -> known_subset_rule base [(o1, o2)] (o1, o3).

Lemma known_subset_program (base : Relation (Origin * Origin)) : sorted base -> fits base ->
  one_program (known_subset_body base) (known_subset_rule base).
Proof.
  intros Hb Hfit. apply simple_program; [done|intros; apply one_flag|]. intros v Hv.
  destruct (from_leapjoin_list v v [extend_with base (fun '(_, origin2) => origin2)] (fun '(origin1, _) origin3 => (origin1, origin3))) as (w & Hw & A); [done|done|].
  exists w. split; [done|]. split; [eauto|]. intros x. unfold in_pending. rewrite (settled_pending (T := fun _ => (Origin * Origin)%type) one v w tt _ _ Hv A). split.
  - intros ([o1 o2] & o3 & Hr & [Hx _] & Heq). cbn in Heq. subst x. fire [(o1, o2)]; [by constructor|]. split; [by right|done].
  - intros Hf. fired Hf. by exists (o1, o2), o3.
Qed.

Lemma known_subset_settles (base : Relation (Origin * Origin)) : sorted base -> fits base ->
  settles (fun fuel => compute_known_placeholder_subset fuel base) (fun r => enumerates r (derives (known_subset_rule base) keep_all)).
Proof.
  intros Hb Hfit. apply (one_settles _ _ base (known_subset_program base Hb Hfit)).
  - eapply finite_sub; [apply (finite_pairs base.*1 base.*2)|]. intros f. apply derives_least. intros prems g Hr _ Hin.
    destruct Hr as [[o1 o2] [? ?]%elem_of_pair_proj|o1 o2 o3 [? ?]%elem_of_pair_proj]; [tauto|]. destruct (Hin _ (list_elem_of_here _ _)) as [Hl _]. tauto.
  - intros x. split; [intros Hr; by inversion Hr|by constructor].
Qed.
End Known.

(** A new fact list, and the flags of an iteration. *)
Lemma insert_vec_adds {A} `{Ord A} (l : list A) (P : A -> Prop) : (forall x, x ∈ l <-> P x) -> adds variable P (insert variable (from_vec l)).
Proof. intros HP. eapply adds_iff; [exact HP|]. apply extend_adds. Qed.

(** Replace a computation by its result, up to the instances of [Ord] in it. *)
Ltac returns m E := match type of E with _ = ?r => replace m with r by (symmetry; exact E) end.

Ltac flags := rewrite any_changed_iff, !elem_of_cons, elem_of_nil.
Ltac in_flags E := first [left; symmetry; exact E | right; in_flags E].
(** From the three sets of a settled state to the premises of the rules. *)
Ltac by_adds Hv A i := match goal with |- in_pending ?vs _ ?st' _ <-> _ => etransitivity; [exact (settled_pending vs _ st' i _ _ Hv A)|] end.

(** ** [compute_transitive_paths] *)

Section Paths.
Context {Point Var Path : Type} `{Ord Point, Ord Var, Ord Path}.

Inductive PathFact : Type :=
| Ancestor (parent child : Path)
| Moved (path : Path) (point : Point)
| Assigned (path : Path) (point : Point)
| Accessed (path : Path) (point : Point)
| BeginsWith (path : Path) (var : Var).

Section Rule.
Context (child_path : list (Path * Path)) (assigned moved accessed : list (Path * Point)) (is_var : list (Path * Var)).

(** The rules in the comments of [compute_transitive_paths]: moving, assigning or accessing a path does the same to its
    descendants. *)
Inductive path_rule : list PathFact -> PathFact -> Prop :=
| pr_ancestor child parent : (child, parent) ∈ child_path -> path_rule [] (Ancestor parent child)
| pr_grand parent child grandparent : (parent, grandparent) ∈ child_path -> path_rule [Ancestor parent child] (Ancestor grandparent child)
| pr_moved path point : (path, point) ∈ moved -> path_rule [] (Moved path point)
| pr_moved_child parent point child : path_rule [Moved parent point; Ancestor parent child] (Moved child point)
| pr_assigned path point : (path, point) ∈ assigned -> path_rule [] (Assigned path point)
| pr_assigned_child parent point child : path_rule [Assigned parent point; Ancestor parent child] (Assigned child point)
| pr_accessed path point : (path, point) ∈ accessed -> path_rule [] (Accessed path point)
| pr_accessed_child parent point child : path_rule [Accessed parent point; Ancestor parent child] (Accessed child point)
| pr_begins path var : (path, var) ∈ is_var -> path_rule [] (BeginsWith path var)
| pr_begins_child parent var child : path_rule [BeginsWith parent var; Ancestor parent child] (BeginsWith child var).

Definition path_model : PathFact -> Prop := derives path_rule keep_all.

(** The atoms of the facts. *)
Definition path_atoms : list Path := child_path.*1 ++ child_path.*2 ++ assigned.*1 ++ moved.*1 ++ accessed.*1 ++ is_var.*1.
Definition path_points : list Point := assigned.*2 ++ moved.*2 ++ accessed.*2.

Lemma path_model_atoms f : path_model f -> match f with Ancestor a b => a ∈ path_atoms /\ b ∈ path_atoms | Moved a b | Assigned a b | Accessed a b => a ∈ path_atoms /\ b ∈ path_points | BeginsWith a b => a ∈ path_atoms /\ b ∈ is_var.*2 end.
Proof.
  assert (HPs : forall x, x ∈ child_path.*1 \/ x ∈ child_path.*2 \/ x ∈ assigned.*1 \/ x ∈ moved.*1 \/ x ∈ accessed.*1 \/ x ∈ is_var.*1 -> x ∈ path_atoms) by (intros x; unfold path_atoms; by rewrite !elem_of_app).
  assert (HPts : forall x, x ∈ assigned.*2 \/ x ∈ moved.*2 \/ x ∈ accessed.*2 -> x ∈ path_points) by (intros x; unfold path_points; by rewrite !elem_of_app).
  induction 1 as [prems g Hr _ _ Hin]. destruct Hr as [a b Hx|a b c Hx|a b Hx|a b c|a b Hx|a b c|a b Hx|a b c|a b Hx|a b c];
    try (pose proof (Hin _ (list_elem_of_here _ _)) as [Hin1 Hin1']); try (pose proof (Hin _ (list_elem_of_further _ _ _ (list_elem_of_here _ _))) as [Hin2 Hin2']); clear Hin;
    try (apply elem_of_pair_proj in Hx as [Hx1 Hx2]); auto 10.
Qed.

Lemma path_finite : finite_set path_model.
Proof.
  pose proof (finite_or _ _ (finite_map (uncurry Ancestor) _ (finite_pairs path_atoms path_atoms)) (finite_or _ _ (finite_map (uncurry Moved) _ (finite_pairs path_atoms path_points)) (finite_or _ _ (finite_map (uncurry Assigned) _ (finite_pairs path_atoms path_points))
    (finite_or _ _ (finite_map (uncurry Accessed) _ (finite_pairs path_atoms path_points)) (finite_map (uncurry BeginsWith) _ (finite_pairs path_atoms is_var.*2)))))) as HU. apply (finite_sub _ _ HU).
  intros f Hf%path_model_atoms. destruct f as [a b|a b|a b|a b|a b]; [left|right; left|right; right; left|right; right; right; left|right; right; right; right]; by exists (a, b).
Qed.
End Rule.

(** The relations of the program. *)
Inductive PathRel : Type := RAncestor | RMoved | RAssigned | RAccessed | RBegins.
Definition path_tuple (r : PathRel) : Type := match r with RAncestor => Path * Path | RMoved | RAssigned | RAccessed => Path * Point | RBegins => Path * Var end.
#[local] Instance path_tuple_ord r : Ord (path_tuple r).
Proof. destruct r; apply _. Defined.
Definition path_vars (st : PathVars Point Var Path) (r : PathRel) : DVariable (path_tuple r) :=
  match r with RAncestor => ancestor_path st | RMoved => v_path_moved_at st | RAssigned => v_path_assigned_at st | RAccessed => v_path_accessed_at st | RBegins => v_path_begins_with_var st end.
Definition path_fact (r : PathRel) : path_tuple r -> PathFact :=
  match r with RAncestor => uncurry Ancestor | RMoved => uncurry Moved | RAssigned => uncurry Assigned | RAccessed => uncurry Accessed | RBegins => uncurry BeginsWith end.
Definition path_view (f : PathFact) : sigT path_tuple :=
  match f with Ancestor a b => existT RAncestor (a, b) | Moved a b => existT RMoved (a, b) | Assigned a b => existT RAssigned (a, b) | Accessed a b => existT RAccessed (a, b) | BeginsWith a b => existT RBegins (a, b) end.

Lemma paths_changed_eq (st : PathVars Point Var Path) : paths_changed st =
  (any_changed [(changed (ancestor_path st)).1; (changed (v_path_moved_at st)).1; (changed (v_path_assigned_at st)).1; (changed (v_path_accessed_at st)).1; (changed (v_path_begins_with_var st)).1],
   mkPathVars (changed (ancestor_path st)).2 (changed (v_path_moved_at st)).2 (changed (v_path_assigned_at st)).2 (changed (v_path_accessed_at st)).2 (changed (v_path_begins_with_var st)).2).
Proof. unfold paths_changed. by repeat destruct (changed _). Qed.

Ltac paths := unfold in_known, known_f, in_stable, in_recent in *; cbn [path_view path_vars projT1 projT2] in *.

Lemma path_program (child_path : Relation (Path * Path)) assigned moved accessed is_var : sorted child_path ->
  Program path_vars path_view paths_changed (paths_body child_path) (path_rule child_path assigned moved accessed is_var) keep_all all_distinct.
Proof.
  intros Hchild. apply simple_program.
  - intros st []; by rewrite paths_changed_eq.
  - intros st. rewrite paths_changed_eq. cbn [fst]. flags. split; [intros [E|[E|[E|[E|[E|[]]]]]]; [exists RAncestor|exists RMoved|exists RAssigned|exists RAccessed|exists RBegins]; symmetry; exact E|intros [[] E]; in_flags E].
  - intros st Hv. pose proof (from_join_rel (ancestor_path st) (ancestor_path st) child_path (fun _ child grandparent => (grandparent, child)) (proj1 (Hv RAncestor)) Hchild) as A1. set (w1 := from_join _ _ _ _) in A1.
    assert (W1 : var_ok w1) by apply A1, (Hv RAncestor).
    pose proof (from_join_var (v_path_moved_at st) (v_path_moved_at st) w1 (fun _ p child => (child, p)) (proj1 (proj1 (Hv RMoved))) W1) as A2. pose proof (from_join_var (v_path_assigned_at st) (v_path_assigned_at st) w1 (fun _ p child => (child, p)) (proj1 (proj1 (Hv RAssigned))) W1) as A3.
    pose proof (from_join_var (v_path_accessed_at st) (v_path_accessed_at st) w1 (fun _ p child => (child, p)) (proj1 (proj1 (Hv RAccessed))) W1) as A4. pose proof (from_join_var (v_path_begins_with_var st) (v_path_begins_with_var st) w1 (fun _ var child => (child, var)) (proj1 (proj1 (Hv RBegins))) W1) as A5.
    eexists. split; [reflexivity|]. split; [intros []; eauto|]. intros [a b|a b|a b|a b|a b]; [by_adds Hv A1 RAncestor|by_adds Hv A2 RMoved|by_adds Hv A3 RAssigned|by_adds Hv A4 RAccessed|by_adds Hv A5 RBegins].
    + split; [|intros Hf; fired Hf; paths; eauto 10]. intros (k & c & g & Hr & Hc & [= -> ->]). fire [Ancestor k c]; [by constructor|]. split; [by right|done].
    + split; [intros (k & p & c & Hk & Ha & Hr & [= -> ->]); fire [Moved k p; Ancestor k c]; [by constructor|]|intros Hf; fired Hf; repeat eexists]; paths; rewrite ?(adds_known _ _ _ _ A1), ?(adds_recent _ _ _ A1) in *; done.
    + split; [intros (k & p & c & Hk & Ha & Hr & [= -> ->]); fire [Assigned k p; Ancestor k c]; [by constructor|]|intros Hf; fired Hf; repeat eexists]; paths; rewrite ?(adds_known _ _ _ _ A1), ?(adds_recent _ _ _ A1) in *; done.
    + split; [intros (k & p & c & Hk & Ha & Hr & [= -> ->]); fire [Accessed k p; Ancestor k c]; [by constructor|]|intros Hf; fired Hf; repeat eexists]; paths; rewrite ?(adds_known _ _ _ _ A1), ?(adds_recent _ _ _ A1) in *; done.
    + split; [intros (k & p & c & Hk & Ha & Hr & [= -> ->]); fire [BeginsWith k p; Ancestor k c]; [by constructor|]|intros Hf; fired Hf; repeat eexists]; paths; rewrite ?(adds_known _ _ _ _ A1), ?(adds_recent _ _ _ A1) in *; done.
Qed.

(** The rules do not depend on the order of the tuples. *)
Lemma path_rule_vec child_path assigned moved accessed is_var prems f : path_rule (from_vec child_path) assigned moved accessed is_var prems f <-> path_rule child_path assigned moved accessed is_var prems f.
Proof. split; intros Hr; destruct Hr; constructor; try done; by (apply from_vec_in || eapply from_vec_in). Qed.

Lemma transitive_paths_settle (child_path : list (Path * Path)) (assigned moved accessed : list (Path * Point)) (is_var : list (Path * Var)) :
  let model := path_model child_path assigned moved accessed is_var in
  settles (fun fuel => compute_transitive_paths fuel child_path assigned moved accessed is_var) (fun r =>
    enumerates (path_moved_at r) (fun '(p, q) => model (Moved p q)) /\ enumerates (path_assigned_at r) (fun '(p, q) => model (Assigned p q)) /\
    enumerates (path_accessed_at r) (fun '(p, q) => model (Accessed p q)) /\ enumerates (path_begins_with_var r) (fun '(p, v) => model (BeginsWith p v))).
Proof.
  intros model. unfold compute_transitive_paths. set (cp := from_vec child_path). assert (Hcp : sorted cp) by apply from_vec_sorted.
  eapply settles_bind; [apply (simple_settles path_vars path_fact path_view _ _ _ ltac:(by intros [] []) ltac:(by intros []) _ (path_program cp assigned moved accessed is_var Hcp) (path_finite _ _ _ _ _))|].
  - intros []; [eapply adds_iff; [|apply extend_adds]|apply insert_vec_adds..]; intros [a b]; cbn; [|split; [by constructor|intros Hr; by inversion Hr]..].
    rewrite list_elem_of_fmap. split; [intros ([c q] & [= -> ->] & Hx); by constructor|]. intros Hr. inversion Hr. by exists (b, a).
  - intros st Hst. assert (Hmodel : forall f, derives (path_rule cp assigned moved accessed is_var) keep_all f <-> model f) by (intros f; apply derives_ext; [apply path_rule_vec|done]).
    destruct (Hst RMoved) as (r2 & E2 & M2), (Hst RAssigned) as (r3 & E3 & M3), (Hst RAccessed) as (r4 & E4 & M4), (Hst RBegins) as (r5 & E5 & M5). 
    cbv beta. returns (complete (v_path_moved_at st)) E2. returns (complete (v_path_assigned_at st)) E3. returns (complete (v_path_accessed_at st)) E4. returns (complete (v_path_begins_with_var st)) E5. apply settles_ret. cbn [path_moved_at path_assigned_at path_accessed_at path_begins_with_var].
    split_and!; [apply (enumerates_iff _ _ _ M2)|apply (enumerates_iff _ _ _ M3)|apply (enumerates_iff _ _ _ M4)|apply (enumerates_iff _ _ _ M5)]; intros [a b]; apply Hmodel.
Qed.
End Paths.
