(* ===== verification/PoloniusFlow.v ===== *)
(** * The Polonius loops: moves and liveness *)
From Stdlib Require Import ZArith Lia.
From stdpp Require Import base numbers list.
From S2P Require Import Prelude RustSlice Datafrog DatafrogFacts DatafrogLeap DatafrogVar SemiNaive DatafrogProgram Polonius PoloniusLoops.
#[local] Open Scope nat_scope.
Open Scope rust_scope.

(** ** Moves and liveness

    [compute_move_errors] and [compute_live_origins] compute the least models of the data-flow rules in their comments. *)

(** *** [compute_move_errors] *)

Section Moves.
Context {Point Var Path : Type} `{Ord Point, Ord Var, Ord Path}.

Inductive MoveFact : Type :=
| PartlyInit (var : Var) (point : Point)
| MaybeInit (path : Path) (point : Point)
| MaybeUninit (path : Path) (point : Point)
| MoveError (path : Path) (point : Point).

Section Rule.
Context (assigned moved accessed : list (Path * Point)) (begins : list (Path * Var)) (cfg_edge : list (Point * Point)).

(** The rules in the comments of [compute_move_errors]. *)
Inductive move_rule : list MoveFact -> MoveFact -> Prop :=
| mr_init path point : (path, point) ∈ assigned -> move_rule [] (MaybeInit path point)
| mr_init_step path point1 point2 : (point1, point2) ∈ cfg_edge -> (path, point2) ∉ moved -> move_rule [MaybeInit path point1] (MaybeInit path point2)
| mr_uninit path point : (path, point) ∈ moved -> move_rule [] (MaybeUninit path point)
| mr_uninit_step path point1 point2 : (point1, point2) ∈ cfg_edge -> (path, point2) ∉ assigned -> move_rule [MaybeUninit path point1] (MaybeUninit path point2)
| mr_partly path point var : (path, var) ∈ begins -> move_rule [MaybeInit path point] (PartlyInit var point)
| mr_error path source target : (source, target) ∈ cfg_edge -> (path, target) ∈ accessed -> move_rule [MaybeUninit path source] (MoveError path target).

Definition move_model : MoveFact -> Prop := derives move_rule keep_all.

Lemma move_finite : finite_set move_model.
Proof.
  set (Ps := assigned.*1 ++ moved.*1). set (Pts := assigned.*2 ++ moved.*2 ++ cfg_edge.*2).
  pose proof (finite_or _ _ (finite_map (uncurry PartlyInit) _ (finite_pairs begins.*2 Pts)) (finite_or _ _ (finite_map (uncurry MaybeInit) _ (finite_pairs Ps Pts)) (finite_or _ _ (finite_map (uncurry MaybeUninit) _ (finite_pairs Ps Pts)) (finite_map (uncurry MoveError) _ (finite_pairs Ps Pts))))) as HU. apply (finite_sub _ _ HU).
  assert (HPs : forall x, x ∈ assigned.*1 \/ x ∈ moved.*1 -> x ∈ Ps) by (intros x; unfold Ps; by rewrite !elem_of_app).
  assert (HPts : forall x, x ∈ assigned.*2 \/ x ∈ moved.*2 \/ x ∈ cfg_edge.*2 -> x ∈ Pts) by (intros x; unfold Pts; by rewrite !elem_of_app). clearbody Ps Pts.
  assert (HS : forall f, move_model f -> match f with PartlyInit a b => a ∈ begins.*2 /\ b ∈ Pts | MaybeInit a b | MaybeUninit a b | MoveError a b => a ∈ Ps /\ b ∈ Pts end).
  { induction 1 as [prems g Hr _ _ Hin]. destruct Hr as [a b Hx|a b c Hx _|a b Hx|a b c Hx _|a b c Hx|a b c Hx _];
      try (pose proof (Hin _ (list_elem_of_here _ _)) as [Hin1 Hin1']); clear Hin; apply elem_of_pair_proj in Hx as [Hx1 Hx2]; auto 10. }
  intros f Hf%HS. destruct f as [a b|a b|a b|a b]; [left|right; left|right; right; left|right; right; right]; by exists (a, b).
Qed.
End Rule.

Inductive MoveRel : Type := RPartly | RInit | RUninit | RError.
Definition move_tuple (r : MoveRel) : Type := match r with RPartly => Var * Point | _ => Path * Point end.
#[local] Instance move_tuple_ord r : Ord (move_tuple r).
Proof. destruct r; apply _. Defined.
Definition move_vars (st : MoveVars Point Var Path) (r : MoveRel) : DVariable (move_tuple r) :=
  match r with RPartly => var_maybe_partly_initialized_on_exit st | RInit => path_maybe_initialized_on_exit st | RUninit => path_maybe_uninitialized_on_exit st | RError => move_error st end.
Definition move_fact (r : MoveRel) : move_tuple r -> MoveFact :=
  match r with RPartly => uncurry PartlyInit | RInit => uncurry MaybeInit | RUninit => uncurry MaybeUninit | RError => uncurry MoveError end.
Definition move_view (f : MoveFact) : sigT move_tuple :=
  match f with PartlyInit a b => existT RPartly (a, b) | MaybeInit a b => existT RInit (a, b) | MaybeUninit a b => existT RUninit (a, b) | MoveError a b => existT RError (a, b) end.

Lemma moves_changed_eq (st : MoveVars Point Var Path) : moves_changed st =
  (any_changed [(changed (var_maybe_partly_initialized_on_exit st)).1; (changed (path_maybe_initialized_on_exit st)).1; (changed (path_maybe_uninitialized_on_exit st)).1; (changed (move_error st)).1],
   mkMoveVars (changed (var_maybe_partly_initialized_on_exit st)).2 (changed (path_maybe_initialized_on_exit st)).2 (changed (path_maybe_uninitialized_on_exit st)).2 (changed (move_error st)).2).
Proof. unfold moves_changed. by repeat destruct (changed _). Qed.

Definition paths_ok (ctx : TransitivePaths Point Var Path) : Prop :=
  sorted (path_moved_at ctx) /\ sorted (path_assigned_at ctx) /\ (sorted (path_accessed_at ctx) /\ fits (path_accessed_at ctx)) /\ sorted (path_begins_with_var ctx) /\ fits (path_begins_with_var ctx).

Lemma move_program (ctx : TransitivePaths Point Var Path) (cfg_edge : Relation (Point * Point)) : paths_ok ctx -> sorted cfg_edge -> fits cfg_edge ->
  Program move_vars move_view moves_changed (moves_body ctx cfg_edge) (move_rule (path_assigned_at ctx) (path_moved_at ctx) (path_accessed_at ctx) (path_begins_with_var ctx) cfg_edge) keep_all all_distinct.
Proof.
  intros (Hm & Ha & Hac & Hb) Hc Hfit. apply simple_program.
  - intros st []; by rewrite moves_changed_eq.
  - intros st. rewrite moves_changed_eq. cbn [fst]. flags. split; [intros [E|[E|[E|[E|[]]]]]; [exists RPartly|exists RInit|exists RUninit|exists RError]; symmetry; exact E|intros [[] E]; in_flags E].
  - intros st Hv. unfold moves_body.
    destruct (from_leapjoin_list (path_maybe_initialized_on_exit st) (path_maybe_initialized_on_exit st) [extend_with cfg_edge (fun '(_, point1) => point1); extend_anti (path_moved_at ctx) (fun '(path, _) => path)] (fun '(path, _) point2 => (path, point2))) as (w1 & -> & A1); [done|done|].
    destruct (from_leapjoin_list (path_maybe_uninitialized_on_exit st) (path_maybe_uninitialized_on_exit st) [extend_with cfg_edge (fun '(_, point1) => point1); extend_anti (path_assigned_at ctx) (fun '(path, _) => path)] (fun '(path, _) point2 => (path, point2))) as (w2 & -> & A2); [done|done|]. cbn [obind].
    destruct (from_leapjoin_list (var_maybe_partly_initialized_on_exit st) w1 [extend_with (path_begins_with_var ctx) (fun '(path, _) => path)] (fun '(_, point) var => (var, point))) as (w3 & -> & A3); [done|done|]. cbn [obind].
    destruct (from_leapjoin_list (move_error st) w2 [extend_with cfg_edge (fun '(_, source_node) => source_node); extend_with (path_accessed_at ctx) (fun '(path, _) => path)] (fun '(path, _) target_node => (path, target_node))) as (w4 & -> & A4); [done|done|]. cbn [obind].
    eexists. split; [reflexivity|]. split; [intros []; eauto|]. intros [a b|a b|a b|a b]; [by_adds Hv A3 RPartly|by_adds Hv A1 RInit|by_adds Hv A2 RUninit|by_adds Hv A4 RError]; rewrite ?(adds_recent _ _ _ A1), ?(adds_recent _ _ _ A2).
    + split; [intros ([p q] & v & Hr & [Hx _] & [= -> ->]); fire [MaybeInit p q]; [by constructor|split; [by right|done]]|]. intros Hf. fired Hf. by exists (path, b), a.
    + split; [intros ([p q] & v & Hr & (Hx & Hy & _) & [= -> ->]); fire [MaybeInit p q]; [by constructor|split; [by right|done]]|]. intros Hf. fired Hf. by exists (a, point1), b.
    + split; [intros ([p q] & v & Hr & (Hx & Hy & _) & [= -> ->]); fire [MaybeUninit p q]; [by constructor|split; [by right|done]]|]. intros Hf. fired Hf. by exists (a, point1), b.
    + split; [intros ([p q] & v & Hr & (Hx & Hy & _) & [= -> ->]); fire [MaybeUninit p q]; [by constructor|split; [by right|done]]|]. intros Hf. fired Hf. by exists (a, source), b.
Qed.

Lemma insert_sorted_adds {A} `{Ord A} (l : list A) (P : A -> Prop) : sorted l -> (forall x, x ∈ l <-> P x) -> adds variable P (insert variable l).
Proof. intros Hl HP. eapply adds_iff; [exact HP|]. by apply insert_adds. Qed.

Lemma moves_settle (ctx : TransitivePaths Point Var Path) (cfg_edge : Relation (Point * Point)) : paths_ok ctx -> sorted cfg_edge -> fits cfg_edge ->
  settles (fun fuel => iterate fuel moves_changed (moves_body ctx cfg_edge) (mkMoveVars variable (insert variable (path_assigned_at ctx)) (insert variable (path_moved_at ctx)) variable))
    (completed move_vars move_fact (move_rule (path_assigned_at ctx) (path_moved_at ctx) (path_accessed_at ctx) (path_begins_with_var ctx) cfg_edge) keep_all).
Proof.
  intros Hok Hc Hfit. pose proof Hok as (Hm & Ha & _).
  apply (simple_settles move_vars move_fact move_view _ _ _ ltac:(by intros [] []) ltac:(by intros []) _ (move_program ctx cfg_edge Hok Hc Hfit) (move_finite _ _ _ _ _)).
  intros []; [eapply adds_iff; [|apply adds_refl]|apply insert_sorted_adds; [done|]|apply insert_sorted_adds; [done|]|eapply adds_iff; [|apply adds_refl]]; intros [a b]; cbn; (split; [try done; try by constructor|intros Hr; by inversion Hr]).
Qed.
End Moves.

(** The fields of [Output] that are not for debugging are kept. *)
Definition same_results {Origin Loan Point Var Path} (o o' : Output Origin Loan Point Var Path) : Prop :=
  errors o' = errors o /\ subset_errors o' = subset_errors o /\ move_errors o' = move_errors o /\ dump_enabled o' = dump_enabled o.

Lemma fits_sub {A} `{Ord A} (l l' : list A) : sorted l -> (forall x, x ∈ l -> x ∈ l') -> fits l' -> fits l.
Proof.
  intros Hs Hsub Hf. unfold fits in *. assert (length l <= length l') by (apply submseteq_length, NoDup_submseteq; [by apply sorted_nodup|done]). lia.
Qed.

Lemma fits_from_vec {A} `{Ord A} (l : list A) : fits l -> fits (from_vec l).
Proof. apply fits_sub; [apply from_vec_sorted|]. intros x. apply from_vec_in. Qed.

Lemma fits_fmap {A B} (f : A -> B) (l : list A) : fits l -> fits (f <$> l).
Proof. unfold fits. by rewrite length_fmap. Qed.

Section Initialization.
Context {Origin Loan Point Var Path : Type} `{Ord Origin, Ord Loan, Ord Point, Ord Var, Ord Path}.

(** *** [initialization::compute] *)

Section InitModel.
Context (ctx : InitializationContext Point Var Path) (cfg_edge : list (Point * Point)).

(** The facts of the first stage, and the rules of the second on top of them. *)
Definition init_paths : PathFact (Point := Point) (Var := Var) (Path := Path) -> Prop :=
  path_model (ic_child_path ctx) (ic_path_assigned_at_base ctx) (ic_path_moved_at_base ctx) (ic_path_accessed_at_base ctx) (ic_path_is_var ctx).

Abbreviation MFact := (@MoveFact Point Var Path).
Inductive init_rule : list MFact -> MFact -> Prop :=
| ir_init path point : init_paths (Assigned path point) -> init_rule [] (MaybeInit path point)
| ir_init_step path point1 point2 : (point1, point2) ∈ cfg_edge -> ~ init_paths (Moved path point2) -> init_rule [MaybeInit path point1] (MaybeInit path point2)
| ir_uninit path point : init_paths (Moved path point) -> init_rule [] (MaybeUninit path point)
| ir_uninit_step path point1 point2 : (point1, point2) ∈ cfg_edge -> ~ init_paths (Assigned path point2) -> init_rule [MaybeUninit path point1] (MaybeUninit path point2)
| ir_partly path point var : init_paths (BeginsWith path var) -> init_rule [MaybeInit path point] (PartlyInit var point)
| ir_error path source target : (source, target) ∈ cfg_edge -> init_paths (Accessed path target) -> init_rule [MaybeUninit path source] (MoveError path target).

Definition init_model : MFact -> Prop := derives init_rule keep_all.

Definition init_points : list Point := path_points (ic_path_assigned_at_base ctx) (ic_path_moved_at_base ctx) (ic_path_accessed_at_base ctx) ++ cfg_edge.*2.

Lemma init_model_partly v p : init_model (PartlyInit v p) -> v ∈ (ic_path_is_var ctx).*2 /\ p ∈ init_points.
Proof.
  assert (HS : forall f, init_model f -> match f with PartlyInit v p => v ∈ (ic_path_is_var ctx).*2 /\ p ∈ init_points | MaybeInit _ p | MaybeUninit _ p => p ∈ init_points | _ => True end); [|apply HS].
  induction 1 as [prems f Hr _ _ Hin]. destruct Hr as [q a Hx|q a b Hx _|q a Hx|q a b Hx _|q a w Hx|]; try done; unfold init_points in *; rewrite ?elem_of_app.
  - left. by apply path_model_atoms in Hx as [_ ?].
  - right. by apply elem_of_pair_proj in Hx as [_ ?].
  - left. by apply path_model_atoms in Hx as [_ ?].
  - right. by apply elem_of_pair_proj in Hx as [_ ?].
  - split; [by apply path_model_atoms in Hx as [_ ?]|]. rewrite <- elem_of_app. exact (Hin _ (list_elem_of_here _ _)).
Qed.
End InitModel.

Lemma init_model_ext (ctx : InitializationContext Point Var Path) (edges edges' : list (Point * Point)) f : (forall x, x ∈ edges <-> x ∈ edges') -> init_model ctx edges f <-> init_model ctx edges' f.
Proof. intros HE. apply derives_ext; [|done]. intros prems g. split; intros Hr; destruct Hr; econstructor; try done; by apply HE. Qed.

(** There are fewer pairs of a path and a point, and of a path and a variable, than [usize::MAX]. *)
Definition init_fits (ctx : InitializationContext Point Var Path) : Prop :=
  let atoms := path_atoms (ic_child_path ctx) (ic_path_assigned_at_base ctx) (ic_path_moved_at_base ctx) (ic_path_accessed_at_base ctx) (ic_path_is_var ctx) in
  fits (list_prod atoms (path_points (ic_path_assigned_at_base ctx) (ic_path_moved_at_base ctx) (ic_path_accessed_at_base ctx))) /\ fits (list_prod atoms (ic_path_is_var ctx).*2).

Lemma fits_pairs {A B} `{Ord A, Ord B} (l : list (A * B)) la lb : sorted l -> (forall a b, (a, b) ∈ l -> a ∈ la /\ b ∈ lb) -> fits (list_prod la lb) -> fits l.
Proof. intros Hs Hsub. apply fits_sub; [done|]. intros [a b] [Ha Hb]%Hsub. rewrite list_elem_of_In. apply in_prod_iff. by rewrite <- !list_elem_of_In. Qed.

Lemma initialization_settles (ctx : InitializationContext Point Var Path) (cfg_edge : Relation (Point * Point)) (output : Output Origin Loan Point Var Path) : sorted cfg_edge -> fits cfg_edge -> init_fits ctx ->
  settles (fun fuel => initialization_compute fuel ctx cfg_edge output) (fun '(partly, errs, out) =>
    enumerates partly (fun '(v, p) => init_model ctx cfg_edge (PartlyInit v p)) /\ enumerates errs (fun '(q, p) => init_model ctx cfg_edge (MoveError q p)) /\ same_results output out).
Proof.
  intros Hc Hfit [Hf1 Hf2]. unfold initialization_compute. eapply settles_bind; [apply transitive_paths_settle|]. intros tp (Mm & Ma & Mac & Mb).
  assert (Hok : paths_ok tp).
  { split_and!; [apply Mm|apply Ma|apply Mac| |apply Mb|].
    - eapply fits_pairs; [apply Mac| |exact Hf1]. intros a b Hab. apply Mac in Hab. by apply path_model_atoms in Hab.
    - eapply fits_pairs; [apply Mb| |exact Hf2]. intros a b Hab. apply Mb in Hab. by apply path_model_atoms in Hab. }
  assert (Hmodel : forall f, derives (move_rule (path_assigned_at tp) (path_moved_at tp) (path_accessed_at tp) (path_begins_with_var tp) cfg_edge) keep_all f <-> init_model ctx cfg_edge f).
  { intros f. apply derives_ext; [|done]. destruct Mm as [_ Mm], Ma as [_ Ma], Mac as [_ Mac], Mb as [_ Mb]. intros prems g.
    split; intros Hr; destruct Hr as [a b Hx|a b c Hx Hy|a b Hx|a b c Hx Hy|a b c Hx|a b c Hx Hy]; constructor; try done; first [by apply (Ma (a, b))|by apply (Mm (a, b))|by apply (Mb (a, c))|by apply (Mac (a, c))|by rewrite (Mm (a, c)) in *|by rewrite (Ma (a, c)) in *]. }
  eapply (settles_bind _ _ (fun '(status, out) => enumerates (s_var_maybe_partly_initialized_on_exit status) (fun '(v, p) => init_model ctx cfg_edge (PartlyInit v p)) /\ enumerates (s_move_error status) (fun '(q, p) => init_model ctx cfg_edge (MoveError q p)) /\ same_results output out)).
  - unfold compute_move_errors. eapply settles_bind; [by apply (moves_settle tp cfg_edge)|]. intros st Hst. cbv beta.
    destruct (Hst RPartly) as (r1 & E1 & M1), (Hst RInit) as (r2 & E2 & _), (Hst RUninit) as (r3 & E3 & _), (Hst RError) as (r4 & E4 & M4).
    returns (complete (path_maybe_initialized_on_exit st)) E2. returns (complete (path_maybe_uninitialized_on_exit st)) E3. returns (complete (var_maybe_partly_initialized_on_exit st)) E1. returns (complete (move_error st)) E4. cbn [obind].
    assert (He : enumerates r1 (fun '(v, p) => init_model ctx cfg_edge (PartlyInit v p)) /\ enumerates r4 (fun '(q, p) => init_model ctx cfg_edge (MoveError q p))) by (split; [apply (enumerates_iff _ _ _ M1)|apply (enumerates_iff _ _ _ M4)]; intros [a b]; apply Hmodel).
    destruct (dump_enabled output) eqn:Ed; apply settles_ret; (split; [apply He|]; split; [apply He|]); done.
  - intros [status out] (H1' & H2' & H3'). apply settles_ret. split; [done|]. split; [done|]. by destruct (dump_enabled out).
Qed.
End Initialization.

(** ** Liveness

    [compute_live_origins] computes the least model of the liveness rules in its comments. *)

Section Live.
Context {Origin Loan Point Var Path : Type} `{Ord Origin, Ord Loan, Ord Point, Ord Var, Ord Path}.

Inductive LiveFact : Type :=
| VarLive (var : Var) (point : Point)
| VarDropLive (var : Var) (point : Point)
| OriginLive (origin : Origin) (point : Point).

Section Rule.
Context (ctx : LivenessContext Origin Point Var) (cfg_edge : list (Point * Point)) (partly : Var * Point -> Prop).

(** The rules in the comments of [compute_live_origins]; [partly] is
    var_maybe_partly_initialized_on_exit. *)
Inductive live_rule : list LiveFact -> LiveFact -> Prop :=
| lr_used var point : (var, point) ∈ lc_var_used_at ctx -> live_rule [] (VarLive var point)
| lr_dropped var point1 point : (var, point) ∈ lc_var_dropped_at ctx -> partly (var, point1) -> (point1, point) ∈ cfg_edge -> live_rule [] (VarDropLive var point)
| lr_origin_drop var point origin : (var, origin) ∈ lc_drop_of_var_derefs_origin ctx -> live_rule [VarDropLive var point] (OriginLive origin point)
| lr_origin_use var point origin : (var, origin) ∈ lc_use_of_var_derefs_origin ctx -> live_rule [VarLive var point] (OriginLive origin point)
| lr_live_step var point1 point2 : (point1, point2) ∈ cfg_edge -> (var, point1) ∉ lc_var_defined_at ctx -> live_rule [VarLive var point2] (VarLive var point1)
| lr_drop_step var source target : (source, target) ∈ cfg_edge -> (var, source) ∉ lc_var_defined_at ctx -> partly (var, source) -> live_rule [VarDropLive var target] (VarDropLive var source).

Definition live_model : LiveFact -> Prop := derives live_rule keep_all.

(** The atoms of the facts. *)
Definition live_var_atoms : list Var := (lc_var_used_at ctx).*1 ++ (lc_var_dropped_at ctx).*1.
Definition live_points : list Point := (lc_var_used_at ctx).*2 ++ (lc_var_dropped_at ctx).*2 ++ cfg_edge.*1.
Definition live_origins : list Origin := (lc_drop_of_var_derefs_origin ctx).*2 ++ (lc_use_of_var_derefs_origin ctx).*2.

Lemma live_model_atoms f : live_model f -> match f with VarLive a b | VarDropLive a b => a ∈ live_var_atoms /\ b ∈ live_points | OriginLive a b => a ∈ live_origins /\ b ∈ live_points end.
Proof.
  assert (HVs : forall x, x ∈ (lc_var_used_at ctx).*1 \/ x ∈ (lc_var_dropped_at ctx).*1 -> x ∈ live_var_atoms) by (intros x; unfold live_var_atoms; by rewrite !elem_of_app).
  assert (HOs : forall x, x ∈ (lc_drop_of_var_derefs_origin ctx).*2 \/ x ∈ (lc_use_of_var_derefs_origin ctx).*2 -> x ∈ live_origins) by (intros x; unfold live_origins; by rewrite !elem_of_app).
  assert (HPts : forall x, x ∈ (lc_var_used_at ctx).*2 \/ x ∈ (lc_var_dropped_at ctx).*2 \/ x ∈ cfg_edge.*1 -> x ∈ live_points) by (intros x; unfold live_points; by rewrite !elem_of_app).
  induction 1 as [prems g Hr _ _ Hin]. destruct Hr as [a b Hx|a b c Hx _ _|a b c Hx|a b c Hx|a b c Hx _|a b c Hx _ _];
    try (pose proof (Hin _ (list_elem_of_here _ _)) as [Hin1 Hin1']); clear Hin; apply elem_of_pair_proj in Hx as [Hx1 Hx2]; auto 10.
Qed.

Lemma live_finite : finite_set live_model.
Proof.
  pose proof (finite_or _ _ (finite_map (uncurry VarLive) _ (finite_pairs live_var_atoms live_points)) (finite_or _ _ (finite_map (uncurry VarDropLive) _ (finite_pairs live_var_atoms live_points)) (finite_map (uncurry OriginLive) _ (finite_pairs live_origins live_points)))) as HU. apply (finite_sub _ _ HU).
  intros f Hf%live_model_atoms. destruct f as [a b|a b|a b]; [left|right; left|right; right]; by exists (a, b).
Qed.
End Rule.

Lemma live_model_ext (ctx : LivenessContext Origin Point Var) (edges edges' : list (Point * Point)) (partly partly' : Var * Point -> Prop) f :
  (forall x, x ∈ edges <-> x ∈ edges') -> (forall x, partly x <-> partly' x) -> live_model ctx edges partly f <-> live_model ctx edges' partly' f.
Proof. intros HE HP. apply derives_ext; [|done]. intros prems g. split; intros Hr; destruct Hr; econstructor; try done; first [by apply HE|by apply HP]. Qed.

Inductive LiveRel : Type := RLive | RDropLive | ROrigin.
Definition live_tuple (r : LiveRel) : Type := match r with ROrigin => Origin * Point | _ => Var * Point end.
#[local] Instance live_tuple_ord r : Ord (live_tuple r).
Proof. destruct r; apply _. Defined.
Definition live_vars (st : LiveVars Origin Point Var) (r : LiveRel) : DVariable (live_tuple r) :=
  match r with RLive => var_live_on_entry st | RDropLive => var_drop_live_on_entry st | ROrigin => v_origin_live_on_entry st end.
Definition live_fact (r : LiveRel) : live_tuple r -> LiveFact :=
  match r with RLive => uncurry VarLive | RDropLive => uncurry VarDropLive | ROrigin => uncurry OriginLive end.
Definition live_view (f : LiveFact) : sigT live_tuple :=
  match f with VarLive a b => existT RLive (a, b) | VarDropLive a b => existT RDropLive (a, b) | OriginLive a b => existT ROrigin (a, b) end.

Lemma live_changed_eq (st : LiveVars Origin Point Var) : live_changed st =
  (any_changed [(changed (var_live_on_entry st)).1; (changed (var_drop_live_on_entry st)).1; (changed (v_origin_live_on_entry st)).1],
   mkLiveVars (changed (var_live_on_entry st)).2 (changed (var_drop_live_on_entry st)).2 (changed (v_origin_live_on_entry st)).2).
Proof. unfold live_changed. by repeat destruct (changed _). Qed.

(** The relations hold the facts. *)
Definition rels_ok (ctx : LivenessContext Origin Point Var) (cfg_edge : list (Point * Point)) (partly : Var * Point -> Prop) (r : LiveRels Origin Point Var) : Prop :=
  enumerates (r_var_defined_at r) (fun x => x ∈ lc_var_defined_at ctx) /\ enumerates (r_cfg_edge_reverse r) (fun '(q, p) => (p, q) ∈ cfg_edge) /\ fits (r_cfg_edge_reverse r) /\
  enumerates (r_use_of_var_derefs_origin r) (fun x => x ∈ lc_use_of_var_derefs_origin ctx) /\ enumerates (r_drop_of_var_derefs_origin r) (fun x => x ∈ lc_drop_of_var_derefs_origin ctx) /\
  enumerates (r_partly r) partly /\ fits (r_partly r).

Lemma live_program ctx cfg_edge partly (r : LiveRels Origin Point Var) : rels_ok ctx cfg_edge partly r ->
  Program live_vars live_view live_changed (live_body r) (live_rule ctx cfg_edge partly) keep_all all_distinct.
Proof.
  intros ([Sd Id] & [Sc Ic] & Fc & [Su Iu] & [Sr Ir] & [Sp Ip] & Fp). apply simple_program.
  - intros st []; by rewrite live_changed_eq.
  - intros st. rewrite live_changed_eq. cbn [fst]. flags. split; [intros [E|[E|[E|[]]]]; [exists RLive|exists RDropLive|exists ROrigin]; symmetry; exact E|intros [[] E]; in_flags E].
  - intros st Hv. unfold live_body.
    pose proof (from_join_rel (v_origin_live_on_entry st) (var_drop_live_on_entry st) (r_drop_of_var_derefs_origin r) (fun _ point origin => (origin, point)) (proj1 (Hv RDropLive)) Sr) as A1. set (w1 := from_join (v_origin_live_on_entry st) _ _ _) in *.
    pose proof (from_join_rel w1 (var_live_on_entry st) (r_use_of_var_derefs_origin r) (fun _ point origin => (origin, point)) (proj1 (Hv RLive)) Su) as A2. pose proof (adds_trans _ _ _ _ _ A1 A2) as A3.
    destruct (from_leapjoin_list (var_live_on_entry st) (var_live_on_entry st) [extend_anti (r_var_defined_at r) (fun '(var, _) => var); extend_with (r_cfg_edge_reverse r) (fun '(_, point2) => point2)] (fun '(var, _) point1 => (var, point1))) as (w3 & -> & A4); [done|done|]. cbn [obind].
    destruct (from_leapjoin_list (var_drop_live_on_entry st) (var_drop_live_on_entry st) [extend_anti (r_var_defined_at r) (fun '(var, _) => var); extend_with (r_cfg_edge_reverse r) (fun '(_, target_node) => target_node); extend_with (r_partly r) (fun '(var, _) => var)]
      (fun '(var, _) source_node => (var, source_node))) as (w4 & -> & A5); [done|done|]. cbn [obind].
    eexists. split; [reflexivity|]. split; [intros []; eauto|]. intros [a b|a b|a b]; [by_adds Hv A4 RLive|by_adds Hv A5 RDropLive|by_adds Hv A3 ROrigin].
    + split; [intros ([v q] & p & Hr & (Hx & Hy & _) & [= -> ->])|intros Hf; fired Hf].
      * fire [VarLive v q]; [|split; [by right|done]]. constructor; [by apply (Ic (q, p))|]. intros Hn. apply Hx. by apply Id.
      * exists (a, point2), b. split; [done|]. split; [|done]. split; [intros Hn; apply Id in Hn; done|]. split; [by apply (Ic (point2, b))|done].
    + split; [intros ([v q] & p & Hr & (Hx & Hy & Hz & _) & [= -> ->])|intros Hf; fired Hf].
      * fire [VarDropLive v q]; [|split; [by right|done]]. constructor; [by apply (Ic (q, p))| |by apply (Ip (v, p))]. intros Hn. apply Hx. by apply Id.
      * exists (a, target), b. split; [done|]. split; [|done]. split; [intros Hn; apply Id in Hn; done|]. split; [by apply (Ic (target, b))|]. split; [by apply (Ip (a, b))|done].
    + split; [intros [(v & p & o & Hr & Hx & [= -> ->])|(v & p & o & Hr & Hx & [= -> ->])]|intros Hf; fired Hf].
      * fire [VarDropLive v p]; [constructor; by apply Ir|split; [by right|done]].
      * fire [VarLive v p]; [constructor; by apply Iu|split; [by right|done]].
      * left. exists var, b, a. split; [done|]. split; [by apply Ir|done].
      * right. exists var, b, a. split; [done|]. split; [by apply Iu|done].
Qed.

Lemma join_relation_in {Key V1 V2 R : Type} `{Ord Key, Ord V1, Ord V2, Ord R} (r1 : Relation (Key * V1)) (r2 : Relation (Key * V2)) (logic : Key -> V1 -> V2 -> R) x :
  sorted r1 -> sorted r2 -> x ∈ join_into_relation r1 r2 logic <-> joined logic (fun y => y ∈ r1) (fun y => y ∈ r2) x.
Proof. intros Hs1 Hs2. unfold join_into_relation. rewrite from_vec_in. by apply join_slices_spec. Qed.

Lemma live_origins_settle (ctx : LivenessContext Origin Point Var) (cfg_edge : Relation (Point * Point)) (partly : Relation (Var * Point)) (output : Output Origin Loan Point Var Path) :
  sorted cfg_edge -> fits cfg_edge -> sorted partly -> fits partly ->
  settles (fun fuel => compute_live_origins fuel ctx cfg_edge partly output) (fun '(live, out) =>
    enumerates live (fun '(o, p) => live_model ctx cfg_edge (fun x => x ∈ partly) (OriginLive o p)) /\ same_results output out).
Proof.
  intros Hc Hfc Hp Hfp. unfold compute_live_origins. set (r := mkLiveRels _ _ _ _ _).
  assert (Hr : rels_ok ctx cfg_edge (fun x => x ∈ partly) r).
  { unfold rels_ok, enumerates. cbn. split_and!; try apply from_vec_sorted; try (intros x; apply from_vec_in); try done; [|apply fits_from_vec, fits_fmap, Hfc].
    intros [q p]. rewrite from_vec_in, list_elem_of_fmap. split; [by intros ([? ?] & [= -> ->] & Hx)|]. intros Hx. by exists (p, q). }
  destruct (leapjoin_spec partly [extend_with cfg_edge (fun '(_, point1) => point1)] (fun '(var, _) point2 => ((var, point2), tt))) as (entry & He & Hes & Hei).
  { split; [by repeat constructor|]. eexists. split; [left|done]. }
  unfold relation_from_leapjoin. rewrite He. cbn [obind]. set (dropped := from_vec ((fun '(var, point) => ((var, point), tt)) <$> lc_var_dropped_at ctx)).
  assert (Hdrop : forall v p, (v, p) ∈ join_into_relation dropped entry (fun '(var, point) _ _ => (var, point)) <-> (v, p) ∈ lc_var_dropped_at ctx /\ exists p1, (v, p1) ∈ partly /\ (p1, p) ∈ cfg_edge).
  { intros v p. rewrite join_relation_in by (done || apply from_vec_sorted). unfold joined, dropped. split.
    - intros ([v' p'] & [] & [] & Hd & Hen & [= -> ->]). apply from_vec_in, list_elem_of_fmap in Hd as ([? ?] & [= -> ->] & Hd). split; [done|]. apply Hei in Hen as ([? p1] & p2 & Hpa & Hacc & [= -> ->]). apply Forall_cons in Hacc as [Hacc _]. by exists p1.
    - intros (Hd & p1 & Hpa & Hcfg). exists (v, p), tt, tt. split; [apply from_vec_in, list_elem_of_fmap; by exists (v, p)|]. split; [|done]. apply Hei. exists (v, p1), p. split; [done|]. split; [by repeat constructor|done]. }
  eapply settles_bind; [apply (simple_settles live_vars live_fact live_view _ _ _ ltac:(by intros [] []) ltac:(by intros []) _ (live_program _ _ _ _ Hr) (live_finite _ _ _))|].
  - intros []; [apply insert_vec_adds|apply insert_sorted_adds; [apply from_vec_sorted|]|eapply adds_iff; [|apply adds_refl]]; intros [a b]; cbn.
    + split; [by constructor|intros Hx; by inversion Hx].
    + rewrite Hdrop. split; [intros (Hd & p1 & ? & ?); by apply (lr_dropped _ _ _ a p1)|intros Hx; inversion Hx; eauto].
    + split; [done|intros Hx; by inversion Hx].
  - intros st Hst. cbv beta. destruct (Hst RLive) as (r1 & E1 & _), (Hst RDropLive) as (r2 & E2 & _), (Hst ROrigin) as (r3 & E3 & M3).
    returns (complete (var_live_on_entry st)) E1. returns (complete (var_drop_live_on_entry st)) E2. returns (complete (v_origin_live_on_entry st)) E3. cbn [obind].
    destruct (dump_enabled output) eqn:Ed; apply settles_ret; (split; [apply (enumerates_iff _ _ _ M3); by intros [a b]|done]).
Qed.

(** [make_universal_regions_live] adds every universal region at every point. *)
Lemma universal_regions_live (live : list (Origin * Point)) (cfg_node : list Point) (universal_regions : list Origin) o p :
  (o, p) ∈ make_universal_regions_live live cfg_node universal_regions <-> (o, p) ∈ live \/ (o ∈ universal_regions /\ p ∈ cfg_node).
Proof.
  unfold make_universal_regions_live. rewrite elem_of_app. rewrite (flat_join_in _ _ (fun o' x => exists p', x = (o', p') /\ p' ∈ cfg_node)) by (intros o' _; rewrite list_elem_of_fmap; done).
  split; [intros [?|(o' & ? & p' & [= -> ->] & ?)]; tauto|]. intros [?|[? ?]]; [by left|right; eauto].
Qed.
End Live.
