(* ===== verification/PoloniusVariants.v ===== *)
(** * The Polonius borrow checker: the location-insensitive and naive variants

    [src/polonius_engine/output/location_insensitive.rs] and [naive.rs].  A tuple of three is a pair whose first
    component is a pair; the order is lexicographic either way. *)
From Stdlib Require Import ZArith Lia.
From stdpp Require Import base numbers list.
From S2P Require Import Prelude RustSlice Datafrog Polonius.
#[local] Open Scope nat_scope.
Open Scope rust_scope.

Section Variants.
Context {Origin Loan Point Var Path : Type} `{Ord Origin, Ord Loan, Ord Point, Ord Var, Ord Path}.
Abbreviation Ctx := (Context_ Origin Loan Point).
Abbreviation Out := (Output Origin Loan Point Var Path).

(** ** [location_insensitive.rs] *)

Record InsensitiveVars := mkInsensitiveVars {
  ins_contains : DVariable (Origin * Loan);
  ins_errors : DVariable (Loan * Point);
  ins_subset_errors : DVariable (Origin * Origin);
}.

Definition insensitive_changed (st : InsensitiveVars) : bool * InsensitiveVars :=
  let '(c1, v1) := changed (ins_contains st) in
  let '(c2, v2) := changed (ins_errors st) in
  let '(c3, v3) := changed (ins_subset_errors st) in
  (any_changed [c1; c2; c3], mkInsensitiveVars v1 v2 v3).

Definition insensitive_body (ctx : Ctx) (subset : Relation (Origin * Origin)) (st : InsensitiveVars) : outcome InsensitiveVars :=
  let contains := from_join (ins_contains st) (ins_contains st) subset (fun _ loan origin2 => (origin2, loan)) in
  let* errors := from_leapjoin (ins_errors st) contains
    [extend_with (c_origin_live_on_entry ctx) (fun '(origin, _) => origin); extend_with (c_loan_invalidated_at ctx) (fun '(_, loan) => loan)]
    (fun '(_, loan) point => (loan, point)) in
  let* subset_errors := from_leapjoin (ins_subset_errors st) contains
    [filter_anti (c_known_contains ctx) (fun '(origin2, loan1) => (origin2, loan1));
     filter_with (c_placeholder_origin ctx) (fun '(origin2, _) => (origin2, tt));
     extend_with (c_placeholder_loan ctx) (fun '(_, loan1) => loan1);
     ValueFilter (fun '(origin2, _) origin1 => negb (eq_b origin2 origin1))]
    (fun '(origin2, _) origin1 => (origin1, origin2)) in
  Ret (mkInsensitiveVars contains errors subset_errors).

Definition dump_anywhere (subset : list (Origin * Origin)) (contains : list (Origin * Loan)) (o : Out) : Out :=
  mkOutput (errors o) (subset_errors o) (move_errors o) (dump_enabled o) (o_loan_live_at o) (o_origin_contains_loan_at o)
    (insert_each ((fun '(origin, loan) => (loan, origin)) <$> contains) (o_origin_contains_loan_anywhere o)) (o_origin_live_on_entry o) (o_loan_invalidated_at o) (o_subset o)
    (insert_each ((fun '(origin1, origin2) => (origin2, origin1)) <$> subset) (o_subset_anywhere o))
    (o_var_live_on_entry o) (o_var_drop_live_on_entry o) (o_path_maybe_initialized_on_exit o) (o_path_maybe_uninitialized_on_exit o) (o_known_contains o) (o_var_maybe_partly_initialized_on_exit o).

(** [location_insensitive::compute]. *)
Definition insensitive_compute (fuel : nat) (ctx : Ctx) (result : Out) : outcome (Relation (Loan * Point) * Relation (Origin * Origin) * Out) :=
  let subset := from_vec ((fun '(origin1, origin2, _) => (origin1, origin2)) <$> c_subset_base ctx) in
  let contains := extend variable ((fun '(origin, loan, _) => (origin, loan)) <$> c_loan_issued_at ctx) in
  let contains := extend contains ((fun '(loan, origin) => (origin, loan)) <$> c_placeholder_loan ctx) in
  let* st := iterate fuel insensitive_changed (insensitive_body ctx subset) (mkInsensitiveVars contains variable variable) in
  let* result :=
    if dump_enabled result then let* contains := complete (ins_contains st) in Ret (dump_anywhere subset contains result)
    else Ret result in
  let* potential_errors := complete (ins_errors st) in
  let* potential_subset_errors := complete (ins_subset_errors st) in
  Ret (potential_errors, potential_subset_errors, result).

(** ** [naive.rs] *)

Record NaiveVars := mkNaiveVars {
  n_subset : DVariable (Origin * Origin * Point);
  n_contains : DVariable (Origin * Loan * Point);
  n_loan_live_at : DVariable ((Loan * Point) * unit);
  n_subset_o1p : DVariable ((Origin * Point) * Origin);
  n_subset_o2p : DVariable ((Origin * Point) * Origin);
  n_contains_op : DVariable ((Origin * Point) * Loan);
  n_origin_live : DVariable ((Origin * Point) * unit);
  n_errors : DVariable (Loan * Point);
  n_subset_errors : DVariable (Origin * Origin * Point);
}.

Definition naive_changed (st : NaiveVars) : bool * NaiveVars :=
  let '(c1, v1) := changed (n_subset st) in
  let '(c2, v2) := changed (n_contains st) in
  let '(c3, v3) := changed (n_loan_live_at st) in
  let '(c4, v4) := changed (n_subset_o1p st) in
  let '(c5, v5) := changed (n_subset_o2p st) in
  let '(c6, v6) := changed (n_contains_op st) in
  let '(c7, v7) := changed (n_origin_live st) in
  let '(c8, v8) := changed (n_errors st) in
  let '(c9, v9) := changed (n_subset_errors st) in
  (any_changed [c1; c2; c3; c4; c5; c6; c7; c8; c9], mkNaiveVars v1 v2 v3 v4 v5 v6 v7 v8 v9).

(** [variable.recent.borrow_mut().elements.retain(p)]. *)
Definition retain_recent {Tuple} (p : Tuple -> bool) (v : DVariable Tuple) : DVariable Tuple :=
  mkVariable (distinct v) (stable v) (List.filter p (recent v)) (to_add v).

Definition naive_body (ctx : Ctx) (loan_invalidated_at : Relation ((Loan * Point) * unit)) (st : NaiveVars) : outcome NaiveVars :=
  let subset := retain_recent (fun '(origin1, origin2, _) => negb (eq_b origin1 origin2)) (n_subset st) in
  let subset_o1p := from_map (n_subset_o1p st) subset (fun '(origin1, origin2, point) => ((origin1, point), origin2)) in
  let subset_o2p := from_map (n_subset_o2p st) subset (fun '(origin1, origin2, point) => ((origin2, point), origin1)) in
  let contains := n_contains st in
  let contains_op := from_map (n_contains_op st) contains (fun '(origin, loan, point) => ((origin, point), loan)) in
  (* Rule 2 *)
  let subset := from_join subset subset_o2p subset_o1p (fun '(_, point) origin1 origin3 => (origin1, origin3, point)) in
  (* Rule 3 *)
  let* subset := from_leapjoin subset subset
    [extend_with (c_cfg_edge ctx) (fun '(_, _, point1) => point1);
     extend_with (c_origin_live_on_entry ctx) (fun '(origin1, _, _) => origin1);
     extend_with (c_origin_live_on_entry ctx) (fun '(_, origin2, _) => origin2)]
    (fun '(origin1, origin2, _) point2 => (origin1, origin2, point2)) in
  (* Rule 5 *)
  let contains := from_join contains contains_op subset_o1p (fun '(_, point) loan origin2 => (origin2, loan, point)) in
  (* Rule 6 *)
  let* contains := from_leapjoin contains contains
    [filter_anti (c_loan_killed_at ctx) (fun '(_, loan, point1) => (loan, point1));
     extend_with (c_cfg_edge ctx) (fun '(_, _, point1) => point1);
     extend_with (c_origin_live_on_entry ctx) (fun '(origin, _, _) => origin)]
    (fun '(origin, loan, _) point2 => (origin, loan, point2)) in
  (* Rule 7 *)
  let loan_live_at := from_join (n_loan_live_at st) contains_op (n_origin_live st) (fun '(_, point) loan _ => ((loan, point), tt)) in
  (* Rule 8 *)
  let errors := from_join (n_errors st) loan_live_at loan_invalidated_at (fun '(loan, point) _ _ => (loan, point)) in
  (* Rule 9 *)
  let* subset_errors := from_leapjoin (n_subset_errors st) subset
    [extend_with (c_placeholder_origin ctx) (fun '(origin1, _, _) => origin1);
     extend_with (c_placeholder_origin ctx) (fun '(_, origin2, _) => origin2);
     filter_anti (c_known_placeholder_subset ctx) (fun '(origin1, origin2, _) => (origin1, origin2));
     ValueFilter (fun '(origin1, origin2, _) _ => negb (eq_b origin1 origin2))]
    (fun '(origin1, origin2, point) _ => (origin1, origin2, point)) in
  Ret (mkNaiveVars subset contains loan_live_at subset_o1p subset_o2p contains_op (n_origin_live st) errors subset_errors).

Definition dump_points (subset : list (Origin * Origin * Point)) (contains : list (Origin * Loan * Point)) (loan_live_at : list (Loan * Point * unit)) (o : Out) : Out :=
  mkOutput (errors o) (subset_errors o) (move_errors o) (dump_enabled o) (push_each (fst <$> loan_live_at) (o_loan_live_at o)) (insert_each2 contains (o_origin_contains_loan_at o))
    (o_origin_contains_loan_anywhere o) (o_origin_live_on_entry o) (o_loan_invalidated_at o) (insert_each2 subset (o_subset o)) (o_subset_anywhere o)
    (o_var_live_on_entry o) (o_var_drop_live_on_entry o) (o_path_maybe_initialized_on_exit o) (o_path_maybe_uninitialized_on_exit o) (o_known_contains o) (o_var_maybe_partly_initialized_on_exit o).

(** [naive::compute]. *)
Definition naive_compute (fuel : nat) (ctx : Ctx) (result : Out) : outcome (Relation (Loan * Point) * Relation (Origin * Origin * Point) * Out) :=
  let loan_invalidated_at := from_vec ((fun '(loan, point) => ((loan, point), tt)) <$> c_loan_invalidated_at ctx) in
  let origin_live := extend variable ((fun '(origin, point) => ((origin, point), tt)) <$> c_origin_live_on_entry ctx) in
  let st := mkNaiveVars (extend variable (c_subset_base ctx)) (extend variable (c_loan_issued_at ctx)) variable variable_indistinct variable_indistinct variable_indistinct origin_live variable variable in
  let* st := iterate fuel naive_changed (naive_body ctx loan_invalidated_at) st in
  let* result :=
    if dump_enabled result then
      let* subset := complete (n_subset st) in
      let* _ := assert_that (length (List.filter (fun '(origin1, origin2, _) => eq_b origin1 origin2) subset) =? 0) in
      let* contains := complete (n_contains st) in
      let* loan_live_at := complete (n_loan_live_at st) in
      Ret (dump_points subset contains loan_live_at result)
    else Ret result in
  let* errors := complete (n_errors st) in
  let* subset_errors := complete (n_subset_errors st) in
  Ret (errors, subset_errors, result).
End Variants.
Arguments InsensitiveVars : clear implicits.
Arguments NaiveVars : clear implicits.
