(* ===== verification/PoloniusNaive.v ===== *)
(** * The location-insensitive and the naive variant compute their least models *)
From Stdlib Require Import ZArith Lia.
From stdpp Require Import base numbers list.
From S2P Require Import Prelude RustSlice Datafrog DatafrogFacts DatafrogLeap DatafrogVar SemiNaive DatafrogProgram Polonius PoloniusLoops PoloniusFlow PoloniusVariants.
#[local] Open Scope nat_scope.
Open Scope rust_scope.

(** ** The location-insensitive variant computes its least model *)

Section Insensitive.
Context {Origin Loan Point Var Path : Type} `{Ord Origin, Ord Loan, Ord Point, Ord Var, Ord Path}.

(** The relations of a [Context] are sorted, and those that propose values fit in memory. *)
Definition ctx_ok (ctx : Context_ Origin Loan Point) : Prop :=
  (sorted (c_origin_live_on_entry ctx) /\ fits (c_origin_live_on_entry ctx)) /\ (sorted (c_loan_invalidated_at ctx) /\ fits (c_loan_invalidated_at ctx)) /\ sorted (c_loan_killed_at ctx) /\ sorted (c_known_contains ctx) /\
  (sorted (c_placeholder_origin ctx) /\ fits (c_placeholder_origin ctx)) /\ (sorted (c_placeholder_loan ctx) /\ fits (c_placeholder_loan ctx)) /\ sorted (c_known_placeholder_subset ctx) /\ (sorted (c_cfg_edge ctx) /\ fits (c_cfg_edge ctx)).

Inductive InsFact : Type :=
| InsContains (origin : Origin) (loan : Loan)
| PotentialError (loan : Loan) (point : Point)
| PotentialSubsetError (origin1 origin2 : Origin).

Section Rule.
Context (ctx : Context_ Origin Loan Point).

(** The rules in the comments of [location_insensitive::compute]. *)
Inductive ins_rule : list InsFact -> InsFact -> Prop :=
| ins_issued origin loan point : (origin, loan, point) ∈ c_loan_issued_at ctx -> ins_rule [] (InsContains origin loan)
| ins_placeholder origin loan : (loan, origin) ∈ c_placeholder_loan ctx -> ins_rule [] (InsContains origin loan)
| ins_subset origin1 origin2 point loan : (origin1, origin2, point) ∈ c_subset_base ctx -> ins_rule [InsContains origin1 loan] (InsContains origin2 loan)
| ins_error origin loan point : (origin, point) ∈ c_origin_live_on_entry ctx -> (loan, point) ∈ c_loan_invalidated_at ctx -> ins_rule [InsContains origin loan] (PotentialError loan point)
| ins_subset_error origin1 origin2 loan1 : (loan1, origin1) ∈ c_placeholder_loan ctx -> (origin2, tt) ∈ c_placeholder_origin ctx -> (origin2, loan1) ∉ c_known_contains ctx -> origin2 <> origin1 ->
    ins_rule [InsContains origin2 loan1] (PotentialSubsetError origin1 origin2).

Definition ins_model : InsFact -> Prop := derives ins_rule keep_all.

Lemma ins_finite : finite_set ins_model.
Proof.
  set (Os := (c_loan_issued_at ctx).*1.*1 ++ (c_placeholder_loan ctx).*2 ++ (c_subset_base ctx).*1.*2). set (Ls := (c_loan_issued_at ctx).*1.*2 ++ (c_placeholder_loan ctx).*1). set (Pts := (c_origin_live_on_entry ctx).*2).
  pose proof (finite_or _ _ (finite_map (uncurry InsContains) _ (finite_pairs Os Ls)) (finite_or _ _ (finite_map (uncurry PotentialError) _ (finite_pairs Ls Pts)) (finite_map (uncurry PotentialSubsetError) _ (finite_pairs Os Os)))) as HU. apply (finite_sub _ _ HU).
  assert (HOs : forall x, x ∈ (c_loan_issued_at ctx).*1.*1 \/ x ∈ (c_placeholder_loan ctx).*2 \/ x ∈ (c_subset_base ctx).*1.*2 -> x ∈ Os) by (intros x; unfold Os; by rewrite !elem_of_app).
  assert (HLs : forall x, x ∈ (c_loan_issued_at ctx).*1.*2 \/ x ∈ (c_placeholder_loan ctx).*1 -> x ∈ Ls) by (intros x; unfold Ls; by rewrite !elem_of_app).
  assert (HPts : forall x, x ∈ (c_origin_live_on_entry ctx).*2 -> x ∈ Pts) by done. clearbody Os Ls Pts.
  assert (HS : forall f, ins_model f -> match f with InsContains a b => a ∈ Os /\ b ∈ Ls | PotentialError a b => a ∈ Ls /\ b ∈ Pts | PotentialSubsetError a b => a ∈ Os /\ b ∈ Os end).
  { induction 1 as [prems g Hr _ _ Hin]. destruct Hr as [a b c Hx|a b Hx|a b c d Hx|a b c Hx _|a b c Hx _ _ _];
      try (pose proof (Hin _ (list_elem_of_here _ _)) as [Hin1 Hin1']); clear Hin; apply elem_of_pair_proj in Hx as [Hx1 Hx2]; try (apply elem_of_pair_proj in Hx1 as [Hx1 Hx3]); auto 10. }
  intros f Hf%HS. destruct f as [a b|a b|a b]; [left|right; left|right; right]; by exists (a, b).
Qed.
End Rule.

Inductive InsRel : Type := IContains | IErrors | ISubset.
Definition ins_tuple (r : InsRel) : Type := match r with IContains => Origin * Loan | IErrors => Loan * Point | ISubset => Origin * Origin end.
#[local] Instance ins_tuple_ord r : Ord (ins_tuple r).
Proof. destruct r; apply _. Defined.
Definition ins_vars (st : InsensitiveVars Origin Loan Point) (r : InsRel) : DVariable (ins_tuple r) :=
  match r with IContains => ins_contains st | IErrors => ins_errors st | ISubset => ins_subset_errors st end.
Definition ins_fact (r : InsRel) : ins_tuple r -> InsFact :=
  match r with IContains => uncurry InsContains | IErrors => uncurry PotentialError | ISubset => uncurry PotentialSubsetError end.
Definition ins_view (f : InsFact) : sigT ins_tuple :=
  match f with InsContains a b => existT IContains (a, b) | PotentialError a b => existT IErrors (a, b) | PotentialSubsetError a b => existT ISubset (a, b) end.

Lemma insensitive_changed_eq (st : InsensitiveVars Origin Loan Point) : insensitive_changed st =
  (any_changed [(changed (ins_contains st)).1; (changed (ins_errors st)).1; (changed (ins_subset_errors st)).1], mkInsensitiveVars (changed (ins_contains st)).2 (changed (ins_errors st)).2 (changed (ins_subset_errors st)).2).
Proof. unfold insensitive_changed. by repeat destruct (changed _). Qed.

Lemma neq_b_true {A} `{Ord A} (a b : A) : negb (eq_b a b) = true <-> a <> b.
Proof. rewrite negb_true_iff, <- not_true_iff_false, eq_b_true. done. Qed.

Lemma ins_program ctx (subset : Relation (Origin * Origin)) : ctx_ok ctx -> enumerates subset (fun '(o1, o2) => exists p, (o1, o2, p) ∈ c_subset_base ctx) ->
  Program ins_vars ins_view insensitive_changed (insensitive_body ctx subset) (ins_rule ctx) keep_all all_distinct.
Proof.
  intros ([Sl Fl] & [Si Fi] & Sk & Skc & [So Fo] & [Sp Fp] & Sks & Sc) [Ss Is]. apply simple_program.
  - intros st []; by rewrite insensitive_changed_eq.
  - intros st. rewrite insensitive_changed_eq. cbn [fst]. flags. split; [intros [E|[E|[E|[]]]]; [exists IContains|exists IErrors|exists ISubset]; symmetry; exact E|intros [[] E]; in_flags E].
  - intros st Hv. unfold insensitive_body.
    pose proof (from_join_rel (ins_contains st) (ins_contains st) subset (fun _ loan origin2 => (origin2, loan)) (proj1 (Hv IContains)) Ss) as A1. set (w1 := from_join (ins_contains st) _ _ _) in *.
    destruct (from_leapjoin_list (ins_errors st) w1 [extend_with (c_origin_live_on_entry ctx) (fun '(origin, _) => origin); extend_with (c_loan_invalidated_at ctx) (fun '(_, loan) => loan)] (fun '(_, loan) point => (loan, point))) as (w2 & -> & A2); [done|done|]. cbn [obind].
    destruct (from_leapjoin_list (ins_subset_errors st) w1 [filter_anti (c_known_contains ctx) (fun '(origin2, loan1) => (origin2, loan1)); filter_with (c_placeholder_origin ctx) (fun '(origin2, _) => (origin2, tt));
      extend_with (c_placeholder_loan ctx) (fun '(_, loan1) => loan1); ValueFilter (fun '(origin2, _) origin1 => negb (eq_b origin2 origin1))] (fun '(origin2, _) origin1 => (origin1, origin2))) as (w3 & -> & A3); [done|done|]. cbn [obind].
    eexists. split; [reflexivity|]. split; [intros []; eauto|]. intros [a b|a b|a b]; [by_adds Hv A1 IContains|by_adds Hv A2 IErrors|by_adds Hv A3 ISubset]; rewrite ?(adds_recent _ _ _ A1).
    + split; [intros (o1 & l & o2 & Hr & Hx & [= -> ->])|intros Hf; fired Hf].
      * fire [InsContains o1 l]; [|split; [by right|done]]. apply Is in Hx as [p Hx]. by econstructor.
      * exists origin1, b, a. split; [done|]. split; [apply Is; eauto|done].
    + split; [intros ([o l] & p & Hr & (Hx & Hy & _) & [= -> ->])|intros Hf; fired Hf].
      * fire [InsContains o l]; [by constructor|split; [by right|done]].
      * by exists (origin, a), b.
    + split; [intros ([o2 l] & o1 & Hr & (Hx & Hy & Hz & Hw & _) & [= -> ->])|intros Hf; fired Hf].
      * fire [InsContains o2 l]; [|split; [by right|done]]. constructor; [exact Hz|exact Hy|exact Hx|]. by apply neq_b_true.
      * exists (b, loan1), a. split; [done|]. split; [|done]. refine (conj _ (conj _ (conj _ (conj _ I)))); [assumption|assumption|assumption|by apply neq_b_true].
Qed.

Lemma insensitive_settles ctx (result : Output Origin Loan Point Var Path) : ctx_ok ctx ->
  settles (fun fuel => insensitive_compute fuel ctx result) (fun '(errs, subset_errs, out) =>
    enumerates errs (fun '(l, p) => ins_model ctx (PotentialError l p)) /\ enumerates subset_errs (fun '(o1, o2) => ins_model ctx (PotentialSubsetError o1 o2)) /\ same_results result out).
Proof.
  intros Hok. unfold insensitive_compute. set (subset := from_vec _).
  assert (Hs : enumerates subset (fun '(o1, o2) => exists p, (o1, o2, p) ∈ c_subset_base ctx)).
  { split; [apply from_vec_sorted|]. intros [o1 o2]. unfold subset. rewrite from_vec_in, list_elem_of_fmap. split; [intros ([[? ?] p] & [= -> ->] & Hx); eauto|]. intros [p Hx]. by exists (o1, o2, p). }
  eapply settles_bind; [apply (simple_settles ins_vars ins_fact ins_view _ _ _ ltac:(by intros [] []) ltac:(by intros []) _ (ins_program ctx subset Hok Hs) (ins_finite _))|].
  - intros []; [eapply adds_iff; [|eapply adds_trans; apply extend_adds]|eapply adds_iff; [|apply adds_refl]|eapply adds_iff; [|apply adds_refl]]; intros [a b]; cbn.
    + rewrite !list_elem_of_fmap. split; [intros [([[? ?] p] & [= -> ->] & Hx)|([? ?] & [= -> ->] & Hx)]; [by econstructor|by apply ins_placeholder]|].
      intros Hr. inversion Hr; [left; by exists (a, b, point)|right; by exists (b, a)].
    + split; [done|intros Hr; by inversion Hr].
    + split; [done|intros Hr; by inversion Hr].
  - intros st Hst. cbv beta. destruct (Hst IContains) as (r1 & E1 & _), (Hst IErrors) as (r2 & E2 & M2), (Hst ISubset) as (r3 & E3 & M3).
    returns (complete (ins_contains st)) E1. returns (complete (ins_errors st)) E2. returns (complete (ins_subset_errors st)) E3. cbn [obind].
    destruct (dump_enabled result) eqn:Ed; apply settles_ret; (split; [apply (enumerates_iff _ _ _ M2); by intros [a b]|]; split; [apply (enumerates_iff _ _ _ M3); by intros [a b]|done]).
Qed.
End Insensitive.

(** ** The naive variant computes its least model

    The variant keeps three re-indexed copies of its relations in variables that are not kept distinct, and throws away the
    subsets of an origin of itself as they arrive; what is thrown away would add nothing. *)

Section Naive.
Context {Origin Loan Point Var Path : Type} `{Ord Origin, Ord Loan, Ord Point, Ord Var, Ord Path}.

(** The relations of the program, the copies included. *)
Inductive NaiveFact : Type :=
| Subset (origin1 origin2 : Origin) (point : Point)
| Contains (origin : Origin) (loan : Loan) (point : Point)
| LoanLive (loan : Loan) (point : Point)
| SubsetO1 (origin1 : Origin) (point : Point) (origin2 : Origin)
| SubsetO2 (origin2 : Origin) (point : Point) (origin1 : Origin)
| ContainsOp (origin : Origin) (point : Point) (loan : Loan)
| LiveCopy (origin : Origin) (point : Point)
| Error (loan : Loan) (point : Point)
| SubsetError (origin1 origin2 : Origin) (point : Point).

Definition asymmetric (f : NaiveFact) : Prop := match f with Subset o1 o2 _ => o1 <> o2 | _ => True end.

Section Rule.
Context (ctx : Context_ Origin Loan Point).

(** What the loop evaluates: the rules of [naive.rs], over the copies. *)
Inductive naive_step_rule : list NaiveFact -> NaiveFact -> Prop :=
| ns_base o1 o2 p : (o1, o2, p) ∈ c_subset_base ctx -> naive_step_rule [] (Subset o1 o2 p)
| ns_trans o1 o2 o3 p : naive_step_rule [SubsetO2 o2 p o1; SubsetO1 o2 p o3] (Subset o1 o3 p)
| ns_flow o1 o2 p1 p2 : (p1, p2) ∈ c_cfg_edge ctx -> (o1, p2) ∈ c_origin_live_on_entry ctx -> (o2, p2) ∈ c_origin_live_on_entry ctx -> naive_step_rule [Subset o1 o2 p1] (Subset o1 o2 p2)
| ns_issued o l p : (o, l, p) ∈ c_loan_issued_at ctx -> naive_step_rule [] (Contains o l p)
| ns_contains o1 o2 l p : naive_step_rule [ContainsOp o1 p l; SubsetO1 o1 p o2] (Contains o2 l p)
| ns_contains_flow o l p1 p2 : (l, p1) ∉ c_loan_killed_at ctx -> (p1, p2) ∈ c_cfg_edge ctx -> (o, p2) ∈ c_origin_live_on_entry ctx -> naive_step_rule [Contains o l p1] (Contains o l p2)
| ns_live o l p : naive_step_rule [ContainsOp o p l; LiveCopy o p] (LoanLive l p)
| ns_error l p : (l, p) ∈ c_loan_invalidated_at ctx -> naive_step_rule [LoanLive l p] (Error l p)
| ns_subset_error o1 o2 p : (o1, tt) ∈ c_placeholder_origin ctx -> (o2, tt) ∈ c_placeholder_origin ctx -> (o1, o2) ∉ c_known_placeholder_subset ctx -> o1 <> o2 -> naive_step_rule [Subset o1 o2 p] (SubsetError o1 o2 p)
| ns_o1 o1 o2 p : naive_step_rule [Subset o1 o2 p] (SubsetO1 o1 p o2)
| ns_o2 o1 o2 p : naive_step_rule [Subset o1 o2 p] (SubsetO2 o2 p o1)
| ns_op o l p : naive_step_rule [Contains o l p] (ContainsOp o p l)
| ns_copy o p : (o, p) ∈ c_origin_live_on_entry ctx -> naive_step_rule [] (LiveCopy o p).

Lemma naive_finite : finite_set (derives naive_step_rule asymmetric).
Proof.
  set (Os := (c_subset_base ctx).*1.*1 ++ (c_subset_base ctx).*1.*2 ++ (c_loan_issued_at ctx).*1.*1 ++ (c_origin_live_on_entry ctx).*1). set (Ls := (c_loan_issued_at ctx).*1.*2). set (Pts := (c_subset_base ctx).*2 ++ (c_loan_issued_at ctx).*2 ++ (c_cfg_edge ctx).*2 ++ (c_origin_live_on_entry ctx).*2).
  pose proof (finite_or _ _ (finite_map (fun '(a, b, c) => Subset a b c) _ (finite_triples Os Os Pts)) (finite_or _ _ (finite_map (fun '(a, b, c) => Contains a b c) _ (finite_triples Os Ls Pts)) (finite_or _ _ (finite_map (uncurry LoanLive) _ (finite_pairs Ls Pts))
    (finite_or _ _ (finite_map (fun '(a, b, c) => SubsetO1 a b c) _ (finite_triples Os Pts Os)) (finite_or _ _ (finite_map (fun '(a, b, c) => SubsetO2 a b c) _ (finite_triples Os Pts Os)) (finite_or _ _ (finite_map (fun '(a, b, c) => ContainsOp a b c) _ (finite_triples Os Pts Ls))
    (finite_or _ _ (finite_map (uncurry LiveCopy) _ (finite_pairs Os Pts)) (finite_or _ _ (finite_map (uncurry Error) _ (finite_pairs Ls Pts)) (finite_map (fun '(a, b, c) => SubsetError a b c) _ (finite_triples Os Os Pts)))))))))) as HU. apply (finite_sub _ _ HU).
  assert (HOs : forall x, x ∈ (c_subset_base ctx).*1.*1 \/ x ∈ (c_subset_base ctx).*1.*2 \/ x ∈ (c_loan_issued_at ctx).*1.*1 \/ x ∈ (c_origin_live_on_entry ctx).*1 -> x ∈ Os) by (intros x; unfold Os; by rewrite !elem_of_app).
  assert (HPts : forall x, x ∈ (c_subset_base ctx).*2 \/ x ∈ (c_loan_issued_at ctx).*2 \/ x ∈ (c_cfg_edge ctx).*2 \/ x ∈ (c_origin_live_on_entry ctx).*2 -> x ∈ Pts) by (intros x; unfold Pts; by rewrite !elem_of_app).
  assert (HLs : forall x, x ∈ (c_loan_issued_at ctx).*1.*2 -> x ∈ Ls) by done. clearbody Os Ls Pts.
  assert (HS : forall f, derives naive_step_rule asymmetric f -> match f with Subset a b c | SubsetError a b c => a ∈ Os /\ b ∈ Os /\ c ∈ Pts | Contains a b c => a ∈ Os /\ b ∈ Ls /\ c ∈ Pts | LoanLive a b | Error a b => a ∈ Ls /\ b ∈ Pts
    | SubsetO1 a c b | SubsetO2 a c b => a ∈ Os /\ c ∈ Pts /\ b ∈ Os | ContainsOp a c b => a ∈ Os /\ c ∈ Pts /\ b ∈ Ls | LiveCopy a b => a ∈ Os /\ b ∈ Pts end).
  { induction 1 as [prems g Hr _ _ Hin]. destruct Hr; try (pose proof (Hin _ (list_elem_of_here _ _)) as Hin1; cbn in Hin1); try (pose proof (Hin _ (list_elem_of_further _ _ _ (list_elem_of_here _ _))) as Hin2; cbn in Hin2); clear Hin;
      repeat match goal with Hx : (_, _) ∈ _ |- _ => apply elem_of_pair_proj in Hx as [? ?] end; intuition auto 10. }
  intros f Hf%HS. destruct f as [a b c|a b c|a b|a b c|a b c|a b c|a b|a b|a b c]; [left|right; left|do 2 right; left|do 3 right; left|do 4 right; left|do 5 right; left|do 6 right; left|do 7 right; left|do 8 right]; first [by exists (a, b, c)|by exists (a, b)].
Qed.
End Rule.

Abbreviation NVars := (NaiveVars Origin Loan Point).

Inductive NaiveRel : Type := NSubset | NContains | NLoanLive | NO1 | NO2 | NOp | NLive | NError | NSubsetError.
Definition naive_tuple (r : NaiveRel) : Type :=
  match r with
  | NSubset | NSubsetError => Origin * Origin * Point | NContains => Origin * Loan * Point | NLoanLive => (Loan * Point) * unit | NO1 | NO2 => (Origin * Point) * Origin
  | NOp => (Origin * Point) * Loan | NLive => (Origin * Point) * unit | NError => Loan * Point
  end.
#[local] Instance naive_tuple_ord r : Ord (naive_tuple r).
Proof. destruct r; apply _. Defined.
Definition naive_vars (st : NVars) (r : NaiveRel) : DVariable (naive_tuple r) :=
  match r with
  | NSubset => n_subset st | NContains => n_contains st | NLoanLive => n_loan_live_at st | NO1 => n_subset_o1p st | NO2 => n_subset_o2p st | NOp => n_contains_op st | NLive => n_origin_live st
  | NError => n_errors st | NSubsetError => n_subset_errors st
  end.
Definition naive_fact (r : NaiveRel) : naive_tuple r -> NaiveFact :=
  match r with
  | NSubset => fun '(a, b, c) => Subset a b c | NContains => fun '(a, b, c) => Contains a b c | NLoanLive => fun '(a, b, _) => LoanLive a b | NO1 => fun '(a, b, c) => SubsetO1 a b c
  | NO2 => fun '(a, b, c) => SubsetO2 a b c | NOp => fun '(a, b, c) => ContainsOp a b c | NLive => fun '(a, b, _) => LiveCopy a b | NError => fun '(a, b) => Error a b | NSubsetError => fun '(a, b, c) => SubsetError a b c
  end.
Definition naive_view (f : NaiveFact) : sigT naive_tuple :=
  match f with
  | Subset a b c => existT NSubset (a, b, c) | Contains a b c => existT NContains (a, b, c) | LoanLive a b => existT NLoanLive ((a, b), tt) | SubsetO1 a b c => existT NO1 ((a, b), c)
  | SubsetO2 a b c => existT NO2 ((a, b), c) | ContainsOp a b c => existT NOp ((a, b), c) | LiveCopy a b => existT NLive ((a, b), tt) | Error a b => existT NError (a, b) | SubsetError a b c => existT NSubsetError (a, b, c)
  end.

Lemma naive_view_fact r (x : naive_tuple r) : naive_view (naive_fact r x) = existT r x.
Proof. destruct r; try (by destruct x as [[? ?] ?]); try (by destruct x as [? ?]); by destruct x as [[? ?] []]. Qed.
Lemma naive_fact_view f : naive_fact (projT1 (naive_view f)) (projT2 (naive_view f)) = f.
Proof. by destruct f. Qed.

Lemma naive_changed_eq (st : NVars) : naive_changed st =
  (any_changed [(changed (n_subset st)).1; (changed (n_contains st)).1; (changed (n_loan_live_at st)).1; (changed (n_subset_o1p st)).1; (changed (n_subset_o2p st)).1; (changed (n_contains_op st)).1; (changed (n_origin_live st)).1; (changed (n_errors st)).1; (changed (n_subset_errors st)).1],
   mkNaiveVars (changed (n_subset st)).2 (changed (n_contains st)).2 (changed (n_loan_live_at st)).2 (changed (n_subset_o1p st)).2 (changed (n_subset_o2p st)).2 (changed (n_contains_op st)).2 (changed (n_origin_live st)).2 (changed (n_errors st)).2 (changed (n_subset_errors st)).2).
Proof. unfold naive_changed. by repeat destruct (changed _). Qed.

Abbreviation nstable := (in_stable naive_vars naive_view).
Abbreviation nrecent := (in_recent naive_vars naive_view).
Abbreviation npending := (in_pending naive_vars naive_view).
Abbreviation nknown := (in_known naive_vars naive_view).

(** The copies are not kept distinct. *)
Definition naive_kept (r : NaiveRel) : bool := match r with NO1 | NO2 | NOp => false | _ => true end.

Lemma retain_recent_ok {A} `{Ord A} (p : A -> bool) (v : DVariable A) : var_ok v -> var_ok (retain_recent p v).
Proof.
  intros (Hs & Hr & Ha). split_and!; [done| |done]. cbn [recent retain_recent]. induction Hr as [|x l Hl IH Hx]; cbn; [constructor|]. destruct (p x); [|done]. apply sorted_cons; [done|].
  intros y [Hy _]%list_elem_of_In%filter_In. rewrite Forall_forall in Hx. by apply Hx, list_elem_of_In.
Qed.

(** The state with the symmetric subsets removed. *)
Definition naive_retained (st : NVars) : NVars :=
  mkNaiveVars (retain_recent (fun '(origin1, origin2, _) => negb (eq_b origin1 origin2)) (n_subset st)) (n_contains st) (n_loan_live_at st) (n_subset_o1p st) (n_subset_o2p st) (n_contains_op st) (n_origin_live st) (n_errors st) (n_subset_errors st).

Lemma retained_recent st f : nrecent (naive_retained st) f <-> nrecent st f /\ asymmetric f.
Proof.
  destruct f; unfold in_recent; cbn [naive_view naive_vars projT1 projT2 naive_retained n_subset n_contains n_loan_live_at n_subset_o1p n_subset_o2p n_contains_op n_origin_live n_errors n_subset_errors asymmetric]; try tauto.
  cbn [recent retain_recent]. rewrite list_elem_of_In, filter_In, <- list_elem_of_In, neq_b_true. done.
Qed.

Lemma retained_stable st f : nstable (naive_retained st) f <-> nstable st f.
Proof. by destruct f. Qed.

(** The operations of the body, on the retained state. *)
Lemma naive_ops ctx (inv : Relation ((Loan * Point) * unit)) (st : NVars) : ctx_ok ctx -> enumerates inv (fun '(x, _) => x ∈ c_loan_invalidated_at ctx) ->
  prog_ok naive_vars naive_kept st -> (forall r, to_add (naive_vars st r) = []) ->
  exists st', naive_body ctx inv st = Ret st' /\ (forall r, exists P, adds (naive_vars (naive_retained st) r) P (naive_vars st' r)) /\
    forall f, npending st' f <-> delta (naive_step_rule ctx) (nknown (naive_retained st)) (nrecent (naive_retained st)) f.
Proof.
  intros ([Sl Fl] & [Si Fi] & Sk & Skc & [So Fo] & [Sp Fp] & Sks & [Sc Fc]) [Sv Iv] Hok Hta. unfold naive_body.
  set (w0 := retain_recent (fun '(origin1, origin2, _) => negb (eq_b origin1 origin2)) (n_subset st)).
  assert (W0 : var_ok w0) by apply retain_recent_ok, (Hok NSubset).
  pose proof (from_map_adds (n_subset_o1p st) w0 (fun '(origin1, origin2, point) => ((origin1, point), origin2))) as A1. set (w1 := from_map (n_subset_o1p st) w0 _) in *.
  pose proof (from_map_adds (n_subset_o2p st) w0 (fun '(origin1, origin2, point) => ((origin2, point), origin1))) as A2. set (w2 := from_map (n_subset_o2p st) w0 _) in *.
  pose proof (from_map_adds (n_contains_op st) (n_contains st) (fun '(origin, loan, point) => ((origin, point), loan))) as A3. set (w3 := from_map (n_contains_op st) _ _) in *.
  assert (W1 : var_ok w1) by apply A1, (Hok NO1). assert (W2 : var_ok w2) by apply A2, (Hok NO2). assert (W3 : var_ok w3) by apply A3, (Hok NOp).
  pose proof (from_join_var w0 w2 w1 (fun '(_, point) origin1 origin3 => (origin1, origin3, point)) W2 W1) as A4. set (w4 := from_join w0 w2 w1 _) in *.
  destruct (from_leapjoin_list w4 w4 [extend_with (c_cfg_edge ctx) (fun '(_, _, point1) => point1); extend_with (c_origin_live_on_entry ctx) (fun '(origin1, _, _) => origin1); extend_with (c_origin_live_on_entry ctx) (fun '(_, origin2, _) => origin2)]
    (fun '(origin1, origin2, _) point2 => (origin1, origin2, point2))) as (w5 & -> & A5); [done|done|]. cbn [obind].
  pose proof (from_join_var (n_contains st) w3 w1 (fun '(_, point) loan origin2 => (origin2, loan, point)) W3 W1) as A6. set (w6 := from_join (n_contains st) w3 w1 _) in *.
  destruct (from_leapjoin_list w6 w6 [filter_anti (c_loan_killed_at ctx) (fun '(_, loan, point1) => (loan, point1)); extend_with (c_cfg_edge ctx) (fun '(_, _, point1) => point1); extend_with (c_origin_live_on_entry ctx) (fun '(origin, _, _) => origin)]
    (fun '(origin, loan, _) point2 => (origin, loan, point2))) as (w7 & -> & A7); [done|done|]. cbn [obind].
  pose proof (from_join_var (n_loan_live_at st) w3 (n_origin_live st) (fun '(_, point) loan _ => ((loan, point), tt)) W3 (proj1 (Hok NLive))) as A8. set (w8 := from_join (n_loan_live_at st) w3 _ _) in *.
  assert (W8 : dvar_ok w8) by (split; [apply A8, (Hok NLoanLive)|]; destruct A8 as [-> _]; apply (Hok NLoanLive)).
  pose proof (from_join_rel (n_errors st) w8 inv (fun '(loan, point) _ _ => (loan, point)) W8 Sv) as A9. set (w9 := from_join (n_errors st) w8 inv _) in *.
  destruct (from_leapjoin_list (n_subset_errors st) w5 [extend_with (c_placeholder_origin ctx) (fun '(origin1, _, _) => origin1); extend_with (c_placeholder_origin ctx) (fun '(_, origin2, _) => origin2);
    filter_anti (c_known_placeholder_subset ctx) (fun '(origin1, origin2, _) => (origin1, origin2)); ValueFilter (fun '(origin1, origin2, _) _ => negb (eq_b origin1 origin2))] (fun '(origin1, origin2, point) _ => (origin1, origin2, point))) as (w10 & -> & A10); [done|done|]. cbn [obind].
  pose proof (adds_trans _ _ _ _ _ A4 A5) as A45. pose proof (adds_trans _ _ _ _ _ A6 A7) as A67.
  eexists. split; [reflexivity|]. split; [intros []; eauto using adds_refl|].
  assert (Hp : forall r P (w : DVariable (naive_tuple r)) x, adds (naive_vars (naive_retained st) r) P w -> pending w x <-> P x).
  { intros r P w x (_ & _ & _ & _ & ->). assert (Ha : to_add (naive_vars (naive_retained st) r) = []) by (specialize (Hta r); by destruct r). unfold pending. rewrite Ha, in_batches_nil. tauto. }
  intros [o1 o3 p|o l p|l p|o1 p o2|o2 p o1|o p l|o p|l p|o1 o2 p].
  - etransitivity; [exact (Hp NSubset _ w5 (o1, o3, p) A45)|]. split.
    + intros [([o2 p'] & a & b & Ha & Hb & Hr & [= -> -> ->])|([[a b] p1] & p2 & Hr & (Hx & Hy & Hz & _) & [= -> -> ->])].
      * fire [SubsetO2 o2 p' a; SubsetO1 o2 p' b]; [constructor|]. rewrite (adds_recent _ _ _ A1), (adds_recent _ _ _ A2) in Hr. split; [by apply (adds_known _ _ _ _ A2)|]. split; [by apply (adds_known _ _ _ _ A1)|done].
      * rewrite (adds_recent _ _ _ A4) in Hr. fire [Subset a b p1]; [by constructor|]. split; [by right|done].
    + intros Hf. fired Hf; [left|right].
      * exists (o2, p), o1, o3. rewrite (adds_recent _ _ _ A1), (adds_recent _ _ _ A2). split; [by apply (adds_known _ _ _ _ A2)|]. split; [by apply (adds_known _ _ _ _ A1)|done].
      * exists (o1, o3, p1), p. rewrite (adds_recent _ _ _ A4). done.
  - etransitivity; [exact (Hp NContains _ w7 (o, l, p) A67)|]. split.
    + intros [([o' p'] & a & b & Ha & Hb & Hr & [= -> -> ->])|([[a b] p1] & p2 & Hr & (Hx & Hy & Hz & _) & [= -> -> ->])].
      * fire [ContainsOp o' p' a; SubsetO1 o' p' b]; [constructor|]. rewrite (adds_recent _ _ _ A1), (adds_recent _ _ _ A3) in Hr. split; [by apply (adds_known _ _ _ _ A3)|]. split; [by apply (adds_known _ _ _ _ A1)|done].
      * rewrite (adds_recent _ _ _ A6) in Hr. fire [Contains a b p1]; [by constructor|]. split; [by right|done].
    + intros Hf. fired Hf; [left|right].
      * exists (o1, p), l, o. rewrite (adds_recent _ _ _ A1), (adds_recent _ _ _ A3). split; [by apply (adds_known _ _ _ _ A3)|]. split; [by apply (adds_known _ _ _ _ A1)|done].
      * exists (o, l, p1), p. rewrite (adds_recent _ _ _ A6). done.
  - etransitivity; [exact (Hp NLoanLive _ w8 ((l, p), tt) A8)|]. split.
    + intros ([o p'] & a & [] & Ha & Hb & Hr & [= -> ->]). fire [ContainsOp o p' a; LiveCopy o p']; [constructor|]. rewrite (adds_recent _ _ _ A3) in Hr. split; [by apply (adds_known _ _ _ _ A3)|done].
    + intros Hf. fired Hf. exists (o, p), l, tt. rewrite (adds_recent _ _ _ A3). split; [by apply (adds_known _ _ _ _ A3)|done].
  - etransitivity; [exact (Hp NO1 _ w1 ((o1, p), o2) A1)|]. split; [intros ([[a b] q] & Hr & [= -> -> ->]); fire [Subset a b q]; [constructor|split; [by right|done]]|]. intros Hf. fired Hf. by exists (o1, o2, p).
  - etransitivity; [exact (Hp NO2 _ w2 ((o2, p), o1) A2)|]. split; [intros ([[a b] q] & Hr & [= -> -> ->]); fire [Subset a b q]; [constructor|split; [by right|done]]|]. intros Hf. fired Hf. by exists (o1, o2, p).
  - etransitivity; [exact (Hp NOp _ w3 ((o, p), l) A3)|]. split; [intros ([[a b] q] & Hr & [= -> -> ->]); fire [Contains a b q]; [constructor|split; [by right|done]]|]. intros Hf. fired Hf. by exists (o, l, p).
  - etransitivity; [exact (Hp NLive _ (n_origin_live st) ((o, p), tt) (adds_refl _))|]. split; [done|]. intros Hf. fired Hf.
  - etransitivity; [exact (Hp NError _ w9 (l, p) A9)|]. rewrite (adds_recent _ _ _ A8). split.
    + intros ([l' p'] & [] & [] & Hr & Hx & [= -> ->]). apply Iv in Hx. fire [LoanLive l' p']; [by constructor|split; [by right|done]].
    + intros Hf. fired Hf. exists (l, p), tt, tt. split; [done|]. split; [by apply Iv|done].
  - etransitivity; [exact (Hp NSubsetError _ w10 (o1, o2, p) A10)|]. rewrite (adds_recent _ _ _ A5), (adds_recent _ _ _ A4). split.
    + intros ([[a b] q] & [] & Hr & (Hx & Hy & Hz & Hw & _) & [= -> -> ->]). fire [Subset a b q]; [|split; [by right|done]]. constructor; [exact Hx|exact Hy|exact Hz|]. by apply neq_b_true.
    + intros Hf. fired Hf. exists (o1, o2, p), tt. split; [done|]. split; [|done]. refine (conj _ (conj _ (conj _ (conj _ Logic.I)))); [assumption|assumption|assumption|by apply neq_b_true].
Qed.

Lemma naive_program ctx (inv : Relation ((Loan * Point) * unit)) : ctx_ok ctx -> enumerates inv (fun '(x, _) => x ∈ c_loan_invalidated_at ctx) ->
  Program naive_vars naive_view naive_changed (naive_body ctx inv) (naive_step_rule ctx) asymmetric naive_kept.
Proof.
  intros Hctx Hinv. split.
  - intros st []; by rewrite naive_changed_eq.
  - intros st. rewrite naive_changed_eq. cbn [fst]. flags. split; [intros [E|[E|[E|[E|[E|[E|[E|[E|[E|[]]]]]]]]]]; [exists NSubset|exists NContains|exists NLoanLive|exists NO1|exists NO2|exists NOp|exists NLive|exists NError|exists NSubsetError]; symmetry; exact E|intros [[] E]; in_flags E].
  - intros prems f p Hr Hp. destruct Hr; try (by right); left; by apply list_elem_of_singleton in Hp as ->.
  - intros st Hok Hta. destruct (naive_ops ctx inv st Hctx Hinv Hok Hta) as (st' & Hb & Hadds & Hp).
    assert (Hok1 : prog_ok naive_vars naive_kept (naive_retained st)) by (intros r; destruct (Hok r) as [Ho Hd]; destruct r; try done; split; [by apply retain_recent_ok|done]).
    destruct (adds_program naive_vars naive_view _ naive_kept (naive_retained st) st' Hok1 Hadds Hp) as (Hok' & Hs' & Hr' & Hp'). exists st'. split_and!; try done; intros f; [by rewrite Hs', retained_stable|by rewrite Hr', retained_recent].
Qed.

Definition step_model (ctx : Context_ Origin Loan Point) : NaiveFact -> Prop := derives (naive_step_rule ctx) asymmetric.

Lemma no_symmetric (r : list (Origin * Origin * Point)) : (forall o1 o2 p, (o1, o2, p) ∈ r -> o1 <> o2) -> List.filter (fun '(origin1, origin2, _) => eq_b origin1 origin2) r = [].
Proof.
  intros Hr. destruct (List.filter _ r) as [|[[o1 o2] p] l] eqn:Ef; [done|]. exfalso. assert (Hin : In (o1, o2, p) (List.filter (fun '(origin1, origin2, _) => eq_b origin1 origin2) r)) by (rewrite Ef; by left).
  apply filter_In in Hin as [Hin%list_elem_of_In ->%eq_b_true]. by apply (Hr o2 o2 p).
Qed.

Lemma naive_settles ctx (result : Output Origin Loan Point Var Path) : ctx_ok ctx ->
  settles (fun fuel => naive_compute fuel ctx result) (fun '(errs, subset_errs, out) =>
    enumerates errs (fun '(l, p) => step_model ctx (Error l p)) /\ enumerates subset_errs (fun '(o1, o2, p) => step_model ctx (SubsetError o1 o2 p)) /\ same_results result out).
Proof.
  intros Hok. unfold naive_compute. set (inv := from_vec _).
  assert (Hinv : enumerates inv (fun '(x, _) => x ∈ c_loan_invalidated_at ctx)).
  { split; [apply from_vec_sorted|]. intros [[l p] []]. unfold inv. rewrite from_vec_in, list_elem_of_fmap. split; [by intros ([? ?] & [= -> ->] & Hx)|]. intros Hx. by exists (l, p). }
  eapply settles_bind; [apply (program_settles naive_vars naive_fact naive_view naive_view_fact naive_fact_view _ _ _ _ _ _ (naive_program ctx inv Hok Hinv) (naive_finite ctx))|].
  - assert (Hno : forall r, match r with NSubset | NContains | NLive => False | _ => True end -> forall x, ~ naive_step_rule ctx [] (naive_fact r x)).
    { intros r Hr x Hrule. destruct r; try done; try (destruct x as [[? ?] ?]; by inversion Hrule); try (destruct x as [? ?]; by inversion Hrule). }
    intros r. destruct r; try (by apply starts_empty; apply Hno); (eapply starts_adds; [apply extend_adds|]).
    + intros [[o1 o2] p]. split; [by constructor|intros Hr; by inversion Hr].
    + intros [[o l] p]. split; [by constructor|intros Hr; by inversion Hr].
    + intros [[o p] []]. rewrite list_elem_of_fmap. split; [intros ([? ?] & [= -> ->] & Hx); by constructor|]. intros Hr. inversion Hr. by exists (o, p).
  - intros st Hst. cbv beta. destruct (Hst NSubset) as (r1 & E1 & M1), (Hst NContains) as (r2 & E2 & _), (Hst NLoanLive) as (r3 & E3 & _), (Hst NError) as (r4 & E4 & M4), (Hst NSubsetError) as (r5 & E5 & M5).
    returns (complete (n_subset st)) E1. returns (complete (n_contains st)) E2. returns (complete (n_loan_live_at st)) E3. returns (complete (n_errors st)) E4. returns (complete (n_subset_errors st)) E5. cbn [obind].
    assert (He : enumerates r4 (fun '(l, p) => step_model ctx (Error l p)) /\ enumerates r5 (fun '(o1, o2, p) => step_model ctx (SubsetError o1 o2 p))) by (split; [apply (enumerates_iff _ _ _ M4); by intros [a b]|apply (enumerates_iff _ _ _ M5); by intros [[a b] c]]).
    destruct (dump_enabled result) eqn:Ed; [|apply settles_ret; split; [apply He|]; split; [apply He|done]].
    assert (Hf : List.filter (fun '(origin1, origin2, _) => eq_b origin1 origin2) (r1 : list (Origin * Origin * Point)) = []).
    { apply no_symmetric. intros o1 o2 p Hin. apply M1 in Hin. inversion Hin as [? ? _ Hk _]. exact Hk. }
    rewrite Hf. cbn [length Nat.eqb assert_that obind]. apply settles_ret. split; [apply He|]. split; [apply He|done].
Qed.
End Naive.
