(* ===== verification/PoloniusOpt.v ===== *)
(** * The Polonius borrow checker: the optimized variant, and [Output::compute]

    [src/polonius_engine/output/datafrog_opt.rs] and the driver of [output/mod.rs].  A tuple of three or four is nested
    to the left. *)
From Stdlib Require Import ZArith Lia.
From stdpp Require Import base numbers list.
From S2P Require Import Prelude RustSlice Datafrog Polonius PoloniusVariants.
#[local] Open Scope nat_scope.
Open Scope rust_scope.

Section Opt.
Context {Origin Loan Point Var Path : Type} `{Ord Origin, Ord Loan, Ord Point, Ord Var, Ord Path}.
Abbreviation Ctx := (Context_ Origin Loan Point).
Abbreviation Out := (Output Origin Loan Point Var Path).

(** ** [datafrog_opt.rs] *)

Record OptVars := mkOptVars {
  p_loan_invalidated_at : DVariable ((Loan * Point) * unit);
  p_origin_live : DVariable ((Origin * Point) * unit);
  p_loan_issued_at_op : DVariable ((Origin * Point) * Loan);
  p_subset_o1p : DVariable ((Origin * Point) * Origin);
  p_contains_op : DVariable ((Origin * Point) * Loan);
  p_loan_live_at : DVariable ((Loan * Point) * unit);
  p_live_to_dying_o2pq : DVariable ((Origin * Point * Point) * Origin);
  p_dying_requires : DVariable ((Origin * Point * Point) * Loan);
  p_dying_origins : DVariable ((Origin * Point) * Point);
  p_dying_reach_o2q : DVariable ((Origin * Point) * (Origin * Point));
  p_dying_reach_1 : DVariable ((Origin * Point) * (Origin * Point));
  p_dying_reach_live : DVariable ((Origin * Point * Point) * Origin);
  p_dead_root : DVariable ((Origin * Point) * Loan);
  p_dead_dead : DVariable ((Origin * Point) * Loan);
  p_dead_dead_1 : DVariable ((Origin * Point) * Loan);
  p_errors : DVariable (Loan * Point);
  p_subset_errors : DVariable (Origin * Origin * Point);
  p_subset_placeholder : DVariable (Origin * Origin * Point);
  p_subset_placeholder_o2p : DVariable ((Origin * Point) * Origin);
}.

Definition opt_changed (st : OptVars) : bool * OptVars :=
  let '(c1, v1) := changed (p_loan_invalidated_at st) in
  let '(c2, v2) := changed (p_origin_live st) in
  let '(c3, v3) := changed (p_loan_issued_at_op st) in
  let '(c4, v4) := changed (p_subset_o1p st) in
  let '(c5, v5) := changed (p_contains_op st) in
  let '(c6, v6) := changed (p_loan_live_at st) in
  let '(c7, v7) := changed (p_live_to_dying_o2pq st) in
  let '(c8, v8) := changed (p_dying_requires st) in
  let '(c9, v9) := changed (p_dying_origins st) in
  let '(c10, v10) := changed (p_dying_reach_o2q st) in
  let '(c11, v11) := changed (p_dying_reach_1 st) in
  let '(c12, v12) := changed (p_dying_reach_live st) in
  let '(c13, v13) := changed (p_dead_root st) in
  let '(c14, v14) := changed (p_dead_dead st) in
  let '(c15, v15) := changed (p_dead_dead_1 st) in
  let '(c16, v16) := changed (p_errors st) in
  let '(c17, v17) := changed (p_subset_errors st) in
  let '(c18, v18) := changed (p_subset_placeholder st) in
  let '(c19, v19) := changed (p_subset_placeholder_o2p st) in
  (any_changed [c1; c2; c3; c4; c5; c6; c7; c8; c9; c10; c11; c12; c13; c14; c15; c16; c17; c18; c19],
   mkOptVars v1 v2 v3 v4 v5 v6 v7 v8 v9 v10 v11 v12 v13 v14 v15 v16 v17 v18 v19).

(** The cleanup at the start of a round: no origin is a [subset] of itself. *)
Definition opt_retain (st : OptVars) : OptVars :=
  mkOptVars (p_loan_invalidated_at st) (p_origin_live st) (p_loan_issued_at_op st) (retain_recent (fun '((origin1, _), origin2) => negb (eq_b origin1 origin2)) (p_subset_o1p st)) (p_contains_op st) (p_loan_live_at st)
    (p_live_to_dying_o2pq st) (p_dying_requires st) (p_dying_origins st) (p_dying_reach_o2q st) (p_dying_reach_1 st) (p_dying_reach_live st) (p_dead_root st) (p_dead_dead st) (p_dead_dead_1 st) (p_errors st) (p_subset_errors st)
    (retain_recent (fun '(origin1, origin2, _) => negb (eq_b origin1 origin2)) (p_subset_placeholder st)) (p_subset_placeholder_o2p st).

Definition opt_rules (ctx : Ctx) (st : OptVars) : outcome OptVars :=
  let live := c_origin_live_on_entry ctx in
  let cfg_edge := c_cfg_edge ctx in
  let subset := p_subset_o1p st in
  let subset_placeholder := p_subset_placeholder st in
  let subset_placeholder_o2p := from_map (p_subset_placeholder_o2p st) subset_placeholder (fun '(origin1, origin2, point) => ((origin2, point), origin1)) in
  (* live_to_dying_regions *)
  let* live_to_dying := from_leapjoin (p_live_to_dying_o2pq st) subset
    [extend_with cfg_edge (fun '((_, point1), _) => point1); extend_with live (fun '((origin1, _), _) => origin1); extend_anti live (fun '((_, _), origin2) => origin2)]
    (fun '((origin1, point1), origin2) point2 => ((origin2, point1, point2), origin1)) in
  (* dying_region_requires *)
  let* dying_requires := from_leapjoin (p_dying_requires st) (p_contains_op st)
    [filter_anti (c_loan_killed_at ctx) (fun '((_, point1), loan) => (loan, point1)); extend_with cfg_edge (fun '((_, point1), _) => point1); extend_anti live (fun '((origin, _), _) => origin)]
    (fun '((origin, point1), loan) point2 => ((origin, point1, point2), loan)) in
  (* dying_can_reach_origins *)
  let dying_origins := from_map (p_dying_origins st) live_to_dying (fun '((origin2, point1, point2), _) => ((origin2, point1), point2)) in
  let dying_origins := from_map dying_origins dying_requires (fun '((origin, point1, point2), _) => ((origin, point1), point2)) in
  (* dying_can_reach *)
  let dying_reach := from_join (p_dying_reach_o2q st) dying_origins subset (fun '(origin1, point1) point2 origin2 => ((origin2, point2), (origin1, point1))) in
  let dying_reach_1 := from_antijoin (p_dying_reach_1 st) dying_reach live (fun '(origin2, point2) '(origin1, point1) => ((origin2, point1), (origin1, point2))) in
  let dying_reach := from_join dying_reach dying_reach_1 subset (fun '(_, point1) '(origin1, point2) origin3 => ((origin3, point2), (origin1, point1))) in
  (* dying_can_reach_live *)
  let dying_reach_live := from_join (p_dying_reach_live st) dying_reach (p_origin_live st) (fun '(origin2, point2) '(origin1, point1) _ => ((origin1, point1, point2), origin2)) in
  (* subset *)
  let* subset := from_leapjoin subset subset
    [extend_with cfg_edge (fun '((_, point1), _) => point1); extend_with live (fun '((origin1, _), _) => origin1); extend_with live (fun '((_, _), origin2) => origin2)]
    (fun '((origin1, _), origin2) point2 => ((origin1, point2), origin2)) in
  let subset := from_join subset live_to_dying dying_reach_live (fun '(_, _, point2) origin1 origin3 => ((origin1, point2), origin3)) in
  (* origin_contains_loan_on_entry *)
  let contains := from_join (p_contains_op st) dying_requires dying_reach_live (fun '(_, _, point2) loan origin2 => ((origin2, point2), loan)) in
  let* contains := from_leapjoin contains contains
    [filter_anti (c_loan_killed_at ctx) (fun '((_, point1), loan) => (loan, point1)); extend_with cfg_edge (fun '((_, point1), _) => point1); extend_with live (fun '((origin, _), _) => origin)]
    (fun '((origin, _), loan) point2 => ((origin, point2), loan)) in
  (* dead_borrow_region_can_reach_root and _dead *)
  let dead_root := from_antijoin (p_dead_root st) (p_loan_issued_at_op st) live (fun '(origin, point) loan => ((origin, point), loan)) in
  let dead_dead := from_map (p_dead_dead st) dead_root (fun tuple => tuple) in
  let dead_dead_1 := from_join (p_dead_dead_1 st) dead_dead subset (fun '(_, point) loan origin2 => ((origin2, point), loan)) in
  let dead_dead := from_antijoin dead_dead dead_dead_1 live (fun '(origin2, point) loan => ((origin2, point), loan)) in
  (* loan_live_at *)
  let loan_live_at := from_join (p_loan_live_at st) contains (p_origin_live st) (fun '(_, point) loan _ => ((loan, point), tt)) in
  let loan_live_at := from_join loan_live_at dead_dead_1 (p_origin_live st) (fun '(_, point) loan _ => ((loan, point), tt)) in
  (* errors *)
  let errors := from_join (p_errors st) (p_loan_invalidated_at st) loan_live_at (fun '(loan, point) _ _ => (loan, point)) in
  (* subset_placeholder and subset_error *)
  let* subset_placeholder := from_leapjoin subset_placeholder subset
    [extend_with (c_placeholder_origin ctx) (fun '((origin1, _), _) => origin1); ValueFilter (fun '((origin1, _), origin2) _ => negb (eq_b origin1 origin2))]
    (fun '((origin1, point), origin2) _ => (origin1, origin2, point)) in
  let subset_placeholder := from_join subset_placeholder subset_placeholder_o2p subset (fun '(_, point) origin1 origin3 => (origin1, origin3, point)) in
  let* subset_errors := from_leapjoin (p_subset_errors st) subset_placeholder
    [extend_with (c_placeholder_origin ctx) (fun '(_, origin2, _) => origin2);
     filter_anti (c_known_placeholder_subset ctx) (fun '(origin1, origin2, _) => (origin1, origin2));
     ValueFilter (fun '(origin1, origin2, _) _ => negb (eq_b origin1 origin2))]
    (fun '(origin1, origin2, point) _ => (origin1, origin2, point)) in
  Ret (mkOptVars (p_loan_invalidated_at st) (p_origin_live st) (p_loan_issued_at_op st) subset contains loan_live_at live_to_dying dying_requires dying_origins dying_reach dying_reach_1
    dying_reach_live dead_root dead_dead dead_dead_1 errors subset_errors subset_placeholder subset_placeholder_o2p).

Definition opt_body (ctx : Ctx) (st : OptVars) : outcome OptVars := opt_rules ctx (opt_retain st).

(** [datafrog_opt::compute]. *)
Definition opt_compute (fuel : nat) (ctx : Ctx) (result : Out) : outcome (Relation (Loan * Point) * Relation (Origin * Origin * Point) * Out) :=
  let issued := (fun '(origin, loan, point) => ((origin, point), loan)) <$> c_loan_issued_at ctx in
  let st := mkOptVars
    (extend variable ((fun '(loan, point) => ((loan, point), tt)) <$> c_loan_invalidated_at ctx))
    (extend variable ((fun '(origin, point) => ((origin, point), tt)) <$> c_origin_live_on_entry ctx))
    (extend variable issued)
    (extend variable ((fun '(origin1, origin2, point) => ((origin1, point), origin2)) <$> c_subset_base ctx))
    (extend variable issued)
    variable variable variable variable variable variable_indistinct variable variable variable variable_indistinct variable variable variable variable_indistinct in
  let* st := iterate fuel opt_changed (opt_body ctx) st in
  let* result :=
    if dump_enabled result then
      let* subset := complete (p_subset_o1p st) in
      let* _ := assert_that (length (List.filter (fun '((origin1, _), origin2) => eq_b origin1 origin2) subset) =? 0) in
      let* contains := complete (p_contains_op st) in
      let* loan_live_at := complete (p_loan_live_at st) in
      Ret (dump_points ((fun '((origin1, location), origin2) => (origin1, origin2, location)) <$> subset) ((fun '((origin, location), loan) => (origin, loan, location)) <$> contains) loan_live_at result)
    else Ret result in
  let* errors := complete (p_errors st) in
  let* subset_errors := complete (p_subset_errors st) in
  Ret (errors, subset_errors, result).

(** ** [Output::compute] *)

Inductive Algorithm : Type := Naive | DatafrogOpt | LocationInsensitive | Compare | Hybrid.

(** [errors1.iter().any(|err| !errors2.contains(err))] for every point of either map, both ways. *)
Definition compare_errors (all_naive_errors all_opt_errors : FxHashMap Point (list Loan)) : bool :=
  existsb (fun point =>
    let naive_errors := sort (default [] (map_get all_naive_errors point)) in
    let opt_errors := sort (default [] (map_get all_opt_errors point)) in
    existsb (fun err => negb (existsb (eq_b err) opt_errors)) naive_errors || existsb (fun err => negb (existsb (eq_b err) naive_errors)) opt_errors)
    (all_naive_errors.*1 ++ all_opt_errors.*1).

(** The context that every variant starts from. *)
Definition make_context (fuel : nat) (all_facts : AllFacts Origin Loan Point Var Path) (result : Out) : outcome (Ctx * Out) :=
  let cfg := from_vec (cfg_edge all_facts) in
  let init_ctx := mkInitCtx (child_path all_facts) (path_is_var all_facts) (path_assigned_at_base all_facts) (path_moved_at_base all_facts) (path_accessed_at_base all_facts) in
  let* ' (partly, move_errs, result) := initialization_compute fuel init_ctx cfg result in
  let result := mkOutput (errors result) (subset_errors result) (push_each move_errs (move_errors result)) (dump_enabled result) (o_loan_live_at result) (o_origin_contains_loan_at result) (o_origin_contains_loan_anywhere result) (o_origin_live_on_entry result)
    (o_loan_invalidated_at result) (o_subset result) (o_subset_anywhere result) (o_var_live_on_entry result) (o_var_drop_live_on_entry result) (o_path_maybe_initialized_on_exit result) (o_path_maybe_uninitialized_on_exit result)
    (o_known_contains result) (o_var_maybe_partly_initialized_on_exit result) in
  let live_ctx := mkLiveCtx (var_used_at all_facts) (var_defined_at all_facts) (var_dropped_at all_facts) (use_of_var_derefs_origin all_facts) (drop_of_var_derefs_origin all_facts) in
  let* ' (origin_live, result) := compute_live_origins fuel live_ctx cfg partly result in
  let cfg_node := from_vec (cfg.*1 ++ cfg.*2) in
  let origin_live := from_vec (make_universal_regions_live origin_live cfg_node (universal_region all_facts)) in
  let invalidated := from_vec ((fun '(point, loan) => (loan, point)) <$> loan_invalidated_at all_facts) in
  let known_subset := from_vec (known_placeholder_subset all_facts) in
  let* contains := compute_known_contains fuel known_subset (placeholder all_facts) in
  let* known_subset := compute_known_placeholder_subset fuel known_subset in
  let placeholder_origin := from_vec ((fun origin => (origin, tt)) <$> universal_region all_facts) in
  let placeholder_loan := from_vec ((fun '(origin, loan) => (loan, origin)) <$> placeholder all_facts) in
  Ret (mkContext origin_live invalidated (subset_base all_facts) (loan_issued_at all_facts) (from_vec (loan_killed_at all_facts)) contains placeholder_origin placeholder_loan known_subset cfg, result).

(** [by_point.entry(point).or_insert_with(Vec::new).push(loan)]. *)
Definition by_point (errs : list (Loan * Point)) : FxHashMap Point (list Loan) := push_each errs [].

(** [from_usize] is [0.into()], a point that means nothing. *)
Definition run_algorithm (fuel : nat) (from_usize : Z -> Point) (algorithm : Algorithm) (ctx : Ctx) (result : Out) : outcome (Relation (Loan * Point) * Relation (Origin * Origin * Point) * Out) :=
  match algorithm with
  | LocationInsensitive =>
      let* ' (errs, subset_errs, result) := insensitive_compute fuel ctx result in
      Ret (errs, from_vec ((fun '(origin1, origin2) => (origin1, origin2, from_usize 0%Z)) <$> subset_errs), result)
  | Naive => naive_compute fuel ctx result
  | DatafrogOpt => opt_compute fuel ctx result
  | Hybrid =>
      let* ' (errs, subset_errs, result) := insensitive_compute fuel ctx result in
      match errs, subset_errs with
      | [], [] => Ret (errs, [], result)
      | _, _ => opt_compute fuel ctx result
      end
  | Compare =>
      let* ' (naive_errs, naive_subset_errs, result) := naive_compute fuel ctx result in
      let* ' (opt_errs, _, result) := opt_compute fuel ctx result in
      if compare_errors (by_point naive_errs) (by_point opt_errs) then Panic else Ret (naive_errs, naive_subset_errs, result)
  end.

Definition record_errors (ctx : Ctx) (errs : list (Loan * Point)) (subset_errs : list (Origin * Origin * Point)) (o : Out) : Out :=
  let dump := dump_enabled o in
  mkOutput (push_each errs (errors o)) (insert_each subset_errs (subset_errors o)) (move_errors o) (dump_enabled o) (o_loan_live_at o) (o_origin_contains_loan_at o) (o_origin_contains_loan_anywhere o)
    (if dump then push_each (c_origin_live_on_entry ctx) (o_origin_live_on_entry o) else o_origin_live_on_entry o) (o_loan_invalidated_at o) (o_subset o) (o_subset_anywhere o)
    (o_var_live_on_entry o) (o_var_drop_live_on_entry o) (o_path_maybe_initialized_on_exit o) (o_path_maybe_uninitialized_on_exit o)
    (if dump then insert_each ((fun '(origin, loan) => (loan, origin)) <$> c_known_contains ctx) (o_known_contains o) else o_known_contains o) (o_var_maybe_partly_initialized_on_exit o).

Definition compute (fuel : nat) (from_usize : Z -> Point) (all_facts : AllFacts Origin Loan Point Var Path) (algorithm : Algorithm) (dump_enabled : bool) : outcome Out :=
  let* ' (ctx, result) := make_context fuel all_facts (Output_new dump_enabled) in
  let* ' (errs, subset_errs, result) := run_algorithm fuel from_usize algorithm ctx result in
  Ret (record_errors ctx errs subset_errs result).

(** ** Reading an output *)

Definition errors_at (o : Out) (location : Point) : list Loan := default [] (map_get (errors o) location).
Definition loans_in_scope_at (o : Out) (location : Point) : list Loan := default [] (map_get (o_loan_live_at o) location).
Definition origin_contains_loan_at (o : Out) (location : Point) : outcome (FxHashMap Origin (list Loan)) :=
  let* _ := assert_that (dump_enabled o) in Ret (default [] (map_get (o_origin_contains_loan_at o) location)).
Definition origins_live_at (o : Out) (location : Point) : outcome (list Origin) :=
  let* _ := assert_that (dump_enabled o) in Ret (default [] (map_get (o_origin_live_on_entry o) location)).
Definition subsets_at (o : Out) (location : Point) : outcome (FxHashMap Origin (list Origin)) :=
  let* _ := assert_that (dump_enabled o) in Ret (default [] (map_get (o_subset o) location)).
End Opt.
Arguments OptVars : clear implicits.
