(* ===== verification/PoloniusOptLoop.v ===== *)
(** * The optimized variant computes its least model

    The rules of [datafrog_opt.rs] on ground facts, and its loop as a program over nineteen variables, three of which
    are not kept distinct. *)
From Stdlib Require Import ZArith Lia.
From stdpp Require Import base numbers list.
From S2P Require Import Prelude RustSlice Datafrog DatafrogFacts DatafrogLeap DatafrogVar SemiNaive DatafrogProgram Polonius PoloniusLoops PoloniusFlow PoloniusVariants PoloniusNaive PoloniusOpt.
#[local] Open Scope nat_scope.
Open Scope rust_scope.

(** ** What the operations add

    An input has had tuples added to it in the same round; what is known and recent there is what the variable
    [w] had at the start of the round. *)
Section Operations.
Context {Tuple : Type} `{Ord Tuple}.
Implicit Types out : DVariable Tuple.

Definition map_new {T} (w : DVariable T) (logic : T -> Tuple) (x : Tuple) : Prop := exists y, y ∈ recent w /\ x = logic y.
Definition join_new {K V1 V2} (w : DVariable (K * V1)) (u : DVariable (K * V2)) (logic : K -> V1 -> V2 -> Tuple) (x : Tuple) : Prop :=
  exists k v1 v2, known w (k, v1) /\ known u (k, v2) /\ ((k, v1) ∈ recent w \/ (k, v2) ∈ recent u) /\ x = logic k v1 v2.
Definition anti_new {K V} (w : DVariable (K * V)) (r : Relation K) (logic : K -> V -> Tuple) (x : Tuple) : Prop := exists k v, (k, v) ∈ recent w /\ (k ∉ r) /\ x = logic k v.
Definition leap_new {T V} `{Ord V} (w : DVariable T) (ls : list (Leaper T V)) (logic : T -> V -> Tuple) (x : Tuple) : Prop := exists t y, t ∈ recent w /\ all_accept ls t y /\ x = logic t y.

Lemma map_adds {T} `{Ord T} out (w w' : DVariable T) P logic : adds w P w' -> adds out (map_new w logic) (from_map out w' logic).
Proof. intros (_ & _ & Hr & _). unfold map_new. rewrite <- Hr. apply from_map_adds. Qed.

Lemma join_adds {K V1 V2} `{Ord K, Ord V1, Ord V2} out (w w' : DVariable (K * V1)) (u u' : DVariable (K * V2)) P Q logic :
  adds w P w' -> adds u Q u' -> var_ok w -> var_ok u -> adds out (join_new w u logic) (from_join out w' u' logic).
Proof.
  intros Hw Hu Ow Ou. eapply adds_iff; [|apply from_join_var; [by apply Hw|by apply Hu]]. intros x. rewrite (adds_recent _ _ _ Hw), (adds_recent _ _ _ Hu).
  split; intros (k & v1 & v2 & Hk1 & Hk2 & Hr & ->); exists k, v1, v2; (split; [by apply (adds_known _ _ _ _ Hw)|]); (split; [by apply (adds_known _ _ _ _ Hu)|done]).
Qed.

Lemma anti_adds {K V} `{Ord K, Ord V} out (w w' : DVariable (K * V)) (r : Relation K) P logic : adds w P w' -> var_ok w -> sorted r -> adds out (anti_new w r logic) (from_antijoin out w' r logic).
Proof. intros Hw (_ & Hs & _) Hr. unfold anti_new. rewrite <- (adds_recent _ _ _ Hw) in *. by apply from_antijoin_adds. Qed.

Lemma leap_adds {T V} `{Ord T, Ord V} out (w w' : DVariable T) (ls : list (Leaper T V)) P logic : adds w P w' -> all_ok ls -> existsb is_extend_with ls = true ->
  exists out', from_leapjoin out w' ls logic = Ret out' /\ adds out (leap_new w ls logic) out'.
Proof. intros Hw Hok He. unfold leap_new. rewrite <- (adds_recent _ _ _ Hw). by apply from_leapjoin_list. Qed.
End Operations.

Section OptLoop.
Context {Origin Loan Point Var Path : Type} `{Ord Origin, Ord Loan, Ord Point, Ord Var, Ord Path}.

(** The relations of the program, each tuple in the order of its variable. *)
Inductive OptFact : Type :=
| Invalidated (loan : Loan) (point : Point)
| OLive (origin : Origin) (point : Point)
| OIssued (origin : Origin) (point : Point) (loan : Loan)
| OSubset (origin1 : Origin) (point : Point) (origin2 : Origin)
| OContains (origin : Origin) (point : Point) (loan : Loan)
| OLoanLive (loan : Loan) (point : Point)
| LiveToDying (origin2 : Origin) (point1 point2 : Point) (origin1 : Origin)
| DyingRequires (origin : Origin) (point1 point2 : Point) (loan : Loan)
| DyingOrigin (origin : Origin) (point1 point2 : Point)
| DyingReach (origin2 : Origin) (point2 : Point) (origin1 : Origin) (point1 : Point)
| DyingReach1 (origin2 : Origin) (point1 : Point) (origin1 : Origin) (point2 : Point)
| DyingReachLive (origin1 : Origin) (point1 point2 : Point) (origin2 : Origin)
| DeadRoot (origin : Origin) (point : Point) (loan : Loan)
| DeadDead (origin : Origin) (point : Point) (loan : Loan)
| DeadDead1 (origin : Origin) (point : Point) (loan : Loan)
| OError (loan : Loan) (point : Point)
| OSubsetError (origin1 origin2 : Origin) (point : Point)
| SubsetPh (origin1 origin2 : Origin) (point : Point)
| SubsetPhO2 (origin2 : Origin) (point : Point) (origin1 : Origin).

Definition opt_asymmetric (f : OptFact) : Prop := match f with OSubset o1 _ o2 | SubsetPh o1 o2 _ => o1 <> o2 | _ => True end.

Section Rule.
Context (ctx : Context_ Origin Loan Point).
Abbreviation live := (c_origin_live_on_entry ctx).
Abbreviation cfg := (c_cfg_edge ctx).

(** The rules of [datafrog_opt.rs]. *)
Inductive opt_rule : list OptFact -> OptFact -> Prop :=
| op_invalidated l p : (l, p) ∈ c_loan_invalidated_at ctx -> opt_rule [] (Invalidated l p)
| op_live o p : (o, p) ∈ live -> opt_rule [] (OLive o p)
| op_issued o l p : (o, l, p) ∈ c_loan_issued_at ctx -> opt_rule [] (OIssued o p l)
| op_base o1 o2 p : (o1, o2, p) ∈ c_subset_base ctx -> opt_rule [] (OSubset o1 p o2)
| op_contains_issued o l p : (o, l, p) ∈ c_loan_issued_at ctx -> opt_rule [] (OContains o p l)
| op_live_to_dying o1 o2 p1 p2 : (p1, p2) ∈ cfg -> (o1, p2) ∈ live -> (o2, p2) ∉ live -> opt_rule [OSubset o1 p1 o2] (LiveToDying o2 p1 p2 o1)
| op_dying_requires o l p1 p2 : (l, p1) ∉ c_loan_killed_at ctx -> (p1, p2) ∈ cfg -> (o, p2) ∉ live -> opt_rule [OContains o p1 l] (DyingRequires o p1 p2 l)
| op_dying_origin_subset o1 o2 p1 p2 : opt_rule [LiveToDying o2 p1 p2 o1] (DyingOrigin o2 p1 p2)
| op_dying_origin_loan o l p1 p2 : opt_rule [DyingRequires o p1 p2 l] (DyingOrigin o p1 p2)
| op_reach o1 o2 p1 p2 : opt_rule [DyingOrigin o1 p1 p2; OSubset o1 p1 o2] (DyingReach o2 p2 o1 p1)
| op_reach_1 o1 o2 p1 p2 : (o2, p2) ∉ live -> opt_rule [DyingReach o2 p2 o1 p1] (DyingReach1 o2 p1 o1 p2)
| op_reach_step o1 o2 o3 p1 p2 : opt_rule [DyingReach1 o2 p1 o1 p2; OSubset o2 p1 o3] (DyingReach o3 p2 o1 p1)
| op_reach_live o1 o2 p1 p2 : opt_rule [DyingReach o2 p2 o1 p1; OLive o2 p2] (DyingReachLive o1 p1 p2 o2)
| op_flow o1 o2 p1 p2 : (p1, p2) ∈ cfg -> (o1, p2) ∈ live -> (o2, p2) ∈ live -> opt_rule [OSubset o1 p1 o2] (OSubset o1 p2 o2)
| op_bridge o1 o2 o3 p1 p2 : opt_rule [LiveToDying o2 p1 p2 o1; DyingReachLive o2 p1 p2 o3] (OSubset o1 p2 o3)
| op_contains_bridge o1 o2 l p1 p2 : opt_rule [DyingRequires o1 p1 p2 l; DyingReachLive o1 p1 p2 o2] (OContains o2 p2 l)
| op_contains_flow o l p1 p2 : (l, p1) ∉ c_loan_killed_at ctx -> (p1, p2) ∈ cfg -> (o, p2) ∈ live -> opt_rule [OContains o p1 l] (OContains o p2 l)
| op_dead_root o l p : (o, p) ∉ live -> opt_rule [OIssued o p l] (DeadRoot o p l)
| op_dead o l p : opt_rule [DeadRoot o p l] (DeadDead o p l)
| op_dead_1 o1 o2 l p : opt_rule [DeadDead o1 p l; OSubset o1 p o2] (DeadDead1 o2 p l)
| op_dead_step o l p : (o, p) ∉ live -> opt_rule [DeadDead1 o p l] (DeadDead o p l)
| op_loan_live o l p : opt_rule [OContains o p l; OLive o p] (OLoanLive l p)
| op_loan_live_dead o l p : opt_rule [DeadDead1 o p l; OLive o p] (OLoanLive l p)
| op_error l p : opt_rule [Invalidated l p; OLoanLive l p] (OError l p)
| op_placeholder o1 o2 p : (o1, tt) ∈ c_placeholder_origin ctx -> o1 <> o2 -> opt_rule [OSubset o1 p o2] (SubsetPh o1 o2 p)
| op_placeholder_o2 o1 o2 p : opt_rule [SubsetPh o1 o2 p] (SubsetPhO2 o2 p o1)
| op_placeholder_step o1 o2 o3 p : opt_rule [SubsetPhO2 o2 p o1; OSubset o2 p o3] (SubsetPh o1 o3 p)
| op_subset_error o1 o2 p : (o2, tt) ∈ c_placeholder_origin ctx -> (o1, o2) ∉ c_known_placeholder_subset ctx -> o1 <> o2 -> opt_rule [SubsetPh o1 o2 p] (OSubsetError o1 o2 p).

Definition opt_model : OptFact -> Prop := derives opt_rule opt_asymmetric.
End Rule.

Abbreviation OVars := (OptVars Origin Loan Point).

(** ** The variables *)

Inductive OptRel : Type :=
| VInvalidated | VLive | VIssued | VSubset | VContains | VLoanLive | VLiveToDying | VRequires | VDying | VReach | VReach1 | VReachLive | VDeadRoot | VDead | VDead1 | VError | VSubsetError | VPlaceholder | VPlaceholderO2.

Definition opt_tuple (r : OptRel) : Type :=
  match r with
  | VInvalidated | VLoanLive => (Loan * Point) * unit
  | VLive => (Origin * Point) * unit
  | VIssued | VContains | VDeadRoot | VDead | VDead1 => (Origin * Point) * Loan
  | VSubset | VPlaceholderO2 => (Origin * Point) * Origin
  | VLiveToDying | VReachLive => (Origin * Point * Point) * Origin
  | VRequires => (Origin * Point * Point) * Loan
  | VDying => (Origin * Point) * Point
  | VReach | VReach1 => (Origin * Point) * (Origin * Point)
  | VError => Loan * Point
  | VSubsetError | VPlaceholder => Origin * Origin * Point
  end.
#[local] Instance opt_tuple_ord r : Ord (opt_tuple r).
Proof. destruct r; apply _. Defined.

Definition opt_vars (st : OVars) (r : OptRel) : DVariable (opt_tuple r) :=
  match r with
  | VInvalidated => p_loan_invalidated_at st | VLive => p_origin_live st | VIssued => p_loan_issued_at_op st | VSubset => p_subset_o1p st | VContains => p_contains_op st | VLoanLive => p_loan_live_at st
  | VLiveToDying => p_live_to_dying_o2pq st | VRequires => p_dying_requires st | VDying => p_dying_origins st | VReach => p_dying_reach_o2q st | VReach1 => p_dying_reach_1 st | VReachLive => p_dying_reach_live st
  | VDeadRoot => p_dead_root st | VDead => p_dead_dead st | VDead1 => p_dead_dead_1 st | VError => p_errors st | VSubsetError => p_subset_errors st | VPlaceholder => p_subset_placeholder st | VPlaceholderO2 => p_subset_placeholder_o2p st
  end.

Definition opt_fact (r : OptRel) : opt_tuple r -> OptFact :=
  match r with
  | VInvalidated => fun '(a, b, _) => Invalidated a b | VLive => fun '(a, b, _) => OLive a b | VIssued => fun '(a, b, c) => OIssued a b c | VSubset => fun '(a, b, c) => OSubset a b c
  | VContains => fun '(a, b, c) => OContains a b c | VLoanLive => fun '(a, b, _) => OLoanLive a b | VLiveToDying => fun '(a, b, c, d) => LiveToDying a b c d | VRequires => fun '(a, b, c, d) => DyingRequires a b c d
  | VDying => fun '(a, b, c) => DyingOrigin a b c | VReach => fun '(a, b, (c, d)) => DyingReach a b c d | VReach1 => fun '(a, b, (c, d)) => DyingReach1 a b c d | VReachLive => fun '(a, b, c, d) => DyingReachLive a b c d
  | VDeadRoot => fun '(a, b, c) => DeadRoot a b c | VDead => fun '(a, b, c) => DeadDead a b c | VDead1 => fun '(a, b, c) => DeadDead1 a b c | VError => fun '(a, b) => OError a b
  | VSubsetError => fun '(a, b, c) => OSubsetError a b c | VPlaceholder => fun '(a, b, c) => SubsetPh a b c | VPlaceholderO2 => fun '(a, b, c) => SubsetPhO2 a b c
  end.

Definition opt_view (f : OptFact) : sigT opt_tuple :=
  match f with
  | Invalidated a b => existT VInvalidated (a, b, tt) | OLive a b => existT VLive (a, b, tt) | OIssued a b c => existT VIssued (a, b, c) | OSubset a b c => existT VSubset (a, b, c)
  | OContains a b c => existT VContains (a, b, c) | OLoanLive a b => existT VLoanLive (a, b, tt) | LiveToDying a b c d => existT VLiveToDying (a, b, c, d) | DyingRequires a b c d => existT VRequires (a, b, c, d)
  | DyingOrigin a b c => existT VDying (a, b, c) | DyingReach a b c d => existT VReach (a, b, (c, d)) | DyingReach1 a b c d => existT VReach1 (a, b, (c, d)) | DyingReachLive a b c d => existT VReachLive (a, b, c, d)
  | DeadRoot a b c => existT VDeadRoot (a, b, c) | DeadDead a b c => existT VDead (a, b, c) | DeadDead1 a b c => existT VDead1 (a, b, c) | OError a b => existT VError (a, b)
  | OSubsetError a b c => existT VSubsetError (a, b, c) | SubsetPh a b c => existT VPlaceholder (a, b, c) | SubsetPhO2 a b c => existT VPlaceholderO2 (a, b, c)
  end.

Lemma opt_view_fact r (x : opt_tuple r) : opt_view (opt_fact r x) = existT r x.
Proof. destruct r; first [by destruct x as [[? ?] []]|by destruct x as [[[? ?] ?] ?]|by destruct x as [[? ?] [? ?]]|by destruct x as [[? ?] ?]|by destruct x as [? ?]]. Qed.
Lemma opt_fact_view f : opt_fact (projT1 (opt_view f)) (projT2 (opt_view f)) = f.
Proof. by destruct f. Qed.

(** The tuples over the atoms of the input facts; the facts of the least model are among them. *)
Definition opt_tuples (Os : list Origin) (Ls : list Loan) (Ps : list Point) (r : OptRel) : list (opt_tuple r) :=
  match r with
  | VInvalidated | VLoanLive => list_prod (list_prod Ls Ps) [tt]
  | VLive => list_prod (list_prod Os Ps) [tt]
  | VIssued | VContains | VDeadRoot | VDead | VDead1 => list_prod (list_prod Os Ps) Ls
  | VSubset | VPlaceholderO2 => list_prod (list_prod Os Ps) Os
  | VLiveToDying | VReachLive => list_prod (list_prod (list_prod Os Ps) Ps) Os
  | VRequires => list_prod (list_prod (list_prod Os Ps) Ps) Ls
  | VDying => list_prod (list_prod Os Ps) Ps
  | VReach | VReach1 => list_prod (list_prod Os Ps) (list_prod Os Ps)
  | VError => list_prod Ls Ps
  | VSubsetError | VPlaceholder => list_prod (list_prod Os Os) Ps
  end.

Lemma elem_of_list_prod {A B} (la : list A) (lb : list B) a b : (a, b) ∈ list_prod la lb <-> a ∈ la /\ b ∈ lb.
Proof. rewrite !list_elem_of_In. apply in_prod_iff. Qed.

Lemma opt_finite ctx : finite_set (opt_model ctx).
Proof.
  set (Os := (c_subset_base ctx).*1.*1 ++ (c_subset_base ctx).*1.*2 ++ (c_loan_issued_at ctx).*1.*1 ++ (c_origin_live_on_entry ctx).*1). set (Ls := (c_loan_issued_at ctx).*1.*2 ++ (c_loan_invalidated_at ctx).*1).
  set (Ps := (c_subset_base ctx).*2 ++ (c_loan_issued_at ctx).*2 ++ (c_cfg_edge ctx).*1 ++ (c_cfg_edge ctx).*2 ++ (c_origin_live_on_entry ctx).*2 ++ (c_loan_invalidated_at ctx).*2).
  apply (finite_view opt_fact opt_view opt_fact_view [VInvalidated; VLive; VIssued; VSubset; VContains; VLoanLive; VLiveToDying; VRequires; VDying; VReach; VReach1; VReachLive; VDeadRoot; VDead; VDead1; VError; VSubsetError; VPlaceholder; VPlaceholderO2] (opt_tuples Os Ls Ps)).
  { intros []; repeat (apply elem_of_cons; first [by left|right]). }
  assert (HOs : forall x, x ∈ (c_subset_base ctx).*1.*1 \/ x ∈ (c_subset_base ctx).*1.*2 \/ x ∈ (c_loan_issued_at ctx).*1.*1 \/ x ∈ (c_origin_live_on_entry ctx).*1 -> x ∈ Os) by (intros x; unfold Os; by rewrite !elem_of_app).
  assert (HPs : forall x, x ∈ (c_subset_base ctx).*2 \/ x ∈ (c_loan_issued_at ctx).*2 \/ x ∈ (c_cfg_edge ctx).*1 \/ x ∈ (c_cfg_edge ctx).*2 \/ x ∈ (c_origin_live_on_entry ctx).*2 \/ x ∈ (c_loan_invalidated_at ctx).*2 -> x ∈ Ps) by (intros x; unfold Ps; by rewrite !elem_of_app).
  assert (HLs : forall x, x ∈ (c_loan_issued_at ctx).*1.*2 \/ x ∈ (c_loan_invalidated_at ctx).*1 -> x ∈ Ls) by (intros x; unfold Ls; by rewrite !elem_of_app). clearbody Os Ls Ps.
  intros f Hf. induction Hf as [prems f Hr _ _ IH]. pose proof (proj2 (Forall_forall _ _) IH) as Hp. clear IH. destruct Hr; repeat (apply Forall_cons in Hp as [? Hp]); cbn [opt_view opt_tuples opt_tuple projT1 projT2] in *; rewrite ?elem_of_list_prod in *;
    repeat match goal with Hx : (_, _) ∈ _ |- _ => apply elem_of_pair_proj in Hx as [? ?] end; rewrite ?list_elem_of_singleton in *; intuition auto 10.
Qed.

Definition opt_kept (r : OptRel) : bool := match r with VReach1 | VDead1 | VPlaceholderO2 => false | _ => true end.

Lemma opt_changed_eq (st : OVars) : opt_changed st =
  (any_changed [(changed (p_loan_invalidated_at st)).1; (changed (p_origin_live st)).1; (changed (p_loan_issued_at_op st)).1; (changed (p_subset_o1p st)).1; (changed (p_contains_op st)).1; (changed (p_loan_live_at st)).1; (changed (p_live_to_dying_o2pq st)).1; (changed (p_dying_requires st)).1; (changed (p_dying_origins st)).1; (changed (p_dying_reach_o2q st)).1; (changed (p_dying_reach_1 st)).1; (changed (p_dying_reach_live st)).1; (changed (p_dead_root st)).1; (changed (p_dead_dead st)).1; (changed (p_dead_dead_1 st)).1; (changed (p_errors st)).1; (changed (p_subset_errors st)).1; (changed (p_subset_placeholder st)).1; (changed (p_subset_placeholder_o2p st)).1],
   mkOptVars (changed (p_loan_invalidated_at st)).2 (changed (p_origin_live st)).2 (changed (p_loan_issued_at_op st)).2 (changed (p_subset_o1p st)).2 (changed (p_contains_op st)).2 (changed (p_loan_live_at st)).2 (changed (p_live_to_dying_o2pq st)).2 (changed (p_dying_requires st)).2 (changed (p_dying_origins st)).2 (changed (p_dying_reach_o2q st)).2 (changed (p_dying_reach_1 st)).2 (changed (p_dying_reach_live st)).2 (changed (p_dead_root st)).2 (changed (p_dead_dead st)).2 (changed (p_dead_dead_1 st)).2 (changed (p_errors st)).2 (changed (p_subset_errors st)).2 (changed (p_subset_placeholder st)).2 (changed (p_subset_placeholder_o2p st)).2).
Proof.
  unfold opt_changed. destruct (changed (p_loan_invalidated_at st)), (changed (p_origin_live st)), (changed (p_loan_issued_at_op st)), (changed (p_subset_o1p st)), (changed (p_contains_op st)), (changed (p_loan_live_at st)), (changed (p_live_to_dying_o2pq st)), (changed (p_dying_requires st)), (changed (p_dying_origins st)), (changed (p_dying_reach_o2q st)), (changed (p_dying_reach_1 st)), (changed (p_dying_reach_live st)), (changed (p_dead_root st)), (changed (p_dead_dead st)), (changed (p_dead_dead_1 st)), (changed (p_errors st)), (changed (p_subset_errors st)), (changed (p_subset_placeholder st)), (changed (p_subset_placeholder_o2p st)).
  reflexivity.
Qed.

(** ** The body *)

Section Body.
Context (ctx : Context_ Origin Loan Point).
Abbreviation live := (c_origin_live_on_entry ctx).
Abbreviation cfg := (c_cfg_edge ctx).

(** What a round adds to each variable. *)
Definition opt_new (st : OVars) (r : OptRel) : opt_tuple r -> Prop :=
  match r with
  | VInvalidated | VLive | VIssued => fun _ => False
  | VSubset => fun x =>
      leap_new (p_subset_o1p st) [extend_with cfg (fun '((_, point1), _) => point1); extend_with live (fun '((origin1, _), _) => origin1); extend_with live (fun '((_, _), origin2) => origin2)] (fun '((origin1, _), origin2) point2 => ((origin1, point2), origin2)) x \/
      join_new (p_live_to_dying_o2pq st) (p_dying_reach_live st) (fun '(_, _, point2) origin1 origin3 => ((origin1, point2), origin3)) x
  | VContains => fun x =>
      join_new (p_dying_requires st) (p_dying_reach_live st) (fun '(_, _, point2) loan origin2 => ((origin2, point2), loan)) x \/
      leap_new (p_contains_op st) [filter_anti (c_loan_killed_at ctx) (fun '((_, point1), loan) => (loan, point1)); extend_with cfg (fun '((_, point1), _) => point1); extend_with live (fun '((origin, _), _) => origin)] (fun '((origin, _), loan) point2 => ((origin, point2), loan)) x
  | VLoanLive => fun x =>
      join_new (p_contains_op st) (p_origin_live st) (fun '(_, point) loan _ => ((loan, point), tt)) x \/ join_new (p_dead_dead_1 st) (p_origin_live st) (fun '(_, point) loan _ => ((loan, point), tt)) x
  | VLiveToDying => leap_new (p_subset_o1p st) [extend_with cfg (fun '((_, point1), _) => point1); extend_with live (fun '((origin1, _), _) => origin1); extend_anti live (fun '((_, _), origin2) => origin2)] (fun '((origin1, point1), origin2) point2 => ((origin2, point1, point2), origin1))
  | VRequires => leap_new (p_contains_op st) [filter_anti (c_loan_killed_at ctx) (fun '((_, point1), loan) => (loan, point1)); extend_with cfg (fun '((_, point1), _) => point1); extend_anti live (fun '((origin, _), _) => origin)] (fun '((origin, point1), loan) point2 => ((origin, point1, point2), loan))
  | VDying => fun x => map_new (p_live_to_dying_o2pq st) (fun '((origin2, point1, point2), _) => ((origin2, point1), point2)) x \/ map_new (p_dying_requires st) (fun '((origin, point1, point2), _) => ((origin, point1), point2)) x
  | VReach => fun x =>
      join_new (p_dying_origins st) (p_subset_o1p st) (fun '(origin1, point1) point2 origin2 => ((origin2, point2), (origin1, point1))) x \/
      join_new (p_dying_reach_1 st) (p_subset_o1p st) (fun '(_, point1) '(origin1, point2) origin3 => ((origin3, point2), (origin1, point1))) x
  | VReach1 => anti_new (p_dying_reach_o2q st) live (fun '(origin2, point2) '(origin1, point1) => ((origin2, point1), (origin1, point2)))
  | VReachLive => join_new (p_dying_reach_o2q st) (p_origin_live st) (fun '(origin2, point2) '(origin1, point1) _ => ((origin1, point1, point2), origin2))
  | VDeadRoot => anti_new (p_loan_issued_at_op st) live (fun '(origin, point) loan => ((origin, point), loan))
  | VDead => fun x => map_new (p_dead_root st) (fun tuple => tuple) x \/ anti_new (p_dead_dead_1 st) live (fun '(origin2, point) loan => ((origin2, point), loan)) x
  | VDead1 => join_new (p_dead_dead st) (p_subset_o1p st) (fun '(_, point) loan origin2 => ((origin2, point), loan))
  | VError => join_new (p_loan_invalidated_at st) (p_loan_live_at st) (fun '(loan, point) _ _ => (loan, point))
  | VSubsetError => leap_new (p_subset_placeholder st) [extend_with (c_placeholder_origin ctx) (fun '(_, origin2, _) => origin2); filter_anti (c_known_placeholder_subset ctx) (fun '(origin1, origin2, _) => (origin1, origin2));
      ValueFilter (fun '(origin1, origin2, _) _ => negb (eq_b origin1 origin2))] (fun '(origin1, origin2, point) _ => (origin1, origin2, point))
  | VPlaceholder => fun x =>
      leap_new (p_subset_o1p st) [extend_with (c_placeholder_origin ctx) (fun '((origin1, _), _) => origin1); ValueFilter (fun '((origin1, _), origin2) _ => negb (eq_b origin1 origin2))] (fun '((origin1, point), origin2) _ => (origin1, origin2, point)) x \/
      join_new (p_subset_placeholder_o2p st) (p_subset_o1p st) (fun '(_, point) origin1 origin3 => (origin1, origin3, point)) x
  | VPlaceholderO2 => map_new (p_subset_placeholder st) (fun '(origin1, origin2, point) => ((origin2, point), origin1))
  end.

Lemma opt_ops (st : OVars) : ctx_ok ctx -> prog_ok opt_vars opt_kept st -> exists st', opt_rules ctx st = Ret st' /\ forall r, adds (opt_vars st r) (opt_new st r) (opt_vars st' r).
Proof.
  intros ([Sl Fl] & [Si Fi] & Sk & Skc & [So Fo] & [Sp Fp] & Sks & [Sc Fc]) Hok. unfold opt_rules.
  assert (O : forall r, var_ok (opt_vars st r)) by apply Hok.
  pose proof (adds_refl (p_subset_o1p st)) as A0. pose proof (adds_refl (p_contains_op st)) as B0. pose proof (adds_refl (p_origin_live st)) as L0. pose proof (adds_refl (p_loan_invalidated_at st)) as I0. pose proof (adds_refl (p_loan_issued_at_op st)) as J0. pose proof (adds_refl (p_subset_placeholder st)) as P0.
  pose proof (map_adds (p_subset_placeholder_o2p st) _ (p_subset_placeholder st) _ (fun '(origin1, origin2, point) => ((origin2, point), origin1)) P0) as A1. set (w1 := from_map (p_subset_placeholder_o2p st) (p_subset_placeholder st) _) in *.
  destruct (leap_adds (p_live_to_dying_o2pq st) _ (p_subset_o1p st) [extend_with cfg (fun '((_, point1), _) => point1); extend_with live (fun '((origin1, _), _) => origin1); extend_anti live (fun '((_, _), origin2) => origin2)] _ (fun '((origin1, point1), origin2) point2 => ((origin2, point1, point2), origin1)) A0) as (w2 & -> & A2); [done|done|]. cbn [obind].
  destruct (leap_adds (p_dying_requires st) _ (p_contains_op st) [filter_anti (c_loan_killed_at ctx) (fun '((_, point1), loan) => (loan, point1)); extend_with cfg (fun '((_, point1), _) => point1); extend_anti live (fun '((origin, _), _) => origin)] _ (fun '((origin, point1), loan) point2 => ((origin, point1, point2), loan)) B0) as (w3 & -> & A3); [done|done|]. cbn [obind].
  pose proof (map_adds (p_dying_origins st) _ w2 _ (fun '((origin2, point1, point2), _) => ((origin2, point1), point2)) A2) as A4. set (w4 := from_map (p_dying_origins st) w2 _) in *.
  pose proof (map_adds w4 _ w3 _ (fun '((origin, point1, point2), _) => ((origin, point1), point2)) A3) as A5. set (w5 := from_map w4 w3 _) in *.
  pose proof (adds_trans _ _ _ _ _ A4 A5) as T5.
  pose proof (join_adds (p_dying_reach_o2q st) _ w5 _ (p_subset_o1p st) _ _ (fun '(origin1, point1) point2 origin2 => ((origin2, point2), (origin1, point1))) T5 A0 (O VDying) (O VSubset)) as A6. set (w6 := from_join (p_dying_reach_o2q st) w5 (p_subset_o1p st) _) in *.
  pose proof (anti_adds (p_dying_reach_1 st) _ w6 (c_origin_live_on_entry ctx) _ (fun '(origin2, point2) '(origin1, point1) => ((origin2, point1), (origin1, point2))) A6 (O VReach) Sl) as A7. set (w7 := from_antijoin (p_dying_reach_1 st) w6 _ _) in *.
  pose proof (join_adds w6 _ w7 _ (p_subset_o1p st) _ _ (fun '(_, point1) '(origin1, point2) origin3 => ((origin3, point2), (origin1, point1))) A7 A0 (O VReach1) (O VSubset)) as A8. set (w8 := from_join w6 w7 (p_subset_o1p st) _) in *.
  pose proof (adds_trans _ _ _ _ _ A6 A8) as T8.
  pose proof (join_adds (p_dying_reach_live st) _ w8 _ (p_origin_live st) _ _ (fun '(origin2, point2) '(origin1, point1) _ => ((origin1, point1, point2), origin2)) T8 L0 (O VReach) (O VLive)) as A9. set (w9 := from_join (p_dying_reach_live st) w8 (p_origin_live st) _) in *.
  destruct (leap_adds (p_subset_o1p st) _ (p_subset_o1p st) [extend_with cfg (fun '((_, point1), _) => point1); extend_with live (fun '((origin1, _), _) => origin1); extend_with live (fun '((_, _), origin2) => origin2)] _ (fun '((origin1, _), origin2) point2 => ((origin1, point2), origin2)) A0) as (w10 & -> & A10); [done|done|]. cbn [obind].
  pose proof (join_adds w10 _ w2 _ w9 _ _ (fun '(_, _, point2) origin1 origin3 => ((origin1, point2), origin3)) A2 A9 (O VLiveToDying) (O VReachLive)) as A11. set (w11 := from_join w10 w2 w9 _) in *.
  pose proof (adds_trans _ _ _ _ _ A10 A11) as T11.
  pose proof (join_adds (p_contains_op st) _ w3 _ w9 _ _ (fun '(_, _, point2) loan origin2 => ((origin2, point2), loan)) A3 A9 (O VRequires) (O VReachLive)) as A12. set (w12 := from_join (p_contains_op st) w3 w9 _) in *.
  destruct (leap_adds w12 _ w12 [filter_anti (c_loan_killed_at ctx) (fun '((_, point1), loan) => (loan, point1)); extend_with cfg (fun '((_, point1), _) => point1); extend_with live (fun '((origin, _), _) => origin)] _ (fun '((origin, _), loan) point2 => ((origin, point2), loan)) A12) as (w13 & -> & A13); [done|done|]. cbn [obind].
  pose proof (adds_trans _ _ _ _ _ A12 A13) as T13.
  pose proof (anti_adds (p_dead_root st) _ (p_loan_issued_at_op st) (c_origin_live_on_entry ctx) _ (fun '(origin, point) loan => ((origin, point), loan)) J0 (O VIssued) Sl) as A14. set (w14 := from_antijoin (p_dead_root st) (p_loan_issued_at_op st) _ _) in *.
  pose proof (map_adds (p_dead_dead st) _ w14 _ (fun tuple => tuple) A14) as A15. set (w15 := from_map (p_dead_dead st) w14 _) in *.
  pose proof (join_adds (p_dead_dead_1 st) _ w15 _ w11 _ _ (fun '(_, point) loan origin2 => ((origin2, point), loan)) A15 T11 (O VDead) (O VSubset)) as A16. set (w16 := from_join (p_dead_dead_1 st) w15 w11 _) in *.
  pose proof (anti_adds w15 _ w16 (c_origin_live_on_entry ctx) _ (fun '(origin2, point) loan => ((origin2, point), loan)) A16 (O VDead1) Sl) as A17. set (w17 := from_antijoin w15 w16 _ _) in *.
  pose proof (adds_trans _ _ _ _ _ A15 A17) as T17.
  pose proof (join_adds (p_loan_live_at st) _ w13 _ (p_origin_live st) _ _ (fun '(_, point) loan _ => ((loan, point), tt)) T13 L0 (O VContains) (O VLive)) as A18. set (w18 := from_join (p_loan_live_at st) w13 (p_origin_live st) _) in *.
  pose proof (join_adds w18 _ w16 _ (p_origin_live st) _ _ (fun '(_, point) loan _ => ((loan, point), tt)) A16 L0 (O VDead1) (O VLive)) as A19. set (w19 := from_join w18 w16 (p_origin_live st) _) in *.
  pose proof (adds_trans _ _ _ _ _ A18 A19) as T19.
  pose proof (join_adds (p_errors st) _ (p_loan_invalidated_at st) _ w19 _ _ (fun '(loan, point) _ _ => (loan, point)) I0 T19 (O VInvalidated) (O VLoanLive)) as A20. set (w20 := from_join (p_errors st) (p_loan_invalidated_at st) w19 _) in *.
  destruct (leap_adds (p_subset_placeholder st) _ w11 [extend_with (c_placeholder_origin ctx) (fun '((origin1, _), _) => origin1); ValueFilter (fun '((origin1, _), origin2) _ => negb (eq_b origin1 origin2))] _ (fun '((origin1, point), origin2) _ => (origin1, origin2, point)) T11) as (w21 & -> & A21); [done|done|]. cbn [obind].
  pose proof (join_adds w21 _ w1 _ w11 _ _ (fun '(_, point) origin1 origin3 => (origin1, origin3, point)) A1 T11 (O VPlaceholderO2) (O VSubset)) as A22. set (w22 := from_join w21 w1 w11 _) in *.
  pose proof (adds_trans _ _ _ _ _ A21 A22) as T22.
  destruct (leap_adds (p_subset_errors st) _ w22 [extend_with (c_placeholder_origin ctx) (fun '(_, origin2, _) => origin2); filter_anti (c_known_placeholder_subset ctx) (fun '(origin1, origin2, _) => (origin1, origin2)); ValueFilter (fun '(origin1, origin2, _) _ => negb (eq_b origin1 origin2))] _ (fun '(origin1, origin2, point) _ => (origin1, origin2, point)) T22) as (w23 & -> & A23); [done|done|]. cbn [obind].
  eexists. split; [reflexivity|]. intros []; first [exact I0|exact L0|exact J0|exact T11|exact T13|exact T19|exact A2|exact A3|exact T5|exact T8|exact A7|exact A9|exact A14|exact T17|exact A16|exact A20|exact A23|exact T22|exact A1].
Qed.

Abbreviation opt_delta st := (delta (opt_rule ctx) (in_known opt_vars opt_view st) (in_recent opt_vars opt_view st)).

(** A join and a rule with two premises; a map, an antijoin or a leapjoin and a rule with one. *)
Ltac fire_2 prems := fire prems; [constructor|split; [done|split; [done|done]]].
Ltac fire_1 prems := fire prems; [by constructor|split; [by right|done]].

Lemma new_subset st x : opt_new st VSubset x <-> opt_delta st (opt_fact VSubset x).
Proof.
  destruct x as [[o1 q] o3]. cbn [opt_new opt_fact]. split.
  - intros [([[a p] b] & q' & Hr & (Hx & Hy & Hz & _) & [= -> -> ->])|([[o2 p] q'] & a & b & Ha & Hb & Hr & [= -> -> ->])]; [fire_1 [OSubset a p b]|fire_2 [LiveToDying o2 p q' a; DyingReachLive o2 p q' b]].
  - intros Hf. fired Hf; [left; by exists (o1, p1, o3), q|right; by exists (o2, p1, q), o1, o3].
Qed.

Lemma new_contains st x : opt_new st VContains x <-> opt_delta st (opt_fact VContains x).
Proof.
  destruct x as [[o q] l]. cbn [opt_new opt_fact]. split.
  - intros [([[o1 p] q'] & a & b & Ha & Hb & Hr & [= -> -> ->])|([[a p] b] & q' & Hr & (Hx & Hy & Hz & _) & [= -> -> ->])]; [fire_2 [DyingRequires o1 p q' a; DyingReachLive o1 p q' b]|fire_1 [OContains a p b]].
  - intros Hf. fired Hf; [left; by exists (o1, p1, q), l, o|right; by exists (o, p1, l), q].
Qed.

Lemma new_loan_live st x : opt_new st VLoanLive x <-> opt_delta st (opt_fact VLoanLive x).
Proof.
  destruct x as [[l p] []]. cbn [opt_new opt_fact]. split.
  - intros [([o q] & a & [] & Ha & Hb & Hr & [= -> ->])|([o q] & a & [] & Ha & Hb & Hr & [= -> ->])]; [fire_2 [OContains o q a; OLive o q]|fire_2 [DeadDead1 o q a; OLive o q]].
  - intros Hf. fired Hf; [left|right]; by exists (o, p), l, tt.
Qed.

Lemma new_dying st :
  (forall x, opt_new st VLiveToDying x <-> opt_delta st (opt_fact VLiveToDying x)) /\ (forall x, opt_new st VRequires x <-> opt_delta st (opt_fact VRequires x)) /\ (forall x, opt_new st VDying x <-> opt_delta st (opt_fact VDying x)).
Proof.
  split_and!; [intros [[[o2 p] q] o1]|intros [[[o p] q] l]|intros [[o p] q]]; cbn [opt_new opt_fact]; split.
  - intros ([[a p'] b] & q' & Hr & (Hx & Hy & Hz & _) & [= -> -> -> ->]). fire_1 [OSubset a p' b].
  - intros Hf. fired Hf. by exists (o1, p, o2), q.
  - intros ([[a p'] b] & q' & Hr & (Hx & Hy & Hz & _) & [= -> -> -> ->]). fire_1 [OContains a p' b].
  - intros Hf. fired Hf. by exists (o, p, l), q.
  - intros [([[[a p'] q'] b] & Hr & [= -> -> ->])|([[[a p'] q'] b] & Hr & [= -> -> ->])]; [fire_1 [LiveToDying a p' q' b]|fire_1 [DyingRequires a p' q' b]].
  - intros Hf. fired Hf; [left; by exists (o, p, q, o1)|right; by exists (o, p, q, l)].
Qed.

Lemma new_reach st :
  (forall x, opt_new st VReach x <-> opt_delta st (opt_fact VReach x)) /\ (forall x, opt_new st VReach1 x <-> opt_delta st (opt_fact VReach1 x)) /\ (forall x, opt_new st VReachLive x <-> opt_delta st (opt_fact VReachLive x)).
Proof.
  split_and!; [intros [[o3 q] [o1 p]]|intros [[o2 p] [o1 q]]|intros [[[o1 p] q] o2]]; cbn [opt_new opt_fact]; split.
  - intros [([a p'] & q' & b & Ha & Hb & Hr & [= -> -> -> ->])|([a p'] & [c q'] & b & Ha & Hb & Hr & [= -> -> -> ->])]; [fire_2 [DyingOrigin a p' q'; OSubset a p' b]|fire_2 [DyingReach1 a p' c q'; OSubset a p' b]].
  - intros Hf. fired Hf; [left; by exists (o1, p), q, o3|right; by exists (o2, p), (o1, q), o3].
  - intros ([a q'] & [b p'] & Hr & Hn & [= -> -> -> ->]). fire_1 [DyingReach a q' b p'].
  - intros Hf. fired Hf. by exists (o2, q), (o1, p).
  - intros ([a q'] & [b p'] & [] & Ha & Hb & Hr & [= -> -> -> ->]). fire_2 [DyingReach a q' b p'; OLive a q'].
  - intros Hf. fired Hf. by exists (o2, q), (o1, p), tt.
Qed.

Lemma new_dead st :
  (forall x, opt_new st VDeadRoot x <-> opt_delta st (opt_fact VDeadRoot x)) /\ (forall x, opt_new st VDead x <-> opt_delta st (opt_fact VDead x)) /\ (forall x, opt_new st VDead1 x <-> opt_delta st (opt_fact VDead1 x)).
Proof.
  split_and!; intros [[o p] l]; cbn [opt_new opt_fact]; split.
  - intros ([a p'] & b & Hr & Hn & [= -> -> ->]). fire_1 [OIssued a p' b].
  - intros Hf. fired Hf. by exists (o, p), l.
  - intros [([[a p'] b] & Hr & [= -> -> ->])|([a p'] & b & Hr & Hn & [= -> -> ->])]; [fire_1 [DeadRoot a p' b]|fire_1 [DeadDead1 a p' b]].
  - intros Hf. fired Hf; [left; by exists (o, p, l)|right; by exists (o, p), l].
  - intros ([a p'] & b & c & Ha & Hb & Hr & [= -> -> ->]). fire_2 [DeadDead a p' b; OSubset a p' c].
  - intros Hf. fired Hf. by exists (o1, p), l, o.
Qed.

Lemma new_error st : (forall x, opt_new st VError x <-> opt_delta st (opt_fact VError x)) /\ (forall x, opt_new st VSubsetError x <-> opt_delta st (opt_fact VSubsetError x)).
Proof.
  split; [intros [l p]|intros [[o1 o2] p]]; cbn [opt_new opt_fact]; split.
  - intros ([a p'] & [] & [] & Ha & Hb & Hr & [= -> ->]). fire_2 [Invalidated a p'; OLoanLive a p'].
  - intros Hf. fired Hf. by exists (l, p), tt, tt.
  - intros ([[a b] q] & [] & Hr & (Hx & Hy & Hz%neq_b_true & _) & [= -> -> ->]). fire_1 [SubsetPh a b q].
  - intros Hf. fired Hf. exists (o1, o2, p), tt. split; [done|]. split; [|done]. refine (conj _ (conj _ (conj _ Logic.I))); [done|done|by apply neq_b_true].
Qed.

Lemma new_placeholder st : (forall x, opt_new st VPlaceholder x <-> opt_delta st (opt_fact VPlaceholder x)) /\ (forall x, opt_new st VPlaceholderO2 x <-> opt_delta st (opt_fact VPlaceholderO2 x)).
Proof.
  split; [intros [[o1 o2] p]|intros [[o2 p] o1]]; cbn [opt_new opt_fact]; split.
  - intros [([[a q] b] & [] & Hr & (Hx & Hz%neq_b_true & _) & [= -> -> ->])|([a q] & b & c & Ha & Hb & Hr & [= -> -> ->])]; [fire_1 [OSubset a q b]|fire_2 [SubsetPhO2 a q b; OSubset a q c]].
  - intros Hf. fired Hf; [left; exists (o1, p, o2), tt; split; [done|]; split; [|done]; refine (conj _ (conj _ Logic.I)); [done|by apply neq_b_true]|right; match goal with Hk : in_known _ _ _ (SubsetPhO2 ?o _ _) |- _ => by exists (o, p), o1, o2 end].
  - intros ([[a b] q] & Hr & [= -> -> ->]). fire_1 [SubsetPh a b q].
  - intros Hf. fired Hf. by exists (o1, o2, p).
Qed.

Lemma opt_new_delta st r x : opt_new st r x <-> opt_delta st (opt_fact r x).
Proof.
  destruct r; try (split; [done|]; intros Hf; destruct x as [[? ?] ?]; by fired Hf);
    first [apply new_subset|apply new_contains|apply new_loan_live|apply new_dying|apply new_reach|apply new_dead|apply new_error|apply new_placeholder].
Qed.
End Body.

(** ** The loop *)

Lemma opt_retain_recent st f : in_recent opt_vars opt_view (opt_retain st) f <-> in_recent opt_vars opt_view st f /\ opt_asymmetric f.
Proof.
  destruct f; unfold in_recent; cbn [opt_view projT1 projT2 opt_vars opt_retain opt_asymmetric p_subset_o1p p_subset_placeholder]; try (cbn; tauto); cbn [recent retain_recent]; by rewrite list_elem_of_In, filter_In, <- list_elem_of_In, neq_b_true.
Qed.

Lemma opt_program ctx : ctx_ok ctx -> Program opt_vars opt_view opt_changed (opt_body ctx) (opt_rule ctx) opt_asymmetric opt_kept.
Proof.
  intros Hctx. split.
  - intros st []; by rewrite opt_changed_eq.
  - intros st. rewrite opt_changed_eq. cbn [fst]. flags. split; [intros [E|[E|[E|[E|[E|[E|[E|[E|[E|[E|[E|[E|[E|[E|[E|[E|[E|[E|[E|[]]]]]]]]]]]]]]]]]]]]; [exists VInvalidated|exists VLive|exists VIssued|exists VSubset|exists VContains|exists VLoanLive|exists VLiveToDying|exists VRequires|exists VDying|exists VReach|exists VReach1|exists VReachLive|exists VDeadRoot|exists VDead|exists VDead1|exists VError|exists VSubsetError|exists VPlaceholder|exists VPlaceholderO2]; symmetry; exact E|intros [[] E]; in_flags E].
  - intros prems f p Hr Hp. destruct Hr; try (by right); left; repeat (apply elem_of_cons in Hp as [->|Hp]; [done|]); by apply elem_of_nil in Hp.
  - intros st Hok Hta. assert (Hok1 : prog_ok opt_vars opt_kept (opt_retain st)) by (intros r; destruct (Hok r) as [Ho Hd]; destruct r; try done; (split; [by apply retain_recent_ok|done])).
    destruct (opt_ops ctx (opt_retain st) Hctx Hok1) as (st' & Hb & Hadds). unfold opt_body. rewrite Hb.
    destruct (adds_program opt_vars opt_view (opt_rule ctx) opt_kept (opt_retain st) st' Hok1) as (Hok' & Hs' & Hr' & Hp'); [by eauto| |].
    { intros f. rewrite <- (opt_fact_view f) at 2. rewrite <- opt_new_delta. unfold in_pending. destruct (Hadds (projT1 (opt_view f))) as (_ & _ & _ & _ & ->). assert (Ha : to_add (opt_vars (opt_retain st) (projT1 (opt_view f))) = []) by (pose proof (Hta (projT1 (opt_view f))); by destruct f). unfold pending at 1. rewrite Ha, in_batches_nil. tauto. }
    exists st'. split_and!; try done; intros f; [rewrite Hs'; by destruct f|by rewrite Hr', opt_retain_recent].
Qed.

Lemma opt_settles ctx (result : Output Origin Loan Point Var Path) : ctx_ok ctx ->
  settles (fun fuel => opt_compute fuel ctx result) (fun '(errs, subset_errs, out) =>
    enumerates errs (fun '(l, p) => opt_model ctx (OError l p)) /\ enumerates subset_errs (fun '(o1, o2, p) => opt_model ctx (OSubsetError o1 o2 p)) /\ same_results result out).
Proof.
  intros Hok. unfold opt_compute. set (issued := fmap _ (c_loan_issued_at ctx)).
  assert (Hissued : forall o p l, (o, p, l) ∈ issued <-> (o, l, p) ∈ c_loan_issued_at ctx).
  { intros o p l. unfold issued. rewrite list_elem_of_fmap. split; [by intros ([[? ?] ?] & [= -> -> ->] & Hx)|]. intros Hx. by exists (o, l, p). }
  eapply settles_bind; [apply (program_settles opt_vars opt_fact opt_view opt_view_fact opt_fact_view _ _ _ _ _ _ (opt_program ctx Hok) (opt_finite ctx))|].
  - assert (Hno : forall r, match r with VInvalidated | VLive | VIssued | VSubset | VContains => False | _ => True end -> forall x, ~ opt_rule ctx [] (opt_fact r x)).
    { intros r Hr x Hrule. destruct r; try done; first [destruct x as [[[? ?] ?] ?]; by inversion Hrule|destruct x as [[? ?] [? ?]]; by inversion Hrule|destruct x as [[? ?] ?]; by inversion Hrule|destruct x as [? ?]; by inversion Hrule]. }
    intros r. destruct r; try (by apply starts_empty; apply Hno); (eapply starts_adds; [apply extend_adds|]).
    + intros [[l p] []]. rewrite list_elem_of_fmap. split; [intros ([? ?] & [= -> ->] & Hx); by constructor|]. intros Hr. inversion Hr. by exists (l, p).
    + intros [[o p] []]. rewrite list_elem_of_fmap. split; [intros ([? ?] & [= -> ->] & Hx); by constructor|]. intros Hr. inversion Hr. by exists (o, p).
    + intros [[o p] l]. rewrite Hissued. split; [by constructor|intros Hr; by inversion Hr].
    + intros [[o1 p] o2]. rewrite list_elem_of_fmap. split; [intros ([[? ?] ?] & [= -> -> ->] & Hx); by constructor|]. intros Hr. inversion Hr. by exists (o1, o2, p).
    + intros [[o p] l]. rewrite Hissued. split; [by constructor|intros Hr; by inversion Hr].
  - intros st Hst. cbv beta. destruct (Hst VSubset) as (r1 & E1 & M1), (Hst VContains) as (r2 & E2 & _), (Hst VLoanLive) as (r3 & E3 & _), (Hst VError) as (r4 & E4 & M4), (Hst VSubsetError) as (r5 & E5 & M5).
    returns (complete (p_subset_o1p st)) E1. returns (complete (p_contains_op st)) E2. returns (complete (p_loan_live_at st)) E3. returns (complete (p_errors st)) E4. returns (complete (p_subset_errors st)) E5. cbn [obind].
    assert (He : enumerates r4 (fun '(l, p) => opt_model ctx (OError l p)) /\ enumerates r5 (fun '(o1, o2, p) => opt_model ctx (OSubsetError o1 o2 p))) by (split; [apply (enumerates_iff _ _ _ M4); by intros [a b]|apply (enumerates_iff _ _ _ M5); by intros [[a b] c]]).
    destruct (dump_enabled result) eqn:Ed; [|apply settles_ret; split; [apply He|]; split; [apply He|done]].
    assert (Hf : List.filter (fun '((origin1, _), origin2) => eq_b origin1 origin2) (r1 : list (Origin * Point * Origin)) = []).
    { destruct (List.filter _ _) as [|[[o1 p] o2] l] eqn:Ef; [done|]. exfalso. assert (Hin : In (o1, p, o2) (List.filter (fun '((origin1, _), origin2) => eq_b origin1 origin2) (r1 : list (Origin * Point * Origin)))) by (rewrite Ef; by left).
      apply filter_In in Hin as [Hin%list_elem_of_In ->%eq_b_true]. apply M1 in Hin. by inversion Hin as [? ? _ Hk _]. }
    rewrite Hf. cbn [length Nat.eqb assert_that obind]. apply settles_ret. split; [apply He|]. split; [apply He|done].
Qed.
End OptLoop.
