(* ===== verification/PoloniusModel.v ===== *)
(** * What the borrow checker promises *)
From Stdlib Require Import ZArith Lia.
From stdpp Require Import base numbers list relations.
From S2P Require Import Prelude RustSlice Datafrog DatafrogFacts DatafrogLeap DatafrogVar SemiNaive DatafrogProgram Polonius PoloniusLoops PoloniusFlow PoloniusVariants PoloniusNaive PoloniusOpt PoloniusOptLoop.
#[local] Open Scope nat_scope.
Open Scope rust_scope.

(** ** What the borrow checker promises

    The nine rules of [naive.rs] as they are documented; the naive loop derives the same errors.  The
    location-insensitive rules find every error the naive rules find. *)

Section Model.
Context {Origin Loan Point Var Path : Type} `{Ord Origin, Ord Loan, Ord Point, Ord Var, Ord Path}.

Implicit Types (ctx : Context_ Origin Loan Point).

(** The input relations of the rules. *)
Record Inputs := mkInputs {
  i_subset_base : Origin -> Origin -> Point -> Prop;
  i_loan_issued_at : Origin -> Loan -> Point -> Prop;
  i_loan_killed_at : Loan -> Point -> Prop;
  i_cfg_edge : Point -> Point -> Prop;
  i_origin_live : Origin -> Point -> Prop;
  i_loan_invalidated_at : Loan -> Point -> Prop;
  i_placeholder_origin : Origin -> Prop;
  i_known_subset : Origin -> Origin -> Prop;
}.

Abbreviation NFact := (NaiveFact (Origin := Origin) (Loan := Loan) (Point := Point)).

(** Rules 1 to 9. *)
Inductive naive_rule (i : Inputs) : list NFact -> NFact -> Prop :=
| rule1 o1 o2 p : i_subset_base i o1 o2 p -> naive_rule i [] (Subset o1 o2 p)
| rule2 o1 o2 o3 p : naive_rule i [Subset o1 o2 p; Subset o2 o3 p] (Subset o1 o3 p)
| rule3 o1 o2 p1 p2 : i_cfg_edge i p1 p2 -> i_origin_live i o1 p2 -> i_origin_live i o2 p2 -> naive_rule i [Subset o1 o2 p1] (Subset o1 o2 p2)
| rule4 o l p : i_loan_issued_at i o l p -> naive_rule i [] (Contains o l p)
| rule5 o1 o2 l p : naive_rule i [Contains o1 l p; Subset o1 o2 p] (Contains o2 l p)
| rule6 o l p1 p2 : ~ i_loan_killed_at i l p1 -> i_cfg_edge i p1 p2 -> i_origin_live i o p2 -> naive_rule i [Contains o l p1] (Contains o l p2)
| rule7 o l p : i_origin_live i o p -> naive_rule i [Contains o l p] (LoanLive l p)
| rule8 l p : i_loan_invalidated_at i l p -> naive_rule i [LoanLive l p] (Error l p)
| rule9 o1 o2 p : i_placeholder_origin i o1 -> i_placeholder_origin i o2 -> ~ i_known_subset i o1 o2 -> naive_rule i [Subset o1 o2 p] (SubsetError o1 o2 p).

Definition naive_model (i : Inputs) : NFact -> Prop := derives (naive_rule i) keep_all.

Definition same_inputs (i j : Inputs) : Prop :=
  (forall o1 o2 p, i_subset_base i o1 o2 p <-> i_subset_base j o1 o2 p) /\ (forall o l p, i_loan_issued_at i o l p <-> i_loan_issued_at j o l p) /\ (forall l p, i_loan_killed_at i l p <-> i_loan_killed_at j l p) /\
  (forall p q, i_cfg_edge i p q <-> i_cfg_edge j p q) /\ (forall o p, i_origin_live i o p <-> i_origin_live j o p) /\ (forall l p, i_loan_invalidated_at i l p <-> i_loan_invalidated_at j l p) /\
  (forall o, i_placeholder_origin i o <-> i_placeholder_origin j o) /\ (forall o1 o2, i_known_subset i o1 o2 <-> i_known_subset j o1 o2).

Lemma same_inputs_model i j f : same_inputs i j -> naive_model i f <-> naive_model j f.
Proof.
  intros (H1' & H2' & H3' & H4' & H5' & H6' & H7' & H8'). apply derives_ext; [|done]. intros prems g.
  split; intros Hr; destruct Hr; econstructor; try (by apply H1'); try (by apply H2'); try (by rewrite ?H3' in *; rewrite <- ?H3' in *); try (by apply H4'); try (by apply H5'); try (by apply H6'); try (by apply H7'); first [by rewrite <- H8'|by rewrite H8'|idtac].
Qed.

Definition ctx_inputs (ctx : Context_ Origin Loan Point) : Inputs :=
  mkInputs (fun o1 o2 p => (o1, o2, p) ∈ c_subset_base ctx) (fun o l p => (o, l, p) ∈ c_loan_issued_at ctx) (fun l p => (l, p) ∈ c_loan_killed_at ctx) (fun p q => (p, q) ∈ c_cfg_edge ctx)
    (fun o p => (o, p) ∈ c_origin_live_on_entry ctx) (fun l p => (l, p) ∈ c_loan_invalidated_at ctx) (fun o => (o, tt) ∈ c_placeholder_origin ctx) (fun o1 o2 => (o1, o2) ∈ c_known_placeholder_subset ctx).

(** What the loop derives, read as documented facts. *)
Definition meaning ctx (f : NFact) : Prop :=
  match f with
  | SubsetO1 o1 p o2 | SubsetO2 o2 p o1 => naive_model (ctx_inputs ctx) (Subset o1 o2 p)
  | ContainsOp o p l => naive_model (ctx_inputs ctx) (Contains o l p)
  | LiveCopy o p => (o, p) ∈ c_origin_live_on_entry ctx
  | f => naive_model (ctx_inputs ctx) f
  end.

Lemma conclude {F} (rule : list F -> F -> Prop) prems f : rule prems f -> Forall (derives rule keep_all) prems -> derives rule keep_all f.
Proof. intros Hr Hp. rewrite Forall_forall in Hp. by apply (derives_rule _ _ prems). Qed.

Lemma step_sound ctx f : step_model ctx f -> meaning ctx f.
Proof.
  induction 1 as [prems f Hr _ _ IH]. pose proof (proj2 (Forall_forall _ _) IH) as Hp. clear IH. destruct Hr; cbn in *; repeat (apply Forall_cons in Hp as [? Hp]); try done; cbn [meaning] in *.
  - eapply conclude; [by apply rule1|constructor].
  - eapply conclude; [apply (rule2 _ o1 o2)|by repeat constructor].
  - eapply conclude; [by apply (rule3 _ o1 o2 p1)|by repeat constructor].
  - eapply conclude; [by apply rule4|constructor].
  - eapply conclude; [apply (rule5 _ o1)|by repeat constructor].
  - eapply conclude; [by apply (rule6 _ o l p1)|by repeat constructor].
  - eapply conclude; [by apply (rule7 _ o)|by repeat constructor].
  - eapply conclude; [by apply rule8|by repeat constructor].
  - eapply conclude; [by apply rule9|by repeat constructor].
Qed.

Lemma step_conclude ctx prems f : naive_step_rule ctx prems f -> asymmetric f -> Forall (step_model ctx) prems -> step_model ctx f.
Proof. intros Hr Hk Hp. rewrite Forall_forall in Hp. by apply (derives_rule _ _ prems). Qed.

Lemma step_o1 ctx o1 o2 p : step_model ctx (Subset o1 o2 p) -> step_model ctx (SubsetO1 o1 p o2).
Proof. intros Hs. eapply step_conclude; [apply ns_o1|done|by repeat constructor]. Qed.

Lemma step_complete ctx f : naive_model (ctx_inputs ctx) f ->
  match f with Subset o1 o2 p => o1 = o2 \/ step_model ctx f | Contains _ _ _ | LoanLive _ _ | Error _ _ => step_model ctx f | SubsetError o1 o2 _ => o1 <> o2 -> step_model ctx f | _ => False end.
Proof.
  induction 1 as [prems f Hr _ _ IH]. pose proof (proj2 (Forall_forall _ _) IH) as Hp. clear IH. destruct Hr as [o1 o2 p Hx|o1 o2 o3 p|o1 o2 p1 p2 Hx Hy Hz|o l p Hx|o1 o2 l p|o l p1 p2 Hx Hy Hz|o l p Hx|l p Hx|o1 o2 p Hx Hy Hz]; repeat (apply Forall_cons in Hp as [? Hp]).
  - destruct (decide (o1 = o2)) as [?|Hne]; [by left|right]. eapply step_conclude; [by apply ns_base|done|constructor].
  - destruct (decide (o1 = o3)) as [?|Hne]; [by left|right]. destruct H4 as [->|Ha]; [by destruct H5|]. destruct H5 as [<-|Hb]; [done|].
    eapply step_conclude; [apply (ns_trans _ o1 o2)|done|]. repeat constructor; [|by apply step_o1]. eapply step_conclude; [apply ns_o2|done|by repeat constructor].
  - destruct H4 as [?|Ha]; [by left|right]. eapply step_conclude; [by apply (ns_flow _ o1 o2 p1)| |by repeat constructor]. by inversion Ha.
  - eapply step_conclude; [by apply ns_issued|done|constructor].
  - destruct H5 as [<-|Hb]; [done|]. eapply step_conclude; [apply (ns_contains _ o1)|done|]. repeat constructor; [|by apply step_o1]. eapply step_conclude; [apply ns_op|done|by repeat constructor].
  - eapply step_conclude; [by apply (ns_contains_flow _ o l p1)|done|by repeat constructor].
  - eapply step_conclude; [apply (ns_live _ o)|done|]. repeat constructor; [eapply step_conclude; [apply ns_op|done|by repeat constructor]|]. eapply step_conclude; [by apply ns_copy|done|constructor].
  - eapply step_conclude; [by apply ns_error|done|by repeat constructor].
  - intros Hne. destruct H4 as [?|Ha]; [done|]. eapply step_conclude; [by apply ns_subset_error|done|by repeat constructor].
Qed.

(** The naive loop derives exactly the documented errors; of the subset errors, those between distinct origins. *)
Lemma step_model_errors ctx l p : step_model ctx (Error l p) <-> naive_model (ctx_inputs ctx) (Error l p).
Proof. split; [apply (step_sound ctx (Error l p))|apply (step_complete ctx (Error l p))]. Qed.

Lemma step_model_subset_errors ctx o1 o2 p : step_model ctx (SubsetError o1 o2 p) <-> naive_model (ctx_inputs ctx) (SubsetError o1 o2 p) /\ o1 <> o2.
Proof.
  split; [|intros [Hm Hne]; by apply (step_complete ctx (SubsetError o1 o2 p))]. intros Hs. split; [by apply (step_sound ctx (SubsetError o1 o2 p))|]. inversion Hs as [prems f Hr _ _ Hf]. by inversion Hr.
Qed.
End Model.

(** ** The optimized rules derive the documented errors

    The optimized rules keep, at each point, only the subsets that a transitive closure needs, and carry along an edge
    what origins that die there could reach.  The documented subsets are the paths of the optimized ones. *)

Section OptModel.
Context {Origin Loan Point Var Path : Type} `{Ord Origin, Ord Loan, Ord Point, Ord Var, Ord Path}.
Context (ctx : Context_ Origin Loan Point).

Abbreviation documented := (naive_model (ctx_inputs ctx)).
Abbreviation opt := (opt_model ctx).
Definition live_at (o : Origin) (p : Point) : Prop := (o, p) ∈ c_origin_live_on_entry ctx.

#[local] Instance live_at_dec o p : Decision (live_at o p).
Proof. unfold live_at. apply _. Defined.

Lemma opt_conclude prems f : opt_rule ctx prems f -> opt_asymmetric f -> Forall opt prems -> opt f.
Proof. intros Hr Hk Hp. rewrite Forall_forall in Hp. by apply (derives_rule _ _ prems). Qed.

Lemma doc_conclude prems f : naive_rule (ctx_inputs ctx) prems f -> Forall documented prems -> documented f.
Proof. apply conclude. Qed.

(** *** Soundness *)

(** What an optimized fact says, in documented facts. *)
Definition opt_meaning (f : OptFact) : Prop :=
  match f with
  | Invalidated l p => (l, p) ∈ c_loan_invalidated_at ctx
  | OLive o p => live_at o p
  | OIssued o p l | OContains o p l | DeadRoot o p l | DeadDead o p l | DeadDead1 o p l => documented (Contains o l p)
  | OSubset o1 p o2 => documented (Subset o1 o2 p)
  | OLoanLive l p => documented (LoanLive l p)
  | LiveToDying o2 p q o1 => documented (Subset o1 o2 p) /\ ((p, q) ∈ c_cfg_edge ctx) /\ live_at o1 q
  | DyingRequires o p q l => documented (Contains o l p) /\ ((l, p) ∉ c_loan_killed_at ctx) /\ ((p, q) ∈ c_cfg_edge ctx)
  | DyingOrigin _ _ _ => True
  | DyingReach o2 _ o1 p | DyingReach1 o2 p o1 _ => documented (Subset o1 o2 p)
  | DyingReachLive o1 p q o2 => documented (Subset o1 o2 p) /\ live_at o2 q
  | OError l p => documented (Error l p)
  | OSubsetError o1 o2 p => documented (SubsetError o1 o2 p) /\ o1 <> o2
  | SubsetPh o1 o2 p | SubsetPhO2 o2 p o1 => documented (Subset o1 o2 p) /\ (o1, tt) ∈ c_placeholder_origin ctx
  end.

Lemma doc_trans o1 o2 o3 p : documented (Subset o1 o2 p) -> documented (Subset o2 o3 p) -> documented (Subset o1 o3 p).
Proof. intros H12 H23. eapply doc_conclude; [apply (rule2 _ o1 o2)|by repeat constructor]. Qed.

Lemma doc_flow o1 o2 p q : documented (Subset o1 o2 p) -> (p, q) ∈ c_cfg_edge ctx -> live_at o1 q -> live_at o2 q -> documented (Subset o1 o2 q).
Proof. intros Hs He H1' H2'. eapply doc_conclude; [by apply (rule3 _ o1 o2 p)|by repeat constructor]. Qed.

Lemma doc_contains o1 o2 l p : documented (Contains o1 l p) -> documented (Subset o1 o2 p) -> documented (Contains o2 l p).
Proof. intros Hc Hs. eapply doc_conclude; [apply (rule5 _ o1)|by repeat constructor]. Qed.

Lemma doc_contains_flow o l p q : documented (Contains o l p) -> (l, p) ∉ c_loan_killed_at ctx -> (p, q) ∈ c_cfg_edge ctx -> live_at o q -> documented (Contains o l q).
Proof. intros Hc Hk He Hl. eapply doc_conclude; [by apply (rule6 _ o l p)|by repeat constructor]. Qed.

Lemma doc_loan_live o l p : documented (Contains o l p) -> live_at o p -> documented (LoanLive l p).
Proof. intros Hc Hl. eapply doc_conclude; [by apply (rule7 _ o)|by repeat constructor]. Qed.

Lemma opt_sound f : opt f -> opt_meaning f.
Proof.
  induction 1 as [prems f Hr _ _ IH]. pose proof (proj2 (Forall_forall _ _) IH) as Hp. clear IH.
  destruct Hr; repeat (apply Forall_cons in Hp as [? Hp]); cbn [opt_meaning] in *; try done; eauto using doc_trans, doc_contains, doc_loan_live.
  - eapply doc_conclude; [by apply rule4|constructor].
  - eapply doc_conclude; [by apply rule1|constructor].
  - eapply doc_conclude; [by apply rule4|constructor].
  - by apply (doc_flow _ _ p1).
  - destruct H4 as (Hs & He & Hl), H5 as [Hs' Hl']. apply (doc_flow _ _ p1); [by apply (doc_trans _ o2)|done|done|done].
  - destruct H4 as (Hc & Hk & He), H5 as [Hs' Hl']. apply (doc_contains_flow _ _ p1); [by apply (doc_contains o1)|done|done|done].
  - by apply (doc_contains_flow _ _ p1).
  - eapply doc_conclude; [by apply rule8|by repeat constructor].
  - destruct H4 as [Hs Hp1]. split; [by apply (doc_trans _ o2)|done].
  - destruct H7 as [Hs Hp1]. split; [|done]. eapply doc_conclude; [by apply rule9|by repeat constructor].
Qed.

(** *** Completeness *)

(** A step of an optimized subset at a point. *)
Definition edge (p : Point) (o1 o2 : Origin) : Prop := opt (OSubset o1 p o2).

(** From a dying origin, the first live origin of a path is reached. *)
Lemma dying_reaches p q d o n : opt (DyingOrigin d p q) -> nsteps (edge p) n d o -> ~ live_at d q -> live_at o q ->
  exists v m, opt (DyingReachLive d p q v) /\ live_at v q /\ m < n /\ nsteps (edge p) m v o.
Proof.
  intros Hd Hpath Hdead Hlive. assert (Hwalk : forall x n, nsteps (edge p) n x o -> (x = d \/ opt (DyingReach x q d p)) -> ~ live_at x q -> exists v m, opt (DyingReachLive d p q v) /\ live_at v q /\ m < n /\ nsteps (edge p) m v o); [|apply (Hwalk d); auto].
  clear n Hpath. intros x n Hpath. induction Hpath as [x|n x y z Hxy Hyz IH]; intros Hx Hn; [done|]. assert (Hy : opt (DyingReach y q d p)).
  { destruct Hx as [->|Hx]; [eapply opt_conclude; [apply op_reach|done|by repeat constructor]|]. eapply opt_conclude; [apply (op_reach_step _ d x)|done|]. repeat constructor; [|done]. eapply opt_conclude; [by apply op_reach_1|done|by repeat constructor]. }
  destruct (decide (live_at y q)) as [Hl|Hl].
  - exists y, n. split_and!; [|done|lia|done]. eapply opt_conclude; [apply op_reach_live|done|]. repeat constructor; [done|]. eapply opt_conclude; [by apply op_live|done|constructor].
  - destruct IH as (v & m & Hv & Hvl & Hm & Hpath); [done|by right|done|]. exists v, m. split_and!; try done. lia.
Qed.

Lemma edge_or_eq p o1 o2 : (o1 <> o2 -> edge p o1 o2) -> rtc (edge p) o1 o2.
Proof. intros He. destruct (decide (o1 = o2)) as [->|Hne]; [done|]. by apply rtc_once, He. Qed.

(** A path between live origins is carried along an edge of the graph. *)
Lemma path_flow p q o1 o2 : (p, q) ∈ c_cfg_edge ctx -> rtc (edge p) o1 o2 -> live_at o1 q -> live_at o2 q -> rtc (edge q) o1 o2.
Proof.
  intros He [n Hn]%rtc_nsteps. revert o1 Hn. induction n as [n IH] using lt_wf_ind. intros o1 Hn Hl1 Hl2. inversion Hn as [|n' ? y ? Hxy Hyz]; subst; [done|]. destruct (decide (live_at y q)) as [Hy|Hy].
  - transitivity y; [|apply (IH n'); [lia|done|done|done]]. apply edge_or_eq. intros Hne. eapply opt_conclude; [by apply (op_flow _ o1 y p)|done|by repeat constructor].
  - assert (Hdy : opt (LiveToDying y p q o1)) by (eapply opt_conclude; [by apply op_live_to_dying|done|by repeat constructor]). assert (Ho : opt (DyingOrigin y p q)) by (eapply opt_conclude; [apply op_dying_origin_subset|done|by repeat constructor]).
    destruct (dying_reaches p q y o2 n' Ho Hyz Hy Hl2) as (v & m & Hv & Hvl & Hm & Hpath). transitivity v; [|apply (IH m); [lia|done|done|done]].
    apply edge_or_eq. intros Hne. eapply opt_conclude; [apply (op_bridge _ o1 y v p q)|done|by repeat constructor].
Qed.

(** A documented subset is a path; a documented loan of an origin comes from an origin that has it, along a path. *)
Lemma subset_path f : documented f ->
  match f with
  | Subset o1 o2 p => rtc (edge p) o1 o2
  | Contains o l p => exists o', opt (OContains o' p l) /\ rtc (edge p) o' o
  | _ => True
  end.
Proof.
  induction 1 as [prems f Hr _ _ IH]. pose proof (proj2 (Forall_forall _ _) IH) as Hp. clear IH. destruct Hr as [o1 o2 p Hx|o1 o2 o3 p|o1 o2 p1 p2 Hx Hy Hz|o l p Hx|o1 o2 l p|o l p1 p2 Hx Hy Hz|o l p Hx|l p Hx|o1 o2 p Hx Hy Hz]; repeat (apply Forall_cons in Hp as [? Hp]); try done.
  - apply edge_or_eq. intros Hne. eapply opt_conclude; [by apply op_base|done|constructor].
  - by transitivity o2.
  - by apply (path_flow p1).
  - exists o. split; [|done]. eapply opt_conclude; [by apply op_contains_issued|done|constructor].
  - destruct H4 as (o' & Ho' & Hpath). exists o'. split; [done|]. by transitivity o1.
  - destruct H4 as (o' & Ho' & Hpath). destruct (decide (live_at o' p2)) as [Hl|Hl].
    + exists o'. split; [|by apply (path_flow p1)]. eapply opt_conclude; [by apply (op_contains_flow _ o' l p1)|done|by repeat constructor].
    + assert (Hreq : opt (DyingRequires o' p1 p2 l)) by (eapply opt_conclude; [by apply op_dying_requires|done|by repeat constructor]). assert (Ho : opt (DyingOrigin o' p1 p2)) by (eapply opt_conclude; [apply op_dying_origin_loan|done|by repeat constructor]).
      apply rtc_nsteps in Hpath as [n Hn]. destruct (dying_reaches p1 p2 o' o n Ho Hn Hl Hz) as (v & m & Hv & Hvl & Hm & Hpath). exists v. split; [|apply (path_flow p1); [done|by apply (rtc_nsteps_2 m)|done|done]].
      eapply opt_conclude; [apply (op_contains_bridge _ o' v l p1 p2)|done|by repeat constructor].
Qed.

(** A loan of a dead origin was issued there. *)
Lemma dead_contains o p l : opt (OContains o p l) -> live_at o p \/ (o, l, p) ∈ c_loan_issued_at ctx.
Proof.
  intros Hc. inversion Hc as [prems f Hr _ Hp]; subst. inversion Hr; subst; auto. left. pose proof (opt_sound _ (Hp _ (list_elem_of_further _ _ _ (list_elem_of_here _ _)))) as [_ Hl]. exact Hl.
Qed.

Lemma dead_reaches o p l o' : opt (DeadDead o p l) -> rtc (edge p) o o' -> ~ live_at o p -> live_at o' p -> opt (OLoanLive l p).
Proof.
  intros Hd Hpath. revert Hd. induction Hpath as [x|x y z Hxy Hyz IH]; intros Hx Hn Hl; [done|]. assert (Hy : opt (DeadDead1 y p l)) by (eapply opt_conclude; [apply (op_dead_1 _ x)|done|by repeat constructor]).
  destruct (decide (live_at y p)) as [Hly|Hly].
  - eapply opt_conclude; [apply (op_loan_live_dead _ y)|done|]. repeat constructor; [done|]. eapply opt_conclude; [by apply op_live|done|constructor].
  - apply IH; [|done|done]. eapply opt_conclude; [by apply op_dead_step|done|by repeat constructor].
Qed.

Lemma loan_live_complete l p : documented (LoanLive l p) -> opt (OLoanLive l p).
Proof.
  intros Hd. inversion Hd as [prems f Hr _ Hp]; subst. inversion Hr; subst. pose proof (subset_path _ (Hp _ (list_elem_of_here _ _))) as (o' & Hc & Hpath). destruct (decide (live_at o' p)) as [Hl|Hl].
  - eapply opt_conclude; [apply (op_loan_live _ o')|done|]. repeat constructor; [done|]. eapply opt_conclude; [by apply op_live|done|constructor].
  - destruct (dead_contains _ _ _ Hc) as [?|Hi]; [done|]. apply (dead_reaches o' p l o); [|done|done|done]. eapply opt_conclude; [apply op_dead|done|]. repeat constructor. eapply opt_conclude; [by apply op_dead_root|done|]. repeat constructor. eapply opt_conclude; [by apply op_issued|done|constructor].
Qed.

Lemma placeholder_complete o1 o2 p : (o1, tt) ∈ c_placeholder_origin ctx -> rtc (edge p) o1 o2 -> o1 = o2 \/ opt (SubsetPh o1 o2 p).
Proof.
  intros Hph. revert o2. apply rtc_ind_r; [by left|]. intros x y _ Hxy IH. destruct (decide (o1 = y)) as [?|Hne]; [by left|right]. destruct IH as [<-|IH].
  - eapply opt_conclude; [by apply op_placeholder|done|by repeat constructor].
  - eapply opt_conclude; [apply (op_placeholder_step _ o1 x)|done|]. repeat constructor; [|done]. eapply opt_conclude; [apply op_placeholder_o2|done|by repeat constructor].
Qed.

(** The optimized rules derive the documented errors. *)
Lemma opt_model_errors l p : opt (OError l p) <-> documented (Error l p).
Proof.
  split; [apply (opt_sound (OError l p))|]. intros Hd. inversion Hd as [prems f Hr _ Hp]; subst. inversion Hr; subst. eapply opt_conclude; [apply op_error|done|]. repeat constructor; [eapply opt_conclude; [by apply op_invalidated|done|constructor]|].
  apply loan_live_complete, Hp. left.
Qed.

Lemma opt_model_subset_errors o1 o2 p : opt (OSubsetError o1 o2 p) <-> documented (SubsetError o1 o2 p) /\ o1 <> o2.
Proof.
  split; [apply (opt_sound (OSubsetError o1 o2 p))|]. intros [Hd Hne]. inversion Hd as [prems f Hr _ Hp]; subst. inversion Hr; subst. pose proof (subset_path _ (Hp _ (list_elem_of_here _ _))) as Hpath.
  destruct (placeholder_complete o1 o2 p) as [?|Hs]; [done|done|done|]. eapply opt_conclude; [by apply op_subset_error|done|by repeat constructor].
Qed.
End OptModel.
