(* ===== verification/PoloniusCompute.v ===== *)
(** * The driver: contexts, recorded errors, and the pre-pass

    [make_context] prepares the inputs of the rules from the facts; the maps of an [Output] hold what is recorded; the
    location-insensitive rules cover the naive ones. *)
From Stdlib Require Import ZArith Lia.
From stdpp Require Import base numbers list.
From S2P Require Import Prelude RustSlice Datafrog DatafrogFacts DatafrogLeap DatafrogVar SemiNaive DatafrogProgram Polonius PoloniusLoops PoloniusFlow PoloniusVariants PoloniusNaive PoloniusOpt PoloniusOptLoop PoloniusModel.
#[local] Open Scope nat_scope.
Open Scope rust_scope.

(** ** Maps *)

Section Maps.
Context {K A : Type} `{Ord K}.

Definition at_key (m : FxHashMap K (list A)) (k : K) : list A := default [] (map_get m k).

Lemma map_get_entry (m : FxHashMap K (list A)) k k' f : map_get (entry_or_default m k [] f) k' = if eq_b k k' then Some (f (at_key m k)) else map_get m k'.
Proof.
  unfold at_key. induction m as [|[k0 v] m IH]; cbn [entry_or_default map_get]; [by destruct (eq_b k k')|]. destruct (eq_b k0 k) eqn:E0; cbn [map_get].
  - apply eq_b_true in E0. subst k0. by destruct (eq_b k k').
  - rewrite IH. destruct (eq_b k0 k') eqn:E1; [|done]. destruct (eq_b k k') eqn:E; [|done]. apply eq_b_true in E1, E. subst. assert (eq_b k' k' = true) by by apply eq_b_true. congruence.
Qed.

Lemma at_key_entry (m : FxHashMap K (list A)) k k' f : at_key (entry_or_default m k [] f) k' = if eq_b k k' then f (at_key m k) else at_key m k'.
Proof. unfold at_key at 1. rewrite map_get_entry. by destruct (eq_b k k'). Qed.

Lemma push_each_in (pairs : list (A * K)) m k x : x ∈ at_key (push_each pairs m) k <-> x ∈ at_key m k \/ (x, k) ∈ pairs.
Proof.
  unfold push_each. revert m. induction pairs as [|[y k'] pairs IH]; intros m; cbn [foldl]; [rewrite elem_of_nil; tauto|]. rewrite IH, at_key_entry, elem_of_cons. destruct (eq_b k' k) eqn:E.
  - apply eq_b_true in E. subst k'. rewrite elem_of_app, list_elem_of_singleton. intuition congruence.
  - assert (k' <> k) by (intros ->; assert (eq_b k k = true) by (by apply eq_b_true); congruence). intuition congruence.
Qed.

Lemma insert_each_in `{Ord A} (pairs : list (A * K)) m k x : x ∈ at_key (insert_each pairs m) k <-> x ∈ at_key m k \/ (x, k) ∈ pairs.
Proof.
  unfold insert_each. revert m. induction pairs as [|[y k'] pairs IH]; intros m; cbn [foldl]; [rewrite elem_of_nil; tauto|]. rewrite IH, at_key_entry, elem_of_cons. destruct (eq_b k' k) eqn:E.
  - apply eq_b_true in E. subst k'. unfold btree_insert. rewrite dedup_in, sort_insert_in. intuition congruence.
  - assert (k' <> k) by (intros ->; assert (eq_b k k = true) by (by apply eq_b_true); congruence). intuition congruence.
Qed.
End Maps.

Section Compute.
Context {Origin Loan Point Var Path : Type} `{Ord Origin, Ord Loan, Ord Point, Ord Var, Ord Path}.
Implicit Types (ctx : Context_ Origin Loan Point) (facts : AllFacts Origin Loan Point Var Path).

(** ** The inputs of the rules *)

Definition init_ctx facts := mkInitCtx (child_path facts) (path_is_var facts) (path_assigned_at_base facts) (path_moved_at_base facts) (path_accessed_at_base facts).
Definition live_ctx facts := mkLiveCtx (var_used_at facts) (var_defined_at facts) (var_dropped_at facts) (use_of_var_derefs_origin facts) (drop_of_var_derefs_origin facts).

(** An origin is live because a variable is, or because it is universal. *)
Definition facts_live facts (o : Origin) (p : Point) : Prop :=
  live_model (live_ctx facts) (cfg_edge facts) (fun '(v, q) => init_model (init_ctx facts) (cfg_edge facts) (PartlyInit v q)) (OriginLive o p) \/
  (o ∈ universal_region facts /\ (p ∈ (cfg_edge facts).*1 \/ p ∈ (cfg_edge facts).*2)).

Definition facts_inputs facts : Inputs :=
  mkInputs (fun o1 o2 p => (o1, o2, p) ∈ subset_base facts) (fun o l p => (o, l, p) ∈ loan_issued_at facts) (fun l p => (l, p) ∈ loan_killed_at facts) (fun p q => (p, q) ∈ cfg_edge facts)
    (facts_live facts) (fun l p => (p, l) ∈ loan_invalidated_at facts) (fun o => o ∈ universal_region facts) (fun o1 o2 => derives (known_subset_rule (known_placeholder_subset facts)) keep_all (o1, o2)).

(** The relations that leapjoins take values from, and the pairs they are made of, are fewer than [usize::MAX]. *)
Definition facts_fit facts : Prop :=
  fits (cfg_edge facts) /\ fits (loan_invalidated_at facts) /\ fits (placeholder facts) /\ fits (universal_region facts) /\ fits (known_placeholder_subset facts) /\ init_fits (init_ctx facts) /\
  fits (list_prod (path_is_var facts).*2 (init_points (init_ctx facts) (cfg_edge facts))) /\
  fits (list_prod (live_origins (live_ctx facts) ++ universal_region facts) (live_points (live_ctx facts) (cfg_edge facts) ++ (cfg_edge facts).*1 ++ (cfg_edge facts).*2)).

(** What the variants are given. *)
Definition context_of facts ctx : Prop :=
  ctx_ok ctx /\ same_inputs (ctx_inputs ctx) (facts_inputs facts) /\ (forall o l, (l, o) ∈ c_placeholder_loan ctx <-> (o, l) ∈ placeholder facts) /\
  (forall o l, (o, l) ∈ c_known_contains ctx <-> derives (known_contains_rule (known_placeholder_subset facts) (placeholder facts)) keep_all (o, l)).

Lemma known_contains_ext (l l' : list (Origin * Origin)) (pl : list (Origin * Loan)) f : (forall x, x ∈ l <-> x ∈ l') -> derives (known_contains_rule l pl) keep_all f <-> derives (known_contains_rule l' pl) keep_all f.
Proof. intros HE. apply derives_ext; [|done]. intros prems g. split; intros Hr; destruct Hr; constructor; try done; by apply HE. Qed.

Lemma known_subset_ext (l l' : list (Origin * Origin)) f : (forall x, x ∈ l <-> x ∈ l') -> derives (known_subset_rule l) keep_all f <-> derives (known_subset_rule l') keep_all f.
Proof. intros HE. apply derives_ext; [|done]. intros prems g. split; intros Hr; destruct Hr; constructor; try done; by apply HE. Qed.

Lemma make_context_settles facts (output : Output Origin Loan Point Var Path) : facts_fit facts ->
  settles (fun fuel => make_context fuel facts output) (fun '(ctx, out) => context_of facts ctx /\
    errors out = errors output /\ subset_errors out = subset_errors output /\ dump_enabled out = dump_enabled output /\
    forall p q, q ∈ at_key (move_errors out) p <-> q ∈ at_key (move_errors output) p \/ init_model (init_ctx facts) (cfg_edge facts) (MoveError q p)).
Proof.
  intros (Fc & Fi & Fp & Fu & Fk & Fin & Fpa & Fol). unfold make_context. set (cfg := from_vec (cfg_edge facts)). fold (init_ctx facts) (live_ctx facts).
  assert (Hcfg : forall x, x ∈ cfg <-> x ∈ cfg_edge facts) by (intros x; apply from_vec_in). assert (Scfg : sorted cfg) by apply from_vec_sorted. assert (Fcfg : fits cfg) by by apply fits_from_vec.
  eapply settles_bind; [by apply initialization_settles|]. intros [[partly errs] out1] (Mp & Me & S1). set (out2 := mkOutput _ _ _ _ _ _ _ _ _ _ _ _ _ _ _ _ _).
  assert (Hpa : forall x, x ∈ partly <-> (let '(v, q) := x in init_model (init_ctx facts) (cfg_edge facts) (PartlyInit v q))) by (intros [v q]; rewrite (proj2 Mp (v, q)); by apply init_model_ext).
  assert (Fpartly : fits partly). { eapply fits_pairs; [apply Mp| |exact Fpa]. intros v q Hvq. apply Hpa in Hvq. by apply init_model_partly in Hvq. }
  eapply settles_bind; [by apply (live_origins_settle (live_ctx facts) cfg partly out2 Scfg Fcfg (proj1 Mp) Fpartly)|]. intros [live out3] (Ml & S3).
  assert (Hlive : forall o p, (o, p) ∈ from_vec (make_universal_regions_live live (from_vec (cfg.*1 ++ cfg.*2)) (universal_region facts)) <-> facts_live facts o p).
  { intros o p. rewrite from_vec_in, universal_regions_live, from_vec_in, elem_of_app. unfold facts_live. rewrite (proj2 Ml (o, p)). rewrite (live_model_ext _ cfg (cfg_edge facts) (fun x => x ∈ partly) _ _ Hcfg Hpa).
    assert (Hfm : forall (g : Point * Point -> Point), p ∈ g <$> cfg <-> p ∈ g <$> cfg_edge facts) by (intros g; rewrite !list_elem_of_fmap; split; intros (x & -> & Hx); exists x; (split; [done|by apply Hcfg])). by rewrite !Hfm. }
  assert (Flive : fits (from_vec (make_universal_regions_live live (from_vec (cfg.*1 ++ cfg.*2)) (universal_region facts)))).
  { eapply fits_pairs; [apply from_vec_sorted| |exact Fol]. intros o p Hop. apply Hlive in Hop as [Hm|[Ho Hp]]; rewrite !elem_of_app; [apply live_model_atoms in Hm; tauto|tauto]. }
  set (live' := from_vec (make_universal_regions_live _ _ _)) in *. set (inv := from_vec ((fun '(point, loan) => (loan, point)) <$> loan_invalidated_at facts)). set (ks := from_vec (known_placeholder_subset facts)).
  assert (Hks : forall x, x ∈ ks <-> x ∈ known_placeholder_subset facts) by (intros x; apply from_vec_in).
  eapply settles_bind; [apply (known_contains_settles ks (placeholder facts)), from_vec_sorted|]. intros kc [Skc Mkc]. eapply settles_bind; [by apply (known_subset_settles ks (from_vec_sorted _) (fits_from_vec _ Fk))|]. intros kp [Skp Mkp].
  apply settles_ret. split; [|split_and!].
  - split; [|split; [|split]].
    + unfold ctx_ok. cbn. split_and!; try apply from_vec_sorted; try done; apply fits_from_vec, fits_fmap; done.
    + split_and!; cbn [ctx_inputs facts_inputs i_subset_base i_loan_issued_at i_loan_killed_at i_cfg_edge i_origin_live i_loan_invalidated_at i_placeholder_origin i_known_subset
        c_subset_base c_loan_issued_at c_loan_killed_at c_cfg_edge c_origin_live_on_entry c_loan_invalidated_at c_placeholder_origin c_known_placeholder_subset]; [done|done| |by intros; apply Hcfg|by intros; apply Hlive| | |].
      * intros l p. apply from_vec_in.
      * intros l p. unfold inv. rewrite from_vec_in, list_elem_of_fmap. split; [by intros ([? ?] & [= -> ->] & Hx)|]. intros Hx. by exists (p, l).
      * intros o. rewrite from_vec_in, list_elem_of_fmap. split; [by intros (? & [= ->] & Hx)|]. intros Hx. by exists o.
      * intros o1 o2. rewrite Mkp. by apply known_subset_ext.
    + intros o l. cbn. rewrite from_vec_in, list_elem_of_fmap. split; [by intros ([? ?] & [= -> ->] & Hx)|]. intros Hx. by exists (o, l).
    + intros o l. cbn. rewrite Mkc. by apply known_contains_ext.
  - destruct S3 as (-> & _), S1 as (E1 & _). done.
  - destruct S3 as (_ & -> & _), S1 as (_ & E1 & _). done.
  - destruct S3 as (_ & _ & _ & ->), S1 as (_ & _ & _ & E1). done.
  - intros p q. destruct S3 as (_ & _ & -> & _), S1 as (_ & _ & E1 & _). cbn [move_errors out2]. rewrite push_each_in, E1, (proj2 Me (q, p)), (init_model_ext _ _ _ _ Hcfg). done.
Qed.

Lemma make_context_steady facts (output : Output Origin Loan Point Var Path) : steady (fun fuel => make_context fuel facts output).
Proof.
  unfold make_context. apply steady_bind; [unfold initialization_compute, compute_transitive_paths, compute_move_errors; steady|]. intros [[partly errs] out]. apply steady_bind; [unfold compute_live_origins; steady|]. intros [live out'].
  unfold compute_known_contains, compute_known_placeholder_subset. steady.
Qed.

Lemma make_context_of facts fuel (output out : Output Origin Loan Point Var Path) ctx : facts_fit facts -> make_context fuel facts output = Ret (ctx, out) -> context_of facts ctx.
Proof. intros Hfit Hrun. by destruct (settles_at _ _ fuel (ctx, out) (make_context_settles facts output Hfit) (make_context_steady facts output) Hrun). Qed.

(** ** The pre-pass covers the naive rules *)

(** Every placeholder origin has a placeholder loan, which belongs to no other. *)
Definition placeholders_ok facts : Prop :=
  (forall o, o ∈ universal_region facts -> exists l, (o, l) ∈ placeholder facts) /\ (forall o o' l, (o, l) ∈ placeholder facts -> (o', l) ∈ placeholder facts -> o = o').

Lemma known_contains_origin (base : list (Origin * Origin)) (pl : list (Origin * Loan)) o l : derives (known_contains_rule base pl) keep_all (o, l) ->
  exists o', (o', l) ∈ pl /\ (o' = o \/ derives (known_subset_rule base) keep_all (o', o)).
Proof.
  intros Hd. remember (o, l) as f eqn:Ef. revert o Ef. induction Hd as [prems f Hr _ _ IH]. intros o ->. inversion Hr as [x Hx|o1 o2 l' Hx]; subst; [exists o; auto|].
  destruct (IH _ (list_elem_of_here _ _) o1 eq_refl) as (o' & Ho' & Hk). exists o'. split; [done|right]. destruct Hk as [->|Hk]; [eapply conclude; [by apply ks_base|constructor]|]. eapply conclude; [by apply (ks_step _ o' o1)|by repeat constructor].
Qed.

Lemma ins_conclude ctx prems f : ins_rule ctx prems f -> Forall (ins_model ctx) prems -> ins_model ctx f.
Proof. apply conclude. Qed.

(** What the naive rules derive at a point, the location-insensitive rules derive without it. *)
Lemma ins_covers ctx f : naive_model (ctx_inputs ctx) f ->
  match f with
  | Subset o1 o2 _ => forall l, ins_model ctx (InsContains o1 l) -> ins_model ctx (InsContains o2 l)
  | Contains o l _ => ins_model ctx (InsContains o l)
  | LoanLive l p => exists o, ins_model ctx (InsContains o l) /\ (o, p) ∈ c_origin_live_on_entry ctx
  | Error l p => ins_model ctx (PotentialError l p)
  | SubsetError o1 o2 _ => (forall l, ins_model ctx (InsContains o1 l) -> ins_model ctx (InsContains o2 l)) /\ (o1, tt) ∈ c_placeholder_origin ctx /\ (o2, tt) ∈ c_placeholder_origin ctx /\ (o1, o2) ∉ c_known_placeholder_subset ctx
  | _ => True
  end.
Proof.
  induction 1 as [prems f Hr _ _ IH]. pose proof (proj2 (Forall_forall _ _) IH) as Hp. clear IH. destruct Hr as [o1 o2 p Hx|o1 o2 o3 p|o1 o2 p1 p2 Hx Hy Hz|o l p Hx|o1 o2 l p|o l p1 p2 Hx Hy Hz|o l p Hx|l p Hx|o1 o2 p Hx Hy Hz]; repeat (apply Forall_cons in Hp as [? Hp]); auto.
  - intros l Hl. eapply ins_conclude; [by apply (ins_subset _ o1 o2 p)|by repeat constructor].
  - eapply ins_conclude; [by apply (ins_issued _ o l p)|constructor].
  - eauto.
  - destruct H4 as (o & Ho & Hl). eapply ins_conclude; [by apply (ins_error _ o)|by repeat constructor].
Qed.

Lemma ins_covers_subset_errors facts ctx o1 o2 p : context_of facts ctx -> placeholders_ok facts -> naive_model (ctx_inputs ctx) (SubsetError o1 o2 p) -> o1 <> o2 -> ins_model ctx (PotentialSubsetError o1 o2).
Proof.
  intros (_ & Hin & Hpl & Hkc) [Hex Huniq] Hm Hne. apply ins_covers in Hm as (Hsub & Ho1 & Ho2 & Hk). destruct Hin as (_ & _ & _ & _ & _ & _ & Hpo & Hks). cbn in Hpo, Hks. apply Hpo, Hex in Ho1 as [l Hl].
  eapply ins_conclude; [apply (ins_subset_error _ o1 o2 l); [by apply Hpl|done| |done]|].
  - intros Hc%Hkc. apply known_contains_origin in Hc as (o' & Ho' & Hd). assert (o' = o1) as -> by by apply (Huniq _ _ l). destruct Hd as [?|Hd]; [done|]. apply Hk. by apply Hks.
  - repeat constructor. apply Hsub. eapply ins_conclude; [apply ins_placeholder; by apply Hpl|constructor].
Qed.

(** ** Every variant *)

Lemma enumerates_eq {A} `{Ord A} (l l' : list A) (P : A -> Prop) : enumerates l P -> enumerates l' P -> l = l'.
Proof. intros [Hs Hin] [Hs' Hin']. apply sorted_ext; [done|done|]. intros x. by rewrite Hin, Hin'. Qed.

Lemma compare_errors_refl (errs : FxHashMap Point (list Loan)) : compare_errors errs errs = false.
Proof.
  assert (Hsame : forall l : list Loan, existsb (fun err => negb (existsb (eq_b err) l)) l = false).
  { intros l. apply not_true_iff_false. rewrite existsb_exists. intros (err & Hin & Hn). apply negb_true_iff, not_true_iff_false in Hn. apply Hn, existsb_exists. exists err. split; [done|by apply eq_b_true]. }
  unfold compare_errors. apply not_true_iff_false. rewrite existsb_exists. intros (p & _ & Hp). rewrite !Hsame in Hp. done.
Qed.

(** The errors that the rules document, and those of an output. *)
Definition doc_error facts (e : Loan * Point) : Prop := naive_model (facts_inputs facts) (Error e.1 e.2).
Definition doc_subset_error facts (e : Origin * Origin * Point) : Prop := naive_model (facts_inputs facts) (SubsetError e.1.1 e.1.2 e.2) /\ e.1.1 <> e.1.2.
Definition doc_move_error facts (e : Path * Point) : Prop := init_model (init_ctx facts) (cfg_edge facts) (MoveError e.1 e.2).

Definition run_exact facts (result : Output Origin Loan Point Var Path) : Relation (Loan * Point) * Relation (Origin * Origin * Point) * Output Origin Loan Point Var Path -> Prop :=
  fun '(errs, subset_errs, out) => enumerates errs (doc_error facts) /\ enumerates subset_errs (doc_subset_error facts) /\ same_results result out.

Lemma naive_exact facts ctx result : context_of facts ctx -> settles (fun fuel => naive_compute fuel ctx result) (run_exact facts result).
Proof.
  intros (Hok & Hin & _). eapply settles_mono; [by apply naive_settles|]. intros [[errs serrs] out] (He & Hs & Hr). split; [|split; [|exact Hr]].
  - apply (enumerates_iff _ _ _ He). intros [l p]. rewrite step_model_errors. by apply same_inputs_model.
  - apply (enumerates_iff _ _ _ Hs). intros [[o1 o2] p]. rewrite step_model_subset_errors. unfold doc_subset_error. cbn. by rewrite (same_inputs_model _ _ _ Hin).
Qed.

Lemma opt_exact facts ctx result : context_of facts ctx -> settles (fun fuel => opt_compute fuel ctx result) (run_exact facts result).
Proof.
  intros (Hok & Hin & _). eapply settles_mono; [by apply opt_settles|]. intros [[errs serrs] out] (He & Hs & Hr). split; [|split; [|exact Hr]].
  - apply (enumerates_iff _ _ _ He). intros [l p]. rewrite opt_model_errors. by apply same_inputs_model.
  - apply (enumerates_iff _ _ _ Hs). intros [[o1 o2] p]. rewrite opt_model_subset_errors. unfold doc_subset_error. cbn. by rewrite (same_inputs_model _ _ _ Hin).
Qed.

Lemma same_results_trans (o1 o2 o3 : Output Origin Loan Point Var Path) : same_results o1 o2 -> same_results o2 o3 -> same_results o1 o3.
Proof. intros (? & ? & ? & ?) (? & ? & ? & ?). split_and!; congruence. Qed.

(** The pre-pass reports every documented error; the subset errors only when every placeholder origin has a loan of its
    own. *)
Lemma insensitive_covers facts ctx (result : Output Origin Loan Point Var Path) : context_of facts ctx ->
  settles (fun fuel => insensitive_compute fuel ctx result) (fun '(errs, subset_errs, out) =>
    (forall e, doc_error facts e -> e ∈ errs) /\ (placeholders_ok facts -> forall e, doc_subset_error facts e -> e.1 ∈ subset_errs) /\ sorted errs /\ same_results result out).
Proof.
  intros Hctx. pose proof Hctx as (Hok & Hin & _). eapply settles_mono; [by apply insensitive_settles|]. intros [[errs serrs] out] ([Hs He] & [_ Hse] & Hr). split; [|split; [|split; [done|exact Hr]]].
  - intros [l p] Hd. apply He, (ins_covers ctx (Error l p)). by apply (same_inputs_model _ _ _ Hin).
  - intros Hpl [[o1 o2] p] [Hd Hne]. apply Hse. apply (ins_covers_subset_errors facts ctx o1 o2 p Hctx Hpl); [|done]. by apply (same_inputs_model _ _ _ Hin).
Qed.

(** What a run gives: the documented errors, no subset error that is not documented, and all of these when they are
    looked for ([complete]). *)
Definition run_sound facts (complete : Prop) (result : Output Origin Loan Point Var Path) : Relation (Loan * Point) * Relation (Origin * Origin * Point) * Output Origin Loan Point Var Path -> Prop :=
  fun '(errs, subset_errs, out) => enumerates errs (doc_error facts) /\ (forall e, e ∈ subset_errs -> doc_subset_error facts e) /\ (complete -> forall e, doc_subset_error facts e -> e ∈ subset_errs) /\ same_results result out.

Lemma run_exact_sound facts complete result out r : same_results result out -> run_exact facts out r -> run_sound facts complete result r.
Proof. destruct r as [[errs serrs] out']. intros Hr (He & [_ Hs] & Hr'). split; [done|]. split; [by intros e ?%Hs|]. split; [by intros _ e ?%Hs|]. by eapply same_results_trans. Qed.

Lemma run_algorithm_exact facts ctx from_usize algorithm result : context_of facts ctx -> algorithm <> LocationInsensitive ->
  settles (fun fuel => run_algorithm fuel from_usize algorithm ctx result) (run_sound facts (algorithm = Hybrid -> placeholders_ok facts) result).
Proof.
  intros Hctx Hn. assert (HR : same_results result result) by done. destruct algorithm; cbn [run_algorithm].
  - eapply settles_mono; [by apply naive_exact|]. intros r. by apply run_exact_sound.
  - eapply settles_mono; [by apply opt_exact|]. intros r. by apply run_exact_sound.
  - done.
  - eapply settles_bind; [by apply naive_exact|]. intros [[e1 s1] out1] (He1 & Hs1 & Hr1). eapply settles_bind; [by apply opt_exact|]. intros [[e2 s2] out2] (He2 & _ & Hr2).
    rewrite (enumerates_eq _ _ _ He2 He1), compare_errors_refl. apply settles_ret. by apply (run_exact_sound facts _ result out1 (e1, s1, out2)).
  - eapply settles_bind; [by apply insensitive_covers|]. intros [[e1 s1] out1] (He & Hse & _ & Hr).
    assert (HO : settles (fun fuel => opt_compute fuel ctx out1) (run_sound facts (Hybrid = Hybrid -> placeholders_ok facts) result)).
    { eapply settles_mono; [by apply opt_exact|]. intros r. by apply run_exact_sound. }
    destruct e1 as [|e e1]; [destruct s1 as [|s s1]|]; [|exact HO..]. apply settles_ret. split; [split; [constructor|]; intros x; split; [by intros ?%elem_of_nil|by intros ?%He]|].
    split; [by intros e ?%elem_of_nil|]. split; [|done]. intros Hpl e He'. by apply (Hse (Hpl eq_refl)), elem_of_nil in He'.
Qed.
End Compute.
