(* ===== verification/PoloniusTheorems.v ===== *)
(** * The Polonius borrow checker: what it promises

    The documented rules are an inductive least model ([naive_model], [init_model], [live_model]); [Output::compute]
    reports exactly its errors with every variant but the location-insensitive one, which reports more.  Every loop
    returns: the bound on the fuel is part of each statement ([settles]). *)
From Stdlib Require Import ZArith Lia.
From stdpp Require Import base numbers list relations.
From S2P Require Import Prelude RustSlice Datafrog DatafrogFacts DatafrogLeap DatafrogVar SemiNaive DatafrogProgram Polonius PoloniusLoops PoloniusFlow PoloniusVariants PoloniusNaive PoloniusOpt PoloniusOptLoop PoloniusModel PoloniusCompute.
#[local] Open Scope nat_scope.
Open Scope rust_scope.

Section Promises.
Context {Origin Loan Point Var Path : Type} `{Ord Origin, Ord Loan, Ord Point, Ord Var, Ord Path}.
Implicit Types (facts : AllFacts Origin Loan Point Var Path) (out result : Output Origin Loan Point Var Path) (ctx : Context_ Origin Loan Point).

(** C1: with every algorithm but the location-insensitive one, [Output::compute] returns (for all fuel from some bound
    on, and without panicking) and reports at each point exactly the documented errors: the loans of [errors], the
    paths of [move_error], and the pairs of [subset_error] whose two origins are distinct (a pair of an origin with
    itself, which rule 9 alone would allow, is never reported).  [Hybrid] reports no other subset errors than these
    either, and all of them when each placeholder origin has a placeholder loan that no other has; without such loans
    its pre-pass can miss some. *)
Theorem compute_exact facts (from_usize : Z -> Point) (algorithm : Algorithm) (dump : bool) : facts_fit facts -> algorithm <> LocationInsensitive ->
  settles (fun fuel => compute fuel from_usize facts algorithm dump) (fun out =>
    (forall l p, l ∈ errors_at out p <-> naive_model (facts_inputs facts) (Error l p)) /\
    (forall q p, q ∈ at_key (move_errors out) p <-> init_model (init_ctx facts) (cfg_edge facts) (MoveError q p)) /\
    (forall o1 o2 p, (o1, o2) ∈ at_key (subset_errors out) p -> naive_model (facts_inputs facts) (SubsetError o1 o2 p) /\ o1 <> o2) /\
    ((algorithm = Hybrid -> placeholders_ok facts) ->
      forall o1 o2 p, naive_model (facts_inputs facts) (SubsetError o1 o2 p) -> o1 <> o2 -> (o1, o2) ∈ at_key (subset_errors out) p)).
Proof.
  intros Hfit Hn. eapply settles_bind; [by apply make_context_settles|]. intros [ctx out1] (Hctx & He1 & Hs1 & _ & Hm1).
  eapply settles_bind; [by apply (run_algorithm_exact facts ctx)|]. intros [[errs serrs] out2] ([_ He] & Hs & Hc & (He2 & Hs2 & Hm2 & _)). apply settles_ret. cbn in He1, Hs1.
  assert (HP : forall o1 o2 p, (o1, o2) ∈ at_key (subset_errors (record_errors ctx errs serrs out2)) p <-> (o1, o2, p) ∈ serrs).
  { intros o1 o2 p. cbn [record_errors subset_errors]. rewrite insert_each_in, Hs2, Hs1. unfold at_key at 1. cbn. rewrite elem_of_nil. tauto. }
  split_and!.
  - intros l p. change (errors_at _ p) with (at_key (push_each errs (errors out2)) p). rewrite push_each_in, He2, He1, He. unfold at_key. cbn. rewrite elem_of_nil. tauto.
  - intros q p. cbn [record_errors move_errors]. rewrite Hm2, Hm1. unfold at_key at 1. cbn. rewrite elem_of_nil. tauto.
  - intros o1 o2 p Ho. apply HP, Hs in Ho. exact Ho.
  - intros Hpl o1 o2 p Hd Hne. apply HP. apply (Hc Hpl (o1, o2, p)). by split.
Qed.

(** C2: the optimized variant finds what the naive one does: on the context that [compute] prepares, both return, with
    the same vectors of errors and of subset errors. *)
Theorem optimized_is_naive facts fuel0 result0 out0 ctx result : facts_fit facts -> make_context fuel0 facts result0 = Ret (ctx, out0) ->
  exists bound errs subset_errs out out', forall fuel, bound <= fuel -> naive_compute fuel ctx result = Ret (errs, subset_errs, out) /\ opt_compute fuel ctx result = Ret (errs, subset_errs, out').
Proof.
  intros Hfit Hmake. pose proof (make_context_of _ _ _ _ _ Hfit Hmake) as Hctx. destruct (naive_exact facts ctx result Hctx) as (b1 & [[e1 s1] out1] & H1' & He1 & Hs1 & _). destruct (opt_exact facts ctx result Hctx) as (b2 & [[e2 s2] out2] & H2' & He2 & Hs2 & _).
  exists (b1 `max` b2), e1, s1, out1, out2. intros fuel Hf. rewrite H1', H2' by lia. by rewrite (enumerates_eq _ _ _ He2 He1), (enumerates_eq _ _ _ Hs2 Hs1).
Qed.

(** The location-insensitive variant misses nothing: what it returns has every documented error, and every pair of
    a documented subset error, when each placeholder origin has a loan of its own. *)
Theorem location_insensitive_covers facts fuel0 result0 out0 ctx result : facts_fit facts -> make_context fuel0 facts result0 = Ret (ctx, out0) -> placeholders_ok facts ->
  settles (fun fuel => insensitive_compute fuel ctx result) (fun '(errs, subset_errs, _) =>
    (forall l p, naive_model (facts_inputs facts) (Error l p) -> (l, p) ∈ errs) /\
    (forall o1 o2 p, naive_model (facts_inputs facts) (SubsetError o1 o2 p) -> o1 <> o2 -> (o1, o2) ∈ subset_errs)).
Proof.
  intros Hfit Hmake Hpl. pose proof (make_context_of _ _ _ _ _ Hfit Hmake) as Hctx. eapply settles_mono; [by apply insensitive_covers|]. intros [[errs serrs] out] (He & Hs & _). split; [intros l p Hd; by apply (He (l, p))|]. intros o1 o2 p Hd Hne. by apply (Hs Hpl (o1, o2, p)).
Qed.

(** [initialization::compute] returns the variables that may be partly initialized on exit from each point, and the
    paths that are accessed where they may be uninitialized, exactly as the rules say; the reported results of the
    output do not change. *)
Theorem initialization_exact (ctx : InitializationContext Point Var Path) (cfg_edge : Relation (Point * Point)) result : sorted cfg_edge -> fits cfg_edge -> init_fits ctx ->
  settles (fun fuel => initialization_compute fuel ctx cfg_edge result) (fun '(partly, errs, out) =>
    enumerates partly (fun '(v, p) => init_model ctx cfg_edge (PartlyInit v p)) /\ enumerates errs (fun '(q, p) => init_model ctx cfg_edge (MoveError q p)) /\ same_results result out).
Proof. apply initialization_settles. Qed.

(** [liveness::compute_live_origins] returns exactly the origins of the variables that are use-live, or drop-live
    while partly initialized, on entry to each point. *)
Theorem live_origins_exact (ctx : LivenessContext Origin Point Var) (cfg_edge : Relation (Point * Point)) (partly : Relation (Var * Point)) result : sorted cfg_edge -> fits cfg_edge -> sorted partly -> fits partly ->
  settles (fun fuel => compute_live_origins fuel ctx cfg_edge partly result) (fun '(live, out) =>
    enumerates live (fun '(o, p) => live_model ctx cfg_edge (fun x => x ∈ partly) (OriginLive o p)) /\ same_results result out).
Proof. apply live_origins_settle. Qed.

Lemma known_subset_tc (base : list (Origin * Origin)) o1 o2 : derives (known_subset_rule base) keep_all (o1, o2) <-> tc (fun a b => (a, b) ∈ base) o1 o2.
Proof.
  split.
  - intros Hd. remember (o1, o2) as f eqn:Ef. revert o2 Ef. induction Hd as [prems f Hr _ _ IH]. intros o2 ->. inversion Hr as [x Hx|a b c Hx]; subst; [by apply tc_once|]. eapply tc_r; [|exact Hx]. by apply (IH (o1, b)); [left|].
  - assert (Hrev : forall x y, tc (fun a b => (a, b) ∈ base) x y -> forall w, (w = x \/ derives (known_subset_rule base) keep_all (w, x)) -> derives (known_subset_rule base) keep_all (w, y)); [|intros Ht; apply (Hrev o1 o2 Ht); by left].
    assert (Hstep : forall w x y, (x, y) ∈ base -> (w = x \/ derives (known_subset_rule base) keep_all (w, x)) -> derives (known_subset_rule base) keep_all (w, y)).
    { intros w x y Hxy [->|Hw]; eapply conclude; [by apply ks_base|constructor|by apply (ks_step _ w x y)|by repeat constructor]. }
    induction 1 as [x y Hxy|x y z Hxy Hyz IH]; intros w Hw; [by apply (Hstep w x y)|]. apply IH. right. by apply (Hstep w x y).
Qed.

(** [compute_known_placeholder_subset] returns the transitive closure of the base relation. *)
Theorem known_subset_closure (base : Relation (Origin * Origin)) : sorted base -> fits base ->
  settles (fun fuel => compute_known_placeholder_subset fuel base) (fun r => sorted r /\ forall o1 o2, (o1, o2) ∈ r <-> tc (fun a b => (a, b) ∈ base) o1 o2).
Proof.
  intros Hs Hf. eapply settles_mono; [by apply known_subset_settles|]. intros r [Hr Hin]. split; [done|]. intros o1 o2. rewrite Hin. apply known_subset_tc.
Qed.
End Promises.

(** C32: [Output::compute] returns with every algorithm, the location-insensitive one and the hybrid one included, for
    any facts: the loops of the variants end, and no assertion of theirs fails. *)
Theorem compute_returns {Origin Loan Point Var Path : Type} `{Ord Origin, Ord Loan, Ord Point, Ord Var, Ord Path} (facts : AllFacts Origin Loan Point Var Path) (from_usize : Z -> Point) (algorithm : Algorithm) (dump : bool) : facts_fit facts ->
  exists bound out, forall fuel, bound <= fuel -> compute fuel from_usize facts algorithm dump = Ret out.
Proof.
  intros Hfit. assert (Hs : settles (fun fuel => compute fuel from_usize facts algorithm dump) (fun _ => True)); [|by destruct Hs as (b & r & Hr & _); eauto].
  eapply settles_bind; [by apply make_context_settles|]. intros [ctx out1] (Hctx & _). apply (settles_bind _ _ (fun _ => True)); [|intros [[? ?] ?] _; by apply settles_ret]. pose proof Hctx as (Hok & _).
  assert (Hrun : forall run P, settles (A := Relation (Loan * Point) * Relation (Origin * Origin * Point) * Output Origin Loan Point Var Path) run P -> settles run (fun _ => True)) by (intros run P HP; by apply (settles_mono _ _ _ HP)).
  destruct algorithm; try (eapply Hrun; apply (run_algorithm_exact facts ctx); done); cbn [run_algorithm]; (eapply settles_bind; [by apply insensitive_settles|]); intros [[e1 s1] out2] _. by apply settles_ret.
Qed.

(** ** Witnesses *)

#[local] Open Scope Z_scope.

(** A loan 20 of origin 10 is issued at point 0 and flows into origin 11 of the variable 30, which is used at point 2; it is
    invalidated at point 1.  The path 40 is moved at point 0 and accessed at point 1.  The placeholder origin 1 flows
    into the placeholder origin 2 at point 0. *)
Definition some_facts : AllFacts Z Z Z Z Z :=
  mkFacts [(10, 20, 0)] [1; 2] [(0, 1); (1, 2)] [] [(10, 11, 0); (1, 2, 0)] [(1, 20)] [(30, 2)] [(30, 0)] [] [(30, 11)] [] [] [(40, 30)] [] [(40, 0)] [(40, 1)] [(2, 3)] [(1, 101); (2, 102)].

Lemma some_facts_fit : facts_fit some_facts.
Proof. repeat split; by vm_compute. Qed.

Lemma some_placeholders_ok : placeholders_ok some_facts.
Proof.
  split; [intros o Ho|intros o o' l Ho Ho']; cbn in *; rewrite !elem_of_cons, elem_of_nil in *.
  - destruct Ho as [->|[->|[]]]; [exists 101|exists 102]; rewrite !elem_of_cons; tauto.
  - intuition congruence.
Qed.

Definition empty_output : Output Z Z Z Z Z := Output_new false.

Definition some_context : Context_ Z Z Z :=
  match make_context 30 some_facts empty_output with Ret (ctx, _) => ctx | _ => mkContext [] [] [] [] [] [] [] [] [] [] end.

Definition reported (algorithm : Algorithm) : outcome (list (Z * list Z) * list (Z * list (Z * Z)) * list (Z * list Z)) :=
  let* out := compute 40 (fun z => z) some_facts algorithm false in Ret (errors out, subset_errors out, move_errors out).

(** Every exact variant reports the loan 20 at point 1, the placeholder origins at every point, and the path 40 at point 1. *)
Lemma compute_exact_witness : Forall (fun a => reported a = Ret ([(1, [20])], [(0, [(1, 2)]); (1, [(1, 2)]); (2, [(1, 2)])], [(1, [40])])) [Naive; DatafrogOpt; Compare; Hybrid] /\
  settles (fun fuel => compute fuel (fun z => z) some_facts Hybrid false) (fun out => forall l p, l ∈ errors_at out p <-> naive_model (facts_inputs some_facts) (Error l p)).
Proof.
  split; [by repeat constructor; vm_compute|]. eapply settles_mono; [apply (compute_exact some_facts (fun z => z) Hybrid false); [apply some_facts_fit|done]|]. by intros out [? _].
Defined.

Lemma optimized_is_naive_witness : exists bound errs subset_errs out out', forall fuel, (bound <= fuel)%nat ->
  naive_compute fuel some_context empty_output = Ret (errs, subset_errs, out) /\ opt_compute fuel some_context empty_output = Ret (errs, subset_errs, out').
Proof.
  assert (Hm : exists out0, make_context 30 some_facts empty_output = Ret (some_context, out0)) by (eexists; by vm_compute). destruct Hm as [out0 Hm]. exact (optimized_is_naive some_facts 30 _ out0 some_context empty_output some_facts_fit Hm).
Defined.

Lemma location_insensitive_covers_witness : settles (fun fuel => insensitive_compute fuel some_context empty_output) (fun '(errs, _, _) => forall l p, naive_model (facts_inputs some_facts) (Error l p) -> (l, p) ∈ errs).
Proof.
  assert (Hm : exists out0, make_context 30 some_facts empty_output = Ret (some_context, out0)) by (eexists; by vm_compute). destruct Hm as [out0 Hm].
  eapply settles_mono; [apply (location_insensitive_covers some_facts 30 _ out0 some_context empty_output some_facts_fit Hm some_placeholders_ok)|]. by intros [[errs serrs] out] [? _].
Defined.

Lemma edges_sorted : sorted [(0, 1); (1, 2)].
Proof. assert (E : from_vec [(0, 1); (1, 2)] = [(0, 1); (1, 2)]) by by vm_compute. rewrite <- E. apply from_vec_sorted. Qed.

Lemma initialization_exact_witness : settles (fun fuel => initialization_compute fuel (init_ctx some_facts) [(0, 1); (1, 2)] empty_output) (fun '(_, errs, _) => enumerates errs (fun '(q, p) => init_model (init_ctx some_facts) [(0, 1); (1, 2)] (MoveError q p))).
Proof.
  eapply settles_mono; [apply (initialization_exact (init_ctx some_facts) [(0, 1); (1, 2)] empty_output edges_sorted); [by vm_compute|apply some_facts_fit]|]. by intros [[partly errs] out] (_ & ? & _).
Defined.

Lemma live_origins_exact_witness : settles (fun fuel => compute_live_origins fuel (live_ctx some_facts) [(0, 1); (1, 2)] [] empty_output) (fun '(live, _) => enumerates live (fun '(o, p) => live_model (live_ctx some_facts) [(0, 1); (1, 2)] (fun x => x ∈ []) (OriginLive o p))).
Proof.
  eapply settles_mono; [apply (live_origins_exact (live_ctx some_facts) [(0, 1); (1, 2)] [] empty_output edges_sorted); [by vm_compute|apply sorted_nil|by vm_compute]|]. by intros [live out] [? _].
Defined.

Lemma known_subset_closure_witness : compute_known_placeholder_subset 10 [(0, 1); (1, 2)] = Ret [(0, 1); (0, 2); (1, 2)] /\
  settles (fun fuel => compute_known_placeholder_subset fuel [(0, 1); (1, 2)]) (fun r => sorted r /\ forall o1 o2, (o1, o2) ∈ r <-> tc (fun a b => (a, b) ∈ [(0, 1); (1, 2)]) o1 o2).
Proof. split; [by vm_compute|]. apply (known_subset_closure [(0, 1); (1, 2)] edges_sorted). by vm_compute. Defined.

(** The known loans flow from the first origin of a known subset to the second: with 1 below 2 and 2 below 3, the origin 3 has
    the loan of 1, and 1 does not have the loan of 3. *)
Example known_contains_direction : compute_known_contains 10 [(1, 2); (2, 3)] [(1, 101); (2, 102); (3, 103)] = Ret [(1, 101); (2, 101); (2, 102); (3, 101); (3, 102); (3, 103)].
Proof. by vm_compute. Qed.

Lemma compute_returns_witness : reported LocationInsensitive = Ret ([(1, [20])], [(0, [(1, 2)])], [(1, [40])]) /\ exists bound out, forall fuel, (bound <= fuel)%nat -> compute fuel (fun z => z) some_facts LocationInsensitive false = Ret out.
Proof. split; [by vm_compute|]. apply (compute_returns some_facts (fun z => z) LocationInsensitive false some_facts_fit). Defined.
