(* ===== verification/SourceFile.v ===== *)
(** * Source files

    [src/rustc_span/analyze_source_file.rs] and [SourceFile] in [src/rustc_span/mod.rs]: the table of line starts
    and multi-byte characters of a text, which the vector paths compute sixteen bytes at a time; the removal of a
    byte order mark and of the carriage returns of line endings, with the positions that record it; positions, lines
    and columns of a file; the difference lists in which metadata stores the lines.

    Positions are [u32]s with their wrap-around, offsets into a slice are [nat].  The locks around [lines] only
    order the conversion of a difference list, which is done in place here; hashes and names are left out. *)
From Stdlib Require Import ZArith Lia.
From stdpp Require Import base numbers list option.
From S2P Require Import Prelude RustStr RustSlice Swar.
#[local] Open Scope Z_scope.
#[local] Open Scope rust_scope.

Definition CR : Z := 13.
Definition BOM : Z := 0xFEFF.

(** [RelativeBytePos::from_usize] and the sum of two positions. *)
Definition pos_from_usize (n : nat) : Z := wrap_u32 (Z.of_nat n).
Definition pos_add (a b : Z) : Z := wrap_u32 (a + b).

Record MultiByteChar : Type := mkMultiByte { mbc_pos : Z; mbc_bytes : Z }.
Record NormalizedPos : Type := mkNormalized { np_pos : Z; np_diff : Z }.

#[export] Instance MultiByteChar_eq_dec : EqDecision MultiByteChar.
Proof. solve_decision. Defined.
#[export] Instance NormalizedPos_eq_dec : EqDecision NormalizedPos.
Proof. solve_decision. Defined.

(** What a scan pushes to: the line starts and the multi-byte characters. *)
Definition Tables : Type := list Z * list MultiByteChar.

(** ** [analyze_source_file.rs] *)

(** The loop of [analyze_source_file_generic] at offset [i]; the result is the offset at which it ends. *)
Fixpoint generic_loop (fuel : nat) (src : str) (scan_len : nat) (output_offset : Z) (i : nat) (out : Tables) : outcome (nat * Tables) :=
  match fuel with
  | O => OutOfFuel
  | S fuel =>
      if (i <? scan_len)%nat then
        let* byte := unwrap (as_bytes src !! i) in
        let pos := pos_add (pos_from_usize i) output_offset in
        if byte =? NEWLINE then
          generic_loop fuel src scan_len output_offset (i + 1) (out.1 ++ [pos_add pos 1], out.2)
        else if 128 <=? byte then
          let* rest := unwrap (str_from i src) in
          let* c := unwrap (head rest) in
          let char_len := len_utf8 c in
          let* _ := assert_that ((2 <=? char_len)%nat && (char_len <=? 4)%nat) in
          generic_loop fuel src scan_len output_offset (i + char_len) (out.1, out.2 ++ [mkMultiByte pos (Z.of_nat char_len)])
        else generic_loop fuel src scan_len output_offset (i + 1) out
      else Ret (i, out)
  end.

Definition analyze_source_file_generic (src : str) (scan_len : nat) (output_offset : Z) (out : Tables) : outcome (nat * Tables) :=
  let* _ := assert_that (scan_len <=? str_len src)%nat in
  let* '(i, out) := generic_loop (S scan_len) src scan_len output_offset 0 out in
  Ret ((i - scan_len)%nat, out).

Definition CHUNK_SIZE : nat := 16.

(** [mask & (mask - 1)] until nothing is left, with the positions of the bits. *)
Fixpoint mask_bits (fuel : nat) (index : Z -> nat) (mask : Z) : outcome (list nat) :=
  match fuel with
  | O => OutOfFuel
  | S fuel =>
      if mask =? 0 then Ret []
      else let* rest := mask_bits fuel index (Z.land mask (mask - 1)) in Ret (index mask :: rest)
  end.

(** The SSE2 intrinsics: a vector is its sixteen bytes. *)
Definition as_i8 (b : Z) : Z := if b <? 128 then b else b - 256.
Definition cmplt_epi8 (a b : list Z) : list Z := zip_with (fun x y => if as_i8 x <? as_i8 y then 255 else 0) a b.
Definition cmpeq_epi8 (a b : list Z) : list Z := zip_with (fun x y => if x =? y then 255 else 0) a b.
Definition set1_epi8 (b : Z) : list Z := replicate CHUNK_SIZE b.
Fixpoint movemask_epi8 (v : list Z) : Z :=
  match v with [] => 0 | b :: v => Z.shiftr b 7 + 2 * movemask_epi8 v end.

Definition sse2_is_ascii (chunk : list Z) : bool := movemask_epi8 (cmplt_epi8 chunk (set1_epi8 0)) =? 0.
Definition sse2_newlines (chunk : list Z) : outcome (list nat) :=
  mask_bits 65 trailing_zeros (movemask_epi8 (cmpeq_epi8 chunk (set1_epi8 NEWLINE))).

(** The NEON intrinsics. *)
Definition vmaxvq_u8 (v : list Z) : Z := foldr Z.max 0 v.
Definition vceqq_u8 (a b : list Z) : list Z := zip_with (fun x y => if x =? y then 255 else 0) a b.
(** [vshrn_n_u16::<4>] of the bytes read as little-endian [u16]s: each shifted right by four and cut to a byte. *)
Fixpoint vshrn_4 (v : list Z) : list Z :=
  match v with
  | a :: b :: v => wrap_u8 (Z.shiftr (a + 256 * b) 4) :: vshrn_4 v
  | _ => []
  end.

Definition neon_is_ascii (chunk : list Z) : bool := vmaxvq_u8 chunk <? 0x80.
Definition neon_newlines (chunk : list Z) : outcome (list nat) :=
  mask_bits 65 (fun mask => trailing_zeros mask / 4)%nat
    (Z.land (from_le_bytes (vshrn_4 (vceqq_u8 chunk (set1_epi8 NEWLINE)))) 0x8888888888888888).

(** The loop over the chunks, which both vector paths share: an all-ASCII chunk has its newlines taken from a mask,
    another one is decoded, and a character that runs into the next chunk moves its start. *)
Section Chunks.
Context (is_ascii_chunk : list Z -> bool) (newline_indexes : list Z -> outcome (list nat)).

Fixpoint chunk_loop (src : str) (chunks chunk_index intra_chunk_offset : nat) (out : Tables) : outcome (nat * Tables) :=
  match chunks with
  | O => Ret (intra_chunk_offset, out)
  | S chunks =>
      let chunk := take CHUNK_SIZE (drop (chunk_index * CHUNK_SIZE) (as_bytes src)) in
      if is_ascii_chunk chunk then
        let* _ := assert_that (intra_chunk_offset =? 0)%nat in
        let output_offset := pos_from_usize (chunk_index * CHUNK_SIZE + 1) in
        let* indexes := newline_indexes chunk in
        chunk_loop src chunks (S chunk_index) intra_chunk_offset
          (out.1 ++ ((fun index : nat => pos_add (Z.of_nat index) output_offset) <$> indexes), out.2)
      else
        let scan_start := (chunk_index * CHUNK_SIZE + intra_chunk_offset)%nat in
        let* rest := unwrap (str_from scan_start src) in
        let* '(overflow, out) := analyze_source_file_generic rest (CHUNK_SIZE - intra_chunk_offset) (pos_from_usize scan_start) out in
        chunk_loop src chunks (S chunk_index) overflow out
  end.

Definition analyze_source_file_chunks (src : str) (out : Tables) : outcome Tables :=
  let len := str_len src in
  let* '(intra_chunk_offset, out) := chunk_loop src (len / CHUNK_SIZE) 0 0 out in
  let tail_start := (len - len mod CHUNK_SIZE + intra_chunk_offset)%nat in
  if (tail_start <? len)%nat then
    let* rest := unwrap (str_from tail_start src) in
    let* '(_, out) := analyze_source_file_generic rest (len - tail_start) (pos_from_usize tail_start) out in
    Ret out
  else Ret out.
End Chunks.

(** [analyze_source_file_dispatch] on the targets it is compiled for. *)
Inductive Dispatch : Type := Sse2 | Neon | Scalar.
Definition analyze_source_file_dispatch (target : Dispatch) (src : str) (out : Tables) : outcome Tables :=
  match target with
  | Sse2 => analyze_source_file_chunks sse2_is_ascii sse2_newlines src out
  | Neon => analyze_source_file_chunks neon_is_ascii neon_newlines src out
  | Scalar => let* '(_, out) := analyze_source_file_generic src (str_len src) 0 out in Ret out
  end.

Definition analyze_source_file (target : Dispatch) (src : str) : outcome Tables :=
  let* '(lines, multi_byte_chars) := analyze_source_file_dispatch target src ([0], []) in
  match list.last lines with
  | Some last_line_start =>
      let source_file_end := pos_from_usize (str_len src) in
      let* _ := assert_that (last_line_start <=? source_file_end) in
      Ret (if last_line_start =? source_file_end then removelast lines else lines, multi_byte_chars)
  | None => Ret (lines, multi_byte_chars)
  end.

(** ** Normalization *)

(** [String::from_utf8_unchecked], for bytes that are the encoding of a text. *)
Fixpoint from_utf8_unchecked (bytes : list Z) : str :=
  match bytes with
  | [] => []
  | a :: l =>
      if a <? 0x80 then a :: from_utf8_unchecked l
      else match l with
           | b :: l =>
               if a <? 0xE0 then Z.lor (Z.shiftl (Z.land a 0x1F) 6) (Z.land b 0x3F) :: from_utf8_unchecked l
               else match l with
                    | c :: l =>
                        if a <? 0xF0 then Z.lor (Z.shiftl (Z.land a 0x0F) 12) (Z.lor (Z.shiftl (Z.land b 0x3F) 6) (Z.land c 0x3F)) :: from_utf8_unchecked l
                        else match l with
                             | d :: l => Z.lor (Z.shiftl (Z.land a 0x07) 18) (Z.lor (Z.shiftl (Z.land b 0x3F) 12) (Z.lor (Z.shiftl (Z.land c 0x3F) 6) (Z.land d 0x3F))) :: from_utf8_unchecked l
                             | [] => []
                             end
                    | [] => []
                    end
           | [] => []
           end
  end.

Definition has_bom (src : str) : bool := match src with c :: _ => c =? BOM | [] => false end.

(** [src.as_bytes().contains(&b'\r')], and [src.contains] of a carriage return and a line feed. *)
Definition has_cr (src : str) : bool := existsb (fun b => b =? CR) (as_bytes src).
Definition has_crlf (src : str) : bool := match str_find [CR; NEWLINE] src with Some _ => true | None => false end.
Definition needs_normalization (src : str) : bool := has_bom src || (has_cr src && has_crlf src).

Definition remove_bom (src : str) (normalized_pos : list NormalizedPos) : outcome (str * list NormalizedPos) :=
  if has_bom src then
    let* src := unwrap (str_from 3 src) in Ret (src, normalized_pos ++ [mkNormalized 0 3])
  else Ret (src, normalized_pos).

Definition find_cr (src : list Z) : option nat := position (fun b => b =? CR) src.

(** The loop of [find_crlf]. *)
Fixpoint find_crlf_from (fuel : nat) (src : list Z) (search_idx : nat) : outcome (option nat) :=
  match fuel with
  | O => OutOfFuel
  | S fuel =>
      let rest := drop search_idx src in
      match find_cr rest with
      | None => Ret None
      | Some idx =>
          if bool_decide (rest !! (idx + 1)%nat = Some NEWLINE) then Ret (Some (search_idx + idx)%nat)
          else find_crlf_from fuel src (search_idx + (idx + 1))
      end
  end.
Definition find_crlf (src : list Z) : outcome (option nat) := find_crlf_from (S (length src)) src 0.

(** The loop that closes the gaps: [done] is the part of the buffer before [tail]. *)
Fixpoint gap_loop (fuel : nat) (done tail : list Z) (gap_len cursor : nat) (original_gap : Z) (normalized_pos : list NormalizedPos)
    : outcome (list Z * nat * list NormalizedPos) :=
  match fuel with
  | O => OutOfFuel
  | S fuel =>
      let* found := find_crlf (drop gap_len tail) in
      let idx := match found with None => length tail | Some idx => (idx + gap_len)%nat end in
      let moved := take (idx - gap_len) (drop gap_len tail) in
      let tail := moved ++ drop (idx - gap_len) tail in        (* [tail.copy_within(gap_len..idx, 0)] *)
      let done := done ++ take (idx - gap_len) tail in
      let tail := drop (idx - gap_len) tail in
      if (length tail =? gap_len)%nat then Ret (done ++ tail, gap_len, normalized_pos)
      else
        let cursor := (cursor + (idx - gap_len))%nat in
        let gap_len := S gap_len in
        gap_loop fuel done tail gap_len cursor original_gap
          (normalized_pos ++ [mkNormalized (pos_from_usize (cursor + 1)) (wrap_u32 (original_gap + wrap_u32 (Z.of_nat gap_len)))])
  end.

Definition normalize_newlines (src : str) (normalized_pos : list NormalizedPos) : outcome (str * list NormalizedPos) :=
  if negb (has_cr src) then Ret (src, normalized_pos)
  else
    let buf := as_bytes src in
    let original_gap := match list.last normalized_pos with Some l => np_diff l | None => 0 end in
    let* '(buf, gap_len, normalized_pos) := gap_loop (S (length buf)) [] buf 0 0 original_gap normalized_pos in
    Ret (from_utf8_unchecked (take (length buf - gap_len) buf), normalized_pos).

Definition normalize_src (src : str) : outcome (str * list NormalizedPos) :=
  let* '(src, normalized_pos) := remove_bom src [] in normalize_newlines src normalized_pos.

(** ** [SourceFile] *)

Record SourceFileDiffs : Type := mkDiffs { bytes_per_diff : nat; num_diffs : nat; raw_diffs : list Z }.
Inductive SourceFileLines : Type := Lines (lines : list Z) | Diffs (diffs : SourceFileDiffs).

(** The text of a file of another crate, loaded when it is asked for. *)
Inductive ExternalSourceKind : Type := Present (src : str) | AbsentOk | AbsentErr.
Inductive ExternalSource : Type := Unneeded | Foreign (kind : ExternalSourceKind) (metadata_index : Z).
Definition get_source (self : ExternalSource) : option str :=
  match self with Foreign (Present src) _ => Some src | _ => None end.

Record SourceFile : Type := mkFile {
  file_src : option str;
  external_src : ExternalSource;
  start_pos : Z;
  normalized_source_len : Z;
  unnormalized_source_len : Z;
  file_lines : SourceFileLines;
  multibyte_chars : list MultiByteChar;
  normalized_pos : list NormalizedPos
}.

Definition MAX_FILE_SIZE : Z := u32_max - 1.

(** [SourceFile::new]; [None] is [OffsetOverflowError]. *)
Definition source_file_new (target : Dispatch) (src : str) : outcome (option SourceFile) :=
  let unnormalized_source_len := Z.of_nat (str_len src) in
  if MAX_FILE_SIZE <? unnormalized_source_len then Ret None
  else
    let* '(src, normalized_pos) := if needs_normalization src then normalize_src src else Ret (src, []) in
    let normalized_source_len := Z.of_nat (str_len src) in
    if MAX_FILE_SIZE <? normalized_source_len then Ret None
    else
      let* '(lines, multibyte_chars) := analyze_source_file target src in
      Ret (Some (mkFile (Some src) Unneeded 0 normalized_source_len unnormalized_source_len (Lines lines) multibyte_chars normalized_pos)).

(** [convert_diffs_to_lines_frozen] and [lines]. *)
Fixpoint le_diffs (bytes_per_diff : nat) (n : nat) (raw : list Z) : list Z :=
  match n with
  | O => []
  | S n => from_le_bytes (take bytes_per_diff raw) :: le_diffs bytes_per_diff n (drop bytes_per_diff raw)
  end.
Fixpoint line_starts (line_start : Z) (diffs : list Z) : list Z :=
  match diffs with
  | [] => []
  | diff :: diffs => let line_start := pos_add line_start diff in line_start :: line_starts line_start diffs
  end.
Definition convert_diffs_to_lines (diffs : SourceFileDiffs) : outcome (list Z) :=
  let* _ := assert_that (num_diffs diffs =? length (raw_diffs diffs) / bytes_per_diff diffs)%nat in
  match bytes_per_diff diffs with
  | 1%nat => Ret (0 :: line_starts 0 (raw_diffs diffs))
  | 2%nat | 4%nat => Ret (0 :: line_starts 0 (le_diffs (bytes_per_diff diffs) (num_diffs diffs) (raw_diffs diffs)))
  | _ => Panic
  end.
Definition lines (self : SourceFile) : outcome (list Z) :=
  match file_lines self with Lines lines => Ret lines | Diffs diffs => convert_diffs_to_lines diffs end.

Definition absolute_position (self : SourceFile) (pos : Z) : Z := wrap_u32 (pos + start_pos self).
Definition relative_position (self : SourceFile) (pos : Z) : Z := wrap_u32 (pos - start_pos self).
Definition end_position (self : SourceFile) : Z := absolute_position self (normalized_source_len self).
Definition file_contains (self : SourceFile) (byte_pos : Z) : bool := (start_pos self <=? byte_pos) && (byte_pos <=? end_position self).
Definition file_is_empty (self : SourceFile) : bool := normalized_source_len self =? 0.
Definition is_imported (self : SourceFile) : bool := match file_src self with None => true | Some _ => false end.
Definition count_lines (self : SourceFile) : outcome nat := let* ls := lines self in Ret (length ls).

Definition lookup_line (self : SourceFile) (pos : Z) : outcome (option nat) :=
  let* ls := lines self in
  Ret (match partition_point (fun x => x <=? pos) ls with O => None | S n => Some n end).

Definition line_begin_pos (self : SourceFile) (pos : Z) : outcome Z :=
  let* found := lookup_line self (relative_position self pos) in
  let* line_index := unwrap found in
  let* ls := lines self in
  let* line_start_pos := unwrap (ls !! line_index) in
  Ret (absolute_position self line_start_pos).

Definition line_bounds (self : SourceFile) (line_index : nat) : outcome (Z * Z) :=
  if file_is_empty self then Ret (start_pos self, start_pos self)
  else
    let* ls := lines self in
    let* _ := assert_that (line_index <? length ls)%nat in
    let* start := unwrap (ls !! line_index) in
    if (line_index =? length ls - 1)%nat then Ret (absolute_position self start, end_position self)
    else let* next := unwrap (ls !! S line_index) in Ret (absolute_position self start, absolute_position self next).

(** [get_line]; [slice.find] of a newline ends the line. *)
Definition get_until_newline (src : str) (begin : nat) : outcome str :=
  let* slice := unwrap (str_from begin src) in
  match str_find [NEWLINE] slice with
  | Some e => unwrap (str_to e slice)
  | None => Ret slice
  end.
Definition get_line (self : SourceFile) (line_number : nat) : outcome (option str) :=
  let* ls := lines self in
  match ls !! line_number with
  | None => Ret None
  | Some line =>
      match file_src self with
      | Some src => let* text := get_until_newline src (Z.to_nat line) in Ret (Some text)
      | None =>
          match get_source (external_src self) with
          | Some src => let* text := get_until_newline src (Z.to_nat line) in Ret (Some text)
          | None => Ret None
          end
      end
  end.

(** The difference recorded by a search; a search returns indices of the vector. *)
Definition diff_at (self : SourceFile) (found : nat + nat) : Z :=
  match found with
  | inl i => default 0 (np_diff <$> normalized_pos self !! i)
  | inr O => 0
  | inr (S i) => default 0 (np_diff <$> normalized_pos self !! i)
  end.

Definition original_relative_byte_pos (self : SourceFile) (pos : Z) : Z :=
  let pos := relative_position self pos in
  let diff := diff_at self (binary_search_by (fun np => np_pos np ?= pos) (normalized_pos self)) in
  wrap_u32 (pos + diff).

Definition normalized_byte_pos (self : SourceFile) (offset : Z) : Z :=
  let diff := diff_at self (binary_search_by (fun np => wrap_u32 (np_pos np + np_diff np) ?= offset) (normalized_pos self)) in
  wrap_u32 (wrap_u32 (start_pos self + offset) - diff).

(** [bytepos_to_file_charpos]. *)
Fixpoint count_extra_bytes (mbcs : list MultiByteChar) (bpos total_extra_bytes : Z) : outcome Z :=
  match mbcs with
  | [] => Ret total_extra_bytes
  | mbc :: mbcs =>
      if mbc_pos mbc <? bpos then
        let* _ := assert_that (wrap_u32 (mbc_pos mbc + mbc_bytes mbc) <=? bpos) in
        count_extra_bytes mbcs bpos (wrap_u32 (total_extra_bytes + (mbc_bytes mbc - 1)))
      else Ret total_extra_bytes
  end.
Definition bytepos_to_file_charpos (self : SourceFile) (bpos : Z) : outcome Z :=
  let* total_extra_bytes := count_extra_bytes (multibyte_chars self) bpos 0 in
  let* _ := assert_that (total_extra_bytes <=? bpos) in
  Ret (bpos - total_extra_bytes).

(** The line, from 1, and the column in characters, from 0. *)
Definition lookup_file_pos (self : SourceFile) (pos : Z) : outcome (nat * Z) :=
  let* chpos := bytepos_to_file_charpos self pos in
  let* found := lookup_line self pos in
  match found with
  | Some a =>
      let* ls := lines self in
      let* linebpos := unwrap (ls !! a) in
      let* linechpos := bytepos_to_file_charpos self linebpos in
      let* _ := assert_that (linechpos <=? chpos) in
      Ret (S a, chpos - linechpos)
  | None => Ret (O, chpos)
  end.

(** [char_width]; the widths of [unicode_width] are an argument. *)
Definition REPLACED : list Z :=
  [0x00; 0x01; 0x02; 0x03; 0x04; 0x05; 0x06; 0x07; 0x08; 0x0B; 0x0C; 0x0D; 0x0E; 0x0F; 0x10; 0x11; 0x12; 0x13;
   0x14; 0x15; 0x16; 0x17; 0x18; 0x19; 0x1A; 0x1B; 0x1C; 0x1D; 0x1E; 0x1F; 0x7F; 0x202A; 0x202B; 0x202D; 0x202E;
   0x2066; 0x2067; 0x2068; 0x202C; 0x2069].
Definition char_width (unicode_width : Z -> option Z) (ch : Z) : Z :=
  if ch =? 9 then 4 else if bool_decide (ch ∈ REPLACED) then 1 else default 1 (unicode_width ch).
Definition str_width (unicode_width : Z -> option Z) (s : str) : Z := foldr (fun ch sum => char_width unicode_width ch + sum) 0 s.

Definition lookup_file_pos_with_col_display (unicode_width : Z -> option Z) (self : SourceFile) (pos : Z) : outcome (nat * Z * Z) :=
  let pos := relative_position self pos in
  let* '(line, col_or_chpos) := lookup_file_pos self pos in
  match line with
  | S line_index =>
      let* code := get_line self line_index in
      match code with
      | None => Ret (line, col_or_chpos, col_or_chpos)
      | Some code => Ret (line, col_or_chpos, str_width unicode_width (take (Z.to_nat col_or_chpos) code))
      end
  | O => Ret (O, col_or_chpos, col_or_chpos)
  end.

(** ** Lines in metadata *)

Fixpoint windows (lines : list Z) : list Z :=
  match lines with a :: (b :: _) as rest => wrap_u32 (b - a) :: windows rest | _ => [] end.

(** What [Encodable for SourceFile] emits for the lines after their number: the bytes of a difference and the raw
    differences. *)
Definition encode_lines (lines : list Z) : outcome (option (nat * list Z)) :=
  match lines with
  | [] => Ret None
  | first :: _ =>
      let diffs := windows lines in
      let max_line_length := foldr Z.max 0 diffs in
      let bytes_per_diff := if max_line_length <=? 0xFF then 1%nat else if max_line_length <=? 0xFFFF then 2%nat else 4%nat in
      let* _ := assert_that (first =? 0) in
      Ret (Some (bytes_per_diff, concat (to_le_bytes bytes_per_diff <$> diffs)))
  end.

(** What [Decodable for SourceFile] makes of it; [read_raw_bytes] panics when the bytes run out. *)
Definition decode_lines (num_lines : nat) (stored : option (nat * list Z)) : outcome SourceFileLines :=
  match num_lines with
  | O => Ret (Lines [])
  | S num_diffs =>
      let* '(bytes_per_diff, raw) := unwrap stored in
      let* _ := assert_that (bytes_per_diff * num_diffs <=? length raw)%nat in
      Ret (Diffs (mkDiffs bytes_per_diff num_diffs (take (bytes_per_diff * num_diffs) raw)))
  end.
