(* ===== verification/SourceFacts.v ===== *)
(** * Source files: the scan, and the tables of a file *)
From Stdlib Require Import ZArith Lia Sorted.
From stdpp Require Import base numbers list option.
From S2P Require Import Prelude RustStr RustSlice Swar SourceFile.
#[local] Open Scope Z_scope.
#[local] Open Scope rust_scope.

(** ** The scans

    The table of lines and multi-byte characters, defined character by character ([line_table], [multi_byte_table]), and
    that the generic scan and both vector paths compute it. *)

(** *** The tables *)

(** The positions right after the newlines of a text that starts at [offset], and its characters of several bytes. *)
Fixpoint newline_table (s : str) (offset : Z) : list Z :=
  match s with
  | [] => []
  | c :: s => (if c =? NEWLINE then [offset + 1] else []) ++ newline_table s (offset + Z.of_nat (len_utf8 c))
  end.
Fixpoint multi_byte_table (s : str) (offset : Z) : list MultiByteChar :=
  match s with
  | [] => []
  | c :: s => (if is_ascii c then [] else [mkMultiByte offset (Z.of_nat (len_utf8 c))]) ++ multi_byte_table s (offset + Z.of_nat (len_utf8 c))
  end.

Definition extend (out : Tables) (s : str) (offset : Z) : Tables := (out.1 ++ newline_table s offset, out.2 ++ multi_byte_table s offset).

Lemma newline_table_app s1 s2 o : newline_table (s1 ++ s2) o = newline_table s1 o ++ newline_table s2 (o + Z.of_nat (str_len s1)).
Proof.
  revert o. induction s1 as [|c s1 IH]; intros o; simpl; [by rewrite Z.add_0_r|]. rewrite IH, <- app_assoc. by rewrite Nat2Z.inj_add, Z.add_assoc.
Qed.
Lemma multi_byte_table_app s1 s2 o : multi_byte_table (s1 ++ s2) o = multi_byte_table s1 o ++ multi_byte_table s2 (o + Z.of_nat (str_len s1)).
Proof.
  revert o. induction s1 as [|c s1 IH]; intros o; simpl; [by rewrite Z.add_0_r|]. rewrite IH, <- app_assoc. by rewrite Nat2Z.inj_add, Z.add_assoc.
Qed.

Lemma extend_app out s1 s2 o : extend out (s1 ++ s2) o = extend (extend out s1 o) s2 (o + Z.of_nat (str_len s1)).
Proof. unfold extend. simpl. by rewrite newline_table_app, multi_byte_table_app, !app_assoc. Qed.
Lemma extend_nil out o : extend out [] o = out.
Proof. unfold extend. destruct out. simpl. by rewrite !app_nil_r. Qed.

(** *** The generic scan *)

(** The characters that start in the first [n] bytes. *)
Fixpoint chars_to (n : nat) (s : str) : str :=
  match n, s with
  | O, _ | _, [] => []
  | _, c :: s => c :: chars_to (n - len_utf8 c) s
  end.

Lemma chars_to_prefix n s : exists rest, s = chars_to n s ++ rest.
Proof.
  revert n. induction s as [|c s IH]; intros [|n]; simpl; try by eexists. destruct (IH (S n - len_utf8 c)%nat) as [rest Hr]. exists rest. by rewrite Hr at 1.
Qed.

Lemma chars_to_len n s : (n <= str_len s)%nat -> (n <= str_len (chars_to n s))%nat.
Proof.
  revert n. induction s as [|c s IH]; intros [|n]; simpl; try lia. intros Hn. pose proof (len_utf8_pos c). specialize (IH (S n - len_utf8 c)%nat). lia.
Qed.

Lemma chars_to_all s : chars_to (str_len s) s = s.
Proof.
  destruct (chars_to_prefix (str_len s) s) as [rest Hr]. pose proof (chars_to_len (str_len s) s (le_n _)) as Hc. destruct rest as [|c rest]; [by rewrite app_nil_r in Hr|].
  apply (f_equal str_len) in Hr. rewrite str_len_app in Hr. simpl in Hr. pose proof (len_utf8_pos c). lia.
Qed.

(** When they end past [n], the last one runs over it. *)
Lemma chars_to_over n s : (n < str_len (chars_to n s))%nat ->
  exists t c, chars_to n s = t ++ [c] /\ (str_len t < n < str_len t + len_utf8 c)%nat.
Proof.
  revert n. induction s as [|c s IH]; intros [|n]; simpl; try lia. intros Hn. pose proof (len_utf8_pos c).
  destruct (decide (len_utf8 c < S n)%nat) as [Hc|Hc].
  - destruct (IH (S n - len_utf8 c)%nat) as (t & d & -> & ?); [lia|]. exists (c :: t), d. split; [done|]. simpl. lia.
  - replace (S n - len_utf8 c)%nat with 0%nat in * by lia. assert (E : chars_to 0 s = []) by (by destruct s). rewrite E in *. simpl in Hn. exists [], c. split; [done|]. simpl. lia.
Qed.

Lemma as_bytes_at s1 c s : as_bytes (s1 ++ c :: s) !! str_len s1 = Some (hd 0 (encode_utf8 c)).
Proof.
  rewrite as_bytes_app. rewrite lookup_app_r by (rewrite length_as_bytes; lia). rewrite length_as_bytes, Nat.sub_diag. simpl.
  pose proof (length_encode_utf8 c). pose proof (len_utf8_pos c). destruct (encode_utf8 c); [simpl in *; lia|done].
Qed.

Lemma first_byte_ascii c : is_ascii c = true -> hd 0 (encode_utf8 c) = c.
Proof. intros H. by rewrite encode_utf8_ascii. Qed.

Lemma first_byte_high c : is_scalar c = true -> is_ascii c = false -> 128 <= hd 0 (encode_utf8 c).
Proof.
  intros Hs Ha. pose proof (length_encode_utf8 c) as HL. pose proof (len_utf8_pos c). apply (encode_utf8_high c); try done.
  destruct (encode_utf8 c); [simpl in *; lia|]. left.
Qed.

Lemma len_utf8_multi c : is_ascii c = false -> (2 <= len_utf8 c <= 4)%nat.
Proof. unfold is_ascii, len_utf8. intros ->. destruct (c <? 2048), (c <? 65536); lia. Qed.

Lemma pos_exact i off : 0 <= off -> Z.of_nat i + off <= u32_max -> pos_add (pos_from_usize i) off = Z.of_nat i + off.
Proof.
  intros ? ?. unfold pos_add, pos_from_usize, wrap_u32, u32_max in *. rewrite (Z.mod_small (Z.of_nat i)) by lia. apply Z.mod_small. lia.
Qed.
Lemma pos_succ p : 0 <= p < u32_max -> pos_add p 1 = p + 1.
Proof. intros ?. apply Z.mod_small. unfold u32_max in *. lia. Qed.

Lemma generic_loop_ok src scan_len off fuel s1 s out :
  src = s1 ++ s -> wf_str s -> (scan_len <= str_len src)%nat -> 0 <= off -> Z.of_nat (str_len src) + off <= MAX_FILE_SIZE ->
  (scan_len - str_len s1 < fuel)%nat ->
  generic_loop fuel src scan_len off (str_len s1) out
    = Ret ((str_len s1 + str_len (chars_to (scan_len - str_len s1) s))%nat, extend out (chars_to (scan_len - str_len s1) s) (off + Z.of_nat (str_len s1))).
Proof.
  intros -> Hw Hlen Hoff Hmax. unfold MAX_FILE_SIZE in Hmax. revert s1 s out Hw Hlen Hmax. induction fuel as [|fuel IH]; intros s1 s out Hw Hlen Hmax Hf; [lia|].
  cbn [generic_loop]. destruct (Nat.ltb_spec (str_len s1) scan_len) as [Hi|Hi].
  2:{ replace (scan_len - str_len s1)%nat with 0%nat by lia. assert (E : chars_to 0 s = []) by (by destruct s). rewrite E, extend_nil. simpl. by rewrite Nat.add_0_r. }
  destruct s as [|c s]; [rewrite app_nil_r in Hlen; lia|]. inversion_clear Hw as [|? ? Hc Hws]. rewrite as_bytes_at. cbn [unwrap obind].
  rewrite str_len_app in *. simpl in Hlen, Hmax. pose proof (len_utf8_pos c) as Hpos. unfold u32_max in *.
  rewrite (pos_exact (str_len s1) off) by (unfold u32_max; lia).
  assert (HS : forall d, (scan_len - str_len s1)%nat <> 0%nat -> chars_to (scan_len - str_len s1) (d :: s) = d :: chars_to (scan_len - str_len s1 - len_utf8 d) s)
    by (intros d Hd; by destruct (scan_len - str_len s1)%nat).
  rewrite HS by lia. specialize (IH (s1 ++ [c]) s). rewrite <- app_assoc in IH. cbn [app] in IH. rewrite !str_len_app in IH. cbn [str_len] in IH.
  rewrite Nat.add_0_r in IH. replace (scan_len - (str_len s1 + len_utf8 c))%nat with (scan_len - str_len s1 - len_utf8 c)%nat in IH by lia.
  cbn [str_len]. rewrite Nat.add_assoc.
  assert (HX : forall o, extend o (c :: chars_to (scan_len - str_len s1 - len_utf8 c) s) (off + Z.of_nat (str_len s1))
    = extend (extend o [c] (off + Z.of_nat (str_len s1))) (chars_to (scan_len - str_len s1 - len_utf8 c) s) (off + Z.of_nat (str_len s1 + len_utf8 c))).
  { intros o. change (c :: chars_to (scan_len - str_len s1 - len_utf8 c) s) with ([c] ++ chars_to (scan_len - str_len s1 - len_utf8 c) s).
    rewrite (extend_app o [c]). f_equal. simpl. lia. }
  rewrite HX. destruct (is_ascii c) eqn:Ea.
  - rewrite first_byte_ascii by done. rewrite (len_utf8_ascii c Ea) in *. unfold is_ascii in Ea. propify. destruct (Z.eqb_spec c NEWLINE) as [->|Hn].
    + rewrite pos_succ by (unfold u32_max; lia). rewrite IH by (done || lia). unfold extend; simpl. rewrite app_nil_r. by rewrite (Z.add_comm (Z.of_nat _) off).
    + rewrite (proj2 (Z.leb_gt _ _)) by lia. rewrite IH by (done || lia). f_equal. f_equal. f_equal. unfold extend. simpl. rewrite (proj2 (Z.eqb_neq _ _) Hn).
      unfold is_ascii. rewrite (proj2 (Z.ltb_lt _ _)) by lia. destruct out. simpl. by rewrite !app_nil_r.
  - pose proof (first_byte_high c Hc Ea) as Hb. pose proof (len_utf8_multi c Ea) as [H2 H4]. rewrite (proj2 (Z.eqb_neq _ NEWLINE)) by (unfold NEWLINE; lia). rewrite (proj2 (Z.leb_le _ _)) by lia.
    rewrite str_from_app. cbn [unwrap obind head]. rewrite (proj2 (Nat.leb_le _ _) H2), (proj2 (Nat.leb_le _ _) H4). cbn [andb assert_that obind].
    rewrite IH by (done || lia). f_equal. f_equal. f_equal. unfold extend. simpl. rewrite Ea, app_nil_r.
    assert (E : (c =? NEWLINE) = false) by (apply Z.eqb_neq; unfold is_ascii in Ea; propify; unfold NEWLINE; lia). rewrite E. simpl. by rewrite app_nil_r, (Z.add_comm (Z.of_nat _) off).
Qed.

Lemma analyze_generic_ok src scan_len off out :
  wf_str src -> (scan_len <= str_len src)%nat -> 0 <= off -> Z.of_nat (str_len src) + off <= MAX_FILE_SIZE ->
  analyze_source_file_generic src scan_len off out = Ret ((str_len (chars_to scan_len src) - scan_len)%nat, extend out (chars_to scan_len src) off).
Proof.
  intros Hw Hlen Hoff Hmax. unfold analyze_source_file_generic. rewrite (proj2 (Nat.leb_le _ _) Hlen). cbn [assert_that obind].
  pose proof (generic_loop_ok src scan_len off (S scan_len) [] src out eq_refl Hw Hlen Hoff Hmax) as H. simpl in H. rewrite Nat.sub_0_r, Z.add_0_r in H. simpl.
  rewrite H by lia. done.
Qed.

(** *** Masks *)

(** One bit per element, [step] bits apart, the first at bit [first]. *)
Fixpoint spread (step first : Z) (bs : list bool) : Z :=
  match bs with [] => 0 | b :: bs => Z.b2z b * 2 ^ first + 2 ^ step * spread step first bs end.

Fixpoint indexes_from (n : nat) (bs : list bool) : list nat :=
  match bs with [] => [] | b :: bs => (if b then [n] else []) ++ indexes_from (S n) bs end.

Lemma land_double x y : Z.land (2 * x) (2 * y + 1) = 2 * Z.land x y.
Proof.
  apply Z.bits_inj'. intros n Hn. rewrite Z.land_spec. destruct (Z.eqb_spec n 0) as [->|Hz].
  - by rewrite !Z.testbit_even_0.
  - replace n with (Z.succ (n - 1)) by lia. rewrite Z.testbit_odd_succ, !Z.testbit_even_succ by lia. by rewrite Z.land_spec.
Qed.

Lemma clear_lowest t y : Z.land (2 ^ Z.of_nat t * (2 * y + 1)) (2 ^ Z.of_nat t * (2 * y + 1) - 1) = 2 ^ Z.of_nat t * (2 * y).
Proof.
  induction t as [|t IH].
  - simpl. rewrite !Z.mul_1_l. replace (2 * y + 1 - 1) with (2 * y) by lia. apply Z.bits_inj'. intros n Hn. rewrite Z.land_spec. destruct (Z.eqb_spec n 0) as [->|Hz].
    + by rewrite Z.testbit_odd_0, Z.testbit_even_0.
    + replace n with (Z.succ (n - 1)) by lia. rewrite Z.testbit_odd_succ, Z.testbit_even_succ by lia. apply andb_diag.
  - rewrite Nat2Z.inj_succ, Z.pow_succ_r by lia. rewrite <- !Z.mul_assoc.
    replace (2 * (2 ^ Z.of_nat t * (2 * y + 1)) - 1) with (2 * (2 ^ Z.of_nat t * (2 * y + 1) - 1) + 1) by lia. by rewrite land_double, IH.
Qed.

Lemma ctz_power fuel t y : (t < fuel)%nat -> ctz fuel (2 ^ Z.of_nat t * (2 * y + 1)) = t.
Proof.
  revert t. induction fuel as [|fuel IH]; intros t Ht; [lia|]. cbn [ctz]. destruct t as [|t].
  - simpl. rewrite Z.mul_1_l. by rewrite (Z.odd_add_mul_2 1 y ltac:(idtac)) || (rewrite Z.add_comm, Z.odd_add_mul_2; done).
  - rewrite Nat2Z.inj_succ, Z.pow_succ_r by lia. rewrite <- Z.mul_assoc. rewrite Z.odd_mul. cbn [Z.odd andb]. rewrite Z.div2_div, (Z.mul_comm 2), Z.div_mul by lia.
    f_equal. apply IH. lia.
Qed.

Lemma mask_bits_spread step first n bs fuel : 0 <= Z.of_nat first < Z.of_nat step -> (step * (n + length bs) <= 64)%nat -> (length bs < fuel)%nat ->
  mask_bits fuel (fun mask => trailing_zeros mask / step)%nat (2 ^ Z.of_nat (step * n) * spread (Z.of_nat step) (Z.of_nat first) bs) = Ret (indexes_from n bs).
Proof.
  intros Hs. revert n fuel. induction bs as [|b bs IH]; intros n fuel Hn Hf; cbn [spread indexes_from].
  { rewrite Z.mul_0_r. destruct fuel; [simpl in Hf; lia|]. done. }
  simpl in Hn, Hf. pose (m := spread (Z.of_nat step) (Z.of_nat first) bs). fold m. fold m in IH.
  assert (Hrest : 2 ^ Z.of_nat (step * n) * (2 ^ Z.of_nat step * m) = 2 ^ Z.of_nat (step * S n) * m).
  { rewrite Z.mul_assoc, <- Z.pow_add_r by lia. f_equal. f_equal. lia. }
  destruct b; cbn [Z.b2z app].
  - destruct fuel as [|fuel]; [lia|]. cbn [mask_bits].
    assert (Hx : 2 ^ Z.of_nat (step * n) * (1 * 2 ^ Z.of_nat first + 2 ^ Z.of_nat step * m)
      = 2 ^ Z.of_nat (step * n + first) * (2 * (2 ^ Z.of_nat (step - first - 1) * m) + 1)).
    { rewrite Nat2Z.inj_add, Z.pow_add_r by lia. replace (2 ^ Z.of_nat step) with (2 ^ Z.of_nat first * (2 * 2 ^ Z.of_nat (step - first - 1))); [ring|].
      rewrite <- Z.pow_succ_r by lia. rewrite <- Z.pow_add_r by lia. f_equal. lia. }
    rewrite Hx. rewrite (proj2 (Z.eqb_neq _ 0)).
    2:{ intros [H|H]%Z.mul_eq_0; [|lia]. pose proof (Z.pow_pos_nonneg 2 (Z.of_nat (step * n + first)) ltac:(lia) ltac:(lia)). lia. }
    rewrite clear_lowest. cbv beta. unfold trailing_zeros at 2. rewrite ctz_power by nia.
    assert (Hc : 2 ^ Z.of_nat (step * n + first) * (2 * (2 ^ Z.of_nat (step - first - 1) * m)) = 2 ^ Z.of_nat (step * S n) * m).
    { replace (step * S n)%nat with (step * n + first + S (step - first - 1))%nat by lia. rewrite (Nat2Z.inj_add (step * n + first) (S _)), Z.pow_add_r by lia.
      rewrite Nat2Z.inj_succ, Z.pow_succ_r by lia. ring. }
    rewrite Hc, IH by lia. cbn [obind]. do 2 f_equal. symmetry. rewrite Nat.mul_comm, Nat.div_add_l by lia. rewrite Nat.div_small by lia. lia.
  - rewrite Z.mul_0_l, Z.add_0_l, Hrest. apply IH; lia.
Qed.

(** The newlines of a chunk. *)
Definition newlines_of (chunk : list Z) : list bool := (fun b => b =? NEWLINE) <$> chunk.

Lemma zip_with_same {A B C} (f : A -> B -> C) l x n : (length l <= n)%nat -> zip_with f l (replicate n x) = (fun a => f a x) <$> l.
Proof. revert n. induction l as [|a l IH]; intros [|n] Hn; simpl in *; try done; [lia|]. rewrite IH by lia. done. Qed.

Lemma newlines_cons b chunk : newlines_of (b :: chunk) = (b =? NEWLINE) :: newlines_of chunk.
Proof. done. Qed.

Lemma movemask_spread chunk : movemask_epi8 ((fun b => if b =? NEWLINE then 255 else 0) <$> chunk) = spread 1 0 (newlines_of chunk).
Proof.
  induction chunk as [|b chunk IH]; [done|]. rewrite newlines_cons, fmap_cons. cbn [movemask_epi8 spread]. rewrite IH. change (2 ^ 1) with 2. change (2 ^ 0) with 1.
  destruct (b =? NEWLINE); cbn [Z.b2z]; [change (Z.shiftr 255 7) with 1|change (Z.shiftr 0 7) with 0]; lia.
Qed.

Lemma mask_bits_ext fuel f g mask : (forall m, f m = g m) -> mask_bits fuel f mask = mask_bits fuel g mask.
Proof. intros H. revert mask. induction fuel as [|fuel IH]; intros mask; [done|]. cbn [mask_bits]. by rewrite IH, H. Qed.

Lemma mask_bits_chunk step first chunk : length chunk = 16%nat -> (first < step <= 4)%nat ->
  mask_bits 65 (fun mask => trailing_zeros mask / step)%nat (spread (Z.of_nat step) (Z.of_nat first) (newlines_of chunk)) = Ret (indexes_from 0 (newlines_of chunk)).
Proof.
  intros HL Hs. assert (HB : length (newlines_of chunk) = 16%nat) by (unfold newlines_of; by rewrite length_fmap).
  rewrite <- (mask_bits_spread step first 0 (newlines_of chunk) 65) by lia. by rewrite Nat.mul_0_r, Z.pow_0_r, Z.mul_1_l.
Qed.

Lemma sse2_newlines_ok chunk : length chunk = 16%nat -> sse2_newlines chunk = Ret (indexes_from 0 (newlines_of chunk)).
Proof.
  intros HL. unfold sse2_newlines, cmpeq_epi8, set1_epi8. rewrite zip_with_same by (by rewrite HL). rewrite movemask_spread.
  rewrite <- (mask_bits_chunk 1 0 chunk) by (done || lia). apply mask_bits_ext. intros m. by rewrite Nat.div_1_r.
Qed.

(** Two neighbouring comparison results make one byte of two nibbles. *)
Lemma vshrn_pair a b : wrap_u8 (Z.shiftr ((if (a : bool) then 255 else 0) + 256 * (if (b : bool) then 255 else 0)) 4)
  = (if a then 15 else 0) + 16 * (if b then 15 else 0).
Proof. by destruct a, b. Qed.

(** The constant [0x88...88] of [n] bytes. *)
Fixpoint nibbles (n : nat) : Z := match n with O => 0 | S n => 0x88 + 256 * nibbles n end.

Lemma vshrn_spread n chunk : length chunk = (2 * n)%nat ->
  Z.land (from_le_bytes (vshrn_4 ((fun b => if b =? NEWLINE then 255 else 0) <$> chunk))) (nibbles n) = spread 4 3 (newlines_of chunk).
Proof.
  revert chunk. induction n as [|n IH]; intros chunk HL; [by destruct chunk|]. destruct chunk as [|a [|b chunk]]; [simpl in HL; lia|simpl in HL; lia|].
  rewrite !newlines_cons, !fmap_cons. cbn [vshrn_4 from_le_bytes nibbles spread]. rewrite vshrn_pair. rewrite land_byte_cons; [|destruct (a =? NEWLINE), (b =? NEWLINE); done|done].
  rewrite IH by (simpl in HL; lia). change (2 ^ 4) with 16. change (2 ^ 3) with 8.
  destruct (a =? NEWLINE), (b =? NEWLINE); cbn [Z.b2z];
    match goal with |- Z.land ?x 136 + _ = _ => let v := eval vm_compute in (Z.land x 136) in change (Z.land x 136) with v end; lia.
Qed.

Lemma neon_newlines_ok chunk : length chunk = 16%nat -> neon_newlines chunk = Ret (indexes_from 0 (newlines_of chunk)).
Proof.
  intros HL. unfold neon_newlines, vceqq_u8, set1_epi8. rewrite zip_with_same by (by rewrite HL). change 0x8888888888888888 with (nibbles 8).
  rewrite (vshrn_spread 8 chunk HL). by apply (mask_bits_chunk 4 3 chunk); [|lia].
Qed.

(** The tests for a chunk of ASCII bytes. *)
Lemma movemask_zero v : Forall (fun b => b = 0 \/ b = 255) v -> 0 <= movemask_epi8 v /\ (movemask_epi8 v = 0 <-> Forall (fun b => b = 0) v).
Proof.
  induction 1 as [|b v Hb _ [IH1 IH2]]; [split; [done|]; split; [constructor|done]|]. cbn [movemask_epi8]. rewrite list.Forall_cons, <- IH2.
  destruct Hb as [->| ->]; [change (Z.shiftr 0 7) with 0|change (Z.shiftr 255 7) with 1]; lia.
Qed.

Lemma sse2_is_ascii_ok chunk : length chunk = 16%nat -> Forall is_byte chunk -> sse2_is_ascii chunk = true <-> Forall (fun b => is_ascii b = true) chunk.
Proof.
  intros HL Hb. unfold sse2_is_ascii, cmplt_epi8, set1_epi8. rewrite zip_with_same by (by rewrite HL). rewrite Z.eqb_eq.
  assert (HZ := fun f : Z -> bool => proj2 (movemask_zero ((fun a => if f a then 255 else 0) <$> chunk)
    ltac:(apply list.Forall_fmap, list.Forall_true; intros; unfold compose; case_if E; auto))). rewrite HZ, list.Forall_fmap. clear HZ.
  clear HL. induction Hb as [|b chunk Hb _ IH]; [by split|]. rewrite !list.Forall_cons, IH. unfold compose, as_i8, is_ascii. unfold is_byte in Hb.
  change (if 0 <? 128 then 0 else 0 - 256) with 0. destruct (b <? 128) eqn:E; propify.
  - rewrite (proj2 (Z.ltb_ge _ _)) by lia. tauto.
  - rewrite (proj2 (Z.ltb_lt _ _)) by lia. split; intros [? _]; done.
Qed.

Lemma neon_is_ascii_ok chunk : Forall is_byte chunk -> neon_is_ascii chunk = true <-> Forall (fun b => is_ascii b = true) chunk.
Proof.
  intros Hb. unfold neon_is_ascii. rewrite Z.ltb_lt. induction Hb as [|b chunk Hb _ IH]; [by split; [constructor|]|]. cbn [vmaxvq_u8 foldr]. fold (vmaxvq_u8 chunk).
  rewrite list.Forall_cons, <- IH. unfold is_ascii. rewrite Z.ltb_lt. lia.
Qed.

(** *** Chunks *)

Lemma indexes_from_lt n bs i : i ∈ indexes_from n bs -> (n <= i < n + length bs)%nat.
Proof.
  revert n. induction bs as [|b bs IH]; intros n; [intros H; by apply elem_of_nil in H|]. cbn [indexes_from length]. intros [H|H]%elem_of_app; [|apply IH in H; lia].
  destruct b; [apply list_elem_of_singleton in H; lia|by apply elem_of_nil in H].
Qed.

Lemma ascii_prefix n s : wf_str s -> (n <= str_len s)%nat -> Forall (fun b => is_ascii b = true) (take n (as_bytes s)) ->
  exists s3, s = take n (as_bytes s) ++ s3.
Proof.
  intros Hw. revert n. induction Hw as [|c s Hc _ IH]; intros n Hn HA; simpl in *; [by exists []; destruct n|].
  destruct n as [|n]; [by exists (c :: s)|]. pose proof (length_encode_utf8 c) as HL. pose proof (len_utf8_pos c).
  destruct (is_ascii c) eqn:Ea.
  - rewrite encode_utf8_ascii in * by done. simpl in *. rewrite len_utf8_ascii in Hn by done. inversion_clear HA as [|? ? _ HA']. destruct (IH n) as [s3 Hs]; [lia|done|].
    exists s3. by rewrite <- Hs.
  - pose proof (first_byte_high c Hc Ea) as Hb. destruct (encode_utf8 c) as [|b l]; [simpl in *; lia|]. simpl in HA. inversion_clear HA as [|? ? Hf _]. unfold is_ascii in Hf. propify. simpl in Hb. lia.
Qed.

Lemma ascii_self s : Forall (fun b => is_ascii b = true) s -> as_bytes s = s.
Proof. induction 1 as [|c s Hc _ IH]; [done|]. simpl. by rewrite encode_utf8_ascii, IH. Qed.

Lemma ascii_tables s n off : Forall (fun b => is_ascii b = true) s ->
  newline_table s (off + Z.of_nat n) = (fun index => off + 1 + Z.of_nat index) <$> indexes_from n (newlines_of s) /\ multi_byte_table s (off + Z.of_nat n) = [].
Proof.
  intros HA. revert n. induction HA as [|c s Hc _ IH]; intros n; [done|]. cbn [newline_table multi_byte_table]. rewrite newlines_cons, Hc, len_utf8_ascii by done. cbn [indexes_from].
  replace (off + Z.of_nat n + Z.of_nat 1) with (off + Z.of_nat (S n)) by lia. destruct (IH (S n)) as [-> ->]. split; [|done].
  destruct (c =? NEWLINE); simpl; [|done]. f_equal. lia.
Qed.

Section ChunkLoop.
Context (is_ascii_chunk : list Z -> bool) (newline_indexes : list Z -> outcome (list nat)).
Hypothesis ascii_ok : forall chunk, length chunk = 16%nat -> Forall is_byte chunk -> is_ascii_chunk chunk = true <-> Forall (fun b => is_ascii b = true) chunk.
Hypothesis newlines_ok : forall chunk, length chunk = 16%nat -> newline_indexes chunk = Ret (indexes_from 0 (newlines_of chunk)).

(** Before chunk [k], the scan is at [16 k + o]; a positive [o] is in the middle of a character at the boundary. *)
Definition scanned (src : str) (init : Tables) (k o : nat) (out : Tables) : Prop :=
  exists s1 s2, src = s1 ++ s2 /\ str_len s1 = (16 * k + o)%nat /\ out = extend init s1 0
    /\ ((0 < o)%nat -> exists b, as_bytes src !! (16 * k)%nat = Some b /\ 128 <= b).

Lemma boundary_byte s1 t c rest n : is_scalar c = true -> (str_len t < n < str_len t + len_utf8 c)%nat ->
  exists b, as_bytes (s1 ++ (t ++ [c]) ++ rest) !! (str_len s1 + n)%nat = Some b /\ 128 <= b.
Proof.
  intros Hc Hn. rewrite !as_bytes_app. rewrite lookup_app_r by (rewrite length_as_bytes; lia). rewrite length_as_bytes. replace (str_len s1 + n - str_len s1)%nat with n by lia.
  rewrite <- app_assoc. rewrite lookup_app_r by (rewrite length_as_bytes; lia). rewrite length_as_bytes. simpl. rewrite app_nil_r.
  pose proof (length_encode_utf8 c) as HL. rewrite lookup_app_l by lia. destruct (lookup_lt_is_Some_2 (encode_utf8 c) (n - str_len t)) as [b Hb]; [lia|].
  exists b. split; [done|]. destruct (is_ascii c) eqn:Ea; [rewrite len_utf8_ascii in * by done; lia|]. apply (encode_utf8_high c); try done. by eapply list_elem_of_lookup_2.
Qed.

Lemma chunk_step src init k o out : wf_str src -> Z.of_nat (str_len src) <= MAX_FILE_SIZE -> (16 * S k <= str_len src)%nat -> (o < 16)%nat ->
  scanned src init k o out ->
  exists o' out', (o' < 16)%nat /\ scanned src init (S k) o' out' /\
    forall chunks, chunk_loop is_ascii_chunk newline_indexes src (S chunks) k o out = chunk_loop is_ascii_chunk newline_indexes src chunks (S k) o' out'.
Proof.
  intros Hw Hmax Hlen Ho (s1 & s2 & -> & Hs1 & -> & Hover). cbn [chunk_loop]. pose proof (as_bytes_is_byte _ Hw) as HB. rewrite str_len_app in *.
  unfold CHUNK_SIZE. rewrite (Nat.mul_comm k 16). set (chunk := take 16 (drop (16 * k) (as_bytes (s1 ++ s2)))).
  assert (HL : length chunk = 16%nat) by (unfold chunk; rewrite length_take, length_drop, length_as_bytes, str_len_app; lia).
  assert (Hbytes : Forall is_byte chunk) by (unfold chunk; by apply Forall_take, Forall_drop).
  apply Forall_app in Hw as [Hw1 Hw2]. destruct (is_ascii_chunk chunk) eqn:Ea.
  - apply (ascii_ok chunk HL Hbytes) in Ea. assert (o = 0%nat) as ->.
    { destruct o as [|o]; [done|]. destruct Hover as (b & Hb & ?); [lia|]. assert (Hin : chunk !! 0%nat = Some b).
      { unfold chunk. rewrite lookup_take by lia. rewrite lookup_drop. by rewrite Nat.add_0_r. }
      rewrite list.Forall_forall in Ea. specialize (Ea b ltac:(by eapply list_elem_of_lookup_2)). unfold is_ascii in Ea. propify. lia. }
    rewrite Nat.add_0_r in Hs1. assert (Hc : chunk = take 16 (as_bytes s2)).
    { unfold chunk. rewrite as_bytes_app, drop_app_ge by (rewrite length_as_bytes; lia). rewrite length_as_bytes, Hs1, Nat.sub_diag. done. }
    destruct (ascii_prefix 16 s2) as [s3 Hs]; [done|lia|by rewrite <- Hc|]. clear Hover HB. clearbody chunk. rewrite <- Hc in Hs. clear Hc. subst s2.
    rewrite (newlines_ok chunk HL). exists 0%nat, (extend init (s1 ++ chunk) 0). split; [lia|]. split.
    + exists (s1 ++ chunk), s3. rewrite <- app_assoc. split_and!; try done; [|lia].
      rewrite str_len_app, <- (length_as_bytes chunk), (ascii_self chunk Ea). lia.
    + intros chunks. cbn [Nat.eqb assert_that obind]. f_equal. rewrite extend_app, Hs1, Z.add_0_l. destruct (ascii_tables chunk 0 (Z.of_nat (16 * k)) Ea) as [HN HM]. rewrite Z.add_0_r in HN, HM.
      change (extend (extend init s1 0) chunk (Z.of_nat (16 * k))) with ((extend init s1 0).1 ++ newline_table chunk (Z.of_nat (16 * k)), (extend init s1 0).2 ++ multi_byte_table chunk (Z.of_nat (16 * k))).
      rewrite HN, HM, app_nil_r. f_equal. f_equal. apply list_fmap_ext. intros ? index Hi%list_elem_of_lookup_2.
      apply indexes_from_lt in Hi. unfold newlines_of in Hi. rewrite length_fmap, HL in Hi. unfold pos_add, pos_from_usize, wrap_u32, MAX_FILE_SIZE, u32_max in *.
      rewrite (Z.mod_small (Z.of_nat (16 * k + 1))), Z.mod_small by lia. lia.
  - rewrite <- Hs1, str_from_app. cbn [unwrap obind].
    destruct (chars_to_prefix (16 - o) s2) as [s3 Hs3]. set (t := chars_to (16 - o) s2) in *.
    pose proof (chars_to_len (16 - o) s2 ltac:(lia)) as Ht. fold t in Ht.
    exists (str_len t - (16 - o))%nat, (extend init (s1 ++ t) 0). assert (Hov := chars_to_over (16 - o) s2). fold t in Hov. split; [|split].
    + destruct (decide (16 - o < str_len t)%nat) as [Hx|]; [|lia]. destruct (Hov Hx) as (u & c & Eu & ?). rewrite Eu, str_len_app. simpl. pose proof (len_utf8_pos c). lia.
    + exists (s1 ++ t), s3. rewrite <- app_assoc, <- Hs3. split_and!; try done; [rewrite str_len_app; lia|].
      intros Hx. destruct (Hov ltac:(lia)) as (u & c & Eu & Hn). rewrite Hs3, Eu. replace (16 * S k)%nat with (str_len s1 + (16 - o))%nat by lia.
      apply boundary_byte; [|done]. rewrite Hs3, Eu in Hw2. apply list.Forall_app in Hw2 as [Hw2 _]. apply list.Forall_app in Hw2 as [_ Hw2]. by inversion Hw2.
    + intros chunks. unfold MAX_FILE_SIZE, u32_max in *. assert (Hp : pos_from_usize (str_len s1) = Z.of_nat (str_len s1)) by (apply Z.mod_small; lia). rewrite Hp.
      rewrite analyze_generic_ok by (done || (unfold MAX_FILE_SIZE, u32_max; lia)). cbn [obind]. fold t. by rewrite extend_app, Z.add_0_l.
Qed.

Lemma chunk_loop_ok src init chunks k o out : wf_str src -> Z.of_nat (str_len src) <= MAX_FILE_SIZE -> (16 * (k + chunks) <= str_len src)%nat -> (o < 16)%nat ->
  scanned src init k o out ->
  exists o' out', chunk_loop is_ascii_chunk newline_indexes src chunks k o out = Ret (o', out') /\ scanned src init (k + chunks) o' out'.
Proof.
  intros Hw Hmax. revert k o out. induction chunks as [|chunks IH]; intros k o out Hlen Ho HS; [exists o, out; by rewrite Nat.add_0_r|].
  destruct (chunk_step src init k o out) as (o1 & out1 & Ho1 & HS1 & ->); try done; [lia|]. destruct (IH (S k) o1 out1) as (o' & out' & E & HS'); try done; [lia|].
  exists o', out'. split; [done|]. by replace (k + S chunks)%nat with (S k + chunks)%nat by lia.
Qed.

Lemma analyze_chunks_ok src init : wf_str src -> Z.of_nat (str_len src) <= MAX_FILE_SIZE ->
  analyze_source_file_chunks is_ascii_chunk newline_indexes src init = Ret (extend init src 0).
Proof.
  intros Hw Hmax. unfold analyze_source_file_chunks, CHUNK_SIZE. pose proof (Nat.div_mod_eq (str_len src) 16) as HD. pose proof (Nat.mod_upper_bound (str_len src) 16 ltac:(lia)) as HM.
  destruct (chunk_loop_ok src init (str_len src / 16) 0 0 init) as (o & out & -> & (s1 & s2 & Hs & Hs1 & -> & _)); try done; [lia|lia| |].
  { exists [], src. rewrite extend_nil. split_and!; try done. lia. }
  cbn [obind]. replace (str_len src - str_len src mod 16 + o)%nat with (str_len s1) by lia. assert (HL : str_len src = (str_len s1 + str_len s2)%nat) by (by rewrite Hs, str_len_app).
  destruct (Nat.ltb_spec (str_len s1) (str_len src)) as [Hlt|Hge].
  - rewrite Hs at 1. rewrite str_from_app. cbn [unwrap obind]. rewrite Hs in Hw. apply Forall_app in Hw as [_ Hw2]. unfold MAX_FILE_SIZE, u32_max in *.
    assert (Hp : pos_from_usize (str_len s1) = Z.of_nat (str_len s1)) by (apply Z.mod_small; lia). rewrite Hp.
    rewrite analyze_generic_ok by (done || (unfold MAX_FILE_SIZE, u32_max; lia)). cbn [obind]. replace (str_len src - str_len s1)%nat with (str_len s2) by lia.
    by rewrite Hs, extend_app, Z.add_0_l, chars_to_all.
  - destruct s2 as [|c s2]; [rewrite app_nil_r in Hs; by rewrite Hs|]. simpl in HL. pose proof (len_utf8_pos c). lia.
Qed.
End ChunkLoop.

(** ** Lines, columns, positions

    The line table as the starts of the lines of the text, the columns as characters since the last newline, the
    normalized text and the positions that lead back to the original one. *)

(** *** Lines *)

(** The lines of a text, each with the newline that ends it. *)
Fixpoint split_lines (s : str) : list str :=
  match s with
  | [] => []
  | c :: s =>
      if c =? NEWLINE then [c] :: split_lines s
      else match split_lines s with [] => [[c]] | l :: ls => (c :: l) :: ls end
  end.

(** The offsets at which they start. *)
Fixpoint starts (o : Z) (ls : list str) : list Z :=
  match ls with [] => [] | l :: ls => o :: starts (o + Z.of_nat (str_len l)) ls end.
Definition line_table (s : str) : list Z := starts 0 (split_lines s).

Lemma concat_split_lines s : concat (split_lines s) = s.
Proof.
  induction s as [|c s IH]; [done|]. simpl. destruct (c =? NEWLINE); [simpl; by rewrite IH|]. destruct (split_lines s) as [|l ls]; simpl in *; by rewrite <- IH.
Qed.

Lemma split_lines_nil s : split_lines s = [] <-> s = [].
Proof. split; [|by intros ->]. destruct s as [|c s]; [done|]. simpl. destruct (c =? NEWLINE); [done|]. by destruct (split_lines s). Qed.

Lemma newline_table_bounds s o : Forall (fun x => o < x <= o + Z.of_nat (str_len s)) (newline_table s o).
Proof.
  revert o. induction s as [|c s IH]; intros o; [constructor|]. cbn [newline_table str_len]. pose proof (len_utf8_pos c). apply list.Forall_app. split.
  - destruct (c =? NEWLINE); repeat constructor; lia.
  - eapply list.Forall_impl; [apply IH|]. simpl. lia.
Qed.

Lemma newline_table_sorted s o : StronglySorted Z.lt (newline_table s o).
Proof.
  revert o. induction s as [|c s IH]; intros o; [constructor|]. cbn [newline_table]. destruct (c =? NEWLINE) eqn:E; [|apply IH]. simpl. constructor; [apply IH|].
  propify. subst c. eapply list.Forall_impl; [apply newline_table_bounds|]. simpl. change (len_utf8 NEWLINE) with 1%nat. lia.
Qed.

Lemma line_table_filter s o : filter (fun x => x < o + Z.of_nat (str_len s)) (o :: newline_table s o) = starts o (split_lines s).
Proof.
  revert o. induction s as [|c s IH]; intros o.
  - simpl. rewrite filter_cons_False by lia. done.
  - pose proof (len_utf8_pos c). cbn [newline_table str_len split_lines]. rewrite filter_cons_True by lia. specialize (IH (o + Z.of_nat (len_utf8 c))).
    replace (o + Z.of_nat (len_utf8 c) + Z.of_nat (str_len s)) with (o + Z.of_nat (len_utf8 c + str_len s)) in IH by lia.
    destruct (Z.eqb_spec c NEWLINE) as [->|Hn].
    + change (Z.of_nat (len_utf8 NEWLINE)) with 1 in IH |- *. cbn [app]. by rewrite IH.
    + cbn [app]. destruct (split_lines s) as [|l ls] eqn:El.
      * apply split_lines_nil in El. by subst s.
      * destruct s as [|d s]; [done|]. rewrite filter_cons_True in IH by (cbn [str_len]; pose proof (len_utf8_pos d); lia). cbn [starts] in IH. apply (f_equal tail) in IH. cbn [tail] in IH. rewrite IH.
        cbn [starts str_len]. f_equal. f_equal. lia.
Qed.

Lemma filter_below l e : Forall (fun x : Z => x < e) l -> filter (fun x => x < e) l = l.
Proof. induction 1 as [|x l Hx _ IH]; [done|]. by rewrite filter_cons_True, IH. Qed.

Lemma remove_last_filter l e : StronglySorted Z.lt l -> Forall (fun x => x <= e) l -> l <> [] ->
  match list.last l with Some x => if x =? e then removelast l else l | None => l end = filter (fun x => x < e) l.
Proof.
  intros Hs Hl Hn. destruct (exists_last Hn) as (l' & x & ->). rewrite last_snoc, removelast_last, list.filter_app.
  assert (HF : filter (fun y => y < e) l' = l').
  { apply filter_below, list.Forall_forall. intros y Hy. apply StronglySorted_app_iff in Hs as (_ & _ & Hs). apply list.Forall_app in Hl as [_ Hl]. inversion_clear Hl.
    rewrite list.Forall_forall in Hs. specialize (Hs y Hy). inversion_clear Hs. lia. }
  rewrite HF. destruct (Z.eqb_spec x e) as [->|].
  - by rewrite filter_cons_False, app_nil_r by lia.
  - apply list.Forall_app in Hl as [_ Hl]. inversion_clear Hl. rewrite filter_cons_True by lia. done.
Qed.

(** The scan of a whole file, on every target. *)
Lemma dispatch_ok target src out : wf_str src -> Z.of_nat (str_len src) <= MAX_FILE_SIZE ->
  analyze_source_file_dispatch target src out = Ret (extend out src 0).
Proof.
  intros Hw Hmax. destruct target; cbn [analyze_source_file_dispatch].
  - by apply analyze_chunks_ok; [apply sse2_is_ascii_ok|apply sse2_newlines_ok| |].
  - by apply analyze_chunks_ok; [intros; by apply neon_is_ascii_ok|apply neon_newlines_ok| |].
  - rewrite analyze_generic_ok by (done || lia). cbn [obind]. f_equal. f_equal. apply chars_to_all.
Qed.

Lemma analyze_source_file_ok target src : wf_str src -> Z.of_nat (str_len src) <= MAX_FILE_SIZE ->
  analyze_source_file target src = Ret (line_table src, multi_byte_table src 0).
Proof.
  intros Hw Hmax. unfold analyze_source_file. rewrite dispatch_ok by done. cbn [obind extend fst snd app].
  assert (Hs : StronglySorted Z.lt (0 :: newline_table src 0)).
  { constructor; [apply newline_table_sorted|]. eapply list.Forall_impl; [apply newline_table_bounds|]. simpl. lia. }
  assert (Hb : Forall (fun x => x <= Z.of_nat (str_len src)) (0 :: newline_table src 0)).
  { constructor; [lia|]. eapply list.Forall_impl; [apply newline_table_bounds|]. simpl. lia. }
  assert (He : pos_from_usize (str_len src) = Z.of_nat (str_len src)) by (unfold MAX_FILE_SIZE, u32_max in *; apply Z.mod_small; lia). rewrite He.
  pose proof (remove_last_filter _ _ Hs Hb ltac:(done)) as HR. pose proof (line_table_filter src 0) as HT. rewrite Z.add_0_l in HT. rewrite HT in HR.
  destruct (list.last (0 :: newline_table src 0)) as [x|] eqn:Ex.
  - assert (Hx : x <= Z.of_nat (str_len src)) by (rewrite list.Forall_forall in Hb; apply Hb; by apply last_Some_elem_of).
    rewrite (proj2 (Z.leb_le _ _) Hx). cbn [assert_that obind]. by rewrite HR.
  - by rewrite HR.
Qed.

(** A file with the tables of its text. *)
Record of_text (f : SourceFile) (src : str) : Prop := mkOfText {
  ot_src : file_src f = Some src;
  ot_len : normalized_source_len f = Z.of_nat (str_len src);
  ot_lines : file_lines f = Lines (line_table src);
  ot_chars : multibyte_chars f = multi_byte_table src 0;
  ot_wf : wf_str src;
  ot_max : Z.of_nat (str_len src) <= MAX_FILE_SIZE
}.

(** *** Columns *)

Lemma multi_byte_table_pos s o : match multi_byte_table s o with [] => True | m :: _ => o <= mbc_pos m end.
Proof.
  revert o. induction s as [|c s IH]; intros o; [done|]. cbn [multi_byte_table]. destruct (is_ascii c); [|simpl; lia]. cbn [app]. specialize (IH (o + Z.of_nat (len_utf8 c))).
  destruct (multi_byte_table s _); [done|]. lia.
Qed.

Lemma count_extra_ok s1 s2 o total : 0 <= o -> 0 <= total <= o -> o + Z.of_nat (str_len s1) <= u32_max ->
  count_extra_bytes (multi_byte_table s1 o ++ multi_byte_table s2 (o + Z.of_nat (str_len s1))) (o + Z.of_nat (str_len s1)) total
    = Ret (total + (Z.of_nat (str_len s1) - Z.of_nat (length s1))).
Proof.
  revert o total. induction s1 as [|c s1 IH]; intros o total Ho Ht Hmax.
  - simpl in *. rewrite !Z.add_0_r. pose proof (multi_byte_table_pos s2 o) as HP. destruct (multi_byte_table s2 o) as [|m ms]; [done|]. cbn [count_extra_bytes]. by rewrite (proj2 (Z.ltb_ge _ _) HP).
  - cbn [multi_byte_table str_len length] in *. pose proof (len_utf8_pos c). specialize (IH (o + Z.of_nat (len_utf8 c))).
    replace (o + Z.of_nat (len_utf8 c) + Z.of_nat (str_len s1)) with (o + Z.of_nat (len_utf8 c + str_len s1)) in IH by lia.
    destruct (is_ascii c) eqn:Ea; cbn [app].
    + rewrite len_utf8_ascii in * by done. rewrite IH by lia. f_equal. lia.
    + cbn [count_extra_bytes mbc_pos mbc_bytes]. pose proof (len_utf8_multi c Ea). rewrite (proj2 (Z.ltb_lt _ _)) by lia.
      unfold wrap_u32, u32_max in *. rewrite (Z.mod_small (o + _)) by lia. rewrite (proj2 (Z.leb_le _ _)) by lia. cbn [assert_that obind]. rewrite Z.mod_small by lia.
      rewrite IH by lia. f_equal. lia.
Qed.

Lemma str_len_ge s : (length s <= str_len s)%nat.
Proof. apply str_len_length. Qed.

Lemma charpos_ok f s1 s2 : of_text f (s1 ++ s2) -> bytepos_to_file_charpos f (Z.of_nat (str_len s1)) = Ret (Z.of_nat (length s1)).
Proof.
  intros [_ _ _ HC _ HM]. unfold bytepos_to_file_charpos. rewrite HC, multi_byte_table_app. rewrite str_len_app in HM. unfold MAX_FILE_SIZE, u32_max in HM.
  pose proof (count_extra_ok s1 s2 0 0 ltac:(lia) ltac:(lia) ltac:(unfold u32_max; lia)) as H. rewrite !Z.add_0_l in H. rewrite Z.add_0_l, H. cbn [obind].
  pose proof (str_len_ge s1). rewrite (proj2 (Z.leb_le _ _)) by lia. cbn [assert_that obind]. f_equal. lia.
Qed.

(** Walking over the characters: the line, from 1, and the column. *)
Definition advance (p : nat * Z) (c : Z) : nat * Z := if c =? NEWLINE then (S p.1, 0) else (p.1, p.2 + 1).
Definition walk (s : str) : nat * Z := foldl advance (1%nat, 0) s.

Definition no_newline (s : str) : Prop := Forall (fun c => c <> NEWLINE) s.
Definition ends_line (s : str) : Prop := s = [] \/ exists t, s = t ++ [NEWLINE].

(** A text is its full lines and the start of the last one. *)
Lemma last_line_split s : exists t u, s = t ++ u /\ ends_line t /\ no_newline u.
Proof.
  induction s as [|c s IH] using rev_ind; [exists [], []; split; [done|]; split; [by left|constructor]|].
  destruct IH as (t & u & -> & Ht & Hu). destruct (Z.eqb_spec c NEWLINE) as [->|Hc].
  - exists ((t ++ u) ++ [NEWLINE]), []. rewrite app_nil_r. split; [done|]. split; [right; by eexists|constructor].
  - exists t, (u ++ [c]). rewrite app_assoc. split; [done|]. split; [done|]. apply list.Forall_app. split; [done|]. by repeat constructor.
Qed.

Definition newlines (s : str) : nat := length (newline_table s 0).

Lemma newline_table_count s o o' : length (newline_table s o) = length (newline_table s o').
Proof. revert o o'. induction s as [|c s IH]; intros o o'; [done|]. simpl. rewrite !length_app. f_equal; [by destruct (c =? NEWLINE)|apply IH]. Qed.

Lemma walk_no_newline u p : no_newline u -> foldl advance p u = (p.1, p.2 + Z.of_nat (length u)).
Proof.
  intros Hu. revert p. induction Hu as [|c u Hc _ IH]; intros p; [destruct p; simpl; by rewrite Z.add_0_r|]. cbn [foldl]. rewrite IH. unfold advance. rewrite (proj2 (Z.eqb_neq _ _) Hc). simpl. f_equal. lia.
Qed.

Lemma walk_line s p : (foldl advance p s).1 = (p.1 + newlines s)%nat.
Proof.
  unfold newlines. revert p. induction s as [|c s IH]; intros p; [simpl; lia|]. cbn [foldl]. rewrite IH. cbn [newline_table]. rewrite length_app, (newline_table_count s (0 + Z.of_nat (len_utf8 c)) 0). unfold advance.
  destruct (c =? NEWLINE); simpl; lia.
Qed.

Lemma walk_split t u : ends_line t -> no_newline u -> walk (t ++ u) = (S (newlines t), Z.of_nat (length u)).
Proof.
  intros Ht Hu. unfold walk. rewrite foldl_app, walk_no_newline by done. assert (H2 : (foldl advance (1%nat, 0) t).2 = 0).
  { destruct Ht as [->|[t' ->]]; [done|]. by rewrite foldl_app. }
  by rewrite walk_line, H2.
Qed.

Lemma newline_table_none u o : no_newline u -> newline_table u o = [].
Proof. intros Hu. revert o. induction Hu as [|c u Hc _ IH]; intros o; [done|]. simpl. by rewrite (proj2 (Z.eqb_neq _ _) Hc), IH. Qed.

Lemma newline_table_last t o : ends_line t -> list.last (o :: newline_table t o) = Some (o + Z.of_nat (str_len t)).
Proof.
  intros [->|[t' ->]]; [simpl; by rewrite Z.add_0_r|]. rewrite newline_table_app. simpl. rewrite app_comm_cons, last_snoc, str_len_app. simpl. f_equal. lia.
Qed.

(** *** Looking up a line *)

Lemma partition_point_app {A} (p : A -> bool) l1 l2 : Forall (fun x => p x = true) l1 -> Forall (fun x => p x = false) l2 -> partition_point p (l1 ++ l2) = length l1.
Proof.
  intros H1 H2. destruct (partition_point_split (fun x y => p y = true -> p x = true) p (l1 ++ l2)) as (k1 & k2 & E & <- & K1 & K2); [|auto|].
  - apply StronglySorted_app_iff. split_and!.
    + induction H1; constructor; auto. eapply list.Forall_impl; [done|]. auto.
    + induction H2; constructor; auto. eapply list.Forall_impl; [done|]. simpl. congruence.
    + eapply list.Forall_impl; [done|]. intros x Hx. apply list.Forall_true. auto.
  - revert k1 E K1. induction H1 as [|x l1 Hx _ IH]; intros k1 E K1.
    + destruct k1 as [|y k1]; [done|]. simpl in E. subst l2. inversion_clear H2. inversion_clear K1. congruence.
    + destruct k1 as [|y k1]; [simpl in E; subst k2; inversion_clear K2; congruence|]. injection E as <- E. inversion_clear K1. simpl. f_equal. by apply IH.
Qed.

Lemma lookup_line_at f s1 s2 l1 l2 : of_text f (s1 ++ s2) -> line_table (s1 ++ s2) = l1 ++ l2 ->
  Forall (fun x => x <= Z.of_nat (str_len s1)) l1 -> Forall (fun x => Z.of_nat (str_len s1) < x) l2 ->
  lookup_line f (Z.of_nat (str_len s1)) = Ret (match length l1 with O => None | S n => Some n end).
Proof.
  intros [_ _ HL _ _ _] E H1 H2. unfold lookup_line, lines. rewrite HL. cbn [obind]. rewrite E, partition_point_app; [done| |].
  - eapply list.Forall_impl; [done|]. intros x Hx. by apply Z.leb_le.
  - eapply list.Forall_impl; [done|]. intros x Hx. by apply Z.leb_gt.
Qed.

(** The lines that start in a prefix which does not end the text. *)
Lemma line_table_split s1 s2 : (str_len s2 <> 0)%nat ->
  line_table (s1 ++ s2) = (0 :: newline_table s1 0) ++ filter (fun x => x < Z.of_nat (str_len (s1 ++ s2))) (newline_table s2 (Z.of_nat (str_len s1))).
Proof.
  intros Hn. unfold line_table. rewrite <- (line_table_filter (s1 ++ s2) 0), Z.add_0_l, newline_table_app, Z.add_0_l, app_comm_cons, list.filter_app. f_equal.
  apply filter_below. rewrite str_len_app. constructor; [lia|]. eapply list.Forall_impl; [apply newline_table_bounds|]. simpl. lia.
Qed.

Lemma line_table_whole s : s <> [] -> ~ (exists t, s = t ++ [NEWLINE]) -> line_table s = 0 :: newline_table s 0.
Proof.
  intros Hs Hn. destruct (last_line_split s) as (t & u & -> & Ht & Hu). destruct u as [|c u].
  - rewrite app_nil_r in *. destruct Ht as [?|?]; [done|]. done.
  - unfold line_table. rewrite <- (line_table_filter (t ++ c :: u) 0), Z.add_0_l. apply filter_below. pose proof (len_utf8_pos c). rewrite newline_table_app, (newline_table_none _ _ Hu), app_nil_r, str_len_app.
    simpl. constructor; [lia|]. eapply list.Forall_impl; [apply newline_table_bounds|]. simpl. lia.
Qed.

Lemma table_below s : Forall (fun x => x <= Z.of_nat (str_len s)) (0 :: newline_table s 0).
Proof. constructor; [lia|]. eapply list.Forall_impl; [apply newline_table_bounds|]. simpl. lia. Qed.

(** The position of the last full line of a prefix, in the prefix and in the table. *)
Lemma line_start_lookup t u o : ends_line t -> no_newline u -> (o :: newline_table (t ++ u) o) !! length (newline_table (t ++ u) o) = Some (o + Z.of_nat (str_len t)).
Proof.
  intros Ht Hu. rewrite newline_table_app, (newline_table_none u) by done. rewrite app_nil_r. rewrite <- (newline_table_last t o Ht), last_lookup. done.
Qed.

(** The column, once the line is known to start after [t]. *)
Lemma lookup_file_pos_at f t u s2 a : of_text f ((t ++ u) ++ s2) -> lookup_line f (Z.of_nat (str_len (t ++ u))) = Ret (Some a) ->
  line_table ((t ++ u) ++ s2) !! a = Some (Z.of_nat (str_len t)) -> lookup_file_pos f (Z.of_nat (str_len (t ++ u))) = Ret (S a, Z.of_nat (length u)).
Proof.
  intros Hf Hl Ha. unfold lookup_file_pos. rewrite (charpos_ok f (t ++ u) s2 Hf). cbn [obind]. rewrite Hl. cbn [obind]. pose proof Hf as [_ _ HL _ _ _]. unfold lines. rewrite HL. cbn [obind]. rewrite Ha. cbn [unwrap obind].
  rewrite <- app_assoc in Hf. rewrite (charpos_ok f t (u ++ s2) Hf). cbn [obind]. rewrite length_app. rewrite (proj2 (Z.leb_le _ _)) by lia. cbn [assert_that obind]. f_equal. f_equal. lia.
Qed.

Lemma lookup_inside f s1 s2 : of_text f (s1 ++ s2) -> s2 <> [] -> lookup_file_pos f (Z.of_nat (str_len s1)) = Ret (walk s1).
Proof.
  intros Hf Hn. destruct (last_line_split s1) as (t & u & -> & Ht & Hu). rewrite walk_split by done.
  assert (HN : (str_len s2 <> 0)%nat) by (destruct s2 as [|c s2]; [done|]; simpl; pose proof (len_utf8_pos c); lia).
  pose proof (line_table_split (t ++ u) s2 HN) as HT.
  assert (HC : newlines t = length (newline_table (t ++ u) 0)) by (by rewrite newline_table_app, (newline_table_none u) by done; rewrite app_nil_r). rewrite HC.
  apply lookup_file_pos_at with s2; [done| |].
  - rewrite (lookup_line_at f (t ++ u) s2 _ _ Hf HT (table_below _)); [done|]. apply list.Forall_forall. intros x [_ Hx]%list_elem_of_filter.
    pose proof (newline_table_bounds s2 (Z.of_nat (str_len (t ++ u)))) as HB. rewrite list.Forall_forall in HB. specialize (HB x Hx). lia.
  - rewrite HT. rewrite lookup_app_l by (simpl; lia). by rewrite (line_start_lookup t u 0 Ht Hu).
Qed.

Lemma lookup_end_open f s : of_text f s -> s <> [] -> ~ (exists t, s = t ++ [NEWLINE]) -> lookup_file_pos f (Z.of_nat (str_len s)) = Ret (walk s).
Proof.
  intros Hf Hs Hn. pose proof (line_table_whole s Hs Hn) as HT. destruct (last_line_split s) as (t & u & -> & Ht & Hu). rewrite walk_split by done.
  assert (HC : newlines t = length (newline_table (t ++ u) 0)) by (by rewrite newline_table_app, (newline_table_none u) by done; rewrite app_nil_r). rewrite HC.
  assert (HT' : line_table ((t ++ u) ++ []) = (0 :: newline_table (t ++ u) 0) ++ []) by (by rewrite !app_nil_r).
  rewrite <- (app_nil_r (t ++ u)) in Hf. apply lookup_file_pos_at with []; [done| |].
  - by rewrite (lookup_line_at f (t ++ u) [] _ _ Hf HT' (table_below _) (List.Forall_nil _)).
  - rewrite HT'. rewrite lookup_app_l by (simpl; lia). by rewrite (line_start_lookup t u 0 Ht Hu).
Qed.

(** After a newline that ends the text there is no line: its end is in the column after the newline. *)
Lemma lookup_end_newline f s : of_text f (s ++ [NEWLINE]) -> lookup_file_pos f (Z.of_nat (str_len (s ++ [NEWLINE]))) = Ret ((walk s).1, (walk s).2 + 1).
Proof.
  intros Hf. pose proof (line_table_split s [NEWLINE] ltac:(done)) as HT. destruct (last_line_split s) as (t & u & -> & Ht & Hu). rewrite walk_split by done. cbn [fst snd].
  assert (HC : newlines t = length (newline_table (t ++ u) 0)) by (by rewrite newline_table_app, (newline_table_none u) by done; rewrite app_nil_r). rewrite HC.
  assert (HNL : forall o, newline_table [NEWLINE] o = [o + 1]) by done. rewrite HNL, filter_cons_False in HT by (rewrite !str_len_app; change (str_len [NEWLINE]) with 1%nat; lia). rewrite filter_nil in HT.
  rewrite <- (app_assoc t u) in Hf, HT |- *. rewrite <- (app_nil_r (t ++ (u ++ [NEWLINE]))) in Hf, HT. replace (Z.of_nat (length u) + 1) with (Z.of_nat (length (u ++ [NEWLINE]))) by (rewrite length_app; simpl; lia).
  apply lookup_file_pos_at with []; [done| |].
  - rewrite (lookup_line_at f (t ++ u ++ [NEWLINE]) [] _ _ Hf HT); [done| |constructor]. eapply list.Forall_impl; [apply table_below|]. intros x Hx. cbv beta in *. rewrite !str_len_app in *. lia.
  - rewrite HT. rewrite lookup_app_l by (simpl; lia). by rewrite (line_start_lookup t u 0 Ht Hu).
Qed.

(** *** The text of a line *)

Definition chomp (l : str) : str := match list.last l with Some c => if c =? NEWLINE then removelast l else l | None => l end.

Lemma chomp_snoc b : chomp (b ++ [NEWLINE]) = b.
Proof. unfold chomp. rewrite last_snoc, removelast_last. done. Qed.
Lemma chomp_open b : no_newline b -> chomp b = b.
Proof.
  intros Hb. unfold chomp. destruct (list.last b) as [c|] eqn:E; [|done]. apply last_Some_elem_of in E. unfold no_newline in Hb. rewrite list.Forall_forall in Hb.
  by rewrite (proj2 (Z.eqb_neq _ _) (Hb c E)).
Qed.

(** A line is its text and a newline, which only the last one may lack. *)
Lemma split_lines_shape s i l : split_lines s !! i = Some l ->
  exists b, no_newline b /\ (l = b ++ [NEWLINE] \/ (l = b /\ S i = length (split_lines s))).
Proof.
  revert i l. induction s as [|c s IH]; intros i l; [done|]. simpl. destruct (Z.eqb_spec c NEWLINE) as [->|Hc].
  - destruct i as [|i]; simpl.
    + intros [= <-]. exists []. split; [constructor|]. by left.
    + intros Hl. destruct (IH i l Hl) as (b & Hb & [?|[? ?]]); exists b; (split; [done|]); [by left|right; split; [done|lia]].
  - destruct (split_lines s) as [|k ks] eqn:Ek.
    + destruct i as [|i]; [|done]. intros [= <-]. exists [c]. split; [by repeat constructor|]. by right.
    + destruct i as [|i]; simpl.
      * intros [= <-]. destruct (IH 0%nat k eq_refl) as (b & Hb & [->|[-> ?]]); exists (c :: b); (split; [by constructor|]); [by left|right; by split].
      * intros Hl. destruct (IH (S i) l Hl) as (b & Hb & [?|[? ?]]); exists b; (split; [done|]); [by left|right; by split].
Qed.

Lemma starts_lookup ls i o : (i < length ls)%nat -> starts o ls !! i = Some (o + Z.of_nat (str_len (concat (take i ls)))).
Proof.
  revert i o. induction ls as [|l ls IH]; intros i o Hi; [simpl in Hi; lia|]. destruct i as [|i]; simpl; [by rewrite Z.add_0_r|]. simpl in Hi. rewrite IH by lia. rewrite str_len_app. f_equal. lia.
Qed.
Lemma length_starts o ls : length (starts o ls) = length ls.
Proof. revert o. induction ls as [|l ls IH]; intros o; [done|]. simpl. by rewrite IH. Qed.

Lemma find_newline b rest : no_newline b -> str_find [NEWLINE] (b ++ NEWLINE :: rest) = Some (str_len b).
Proof. induction 1 as [|c b Hc _ IH]; [done|]. cbn [app str_find]. unfold starts_with. cbn [strip_prefix]. rewrite (proj2 (Z.eqb_neq _ _)) by (by apply not_eq_sym). by rewrite IH. Qed.
Lemma find_no_newline b : no_newline b -> str_find [NEWLINE] b = None.
Proof. induction 1 as [|c b Hc _ IH]; [done|]. cbn [app str_find]. unfold starts_with. cbn [strip_prefix]. rewrite (proj2 (Z.eqb_neq _ _)) by (by apply not_eq_sym). by rewrite IH. Qed.

Lemma get_line_ok f src i l : of_text f src -> split_lines src !! i = Some l -> get_line f i = Ret (Some (chomp l)).
Proof.
  intros [HS _ HL _ _ _] Hl. unfold get_line, lines. rewrite HL, HS. cbn [obind]. pose proof (lookup_lt_Some _ _ _ Hl) as Hi. unfold line_table. rewrite starts_lookup by done.
  assert (Hsrc : src = concat (take i (split_lines src)) ++ l ++ concat (drop (S i) (split_lines src))).
  { rewrite <- (concat_split_lines src) at 1. rewrite <- (take_drop i (split_lines src)) at 1. by rewrite concat_app, (drop_S _ _ _ Hl). }
  rewrite Z.add_0_l, Nat2Z.id. unfold get_until_newline. rewrite (proj2 (str_from_spec _ _ _) (ex_intro _ _ (conj Hsrc eq_refl))). cbn [unwrap obind].
  destruct (split_lines_shape src i l Hl) as (b & Hb & [->|[-> Hlast]]).
  - rewrite <- app_assoc. simpl. rewrite (find_newline b) by done. rewrite str_to_app. cbn [unwrap obind]. by rewrite chomp_snoc.
  - rewrite drop_ge by lia. simpl. rewrite app_nil_r, find_no_newline by done. cbn [obind]. by rewrite chomp_open.
Qed.

Lemma get_line_none f src i : of_text f src -> (length (split_lines src) <= i)%nat -> get_line f i = Ret None.
Proof. intros [HS _ HL _ _ _] Hi. unfold get_line, lines. rewrite HL. cbn [obind]. unfold line_table. by rewrite lookup_ge_None_2 by (by rewrite length_starts). Qed.

Lemma absolute_exact f p : 0 <= start_pos f -> 0 <= p -> start_pos f + p <= u32_max -> absolute_position f p = start_pos f + p.
Proof. intros ? ? ?. unfold absolute_position, wrap_u32, u32_max in *. rewrite Z.mod_small by lia. lia. Qed.

Lemma concat_take_le (ls : list str) i : (str_len (concat (take i ls)) <= str_len (concat ls))%nat.
Proof. rewrite <- (take_drop i ls) at 2. rewrite concat_app, str_len_app. lia. Qed.

Lemma line_bounds_ok f src i l : of_text f src -> split_lines src !! i = Some l -> 0 <= start_pos f -> start_pos f + Z.of_nat (str_len src) <= u32_max ->
  let start := start_pos f + Z.of_nat (str_len (concat (take i (split_lines src)))) in
  line_bounds f i = Ret (start, start + Z.of_nat (str_len l)).
Proof.
  intros [HS HN HL _ _ _] Hl Hp Hmax. cbv zeta. pose proof (lookup_lt_Some _ _ _ Hl) as Hi. unfold line_bounds, file_is_empty, end_position, lines. rewrite HN.
  pose proof (concat_split_lines src) as HC. pose proof (concat_take_le (split_lines src) i) as H1. pose proof (concat_take_le (split_lines src) (S i)) as H2. rewrite HC in H1, H2.
  assert (HT : str_len (concat (take (S i) (split_lines src))) = (str_len (concat (take i (split_lines src))) + str_len l)%nat).
  { rewrite (take_S_r _ _ _ Hl), concat_app, str_len_app. simpl. by rewrite app_nil_r. }
  rewrite (proj2 (Z.eqb_neq _ 0)).
  2:{ destruct src as [|c src]; [done|]. cbn [str_len]. pose proof (len_utf8_pos c). lia. }
  rewrite HL. cbn [obind]. unfold line_table. rewrite length_starts, (proj2 (Nat.ltb_lt _ _) Hi). cbn [assert_that obind]. rewrite starts_lookup by done. cbn [unwrap obind].
  rewrite Z.add_0_l, absolute_exact by lia. destruct (Nat.eqb_spec i (length (split_lines src) - 1)) as [E|E].
  - rewrite absolute_exact by lia. rewrite take_ge in HT by lia. rewrite HC in HT. f_equal. f_equal. lia.
  - rewrite starts_lookup by lia. cbn [unwrap obind]. rewrite Z.add_0_l, absolute_exact by lia. f_equal. f_equal. lia.
Qed.

(** *** The line a position is in *)

Lemma split_lines_app t w : ends_line t -> split_lines (t ++ w) = split_lines t ++ split_lines w.
Proof.
  intros Ht. assert (G : forall v, split_lines ((v ++ [NEWLINE]) ++ w) = split_lines (v ++ [NEWLINE]) ++ split_lines w).
  { induction v as [|c v IH]; [done|]. cbn [app split_lines]. destruct (c =? NEWLINE); [by rewrite IH|]. rewrite IH. destruct (split_lines (v ++ [NEWLINE])) as [|l ls] eqn:E; [|done].
    apply split_lines_nil in E. by destruct v. }
  destruct Ht as [->|[v ->]]; [done|apply G].
Qed.

Lemma length_split_lines t : ends_line t -> length (split_lines t) = newlines t.
Proof.
  intros [->|[v ->]]; [done|]. unfold newlines. induction v as [|c v IH]; [done|]. cbn [app split_lines newline_table].
  rewrite length_app, (newline_table_count _ (0 + Z.of_nat (len_utf8 c)) 0), <- IH. destruct (c =? NEWLINE); [done|].
  destruct (split_lines (v ++ [NEWLINE])) eqn:E; [|done]. apply split_lines_nil in E. by destruct v.
Qed.

Lemma first_line u w : no_newline u -> u ++ w <> [] -> exists l, split_lines (u ++ w) !! 0%nat = Some l /\ take (length u) (chomp l) = u.
Proof.
  intros Hu Hn. destruct (split_lines (u ++ w)) as [|l ls] eqn:E; [by apply split_lines_nil in E|]. exists l. split; [done|].
  pose proof (concat_split_lines (u ++ w)) as HC. rewrite E in HC. cbn [concat] in HC.
  destruct (split_lines_shape (u ++ w) 0 l) as (b & Hb & Hl); [by rewrite E|].
  assert (Hp : exists v, b = u ++ v).
  { destruct Hl as [->|[-> Hs]].
    - rewrite <- app_assoc in HC. apply app_eq_inv in HC as [(k & -> & Hk)|(k & -> & Hk)]; [by exists k|]. destruct k as [|x k]; [exists []; by rewrite !app_nil_r|].
      injection Hk as <- _. unfold no_newline in Hu. apply list.Forall_app in Hu as [_ Hx]. by inversion Hx.
    - rewrite E in Hs. destruct ls; [|done]. cbn in HC. rewrite app_nil_r in HC. by exists w. }
  destruct Hp as [v ->]. assert (HK : chomp l = u ++ v) by (destruct Hl as [->|[-> _]]; [apply chomp_snoc|by apply chomp_open]). rewrite HK. by rewrite take_app_length.
Qed.

(** The characters after the last newline. *)
Definition last_line (s : str) : str := snd (foldl (fun p c => if c =? NEWLINE then (p.1 ++ p.2 ++ [c], []) else (p.1, p.2 ++ [c])) ([], []) s).

Lemma last_line_ok t u : ends_line t -> no_newline u -> last_line (t ++ u) = u.
Proof.
  intros Ht Hu. unfold last_line. rewrite foldl_app. assert (H : exists x, foldl (fun p c => if c =? NEWLINE then (p.1 ++ p.2 ++ [c], []) else (p.1, p.2 ++ [c])) ([], []) t = (x, [] : str)).
  { destruct Ht as [->|[v ->]]; [by eexists|]. rewrite foldl_app. cbn [foldl]. change (NEWLINE =? NEWLINE) with true. by eexists. }
  destruct H as [x ->]. enough (G : forall y, foldl (fun p c => if c =? NEWLINE then (p.1 ++ p.2 ++ [c], []) else (p.1, p.2 ++ [c])) (x, y) u = (x, y ++ u)) by (by rewrite G).
  induction Hu as [|c u Hc _ IH]; intros y; [by rewrite app_nil_r|]. cbn [foldl]. rewrite (proj2 (Z.eqb_neq _ _) Hc). cbn [fst snd]. rewrite IH. by rewrite <- app_assoc.
Qed.

Lemma get_line_at f t u w : of_text f ((t ++ u) ++ w) -> ends_line t -> no_newline u -> u ++ w <> [] ->
  exists l, get_line f (newlines t) = Ret (Some l) /\ take (length u) l = u.
Proof.
  intros Hf Ht Hu Hn. destruct (first_line u w Hu Hn) as (l & Hl & HT). exists (chomp l). split; [|done]. apply (get_line_ok f _ _ _ Hf).
  rewrite <- app_assoc, split_lines_app by done. rewrite lookup_app_r by (by rewrite length_split_lines). by rewrite length_split_lines, Nat.sub_diag.
Qed.
