(* ===== verification/SourceNorm.v ===== *)
(** * Source files: normalization

    The text without its byte order mark and without the carriage returns of its line endings ([normalized_text]), that the
    gap buffer computes it, and that the recorded positions lead from it to the original text and back. *)
From Stdlib Require Import ZArith Lia Sorted.
From stdpp Require Import base numbers list option.
From S2P Require Import Prelude RustStr RustSlice Swar SourceFile SourceFacts.
#[local] Open Scope Z_scope.
#[local] Open Scope rust_scope.

(** ** The normalized text *)

(** A carriage return in front of a line feed. *)
Definition is_crlf (b : Z) (l : list Z) : bool := (b =? CR) && match l with c :: _ => c =? NEWLINE | [] => false end.

(** Without the carriage returns of line endings; on characters and on bytes. *)
Fixpoint strip_crlf (l : list Z) : list Z :=
  match l with [] => [] | b :: l => if is_crlf b l then strip_crlf l else b :: strip_crlf l end.

Definition drop_bom (s : str) : str := if has_bom s then tail s else s.
Definition normalized_text (s : str) : str := strip_crlf (drop_bom s).

(** The records made for it: after each line ending that lost its carriage return, the position and the bytes lost so far. *)
Fixpoint crlf_positions (l : list Z) (cursor gap : Z) : list NormalizedPos :=
  match l with
  | [] => []
  | b :: l =>
      if is_crlf b l then mkNormalized (cursor + 1) (gap + 1) :: crlf_positions l cursor (gap + 1)
      else crlf_positions l (cursor + 1) gap
  end.

Definition bom_positions (s : str) : list NormalizedPos := if has_bom s then [mkNormalized 0 3] else [].
Definition bom_gap (s : str) : Z := if has_bom s then 3 else 0.
Definition text_positions (s : str) : list NormalizedPos := bom_positions s ++ crlf_positions (as_bytes (drop_bom s)) 0 (bom_gap s).

(** ** Decoding *)

Lemma lor_add a b k : 0 <= k -> 0 <= b < 2 ^ k -> Z.lor (Z.shiftl a k) b = a * 2 ^ k + b.
Proof.
  intros Hk Hb. rewrite <- Z.shiftl_mul_pow2 by done. rewrite <- Z.add_lor_land. assert (E : Z.land (Z.shiftl a k) b = 0); [|lia].
  apply Z.bits_inj'. intros n Hn. rewrite Z.land_spec, Z.bits_0. destruct (Z.ltb_spec n k).
  - by rewrite Z.shiftl_spec_low.
  - rewrite <- (Z.mod_small b (2 ^ k)) by done. rewrite Z.mod_pow2_bits_high by lia. apply andb_false_r.
Qed.

Lemma land_low x k : 0 <= k -> Z.land x (Z.ones k) = x mod 2 ^ k.
Proof. apply Z.land_ones. Qed.

(** The lead and continuation bytes, as sums. *)
Lemma lead_2 x : 0 <= x < 64 -> Z.lor 0xC0 x = 192 + x.
Proof. intros H. change 0xC0 with (Z.shiftl 3 6). rewrite lor_add by lia. done. Qed.
Lemma lead_3 x : 0 <= x < 16 -> Z.lor 0xE0 x = 224 + x.
Proof. intros H. change 0xE0 with (Z.shiftl 14 4). rewrite lor_add by lia. done. Qed.
Lemma lead_4 x : 0 <= x < 8 -> Z.lor 0xF0 x = 240 + x.
Proof. intros H. change 0xF0 with (Z.shiftl 30 3). rewrite lor_add by lia. done. Qed.
Lemma continuation x : Z.lor 0x80 (Z.land x 0x3F) = 128 + x mod 64.
Proof.
  change 0x3F with (Z.ones 6). rewrite land_low by lia. change (2 ^ 6) with 64. pose proof (Z.mod_pos_bound x 64 ltac:(lia)). change 0x80 with (Z.shiftl 2 6). rewrite lor_add by lia. done.
Qed.
Lemma continuation_bits x : Z.land (128 + x mod 64) 0x3F = x mod 64.
Proof. change 0x3F with (Z.ones 6). rewrite land_low by lia. change (2 ^ 6) with 64. rewrite Z.add_mod, Z.mod_mod by lia. apply Z.mod_mod. lia. Qed.
Lemma lead_bits x h k : 0 <= k -> h mod 2 ^ k = 0 -> 0 <= x < 2 ^ k -> Z.land (h + x) (Z.ones k) = x.
Proof. intros Hk Hh Hx. rewrite land_low by done. rewrite Z.add_mod, Hh, Z.add_0_l, Z.mod_mod by lia. by apply Z.mod_small. Qed.
Lemma shift_div c k : 0 <= k -> Z.shiftr c k = c / 2 ^ k.
Proof. apply Z.shiftr_div_pow2. Qed.

Lemma decode_char c rest : is_scalar c = true -> from_utf8_unchecked (encode_utf8 c ++ rest) = c :: from_utf8_unchecked rest.
Proof.
  intros Hs. assert (Hc : 0 <= c < 1114112) by (unfold is_scalar in Hs; propify; destruct Hs; propify; lia). unfold encode_utf8. rewrite !shift_div by lia.
  change (2 ^ 6) with 64. change (2 ^ 12) with 4096. change (2 ^ 18) with 262144. rewrite !continuation.
  pose proof (Z.mod_pos_bound c 64 ltac:(lia)). pose proof (Z.mod_pos_bound (c / 64) 64 ltac:(lia)). pose proof (Z.mod_pos_bound (c / 4096) 64 ltac:(lia)).
  destruct (c <? 128) eqn:E1; [cbn [app from_utf8_unchecked]; by rewrite E1|]. destruct (c <? 2048) eqn:E2; [|destruct (c <? 65536) eqn:E3]; propify.
  - assert (0 <= c / 64 < 32) by (split; [apply Z.div_pos; lia|apply Z.div_lt_upper_bound; lia]). rewrite lead_2 by lia. cbn [app from_utf8_unchecked].
    rewrite !(proj2 (Z.ltb_ge _ 128)), (proj2 (Z.ltb_lt _ 224)) by lia. rewrite continuation_bits. change 0x1F with (Z.ones 5). rewrite lead_bits, lor_add by (done || lia).
    f_equal. change (2 ^ 6) with 64. rewrite Z.mul_comm. symmetry. apply Z.div_mod. lia.
  - assert (0 <= c / 4096 < 16) by (split; [apply Z.div_pos; lia|apply Z.div_lt_upper_bound; lia]). rewrite lead_3 by lia. cbn [app from_utf8_unchecked].
    rewrite !(proj2 (Z.ltb_ge _ 128)), (proj2 (Z.ltb_ge _ 224)), (proj2 (Z.ltb_lt _ 240)) by lia. rewrite !continuation_bits. change 0x0F with (Z.ones 4). rewrite lead_bits by (done || lia). rewrite (lor_add _ (c mod 64) 6) by lia. rewrite lor_add by lia.
    f_equal. change (2 ^ 6) with 64. change (2 ^ 12) with 4096. Z.to_euclidean_division_equations; lia.
  - assert (0 <= c / 262144 < 8) by (split; [apply Z.div_pos; lia|apply Z.div_lt_upper_bound; lia]). rewrite lead_4 by lia. cbn [app from_utf8_unchecked].
    rewrite !(proj2 (Z.ltb_ge _ 128)), (proj2 (Z.ltb_ge _ 224)), (proj2 (Z.ltb_ge _ 240)) by lia. rewrite !continuation_bits. change 0x07 with (Z.ones 3). rewrite lead_bits by (done || lia). rewrite (lor_add _ (c mod 64) 6) by lia. rewrite (lor_add _ _ 12) by lia. rewrite lor_add by lia.
    f_equal. change (2 ^ 6) with 64. change (2 ^ 12) with 4096. change (2 ^ 18) with 262144. Z.to_euclidean_division_equations; lia.
Qed.

Lemma decode_bytes s : wf_str s -> from_utf8_unchecked (as_bytes s) = s.
Proof. induction 1 as [|c s Hc _ IH]; [done|]. cbn [as_bytes]. by rewrite decode_char, IH. Qed.

(** ** Finding the line endings *)

Fixpoint first_crlf (l : list Z) : option nat :=
  match l with [] => None | b :: l => if is_crlf b l then Some O else S <$> first_crlf l end.

Lemma first_crlf_app l1 l2 : Forall (fun b => (b =? CR) = false) l1 -> first_crlf (l1 ++ l2) = (fun i => length l1 + i)%nat <$> first_crlf l2.
Proof.
  induction 1 as [|b l1 Hb _ IH]; [simpl; by destruct (first_crlf l2)|]. cbn [app first_crlf]. unfold is_crlf. rewrite Hb. cbn [andb]. rewrite IH. by destruct (first_crlf l2).
Qed.

Lemma find_crlf_from_ok fuel src i : (length src - i < fuel)%nat -> find_crlf_from fuel src i = Ret ((fun j => i + j)%nat <$> first_crlf (drop i src)).
Proof.
  revert i. induction fuel as [|fuel IH]; intros i Hf; [lia|]. cbn [find_crlf_from]. unfold find_cr. set (rest := drop i src). destruct (position (fun b => b =? CR) rest) as [idx|] eqn:E.
  - apply position_Some in E as (l1 & x & l2 & E & <- & Hx & HA). propify. subst x. rewrite E, first_crlf_app by done.
    assert (HL : length rest = (length src - i)%nat) by (unfold rest; apply length_drop). rewrite E, length_app in HL. simpl in HL.
    rewrite lookup_app_r by lia. replace (length l1 + 1 - length l1)%nat with 1%nat by lia. cbn [first_crlf lookup list_lookup]. unfold is_crlf. rewrite Z.eqb_refl. cbn [andb].
    assert (HD : drop (i + (length l1 + 1)) src = l2).
    { rewrite <- drop_drop. fold rest. rewrite E. rewrite drop_app_ge by lia. replace (length l1 + 1 - length l1)%nat with 1%nat by lia. done. }
    rewrite IH, HD by lia. destruct l2 as [|c l2]; cbn [lookup list_lookup].
    + done.
    + destruct (Z.eqb_spec c NEWLINE) as [->|Hc]; [simpl; by rewrite Nat.add_0_r|]. rewrite bool_decide_false by congruence.
      destruct (first_crlf (c :: l2)) as [j|] eqn:Ej; rewrite ?Ej; cbn [fmap option_fmap option_map]; [|done]. f_equal. f_equal. lia.
  - apply position_None in E. rewrite <- (app_nil_r rest), first_crlf_app by done. done.
Qed.

Lemma find_crlf_ok src : find_crlf src = Ret (first_crlf src).
Proof. unfold find_crlf. rewrite find_crlf_from_ok by lia. rewrite drop_0. by destruct (first_crlf src). Qed.

Lemma first_crlf_None l c g : first_crlf l = None -> strip_crlf l = l /\ crlf_positions l c g = [].
Proof.
  revert c g. induction l as [|b l IH]; intros c g; [done|]. cbn [first_crlf strip_crlf crlf_positions]. destruct (is_crlf b l); [done|]. destruct (first_crlf l); [done|]. intros _.
  destruct (IH (c + 1) g eq_refl) as [-> ->]. done.
Qed.

Lemma first_crlf_Some l i c g : first_crlf l = Some i ->
  exists a r, l = a ++ CR :: NEWLINE :: r /\ length a = i /\ strip_crlf l = a ++ strip_crlf (NEWLINE :: r)
    /\ crlf_positions l c g = mkNormalized (c + Z.of_nat i + 1) (g + 1) :: crlf_positions (NEWLINE :: r) (c + Z.of_nat i) (g + 1).
Proof.
  revert i c g. induction l as [|b l IH]; intros i c g; [done|]. cbn [first_crlf strip_crlf crlf_positions]. destruct (is_crlf b l) eqn:Eb.
  - intros [= <-]. unfold is_crlf in Eb. propify. subst b. destruct l as [|x r]; [done|]. match goal with H : (x =? NEWLINE) = true |- _ => apply Z.eqb_eq in H; subst x end.
    exists [], r. simpl Z.of_nat. rewrite Z.add_0_r. done.
  - destruct (first_crlf l) as [j|]; [|done]. intros [= <-]. destruct (IH j (c + 1) g eq_refl) as (a & r & -> & <- & -> & ->). exists (b :: a), r. cbn [length app]. split_and!; try done.
    replace (c + 1 + Z.of_nat (length a)) with (c + Z.of_nat (S (length a))) by lia. done.
Qed.

(** ** The gap buffer *)

Lemma gap_loop_ok fuel done_ tail gap cursor og np rest :
  (gap <= length tail)%nat -> drop gap tail = rest -> (length rest < fuel)%nat ->
  Z.of_nat cursor + Z.of_nat (length rest) < u32_max -> 0 <= og -> og + Z.of_nat gap + Z.of_nat (length rest) <= u32_max ->
  exists buf gap', gap_loop fuel done_ tail gap cursor og np = Ret (buf, gap', np ++ crlf_positions rest (Z.of_nat cursor) (og + Z.of_nat gap))
    /\ take (length buf - gap') buf = done_ ++ strip_crlf rest.
Proof.
  revert done_ tail gap cursor np rest. induction fuel as [|fuel IH]; intros done_ tail gap cursor np rest Hg Hd Hf Hc Ho Hx; [lia|]. cbn [gap_loop]. rewrite Hd, find_crlf_ok. cbn [obind].
  assert (HL : length tail = (gap + length rest)%nat) by (rewrite <- Hd, length_drop; lia).
  destruct (first_crlf rest) as [i|] eqn:Ei.
  - destruct (first_crlf_Some rest i (Z.of_nat cursor) (og + Z.of_nat gap) Ei) as (a & r & Hr & Ha & -> & ->). replace (i + gap - gap)%nat with i by lia.
    assert (Ht : take i rest = a) by (rewrite Hr, <- Ha; apply take_app_length). rewrite Ht.
    assert (Hd1 : drop i (a ++ drop i tail) = drop i tail) by (rewrite <- Ha at 1; apply drop_app_length). assert (Ht1 : take i (a ++ drop i tail) = a) by (rewrite <- Ha at 1; apply take_app_length).
    rewrite Hd1, Ht1. rewrite Hr, length_app in HL, Hf, Hc, Hx. simpl in HL, Hf, Hc, Hx. rewrite length_drop. rewrite (proj2 (Nat.eqb_neq _ _)) by lia.
    destruct (IH (done_ ++ a) (drop i tail) (S gap) (cursor + i)%nat (np ++ [mkNormalized (pos_from_usize (cursor + i + 1)) (wrap_u32 (og + wrap_u32 (Z.of_nat (S gap))))]) (NEWLINE :: r)) as (buf & gap' & E & Hb).
    + rewrite length_drop. lia.
    + rewrite drop_drop. replace (i + S gap)%nat with (gap + S i)%nat by lia. rewrite <- drop_drop, Hd, Hr. rewrite <- Ha. replace (S (length a)) with (length a + 1)%nat by lia. by rewrite drop_app_add.
    + simpl. lia.
    + simpl. lia.
    + done.
    + simpl. lia.
    + exists buf, gap'. split; [|by rewrite Hb, <- app_assoc]. rewrite E. f_equal. f_equal. rewrite <- app_assoc. f_equal. cbn [app].
      unfold pos_from_usize, wrap_u32, u32_max in *. rewrite (Z.mod_small (Z.of_nat (cursor + i + 1))), (Z.mod_small (Z.of_nat (S gap))), Z.mod_small by lia.
      replace (Z.of_nat (cursor + i + 1)) with (Z.of_nat cursor + Z.of_nat i + 1) by lia. replace (og + Z.of_nat (S gap)) with (og + Z.of_nat gap + 1) by lia. by rewrite Nat2Z.inj_add.
  - destruct (first_crlf_None rest (Z.of_nat cursor) (og + Z.of_nat gap) Ei) as [-> ->]. rewrite HL. replace (gap + length rest - gap)%nat with (length rest) by lia.
    rewrite take_ge by done. assert (Hd1 : forall x : list Z, drop (length rest) (rest ++ x) = x) by (intros; apply drop_app_length). rewrite Hd1, take_app_length, length_drop, HL.
    replace (gap + length rest - length rest)%nat with gap by lia. rewrite Nat.eqb_refl. exists ((done_ ++ rest) ++ drop (length rest) tail), gap. split; [by rewrite app_nil_r|].
    rewrite length_app, length_drop, HL. replace (length (done_ ++ rest) + (gap + length rest - length rest) - gap)%nat with (length (done_ ++ rest)) by lia. apply take_app_length.
Qed.

(** ** Characters and bytes *)

Lemma head_newline s : wf_str s -> match as_bytes s with c :: _ => c =? NEWLINE | [] => false end = match s with c :: _ => c =? NEWLINE | [] => false end.
Proof.
  intros Hw. destruct Hw as [|c s Hc _]; [done|]. cbn [as_bytes]. destruct (is_ascii c) eqn:Ea; [by rewrite encode_utf8_ascii|].
  pose proof (first_byte_high c Hc Ea) as Hb. pose proof (length_encode_utf8 c). pose proof (len_utf8_pos c). destruct (encode_utf8 c) as [|b l]; [simpl in *; lia|]. simpl in Hb. cbn [app].
  unfold is_ascii in Ea. propify. rewrite !(proj2 (Z.eqb_neq _ _)); [done| |]; unfold NEWLINE; lia.
Qed.

Lemma strip_high l1 l2 : Forall (fun b => 128 <= b) l1 -> strip_crlf (l1 ++ l2) = l1 ++ strip_crlf l2.
Proof. induction 1 as [|b l1 Hb _ IH]; [done|]. cbn [app strip_crlf]. unfold is_crlf. rewrite (proj2 (Z.eqb_neq b CR)) by (unfold CR; lia). cbn [andb]. by rewrite IH. Qed.

Lemma strip_as_bytes s : wf_str s -> strip_crlf (as_bytes s) = as_bytes (strip_crlf s).
Proof.
  induction 1 as [|c s Hc Hs IH]; [done|]. cbn [as_bytes strip_crlf]. destruct (is_ascii c) eqn:Ea.
  - rewrite encode_utf8_ascii by done. cbn [app strip_crlf]. unfold is_crlf. rewrite (head_newline s Hs). destruct ((c =? CR) && _); [done|]. cbn [as_bytes]. rewrite encode_utf8_ascii by done. by rewrite IH.
  - rewrite strip_high by (apply list.Forall_forall; intros b Hb; by eapply encode_utf8_high). unfold is_crlf. unfold is_ascii in Ea. propify. rewrite (proj2 (Z.eqb_neq c CR)) by (unfold CR; lia).
    cbn [andb as_bytes]. by rewrite IH.
Qed.

Lemma strip_wf s : wf_str s -> wf_str (strip_crlf s).
Proof. induction 1 as [|c s Hc Hs IH]; [constructor|]. cbn [strip_crlf]. destruct (is_crlf c s); [done|]. by constructor. Qed.
Lemma drop_bom_wf s : wf_str s -> wf_str (drop_bom s).
Proof. intros Hw. unfold drop_bom. destruct (has_bom s); [|done]. destruct Hw; [constructor|done]. Qed.
Lemma normalized_wf s : wf_str s -> wf_str (normalized_text s).
Proof. intros Hw. by apply strip_wf, drop_bom_wf. Qed.

Lemma strip_length l : (length (strip_crlf l) <= length l)%nat.
Proof. induction l as [|b l IH]; [done|]. cbn [strip_crlf]. destruct (is_crlf b l); simpl; lia. Qed.

Lemma strip_same l c g : strip_crlf l = l -> crlf_positions l c g = [].
Proof.
  intros H. destruct (first_crlf l) as [i|] eqn:E; [|by apply first_crlf_None]. destruct (first_crlf_Some l i c g E) as (a & r & Hl & _ & Hs & _). exfalso.
  rewrite H in Hs. rewrite Hl in Hs at 1. apply (f_equal length) in Hs. rewrite !length_app in Hs. pose proof (strip_length (NEWLINE :: r)). simpl in *. lia.
Qed.

Lemma str_len_strip s : wf_str s -> (str_len (strip_crlf s) <= str_len s)%nat.
Proof. intros Hw. rewrite <- !length_as_bytes, <- strip_as_bytes by done. apply strip_length. Qed.

Lemma len_bom s : (str_len s = str_len (drop_bom s) + Z.to_nat (bom_gap s))%nat.
Proof.
  unfold drop_bom, bom_gap. destruct s as [|c s]; [done|]. cbn [has_bom]. destruct (Z.eqb_spec c BOM) as [->|]; [|simpl; lia]. cbn [tail str_len]. change (len_utf8 BOM) with 3%nat. lia.
Qed.

Lemma no_cr_strip s : has_cr s = false -> strip_crlf (as_bytes s) = as_bytes s.
Proof.
  unfold has_cr. generalize (as_bytes s) as l. induction l as [|b l IH]; [done|]. cbn [existsb]. intros [Hb Hl]%orb_false_iff. cbn [strip_crlf]. unfold is_crlf. rewrite Hb. cbn [andb]. by rewrite IH.
Qed.

Lemma as_bytes_inj s s' : wf_str s -> wf_str s' -> as_bytes s = as_bytes s' -> s = s'.
Proof. intros H H' E. by rewrite <- (decode_bytes s H), E, decode_bytes. Qed.

Lemma normalize_newlines_ok s np : wf_str s -> (forall l, list.last np = Some l -> 0 <= np_diff l) ->
  Z.of_nat (str_len s) + match list.last np with Some l => np_diff l | None => 0 end < u32_max ->
  normalize_newlines s np = Ret (strip_crlf s, np ++ crlf_positions (as_bytes s) 0 (match list.last np with Some l => np_diff l | None => 0 end)).
Proof.
  intros Hw Hp Hmax. unfold normalize_newlines. destruct (has_cr s) eqn:Ec; cbn [negb].
  - set (og := match list.last np with Some l => np_diff l | None => 0 end) in *. assert (Hog : 0 <= og) by (unfold og; destruct (list.last np); [by apply Hp|lia]).
    destruct (gap_loop_ok (S (length (as_bytes s))) [] (as_bytes s) 0 0 og np (as_bytes s)) as (buf & gap & -> & Hb); rewrite ?drop_0, ?length_as_bytes; try done; try lia.
    cbn [obind]. rewrite Hb, strip_as_bytes by done. cbn [app]. rewrite decode_bytes by (by apply strip_wf). by rewrite Z.add_0_r.
  - pose proof (no_cr_strip s Ec) as HS. rewrite (strip_same _ _ _ HS), app_nil_r. f_equal. f_equal. rewrite strip_as_bytes in HS by done. symmetry.
    apply as_bytes_inj; [by apply strip_wf|done|done].
Qed.

Lemma normalize_src_ok s : wf_str s -> Z.of_nat (str_len s) <= MAX_FILE_SIZE -> normalize_src s = Ret (normalized_text s, text_positions s).
Proof.
  intros Hw Hmax. pose proof (len_bom s) as HL. unfold normalize_src, remove_bom, normalized_text, text_positions, bom_positions, drop_bom, bom_gap, MAX_FILE_SIZE in *. destruct (has_bom s) eqn:Eb.
  - destruct s as [|c s]; [done|]. cbn [has_bom] in Eb. apply Z.eqb_eq in Eb. subst c. change (str_from 3 (BOM :: s)) with (str_from (str_len [BOM]) ([BOM] ++ s)). rewrite str_from_app.
    cbn [unwrap obind tail app]. inversion_clear Hw. cbn [tail] in HL. rewrite normalize_newlines_ok; [done|done|by intros l [= <-]|]. simpl list.last. cbn [np_diff]. change (Z.to_nat 3) with 3%nat in HL. lia.
  - cbn [obind]. rewrite normalize_newlines_ok; [done|done|done|]. simpl. lia.
Qed.

Lemma find_none_crlf s : str_find [CR; NEWLINE] s = None -> strip_crlf s = s.
Proof.
  induction s as [|c s IH]; [done|]. cbn [str_find strip_crlf]. unfold starts_with, is_crlf. cbn [strip_prefix]. rewrite (Z.eqb_sym c CR). destruct (CR =? c); cbn [andb].
  - destruct s as [|d s]; [done|]. rewrite (Z.eqb_sym d). destruct (NEWLINE =? d) eqn:Ed; [done|]. destruct (str_find _ (d :: s)); [done|]. intros _. by rewrite IH.
  - destruct (str_find _ s); [done|]. intros _. by rewrite IH.
Qed.

Lemma needs_not s : wf_str s -> needs_normalization s = false -> normalized_text s = s /\ text_positions s = [].
Proof.
  intros Hw H. unfold needs_normalization in H. apply orb_false_iff in H as [Hb Hc]. unfold normalized_text, text_positions, bom_positions, drop_bom, bom_gap. rewrite Hb.
  assert (HS : strip_crlf s = s).
  { apply andb_false_iff in Hc as [Hc|Hc].
    - apply as_bytes_inj; [by apply strip_wf|done|]. rewrite <- strip_as_bytes by done. by apply no_cr_strip.
    - apply find_none_crlf. unfold has_crlf in Hc. by destruct (str_find _ s). }
  split; [done|]. cbn [app]. apply strip_same. by rewrite strip_as_bytes, HS by done.
Qed.

(** ** Loading a file *)

Lemma source_file_new_ok target src : wf_str src -> Z.of_nat (str_len src) <= MAX_FILE_SIZE ->
  exists f, source_file_new target src = Ret (Some f) /\ of_text f (normalized_text src) /\ normalized_pos f = text_positions src
    /\ start_pos f = 0 /\ unnormalized_source_len f = Z.of_nat (str_len src).
Proof.
  intros Hw Hmax. unfold source_file_new. rewrite (proj2 (Z.ltb_ge _ _) Hmax).
  assert (HN : (if needs_normalization src then normalize_src src else Ret (src, [])) = Ret (normalized_text src, text_positions src)).
  { destruct (needs_normalization src) eqn:E; [by apply normalize_src_ok|]. destruct (needs_not src Hw E) as [-> ->]. done. }
  rewrite HN. cbn [obind]. assert (HL : Z.of_nat (str_len (normalized_text src)) <= MAX_FILE_SIZE).
  { unfold normalized_text. pose proof (str_len_strip (drop_bom src) (drop_bom_wf _ Hw)). pose proof (len_bom src). lia. }
  rewrite (proj2 (Z.ltb_ge _ _) HL). rewrite analyze_source_file_ok by (done || by apply normalized_wf). cbn [obind]. eexists. split; [done|]. split; [|done].
  split; try done. by apply normalized_wf.
Qed.

(** ** Positions *)

(** Where the units of the original bytes start, a line ending being one unit, and where they end; the [n]-th is the
    original position of the [n]-th normalized byte. *)
Fixpoint unit_starts (l : list Z) (o : Z) : list Z :=
  match l with
  | [] => [o]
  | b :: l' =>
      if is_crlf b l' then match l' with _ :: l'' => o :: unit_starts l'' (o + 2) | [] => [] end
      else o :: unit_starts l' (o + 1)
  end.
Definition original_positions (src : str) : list Z := unit_starts (as_bytes (drop_bom src)) (bom_gap src).

(** The difference of the last record whose key is at most [t]. *)
Fixpoint last_le (key : NormalizedPos -> Z) (nps : list NormalizedPos) (t g : Z) : Z :=
  match nps with [] => g | np :: nps => if key np <=? t then last_le key nps t (np_diff np) else g end.

Definition last_diff (nps : list NormalizedPos) (g : Z) : Z := match list.last nps with Some np => np_diff np | None => g end.

Lemma last_diff_cons np nps g : last_diff (np :: nps) g = last_diff nps (np_diff np).
Proof. unfold last_diff. rewrite last_cons. by destruct (list.last nps). Qed.

Lemma last_le_split key l1 l2 t g : Forall (fun np => key np <= t) l1 -> Forall (fun np => t < key np) l2 -> last_le key (l1 ++ l2) t g = last_diff l1 g.
Proof.
  intros H1 H2. revert g. induction H1 as [|np l1 Hn _ IH]; intros g; cbn [app last_le].
  - destruct H2 as [|np l2 Hn _]; [done|]. cbn [last_le]. by rewrite (proj2 (Z.leb_gt _ _) Hn).
  - by rewrite (proj2 (Z.leb_le _ _) Hn), IH, last_diff_cons.
Qed.

Lemma sorted_lookup (key : NormalizedPos -> Z) nps i j x y : StronglySorted (fun x y => key x < key y) nps -> (i < j)%nat -> nps !! i = Some x -> nps !! j = Some y -> key x < key y.
Proof.
  intros Hs. revert i j. induction Hs as [|np nps _ IH Hn]; intros i j Hij Hx Hy; [done|]. destruct j as [|j]; [lia|]. destruct i as [|i]; simpl in *.
  - injection Hx as <-. rewrite list.Forall_forall in Hn. apply Hn. by eapply list_elem_of_lookup_2.
  - by apply (IH i j); [lia| |].
Qed.

Lemma sorted_split (key : NormalizedPos -> Z) nps t : StronglySorted (fun x y => key x < key y) nps ->
  exists l1 l2, nps = l1 ++ l2 /\ Forall (fun np => key np <= t) l1 /\ Forall (fun np => t < key np) l2.
Proof.
  induction 1 as [|np nps Hs IH Hn]; [exists [], []; split; [done|]; split; constructor|]. destruct (decide (key np <= t)) as [Hk|Hk].
  - destruct IH as (l1 & l2 & -> & H1 & H2). exists (np :: l1), l2. split_and!; try done. by constructor.
  - exists [], (np :: nps). split; [done|]. split; [constructor|]. constructor; [lia|]. eapply list.Forall_impl; [exact Hn|]. simpl. lia.
Qed.

Definition search (key : NormalizedPos -> Z) (nps : list NormalizedPos) (t : Z) : nat + nat := binary_search_by (fun np => key np ?= t) nps.

Lemma search_last key f nps t : normalized_pos f = nps -> StronglySorted (fun x y => key x < key y) nps -> diff_at f (search key nps t) = last_le key nps t 0.
Proof.
  intros Hf Hs. destruct (sorted_split key nps t Hs) as (l1 & l2 & E & H1 & H2). rewrite E, last_le_split by done. rewrite <- E.
  assert (HO : ordered (fun np => key np ?= t) nps).
  { intros i j x y Hij Hx Hy. pose proof (sorted_lookup key nps i j x y Hs Hij Hx Hy). destruct (Z.compare_spec (key x) t), (Z.compare_spec (key y) t); simpl; lia. }
  pose proof (binary_search_by_spec (fun np => key np ?= t) nps HO) as HB. fold (search key nps t) in HB.
  assert (HL : forall i np, nps !! i = Some np -> (i < length l1)%nat <-> key np <= t).
  { intros i np Hi. rewrite E in Hi. rewrite list.Forall_forall in H1, H2. destruct (decide (i < length l1)%nat) as [Hlt|Hge].
    - rewrite lookup_app_l in Hi by done. split; [|done]. intros _. apply H1. by eapply list_elem_of_lookup_2.
    - rewrite lookup_app_r in Hi by lia. pose proof (H2 np ltac:(by eapply list_elem_of_lookup_2)). split; lia. }
  destruct (search key nps t) as [i|i]; unfold diff_at; rewrite Hf.
  - destruct HB as (np & Hi & Heq). apply Z.compare_eq in Heq. rewrite Hi. cbn [fmap option_fmap option_map default]. assert (Hlt := proj2 (HL i np Hi) ltac:(lia)).
    assert (Hlast : S i = length l1).
    { destruct (decide (S i = length l1)) as [|Hne]; [done|]. destruct (lookup_lt_is_Some_2 nps (S i)) as [np' Hi']; [rewrite E, length_app; lia|].
      pose proof (proj1 (HL (S i) np' Hi') ltac:(lia)). pose proof (sorted_lookup key nps i (S i) np np' Hs ltac:(lia) Hi Hi'). lia. }
    unfold last_diff. rewrite last_lookup, <- Hlast. simpl. rewrite E, lookup_app_l in Hi by lia. by rewrite Hi.
  - destruct HB as (Hle & HLt & HGt). assert (Hlen : i = length l1).
    { destruct (decide (i = length l1)) as [|Hne]; [done|]. destruct (decide (i < length l1)%nat) as [Hlt|Hge].
      - destruct (lookup_lt_is_Some_2 nps i) as [np Hi]; [rewrite E, length_app; lia|]. pose proof (HGt i np ltac:(lia) Hi) as Hg. pose proof (proj1 (HL i np Hi) Hlt). apply Z.compare_gt_iff in Hg. lia.
      - destruct (lookup_lt_is_Some_2 nps (length l1)) as [np Hi]; [lia|]. pose proof (HLt (length l1) np ltac:(lia) Hi) as Hg. cbv beta in Hg. rewrite Z.compare_lt_iff in Hg. assert (Hk : key np <= t) by lia. apply (HL (length l1) np Hi) in Hk. lia. }
    subst i. unfold last_diff. rewrite last_lookup. destruct (length l1) as [|n] eqn:En; [by destruct l1|]. simpl. rewrite E, lookup_app_l by lia. by destruct (l1 !! n).
Qed.

(** The records of a text: later positions, larger differences, all within the text. *)
Definition later (x y : NormalizedPos) : Prop := np_pos x < np_pos y /\ np_diff x <= np_diff y.

Lemma crlf_positions_bounds l c g : Forall (fun np => c < np_pos np /\ g < np_diff np /\ np_pos np + np_diff np <= c + g + Z.of_nat (length l)) (crlf_positions l c g).
Proof.
  revert c g. induction l as [|b l IH]; intros c g; [constructor|]. cbn [crlf_positions length]. destruct (is_crlf b l) eqn:Eb.
  - unfold is_crlf in Eb. destruct l as [|x l]; [by rewrite andb_false_r in Eb|]. constructor; [simpl; lia|]. eapply list.Forall_impl; [apply IH|]. simpl. lia.
  - eapply list.Forall_impl; [apply IH|]. simpl. lia.
Qed.

Lemma crlf_newline r c g : crlf_positions (NEWLINE :: r) c g = crlf_positions r (c + 1) g.
Proof. done. Qed.

Lemma crlf_positions_sorted n l c g : (length l <= n)%nat -> StronglySorted later (crlf_positions l c g).
Proof.
  revert l c g. induction n as [|n IH]; intros l c g Hn; [destruct l; [constructor|simpl in Hn; lia]|]. destruct l as [|b l]; [constructor|]. simpl in Hn. cbn [crlf_positions].
  destruct (is_crlf b l) eqn:Eb; [|apply IH; lia]. unfold is_crlf in Eb. destruct l as [|x l]; [by rewrite andb_false_r in Eb|]. apply andb_true_iff in Eb as [_ Ex]. apply Z.eqb_eq in Ex. subst x.
  rewrite crlf_newline. simpl in Hn. constructor; [apply IH; lia|]. eapply list.Forall_impl; [apply crlf_positions_bounds|]. intros np. unfold later. simpl. lia.
Qed.

Lemma text_positions_sorted src : StronglySorted later (text_positions src).
Proof.
  unfold text_positions, bom_positions, bom_gap. destruct (has_bom src); [|by eapply crlf_positions_sorted]. cbn [app]. constructor; [by eapply crlf_positions_sorted|].
  eapply list.Forall_impl; [apply crlf_positions_bounds|]. intros np. unfold later. simpl. lia.
Qed.

Lemma text_positions_bounds src : Forall (fun np => 0 <= np_pos np /\ 0 <= np_diff np /\ np_pos np + np_diff np <= Z.of_nat (str_len src)) (text_positions src).
Proof.
  pose proof (len_bom src) as HL. unfold text_positions, bom_positions, bom_gap in *. assert (HB := crlf_positions_bounds (as_bytes (drop_bom src)) 0 (if has_bom src then 3 else 0)).
  rewrite length_as_bytes in HB. apply list.Forall_app. split; [|eapply list.Forall_impl; [exact HB|]; simpl; destruct (has_bom src); lia].
  destruct (has_bom src); repeat constructor; simpl; lia.
Qed.

Lemma key_sorted (key : NormalizedPos -> Z) nps : (forall x y, later x y -> key x < key y) -> StronglySorted later nps -> StronglySorted (fun x y => key x < key y) nps.
Proof. intros Hk. induction 1 as [|np nps _ IH Hn]; constructor; [done|]. eapply list.Forall_impl; [exact Hn|]. auto. Qed.

Lemma last_le_positions n l c g k q : (length l <= n)%nat -> unit_starts l (c + g) !! k = Some q -> last_le np_pos (crlf_positions l c g) (c + Z.of_nat k) g = q - (c + Z.of_nat k).
Proof.
  revert l c g k. induction n as [|n IH]; intros l c g k Hn.
  { destruct l; [|simpl in Hn; lia]. destruct k as [|k]; [|done]. intros [= <-]. simpl. lia. }
  destruct l as [|b l]; [destruct k as [|k]; [|done]; intros [= <-]; simpl; lia|]. simpl in Hn. cbn [unit_starts crlf_positions]. destruct (is_crlf b l) eqn:Eb.
  - unfold is_crlf in Eb. destruct l as [|x l]; [by rewrite andb_false_r in Eb|]. apply andb_true_iff in Eb as [_ Ex]. apply Z.eqb_eq in Ex. subst x. rewrite crlf_newline. cbn [last_le np_pos np_diff]. simpl in Hn.
    destruct k as [|k]; cbn [lookup list_lookup].
    + intros [= <-]. rewrite (proj2 (Z.leb_gt _ _)) by lia. simpl. lia.
    + intros Hk. rewrite (proj2 (Z.leb_le _ _)) by lia. replace (c + g + 2) with (c + 1 + (g + 1)) in Hk by lia. replace (c + Z.of_nat (S k)) with (c + 1 + Z.of_nat k) by lia.
      apply IH; [lia|done].
  - destruct k as [|k]; cbn [lookup list_lookup].
    + intros [= <-]. rewrite (last_le_split np_pos [] (crlf_positions l (c + 1) g)); [cbn; lia|constructor|]. eapply list.Forall_impl; [apply crlf_positions_bounds|]. simpl. lia.
    + intros Hk. replace (c + g + 1) with (c + 1 + g) in Hk by lia. replace (c + Z.of_nat (S k)) with (c + 1 + Z.of_nat k) by lia. apply IH; [lia|done].
Qed.

Lemma text_diff src k q : original_positions src !! k = Some q -> last_le np_pos (text_positions src) (Z.of_nat k) 0 = q - Z.of_nat k.
Proof.
  unfold original_positions, text_positions, bom_positions, bom_gap. intros Hk. assert (H := last_le_positions (length (as_bytes (drop_bom src))) (as_bytes (drop_bom src)) 0 (if has_bom src then 3 else 0) k q (le_n _) Hk).
  rewrite Z.add_0_l in H. destruct (has_bom src); [|exact H]. cbn [app last_le np_pos np_diff]. rewrite (proj2 (Z.leb_le _ _)) by lia. exact H.
Qed.

Lemma unit_starts_bound n l o k q : (length l <= n)%nat -> unit_starts l o !! k = Some q -> o + Z.of_nat k <= q <= o + Z.of_nat (length l).
Proof.
  revert l o k. induction n as [|n IH]; intros l o k Hn.
  { destruct l; [|simpl in Hn; lia]. destruct k; [|done]. intros [= <-]. simpl. lia. }
  destruct l as [|b l]; [destruct k; [|done]; intros [= <-]; simpl; lia|]. simpl in Hn. cbn [unit_starts length]. destruct (is_crlf b l) eqn:Eb.
  - destruct l as [|x l]; [done|]. simpl in Hn. destruct k as [|k]; [intros [= <-]; simpl; lia|]. cbn [lookup list_lookup length]. intros Hk. apply IH in Hk; lia.
  - destruct k as [|k]; [intros [= <-]; simpl; lia|]. cbn [lookup list_lookup]. intros Hk. apply IH in Hk; lia.
Qed.

Lemma original_bound src k q : original_positions src !! k = Some q -> Z.of_nat k <= q <= Z.of_nat (str_len src).
Proof.
  unfold original_positions. intros Hk. apply (unit_starts_bound (length (as_bytes (drop_bom src)))) in Hk; [|done]. rewrite length_as_bytes in Hk. pose proof (len_bom src) as HL. unfold bom_gap in *. destruct (has_bom src); lia.
Qed.

(** A file loaded from [src], wherever the source map has put it. *)
Definition loaded (f : SourceFile) (src : str) : Prop :=
  of_text f (normalized_text src) /\ normalized_pos f = text_positions src /\ wf_str src /\ Z.of_nat (str_len src) <= MAX_FILE_SIZE
  /\ 0 <= start_pos f /\ start_pos f + Z.of_nat (str_len src) <= u32_max.

Lemma original_position_ok f src k q : loaded f src -> original_positions src !! k = Some q -> original_relative_byte_pos f (start_pos f + Z.of_nat k) = q.
Proof.
  intros (_ & Hn & _ & HM & Hs & Hmax) Hk. pose proof (original_bound src k q Hk) as HB. unfold original_relative_byte_pos, relative_position, wrap_u32, u32_max in *.
  replace (start_pos f + Z.of_nat k - start_pos f) with (Z.of_nat k) by lia. rewrite (Z.mod_small (Z.of_nat k)) by lia. rewrite Hn. fold (search np_pos (text_positions src) (Z.of_nat k)).
  rewrite (search_last np_pos f _ _ Hn) by (apply key_sorted, text_positions_sorted; by intros x y [? _]). rewrite (text_diff src k q Hk), Z.mod_small by lia. lia.
Qed.

Lemma last_diff_bounds nps g : StronglySorted later nps -> Forall (fun np => g <= np_diff np) nps -> g <= last_diff nps g /\ Forall (fun np => np_diff np <= last_diff nps g) nps.
Proof.
  intros Hs. revert g. induction Hs as [|np nps _ IH Hn]; intros g Hg; [split; [cbn; lia|constructor]|]. rewrite last_diff_cons. inversion_clear Hg.
  destruct (IH (np_diff np)) as [H1 H2]; [eapply list.Forall_impl; [exact Hn|]; by intros x [_ ?]|]. split; [lia|]. by constructor.
Qed.

Lemma sum_sorted nps : StronglySorted later nps -> (forall x, x ∈ nps -> wrap_u32 (np_pos x + np_diff x) = np_pos x + np_diff x) ->
  StronglySorted (fun x y => wrap_u32 (np_pos x + np_diff x) < wrap_u32 (np_pos y + np_diff y)) nps.
Proof.
  induction 1 as [|np nps _ IH HF]; intros Hext; constructor; [apply IH; intros; apply Hext; by right|].
  apply list.Forall_forall. intros x Hx. rewrite list.Forall_forall in HF. destruct (HF x Hx). rewrite !Hext by (by left || by right). lia.
Qed.

Lemma normalized_position_ok f src k q : loaded f src -> original_positions src !! k = Some q -> normalized_byte_pos f q = start_pos f + Z.of_nat k.
Proof.
  intros (_ & Hn & _ & HM & Hs & Hmax) Hk. pose proof (original_bound src k q Hk) as HB. pose proof (text_diff src k q Hk) as HD. unfold normalized_byte_pos. rewrite Hn.
  pose proof (text_positions_sorted src) as HS. pose proof (text_positions_bounds src) as HT. unfold MAX_FILE_SIZE, u32_max in *. destruct (sorted_split np_pos (text_positions src) (Z.of_nat k)) as (l1 & l2 & E & H1 & H2).
  { apply key_sorted, HS. by intros x y [? _]. }
  assert (Hext : forall x, x ∈ text_positions src -> wrap_u32 (np_pos x + np_diff x) = np_pos x + np_diff x).
  { intros x Hx. rewrite list.Forall_forall in HT. specialize (HT x Hx). apply Z.mod_small. lia. }
  rewrite E, last_le_split in HD by done. rewrite E in HS, HT, Hext, Hn |- *. apply StronglySorted_app_iff in HS as (HS1 & HS2 & HS12). apply list.Forall_app in HT as [HT1 HT2].
  destruct (last_diff_bounds l1 0 HS1) as [HL1 HL2]; [eapply list.Forall_impl; [exact HT1|]; simpl; lia|].
  assert (HK : StronglySorted (fun x y => wrap_u32 (np_pos x + np_diff x) < wrap_u32 (np_pos y + np_diff y)) (l1 ++ l2)).
  { apply sum_sorted; [|done]. rewrite <- E. apply text_positions_sorted. }
  fold (search (fun np => wrap_u32 (np_pos np + np_diff np)) (l1 ++ l2) q). rewrite (search_last _ f _ _ Hn HK), last_le_split.
  - rewrite HD. unfold wrap_u32. rewrite (Z.mod_small (start_pos f + q)), Z.mod_small by lia. lia.
  - apply list.Forall_forall. intros x Hx. rewrite Hext by (apply elem_of_app; by left). rewrite list.Forall_forall in H1, HL2. specialize (H1 x Hx). specialize (HL2 x Hx). simpl in *. lia.
  - apply list.Forall_forall. intros x Hx. rewrite Hext by (apply elem_of_app; by right). rewrite list.Forall_forall in H2, HT2. specialize (H2 x Hx). specialize (HT2 x Hx). simpl in *.
    assert (last_diff l1 0 <= np_diff x); [|lia]. unfold last_diff. destruct (list.last l1) as [y|] eqn:Ey; [|lia]. apply last_Some_elem_of in Ey.
    rewrite list.Forall_forall in HS12. specialize (HS12 y Ey). rewrite list.Forall_forall in HS12. by destruct (HS12 x Hx).
Qed.

(** ** Prefixes *)

(** A cut that does not separate the two halves of a line ending. *)
Definition clean_cut (l1 l2 : list Z) : Prop := ~ (list.last l1 = Some CR /\ head l2 = Some NEWLINE).

Lemma is_crlf_app b l1 l2 : l1 <> [] -> is_crlf b (l1 ++ l2) = is_crlf b l1.
Proof. by destruct l1. Qed.

Lemma clean_cut_tail b l1 l2 : clean_cut (b :: l1) l2 -> clean_cut l1 l2.
Proof. unfold clean_cut. intros H [H1 H2]. apply H. split; [|done]. rewrite last_cons. by rewrite H1. Qed.

Lemma clean_cut_last b l2 : clean_cut [b] l2 -> is_crlf b l2 = false.
Proof.
  unfold clean_cut, is_crlf. intros H. destruct (Z.eqb_spec b CR) as [->|]; [|done]. destruct l2 as [|x l2]; [done|]. cbn [andb]. apply Z.eqb_neq. intros ->. by apply H.
Qed.

Lemma unit_starts_cut n l1 l2 o : (length l1 <= n)%nat -> clean_cut l1 l2 -> unit_starts (l1 ++ l2) o !! length (strip_crlf l1) = Some (o + Z.of_nat (length l1)).
Proof.
  revert l1 o. induction n as [|n IH]; intros l1 o Hn Hc.
  - destruct l1; [|simpl in Hn; lia]. simpl. rewrite Z.add_0_r. destruct l2 as [|b l2]; [done|]. cbn [unit_starts]. destruct (is_crlf b l2) eqn:E; [|done]. destruct l2; [|done].
    unfold is_crlf in E. by rewrite andb_false_r in E.
  - destruct l1 as [|b l1]; [by apply (IH [] o); [simpl; lia|]|]. simpl in Hn. pose proof (clean_cut_tail _ _ _ Hc) as Hc'. cbn [app unit_starts strip_crlf].
    destruct l1 as [|x l1].
    + cbn [app]. rewrite (clean_cut_last b l2 Hc). destruct (is_crlf b []) eqn:E; [unfold is_crlf in E; by rewrite andb_false_r in E|].
      pose proof (IH [] (o + 1) ltac:(simpl; lia) Hc') as H0. cbn [app strip_crlf length] in H0. etrans; [exact H0|]. f_equal. cbn. lia.
    + rewrite is_crlf_app by done. destruct (is_crlf b (x :: l1)) eqn:E.
      * unfold is_crlf in E. apply andb_true_iff in E as [_ Ex]. apply Z.eqb_eq in Ex. subst x. cbn [app strip_crlf]. assert (En : is_crlf NEWLINE l1 = false) by done. rewrite En. cbn [length].
        simpl in Hn. pose proof (IH l1 (o + 2) ltac:(lia) (clean_cut_tail _ _ _ Hc')) as H0. etrans; [exact H0|]. f_equal. lia.
      * pose proof (IH (x :: l1) (o + 1) ltac:(simpl in *; lia) Hc') as H0. etrans; [exact H0|]. f_equal. cbn [length]. lia.
Qed.

(** Every prefix of the stripped text comes from a prefix of the text. *)
Lemma strip_cut s a r : strip_crlf s = a ++ r -> exists s1 s2, s = s1 ++ s2 /\ strip_crlf s1 = a /\ strip_crlf s2 = r /\ clean_cut s1 s2.
Proof.
  revert a. induction s as [|c s IH]; intros a E.
  - destruct a, r; try done. exists [], []. split_and!; try done. by intros [? _].
  - destruct a as [|x a]; [exists [], (c :: s); split_and!; try done; by intros [? _]|]. cbn [strip_crlf] in E. destruct (is_crlf c s) eqn:Ec.
    + destruct (IH (x :: a) E) as (s1 & s2 & -> & H1 & H2 & HC). exists (c :: s1), s2. destruct s1 as [|d s1]; [done|]. rewrite is_crlf_app in Ec by done.
      split_and!; [done|cbn [strip_crlf]; by rewrite Ec|done|]. unfold clean_cut in *. by rewrite last_cons_cons.
    + injection E as <- E. destruct (IH a E) as (s1 & s2 & -> & H1 & H2 & HC). exists (c :: s1), s2. split_and!; [done| |done|].
      * cbn [strip_crlf]. destruct s1 as [|d s1]; [|rewrite is_crlf_app in Ec by done; rewrite Ec; by rewrite H1]. unfold is_crlf. rewrite andb_false_r. by rewrite H1.
      * destruct s1 as [|d s1]; [|unfold clean_cut in *; by rewrite last_cons_cons]. intros [[= ->] Hh]. cbn [app] in Ec. destruct s2 as [|d s2]; [done|]. injection Hh as ->. done.
Qed.

Lemma clean_cut_bytes s1 s2 : wf_str (s1 ++ s2) -> clean_cut s1 s2 -> clean_cut (as_bytes s1) (as_bytes s2).
Proof.
  intros Hw HC [H1 H2]. apply HC. apply list.Forall_app in Hw as [Hw1 Hw2]. split.
  - destruct s1 as [|c s1 _] using rev_ind; [done|]. rewrite as_bytes_app in H1. simpl in H1. rewrite app_nil_r in H1. rewrite last_snoc. f_equal.
    apply list.Forall_app in Hw1 as [_ Hc]. inversion_clear Hc. destruct (is_ascii c) eqn:Ea; [rewrite encode_utf8_ascii, last_snoc in H1 by done; by injection H1|].
    exfalso. pose proof (length_encode_utf8 c). pose proof (len_utf8_pos c). rewrite last_app in H1. destruct (list.last (encode_utf8 c)) as [b|] eqn:Eb; [|apply last_None in Eb; rewrite Eb in *; simpl in *; lia].
    injection H1 as ->. apply last_Some_elem_of in Eb. pose proof (encode_utf8_high c CR ltac:(done) Ea Eb). unfold CR in *. lia.
  - pose proof (head_newline s2 Hw2) as HH. destruct (as_bytes s2) as [|b l]; [done|]. injection H2 as ->. destruct s2 as [|c s2]; [done|]. rewrite Z.eqb_refl in HH. symmetry in HH. apply Z.eqb_eq in HH. by subst c.
Qed.

Lemma strip_app l1 l2 : clean_cut l1 l2 -> strip_crlf (l1 ++ l2) = strip_crlf l1 ++ strip_crlf l2.
Proof.
  induction l1 as [|b l1 IH]; intros Hc; [done|]. pose proof (IH (clean_cut_tail _ _ _ Hc)) as E. cbn [app strip_crlf]. rewrite E. destruct l1 as [|x l1].
  - cbn [app]. rewrite (clean_cut_last b l2 Hc). unfold is_crlf. by rewrite andb_false_r.
  - rewrite is_crlf_app by done. by destruct (is_crlf b (x :: l1)).
Qed.

Lemma clean_cut_app l1 t l2 : clean_cut l1 (t ++ l2) -> clean_cut t l2 -> clean_cut l1 t /\ clean_cut (l1 ++ t) l2.
Proof.
  unfold clean_cut. destruct t as [|c t _] using rev_ind; [rewrite app_nil_r; intros H _; split; [by intros [_ ?]|done]|].
  intros H1 H2. split.
  - intros [? Hh]. apply H1. split; [done|]. by destruct t.
  - rewrite app_assoc, last_snoc. by rewrite last_snoc in H2.
Qed.

(** A piece of the normalized text comes from a piece of the text. *)
Lemma original_piece src a b c : wf_str src -> normalized_text src = a ++ b ++ c ->
  exists s1 t s2, drop_bom src = s1 ++ t ++ s2 /\ strip_crlf s1 = a /\ strip_crlf t = b
    /\ original_positions src !! str_len a = Some (bom_gap src + Z.of_nat (str_len s1))
    /\ original_positions src !! str_len (a ++ b) = Some (bom_gap src + Z.of_nat (str_len (s1 ++ t))).
Proof.
  intros Hw E. destruct (strip_cut _ _ _ E) as (s1 & r & Ed & H1 & H2 & HC). destruct (strip_cut _ _ _ H2) as (t & s2 & -> & H3 & H4 & HC').
  destruct (clean_cut_app _ _ _ HC HC') as [HC1 HC2]. pose proof (drop_bom_wf src Hw) as Hd. rewrite Ed in Hd.
  exists s1, t, s2. split_and!; try done; unfold original_positions; rewrite Ed.
  - rewrite <- H1. pose proof Hd as [Hd1 _]%list.Forall_app. rewrite as_bytes_app, <- length_as_bytes, <- (strip_as_bytes s1 Hd1).
    rewrite (unit_starts_cut (length (as_bytes s1)) _ _ _ (le_n _)) by (by apply clean_cut_bytes). by rewrite length_as_bytes.
  - rewrite app_assoc in Hd |- *. pose proof Hd as [Hd1 _]%list.Forall_app. rewrite <- H1, <- H3, <- strip_app by done. rewrite as_bytes_app, <- length_as_bytes, <- (strip_as_bytes _ Hd1).
    rewrite (unit_starts_cut (length (as_bytes (s1 ++ t))) _ _ _ (le_n _)) by (by apply clean_cut_bytes). by rewrite length_as_bytes.
Qed.

Lemma bom_prefix src : exists p, src = p ++ drop_bom src /\ Z.of_nat (str_len p) = bom_gap src.
Proof.
  unfold drop_bom, bom_gap. destruct (has_bom src) eqn:E; [|by exists []]. destruct src as [|c src]; [done|]. apply Z.eqb_eq in E. subst c. by exists [BOM].
Qed.
