(* ===== verification/SourceTheorems.v ===== *)
(** * Source files: the results *)
From Stdlib Require Import ZArith Lia Sorted String.
From stdpp Require Import base numbers list gmap option.
From S2P Require Import Prelude RustStr RustSlice SourceFile SourceFacts SourceNorm.
#[local] Open Scope Z_scope.
#[local] Open Scope rust_scope.

(** ** Difference lists *)

Definition diff_width (diffs : list Z) : nat :=
  let longest := foldr Z.max 0 diffs in if longest <=? 0xFF then 1%nat else if longest <=? 0xFFFF then 2%nat else 4%nat.

Lemma windows_bounds ls : Forall (fun x => 0 <= x < 2 ^ 32) (windows ls).
Proof.
  induction ls as [|a [|b ls] IH]; [constructor..|]. cbn [windows]. constructor; [|done]. apply Z.mod_pos_bound. lia.
Qed.

Lemma max_bound diffs x : x ∈ diffs -> x <= foldr Z.max 0 diffs.
Proof. induction 1; cbn [foldr]; lia. Qed.

Lemma width_enough diffs : Forall (fun x => 0 <= x < 2 ^ 32) diffs -> Forall (fun x => 0 <= x < 256 ^ Z.of_nat (diff_width diffs)) diffs.
Proof.
  rewrite !list.Forall_forall. intros H x Hx. pose proof (H x Hx). pose proof (max_bound diffs x Hx). unfold diff_width.
  case_ifs; [change (256 ^ Z.of_nat 1) with 256|change (256 ^ Z.of_nat 2) with 65536|change (256 ^ Z.of_nat 4) with (2 ^ 32)]; lia.
Qed.

Lemma length_le_concat n diffs : length (concat (to_le_bytes n <$> diffs)) = (n * length diffs)%nat.
Proof. induction diffs as [|d diffs IH]; [simpl; lia|]. rewrite fmap_cons. cbn [concat length]. rewrite length_app, length_to_le_bytes, IH. lia. Qed.

Lemma le_diffs_ok n diffs : Forall (fun x => 0 <= x < 256 ^ Z.of_nat n) diffs -> le_diffs n (length diffs) (concat (to_le_bytes n <$> diffs)) = diffs.
Proof.
  induction 1 as [|d diffs Hd _ IH]; [done|]. rewrite fmap_cons. cbn [concat length le_diffs]. pose proof (length_to_le_bytes n d) as HL.
  rewrite take_app_length', drop_app_length' by done. by rewrite from_to_le_bytes, IH.
Qed.

Lemma byte_diffs diffs : Forall (fun x => 0 <= x < 256) diffs -> concat (to_le_bytes 1 <$> diffs) = diffs.
Proof. induction 1 as [|d diffs Hd _ IH]; [done|]. rewrite fmap_cons. cbn [concat]. rewrite IH. change (to_le_bytes 1 d) with [d mod 256]. cbn [app]. f_equal. by apply Z.mod_small. Qed.

Lemma line_starts_windows a ls : Forall (fun x => 0 <= x <= u32_max) (a :: ls) -> line_starts a (windows (a :: ls)) = ls.
Proof.
  revert a. induction ls as [|b ls IH]; intros a H; [done|]. cbn [windows line_starts]. inversion H as [|? ? Ha H']; subst. inversion H' as [|? ? Hb _]; subst.
  assert (E : pos_add a (wrap_u32 (b - a)) = b).
  { unfold pos_add, wrap_u32, u32_max in *. rewrite Zplus_mod_idemp_r. replace (a + (b - a)) with b by lia. apply Z.mod_small. lia. }
  rewrite E. f_equal. by apply IH.
Qed.

Lemma length_windows ls : length (windows ls) = (length ls - 1)%nat.
Proof. induction ls as [|a [|b ls] IH]; [done..|]. cbn [windows length] in *. rewrite IH. lia. Qed.

(** What decoding makes of the encoded lines is read as the lines. *)
Lemma lines_stored ls f : match ls with a :: _ => a = 0 | [] => True end -> Forall (fun x => 0 <= x <= u32_max) ls ->
  exists stored ls', encode_lines ls = Ret stored /\ decode_lines (length ls) stored = Ret ls' /\ (file_lines f = ls' -> lines f = Ret ls).
Proof.
  intros H0 Hb. destruct ls as [|a ls]; [exists None, (Lines []); split; [done|]; split; [done|]; unfold lines; by intros ->|]. subst a.
  pose proof (windows_bounds (0 :: ls)) as HW. apply width_enough in HW. set (diffs := windows (0 :: ls)) in *. set (n := diff_width diffs) in *.
  assert (HL : length ls = length diffs) by (unfold diffs; rewrite length_windows; simpl; lia).
  assert (HR : length (concat (to_le_bytes n <$> diffs)) = (n * length diffs)%nat) by apply length_le_concat.
  eexists _, _. split; [reflexivity|]. fold diffs. change (if foldr Z.max 0 diffs <=? 255 then 1%nat else _) with n.
  cbn [decode_lines length unwrap obind]. rewrite HL, HR, Nat.leb_refl. cbn [assert_that obind]. split; [reflexivity|]. intros Hf. unfold lines. rewrite Hf. unfold convert_diffs_to_lines.
  rewrite <- HR at 1. rewrite firstn_all. cbn [num_diffs raw_diffs bytes_per_diff]. rewrite <- HR, firstn_all.
  assert (Hn : n = 1%nat \/ n = 2%nat \/ n = 4%nat) by (unfold n, diff_width; case_ifs; auto).
  rewrite HR, Nat.mul_comm, Nat.div_mul by lia. rewrite Nat.eqb_refl. cbn [assert_that obind]. pose proof (line_starts_windows 0 ls Hb) as HS. fold diffs in HS.
  pose proof (le_diffs_ok n diffs HW) as HD. destruct Hn as [Hn|[Hn|Hn]]; rewrite Hn in *; cbn iota.
  - rewrite byte_diffs, HS by done. done.
  - by rewrite HD, HS.
  - by rewrite HD, HS.
Qed.

Lemma starts_bounds o ls : 0 <= o -> Forall (fun x => 0 <= x <= o + Z.of_nat (str_len (concat ls))) (starts o ls).
Proof.
  revert o. induction ls as [|l ls IH]; intros o Ho; [constructor|]. cbn [starts concat]. rewrite str_len_app. constructor; [lia|].
  eapply list.Forall_impl; [apply IH; lia|]. simpl. lia.
Qed.

(** ** The claims *)

(** C12: The scan of a text finds its line starts and its multi-byte characters, each at its offset, whichever target it is
    compiled for: the vector paths, a sixteen-byte chunk at a time, agree with the byte loop, and no assertion fails. *)
Theorem scan_exact target src :
  wf_str src -> Z.of_nat (str_len src) <= MAX_FILE_SIZE ->
  analyze_source_file target src = Ret (line_table src, multi_byte_table src 0).
Proof. apply analyze_source_file_ok. Qed.

(** C28: Loading a text of any length returns.  A text longer than the largest file is refused; any other loses its byte order
    mark and the carriage return of every line ending, and nothing else, and the file has the tables of what is left. *)
Theorem loading_exact target src :
  wf_str src ->
  (MAX_FILE_SIZE < Z.of_nat (str_len src) /\ source_file_new target src = Ret None)
  \/ (exists f, source_file_new target src = Ret (Some f) /\ loaded f src /\ file_src f = Some (strip_crlf (drop_bom src))
        /\ start_pos f = 0 /\ unnormalized_source_len f = Z.of_nat (str_len src)).
Proof.
  intros Hw. destruct (Z.leb_spec (Z.of_nat (str_len src)) MAX_FILE_SIZE) as [Hm|Hm].
  - right. destruct (source_file_new_ok target src Hw Hm) as (f & E & Hf & Hn & Hs & Hu). exists f. split; [exact E|]. split; [|by split; [apply (ot_src _ _ Hf)|]].
    unfold loaded. rewrite Hs. unfold MAX_FILE_SIZE in *. split_and!; [exact Hf|exact Hn|exact Hw|exact Hm|lia|lia].
  - left. split; [done|]. unfold source_file_new. by rewrite (proj2 (Z.ltb_lt _ _) Hm).
Qed.

(** C26: A position of the normalized text goes to the offset of the same place in the original text, after the byte order mark
    and every line ending before it, and comes back. *)
Theorem positions_roundtrip f src a r :
  loaded f src -> normalized_text src = a ++ r ->
  exists before rest, drop_bom src = before ++ rest /\ strip_crlf before = a
    /\ original_relative_byte_pos f (start_pos f + Z.of_nat (str_len a)) = bom_gap src + Z.of_nat (str_len before)
    /\ normalized_byte_pos f (bom_gap src + Z.of_nat (str_len before)) = start_pos f + Z.of_nat (str_len a).
Proof.
  intros Hf E. pose proof Hf as (_ & _ & Hw & _). destruct (original_piece src a r [] Hw) as (s1 & t & s2 & Ed & H1 & _ & HP & _); [by rewrite app_nil_r|].
  exists s1, (t ++ s2). split; [done|]. split; [done|]. split; [by apply (original_position_ok f src)|by apply (normalized_position_ok f src)].
Qed.

(** C27: The line and column of a position are those of a walk over the characters before it.  The exceptions are the end of a
    text that ends in a newline, which is the column after that newline, and the empty text, which has no line. *)
Theorem file_position_exact f before rest :
  of_text f (before ++ rest) ->
  lookup_file_pos f (Z.of_nat (str_len before))
  = Ret (if decide (rest = []) then
           match list.last before with
           | None => (O, 0)
           | Some c => if c =? NEWLINE then let p := walk (removelast before) in (p.1, p.2 + 1) else walk before
           end
         else walk before).
Proof.
  intros Hf. destruct (decide (rest = [])) as [->|Hn]; [|by eapply lookup_inside]. rewrite app_nil_r in Hf. destruct before as [|c s _] using rev_ind.
  - destruct Hf as [_ _ HL HM _ _]. unfold lookup_file_pos, bytepos_to_file_charpos, lookup_line, lines. by rewrite HL, HM.
  - rewrite last_snoc. destruct (Z.eqb_spec c NEWLINE) as [->|Hc].
    + rewrite removelast_last. by apply lookup_end_newline.
    + apply lookup_end_open; [done|by destruct s|]. intros [t E]. apply app_inj_2 in E as [_ [= ->]]; done.
Qed.

(** The column shown for a place in a text is the width of the characters between it and the start of its line,
    a tab counting four and a character that is replaced by a visible one counting one. *)
Theorem display_column_exact unicode_width f before rest :
  of_text f (before ++ rest) -> rest <> [] -> 0 <= start_pos f -> start_pos f + Z.of_nat (str_len (before ++ rest)) <= u32_max ->
  lookup_file_pos_with_col_display unicode_width f (start_pos f + Z.of_nat (str_len before))
  = Ret (walk before, str_width unicode_width (last_line before)).
Proof.
  intros Hf Hn H0 H1. unfold lookup_file_pos_with_col_display, relative_position. rewrite str_len_app in H1. unfold wrap_u32, u32_max in *. rewrite Z.mod_small by lia.
  replace (start_pos f + Z.of_nat (str_len before) - start_pos f) with (Z.of_nat (str_len before)) by lia. rewrite (lookup_inside f before rest Hf Hn). cbn [obind].
  destruct (last_line_split before) as (t & u & -> & Ht & Hu). rewrite walk_split by done. rewrite last_line_ok by done. cbn iota.
  destruct (get_line_at f t u rest Hf Ht Hu) as (l & -> & HT); [by destruct u|]. cbn [obind]. by rewrite Nat2Z.id, HT.
Qed.

(** The lines of a file are the lines of its text: line [i] is read without its newline, spans its characters in the
    source map, and a number past the last line has none. *)
Theorem lines_exact f src i :
  of_text f src -> 0 <= start_pos f -> start_pos f + Z.of_nat (str_len src) <= u32_max ->
  concat (split_lines src) = src
  /\ get_line f i = Ret (chomp <$> split_lines src !! i)
  /\ forall l, split_lines src !! i = Some l ->
       let start := start_pos f + Z.of_nat (str_len (concat (take i (split_lines src)))) in
       line_bounds f i = Ret (start, start + Z.of_nat (str_len l)).
Proof.
  intros Hf H0 H1. split; [apply concat_split_lines|]. split; [|intros l Hl; by apply (line_bounds_ok f src)].
  destruct (split_lines src !! i) as [l|] eqn:E; [by apply (get_line_ok f src)|]. apply (get_line_none f src); [done|]. by apply lookup_ge_None.
Qed.

(** Stored as differences of one, two or four bytes, the lines of a file are read back as they were. *)
Theorem stored_lines_roundtrip f src f' :
  of_text f src ->
  exists ls stored decoded, lines f = Ret ls /\ encode_lines ls = Ret stored /\ decode_lines (length ls) stored = Ret decoded
    /\ (file_lines f' = decoded -> lines f' = lines f).
Proof.
  intros [_ _ HL _ _ HM]. assert (E : lines f = Ret (line_table src)) by (unfold lines; by rewrite HL).
  destruct (lines_stored (line_table src) f') as (stored & ls' & H1 & H2 & H3).
  - unfold line_table. by destruct (split_lines src).
  - eapply list.Forall_impl; [apply starts_bounds; lia|]. rewrite concat_split_lines. unfold MAX_FILE_SIZE in HM. simpl. lia.
  - exists (line_table src), stored, ls'. split_and!; try done. rewrite E. auto.
Qed.

(** ** A text *)

(** A byte order mark, two lines that end in a carriage return and a line feed, the second with a two-byte character, and a
    third line; [plain_text] is what is left of it. *)
Definition dos_text : str := BOM :: lit "fn first() {}" ++ [CR; NEWLINE] ++ lit "// " ++ [233; CR; NEWLINE] ++ lit "mod m;".
Definition plain_text : str := lit "fn first() {}" ++ [NEWLINE] ++ lit "// " ++ [233; NEWLINE] ++ lit "mod m;".
Definition dos_file : SourceFile := mkFile (Some plain_text) Unneeded 0 26 31 (Lines [0; 14; 20]) [mkMultiByte 17 2] [mkNormalized 0 3; mkNormalized 14 4; mkNormalized 20 5].

Lemma dos_text_wf : wf_str dos_text.
Proof. by apply (bool_decide_unpack (Forall (fun c => is_scalar c = true) dos_text)). Qed.
Lemma dos_text_len : Z.of_nat (str_len dos_text) <= MAX_FILE_SIZE.
Proof. by apply Z.leb_le. Qed.
Lemma dos_file_new target : source_file_new target dos_text = Ret (Some dos_file).
Proof. by destruct target; vm_compute. Qed.

Lemma dos_file_loaded : loaded dos_file dos_text.
Proof.
  destruct (source_file_new_ok Scalar dos_text dos_text_wf dos_text_len) as (f & E & Hf & Hn & Hs & _). rewrite dos_file_new in E. injection E as <-.
  split_and!; [exact Hf|exact Hn|exact dos_text_wf|exact dos_text_len|by apply Z.leb_le|by apply Z.leb_le].
Qed.
Lemma dos_file_text : of_text dos_file plain_text.
Proof. apply dos_file_loaded. Qed.

Lemma scan_exact_witness : analyze_source_file Sse2 dos_text = Ret (line_table dos_text, multi_byte_table dos_text 0).
Proof. apply (scan_exact Sse2 dos_text dos_text_wf dos_text_len). Defined.

Lemma loading_exact_witness :
  (MAX_FILE_SIZE < Z.of_nat (str_len dos_text) /\ source_file_new Neon dos_text = Ret None)
  \/ (exists f, source_file_new Neon dos_text = Ret (Some f) /\ loaded f dos_text /\ file_src f = Some (strip_crlf (drop_bom dos_text))
        /\ start_pos f = 0 /\ unnormalized_source_len f = Z.of_nat (str_len dos_text)).
Proof. apply (loading_exact Neon dos_text dos_text_wf). Defined.

Lemma positions_roundtrip_witness :
  exists before rest, drop_bom dos_text = before ++ rest /\ strip_crlf before = lit "fn first() {}" ++ [NEWLINE]
    /\ original_relative_byte_pos dos_file (start_pos dos_file + Z.of_nat (str_len (lit "fn first() {}" ++ [NEWLINE]))) = bom_gap dos_text + Z.of_nat (str_len before)
    /\ normalized_byte_pos dos_file (bom_gap dos_text + Z.of_nat (str_len before)) = start_pos dos_file + Z.of_nat (str_len (lit "fn first() {}" ++ [NEWLINE])).
Proof. apply (positions_roundtrip dos_file dos_text _ (lit "// " ++ [233; NEWLINE] ++ lit "mod m;") dos_file_loaded). reflexivity. Defined.

Lemma file_position_exact_witness : lookup_file_pos dos_file 20 = Ret (3%nat, 0).
Proof. exact (file_position_exact dos_file (lit "fn first() {}" ++ [NEWLINE] ++ lit "// " ++ [233; NEWLINE]) (lit "mod m;") dos_file_text). Defined.

Lemma display_column_exact_witness : lookup_file_pos_with_col_display (fun _ => Some 1) dos_file 19 = Ret (2%nat, 4, 4).
Proof.
  apply (display_column_exact (fun _ => Some 1) dos_file (lit "fn first() {}" ++ [NEWLINE] ++ lit "// " ++ [233]) (NEWLINE :: lit "mod m;") dos_file_text);
    vm_compute; discriminate.
Defined.

Lemma lines_exact_witness :
  concat (split_lines plain_text) = plain_text /\ get_line dos_file 1 = Ret (chomp <$> split_lines plain_text !! 1%nat)
  /\ forall l, split_lines plain_text !! 1%nat = Some l ->
       let start := start_pos dos_file + Z.of_nat (str_len (concat (take 1 (split_lines plain_text)))) in
       line_bounds dos_file 1 = Ret (start, start + Z.of_nat (str_len l)).
Proof. apply (lines_exact dos_file plain_text 1 dos_file_text); vm_compute; discriminate. Defined.

Lemma stored_lines_roundtrip_witness :
  exists ls stored decoded, lines dos_file = Ret ls /\ encode_lines ls = Ret stored /\ decode_lines (length ls) stored = Ret decoded
    /\ (file_lines (mkFile None Unneeded 0 26 31 (Diffs (mkDiffs 1 2 [14; 6])) [] []) = decoded
        -> lines (mkFile None Unneeded 0 26 31 (Diffs (mkDiffs 1 2 [14; 6])) [] []) = lines dos_file).
Proof. apply (stored_lines_roundtrip dos_file plain_text _ dos_file_text). Defined.
