(* ===== verification/DependData.v ===== *)
(** * Dependence analysis: the data

    The records and enumerations of [src/frontend_facts/depend.rs], the part of the syntax tree of
    [src/rustc_ast/ast.rs] that the analysis reads, and the join operations on the values and states it
    computes.  A B-tree map or set that is only looked up, extended and compared is a [gmap] or a [gset];
    where the code walks one in order, the model sorts its elements by the derived [Ord].
    Strings are sequences of characters ([RustStr]); [u32] offsets are [Z]. *)
From Stdlib Require Import ZArith Lia.
From stdpp Require Import base numbers list gmap option.
From S2P Require Import Prelude RustStr RustSlice.
#[local] Open Scope Z_scope.

(** ** Derived orders *)

(** [#[derive(Ord)]] on a structure compares its fields in order, on an enumeration its
    discriminants: an order pulled back along an injection into tuples or numbers. *)
#[program] Definition ord_inj {A B} `{Ord B} (f : A -> B) (Hf : forall x y, f x = f y -> x = y) : Ord A :=
  {| cmp := fun x y => cmp (f x) (f y) |}.
Next Obligation. intros A B ? f Hf a b. rewrite cmp_eq. split; [apply Hf|by intros ->]. Qed.
Next Obligation. intros. apply cmp_antisym. Qed.
Next Obligation. intros A B ? f Hf a b c. apply cmp_trans. Qed.

#[export] Instance nat_Ord : Ord nat := ord_inj Z.of_nat Nat2Z.inj.
#[export, program] Instance bool_Ord : Ord bool := ord_inj Z.b2z _.
Next Obligation. by intros [] []. Qed.

(** [Vec<T>] and [String]: lexicographic. *)
Fixpoint list_cmp {A} `{Ord A} (l1 l2 : list A) : comparison :=
  match l1, l2 with
  | [], [] => Eq
  | [], _ :: _ => Lt
  | _ :: _, [] => Gt
  | x :: l1, y :: l2 => match cmp x y with Eq => list_cmp l1 l2 | c => c end
  end.

#[export, program] Instance list_Ord {A} `{Ord A} : Ord (list A) := {| cmp := list_cmp |}.
Next Obligation.
  intros A ? a. induction a as [|x a IH]; intros [|y b]; simpl; try (split; congruence).
  destruct (cmp x y) eqn:E.
  - apply cmp_eq in E as ->. rewrite IH. split; congruence.
  - split; [done|]. intros [= -> ->]. by rewrite cmp_refl in E.
  - split; [done|]. intros [= -> ->]. by rewrite cmp_refl in E.
Qed.
Next Obligation.
  intros A ? a. induction a as [|x a IH]; intros [|y b]; simpl; [done..|].
  rewrite (cmp_antisym x y), IH. by destruct (cmp x y).
Qed.
Next Obligation.
  intros A ? a. induction a as [|x a IH]; intros [|y b] [|z c]; simpl; try done.
  destruct (cmp x y) eqn:E1; [apply cmp_eq in E1 as ->| |done].
  - destruct (cmp y z); [apply IH|done|done].
  - intros _. destruct (cmp y z) eqn:E2; [apply cmp_eq in E2 as <-; by rewrite E1| |done].
    intros _. by rewrite (cmp_trans _ _ _ E1 E2).
Qed.

(** [Option<T>]: [None] first. *)
Definition option_key {A} (o : option A) : list A := match o with None => [] | Some x => [x] end.
#[export, program] Instance option_Ord {A} `{Ord A} : Ord (option A) := ord_inj option_key _.
Next Obligation. intros A ? [x|] [y|]; simpl; congruence. Qed.

(** [slice::sort_by] is a stable sort; so is insertion. *)
Fixpoint insert_by {A} (f : A -> A -> comparison) (x : A) (l : list A) : list A :=
  match l with
  | [] => [x]
  | y :: l' => match f x y with Gt => y :: insert_by f x l' | _ => x :: l end
  end.
Definition sort_by {A} (f : A -> A -> comparison) (l : list A) : list A := foldr (insert_by f) [] l.

#[export] Instance str_eq_dec : EqDecision str := list.list_eq_dec.

(** ** The facts *)

Record TextRange : Type := mkRange { start : Z; end_ : Z }.

Inductive VariableKind : Type := VkParameter | VkLocal.

Record Var : Type := mkVariable { v_name : str; v_kind : VariableKind; v_span : TextRange }.

Inductive Dependency : Type :=
| DepVariable (variable : Var) (occurrence : TextRange)
| DepUnknown (why : str).

Record ControlDependency : Type := mkControl { cd_condition : str; cd_operands : list Dependency }.

Inductive LiteralKind : Type := LkChar | LkByte | LkStr | LkInt.

Record LiteralOperand : Type := mkOperand {
  lo_literal : str; lo_text : str; lo_kind : LiteralKind; lo_span : TextRange;
  lo_compared_with : option str; lo_condition : option str; lo_via_unresolved_call : bool;
  lo_exit : TextRange }.

Inductive ExitKind : Type := ExTail | ExReturn | ExTry.

Record Exit : Type := mkExit {
  x_kind : ExitKind; x_span : TextRange; x_value : option str;
  data_dependencies : list Dependency; control_dependencies : list ControlDependency }.

Inductive AssignmentFact : Type := AfNever | AfEver | AfUnknown (why : str).

Record MutableAssignment : Type := mkMutable {
  ma_variable : Var; ma_assigned : AssignmentFact; ma_sites : list TextRange }.

Record Unknown : Type := mkUnknown { u_why : str; u_span : TextRange }.

Record FunctionDependence : Type := mkFunction {
  fd_function : str; fd_exits : list Exit; fd_literal_operands : list LiteralOperand;
  fd_mutable_assignments : list MutableAssignment; fd_unknowns : list Unknown }.

(** ** Internal keys *)

Record LiteralFact : Type := mkLiteral {
  literal : str; lf_text : str; lf_kind : LiteralKind; lf_span : TextRange;
  compared_with : option str; lf_condition : option str; via_unresolved_call : bool }.

Inductive ControlKind : Type := CkBranch | CkLoop | CkMatch | CkShortCircuit | CkTry.

Record ControlKey : Type := mkKey { ck_range : TextRange; ck_kind : ControlKind }.

Record BindingKey : Type := mkBindingKey { bk_range : TextRange; bk_name : str }.

Record BindingInfo : Type := mkBinding { variable : Var; mutable : bool }.

Record ExitKey : Type := mkExitKey { ek_kind : ExitKind; ek_range : TextRange; ek_value : option str }.

(** Orders, decidable equality and countability come from the fields. *)
Definition literal_kind_code (k : LiteralKind) : Z := match k with LkChar => 0 | LkByte => 1 | LkStr => 2 | LkInt => 3 end.
Definition exit_kind_code (k : ExitKind) : Z := match k with ExTail => 0 | ExReturn => 1 | ExTry => 2 end.
Definition control_kind_code (k : ControlKind) : Z :=
  match k with CkBranch => 0 | CkLoop => 1 | CkMatch => 2 | CkShortCircuit => 3 | CkTry => 4 end.
Definition range_key (r : TextRange) : Z * Z := (start r, end_ r).
Definition control_key_key (k : ControlKey) : Z * Z * Z := (start (ck_range k), end_ (ck_range k), control_kind_code (ck_kind k)).
Definition binding_key_key (k : BindingKey) : Z * Z * str := (start (bk_range k), end_ (bk_range k), bk_name k).
Definition exit_key_key (k : ExitKey) : Z * Z * Z * option str :=
  (exit_kind_code (ek_kind k), start (ek_range k), end_ (ek_range k), ek_value k).
Definition literal_key (l : LiteralFact) : str * str * Z * (Z * Z) * option str * option str * bool :=
  (literal l, lf_text l, literal_kind_code (lf_kind l), range_key (lf_span l), compared_with l, lf_condition l, via_unresolved_call l).
Definition operand_key (l : LiteralOperand) : str * str * Z * (Z * Z) * option str * option str * bool * (Z * Z) :=
  (lo_literal l, lo_text l, literal_kind_code (lo_kind l), range_key (lo_span l), lo_compared_with l, lo_condition l,
   lo_via_unresolved_call l, range_key (lo_exit l)).

Lemma range_key_inj r r' : range_key r = range_key r' -> r = r'.
Proof. destruct r, r'. by intros [= -> ->]. Qed.
Lemma literal_kind_code_inj k k' : literal_kind_code k = literal_kind_code k' -> k = k'.
Proof. by destruct k, k'. Qed.
Lemma exit_kind_code_inj k k' : exit_kind_code k = exit_kind_code k' -> k = k'.
Proof. by destruct k, k'. Qed.
Lemma control_kind_code_inj k k' : control_kind_code k = control_kind_code k' -> k = k'.
Proof. by destruct k, k'. Qed.
Lemma control_key_inj k k' : control_key_key k = control_key_key k' -> k = k'.
Proof. destruct k as [[] ], k' as [[] ]. by intros [= -> -> ->%control_kind_code_inj]. Qed.
Lemma binding_key_inj k k' : binding_key_key k = binding_key_key k' -> k = k'.
Proof. destruct k as [[] ], k' as [[] ]. by intros [= -> -> ->]. Qed.
Lemma exit_key_inj k k' : exit_key_key k = exit_key_key k' -> k = k'.
Proof. destruct k as [? [] ?], k' as [? [] ?]. by intros [= ->%exit_kind_code_inj -> -> ->]. Qed.
Lemma literal_key_inj l l' : literal_key l = literal_key l' -> l = l'.
Proof. destruct l as [? ? ? [] ], l' as [? ? ? [] ]. by intros [= -> -> ->%literal_kind_code_inj -> -> -> -> ->]. Qed.
Lemma operand_key_inj l l' : operand_key l = operand_key l' -> l = l'.
Proof. destruct l as [? ? ? [] ? ? ? [] ], l' as [? ? ? [] ? ? ? [] ]. by intros [= -> -> ->%literal_kind_code_inj -> -> -> -> -> -> ->]. Qed.

#[export] Instance TextRange_Ord : Ord TextRange := ord_inj range_key range_key_inj.
#[export] Instance ExitKind_Ord : Ord ExitKind := ord_inj exit_kind_code exit_kind_code_inj.
#[export] Instance ControlKey_Ord : Ord ControlKey := ord_inj control_key_key control_key_inj.
#[export] Instance ExitKey_Ord : Ord ExitKey := ord_inj exit_key_key exit_key_inj.
#[export] Instance LiteralFact_Ord : Ord LiteralFact := ord_inj literal_key literal_key_inj.
#[export] Instance LiteralOperand_Ord : Ord LiteralOperand := ord_inj operand_key operand_key_inj.

#[export] Instance TextRange_eq_dec : EqDecision TextRange.
Proof. solve_decision. Defined.
#[export] Instance VariableKind_eq_dec : EqDecision VariableKind.
Proof. solve_decision. Defined.
#[export] Instance ControlKind_eq_dec : EqDecision ControlKind.
Proof. solve_decision. Defined.
#[export] Instance ControlKey_eq_dec : EqDecision ControlKey.
Proof. solve_decision. Defined.
#[export] Instance ExitKind_eq_dec : EqDecision ExitKind.
Proof. solve_decision. Defined.
#[export] Instance ExitKey_eq_dec : EqDecision ExitKey.
Proof. solve_decision. Defined.
#[export] Instance BindingKey_eq_dec : EqDecision BindingKey.
Proof. solve_decision. Defined.
#[export] Instance LiteralKind_eq_dec : EqDecision LiteralKind.
Proof. solve_decision. Defined.
#[export] Instance LiteralFact_eq_dec : EqDecision LiteralFact.
Proof. solve_decision. Defined.

#[export] Instance TextRange_countable : Countable TextRange := inj_countable' range_key (fun '(a, b) => mkRange a b) ltac:(by intros []).
Definition control_kind_decode (z : Z) : ControlKind :=
  if z =? 0 then CkBranch else if z =? 1 then CkLoop else if z =? 2 then CkMatch else if z =? 3 then CkShortCircuit else CkTry.
#[export] Instance ControlKey_countable : Countable ControlKey :=
  inj_countable' control_key_key (fun '(a, b, k) => mkKey (mkRange a b) (control_kind_decode k)) ltac:(by intros [[] []]).
#[export] Instance BindingKey_countable : Countable BindingKey :=
  inj_countable' binding_key_key (fun '(a, b, n) => mkBindingKey (mkRange a b) n) ltac:(by intros [[]]).
Definition exit_kind_decode (z : Z) : ExitKind := if z =? 0 then ExTail else if z =? 1 then ExReturn else ExTry.
#[export] Instance ExitKey_countable : Countable ExitKey :=
  inj_countable' exit_key_key (fun '(k, a, b, v) => mkExitKey (exit_kind_decode k) (mkRange a b) v) ltac:(by intros [[] []]).
Definition literal_kind_decode (z : Z) : LiteralKind :=
  if z =? 0 then LkChar else if z =? 1 then LkByte else if z =? 2 then LkStr else LkInt.
#[export] Instance LiteralFact_countable : Countable LiteralFact :=
  inj_countable' literal_key (fun '(a, b, k, (s, e), c, d, v) => mkLiteral a b (literal_kind_decode k) (mkRange s e) c d v) ltac:(by intros [? ? [] []]).

(** ** Values and states *)

Abbreviation Data := (gmap nat (gset TextRange)).

(** [data.entry(id).or_default().extend(occurrences)]. *)
Definition data_extend (data : Data) (id : nat) (occurrences : gset TextRange) : Data :=
  <[id := default ∅ (data !! id) ∪ occurrences]> data.

(** [merge_data] extends the entry of every identifier of [other]: the pointwise union. *)
Definition merge_data (data other : Data) : Data :=
  union_with (fun occurrences more => Some (occurrences ∪ more)) data other.

Record Value : Type := mkValue {
  data : Data; controls : gset ControlKey; unknowns : gset str; literal_facts : gset LiteralFact }.

#[export] Instance Value_eq_dec : EqDecision Value.
Proof. solve_decision. Defined.

(** [Value::default()]. *)
Definition empty_value : Value := mkValue ∅ ∅ ∅ ∅.

Definition value_merge (self other : Value) : Value :=
  mkValue (merge_data (data self) (data other)) (controls self ∪ controls other)
    (unknowns self ∪ unknowns other) (literal_facts self ∪ literal_facts other).

Definition add_controls (v : Value) (ks : gset ControlKey) : Value :=
  mkValue (data v) (controls v ∪ ks) (unknowns v) (literal_facts v).
Definition add_unknown (v : Value) (why : str) : Value :=
  mkValue (data v) (controls v) (unknowns v ∪ {[why]}) (literal_facts v).
Definition add_literals (v : Value) (ls : gset LiteralFact) : Value :=
  mkValue (data v) (controls v) (unknowns v) (literal_facts v ∪ ls).
(** [carried.literal_facts.clear()]. *)
Definition clear_literals (v : Value) : Value := mkValue (data v) (controls v) (unknowns v) ∅.

Definition unknown_value (why : str) : Value := add_unknown empty_value why.

Record State : Type := mkState { values : list Value; reachable : bool }.

#[export] Instance State_eq_dec : EqDecision State.
Proof. solve_decision. Defined.

Definition live : State := mkState [] true.
Definition dead_like (state : State) : State := mkState (values state) false.
(** [state.reachable = false]. *)
Abbreviation kill := dead_like.

(** The loop of [State::merge], after the shorter vector has been resized. *)
Fixpoint merge_values (vs other : list Value) : list Value :=
  match vs, other with
  | [], other => value_merge empty_value <$> other
  | vs, [] => vs
  | v :: vs, w :: other => value_merge v w :: merge_values vs other
  end.

Definition state_merge (self other : State) : State :=
  if negb (reachable self) then other
  else if negb (reachable other) then self
  else mkState (merge_values (values self) (values other)) true.

(** [if state.values.len() <= id { state.values.resize_with(id + 1, Value::default) }] and an
    update of the element. *)
Definition update_value (id : nat) (f : Value -> Value) (state : State) : State :=
  let vs := values state ++ replicate (S id - length (values state)) empty_value in
  mkState (alter f id vs) (reachable state).

(** [if let Some(existing) = &mut acc { existing.merge(found) } else { acc = Some(found) }]. *)
Definition merge_into (acc : option State) (found : State) : option State :=
  match acc with Some existing => Some (state_merge existing found) | None => Some found end.

Record ControlFact : Type := mkControlFact {
  cf_condition : str; cf_operands : Data; cf_unknowns : gset str; cf_literal_facts : gset LiteralFact }.
Definition empty_control : ControlFact := mkControlFact [] ∅ ∅ ∅.

(** [ExitValue] has the fields of [Value]. *)
Definition exit_merge (self value : Value) (active : gset ControlKey) : Value :=
  add_controls (value_merge self value) active.

Record LoopFlow : Type := mkFlow { breaks : option State; continues : option State; break_value : Value }.
Definition empty_flow : LoopFlow := mkFlow None None empty_value.

Definition merge_break (self : LoopFlow) (state : State) (value : Value) : LoopFlow :=
  mkFlow (merge_into (breaks self) state) (continues self) (value_merge (break_value self) value).
Definition merge_continue (self : LoopFlow) (state : State) : LoopFlow :=
  mkFlow (breaks self) (merge_into (continues self) state) (break_value self).
