(* ===== verification/DependAst.v ===== *)
(** * Dependence analysis: the syntax tree

    The expressions, patterns, statements and items of [src/rustc_ast/ast.rs], with every variant of the
    source and, of each, the fields the dependence analysis reads.  A type, an attribute, a node identifier or
    a token stream, which it never looks at, is left out.  [expr_block_ind] is the induction
    principle of the two mutually recursive types the analysis descends through. *)
From Stdlib Require Import ZArith.
From stdpp Require Import base list option.
From S2P Require Import Prelude RustStr.
#[local] Open Scope Z_scope.

(** ** Spans, names and literals *)

Record Span : Type := mkSpan { lo : Z; hi : Z }.
Record Ident : Type := mkIdent { name : str; ident_span : Span }.
Record Path : Type := mkPath { path_span : Span; segments : list Ident }.

(** [token::LitKind], [token::Lit]. *)
Inductive TokenLitKind : Type :=
| TkBool | TkByte | TkChar | TkInteger | TkFloat | TkStr | TkStrRaw (n : Z) | TkByteStr | TkByteStrRaw (n : Z)
| TkCStr | TkCStrRaw (n : Z) | TkErr.
Record TokenLit : Type := mkTokenLit { token_kind : TokenLitKind; symbol : str; suffix : option str }.

(** [ast::LitKind]; the suffix of a number and the style of a string are not read. *)
Inductive LitKind : Type :=
| LitStr (s : str) | LitByteStr (s : list Z) | LitCStr (s : list Z) | LitByte (b : Z) | LitChar (c : Z)
| LitInt (n : Z) | LitFloat (s : str) | LitBool (b : bool) | LitErr.

Inductive BinOpKind : Type :=
| Add | Sub | Mul | Div | Rem | And | Or | BitXor | BitAnd | BitOr | Shl | Shr | OpEq | OpLt | OpLe | OpNe | OpGe | OpGt.
Inductive UnOp : Type := Deref | Not | Neg.

Inductive Mutability : Type := MutNot | MutMut.
Inductive ByRef : Type := ByRefYes (pinned : bool) (m : Mutability) | ByRefNo.
(** [BindingMode(ByRef, Mutability)]. *)
Record BindingMode : Type := mkMode { by_ref : ByRef; mode_mut : Mutability }.

(** ** Expressions, patterns and statements *)

Inductive Expr : Type :=
| MkExpr (kind : ExprKind) (span : Span)

with ExprKind : Type :=
| EArray (l : list Expr)
| EConstBlock
| ECall (callee : Expr) (arguments : list Expr)
| EMethodCall (seg : Ident) (receiver : Expr) (args : list Expr)
| ETup (l : list Expr)
| EBinary (operator : BinOpKind) (left right : Expr)
| EUnary (operator : UnOp) (inner : Expr)
| EMove (inner : Expr)
| ELit (token : TokenLit)
| ECast (inner : Expr)
| EType (inner : Expr)
| ELet (pattern : Pat) (value : Expr)
| EIf (condition : Expr) (then_block : Block) (otherwise : option Expr)
| EWhile (condition : Expr) (body : Block)
| EForLoop (pat : Pat) (iter : Expr) (body : Block)
| ELoop (body : Block)
| EMatch (scrutinee : Expr) (arms : list Arm)
| EClosure
| EBlock (block : Block)
| EGen
| EAwait (inner : Expr)
| EUse (inner : Expr)
| ETryBlock
| EAssign (place rhs : Expr)
| EAssignOp (place rhs : Expr)
| EField (base : Expr)
| EIndex (base index : Expr)
| ERange (first last : option Expr)
| EUnderscore
| EPath (qself : bool) (path : Path)
| EAddrOf (inner : Expr)
| EBreak (label : option Ident) (value : option Expr)
| EContinue (label : option Ident)
| ERet (returned : option Expr)
| EInlineAsm
| EOffsetOf
| EMacCall
| EStruct (path : Path) (fields : list Expr) (rest : option Expr)
| ERepeat (element count : Expr)
| EParen (inner : Expr)
| ETry (inner : Expr)
| EYield
| EYeet (value : option Expr)
| EBecome (inner : Expr)
| EIncludedBytes
| EFormatArgs
| EUnsafeBinderCast
| EDirectConstArg (inner : Expr)
| EErr
| EDummy

with Pat : Type :=
| MkPat (pat_kind : PatKind) (pat_span : Span)

with PatKind : Type :=
| PMissing
| PWild
| PIdent (mode : BindingMode) (ident : Ident) (subpattern : option Pat)
| PStruct (fields : list Pat)
| PTupleStruct (patterns : list Pat)
| POr (patterns : list Pat)
| PPath (path : Path)
| PTuple (patterns : list Pat)
| PDeref (pattern : Pat)
| PRef (pattern : Pat)
| PExpr (expression : Expr)
| PRange (first last : option Expr)
| PSlice (patterns : list Pat)
| PRest
| PNever
| PGuard (pattern : Pat) (guard : Expr)
| PParen (pattern : Pat)
| PMacCall
| PErr

with Block : Type :=
| MkBlock (stmts : list Stmt)

with Stmt : Type :=
| MkStmt (stmt_kind : StmtKind) (stmt_span : Span)

with StmtKind : Type :=
| SLet (local : Local)
| SItem
| SExpr (expression : Expr)
| SSemi (expression : Expr)
| SEmpty
| SMacCall

with Local : Type :=
| MkLocal (pat : Pat) (local_kind : LocalKind) (local_span : Span)

with LocalKind : Type :=
| LDecl
| LInit (initializer : Expr)
| LInitElse (initializer : Expr) (otherwise : Block)

with Arm : Type :=
| MkArm (pat : Pat) (guard : option Expr) (body : option Expr) (arm_span : Span).

Definition expr_span (e : Expr) : Span := match e with MkExpr _ span => span end.
Definition expr_kind (e : Expr) : ExprKind := match e with MkExpr kind _ => kind end.
Definition span_of_pat (p : Pat) : Span := match p with MkPat _ span => span end.
Definition stmts_of (b : Block) : list Stmt := match b with MkBlock stmts => stmts end.

(** ** Functions and items *)

(** [Fn]: its name, the patterns of its parameters and its body. *)
Record Fn : Type := mkFn { fn_ident : Ident; inputs : list Pat; body : option Block }.

Inductive AssocItem : Type := AFn (function : Fn) | AOther.

(** [Mod] with [None] is a module that is not loaded; [IOther] is every other kind of item. *)
Inductive Item : Type :=
| IFn (function : Fn)
| IMod (items : option (list Item))
| IImpl (items : list AssocItem)
| IOther.

(** ** Induction *)

Definition opt_all {A} (P : A -> Prop) (o : option A) : Prop := match o with Some x => P x | None => True end.

Section Induction.
Context (P : Expr -> Prop) (Q : Block -> Prop).

(** Everything directly below a node of the tree. *)
Definition arm_all (a : Arm) : Prop := match a with MkArm _ guard body _ => opt_all P guard /\ opt_all P body end.

Definition kind_all (k : ExprKind) : Prop :=
  match k with
  | EArray l | ETup l => Forall P l
  | ECall e l | EMethodCall _ e l => P e /\ Forall P l
  | EBinary _ a b | EAssign a b | EAssignOp a b | EIndex a b | ERepeat a b => P a /\ P b
  | EUnary _ e | EMove e | ECast e | EType e | ELet _ e | EAwait e | EUse e | EField e | EAddrOf e | EParen e
  | ETry e | EBecome e | EDirectConstArg e => P e
  | EIf c t o => P c /\ Q t /\ opt_all P o
  | EWhile c b => P c /\ Q b
  | EForLoop _ i b => P i /\ Q b
  | ELoop b | EBlock b => Q b
  | EMatch s arms => P s /\ Forall arm_all arms
  | ERange a b => opt_all P a /\ opt_all P b
  | EBreak _ o | ERet o | EYeet o => opt_all P o
  | EStruct _ l o => Forall P l /\ opt_all P o
  | _ => True
  end.

Definition local_all (l : Local) : Prop :=
  match l with
  | MkLocal _ LDecl _ => True
  | MkLocal _ (LInit e) _ => P e
  | MkLocal _ (LInitElse e b) _ => P e /\ Q b
  end.

Definition stmt_all (s : Stmt) : Prop :=
  match s with
  | MkStmt (SLet l) _ => local_all l
  | MkStmt (SExpr e) _ | MkStmt (SSemi e) _ => P e
  | _ => True
  end.

Hypothesis HE : forall k sp, kind_all k -> P (MkExpr k sp).
Hypothesis HB : forall ss, Forall stmt_all ss -> Q (MkBlock ss).

Fixpoint expr_all (e : Expr) : P e
with block_all (b : Block) : Q b.
Proof.
  - assert (HL : forall l, Forall P l) by (fix IH 1; intros [|x l]; constructor; [apply expr_all|apply IH]).
    assert (HO : forall o, opt_all P o) by (intros [x|]; simpl; [apply expr_all|exact I]).
    assert (HA : forall l, Forall arm_all l).
    { fix IH 1; intros [|[p g b s] l]; constructor; [split; apply HO|apply IH]. }
    destruct e as [k sp]. apply HE. destruct k; simpl; repeat split;
      first [apply expr_all | apply block_all | apply HL | apply HO | apply HA | exact I].
  - destruct b as [ss]. apply HB. revert ss. fix IH 1. intros [|s ss]; constructor; [|apply IH].
    destruct s as [[ [p [|e|e b] lsp] | |e|e| |] sp]; simpl; repeat split; first [apply expr_all|apply block_all|exact I].
Qed.
End Induction.

(** The analysis also looks below the target of an assignment and below the [let] of a condition: [P] of the
    expressions it finds there. *)
Fixpoint deep (P : Expr -> Prop) (e : Expr) : Prop :=
  P e /\ match e with
         | MkExpr (EField base) _ => deep P base
         | MkExpr (EIndex base index) _ => deep P base /\ P index
         | MkExpr (EParen inner) _ => deep P inner
         | MkExpr (EUnary _ inner) _ | MkExpr (ELet _ inner) _ => P inner
         | _ => True
         end.

Lemma deep_here P e : deep P e -> P e.
Proof. destruct e. by intros [? _]. Qed.

Lemma expr_block_ind (P : Expr -> Prop) (Q : Block -> Prop) :
  (forall k sp, kind_all (deep P) Q k -> P (MkExpr k sp)) ->
  (forall ss, Forall (stmt_all (deep P) Q) ss -> Q (MkBlock ss)) ->
  (forall e, deep P e) /\ (forall b, Q b).
Proof.
  intros HE HB. assert (HD : forall k sp, kind_all (deep P) Q k -> deep P (MkExpr k sp)).
  { intros k sp Hk. pose proof (HE k sp Hk). destruct k; simpl in *; split; try done; first [by apply deep_here|split; [apply Hk|apply deep_here, Hk]]. }
  split; [by apply expr_all with Q|by apply block_all with (deep P)].
Qed.

Section PatInduction.
Context (P : Pat -> Prop).

Definition pat_kind_all (k : PatKind) : Prop :=
  match k with
  | PStruct l | PTupleStruct l | POr l | PTuple l | PSlice l => Forall P l
  | PIdent _ _ o => opt_all P o
  | PDeref p | PRef p | PParen p | PGuard p _ => P p
  | _ => True
  end.

Hypothesis HP : forall k sp, pat_kind_all k -> P (MkPat k sp).

Fixpoint pat_all (p : Pat) : P p.
Proof.
  assert (HL : forall l, Forall P l) by (fix IH 1; intros [|x l]; constructor; [apply pat_all|apply IH]).
  assert (HO : forall o, opt_all P o) by (intros [x|]; simpl; [apply pat_all|exact I]).
  destruct p as [k sp]. apply HP. destruct k; simpl; first [apply pat_all|apply HL|apply HO|exact I].
Qed.
End PatInduction.
