(* ===== verification/Depend.v ===== *)
(** * Dependence analysis: the analyzer

    [src/frontend_facts/depend.rs]: [Analyzer], its methods, [find_functions] and the choice of the function.
    A method that takes [&mut self] is a computation [M]: from an analyzer to a result and an analyzer, or
    [None] when a loop has used up its fuel.  [state: &mut State] is passed and returned.  The fields
    [source], [file] and [function_name], which no method changes, are section variables; so are the literal
    decoder [LitKind::from_token_lit] and [char::is_uppercase], of which nothing is assumed.
    The stacks [scopes] and [loops] have their innermost element first.

    The methods recurse over the syntax tree.  One that does not descend by itself ([analyze_if],
    [analyze_match], ...) takes the analyses of the parts it runs. *)
From Stdlib Require Import ZArith Lia.
From Stdlib Require Import String.
From stdpp Require Import base numbers list gmap option.
From S2P Require Import Prelude RustStr RustSlice SourceFile DependData DependAst.
#[local] Open Scope Z_scope.

(** Decimal digits: [to_string] of an unsigned integer below [10 ^ 40]. *)
Fixpoint digits (fuel : nat) (n : Z) (acc : str) : str :=
  match fuel with
  | O => acc
  | S fuel => let acc := (48 + n mod 10) :: acc in if n <? 10 then acc else digits fuel (n / 10) acc
  end.
Definition int_to_string (n : Z) : str := digits 40 n [].

(** ** The analyzer's state *)

Record Analyzer : Type := mkAnalyzer {
  bindings : list BindingInfo;
  binding_ids : gmap BindingKey nat;
  scopes : list (gmap str nat);
  a_controls : gmap ControlKey ControlFact;
  exits : gmap ExitKey Value;
  assigned : gset nat;
  assignment_sites : gmap nat (gset TextRange);
  assignment_unknowns : gmap nat (gset str);
  a_unknowns : gmap TextRange (gset str);
  loops : list LoopFlow }.

(** [Analyzer::new]. *)
Definition new : Analyzer := mkAnalyzer [] ∅ [∅] ∅ ∅ ∅ ∅ ∅ ∅ [].

Definition set_scopes (f : list (gmap str nat) -> list (gmap str nat)) (a : Analyzer) : Analyzer :=
  mkAnalyzer (bindings a) (binding_ids a) (f (scopes a)) (a_controls a) (exits a) (assigned a) (assignment_sites a)
    (assignment_unknowns a) (a_unknowns a) (loops a).
Definition set_loops (f : list LoopFlow -> list LoopFlow) (a : Analyzer) : Analyzer :=
  mkAnalyzer (bindings a) (binding_ids a) (scopes a) (a_controls a) (exits a) (assigned a) (assignment_sites a)
    (assignment_unknowns a) (a_unknowns a) (f (loops a)).
Definition set_controls (f : gmap ControlKey ControlFact -> gmap ControlKey ControlFact) (a : Analyzer) : Analyzer :=
  mkAnalyzer (bindings a) (binding_ids a) (scopes a) (f (a_controls a)) (exits a) (assigned a) (assignment_sites a)
    (assignment_unknowns a) (a_unknowns a) (loops a).
Definition set_exits (f : gmap ExitKey Value -> gmap ExitKey Value) (a : Analyzer) : Analyzer :=
  mkAnalyzer (bindings a) (binding_ids a) (scopes a) (a_controls a) (f (exits a)) (assigned a) (assignment_sites a)
    (assignment_unknowns a) (a_unknowns a) (loops a).
Definition set_unknowns (f : gmap TextRange (gset str) -> gmap TextRange (gset str)) (a : Analyzer) : Analyzer :=
  mkAnalyzer (bindings a) (binding_ids a) (scopes a) (a_controls a) (exits a) (assigned a) (assignment_sites a)
    (assignment_unknowns a) (f (a_unknowns a)) (loops a).
Definition set_assignment_unknowns (f : gmap nat (gset str) -> gmap nat (gset str)) (a : Analyzer) : Analyzer :=
  mkAnalyzer (bindings a) (binding_ids a) (scopes a) (a_controls a) (exits a) (assigned a) (assignment_sites a)
    (f (assignment_unknowns a)) (a_unknowns a) (loops a).
Definition set_assigned (ids : gset nat) (sites : gmap nat (gset TextRange)) (a : Analyzer) : Analyzer :=
  mkAnalyzer (bindings a) (binding_ids a) (scopes a) (a_controls a) (exits a) ids sites
    (assignment_unknowns a) (a_unknowns a) (loops a).
Definition push_binding (info : BindingInfo) (key : BindingKey) (a : Analyzer) : Analyzer :=
  mkAnalyzer (bindings a ++ [info]) (<[key := length (bindings a)]> (binding_ids a)) (scopes a) (a_controls a) (exits a)
    (assigned a) (assignment_sites a) (assignment_unknowns a) (a_unknowns a) (loops a).

(** [map.entry(k).or_default().insert(x)]. *)
Definition entry_insert {K A} `{Countable K, Countable A} (k : K) (x : A) (m : gmap K (gset A)) : gmap K (gset A) :=
  <[k := default ∅ (m !! k) ∪ {[x]}]> m.

(** ** Computations *)

Definition M (A : Type) : Type := Analyzer -> option (A * Analyzer).

Definition ret {A} (x : A) : M A := fun a => Some (x, a).
Definition bind {A B} (m : M A) (k : A -> M B) : M B :=
  fun a => match m a with Some (x, a) => k x a | None => None end.
Definition get {A} (f : Analyzer -> A) : M A := fun a => Some (f a, a).
Definition modify (f : Analyzer -> Analyzer) : M unit := fun a => Some (tt, f a).
Definition out_of_fuel {A} : M A := fun _ => None.

Declare Scope depend_scope.
Delimit Scope depend_scope with depend.
Notation "'let!' x := m 'in' k" := (bind m (fun x => k))
  (at level 10, x name, m at level 100, k at level 200) : depend_scope.
Notation "'let!' ' p := m 'in' k" := (bind m (fun x => match x with p => k end))
  (at level 10, p strict pattern, m at level 100, k at level 200) : depend_scope.
Notation "m ;; k" := (bind m (fun _ => k)) (at level 100, right associativity) : depend_scope.
Open Scope depend_scope.

(** The analysis of an expression or a block, given the active controls and the state. *)
Definition Analysis : Type := list ControlKey -> State -> M (Value * State).

(** [self.scopes.push(..); m; self.scopes.pop()]. *)
Definition with_scope {A} (m : M A) : M A :=
  modify (set_scopes (cons ∅)) ;; let! x := m in modify (set_scopes tail) ;; ret x.

(** [self.loops.push(LoopFlow::default()); m; self.loops.pop().unwrap_or_default()]. *)
Definition in_loop {A} (m : M A) : M (A * LoopFlow) :=
  modify (set_loops (cons empty_flow)) ;;
  let! x := m in
  let! flow := get (fun a => default empty_flow (head (loops a))) in
  modify (set_loops tail) ;; ret (x, flow).

Definition is_none {A} (o : option A) : bool := match o with None => true | Some _ => false end.

Section Analyzing.
Context (source : str) (file : SourceFile).
Context (from_token_lit : TokenLit -> option LitKind) (is_uppercase : Z -> bool).
(** The number of rounds a loop of the analyzed function may take. *)
Context (fuel : nat).

Definition at_ (pos : Z) : Z := if pos <? start_pos file then 0 else original_relative_byte_pos file pos.
Definition range (span : Span) : TextRange := mkRange (at_ (lo span)) (at_ (hi span)).
Definition text (span : Span) : str :=
  let r := range span in default [] (str_slice (Z.to_nat (start r)) (Z.to_nat (end_ r)) source).
Definition control_key (span : Span) (kind : ControlKind) : ControlKey := mkKey (range span) kind.

(** *** Records *)

Definition record_exit (kind : ExitKind) (span : Span) (value_text : option str) (value : Value) (active : gset ControlKey) : M unit :=
  let key := mkExitKey kind (range span) value_text in
  modify (set_exits (fun m => <[key := exit_merge (default empty_value (m !! key)) value active]> m)).

Definition record_unknown (span : Span) (why : str) : M unit :=
  modify (set_unknowns (entry_insert (range span) why)).

Definition record_control (key : ControlKey) (condition : str) (value : Value) : M unit :=
  modify (set_controls (fun m =>
    let fact := default empty_control (m !! key) in
    <[key := mkControlFact (match cf_condition fact with [] => condition | c => c end)
               (merge_data (cf_operands fact) (data value)) (cf_unknowns fact ∪ unknowns value)
               (cf_literal_facts fact ∪ literal_facts value)]> m)).

(** *** Bindings *)

Definition lookup (name : str) (a : Analyzer) : option nat :=
  foldr (fun scope inner => match scope !! name with Some id => Some id | None => inner end) None (scopes a).

Definition read_binding (id : nat) (state : State) (occurrence : TextRange) : Value :=
  let value := mkValue {[id := {[occurrence]}]} ∅ ∅ ∅ in
  match values state !! id with
  | Some stored =>
      let value := value_merge value stored in
      mkValue (merge_data (data value) ((fun _ => {[occurrence]}) <$> data stored)) (controls value) (unknowns value) (literal_facts value)
  | None => value
  end.

Definition is_mutable (id : nat) (a : Analyzer) : bool :=
  match bindings a !! id with Some binding => mutable binding | None => false end.

Definition store_binding (id : nat) (value : Value) (state : State) (assignment_site : TextRange) : M State :=
  modify (fun a => set_assigned (if is_mutable id a then assigned a ∪ {[id]} else assigned a)
                     (entry_insert id assignment_site (assignment_sites a)) a) ;;
  ret (update_value id (fun _ => value) state).

Definition read_path (unqualified : bool) (path : Path) (state : State) : M Value :=
  let! id := get (fun a => match unqualified, segments path with true, [seg] => lookup (name seg) a | _, _ => None end) in
  match id with
  | Some id => ret (read_binding id state (range (path_span path)))
  | None => ret (unknown_value (lit "path `" ++ text (path_span path) ++ lit "` is unresolved"))
  end.

Definition unresolved_path (path : Path) (description : str) : Value :=
  unknown_value (description ++ lit " `" ++ text (path_span path) ++ lit "` is unresolved").

(** The identifiers of every scope. *)
Definition visible (a : Analyzer) : gset nat :=
  foldr (fun scope ids => list_to_set (snd <$> map_to_list scope) ∪ ids) ∅ (scopes a).

Definition MAY_ASSIGN : str := lit "an opaque macro may assign this binding".

(** Mark the visible mutable bindings that no assignment has written so far. *)
Definition mark_assignments (a : Analyzer) : Analyzer :=
  set_assignment_unknowns (fun m =>
    foldr (fun id m => if is_mutable id a && negb (bool_decide (id ∈ assigned a)) then entry_insert id MAY_ASSIGN m else m)
      m (elements (visible a))) a.

Definition opaque_macro (span : Span) (state : State) : M State :=
  record_unknown span (lit "macro expansion is opaque") ;;
  let! written := get (fun a => List.filter (fun id => is_mutable id a) (elements (visible a))) in
  modify mark_assignments ;;
  ret (foldr (fun id state => update_value id (fun v => add_unknown v MAY_ASSIGN) state) state written).

Definition mark_macro_assignments (span : Span) : M unit :=
  record_unknown span (lit "macro expansion is opaque") ;; modify mark_assignments.

(** *** Literals *)

Definition literal_fact (expression : Expr) (compared_with condition : option str) : option LiteralFact :=
  match expression with
  | MkExpr (ELit token) span =>
      match from_token_lit token with
      | Some kind =>
          match (match kind with
                 | LitChar c => Some (LkChar, [c])
                 | LitByte b => Some (LkByte, int_to_string b)
                 | LitStr s => Some (LkStr, s)
                 | LitInt n => Some (LkInt, int_to_string n)
                 | _ => None
                 end) with
          | Some (kind, value) => Some (mkLiteral value (text span) kind (range span) compared_with condition false)
          | None => None
          end
      | None => None
      end
  | _ => None
  end.

Definition opt_set (o : option LiteralFact) : gset LiteralFact := match o with Some l => {[l]} | None => ∅ end.
Definition opt_bind {A B} (o : option A) (f : A -> option B) : option B := match o with Some x => f x | None => None end.

Fixpoint pattern_literal_facts (pattern : Pat) (compared_with condition : str) : gset LiteralFact :=
  let fact e := opt_set (literal_fact e (Some compared_with) (Some condition)) in
  let all ps := foldr (fun p facts => pattern_literal_facts p compared_with condition ∪ facts) ∅ ps in
  match pattern with
  | MkPat kind _ =>
      match kind with
      | PExpr expression => fact expression
      | PRange first last =>
          opt_set (opt_bind first (fun e => literal_fact e (Some compared_with) (Some condition)))
          ∪ opt_set (opt_bind last (fun e => literal_fact e (Some compared_with) (Some condition)))
      | PTuple patterns | PTupleStruct patterns | POr patterns | PSlice patterns | PStruct patterns => all patterns
      | PDeref nested | PRef nested | PParen nested | PGuard nested _ | PIdent _ _ (Some nested) =>
          pattern_literal_facts nested compared_with condition
      | PMissing | PWild | PIdent _ _ None | PPath _ | PMacCall | PNever | PRest | PErr => ∅
      end
  end.

(** A literal passed to a call, and one compared with [other]. *)
Definition relate_call (other : str) (l : LiteralFact) : LiteralFact :=
  mkLiteral (literal l) (lf_text l) (lf_kind l) (lf_span l)
    (match compared_with l with None => Some other | c => c end) (lf_condition l) true.
Definition relate_comparison (other condition : str) (l : LiteralFact) : LiteralFact :=
  mkLiteral (literal l) (lf_text l) (lf_kind l) (lf_span l) (Some other) (Some condition) (via_unresolved_call l).
Definition map_literals (f : LiteralFact -> LiteralFact) (ls : gset LiteralFact) : gset LiteralFact := set_map f ls.

(** *** Patterns *)

(** The identifier of a binding, allocated at its first visit. *)
Definition intern_binding (name : str) (r : TextRange) (kind : VariableKind) (mode : BindingMode) : M nat :=
  fun a =>
    let key := mkBindingKey r name in
    match binding_ids a !! key with
    | Some id => Some (id, a)
    | None =>
        let info := mkBinding (mkVariable name kind r) (match mode_mut mode with MutMut => true | MutNot => false end) in
        Some (length (bindings a), push_binding info key a)
    end.

(** [if let Some(scope) = self.scopes.last_mut() { scope.insert(name, id); }]. *)
Definition scope_insert (name : str) (id : nat) (scopes : list (gmap str nat)) : list (gmap str nat) :=
  match scopes with [] => [] | scope :: outer => <[name := id]> scope :: outer end.

(** The binding of an identifier pattern, entered in the innermost scope. *)
Definition bind_name (name : str) (r : TextRange) (kind : VariableKind) (mode : BindingMode) : M nat :=
  let! id := intern_binding name r kind mode in
  modify (set_scopes (scope_insert name id)) ;; ret id.

(** [BindingMode::NONE]. *)
Definition is_none_mode (mode : BindingMode) : bool :=
  match mode with mkMode ByRefNo MutNot => true | _ => false end.

Definition BARE_IDENT : str := lit "bare identifier pattern resolution is unavailable".

Fixpoint bind_each (binders : list (State -> M State)) (state : State) : M State :=
  match binders with
  | [] => ret state
  | f :: binders => let! state := f state in bind_each binders state
  end.

Fixpoint bind_pattern (pattern : Pat) (kind : VariableKind) (value : Value) (state : State) : M State :=
  match pattern with
  | MkPat pk pattern_span =>
      match pk with
      | PIdent mode ident subpattern =>
          let! id := bind_name (name ident) (range (ident_span ident)) kind mode in
          let uppercase := match name ident with c :: _ => is_uppercase c | [] => false end in
          let bare := bool_decide (kind = VkLocal) && is_none_mode mode && is_none subpattern && uppercase in
          let binding_value := if bare then add_unknown value BARE_IDENT else value in
          (if bare then record_unknown pattern_span BARE_IDENT else ret tt) ;;
          let state := update_value id (fun _ => binding_value) state in
          match subpattern with
          | Some subpattern => bind_pattern subpattern kind binding_value state
          | None => ret state
          end
      | PTuple patterns | PSlice patterns | PTupleStruct patterns | PStruct patterns | POr patterns =>
          bind_each (map (fun p => bind_pattern p kind value) patterns) state
      | PDeref pattern | PRef pattern | PParen pattern | PGuard pattern _ => bind_pattern pattern kind value state
      | PPath path =>
          record_unknown pattern_span (lit "pattern path `" ++ text (path_span path) ++ lit "` is unresolved") ;; ret state
      | PMacCall =>
          record_unknown pattern_span (lit "pattern macro expansion is opaque") ;;
          mark_macro_assignments pattern_span ;; ret state
      | PExpr expression =>
          (if is_none (literal_fact expression None None)
           then record_unknown (expr_span expression) (lit "constant pattern resolution is unavailable")
           else ret tt) ;;
          ret state
      | PRange _ _ | PMissing | PWild | PRest | PNever | PErr => ret state
      end
  end.

(** *** Expressions *)

(** [if !state.reachable { return Value::default(); } ... value.controls.extend(active)]. *)
Definition analyze_live (kind : Analysis) : Analysis := fun active state =>
  if reachable state then
    let! '(value, state) := kind active state in
    ret (add_controls value (list_to_set active), state)
  else ret (empty_value, state).

(** [let mut x = active.to_vec(); x.extend(value.controls); x.push(key)]. *)
Definition extend_active (active : list ControlKey) (value : Value) (key : ControlKey) : list ControlKey :=
  active ++ elements (controls value) ++ [key].

Fixpoint merge_each (parts : list Analysis) (value : Value) (active : list ControlKey) (state : State) : M (Value * State) :=
  match parts with
  | [] => ret (value, state)
  | part :: parts =>
      let! '(more, state) := part active state in
      merge_each parts (value_merge value more) active state
  end.

Definition analyze_many (parts : list Analysis) : Analysis := merge_each parts empty_value.

(** An optional part: [unwrap_or_default] of its value. *)
Definition analyze_opt (part : option Analysis) : Analysis := fun active state =>
  match part with Some part => part active state | None => ret (empty_value, state) end.

Definition option_list {A} (o : option A) : list A := match o with Some x => [x] | None => [] end.

(** The arguments of a call: the literals that pass through it are related to [callee_text]. *)
Fixpoint analyze_args (callee_text : str) (args : list Analysis) (value : Value) (pushed : gset LiteralFact)
    (active : list ControlKey) (state : State) : M (Value * gset LiteralFact * State) :=
  match args with
  | [] => ret (value, pushed, state)
  | arg :: args =>
      let! '(argument_value, state) := arg active state in
      let related := map_literals (relate_call callee_text) (literal_facts argument_value) in
      let value := add_literals (value_merge value (clear_literals argument_value)) related in
      analyze_args callee_text args value (pushed ∪ related) active state
  end.

Definition analyze_call (callee_span : Span) (callee : Analysis) (arguments : list Analysis) : Analysis := fun active state =>
  let! '(value, state) := callee active state in
  let! '(value, _, state) := analyze_args (text callee_span) arguments value ∅ active state in
  ret (value, state).

(** The name of a path with one segment and no qualified self type. *)
Definition simple_name (e : Expr) : option str :=
  match e with
  | MkExpr (EPath false path) _ => match segments path with [seg] => Some (name seg) | _ => None end
  | _ => None
  end.

Definition analyze_method_call (method : Ident) (receiver_expr : Expr) (receiver : Analysis) (args : list Analysis) : Analysis := fun active state =>
  let! '(value, state) := receiver active state in
  let! '(value, pushed_literals, state) := analyze_args (text (expr_span receiver_expr)) args value ∅ active state in
  let! id := get (fun a => opt_bind (simple_name receiver_expr) (fun name => lookup name a)) in
  let state := match id with
               | Some id => update_value id (fun v => add_literals v pushed_literals) state
               | None => state
               end in
  ret (add_unknown value (lit "method `" ++ name method ++ lit "` is unresolved because names are not resolved"), state).

Definition is_short_circuit (op : BinOpKind) : bool := match op with And | Or => true | _ => false end.
Definition is_comparison (op : BinOpKind) : bool :=
  match op with OpEq | OpLt | OpLe | OpNe | OpGe | OpGt => true | _ => false end.

Definition analyze_binary (operator : BinOpKind) (span left_span right_span : Span) (left right : Analysis) : Analysis := fun active state =>
  let! '(left_value, state) := left active state in
  if is_short_circuit operator then
    let key := control_key left_span CkShortCircuit in
    record_control key (text left_span) left_value ;;
    let! '(right_value, right_state) := right (extend_active active left_value key) state in
    ret (value_merge left_value right_value, state_merge state right_state)
  else
    let! '(right_value, state) := right active state in
    let value := value_merge left_value right_value in
    let value :=
      if is_comparison operator then
        let condition := text span in
        add_literals
          (add_literals value (map_literals (relate_comparison (text right_span) condition) (literal_facts left_value)))
          (map_literals (relate_comparison (text left_span) condition) (literal_facts right_value))
      else value in
    ret (value, state).

Definition analyze_ret (span : Span) (returned_span : option Span) (returned : option Analysis) : Analysis := fun active state =>
  let! '(value, state) := analyze_opt returned active state in
  record_exit ExReturn span (text <$> returned_span) value (list_to_set active) ;;
  ret (empty_value, kill state).

Definition analyze_try (span inner_span : Span) (inner : Analysis) : Analysis := fun active state =>
  let! '(value, state) := inner active state in
  let key := control_key span CkTry in
  record_control key (text span) value ;;
  record_exit ExTry span (Some (text inner_span)) value (controls value ∪ list_to_set active ∪ {[key]}) ;;
  ret (add_controls value {[key]}, state).

Definition analyze_break (span : Span) (label : option Ident) (part : option Analysis) : Analysis := fun active state =>
  let! '(value, state) := analyze_opt part active state in
  let! depth := get (fun a => length (loops a)) in
  (match label, depth with
   | Some label, _ => record_unknown span (lit "labeled break `" ++ name label ++ lit "` target is unresolved")
   | None, S _ => modify (set_loops (fun l => match l with flow :: outer => merge_break flow state value :: outer | [] => [] end))
   | None, O => record_unknown span (lit "break target is unresolved")
   end) ;;
  ret (empty_value, kill state).

Definition analyze_continue (span : Span) (label : option Ident) : Analysis := fun _ state =>
  let! depth := get (fun a => length (loops a)) in
  (match label, depth with
   | Some label, _ => record_unknown span (lit "labeled continue `" ++ name label ++ lit "` target is unresolved")
   | None, S _ => modify (set_loops (fun l => match l with flow :: outer => merge_continue flow state :: outer | [] => [] end))
   | None, O => record_unknown span (lit "continue target is unresolved")
   end) ;;
  ret (empty_value, kill state).

(** An expression the analysis does not look into. *)
Definition unmodelled (span : Span) (why : str) : Analysis := fun _ state =>
  record_unknown span why ;; ret (unknown_value why, state).

Definition YEET : str := lit "yeet exit semantics are not analyzed".
Definition analyze_yeet (span : Span) (part : option Analysis) : Analysis := fun active state =>
  let! '(result, state) := analyze_opt part active state in
  record_unknown span YEET ;; ret (add_unknown result YEET, state).

(** *** Branches *)

(** A block below a condition; the pattern of a [let] condition is bound in a scope of its own. *)
Definition let_block (pattern : option Pat) (value : Value) (block : Analysis) : Analysis := fun active state =>
  match pattern with
  | Some pattern => with_scope (let! state := bind_pattern pattern VkLocal value state in block active state)
  | None => block active state
  end.

(** The condition is the value of the [let] when there is a [let_pattern]. *)
Definition analyze_if (condition_span : Span) (let_pattern : option Pat) (condition : Analysis) (then_block : Analysis)
    (otherwise : option Analysis) : Analysis := fun active state =>
  let! '(condition_value, state) := condition active state in
  let key := control_key condition_span CkBranch in
  record_control key (text condition_span) condition_value ;;
  let branch_active := extend_active active condition_value key in
  let! '(then_value, then_state) := let_block let_pattern condition_value then_block branch_active state in
  let! '(else_value, else_state) := analyze_opt otherwise branch_active state in
  ret (value_merge then_value else_value, state_merge then_state else_state).

(** An arm with the analyses of its guard and its body. *)
Record ArmParts : Type := mkArmParts {
  arm_range : Span; arm_pat : Pat; arm_guard : option (Span * Analysis); arm_body : option Analysis }.

Definition analyze_arm (scrutinee_text : str) (scrutinee_value : Value) (base : State) (active : list ControlKey) (arm : ArmParts) : M (Value * State) :=
  let key := control_key (arm_range arm) CkMatch in
  let condition := scrutinee_text ++ lit " matches " ++ text (span_of_pat (arm_pat arm)) in
  record_control key condition (add_literals scrutinee_value (pattern_literal_facts (arm_pat arm) scrutinee_text condition)) ;;
  with_scope (
    let! arm_state := bind_pattern (arm_pat arm) VkLocal scrutinee_value base in
    let arm_active := extend_active active scrutinee_value key in
    let! '(arm_active, arm_state) :=
      match arm_guard arm with
      | Some (guard_span, guard) =>
          let! '(guard_value, arm_state) := guard arm_active arm_state in
          let guard_key := control_key guard_span CkBranch in
          record_control guard_key (text guard_span) guard_value ;;
          ret (extend_active arm_active guard_value guard_key, arm_state)
      | None => ret (arm_active, arm_state)
      end in
    analyze_opt (arm_body arm) arm_active arm_state).

Fixpoint analyze_arms (scrutinee_text : str) (scrutinee_value : Value) (base : State) (active : list ControlKey)
    (arms : list ArmParts) (joined : option State) (result : Value) : M (Value * option State) :=
  match arms with
  | [] => ret (result, joined)
  | arm :: arms =>
      let! '(value, arm_state) := analyze_arm scrutinee_text scrutinee_value base active arm in
      analyze_arms scrutinee_text scrutinee_value base active arms (merge_into joined arm_state) (value_merge result value)
  end.

Definition analyze_match (scrutinee_span : Span) (scrutinee : Analysis) (arms : list ArmParts) : Analysis := fun active state =>
  let! '(scrutinee_value, base) := scrutinee active state in
  let! '(result, joined) := analyze_arms (text scrutinee_span) scrutinee_value base active arms None empty_value in
  ret (result, default base joined).

(** *** Loops *)

(** What the rounds of a loop accumulate: the states that leave it, the value of its breaks, and the state in
    which the last round tested the condition. *)
Record LoopOut : Type := mkOut { after_loop : option State; out_value : Value; condition_state : State }.

Definition backedge (body_state : State) (flow : LoopFlow) : State :=
  match continues flow with Some continues => state_merge body_state continues | None => body_state end.
Definition next_head (entry back : State) : State := if reachable back then state_merge entry back else entry.
Definition leave (out : LoopOut) (flow : LoopFlow) (test_state : State) : LoopOut :=
  match breaks flow with
  | Some found => mkOut (merge_into (after_loop out) found) (value_merge (out_value out) (break_value flow)) test_state
  | None => mkOut (after_loop out) (out_value out) test_state
  end.

(** The [loop { ... if next == head { break; } head = next; }] of the three loop forms; a round gives the state
    of the test, the state at the end of the body, and the flow of the breaks and continues of the body. *)
Fixpoint run_loop (rounds : nat) (round : State -> M (State * State * LoopFlow)) (entry : State) (out : LoopOut) (head : State) : M (LoopOut * State) :=
  match rounds with
  | O => out_of_fuel
  | S rounds =>
      let! '(test_state, body_state, flow) := round head in
      let out := leave out flow test_state in
      let next := next_head entry (backedge body_state flow) in
      if bool_decide (next = head) then ret (out, head) else run_loop rounds round entry out next
  end.

Definition while_round (condition_span span : Span) (let_pattern : option Pat) (condition body : Analysis) (active : list ControlKey) (head : State) : M (State * State * LoopFlow) :=
  let loop_key := control_key span CkLoop in
  let! '(condition_value, test_state) := condition active head in
  record_control loop_key (text condition_span) condition_value ;;
  let body_active := extend_active active condition_value loop_key in
  let! '(_, body_state, flow) := in_loop (let_block let_pattern condition_value body body_active test_state) in
  ret (test_state, body_state, flow).

Definition analyze_while (condition_span span : Span) (let_pattern : option Pat) (condition body : Analysis) : Analysis := fun active entry =>
  let! '(out, head) := run_loop fuel (while_round condition_span span let_pattern condition body active) entry (mkOut None empty_value entry) entry in
  ret (out_value out, default (dead_like head) (merge_into (after_loop out) (condition_state out))).

Definition loop_round (body : Analysis) (active : list ControlKey) (head : State) : M (State * State * LoopFlow) :=
  let! '(_, body_state, flow) := in_loop (body active head) in ret (head, body_state, flow).

Definition analyze_loop (body : Analysis) : Analysis := fun active entry =>
  let! '(out, head) := run_loop fuel (loop_round body active) entry (mkOut None empty_value entry) entry in
  ret (out_value out, default (dead_like head) (after_loop out)).

Definition for_round (pat : Pat) (key : ControlKey) (iter_value : Value) (body : Analysis) (active : list ControlKey) (head : State) : M (State * State * LoopFlow) :=
  with_scope (
    let! body_state := bind_pattern pat VkLocal iter_value head in
    let! '(_, body_state, flow) := in_loop (body (extend_active active iter_value key) body_state) in
    ret (head, body_state, flow)).

Definition analyze_for (pat : Pat) (iter_span : Span) (iter body : Analysis) : Analysis := fun active state =>
  let! '(iter_value, entry) := iter active state in
  let key := control_key iter_span CkLoop in
  record_control key (lit "for " ++ text (span_of_pat pat) ++ lit " in " ++ text iter_span) iter_value ;;
  let! '(out, head) := run_loop fuel (for_round pat key iter_value body active) entry (mkOut (Some entry) empty_value entry) entry in
  ret (out_value out, default (dead_like head) ((fun existing => state_merge existing head) <$> after_loop out)).

(** *** Assignments *)

Definition UNRESOLVED_TARGET : str := lit "assignment target is unresolved".
Definition DEREF_TARGET : str := lit "assignment through a dereference has an unresolved target".
Definition OTHER_TARGET : str := lit "assignment target form is not modeled".

(** What [assignment_target] returns: the binding, the value of the address, and whether the place is the binding itself. *)
Definition Target : Type := option nat * Value * bool.

Definition target_path (n : str) (state : State) : M (Target * State) :=
  let! id := get (lookup n) in
  match id with
  | Some id => ret (Some id, empty_value, true, state)
  | None => ret (None, unknown_value (lit "path `" ++ n ++ lit "` is unresolved"), true, state)
  end.

(** The value of the address also reads the binding. *)
Definition read_target (target : option nat) (value : Value) (base_span : Span) (state : State) : Value :=
  match target with
  | Some id => value_merge value (read_binding id state (range base_span))
  | None => value
  end.

Definition target_unknown (why : str) (place_span : Span) (part : Analysis) (active : list ControlKey) (state : State) : M (Target * State) :=
  let! '(value, state) := part active state in
  record_unknown place_span why ;; ret (None, add_unknown value why, false, state).

Definition analyze_assignment (assignment_span place_span : Span) (compound : bool)
    (target : list ControlKey -> State -> M (Target * State)) (rhs : Analysis) : Analysis := fun active state =>
  let! '(id, address, direct, state) := target active state in
  let! '(value, state) := rhs active state in
  let value := value_merge value address in
  match id with
  | Some id =>
      let value := if compound || negb direct then value_merge value (read_binding id state (range place_span)) else value in
      let value := add_controls value (list_to_set active) in
      let! state := store_binding id value state (range assignment_span) in
      ret (empty_value, state)
  | None => record_unknown place_span UNRESOLVED_TARGET ;; ret (empty_value, state)
  end.

(** *** Statements *)

(** A statement runs with whether it is the last one; the value of an expression statement that is becomes the tail. *)
Fixpoint analyze_stmts (stmts : list (bool -> list ControlKey -> State -> M (option Value * State))) (tail : Value)
    (active : list ControlKey) (state : State) : M (Value * State) :=
  match stmts with
  | [] => ret (tail, state)
  | stmt :: stmts =>
      if reachable state then
        let is_tail := match stmts with [] => true | _ => false end in
        let! '(value, state) := stmt is_tail active state in
        analyze_stmts stmts (default tail value) active state
      else ret (tail, state)
  end.

Definition NO_INITIALIZER : str := lit "local has no initializer or reaching assignment".

Definition local_init (pat : Pat) (initializer : Analysis) (active : list ControlKey) (state : State) : M State :=
  let! '(value, state) := initializer active state in
  bind_pattern pat VkLocal value state.

Definition local_init_else (pat : Pat) (local_span : Span) (initializer otherwise : Analysis) (active : list ControlKey) (state : State) : M State :=
  let! '(value, state) := initializer active state in
  let key := control_key local_span CkBranch in
  record_control key (text local_span) value ;;
  let! _ := otherwise (extend_active active value key) state in
  bind_pattern pat VkLocal (add_controls value {[key]}) state.

(** Two parts, joined. *)
Definition analyze_two (first second : Analysis) : Analysis := fun active state =>
  let! '(value, state) := first active state in
  let! '(more, state) := second active state in
  ret (value_merge value more, state).

(** *** The recursion over the tree *)

Definition NESTED : str := lit "nested function body is not analyzed".
Definition OPERANDS : str := lit "expression operands are not represented as local reads".
Definition FORM : str := lit "expression form is not modeled".
Definition INCOMPLETE : str := lit "parser did not produce a complete expression".

Definition target_field (base_span : Span) (base : list ControlKey -> State -> M (Target * State)) (active : list ControlKey) (state : State) : M (Target * State) :=
  let! '(target, value, _, state) := base active state in
  ret (target, read_target target value base_span state, false, state).

Definition target_index (base_span : Span) (base : list ControlKey -> State -> M (Target * State)) (index : Analysis)
    (active : list ControlKey) (state : State) : M (Target * State) :=
  let! '(target, value, _, state) := base active state in
  let! '(more, state) := index active state in
  ret (target, read_target target (value_merge value more) base_span state, false, state).

(** The [let] of a condition: its pattern and the expression that is analyzed instead of the condition. *)
Definition let_pattern (condition : Expr) : option Pat :=
  match condition with MkExpr (ELet pattern _) _ => Some pattern | _ => None end.

(** One level of the recursion: a node, given the analyses of expressions, blocks and targets. *)
Definition expr_kind_step (analyze_expr : Expr -> Analysis) (analyze_block : Block -> Analysis)
    (assignment_target : Expr -> Analysis -> list ControlKey -> State -> M (Target * State)) (kind : ExprKind) (span : Span) : Analysis :=
  match kind with
  | ELit token => fun _ state => ret (add_literals empty_value (opt_set (literal_fact (MkExpr (ELit token) span) None None)), state)
  | EUnderscore | EIncludedBytes => fun _ state => ret (empty_value, state)
  | EPath qself path => fun _ state => let! value := read_path (negb qself) path state in ret (value, state)
  | EArray l | ETup l => analyze_many (map analyze_expr l)
  | ECall callee arguments => analyze_call (expr_span callee) (analyze_expr callee) (map analyze_expr arguments)
  | EMethodCall seg receiver args => analyze_method_call seg receiver (analyze_expr receiver) (map analyze_expr args)
  | EBinary operator lhs rhs =>
      analyze_binary operator span (expr_span lhs) (expr_span rhs) (analyze_expr lhs) (analyze_expr rhs)
  | EUnary _ inner | EMove inner | EAwait inner | EUse inner | EParen inner | EAddrOf inner | ECast inner | EType inner
  | EBecome inner | EDirectConstArg inner | EField inner | ELet _ inner => analyze_expr inner
  | EIndex base index => analyze_two (analyze_expr base) (analyze_expr index)
  | ERepeat element count => analyze_two (analyze_expr element) (analyze_expr count)
  | ERange first last => analyze_many (option_list (option_map analyze_expr first) ++ option_list (option_map analyze_expr last))
  | EAssign place rhs =>
      analyze_assignment span (expr_span place) false (assignment_target place (analyze_expr place)) (analyze_expr rhs)
  | EAssignOp place rhs =>
      analyze_assignment span (expr_span place) true (assignment_target place (analyze_expr place)) (analyze_expr rhs)
  | EIf condition then_block otherwise =>
      analyze_if (expr_span condition) (let_pattern condition)
        (match condition with MkExpr (ELet _ value) _ => analyze_expr value | _ => analyze_expr condition end)
        (analyze_block then_block) (option_map analyze_expr otherwise)
  | EWhile condition body =>
      analyze_while (expr_span condition) span (let_pattern condition)
        (match condition with MkExpr (ELet _ value) _ => analyze_expr value | _ => analyze_expr condition end)
        (analyze_block body)
  | ELoop body => analyze_loop (analyze_block body)
  | EForLoop pat iter body => analyze_for pat (expr_span iter) (analyze_expr iter) (analyze_block body)
  | EMatch scrutinee arms =>
      analyze_match (expr_span scrutinee) (analyze_expr scrutinee)
        (map (fun arm =>
           match arm with
           | MkArm pat guard body span =>
               mkArmParts span pat (option_map (fun g => (expr_span g, analyze_expr g)) guard) (option_map analyze_expr body)
           end) arms)
  | EBlock block => analyze_block block
  | ERet returned => analyze_ret span (option_map expr_span returned) (option_map analyze_expr returned)
  | ETry inner => analyze_try span (expr_span inner) (analyze_expr inner)
  | EStruct path fields rest =>
      merge_each (map analyze_expr fields ++ option_list (option_map analyze_expr rest)) (unresolved_path path (lit "struct path"))
  | EMacCall => fun _ state =>
      let! state := opaque_macro span state in ret (unknown_value (lit "macro expansion is opaque"), state)
  | EBreak label value => analyze_break span label (option_map analyze_expr value)
  | EContinue label => analyze_continue span label
  | ETryBlock | EClosure | EGen => unmodelled span NESTED
  | EInlineAsm | EOffsetOf | EYield => unmodelled span OPERANDS
  | EYeet value => analyze_yeet span (option_map analyze_expr value)
  | EFormatArgs | EConstBlock | EUnsafeBinderCast => unmodelled span FORM
  | EErr | EDummy => unmodelled span INCOMPLETE
  end.

Fixpoint analyze_expr (expression : Expr) : Analysis :=
  match expression with MkExpr kind span => analyze_live (analyze_expr_kind kind span) end

with analyze_expr_kind (kind : ExprKind) (span : Span) : Analysis :=
  expr_kind_step analyze_expr analyze_block assignment_target kind span

(** [self_] is the analysis of [place] itself. *)
with assignment_target (place : Expr) (self_ : Analysis) (active : list ControlKey) (state : State) : M (Target * State) :=
  match place with
  | MkExpr kind span =>
      match simple_name place with
      | Some n => target_path n state
      | None =>
          match kind with
          | EField base => target_field (expr_span base) (assignment_target base (analyze_expr base)) active state
          | EIndex base index =>
              target_index (expr_span base) (assignment_target base (analyze_expr base)) (analyze_expr index) active state
          | EParen inner => assignment_target inner (analyze_expr inner) active state
          | EUnary Deref pointer => target_unknown DEREF_TARGET span (analyze_expr pointer) active state
          | _ => target_unknown OTHER_TARGET span self_ active state
          end
      end
  end

with analyze_block (block : Block) : Analysis := fun active state =>
  match block with
  | MkBlock stmts =>
      with_scope (analyze_stmts (map analyze_stmt stmts) empty_value active state)
  end

with analyze_stmt (stmt : Stmt) (is_tail : bool) (active : list ControlKey) (state : State) : M (option Value * State) :=
  match stmt with
  | MkStmt kind span =>
      match kind with
      | SLet local => let! state := analyze_local local active state in ret (None, state)
      | SItem | SEmpty => ret (None, state)
      | SExpr expression =>
          let! '(value, state) := analyze_expr expression active state in
          ret (if is_tail then Some value else None, state)
      | SSemi expression => let! '(_, state) := analyze_expr expression active state in ret (None, state)
      | SMacCall => let! state := opaque_macro span state in ret (None, state)
      end
  end

with analyze_local (local : Local) (active : list ControlKey) (state : State) : M State :=
  match local with
  | MkLocal pat kind span =>
      match kind with
      | LDecl => bind_pattern pat VkLocal (unknown_value NO_INITIALIZER) state
      | LInit initializer => local_init pat (analyze_expr initializer) active state
      | LInitElse initializer otherwise =>
          local_init_else pat span (analyze_expr initializer) (analyze_block otherwise) active state
      end
  end.

Lemma analyze_expr_eq k sp :
  analyze_expr (MkExpr k sp) = analyze_live (expr_kind_step analyze_expr analyze_block assignment_target k sp).
Proof. destruct k; reflexivity. Qed.

(** ** The function *)

(** [bind_pattern] of the parameters. *)
Fixpoint bind_params (params : list Pat) (state : State) : M State :=
  match params with
  | [] => ret state
  | pat :: params => let! state := bind_pattern pat VkParameter empty_value state in bind_params params state
  end.

(** The tail expression of a body: its last statement, when that is an expression without a semicolon. *)
Definition tail_expr (block : Block) : option Expr :=
  match list.last (stmts_of block) with Some (MkStmt (SExpr tail) _) => Some tail | _ => None end.

Definition analyze_function (function : Fn) : M unit :=
  let! state := bind_params (inputs function) live in
  match body function with
  | None => ret tt
  | Some body =>
      let! '(value, state) := analyze_block body [] state in
      match reachable state, tail_expr body with
      | true, Some tail => record_exit ExTail (expr_span tail) (Some (text (expr_span tail))) value ∅
      | _, _ => ret tt
      end
  end.

End Analyzing.

(** ** The report *)

Section Finish.
Context (function_name : str) (a : Analyzer).

(** The elements of a set and the entries of a map, in order. *)
Definition set_iter {A} `{Countable A, Ord A} (s : gset A) : list A := sort_by cmp (elements s).
Definition map_iter {K V} `{Countable K, Ord K} (m : gmap K V) : list (K * V) :=
  sort_by (fun x y => cmp x.1 y.1) (map_to_list m).

Definition dependencies (data : Data) (unknowns : gset str) : list Dependency :=
  ('(id, occurrences) ← map_iter data;
   match bindings a !! id with
   | Some binding => DepVariable (variable binding) <$> set_iter occurrences
   | None => []
   end) ++ (DepUnknown <$> set_iter unknowns).

Definition public_control (key : ControlKey) : option ControlDependency :=
  (fun fact => mkControl (cf_condition fact) (dependencies (cf_operands fact) (cf_unknowns fact))) <$> a_controls a !! key.

Definition public_exit (key : ExitKey) (value : Value) : Exit :=
  mkExit (ek_kind key) (ek_range key) (ek_value key) (dependencies (data value) (unknowns value))
    (omap public_control (set_iter (controls value))).

(** The literals of an exit are its own and those of its controls. *)
Definition exit_literals (value : Value) : gset LiteralFact :=
  foldr (fun key facts => match a_controls a !! key with Some control => cf_literal_facts control ∪ facts | None => facts end)
    (literal_facts value) (elements (controls value)).

Definition operand (exit : TextRange) (fact : LiteralFact) : LiteralOperand :=
  mkOperand (literal fact) (lf_text fact) (lf_kind fact) (lf_span fact) (compared_with fact) (lf_condition fact)
    (via_unresolved_call fact) exit.

Definition assignment_fact (id : nat) : AssignmentFact :=
  if bool_decide (id ∈ assigned a) then AfEver
  else match assignment_unknowns a !! id with
       | Some reasons => match set_iter reasons with why :: _ => AfUnknown why | [] => AfNever end
       | None => AfNever
       end.

Definition mutable_assignment (id : nat) (binding : BindingInfo) : MutableAssignment :=
  mkMutable (variable binding) (assignment_fact id)
    (match assignment_sites a !! id with Some sites => set_iter sites | None => [] end).

(** By the start of the span, then by kind. *)
Definition exit_order (x y : Exit) : comparison :=
  match start (x_span x) ?= start (x_span y) with Eq => cmp (x_kind x) (x_kind y) | c => c end.

Definition finish : FunctionDependence :=
  mkFunction function_name
    (sort_by exit_order ((fun e => public_exit e.1 e.2) <$> map_iter (exits a)))
    (sort_by cmp ('(key, value) ← map_iter (exits a); operand (ek_range key) <$> set_iter (exit_literals value)))
    ((fun ib => mutable_assignment ib.1 ib.2)
       <$> List.filter (fun ib => mutable ib.2) (zip (seq 0 (length (bindings a))) (bindings a)))
    ('(span, reasons) ← map_iter (a_unknowns a); (fun why => mkUnknown why span) <$> set_iter reasons).
End Finish.

(** [Analyzer::run]. *)
Definition run (source : str) (file : SourceFile) (from_token_lit : TokenLit -> option LitKind) (is_uppercase : Z -> bool)
    (fuel : nat) (function_name : str) (function : Fn) : option FunctionDependence :=
  match analyze_function source file from_token_lit is_uppercase fuel function new with
  | Some (_, a) => Some (finish function_name a)
  | None => None
  end.

(** ** The choice of the function *)

Definition named (n : str) (function : Fn) : bool := bool_decide (name (fn_ident function) = n).

Definition find_assoc (n : str) (item : AssocItem) : list Fn :=
  match item with AFn function => if named n function then [function] else [] | AOther => [] end.

Fixpoint find_item (n : str) (item : Item) : list Fn :=
  match item with
  | IFn function => if named n function then [function] else []
  | IMod (Some items) => List.flat_map (find_item n) items
  | IImpl items => List.flat_map (find_assoc n) items
  | IMod None | IOther => []
  end.
Definition find_functions (items : list Item) (n : str) : list Fn := List.flat_map (find_item n) items.

(** The end of [parse_and_analyze], for a source that parsed without errors. *)
Definition analyze_named (source : str) (file : SourceFile) (from_token_lit : TokenLit -> option LitKind) (is_uppercase : Z -> bool)
    (fuel : nat) (items : list Item) (function_name : str) : option (FunctionDependence + list str) :=
  match find_functions items function_name with
  | [] => Some (inr [lit "error: function `" ++ function_name ++ lit "` was not found"])
  | [function] => inl <$> run source file from_token_lit is_uppercase fuel function_name function
  | _ => Some (inr [lit "error: function name `" ++ function_name ++ lit "` is ambiguous"])
  end.

(** ** The answers of [dependence] *)

Definition SPACE : Z := 32.

(** [str::lines]: the pieces that end in a newline, without it and without a carriage return before it, then what is left, if anything. *)
Definition strip_cr (line : str) : str :=
  match reverse line with c :: l => if c =? CR then reverse l else line | [] => line end.
Fixpoint lines_from (s : str) (line : str) : list str :=
  match s with
  | [] => match line with [] => [] | _ => [line] end
  | c :: s => if c =? NEWLINE then strip_cr line :: lines_from s [] else lines_from s (line ++ [c])
  end.
Definition str_lines (s : str) : list str := lines_from s [].

(** One line of the captured text; the entries are kept last first. *)
Definition add_line (entries : list str) (line : str) : list str :=
  if starts_with [SPACE] line then
    match entries with entry :: rest => (entry ++ [NEWLINE] ++ line) :: rest | [] => [] end
  else if starts_with (lit "error:") line || starts_with (lit "fatal:") line then line :: entries
  else entries.
Definition error_entries (text : str) : list str := reverse (foldl add_line [] (str_lines text)).

Definition or_else_message (errors : list str) (message : str) : list str :=
  match errors with [] => [message] | _ => errors end.

(** [parse_and_analyze] from the answer of the parser on: the items of the crate, if it gave any, whether an error was
    reported, and the text captured by then. *)
Definition parse_and_analyze (source : str) (file : SourceFile) (from_token_lit : TokenLit -> option LitKind) (is_uppercase : Z -> bool)
    (fuel : nat) (function_name : str) (parsed : option (list Item)) (had_errors : bool) (captured : str) : option (FunctionDependence + list str) :=
  match parsed with
  | Some items =>
    if had_errors then Some (inr (or_else_message (error_entries captured) (lit "error: source did not parse")))
    else analyze_named source file from_token_lit is_uppercase fuel items function_name
  | None => Some (inr (or_else_message (error_entries captured) (lit "error: source did not parse")))
  end.

(** [dependence]: the answer, or what was captured when a fatal error stopped the parser. *)
Definition dependence (caught : option (FunctionDependence + list str)) (captured : str) : FunctionDependence + list str :=
  match caught with
  | Some answer => answer
  | None => inr (or_else_message (error_entries captured) (lit "error: the parser stopped on a fatal error"))
  end.
