(* ===== verification/DependOrder.v ===== *)
(** * Dependence analysis: the order of values and states

    Values are ordered by inclusion and [value_merge] is their join.  A state that is not reachable is below
    every other; reachable states are ordered pointwise, and [state_merge] is a join of this preorder.  The
    operations of the analyzer on values and states are monotone. *)
From Stdlib Require Import ZArith Lia.
From stdpp Require Import base numbers list gmap option.
From S2P Require Import Prelude RustStr SourceFile DependData DependAst Depend.
#[local] Open Scope nat_scope.

(** ** Data *)

Definition data_le (d e : Data) : Prop :=
  forall id occurrences, d !! id = Some occurrences -> exists more, e !! id = Some more /\ occurrences ⊆ more.

#[export] Instance data_le_preorder : PreOrder data_le.
Proof.
  split; [intros d id o Ho; by exists o|]. intros d e f H1 H2 id o Ho.
  destruct (H1 _ _ Ho) as (p & Hp & ?). destruct (H2 _ _ Hp) as (q & Hq & ?). exists q. split; [done|set_solver].
Qed.

Lemma lookup_merge_data d e id :
  merge_data d e !! id = union_with (fun o more => Some (o ∪ more)) (d !! id) (e !! id).
Proof. apply lookup_union_with. Qed.

Lemma merge_data_l d e : data_le d (merge_data d e).
Proof.
  intros id o Ho. rewrite lookup_merge_data, Ho. destruct (e !! id) as [p|]; simpl; eexists; (split; [done|set_solver]).
Qed.

Lemma merge_data_r d e : data_le e (merge_data d e).
Proof.
  intros id o Ho. rewrite lookup_merge_data, Ho. destruct (d !! id) as [p|]; simpl; eexists; (split; [done|set_solver]).
Qed.

Lemma merge_data_lub d e f : data_le d f -> data_le e f -> data_le (merge_data d e) f.
Proof.
  intros H1 H2 id o. rewrite lookup_merge_data. destruct (d !! id) as [p|] eqn:Ed, (e !! id) as [q|] eqn:Ee; simpl; intros [= <-].
  - destruct (H1 _ _ Ed) as (r & Hr & ?). destruct (H2 _ _ Ee) as (r' & Hr' & ?). exists r. split; [done|].
    rewrite Hr in Hr'. injection Hr' as <-. set_solver.
  - by apply H1.
  - by apply H2.
Qed.

Lemma data_le_antisym d e : data_le d e -> data_le e d -> d = e.
Proof.
  intros H1 H2. apply map_eq. intros id. destruct (d !! id) as [o|] eqn:Ed.
  - destruct (H1 _ _ Ed) as (p & Ep & ?). destruct (H2 _ _ Ep) as (q & Eq & ?). rewrite Ed in Eq. injection Eq as <-.
    rewrite Ep. f_equal. set_solver.
  - destruct (e !! id) as [p|] eqn:Ee; [|done]. destruct (H2 _ _ Ee) as (q & Eq & _). congruence.
Qed.

Lemma data_le_singleton id o d e : data_le d e -> data_le (merge_data {[id := o]} d) (merge_data {[id := o]} e).
Proof.
  intros H. apply merge_data_lub; [apply merge_data_l|]. etrans; [exact H|apply merge_data_r].
Qed.

Lemma data_le_map o d e : data_le d e -> data_le ((fun _ => {[o]}) <$> d) ((fun _ => {[o]}) <$> e).
Proof.
  intros H id p. rewrite !lookup_fmap. intros (q & Hq & ->)%fmap_Some. destruct (H _ _ Hq) as (r & Hr & _).
  exists {[o]}. by rewrite Hr.
Qed.

(** ** Values *)

Record val_le (v w : Value) : Prop := {
  vl_data : data_le (data v) (data w);
  vl_controls : controls v ⊆ controls w;
  vl_unknowns : unknowns v ⊆ unknowns w;
  vl_literals : literal_facts v ⊆ literal_facts w }.

#[export] Instance val_le_preorder : PreOrder val_le.
Proof.
  split; [done|]. intros u v w [? ? ? ?] [? ? ? ?]. split; [by etrans|set_solver..].
Qed.

Lemma val_le_antisym v w : val_le v w -> val_le w v -> v = w.
Proof.
  intros [? ? ? ?] [? ? ? ?]. destruct v, w; simpl in *. f_equal; [by apply data_le_antisym|set_solver..].
Qed.

Lemma empty_value_le v : val_le empty_value v.
Proof. split; simpl; [intros ? ?; by rewrite lookup_empty|set_solver..]. Qed.

Lemma value_merge_l v w : val_le v (value_merge v w).
Proof. split; simpl; [apply merge_data_l|set_solver..]. Qed.

Lemma value_merge_r v w : val_le w (value_merge v w).
Proof. split; simpl; [apply merge_data_r|set_solver..]. Qed.

Lemma value_merge_lub u v w : val_le u w -> val_le v w -> val_le (value_merge u v) w.
Proof. intros [? ? ? ?] [? ? ? ?]. split; simpl; [by apply merge_data_lub|set_solver..]. Qed.

Lemma value_merge_mono v v' w w' : val_le v v' -> val_le w w' -> val_le (value_merge v w) (value_merge v' w').
Proof.
  intros H1 H2. apply value_merge_lub; [etrans; [exact H1|apply value_merge_l]|etrans; [exact H2|apply value_merge_r]].
Qed.

Lemma add_controls_mono v w ks ls : val_le v w -> ks ⊆ ls -> val_le (add_controls v ks) (add_controls w ls).
Proof. intros [? ? ? ?] ?. split; simpl; [done|set_solver..]. Qed.

Lemma add_unknown_mono v w why : val_le v w -> val_le (add_unknown v why) (add_unknown w why).
Proof. intros [? ? ? ?]. split; simpl; [done|set_solver..]. Qed.

Lemma add_literals_mono v w ks ls : val_le v w -> ks ⊆ ls -> val_le (add_literals v ks) (add_literals w ls).
Proof. intros [? ? ? ?] ?. split; simpl; [done|set_solver..]. Qed.

Lemma clear_literals_mono v w : val_le v w -> val_le (clear_literals v) (clear_literals w).
Proof. intros [? ? ? ?]. split; simpl; [done|set_solver..]. Qed.

Lemma map_literals_mono f ks ls : ks ⊆ ls -> map_literals f ks ⊆ map_literals f ls.
Proof. unfold map_literals. set_solver. Qed.

(** ** States *)

Definition vals_le (vs ws : list Value) : Prop :=
  forall i v, vs !! i = Some v -> exists w, ws !! i = Some w /\ val_le v w.

Definition state_le (s t : State) : Prop :=
  reachable s = true -> reachable t = true /\ vals_le (values s) (values t).

#[export] Instance vals_le_preorder : PreOrder vals_le.
Proof.
  split; [intros vs i v Hv; by exists v|]. intros u v w H1 H2 i x Hx.
  destruct (H1 _ _ Hx) as (y & Hy & ?). destruct (H2 _ _ Hy) as (z & Hz & ?). exists z. split; [done|by etrans].
Qed.

#[export] Instance state_le_preorder : PreOrder state_le.
Proof.
  split; [intros s Hs; by split|]. intros s t u H1 H2 Hs. destruct (H1 Hs) as [Ht ?]. destruct (H2 Ht) as [? ?].
  split; [done|by etrans].
Qed.

Lemma dead_le s t : reachable s = false -> state_le s t.
Proof. unfold state_le. congruence. Qed.

Lemma dead_like_le s t : state_le (dead_like s) t.
Proof. by apply dead_le. Qed.

Lemma state_le_live s t : state_le s t -> reachable s = true -> reachable t = true.
Proof. intros H Hs. by destruct (H Hs). Qed.

Lemma vals_le_antisym vs ws : vals_le vs ws -> vals_le ws vs -> vs = ws.
Proof.
  intros H1 H2. apply list_eq. intros i. destruct (vs !! i) as [v|] eqn:Ev.
  - destruct (H1 _ _ Ev) as (w & Ew & ?). destruct (H2 _ _ Ew) as (u & Eu & ?). rewrite Ev in Eu. injection Eu as <-.
    rewrite Ew. f_equal. by apply val_le_antisym.
  - destruct (ws !! i) as [w|] eqn:Ew; [|done]. destruct (H2 _ _ Ew) as (v & Ev' & _). congruence.
Qed.

Lemma state_le_antisym s t : reachable s = true -> state_le s t -> state_le t s -> s = t.
Proof.
  intros Hs H1 H2. destruct (H1 Hs) as [Ht H3]. destruct (H2 Ht) as [_ H4]. destruct s, t; simpl in *.
  f_equal; [by apply vals_le_antisym|congruence].
Qed.

Lemma lookup_merge_values vs ws i :
  merge_values vs ws !! i =
  match vs !! i, ws !! i with
  | Some v, Some w => Some (value_merge v w)
  | Some v, None => Some v
  | None, Some w => Some (value_merge empty_value w)
  | None, None => None
  end.
Proof.
  revert ws i. induction vs as [|v vs IH]; intros ws i; simpl.
  - rewrite list_lookup_fmap. by destruct (ws !! i).
  - destruct ws as [|w ws]; [rewrite lookup_nil; by destruct ((v :: vs) !! i)|]. destruct i as [|i]; simpl; [done|apply IH].
Qed.

Lemma merge_values_l vs ws : vals_le vs (merge_values vs ws).
Proof.
  intros i v Hv. rewrite lookup_merge_values, Hv. destruct (ws !! i); eexists; (split; [done|]); [apply value_merge_l|done].
Qed.

Lemma merge_values_r vs ws : vals_le ws (merge_values vs ws).
Proof.
  intros i v Hv. rewrite lookup_merge_values, Hv. destruct (vs !! i); eexists; (split; [done|]); apply value_merge_r.
Qed.

Lemma merge_values_lub us vs ws : vals_le us ws -> vals_le vs ws -> vals_le (merge_values us vs) ws.
Proof.
  intros H1 H2 i v. rewrite lookup_merge_values. destruct (us !! i) as [x|] eqn:Ex, (vs !! i) as [y|] eqn:Ey; intros [= <-].
  - destruct (H1 _ _ Ex) as (w & Hw & ?). destruct (H2 _ _ Ey) as (w' & Hw' & ?). exists w. split; [done|].
    rewrite Hw in Hw'. injection Hw' as <-. by apply value_merge_lub.
  - by apply H1.
  - destruct (H2 _ _ Ey) as (w & Hw & ?). exists w. split; [done|]. apply value_merge_lub; [apply empty_value_le|done].
Qed.

Lemma state_merge_l s t : state_le s (state_merge s t).
Proof.
  intros Hs. unfold state_merge. rewrite Hs. simpl. destruct (reachable t); simpl; [split; [done|apply merge_values_l]|by split].
Qed.

Lemma state_merge_r s t : state_le t (state_merge s t).
Proof.
  intros Ht. unfold state_merge. rewrite Ht. destruct (reachable s); simpl; [split; [done|apply merge_values_r]|by split].
Qed.

Lemma state_merge_lub s t u : state_le s u -> state_le t u -> state_le (state_merge s t) u.
Proof.
  intros H1 H2. unfold state_merge. destruct (reachable s) eqn:Es; simpl; [|done]. destruct (reachable t) eqn:Et; simpl; [|done].
  intros _. destruct (H1 Es) as [? ?], (H2 Et) as [? ?]. split; [done|]. by apply merge_values_lub.
Qed.

Lemma state_merge_mono s s' t t' : state_le s s' -> state_le t t' -> state_le (state_merge s t) (state_merge s' t').
Proof.
  intros H1 H2. apply state_merge_lub; [etrans; [exact H1|apply state_merge_l]|etrans; [exact H2|apply state_merge_r]].
Qed.

(** *** Updates *)

Lemma lookup_update_value id f s i :
  values (update_value id f s) !! i =
  if decide (i = id) then Some (f (default empty_value (values s !! id)))
  else if decide (i < S id \/ i < length (values s)) then Some (default empty_value (values s !! i)) else None.
Proof.
  unfold update_value. simpl. set (vs := values s). set (n := S id - length vs).
  assert (Hp : forall j, j < S id \/ j < length vs -> (vs ++ replicate n empty_value) !! j = Some (default empty_value (vs !! j))).
  { intros j Hj. destruct (decide (j < length vs)) as [Hl|Hl].
    - rewrite lookup_app_l by done. destruct (lookup_lt_is_Some_2 vs j Hl) as [x Hx]. by rewrite Hx.
    - rewrite lookup_app_r by lia. rewrite (lookup_ge_None_2 vs j) by lia. apply lookup_replicate_2. unfold n. lia. }
  destruct (decide (i = id)) as [->|Hne].
  - rewrite list_lookup_alter_eq, Hp by lia. done.
  - rewrite list_lookup_alter_ne by done. destruct (decide _) as [Hj|Hj]; [by apply Hp|].
    apply lookup_ge_None_2. rewrite length_app, length_replicate. unfold n. lia.
Qed.

Lemma update_value_reachable id f s : reachable (update_value id f s) = reachable s.
Proof. done. Qed.

Lemma length_update_value id f s : length (values (update_value id f s)) = Nat.max (length (values s)) (S id).
Proof. unfold update_value. simpl. rewrite length_alter, length_app, length_replicate. lia. Qed.

Lemma vals_le_default vs ws i : vals_le vs ws -> val_le (default empty_value (vs !! i)) (default empty_value (ws !! i)).
Proof.
  intros H. destruct (vs !! i) as [v|] eqn:Ev; simpl; [|apply empty_value_le]. by destruct (H _ _ Ev) as (w & -> & ?).
Qed.

Lemma vals_le_length vs ws : vals_le vs ws -> length vs <= length ws.
Proof.
  intros H. destruct (decide (length vs <= length ws)) as [|Hl]; [done|]. exfalso.
  destruct (lookup_lt_is_Some_2 vs (length ws)) as [v Hv]; [lia|]. destruct (H _ _ Hv) as (w & Hw & _).
  apply lookup_lt_Some in Hw. lia.
Qed.

Lemma update_value_mono id f g s t :
  state_le s t -> (forall v w, val_le v w -> val_le (f v) (g w)) -> state_le (update_value id f s) (update_value id g t).
Proof.
  intros H Hf Hs. destruct (H Hs) as [Ht Hv]. split; [done|]. intros i v. rewrite !lookup_update_value.
  destruct (decide (i = id)) as [->|Hne].
  - intros [= <-]. eexists. split; [done|]. by apply Hf, vals_le_default.
  - pose proof (vals_le_length _ _ Hv). destruct (decide (i < S id \/ i < length (values s))); [|done]. intros [= <-].
    rewrite decide_True by lia. eexists. split; [done|]. by apply vals_le_default.
Qed.

Lemma read_binding_mono id s t o :
  vals_le (values s) (values t) -> val_le (read_binding id s o) (read_binding id t o).
Proof.
  intros H. unfold read_binding. destruct (values s !! id) as [v|] eqn:Ev.
  - destruct (H _ _ Ev) as (w & -> & [? ? ? ?]). split; simpl; [|set_solver..].
    apply merge_data_lub; [etrans; [by apply data_le_singleton|apply merge_data_l]|].
    etrans; [by apply data_le_map|apply merge_data_r].
  - destruct (values t !! id) as [w|]; [|done]. split; simpl; [|set_solver..].
    etrans; [apply merge_data_l|apply merge_data_l].
Qed.

(** ** Optional states, flows and loop results *)

Definition opt_le (o p : option State) : Prop :=
  match o, p with None, _ => True | Some s, Some t => state_le s t | Some _, None => False end.

#[export] Instance opt_le_preorder : PreOrder opt_le.
Proof.
  split; [by intros [s|]; simpl|]. intros [s|] [t|] [u|]; simpl; try done. apply transitivity.
Qed.

Lemma merge_into_l o s : opt_le o (merge_into o s).
Proof. destruct o; simpl; [apply state_merge_l|done]. Qed.

Lemma merge_into_r o s : opt_le (Some s) (merge_into o s).
Proof. destruct o; simpl; [apply state_merge_r|done]. Qed.

Lemma merge_into_lub o s p : opt_le o p -> opt_le (Some s) p -> opt_le (merge_into o s) p.
Proof. destruct o, p; simpl; try done. apply state_merge_lub. Qed.

Lemma merge_into_mono o p s t : opt_le o p -> state_le s t -> opt_le (merge_into o s) (merge_into p t).
Proof.
  intros H1 H2. apply merge_into_lub; [etrans; [exact H1|apply merge_into_l]|].
  etrans; [|apply merge_into_r]. exact H2.
Qed.

Record flow_le (f g : LoopFlow) : Prop := {
  fl_breaks : opt_le (breaks f) (breaks g);
  fl_continues : opt_le (continues f) (continues g);
  fl_value : val_le (break_value f) (break_value g) }.

#[export] Instance flow_le_preorder : PreOrder flow_le.
Proof. split; [done|]. intros f g h [? ? ?] [? ? ?]. split; by etrans. Qed.

Lemma empty_flow_le f : flow_le empty_flow f.
Proof. split; simpl; [done|done|apply empty_value_le]. Qed.

Lemma merge_break_grows f s v : flow_le f (merge_break f s v).
Proof. split; simpl; [apply merge_into_l|done|apply value_merge_l]. Qed.

Lemma merge_break_lub f g h s v : flow_le f h -> flow_le (merge_break g s v) h -> flow_le (merge_break f s v) h.
Proof.
  intros [? ? ?] [? ? ?]. simpl in *. split; simpl; [|done|].
  - apply merge_into_lub; [done|]. etrans; [apply merge_into_r|done].
  - apply value_merge_lub; [done|]. etrans; [apply value_merge_r|done].
Qed.

Lemma merge_break_mono f s t v w : state_le s t -> val_le v w -> flow_le (merge_break f s v) (merge_break f t w).
Proof. intros. split; simpl; [by apply merge_into_mono|done|by apply value_merge_mono]. Qed.

Lemma merge_continue_grows f s : flow_le f (merge_continue f s).
Proof. split; simpl; [done|apply merge_into_l|done]. Qed.

Lemma merge_continue_lub f g h s : flow_le f h -> flow_le (merge_continue g s) h -> flow_le (merge_continue f s) h.
Proof.
  intros [? ? ?] [? ? ?]. simpl in *. split; simpl; [done| |done].
  apply merge_into_lub; [done|]. etrans; [apply merge_into_r|done].
Qed.

Lemma merge_continue_mono f s t : state_le s t -> flow_le (merge_continue f s) (merge_continue f t).
Proof. intros. split; simpl; [done|by apply merge_into_mono|done]. Qed.

Record out_le (o p : LoopOut) : Prop := {
  ol_after : opt_le (after_loop o) (after_loop p);
  ol_value : val_le (out_value o) (out_value p);
  ol_state : state_le (condition_state o) (condition_state p) }.

Lemma backedge_mono s t f g : state_le s t -> flow_le f g -> state_le (backedge s f) (backedge t g).
Proof.
  intros H [_ Hc _]. unfold backedge. destruct (continues f) as [c|], (continues g) as [d|]; simpl in Hc; [|done| |done].
  - by apply state_merge_mono.
  - etrans; [exact H|apply state_merge_l].
Qed.

Lemma next_head_above entry back : state_le entry (next_head entry back).
Proof. unfold next_head. destruct (reachable back); [apply state_merge_l|done]. Qed.

Lemma next_head_back entry back : state_le back (next_head entry back).
Proof. unfold next_head. destruct (reachable back) eqn:E; [apply state_merge_r|]. intros Hb. congruence. Qed.

Lemma next_head_mono e e' b b' : state_le e e' -> state_le b b' -> state_le (next_head e b) (next_head e' b').
Proof.
  intros H1 H2. unfold next_head at 1. destruct (reachable b) eqn:Eb.
  - unfold next_head. rewrite (state_le_live _ _ H2 Eb). by apply state_merge_mono.
  - etrans; [exact H1|apply next_head_above].
Qed.

(** What a round contributes to the results is below what the loop returns. *)
Lemma leave_lub o p f g s t :
  opt_le (after_loop o) (after_loop (leave p g t)) -> val_le (out_value o) (out_value (leave p g t)) ->
  flow_le f g -> state_le s t -> out_le (leave o f s) (leave p g t).
Proof.
  intros Ha Hv [Hb _ Hf] Hs. unfold leave in *.
  destruct (breaks f) as [b|], (breaks g) as [c|]; simpl in *; [|done| |]; split; simpl; try done.
  - apply merge_into_lub; [done|]. etrans; [|apply merge_into_r]. exact Hb.
  - apply value_merge_lub; [done|]. etrans; [exact Hf|apply value_merge_r].
Qed.

(** The results accumulate. *)
Lemma leave_grows o f s :
  opt_le (after_loop o) (after_loop (leave o f s)) /\ val_le (out_value o) (out_value (leave o f s)).
Proof. unfold leave. destruct (breaks f); simpl; split; auto using merge_into_l, value_merge_l; done. Qed.
