(* ===== verification/DependGrow.v ===== *)
(** * The analyzer only grows, and more fuel changes nothing *)
From Stdlib Require Import ZArith Lia.
From stdpp Require Import base numbers list gmap option.
From S2P Require Import Prelude RustStr SourceFile DependData DependAst Depend DependOrder.
#[local] Open Scope nat_scope.
Open Scope depend_scope.

(** ** What every method preserves

    [Grow keep m]: whenever [m] returns, the bindings it found are still there with the same identifiers, the
    flows of the enclosing loops have only grown, identifiers in scope stay valid, and the scopes are those of
    the start: all of them ([keep]) or, for a method that binds names, all but the innermost.
    Every analysis of an expression or a block keeps all scopes. *)

Record grows (a b : Analyzer) : Prop := {
  g_bindings : bindings a `prefix_of` bindings b;
  g_ids : binding_ids a ⊆ binding_ids b;
  g_loops : Forall2 flow_le (loops a) (loops b) }.

#[export] Instance flows_le_preorder : PreOrder (Forall2 flow_le).
Proof. split; apply _. Qed.

#[export] Instance grows_preorder : PreOrder grows.
Proof. split; [by split|]. intros a b c [? ? ?] [? ? ?]. split; by etrans. Qed.

Record Valid (a : Analyzer) : Prop := {
  v_scopes : Forall (map_Forall (fun _ id => id < length (bindings a))) (scopes a);
  v_ids : map_Forall (fun _ id => id < length (bindings a)) (binding_ids a) }.

Definition Grow {A} (keep : bool) (m : M A) : Prop :=
  forall a x a', m a = Some (x, a') ->
    grows a a' /\ (Valid a -> Valid a') /\ (if keep then scopes a' = scopes a else tail (scopes a') = tail (scopes a)).

(** *** Rules *)

Lemma bind_Some {A B} (m : M A) (k : A -> M B) a y b :
  bind m k a = Some (y, b) -> exists x a', m a = Some (x, a') /\ k x a' = Some (y, b).
Proof. unfold bind. destruct (m a) as [[x a']|]; [|done]. eauto. Qed.

Lemma Grow_weaken {A} (m : M A) : Grow true m -> Grow false m.
Proof. intros H a x a' E. destruct (H a x a' E) as (? & ? & ->). done. Qed.

Lemma Grow_keep {A} keep (m : M A) : Grow true m -> Grow keep m.
Proof. destruct keep; [done|apply Grow_weaken]. Qed.

Lemma Grow_ret {A} keep (x : A) : Grow keep (ret x).
Proof. intros a y a' [= -> ->]. split; [done|]. by destruct keep. Qed.

Lemma Grow_get {A} keep (f : Analyzer -> A) : Grow keep (get f).
Proof. intros a y a' [= _ ->]. split; [done|]. by destruct keep. Qed.

Lemma Grow_fuel {A} keep : Grow keep (out_of_fuel (A := A)).
Proof. by intros ? ? ?. Qed.

Lemma Grow_bind {A B} keep (m : M A) (k : A -> M B) : Grow keep m -> (forall x, Grow keep (k x)) -> Grow keep (bind m k).
Proof.
  intros Hm Hk a y b (x & a' & E1 & E2)%bind_Some. destruct (Hm _ _ _ E1) as (? & ? & H1).
  destruct (Hk _ _ _ _ E2) as (? & ? & H2). split; [by etrans|]. split; [auto|]. destruct keep; congruence.
Qed.

(** An update of the records only. *)
Definition records (f : Analyzer -> Analyzer) : Prop :=
  forall a, bindings (f a) = bindings a /\ binding_ids (f a) = binding_ids a /\ scopes (f a) = scopes a /\ loops (f a) = loops a.

Lemma Grow_records keep f : records f -> Grow keep (modify f).
Proof.
  intros Hf a x a' [= _ <-]. destruct (Hf a) as (H1 & H2 & H3 & H4).
  split; [split; by rewrite ?H1, ?H2, ?H4|]. split; [intros [? ?]; split; by rewrite ?H1, ?H2, ?H3|]. rewrite H3. by destruct keep.
Qed.

Lemma Grow_with_scope {A} keep (m : M A) : Grow false m -> Grow keep (with_scope m).
Proof.
  intros Hm. apply Grow_keep. intros a x a' E. unfold with_scope in E.
  apply bind_Some in E as (? & b & [= _ <-] & E). apply bind_Some in E as (y & c & E1 & E). apply bind_Some in E as (? & d & [= _ <-] & [= <- <-]).
  destruct (Hm _ _ _ E1) as ([H1 H2 H3] & HV & Hs). simpl in *. split; [by split|]. split; [|exact Hs].
  intros [V1 V2]. destruct HV as [W1 W2]; [split; [constructor; [by apply map_Forall_empty|done]|done]|].
  split; simpl; [by apply Forall_tail|done].
Qed.

Lemma Grow_in_loop {A} keep (m : M A) : Grow keep m -> Grow keep (in_loop m).
Proof.
  intros Hm a x a' E. unfold in_loop in E. apply bind_Some in E as (? & b & [= _ <-] & E). apply bind_Some in E as (y & c & E1 & E).
  apply bind_Some in E as (f & d & [= _ <-] & E). apply bind_Some in E as (? & e & [= _ <-] & [= <- <-]).
  destruct (Hm _ _ _ E1) as ([H1 H2 H3] & HV & Hs). simpl in *.
  split; [|split; [|exact Hs]].
  - split; simpl; [done|done|]. apply Forall2_cons_inv_l in H3 as (g & l & _ & H3 & ->). done.
  - intros [V1 V2]. destruct HV as [W1 W2]; [by split|]. by split.
Qed.

(** *** Records and patterns *)

Lemma records_exit f : records (set_exits f).
Proof. done. Qed.
Lemma records_unknown f : records (set_unknowns f).
Proof. done. Qed.
Lemma records_control f : records (set_controls f).
Proof. done. Qed.
Lemma records_mark : records mark_assignments.
Proof. done. Qed.
Lemma records_assigned f g : records (fun a => set_assigned (f a) (g a) a).
Proof. done. Qed.

Create HintDb depend discriminated.
#[export] Hint Resolve Grow_ret Grow_get Grow_fuel Grow_records records_exit records_unknown records_control records_mark records_assigned : depend.

Section Methods.
Context (source : str) (file : SourceFile).
Context (from_token_lit : TokenLit -> option LitKind) (is_uppercase : Z -> bool) (fuel : nat).

Lemma Grow_intern keep n r kind mode : Grow keep (intern_binding n r kind mode).
Proof.
  apply Grow_keep. intros a x a'. unfold intern_binding. destruct (binding_ids a !! _) as [id|] eqn:E; intros [= <- <-]; [by split|].
  split; [split; simpl|split; [|done]].
  - by apply prefix_app_r.
  - by apply insert_subseteq.
  - done.
  - intros [V1 V2]. split; simpl; rewrite length_app; simpl.
    + revert V1. apply Forall_impl. intros sc Hsc. eapply map_Forall_impl; [exact Hsc|]. simpl. lia.
    + apply map_Forall_insert_2; [lia|]. eapply map_Forall_impl; [exact V2|]. simpl. lia.
Qed.

(** The identifier a pattern binds is valid, so binding its name keeps the scopes valid. *)
Lemma Grow_bind_name n r kind mode :
  Grow false (bind_name n r kind mode).
Proof.
  unfold bind_name. intros a x a' E. apply bind_Some in E as (id & b & E1 & E). apply bind_Some in E as (? & c & [= _ <-] & [= <- <-]).
  pose proof (Grow_intern true n r kind mode _ _ _ E1) as (Hg & HV & Hs).
  assert (Hid : Valid b -> id < length (bindings b)).
  { intros [_ V]. unfold intern_binding in E1. destruct (binding_ids a !! _) as [i|] eqn:Ei; injection E1 as <- <-.
    - eapply V, Ei.
    - simpl. rewrite length_app. simpl. lia. }
  split; [destruct Hg; by split|]. split.
  - intros V. specialize (Hid (HV V)). destruct (HV V) as [V1 V2]. split; simpl; [|done].
    unfold scope_insert. destruct (scopes b) as [|sc l]; [done|]. inversion_clear V1. constructor; [|done].
    by apply map_Forall_insert_2.
  - simpl. rewrite Hs. by destruct (scopes a).
Qed.

Lemma Grow_record_unknown keep span why : Grow keep (record_unknown file span why).
Proof. unfold record_unknown. auto with depend. Qed.
Lemma Grow_record_control keep key c v : Grow keep (record_control key c v).
Proof. unfold record_control. auto with depend. Qed.
Lemma Grow_record_exit keep k sp t v ks : Grow keep (record_exit file k sp t v ks).
Proof. unfold record_exit. auto with depend. Qed.
Lemma Grow_store_binding keep id v s r : Grow keep (store_binding id v s r).
Proof. unfold store_binding. apply Grow_bind; auto with depend. Qed.
Lemma Grow_opaque_macro keep span s : Grow keep (opaque_macro file span s).
Proof. unfold opaque_macro. apply Grow_bind; [apply Grow_record_unknown|]. intros. repeat (apply Grow_bind; [auto with depend|intros]). apply Grow_ret. Qed.
Lemma Grow_mark_macro keep span : Grow keep (mark_macro_assignments file span).
Proof. unfold mark_macro_assignments. apply Grow_bind; [apply Grow_record_unknown|]. auto with depend. Qed.
Lemma Grow_read_path keep b p s : Grow keep (read_path source file b p s).
Proof. unfold read_path. apply Grow_bind; [auto with depend|]. intros [id|]; auto with depend. Qed.

Lemma Grow_set_loops keep (g : LoopFlow -> LoopFlow) : (forall f, flow_le f (g f)) ->
  Grow keep (modify (set_loops (fun l => match l with flow :: outer => g flow :: outer | [] => [] end))).
Proof.
  intros Hg. apply Grow_keep. intros a x a' [= _ <-]. split; [|split; [intros [? ?]; by split|done]].
  split; simpl; [done|done|]. destruct (loops a); constructor; [apply Hg|done].
Qed.
End Methods.

#[export] Hint Resolve Grow_intern Grow_bind_name Grow_record_unknown Grow_record_control Grow_record_exit Grow_store_binding Grow_opaque_macro
  Grow_mark_macro Grow_read_path : depend.

(** Walk through a computation: binds, pairs, branches. *)
Ltac grow_step :=
  match goal with
  | |- forall _, _ => intro
  | |- Grow _ (bind _ _) => apply Grow_bind
  | |- Grow _ (match ?x with (_, _) => _ end) => destruct x
  | |- Grow _ (if ?b then _ else _) => destruct b
  | |- Grow _ (match ?x with Some _ => _ | None => _ end) => destruct x
  | |- Grow _ (match ?x with O => _ | S _ => _ end) => destruct x
  | |- Grow _ (with_scope _) => apply Grow_with_scope
  | |- Grow _ (in_loop _) => apply Grow_in_loop
  | |- Grow _ (let _ := _ in _) => cbv zeta
  | |- _ => solve [auto with depend]
  end.
Ltac grow := repeat grow_step.

Section Tree.
Context (source : str) (file : SourceFile).
Context (from_token_lit : TokenLit -> option LitKind) (is_uppercase : Z -> bool) (fuel : nat).

Lemma Grow_bind_each fs : Forall (fun f => forall s, Grow false (f s)) fs -> forall s, Grow false (bind_each fs s).
Proof. induction 1 as [|f fs Hf _ IH]; intros s; simpl; grow; auto. Qed.

Lemma Grow_bind_pattern p : forall kind v s, Grow false (bind_pattern source file from_token_lit is_uppercase p kind v s).
Proof.
  apply (pat_all (fun p => forall kind v s, Grow false (bind_pattern source file from_token_lit is_uppercase p kind v s))).
  clear p. intros k sp H kind v s. destruct k; simpl in *; grow; auto;
    apply Grow_bind_each, Forall_map; revert H; apply Forall_impl; intros p Hp s'; apply Hp.
Qed.

Definition AGrow (f : Analysis) : Prop := forall active s, Grow true (f active s).

Definition opt_parts (o : option Analysis) : Prop := opt_all AGrow o.

Lemma Grow_opt o active s : opt_all AGrow o -> Grow true (analyze_opt o active s).
Proof. intros H. unfold analyze_opt. destruct o; [apply H|apply Grow_ret]. Qed.

Lemma Grow_merge_each fs : Forall AGrow fs -> forall v active s, Grow true (merge_each fs v active s).
Proof. induction 1 as [|f fs Hf _ IH]; intros v active s; simpl; grow; auto. Qed.

Lemma Grow_args t fs : Forall AGrow fs -> forall v ls active s, Grow true (analyze_args t fs v ls active s).
Proof. induction 1 as [|f fs Hf _ IH]; intros v ls active s; simpl; grow; auto. Qed.

Lemma Grow_run_loop n round entry : (forall s, Grow true (round s)) -> forall out head, Grow true (run_loop n round entry out head).
Proof. intros Hr. induction n as [|n IH]; intros out head; simpl; grow; auto. Qed.

Lemma Grow_stmts fs : Forall (fun f => forall b active s, Grow false (f b active s)) fs ->
  forall v active s, Grow false (analyze_stmts fs v active s).
Proof. induction 1 as [|f fs Hf _ IH]; intros v active s; simpl; grow; auto. Qed.

Definition arm_grow (arm : ArmParts) : Prop := opt_all (fun g => AGrow (snd g)) (arm_guard arm) /\ opt_all AGrow (arm_body arm).

Lemma Grow_arms t v base active arms : Forall arm_grow arms ->
  forall joined result, Grow true (analyze_arms source file from_token_lit is_uppercase t v base active arms joined result).
Proof.
  induction 1 as [|arm arms [Hg Hb] _ IH]; intros joined result; simpl; [apply Grow_ret|].
  unfold analyze_arm. grow; auto using Grow_opt, Grow_weaken, Grow_bind_pattern.
Qed.

(** Lists and options of parts, from the induction hypotheses. *)
Lemma parts_all (P : Analysis -> Prop) (f : Expr -> Analysis) l : Forall (deep (fun e => P (f e))) l -> Forall P (map f l).
Proof. intros H. apply Forall_map. revert H. apply Forall_impl. intros e. apply (deep_here (fun e => P (f e))). Qed.

Lemma opt_part_all (P : Analysis -> Prop) (f : Expr -> Analysis) o :
  opt_all (deep (fun e => P (f e))) o -> opt_all P (option_map f o).
Proof. destruct o; simpl; [apply (deep_here (fun e => P (f e)))|done]. Qed.

Lemma opt_list_all (P : Analysis -> Prop) o : opt_all P o -> Forall P (option_list o).
Proof. destruct o; simpl; auto. Qed.

Abbreviation an_expr := (analyze_expr source file from_token_lit is_uppercase fuel).
Abbreviation an_block := (analyze_block source file from_token_lit is_uppercase fuel).
Abbreviation an_target := (assignment_target source file from_token_lit is_uppercase fuel).

Lemma Grow_target_unknown why sp f active s : AGrow f -> Grow true (target_unknown file why sp f active s).
Proof. intros H. unfold target_unknown. grow; auto. Qed.

Fixpoint Grow_target (e : Expr) : forall self active s,
  AGrow self -> deep (fun e => AGrow (an_expr e)) e -> Grow true (an_target e self active s).
Proof.
  destruct e as [k sp]. intros self active s Hself [_ He]. cbn [assignment_target].
  destruct (simple_name (MkExpr k sp)); [unfold target_path; grow|].
  destruct k; auto using Grow_target_unknown.
  - destruct operator; auto using Grow_target_unknown.
  - unfold target_field. grow. apply Grow_target; [by apply (deep_here (fun e => AGrow (an_expr e)))|done].
  - destruct He. unfold target_index. grow; auto. apply Grow_target; [by apply (deep_here (fun e => AGrow (an_expr e)))|done].
  - apply Grow_target; [by apply (deep_here (fun e => AGrow (an_expr e)))|done].
Qed.

Lemma grow_here e : deep (fun e => AGrow (an_expr e)) e -> AGrow (an_expr e).
Proof. apply (deep_here (fun e => AGrow (an_expr e))). Qed.

Lemma Grow_condition c : deep (fun e => AGrow (an_expr e)) c ->
  AGrow (match c with MkExpr (ELet _ value) _ => an_expr value | _ => an_expr c end).
Proof. destruct c as [k sp]. intros [H He]. destruct k; done. Qed.

Lemma Grow_stmt b st : stmt_all (deep (fun e => AGrow (an_expr e))) (fun b => AGrow (an_block b)) st ->
  forall active s, Grow false (analyze_stmt source file from_token_lit is_uppercase fuel st b active s).
Proof.
  destruct st as [k sp]. intros Hs active s.
  destruct k as [[p [|e|e bl] lsp]| |e|e| |]; cbn [analyze_stmt analyze_local stmt_all local_all] in *;
    unfold local_init, local_init_else; grow; auto using Grow_bind_pattern; apply Grow_weaken; apply grow_here || apply Hs; apply Hs.
Qed.

Lemma AGrow_live f : AGrow f -> AGrow (analyze_live f).
Proof. intros H active s. unfold analyze_live. grow. Qed.

Lemma arms_grow arms : Forall (arm_all (deep (fun e => AGrow (an_expr e)))) arms ->
  Forall arm_grow (map (fun arm => match arm with MkArm pat guard body span =>
    mkArmParts span pat (option_map (fun g => (expr_span g, an_expr g)) guard) (option_map an_expr body) end) arms).
Proof.
  intros H. apply Forall_map. revert H. apply Forall_impl. intros [p g b sp] [Hg Hb].
  split; simpl; [destruct g|destruct b]; simpl; auto using grow_here.
Qed.

Lemma grow_at e active s : deep (fun e => AGrow (an_expr e)) e -> Grow true (an_expr e active s).
Proof. intros H. by apply grow_here. Qed.

Lemma grow_apply f active s : AGrow f -> Grow true (f active s).
Proof. intros H. apply H. Qed.

Lemma Grow_break keep s v :
  Grow keep (modify (set_loops (fun l => match l with flow :: outer => merge_break flow s v :: outer | [] => [] end))).
Proof. apply (Grow_set_loops keep (fun f => merge_break f s v)). intros. apply merge_break_grows. Qed.

Lemma Grow_continue keep s :
  Grow keep (modify (set_loops (fun l => match l with flow :: outer => merge_continue flow s :: outer | [] => [] end))).
Proof. apply (Grow_set_loops keep (fun f => merge_continue f s)). intros. apply merge_continue_grows. Qed.

#[local] Hint Resolve grow_at grow_here Grow_opt Grow_merge_each Grow_args parts_all opt_part_all opt_list_all Grow_condition arms_grow Grow_arms
  Grow_break Grow_continue Grow_weaken Grow_bind_pattern Grow_target Forall_app_2 Forall_nil_2 Forall_cons_2 : depend.

(** **** Loops *)

Lemma Grow_while_round csp sp lp c b active head : AGrow c -> AGrow b ->
  Grow true (while_round source file from_token_lit is_uppercase csp sp lp c b active head).
Proof. intros Hc Hb. unfold while_round, let_block. grow; auto using grow_apply, Grow_weaken. Qed.

Lemma Grow_for_round pat key v b active head : AGrow b ->
  Grow true (for_round source file from_token_lit is_uppercase pat key v b active head).
Proof. intros Hb. unfold for_round. grow; auto using grow_apply, Grow_weaken. Qed.

Lemma Grow_loop_round b active head : AGrow b -> Grow true (loop_round b active head).
Proof. intros Hb. unfold loop_round. grow; auto using grow_apply. Qed.

Lemma AGrow_all : (forall e, deep (fun e => AGrow (an_expr e)) e) /\ (forall b, AGrow (an_block b)).
Proof.
  apply expr_block_ind.
  - intros k sp Hk. rewrite analyze_expr_eq. apply AGrow_live.
    destruct k; cbn [expr_kind_step kind_all] in *; repeat match goal with H : _ /\ _ |- _ => destruct H end.
    all: intros active s; unfold analyze_many, analyze_two, analyze_call, analyze_method_call, analyze_binary, analyze_if, let_block, analyze_ret, analyze_try,
      analyze_match, analyze_break, analyze_continue, analyze_yeet, unmodelled, analyze_assignment, analyze_while, analyze_for, analyze_loop; grow.
    all: try (apply Grow_run_loop; intros; auto using Grow_while_round, Grow_for_round, Grow_loop_round, Grow_condition; fail).
    all: first [apply Grow_condition; assumption | apply Grow_weaken, grow_apply; assumption | apply grow_apply; assumption].
  - intros ss H active s. cbn [analyze_block]. apply Grow_with_scope, Grow_stmts, Forall_map. revert H. apply Forall_impl.
    intros st Hs b. by apply Grow_stmt.
Qed.

Lemma AGrow_expr e : AGrow (an_expr e).
Proof. apply grow_here, AGrow_all. Qed.

Lemma AGrow_block b : AGrow (an_block b).
Proof. apply AGrow_all. Qed.
End Tree.
#[export] Hint Resolve Grow_bind_pattern Grow_weaken : depend.

(** ** The fuel only decides whether it returns

    [Ref m m']: when [m] returns, [m'] returns the same.  A run with more fuel refines one with less. *)

Definition Ref {A} (m m' : M A) : Prop := forall a r, m a = Some r -> m' a = Some r.

Lemma Ref_refl {A} (m : M A) : Ref m m.
Proof. by intros a r. Qed.

Lemma Ref_bind {A B} (m m' : M A) (k k' : A -> M B) : Ref m m' -> (forall x, Ref (k x) (k' x)) -> Ref (bind m k) (bind m' k').
Proof.
  intros Hm Hk a [y b] (x & c & E & F)%bind_Some. unfold bind. rewrite (Hm _ _ E). by apply Hk.
Qed.

Lemma Ref_with_scope {A} (m m' : M A) : Ref m m' -> Ref (with_scope m) (with_scope m').
Proof. intros H. unfold with_scope. apply Ref_bind; [apply Ref_refl|]. intros _. apply Ref_bind; [done|]. intros. apply Ref_refl. Qed.

Lemma Ref_in_loop {A} (m m' : M A) : Ref m m' -> Ref (in_loop m) (in_loop m').
Proof. intros H. unfold in_loop. apply Ref_bind; [apply Ref_refl|]. intros _. apply Ref_bind; [done|]. intros. apply Ref_refl. Qed.

(** The analyses of the same part with less and with more fuel. *)
Definition ARef (f g : Analysis) : Prop := forall active s, Ref (f active s) (g active s).

Lemma ref_apply f g active s : ARef f g -> Ref (f active s) (g active s).
Proof. intros H. apply H. Qed.

Ltac ref_step :=
  match goal with
  | |- forall _, _ => intro
  | |- Ref ?m ?m => apply Ref_refl
  | |- Ref (bind _ _) (bind _ _) => apply Ref_bind
  | |- Ref (with_scope _) (with_scope _) => apply Ref_with_scope
  | |- Ref (in_loop _) (in_loop _) => apply Ref_in_loop
  | |- Ref (match ?x with (_, _) => _ end) _ => destruct x
  | |- Ref (if ?b then _ else _) _ => destruct b
  | |- Ref (match ?x with Some _ => _ | None => _ end) _ => destruct x
  | |- _ => solve [auto]
  end.
Ltac refs := repeat ref_step.

Definition opt_ref (o p : option Analysis) : Prop :=
  match o, p with Some f, Some g => ARef f g | None, None => True | _, _ => False end.

Lemma Ref_opt o p active s : opt_ref o p -> Ref (analyze_opt o active s) (analyze_opt p active s).
Proof. destruct o, p; simpl; try done; intros H; first [apply H|apply Ref_refl]. Qed.

Lemma Ref_merge_each fs gs : Forall2 ARef fs gs -> forall v active s, Ref (merge_each fs v active s) (merge_each gs v active s).
Proof. induction 1 as [|f g fs gs Hf _ IH]; intros v active s; simpl; refs; by apply Hf. Qed.

Lemma Ref_args t fs gs : Forall2 ARef fs gs -> forall v ls active s, Ref (analyze_args t fs v ls active s) (analyze_args t gs v ls active s).
Proof. induction 1 as [|f g fs gs Hf _ IH]; intros v ls active s; simpl; refs; by apply Hf. Qed.

Lemma Ref_run_loop n n' r r' entry : n <= n' -> (forall s, Ref (r s) (r' s)) -> forall out head,
  Ref (run_loop n r entry out head) (run_loop n' r' entry out head).
Proof.
  intros Hn Hr. revert n' Hn. induction n as [|n IH]; intros [|n'] Hn out head; try lia; [by intros a x|by intros a x|].
  cbn [run_loop]. apply Ref_bind; [done|]. intros [[t u] f]. destruct (bool_decide _); [apply Ref_refl|apply IH; lia].
Qed.

Definition SRef (f g : bool -> list ControlKey -> State -> M (option Value * State)) : Prop :=
  forall b active s, Ref (f b active s) (g b active s).

Lemma Ref_stmts fs gs : Forall2 SRef fs gs -> forall v active s, Ref (analyze_stmts fs v active s) (analyze_stmts gs v active s).
Proof.
  induction 1 as [|f g fs gs Hf Hfs IH]; intros v active s; cbn [analyze_stmts]; [apply Ref_refl|].
  destruct (reachable s); [|apply Ref_refl]. replace (match gs with [] => true | _ => false end) with (match fs with [] => true | _ => false end) by (by destruct Hfs).
  apply Ref_bind; [apply Hf|]. intros [x t]. apply IH.
Qed.

Section Fuel.
Context (source : str) (file : SourceFile).
Context (from_token_lit : TokenLit -> option LitKind) (is_uppercase : Z -> bool) (n n' : nat) (Hn : n <= n').

Definition arm_ref (x y : ArmParts) : Prop :=
  arm_range x = arm_range y /\ arm_pat x = arm_pat y /\ opt_ref (arm_body x) (arm_body y) /\
  match arm_guard x, arm_guard y with Some g, Some h => g.1 = h.1 /\ ARef g.2 h.2 | None, None => True | _, _ => False end.

Lemma Ref_arms t v base active xs ys : Forall2 arm_ref xs ys -> forall j r,
  Ref (analyze_arms source file from_token_lit is_uppercase t v base active xs j r) (analyze_arms source file from_token_lit is_uppercase t v base active ys j r).
Proof.
  induction 1 as [|x y xs ys (E1 & E2 & Hb & Hg) _ IH]; intros j r; cbn [analyze_arms]; [apply Ref_refl|].
  apply Ref_bind; [|intros [w u]; apply IH]. unfold analyze_arm. rewrite E1, E2.
  destruct (arm_guard x) as [[gsp g]|], (arm_guard y) as [[hsp h]|]; try done; simpl in Hg.
  - destruct Hg as [<- Hg]. refs; first [by apply Hg|by apply Ref_opt].
  - refs. by apply Ref_opt.
Qed.

Abbreviation lo_expr := (analyze_expr source file from_token_lit is_uppercase n).
Abbreviation hi_expr := (analyze_expr source file from_token_lit is_uppercase n').
Abbreviation lo_block := (analyze_block source file from_token_lit is_uppercase n).
Abbreviation hi_block := (analyze_block source file from_token_lit is_uppercase n').
Abbreviation lo_target := (assignment_target source file from_token_lit is_uppercase n).
Abbreviation hi_target := (assignment_target source file from_token_lit is_uppercase n').

Definition RE (e : Expr) : Prop := ARef (lo_expr e) (hi_expr e).
Definition RB (b : Block) : Prop := ARef (lo_block b) (hi_block b).

Lemma ref_here e : deep RE e -> ARef (lo_expr e) (hi_expr e).
Proof. apply (deep_here RE). Qed.

Lemma ref_at e active s : deep RE e -> Ref (lo_expr e active s) (hi_expr e active s).
Proof. intros H. by apply ref_here. Qed.

Lemma ref_block b active s : RB b -> Ref (lo_block b active s) (hi_block b active s).
Proof. intros H. apply H. Qed.

Fixpoint Ref_target (e : Expr) : forall self self' active s, ARef self self' -> deep RE e ->
  Ref (lo_target e self active s) (hi_target e self' active s).
Proof.
  destruct e as [k sp]. intros self self' active s Hself [_ He]. cbn [assignment_target].
  destruct (simple_name (MkExpr k sp)); [apply Ref_refl|].
  destruct k; unfold target_unknown; try (refs; by apply Hself).
  - destruct operator; refs; first [by apply Hself|by apply He].
  - unfold target_field. refs. apply Ref_target; [by apply ref_here|done].
  - destruct He. unfold target_index. refs. apply Ref_target; [by apply ref_here|done].
  - apply Ref_target; [by apply ref_here|done].
Qed.

Lemma parts_ref l : Forall (deep RE) l -> Forall2 ARef (map lo_expr l) (map hi_expr l).
Proof. induction 1; simpl; constructor; auto using ref_here. Qed.

Lemma opt_part_ref o : opt_all (deep RE) o -> opt_ref (option_map lo_expr o) (option_map hi_expr o).
Proof. destruct o; simpl; auto using ref_here. Qed.

Lemma opt_list_ref o : opt_all (deep RE) o -> Forall2 ARef (option_list (option_map lo_expr o)) (option_list (option_map hi_expr o)).
Proof. destruct o; simpl; constructor; auto using ref_here. Qed.

Lemma condition_ref c : deep RE c -> ARef (match c with MkExpr (ELet _ value) _ => lo_expr value | _ => lo_expr c end)
  (match c with MkExpr (ELet _ value) _ => hi_expr value | _ => hi_expr c end).
Proof. destruct c as [k sp]. intros [H He]. destruct k; done. Qed.

Lemma arms_ref arms : Forall (arm_all (deep RE)) arms ->
  Forall2 arm_ref
    (map (fun arm => match arm with MkArm pat guard body span =>
      mkArmParts span pat (option_map (fun g => (expr_span g, lo_expr g)) guard) (option_map lo_expr body) end) arms)
    (map (fun arm => match arm with MkArm pat guard body span =>
      mkArmParts span pat (option_map (fun g => (expr_span g, hi_expr g)) guard) (option_map hi_expr body) end) arms).
Proof.
  induction 1 as [|[p g b sp] l [Hg Hb] _ IH]; simpl; constructor; [|done]. split_and!; simpl; [done|done|by apply opt_part_ref|].
  destruct g; simpl in *; auto using ref_here.
Qed.

Lemma SRef_stmt st : stmt_all (deep RE) RB st ->
  SRef (analyze_stmt source file from_token_lit is_uppercase n st) (analyze_stmt source file from_token_lit is_uppercase n' st).
Proof.
  intros Hst b active s. destruct st as [[ [p [|e|e bl] lsp]| |e|e| |] sp]; cbn [analyze_stmt analyze_local stmt_all local_all] in *;
    unfold local_init, local_init_else; refs; try (by apply ref_at); destruct Hst; auto using ref_at, ref_block.
Qed.

Lemma ARef_live f g : ARef f g -> ARef (analyze_live f) (analyze_live g).
Proof. intros H active s. unfold analyze_live. refs. Qed.

Lemma Forall2_app_ref fs gs fs' gs' : Forall2 ARef fs gs -> Forall2 ARef fs' gs' -> Forall2 ARef (fs ++ fs') (gs ++ gs').
Proof. apply Forall2_app. Qed.

Lemma ARef_all : (forall e, deep RE e) /\ (forall b, RB b).
Proof.
  apply expr_block_ind.
  - intros k sp Hk. unfold RE. rewrite !analyze_expr_eq. apply ARef_live.
    destruct k; cbn [expr_kind_step kind_all] in *; repeat match goal with H : _ /\ _ |- _ => destruct H end.
    all: intros active s; unfold analyze_many, analyze_two, analyze_call, analyze_method_call, analyze_binary, analyze_if, let_block, analyze_ret, analyze_try,
      analyze_match, analyze_break, analyze_continue, analyze_yeet, unmodelled, analyze_assignment, analyze_while, analyze_for, analyze_loop; refs.
    all: try (apply Ref_run_loop; [done|]; intros; unfold while_round, for_round, loop_round, let_block; refs).
    all: try first [ by apply ref_at | by apply ref_block | by apply condition_ref | by apply Ref_opt, opt_part_ref | by apply Ref_args, parts_ref
                   | by apply Ref_merge_each, parts_ref | by apply Ref_arms, arms_ref
                   | apply Ref_merge_each, Forall2_app_ref; auto using parts_ref, opt_list_ref
                   | apply Ref_target; auto using ref_here ].
  - intros ss H active s. cbn [analyze_block]. apply Ref_with_scope, Ref_stmts. induction H; simpl; constructor; auto using SRef_stmt.
Qed.

Lemma Ref_function f : Ref (analyze_function source file from_token_lit is_uppercase n f) (analyze_function source file from_token_lit is_uppercase n' f).
Proof. unfold analyze_function. refs. apply ref_block, ARef_all. Qed.
End Fuel.
