(* ===== verification/DependMono.v ===== *)
(** * Dependence analysis: monotonicity

    Two runs of the same method, the second from a larger state with more active controls: the second
    computes a larger value and a larger state.  The runs may differ in what is already recorded, in how many
    bindings have been allocated and in how often they go round a loop, so they are compared below a common
    bound: the bindings and identifiers at the end of both runs, and flows of the enclosing loops that are above
    those of the first run at its start and of the second at its end. *)
From Stdlib Require Import ZArith Lia.
From stdpp Require Import base numbers list gmap option.
From S2P Require Import Prelude RustStr SourceFile DependData DependAst Depend DependOrder DependGrow.
#[local] Open Scope nat_scope.
Open Scope depend_scope.

Record Bound : Type := mkBound { b_bindings : list BindingInfo; b_ids : gmap BindingKey nat; b_loops : list LoopFlow }.

Definition within (B : Bound) (a : Analyzer) : Prop := bindings a `prefix_of` b_bindings B /\ binding_ids a ⊆ b_ids B.
Definition under (B : Bound) (a : Analyzer) : Prop := Forall2 flow_le (loops a) (b_loops B).

Definition Mono {A} (keep : bool) (R : A -> A -> Prop) (m1 m2 : M A) : Prop :=
  forall B a1 a2 x1 x2 a1' a2',
    m1 a1 = Some (x1, a1') -> m2 a2 = Some (x2, a2') -> Valid a1 -> Valid a2 -> scopes a1 = scopes a2 ->
    under B a1 -> under B a2' -> within B a1' -> within B a2' ->
    R x1 x2 /\ under B a1' /\ (if keep then scopes a1' = scopes a2' else True).

Lemma grows_within B a b : grows a b -> within B b -> within B a.
Proof. intros [? ? ?] [? ?]. split; by etrans. Qed.

Lemma grows_under B a b : grows a b -> under B b -> under B a.
Proof. intros [? ? ?] ?. unfold under in *. by etrans. Qed.

(** ** Rules *)

Lemma Mono_weaken {A} (R R' : A -> A -> Prop) keep (m1 m2 : M A) :
  Mono true R m1 m2 -> (forall x y, R x y -> R' x y) -> Mono keep R' m1 m2.
Proof.
  intros H HR B a1 a2 x1 x2 a1' a2' E1 E2 ? ? ? ? ? ? ?.
  destruct (H B a1 a2 x1 x2 a1' a2' E1 E2) as (? & ? & ?); [done..|]. split; [auto|]. split; [done|]. by destruct keep.
Qed.

Lemma Mono_ret {A} keep (R : A -> A -> Prop) x y : R x y -> Mono keep R (ret x) (ret y).
Proof. intros HR B a1 a2 x1 x2 a1' a2' [= -> ->] [= -> ->]. by destruct keep. Qed.

Lemma Mono_bind {A B} keep (RA : A -> A -> Prop) (RB : B -> B -> Prop) (m1 m2 : M A) (k1 k2 : A -> M B) :
  Mono true RA m1 m2 -> Grow false m1 -> Grow false m2 -> (forall x, Grow false (k1 x)) -> (forall x, Grow false (k2 x)) ->
  (forall x y, RA x y -> Mono keep RB (k1 x) (k2 y)) -> Mono keep RB (bind m1 k1) (bind m2 k2).
Proof.
  intros Hm G1 G2 H1 H2 Hk Bd a1 a2 y1 y2 c1 c2 (x1 & b1 & E1 & F1)%bind_Some (x2 & b2 & E2 & F2)%bind_Some V1 V2 Hs U1 U2 W1 W2.
  destruct (G1 _ _ _ E1) as (_ & V1' & _). destruct (G2 _ _ _ E2) as (_ & V2' & _).
  destruct (H1 _ _ _ _ F1) as (g1 & _). destruct (H2 _ _ _ _ F2) as (g2 & _).
  destruct (Hm Bd a1 a2 x1 x2 b1 b2) as (HR & U & Hs'); eauto using grows_within, grows_under.
  eapply Hk; eauto.
Qed.

(** The first computation gives more than the relation. *)
Lemma Mono_and {A} keep (R : A -> A -> Prop) (P : A -> Prop) (m1 m2 : M A) :
  Mono keep R m1 m2 -> (forall a x a', m1 a = Some (x, a') -> P x) -> Mono keep (fun x y => R x y /\ P x) m1 m2.
Proof.
  intros H HP B a1 a2 x1 x2 a1' a2' E1 E2 ? ? ? ? ? ? ?.
  destruct (H B a1 a2 x1 x2 a1' a2' E1 E2) as (? & ? & ?); [done..|]. split_and!; eauto.
Qed.

(** The first run stops where the second goes on. *)
Lemma Mono_stop {A} (keep : bool) (R : A -> A -> Prop) x (m : M A) :
  (if keep then Grow true m else Grow false m) -> (forall y, R x y) -> Mono keep R (ret x) m.
Proof.
  intros Hm HR B a1 a2 x1 x2 a1' a2' [= -> ->] E2 ? ? Hs ? ? ? ?. split; [done|]. split; [done|].
  destruct keep; [|done]. destruct (Hm _ _ _ E2) as (_ & _ & ->). done.
Qed.

Lemma Mono_records keep f g : records f -> records g -> Mono keep eq (modify f) (modify g).
Proof.
  intros Hf Hg B a1 a2 [] [] a1' a2' [= <-] [= <-] ? ? Hs U ? ? ?.
  destruct (Hf a1) as (_ & _ & S1 & L1). destruct (Hg a2) as (_ & _ & S2 & _).
  unfold under. rewrite S1, S2, L1. by destruct keep.
Qed.

Lemma Mono_get {A} keep (f : Analyzer -> A) : (forall a b, scopes a = scopes b -> f a = f b) -> Mono keep eq (get f) (get f).
Proof. intros Hf B a1 a2 x1 x2 a1' a2' [= <- <-] [= <- <-] ? ? Hs ? ? ? ?. split; [auto|]. by destruct keep. Qed.

Lemma Mono_with_scope {A} keep (R : A -> A -> Prop) (m1 m2 : M A) :
  Mono false R m1 m2 -> Grow false m1 -> Grow false m2 -> Mono keep R (with_scope m1) (with_scope m2).
Proof.
  intros H G1 G2. apply Mono_weaken with R; [|done]. intros B a1 a2 x1 x2 a1' a2' E1 E2 V1 V2 Hs U1 U2 W1 W2.
  apply bind_Some in E1 as (? & b1 & [= _ <-] & E1). apply bind_Some in E1 as (y1 & c1 & E1 & F1).
  apply bind_Some in F1 as (? & d1 & [= _ <-] & [= <- <-]).
  apply bind_Some in E2 as (? & b2 & [= _ <-] & E2). apply bind_Some in E2 as (y2 & c2 & E2 & F2).
  apply bind_Some in F2 as (? & d2 & [= _ <-] & [= <- <-]).
  destruct (G1 _ _ _ E1) as (_ & _ & S1). destruct (G2 _ _ _ E2) as (_ & _ & S2). simpl in S1, S2.
  destruct (H B _ _ _ _ _ _ E1 E2) as (HR & U & _); try done.
  - destruct V1. split; simpl; [constructor; [apply map_Forall_empty|done]|done].
  - destruct V2. split; simpl; [constructor; [apply map_Forall_empty|done]|done].
  - simpl. by rewrite Hs.
  - split; [done|]. split; [done|]. simpl. congruence.
Qed.

Lemma Mono_in_loop {A} keep (R : A -> A -> Prop) (m1 m2 : M A) :
  Mono keep R m1 m2 -> Grow false m1 -> Grow false m2 ->
  Mono keep (fun p q => R p.1 q.1 /\ flow_le p.2 q.2) (in_loop m1) (in_loop m2).
Proof.
  intros H G1 G2 B a1 a2 x1 x2 a1' a2' E1 E2 V1 V2 Hs U1 U2 W1 W2. unfold in_loop in *.
  apply bind_Some in E1 as (? & b1 & [= _ <-] & E1). apply bind_Some in E1 as (y1 & c1 & E1 & F1).
  apply bind_Some in F1 as (f1 & d1 & [= <- <-] & F1). apply bind_Some in F1 as (? & d1 & [= _ <-] & [= <- <-]).
  apply bind_Some in E2 as (? & b2 & [= _ <-] & E2). apply bind_Some in E2 as (y2 & c2 & E2 & F2).
  apply bind_Some in F2 as (f2 & d2 & [= <- <-] & F2). apply bind_Some in F2 as (? & d2 & [= _ <-] & [= <- <-]).
  destruct (G1 _ _ _ E1) as ([_ _ L1] & _ & _). destruct (G2 _ _ _ E2) as ([_ _ L2] & _ & _). simpl in L1, L2.
  apply Forall2_cons_inv_l in L1 as (f1 & l1 & _ & _ & L1). apply Forall2_cons_inv_l in L2 as (f2 & l2 & _ & _ & L2).
  unfold under in *. simpl in *. rewrite L1, L2 in *. simpl in *.
  destruct (H (mkBound (b_bindings B) (b_ids B) (f2 :: b_loops B)) _ _ _ _ _ _ E1 E2) as (HR & U & HS); try done.
  - by destruct V1.
  - by destruct V2.
  - unfold under. simpl. constructor; [apply empty_flow_le|done].
  - unfold under. simpl. rewrite L2. by constructor.
  - unfold under in U. simpl in U. rewrite L1 in U. apply Forall2_cons_iff in U as [Hf U]. split_and!; done.
Qed.

(** ** Bindings and flows *)

Lemma Mono_bind_name n r kind mode : Mono true eq (bind_name n r kind mode) (bind_name n r kind mode).
Proof.
  assert (Hi : forall B a id a', intern_binding n r kind mode a = Some (id, a') -> within B a' -> b_ids B !! mkBindingKey r n = Some id /\ loops a' = loops a /\ scopes a' = scopes a).
  { intros B a id a' E [_ W]. unfold intern_binding in E. destruct (binding_ids a !! _) as [i|] eqn:Ei; injection E as <- <-.
    - split; [by eapply lookup_weaken|done].
    - split; [|done]. eapply lookup_weaken; [|exact W]. simpl. apply lookup_insert_eq. }
  intros B a1 a2 x1 x2 a1' a2' E1 E2 V1 V2 Hs U1 U2 W1 W2. unfold bind_name in *.
  apply bind_Some in E1 as (i1 & b1 & E1 & F1). apply bind_Some in F1 as (? & d1 & [= _ <-] & [= <- <-]).
  apply bind_Some in E2 as (i2 & b2 & E2 & F2). apply bind_Some in F2 as (? & d2 & [= _ <-] & [= <- <-]).
  destruct (Hi B _ _ _ E1 W1) as (I1 & L1 & S1). destruct (Hi B _ _ _ E2 W2) as (I2 & L2 & S2).
  rewrite I1 in I2. injection I2 as ->. unfold under in *. simpl in *. rewrite L1, S1, S2, Hs. done.
Qed.

Lemma is_mutable_bound B a id : within B a -> id < length (bindings a) ->
  is_mutable id a = match b_bindings B !! id with Some binding => mutable binding | None => false end.
Proof.
  intros [Hp _] Hl. unfold is_mutable. destruct (lookup_lt_is_Some_2 _ _ Hl) as [x Hx]. rewrite Hx.
  by rewrite (prefix_lookup_Some _ _ _ _ Hx Hp).
Qed.

Lemma visible_valid a id : Valid a -> id ∈ visible a -> id < length (bindings a).
Proof.
  intros [Hv _]. unfold visible. induction Hv as [|sc l Hsc _ IH]; simpl; [set_solver|].
  rewrite elem_of_union, elem_of_list_to_set, list_elem_of_fmap. intros [([n i] & -> & Hi%elem_of_map_to_list)|Hi]; [|auto].
  by eapply Hsc.
Qed.

Lemma Mono_written keep :
  Mono keep eq (get (fun a => List.filter (fun id => is_mutable id a) (elements (visible a))))
    (get (fun a => List.filter (fun id => is_mutable id a) (elements (visible a)))).
Proof.
  intros B a1 a2 x1 x2 a1' a2' [= <- <-] [= <- <-] V1 V2 Hs U1 U2 W1 W2. split; [|by destruct keep].
  assert (Hvis : visible a1 = visible a2) by (unfold visible; by rewrite Hs). rewrite <- Hvis.
  apply List.filter_ext_in. intros id Hid%list_elem_of_In%elem_of_elements.
  rewrite (is_mutable_bound B a1), (is_mutable_bound B a2); auto using visible_valid. rewrite Hvis in Hid. auto using visible_valid.
Qed.

Lemma Mono_depth keep : Mono keep eq (get (fun a => length (loops a))) (get (fun a => length (loops a))).
Proof.
  intros B a1 a2 x1 x2 a1' a2' [= <- <-] [= <- <-] V1 V2 Hs U1 U2 W1 W2. split; [|by destruct keep].
  apply Forall2_length in U1, U2. congruence.
Qed.

(** A contribution of the first run to the innermost flow is below the flow at the end of the second. *)
Lemma Mono_flow keep (f g : LoopFlow -> LoopFlow) :
  (forall x y h, flow_le x h -> flow_le (g y) h -> flow_le (f x) h) ->
  Mono keep eq (modify (set_loops (fun l => match l with flow :: outer => f flow :: outer | [] => [] end)))
    (modify (set_loops (fun l => match l with flow :: outer => g flow :: outer | [] => [] end))).
Proof.
  intros Hfg B a1 a2 [] [] a1' a2' [= <-] [= <-] V1 V2 Hs U1 U2 W1 W2. split; [done|]. split; [|by destruct keep].
  unfold under in *. simpl in *. destruct (loops a1) as [|x l1]; [done|]. destruct (loops a2) as [|y l2].
  - apply Forall2_length in U1, U2. simpl in *. congruence.
  - destruct (b_loops B) as [|h l]; [by apply Forall2_length in U1|]. apply Forall2_cons_iff in U1 as [H1 ?], U2 as [H2 ?].
    constructor; [by eapply Hfg|done].
Qed.

Lemma Mono_break keep s t v w : state_le s t -> val_le v w ->
  Mono keep eq (modify (set_loops (fun l => match l with flow :: outer => merge_break flow s v :: outer | [] => [] end)))
    (modify (set_loops (fun l => match l with flow :: outer => merge_break flow t w :: outer | [] => [] end))).
Proof.
  intros Hs Hv. apply (Mono_flow keep (fun x => merge_break x s v) (fun x => merge_break x t w)). intros x y h H1 H2.
  apply merge_break_lub with y; [done|]. etrans; [by apply merge_break_mono|done].
Qed.

Lemma Mono_continue keep s t : state_le s t ->
  Mono keep eq (modify (set_loops (fun l => match l with flow :: outer => merge_continue flow s :: outer | [] => [] end)))
    (modify (set_loops (fun l => match l with flow :: outer => merge_continue flow t :: outer | [] => [] end))).
Proof.
  intros Hs. apply (Mono_flow keep (fun x => merge_continue x s) (fun x => merge_continue x t)). intros x y h H1 H2.
  apply merge_continue_lub with y; [done|]. etrans; [by apply merge_continue_mono|done].
Qed.

(** ** Methods *)

Definition vs_le (p q : Value * State) : Prop := val_le p.1 q.1 /\ state_le p.2 q.2.

(** An analysis grows the analyzer, does nothing in a state that is not reachable, and is monotone. *)
Record AMono (f : Analysis) : Prop := {
  am_grow : AGrow f;
  am_inert : forall active s a, reachable s = false -> f active s a = Some ((empty_value, s), a);
  am_mono : forall active active' s s', active ⊆ active' -> state_le s s' -> Mono true vs_le (f active s) (f active' s') }.

(** A node is analyzed in a reachable state only. *)
Record KMono (f : Analysis) : Prop := {
  km_grow : AGrow f;
  km_mono : forall active active' s s', active ⊆ active' -> state_le s s' -> reachable s = true -> reachable s' = true ->
    Mono true vs_le (f active s) (f active' s') }.

#[export] Hint Resolve am_grow km_grow : depend.

(** Discharge what a bind asks of growth. *)
Ltac growing :=
  repeat first [grow_step | apply Grow_keep, grow_apply; solve [eauto with depend] | solve [eauto with depend]].
Ltac mono_bind R := eapply (Mono_bind _ R); [|growing..|].

Section Methods.
Context (source : str) (file : SourceFile).
Context (from_token_lit : TokenLit -> option LitKind) (is_uppercase : Z -> bool) (fuel : nat).

Lemma Mono_record_unknown keep sp why : Mono keep eq (record_unknown file sp why) (record_unknown file sp why).
Proof. by apply Mono_records. Qed.
Lemma Mono_record_control keep k c v w : Mono keep eq (record_control k c v) (record_control k c w).
Proof. by apply Mono_records. Qed.
Lemma Mono_record_exit keep k sp t v w ks ls : Mono keep eq (record_exit file k sp t v ks) (record_exit file k sp t w ls).
Proof. by apply Mono_records. Qed.

Lemma Mono_lookup keep n : Mono keep eq (get (lookup n)) (get (lookup n)).
Proof. apply Mono_get. unfold lookup. by intros a b ->. Qed.

Lemma Mono_store_binding keep id v w s t r :
  state_le s t -> (reachable s = true -> val_le v w) ->
  Mono keep state_le (store_binding id v s r) (store_binding id w t r).
Proof.
  intros Hs Hv. unfold store_binding. mono_bind (@eq unit).
  - by apply Mono_records.
  - intros ? ? _. apply Mono_ret. destruct (reachable s) eqn:E; [|by apply dead_le]. apply update_value_mono; auto.
Qed.

Lemma Mono_opaque_macro keep sp s t : state_le s t -> Mono keep state_le (opaque_macro file sp s) (opaque_macro file sp t).
Proof.
  intros Hs. unfold opaque_macro. mono_bind (@eq unit); [by apply Mono_records|]. intros _ _ _.
  mono_bind (@eq (list nat)); [apply Mono_written|]. intros l ? <-. mono_bind (@eq unit); [by apply Mono_records|]. intros _ _ _.
  apply Mono_ret. induction l as [|i l IH]; simpl; [done|]. apply update_value_mono; [done|]. intros. by apply add_unknown_mono.
Qed.

Lemma state_le_vals s t : state_le s t -> reachable s = true -> vals_le (values s) (values t).
Proof. intros H Hs. by destruct (H Hs). Qed.

Lemma Mono_read_path keep b p s t : vals_le (values s) (values t) -> Mono keep val_le (read_path source file b p s) (read_path source file b p t).
Proof.
  intros Hs. unfold read_path. mono_bind (@eq (option nat)).
  - apply Mono_get. intros a1 a2 E. unfold lookup. destruct b; [|done]. by rewrite E.
  - intros [id|] ? <-; apply Mono_ret; [by apply read_binding_mono|done].
Qed.

(** *** Patterns *)

Definition BMono (f g : State -> M State) : Prop :=
  (forall s, Grow false (f s)) /\ (forall s, Grow false (g s)) /\ forall s t, state_le s t -> Mono true state_le (f s) (g t).

Lemma Mono_bind_each fs gs : Forall2 BMono fs gs -> forall s t, state_le s t -> Mono true state_le (bind_each fs s) (bind_each gs t).
Proof.
  induction 1 as [|f g fs gs (Gf & Gg & Hf) Hfs IH]; intros s t Hs; simpl; [by apply Mono_ret|].
  assert (Ff : Forall (fun f => forall s, Grow false (f s)) fs) by (clear -Hfs; induction Hfs as [|? ? ? ? (? & ? & ?)]; auto).
  assert (Fg : Forall (fun f => forall s, Grow false (f s)) gs) by (clear -Hfs; induction Hfs as [|? ? ? ? (? & ? & ?)]; auto).
  eapply (Mono_bind _ state_le); auto using Grow_bind_each.
Qed.

Abbreviation bind_pat := (bind_pattern source file from_token_lit is_uppercase).

Lemma Mono_bind_pattern p : forall kind v w s t, val_le v w -> state_le s t -> Mono true state_le (bind_pat p kind v s) (bind_pat p kind w t).
Proof.
  apply (pat_all (fun p => forall kind v w s t, val_le v w -> state_le s t -> Mono true state_le (bind_pat p kind v s) (bind_pat p kind w t))).
  clear p. intros k sp H kind v w s t Hv Hs.
  destruct k; cbn [bind_pattern pat_kind_all] in *; auto using Mono_ret;
    try (apply Mono_bind_each; [|done]; clear -H Hv; induction H as [|p l Hp _ IH]; simpl; constructor; [|exact IH];
         split_and!; auto using Grow_bind_pattern; fail).
  - mono_bind (@eq nat); [apply Mono_bind_name|]. intros id ? <-.
    mono_bind (@eq unit); [case_ifs; [apply Mono_record_unknown|by apply Mono_ret]|]. intros _ _ _.
    assert (Hb : forall b : bool, val_le (if b then add_unknown v BARE_IDENT else v) (if b then add_unknown w BARE_IDENT else w))
      by (intros []; [by apply add_unknown_mono|done]).
    destruct subpattern; [apply H; [apply Hb|]|apply Mono_ret]; (apply update_value_mono; [done|]; intros; apply Hb).
  - mono_bind (@eq unit); [apply Mono_record_unknown|]. auto using Mono_ret.
  - mono_bind (@eq unit); [case_ifs; [apply Mono_record_unknown|by apply Mono_ret]|]. auto using Mono_ret.
  - mono_bind (@eq unit); [apply Mono_record_unknown|]. intros _ _ _.
    mono_bind (@eq unit); [|auto using Mono_ret]. unfold mark_macro_assignments.
    mono_bind (@eq unit); [apply Mono_record_unknown|]. intros. by apply Mono_records.
Qed.

(** *** Expressions *)

Lemma extend_active_mono active active' v w key : active ⊆ active' -> val_le v w -> extend_active active v key ⊆ extend_active active' w key.
Proof. intros H [_ Hc _ _] k. unfold extend_active. rewrite !elem_of_app, !elem_of_elements. set_solver. Qed.

Lemma active_set_mono (active active' : list ControlKey) :
  active ⊆ active' -> (list_to_set active : gset ControlKey) ⊆ list_to_set active'.
Proof. intros H k. rewrite !elem_of_list_to_set. apply H. Qed.

Lemma AMono_live f : KMono f -> AMono (analyze_live f).
Proof.
  intros [Hg Hm]. split.
  - by apply AGrow_live.
  - intros active s a Hs. unfold analyze_live. by rewrite Hs.
  - intros active active' s s' Ha Hs. unfold analyze_live at 1. destruct (reachable s) eqn:Es.
    + pose proof (state_le_live _ _ Hs Es) as Es'. unfold analyze_live. rewrite Es'.
      mono_bind vs_le; [by apply Hm|]. intros [v t] [v' t'] [? ?]. apply Mono_ret. split; [|done].
      apply add_controls_mono; [done|by apply active_set_mono].
    + apply Mono_stop; [by apply AGrow_live|]. intros [v t]. split; [apply empty_value_le|by apply dead_le].
Qed.

Lemma KMono_of f : AMono f -> KMono f.
Proof. intros [? ? H]. split; auto. Qed.

Lemma Mono_opt o active active' s s' : opt_all AMono o -> active ⊆ active' -> state_le s s' ->
  Mono true vs_le (analyze_opt o active s) (analyze_opt o active' s').
Proof. intros Ho Ha Hs. unfold analyze_opt. destruct o; [by apply am_mono|by apply Mono_ret]. Qed.

Lemma Grow_opt_mono keep o active s : opt_all AMono o -> Grow keep (analyze_opt o active s).
Proof. intros H. apply Grow_keep, Grow_opt. destruct o; simpl in *; auto with depend. Qed.

Lemma parts_grow fs : Forall AMono fs -> Forall AGrow fs.
Proof. apply Forall_impl. auto with depend. Qed.

Lemma Grow_merge_mono keep fs v active s : Forall AMono fs -> Grow keep (merge_each fs v active s).
Proof. intros H. by apply Grow_keep, Grow_merge_each, parts_grow. Qed.

Lemma Grow_args_mono keep t fs v ls active s : Forall AMono fs -> Grow keep (analyze_args t fs v ls active s).
Proof. intros H. by apply Grow_keep, Grow_args, parts_grow. Qed.

#[local] Hint Resolve Grow_opt_mono Grow_merge_mono Grow_args_mono Grow_bind_pattern : depend.

Lemma Mono_merge_each fs : Forall AMono fs -> forall v w active active' s s', val_le v w -> active ⊆ active' -> state_le s s' ->
  Mono true vs_le (merge_each fs v active s) (merge_each fs w active' s').
Proof.
  induction 1 as [|f fs Hf Hfs IH]; intros v w active active' s s' Hv Ha Hs; simpl; [by apply Mono_ret|].
  mono_bind vs_le; [by apply am_mono|]. intros [x t] [x' t'] [Hx Ht]. apply IH; [by apply value_merge_mono|done|done].
Qed.

Definition vls_le (p q : Value * gset LiteralFact * State) : Prop := val_le p.1.1 q.1.1 /\ p.1.2 ⊆ q.1.2 /\ state_le p.2 q.2.

Lemma Mono_args text fs : Forall AMono fs -> forall v w ls ls' active active' s s',
  val_le v w -> ls ⊆ ls' -> active ⊆ active' -> state_le s s' ->
  Mono true vls_le (analyze_args text fs v ls active s) (analyze_args text fs w ls' active' s').
Proof.
  induction 1 as [|f fs Hf Hfs IH]; intros v w ls ls' active active' s s' Hv Hl Ha Hs; simpl; [by apply Mono_ret|].
  mono_bind vs_le; [by apply am_mono|]. intros [x t] [x' t'] [Hx Ht]. simpl in *.
  pose proof (map_literals_mono (relate_call text) _ _ (vl_literals _ _ Hx)).
  apply IH; [|set_solver|done|done]. apply add_literals_mono; [|done]. apply value_merge_mono; [done|by apply clear_literals_mono].
Qed.

Lemma KMono_call sp f fs : AMono f -> Forall AMono fs -> KMono (analyze_call source file sp f fs).
Proof.
  intros Hf Hfs. split; [intros active s; unfold analyze_call; growing|]. intros active active' s s' Ha Hs _ _. unfold analyze_call.
  mono_bind vs_le; [by apply am_mono|]. intros [v t] [v' t'] [Hv Ht]. simpl in *.
  mono_bind vls_le; [by apply Mono_args|]. intros [[w l] u] [[w' l'] u'] (Hw & _ & Hu). by apply Mono_ret.
Qed.

Lemma KMono_method_call seg e f fs : AMono f -> Forall AMono fs -> KMono (analyze_method_call source file seg e f fs).
Proof.
  intros Hf Hfs. split; [intros active s; unfold analyze_method_call; growing|]. intros active active' s s' Ha Hs _ _. unfold analyze_method_call.
  mono_bind vs_le; [by apply am_mono|]. intros [v t] [v' t'] [Hv Ht]. simpl in *.
  mono_bind vls_le; [by apply Mono_args|]. intros [[w l] u] [[w' l'] u'] (Hw & Hl & Hu). simpl in *.
  mono_bind (@eq (option nat)); [apply Mono_get; intros a b E; unfold lookup; by rewrite E|]. intros id ? <-.
  apply Mono_ret. split; simpl; [by apply add_unknown_mono|]. destruct id; [|done].
  apply update_value_mono; [done|]. intros. by apply add_literals_mono.
Qed.

Lemma KMono_two f g : AMono f -> AMono g -> KMono (analyze_two f g).
Proof.
  intros Hf Hg. split; [intros active s; unfold analyze_two; growing|]. intros active active' s s' Ha Hs _ _. unfold analyze_two.
  mono_bind vs_le; [by apply am_mono|]. intros [v t] [v' t'] [Hv Ht]. simpl in *.
  mono_bind vs_le; [by apply am_mono|]. intros [w u] [w' u'] [Hw Hu]. apply Mono_ret. split; [by apply value_merge_mono|done].
Qed.

Lemma KMono_many fs v : Forall AMono fs -> KMono (merge_each fs v).
Proof. intros H. split; [intros active s; growing|]. intros. by apply Mono_merge_each. Qed.

Lemma KMono_binary op sp lsp rsp f g : AMono f -> AMono g -> KMono (analyze_binary source file op sp lsp rsp f g).
Proof.
  intros Hf Hg. split; [intros active s; unfold analyze_binary; growing|]. intros active active' s s' Ha Hs _ _. unfold analyze_binary.
  mono_bind vs_le; [by apply am_mono|]. intros [v t] [v' t'] [Hv Ht]. simpl in *. destruct (is_short_circuit op).
  - mono_bind (@eq unit); [apply Mono_record_control|]. intros _ _ _.
    mono_bind vs_le; [apply am_mono; [done|by apply extend_active_mono|done]|]. intros [w u] [w' u'] [Hw Hu].
    apply Mono_ret. split; [by apply value_merge_mono|by apply state_merge_mono].
  - mono_bind vs_le; [by apply am_mono|]. intros [w u] [w' u'] [Hw Hu]. simpl in *. apply Mono_ret. split; [|done]. simpl.
    pose proof (value_merge_mono _ _ _ _ Hv Hw). destruct (is_comparison op); [|done].
    repeat apply add_literals_mono; [done|..]; apply map_literals_mono; by apply vl_literals.
Qed.

Lemma KMono_ret sp rsp o : opt_all AMono o -> KMono (analyze_ret source file sp rsp o).
Proof.
  intros Ho. split; [intros active s; unfold analyze_ret; growing|]. intros active active' s s' Ha Hs _ _. unfold analyze_ret.
  mono_bind vs_le; [by apply Mono_opt|]. intros [v t] [v' t'] [Hv Ht].
  mono_bind (@eq unit); [apply Mono_record_exit|]. intros _ _ _. apply Mono_ret. split; [done|apply dead_like_le].
Qed.

Lemma KMono_try sp isp f : AMono f -> KMono (analyze_try source file sp isp f).
Proof.
  intros Hf. split; [intros active s; unfold analyze_try; growing|]. intros active active' s s' Ha Hs _ _. unfold analyze_try.
  mono_bind vs_le; [by apply am_mono|]. intros [v t] [v' t'] [Hv Ht].
  mono_bind (@eq unit); [apply Mono_record_control|]. intros _ _ _. mono_bind (@eq unit); [apply Mono_record_exit|]. intros _ _ _.
  apply Mono_ret. split; [by apply add_controls_mono|done].
Qed.

Lemma KMono_break sp label o : opt_all AMono o -> KMono (analyze_break file sp label o).
Proof.
  assert (Hg : forall keep s v, Grow keep (modify (set_loops (fun l => match l with flow :: outer => merge_break flow s v :: outer | [] => [] end)))) by (intros; apply Grow_break).
  intros Ho. split; [intros active s; unfold analyze_break; growing|]. intros active active' s s' Ha Hs _ _. unfold analyze_break.
  mono_bind vs_le; [by apply Mono_opt|]. intros [v t] [v' t'] [Hv Ht]. mono_bind (@eq nat); [apply Mono_depth|]. intros n ? <-.
  mono_bind (@eq unit); [destruct label; [apply Mono_record_unknown|destruct n; [apply Mono_record_unknown|by apply Mono_break]]|].
  intros _ _ _. apply Mono_ret. split; [done|apply dead_like_le].
Qed.

Lemma KMono_continue sp label : KMono (analyze_continue file sp label).
Proof.
  assert (Hg : forall keep s, Grow keep (modify (set_loops (fun l => match l with flow :: outer => merge_continue flow s :: outer | [] => [] end)))) by (intros; apply Grow_continue).
  split; [intros active s; unfold analyze_continue; growing|]. intros active active' s s' Ha Hs _ _. unfold analyze_continue.
  mono_bind (@eq nat); [apply Mono_depth|]. intros n ? <-.
  mono_bind (@eq unit); [destruct label; [apply Mono_record_unknown|destruct n; [apply Mono_record_unknown|by apply Mono_continue]]|].
  intros _ _ _. apply Mono_ret. split; [done|apply dead_like_le].
Qed.

Lemma KMono_unmodelled sp why : KMono (unmodelled file sp why).
Proof.
  split; [intros active s; unfold unmodelled; growing|]. intros active active' s s' Ha Hs _ _. unfold unmodelled.
  mono_bind (@eq unit); [apply Mono_record_unknown|]. intros _ _ _. by apply Mono_ret.
Qed.

Lemma KMono_yeet sp o : opt_all AMono o -> KMono (analyze_yeet file sp o).
Proof.
  intros Ho. split; [intros active s; unfold analyze_yeet; growing|]. intros active active' s s' Ha Hs _ _. unfold analyze_yeet.
  mono_bind vs_le; [by apply Mono_opt|]. intros [v t] [v' t'] [Hv Ht]. mono_bind (@eq unit); [apply Mono_record_unknown|]. intros _ _ _.
  apply Mono_ret. split; [by apply add_unknown_mono|done].
Qed.

Lemma KMono_pure v : KMono (fun _ s => ret (v, s)).
Proof. split; [intros active s; growing|]. intros. by apply Mono_ret. Qed.

Lemma KMono_path b p : KMono (fun _ s => let! value := read_path source file b p s in ret (value, s)).
Proof.
  split; [intros active s; growing|]. intros active active' s s' Ha Hs Hr _. mono_bind val_le.
  - apply Mono_read_path. by apply state_le_vals.
  - intros v w Hv. by apply Mono_ret.
Qed.

Lemma KMono_macro sp v : KMono (fun _ s => let! s := opaque_macro file sp s in ret (v, s)).
Proof.
  split; [intros active s; growing|]. intros active active' s s' Ha Hs _ _. mono_bind state_le; [by apply Mono_opaque_macro|].
  intros t t' Ht. by apply Mono_ret.
Qed.

(** *** Branches *)

Abbreviation let_bl := (let_block source file from_token_lit is_uppercase).

Lemma Grow_let_block keep p v f active s : AMono f -> Grow keep (let_bl p v f active s).
Proof. intros Hf. unfold let_block. destruct p; growing. Qed.

#[local] Hint Resolve Grow_let_block : depend.

Lemma Mono_let_block p v w f active active' s s' : AMono f -> val_le v w -> active ⊆ active' -> state_le s s' ->
  Mono true vs_le (let_bl p v f active s) (let_bl p w f active' s').
Proof.
  intros Hf Hv Ha Hs. unfold let_block. destruct p as [p|]; [|by apply am_mono]. apply Mono_with_scope; [|growing..].
  mono_bind state_le; [by apply Mono_bind_pattern|]. intros t t' Ht. apply Mono_weaken with vs_le; [|done]. by apply am_mono.
Qed.

Lemma KMono_if csp p c t o : AMono c -> AMono t -> opt_all AMono o ->
  KMono (analyze_if source file from_token_lit is_uppercase csp p c t o).
Proof.
  intros Hc Ht Ho.
  split; [intros active s; unfold analyze_if; growing|].
  intros active active' s s' Ha Hs _ _. unfold analyze_if. mono_bind vs_le; [by apply am_mono|].
  intros [v u] [v' u'] [Hv Hu]. simpl in *.
  mono_bind (@eq unit); [apply Mono_record_control|]. intros _ _ _.
  mono_bind vs_le; [apply Mono_let_block; auto using extend_active_mono|].
  intros [v1 u1] [v1' u1'] [Hv1 Hu1].
  mono_bind vs_le; [apply Mono_opt; auto using extend_active_mono|]. intros [v2 u2] [v2' u2'] [Hv2 Hu2].
  apply Mono_ret. split; [by apply value_merge_mono|by apply state_merge_mono].
Qed.

Definition arm_mono (arm : ArmParts) : Prop := opt_all (fun g => AMono (snd g)) (arm_guard arm) /\ opt_all AMono (arm_body arm).

Abbreviation an_arm := (analyze_arm source file from_token_lit is_uppercase).
Abbreviation an_arms := (analyze_arms source file from_token_lit is_uppercase).

Lemma Grow_arm_mono keep t v base active arm : arm_mono arm -> Grow keep (an_arm t v base active arm).
Proof. intros [Hg Hb]. unfold analyze_arm. destruct (arm_guard arm) as [[gsp g]|]; simpl in Hg; growing. Qed.
#[local] Hint Resolve Grow_arm_mono : depend.

Lemma Mono_arm t v w base base' active active' arm : arm_mono arm -> val_le v w -> active ⊆ active' -> state_le base base' ->
  Mono true vs_le (an_arm t v base active arm) (an_arm t w base' active' arm).
Proof.
  intros [Hg Hb] Hv Ha Hs. unfold analyze_arm. mono_bind (@eq unit); [apply Mono_record_control|].
  intros _ _ _. apply Mono_with_scope; [|growing..]. mono_bind state_le; [by apply Mono_bind_pattern|].
  intros s s' Hss. pose proof (extend_active_mono _ _ _ _ (control_key file (arm_range arm) CkMatch) Ha Hv) as Ha'.
  mono_bind (fun p q : list ControlKey * State => p.1 ⊆ q.1 /\ state_le p.2 q.2).
  - destruct (arm_guard arm) as [[gsp g]|]; simpl in Hg; [|by apply Mono_ret].
    mono_bind vs_le; [by apply am_mono|]. intros [x u] [x' u'] [Hx Hu]. mono_bind (@eq unit); [apply Mono_record_control|]. intros _ _ _.
    apply Mono_ret. split; [by apply extend_active_mono|done].
  - intros [l u] [l' u'] [Hl Hu]. apply Mono_weaken with vs_le; [|done]. by apply Mono_opt.
Qed.

Lemma Mono_arms t v w base base' active active' arms : Forall arm_mono arms -> val_le v w -> active ⊆ active' -> state_le base base' ->
  forall j j' r r', option_Forall2 state_le j j' -> val_le r r' ->
  Mono true (fun p q => val_le p.1 q.1 /\ option_Forall2 state_le p.2 q.2)
    (an_arms t v base active arms j r) (an_arms t w base' active' arms j' r').
Proof.
  intros Harms Hv Ha Hs. induction Harms as [|arm arms Harm Harms IH]; intros j j' r r' Hj Hr; cbn [analyze_arms]; [by apply Mono_ret|].
  assert (HG : Forall arm_grow arms).
  { revert Harms. apply Forall_impl. intros x [Hg Hb]. split; [destruct (arm_guard x)|destruct (arm_body x)]; simpl in *; auto with depend. }
  assert (HG' : forall t v base active j r, Grow false (an_arms t v base active arms j r)) by (intros; apply Grow_weaken; by apply Grow_arms).
  mono_bind vs_le; [by apply Mono_arm|]. intros [x u] [x' u'] [Hx Hu]. apply IH; [|by apply value_merge_mono].
  inversion Hj; simpl; constructor; [by apply state_merge_mono|done].
Qed.

Lemma KMono_match ssp f arms : AMono f -> Forall arm_mono arms -> KMono (analyze_match source file from_token_lit is_uppercase ssp f arms).
Proof.
  intros Hf Harms. assert (HG : Forall arm_grow arms).
  { revert Harms. apply Forall_impl. intros x [Hg Hb]. split; [destruct (arm_guard x)|destruct (arm_body x)]; simpl in *; auto with depend. }
  assert (HG' : forall keep t v base active j r, Grow keep (an_arms t v base active arms j r)) by (intros; apply Grow_keep; by apply Grow_arms).
  split; [intros active s; unfold analyze_match; growing|]. intros active active' s s' Ha Hs _ _. unfold analyze_match.
  mono_bind vs_le; [by apply am_mono|]. intros [v u] [v' u'] [Hv Hu]. simpl in *.
  mono_bind (fun p q : Value * option State => val_le p.1 q.1 /\ option_Forall2 state_le p.2 q.2); [by apply Mono_arms; [..|constructor|]|].
  intros [r j] [r' j'] [Hr Hj]. apply Mono_ret. split; [done|]. simpl in *. inversion Hj; done.
Qed.

(** *** Assignments *)

(** Once the state is not reachable, what is read from it does not matter. *)
Definition target_le (p q : Target * State) : Prop :=
  let '(i, v, d, s) := p in let '(j, w, e, t) := q in
  i = j /\ d = e /\ state_le s t /\ (reachable s = true -> val_le v w).

Definition TMono (f : list ControlKey -> State -> M (Target * State)) : Prop :=
  (forall keep active s, Grow keep (f active s)) /\
  forall active active' s s', active ⊆ active' -> state_le s s' -> Mono true target_le (f active s) (f active' s').

(** An expression does not make a state reachable again. *)
Lemma Mono_expr_live f active active' s s' : AMono f -> active ⊆ active' -> state_le s s' ->
  Mono true (fun p q => vs_le p q /\ (reachable p.2 = true -> reachable s = true)) (f active s) (f active' s').
Proof.
  intros Hf Ha Hs. apply (Mono_and true vs_le (fun p : Value * State => reachable p.2 = true -> reachable s = true)); [by apply am_mono|].
  intros a [v t] a' E Ht. destruct (reachable s) eqn:Es; [done|]. rewrite (am_inert f Hf) in E by done. injection E as <- <- <-. simpl in Ht. congruence.
Qed.

Lemma read_target_mono i v w bsp s t : (reachable s = true -> val_le v w) -> state_le s t ->
  reachable s = true -> val_le (read_target file i v bsp s) (read_target file i w bsp t).
Proof.
  intros Hv Hs Hr. unfold read_target. destruct i; [|auto]. apply value_merge_mono; [auto|]. by apply read_binding_mono, state_le_vals.
Qed.

Lemma TMono_path n : TMono (fun _ s => target_path n s).
Proof.
  split; [intros; unfold target_path; growing|]. intros active active' s s' Ha Hs. unfold target_path.
  mono_bind (@eq (option nat)); [apply Mono_lookup|]. intros [id|] ? <-; by apply Mono_ret.
Qed.

Lemma TMono_unknown why sp f : AMono f -> TMono (target_unknown file why sp f).
Proof.
  intros Hf. split; [intros; unfold target_unknown; growing|]. intros active active' s s' Ha Hs. unfold target_unknown.
  mono_bind vs_le; [by apply am_mono|]. intros [v u] [v' u'] [Hv Hu]. mono_bind (@eq unit); [apply Mono_record_unknown|]. intros _ _ _.
  apply Mono_ret. split_and!; [done|done|done|]. intros _. by apply add_unknown_mono.
Qed.

Lemma TMono_field bsp f : TMono f -> TMono (target_field file bsp f).
Proof.
  intros [Hg Hf]. split; [intros; unfold target_field; growing|]. intros active active' s s' Ha Hs. unfold target_field.
  mono_bind target_le; [by apply Hf|]. intros [[[i v] d] u] [[[j w] e] u'] (<- & <- & Hu & Hv).
  apply Mono_ret. split_and!; [done|done|done|]. by apply read_target_mono.
Qed.

Lemma TMono_index bsp f g : TMono f -> AMono g -> TMono (target_index file bsp f g).
Proof.
  intros [Hgr Hf] Hg. split; [intros; unfold target_index; growing|]. intros active active' s s' Ha Hs. unfold target_index.
  mono_bind target_le; [by apply Hf|]. intros [[[i v] d] u] [[[j w] e] u'] (<- & <- & Hu & Hv).
  mono_bind (fun p q : Value * State => vs_le p q /\ (reachable p.2 = true -> reachable u = true)); [by apply Mono_expr_live|].
  intros [x t] [x' t'] [[Hx Ht] Hl]. simpl in *. apply Mono_ret. split_and!; [done|done|done|]. intros Hr.
  apply read_target_mono; [|done|done]. intros _. apply value_merge_mono; auto.
Qed.

Lemma KMono_assignment sp psp compound f g : TMono f -> AMono g -> KMono (analyze_assignment file sp psp compound f g).
Proof.
  intros [Hgr Hf] Hg. split; [intros active s; unfold analyze_assignment; growing|].
  intros active active' s s' Ha Hs _ _. unfold analyze_assignment.
  mono_bind target_le; [by apply Hf|]. intros [[[i v] d] u] [[[j w] e] u'] (<- & <- & Hu & Hv).
  mono_bind (fun p q : Value * State => vs_le p q /\ (reachable p.2 = true -> reachable u = true)); [by apply Mono_expr_live|].
  intros [x t] [x' t'] [[Hx Ht] Hl]. simpl in *. destruct i as [i|].
  - mono_bind state_le; [|intros y y' Hy; by apply Mono_ret]. apply Mono_store_binding; [done|]. intros Hr.
    apply add_controls_mono; [|by apply active_set_mono]. assert (val_le (value_merge x v) (value_merge x' w)) by (apply value_merge_mono; auto).
    case_ifs; [|done]. apply value_merge_mono; [done|]. by apply read_binding_mono, state_le_vals.
  - mono_bind (@eq unit); [apply Mono_record_unknown|]. intros _ _ _. by apply Mono_ret.
Qed.

(** *** Blocks *)

Definition stmt_le (is_tail : bool) (p q : option Value * State) : Prop :=
  option_Forall2 val_le p.1 q.1 /\ state_le p.2 q.2 /\ (is_tail = false -> p.1 = None).

Definition SMono (f : bool -> list ControlKey -> State -> M (option Value * State)) : Prop :=
  (forall b active s, Grow false (f b active s)) /\
  forall b active active' s s', active ⊆ active' -> state_le s s' -> Mono true (stmt_le b) (f b active s) (f b active' s').

Lemma Mono_stmts fs : Forall SMono fs -> forall v w active active' s s',
  (if fs is [] then val_le v w else v = empty_value) -> active ⊆ active' -> state_le s s' ->
  Mono false vs_le (analyze_stmts fs v active s) (analyze_stmts fs w active' s').
Proof.
  induction 1 as [|f fs [Hg Hf] Hfs IH]; intros v w active active' s s' Hv Ha Hs; cbn [analyze_stmts]; [by apply Mono_ret|].
  assert (HG : forall v active s, Grow false (analyze_stmts fs v active s)).
  { apply Grow_stmts. revert Hfs. apply Forall_impl. by intros x [? _]. }
  assert (HG' : forall v active s, Grow false (analyze_stmts (f :: fs) v active s)).
  { apply Grow_stmts. constructor; [done|]. revert Hfs. apply Forall_impl. by intros x [? _]. }
  destruct (reachable s) eqn:Es.
  - rewrite (state_le_live _ _ Hs Es). mono_bind (stmt_le (if fs is [] then true else false)).
    + by apply Hf.
    + intros [x u] [x' u'] (Hx & Hu & Hn). simpl in *. apply IH; [|done|done]. rewrite Hv. destruct fs; [|by rewrite Hn].
      inversion Hx; simpl; [done|apply empty_value_le].
  - apply (Mono_stop false _ _ (analyze_stmts (f :: fs) w active' s')); [apply HG'|]. intros [y t]. rewrite Hv. split; [apply empty_value_le|by apply dead_le].
Qed.

Lemma AMono_stmts fs : Forall SMono fs -> AMono (fun active s => with_scope (analyze_stmts fs empty_value active s)).
Proof.
  intros H. assert (HG : forall v active s, Grow false (analyze_stmts fs v active s)).
  { apply Grow_stmts. revert H. apply Forall_impl. by intros x [? _]. }
  split.
  - intros active s. by apply Grow_with_scope.
  - intros active s a Hs. assert (E : analyze_stmts fs empty_value active s = ret (empty_value, s)) by (destruct fs; simpl; [done|by rewrite Hs]).
    rewrite E. unfold with_scope, bind, modify, ret. by destruct a.
  - intros active active' s s' Ha Hs. apply Mono_with_scope; [|done|done]. apply Mono_stmts; [done|by destruct fs|done|done].
Qed.

(** *** Loops *)

Definition round_le (p q : State * State * LoopFlow) : Prop :=
  state_le p.1.1 q.1.1 /\ state_le p.1.2 q.1.2 /\ flow_le p.2 q.2.

(** The last round of a loop starts from the head the loop returns and leads back to it; the results of the loop
    are what this round leaves. *)
Lemma run_loop_last n round entry : (forall s, Grow true (round s)) -> forall out head a O H a',
  run_loop n round entry out head a = Some ((O, H), a') -> Valid a ->
  exists b t u f p, round H b = Some ((t, u, f), a') /\ H = next_head entry (backedge u f) /\ O = leave p f t /\
    Valid b /\ scopes b = scopes a /\ opt_le (after_loop out) (after_loop O) /\ val_le (out_value out) (out_value O).
Proof.
  intros Hr. induction n as [|n IH]; intros out head a O H a' E V; [done|]. cbn [run_loop] in E.
  apply bind_Some in E as ([[t u] f] & b & E1 & E). destruct (Hr _ _ _ _ E1) as (_ & Vb & Sb).
  destruct (leave_grows out f t) as [La Lv]. destruct (bool_decide _) eqn:Ed.
  - injection E as <- <- <-. apply bool_decide_eq_true in Ed. exists a, t, u, f, out. by rewrite Ed.
  - apply IH in E as (c & t' & u' & f' & p & ? & ? & ? & ? & Sc & ? & ?); [|auto].
    exists c, t', u', f', p. split_and!; [done|done|done|done|congruence|by etrans|by etrans].
Qed.

Lemma Mono_run_loop n1 n2 round1 round2 entry1 entry2 out1 out2 :
  (forall s, Grow true (round1 s)) -> (forall s, Grow true (round2 s)) ->
  (forall s t, state_le s t -> Mono true round_le (round1 s) (round2 t)) ->
  state_le entry1 entry2 -> opt_le (after_loop out1) (after_loop out2) -> val_le (out_value out1) (out_value out2) ->
  Mono true (fun p q => out_le p.1 q.1 /\ state_le p.2 q.2)
    (run_loop n1 round1 entry1 out1 entry1) (run_loop n2 round2 entry2 out2 entry2).
Proof.
  intros G1 G2 HR He Ha Hv B a1 a2 [O1 H1] [O2 H2] a1' a2' E1 E2 V1 V2 Hs U1 U2 W1 W2.
  destruct (run_loop_last _ _ _ G2 _ _ _ _ _ _ E2 V2) as (b & t & u & f & p & Eb & EH & EO & Vb & Sb & La & Lv).
  assert (Hh : state_le entry1 H2) by (rewrite EH; etrans; [exact He|apply next_head_above]).
  assert (HSc : scopes a1' = scopes a2').
  { destruct (Grow_run_loop n1 round1 entry1 G1 _ _ _ _ _ E1) as (_ & _ & ->). destruct (Grow_run_loop n2 round2 entry2 G2 _ _ _ _ _ E2) as (_ & _ & ->). done. }
  assert (Ha1 : opt_le (after_loop out1) (after_loop O2)) by (by etrans). assert (Hv1 : val_le (out_value out1) (out_value O2)) by (by etrans).
  rewrite <- Sb in Hs. clear Ha Hv La Lv Sb V2 E2. generalize dependent entry1. generalize dependent out1. revert a1 V1 Hs U1.
  assert (Hgen : forall entry1 head1 out1 a1, Valid a1 -> scopes a1 = scopes b -> under B a1 -> state_le entry1 entry2 -> state_le head1 H2 ->
    opt_le (after_loop out1) (after_loop O2) -> val_le (out_value out1) (out_value O2) ->
    run_loop n1 round1 entry1 out1 head1 a1 = Some ((O1, H1), a1') -> (out_le O1 O2 /\ state_le H1 H2) /\ under B a1').
  { clear HSc. induction n1 as [|n1 IH]; intros entry1 head1 out1 a1 V1 Hs U1 He Hh Ha Hv E1; [done|]. cbn [run_loop] in E1.
    apply bind_Some in E1 as ([[t1 u1] f1] & c & Ec & E1). destruct (G1 _ _ _ _ Ec) as (_ & Vc & Sc).
    assert (Wc : within B c).
    { destruct (bool_decide _); [by injection E1 as _ _ ->|]. destruct (Grow_run_loop n1 round1 entry1 G1 _ _ _ _ _ E1) as (g & _). by eapply grows_within. }
    destruct (HR _ _ Hh B _ _ _ _ _ _ Ec Eb) as ((Ht & Hu & Hf) & Uc & _); [done..|]. simpl in *.
    assert (Hn : state_le (next_head entry1 (backedge u1 f1)) H2) by (rewrite EH; apply next_head_mono; [done|by apply backedge_mono]).
    assert (Ho : out_le (leave out1 f1 t1) O2) by (rewrite EO in *; by apply leave_lub).
    destruct (bool_decide _) eqn:Ed.
    - injection E1 as <- <- <-. by split.
    - eapply IH; [| | |exact He|exact Hn| | |exact E1]; [auto|congruence|done|apply Ho|apply Ho]. }
  intros a1 V1 Hs U1 out1 Ha Hv entry1 He E1 Hh. destruct (Hgen entry1 entry1 out1 a1) as [? ?]; auto.
Qed.

(** Going round by hand: from the state at the entry, each pass starts in the state at the end of the one before, or in
    one that a [continue] of it left. *)
Inductive passes (pass : State -> M (State * State * LoopFlow)) (entry : State) (a0 : Analyzer) : State -> Analyzer -> Prop :=
| passes_none : passes pass entry a0 entry a0
| passes_end h a t u f a' : passes pass entry a0 h a -> pass h a = Some ((t, u, f), a') -> passes pass entry a0 u a'
| passes_continue h a t u f a' c : passes pass entry a0 h a -> pass h a = Some ((t, u, f), a') -> continues f = Some c -> passes pass entry a0 c a'.

(** However often a loop goes round after its analysis, it stays below the head it was left with, and what a pass leaves
    it by is below its results. *)
Lemma run_loop_covers n round entry out a O H a' : (forall s, Grow true (round s)) -> (forall s t, state_le s t -> Mono true round_le (round s) (round t)) ->
  run_loop n round entry out entry a = Some ((O, H), a') -> Valid a ->
  forall h b, passes round entry a' h b -> state_le h H /\ forall t u f b', round h b = Some ((t, u, f), b') ->
    state_le t (condition_state O) /\ forall s, breaks f = Some s -> opt_le (Some s) (after_loop O) /\ val_le (break_value f) (out_value O).
Proof.
  intros HG HM E V h b HP. destruct (run_loop_last _ _ _ HG _ _ _ _ _ _ E V) as (c & t0 & u0 & f0 & p & Ec & EH & EO & Vc & Sc & _ & _).
  destruct (Grow_run_loop n round entry HG _ _ _ _ _ E) as (_ & V' & S'). specialize (V' V).
  assert (HR : forall h b t u f b', state_le h H -> Valid b -> scopes b = scopes a -> grows a' b -> round h b = Some ((t, u, f), b') -> round_le (t, u, f) (t0, u0, f0)).
  { intros h1 b1 t u f b' Hh Vb Sb Gb Eb. destruct (HG _ _ _ _ Eb) as (G1 & _ & _).
    destruct (HM h1 H Hh (mkBound (bindings b') (binding_ids b') (loops b')) _ _ _ _ _ _ Eb Ec) as (HL & _ & _); [done|done|congruence|exact (g_loops _ _ G1)|exact (transitivity (g_loops _ _ Gb) (g_loops _ _ G1))|by split|split; [exact (transitivity (g_bindings _ _ Gb) (g_bindings _ _ G1))|exact (transitivity (g_ids _ _ Gb) (g_ids _ _ G1))]|exact HL]. }
  assert (HI : state_le h H /\ Valid b /\ scopes b = scopes a /\ grows a' b).
  { induction HP as [|h b t u f b' _ (Hh & Vb & Sb & Gb) Eb|h b t u f b' x _ (Hh & Vb & Sb & Gb) Eb Ex].
    - split_and!; [rewrite EH; apply next_head_above|done|congruence|done].
    - destruct (HG _ _ _ _ Eb) as (G1 & V1 & S1). destruct (HR _ _ _ _ _ _ Hh Vb Sb Gb Eb) as (_ & Hu & Hf). cbn [fst snd] in *. split_and!; [|by apply V1|congruence|by etrans].
      etrans; [|rewrite EH; apply next_head_back]. etrans; [exact Hu|]. unfold backedge. destruct (continues f0); [apply state_merge_l|done].
    - destruct (HG _ _ _ _ Eb) as (G1 & V1 & S1). destruct (HR _ _ _ _ _ _ Hh Vb Sb Gb Eb) as (_ & _ & [_ Hf _]). cbn [fst snd] in *. split_and!; [|by apply V1|congruence|by etrans].
      etrans; [|rewrite EH; apply next_head_back]. rewrite Ex in Hf. unfold backedge. destruct (continues f0); [|done]. cbn in Hf. etrans; [exact Hf|apply state_merge_r]. }
  destruct HI as (Hh & Vb & Sb & Gb). split; [done|]. intros t u f b' Eb. destruct (HR _ _ _ _ _ _ Hh Vb Sb Gb Eb) as (Ht & _ & [Hb _ Hv]). cbn [fst snd] in *. rewrite EO. unfold leave.
  split; [destruct (breaks f0); exact Ht|]. intros s Es. rewrite Es in Hb. destruct (breaks f0) as [found|]; [|done]. cbn [after_loop out_value].
  split; [etrans; [exact Hb|apply merge_into_r]|]. etrans; [exact Hv|apply value_merge_r].
Qed.

Lemma Mono_while_round csp sp lp c b active active' s t : AMono c -> AMono b -> active ⊆ active' -> state_le s t ->
  Mono true round_le (while_round source file from_token_lit is_uppercase csp sp lp c b active s)
    (while_round source file from_token_lit is_uppercase csp sp lp c b active' t).
Proof.
  intros Hc Hb Ha Hs. unfold while_round. mono_bind vs_le; [by apply am_mono|]. intros [v u] [v' u'] [Hv Hu]. simpl in *.
  mono_bind (@eq unit); [apply Mono_record_control|]. intros _ _ _.
  mono_bind (fun p q : Value * State * LoopFlow => vs_le p.1 q.1 /\ flow_le p.2 q.2).
  - apply Mono_in_loop; [|growing..]. apply Mono_let_block; auto using extend_active_mono.
  - intros [[x y] f] [[x' y'] f'] [[_ Hy] Hf]. by apply Mono_ret.
Qed.

Lemma Mono_loop_round b active active' s t : AMono b -> active ⊆ active' -> state_le s t ->
  Mono true round_le (loop_round b active s) (loop_round b active' t).
Proof.
  intros Hb Ha Hs. unfold loop_round. mono_bind (fun p q : Value * State * LoopFlow => vs_le p.1 q.1 /\ flow_le p.2 q.2).
  - apply Mono_in_loop; [|growing..]. by apply am_mono.
  - intros [[x y] f] [[x' y'] f'] [[_ Hy] Hf]. by apply Mono_ret.
Qed.

Lemma Mono_for_round pat key v w b active active' s t : AMono b -> val_le v w -> active ⊆ active' -> state_le s t ->
  Mono true round_le (for_round source file from_token_lit is_uppercase pat key v b active s)
    (for_round source file from_token_lit is_uppercase pat key w b active' t).
Proof.
  intros Hb Hv Ha Hs. unfold for_round. apply Mono_with_scope; [|growing..].
  mono_bind state_le; [by apply Mono_bind_pattern|]. intros u u' Hu.
  mono_bind (fun p q : Value * State * LoopFlow => vs_le p.1 q.1 /\ flow_le p.2 q.2).
  - apply Mono_in_loop; [|growing..]. apply am_mono; auto using extend_active_mono.
  - intros [[x y] f] [[x' y'] f'] [[_ Hy] Hf]. by apply Mono_ret.
Qed.

Lemma Grow_loop_keep keep n round entry out head : (forall s, Grow true (round s)) -> Grow keep (run_loop n round entry out head).
Proof. intros H. by apply Grow_keep, Grow_run_loop. Qed.

Lemma KMono_while csp sp lp c b : AMono c -> AMono b -> KMono (analyze_while source file from_token_lit is_uppercase fuel csp sp lp c b).
Proof.
  intros Hc Hb. assert (HG : forall active s, Grow true (while_round source file from_token_lit is_uppercase csp sp lp c b active s))
    by (intros; apply Grow_while_round; auto with depend).
  assert (HL : forall keep n active e o h, Grow keep (run_loop n (while_round source file from_token_lit is_uppercase csp sp lp c b active) e o h))
    by (intros; by apply Grow_loop_keep).
  split; [intros active s; unfold analyze_while; growing|]. intros active active' s s' Ha Hs _ _. unfold analyze_while.
  mono_bind (fun p q : LoopOut * State => out_le p.1 q.1 /\ state_le p.2 q.2).
  - apply Mono_run_loop; auto using Mono_while_round; done.
  - intros [o h] [o' h'] [[Ho Hv Hc'] Hh]. apply Mono_ret. split; [done|]. simpl in *.
    pose proof (merge_into_mono _ _ _ _ Ho Hc') as Hm. destruct (after_loop o), (after_loop o'); done.
Qed.

Lemma opt_le_default o p s t : opt_le o p -> state_le (default (dead_like s) o) (default (dead_like t) p).
Proof. destruct o, p; simpl; try done; intros _; apply dead_like_le. Qed.

Lemma KMono_loop b : AMono b -> KMono (analyze_loop fuel b).
Proof.
  intros Hb. assert (HG : forall active s, Grow true (loop_round b active s)) by (intros; apply Grow_loop_round; auto with depend).
  assert (HL : forall keep n active e o h, Grow keep (run_loop n (loop_round b active) e o h)) by (intros; by apply Grow_loop_keep).
  split; [intros active s; unfold analyze_loop; growing|]. intros active active' s s' Ha Hs _ _. unfold analyze_loop.
  mono_bind (fun p q : LoopOut * State => out_le p.1 q.1 /\ state_le p.2 q.2).
  - apply Mono_run_loop; auto using Mono_loop_round; done.
  - intros [o h] [o' h'] [[Ho Hv _] Hh]. apply Mono_ret. split; [done|]. by apply opt_le_default.
Qed.

Lemma KMono_for pat isp i b : AMono i -> AMono b -> KMono (analyze_for source file from_token_lit is_uppercase fuel pat isp i b).
Proof.
  intros Hi Hb. assert (HG : forall key v active s, Grow true (for_round source file from_token_lit is_uppercase pat key v b active s))
    by (intros; apply Grow_for_round; auto with depend).
  assert (HL : forall keep n key v active e o h, Grow keep (run_loop n (for_round source file from_token_lit is_uppercase pat key v b active) e o h))
    by (intros; by apply Grow_loop_keep).
  split; [intros active s; unfold analyze_for; growing|]. intros active active' s s' Ha Hs _ _. unfold analyze_for.
  mono_bind vs_le; [by apply am_mono|]. intros [v u] [v' u'] [Hv Hu]. simpl in *.
  mono_bind (@eq unit); [apply Mono_record_control|]. intros _ _ _.
  mono_bind (fun p q : LoopOut * State => out_le p.1 q.1 /\ state_le p.2 q.2).
  - apply Mono_run_loop; auto using Mono_for_round; done.
  - intros [o h] [o' h'] [[Ho Hov _] Hh]. apply Mono_ret. split; [done|]. simpl in *. apply opt_le_default.
    destruct (after_loop o), (after_loop o'); simpl in *; try done. by apply state_merge_mono.
Qed.

(** *** The tree *)

Abbreviation mono_expr := (analyze_expr source file from_token_lit is_uppercase fuel).
Abbreviation mono_block := (analyze_block source file from_token_lit is_uppercase fuel).
Abbreviation mono_target := (assignment_target source file from_token_lit is_uppercase fuel).

Lemma mono_here e : deep (fun e => AMono (mono_expr e)) e -> AMono (mono_expr e).
Proof. apply (deep_here (fun e => AMono (mono_expr e))). Qed.

Lemma TMono_ext f g : (forall active s, f active s = g active s) -> TMono f -> TMono g.
Proof. intros H [Hg Hm]. split; [intros; rewrite <- H; apply Hg|]. intros. rewrite <- !H. by apply Hm. Qed.

Fixpoint TMono_target (e : Expr) : forall self, AMono self -> deep (fun e => AMono (mono_expr e)) e -> TMono (mono_target e self).
Proof.
  destruct e as [k sp]. intros self Hself [_ He].
  destruct (simple_name (MkExpr k sp)) as [n|] eqn:En.
  { apply TMono_ext with (fun _ s => target_path n s); [|apply TMono_path]. intros. cbn [assignment_target]. by rewrite En. }
  destruct k; try (apply TMono_ext with (target_unknown file OTHER_TARGET sp self); [|by apply TMono_unknown]; intros; cbn [assignment_target]; by rewrite En).
  - destruct operator;
      first [ apply TMono_ext with (target_unknown file OTHER_TARGET sp self); [done|by apply TMono_unknown]
            | apply TMono_ext with (target_unknown file DEREF_TARGET sp (mono_expr inner)); [done|by apply TMono_unknown] ].
  - apply TMono_ext with (target_field file (expr_span base) (mono_target base (mono_expr base))); [done|].
    apply TMono_field, TMono_target; [by apply mono_here|done].
  - destruct He. apply TMono_ext with (target_index file (expr_span base) (mono_target base (mono_expr base)) (mono_expr index)); [done|].
    apply TMono_index; [|done]. apply TMono_target; [by apply mono_here|done].
  - apply TMono_ext with (mono_target inner (mono_expr inner)); [done|]. apply TMono_target; [by apply mono_here|done].
Qed.

Lemma SMono_stmt st : stmt_all (deep (fun e => AMono (mono_expr e))) (fun b => AMono (mono_block b)) st ->
  SMono (analyze_stmt source file from_token_lit is_uppercase fuel st).
Proof.
  intros Hst. assert (HG : forall b active s, Grow false (analyze_stmt source file from_token_lit is_uppercase fuel st b active s)).
  { intros. apply Grow_stmt. pose proof (AGrow_all source file from_token_lit is_uppercase fuel) as [He Hb].
    destruct st as [[ [p [|e|e bl] lsp]| |e|e| |] sp]; simpl; auto. }
  split; [done|]. clear HG. intros b active active' s s' Ha Hs.
  destruct st as [[ [p [|e|e bl] lsp]| |e|e| |] sp]; cbn [analyze_stmt analyze_local stmt_all local_all] in *;
    unfold local_init, local_init_else.
  - mono_bind state_le; [by apply Mono_bind_pattern|]. intros t t' Ht. apply Mono_ret. by split_and!; [constructor| |].
  - apply mono_here in Hst. mono_bind state_le.
    + mono_bind vs_le; [by apply am_mono|]. intros [v u] [v' u'] [Hv Hu]. by apply Mono_bind_pattern.
    + intros t t' Ht. apply Mono_ret. by split_and!; [constructor| |].
  - destruct Hst as [Hst%mono_here Hbl]. mono_bind state_le.
    + mono_bind vs_le; [by apply am_mono|]. intros [v u] [v' u'] [Hv Hu]. simpl in *.
      mono_bind (@eq unit); [apply Mono_record_control|]. intros _ _ _.
      mono_bind vs_le; [apply am_mono; auto using extend_active_mono|]. intros _ _ _.
      apply Mono_bind_pattern; [by apply add_controls_mono|done].
    + intros t t' Ht. apply Mono_ret. by split_and!; [constructor| |].
  - apply Mono_ret. by split_and!; [constructor| |].
  - apply mono_here in Hst. mono_bind vs_le; [by apply am_mono|]. intros [v u] [v' u'] [Hv Hu]. apply Mono_ret.
    destruct b; split_and!; try done; by constructor.
  - apply mono_here in Hst. mono_bind vs_le; [by apply am_mono|]. intros [v u] [v' u'] [Hv Hu]. apply Mono_ret. by split_and!; [constructor| |].
  - apply Mono_ret. by split_and!; [constructor| |].
  - mono_bind state_le; [by apply Mono_opaque_macro|]. intros t t' Ht. apply Mono_ret. by split_and!; [constructor| |].
Qed.

Lemma AMono_condition c : deep (fun e => AMono (mono_expr e)) c ->
  AMono (match c with MkExpr (ELet _ value) _ => mono_expr value | _ => mono_expr c end).
Proof. destruct c as [k sp]. intros [H He]. destruct k; done. Qed.

Lemma arms_mono arms : Forall (arm_all (deep (fun e => AMono (mono_expr e)))) arms ->
  Forall arm_mono (map (fun arm => match arm with MkArm pat guard body span =>
    mkArmParts span pat (option_map (fun g => (expr_span g, mono_expr g)) guard) (option_map mono_expr body) end) arms).
Proof.
  intros H. apply Forall_map. revert H. apply Forall_impl. intros [p g b sp] [Hg Hb].
  split; simpl; [destruct g|destruct b]; simpl; auto using mono_here.
Qed.

#[local] Hint Resolve mono_here parts_all opt_part_all opt_list_all AMono_condition arms_mono Forall_app_2 TMono_target
  KMono_call KMono_method_call KMono_two KMono_many KMono_binary KMono_ret KMono_try KMono_break KMono_continue KMono_unmodelled KMono_yeet
  KMono_pure KMono_path KMono_macro KMono_if KMono_match KMono_assignment KMono_while KMono_loop KMono_for KMono_of : depend.

Lemma AMono_all : (forall e, deep (fun e => AMono (mono_expr e)) e) /\ (forall b, AMono (mono_block b)).
Proof.
  apply expr_block_ind.
  - intros k sp Hk. rewrite analyze_expr_eq. apply AMono_live.
    destruct k; cbn [expr_kind_step kind_all] in *; unfold analyze_many; repeat match goal with H : _ /\ _ |- _ => destruct H end; auto with depend.
  - intros ss H. apply (AMono_stmts (map (analyze_stmt source file from_token_lit is_uppercase fuel) ss)), Forall_map. revert H. apply Forall_impl. apply SMono_stmt.
Qed.

Lemma AMono_expr e : AMono (mono_expr e).
Proof. apply mono_here, AMono_all. Qed.

Lemma AMono_block b : AMono (mono_block b).
Proof. apply AMono_all. Qed.
End Methods.
