(* ===== verification/DependBound.v ===== *)
(** * Dependence analysis: the finite universe of a function

    Everything the analysis puts into a value comes from the function's text: ranges and texts of its spans, its
    names, a few messages.  [atoms] collects the spans and words of the syntax tree; the values over them are
    finitely many, and [weight] counts how many of the possible facts a state has.  A reachable state that
    is above another and differs from it has a larger weight: the loops of the analysis stop. *)
From Stdlib Require Import ZArith Lia.
From Stdlib Require Import String.
From stdpp Require Import base numbers list gmap option.
From S2P Require Import Prelude RustStr SourceFile DependData DependAst Depend DependOrder DependGrow.
#[local] Open Scope nat_scope.

Inductive Atom : Type := ASpan (span : Span) | AWord (w : str).

Section Atoms.
Context (from_token_lit : TokenLit -> option LitKind).

(** The decoded literal, when it is of a kind the analysis reports. *)
Definition literal_word (token : TokenLit) : list Atom :=
  match from_token_lit token with
  | Some (LitChar c) => [AWord [c]]
  | Some (LitByte b) => [AWord (int_to_string b)]
  | Some (LitStr s) => [AWord s]
  | Some (LitInt n) => [AWord (int_to_string n)]
  | _ => []
  end.

Definition path_atoms (p : Path) : list Atom := ASpan (path_span p) :: ((fun seg => AWord (name seg)) <$> segments p).

Fixpoint pat_atoms (p : Pat) : list Atom :=
  match p with
  | MkPat k _ =>
      match k with
      | PIdent _ ident o => ASpan (ident_span ident) :: AWord (name ident) :: match o with Some p => pat_atoms p | None => [] end
      | PStruct l | PTupleStruct l | POr l | PTuple l | PSlice l => List.flat_map pat_atoms l
      | PDeref p | PRef p | PParen p | PGuard p _ => pat_atoms p
      | _ => []
      end
  end.

Fixpoint expr_atoms (e : Expr) : list Atom :=
  match e with MkExpr kind span => ASpan span :: kind_atoms kind end

with kind_atoms (k : ExprKind) : list Atom :=
  match k with
  | EArray l | ETup l => List.flat_map expr_atoms l
  | ECall e l => expr_atoms e ++ List.flat_map expr_atoms l
  | EMethodCall seg e l => AWord (name seg) :: expr_atoms e ++ List.flat_map expr_atoms l
  | EBinary _ a b | EAssign a b | EAssignOp a b | EIndex a b | ERepeat a b => expr_atoms a ++ expr_atoms b
  | EUnary _ e | EMove e | ECast e | EType e | EAwait e | EUse e | EField e | EAddrOf e | EParen e
  | ETry e | EBecome e | EDirectConstArg e => expr_atoms e
  | ELet p e => pat_atoms p ++ expr_atoms e
  | ELit token => literal_word token
  | EIf c t o => expr_atoms c ++ block_atoms t ++ match o with Some e => expr_atoms e | None => [] end
  | EWhile c b => expr_atoms c ++ block_atoms b
  | EForLoop p i b => pat_atoms p ++ expr_atoms i ++ block_atoms b
  | ELoop b | EBlock b => block_atoms b
  | EMatch s arms => expr_atoms s ++ List.flat_map arm_atoms arms
  | ERange a b => match a with Some e => expr_atoms e | None => [] end ++ match b with Some e => expr_atoms e | None => [] end
  | EPath _ p => path_atoms p
  | EBreak _ o | ERet o | EYeet o => match o with Some e => expr_atoms e | None => [] end
  | EStruct p l o => path_atoms p ++ List.flat_map expr_atoms l ++ match o with Some e => expr_atoms e | None => [] end
  | _ => []
  end

with block_atoms (b : Block) : list Atom := match b with MkBlock stmts => List.flat_map stmt_atoms stmts end

with stmt_atoms (s : Stmt) : list Atom :=
  match s with
  | MkStmt kind span =>
      ASpan span :: match kind with SLet l => local_atoms l | SExpr e | SSemi e => expr_atoms e | _ => [] end
  end

with local_atoms (l : Local) : list Atom :=
  match l with
  | MkLocal pat kind span =>
      ASpan span :: pat_atoms pat ++
      match kind with LDecl => [] | LInit e => expr_atoms e | LInitElse e b => expr_atoms e ++ block_atoms b end
  end

with arm_atoms (a : Arm) : list Atom :=
  match a with
  | MkArm pat guard body span =>
      ASpan span :: pat_atoms pat ++ match guard with Some e => expr_atoms e | None => [] end
        ++ match body with Some e => expr_atoms e | None => [] end
  end.

Definition fn_atoms (f : Fn) : list Atom :=
  List.flat_map pat_atoms (inputs f) ++ match body f with Some b => block_atoms b | None => [] end.
End Atoms.

(** ** The universe of a set of atoms *)

Section Universe.
Context (source : str) (file : SourceFile) (atoms : list Atom).

(** The messages that become part of a value. *)
Definition MESSAGES : list str :=
  [MAY_ASSIGN; BARE_IDENT; YEET; DEREF_TARGET; OTHER_TARGET; NO_INITIALIZER; NESTED; OPERANDS; FORM; INCOMPLETE; lit "macro expansion is opaque"].
Definition FORMATS : list (str * str) :=
  [(lit "path `", lit "` is unresolved"); (lit "struct path" ++ lit " `", lit "` is unresolved");
   (lit "method `", lit "` is unresolved because names are not resolved")].

Definition u_ranges : list TextRange := x ← atoms; match x with ASpan span => [range file span] | AWord _ => [] end.
Definition u_names : list str := x ← atoms; match x with ASpan _ => [] | AWord w => [w] end.
Definition u_words : list str := x ← atoms; match x with ASpan span => [text source file span] | AWord w => [w] end.
Definition u_strs : list str := MESSAGES ++ u_words ++ ('(pre, post) ← FORMATS; w ← u_words; [pre ++ w ++ post]).
Definition u_keys : list BindingKey := r ← u_ranges; n ← u_names; [mkBindingKey r n].

(** Membership of the pieces. *)
Lemma range_in span : ASpan span ∈ atoms -> range file span ∈ u_ranges.
Proof. intros H. apply list_elem_of_bind. exists (ASpan span). split; [by left|done]. Qed.

Lemma text_in span : ASpan span ∈ atoms -> text source file span ∈ u_words.
Proof. intros H. apply list_elem_of_bind. exists (ASpan span). split; [by left|done]. Qed.

Lemma word_atom_in w : AWord w ∈ atoms -> w ∈ u_words.
Proof. intros H. apply list_elem_of_bind. exists (AWord w). split; [by left|done]. Qed.

Lemma name_in w : AWord w ∈ atoms -> w ∈ u_names.
Proof. intros H. apply list_elem_of_bind. exists (AWord w). split; [by left|done]. Qed.

Lemma words_strs w : w ∈ u_words -> w ∈ u_strs.
Proof. intros H. unfold u_strs. rewrite !elem_of_app. auto. Qed.

Lemma messages_strs w : w ∈ MESSAGES -> w ∈ u_strs.
Proof. intros H. unfold u_strs. rewrite !elem_of_app. auto. Qed.

Lemma format_strs pre post w : (pre, post) ∈ FORMATS -> w ∈ u_words -> pre ++ w ++ post ∈ u_strs.
Proof.
  intros Hf Hw. unfold u_strs. rewrite !elem_of_app. right; right. apply list_elem_of_bind. exists (pre, post). split; [|done].
  apply list_elem_of_bind. exists w. split; [by left|done].
Qed.

Lemma key_in r n : r ∈ u_ranges -> n ∈ u_names -> mkBindingKey r n ∈ u_keys.
Proof. intros Hr Hn. apply list_elem_of_bind. exists r. split; [|done]. apply list_elem_of_bind. exists n. split; [by left|done]. Qed.

(** ** Values over the universe *)

Definition opt_in (o : option str) : Prop := match o with Some s => s ∈ u_strs | None => True end.

Record literal_in (l : LiteralFact) : Prop := {
  li_literal : literal l ∈ u_strs;
  li_text : lf_text l ∈ u_strs;
  li_span : lf_span l ∈ u_ranges;
  li_compared : opt_in (compared_with l);
  li_condition : opt_in (lf_condition l) }.

(** The identifiers of the data are below [n], and every one occurs somewhere. *)
Definition data_in (n : nat) (d : Data) : Prop :=
  map_Forall (fun id o => id < n /\ o <> ∅ /\ forall r, r ∈ o -> r ∈ u_ranges) d.

Record value_in (n : nat) (v : Value) : Prop := {
  vi_data : data_in n (data v);
  vi_controls : forall k, k ∈ controls v -> ck_range k ∈ u_ranges;
  vi_unknowns : forall w, w ∈ unknowns v -> w ∈ u_strs;
  vi_literals : forall l, l ∈ literal_facts v -> literal_in l }.

(** ** Facts *)

(** What a state may say of the value at an index. *)
Inductive Fact : Type :=
| FValue | FId (id : nat) | FData (id : nat) (r : TextRange) | FControl (k : ControlKey) | FUnknown (w : str) | FLiteral (l : LiteralFact).

Definition value_has (v : Value) (f : Fact) : bool :=
  match f with
  | FValue => true
  | FId id => bool_decide (is_Some (data v !! id))
  | FData id r => match data v !! id with Some o => bool_decide (r ∈ o) | None => false end
  | FControl k => bool_decide (k ∈ controls v)
  | FUnknown w => bool_decide (w ∈ unknowns v)
  | FLiteral l => bool_decide (l ∈ literal_facts v)
  end.

Definition has (s : State) (f : nat * Fact) : bool :=
  match values s !! f.1 with Some v => value_has v f.2 | None => false end.

Lemma value_le_has v w : val_le v w <-> forall f, value_has v f = true -> value_has w f = true.
Proof.
  split.
  - intros [Hd Hc Hu Hl] [|id|id r|k|x|l]; simpl; [done| | |rewrite !bool_decide_eq_true; set_solver..].
    + rewrite !bool_decide_eq_true. intros [o Ho]. destruct (Hd _ _ Ho) as (p & -> & _). eauto.
    + destruct (data v !! id) as [o|] eqn:Eo; [|done]. destruct (Hd _ _ Eo) as (p & -> & ?). rewrite !bool_decide_eq_true. set_solver.
  - intros H. split.
    + intros id o Ho. specialize (H (FId id)) as Hi. simpl in Hi. rewrite !bool_decide_eq_true in Hi. destruct Hi as [p Hp]; [eauto|].
      exists p. split; [done|]. intros r Hr. specialize (H (FData id r)). simpl in H. rewrite Ho, Hp, !bool_decide_eq_true in H. auto.
    + intros k Hk. specialize (H (FControl k)). simpl in H. rewrite !bool_decide_eq_true in H. auto.
    + intros k Hk. specialize (H (FUnknown k)). simpl in H. rewrite !bool_decide_eq_true in H. auto.
    + intros k Hk. specialize (H (FLiteral k)). simpl in H. rewrite !bool_decide_eq_true in H. auto.
Qed.

Lemma vals_le_has s t : vals_le (values s) (values t) <-> forall f, has s f = true -> has t f = true.
Proof.
  unfold has. split.
  - intros H [i f]. simpl. destruct (values s !! i) as [v|] eqn:Ev; [|done]. destruct (H _ _ Ev) as (w & -> & Hw). by apply value_le_has.
  - intros H i v Hv. pose proof (H (i, FValue)) as H0. simpl in H0. rewrite Hv in H0. destruct (values t !! i) as [w|] eqn:Ew; [|by specialize (H0 eq_refl)].
    exists w. split; [done|]. apply value_le_has. intros f. specialize (H (i, f)). simpl in H. by rewrite Hv, Ew in H.
Qed.

(** All the facts of a universe with [n] bindings. *)
Definition options : list (option str) := None :: (Some <$> u_strs).
Definition all_literals : list LiteralFact :=
  l ← u_strs; t ← u_strs; k ← [LkChar; LkByte; LkStr; LkInt]; r ← u_ranges; c ← options; d ← options; v ← [true; false];
  [mkLiteral l t k r c d v].
Definition all_controls : list ControlKey :=
  r ← u_ranges; k ← [CkBranch; CkLoop; CkMatch; CkShortCircuit; CkTry]; [mkKey r k].
Definition value_facts (n : nat) : list Fact :=
  FValue :: (FId <$> seq 0 n) ++ (id ← seq 0 n; r ← u_ranges; [FData id r]) ++ (FControl <$> all_controls)
    ++ (FUnknown <$> u_strs) ++ (FLiteral <$> all_literals).
Definition all_facts (n : nat) : list (nat * Fact) := i ← seq 0 n; f ← value_facts n; [(i, f)].

Lemma options_in o : opt_in o -> o ∈ options.
Proof. destruct o; simpl; intros H; [right; apply list_elem_of_fmap; eauto|left]. Qed.

Lemma all_literals_in l : literal_in l -> l ∈ all_literals.
Proof.
  intros [? ? ? ? ?]. destruct l as [a b k r c d v]. simpl in *. unfold all_literals.
  apply list_elem_of_bind; exists a; split; [|assumption]. apply list_elem_of_bind; exists b; split; [|assumption].
  apply list_elem_of_bind; exists k; split; [|clear; destruct k; set_solver]. apply list_elem_of_bind; exists r; split; [|assumption].
  apply list_elem_of_bind; exists c; split; [|apply options_in; assumption]. apply list_elem_of_bind; exists d; split; [|apply options_in; assumption].
  apply list_elem_of_bind; exists v; split; [by left|clear; destruct v; set_solver].
Qed.

Lemma all_controls_in k : ck_range k ∈ u_ranges -> k ∈ all_controls.
Proof.
  intros H. destruct k as [r k]. simpl in *. unfold all_controls. 
  apply list_elem_of_bind; exists r; split; [|assumption]. apply list_elem_of_bind; exists k; split; [by left|clear; destruct k; set_solver].
Qed.

Lemma value_facts_in n v f : value_in n v -> value_has v f = true -> f ∈ value_facts n.
Proof.
  intros [Hd Hc Hu Hl]. unfold value_facts. rewrite elem_of_cons, !elem_of_app. destruct f as [|id|id r|k|w|l]; cbn [value_has]; [auto| | |rewrite bool_decide_eq_true..].
  - rewrite bool_decide_eq_true. intros [o Ho]. destruct (Hd _ _ Ho) as [? _]. right; left. apply list_elem_of_fmap. exists id. split; [done|]. apply elem_of_seq. lia.
  - destruct (data v !! id) as [o|] eqn:Ho; [|done]. rewrite bool_decide_eq_true. intros Hr. destruct (Hd _ _ Ho) as (? & _ & Hin).
    right; right; left. apply list_elem_of_bind. exists id. split; [|apply elem_of_seq; lia]. apply list_elem_of_bind. exists r. split; [by left|auto].
  - intros Hk. do 3 right; left. apply list_elem_of_fmap. exists k. split; [done|]. by apply all_controls_in, Hc.
  - intros Hk. do 4 right; left. apply list_elem_of_fmap. exists w. split; [done|]. by apply Hu.
  - intros Hk. do 5 right. apply list_elem_of_fmap. exists l. split; [done|]. by apply all_literals_in, Hl.
Qed.

(** ** Weight *)

Definition weight (n : nat) (s : State) : nat := length (List.filter (has s) (all_facts n)).
Definition max_weight (n : nat) : nat := length (all_facts n).

Lemma filter_le {X} (p q : X -> bool) l : (forall x, p x = true -> q x = true) -> length (List.filter p l) <= length (List.filter q l).
Proof.
  intros H. induction l as [|x l IH]; simpl; [done|]. destruct (p x) eqn:Ep; [rewrite (H x Ep)|destruct (q x)]; simpl; lia.
Qed.

Lemma filter_lt {X} (p q : X -> bool) l : (forall x, p x = true -> q x = true) -> (exists x, x ∈ l /\ p x = false /\ q x = true) ->
  length (List.filter p l) < length (List.filter q l).
Proof.
  intros H (x & Hx & Hp & Hq). induction l as [|y l IH]; [by apply elem_of_nil in Hx|]. simpl. apply elem_of_cons in Hx as [<-|Hx].
  - rewrite Hp, Hq. simpl. pose proof (filter_le p q l H). lia.
  - specialize (IH Hx). destruct (p y) eqn:Ep; [rewrite (H y Ep)|destruct (q y)]; simpl; lia.
Qed.

Lemma weight_max n s : weight n s <= max_weight n.
Proof. apply List.filter_length_le. Qed.

Lemma weight_lt n s t : reachable s = true -> state_le s t -> s <> t -> length (values t) <= n -> Forall (value_in n) (values t) -> weight n s < weight n t.
Proof.
  intros Hs Hst Hne Hl Ht. destruct (Hst Hs) as [Hr Hv]. rewrite vals_le_has in Hv.
  apply filter_lt; [done|]. destruct (decide (Exists (fun f => has s f = false /\ has t f = true) (all_facts n))) as [He|He].
  { apply list.Exists_exists in He as (f & ? & ? & ?). exists f. done. }
  destruct Hne. apply state_le_antisym; [done|done|]. intros _. split; [done|]. apply vals_le_has. intros [i f] Hf.
  destruct (has s (i, f)) eqn:Ef; [done|]. destruct He. apply list.Exists_exists. exists (i, f). split; [|done].
  unfold has in Hf. simpl in Hf. destruct (values t !! i) as [v|] eqn:Ev; [|done]. apply list_elem_of_bind. exists i. split.
  - apply list_elem_of_bind. exists f. split; [by left|]. apply value_facts_in with v; [|done]. rewrite Forall_lookup in Ht. eauto.
  - apply elem_of_seq. apply lookup_lt_Some in Ev. lia.
Qed.
End Universe.
