(* ===== verification/DependTotal.v ===== *)
(** * Dependence analysis: it returns

    [tot a m Q]: the computation [m], run by the analyzer [a], returns, and [Q] holds of its result.  The invariant
    [Inv] of the analyzer says that everything recorded stays in the universe of the function, that every
    identifier is a binding, that every control of a value has been recorded, and that the assigned bindings are the
    mutable ones with an assignment site.  Every method returns and keeps it; for the loops this uses that
    a round is monotone, so that the heads increase, and that their weight is bounded. *)
From Stdlib Require Import ZArith Lia.
From Stdlib Require Import String.
From stdpp Require Import base numbers list gmap option.
From S2P Require Import Prelude RustStr SourceFile DependData DependAst Depend DependOrder DependGrow DependMono DependBound.
#[local] Open Scope nat_scope.
Open Scope depend_scope.

Section Total.
Context (source : str) (file : SourceFile).
Context (from_token_lit : TokenLit -> option LitKind) (is_uppercase : Z -> bool) (fuel : nat).
Context (atoms : list Atom).

Abbreviation ranges := (u_ranges file atoms).
Abbreviation strs := (u_strs source file atoms).
Abbreviation keys := (u_keys file atoms).

(** ** What is recorded *)

Definition known_key (a : Analyzer) (k : ControlKey) : Prop := ck_range k ∈ ranges /\ is_Some (a_controls a !! k).

Record value_ok (a : Analyzer) (v : Value) : Prop := {
  vo_data : data_in file atoms (length (bindings a)) (data v);
  vo_controls : forall k, k ∈ controls v -> known_key a k;
  vo_unknowns : forall w, w ∈ unknowns v -> w ∈ strs;
  vo_literals : forall l, l ∈ literal_facts v -> literal_in source file atoms l }.

Record state_ok (a : Analyzer) (s : State) : Prop := {
  so_length : length (values s) <= length (bindings a);
  so_values : Forall (value_ok a) (values s) }.

Definition active_ok (a : Analyzer) (active : list ControlKey) : Prop := forall k, k ∈ active -> known_key a k.

Record flow_ok (a : Analyzer) (f : LoopFlow) : Prop := {
  fo_breaks : opt_all (state_ok a) (breaks f);
  fo_continues : opt_all (state_ok a) (continues f);
  fo_value : value_ok a (break_value f) }.

Record Inv (a : Analyzer) : Prop := {
  i_valid : Valid a;
  i_length : length (bindings a) = size (binding_ids a);
  i_keys : forall k, k ∈ dom (binding_ids a) -> k ∈ keys;
  i_loops : Forall (flow_ok a) (loops a);
  i_exits : map_Forall (fun _ v => value_ok a v) (exits a);
  i_controls : map_Forall (fun _ f => data_in file atoms (length (bindings a)) (cf_operands f)) (a_controls a);
  i_sites : map_Forall (fun id sites => id < length (bindings a) /\ sites <> ∅) (assignment_sites a);
  i_assigned : forall id, id ∈ assigned a <-> is_mutable id a = true /\ is_Some (assignment_sites a !! id) }.

(** ** Growth *)

Record ext (a b : Analyzer) : Prop := {
  e_bindings : bindings a `prefix_of` bindings b;
  e_controls : dom (a_controls a) ⊆ dom (a_controls b) }.

#[local] Instance ext_preorder : PreOrder ext.
Proof. split; [by split|]. intros a b c [? ?] [? ?]. split; [by etrans|set_solver]. Qed.

Lemma ext_length a b : ext a b -> length (bindings a) <= length (bindings b).
Proof. intros [? _]. by apply prefix_length. Qed.

Lemma known_ext a b k : ext a b -> known_key a k -> known_key b k.
Proof. intros [_ H] [? Hk]. split; [done|]. apply elem_of_dom. apply H. by apply elem_of_dom. Qed.

Lemma data_in_mono n m d : n <= m -> data_in file atoms n d -> data_in file atoms m d.
Proof. intros Hl H id o Ho. destruct (H _ _ Ho). split; [lia|done]. Qed.

Lemma value_ok_ext a b v : ext a b -> value_ok a v -> value_ok b v.
Proof. intros E [? ? ? ?]. split; [|eauto using known_ext..|done|done]. by eapply data_in_mono; [apply ext_length|]. Qed.

Lemma state_ok_ext a b s : ext a b -> state_ok a s -> state_ok b s.
Proof.
  intros E [Hl Hv]. split; [pose proof (ext_length _ _ E); lia|]. revert Hv. apply Forall_impl. intros v. by apply value_ok_ext.
Qed.

Lemma active_ok_ext a b active : ext a b -> active_ok a active -> active_ok b active.
Proof. intros E H k Hk. eauto using known_ext. Qed.

Lemma flow_ok_ext a b f : ext a b -> flow_ok a f -> flow_ok b f.
Proof.
  intros E [Hb Hc Hv]. split; [destruct (breaks f)|destruct (continues f)|]; simpl in *; eauto using state_ok_ext, value_ok_ext.
Qed.

Ltac lift E :=
  repeat match type of E with
  | ext ?a ?b =>
      match goal with
      | H : value_ok a _ |- _ => apply (value_ok_ext _ _ _ E) in H
      | H : state_ok a _ |- _ => apply (state_ok_ext _ _ _ E) in H
      | H : active_ok a _ |- _ => apply (active_ok_ext _ _ _ E) in H
      | H : known_key a _ |- _ => apply (known_ext _ _ _ E) in H
      end
  end.

(** ** Values and states over the universe *)

Lemma empty_value_ok a : value_ok a empty_value.
Proof. split; simpl; [apply map_Forall_empty|set_solver..]. Qed.

Lemma merge_data_in n d e : data_in file atoms n d -> data_in file atoms n e -> data_in file atoms n (merge_data d e).
Proof.
  intros Hd He id o. rewrite lookup_merge_data. destruct (d !! id) as [p|] eqn:Ed, (e !! id) as [q|] eqn:Ee; simpl; intros [= <-].
  - destruct (Hd _ _ Ed) as (? & ? & ?), (He _ _ Ee) as (? & ? & ?). split; [done|]. set_solver.
  - by apply Hd.
  - by apply He.
Qed.

Lemma value_merge_ok a v w : value_ok a v -> value_ok a w -> value_ok a (value_merge v w).
Proof. intros [? ? ? ?] [? ? ? ?]. split; simpl; [by apply merge_data_in|set_solver..]. Qed.

Lemma add_controls_ok a v ks : value_ok a v -> (forall k, k ∈ ks -> known_key a k) -> value_ok a (add_controls v ks).
Proof. intros [? ? ? ?] ?. split; simpl; [done|set_solver..]. Qed.

Lemma add_unknown_ok a v w : value_ok a v -> w ∈ strs -> value_ok a (add_unknown v w).
Proof. intros [? ? ? ?] ?. split; simpl; [done|done| |done]. intros x. rewrite elem_of_union, elem_of_singleton. intros [?| ->]; auto. Qed.

Lemma unknown_value_ok a w : w ∈ strs -> value_ok a (unknown_value w).
Proof. apply add_unknown_ok, empty_value_ok. Qed.

Lemma add_literals_ok a v ls : value_ok a v -> (forall l, l ∈ ls -> literal_in source file atoms l) -> value_ok a (add_literals v ls).
Proof. intros [? ? ? ?] ?. split; simpl; [done|done|done|]. intros l. rewrite elem_of_union. intros [?|?]; auto. Qed.

Lemma clear_literals_ok a v : value_ok a v -> value_ok a (clear_literals v).
Proof. intros [? ? ? ?]. split; simpl; [done|done|done|]. set_solver. Qed.

Lemma map_literals_in f ls : (forall l, l ∈ ls -> literal_in source file atoms l) ->
  (forall l, literal_in source file atoms l -> literal_in source file atoms (f l)) ->
  forall l, l ∈ map_literals f ls -> literal_in source file atoms l.
Proof. intros Hl Hf l. unfold map_literals. rewrite elem_of_map. intros (x & -> & Hx). auto. Qed.

Lemma relate_call_in t l : t ∈ strs -> literal_in source file atoms l -> literal_in source file atoms (relate_call t l).
Proof. intros Ht [? ? ? Hc ?]. split; simpl; try done. by destruct (compared_with l). Qed.

Lemma relate_comparison_in t c l : t ∈ strs -> c ∈ strs -> literal_in source file atoms l -> literal_in source file atoms (relate_comparison t c l).
Proof. intros Ht ? [? ? ? Hc ?]. by split. Qed.

Lemma state_merge_ok a s t : state_ok a s -> state_ok a t -> state_ok a (state_merge s t).
Proof.
  intros [L1 V1] [L2 V2]. unfold state_merge. destruct (reachable s); simpl; [|done]. destruct (reachable t); simpl; [|done].
  assert (H : forall i v, merge_values (values s) (values t) !! i = Some v -> i < length (bindings a) /\ value_ok a v).
  { intros i v. rewrite Forall_lookup in V1, V2. rewrite lookup_merge_values.
    destruct (values s !! i) as [x|] eqn:Ex, (values t !! i) as [y|] eqn:Ey; intros [= <-]; try apply lookup_lt_Some in Ex as Hx; try apply lookup_lt_Some in Ey as Hy;
      (split; [lia|]); eauto using value_merge_ok, empty_value_ok. }
  split; simpl; [|apply Forall_lookup; intros i v Hi; by apply (H i)].
  destruct (decide (length (merge_values (values s) (values t)) <= length (bindings a))) as [|Hl]; [done|].
  destruct (lookup_lt_is_Some_2 (merge_values (values s) (values t)) (length (bindings a))) as [v Hv]; [lia|]. apply H in Hv as [? _]. lia.
Qed.

Lemma update_value_ok a id f s : state_ok a s -> id < length (bindings a) -> (forall v, value_ok a v -> value_ok a (f v)) -> state_ok a (update_value id f s).
Proof.
  intros [Hl Hv] Hid Hf. split; [rewrite length_update_value; lia|]. rewrite Forall_lookup in Hv. apply Forall_lookup. intros i v.
  assert (Hd : forall j, value_ok a (default empty_value (values s !! j))) by (intros j; destruct (values s !! j) eqn:E; simpl; eauto using empty_value_ok).
  rewrite lookup_update_value. case_decide; [intros [= <-]; auto|]. case_decide; [intros [= <-]; auto|done].
Qed.

Lemma read_binding_ok a id s r : state_ok a s -> id < length (bindings a) -> r ∈ ranges -> value_ok a (read_binding id s r).
Proof.
  intros [_ Hv] Hid Hr. assert (H1 : data_in file atoms (length (bindings a)) {[id := {[r]}]}).
  { intros i o [<- <-]%lookup_singleton_Some. split; [done|]. set_solver. }
  unfold read_binding. rewrite Forall_lookup in Hv. destruct (values s !! id) as [v|] eqn:Ev.
  - destruct (Hv _ _ Ev). split; simpl; [|set_solver..]. apply merge_data_in; [by apply merge_data_in|].
    intros i o. rewrite lookup_fmap. intros (p & Hp & ->)%fmap_Some. destruct (vo_data0 _ _ Hp) as [? _]. split; [done|]. set_solver.
  - split; simpl; [done|set_solver..].
Qed.

Lemma kill_ok a s : state_ok a s -> state_ok a (dead_like s).
Proof. intros [? ?]. by split. Qed.

Lemma merge_into_ok a o s : opt_all (state_ok a) o -> state_ok a s -> opt_all (state_ok a) (merge_into o s).
Proof. destruct o; simpl; auto using state_merge_ok. Qed.

Lemma active_set_ok a active : active_ok a active -> forall k, k ∈ (list_to_set active : gset ControlKey) -> known_key a k.
Proof. intros H k. rewrite elem_of_list_to_set. apply H. Qed.

Lemma extend_active_ok a active v key : active_ok a active -> value_ok a v -> known_key a key -> active_ok a (extend_active active v key).
Proof.
  intros Ha [_ Hv _ _] Hk k. unfold extend_active. rewrite !elem_of_app, elem_of_elements, list_elem_of_singleton. intros [?|[?| ->]]; auto.
Qed.

(** ** Rules *)

Definition tot {A} (a : Analyzer) (m : M A) (Q : Analyzer -> A -> Prop) : Prop :=
  exists x b, m a = Some (x, b) /\ ext a b /\ Inv b /\ Q b x.

Lemma tot_ret {A} a (x : A) (Q : Analyzer -> A -> Prop) : Inv a -> Q a x -> tot a (ret x) Q.
Proof. intros. by exists x, a. Qed.

Lemma tot_get {A} a (f : Analyzer -> A) (Q : Analyzer -> A -> Prop) : Inv a -> Q a (f a) -> tot a (get f) Q.
Proof. intros. by exists (f a), a. Qed.

Lemma tot_bind {A B} a (m : M A) (k : A -> M B) (Q : Analyzer -> A -> Prop) (R : Analyzer -> B -> Prop) :
  tot a m Q -> (forall x b, ext a b -> Inv b -> Q b x -> tot b (k x) R) -> tot a (bind m k) R.
Proof.
  intros (x & b & E & H1 & H2 & H3) Hk. destruct (Hk x b H1 H2 H3) as (y & c & E' & H4 & H5 & H6).
  exists y, c. split; [unfold bind; by rewrite E|]. split; [by etrans|done].
Qed.

Lemma tot_weaken {A} a (m : M A) (Q R : Analyzer -> A -> Prop) : tot a m Q -> (forall b x, ext a b -> Inv b -> Q b x -> R b x) -> tot a m R.
Proof. intros (x & b & E & Hx & Hb & HQ) HR. exists x, b. auto. Qed.

Lemma tot_modify a f (Q : Analyzer -> unit -> Prop) : ext a (f a) -> Inv (f a) -> Q (f a) tt -> tot a (modify f) Q.
Proof. intros. by exists tt, (f a). Qed.

(** The invariant after a change of what it does not constrain by itself. *)
Lemma Inv_same a b : Inv a -> bindings b = bindings a -> binding_ids b = binding_ids a -> a_controls b = a_controls a ->
  Forall (map_Forall (fun _ id => id < length (bindings a))) (scopes b) -> Forall (flow_ok a) (loops b) ->
  map_Forall (fun _ v => value_ok a v) (exits b) ->
  map_Forall (fun id sites => id < length (bindings a) /\ sites <> ∅) (assignment_sites b) ->
  (forall id, id ∈ assigned b <-> is_mutable id a = true /\ is_Some (assignment_sites b !! id)) -> Inv b.
Proof.
  intros [[V1 V2] HL HK _ _ HC _ _] Eb Ei Ec Hsc Hf HX HS HA. assert (E : ext a b) by (split; [by rewrite Eb|by rewrite Ec]).
  split; rewrite ?Eb, ?Ei, ?Ec; try done.
  - by split; rewrite Eb, ?Ei.
  - revert Hf. apply Forall_impl. intros f. by apply flow_ok_ext.
  - eapply map_Forall_impl; [exact HX|]. intros k v. by apply value_ok_ext.
  - intros id. unfold is_mutable. rewrite Eb. apply HA.
Qed.

(** ... for a change that leaves the records alone. *)
Ltac same_inv a Ha := apply (Inv_same a); try done; try apply Ha; try apply (i_valid _ Ha).

Lemma Inv_scopes a f : Inv a -> Forall (map_Forall (fun _ id => id < length (bindings a))) (f (scopes a)) -> Inv (set_scopes f a).
Proof. intros Ha Hf. same_inv a Ha. Qed.

Lemma tot_with_scope {A} a (m : M A) (Q : Analyzer -> A -> Prop) : Inv a ->
  (forall b, Inv b -> ext a b -> tot b m Q) -> (forall b x, Q b x -> Q (set_scopes tail b) x) -> tot a (with_scope m) Q.
Proof.
  intros Ha Hm HQ. unfold with_scope. eapply (tot_bind _ _ _ (fun b _ => ext a b)).
  { apply tot_modify; [by split| |by split]. apply Inv_scopes; [done|]. constructor; [apply map_Forall_empty|apply Ha]. }
  intros _ b _ Hb E. eapply tot_bind; [by apply Hm|]. intros x c Ec Hc Hx. eapply (tot_bind _ _ _ (fun d _ => Q d x)).
  { apply tot_modify; [by split| |by apply HQ]. apply Inv_scopes; [done|]. apply Forall_tail, Hc. }
  intros _ d _ Hd Hq. by apply tot_ret.
Qed.

Lemma Inv_loops a f : Inv a -> Forall (flow_ok a) (f (loops a)) -> Inv (set_loops f a).
Proof. intros Ha Hf. same_inv a Ha. Qed.

Lemma tot_in_loop {A} a (m : M A) (Q : Analyzer -> A -> Prop) : Inv a ->
  (forall b, Inv b -> ext a b -> tot b m Q) -> (forall b x, Q b x -> Q (set_loops tail b) x) ->
  tot a (in_loop m) (fun b p => Q b p.1 /\ flow_ok b p.2).
Proof.
  intros Ha Hm HQ. unfold in_loop. eapply (tot_bind _ _ _ (fun b _ => ext a b)).
  { apply tot_modify; [by split| |by split]. apply Inv_loops; [done|]. constructor; [|apply Ha]. split; simpl; [done|done|apply empty_value_ok]. }
  intros _ b _ Hb E. eapply tot_bind; [by apply Hm|]. intros x c Ec Hc Hx.
  eapply (tot_bind _ _ _ (fun d f => Q d x /\ flow_ok d f)).
  { apply tot_get; [done|]. split; [done|]. pose proof (i_loops _ Hc) as Hl. destruct (loops c); simpl; [|by inversion Hl].
    split; simpl; [done|done|apply empty_value_ok]. }
  intros f d Ed Hd [Hq Hf]. eapply (tot_bind _ _ _ (fun e _ => Q e x /\ flow_ok e f)).
  { apply tot_modify; [by split| |]. { apply Inv_loops; [done|]. apply Forall_tail, Hd. } split; [by apply HQ|].
    apply flow_ok_ext with d; [by split|done]. }
  intros _ e _ He Hqf. by apply tot_ret.
Qed.

(** ** Records *)

Lemma Inv_controls a key fact : Inv a -> data_in file atoms (length (bindings a)) (cf_operands fact) ->
  Inv (set_controls (insert key fact) a) /\ ext a (set_controls (insert key fact) a).
Proof.
  intros [? ? ? ? ? ? ? ?] Hd. assert (E : ext a (set_controls (insert key fact) a)) by (split; simpl; [done|]; rewrite dom_insert; set_solver).
  split; [|done]. split; simpl; try done.
  - by destruct i_valid0.
  - revert i_loops0. apply Forall_impl. intros f. by apply flow_ok_ext.
  - eapply map_Forall_impl; [exact i_exits0|]. intros k v. by apply value_ok_ext.
  - by apply map_Forall_insert_2.
Qed.

Lemma tot_record_control a key c v (Q : Analyzer -> unit -> Prop) : Inv a -> value_ok a v -> ck_range key ∈ ranges ->
  (forall b, ext a b -> known_key b key -> Q b tt) -> tot a (record_control key c v) Q.
Proof.
  intros Ha Hv Hk HQ. unfold record_control. set (g := set_controls _).
  set (fact := mkControlFact (match cf_condition (default empty_control (a_controls a !! key)) with [] => c | c => c end)
    (merge_data (cf_operands (default empty_control (a_controls a !! key))) (data v)) (cf_unknowns (default empty_control (a_controls a !! key)) ∪ unknowns v)
    (cf_literal_facts (default empty_control (a_controls a !! key)) ∪ literal_facts v)).
  assert (Eg : g a = set_controls (insert key fact) a) by reflexivity.
  destruct (Inv_controls a key fact Ha) as [Hi He].
  { simpl. apply merge_data_in; [|apply Hv]. destruct (a_controls a !! key) eqn:E; simpl; [by eapply (i_controls _ Ha)|apply map_Forall_empty]. }
  apply tot_modify; rewrite ?Eg; [done|done|]. apply HQ; [done|]. split; [done|]. simpl. by rewrite lookup_insert_eq.
Qed.

Lemma tot_record_unknown a sp w (Q : Analyzer -> unit -> Prop) : Inv a -> (forall b, ext a b -> Q b tt) -> tot a (record_unknown file sp w) Q.
Proof.
  intros Ha HQ. unfold record_unknown. assert (E : ext a (set_unknowns (entry_insert (range file sp) w) a)) by (by split).
  apply tot_modify; [done| |by apply HQ]. same_inv a Ha.
Qed.

Lemma tot_record_exit a k sp t v ks (Q : Analyzer -> unit -> Prop) : Inv a -> value_ok a v -> (forall key, key ∈ ks -> known_key a key) ->
  (forall b, ext a b -> Q b tt) -> tot a (record_exit file k sp t v ks) Q.
Proof.
  intros Ha Hv Hks HQ. unfold record_exit. apply tot_modify; [by split| |by apply HQ; split].
  same_inv a Ha. simpl. apply map_Forall_insert_2; [|apply Ha]. unfold exit_merge. apply add_controls_ok; [|done]. apply value_merge_ok; [|done].
  destruct (exits a !! _) eqn:E; simpl; [by eapply (i_exits _ Ha)|apply empty_value_ok].
Qed.

Lemma Inv_mark a : Inv a -> Inv (mark_assignments a).
Proof. intros Ha. same_inv a Ha. Qed.

(** ** Bindings *)

Lemma lookup_valid a n id : Valid a -> lookup n a = Some id -> id < length (bindings a).
Proof.
  intros [Hv _]. unfold lookup. induction Hv as [|sc l Hsc _ IH]; simpl; [done|]. destruct (sc !! n) eqn:E; [|done]. intros [= <-]. by eapply Hsc.
Qed.

Lemma Inv_push a key info : Inv a -> binding_ids a !! key = None -> key ∈ keys -> Inv (push_binding info key a).
Proof.
  intros [[V1 V2] HL HK HF HX HC HS HA] Hn Hk.
  assert (E : ext a (push_binding info key a)) by (split; simpl; [by apply prefix_app_r|done]).
  assert (Hlen : length (bindings a ++ [info]) = S (length (bindings a))) by (rewrite length_app; simpl; lia).
  split; simpl.
  - split; simpl; rewrite Hlen.
    + revert V1. apply Forall_impl. intros sc Hsc. eapply map_Forall_impl; [exact Hsc|]. simpl. lia.
    + apply map_Forall_insert_2; [lia|]. eapply map_Forall_impl; [exact V2|]. simpl. lia.
  - rewrite map_size_insert_None by done. lia.
  - intros k. rewrite dom_insert. set_solver.
  - revert HF. apply Forall_impl. intros f. by apply flow_ok_ext.
  - eapply map_Forall_impl; [exact HX|]. intros k v. by apply value_ok_ext.
  - eapply map_Forall_impl; [exact HC|]. intros k f. apply data_in_mono. lia.
  - eapply map_Forall_impl; [exact HS|]. simpl. intros id s [? ?]. split; [lia|done].
  - intros id. rewrite HA. unfold is_mutable. simpl. split; intros [Hm Hs]; (split; [|done]); destruct Hs as [s Hs]; destruct (HS _ _ Hs) as [Hlt _].
    + by rewrite lookup_app_l.
    + by rewrite lookup_app_l in Hm.
Qed.

Lemma tot_bind_name a n r kind mode (Q : Analyzer -> nat -> Prop) : Inv a -> r ∈ ranges -> n ∈ u_names atoms ->
  (forall b id, ext a b -> id < length (bindings b) -> Q b id) -> tot a (bind_name n r kind mode) Q.
Proof.
  intros Ha Hr Hn HQ. unfold bind_name. eapply (tot_bind _ _ _ (fun b id => ext a b /\ id < length (bindings b))).
  { unfold tot, intern_binding. destruct (binding_ids a !! mkBindingKey r n) as [id|] eqn:E.
    - exists id, a. split; [done|]. split; [done|]. split; [done|]. split; [done|]. by eapply (v_ids _ (i_valid _ Ha)).
    - eexists _, _. split; [done|]. assert (Hx : ext a (push_binding (mkBinding (mkVariable n kind r) (match mode_mut mode with MutMut => true | MutNot => false end)) (mkBindingKey r n) a))
        by (split; simpl; [by apply prefix_app_r|done]).
      split; [done|]. split; [apply Inv_push; [done|done|by apply key_in]|]. split; [done|]. simpl. rewrite length_app. simpl. lia. }
  intros id b E Hb [E' Hid]. eapply (tot_bind _ _ _ (fun c _ => ext a c /\ id < length (bindings c))).
  { apply tot_modify; [by split| |].
    - apply Inv_scopes; [done|]. unfold scope_insert. pose proof (v_scopes _ (i_valid _ Hb)) as Hs. destruct (scopes b); [done|].
      inversion_clear Hs. constructor; [by apply map_Forall_insert_2|done].
    - split; [etrans; [exact E'|by split]|done]. }
  intros _ c Ec Hc [E'' Hid']. apply tot_ret; [done|]. by apply HQ.
Qed.

Lemma tot_store_binding a id v s r : Inv a -> id < length (bindings a) -> value_ok a v -> state_ok a s ->
  tot a (store_binding id v s r) (fun b t => state_ok b t).
Proof.
  intros Ha Hid Hv Hs. unfold store_binding. eapply (tot_bind _ _ _ (fun b _ => id < length (bindings b) /\ value_ok b v /\ state_ok b s)).
  { apply tot_modify; [by split| |].
    - pose proof (i_assigned _ Ha) as HA. same_inv a Ha; simpl.
      + unfold entry_insert. apply map_Forall_insert_2; [|apply Ha]. split; [done|]. set_solver.
      + intros i. unfold is_mutable in *. simpl. specialize (HA i). unfold entry_insert. rewrite lookup_insert_is_Some.
        destruct (decide (i = id)) as [->|Hne].
        * destruct (bindings a !! id) as [bi|] eqn:Eb; [|apply lookup_ge_None in Eb; lia]. clear -HA.
          destruct (mutable bi); [rewrite elem_of_union, elem_of_singleton|]; rewrite HA; clear; intuition congruence.
        * assert (Hi : i ∈ (if match bindings a !! id with Some b => mutable b | None => false end then assigned a ∪ {[id]} else assigned a) <-> i ∈ assigned a).
          { generalize (match bindings a !! id with Some b => mutable b | None => false end). intros []; [|done]. rewrite elem_of_union, elem_of_singleton. clear -Hne. tauto. }
          rewrite Hi, HA. clear -Hne. split; intros [H1 H2]; (split; [done|]); [right; split; [congruence|done]|]. destruct H2 as [?|[_ ?]]; [congruence|done].
    - split; [done|]. split; [apply value_ok_ext with a; [by split|done]|apply state_ok_ext with a; [by split|done]]. }
  intros _ b E Hb (Hid' & Hv' & Hs'). apply tot_ret; [done|]. by apply update_value_ok.
Qed.

Lemma in_messages w : w ∈ MESSAGES -> w ∈ strs.
Proof. apply messages_strs. Qed.

Ltac message := apply in_messages; unfold MESSAGES; set_solver.

Lemma may_assign_in : MAY_ASSIGN ∈ strs.
Proof. apply in_messages. left. Qed.

Lemma tot_opaque_macro a sp s : Inv a -> state_ok a s -> tot a (opaque_macro file sp s) (fun b t => state_ok b t).
Proof.
  intros Ha Hs. unfold opaque_macro. eapply (tot_bind _ _ _ (fun b _ => ext a b)); [by apply tot_record_unknown|]. intros _ b _ Hb E. lift E.
  eapply (tot_bind _ _ _ (fun c l => state_ok c s /\ forall i, i ∈ l -> i < length (bindings c))).
  { apply tot_get; [done|]. split; [done|]. intros i Hi%list_elem_of_In%List.filter_In. destruct Hi as [Hi _].
    apply list_elem_of_In, elem_of_elements in Hi. by eapply visible_valid; [apply Hb|]. }
  intros l c Ec Hc [Hsc Hl]. eapply (tot_bind _ _ _ (fun d _ => state_ok d s /\ forall i, i ∈ l -> i < length (bindings d))).
  { apply tot_modify; [by split|by apply Inv_mark|]. split; [apply state_ok_ext with c; [by split|done]|done]. }
  intros _ d Ed Hd [Hsd Hld]. apply tot_ret; [done|]. clear -Hsd Hld. induction l as [|i l IH]; simpl; [done|].
  apply update_value_ok; [apply IH; intros; apply Hld; by right|apply Hld; left|]. intros v Hv. apply add_unknown_ok; [done|apply may_assign_in].
Qed.

Lemma tot_lookup a n (Q : Analyzer -> option nat -> Prop) : Inv a -> (forall o, (forall id, o = Some id -> id < length (bindings a)) -> Q a o) -> tot a (get (lookup n)) Q.
Proof. intros Ha HQ. apply tot_get; [done|]. apply HQ. intros id. by apply lookup_valid, Ha. Qed.

(** ** Patterns *)

Lemma app_subset {X} (l1 l2 l : list X) : l1 ++ l2 ⊆ l <-> l1 ⊆ l /\ l2 ⊆ l.
Proof. set_solver. Qed.

Lemma cons_subset {X} (x : X) (l1 l : list X) : x :: l1 ⊆ l <-> x ∈ l /\ l1 ⊆ l.
Proof. set_solver. Qed.

Lemma flat_map_subset {X Y} (f : X -> list Y) l r : List.flat_map f l ⊆ r <-> Forall (fun x => f x ⊆ r) l.
Proof.
  induction l as [|x l IH]; simpl; [split; [constructor|intros _ y Hy; by apply elem_of_nil in Hy]|]. by rewrite app_subset, IH, list.Forall_cons.
Qed.

(** Split what is said of the atoms of a node. *)
Ltac split_atoms :=
  repeat match goal with
  | H : _ ++ _ ⊆ _ |- _ => apply app_subset in H; destruct H
  | H : _ :: _ ⊆ _ |- _ => apply cons_subset in H; destruct H
  | H : List.flat_map _ _ ⊆ _ |- _ => apply flat_map_subset in H
  end.

Ltac tbind Q := eapply (tot_bind _ _ _ Q).
(** Forget the intermediate analyzer: lift what is known to the next one. *)
Ltac next E := lift E; match type of E with ext ?a ?b => repeat match goal with H : Inv a |- _ => clear H end end.

Abbreviation bind_p := (bind_pattern source file from_token_lit is_uppercase).

Definition BTot (f : State -> M State) (P : Analyzer -> Prop) : Prop :=
  forall a s, Inv a -> P a -> state_ok a s -> tot a (f s) (fun b t => state_ok b t /\ reachable t = reachable s).

Lemma tot_bind_each fs P : (forall a b, ext a b -> P a -> P b) -> Forall (fun f => BTot f P) fs -> BTot (bind_each fs) P.
Proof.
  intros HP. induction 1 as [|f fs Hf _ IH]; intros a s Ha Hp Hs; simpl; [by apply tot_ret|].
  eapply tot_bind; [by apply Hf|]. intros t b E Hb [Ht Hr]. simpl. rewrite <- Hr. apply IH; eauto.
Qed.

Lemma tot_bind_pattern p : pat_atoms p ⊆ atoms -> forall kind v, BTot (bind_p p kind v) (fun a => value_ok a v).
Proof.
  apply (pat_all (fun p => pat_atoms p ⊆ atoms -> forall kind v, BTot (bind_p p kind v) (fun a => value_ok a v))).
  clear p. intros k sp IH Hat kind v.
  assert (HL : forall l, Forall (fun p => pat_atoms p ⊆ atoms -> forall kind v, BTot (bind_p p kind v) (fun a => value_ok a v)) l ->
    List.flat_map pat_atoms l ⊆ atoms -> BTot (bind_each (map (fun p => bind_p p kind v) l)) (fun a => value_ok a v)).
  { intros l Hl Hs. apply tot_bind_each; [by intros; eapply value_ok_ext|]. apply Forall_map. apply flat_map_subset in Hs.
    revert Hl Hs. rewrite !list.Forall_forall. intros Hl Hs p Hp. by apply Hl; [|apply Hs]. }
  intros a s Ha Hv Hs. destruct k; cbn [bind_pattern pat_kind_all pat_atoms] in *; split_atoms;
    try (by apply tot_ret); try (apply HL; by try apply flat_map_subset); try (by apply IH).
  - tbind (fun b id => id < length (bindings b) /\ value_ok b v /\ state_ok b s).
    { apply tot_bind_name; [done|by apply range_in|by apply name_in|]. intros b id E Hid. lift E. done. }
    intros id b E Hb (Hid & Hv' & Hs').
    match goal with |- context [if ?c then record_unknown _ _ _ else ret tt] => generalize c end. intros bare.
    tbind (fun c (_ : unit) => id < length (bindings c) /\ value_ok c v /\ state_ok c s).
    { destruct bare; [apply tot_record_unknown; [done|]; intros c Ec; pose proof (ext_length _ _ Ec); lift Ec; split_and!; [lia|done|done]|by apply tot_ret]. }
    intros _ c Ec Hc (Hid2 & Hv2 & Hs2). set (bv := if bare then add_unknown v BARE_IDENT else v).
    assert (Hbv : value_ok c bv) by (unfold bv; destruct bare; [apply add_unknown_ok; [done|message]|done]).
    assert (Hst : state_ok c (update_value id (fun _ => bv) s)) by (by apply update_value_ok).
    destruct subpattern as [p|]; simpl in IH; [|by apply tot_ret]. exact (IH ltac:(assumption) kind bv c _ Hc Hbv Hst).
  - tbind (fun b (_ : unit) => state_ok b s); [apply tot_record_unknown; [done|]; intros b E; by lift E|]. intros _ b E Hb Hs'. by apply tot_ret.
  - tbind (fun b (_ : unit) => state_ok b s); [|intros _ b E Hb Hs'; by apply tot_ret].
    destruct (is_none _); [apply tot_record_unknown; [done|]; intros b E; by lift E|by apply tot_ret].
  - tbind (fun b (_ : unit) => state_ok b s); [apply tot_record_unknown; [done|]; intros b E; by lift E|]. intros _ b E Hb Hs'.
    tbind (fun b (_ : unit) => state_ok b s); [|intros _ c Ec Hc Hs2; by apply tot_ret]. unfold mark_macro_assignments.
    tbind (fun b (_ : unit) => state_ok b s); [apply tot_record_unknown; [done|]; intros c Ec; by lift Ec|]. intros _ c Ec Hc Hs2.
    apply tot_modify; [by split|by apply Inv_mark|]. apply state_ok_ext with c; [by split|done].
Qed.

(** ** Expressions *)

Definition VS (a : Analyzer) (p : Value * State) : Prop := value_ok a p.1 /\ state_ok a p.2.

Definition ATot (f : Analysis) : Prop :=
  forall a active s, Inv a -> active_ok a active -> state_ok a s -> tot a (f active s) VS.

(** A node is analyzed in a reachable state only. *)
Definition KTot (f : Analysis) : Prop :=
  forall a active s, Inv a -> active_ok a active -> state_ok a s -> reachable s = true -> tot a (f active s) VS.

Lemma KTot_of f : ATot f -> KTot f.
Proof. intros H a active s ? ? ? _. by apply H. Qed.

Lemma VS_ext a b p : ext a b -> VS a p -> VS b p.
Proof. intros E [? ?]. lift E. done. Qed.

(** Run a part and go on with its value and state. *)
Ltac tpart := eapply tot_bind; [solve [eauto] | let v := fresh "v" in let t := fresh "t" in let b := fresh "b" in let E := fresh "E" in
  intros [v t] b E ? [? ?]; cbn [fst snd] in *; lift E].

Lemma ATot_live f : KTot f -> ATot (analyze_live f).
Proof.
  intros H a active s Ha Hact Hs. unfold analyze_live. destruct (reachable s) eqn:Er; [|apply tot_ret; [done|split; [apply empty_value_ok|done]]].
  tpart. apply tot_ret; [done|]. split; [|done]. apply add_controls_ok; [done|by apply active_set_ok].
Qed.

Lemma tot_opt o : opt_all ATot o -> ATot (analyze_opt o).
Proof. intros Ho a active s Ha Hact Hs. destruct o; [by apply Ho|]. apply tot_ret; [done|]. split; [apply empty_value_ok|done]. Qed.

Lemma tot_merge_each fs : Forall ATot fs -> forall v a active s, Inv a -> value_ok a v -> active_ok a active -> state_ok a s ->
  tot a (merge_each fs v active s) VS.
Proof.
  induction 1 as [|f fs Hf _ IH]; intros v a active s Ha Hv Hact Hs; simpl; [by apply tot_ret|].
  tpart. apply IH; auto using value_merge_ok.
Qed.

Definition literals_in (ls : gset LiteralFact) : Prop := forall l, l ∈ ls -> literal_in source file atoms l.

Lemma tot_args txt fs : txt ∈ strs -> Forall ATot fs -> forall v ls a active s, Inv a -> value_ok a v -> literals_in ls -> active_ok a active -> state_ok a s ->
  tot a (analyze_args txt fs v ls active s) (fun b p => value_ok b p.1.1 /\ literals_in p.1.2 /\ state_ok b p.2).
Proof.
  intros Ht. induction 1 as [|f fs Hf _ IH]; intros v ls a active s Ha Hv Hl Hact Hs; simpl; [by apply tot_ret|].
  tpart. assert (Hm : literals_in (map_literals (relate_call txt) (literal_facts v0))).
  { unfold literals_in. apply map_literals_in; [by eapply vo_literals|]. intros l. by apply relate_call_in. }
  apply IH; [done| | |done|done].
  - apply add_literals_ok; [|done]. by apply value_merge_ok; [|apply clear_literals_ok].
  - intros l. rewrite elem_of_union. intros [?|?]; auto.
Qed.

Definition span_ok (sp : Span) : Prop := ASpan sp ∈ atoms.

Lemma span_text sp : span_ok sp -> text source file sp ∈ strs.
Proof. intros H. by apply words_strs, text_in. Qed.

Lemma literals_empty : literals_in ∅.
Proof. intros l. set_solver. Qed.

Lemma KTot_call sp f fs : span_ok sp -> ATot f -> Forall ATot fs -> KTot (analyze_call source file sp f fs).
Proof.
  intros Hsp Hf Hfs a active s Ha Hact Hs _. unfold analyze_call. tpart.
  eapply tot_bind; [apply tot_args; eauto using span_text, literals_empty|]. intros [[w l] u] c Ec Hc (? & ? & ?). by apply tot_ret.
Qed.

Lemma format_in pre post w : (pre, post) ∈ FORMATS -> w ∈ u_words source file atoms -> pre ++ w ++ post ∈ strs.
Proof. apply format_strs. Qed.

Lemma KTot_method_call seg e f fs : span_ok (expr_span e) -> AWord (name seg) ∈ atoms -> ATot f -> Forall ATot fs ->
  KTot (analyze_method_call source file seg e f fs).
Proof.
  intros Hsp Hn Hf Hfs a active s Ha Hact Hs _. unfold analyze_method_call. tpart.
  eapply tot_bind; [apply tot_args; eauto using span_text, literals_empty|]. intros [[w l] u] c Ec Hc (Hw & Hl & Hu). cbn [fst snd] in *.
  tbind (fun d o => VS d (w, u) /\ forall id, o = Some id -> id < length (bindings d)).
  { apply tot_get; [done|]. split; [done|]. intros id. unfold opt_bind. destruct (simple_name e); [|done]. apply lookup_valid, Hc. }
  intros o d Ed Hd [[Hw' Hu'] Ho]. apply tot_ret; [done|]. split; cbn [fst snd] in *.
  - apply add_unknown_ok; [done|]. apply format_in; [right; right; left|by apply word_atom_in].
  - destruct o as [id|]; [|done]. apply update_value_ok; [done|by apply Ho|]. intros x Hx. by apply add_literals_ok.
Qed.

Lemma KTot_two f g : ATot f -> ATot g -> KTot (analyze_two f g).
Proof. intros Hf Hg a active s Ha Hact Hs _. unfold analyze_two. tpart. tpart. apply tot_ret; [done|]. split; [by apply value_merge_ok|done]. Qed.

Lemma KTot_many fs v : Forall ATot fs -> (forall a, value_ok a v) -> KTot (merge_each fs v).
Proof. intros Hfs Hv a active s Ha Hact Hs _. by apply tot_merge_each. Qed.

(** A condition: record it and extend the active controls. *)
Lemma span_range sp : span_ok sp -> range file sp ∈ ranges.
Proof. apply range_in. Qed.

Lemma tot_control a sp k c v (Q : Analyzer -> unit -> Prop) : Inv a -> span_ok sp -> value_ok a v ->
  (forall b, ext a b -> known_key b (control_key file sp k) -> Q b tt) -> tot a (record_control (control_key file sp k) c v) Q.
Proof. intros Ha Hsp Hv HQ. apply tot_record_control; [done|done|by apply range_in|done]. Qed.

Ltac tcontrol sp k :=
  tbind (fun b (_ : unit) => known_key b (control_key file sp k)); [apply tot_control; solve [eauto] | let E := fresh "E" in intros ? ? E ? ?; lift E].

Lemma KTot_binary op sp lsp rsp f g : span_ok sp -> span_ok lsp -> span_ok rsp -> ATot f -> ATot g ->
  KTot (analyze_binary source file op sp lsp rsp f g).
Proof.
  intros Hsp Hl Hr Hf Hg a active s Ha Hact Hs _. unfold analyze_binary. tpart. destruct (is_short_circuit op).
  - tcontrol lsp CkShortCircuit. eapply tot_bind; [apply Hg; auto using extend_active_ok|]. intros [w u] c Ec Hc [? ?]. lift Ec. simpl in *.
    apply tot_ret; [done|]. split; [by apply value_merge_ok|by apply state_merge_ok].
  - tpart. apply tot_ret; [done|]. split; [|done]. simpl. pose proof (value_merge_ok _ _ _ H0 H3). destruct (is_comparison op); [|done].
    repeat (apply add_literals_ok; [|apply map_literals_in; [by eapply vo_literals|]; intros l; apply relate_comparison_in; by apply span_text]). done.
Qed.

Lemma KTot_ret sp rsp o : opt_all ATot o -> KTot (analyze_ret source file sp rsp o).
Proof.
  intros Ho a active s Ha Hact Hs _. apply tot_opt in Ho. unfold analyze_ret. tpart.
  tbind (fun b (_ : unit) => state_ok b t); [apply tot_record_exit; [done|done|by apply active_set_ok|]; intros c Ec; by lift Ec|].
  intros _ c Ec Hc Ht. apply tot_ret; [done|]. split; [apply empty_value_ok|by apply kill_ok].
Qed.

Lemma KTot_try sp isp f : span_ok sp -> ATot f -> KTot (analyze_try source file sp isp f).
Proof.
  intros Hsp Hf a active s Ha Hact Hs _. unfold analyze_try. tpart. tcontrol sp CkTry.
  tbind (fun c (_ : unit) => VS c (v, t) /\ known_key c (control_key file sp CkTry)).
  { apply tot_record_exit; [done|done| |intros c Ec; lift Ec; done]. intros key. rewrite !elem_of_union, elem_of_singleton.
    intros [[Hk|Hk]| ->]; [by eapply vo_controls|by eapply active_set_ok|done]. }
  intros _ c Ec Hc [[? ?] ?]. apply tot_ret; [done|]. split; [|done]. apply add_controls_ok; [done|]. intros k ->%elem_of_singleton. done.
Qed.

Lemma tot_flow a (g : LoopFlow -> LoopFlow) (Q : Analyzer -> unit -> Prop) : Inv a -> (forall f, flow_ok a f -> flow_ok a (g f)) ->
  (forall b, ext a b -> Q b tt) ->
  tot a (modify (set_loops (fun l => match l with flow :: outer => g flow :: outer | [] => [] end))) Q.
Proof.
  intros Ha Hg HQ. apply tot_modify; [by split| |by apply HQ; split]. apply Inv_loops; [done|]. pose proof (i_loops _ Ha) as Hl.
  destruct (loops a); [done|]. inversion_clear Hl. constructor; auto.
Qed.

Lemma KTot_break sp label o : opt_all ATot o -> KTot (analyze_break file sp label o).
Proof.
  intros Ho a active s Ha Hact Hs _. apply tot_opt in Ho. unfold analyze_break. tpart.
  tbind (fun b (_ : nat) => VS b (v, t)); [by apply tot_get|]. intros n c Ec Hc [? ?]. simpl in *.
  tbind (fun b (_ : unit) => state_ok b t).
  { destruct label; [apply tot_record_unknown; [done|]; intros d Ed; by lift Ed|]. destruct n; [apply tot_record_unknown; [done|]; intros d Ed; by lift Ed|].
    apply (tot_flow _ (fun f => merge_break f t v)); [done| |intros d Ed; by lift Ed]. intros f [? ? ?]. split; simpl; auto using merge_into_ok, value_merge_ok. }
  intros _ d Ed Hd Ht. apply tot_ret; [done|]. split; [apply empty_value_ok|by apply kill_ok].
Qed.

Lemma KTot_continue sp label : KTot (analyze_continue file sp label).
Proof.
  intros a active s Ha Hact Hs _. unfold analyze_continue.
  tbind (fun b (_ : nat) => state_ok b s); [by apply tot_get|]. intros n c Ec Hc ?. simpl in *.
  tbind (fun b (_ : unit) => state_ok b s).
  { destruct label; [apply tot_record_unknown; [done|]; intros d Ed; by lift Ed|]. destruct n; [apply tot_record_unknown; [done|]; intros d Ed; by lift Ed|].
    apply (tot_flow _ (fun f => merge_continue f s)); [done| |intros d Ed; by lift Ed]. intros f [? ? ?]. split; simpl; auto using merge_into_ok. }
  intros _ d Ed Hd Ht. apply tot_ret; [done|]. split; [apply empty_value_ok|by apply kill_ok].
Qed.

Lemma KTot_unmodelled sp why : why ∈ MESSAGES -> KTot (unmodelled file sp why).
Proof.
  intros Hw a active s Ha Hact Hs _. unfold unmodelled. tbind (fun b (_ : unit) => state_ok b s); [apply tot_record_unknown; [done|]; intros b E; by lift E|].
  intros _ b E Hb ?. apply tot_ret; [done|]. split; [by apply unknown_value_ok, in_messages|done].
Qed.

Lemma KTot_yeet sp o : opt_all ATot o -> KTot (analyze_yeet file sp o).
Proof.
  intros Ho a active s Ha Hact Hs _. apply tot_opt in Ho. unfold analyze_yeet. tpart.
  tbind (fun b (_ : unit) => VS b (v, t)); [apply tot_record_unknown; [done|]; intros c Ec; by lift Ec|].
  intros _ c Ec Hc [? ?]. apply tot_ret; [done|]. split; [apply add_unknown_ok; [done|message]|done].
Qed.

Lemma KTot_pure v : (forall a, value_ok a v) -> KTot (fun _ s => ret (v, s)).
Proof. intros Hv a active s Ha Hact Hs _. by apply tot_ret. Qed.

Lemma KTot_path b p : path_atoms p ⊆ atoms -> KTot (fun _ s => let! value := read_path source file b p s in ret (value, s)).
Proof.
  intros Hp a active s Ha Hact Hs _. unfold path_atoms in Hp. split_atoms. unfold read_path.
  tbind (fun d v => VS d (v, s)); [|intros v d E Hd ?; by apply tot_ret].
  tbind (fun d o => state_ok d s /\ forall id, o = Some id -> id < length (bindings d)).
  { apply tot_get; [done|]. split; [done|]. intros id. destruct b; [|done]. destruct (segments p) as [|seg [|]]; try done. apply lookup_valid, Ha. }
  intros [id|] d Ed Hd [Hs' Hid]; apply tot_ret; try done; split; cbn [fst snd]; try done.
  - apply read_binding_ok; auto using range_in.
  - apply unknown_value_ok, format_in; [left|by apply text_in].
Qed.

Lemma KTot_macro sp v : (forall a, value_ok a v) -> KTot (fun _ s => let! s := opaque_macro file sp s in ret (v, s)).
Proof. intros Hv a active s Ha Hact Hs _. eapply tot_bind; [by apply tot_opaque_macro|]. intros t b E Hb Ht. by apply tot_ret. Qed.

(** ** Loops *)

Lemma bindings_bound a : Inv a -> length (bindings a) <= length keys.
Proof.
  intros Ha. rewrite (i_length _ Ha), <- size_dom. unfold size, set_size. simpl. apply submseteq_length, NoDup_submseteq; [apply NoDup_elements|].
  intros k Hk%elem_of_elements. by apply Ha.
Qed.

Lemma state_in_bound a s : Inv a -> state_ok a s -> length (values s) <= length keys /\ Forall (value_in source file atoms (length keys)) (values s).
Proof.
  intros Ha [Hl Hv]. pose proof (bindings_bound a Ha). split; [lia|]. revert Hv. apply Forall_impl. intros v [? Hc ? ?]. split; [by eapply data_in_mono| |done|done].
  intros k Hk. by destruct (Hc k Hk).
Qed.

Definition bound : nat := max_weight source file atoms (length keys).

Definition out_ok (a : Analyzer) (o : LoopOut) : Prop :=
  opt_all (state_ok a) (after_loop o) /\ value_ok a (out_value o) /\ state_ok a (condition_state o).

Lemma out_ok_ext a b o : ext a b -> out_ok a o -> out_ok b o.
Proof. intros E (? & ? & ?). split_and!; [destruct (after_loop o); simpl in *|..]; eauto using state_ok_ext, value_ok_ext. Qed.

Lemma leave_ok a o f t : out_ok a o -> flow_ok a f -> state_ok a t -> out_ok a (leave o f t).
Proof.
  intros (? & ? & ?) [? ? ?] ?. unfold leave. destruct (breaks f); simpl in *; split_and!; simpl; auto using merge_into_ok, value_merge_ok.
Qed.

Lemma backedge_ok a u f : state_ok a u -> flow_ok a f -> state_ok a (backedge u f).
Proof. intros ? [? ? ?]. unfold backedge. destruct (continues f); simpl in *; auto using state_merge_ok. Qed.

Lemma next_head_ok a e u : state_ok a e -> state_ok a u -> state_ok a (next_head e u).
Proof. intros. unfold next_head. destruct (reachable u); auto using state_merge_ok. Qed.

Definition RTot (P : Analyzer -> Prop) (round : State -> M (State * State * LoopFlow)) : Prop :=
  forall a s, Inv a -> P a -> state_ok a s -> tot a (round s) (fun b p => state_ok b p.1.1 /\ state_ok b p.1.2 /\ flow_ok b p.2).

Section RunLoop.
Context (P : Analyzer -> Prop) (round : State -> M (State * State * LoopFlow)) (entry : State).
Hypothesis HP : forall a b, ext a b -> P a -> P b.
Hypothesis HG : forall s, Grow true (round s).
Hypothesis HM : forall s t, state_le s t -> Mono true round_le (round s) (round t).
Hypothesis HT : RTot P round.
Hypothesis He : reachable entry = true.

(** The head of a round: the entry, or what the previous round led to. *)
Definition led (a : Analyzer) (head : State) : Prop :=
  head = entry \/ exists a0 h t u f, Valid a0 /\ round h a0 = Some ((t, u, f), a) /\ head = next_head entry (backedge u f) /\ state_le h head.

Lemma head_increases a head t u f b : Inv a -> led a head -> round head a = Some ((t, u, f), b) ->
  state_le head (next_head entry (backedge u f)).
Proof.
  intros Ha [->|(a0 & h & t0 & u0 & f0 & V0 & E0 & Eh & Hle)] E; [apply next_head_above|].
  destruct (HG _ _ _ _ E0) as (G0 & _ & S0). destruct (HG _ _ _ _ E) as (G & _ & _).
  destruct (HM _ _ Hle (mkBound (bindings b) (binding_ids b) (loops b)) _ _ _ _ _ _ E0 E) as ((_ & Hu & Hf) & _).
  - done.
  - apply Ha.
  - done.
  - unfold under. simpl. etrans; [apply G0|apply G].
  - unfold under. reflexivity.
  - split; apply G.
  - by split.
  - rewrite Eh at 1. apply next_head_mono; [done|]. by apply backedge_mono.
Qed.

Lemma tot_run_loop n : forall a out head, Inv a -> P a -> state_ok a entry -> state_ok a head -> out_ok a out -> state_le entry head -> led a head ->
  bound - weight source file atoms (length keys) head < n ->
  tot a (run_loop n round entry out head) (fun b p => out_ok b p.1 /\ state_ok b p.2).
Proof.
  induction n as [|n IH]; intros a out head Ha Hp Hen Hh Ho Hle Hled Hn; [lia|]. cbn [run_loop].
  destruct (HT a head Ha Hp Hh) as ([[t u] f] & b & E & Eb & Hb & Ht & Hu & Hf). cbn [fst snd] in *.
  pose proof (head_increases _ _ _ _ _ _ Ha Hled E) as Hinc. apply (state_ok_ext _ _ _ Eb) in Hen as Hen', Hh as Hh'.
  pose proof (next_head_ok _ _ _ Hen' (backedge_ok _ _ _ Hu Hf)) as Hnx. set (nx := next_head entry (backedge u f)) in *.
  pose proof (leave_ok _ _ _ _ (out_ok_ext _ _ _ Eb Ho) Hf Ht) as Ho'.
  eapply (tot_bind _ _ _ (fun c p => c = b /\ p = (t, u, f))); [by exists (t, u, f), b|]. intros ? ? _ _ [-> ->].
  case_bool_decide as Hd; [by apply tot_ret|].
  apply IH; [done|by eapply HP|done|done|done|by etrans|right; exists a, head, t, u, f; split_and!; try done; apply Ha|].
  assert (Hr : reachable head = true) by (by eapply state_le_live).
  destruct (state_in_bound b nx Hb Hnx) as [Hl Hv].
  pose proof (weight_lt source file atoms (length keys) head nx Hr Hinc (not_eq_sym Hd) Hl Hv).
  pose proof (weight_max source file atoms (length keys) nx). unfold bound in *. subst nx. lia.
Qed.
End RunLoop.

(** ** Branches *)

Lemma VS_scopes b p f : VS b p -> VS (set_scopes f b) p.
Proof. apply VS_ext. by split. Qed.

Definition pat_opt_ok (p : option Pat) : Prop := match p with Some p => pat_atoms p ⊆ atoms | None => True end.

Abbreviation let_b := (let_block source file from_token_lit is_uppercase).

Lemma tot_let_block p v f a active s : pat_opt_ok p -> ATot f -> Inv a -> value_ok a v -> active_ok a active -> state_ok a s ->
  tot a (let_b p v f active s) VS.
Proof.
  intros Hp Hf Ha Hv Hact Hs. unfold let_block. destruct p as [p|]; [|by apply Hf].
  apply tot_with_scope; [done| |intros; by apply VS_scopes]. intros b Hb E. lift E.
  eapply tot_bind; [by apply tot_bind_pattern|]. intros t c Ec Hc [Ht _]. lift Ec. by apply Hf.
Qed.

Lemma KTot_if csp p c t o : span_ok csp -> pat_opt_ok p -> ATot c -> ATot t -> opt_all ATot o ->
  KTot (analyze_if source file from_token_lit is_uppercase csp p c t o).
Proof.
  intros Hsp Hp Hc Ht Ho a active s Ha Hact Hs _. apply tot_opt in Ho. unfold analyze_if. tpart. tcontrol csp CkBranch.
  assert (Hea : active_ok b0 (extend_active active v (control_key file csp CkBranch))) by auto using extend_active_ok.
  eapply tot_bind; [by apply tot_let_block|]. intros [v1 s1] d Ed Hd [? ?]. cbn [fst snd] in *. lift Ed. tpart.
  apply tot_ret; [done|]. split; [by apply value_merge_ok|by apply state_merge_ok].
Qed.

Definition arm_tot (arm : ArmParts) : Prop :=
  span_ok (arm_range arm) /\ pat_atoms (arm_pat arm) ⊆ atoms /\
  opt_all (fun g => span_ok g.1 /\ ATot g.2) (arm_guard arm) /\ opt_all ATot (arm_body arm).

(** The literals of the patterns are recorded with the control and do not become part of a value. *)
Lemma tot_control_literals a sp k c v ls (Q : Analyzer -> unit -> Prop) : Inv a -> span_ok sp -> value_ok a v ->
  (forall b, ext a b -> known_key b (control_key file sp k) -> Q b tt) -> tot a (record_control (control_key file sp k) c (add_literals v ls)) Q.
Proof.
  intros Ha Hsp Hv HQ. unfold record_control. set (g := set_controls _).
  set (old := default empty_control (a_controls a !! control_key file sp k)).
  set (fact := mkControlFact (match cf_condition old with [] => c | c => c end) (merge_data (cf_operands old) (data v)) (cf_unknowns old ∪ unknowns v)
    (cf_literal_facts old ∪ (literal_facts v ∪ ls))).
  assert (Eg : g a = set_controls (insert (control_key file sp k) fact) a) by reflexivity.
  destruct (Inv_controls a (control_key file sp k) fact Ha) as [Hi He].
  { simpl. apply merge_data_in; [|apply Hv]. unfold old. destruct (a_controls a !! _) eqn:E; simpl; [by eapply (i_controls _ Ha)|apply map_Forall_empty]. }
  apply tot_modify; rewrite ?Eg; [done|done|]. apply HQ; [done|]. split; [by apply range_in|]. simpl. by rewrite lookup_insert_eq.
Qed.

Abbreviation an_arm := (analyze_arm source file from_token_lit is_uppercase).
Abbreviation an_arms := (analyze_arms source file from_token_lit is_uppercase).

Lemma tot_arm t v base a active arm : arm_tot arm -> Inv a -> value_ok a v -> state_ok a base -> active_ok a active -> tot a (an_arm t v base active arm) VS.
Proof.
  intros (Hsp & Hp & Hg & Hb) Ha Hv Hs Hact. apply tot_opt in Hb. unfold analyze_arm.
  tbind (fun b (_ : unit) => known_key b (control_key file (arm_range arm) CkMatch)); [by apply tot_control_literals|]. intros _ b E Hib Hk. lift E.
  apply tot_with_scope; [done| |intros; by apply VS_scopes]. intros c Hc Ec. lift Ec.
  eapply tot_bind; [by apply tot_bind_pattern|]. intros s d Ed Hd [Hsd _]. lift Ed.
  pose proof (extend_active_ok _ _ _ _ Hact Hv Hk) as Hea.
  tbind (fun e p => active_ok e p.1 /\ state_ok e p.2).
  { destruct (arm_guard arm) as [[gsp g]|]; simpl in Hg; [|by apply tot_ret]. destruct Hg as [Hgs Hgt]. tpart. tcontrol gsp CkBranch.
    apply tot_ret; [done|]. split; [|done]. by apply extend_active_ok. }
  intros [l u] e Ee He [? ?]. by apply Hb.
Qed.

Lemma tot_arms t arms : Forall arm_tot arms -> forall v base a active j r, Inv a -> value_ok a v -> state_ok a base -> active_ok a active ->
  opt_all (state_ok a) j -> value_ok a r -> tot a (an_arms t v base active arms j r) (fun b p => value_ok b p.1 /\ opt_all (state_ok b) p.2).
Proof.
  induction 1 as [|arm arms Harm _ IH]; intros v base a active j r Ha Hv Hs Hact Hj Hr; cbn [analyze_arms]; [by apply tot_ret|].
  eapply tot_bind; [by apply tot_arm|]. intros [w u] b E Hb [? ?]. cbn [fst snd] in *. lift E. apply IH; auto using value_merge_ok.
  apply merge_into_ok; [|done]. destruct j; simpl in *; eauto using state_ok_ext.
Qed.

Lemma KTot_match ssp f arms : ATot f -> Forall arm_tot arms -> KTot (analyze_match source file from_token_lit is_uppercase ssp f arms).
Proof.
  intros Hf Harms a active s Ha Hact Hs _. unfold analyze_match. tpart.
  eapply tot_bind; [apply tot_arms; try done; apply empty_value_ok|]. intros [r j] c Ec Hc [? Hj]. cbn [fst snd] in *. lift Ec.
  apply tot_ret; [done|]. split; [done|]. by destruct j.
Qed.

(** ** Assignments *)

Definition target_ok (a : Analyzer) (p : Target * State) : Prop :=
  let '(i, v, _, s) := p in value_ok a v /\ state_ok a s /\ forall id, i = Some id -> id < length (bindings a).

Definition TTot (f : list ControlKey -> State -> M (Target * State)) : Prop :=
  forall a active s, Inv a -> active_ok a active -> state_ok a s -> tot a (f active s) target_ok.

Lemma id_ext a b (i : option nat) : ext a b -> (forall id, i = Some id -> id < length (bindings a)) -> forall id, i = Some id -> id < length (bindings b).
Proof. intros E H id Hi. specialize (H id Hi). pose proof (ext_length _ _ E). lia. Qed.

Lemma read_target_ok a i v sp s : value_ok a v -> state_ok a s -> (forall id, i = Some id -> id < length (bindings a)) -> span_ok sp ->
  value_ok a (read_target file i v sp s).
Proof. intros Hv Hs Hi Hsp. unfold read_target. destruct i; [|done]. apply value_merge_ok; [done|]. apply read_binding_ok; auto using range_in. Qed.

Lemma TTot_path n : AWord n ∈ atoms -> TTot (fun _ s => target_path n s).
Proof.
  intros Hn a active s Ha Hact Hs. unfold target_path. tbind (fun b o => state_ok b s /\ forall id, o = Some id -> id < length (bindings b)).
  { apply tot_lookup; [done|]. auto. }
  intros [id|] b E Hb [Hsb Hid]; apply tot_ret; try done; split_and!; try done.
  apply unknown_value_ok, format_in; [left|by apply word_atom_in].
Qed.

Lemma TTot_unknown why sp f : why ∈ MESSAGES -> ATot f -> TTot (target_unknown file why sp f).
Proof.
  intros Hw Hf a active s Ha Hact Hs. unfold target_unknown. tpart.
  tbind (fun b (_ : unit) => VS b (v, t)); [apply tot_record_unknown; [done|]; intros c Ec; by lift Ec|].
  intros _ c Ec Hc [? ?]. apply tot_ret; [done|]. split_and!; [by apply add_unknown_ok; [|apply in_messages]|done|done].
Qed.

Lemma TTot_field bsp f : span_ok bsp -> TTot f -> TTot (target_field file bsp f).
Proof.
  intros Hsp Hf a active s Ha Hact Hs. unfold target_field. eapply tot_bind; [by apply Hf|].
  intros [[[i v] d] u] b E Hb (Hv & Hu & Hi). apply tot_ret; [done|]. split_and!; [by apply read_target_ok|done|done].
Qed.

Lemma TTot_index bsp f g : span_ok bsp -> TTot f -> ATot g -> TTot (target_index file bsp f g).
Proof.
  intros Hsp Hf Hg a active s Ha Hact Hs. unfold target_index. eapply tot_bind; [by apply Hf|].
  intros [[[i v] d] u] b E Hb (Hv & Hu & Hi). lift E. eapply tot_bind; [by apply Hg|]. intros [w t] c Ec Hc [? ?]. cbn [fst snd] in *. lift Ec.
  pose proof (id_ext _ _ _ Ec Hi). apply tot_ret; [done|]. split_and!; [apply read_target_ok; auto using value_merge_ok|done|done].
Qed.

Lemma KTot_assignment sp psp compound f g : span_ok psp -> TTot f -> ATot g -> KTot (analyze_assignment file sp psp compound f g).
Proof.
  intros Hsp Hf Hg a active s Ha Hact Hs _. unfold analyze_assignment. eapply tot_bind; [by apply Hf|].
  intros [[[i v] d] u] b E Hb (Hv & Hu & Hi). lift E. eapply tot_bind; [by apply Hg|]. intros [w t] c Ec Hc [? ?]. cbn [fst snd] in *. lift Ec.
  pose proof (id_ext _ _ _ Ec Hi) as Hi'. pose proof (value_merge_ok _ _ _ H Hv). destruct i as [id|].
  - eapply tot_bind; [apply tot_store_binding; [done|by apply Hi'| |done]|].
    + apply add_controls_ok; [|by apply active_set_ok]. destruct (compound || negb d); [|done]. apply value_merge_ok; [done|]. apply read_binding_ok; auto using range_in.
    + intros x e Ee He Hx. apply tot_ret; [done|]. split; [apply empty_value_ok|done].
  - tbind (fun e (_ : unit) => state_ok e t); [apply tot_record_unknown; [done|]; intros e Ee; by lift Ee|].
    intros _ e Ee He Hx. apply tot_ret; [done|]. split; [apply empty_value_ok|done].
Qed.

(** ** The three loop forms *)

Hypothesis Hfuel : bound < fuel.

Lemma VS_loops b p f : VS b p -> VS (set_loops f b) p.
Proof. apply VS_ext. by split. Qed.

Lemma RTot_while csp sp p c b active : span_ok sp -> pat_opt_ok p -> ATot c -> ATot b ->
  RTot (fun a => active_ok a active) (while_round source file from_token_lit is_uppercase csp sp p c b active).
Proof.
  intros Hsp Hp Hc Hb a s Ha Hact Hs. unfold while_round. tpart. tcontrol sp CkLoop.
  eapply tot_bind; [apply (tot_in_loop _ _ VS); [done| |intros; by apply VS_loops]|].
  { intros d Hd Ed. lift Ed. apply tot_let_block; auto using extend_active_ok. }
  intros [[v1 s1] f] d Ed Hd [[? ?] ?]. lift Ed. by apply tot_ret.
Qed.

Lemma RTot_loop b active : ATot b -> RTot (fun a => active_ok a active) (loop_round b active).
Proof.
  intros Hb a s Ha Hact Hs. unfold loop_round. eapply tot_bind; [apply (tot_in_loop _ _ VS); [done| |intros; by apply VS_loops]|].
  { intros d Hd Ed. lift Ed. by apply Hb. }
  intros [[v1 s1] f] d Ed Hd [[? ?] ?]. lift Ed. by apply tot_ret.
Qed.

Definition for_ok (active : list ControlKey) (v : Value) (key : ControlKey) (a : Analyzer) : Prop :=
  active_ok a active /\ value_ok a v /\ known_key a key.

Lemma for_ok_ext active v key a b : ext a b -> for_ok active v key a -> for_ok active v key b.
Proof. intros E (? & ? & ?). lift E. done. Qed.

Lemma RTot_for pat key v b active : pat_atoms pat ⊆ atoms -> ATot b ->
  RTot (for_ok active v key) (for_round source file from_token_lit is_uppercase pat key v b active).
Proof.
  intros Hp Hb a s Ha (Hact & Hv & Hk) Hs. unfold for_round. apply tot_with_scope; [done| |].
  - intros c Hc Ec. lift Ec. eapply tot_bind; [by apply tot_bind_pattern|]. intros t d Ed Hd [Ht _]. lift Ed.
    eapply tot_bind; [apply (tot_in_loop _ _ VS); [done| |intros; by apply VS_loops]|].
    { intros e He Ee. lift Ee. apply Hb; auto using extend_active_ok. }
    intros [[v1 s1] f] e Ee He [[? ?] ?]. lift Ee. by apply tot_ret.
  - intros c [[t u] f] (? & ? & ?). cbn [fst snd] in *. assert (E : ext c (set_scopes tail c)) by (by split). lift E. split_and!; try done. by eapply flow_ok_ext.
Qed.

(** A round of a [for] whose iterator does not return: nothing happens. *)
Lemma for_round_dead pat key v b active a s : pat_atoms pat ⊆ atoms -> AMono b -> Inv a -> value_ok a v -> state_ok a s -> reachable s = false ->
  tot a (for_round source file from_token_lit is_uppercase pat key v b active s) (fun _ p => p.1.1 = s /\ reachable p.1.2 = false /\ p.2 = empty_flow).
Proof.
  intros Hp Hb Ha Hv Hs Hr. unfold for_round. apply tot_with_scope; [done| |done]. intros c Hc Ec. lift Ec.
  eapply tot_bind; [by apply tot_bind_pattern|]. intros t d Ed Hd [Ht Hrt].
  tbind (fun (_ : Analyzer) (p : Value * State * LoopFlow) => reachable p.1.2 = false /\ p.2 = empty_flow).
  - exists (empty_value, t, empty_flow), d. split; [|split; [done|split; [done|split; [simpl; congruence|done]]]].
    unfold in_loop, bind, modify. rewrite (am_inert b Hb) by congruence. simpl. by destruct d.
  - intros [[w u] f] e Ee He [? ?]. by apply tot_ret.
Qed.

Lemma fuel_enough head : bound - weight source file atoms (length keys) head < fuel.
Proof. lia. Qed.

Lemma KTot_while csp sp p c b : span_ok csp -> span_ok sp -> pat_opt_ok p -> ATot c -> ATot b -> AMono c -> AMono b ->
  KTot (analyze_while source file from_token_lit is_uppercase fuel csp sp p c b).
Proof.
  intros Hcs Hsp Hp Hc Hb Mc Mb a active s Ha Hact Hs Hr. unfold analyze_while. eapply tot_bind.
  - apply (tot_run_loop (fun a => active_ok a active)); auto using RTot_while, Mono_while_round, fuel_enough.
    + intros; by eapply active_ok_ext.
    + intros. apply Grow_while_round; auto with depend.
    + split_and!; [done|apply empty_value_ok|done].
    + done.
    + by left.
  - intros [o h] d Ed Hd [(? & ? & ?) ?]. cbn [fst snd] in *. apply tot_ret; [done|]. split; [done|]. cbn [snd].
    pose proof (merge_into_ok d (after_loop o) (condition_state o)) as Hm. destruct (merge_into _ _); simpl in *; auto using kill_ok.
Qed.

Lemma KTot_loop b : ATot b -> AMono b -> KTot (analyze_loop fuel b).
Proof.
  intros Hb Mb a active s Ha Hact Hs Hr. unfold analyze_loop. eapply tot_bind.
  - apply (tot_run_loop (fun a => active_ok a active)); auto using RTot_loop, Mono_loop_round, fuel_enough.
    + intros; by eapply active_ok_ext.
    + intros. apply Grow_loop_round; auto with depend.
    + split_and!; [done|apply empty_value_ok|done].
    + done.
    + by left.
  - intros [o h] d Ed Hd [(? & ? & ?) ?]. cbn [fst snd] in *. apply tot_ret; [done|]. split; [done|]. cbn [snd].
    destruct (after_loop o); simpl in *; auto using kill_ok.
Qed.

Lemma KTot_for pat isp i b : pat_atoms pat ⊆ atoms -> span_ok isp -> ATot i -> ATot b -> AMono b ->
  KTot (analyze_for source file from_token_lit is_uppercase fuel pat isp i b).
Proof.
  intros Hp Hsp Hi Hb Mb a active s Ha Hact Hs _. unfold analyze_for. tpart. tcontrol isp CkLoop.
  set (key := control_key file isp CkLoop) in *. set (out := mkOut (Some t) empty_value t).
  assert (Ho : out_ok b1 out) by (split_and!; [done|apply empty_value_ok|done]).
  tbind (fun c p => out_ok c p.1 /\ state_ok c p.2).
  - destruct (reachable t) eqn:Er.
    + apply (tot_run_loop (for_ok active v key)); auto using RTot_for, Mono_for_round, fuel_enough.
      * intros; by eapply for_ok_ext.
      * intros. apply Grow_for_round; auto with depend.
      * intros. by apply Mono_for_round.
      * by unfold for_ok.
      * done.
      * by left.
    + destruct (for_round_dead pat key v b active b1 t) as ([[t' u] f] & c & E' & Ec & Hc & Et & Hu & Ef); try done. cbn [fst snd] in *. subst t' f.
      destruct fuel as [|n]; [lia|]. exists (mkOut (Some t) empty_value t, t), c. split; [|split; [done|split; [done|]]].
      * cbn [run_loop]. unfold bind. rewrite E'. unfold next_head, backedge. simpl. rewrite Hu. by rewrite bool_decide_true.
      * split; [by eapply out_ok_ext|by eapply state_ok_ext].
  - intros [o h] d Ed Hd [(Hal & ? & ?) ?]. cbn [fst snd] in *. apply tot_ret; [done|]. split; [done|]. cbn [snd].
    destruct (after_loop o); simpl in *; auto using kill_ok, state_merge_ok.
Qed.

(** ** The tree *)

Abbreviation e_atoms := (expr_atoms from_token_lit).
Abbreviation b_atoms := (block_atoms from_token_lit).
Abbreviation t_expr := (analyze_expr source file from_token_lit is_uppercase fuel).
Abbreviation t_block := (analyze_block source file from_token_lit is_uppercase fuel).
Abbreviation t_target := (assignment_target source file from_token_lit is_uppercase fuel).

Definition PE (e : Expr) : Prop := e_atoms e ⊆ atoms -> ATot (t_expr e).
Definition PB (b : Block) : Prop := b_atoms b ⊆ atoms -> ATot (t_block b).

Lemma tot_here e : deep PE e -> e_atoms e ⊆ atoms -> ATot (t_expr e).
Proof. intros H. by apply (deep_here PE). Qed.

Lemma span_atom e : e_atoms e ⊆ atoms -> span_ok (expr_span e).
Proof. destruct e. simpl. intros H. split_atoms. done. Qed.

Lemma literal_ok k sp c d : e_atoms (MkExpr k sp) ⊆ atoms -> opt_in source file atoms c -> opt_in source file atoms d ->
  literals_in (opt_set (literal_fact source file from_token_lit (MkExpr k sp) c d)).
Proof.
  intros Hat Hc Hd l. simpl in Hat. split_atoms. unfold opt_set, literal_fact. destruct k; try set_solver. simpl in *. unfold literal_word in *.
  destruct (from_token_lit token) as [[]|]; simpl in *; try (by intros ?%elem_of_empty); split_atoms;
    intros ->%elem_of_singleton; split; simpl; try done; auto using words_strs, word_atom_in, span_text, range_in.
Qed.

Lemma simple_name_atom e n : simple_name e = Some n -> e_atoms e ⊆ atoms -> AWord n ∈ atoms.
Proof.
  destruct e as [[] sp]; simpl; try done. destruct qself; [done|]. destruct path as [psp [|seg [|]]]; simpl; try done. intros [= <-] H. unfold path_atoms in H. simpl in H. split_atoms. done.
Qed.

Lemma TTot_ext f g : (forall active s, f active s = g active s) -> TTot f -> TTot g.
Proof. intros H Hf a active s ? ? ?. rewrite <- H. by apply Hf. Qed.

Fixpoint TTot_target (e : Expr) : forall self, ATot self -> deep PE e -> e_atoms e ⊆ atoms -> TTot (t_target e self).
Proof.
  destruct e as [k sp]. intros self Hself [_ He] Hat.
  assert (HO : OTHER_TARGET ∈ MESSAGES) by (unfold MESSAGES; set_solver). assert (HD : DEREF_TARGET ∈ MESSAGES) by (unfold MESSAGES; set_solver).
  destruct (simple_name (MkExpr k sp)) as [n|] eqn:En.
  { pose proof (simple_name_atom _ _ En Hat). apply TTot_ext with (fun _ s => target_path n s); [|by apply TTot_path]. intros. cbn [assignment_target]. by rewrite En. }
  destruct k; try (apply TTot_ext with (target_unknown file OTHER_TARGET sp self); [|by apply TTot_unknown]; intros; cbn [assignment_target]; by rewrite En);
    cbn [expr_atoms kind_atoms] in Hat; split_atoms.
  - destruct operator;
      first [ apply TTot_ext with (target_unknown file OTHER_TARGET sp self); [done|by apply TTot_unknown]
            | apply TTot_ext with (target_unknown file DEREF_TARGET sp (t_expr inner)); [done|apply TTot_unknown; auto] ].
  - apply TTot_ext with (target_field file (expr_span base) (t_target base (t_expr base))); [done|].
    apply TTot_field; [by apply span_atom|]. apply TTot_target; auto using tot_here.
  - destruct He. apply TTot_ext with (target_index file (expr_span base) (t_target base (t_expr base)) (t_expr index)); [done|].
    apply TTot_index; auto using span_atom. apply TTot_target; auto using tot_here.
  - apply TTot_ext with (t_target inner (t_expr inner)); [done|]. apply TTot_target; auto using tot_here.
Qed.

Definition STot (f : bool -> list ControlKey -> State -> M (option Value * State)) : Prop :=
  forall is_tail a active s, Inv a -> active_ok a active -> state_ok a s ->
    tot a (f is_tail active s) (fun b p => opt_all (value_ok b) p.1 /\ state_ok b p.2).

Lemma tot_stmts fs : Forall STot fs -> forall v a active s, Inv a -> value_ok a v -> active_ok a active -> state_ok a s ->
  tot a (analyze_stmts fs v active s) VS.
Proof.
  induction 1 as [|f fs Hf _ IH]; intros v a active s Ha Hv Hact Hs; cbn [analyze_stmts]; [by apply tot_ret|].
  destruct (reachable s); [|by apply tot_ret]. eapply tot_bind; [by apply Hf|]. intros [o u] b E Hb [Ho Hu]. cbn [fst snd] in *. lift E.
  apply IH; try done. by destruct o.
Qed.

Lemma STot_stmt st : stmt_all (deep PE) PB st -> stmt_atoms from_token_lit st ⊆ atoms ->
  STot (analyze_stmt source file from_token_lit is_uppercase fuel st).
Proof.
  intros Hst Hat is_tail a active s Ha Hact Hs.
  destruct st as [[ [p [|e|e bl] lsp]| |e|e| |] sp]; cbn [analyze_stmt analyze_local stmt_all local_all stmt_atoms local_atoms] in *;
    unfold local_init, local_init_else; split_atoms.
  - eapply tot_bind; [apply tot_bind_pattern; try done; apply unknown_value_ok; message|]. intros t b E Hb [? _]. by apply tot_ret.
  - assert (He : ATot (t_expr e)) by auto using tot_here. tbind (fun b t => state_ok b t); [|intros t b E Hb ?; by apply tot_ret].
    tpart. eapply tot_weaken; [by apply tot_bind_pattern|]. by intros ? ? ? ? [? _].
  - destruct Hst as [He Hbl]. assert (He' : ATot (t_expr e)) by auto using tot_here. assert (Hb' : ATot (t_block bl)) by auto.
    tbind (fun b t => state_ok b t); [|intros t b E Hb ?; by apply tot_ret]. tpart. tcontrol lsp CkBranch.
    eapply tot_bind; [apply Hb'; auto using extend_active_ok|]. intros [? ?] c Ec Hc [_ _]. lift Ec.
    eapply tot_weaken; [apply tot_bind_pattern; try done|by intros ? ? ? ? [? _]]. apply add_controls_ok; [done|]. by intros k ->%elem_of_singleton.
  - by apply tot_ret.
  - assert (He' : ATot (t_expr e)) by auto using tot_here. tpart. apply tot_ret; [done|]. split; [|done]. by destruct is_tail.
  - assert (He' : ATot (t_expr e)) by auto using tot_here. tpart. by apply tot_ret.
  - by apply tot_ret.
  - eapply tot_bind; [by apply tot_opaque_macro|]. intros t b E Hb Ht. by apply tot_ret.
Qed.

Lemma parts_tot l : Forall (deep PE) l -> Forall (fun e => e_atoms e ⊆ atoms) l -> Forall ATot (map t_expr l).
Proof.
  intros H1 H2. apply Forall_map. induction H1 as [|e l He _ IH]; constructor; inversion_clear H2; auto using tot_here.
Qed.

Lemma opt_part_tot o : opt_all (deep PE) o -> match o with Some e => e_atoms e | None => [] end ⊆ atoms -> opt_all ATot (option_map t_expr o).
Proof. destruct o; simpl; auto using tot_here. Qed.

Lemma opt_list_tot o : opt_all ATot o -> Forall ATot (option_list o).
Proof. destruct o; simpl; auto. Qed.

Lemma condition_tot c : deep PE c -> e_atoms c ⊆ atoms ->
  ATot (match c with MkExpr (ELet _ value) _ => t_expr value | _ => t_expr c end).
Proof. destruct c as [k sp]. intros [H He] Hat. destruct k; auto. cbn [expr_atoms kind_atoms] in Hat. split_atoms. auto. Qed.

Lemma condition_mono c : AMono (match c with MkExpr (ELet _ value) _ => t_expr value | _ => t_expr c end).
Proof. destruct c as [k sp]. destruct k; apply AMono_expr. Qed.

Lemma let_pattern_ok c : e_atoms c ⊆ atoms -> pat_opt_ok (let_pattern c).
Proof. destruct c as [k sp]. destruct k; simpl; try done. intros H. split_atoms. done. Qed.

Lemma arms_tot arms : Forall (arm_all (deep PE)) arms -> Forall (fun x => arm_atoms from_token_lit x ⊆ atoms) arms ->
  Forall arm_tot (map (fun arm => match arm with MkArm pat guard body span =>
    mkArmParts span pat (option_map (fun g => (expr_span g, t_expr g)) guard) (option_map t_expr body) end) arms).
Proof.
  intros H1 H2. apply Forall_map. induction H1 as [|[p g b sp] l [Hg Hb] _ IH]; constructor; inversion_clear H2 as [|? ? Hat]; [|auto].
  simpl in Hat. split_atoms. split_and!; simpl; [done|done| |by apply opt_part_tot]. destruct g; simpl in *; auto using tot_here, span_atom.
Qed.

Lemma path_value_ok p d : path_atoms p ⊆ atoms -> (d ++ lit " `", lit "` is unresolved") ∈ FORMATS -> forall a, value_ok a (unresolved_path source file p d).
Proof.
  intros Hp Hf a. unfold unresolved_path. apply unknown_value_ok. rewrite (app_assoc d). apply format_in; [done|]. unfold path_atoms in Hp. split_atoms. by apply text_in.
Qed.

#[local] Hint Resolve tot_here parts_tot opt_part_tot opt_list_tot condition_tot condition_mono let_pattern_ok arms_tot span_atom Forall_app_2
  AMono_expr AMono_block KTot_call KTot_method_call KTot_two KTot_many KTot_binary KTot_ret KTot_try KTot_break KTot_continue KTot_yeet
  KTot_path KTot_if KTot_match KTot_while KTot_loop KTot_for KTot_of TTot_target KTot_assignment empty_value_ok : depend.

Lemma ATot_all : (forall e, deep PE e) /\ (forall b, PB b).
Proof.
  apply expr_block_ind.
  - intros k sp Hk Hat. rewrite analyze_expr_eq. apply ATot_live. assert (Hall := Hat). cbn [expr_atoms] in Hat. apply cons_subset in Hat as [Hsp Hat].
    destruct k; cbn [expr_kind_step kind_all kind_atoms] in *; unfold analyze_many; repeat match goal with H : _ /\ _ |- _ => destruct H end; split_atoms;
      auto with depend.
    all: try (apply KTot_unmodelled; unfold MESSAGES; clear; set_solver). all: try (apply KTot_pure, empty_value_ok).
    + apply KTot_pure. intros a. apply add_literals_ok; [apply empty_value_ok|]. by apply literal_ok.
    + apply KTot_macro. intros a. apply unknown_value_ok. message.
    + apply KTot_many; [auto with depend|]. apply path_value_ok; [done|right; left].
  - intros ss H Hat a active s Ha Hact Hs. cbn [analyze_block block_atoms] in *. apply flat_map_subset in Hat.
    apply tot_with_scope; [done| |intros; by apply VS_scopes]. intros b Hb E. lift E. apply tot_stmts; try done.
    apply Forall_map. induction H as [|st ss Hst _ IH]; constructor; inversion_clear Hat; auto using STot_stmt.
Qed.

(** ** The function *)

Lemma Inv_new : Inv new.
Proof.
  split; simpl; try done; try apply map_Forall_empty.
  - split; simpl; [constructor; [apply map_Forall_empty|done]|apply map_Forall_empty].
  - intros id. rewrite lookup_empty. split; [set_solver|]. intros [_ [? ?]]. done.
Qed.

Lemma live_ok a : state_ok a live.
Proof. split; simpl; [lia|done]. Qed.

Lemma tot_params ps : List.flat_map pat_atoms ps ⊆ atoms -> forall a s, Inv a -> state_ok a s ->
  tot a (bind_params source file from_token_lit is_uppercase ps s) (fun b t => state_ok b t).
Proof.
  induction ps as [|p ps IH]; simpl; intros Hat a s Ha Hs; [by apply tot_ret|]. split_atoms.
  eapply tot_bind; [apply tot_bind_pattern; try done; apply empty_value_ok|]. intros t b E Hb [Ht _]. by apply IH; [apply flat_map_subset| |].
Qed.

(** The analysis of the function returns, in an analyzer that satisfies the invariant. *)
Lemma tot_function f : fn_atoms from_token_lit f ⊆ atoms ->
  tot new (analyze_function source file from_token_lit is_uppercase fuel f) (fun _ _ => True).
Proof.
  intros Hat. unfold fn_atoms in Hat. split_atoms. unfold analyze_function.
  eapply tot_bind; [apply tot_params; [by apply flat_map_subset|apply Inv_new|apply live_ok]|]. intros s a E Ha Hs.
  destruct (body f) as [b|]; [|by apply tot_ret]. assert (Hb : ATot (t_block b)) by (by apply ATot_all).
  eapply tot_bind; [apply Hb; try done; intros k Hk; by apply elem_of_nil in Hk|]. intros [v t] c Ec Hc [? ?]. cbn [fst snd] in *.
  destruct (reachable t); [|by apply tot_ret]. destruct (tail_expr b); [|by apply tot_ret].
  apply tot_record_exit; [done|done| |done]. set_solver.
Qed.
End Total.
