(* ===== verification/DependTheorems.v ===== *)
(** * Dependence analysis: theorems

    Termination of the analysis with a result that does not depend on the fuel, monotonicity and the fixpoints of
    its loops, the scoping discipline, and what the report says of the facts the analysis recorded. *)
From Stdlib Require Import ZArith Lia Sorted.
From Stdlib Require Import String.
From stdpp Require Import base numbers list gmap option.
From S2P Require Import Prelude RustStr RustSlice SourceFile DependData DependAst Depend DependOrder DependGrow DependMono DependBound DependTotal.
#[local] Open Scope nat_scope.
Open Scope depend_scope.

(** ** Sorting and iteration *)

Lemma insert_by_perm {A} (f : A -> A -> comparison) x l : insert_by f x l ≡ₚ x :: l.
Proof. induction l as [|y l IH]; simpl; [done|]. destruct (f x y); [done|done|]. rewrite IH. by constructor. Qed.

Lemma sort_by_perm {A} (f : A -> A -> comparison) l : sort_by f l ≡ₚ l.
Proof. induction l as [|x l IH]; simpl; [done|]. rewrite insert_by_perm. by constructor. Qed.

Lemma elem_of_sort_by {A} (f : A -> A -> comparison) l x : x ∈ sort_by f l <-> x ∈ l.
Proof. by rewrite sort_by_perm. Qed.

Lemma elem_of_set_iter {A} `{Countable A, Ord A} (s : gset A) x : x ∈ set_iter s <-> x ∈ s.
Proof. unfold set_iter. by rewrite elem_of_sort_by, elem_of_elements. Qed.

Lemma length_set_iter {A} `{Countable A, Ord A} (s : gset A) : length (set_iter s) = size s.
Proof. unfold set_iter. by rewrite sort_by_perm. Qed.

Lemma elem_of_map_iter {K V} `{Countable K, Ord K} (m : gmap K V) k v : (k, v) ∈ map_iter m <-> m !! k = Some v.
Proof. unfold map_iter. rewrite elem_of_sort_by. apply elem_of_map_to_list. Qed.

(** Sorting by a key gives a list in the order of the keys. *)
Lemma insert_by_sorted {A K} `{Ord K} (key : A -> K) x l :
  StronglySorted (fun y z => cmp (key y) (key z) <> Gt) l -> StronglySorted (fun y z => cmp (key y) (key z) <> Gt) (insert_by (fun y z => cmp (key y) (key z)) x l).
Proof.
  induction 1 as [|y l Hl IH Hy]; simpl; [repeat constructor|]. destruct (cmp (key x) (key y)) eqn:E.
  - constructor; [by constructor|]. apply cmp_eq in E. constructor; [by rewrite E, cmp_refl|]. by rewrite E.
  - constructor; [by constructor|]. constructor; [congruence|]. eapply Forall_impl; [|exact Hy]. intros z Hz HG.
    apply cmp_gt_lt in HG. apply Hz, cmp_gt_lt. by eapply cmp_trans.
  - constructor; [done|]. apply list.Forall_forall. intros z. rewrite insert_by_perm, elem_of_cons. intros [->|Hz].
    + intros HG. apply cmp_gt_lt in E. apply cmp_gt_lt in HG. by apply (cmp_lt_asym _ _ E).
    + rewrite list.Forall_forall in Hy. by apply Hy.
Qed.

Lemma sort_by_sorted {A K} `{Ord K} (key : A -> K) l :
  StronglySorted (fun y z => cmp (key y) (key z) <> Gt) (sort_by (fun y z => cmp (key y) (key z)) l).
Proof. induction l as [|x l IH]; simpl; [constructor|by apply insert_by_sorted]. Qed.

(** ** The run *)

Section Run.
Context (source : str) (file : SourceFile).
Context (from_token_lit : TokenLit -> option LitKind) (is_uppercase : Z -> bool).

(** Enough fuel for a function: more than its possible facts. *)
Definition enough (f : Fn) : nat := S (bound source file (fn_atoms from_token_lit f)).

Lemma function_runs f fuel : enough f <= fuel ->
  exists a, analyze_function source file from_token_lit is_uppercase fuel f new = Some (tt, a)
    /\ Inv source file (fn_atoms from_token_lit f) a.
Proof.
  intros Hf. unfold enough in Hf. destruct (tot_function source file from_token_lit is_uppercase fuel (fn_atoms from_token_lit f) ltac:(lia) f) as ([] & a & E & _ & Ha & _); [done|].
  by exists a.
Qed.

Lemma function_unique f fuel fuel' r : fuel <= fuel' ->
  analyze_function source file from_token_lit is_uppercase fuel f new = Some r -> analyze_function source file from_token_lit is_uppercase fuel' f new = Some r.
Proof. intros Hf. by apply Ref_function. Qed.

(** C3: The dependence analysis of a function terminates: for every function there is one report that [run] gives
    whatever the fuel, as long as the loops may go round more often than there are facts to find. *)
Theorem dependence_returns function_name f :
  exists report, forall fuel, enough f <= fuel -> run source file from_token_lit is_uppercase fuel function_name f = Some report.
Proof.
  destruct (function_runs f (enough f)) as (a & E & _); [done|]. exists (finish function_name a). intros fuel Hf.
  unfold run. by rewrite (function_unique f _ _ _ Hf E).
Qed.

(** C4: A second analysis of a block that starts where the first one ended, from a larger state and with more active
    controls, gives a larger value and a larger state: what makes the rounds of a loop converge. *)
Theorem analysis_monotone fuel b active active' s s' a a1 a2 v v' t t' :
  analyze_block source file from_token_lit is_uppercase fuel b active s a = Some ((v, t), a1) ->
  analyze_block source file from_token_lit is_uppercase fuel b active' s' a1 = Some ((v', t'), a2) ->
  Valid a -> active ⊆ active' -> state_le s s' -> val_le v v' /\ state_le t t'.
Proof.
  intros E1 E2 V Ha Hs. destruct (AMono_block source file from_token_lit is_uppercase fuel b) as [Hg _ Hm].
  destruct (Hg _ _ _ _ _ E1) as (G1 & V1 & S1). destruct (Hg _ _ _ _ _ E2) as (G2 & _ & _).
  destruct (Hm _ _ _ _ Ha Hs (mkBound (bindings a2) (binding_ids a2) (loops a2)) _ _ _ _ _ _ E1 E2) as (HR & _); auto.
  - unfold under. simpl. etrans; [apply G1|apply G2].
  - unfold under. reflexivity.
  - split; apply G2.
  - by split.
Qed.

(** *** Loops *)

(** One pass of each loop, written out: the state in which the loop can be left before its body, the state at the end of
    the body, and the flow with the breaks and continues of the body.  The names of a pattern are bound in a scope of
    their own. *)
Definition while_pass (condition_span span : Span) (p : option Pat) (condition body : Analysis) (active : list ControlKey) (s : State) : M (State * State * LoopFlow) :=
  let! '(v, t) := condition active s in
  record_control (control_key file span CkLoop) (text source file condition_span) v ;;
  let inside := active ++ elements (controls v) ++ [control_key file span CkLoop] in
  let! '(u, f) := in_loop (match p with
                           | Some p => with_scope (let! s := bind_pattern source file from_token_lit is_uppercase p VkLocal v t in let! '(_, u) := body inside s in ret u)
                           | None => let! '(_, u) := body inside t in ret u
                           end) in
  ret (t, u, f).
Definition loop_pass (body : Analysis) (active : list ControlKey) (s : State) : M (State * State * LoopFlow) :=
  let! '(u, f) := in_loop (let! '(_, u) := body active s in ret u) in ret (s, u, f).
Definition for_pass (p : Pat) (iter_span : Span) (v : Value) (body : Analysis) (active : list ControlKey) (s : State) : M (State * State * LoopFlow) :=
  let inside := active ++ elements (controls v) ++ [control_key file iter_span CkLoop] in
  let! '(u, f) := with_scope (let! s := bind_pattern source file from_token_lit is_uppercase p VkLocal v s in in_loop (let! '(_, u) := body inside s in ret u)) in
  ret (s, u, f).

Lemma while_pass_round csp sp p c b active s a : while_pass csp sp p c b active s a = while_round source file from_token_lit is_uppercase csp sp p c b active s a.
Proof.
  unfold while_pass, while_round, extend_active, let_block, in_loop, with_scope, bind. destruct (c active s a) as [[[v t] a1]|]; [|done].
  cbv beta iota zeta delta [record_control modify get ret]. destruct p as [p|].
  - destruct (bind_pattern _ _ _ _ p _ _ _ _) as [[s1 a2]|]; [|done]. destruct (b _ s1 a2) as [[[x u] a3]|]; done.
  - destruct (b _ t _) as [[[x u] a3]|]; done.
Qed.

Lemma loop_pass_round b active s a : loop_pass b active s a = loop_round b active s a.
Proof. unfold loop_pass, loop_round, in_loop, bind, modify, get, ret. by destruct (b active s _) as [[[x u] a1]|]. Qed.

Lemma for_pass_round p isp v b active s a :
  for_pass p isp v b active s a = for_round source file from_token_lit is_uppercase p (control_key file isp CkLoop) v b active s a.
Proof.
  unfold for_pass, for_round, extend_active, in_loop, with_scope, bind, modify, get, ret. destruct (bind_pattern _ _ _ _ p _ _ _ _) as [[s1 a1]|]; [|done]. by destruct (b _ s1 _) as [[[x u] a2]|].
Qed.

Lemma passes_ext (m1 m2 : State -> M (State * State * LoopFlow)) entry a h b : (forall s a, m1 s a = m2 s a) -> passes m1 entry a h b -> passes m2 entry a h b.
Proof. intros HE. induction 1 as [|? ? ? ? ? ? _ IH Hr|? ? ? ? ? ? ? _ IH Hr Hc]; [constructor|rewrite HE in Hr; by eapply passes_end|rewrite HE in Hr; by eapply passes_continue]. Qed.

(** What a pass breaks out with is below the state [after] the loop, and its value below that of the loop. *)
Definition break_covered (f : LoopFlow) (v : Value) (after : State) : Prop := forall s, breaks f = Some s -> state_le s after /\ val_le (break_value f) v.

(** C18: the analysis of a loop covers every number of iterations. Go round the loop by hand after its analysis, from
    the state at its entry, any number of times, each pass starting where the one before ended or where a [continue] of it
    left off: the state in which [while] or [for] is then left before the body is below the state that the analysis
    returned, and so is every state in which the pass breaks out of the loop, whose value is below that of the loop. *)
Theorem loops_cover_iterations n csp sp p condition body q isp iter active entry a v after a' : Valid a ->
  let run_expr := analyze_expr source file from_token_lit is_uppercase n in
  let run_block := analyze_block source file from_token_lit is_uppercase n in
  (let pass := while_pass csp sp p (run_expr condition) (run_block body) active in
   analyze_while source file from_token_lit is_uppercase n csp sp p (run_expr condition) (run_block body) active entry a = Some ((v, after), a') ->
   forall s b t u f b', passes pass entry a' s b -> pass s b = Some ((t, u, f), b') -> state_le t after /\ break_covered f v after)
  /\ (let pass := loop_pass (run_block body) active in
   analyze_loop n (run_block body) active entry a = Some ((v, after), a') ->
   forall s b t u f b', passes pass entry a' s b -> pass s b = Some ((t, u, f), b') -> break_covered f v after)
  /\ (analyze_for source file from_token_lit is_uppercase n q isp (run_expr iter) (run_block body) active entry a = Some ((v, after), a') ->
   exists iter_value start a1, run_expr iter active entry a = Some ((iter_value, start), a1)
     /\ let pass := for_pass q isp iter_value (run_block body) active in
        forall s b, passes pass start a' s b -> state_le s after /\ forall t u f b', pass s b = Some ((t, u, f), b') -> break_covered f v after).
Proof.
  intros V run_expr run_block. pose proof (AMono_expr source file from_token_lit is_uppercase n) as HE. pose proof (AMono_block source file from_token_lit is_uppercase n) as HB.
  split_and!.
  - intros pass E s b t u f b' HP Er. unfold analyze_while in E. apply bind_Some in E as ([O H] & a1 & E & [= <- <- <-]).
    destruct (run_loop_covers _ _ _ _ _ _ _ _ (fun s => Grow_while_round _ _ _ _ csp sp p _ _ active s (am_grow _ (HE condition)) (am_grow _ (HB body)))
      (fun s t => Mono_while_round _ _ _ _ csp sp p _ _ active active s t (HE condition) (HB body) ltac:(done)) E V s b) as [_ HC].
    { eapply passes_ext; [|exact HP]. intros; apply while_pass_round. }
    unfold pass in Er. rewrite while_pass_round in Er. destruct (HC _ _ _ _ Er) as [Ht Hb]. split.
    + pose proof (merge_into_r (after_loop O) (condition_state O)) as Hm. destruct (merge_into (after_loop O) (condition_state O)) as [x|]; [|done]. cbn. by etrans.
    + intros x Hx. destruct (Hb x Hx) as [H1 H2]. split; [|done]. pose proof (transitivity H1 (merge_into_l (after_loop O) (condition_state O))) as Hm. destruct (merge_into (after_loop O) (condition_state O)); done.
  - intros pass E s b t u f b' HP Er. unfold analyze_loop in E. apply bind_Some in E as ([O H] & a1 & E & [= <- <- <-]).
    destruct (run_loop_covers _ _ _ _ _ _ _ _ (fun s => Grow_loop_round _ active s (am_grow _ (HB body)))
      (fun s t => Mono_loop_round _ active active s t (HB body) ltac:(done)) E V s b) as [_ HC].
    { eapply passes_ext; [|exact HP]. intros; apply loop_pass_round. }
    unfold pass in Er. rewrite loop_pass_round in Er. destruct (HC _ _ _ _ Er) as [_ Hb]. intros x Hx. destruct (Hb x Hx) as [H1 H2]. split; [|done]. by destruct (after_loop O).
  - intros E. unfold analyze_for in E. apply bind_Some in E as ([iv start] & a1 & E1 & E). exists iv, start, a1. split; [exact E1|]. intros pass s b HP.
    apply bind_Some in E as ([] & a2 & E2 & E). apply bind_Some in E as ([O H] & a3 & E & [= <- <- <-]).
    assert (V2 : Valid a2). { destruct (am_grow _ (HE iter) _ _ _ _ _ E1) as (_ & V1 & _). destruct (Grow_record_control true _ _ _ _ _ _ E2) as (_ & V2 & _). auto. }
    destruct (run_loop_covers _ _ _ _ _ _ _ _ (fun s => Grow_for_round _ _ _ _ q _ iv _ active s (am_grow _ (HB body)))
      (fun s t => Mono_for_round _ _ _ _ q _ iv iv _ active active s t (HB body) ltac:(done) ltac:(done)) E V2 s b) as [Hs HC].
    { eapply passes_ext; [|exact HP]. intros; apply for_pass_round. }
    destruct (run_loop_last _ _ _ (fun s => Grow_for_round _ _ _ _ q _ iv _ active s (am_grow _ (HB body))) _ _ _ _ _ _ E V2) as (_ & _ & _ & _ & _ & _ & _ & _ & _ & _ & Ha & _).
    destruct (after_loop O) as [x|] eqn:EA; [|done]. cbn. split; [etrans; [exact Hs|apply state_merge_r]|].
    intros t u f b' Er. unfold pass in Er. rewrite for_pass_round in Er. destruct (HC _ _ _ _ Er) as [_ Hb]. intros y Hy. destruct (Hb y Hy) as [H1 H2]. split; [|done]. etrans; [exact H1|apply state_merge_l].
Qed.

(** The analysis of an expression restores the scopes, leaves the enclosing loops in place, and neither forgets a
    binding nor gives it another identifier; in a state that is not reachable it does nothing at all. *)
Theorem expression_preserves fuel e active s a x a' :
  analyze_expr source file from_token_lit is_uppercase fuel e active s a = Some (x, a') ->
  scopes a' = scopes a /\ length (loops a') = length (loops a) /\ bindings a `prefix_of` bindings a'
  /\ (forall k id, binding_ids a !! k = Some id -> binding_ids a' !! k = Some id)
  /\ (reachable s = false -> x = (empty_value, s) /\ a' = a).
Proof.
  intros E. destruct (AMono_expr source file from_token_lit is_uppercase fuel e) as [Hg Hi _].
  destruct (Hg _ _ _ _ _ E) as ([? ? HL] & _ & ?). apply Forall2_length in HL. split_and!; auto.
  - intros k id Hk. by eapply lookup_weaken.
  - intros Hs. rewrite (Hi _ _ _ Hs) in E. by injection E as <- <-.
Qed.

(** ** The report *)

(** [deps] lists the occurrences of the variables of [d], and the reasons [us]. *)
Definition lists_exactly (a : Analyzer) (d : Data) (us : gset str) (deps : list Dependency) : Prop :=
  (forall w occurrence, DepVariable w occurrence ∈ deps <->
     exists id info occurrences, d !! id = Some occurrences /\ bindings a !! id = Some info /\ variable info = w /\ occurrence ∈ occurrences)
  /\ (forall why, DepUnknown why ∈ deps <-> why ∈ us).

(** What an exit of the report says, in terms of the value recorded for it. *)
Definition exit_faithful (a : Analyzer) (x : Exit) (key : ExitKey) (v : Value) : Prop :=
  x_kind x = ek_kind key /\ x_span x = ek_range key /\ x_value x = ek_value key
  /\ lists_exactly a (data v) (unknowns v) (data_dependencies x)
  /\ (forall id, is_Some (data v !! id) -> exists info occurrence, bindings a !! id = Some info /\ DepVariable (variable info) occurrence ∈ data_dependencies x)
  /\ length (control_dependencies x) = size (controls v)
  /\ (forall k, k ∈ controls v -> exists fact c, a_controls a !! k = Some fact /\ c ∈ control_dependencies x
        /\ cd_condition c = cf_condition fact /\ lists_exactly a (cf_operands fact) (cf_unknowns fact) (cd_operands c)).

Lemma dependencies_variable a d us w r : DepVariable w r ∈ dependencies a d us <->
  exists id info o, d !! id = Some o /\ bindings a !! id = Some info /\ variable info = w /\ r ∈ o.
Proof.
  unfold dependencies. rewrite elem_of_app, list_elem_of_bind, list_elem_of_fmap. split.
  - intros [([id o] & Hx & Hid)|(why & ? & _)]; [|done]. apply elem_of_map_iter in Hid. destruct (bindings a !! id) as [info|] eqn:Ei; [|by apply elem_of_nil in Hx].
    apply list_elem_of_fmap in Hx as (r' & [= -> ->] & Hr). apply elem_of_set_iter in Hr. by exists id, info, o.
  - intros (id & info & o & Hd & Hi & <- & Hr). left. exists (id, o). split; [|by apply elem_of_map_iter]. rewrite Hi. apply list_elem_of_fmap. exists r. split; [done|].
    by apply elem_of_set_iter.
Qed.

Lemma dependencies_unknown a d us why : DepUnknown why ∈ dependencies a d us <-> why ∈ us.
Proof.
  unfold dependencies. rewrite elem_of_app, list_elem_of_bind, list_elem_of_fmap. split.
  - intros [([id o] & Hx & _)|(w & [= <-] & Hw)]; [|by apply elem_of_set_iter in Hw]. destruct (bindings a !! id); [|by apply elem_of_nil in Hx].
    by apply list_elem_of_fmap in Hx as (? & ? & _).
  - intros Hw. right. exists why. split; [done|]. by apply elem_of_set_iter.
Qed.

Lemma omap_length {A B} (f : A -> option B) l : Forall (fun x => is_Some (f x)) l -> length (omap f l) = length l.
Proof. induction 1 as [|x l [y Hy] _ IH]; csimpl; [done|]. rewrite Hy. csimpl. by rewrite IH. Qed.

Lemma dependencies_listed a d us : lists_exactly a d us (dependencies a d us).
Proof. split; [apply dependencies_variable|apply dependencies_unknown]. Qed.

Lemma public_exit_faithful atoms a key v : Inv source file atoms a -> exits a !! key = Some v -> exit_faithful a (public_exit a key v) key v.
Proof.
  intros Ha Hx. destruct (i_exits _ _ _ _ Ha _ _ Hx) as [Hd Hc _ _].
  assert (HC : forall k, k ∈ controls v -> exists fact, a_controls a !! k = Some fact /\ public_control a k = Some (mkControl (cf_condition fact) (dependencies a (cf_operands fact) (cf_unknowns fact)))).
  { intros k Hk. destruct (Hc k Hk) as [_ [fact Hf]]. exists fact. split; [done|]. unfold public_control. by rewrite Hf. }
  split_and!; try done.
  - apply dependencies_listed.
  - intros id [o Ho]. destruct (Hd _ _ Ho) as (Hl & Hne & _). destruct (lookup_lt_is_Some_2 _ _ Hl) as [info Hi].
    destruct (set_choose_L o Hne) as [r Hr]. exists info, r. split; [done|]. apply dependencies_variable. by exists id, info, o.
  - simpl. rewrite omap_length; [apply length_set_iter|]. apply list.Forall_forall. intros k Hk%elem_of_set_iter. destruct (HC k Hk) as (fact & _ & ->). by eexists.
  - intros k Hk. destruct (HC k Hk) as (fact & Hf & Hp). exists fact. eexists. split; [done|]. split; [simpl; apply list_elem_of_omap; exists k; split; [by apply elem_of_set_iter|exact Hp]|]. split; [done|apply dependencies_listed].
Qed.

(** C19: the report of a function says of its exits exactly what the analysis of the function recorded.  With [a] the
    analyzer in which [analyze_function] ends, the exits of the report are those recorded in [a], in source order, and
    for each: every variable its value depends on is listed with exactly the places that read it, every unknown with
    its reason, and every control that is active there with its condition and what this depends on. *)
Theorem report_exits function_name f fuel :
  enough f <= fuel ->
  exists a, analyze_function source file from_token_lit is_uppercase fuel f new = Some (tt, a)
    /\ exists report, run source file from_token_lit is_uppercase fuel function_name f = Some report
    /\ (forall key v, exits a !! key = Some v -> exists x, x ∈ fd_exits report /\ exit_faithful a x key v)
    /\ (forall x, x ∈ fd_exits report -> exists key v, exits a !! key = Some v /\ exit_faithful a x key v)
    /\ length (fd_exits report) = size (exits a)
    /\ StronglySorted (fun x y => exit_order x y <> Gt) (fd_exits report).
Proof.
  intros Hf. destruct (function_runs f fuel Hf) as (a & E & Ha). exists a. split; [done|]. exists (finish function_name a). split; [unfold run; by rewrite E|]. split_and!.
  - intros key v Hk. exists (public_exit a key v). split; [|by apply public_exit_faithful with (fn_atoms from_token_lit f)].
    simpl. rewrite elem_of_sort_by, list_elem_of_fmap. exists (key, v). split; [done|]. by apply elem_of_map_iter.
  - intros x. simpl. rewrite elem_of_sort_by, list_elem_of_fmap. intros ([key v] & -> & Hk). apply elem_of_map_iter in Hk. exists key, v. split; [done|]. by apply public_exit_faithful with (fn_atoms from_token_lit f).
  - simpl. rewrite sort_by_perm, length_fmap. unfold map_iter. rewrite sort_by_perm. apply length_map_to_list.
  - exact (sort_by_sorted (fun x : Exit => (start (x_span x), x_kind x)) _).
Qed.

(** Every place the report names as a read of a variable is the place of a part of the function's syntax tree. *)
Theorem report_occurrences function_name f fuel :
  enough f <= fuel ->
  exists a, run source file from_token_lit is_uppercase fuel function_name f = Some (finish function_name a)
    /\ forall x w occurrence, x ∈ fd_exits (finish function_name a) -> DepVariable w occurrence ∈ data_dependencies x ->
       exists span, ASpan span ∈ fn_atoms from_token_lit f /\ occurrence = range file span.
Proof.
  intros Hf. destruct (function_runs f fuel Hf) as (a & E & Ha). exists a. split; [unfold run; by rewrite E|]. intros x w r Hx Hw.
  simpl in Hx. rewrite elem_of_sort_by, list_elem_of_fmap in Hx. destruct Hx as ([key v] & -> & Hk). apply elem_of_map_iter in Hk.
  apply dependencies_variable in Hw as (id & info & o & Ho & _ & _ & Hr). destruct (i_exits _ _ _ _ Ha _ _ Hk) as [Hd _ _ _].
  destruct (Hd _ _ Ho) as (_ & _ & Hin). apply Hin in Hr. apply list_elem_of_bind in Hr as ([span|?] & Hr & Hsp); [|by apply elem_of_nil in Hr].
  apply list_elem_of_singleton in Hr as ->. by exists span.
Qed.

Lemma elem_of_zip_seq {A} (l : list A) k i x : (i, x) ∈ zip (seq k (length l)) l <-> k <= i /\ l !! (i - k) = Some x.
Proof.
  revert k. induction l as [|y l IH]; intros k; simpl; [rewrite elem_of_nil, lookup_nil; naive_solver|]. rewrite elem_of_cons, IH. split.
  - intros [[= -> ->]|[Hi Hx]]; [split; [done|]; by rewrite Nat.sub_diag|]. split; [lia|]. replace (i - k) with (S (i - S k)) by lia. done.
  - intros [Hi Hx]. destruct (decide (i = k)) as [->|]; [rewrite Nat.sub_diag in Hx; left; by injection Hx as ->|]. right. split; [lia|].
    replace (i - k) with (S (i - S k)) in Hx by lia. done.
Qed.

(** The report has one entry for each mutable binding; it says that the binding is assigned exactly when it lists the
    place of an assignment to it. *)
Theorem report_assignments function_name f fuel :
  enough f <= fuel ->
  exists a, run source file from_token_lit is_uppercase fuel function_name f = Some (finish function_name a)
    /\ (forall m, m ∈ fd_mutable_assignments (finish function_name a) <->
          exists id info, bindings a !! id = Some info /\ mutable info = true /\ m = mutable_assignment a id info)
    /\ (forall m, m ∈ fd_mutable_assignments (finish function_name a) -> ma_assigned m = AfEver <-> ma_sites m <> []).
Proof.
  intros Hf. destruct (function_runs f fuel Hf) as (a & E & Ha). exists a. split; [unfold run; by rewrite E|].
  assert (HM : forall m, m ∈ fd_mutable_assignments (finish function_name a) <->
    exists id info, bindings a !! id = Some info /\ mutable info = true /\ m = mutable_assignment a id info).
  { intros m. simpl. rewrite list_elem_of_fmap. split.
    - intros ([id info] & -> & Hm%list_elem_of_In). apply List.filter_In in Hm as [Hm Hmut]. apply list_elem_of_In, elem_of_zip_seq in Hm as [_ Hm]. rewrite Nat.sub_0_r in Hm.
      by exists id, info.
    - intros (id & info & Hi & Hmut & ->). exists (id, info). split; [done|]. apply list_elem_of_In, List.filter_In. split; [|done].
      apply list_elem_of_In, elem_of_zip_seq. rewrite Nat.sub_0_r. split; [lia|done]. }
  split; [done|]. intros m (id & info & Hi & Hmut & ->)%HM. simpl. unfold assignment_fact.
  assert (HA : id ∈ assigned a <-> is_Some (assignment_sites a !! id)).
  { rewrite (i_assigned _ _ _ _ Ha). unfold is_mutable. rewrite Hi. tauto. }
  case_bool_decide as Hd.
  - split; [|done]. intros _. apply HA in Hd as [sites Hs]. rewrite Hs. destruct (i_sites _ _ _ _ Ha _ _ Hs) as [_ Hne].
    intros H0. apply (f_equal length) in H0. rewrite length_set_iter in H0. apply size_empty_inv in H0. set_solver.
  - split.
    + destruct (assignment_unknowns a !! id); [destruct (set_iter _)|]; done.
    + destruct (assignment_sites a !! id) eqn:Es; [|done]. destruct Hd. apply HA. by eexists.
Qed.
End Run.

(** ** The choice of the function *)

(** The functions an item declares under a name: itself, in a loaded module, in an implementation. *)
Inductive declares (n : str) : Item -> Fn -> Prop :=
| declares_fn f : name (fn_ident f) = n -> declares n (IFn f) f
| declares_mod items item f : item ∈ items -> declares n item f -> declares n (IMod (Some items)) f
| declares_impl items f : AFn f ∈ items -> name (fn_ident f) = n -> declares n (IImpl items) f.

Lemma in_flat_map {A B} (g : A -> list B) l x : x ∈ List.flat_map g l <-> exists y, y ∈ l /\ x ∈ g y.
Proof. rewrite list_elem_of_In, List.in_flat_map. by setoid_rewrite list_elem_of_In. Qed.

Lemma named_spec n f g : g ∈ (if named n f then [f] else []) <-> g = f /\ name (fn_ident f) = n.
Proof. unfold named. case_bool_decide; set_solver. Qed.

Fixpoint find_item_spec (n : str) (item : Item) {struct item} : forall f, f ∈ find_item n item <-> declares n item f.
Proof.
  destruct item as [g|[items|]|items|]; intros f; cbn [find_item].
  - rewrite named_spec. split; [intros [-> ?]; by constructor|]. intros H. inversion H; subst. done.
  - rewrite in_flat_map.
    assert (HL : forall l : list Item, (exists y, y ∈ l /\ f ∈ find_item n y) <-> (exists y, y ∈ l /\ declares n y f)).
    { fix IH 1. intros [|y l]; [split; intros (y & Hy & _); by apply elem_of_nil in Hy|]. specialize (find_item_spec n y f). specialize (IH l).
      setoid_rewrite elem_of_cons. split; intros (z & [->|Hz] & Hf); [exists y; split; [by left|by apply find_item_spec]| |exists y; split; [by left|by apply find_item_spec]|].
      - destruct (proj1 IH) as (w & ? & ?); [eauto|]. exists w. split; [by right|done].
      - destruct (proj2 IH) as (w & ? & ?); [eauto|]. exists w. split; [by right|done]. }
    rewrite HL. split; [intros (y & ? & ?); by eapply declares_mod|]. intros H. inversion H; subst. eauto.
  - split; [intros H; by apply elem_of_nil in H|]. intros H. inversion H.
  - rewrite in_flat_map. split.
    + intros ([g|] & Hg & Hf); simpl in Hf; [|by apply elem_of_nil in Hf]. apply named_spec in Hf as [-> ?]. by constructor.
    + intros H. inversion H; subst. exists (AFn f). split; [done|]. simpl. by apply named_spec.
  - split; [intros H; by apply elem_of_nil in H|]. intros H. inversion H.
Qed.

Lemma find_functions_spec items n f : f ∈ find_functions items n <-> exists item, item ∈ items /\ declares n item f.
Proof. unfold find_functions. rewrite in_flat_map. by setoid_rewrite find_item_spec. Qed.

(** A report is given only for a name that is declared, by one function; a name that no item declares is reported as not found. *)
Theorem function_choice source file from_token_lit is_uppercase fuel items n :
  (forall report, analyze_named source file from_token_lit is_uppercase fuel items n = Some (inl report) ->
     exists f, (exists item, item ∈ items /\ declares n item f)
       /\ (forall g item, item ∈ items -> declares n item g -> g = f)
       /\ run source file from_token_lit is_uppercase fuel n f = Some report)
  /\ ((forall f item, item ∈ items -> ~ declares n item f) <->
      analyze_named source file from_token_lit is_uppercase fuel items n = Some (inr [lit "error: function `" ++ n ++ lit "` was not found"])).
Proof.
  pose proof (find_functions_spec items n) as HS. unfold analyze_named. split.
  - intros report. destruct (find_functions items n) as [|f [|g l]] eqn:E; try done. intros (d & Hd & [= ->])%fmap_Some. exists f. split_and!; [apply HS; left| |done].
    intros g item Hi Hg. assert (Hin : g ∈ [f]) by (apply HS; eauto). by apply list_elem_of_singleton in Hin.
  - split.
    + intros H. destruct (find_functions items n) as [|f l] eqn:E; [done|]. destruct (proj1 (HS f)) as (item & Hi & Hf); [left|]. by destruct (H f item).
    + destruct (find_functions items n) as [|f [|g l]] eqn:E.
      * intros _ f item Hi Hf. assert (Hin : f ∈ []) by (apply HS; eauto). by apply elem_of_nil in Hin.
      * intros (d & _ & ?)%fmap_Some. done.
      * intros H. vm_compute in H. discriminate H.
Qed.

(** ** The error messages *)

Definition is_message (entry : str) : Prop := starts_with (lit "error:") entry = true \/ starts_with (lit "fatal:") entry = true.

Lemma starts_with_app p s t : starts_with p s = true -> starts_with p (s ++ t) = true.
Proof. intros [s' ->]%starts_with_spec. apply starts_with_spec. exists (s' ++ t). by rewrite app_assoc. Qed.

Lemma is_message_app s t : is_message s -> is_message (s ++ t).
Proof. intros [H|H]; [left|right]; by apply starts_with_app. Qed.

Lemma add_line_messages entries line : Forall is_message entries -> Forall is_message (add_line entries line).
Proof.
  intros H. unfold add_line. destruct (starts_with [SPACE] line).
  - destruct H; [constructor|]. constructor; [by apply is_message_app|done].
  - destruct (starts_with (lit "error:") line) eqn:E1, (starts_with (lit "fatal:") line) eqn:E2; simpl; try done; constructor; try done; unfold is_message; rewrite ?E1, ?E2; tauto.
Qed.

Lemma error_entries_messages text : Forall is_message (error_entries text).
Proof.
  unfold error_entries. apply Forall_reverse. generalize (str_lines text) as ls. intros ls.
  assert (H : Forall is_message []) by constructor. revert H. generalize (@nil str) as es. induction ls as [|l ls IH]; intros es H; [done|].
  simpl. by apply IH, add_line_messages.
Qed.

Lemma or_else_messages errors m : Forall is_message errors -> is_message m -> or_else_message errors m <> [] /\ Forall is_message (or_else_message errors m).
Proof. intros H Hm. destruct H; simpl; (split; [done|]); by repeat (constructor; try done). Qed.

(** An error of [dependence] always comes with messages: at least one, each of which begins with [error:] or [fatal:];
    whatever the parser gave back, reported or was stopped by. *)
Theorem errors_have_messages source file from_token_lit is_uppercase fuel function_name parsed had_errors captured :
  let answer := parse_and_analyze source file from_token_lit is_uppercase fuel function_name parsed had_errors captured in
  (forall errors, answer = Some (inr errors) -> errors <> [] /\ Forall is_message errors)
  /\ (forall errors, dependence None captured = inr errors -> errors <> [] /\ Forall is_message errors)
  /\ ((parsed = None \/ had_errors = true) -> exists errors, answer = Some (inr errors)).
Proof.
  assert (HM : forall m, is_message m -> or_else_message (error_entries captured) m <> [] /\ Forall is_message (or_else_message (error_entries captured) m))
    by (intros; apply or_else_messages; [apply error_entries_messages|done]).
  cbv zeta. split_and!.
  - intros errors H. unfold parse_and_analyze in H. destruct parsed as [items|]; [destruct had_errors|].
    + injection H as <-. apply HM. by left.
    + unfold analyze_named in H. destruct (find_functions items function_name) as [|f [|g l]].
      * injection H as <-. split; [done|]. constructor; [by left|done].
      * apply fmap_Some in H as (? & _ & ?). done.
      * injection H as <-. split; [done|]. constructor; [by left|done].
    + injection H as <-. apply HM. by left.
  - intros errors H. injection H as <-. apply HM. by left.
  - unfold parse_and_analyze. intros [->| ->]; [by eexists|]. destruct parsed; by eexists.
Qed.

(** ** A function *)

(** [fn f(a: u8, b: u8) -> u8 { let mut x = a; while x < b { x = x + 1; } x }] *)
Definition demo_source : str := lit "fn f(a: u8, b: u8) -> u8 { let mut x = a; while x < b { x = x + 1; } x }".
Definition demo_file : SourceFile := mkFile None Unneeded 0 0 0 (Lines []) [] [].
Definition demo_literals (token : TokenLit) : option LitKind :=
  match token_kind token with TkInteger => Some (LitInt 1) | _ => None end.

Definition at_span (n : string) (pos : Z) : Span := mkSpan pos (pos + Z.of_nat (String.length n)).
Definition demo_path (n : string) (pos : Z) : Expr :=
  MkExpr (EPath false (mkPath (at_span n pos) [mkIdent (lit n) (at_span n pos)])) (at_span n pos).
Definition demo_bind (m : Mutability) (n : string) (pos : Z) : Pat :=
  MkPat (PIdent (mkMode ByRefNo m) (mkIdent (lit n) (at_span n pos)) None) (at_span n pos).
Definition demo_condition : Expr := MkExpr (EBinary OpLt (demo_path "x" 48) (demo_path "b" 52)) (mkSpan 48 53).
Definition demo_sum : Expr := MkExpr (EBinary Add (demo_path "x" 60) (MkExpr (ELit (mkTokenLit TkInteger (lit "1") None)) (mkSpan 64 65))) (mkSpan 60 65).
Definition demo_body : Block := MkBlock [MkStmt (SSemi (MkExpr (EAssign (demo_path "x" 56) demo_sum) (mkSpan 56 65))) (mkSpan 56 66)].
Definition demo_fn : Fn := mkFn (mkIdent (lit "f") (at_span "f" 3)) [demo_bind MutNot "a" 5; demo_bind MutNot "b" 12]
  (Some (MkBlock [
    MkStmt (SLet (MkLocal (demo_bind MutMut "x" 35) (LInit (demo_path "a" 39)) (mkSpan 27 41))) (mkSpan 27 41);
    MkStmt (SExpr (MkExpr (EWhile demo_condition demo_body) (mkSpan 42 68))) (mkSpan 42 68);
    MkStmt (SExpr (demo_path "x" 69)) (mkSpan 69 70)])).

Definition demo_run : option FunctionDependence := run demo_source demo_file demo_literals is_ascii_upper 5 (lit "f") demo_fn.

(** The tail depends on [a], through [x]; the condition of the loop is its only control; [x] is assigned in the body. *)
Example demo_report :
  (fun r => (x_kind <$> fd_exits r, (fun m => (ma_assigned m, ma_sites m)) <$> fd_mutable_assignments r)) <$> demo_run
    = Some ([ExTail], [(AfEver, [mkRange 56 65])])
  /\ (fun r => (fun x => (cd_condition <$> control_dependencies x,
       (fun d => match d with DepVariable w o => Some (v_name w, o) | DepUnknown _ => None end) <$> data_dependencies x)) <$> fd_exits r) <$> demo_run
    = Some [([lit "x < b"], [Some (lit "a", mkRange 39 40); Some (lit "a", mkRange 60 61); Some (lit "a", mkRange 69 70);
                             Some (lit "x", mkRange 60 61); Some (lit "x", mkRange 69 70)])].
Proof. split; vm_compute; reflexivity. Qed.

Lemma Valid_new : Valid new.
Proof. split; simpl; [constructor; [apply map_Forall_empty|done]|apply map_Forall_empty]. Qed.

(** The runs the examples below start from: the body of the loop once, and again after itself; the loop; the sum. *)
Definition demo_block := analyze_block demo_source demo_file demo_literals is_ascii_upper 5 demo_body [] live.
Definition demo_while := analyze_while demo_source demo_file demo_literals is_ascii_upper 5 (mkSpan 48 53) (mkSpan 42 68) None
  (analyze_expr demo_source demo_file demo_literals is_ascii_upper 5 demo_condition) (analyze_block demo_source demo_file demo_literals is_ascii_upper 5 demo_body) [].
Definition demo_pass := while_pass demo_source demo_file demo_literals is_ascii_upper (mkSpan 48 53) (mkSpan 42 68) None
  (analyze_expr demo_source demo_file demo_literals is_ascii_upper 5 demo_condition) (analyze_block demo_source demo_file demo_literals is_ascii_upper 5 demo_body) [].
Definition demo_expr := analyze_expr demo_source demo_file demo_literals is_ascii_upper 5 demo_sum [] live new.

Lemma demo_block_runs : exists v t a1 v' t' a2, demo_block new = Some ((v, t), a1) /\ demo_block a1 = Some ((v', t'), a2).
Proof.
  assert (H : match demo_block new with Some x => bool_decide (is_Some (demo_block (snd x))) | None => false end = true) by (vm_compute; reflexivity).
  destruct (demo_block new) as [[[v t] a1]|] eqn:H1; [|discriminate H]. apply bool_decide_eq_true in H. destruct H as [[[v' t'] a2] H2]. eauto 10.
Qed.

Lemma demo_passes_run : exists v after a' t u f a1 t' u' f' a2,
  demo_while live new = Some ((v, after), a') /\ demo_pass live a' = Some ((t, u, f), a1) /\ demo_pass u a1 = Some ((t', u', f'), a2).
Proof.
  assert (H : match demo_while live new with
              | Some (_, a') => match demo_pass live a' with Some ((_, u, _), a1) => bool_decide (is_Some (demo_pass u a1)) | None => false end
              | None => false
              end = true) by (vm_compute; reflexivity).
  destruct (demo_while live new) as [[[v after] a']|] eqn:E; [|discriminate H]. destruct (demo_pass live a') as [[[[t u] f] a1]|] eqn:E1; [|discriminate H].
  apply bool_decide_eq_true in H. destruct H as [[[[t' u'] f'] a2] H]. exists v, after, a', t, u, f, a1, t', u', f', a2. done.
Qed.

Lemma demo_expr_runs : exists x a', demo_expr = Some (x, a').
Proof. assert (H : bool_decide (is_Some demo_expr) = true) by (vm_compute; reflexivity). apply bool_decide_eq_true in H. destruct H as [[x a'] H]. eauto. Qed.

Lemma analysis_monotone_witness : exists v t a1 v' t' a2,
  demo_block new = Some ((v, t), a1) /\ demo_block a1 = Some ((v', t'), a2) /\ val_le v v' /\ state_le t t'.
Proof.
  destruct demo_block_runs as (v & t & a1 & v' & t' & a2 & H1 & H2). exists v, t, a1, v', t', a2. split; [exact H1|]. split; [exact H2|].
  exact (analysis_monotone demo_source demo_file demo_literals is_ascii_upper 5 demo_body [] [] live live new a1 a2 v v' t t' H1 H2 Valid_new (reflexivity _) (reflexivity _)).
Defined.

Lemma loops_cover_iterations_witness : exists v after a' t u f a1 t' u' f' a2,
  demo_while live new = Some ((v, after), a') /\ demo_pass live a' = Some ((t, u, f), a1) /\ demo_pass u a1 = Some ((t', u', f'), a2) /\ state_le t' after.
Proof.
  destruct demo_passes_run as (v & after & a' & t & u & f & a1 & t' & u' & f' & a2 & H & H1 & H2). exists v, after, a', t, u, f, a1, t', u', f', a2.
  split; [exact H|]. split; [exact H1|]. split; [exact H2|].
  destruct (loops_cover_iterations demo_source demo_file demo_literals is_ascii_upper 5 (mkSpan 48 53) (mkSpan 42 68) None demo_condition demo_body (demo_bind MutNot "x" 35) (mkSpan 48 53) demo_condition [] live new v after a' Valid_new) as [HW _].
  exact (proj1 (HW H u a1 t' u' f' a2 (passes_end _ _ _ _ _ _ _ _ _ (passes_none _ _ _) H1) H2)).
Defined.

Lemma expression_preserves_witness : exists x a', demo_expr = Some (x, a') /\ scopes a' = scopes new.
Proof.
  destruct demo_expr_runs as (x & a' & H). exists x, a'. split; [exact H|].
  eapply (expression_preserves demo_source demo_file demo_literals is_ascii_upper 5 demo_sum [] live new); exact H.
Defined.

Lemma report_exits_witness : exists a report,
  analyze_function demo_source demo_file demo_literals is_ascii_upper (enough demo_source demo_file demo_literals demo_fn) demo_fn new = Some (tt, a)
  /\ run demo_source demo_file demo_literals is_ascii_upper (enough demo_source demo_file demo_literals demo_fn) (lit "f") demo_fn = Some report
  /\ length (fd_exits report) = size (exits a).
Proof.
  destruct (report_exits demo_source demo_file demo_literals is_ascii_upper (lit "f") demo_fn (enough demo_source demo_file demo_literals demo_fn) (le_n _)) as (a & Ha & report & Hr & _ & _ & Hl & _).
  exists a, report. split; [exact Ha|]. split; [exact Hr|exact Hl].
Defined.

Lemma report_occurrences_witness : exists a,
  run demo_source demo_file demo_literals is_ascii_upper (enough demo_source demo_file demo_literals demo_fn) (lit "f") demo_fn = Some (finish (lit "f") a).
Proof.
  destruct (report_occurrences demo_source demo_file demo_literals is_ascii_upper (lit "f") demo_fn (enough demo_source demo_file demo_literals demo_fn) (le_n _)) as (a & Ha & _).
  exists a. exact Ha.
Defined.

Lemma report_assignments_witness : exists a,
  run demo_source demo_file demo_literals is_ascii_upper (enough demo_source demo_file demo_literals demo_fn) (lit "f") demo_fn = Some (finish (lit "f") a).
Proof.
  destruct (report_assignments demo_source demo_file demo_literals is_ascii_upper (lit "f") demo_fn (enough demo_source demo_file demo_literals demo_fn) (le_n _)) as (a & Ha & _).
  exists a. exact Ha.
Defined.
