(* ===== verification/DependSource.v ===== *)
(** * Dependence analysis on a loaded file

    The analyzer quotes the text as it is on disk ([Analyzer::text]), at spans of the text that the source map
    normalized. *)
From Stdlib Require Import ZArith Lia.
From Stdlib Require Import String.
From stdpp Require Import base numbers list gmap option.
From S2P Require Import Prelude RustStr SourceFile SourceFacts SourceNorm SourceTheorems DependData DependAst Depend.
#[local] Open Scope Z_scope.

Lemma str_slice_piece p t s : str_slice (str_len p) (str_len p + str_len t) (p ++ t ++ s) = Some t.
Proof.
  unfold str_slice. rewrite (proj2 (Nat.ltb_ge _ _)) by lia. rewrite str_from_app. cbn [mbind option_bind]. replace (str_len p + str_len t - str_len p)%nat with (str_len t) by lia. apply str_to_app.
Qed.

Lemma at_piece f a q : start_pos f <= start_pos f + Z.of_nat a -> original_relative_byte_pos f (start_pos f + Z.of_nat a) = q -> at_ f (start_pos f + Z.of_nat a) = q.
Proof. intros H <-. unfold at_. by rewrite (proj2 (Z.ltb_ge _ _) H). Qed.

(** C20: What the analysis quotes at a span is the piece of the file on disk that the span's characters come from, carriage returns
    and byte order mark included in the offsets; its range is inside the file, the start not after the end. *)
Theorem quoted_text_exact f src a b c :
  loaded f src -> normalized_text src = a ++ b ++ c ->
  let span := mkSpan (start_pos f + Z.of_nat (str_len a)) (start_pos f + Z.of_nat (str_len (a ++ b))) in
  exists before after, drop_bom src = before ++ text src f span ++ after /\ strip_crlf before = a /\ strip_crlf (text src f span) = b
    /\ start (range f span) = bom_gap src + Z.of_nat (str_len before)
    /\ end_ (range f span) = start (range f span) + Z.of_nat (str_len (text src f span))
    /\ 0 <= start (range f span) <= end_ (range f span) /\ end_ (range f span) <= Z.of_nat (str_len src).
Proof.
  intros Hf E. pose proof Hf as (_ & _ & Hw & _). destruct (original_piece src a b c Hw E) as (s1 & t & s2 & Ed & H1 & H2 & HP & HQ).
  apply (original_position_ok f src) in HP; [|done]. apply (original_position_ok f src) in HQ; [|done]. intros span.
  assert (HR : range f span = mkRange (bom_gap src + Z.of_nat (str_len s1)) (bom_gap src + Z.of_nat (str_len (s1 ++ t)))).
  { unfold range, span. cbn [lo hi]. f_equal; apply at_piece; done || lia. }
  destruct (bom_prefix src) as (p & Ep & Hp). rewrite str_len_app in HR. assert (HT : text src f span = t).
  { unfold text. rewrite HR. cbn [start end_]. rewrite <- Hp. replace (Z.to_nat (Z.of_nat (str_len p) + Z.of_nat (str_len s1))) with (str_len (p ++ s1)) by (rewrite str_len_app; lia).
    replace (Z.to_nat (Z.of_nat (str_len p) + Z.of_nat (str_len s1 + str_len t))) with (str_len (p ++ s1) + str_len t)%nat by (rewrite str_len_app; lia).
    replace src with ((p ++ s1) ++ t ++ s2) by (by rewrite Ep, Ed, <- app_assoc). by rewrite str_slice_piece. }
  exists s1, s2. rewrite HT, HR. cbn [start end_]. assert (HL : (str_len src = str_len p + (str_len s1 + (str_len t + str_len s2)))%nat) by (by rewrite Ep at 1; rewrite Ed, !str_len_app).
  split_and!; try done; lia.
Qed.

Lemma quoted_text_exact_witness : exists before after,
  drop_bom dos_text = before ++ text dos_text dos_file (mkSpan 3 16) ++ after /\ strip_crlf before = lit "fn "
  /\ strip_crlf (text dos_text dos_file (mkSpan 3 16)) = lit "first() {}" ++ [NEWLINE] ++ lit "//".
Proof.
  destruct (quoted_text_exact dos_file dos_text (lit "fn ") (lit "first() {}" ++ [NEWLINE] ++ lit "//") (lit " " ++ [233; NEWLINE] ++ lit "mod m;") dos_file_loaded) as (before & after & H1 & H2 & H3 & _);
    [reflexivity|]. exists before, after. split; [exact H1|]. split; [exact H2|exact H3].
Defined.
