(* ===== verification/SpanEnc.v ===== *)
(** * Compressed spans

    [src/rustc_span/span_encoding.rs] and the methods of [Span] in [src/rustc_span/mod.rs]: the
    four formats of an eight-byte [Span], the interner behind two of them, and the operations that
    work on the formats directly.  Positions, contexts and definition indices are [u32] values.

    The session globals that spans use are threaded through: the interner ([FxIndexSet], a list
    without duplicates in insertion order), the metavariable spans with their read marks, and the
    calls made to [SPAN_TRACK].  The hygiene tables, which spans only read, are the argument
    [call_site] ([ctxt.outer_expn_data().call_site]). *)
From Stdlib Require Import ZArith Lia.
From stdpp Require Import base numbers list gmap option.
From S2P Require Import Prelude.
#[local] Open Scope Z_scope.
#[local] Open Scope rust_scope.

(** ** Data *)

Record SpanData : Type := mkData { lo : Z; hi : Z; ctxt : Z; parent : option Z }.

Record Span : Type := mkSpan {
  lo_or_index : Z;               (* u32 *)
  len_with_tag_or_marker : Z;    (* u16 *)
  ctxt_or_parent_or_marker : Z   (* u16 *)
}.

#[export] Instance SpanData_eq_dec : EqDecision SpanData.
Proof. solve_decision. Defined.
#[export] Instance Span_eq_dec : EqDecision Span.
Proof. solve_decision. Defined.
#[export] Instance Span_countable : Countable Span.
Proof.
  refine (inj_countable' (fun s => (lo_or_index s, len_with_tag_or_marker s, ctxt_or_parent_or_marker s))
    (fun t => mkSpan t.1.1 t.1.2 t.2) _). by intros [].
Defined.

Definition MAX_LEN : Z := 0x7FFE.
Definition MAX_CTXT : Z := 0x7FFE.
Definition PARENT_TAG : Z := 0x8000.
Definition NOT_PARENT_TAG : Z := 0x7FFF. (* [!PARENT_TAG] *)
Definition BASE_LEN_INTERNED_MARKER : Z := 0xFFFF.
Definition CTXT_INTERNED_MARKER : Z := 0xFFFF.
Definition ROOT : Z := 0. (* [SyntaxContext::root()] *)

Definition wrap_u16 (z : Z) : Z := z mod 65536.

(** [RawSpan]. *)
Definition to_raw_span (self : Span) : Z * Z * Z := (lo_or_index self, len_with_tag_or_marker self, ctxt_or_parent_or_marker self).
Definition from_raw_span (raw : Z * Z * Z) : Span := mkSpan raw.1.1 raw.1.2 raw.2.

Definition DUMMY_SP : Span := mkSpan 0 0 0.

(** The four formats, as [match_span_kind!] tells them apart. *)
Inductive SpanKind : Type :=
| InlineCtxt (lo len ctxt : Z)
| InlineParent (lo len_with_tag parent : Z)
| PartiallyInterned (index ctxt : Z)
| Interned (index : Z).

Definition match_span_kind (span : Span) : SpanKind :=
  if negb (len_with_tag_or_marker span =? BASE_LEN_INTERNED_MARKER) then
    if Z.land (len_with_tag_or_marker span) PARENT_TAG =? 0
    then InlineCtxt (lo_or_index span) (len_with_tag_or_marker span) (ctxt_or_parent_or_marker span)
    else InlineParent (lo_or_index span) (len_with_tag_or_marker span) (ctxt_or_parent_or_marker span)
  else if negb (ctxt_or_parent_or_marker span =? CTXT_INTERNED_MARKER)
  then PartiallyInterned (lo_or_index span) (ctxt_or_parent_or_marker span)
  else Interned (lo_or_index span).

(** The [span] constructors of the formats. *)
Definition InlineCtxt_span (lo len ctxt : Z) : Span := mkSpan lo len ctxt.
Definition InlineParent_span (lo len parent : Z) : Span := mkSpan lo (Z.lor PARENT_TAG len) parent.
Definition PartiallyInterned_span (index ctxt : Z) : Span := mkSpan index BASE_LEN_INTERNED_MARKER ctxt.
Definition Interned_span (index : Z) : Span := mkSpan index BASE_LEN_INTERNED_MARKER CTXT_INTERNED_MARKER.

(** ** The session globals *)

Record Globals : Type := mkGlobals {
  spans : list SpanData;                       (* [SpanInterner::spans] *)
  metavar_spans : gmap Span (Span * bool);     (* [MetavarSpansMap] *)
  frozen : bool;                               (* its [FreezeLock] *)
  tracked : list Z                             (* the calls of [SPAN_TRACK], last first *)
}.

Definition SM (A : Type) : Type := Globals -> outcome (A * Globals).
Definition ret {A} (x : A) : SM A := fun g => Ret (x, g).
Definition bind {A B} (m : SM A) (k : A -> SM B) : SM B :=
  fun g => match m g with Ret (x, g) => k x g | Panic => Panic | OutOfFuel => OutOfFuel end.
Definition out_of_fuel {A} : SM A := fun _ => OutOfFuel.

Declare Scope span_scope.
Delimit Scope span_scope with span.
Notation "'let!' x := m 'in' k" := (bind m (fun x => k))
  (at level 10, x name, m at level 100, k at level 200) : span_scope.
Notation "'let!' ' p := m 'in' k" := (bind m (fun x => match x with p => k end))
  (at level 10, p strict pattern, m at level 100, k at level 200) : span_scope.
Notation "m ;; k" := (bind m (fun _ => k)) (at level 100, right associativity) : span_scope.
#[local] Open Scope span_scope.

Definition track (parent : Z) : SM unit := fun g => Ret (tt, mkGlobals (spans g) (metavar_spans g) (frozen g) (parent :: tracked g)).
Definition track_opt (parent : option Z) : SM unit := match parent with Some parent => track parent | None => ret tt end.

(** [FxIndexSet::get_index_of]. *)
Fixpoint index_of (d : SpanData) (l : list SpanData) : option nat :=
  match l with
  | [] => None
  | x :: l => if bool_decide (x = d) then Some O else S <$> index_of d l
  end.

(** [SpanInterner::intern]; the index is cast to [u32]. *)
Definition intern (d : SpanData) : SM Z := fun g =>
  match index_of d (spans g) with
  | Some i => Ret (wrap_u32 (Z.of_nat i), g)
  | None => Ret (wrap_u32 (Z.of_nat (length (spans g))), mkGlobals (spans g ++ [d]) (metavar_spans g) (frozen g) (tracked g))
  end.

(** [interner.spans[index]]. *)
Definition interned (index : Z) : SM SpanData := fun g =>
  match spans g !! Z.to_nat index with Some d => Ret (d, g) | None => Panic end.

(** ** [span_encoding.rs] *)

Definition inline_ctxt_data (lo len ctxt : Z) : SpanData := mkData lo (wrap_u32 (lo + len)) ctxt None.
Definition inline_parent_data (lo len_with_tag parent : Z) : SpanData :=
  mkData lo (wrap_u32 (lo + Z.land len_with_tag NOT_PARENT_TAG)) ROOT (Some parent).
Definition partially_interned_data (index ctxt : Z) : SM SpanData :=
  let! d := interned index in ret (mkData (lo d) (hi d) ctxt (parent d)).

(** [Span::new]. *)
Definition span_new (lo hi ctxt : Z) (parent : option Z) : SM Span :=
  let '(lo, hi) := if hi <? lo then (hi, lo) else (lo, hi) in
  let len := hi - lo in
  let interned_span :=
    if ctxt <=? MAX_CTXT then
      let! index := intern (mkData lo hi u32_max parent) in ret (PartiallyInterned_span index (wrap_u16 ctxt))
    else
      let! index := intern (mkData lo hi ctxt parent) in ret (Interned_span index) in
  if (len <=? MAX_LEN) && (ctxt <=? MAX_CTXT) then
    match parent with
    | None => ret (InlineCtxt_span lo (wrap_u16 len) (wrap_u16 ctxt))
    | Some parent32 =>
        if (ctxt =? 0) && (parent32 <=? MAX_CTXT) then ret (InlineParent_span lo (wrap_u16 len) (wrap_u16 parent32))
        else interned_span
    end
  else interned_span.

Definition data_untracked (self : Span) : SM SpanData :=
  match match_span_kind self with
  | InlineCtxt lo len ctxt => ret (inline_ctxt_data lo len ctxt)
  | InlineParent lo len_with_tag parent => ret (inline_parent_data lo len_with_tag parent)
  | PartiallyInterned index ctxt => partially_interned_data index ctxt
  | Interned index => interned index
  end.

Definition data (self : Span) : SM SpanData :=
  let! d := data_untracked self in track_opt (parent d) ;; ret d.

Definition from_expansion (self : Span) : bool :=
  let ctxt :=
    match match_span_kind self with
    | InlineCtxt _ _ ctxt => ctxt
    | InlineParent _ _ _ => ROOT
    | PartiallyInterned _ ctxt => ctxt
    | Interned _ => CTXT_INTERNED_MARKER
    end in
  negb (ctxt =? ROOT).

Definition is_dummy (self : Span) : SM bool :=
  if negb (len_with_tag_or_marker self =? BASE_LEN_INTERNED_MARKER) then
    ret ((lo_or_index self =? 0) && (Z.land (len_with_tag_or_marker self) NOT_PARENT_TAG =? 0))
  else
    let! d := interned (lo_or_index self) in ret ((lo d =? 0) && (hi d =? 0)).

(** [SpanData]'s methods. *)
Definition data_span (d : SpanData) : SM Span := span_new (lo d) (hi d) (ctxt d) (parent d).
Definition data_with_lo (d : SpanData) (lo : Z) : SM Span := span_new lo (hi d) (ctxt d) (parent d).
Definition data_with_hi (d : SpanData) (hi : Z) : SM Span := span_new (lo d) hi (ctxt d) (parent d).
Definition data_with_ctxt (d : SpanData) (ctxt : Z) : SM Span := span_new (lo d) (hi d) ctxt (parent d).
Definition data_with_parent (d : SpanData) (parent : option Z) : SM Span := span_new (lo d) (hi d) (ctxt d) parent.
Definition data_is_dummy (d : SpanData) : bool := (lo d =? 0) && (hi d =? 0).
Definition data_contains (self other : SpanData) : bool := (lo self <=? lo other) && (hi other <=? hi self).

Definition map_ctxt (self : Span) (map : Z -> Z) : SM Span :=
  match match_span_kind self with
  | InlineCtxt lo len ctxt =>
      let new_ctxt := map ctxt in
      if new_ctxt <=? MAX_CTXT then ret (InlineCtxt_span lo len (wrap_u16 new_ctxt))
      else data_with_ctxt (inline_ctxt_data lo len ctxt) new_ctxt
  | InlineParent lo len_with_tag parent =>
      let d := inline_parent_data lo len_with_tag parent in data_with_ctxt d (map (ctxt d))
  | PartiallyInterned index c =>
      let! d := partially_interned_data index c in data_with_ctxt d (map (ctxt d))
  | Interned index =>
      let! d := interned index in data_with_ctxt d (map (ctxt d))
  end.

Definition inline_ctxt (self : Span) : Z + Z :=
  match match_span_kind self with
  | InlineCtxt _ _ ctxt => inl ctxt
  | InlineParent _ _ _ => inl ROOT
  | PartiallyInterned _ ctxt => inl ctxt
  | Interned index => inr index
  end.

Definition span_ctxt (self : Span) : SM Z :=
  match inline_ctxt self with
  | inl ctxt => ret ctxt
  | inr index => let! d := interned index in ret (ctxt d)
  end.

Definition eq_ctxt (self other : Span) : SM bool :=
  match inline_ctxt self, inline_ctxt other with
  | inl ctxt1, inl ctxt2 => ret (ctxt1 =? ctxt2)
  | inl _, inr _ | inr _, inl _ => ret false
  | inr index1, inr index2 =>
      let! d1 := interned index1 in let! d2 := interned index2 in ret (ctxt d1 =? ctxt d2)
  end.

Definition to_same_inline_ctxt (self end_ : Span) : SM (option Span) :=
  if negb (Z.land (Z.lor (len_with_tag_or_marker self) (len_with_tag_or_marker end_)) PARENT_TAG =? 0)
     || negb (ctxt_or_parent_or_marker self =? ctxt_or_parent_or_marker end_)
  then ret None
  else
    let a_lo := lo_or_index self in
    let b_lo := lo_or_index end_ in
    let lo := Z.min a_lo b_lo in
    let hi := Z.max (wrap_u32 (a_lo + len_with_tag_or_marker self)) (wrap_u32 (b_lo + len_with_tag_or_marker end_)) in
    let len := wrap_u32 (hi - lo) in
    if len <=? MAX_LEN then ret (Some (InlineCtxt_span lo (wrap_u16 len) (ctxt_or_parent_or_marker self)))
    else let! span := span_new lo hi (ctxt_or_parent_or_marker self) None in ret (Some span).

Definition with_parent (self : Span) (new_parent : option Z) : SM Span :=
  let finish (d : SpanData) := track_opt (parent d) ;; data_with_parent d new_parent in
  match match_span_kind self with
  | InlineCtxt lo len ctxt =>
      match new_parent with
      | None => ret self
      | Some parent32 =>
          if (ctxt =? 0) && (parent32 <=? MAX_CTXT) then ret (InlineParent_span lo len (wrap_u16 parent32))
          else finish (inline_ctxt_data lo len ctxt)
      end
  | InlineParent lo len_with_tag parent => finish (inline_parent_data lo len_with_tag parent)
  | PartiallyInterned index c => let! d := partially_interned_data index c in finish d
  | Interned index => let! d := interned index in finish d
  end.

Definition span_parent (self : Span) : SM (option Z) :=
  match match_span_kind self with
  | InlineCtxt _ _ _ => ret None
  | InlineParent _ _ parent => ret (Some parent)
  | PartiallyInterned index _ => let! d := interned index in ret (parent d)
  | Interned index => let! d := interned index in ret (parent d)
  end.

(** ** [Span]'s methods in [mod.rs] *)

Definition byte_len_untracked (self : Span) : SM Z :=
  let! d := data_untracked self in ret (Z.max 0 (hi d - lo d)).
Definition span_lo (self : Span) : SM Z := let! d := data self in ret (lo d).
Definition span_hi (self : Span) : SM Z := let! d := data self in ret (hi d).
Definition with_lo (self : Span) (lo : Z) : SM Span := let! d := data self in data_with_lo d lo.
Definition with_hi (self : Span) (hi : Z) : SM Span := let! d := data self in data_with_hi d hi.
Definition with_ctxt (self : Span) (ctxt : Z) : SM Span := map_ctxt self (fun _ => ctxt).
Definition with_root_ctxt (lo hi : Z) : SM Span := span_new lo hi ROOT None.
Definition shrink_to_lo (self : Span) : SM Span := let! d := data_untracked self in data_with_hi d (lo d).
Definition shrink_to_hi (self : Span) : SM Span := let! d := data_untracked self in data_with_lo d (hi d).
Definition span_is_empty (self : Span) : SM bool := let! d := data_untracked self in ret (hi d =? lo d).
Definition substitute_dummy (self other : Span) : SM Span := let! dummy := is_dummy self in ret (if dummy then other else self).

Definition contains (self other : Span) : SM bool :=
  let! d := data self in let! o := data other in ret (data_contains d o).
Definition overlaps (self other : Span) : SM bool :=
  let! d := data self in let! o := data other in ret ((lo d <? hi o) && (lo o <? hi d)).
Definition overlaps_or_adjacent (self other : Span) : SM bool :=
  let! d := data self in let! o := data other in ret ((lo d <=? hi o) && (lo o <=? hi d)).
Definition source_equal (self other : Span) : SM bool :=
  let! d := data self in let! o := data other in ret ((lo d =? lo o) && (hi d =? hi o)).

Definition some_span (m : SM Span) : SM (option Span) := let! span := m in ret (Some span).
Definition trim_start (self other : Span) : SM (option Span) :=
  let! d := data self in let! o := data other in
  if hi o <? hi d then some_span (data_with_lo d (Z.max (lo d) (hi o))) else ret None.
Definition trim_end (self other : Span) : SM (option Span) :=
  let! d := data self in let! o := data other in
  if lo d <? lo o then some_span (data_with_hi d (Z.min (hi d) (lo o))) else ret None.

(** [Ord for Span]: by the start, then by the end. *)
Definition span_cmp (self rhs : Span) : SM comparison :=
  let! d := data self in let! o := data rhs in
  ret (match lo d ?= lo o with Eq => hi d ?= hi o | c => c end).

Definition split_at (self : Span) (pos : Z) : SM (Span * Span) :=
  let! _ := span_hi self in let! _ := span_lo self in
  let! lo1 := span_lo self in
  let split_pos := wrap_u32 (lo1 + pos) in
  let! lo2 := span_lo self in
  let! ctxt1 := span_ctxt self in
  let! parent1 := span_parent self in
  let! first := span_new lo2 split_pos ctxt1 parent1 in
  let! hi2 := span_hi self in
  let! ctxt2 := span_ctxt self in
  let! parent2 := span_parent self in
  let! second := span_new split_pos hi2 ctxt2 parent2 in
  ret (first, second).

(** [MetavarSpansMap]. *)
Definition set_metavars (m : gmap Span (Span * bool)) (frozen : bool) (g : Globals) : Globals := mkGlobals (spans g) m frozen (tracked g).
Definition metavar_insert (span var_span : Span) : SM bool := fun g =>
  if frozen g then Panic else
  match metavar_spans g !! span with
  | Some (known, _) => Ret (bool_decide (known = var_span), g)
  | None => Ret (true, set_metavars (<[span := (var_span, false)]> (metavar_spans g)) false g)
  end.
Definition metavar_get (span : Span) : SM (option Span) := fun g =>
  if frozen g then Ret (match metavar_spans g !! span with Some (var_span, true) => Some var_span | _ => None end, g)
  else match metavar_spans g !! span with
       | Some (var_span, _) => Ret (Some var_span, set_metavars (<[span := (var_span, true)]> (metavar_spans g)) false g)
       | None => Ret (None, g)
       end.
Definition freeze_and_get_read_spans : SM (gmap Span Span) := fun g =>
  Ret (omap (fun e : Span * bool => if e.2 then Some e.1 else None) (metavar_spans g), set_metavars (metavar_spans g) true g).

Definition try_metavars (a b : SpanData) (a_orig b_orig : Span) : SM (SpanData * SpanData) :=
  let! ma := metavar_get a_orig in
  let! mb := metavar_get b_orig in
  match ma, mb with
  | None, None => ret (a, b)
  | Some meta_a, None =>
      let! meta_a := data meta_a in ret (if ctxt meta_a =? ctxt b then (meta_a, b) else (a, b))
  | None, Some meta_b =>
      let! meta_b := data meta_b in ret (if ctxt a =? ctxt meta_b then (a, meta_b) else (a, b))
  | Some meta_a, Some meta_b =>
      let! meta_b := data meta_b in
      if ctxt a =? ctxt meta_b then ret (a, meta_b)
      else
        let! meta_a := data meta_a in
        ret (if ctxt meta_a =? ctxt b then (meta_a, b) else if ctxt meta_a =? ctxt meta_b then (meta_a, meta_b) else (a, b))
  end.

Section Hygiene.
(** [ctxt.outer_expn_data().call_site], and a bound on the depth of nested expansions. *)
Context (call_site : Z -> Span) (depth : nat).

Fixpoint source_callsite_from (fuel : nat) (self : Span) : SM Span :=
  match fuel with
  | O => out_of_fuel
  | S fuel => let! c := span_ctxt self in if negb (c =? ROOT) then source_callsite_from fuel (call_site c) else ret self
  end.
Definition source_callsite (self : Span) : SM Span := source_callsite_from depth self.

Definition parent_callsite (self : Span) : SM (option Span) :=
  let! c := span_ctxt self in ret (if c =? ROOT then None else Some (call_site c)).

(** The four loops [while test(self) { self = self.parent_callsite()?; } Some(self)]. *)
Fixpoint find_ancestor (fuel : nat) (go_up : Span -> SM bool) (self : Span) : SM (option Span) :=
  match fuel with
  | O => out_of_fuel
  | S fuel =>
      let! up := go_up self in
      if (up : bool) then let! p := parent_callsite self in match p with Some p => find_ancestor fuel go_up p | None => ret None end
      else ret (Some self)
  end.
Definition find_ancestor_inside (self outer : Span) : SM (option Span) :=
  find_ancestor depth (fun s => let! c := contains outer s in ret (negb c)) self.
Definition find_ancestor_in_same_ctxt (self other : Span) : SM (option Span) :=
  find_ancestor depth (fun s => let! e := eq_ctxt s other in ret (negb e)) self.
Definition find_ancestor_inside_same_ctxt (self outer : Span) : SM (option Span) :=
  find_ancestor depth (fun s => let! c := contains outer s in if negb c then ret true else let! e := eq_ctxt s outer in ret (negb e)) self.
Definition find_ancestor_not_from_macro (self : Span) : SM (option Span) :=
  find_ancestor depth (fun s => ret (from_expansion s)) self.

Definition common_parent (a b : SpanData) : option Z := if bool_decide (parent a = parent b) then parent a else None.

(** The two spans and the parent of the combination, or the span to fall back to. *)
Definition prepare_to_combine (a_orig b_orig : Span) : SM (SpanData * SpanData * option Z + Span) :=
  let! a := data a_orig in
  let! b := data b_orig in
  if ctxt a =? ctxt b then ret (inl (a, b, common_parent a b))
  else
    let! '(a, b) := try_metavars a b a_orig b_orig in
    if ctxt a =? ctxt b then ret (inl (a, b, common_parent a b))
    else if ctxt a =? ROOT then ret (inr b_orig)
    else
      let! s := data_span b in
      let! site := source_callsite s in
      let! c := span_ctxt site in
      ret (inr (if ctxt a =? c then b_orig else a_orig)).

Definition with_neighbor (self neighbor : Span) : SM Span :=
  let! r := prepare_to_combine self neighbor in
  match r with inl (this, _, _) => data_span this | inr _ => ret self end.

Definition to_general (self end_ : Span) : SM Span :=
  let! r := prepare_to_combine self end_ in
  match r with
  | inl (from, to, parent) => span_new (Z.min (lo from) (lo to)) (Z.max (hi from) (hi to)) (ctxt from) parent
  | inr fallback => ret fallback
  end.

Definition span_to (self end_ : Span) : SM Span :=
  let! fast := to_same_inline_ctxt self end_ in
  match fast with Some span => ret span | None => to_general self end_ end.

Definition between (self end_ : Span) : SM Span :=
  let! r := prepare_to_combine self end_ in
  match r with
  | inl (from, to, parent) => span_new (Z.min (hi from) (hi to)) (Z.max (lo from) (lo to)) (ctxt from) parent
  | inr fallback => ret fallback
  end.

Definition until (self end_ : Span) : SM Span :=
  let! r := prepare_to_combine self end_ in
  match r with
  | inl (from, to, parent) => span_new (Z.min (lo from) (lo to)) (Z.max (lo from) (lo to)) (ctxt from) parent
  | inr fallback => ret fallback
  end.
End Hygiene.

(** [from_inner]; [BytePos::from_usize] casts. *)
Definition from_inner (self : Span) (start end_ : Z) : SM Span :=
  let! d := data self in
  span_new (wrap_u32 (lo d + wrap_u32 start)) (wrap_u32 (lo d + wrap_u32 end_)) (ctxt d) (parent d).
