(* ===== verification/SpanFacts.v ===== *)
(** * Compressed spans: what a span encodes

    [encodes table d s]: the span [s] stands for the data [d] when the interner holds [table].
    [Span::new] yields such a span, every reader of a span agrees with the data, and a table that
    only grows keeps the meaning of its spans. *)
From Stdlib Require Import ZArith Lia.
From stdpp Require Import base numbers list gmap option.
From S2P Require Import Prelude SpanEnc.
#[local] Open Scope Z_scope.

Definition is_u32 (z : Z) : Prop := 0 <= z <= u32_max.
Definition data_ok (d : SpanData) : Prop :=
  is_u32 (lo d) /\ is_u32 (hi d) /\ lo d <= hi d /\ is_u32 (ctxt d) /\ (forall p, parent d = Some p -> is_u32 p).

(** Whether all the data fit into the eight bytes. *)
Definition fits (d : SpanData) : bool :=
  (hi d - lo d <=? MAX_LEN) && (ctxt d <=? MAX_CTXT)
  && match parent d with None => true | Some p => (ctxt d =? 0) && (p <=? MAX_CTXT) end.

Definition inline_span (d : SpanData) : Span :=
  match parent d with
  | None => InlineCtxt_span (lo d) (hi d - lo d) (ctxt d)
  | Some p => InlineParent_span (lo d) (hi d - lo d) p
  end.

(** What the interner holds for data that do not fit. *)
Definition stored (d : SpanData) : SpanData := mkData (lo d) (hi d) (if ctxt d <=? MAX_CTXT then u32_max else ctxt d) (parent d).
Definition interned_span (d : SpanData) (index : Z) : Span :=
  if ctxt d <=? MAX_CTXT then PartiallyInterned_span index (ctxt d) else Interned_span index.

Definition encodes (table : list SpanData) (d : SpanData) (s : Span) : Prop :=
  if fits d then s = inline_span d
  else exists i, table !! i = Some (stored d) /\ Z.of_nat i <= u32_max /\ s = interned_span d (Z.of_nat i).

Definition room (g : Globals) : Prop := NoDup (spans g) /\ Z.of_nat (length (spans g)) <= u32_max.

(** ** Bits *)

Lemma land_tag len : 0 <= len <= NOT_PARENT_TAG -> Z.land len PARENT_TAG = 0.
Proof.
  unfold NOT_PARENT_TAG, PARENT_TAG. intros H. replace len with (Z.land len (Z.ones 15)) by (rewrite Z.land_ones by lia; apply Z.mod_small; lia).
  rewrite <- Z.land_assoc. change (Z.land (Z.ones 15) 32768) with 0. apply Z.land_0_r.
Qed.

Lemma land_not_tag len : 0 <= len <= NOT_PARENT_TAG -> Z.land len NOT_PARENT_TAG = len.
Proof. unfold NOT_PARENT_TAG. intros H. change 32767 with (Z.ones 15). rewrite Z.land_ones by lia. apply Z.mod_small. lia. Qed.

Lemma tagged_land_tag len : 0 <= len <= NOT_PARENT_TAG -> Z.land (Z.lor PARENT_TAG len) PARENT_TAG = PARENT_TAG.
Proof. intros H. by rewrite Z.land_lor_distr_l, (land_tag len H), Z.lor_0_r. Qed.

Lemma tagged_land_not_tag len : 0 <= len <= NOT_PARENT_TAG -> Z.land (Z.lor PARENT_TAG len) NOT_PARENT_TAG = len.
Proof. intros H. rewrite Z.land_lor_distr_l, (land_not_tag len) by done. by apply Z.lor_0_l. Qed.

Lemma tagged_not_marker len : 0 <= len <= MAX_LEN -> Z.lor PARENT_TAG len <> BASE_LEN_INTERNED_MARKER.
Proof.
  intros H E. assert (HL : Z.land BASE_LEN_INTERNED_MARKER NOT_PARENT_TAG = len).
  { rewrite <- E. apply tagged_land_not_tag. unfold MAX_LEN, NOT_PARENT_TAG in *. lia. }
  change (Z.land BASE_LEN_INTERNED_MARKER NOT_PARENT_TAG) with 32767 in HL. unfold MAX_LEN in H. lia.
Qed.

Lemma tagged_width len : 0 <= len <= NOT_PARENT_TAG -> 0 <= Z.lor PARENT_TAG len < 65536.
Proof.
  intros H. pose proof (Z.add_lor_land PARENT_TAG len) as HA. rewrite (Z.land_comm PARENT_TAG), (land_tag len H) in HA. unfold PARENT_TAG, NOT_PARENT_TAG in *. lia.
Qed.

Lemma wrap_u16_small z : 0 <= z <= MAX_LEN -> wrap_u16 z = z.
Proof. intros H. apply Z.mod_small. unfold MAX_LEN in H. lia. Qed.

Lemma wrap_u32_exact z : is_u32 z -> wrap_u32 z = z.
Proof. intros H. apply Z.mod_small. unfold is_u32, u32_max in H. lia. Qed.

(** ** The interner *)

Lemma index_of_Some d l i : index_of d l = Some i -> l !! i = Some d.
Proof.
  revert i. induction l as [|x l IH]; intros i; simpl; [done|]. case_bool_decide as E.
  - intros [= <-]. by subst.
  - destruct (index_of d l) as [j|]; [|done]. intros [= <-]. simpl. by apply IH.
Qed.

Lemma index_of_None d l : index_of d l = None -> d ∉ l.
Proof.
  induction l as [|x l IH]; simpl; [intros _; apply not_elem_of_nil|]. case_bool_decide as E; [done|].
  destruct (index_of d l); [done|]. intros _. apply not_elem_of_cons. split; [congruence|]. by apply IH.
Qed.

(** What interning leaves behind: a longer table, everything else untouched. *)
Definition extends (g g' : Globals) : Prop :=
  spans g `prefix_of` spans g' /\ NoDup (spans g') /\ (length (spans g') <= S (length (spans g)))%nat
  /\ metavar_spans g' = metavar_spans g /\ frozen g' = frozen g /\ tracked g' = tracked g.

Lemma extends_self g : NoDup (spans g) -> extends g g.
Proof. intros H. split_and!; try done. lia. Qed.

Lemma intern_spec d g : room g ->
  exists i g', intern d g = Ret (Z.of_nat i, g') /\ spans g' !! i = Some d /\ Z.of_nat i <= u32_max /\ extends g g'.
Proof.
  intros [HN HL]. unfold intern. destruct (index_of d (spans g)) as [i|] eqn:E.
  - apply index_of_Some in E. pose proof (lookup_lt_Some _ _ _ E). exists i, g. rewrite wrap_u32_exact by (unfold is_u32; lia).
    split_and!; try done; [lia|]. by apply extends_self.
  - apply index_of_None in E. exists (length (spans g)). eexists. rewrite wrap_u32_exact by (unfold is_u32; lia). split; [done|]. simpl. split_and!.
    + by apply list_lookup_middle.
    + done.
    + unfold extends. simpl. split_and!; try done.
      * by apply prefix_app_r.
      * apply list.NoDup_app. split_and!; [done| |apply NoDup_singleton]. intros x Hx ->%list_elem_of_singleton. done.
      * rewrite length_app. simpl. lia.
Qed.

(** ** Encoding *)

Lemma encodes_mono t t' d s : t `prefix_of` t' -> encodes t d s -> encodes t' d s.
Proof. unfold encodes. intros HP. destruct (fits d); [done|]. intros (i & Hi & ?). exists i. split; [by eapply prefix_lookup_Some|done]. Qed.

Lemma encodes_fun t d s s' : NoDup t -> encodes t d s -> encodes t d s' -> s = s'.
Proof.
  unfold encodes. intros HN. destruct (fits d); [congruence|]. intros (i & Hi & _ & ->) (j & Hj & _ & ->).
  by rewrite (NoDup_lookup t i j _ HN Hi Hj).
Qed.

(** The data of a span that fits. *)
Lemma fits_bounds d : data_ok d -> fits d = true ->
  0 <= hi d - lo d <= MAX_LEN /\ 0 <= ctxt d <= MAX_CTXT /\ (forall p, parent d = Some p -> ctxt d = 0 /\ 0 <= p <= MAX_CTXT).
Proof.
  unfold fits. intros (? & ? & ? & [? ?] & HP) Hf. propify. split; [lia|]. split; [lia|]. intros p E. rewrite E in *. propify. destruct (HP p eq_refl). lia.
Qed.

(** The four cases of an encoded span: its format, and that decoding it gives the data. *)
Lemma encodes_kind t d s : data_ok d -> encodes t d s ->
  (parent d = None /\ 0 <= hi d - lo d <= MAX_LEN /\ 0 <= ctxt d <= MAX_CTXT /\ s = mkSpan (lo d) (hi d - lo d) (ctxt d)
    /\ match_span_kind s = InlineCtxt (lo d) (hi d - lo d) (ctxt d))
  \/ (exists p, parent d = Some p /\ 0 <= hi d - lo d <= MAX_LEN /\ 0 <= p <= MAX_CTXT /\ ctxt d = 0 /\ s = mkSpan (lo d) (Z.lor PARENT_TAG (hi d - lo d)) p
    /\ match_span_kind s = InlineParent (lo d) (Z.lor PARENT_TAG (hi d - lo d)) p)
  \/ (exists i, fits d = false /\ t !! i = Some (stored d) /\ Z.of_nat i <= u32_max /\ 0 <= ctxt d <= MAX_CTXT /\ s = mkSpan (Z.of_nat i) BASE_LEN_INTERNED_MARKER (ctxt d)
    /\ match_span_kind s = PartiallyInterned (Z.of_nat i) (ctxt d))
  \/ (exists i, fits d = false /\ t !! i = Some d /\ Z.of_nat i <= u32_max /\ MAX_CTXT < ctxt d /\ s = mkSpan (Z.of_nat i) BASE_LEN_INTERNED_MARKER CTXT_INTERNED_MARKER
    /\ match_span_kind s = Interned (Z.of_nat i)).
Proof.
  intros Hd. unfold encodes. destruct (fits d) eqn:Ef.
  - intros ->. destruct (fits_bounds d Hd Ef) as (HL & HC & HP). unfold inline_span. destruct (parent d) as [p|] eqn:Ep.
    + right. left. exists p. destruct (HP p eq_refl) as [? ?]. split_and!; try done; try lia. unfold match_span_kind, InlineParent_span. cbn [len_with_tag_or_marker lo_or_index ctxt_or_parent_or_marker].
      rewrite (proj2 (Z.eqb_neq _ _) (tagged_not_marker _ HL)). cbn [negb]. rewrite tagged_land_tag; [done|]. unfold MAX_LEN, NOT_PARENT_TAG in *. lia.
    + left. split_and!; try done; try lia. unfold match_span_kind, InlineCtxt_span. cbn [len_with_tag_or_marker lo_or_index ctxt_or_parent_or_marker].
      rewrite (proj2 (Z.eqb_neq _ _)) by (unfold MAX_LEN, BASE_LEN_INTERNED_MARKER in *; lia). cbn [negb]. by rewrite land_tag by (unfold MAX_LEN, NOT_PARENT_TAG in *; lia).
  - intros (i & Hi & Hm & ->). unfold interned_span, stored in *. destruct Hd as (_ & _ & _ & [? ?] & _). right; right. destruct (ctxt d <=? MAX_CTXT) eqn:Ec; propify.
    + left. exists i. split_and!; try done. unfold match_span_kind. cbn. rewrite (proj2 (Z.eqb_neq _ _)) by (unfold MAX_CTXT, CTXT_INTERNED_MARKER in *; lia). done.
    + right. exists i. rewrite Hi. split_and!; try done. by destruct d.
Qed.

Lemma stored_small d : ctxt d <= MAX_CTXT -> stored d = mkData (lo d) (hi d) u32_max (parent d).
Proof. intros H. unfold stored. by rewrite (proj2 (Z.leb_le _ _) H). Qed.

Lemma interned_lookup i d g : spans g !! i = Some d -> interned (Z.of_nat i) g = Ret (d, g).
Proof. intros H. unfold interned. by rewrite Nat2Z.id, H. Qed.

Lemma hi_exact d len : data_ok d -> len = hi d - lo d -> wrap_u32 (lo d + len) = hi d.
Proof. intros (_ & ? & _) ->. rewrite wrap_u32_exact; [lia|]. by replace (lo d + (hi d - lo d)) with (hi d) by lia. Qed.

Lemma small_len n : 0 <= n <= MAX_LEN -> 0 <= n <= NOT_PARENT_TAG.
Proof. unfold MAX_LEN, NOT_PARENT_TAG. lia. Qed.

Lemma inline_ctxt_decodes d : data_ok d -> parent d = None -> inline_ctxt_data (lo d) (hi d - lo d) (ctxt d) = d.
Proof. intros Hd Hp. unfold inline_ctxt_data. rewrite (hi_exact d) by done. destruct d; simpl in *. by rewrite Hp. Qed.

Lemma inline_parent_decodes d p : data_ok d -> 0 <= hi d - lo d <= MAX_LEN -> parent d = Some p -> ctxt d = 0 ->
  inline_parent_data (lo d) (Z.lor PARENT_TAG (hi d - lo d)) p = d.
Proof.
  intros Hd HL Hp Hc. unfold inline_parent_data. rewrite tagged_land_not_tag by (by apply small_len). rewrite (hi_exact d) by done. destruct d; simpl in *.
  by rewrite Hp, Hc.
Qed.

Lemma partially_interned_decodes i d g : ctxt d <= MAX_CTXT -> spans g !! i = Some (stored d) -> partially_interned_data (Z.of_nat i) (ctxt d) g = Ret (d, g).
Proof.
  intros Hc Hi. unfold partially_interned_data, bind. rewrite (interned_lookup _ _ _ Hi), (stored_small d Hc). unfold ret. simpl. by destruct d.
Qed.

Lemma data_untracked_encodes g d s : data_ok d -> encodes (spans g) d s -> data_untracked s g = Ret (d, g).
Proof.
  intros Hd He. unfold data_untracked.
  destruct (encodes_kind _ _ _ Hd He) as [(Hp & ? & ? & -> & ->)|[(p & Hp & ? & ? & Hc & -> & ->)|[(i & _ & Hi & _ & ? & -> & ->)|(i & _ & Hi & _ & _ & -> & ->)]]].
  - by rewrite inline_ctxt_decodes.
  - by rewrite inline_parent_decodes.
  - apply partially_interned_decodes; [lia|done].
  - by apply interned_lookup.
Qed.

Lemma encodes_inj g d d' s : data_ok d -> data_ok d' -> encodes (spans g) d s -> encodes (spans g) d' s -> d = d'.
Proof. intros H H' He He'. pose proof (data_untracked_encodes _ _ _ H He) as E. rewrite (data_untracked_encodes _ _ _ H' He') in E. by injection E. Qed.

(** ** [Span::new] *)

Definition normalized (lo hi ctxt : Z) (parent : option Z) : SpanData := mkData (Z.min lo hi) (Z.max lo hi) ctxt parent.

(** Data that fit are encoded without the interner. *)
Lemma span_new_fits d g : data_ok d -> fits d = true -> span_new (lo d) (hi d) (ctxt d) (parent d) g = Ret (inline_span d, g).
Proof.
  intros Hd Hf. destruct (fits_bounds d Hd Hf) as (HL & HC & HQ). unfold span_new, inline_span. rewrite (proj2 (Z.ltb_ge _ _)) by lia.
  rewrite (proj2 (Z.leb_le _ _)), (proj2 (Z.leb_le (ctxt d) _)) by lia. simpl. destruct (parent d) as [p|].
  - destruct (HQ p eq_refl) as [Hc ?]. rewrite Hc, (proj2 (Z.leb_le p _)) by lia. simpl. by rewrite !wrap_u16_small by (unfold MAX_CTXT, MAX_LEN in *; lia).
  - by rewrite !wrap_u16_small by (unfold MAX_CTXT, MAX_LEN in *; lia).
Qed.

Lemma span_new_ordered d g : data_ok d -> room g ->
  exists s g', span_new (lo d) (hi d) (ctxt d) (parent d) g = Ret (s, g') /\ encodes (spans g') d s /\ extends g g'.
Proof.
  intros Hd HR. pose proof Hd as (? & ? & ? & [? ?] & HP). unfold span_new. rewrite (proj2 (Z.ltb_ge _ _)) by lia.
  assert (HI : fits d = false -> exists s g',
    (if ctxt d <=? MAX_CTXT
     then bind (intern (mkData (lo d) (hi d) u32_max (parent d))) (fun index => ret (PartiallyInterned_span index (wrap_u16 (ctxt d))))
     else bind (intern (mkData (lo d) (hi d) (ctxt d) (parent d))) (fun index => ret (Interned_span index))) g = Ret (s, g')
    /\ encodes (spans g') d s /\ extends g g').
  { intros Hf. unfold encodes. rewrite Hf. unfold interned_span, stored, bind. destruct (ctxt d <=? MAX_CTXT) eqn:Ec.
    - destruct (intern_spec (mkData (lo d) (hi d) u32_max (parent d)) g HR) as (i & g' & -> & Hi & Hm & HE). do 2 eexists. split; [done|]. split; [|done].
      exists i. propify. rewrite wrap_u16_small by (unfold MAX_CTXT, MAX_LEN in *; lia). done.
    - destruct (intern_spec (mkData (lo d) (hi d) (ctxt d) (parent d)) g HR) as (i & g' & -> & Hi & Hm & HE). do 2 eexists. split; [done|]. split; [|done]. by exists i. }
  destruct (fits d) eqn:Hf.
  - pose proof (span_new_fits d g Hd Hf) as HN. unfold span_new in HN. rewrite (proj2 (Z.ltb_ge _ _)) in HN by lia. do 2 eexists. split; [exact HN|].
    split; [unfold encodes; by rewrite Hf|apply extends_self, HR].
  - specialize (HI eq_refl). unfold fits in Hf. destruct (hi d - lo d <=? MAX_LEN), (ctxt d <=? MAX_CTXT); simpl in *; try exact HI. destruct (parent d) as [p|]; [|done].
    by rewrite Hf.
Qed.

Lemma normalized_ok lo hi ctxt parent : is_u32 lo -> is_u32 hi -> is_u32 ctxt -> (forall p, parent = Some p -> is_u32 p) -> data_ok (normalized lo hi ctxt parent).
Proof. unfold data_ok, normalized, is_u32. simpl. intros. split_and!; try lia. done. Qed.

Lemma normalized_id d : data_ok d -> normalized (lo d) (hi d) (ctxt d) (parent d) = d.
Proof. intros (_ & _ & ? & _). unfold normalized. rewrite Z.min_l, Z.max_r by lia. by destruct d. Qed.

Lemma span_new_swap lo hi ctxt parent : span_new lo hi ctxt parent = span_new (Z.min lo hi) (Z.max lo hi) ctxt parent.
Proof.
  unfold span_new. destruct (hi <? lo) eqn:E; propify.
  - rewrite Z.min_r, Z.max_l by lia. by rewrite (proj2 (Z.ltb_ge _ _)) by lia.
  - rewrite Z.min_l, Z.max_r by lia. by rewrite (proj2 (Z.ltb_ge _ _)) by lia.
Qed.

Lemma span_new_encodes lo hi ctxt parent g : data_ok (normalized lo hi ctxt parent) -> room g ->
  exists s g', span_new lo hi ctxt parent g = Ret (s, g') /\ encodes (spans g') (normalized lo hi ctxt parent) s /\ extends g g'.
Proof. intros Hd HR. rewrite span_new_swap. exact (span_new_ordered _ g Hd HR). Qed.

(** ** Running the readers *)

Lemma bind_run {A B} (m : SM A) (k : A -> SM B) g x g' : m g = Ret (x, g') -> bind m k g = k x g'.
Proof. intros H. unfold bind. by rewrite H. Qed.

(** The globals after [SPAN_TRACK] has been called for a parent. *)
Definition tracking (p : option Z) (g : Globals) : Globals :=
  match p with Some p => mkGlobals (spans g) (metavar_spans g) (frozen g) (p :: tracked g) | None => g end.

Lemma track_opt_run p g : track_opt p g = Ret (tt, tracking p g).
Proof. by destruct p. Qed.

Lemma spans_tracking p g : spans (tracking p g) = spans g.
Proof. by destruct p. Qed.

Lemma room_tracking p g : room g -> room (tracking p g).
Proof. unfold room. by rewrite spans_tracking. Qed.

Lemma data_encodes g d s : data_ok d -> encodes (spans g) d s -> data s g = Ret (d, tracking (parent d) g).
Proof.
  intros Hd He. unfold data. rewrite (bind_run _ _ _ _ _ (data_untracked_encodes g d s Hd He)), (bind_run _ _ _ _ _ (track_opt_run _ _)). done.
Qed.

Lemma data2_encodes {B} g d1 d2 s1 s2 (k : SpanData -> SpanData -> SM B) :
  data_ok d1 -> data_ok d2 -> encodes (spans g) d1 s1 -> encodes (spans g) d2 s2 ->
  bind (data s1) (fun x => bind (data s2) (k x)) g = k d1 d2 (tracking (parent d2) (tracking (parent d1) g)).
Proof.
  intros H1 H2 E1 E2. rewrite (bind_run _ _ _ _ _ (data_encodes g d1 s1 H1 E1)). rewrite <- (spans_tracking (parent d1) g) in E2.
  by rewrite (bind_run _ _ _ _ _ (data_encodes _ d2 s2 H2 E2)).
Qed.

Lemma span_ctxt_encodes g d s : data_ok d -> encodes (spans g) d s -> span_ctxt s g = Ret (ctxt d, g).
Proof.
  intros Hd He. unfold span_ctxt, inline_ctxt.
  destruct (encodes_kind _ _ _ Hd He) as [(Hp & ? & ? & -> & ->)|[(p & Hp & ? & ? & Hc & -> & ->)|[(i & _ & Hi & _ & ? & -> & ->)|(i & _ & Hi & _ & _ & -> & ->)]]]; try done.
  - by rewrite Hc.
  - by rewrite (bind_run _ _ _ _ _ (interned_lookup i d g Hi)).
Qed.

Lemma span_parent_encodes g d s : data_ok d -> encodes (spans g) d s -> span_parent s g = Ret (parent d, g).
Proof.
  intros Hd He. unfold span_parent.
  destruct (encodes_kind _ _ _ Hd He) as [(Hp & ? & ? & -> & ->)|[(p & Hp & ? & ? & Hc & -> & ->)|[(i & _ & Hi & _ & ? & -> & ->)|(i & _ & Hi & _ & _ & -> & ->)]]].
  - by rewrite Hp.
  - by rewrite Hp.
  - by rewrite (bind_run _ _ _ _ _ (interned_lookup i _ g Hi)).
  - by rewrite (bind_run _ _ _ _ _ (interned_lookup i d g Hi)).
Qed.

Lemma is_dummy_encodes g d s : data_ok d -> encodes (spans g) d s -> is_dummy s g = Ret (data_is_dummy d, g).
Proof.
  intros Hd He. pose proof Hd as ([? ?] & [? ?] & _). unfold is_dummy, data_is_dummy.
  destruct (encodes_kind _ _ _ Hd He) as [(Hp & ? & ? & -> & _)|[(p & Hp & ? & ? & Hc & -> & _)|[(i & _ & Hi & _ & ? & -> & _)|(i & _ & Hi & _ & _ & -> & _)]]]; cbn [len_with_tag_or_marker lo_or_index].
  - rewrite (proj2 (Z.eqb_neq _ _)) by (unfold MAX_LEN, BASE_LEN_INTERNED_MARKER in *; lia). cbn [negb]. rewrite land_not_tag by (by apply small_len). unfold ret. f_equal. f_equal.
    destruct (Z.eqb_spec (lo d) 0) as [->|]; [|done]. simpl. by rewrite Z.sub_0_r.
  - rewrite (proj2 (Z.eqb_neq (Z.lor PARENT_TAG (hi d - lo d)) _)) by (by apply tagged_not_marker). cbn [negb]. rewrite tagged_land_not_tag by (by apply small_len). unfold ret. f_equal. f_equal.
    destruct (Z.eqb_spec (lo d) 0) as [->|]; [|done]. simpl. by rewrite Z.sub_0_r.
  - rewrite Z.eqb_refl. cbn [negb]. by rewrite (bind_run _ _ _ _ _ (interned_lookup i _ g Hi)).
  - rewrite Z.eqb_refl. cbn [negb]. by rewrite (bind_run _ _ _ _ _ (interned_lookup i d g Hi)).
Qed.

Lemma from_expansion_encodes t d s : data_ok d -> encodes t d s -> from_expansion s = negb (ctxt d =? ROOT).
Proof.
  intros Hd He. unfold from_expansion.
  destruct (encodes_kind _ _ _ Hd He) as [(Hp & ? & ? & -> & ->)|[(p & Hp & ? & ? & Hc & -> & ->)|[(i & _ & Hi & _ & ? & -> & ->)|(i & _ & Hi & _ & ? & -> & ->)]]]; try done.
  - by rewrite Hc.
  - rewrite (proj2 (Z.eqb_neq (ctxt d) _)); [done|]. unfold MAX_CTXT, ROOT in *. lia.
Qed.

Lemma inline_ctxt_encodes t d s : data_ok d -> encodes t d s ->
  (ctxt d <= MAX_CTXT /\ inline_ctxt s = inl (ctxt d)) \/ (exists i, MAX_CTXT < ctxt d /\ t !! i = Some d /\ inline_ctxt s = inr (Z.of_nat i)).
Proof.
  intros Hd He. unfold inline_ctxt.
  destruct (encodes_kind _ _ _ Hd He) as [(Hp & ? & ? & -> & ->)|[(p & Hp & ? & ? & Hc & -> & ->)|[(i & _ & Hi & _ & ? & -> & ->)|(i & _ & Hi & _ & ? & -> & ->)]]].
  - left. split; [lia|done].
  - left. rewrite Hc. split; [unfold MAX_CTXT; lia|done].
  - left. split; [lia|done].
  - right. by exists i.
Qed.

Lemma eq_ctxt_encodes g d1 d2 s1 s2 : data_ok d1 -> data_ok d2 -> encodes (spans g) d1 s1 -> encodes (spans g) d2 s2 ->
  eq_ctxt s1 s2 g = Ret (ctxt d1 =? ctxt d2, g).
Proof.
  intros H1 H2 E1 E2. unfold eq_ctxt.
  destruct (inline_ctxt_encodes _ _ _ H1 E1) as [[? ->]|(i & ? & Hi & ->)], (inline_ctxt_encodes _ _ _ H2 E2) as [[? ->]|(j & ? & Hj & ->)]; try done.
  - unfold ret. f_equal. f_equal. symmetry. apply Z.eqb_neq. lia.
  - unfold ret. f_equal. f_equal. symmetry. apply Z.eqb_neq. lia.
  - by rewrite (bind_run _ _ _ _ _ (interned_lookup i _ g Hi)), (bind_run _ _ _ _ _ (interned_lookup j _ g Hj)).
Qed.
