(* ===== verification/SpanTheorems.v ===== *)
(** * Compressed spans: the results *)
From Stdlib Require Import ZArith Lia.
From stdpp Require Import base numbers list gmap option.
From S2P Require Import Prelude SpanEnc SpanFacts.
#[local] Open Scope Z_scope.
#[local] Open Scope span_scope.

(** A span that stands for data in the current interner. *)
Definition valid (g : Globals) (s : Span) : Prop := exists d, data_ok d /\ encodes (spans g) d s.

Lemma valid_intro g d s : data_ok d -> encodes (spans g) d s -> valid g s.
Proof. intros H E. by exists d. Qed.
#[local] Hint Resolve valid_intro : core.

(** C13: Whatever the format, a new span stands for the given data, the bounds in order, now and in every later state of the
    interner; its fields keep their widths, and making it adds at most one entry to the interner and changes nothing else. *)
Theorem span_roundtrip lo hi ctxt parent g :
  is_u32 lo -> is_u32 hi -> is_u32 ctxt -> (forall p, parent = Some p -> is_u32 p) -> room g ->
  exists s g', span_new lo hi ctxt parent g = Ret (s, g') /\ extends g g'
    /\ is_u32 (lo_or_index s) /\ 0 <= len_with_tag_or_marker s < 65536 /\ 0 <= ctxt_or_parent_or_marker s < 65536
    /\ forall later, spans g' `prefix_of` spans later ->
         data_untracked s later = Ret (mkData (Z.min lo hi) (Z.max lo hi) ctxt parent, later).
Proof.
  intros Hl Hh Hc Hp HR. pose proof (normalized_ok lo hi ctxt parent Hl Hh Hc Hp) as Hd.
  destruct (span_new_encodes lo hi ctxt parent g Hd HR) as (s & g' & E & He & Hx). exists s, g'. split; [done|]. split; [done|].
  assert (HL : forall later, spans g' `prefix_of` spans later -> data_untracked s later = Ret (mkData (Z.min lo hi) (Z.max lo hi) ctxt parent, later))
    by (intros later HP; apply data_untracked_encodes; [done|by eapply encodes_mono]).
  pose proof Hd as ([? ?] & _). unfold is_u32, MAX_LEN, MAX_CTXT in *.
  destruct (encodes_kind _ _ _ Hd He) as [(_ & ? & ? & -> & _)|[(p & ? & ? & ? & _ & -> & _)|[(i & _ & _ & ? & ? & -> & _)|(i & _ & _ & ? & _ & -> & _)]]];
    cbn [lo_or_index len_with_tag_or_marker ctxt_or_parent_or_marker]; split_and!; try done;
    try (apply tagged_width, small_len; assumption); unfold MAX_LEN, MAX_CTXT in *; lia.
Qed.

(** The encoding is canonical, so comparing the eight bytes of two spans compares what they stand for: two spans made at
    any two moments are equal exactly when their bounds, contexts and parents are. *)
Theorem span_canonical lo1 hi1 ctxt1 parent1 lo2 hi2 ctxt2 parent2 g g1 g2 g3 s1 s2 :
  data_ok (normalized lo1 hi1 ctxt1 parent1) -> data_ok (normalized lo2 hi2 ctxt2 parent2) -> room g -> room g2 ->
  span_new lo1 hi1 ctxt1 parent1 g = Ret (s1, g1) -> spans g1 `prefix_of` spans g2 -> span_new lo2 hi2 ctxt2 parent2 g2 = Ret (s2, g3) ->
  s1 = s2 <-> normalized lo1 hi1 ctxt1 parent1 = normalized lo2 hi2 ctxt2 parent2.
Proof.
  intros H1 H2 HR HR2 E1 HP E2. destruct (span_new_encodes _ _ _ _ g H1 HR) as (x & y & E & He1 & _). rewrite E1 in E. injection E as <- <-.
  destruct (span_new_encodes _ _ _ _ g2 H2 HR2) as (x & y & E & He2 & (HP' & HN & _)). rewrite E2 in E. injection E as <- <-.
  assert (He : encodes (spans g3) (normalized lo1 hi1 ctxt1 parent1) s1) by (eapply encodes_mono; [|done]; by etrans). split.
  - intros <-. by eapply (encodes_inj g3).
  - intros Hn. rewrite Hn in He. by eapply encodes_fun.
Qed.

(** The readers that look at the format of a span, without decoding it, agree with its data: context, parent, dummy test,
    expansion test and the comparison of two contexts. *)
Theorem span_readers_agree g s1 s2 :
  valid g s1 -> valid g s2 ->
  exists d1 d2, data_untracked s1 g = Ret (d1, g) /\ data_untracked s2 g = Ret (d2, g)
    /\ span_ctxt s1 g = Ret (ctxt d1, g) /\ span_parent s1 g = Ret (parent d1, g) /\ is_dummy s1 g = Ret (data_is_dummy d1, g)
    /\ from_expansion s1 = negb (ctxt d1 =? ROOT) /\ eq_ctxt s1 s2 g = Ret (ctxt d1 =? ctxt d2, g).
Proof.
  intros (d1 & H1 & E1) (d2 & H2 & E2). exists d1, d2.
  split_and!; [by apply data_untracked_encodes|by apply data_untracked_encodes|by apply span_ctxt_encodes|by apply span_parent_encodes|by apply is_dummy_encodes| |by apply eq_ctxt_encodes].
  by eapply from_expansion_encodes.
Qed.

(** ** The shortcuts of the writers *)

Lemma map_ctxt_general g s f : valid g s -> (forall c, is_u32 (f c)) ->
  map_ctxt s f g = (let! d := data_untracked s in data_with_ctxt d (f (ctxt d))) g.
Proof.
  intros (d & Hd & He) Hf. unfold map_ctxt. rewrite (bind_run _ _ _ _ _ (data_untracked_encodes g d s Hd He)).
  destruct (encodes_kind _ _ _ Hd He) as [(Hp & HL & ? & -> & ->)|[(p & Hp & ? & ? & Hc & -> & ->)|[(i & _ & Hi & _ & ? & -> & ->)|(i & _ & Hi & _ & _ & -> & ->)]]].
  - rewrite inline_ctxt_decodes by done. destruct (f (ctxt d) <=? MAX_CTXT) eqn:Ef; [|done]. propify. specialize (Hf (ctxt d)) as [? ?].
    pose proof Hd as (? & ? & ? & _). pose (e := mkData (lo d) (hi d) (f (ctxt d)) None).
    assert (HN := span_new_fits e g). unfold e in HN; cbn [lo hi ctxt parent] in HN. unfold data_with_ctxt. rewrite Hp, HN.
    + unfold inline_span; cbn. rewrite wrap_u16_small by (unfold MAX_CTXT, MAX_LEN in *; lia). done.
    + by split_and!.
    + unfold fits; cbn. rewrite (proj2 (Z.leb_le _ _)), (proj2 (Z.leb_le (f (ctxt d)) _)) by lia. done.
  - by rewrite inline_parent_decodes.
  - by rewrite (bind_run _ _ _ _ _ (partially_interned_decodes i d g ltac:(lia) Hi)).
  - by rewrite (bind_run _ _ _ _ _ (interned_lookup i d g Hi)).
Qed.

Lemma with_parent_general g s p : valid g s -> (forall q, p = Some q -> is_u32 q) ->
  with_parent s p g = (let! d := data_untracked s in track_opt (parent d) ;; data_with_parent d p) g.
Proof.
  intros (d & Hd & He) Hf. unfold with_parent. rewrite (bind_run _ _ _ _ _ (data_untracked_encodes g d s Hd He)).
  destruct (encodes_kind _ _ _ Hd He) as [(Hp & HL & ? & -> & ->)|[(q & Hp & ? & ? & Hc & -> & ->)|[(i & _ & Hi & _ & ? & -> & ->)|(i & _ & Hi & _ & _ & -> & ->)]]].
  - rewrite Hp. pose proof Hd as (? & ? & ? & ? & _). rewrite (bind_run (track_opt None) _ _ _ _ (track_opt_run None g)). cbn [tracking].
    assert (HN : forall q, (forall x, q = Some x -> is_u32 x) -> fits (mkData (lo d) (hi d) (ctxt d) q) = true ->
      span_new (lo d) (hi d) (ctxt d) q g = Ret (inline_span (mkData (lo d) (hi d) (ctxt d) q), g))
      by (intros q Hq Hfit; apply (span_new_fits (mkData (lo d) (hi d) (ctxt d) q) g); [by split_and!|done]).
    destruct p as [q|].
    + destruct ((ctxt d =? 0) && (q <=? MAX_CTXT)) eqn:Eq.
      * unfold data_with_parent. rewrite HN; [|done|]; unfold inline_span, fits; cbn.
        { propify. destruct (Hf q eq_refl). by rewrite wrap_u16_small by (unfold MAX_CTXT, MAX_LEN in *; lia). }
        rewrite Eq, (proj2 (Z.leb_le _ _)), (proj2 (Z.leb_le (ctxt d) _)) by lia. done.
      * rewrite inline_ctxt_decodes by done. cbv zeta. by rewrite (bind_run _ _ _ _ _ (track_opt_run (parent d) g)), Hp.
    + unfold data_with_parent. rewrite HN; [done|done|]. unfold fits; cbn. by rewrite (proj2 (Z.leb_le _ _)), (proj2 (Z.leb_le (ctxt d) _)) by lia.
  - by rewrite inline_parent_decodes.
  - by rewrite (bind_run _ _ _ _ _ (partially_interned_decodes i d g ltac:(lia) Hi)).
  - by rewrite (bind_run _ _ _ _ _ (interned_lookup i d g Hi)).
Qed.

(** The span made depends on the interner alone. *)
Lemma intern_cong d g h i g' : spans g = spans h -> intern d g = Ret (i, g') -> exists h', intern d h = Ret (i, h').
Proof. intros Hs. unfold intern. rewrite Hs. destruct (index_of d (spans h)); intros [= <- <-]; by eexists. Qed.

Lemma span_new_cong lo hi ctxt parent g h s g' : span_new lo hi ctxt parent g = Ret (s, g') -> spans g = spans h ->
  exists h', span_new lo hi ctxt parent h = Ret (s, h').
Proof.
  intros E Hs. unfold span_new in *. destruct (if hi <? lo then _ else _) as [l u].
  assert (HI : forall d k, bind (intern d) k g = Ret (s, g') -> (forall i, k i = ret (A := Span) (match k i g with Ret (s, _) => s | _ => DUMMY_SP end)) -> exists h', bind (intern d) k h = Ret (s, h')).
  { intros d k Hk Hr. unfold bind in Hk. destruct (intern d g) as [[i g1]| |] eqn:Ei; try done. destruct (intern_cong d g h i g1 Hs Ei) as [h' Eh]. exists h'.
    rewrite (bind_run _ _ _ _ _ Eh). rewrite Hr in Hk |- *. by injection Hk as <- <-. }
  repeat match goal with
  | H : (if ?b then _ else _) _ = _ |- _ => destruct b
  | H : match ?o with _ => _ end _ = _ |- _ => destruct o
  | H : ret _ _ = Ret _ |- _ => injection H as <- <-; by eexists
  end; (apply HI in E; [exact E|done]).
Qed.

(** Only the inline-context format has a clear tag bit. *)
Lemma tag_clear t d s : data_ok d -> encodes t d s -> Z.land (len_with_tag_or_marker s) PARENT_TAG = 0 ->
  parent d = None /\ 0 <= hi d - lo d <= MAX_LEN /\ 0 <= ctxt d <= MAX_CTXT /\ s = mkSpan (lo d) (hi d - lo d) (ctxt d).
Proof.
  intros Hd He Ht.
  destruct (encodes_kind _ _ _ Hd He) as [(? & ? & ? & ? & _)|[(p & _ & HL & _ & _ & -> & _)|[(i & _ & _ & _ & _ & -> & _)|(i & _ & _ & _ & _ & -> & _)]]].
  - do 3 (split; [done|]). done.
  - cbn in Ht. rewrite tagged_land_tag in Ht by (by apply small_len). done.
  - done.
  - done.
Qed.

Section Combine.
Context (call_site : Z -> Span) (depth : nat).

Lemma prepare_same_ctxt g d1 d2 s1 s2 : data_ok d1 -> data_ok d2 -> encodes (spans g) d1 s1 -> encodes (spans g) d2 s2 -> ctxt d1 = ctxt d2 ->
  prepare_to_combine call_site depth s1 s2 g = Ret (inl (d1, d2, common_parent d1 d2), tracking (parent d2) (tracking (parent d1) g)).
Proof. intros H1 H2 E1 E2 Hc. unfold prepare_to_combine. rewrite (data2_encodes g d1 d2 s1 s2) by done. by rewrite Hc, Z.eqb_refl. Qed.

Lemma span_to_general g s1 s2 : valid g s1 -> valid g s2 -> span_to call_site depth s1 s2 g = to_general call_site depth s1 s2 g.
Proof.
  intros (d1 & H1 & E1) (d2 & H2 & E2). unfold span_to, to_same_inline_ctxt.
  destruct (negb _ || negb _) eqn:Et; [done|]. propify.
  rewrite Z.land_lor_distr_l in *. match goal with H : Z.lor _ _ = 0 |- _ => apply Z.lor_eq_0_iff in H as [T1 T2] end.
  destruct (tag_clear _ _ _ H1 E1 T1) as (P1 & L1 & C1 & S1), (tag_clear _ _ _ H2 E2 T2) as (P2 & L2 & C2 & S2).
  match goal with H : ctxt_or_parent_or_marker _ = _ |- _ => rename H into Hc end. rewrite S1, S2 in Hc. cbn in Hc.
  unfold to_general. rewrite (bind_run _ _ _ _ _ (prepare_same_ctxt g d1 d2 s1 s2 H1 H2 E1 E2 Hc)). unfold common_parent. rewrite P1, P2. cbn [tracking].
  rewrite S1, S2. cbn [len_with_tag_or_marker lo_or_index ctxt_or_parent_or_marker]. rewrite (hi_exact d1), (hi_exact d2) by done. rewrite bool_decide_true by done.
  pose proof H1 as ([? ?] & [? ?] & ? & ? & _). pose proof H2 as ([? ?] & [? ?] & ? & ? & _).
  set (l := Z.min (lo d1) (lo d2)). set (h := Z.max (hi d1) (hi d2)). rewrite (wrap_u32_exact (h - l)) by (unfold is_u32; lia).
  destruct (h - l <=? MAX_LEN) eqn:El.
  - unfold bind, ret. propify. pose (e := mkData l h (ctxt d1) None). assert (HN := span_new_fits e g). unfold e in HN. cbn [lo hi ctxt parent] in HN. rewrite HN.
    + unfold inline_span. cbn. rewrite wrap_u16_small by lia. done.
    + unfold data_ok, is_u32 in *. cbn. split_and!; try lia. done.
    + unfold fits. cbn. rewrite (proj2 (Z.leb_le _ _)), (proj2 (Z.leb_le (ctxt d1) _)) by lia. done.
  - unfold bind, ret. destruct (span_new l h (ctxt d1) None g) as [[s g']| |]; done.
Qed.

(** The operations with a shortcut for the common formats do what the general code does, down to the state of the
    interner and the calls of [SPAN_TRACK]: changing the context, changing the parent, joining two spans. *)
Theorem span_writers_agree g s1 s2 f p :
  valid g s1 -> valid g s2 -> (forall c, is_u32 (f c)) -> (forall q, p = Some q -> is_u32 q) ->
  map_ctxt s1 f g = (let! d := data_untracked s1 in data_with_ctxt d (f (ctxt d))) g
  /\ with_parent s1 p g = (let! d := data_untracked s1 in track_opt (parent d) ;; data_with_parent d p) g
  /\ span_to call_site depth s1 s2 g = to_general call_site depth s1 s2 g.
Proof. intros V1 V2 Hf Hp. split_and!; [by apply map_ctxt_general|by apply with_parent_general|by apply span_to_general]. Qed.

Lemma hull_ok d1 d2 p : data_ok d1 -> data_ok d2 -> (forall q, p = Some q -> is_u32 q) ->
  data_ok (mkData (Z.min (lo d1) (lo d2)) (Z.max (hi d1) (hi d2)) (ctxt d1) p).
Proof. intros ([? ?] & [? ?] & ? & ? & _) ([? ?] & [? ?] & ? & _) Hp. unfold data_ok, is_u32 in *. cbn. split_and!; try lia. done. Qed.

Lemma common_parent_ok d1 d2 q : data_ok d1 -> common_parent d1 d2 = Some q -> is_u32 q.
Proof. intros (_ & _ & _ & _ & HP). unfold common_parent. case_bool_decide; [|done]. apply HP. Qed.

Lemma to_general_hull g d1 d2 s1 s2 : data_ok d1 -> data_ok d2 -> encodes (spans g) d1 s1 -> encodes (spans g) d2 s2 -> ctxt d1 = ctxt d2 -> room g ->
  exists s g', to_general call_site depth s1 s2 g = Ret (s, g')
    /\ encodes (spans g') (mkData (Z.min (lo d1) (lo d2)) (Z.max (hi d1) (hi d2)) (ctxt d1) (common_parent d1 d2)) s
    /\ extends (tracking (parent d2) (tracking (parent d1) g)) g'.
Proof.
  intros H1 H2 E1 E2 Hc HR. unfold to_general. rewrite (bind_run _ _ _ _ _ (prepare_same_ctxt g d1 d2 s1 s2 H1 H2 E1 E2 Hc)).
  assert (Hh := hull_ok d1 d2 (common_parent d1 d2) H1 H2 (fun q => common_parent_ok d1 d2 q H1)).
  exact (span_new_ordered _ _ Hh (room_tracking _ _ (room_tracking _ _ HR))).
Qed.

(** Joining two spans of the same context gives the smallest span that contains both, in this context, with their parent
    if they have the same one; joining them the other way round gives the same eight bytes. *)
Theorem span_to_smallest g s1 s2 d1 d2 :
  data_ok d1 -> data_ok d2 -> encodes (spans g) d1 s1 -> encodes (spans g) d2 s2 -> ctxt d1 = ctxt d2 -> room g ->
  exists s g' d, span_to call_site depth s1 s2 g = Ret (s, g') /\ data_untracked s g' = Ret (d, g')
    /\ data_contains d d1 = true /\ data_contains d d2 = true
    /\ (forall e, data_contains e d1 = true -> data_contains e d2 = true -> data_contains e d = true)
    /\ ctxt d = ctxt d1 /\ parent d = common_parent d1 d2
    /\ exists g'', span_to call_site depth s2 s1 g = Ret (s, g'').
Proof.
  intros H1 H2 E1 E2 Hc HR. rewrite span_to_general by eauto. destruct (to_general_hull g d1 d2 s1 s2) as (s & g' & E & He & Hx); try done.
  assert (Hh := hull_ok d1 d2 (common_parent d1 d2) H1 H2 (fun q => common_parent_ok d1 d2 q H1)).
  do 3 eexists. split; [done|]. split; [by apply data_untracked_encodes|]. unfold data_contains. cbn [lo hi ctxt parent]. split_and!; try done.
  1-2: apply andb_true_iff; rewrite !Z.leb_le; lia.
  - intros e. rewrite !andb_true_iff, !Z.leb_le. lia.
  - rewrite span_to_general by eauto. unfold to_general in *.
    rewrite (bind_run _ _ _ _ _ (prepare_same_ctxt g d1 d2 s1 s2 H1 H2 E1 E2 Hc)) in E. rewrite (bind_run _ _ _ _ _ (prepare_same_ctxt g d2 d1 s2 s1 H2 H1 E2 E1 (eq_sym Hc))).
    rewrite (Z.min_comm (lo d2)), (Z.max_comm (hi d2)), <- Hc. replace (common_parent d2 d1) with (common_parent d1 d2).
    + destruct (span_new_cong _ _ _ _ _ (tracking (parent d1) (tracking (parent d2) g)) _ _ E) as [g'' E'']; [by rewrite !spans_tracking|]. by exists g''.
    + unfold common_parent. repeat case_bool_decide; congruence.
Qed.
(** ** Pieces of spans *)

(** The bytes of a span. *)
Definition covers (d : SpanData) (x : Z) : Prop := lo d <= x < hi d.

(** A computation that returns a span whose bytes are exactly those that satisfy [P]. *)
Definition yields (m : outcome (Span * Globals)) (P : Z -> Prop) : Prop :=
  exists s g' d, m = Ret (s, g') /\ data_ok d /\ data_untracked s g' = Ret (d, g') /\ forall x, covers d x <-> P x.

Lemma yields_new l h c p g (P : Z -> Prop) : is_u32 l -> is_u32 h -> is_u32 c -> (forall q, p = Some q -> is_u32 q) -> room g ->
  (forall x, Z.min l h <= x < Z.max l h <-> P x) -> yields (span_new l h c p g) P.
Proof.
  intros Hl Hh Hc Hp HR HP. assert (Hd := normalized_ok l h c p Hl Hh Hc Hp). destruct (span_new_encodes l h c p g Hd HR) as (s & g' & E & He & _).
  exists s, g', (normalized l h c p). split; [done|]. split; [done|]. split; [by apply data_untracked_encodes|]. done.
Qed.

Definition yields_opt (m : outcome (option Span * Globals)) (P : Z -> Prop) : Prop :=
  (exists s g', m = Ret (Some s, g') /\ yields (Ret (s, g')) P) \/ (exists g', m = Ret (None, g') /\ forall x, ~ P x).

Lemma yields_some m g P : yields (m g) P -> yields_opt (some_span m g) P.
Proof. intros (s & g' & d & E & Hd & He & Hx). left. exists s, g'. unfold some_span. rewrite (bind_run _ _ _ _ _ E). split; [done|]. by exists s, g', d. Qed.

(** The pieces of spans, by their bytes. [trim_start] and [trim_end] keep the bytes of a span after the end, or before the
    start, of another one, and give nothing only if there are none; for two spans of a context in this order, [between] is the gap
    from one to the other and [until] goes from the start of the first to the start of the second. *)
Theorem span_pieces g s1 s2 d1 d2 :
  data_ok d1 -> data_ok d2 -> encodes (spans g) d1 s1 -> encodes (spans g) d2 s2 -> room g ->
  yields_opt (trim_start s1 s2 g) (fun x => covers d1 x /\ hi d2 <= x)
  /\ yields_opt (trim_end s1 s2 g) (fun x => covers d1 x /\ x < lo d2)
  /\ (ctxt d1 = ctxt d2 -> hi d1 <= lo d2 ->
        yields (between call_site depth s1 s2 g) (fun x => hi d1 <= x < lo d2)
        /\ yields (until call_site depth s1 s2 g) (fun x => lo d1 <= x < lo d2)).
Proof.
  intros H1 H2 E1 E2 HR. pose proof H1 as ([? ?] & [? ?] & ? & ? & P1). pose proof H2 as ([? ?] & [? ?] & ? & ? & P2).
  assert (HR' : room (tracking (parent d2) (tracking (parent d1) g))) by (by apply room_tracking, room_tracking).
  unfold trim_start, trim_end. rewrite !(data2_encodes g d1 d2 s1 s2) by done. split_and!.
  - destruct (hi d2 <? hi d1) eqn:E; propify.
    + apply yields_some. apply yields_new; unfold is_u32, covers in *; try done; lia.
    + right. eexists. split; [done|]. unfold covers. lia.
  - destruct (lo d1 <? lo d2) eqn:E; propify.
    + apply yields_some. apply yields_new; unfold is_u32, covers in *; try done; lia.
    + right. eexists. split; [done|]. unfold covers. lia.
  - intros Hc Hb. unfold between, until. rewrite !(bind_run _ _ _ _ _ (prepare_same_ctxt g d1 d2 s1 s2 H1 H2 E1 E2 Hc)).
    assert (HC : forall q, common_parent d1 d2 = Some q -> is_u32 q) by (intros q; by apply common_parent_ok).
    split; apply yields_new; unfold is_u32 in *; try done; lia.
Qed.
End Combine.

(** The parts of a split span: the bytes before the position and the bytes from it on. *)
Theorem split_at_bytes g s d pos :
  data_ok d -> encodes (spans g) d s -> 0 <= pos <= hi d - lo d -> NoDup (spans g) -> Z.of_nat (length (spans g)) < u32_max ->
  exists first second g' d1 d2, split_at s pos g = Ret ((first, second), g')
    /\ data_untracked first g' = Ret (d1, g') /\ data_untracked second g' = Ret (d2, g')
    /\ (forall x, covers d1 x <-> covers d x /\ x < lo d + pos) /\ (forall x, covers d2 x <-> covers d x /\ lo d + pos <= x)
    /\ ctxt d1 = ctxt d /\ ctxt d2 = ctxt d /\ parent d1 = parent d /\ parent d2 = parent d.
Proof.
  intros Hd He Hp HN HL. pose proof Hd as ([? ?] & [? ?] & ? & ? & HP).
  assert (HD : forall h, spans g `prefix_of` spans h -> data s h = Ret (d, tracking (parent d) h)) by (intros h Hh; apply data_encodes; [done|by eapply encodes_mono]).
  assert (HLo : forall h, spans g `prefix_of` spans h -> span_lo s h = Ret (lo d, tracking (parent d) h)) by (intros h Hh; unfold span_lo; by rewrite (bind_run _ _ _ _ _ (HD h Hh))).
  assert (HHi : forall h, spans g `prefix_of` spans h -> span_hi s h = Ret (hi d, tracking (parent d) h)) by (intros h Hh; unfold span_hi; by rewrite (bind_run _ _ _ _ _ (HD h Hh))).
  assert (HC : forall h, spans g `prefix_of` spans h -> span_ctxt s h = Ret (ctxt d, h)) by (intros h Hh; apply span_ctxt_encodes; [done|by eapply encodes_mono]).
  assert (HQ : forall h, spans g `prefix_of` spans h -> span_parent s h = Ret (parent d, h)) by (intros h Hh; apply span_parent_encodes; [done|by eapply encodes_mono]).
  unfold split_at. set (t := tracking (parent d)).
  assert (HT : forall h, spans g `prefix_of` spans h -> spans g `prefix_of` spans (t h)) by (intros; unfold t; by rewrite spans_tracking).
  rewrite (bind_run _ _ _ _ _ (HHi g (reflexivity _))). fold t.
  rewrite (bind_run _ _ _ _ _ (HLo (t g) ltac:(auto))). fold t. rewrite (bind_run _ _ _ _ _ (HLo (t (t g)) ltac:(auto))). fold t.
  rewrite (bind_run _ _ _ _ _ (HLo (t (t (t g))) ltac:(auto))). fold t. rewrite wrap_u32_exact by (unfold is_u32; lia).
  rewrite (bind_run _ _ _ _ _ (HC (t (t (t (t g)))) ltac:(auto 10))), (bind_run _ _ _ _ _ (HQ (t (t (t (t g)))) ltac:(auto 10))).
  assert (HR : room (t (t (t (t g))))) by (unfold t; do 4 apply room_tracking; split; [done|lia]).
  assert (Hd1 := normalized_ok (lo d) (lo d + pos) (ctxt d) (parent d) ltac:(unfold is_u32; lia) ltac:(unfold is_u32; lia) ltac:(done) HP).
  destruct (span_new_encodes _ _ _ _ _ Hd1 HR) as (first & g1 & N1 & En1 & (X1 & XN & XL & _)). rewrite (bind_run _ _ _ _ _ N1).
  assert (X1' : spans g `prefix_of` spans g1) by (etrans; [|exact X1]; auto 10).
  assert (XL' : (length (spans g1) <= S (length (spans g)))%nat) by (unfold t in XL; by rewrite !spans_tracking in XL).
  rewrite (bind_run _ _ _ _ _ (HHi g1 X1')). fold t. rewrite (bind_run _ _ _ _ _ (HC (t g1) ltac:(auto))), (bind_run _ _ _ _ _ (HQ (t g1) ltac:(auto))).
  assert (Hd2 := normalized_ok (lo d + pos) (hi d) (ctxt d) (parent d) ltac:(unfold is_u32; lia) ltac:(unfold is_u32; lia) ltac:(done) HP).
  assert (HR2 : room (t g1)) by (unfold t; apply room_tracking; split; [done|lia]).
  destruct (span_new_encodes _ _ _ _ _ Hd2 HR2) as (second & g2 & N2 & En2 & (X2 & _)). rewrite (bind_run _ _ _ _ _ N2). unfold t in X2. rewrite spans_tracking in X2.
  exists first, second, g2, (normalized (lo d) (lo d + pos) (ctxt d) (parent d)), (normalized (lo d + pos) (hi d) (ctxt d) (parent d)).
  split; [done|]. split; [apply data_untracked_encodes; [done|by eapply encodes_mono]|]. split; [by apply data_untracked_encodes|].
  unfold covers, normalized. cbn [lo hi ctxt parent]. split_and!; try done; intros x; lia.
Qed.

(** ** Examples *)

Definition no_globals : Globals := mkGlobals [] ∅ false [].
Definition user_code : Z -> Span := fun _ => DUMMY_SP. (* every expansion is called from user code *)
Definition ctxt_1 : Span := InlineCtxt_span 10 5 1.
Definition ctxt_2 : Span := InlineCtxt_span 20 5 2.

(** Joining spans of two different expansions gives back one of them, the first: the result does not enclose the other
    one, and joining them the other way round gives another span. *)
Theorem span_to_not_symmetric :
  span_to user_code 2 ctxt_1 ctxt_2 no_globals = Ret (ctxt_1, no_globals)
  /\ span_to user_code 2 ctxt_2 ctxt_1 no_globals = Ret (ctxt_2, no_globals)
  /\ contains ctxt_1 ctxt_2 no_globals = Ret (false, no_globals).
Proof. split_and!; reflexivity. Qed.

Lemma room_none : room no_globals.
Proof. split; [constructor|]. simpl. unfold u32_max. lia. Qed.

(** A span of 100000 bytes with a parent, and a fully interned one. *)
Definition long_data : SpanData := mkData 7 100007 0 (Some 3).
Definition deep_data : SpanData := mkData 7 9 70000 None.

Lemma long_ok : data_ok long_data.
Proof. unfold data_ok, is_u32, u32_max. simpl. split_and!; try lia. intros p [= <-]. lia. Qed.
Lemma deep_ok : data_ok deep_data.
Proof. unfold data_ok, is_u32, u32_max. simpl. split_and!; try lia. done. Qed.

Lemma span_roundtrip_witness : exists s g', span_new 100007 7 0 (Some 3) no_globals = Ret (s, g') /\ data_untracked s g' = Ret (long_data, g').
Proof.
  destruct (span_roundtrip 100007 7 0 (Some 3) no_globals) as (s & g' & E & _ & _ & _ & _ & H); try (unfold is_u32, u32_max; lia); [|exact room_none|].
  - intros p [= <-]. unfold is_u32, u32_max. lia.
  - exists s, g'. split; [exact E|]. exact (H g' (reflexivity _)).
Defined.

(** Both in one interner. *)
Definition two_globals : Globals := mkGlobals [stored long_data; deep_data] ∅ false [].
Definition long_span : Span := PartiallyInterned_span 0 0.
Definition deep_span : Span := Interned_span 1.

Lemma room_two : room two_globals.
Proof. split; [|simpl; unfold u32_max; lia]. apply (bool_decide_unpack (NoDup (spans two_globals))). exact I. Qed.
Lemma long_encodes : encodes (spans two_globals) long_data long_span.
Proof. exists 0%nat. by split_and!. Qed.
Lemma deep_encodes : encodes (spans two_globals) deep_data deep_span.
Proof. exists 1%nat. by split_and!. Qed.

Lemma span_canonical_witness : long_span <> deep_span.
Proof.
  intros H. assert (N : normalized 7 100007 0 (Some 3) = normalized 7 9 70000 None); [|discriminate N].
  apply (span_canonical 7 100007 0 (Some 3) 7 9 70000 None two_globals two_globals two_globals two_globals long_span deep_span);
    [exact long_ok|exact deep_ok|exact room_two|exact room_two|vm_compute; reflexivity|reflexivity|vm_compute; reflexivity|exact H].
Defined.

Lemma span_readers_agree_witness : span_ctxt deep_span two_globals = Ret (70000, two_globals) /\ exists d, data_untracked deep_span two_globals = Ret (d, two_globals) /\ ctxt d = 70000.
Proof.
  split; [vm_compute; reflexivity|].
  destruct (span_readers_agree two_globals deep_span long_span) as (d1 & d2 & H1 & _ & H3 & _); [exact (valid_intro _ _ _ deep_ok deep_encodes)|exact (valid_intro _ _ _ long_ok long_encodes)|].
  exists d1. split; [exact H1|]. assert (E : span_ctxt deep_span two_globals = Ret (70000, two_globals)) by (vm_compute; reflexivity). rewrite E in H3. by injection H3.
Defined.

Lemma span_writers_agree_witness : span_to user_code 2 deep_span long_span two_globals = to_general user_code 2 deep_span long_span two_globals.
Proof.
  apply (span_writers_agree user_code 2 two_globals deep_span long_span (fun _ => 5) (Some 4));
    [exact (valid_intro _ _ _ deep_ok deep_encodes)|exact (valid_intro _ _ _ long_ok long_encodes)|intros; unfold is_u32, u32_max; lia|].
  intros q [= <-]. unfold is_u32, u32_max. lia.
Defined.

Lemma span_to_smallest_witness : exists s g', span_to user_code 2 deep_span deep_span two_globals = Ret (s, g').
Proof.
  destruct (span_to_smallest user_code 2 two_globals deep_span deep_span deep_data deep_data) as (s & g' & _ & H & _);
    [exact deep_ok|exact deep_ok|exact deep_encodes|exact deep_encodes|reflexivity|exact room_two|]. by exists s, g'.
Defined.

Lemma span_pieces_witness : yields_opt (trim_start long_span deep_span two_globals) (fun x => covers long_data x /\ 9 <= x).
Proof. apply (span_pieces user_code 2 two_globals long_span deep_span long_data deep_data); [exact long_ok|exact deep_ok|exact long_encodes|exact deep_encodes|exact room_two]. Defined.

Lemma split_at_bytes_witness : exists first second g', split_at long_span 60000 two_globals = Ret ((first, second), g').
Proof.
  destruct (split_at_bytes two_globals long_span long_data 60000) as (first & second & g' & _ & _ & H & _);
    [exact long_ok|exact long_encodes|simpl; lia|exact (proj1 room_two)|simpl; unfold u32_max; lia|]. by exists first, second, g'.
Defined.
