(* ===== verification/ObligationForest.v ===== *)
(** * The obligation forest

    [src/rustc_data_structures/obligation_forest/mod.rs]: the pending obligations of trait matching, with the
    obligations that depend on each, the caches that keep an obligation from being solved twice, and the loop
    that processes them until nothing changes.

    The processor is a client's: a class of operations on a state that is threaded through.  The [Cell]s of the
    nodes are updated in the vector.  [reused_node_vec], an empty vector between uses that saves allocations, is a
    local variable here.  A vector used as a stack has its top first; [process_obligations] runs as long as the
    processor finds something new, so its loops take their fuel as an argument.  The other loops run on enough fuel:
    the walk to the root on the number of nodes, since a parent is before its children; the spreading of errors on
    twice the number of edges; the searches along dependents on the number of nodes, since each is marked once. *)
From Stdlib Require Import Lia.
From stdpp Require Import base numbers list gmap option.
From S2P Require Import Prelude.
#[local] Open Scope nat_scope.
#[local] Open Scope rust_scope.

Module NodeState.
Inductive t : Type := Pending | Success | Waiting | Done | Error.
End NodeState.

#[export] Instance NodeState_eq_dec : EqDecision NodeState.t.
Proof. solve_decision. Defined.

Module ProcessResult.
Inductive t (O E : Type) : Type := Unchanged | Changed (children : list O) | Error (error : E).
Arguments Unchanged {O E}.
Arguments Changed {O E} children.
Arguments Error {O E} error.
End ProcessResult.

Record Error (O E : Type) : Type := mkError { error : E; backtrace : list O }.
Arguments mkError {O E} error backtrace.
Arguments error {O E} e.
Arguments backtrace {O E} e.

Class ForestObligation (O K : Type) : Type := as_cache_key : O -> K.

(** The callbacks: [P] is the processor; a callback that takes it mutably returns it. *)
Class ObligationProcessor (P O E : Type) : Type := {
  skippable_obligations : P -> list O -> nat;
  needs_process_obligation : P -> O -> bool;
  process_obligation : P -> O -> O * ProcessResult.t O E * P;
  process_backedge : P -> list O -> option E * P   (* [Some] is an error *)
}.

Class OutcomeTrait (OUT O E : Type) : Type := {
  outcome_new : OUT;
  record_completed : OUT -> O -> OUT;
  record_error : OUT -> Error O E -> OUT
}.

(** [Outcome]: the errors, and nothing of what completed. *)
#[export] Instance Outcome {O E} : OutcomeTrait (list (Error O E)) O E := {
  outcome_new := [];
  record_completed out _ := out;
  record_error out e := out ++ [e]
}.

Record Node (O : Type) : Type := mkNode {
  obligation : O;
  state : NodeState.t;
  dependents : list nat;
  has_parent : bool;
  obligation_tree_id : nat
}.
Arguments mkNode {O} obligation state dependents has_parent obligation_tree_id.
Arguments obligation {O} n.
Arguments state {O} n.
Arguments dependents {O} n.
Arguments has_parent {O} n.
Arguments obligation_tree_id {O} n.

Definition node_new {O} (parent : option nat) (obligation : O) (obligation_tree_id : nat) : Node O :=
  mkNode obligation NodeState.Pending (match parent with Some parent_index => [parent_index] | None => [] end)
    (match parent with Some _ => true | None => false end) obligation_tree_id.

Definition with_state {O} (s : NodeState.t) (n : Node O) : Node O :=
  mkNode (obligation n) s (dependents n) (has_parent n) (obligation_tree_id n).
Definition with_obligation {O} (o : O) (n : Node O) : Node O :=
  mkNode o (state n) (dependents n) (has_parent n) (obligation_tree_id n).
Definition with_dependents {O} (deps : list nat) (parent : bool) (n : Node O) : Node O :=
  mkNode (obligation n) (state n) deps parent (obligation_tree_id n).

(** [node.state.set(s)] for the node at [index]. *)
Definition set_state {O} (index : nat) (s : NodeState.t) (ns : list (Node O)) : list (Node O) := alter (with_state s) index ns.

Record ObligationForest (O K : Type) `{Countable K} : Type := mkForest {
  nodes : list (Node O);
  done_cache : gset K;
  active_cache : gmap K nat;
  next_tree_id : nat;          (* [obligation_tree_id_generator] *)
  error_cache : gmap nat (gset K)
}.
Arguments mkForest {O K _ _} nodes done_cache active_cache next_tree_id error_cache.
Arguments nodes {O K _ _} _.
Arguments done_cache {O K _ _} _.
Arguments active_cache {O K _ _} _.
Arguments next_tree_id {O K _ _} _.
Arguments error_cache {O K _ _} _.

(** ** States *)

Section States.
Context {O : Type}.
Implicit Types ns : list (Node O).

Definition total_dependents ns : nat := sum_list_with (fun n => length (dependents n)) ns.

(** [error_at]: the walk to the root, then everything that depends on the nodes of the walk. *)
Fixpoint error_chain (fuel : nat) ns (index : nat) (error_stack : list nat) (trace : list O) : outcome (list nat * list O * list (Node O)) :=
  match fuel with
  | 0 => OutOfFuel
  | S fuel =>
      let* node := unwrap (ns !! index) in
      let ns := set_state index NodeState.Error ns in
      let trace := trace ++ [obligation node] in
      if has_parent node then
        let* parent := unwrap (dependents node !! 0) in
        error_chain fuel ns parent (reverse (drop 1 (dependents node)) ++ error_stack) trace
      else Ret (reverse (dependents node) ++ error_stack, trace, ns)
  end.

Fixpoint error_spread (fuel : nat) ns (error_stack : list nat) : outcome (list (Node O)) :=
  match fuel with
  | 0 => OutOfFuel
  | S fuel =>
      match error_stack with
      | [] => Ret ns
      | index :: error_stack =>
          let* node := unwrap (ns !! index) in
          if bool_decide (state node <> NodeState.Error) then
            error_spread fuel (set_state index NodeState.Error ns) (reverse (dependents node) ++ error_stack)
          else error_spread fuel ns error_stack
      end
  end.

Definition error_at ns (index : nat) : outcome (list O * list (Node O)) :=
  let* '(error_stack, trace, ns) := error_chain (S (length ns)) ns index [] [] in
  let* ns := error_spread (S (2 * total_dependents ns)) ns error_stack in
  Ret (trace, ns).

(** [inlined_mark_dependents_as_waiting] and [uninlined_mark_dependents_as_waiting], for the node's dependents. *)
Fixpoint mark_dependents_as_waiting (fuel : nat) (deps : list nat) ns : outcome (list (Node O)) :=
  match fuel with
  | 0 => OutOfFuel
  | S fuel =>
      fold_out (fun ns index =>
        let* node := unwrap (ns !! index) in
        if bool_decide (state node = NodeState.Success) then
          mark_dependents_as_waiting fuel (dependents node) (set_state index NodeState.Waiting ns)
        else Ret ns) deps ns
  end.

Definition unwait (n : Node O) : Node O := if bool_decide (state n = NodeState.Waiting) then with_state NodeState.Success n else n.

Definition mark_successes ns : outcome (list (Node O)) :=
  let ns := unwait <$> ns in
  fold_out (fun ns index =>
    let* node := unwrap (ns !! index) in
    if bool_decide (state node = NodeState.Pending) then mark_dependents_as_waiting (S (length ns)) (dependents node) ns
    else Ret ns) (seq 0 (length ns)) ns.
End States.

(** ** Cycles *)

Definition rposition (x : nat) (l : list nat) : option nat :=
  (fun i => length l - 1 - i) <$> position (fun y => bool_decide (y = x)) (reverse l).

Section Cycles.
Context {P O E OUT : Type} `{!ObligationProcessor P O E} `{!OutcomeTrait OUT O E}.
Implicit Types ns : list (Node O).

(** The state of a search: the nodes, the processor and the outcome; [stack] grows to the right. *)
Fixpoint find_cycles_from_node (fuel : nat) (stack : list nat) (index : nat) (st : list (Node O) * P * OUT) : outcome (list (Node O) * P * OUT) :=
  match fuel with
  | 0 => OutOfFuel
  | S fuel =>
      let '(ns, p, out) := st in
      let* node := unwrap (ns !! index) in
      if bool_decide (state node = NodeState.Success) then
        match rposition index stack with
        | None =>
            let* '(ns, p, out) := fold_out (fun st dep_index => find_cycles_from_node fuel (stack ++ [index]) dep_index st) (dependents node) st in
            Ret (set_state index NodeState.Done ns, p, out)
        | Some rpos =>
            let cycle := omap (fun i => obligation <$> ns !! i) (drop rpos stack) in
            let '(result, p) := process_backedge p cycle in
            match result with
            | Some err =>
                let* '(trace, ns) := error_at ns index in
                Ret (ns, p, record_error out (mkError err trace))
            | None => Ret (ns, p, out)
            end
        end
      else Ret st
  end.

Definition process_cycles (st : list (Node O) * P * OUT) : outcome (list (Node O) * P * OUT) :=
  fold_out (fun st index =>
    let* node := unwrap (st.1.1 !! index) in
    if bool_decide (state node = NodeState.Success) then find_cycles_from_node (S (length st.1.1)) [] index st else Ret st)
    (seq 0 (length st.1.1)) st.
End Cycles.

(** ** The forest *)

(** [Vec::swap_remove], for an index in range. *)
Definition swap_remove {A} (i : nat) (l : list A) : list A :=
  match list.last l with
  | Some x => if i =? length l - 1 then take i l else <[i := x]> (take (length l - 1) l)
  | None => l
  end.

(** [slice::swap]. *)
Definition swap {A} (i j : nat) (l : list A) : outcome (list A) :=
  let* x := unwrap (l !! i) in
  let* y := unwrap (l !! j) in
  Ret (<[i := y]> (<[j := x]> l)).

(** The dependents of a node, from [i] on, with their new indices. *)
Fixpoint rewrite_dependents (fuel : nat) (node_rewrites : list nat) (i : nat) (deps : list nat) (parent : bool) : outcome (list nat * bool) :=
  match fuel with
  | 0 => OutOfFuel
  | S fuel =>
      match deps !! i with
      | None => Ret (deps, parent)
      | Some dependent =>
          let* new_index := unwrap (node_rewrites !! dependent) in
          if length node_rewrites <=? new_index then
            rewrite_dependents fuel node_rewrites i (swap_remove i deps) (if (i =? 0) && parent then false else parent)
          else rewrite_dependents fuel node_rewrites (i + 1) (<[i := new_index]> deps) parent
      end
  end.

Fixpoint rewrite_nodes {O} (node_rewrites : list nat) (ns : list (Node O)) : outcome (list (Node O)) :=
  match ns with
  | [] => Ret []
  | node :: ns =>
      let* '(deps, parent) := rewrite_dependents (S (length (dependents node))) node_rewrites 0 (dependents node) (has_parent node) in
      let* ns := rewrite_nodes node_rewrites ns in
      Ret (with_dependents deps parent node :: ns)
  end.

Section Forest.
Context {O K : Type} `{Countable K} `{!ForestObligation O K}.
Implicit Types f : ObligationForest O K.

Definition forest_new : ObligationForest O K := mkForest [] ∅ ∅ 0 ∅.
Definition forest_len f : nat := length (nodes f).

Definition set_nodes (ns : list (Node O)) f : ObligationForest O K := mkForest ns (done_cache f) (active_cache f) (next_tree_id f) (error_cache f).

(** [true] is [Ok]. *)
Definition register_obligation_at (o : O) (parent : option nat) f : outcome (bool * ObligationForest O K) :=
  let cache_key := as_cache_key o in
  if bool_decide (cache_key ∈ done_cache f) then Ret (true, f)
  else match active_cache f !! cache_key with
  | Some index =>
      let* node := unwrap (nodes f !! index) in
      let deps := match parent with
                  | Some parent_index => if bool_decide (parent_index ∈ dependents node) then dependents node else dependents node ++ [parent_index]
                  | None => dependents node
                  end in
      Ret (bool_decide (state node <> NodeState.Error), set_nodes (<[index := with_dependents deps (has_parent node) node]> (nodes f)) f)
  | None =>
      let* '(obligation_tree_id, next) :=
        match parent with
        | Some parent_index => let* node := unwrap (nodes f !! parent_index) in Ret (obligation_tree_id node, next_tree_id f)
        | None => Ret (next_tree_id f, S (next_tree_id f))
        end in
      let already_failed := match parent with
                            | Some _ => bool_decide (cache_key ∈ default ∅ (error_cache f !! obligation_tree_id))
                            | None => false
                            end in
      if already_failed then Ret (false, mkForest (nodes f) (done_cache f) (active_cache f) next (error_cache f))
      else Ret (true, mkForest (nodes f ++ [node_new parent o obligation_tree_id]) (done_cache f) (<[cache_key := length (nodes f)]> (active_cache f)) next (error_cache f))
  end.

Definition register_obligation (o : O) f : outcome (ObligationForest O K) :=
  let* '(_, f) := register_obligation_at o None f in Ret f.

Definition pending (ns : list (Node O)) : list O := obligation <$> filter (fun n => state n = NodeState.Pending) ns.
Definition map_pending_obligations {A} (g : O -> A) f : list A := g <$> pending (nodes f).
Definition has_pending_obligations f : bool := existsb (fun n => bool_decide (state n = NodeState.Pending)) (nodes f).

Definition insert_into_error_cache (node : Node O) (cache : gmap nat (gset K)) : gmap nat (gset K) :=
  <[obligation_tree_id node := {[as_cache_key (obligation node)]} ∪ default ∅ (cache !! obligation_tree_id node)]> cache.

Definition apply_rewrites (node_rewrites : list nat) f : outcome (ObligationForest O K) :=
  let* ns := rewrite_nodes node_rewrites (nodes f) in
  let* _ := assert_that (bool_decide (map_Forall (fun _ index => index < length node_rewrites) (active_cache f))) in
  Ret (mkForest ns (done_cache f)
    (omap (fun index => match node_rewrites !! index with
                        | Some new_index => if length node_rewrites <=? new_index then None else Some new_index
                        | None => None
                        end) (active_cache f))
    (next_tree_id f) (error_cache f)).

(** The loop of [compress]; [outcome_cb] is run on every completed obligation. *)
Section Compress.
Context {OUT : Type} (outcome_cb : OUT -> O -> outcome OUT).

Fixpoint compress_loop (todo index dead_nodes : nat) (node_rewrites : list nat) f (out : OUT) : outcome (nat * list nat * ObligationForest O K * OUT) :=
  match todo with
  | 0 => Ret (dead_nodes, node_rewrites, f, out)
  | S todo =>
      let* node := unwrap (nodes f !! index) in
      let cache_key := as_cache_key (obligation node) in
      match state node with
      | NodeState.Pending | NodeState.Waiting =>
          if 0 <? dead_nodes then
            let* ns := swap index (index - dead_nodes) (nodes f) in
            compress_loop todo (S index) dead_nodes (<[index := index - dead_nodes]> node_rewrites) (set_nodes ns f) out
          else compress_loop todo (S index) dead_nodes node_rewrites f out
      | NodeState.Done =>
          let* out := outcome_cb out (obligation node) in
          compress_loop todo (S index) (S dead_nodes) (<[index := length node_rewrites]> node_rewrites)
            (mkForest (nodes f) ({[cache_key]} ∪ done_cache f) (delete cache_key (active_cache f)) (next_tree_id f) (error_cache f)) out
      | NodeState.Error =>
          compress_loop todo (S index) (S dead_nodes) (<[index := length node_rewrites]> node_rewrites)
            (mkForest (nodes f) (done_cache f) (delete cache_key (active_cache f)) (next_tree_id f) (insert_into_error_cache node (error_cache f))) out
      | NodeState.Success => Panic
      end
  end.

Definition compress f (out : OUT) : outcome (ObligationForest O K * OUT) :=
  let orig_nodes_len := length (nodes f) in
  let* '(dead_nodes, node_rewrites, f, out) := compress_loop orig_nodes_len 0 0 (seq 0 orig_nodes_len) f out in
  if 0 <? dead_nodes then
    let* f := apply_rewrites node_rewrites (set_nodes (take (orig_nodes_len - dead_nodes) (nodes f)) f) in Ret (f, out)
  else Ret (f, out).
End Compress.

(** [to_errors]: the pending nodes are looked for while their errors are propagated. *)
Fixpoint to_errors_loop {E} (err : E) (todo : list nat) (ns : list (Node O)) : outcome (list (Error O E) * list (Node O)) :=
  match todo with
  | [] => Ret ([], ns)
  | index :: todo =>
      let* node := unwrap (ns !! index) in
      if bool_decide (state node = NodeState.Pending) then
        let* '(trace, ns) := error_at ns index in
        let* '(errors, ns) := to_errors_loop err todo ns in
        Ret (mkError err trace :: errors, ns)
      else to_errors_loop err todo ns
  end.
Definition to_errors {E} (err : E) f : outcome (list (Error O E) * ObligationForest O K) :=
  let* '(errors, ns) := to_errors_loop err (seq 0 (length (nodes f))) (nodes f) in
  let* '(f, _) := compress (fun (_ : unit) _ => Panic) (set_nodes ns f) tt in
  Ret (errors, f).
End Forest.

(** ** [process_obligations] *)

Section Process.
Context {O K P E OUT : Type} `{Countable K} `{!ForestObligation O K} `{!ObligationProcessor P O E} `{!OutcomeTrait OUT O E}.
Implicit Types f : ObligationForest O K.

Definition error_forest (index : nat) f : outcome (list O * ObligationForest O K) :=
  let* '(trace, ns) := error_at (nodes f) index in Ret (trace, set_nodes ns f).

Fixpoint register_children (children : list O) (index : nat) f : outcome (ObligationForest O K) :=
  match children with
  | [] => Ret f
  | child :: children =>
      let* '(ok, f) := register_obligation_at child (Some index) f in
      let* f := if (ok : bool) then Ret f else let* '(_, f) := error_forest index f in Ret f in
      register_children children index f
  end.

Record Round : Type := mkRound { forest : ObligationForest O K; processor : P; result : OUT; has_changed : bool }.

(** One obligation that needs processing. *)
Definition process_node (index : nat) (node : Node O) (r : Round) : outcome Round :=
  let f := forest r in
  let '(o, res, p) := process_obligation (processor r) (obligation node) in
  let node := with_obligation o node in
  match res with
  | ProcessResult.Unchanged => Ret (mkRound (set_nodes (<[index := node]> (nodes f)) f) p (result r) (has_changed r))
  | ProcessResult.Changed children =>
      let* f := register_children children index (set_nodes (<[index := with_state NodeState.Success node]> (nodes f)) f) in
      Ret (mkRound f p (result r) true)
  | ProcessResult.Error err =>
      let* '(trace, f) := error_forest index (set_nodes (<[index := node]> (nodes f)) f) in
      Ret (mkRound f p (record_error (result r) (mkError err trace)) true)
  end.

(** The [while] loop from [index] on. *)
Fixpoint process_nodes (fuel : nat) (index : nat) (r : Round) : outcome Round :=
  match fuel with
  | 0 => OutOfFuel
  | S fuel =>
      match nodes (forest r) !! index with
      | None => Ret r
      | Some node =>
          if negb (bool_decide (state node = NodeState.Pending)) || negb (needs_process_obligation (processor r) (obligation node)) then
            process_nodes fuel (index + 1) r
          else
            let* r := process_node index node r in process_nodes fuel (index + 1) r
      end
  end.

(** What follows a round in which something changed. *)
Definition finish_round (r : Round) : outcome Round :=
  let* ns := mark_successes (nodes (forest r)) in
  let* '(ns, p, out) := process_cycles (ns, processor r, result r) in
  let* '(f, out) := compress (fun out o => Ret (record_completed out o)) (set_nodes ns (forest r)) out in
  Ret (mkRound f p out false).

Fixpoint process_rounds (fuel steps : nat) (r : Round) : outcome Round :=
  match fuel with
  | 0 => OutOfFuel
  | S fuel =>
      let index := skippable_obligations (processor r) (obligation <$> nodes (forest r)) in
      let* r := process_nodes steps index (mkRound (forest r) (processor r) (result r) false) in
      if has_changed r then let* r := finish_round r in process_rounds fuel steps r else Ret r
  end.

Definition process_obligations (fuel : nat) (p : P) f : outcome (OUT * ObligationForest O K * P) :=
  let* r := process_rounds fuel fuel (mkRound f p outcome_new false) in
  Ret (result r, forest r, processor r).
End Process.
