(* ===== verification/ForestStates.v ===== *)
(** * The obligation forest: states

    The graph of dependents, which the operations on states do not change, and what each of these operations does
    to the states: [error_at] reaches everything that depends on a node, [mark_successes] leaves as successes what
    no pending node leads to, [process_cycles] leaves no success behind. *)
From Stdlib Require Import Lia.
From stdpp Require Import base numbers list gmap option relations.
From S2P Require Import Prelude ObligationForest.
#[local] Open Scope nat_scope.
#[local] Open Scope rust_scope.

(** ** States

    The graph of dependents, which the operations on states do not change, and what each of these operations does
    to the states: [error_at] reaches everything that depends on a node, [mark_successes] leaves as successes what
    no pending node leads to, [process_cycles] leaves no success behind. *)

(** *** The graph *)

Lemma in_reverse {A} (x : A) l : x ∈ reverse l <-> x ∈ l.
Proof. by rewrite reverse_Permutation. Qed.

Section Graph.
Context {O : Type}.
Implicit Types ns : list (Node O).

Definition st ns (i : nat) : option NodeState.t := state <$> ns !! i.

(** [k] depends on [i]. *)
Definition dep ns (i k : nat) : Prop := exists n, ns !! i = Some n /\ k ∈ dependents n.
Definition reach ns : nat -> nat -> Prop := rtc (dep ns).

(** Nodes up to their states. *)
Definition erase ns : list (Node O) := with_state NodeState.Pending <$> ns.

Lemma erase_length ns ns' : erase ns = erase ns' -> length ns = length ns'.
Proof. intros E. apply (f_equal length) in E. unfold erase in E. by rewrite !length_fmap in E. Qed.

Lemma erase_lookup ns ns' i n' : erase ns = erase ns' -> ns' !! i = Some n' -> exists n, ns !! i = Some n /\ n' = with_state (state n') n.
Proof.
  intros E Hi. apply (f_equal (fun l => l !! i)) in E. unfold erase in E. rewrite !list_lookup_fmap, Hi in E. simpl in E.
  destruct (ns !! i) as [n|]; [|done]. exists n. split; [done|]. destruct n, n'. unfold with_state in *. simpl in *. congruence.
Qed.

Lemma dep_erase ns ns' i k : erase ns = erase ns' -> dep ns' i k -> dep ns i k.
Proof. intros E (n & Hi & Hk). destruct (erase_lookup _ _ _ _ E Hi) as (m & Hm & E'). rewrite E' in Hk. by exists m. Qed.

Lemma reach_erase ns ns' i k : erase ns = erase ns' -> reach ns' i k -> reach ns i k.
Proof. intros E. induction 1 as [|x y z H _ IH]; [constructor|]. econstructor; [by eapply dep_erase|done]. Qed.

Lemma erase_set_state i s ns : erase (set_state i s ns) = erase ns.
Proof.
  unfold erase, set_state. apply list_eq. intros j. rewrite !list_lookup_fmap. destruct (decide (i = j)) as [->|Hn].
  - rewrite list_lookup_alter_eq. by destruct (ns !! j).
  - by rewrite list_lookup_alter_ne.
Qed.

Lemma st_set_state i s ns j : st (set_state i s ns) j = if decide (i = j) then (if decide (j < length ns) then Some s else None) else st ns j.
Proof.
  unfold st, set_state. case_decide as Ei; [subst|by rewrite list_lookup_alter_ne]. rewrite list_lookup_alter_eq. case_decide as Ej.
  - destruct (lookup_lt_is_Some_2 _ _ Ej) as [n ->]. done.
  - rewrite lookup_ge_None_2 by lia. done.
Qed.

Lemma st_lt ns i s : st ns i = Some s -> i < length ns.
Proof. unfold st. intros (n & H & _)%fmap_Some. by eapply lookup_lt_Some. Qed.

Lemma length_set_state i s ns : length (set_state i s ns) = length ns.
Proof. apply length_alter. Qed.

(** Every index is one of a node, and a parent is before its children. *)
Definition in_range ns : Prop := forall i k, dep ns i k -> k < length ns.
Definition parents_ok ns : Prop := forall i n, ns !! i = Some n -> has_parent n = true -> exists p, dependents n !! 0 = Some p /\ p < i.
Definition shape ns : Prop := in_range ns /\ parents_ok ns.

Lemma in_range_erase ns ns' : erase ns' = erase ns -> in_range ns -> in_range ns'.
Proof. intros E H i k Hk. rewrite (erase_length _ _ E). apply (H i). by apply (dep_erase ns ns'). Qed.

Lemma shape_erase ns ns' : erase ns = erase ns' -> shape ns -> shape ns'.
Proof.
  intros E [H1 H2]. split.
  - intros i k Hk. rewrite <- (erase_length _ _ E). eapply H1, dep_erase; done.
  - intros i n' Hi Hp. destruct (erase_lookup _ _ _ _ E Hi) as (n & Hn & E'). rewrite E' in Hp |- *. by apply (H2 i n Hn).
Qed.

Lemma reach_lt ns i k : in_range ns -> i < length ns -> reach ns i k -> k < length ns.
Proof. intros HR Hi. induction 1 as [|x y z H _ IH]; [done|]. apply IH. by eapply HR. Qed.

(** The obligations from a node to its root. *)
Inductive parent_chain ns : nat -> list O -> Prop :=
| chain_root i n : ns !! i = Some n -> has_parent n = false -> parent_chain ns i [obligation n]
| chain_step i n p t : ns !! i = Some n -> has_parent n = true -> dependents n !! 0 = Some p -> parent_chain ns p t -> parent_chain ns i (obligation n :: t).

Lemma chain_erase ns ns' i t : erase ns = erase ns' -> parent_chain ns' i t -> parent_chain ns i t.
Proof.
  intros E. induction 1 as [i n' Hi Hp|i n' p t Hi Hp Hd _ IH]; destruct (erase_lookup _ _ _ _ E Hi) as (n & Hn & E'); rewrite E' in Hp |- *.
  - by apply (chain_root ns i n).
  - rewrite E' in Hd. by apply (chain_step ns i n p).
Qed.

(** *** Errors *)

(** What [error_at] and its parts do: some nodes turn to errors, with all that depends on them. *)
Definition spreads ns ns' (X : nat -> Prop) : Prop :=
  erase ns' = erase ns
  /\ (forall j, X j -> st ns' j = Some NodeState.Error)
  /\ (forall j, st ns' j = st ns j \/ (st ns' j = Some NodeState.Error /\ exists x, X x /\ reach ns x j))
  /\ (forall j k, dep ns j k -> st ns' j = Some NodeState.Error -> st ns j <> Some NodeState.Error -> st ns' k = Some NodeState.Error).

Definition weight ns : nat := sum_list_with (fun n => if bool_decide (state n = NodeState.Error) then 0 else length (dependents n)) ns.

Lemma sum_alter {A} (g : A -> nat) (h : A -> A) l i x : l !! i = Some x -> sum_list_with g (alter h i l) + g x = sum_list_with g l + g (h x).
Proof.
  revert i. induction l as [|y l IH]; intros [|i]; try done; simpl.
  - intros [= ->]. lia.
  - intros Hi. pose proof (IH i Hi) as H. change (list_alter h i l) with (alter h i l). lia.
Qed.

Lemma weight_le ns : weight ns <= total_dependents ns.
Proof. unfold weight, total_dependents. induction ns as [|n ns IH]; simpl; [lia|]. case_bool_decide; lia. Qed.

Lemma total_erase ns ns' : erase ns = erase ns' -> total_dependents ns = total_dependents ns'.
Proof.
  revert ns'. induction ns as [|n ns IH]; intros [|n' ns'] E; try done. unfold erase in E. rewrite !fmap_cons in E. injection E as _ E1 _ _ E2.
  unfold total_dependents. simpl. fold (total_dependents ns). fold (total_dependents ns'). by rewrite (IH ns' E2), E1.
Qed.

Lemma error_spread_ok fuel ns stack : in_range ns -> Forall (fun i => i < length ns) stack -> length stack + weight ns < fuel ->
  runs (error_spread fuel ns stack) (fun ns' => spreads ns ns' (fun x => x ∈ stack)).
Proof.
  revert ns stack. induction fuel as [|fuel IH]; intros ns stack HR Hs Hf; [lia|]. destruct stack as [|i stack]; simpl.
  - apply runs_ret. split_and!; try done; [|by intros j; left]. intros j Hj. by apply elem_of_nil in Hj.
  - inversion_clear Hs as [|? ? Hi Hs']. destruct (lookup_lt_is_Some_2 _ _ Hi) as [n Hn]. rewrite Hn. cbn [unwrap obind].
    destruct (bool_decide (state n <> NodeState.Error)) eqn:Es.
    + apply bool_decide_eq_true in Es. set (ns1 := set_state i NodeState.Error ns).
      assert (E1 : erase ns1 = erase ns) by apply erase_set_state.
      assert (HL : length ns1 = length ns) by apply length_set_state.
      eapply runs_mono; [apply (IH ns1 (reverse (dependents n) ++ stack))|].
      * by apply (in_range_erase ns).
      * rewrite HL. apply list.Forall_app. split; [|done]. apply list.Forall_forall. intros k Hk. rewrite in_reverse in Hk. apply (HR i). exists n. split; [exact Hn|]. exact Hk.
      * rewrite length_app, length_reverse. pose proof (sum_alter (fun n => if bool_decide (state n = NodeState.Error) then 0 else length (dependents n)) (with_state NodeState.Error) ns i n Hn) as HW.
        fold (weight ns) in HW. change (sum_list_with _ (alter _ i ns)) with (weight ns1) in HW. cbn beta in HW. rewrite (bool_decide_eq_false_2 (state n = NodeState.Error)) in HW by done. rewrite bool_decide_eq_true_2 in HW by done. simpl in Hf. lia.
      * intros ns' (H1 & H2 & H3 & H4). split_and!.
        -- by rewrite H1.
        -- intros j [->|Hj]%elem_of_cons; [|apply H2, elem_of_app; by right]. destruct (H3 i) as [->|[? _]]; [|done]. unfold ns1. rewrite st_set_state, decide_True, decide_True by done. done.
        -- intros j. destruct (H3 j) as [Hj|[Hj (x & Hx & Hr)]].
           ++ rewrite Hj. unfold ns1. rewrite st_set_state. case_decide as Ei; [|by left]. subst j. right. rewrite decide_True by done. split; [done|]. exists i. split; [apply elem_of_cons; by left|constructor].
           ++ right. split; [done|]. apply (reach_erase ns ns1) in Hr; [|done]. apply elem_of_app in Hx as [Hx|Hx]; [rewrite in_reverse in Hx|].
              ** exists i. split; [apply elem_of_cons; by left|]. econstructor; [|done]. by exists n.
              ** exists x. split; [apply elem_of_cons; by right|done].
        -- intros j k Hd Hj Hn'. destruct (decide (j = i)) as [->|Hji].
           ++ apply H2, elem_of_app. left. apply in_reverse. destruct Hd as (n' & Hn'' & Hk). rewrite Hn in Hn''. by injection Hn'' as <-.
           ++ apply (H4 j k); [by eapply dep_erase; [exact E1|]|done|]. unfold ns1. by rewrite st_set_state, decide_False by done.
    + apply bool_decide_eq_false in Es. assert (Es' : state n = NodeState.Error) by (destruct (decide (state n = NodeState.Error)); [done|by exfalso; apply Es]).
      eapply runs_mono; [apply (IH ns stack HR Hs'); simpl in Hf; lia|]. intros ns' (H1 & H2 & H3 & H4). split_and!; try done.
      * intros j [->|Hj]%elem_of_cons; [|by apply H2]. destruct (H3 i) as [->|[? _]]; [|done]. unfold st. rewrite Hn. simpl. by rewrite Es'.
      * intros j. destruct (H3 j) as [?|[? (x & Hx & ?)]]; [by left|right]. split; [done|]. exists x. split; [apply elem_of_cons; by right|done].
Qed.

Definition dependents_to ns (i : nat) : nat := total_dependents (take (S i) ns).

Lemma dependents_to_le ns i : dependents_to ns i <= total_dependents ns.
Proof. unfold dependents_to. rewrite <- (take_drop (S i) ns) at 2. unfold total_dependents. rewrite sum_list_with_app. lia. Qed.

Lemma dependents_to_step ns i p n : ns !! i = Some n -> p < i -> dependents_to ns p + length (dependents n) <= dependents_to ns i.
Proof.
  intros Hi Hp. unfold dependents_to. rewrite (take_S_r _ _ _ Hi). unfold total_dependents at 2. rewrite sum_list_with_app. fold (total_dependents (take i ns)). simpl.
  assert (total_dependents (take (S p) ns) <= total_dependents (take i ns)); [|lia].
  replace (take (S p) ns) with (take (S p) (take i ns)) by (rewrite take_take; f_equal; lia). apply (dependents_to_le (take i ns) p).
Qed.

Lemma dependents_to_self ns i n : ns !! i = Some n -> length (dependents n) <= dependents_to ns i.
Proof. intros Hi. unfold dependents_to. rewrite (take_S_r _ _ _ Hi). unfold total_dependents. rewrite sum_list_with_app. simpl. lia. Qed.

(** The walk marks its nodes and leaves the rest of what depends on them on the stack. *)
Lemma error_chain_ok fuel ns i stack trace : shape ns -> i < length ns -> i < fuel ->
  runs (error_chain fuel ns i stack trace) (fun r => let '(stack', trace', ns') := r in exists X t,
    trace' = trace ++ t /\ parent_chain ns i t /\ erase ns' = erase ns /\ X i
    /\ (forall j, X j -> st ns' j = Some NodeState.Error /\ reach ns i j) /\ (forall j, X j \/ st ns' j = st ns j)
    /\ (forall j k, X j -> dep ns j k -> X k \/ k ∈ stack') /\ (forall k, k ∈ stack' -> k ∈ stack \/ exists j, X j /\ dep ns j k)
    /\ (forall k, k ∈ stack -> k ∈ stack') /\ length stack' <= length stack + dependents_to ns i).
Proof.
  revert ns i stack trace. induction fuel as [|fuel IH]; intros ns i stack trace Hsh Hi Hf; [lia|]. simpl. destruct (lookup_lt_is_Some_2 _ _ Hi) as [n Hn]. rewrite Hn. cbn [unwrap obind].
  set (ns1 := set_state i NodeState.Error ns). assert (E1 : erase ns1 = erase ns) by apply erase_set_state.
  assert (Hst : forall j, j = i \/ st ns1 j = st ns j) by (intros j; unfold ns1; rewrite st_set_state; case_decide; auto).
  assert (Hsi : st ns1 i = Some NodeState.Error) by (unfold ns1; by rewrite st_set_state, decide_True, decide_True by done).
  destruct (has_parent n) eqn:Hp.
  - destruct (proj2 Hsh i n Hn Hp) as (p & Hd & Hpi). rewrite Hd. cbn [unwrap obind]. assert (Hdp : dep ns i p) by (exists n; split; [done|]; by eapply list_elem_of_lookup_2).
    eapply runs_mono; [apply IH; [by apply (shape_erase ns)|unfold ns1; rewrite length_set_state; lia|lia]|].
    intros [[stack' trace'] ns'] (X & t & -> & Hc & E2 & HX & H1 & H2 & H3 & H4 & H5 & H6). exists (fun j => j = i \/ X j), (obligation n :: t). split_and!.
    + by rewrite <- app_assoc.
    + eapply chain_step; try done. by apply (chain_erase ns ns1).
    + by rewrite E2.
    + by left.
    + intros j [->|Hj].
      * split; [|constructor]. destruct (H2 i) as [Hx|Hx]; [by apply H1|]. by rewrite Hx.
      * destruct (H1 j Hj) as [? Hr]. split; [done|]. econstructor; [exact Hdp|]. by apply (reach_erase ns ns1).
    + intros j. destruct (H2 j) as [?|Hj]; [by left; right|]. rewrite Hj. destruct (Hst j) as [->|?]; [by left; left|by right].
    + intros j k [->|Hj] Hd'.
      * destruct Hd' as (n' & Hn' & Hk). rewrite Hn in Hn'. injection Hn' as <-. destruct (dependents n) as [|p' ds]; [done|]. injection Hd as ->. apply elem_of_cons in Hk as [->|Hk]; [by left; right|].
        right. apply H5. apply elem_of_app. left. apply in_reverse. done.
      * destruct (H3 j k Hj) as [?|?]; [by apply (dep_erase ns1 ns)|by left; right|by right].
    + intros k Hk. destruct (H4 k Hk) as [Hk'|(j & Hj & Hd')].
      * apply elem_of_app in Hk' as [Hk'|Hk']; [|by left]. rewrite in_reverse in Hk'. right. exists i. split; [by left|]. exists n. split; [done|]. rewrite <- (take_drop 1 (dependents n)). apply elem_of_app. by right.
      * right. exists j. split; [by right|by apply (dep_erase ns ns1)].
    + intros k Hk. apply H5, elem_of_app. by right.
    + rewrite length_app, length_reverse, length_drop in H6. pose proof (dependents_to_step ns i p n Hn Hpi).
      assert (HT : dependents_to ns1 p = dependents_to ns p); [|lia]. unfold dependents_to. apply total_erase. unfold erase in *. by rewrite !fmap_take, E1.
  - apply runs_ret. exists (fun j => j = i), [obligation n]. split_and!; try done.
    + by apply chain_root.
    + intros j ->. split; [done|constructor].
    + intros j k -> (n' & Hn' & Hk). rewrite Hn in Hn'. injection Hn' as <-. right. apply elem_of_app. left. by apply in_reverse.
    + intros k [Hk|Hk]%elem_of_app; [|by left]. rewrite in_reverse in Hk. right. exists i. split; [done|]. by exists n.
    + intros k Hk. apply elem_of_app. by right.
    + rewrite length_app, length_reverse. pose proof (dependents_to_self ns i n Hn). lia.
Qed.

Lemma error_at_ok ns i : shape ns -> i < length ns ->
  runs (error_at ns i) (fun r => parent_chain ns i r.1 /\ spreads ns r.2 (fun x => x = i)).
Proof.
  intros Hsh Hi. unfold error_at. eapply runs_bind; [apply error_chain_ok; [done|done|lia]|].
  intros [[stack trace] ns1] (X & t & -> & Hc & E1 & HX & H1 & H2 & H3 & H4 & _ & H6). simpl in H6.
  assert (Hsh1 : shape ns1) by (by apply (shape_erase ns)).
  eapply runs_bind; [apply error_spread_ok; [apply Hsh1| |]|].
  - apply list.Forall_forall. intros k Hk. rewrite (erase_length _ _ E1). destruct (H4 k Hk) as [Hk'|(j & _ & Hd)]; [by apply elem_of_nil in Hk'|]. by apply (proj1 Hsh j).
  - pose proof (weight_le ns1). pose proof (dependents_to_le ns i). rewrite <- (total_erase _ _ E1) in *. simpl in H6. lia.
  - intros ns2 (E2 & G1 & G2 & G3). apply runs_ret. cbn [fst snd]. split; [done|]. assert (Hkeep : forall j, st ns1 j = Some NodeState.Error -> st ns2 j = Some NodeState.Error).
    { intros j Hj. destruct (G2 j) as [->|[? _]]; done. }
    split_and!.
    + by rewrite E2.
    + intros j ->. apply Hkeep. by apply H1.
    + intros j. destruct (G2 j) as [Hj|[Hj (x & Hx & Hr)]].
      * rewrite Hj. destruct (H2 j) as [HXj|?]; [|by left]. right. destruct (H1 j HXj). split; [done|]. by exists i.
      * right. split; [done|]. exists i. split; [done|]. apply (reach_erase ns ns1) in Hr; [|done]. destruct (H4 x Hx) as [Hx'|(y & Hy & Hd)]; [by apply elem_of_nil in Hx'|].
        destruct (H1 y Hy) as [_ Hyr]. etrans; [exact Hyr|]. econstructor; done.
    + intros j k Hd Hj Hn. destruct (H2 j) as [HXj|Hj1].
      * destruct (H3 j k HXj Hd) as [Hk|Hk]; [|by apply G1]. apply Hkeep. by apply H1.
      * apply (G3 j k); [by apply (dep_erase ns1 ns)|done|by rewrite Hj1].
Qed.

(** Errors are inherited by everything that depends on them. *)
Definition error_closed ns : Prop := forall i k, dep ns i k -> st ns i = Some NodeState.Error -> st ns k = Some NodeState.Error.

(** Then the errors after [error_at] are the old ones and all that is reached. *)
Lemma spreads_exact ns ns' i : error_closed ns -> spreads ns ns' (fun x => x = i) ->
  forall j, (reach ns i j -> st ns' j = Some NodeState.Error) /\ (~ reach ns i j -> st ns' j = st ns j).
Proof.
  intros HC (E & H1 & H2 & H3) j. split.
  - assert (Hi : st ns' i = Some NodeState.Error) by (by apply H1). intros Hr. unfold reach in Hr. revert j Hr. apply rtc_ind_r; [done|]. intros y z _ Hd IH.
    destruct (decide (st ns y = Some NodeState.Error)) as [Hy|Hy]; [|by apply (H3 y z)]. destruct (H2 z) as [->|[? _]]; [|done]. by apply (HC y).
  - intros Hr. destruct (H2 j) as [?|[_ (x & -> & ?)]]; done.
Qed.

(** *** What [error_at] touches *)

(** The parent of a node, and its ancestors up to the root of its tree. *)
Definition parent_of ns (i p : nat) : Prop := exists n, ns !! i = Some n /\ has_parent n = true /\ dependents n !! 0 = Some p.
Definition ancestor ns : nat -> nat -> Prop := rtc (parent_of ns).

(** The node and its ancestors, and what depends on a touched node, unless this was an error before and is no ancestor:
    the search stops at nodes that are errors already. *)
Inductive touched ns (i : nat) : nat -> Prop :=
| touched_chain j : ancestor ns i j -> touched ns i j
| touched_dependent j k : touched ns i j -> ancestor ns i j \/ st ns j <> Some NodeState.Error -> dep ns j k -> touched ns i k.

Lemma parent_dep ns i p : parent_of ns i p -> dep ns i p.
Proof. intros (n & Hn & _ & Hd). exists n. split; [done|]. by eapply list_elem_of_lookup_2. Qed.

Lemma touched_reach ns i j : touched ns i j -> reach ns i j.
Proof.
  induction 1 as [j Ha|j k _ IH _ Hd]; [|eapply rtc_r; done]. induction Ha as [|x y z Hp _ IH]; [constructor|]. econstructor; [by apply parent_dep|done].
Qed.

(** When what depends on an error is an error, everything that depends on the node is touched or was an error. *)
Lemma reach_touched ns i j : error_closed ns -> reach ns i j -> touched ns i j \/ st ns j = Some NodeState.Error.
Proof.
  intros HC. revert j. apply rtc_ind_r; [left; constructor; constructor|]. intros y z _ Hd [HT|HE]; [|right; by apply (HC y)].
  destruct (decide (st ns y = Some NodeState.Error)) as [Hy|Hy]; [right; by apply (HC y)|]. left. eapply touched_dependent; [done|by right|done].
Qed.

Lemma parent_erase ns ns' i p : erase ns = erase ns' -> parent_of ns' i p -> parent_of ns i p.
Proof. intros E (n' & Hn & Hp & Hd). destruct (erase_lookup _ _ _ _ E Hn) as (n & Hn' & E'). rewrite E' in Hp, Hd. by exists n. Qed.
Lemma ancestor_erase ns ns' i j : erase ns = erase ns' -> ancestor ns' i j -> ancestor ns i j.
Proof. intros E. induction 1 as [|x y z Hp _ IH]; [constructor|]. econstructor; [by eapply parent_erase|done]. Qed.

Lemma error_chain_marks fuel ns i stack trace s t ns' : error_chain fuel ns i stack trace = Ret (s, t, ns') ->
  erase ns' = erase ns
  /\ (forall j, st ns' j = st ns j \/ (ancestor ns i j /\ st ns' j = Some NodeState.Error))
  /\ (forall j, ancestor ns i j -> st ns' j = Some NodeState.Error)
  /\ (forall k, k ∈ s <-> k ∈ stack \/ exists j n, ancestor ns i j /\ ns !! j = Some n /\ k ∈ (if has_parent n then drop 1 (dependents n) else dependents n)).
Proof.
  revert ns i stack trace. induction fuel as [|fuel IH]; intros ns i stack trace; cbn [error_chain]; [done|]. intros HE. apply obind_ret in HE as (n & Hn & HE).
  destruct (ns !! i) as [n0|] eqn:Hi; [|done]. injection Hn as ->. set (ns1 := set_state i NodeState.Error ns) in *. assert (E1 : erase ns1 = erase ns) by apply erase_set_state.
  pose proof (lookup_lt_Some _ _ _ Hi) as Hlt.
  assert (S1 : forall j, st ns1 j = if decide (i = j) then Some NodeState.Error else st ns j) by (intros j; unfold ns1; rewrite st_set_state; case_decide; [subst j; by rewrite decide_True|done]).
  assert (HU : forall p, parent_of ns i p <-> has_parent n = true /\ dependents n !! 0 = Some p).
  { intros p. split; [intros (m & Hm & H1 & H2); rewrite Hi in Hm; by injection Hm as <-|]. intros [H1 H2]. by exists n. }
  destruct (has_parent n) eqn:Hp.
  - apply obind_ret in HE as (p & Hd & HE). destruct (dependents n !! 0) as [p0|] eqn:Ed; [|done]. injection Hd as ->.
    assert (HA : forall j, ancestor ns i j <-> j = i \/ ancestor ns1 p j).
    { intros j. split.
      - intros HA. destruct HA as [|x y z Hx HA]; [by left|]. right. apply HU in Hx as [_ Hx]. injection Hx as ->. by apply (ancestor_erase ns1 ns).
      - intros [->|HA]; [constructor|]. econstructor; [by apply HU|]. by apply (ancestor_erase ns ns1). }
    destruct (IH _ _ _ _ HE) as (G0 & G1 & G2 & G3). split_and!.
    + by rewrite G0.
    + intros j. destruct (G1 j) as [Hj|[Hj ?]]; [|right; split; [apply HA; by right|done]]. rewrite Hj, S1. case_decide as Ej; [|by left]. right. split; [apply HA; by left|done].
    + intros j [->|Hj]%HA; [|by apply G2]. destruct (G1 i) as [Hj|[_ ?]]; [|done]. by rewrite Hj, S1, decide_True.
    + intros k. rewrite G3, elem_of_app, in_reverse. split.
      * intros [[Hk|Hk]|(j & m & Hj & Hm & Hk)]; [right; exists i, n; split; [constructor|]; by rewrite Hp|by left|].
        right. destruct (erase_lookup _ _ _ _ (eq_sym E1) Hm) as (m0 & Hm0 & Em). rewrite Em in Hk. exists j, m0. split; [apply HA; by right|done].
      * intros [Hk|(j & m & [->|Hj]%HA & Hm & Hk)]; [by left; right|rewrite Hi in Hm; injection Hm as <-; rewrite Hp in Hk; by left; left|].
        right. destruct (erase_lookup _ _ _ _ E1 Hm) as (m1 & Hm1 & Em). rewrite Em in Hk. by exists j, m1.
  - injection HE as <- <- <-. assert (HA : forall j, ancestor ns i j -> j = i). { intros j HA. destruct HA as [|x y z Hx _]; [done|]. by apply HU in Hx as [? _]. }
    split_and!; [done| | |].
    + intros j. rewrite S1. case_decide as Ej; [subst j; right; split; [constructor|done]|by left].
    + intros j ->%HA. by rewrite S1, decide_True.
    + intros k. rewrite elem_of_app, in_reverse. split; [intros [Hk|Hk]; [right; exists i, n; split; [constructor|]; by rewrite Hp|by left]|].
      intros [Hk|(j & m & ->%HA & Hm & Hk)]; [by right|]. rewrite Hi in Hm. injection Hm as <-. rewrite Hp in Hk. by left.
Qed.

(** The spreading goes through nodes that were no errors. *)
Definition open_dep ns (j k : nat) : Prop := st ns j <> Some NodeState.Error /\ dep ns j k.
Lemma error_spread_marks fuel ns stack ns' : error_spread fuel ns stack = Ret ns' ->
  (forall j, st ns j = Some NodeState.Error -> st ns' j = Some NodeState.Error) /\ (forall j, j ∈ stack -> st ns' j = Some NodeState.Error)
  /\ (forall j, st ns' j = st ns j \/ exists x, x ∈ stack /\ rtc (open_dep ns) x j).
Proof.
  revert ns stack. induction fuel as [|fuel IH]; intros ns [|i stack]; cbn [error_spread]; try done; [intros [= <-]; split_and!; [done|by intros j ?%elem_of_nil|by left]|]. intros HE. apply obind_ret in HE as (n & Hn & HE).
  destruct (ns !! i) as [n0|] eqn:Hi; [|done]. injection Hn as ->. pose proof (lookup_lt_Some _ _ _ Hi) as Hlt. destruct (bool_decide _) eqn:Es; destruct (IH _ _ HE) as (K & S & M); clear IH HE.
  2:{ apply bool_decide_eq_false in Es. split_and!; [done| |].
      - intros j [->|Hj]%elem_of_cons; [|by apply S]. apply K. unfold st. rewrite Hi. simpl. f_equal. by apply dec_stable.
      - intros j. destruct (M j) as [?|(x & Hx & Hr)]; [by left|]. right. exists x. split; [by right|done]. }
  apply bool_decide_eq_true in Es. set (ns1 := set_state i NodeState.Error ns) in *.
  assert (S1 : forall j, st ns1 j = if decide (i = j) then Some NodeState.Error else st ns j) by (intros j; unfold ns1; rewrite st_set_state; case_decide; [subst j; by rewrite decide_True|done]).
  assert (HO : forall x y, open_dep ns1 x y -> open_dep ns x y).
  { intros x y [Hx Hd]. rewrite S1 in Hx. case_decide as Ex; [done|]. split; [done|]. apply (dep_erase ns ns1); [symmetry; apply erase_set_state|done]. }
  split_and!.
  - intros j Hj. apply K. rewrite S1. by case_decide.
  - intros j [->|Hj]%elem_of_cons; [apply K; by rewrite S1, decide_True|]. apply S, elem_of_app. by right.
  - intros j. destruct (M j) as [Hj|(x & Hx & Hr)].
    + rewrite Hj, S1. case_decide as Ej; [|by left]. subst j. right. exists i. split; [left|constructor].
    + right. assert (Hr' : rtc (open_dep ns) x j) by (eapply rtc_subrel; [exact HO|done]). apply elem_of_app in Hx as [Hx|Hx]; [|exists x; split; [by right|done]].
      rewrite in_reverse in Hx. exists i. split; [left|]. econstructor; [|done]. split; [unfold st; rewrite Hi; simpl; congruence|]. by exists n.
Qed.

(** The errors after [error_at] are the old ones and what is touched. *)
Lemma error_at_touches ns i trace ns' : shape ns -> i < length ns -> error_at ns i = Ret (trace, ns') ->
  forall j, (touched ns i j -> st ns' j = Some NodeState.Error) /\ (~ touched ns i j -> st ns' j = st ns j).
Proof.
  intros Hsh Hi HE. unfold error_at in HE. apply obind_ret in HE as ([[stack t] ns1] & H1 & HE). apply obind_ret in HE as (ns2 & H2 & [= <- <-]).
  destruct (error_chain_marks _ _ _ _ _ _ _ _ H1) as (E1 & C1 & C2 & C3). destruct (error_spread_marks _ _ _ _ H2) as (K2 & S2 & M2).
  destruct (error_at_ok ns i Hsh Hi) as ([t' ns''] & HE' & _ & (_ & _ & _ & G3)). unfold error_at in HE'. rewrite H1 in HE'. cbn [obind] in HE'. rewrite H2 in HE'. injection HE' as <- <-. cbn [fst snd] in *.
  intros j. split.
  - induction 1 as [j Ha|j k HT IH Hj (n & Hn & Hk)]; [by apply K2, C2|]. destruct Hj as [Ha|Hj]; [|apply (G3 j k); [by exists n|done|done]].
    destruct (has_parent n) eqn:Hp; [|apply S2, C3; right; exists j, n; by rewrite Hp]. destruct (dependents n) as [|p ds] eqn:Ed; [by apply elem_of_nil in Hk|].
    apply elem_of_cons in Hk as [->|Hk]; [|apply S2, C3; right; exists j, n; by rewrite Hp, Ed]. apply K2, C2. eapply rtc_r; [exact Ha|]. exists n. by rewrite Ed.
  - intros HN. assert (HT : forall x, x ∈ stack -> touched ns i x).
    { intros x Hx. apply C3 in Hx as [Hx|(y & n & Hy & Hn & Hx)]; [by apply elem_of_nil in Hx|]. apply (touched_dependent ns i y); [by constructor|by left|]. exists n. split; [done|].
      destruct (has_parent n); [|done]. rewrite <- (take_drop 1 (dependents n)). apply elem_of_app. by right. }
    destruct (M2 j) as [Hj|(x & Hx & Hr)]; [rewrite Hj; destruct (C1 j) as [?|[Ha _]]; [done|]; destruct HN; by constructor|]. destruct HN. specialize (HT x Hx). clear Hx.
    induction Hr as [|x y z [Hx Hd] _ IH]; [done|]. apply IH. eapply touched_dependent; [exact HT| |by apply (dep_erase ns ns1)]. right. intros Hs. apply Hx. destruct (C1 x) as [->|[_ ?]]; done.
Qed.

Lemma spreads_closed ns ns' X : error_closed ns -> spreads ns ns' X -> error_closed ns'.
Proof.
  intros HC (E & H1 & H2 & H3) j k Hd Hj. apply (dep_erase ns) in Hd; [|done].
  destruct (decide (st ns j = Some NodeState.Error)) as [Hy|Hy]; [|by apply (H3 j k)]. destruct (H2 k) as [->|[? _]]; [|done]. by apply (HC j).
Qed.
End Graph.

(** ** Waiting and completed nodes *)

Section Marks.
Context {O : Type}.
Implicit Types ns : list (Node O).

(** Some successes turn to waiting, with all that depends on them. *)
Definition marks ns ns' (D : nat -> Prop) : Prop :=
  erase ns' = erase ns
  /\ (forall j, st ns' j = st ns j \/ (st ns j = Some NodeState.Success /\ st ns' j = Some NodeState.Waiting /\ exists d, D d /\ reach ns d j))
  /\ (forall d, D d -> st ns' d <> Some NodeState.Success)
  /\ (forall j k, dep ns j k -> st ns j = Some NodeState.Success -> st ns' j = Some NodeState.Waiting -> st ns' k <> Some NodeState.Success).

Definition successes ns : nat := sum_list_with (fun n => if bool_decide (state n = NodeState.Success) then 1 else 0) ns.

Lemma successes_le ns : successes ns <= length ns.
Proof. unfold successes. induction ns as [|n ns IH]; simpl; [lia|]. case_bool_decide; lia. Qed.

Lemma successes_set ns i n s : ns !! i = Some n -> state n = NodeState.Success -> s <> NodeState.Success -> S (successes (set_state i s ns)) = successes ns.
Proof.
  intros Hi Hs Hn. pose proof (sum_alter (fun n => if bool_decide (state n = NodeState.Success) then 1 else 0) (with_state s) ns i n Hi) as H. cbn beta in H.
  rewrite bool_decide_eq_true_2, bool_decide_eq_false_2 in H by done. fold (successes ns) in H. unfold set_state. change (sum_list_with _ (alter _ i ns)) with (successes (alter (with_state s) i ns)) in H. lia.
Qed.

Lemma marks_refl ns : marks ns ns (fun x => x ∈ []).
Proof. split_and!; try done; [by intros j; left|intros d Hd; by apply elem_of_nil in Hd|]. intros j k _ H1 H2. by rewrite H1 in H2. Qed.

Lemma st_lookup ns i n : ns !! i = Some n -> st ns i = Some (state n).
Proof. unfold st. by intros ->. Qed.

(** One more dependent, a success, marked with what depends on it. *)
Lemma marks_step ns ns1 ns3 l1 x n : marks ns ns1 (fun d => d ∈ l1) -> ns1 !! x = Some n -> state n = NodeState.Success ->
  marks (set_state x NodeState.Waiting ns1) ns3 (fun d => d ∈ dependents n) -> marks ns ns3 (fun d => d ∈ l1 ++ [x]).
Proof.
  intros (E1 & A1 & A2 & A3) Hn Hs (E3 & B1 & B2 & B3). set (ns2 := set_state x NodeState.Waiting ns1) in *.
  assert (E2 : erase ns2 = erase ns1) by apply erase_set_state. assert (E21 : erase ns2 = erase ns) by (by rewrite E2).
  pose proof (lookup_lt_Some _ _ _ Hn) as Hx. pose proof (st_lookup _ _ _ Hn) as Hsx. rewrite Hs in Hsx.
  assert (S2 : forall j, st ns2 j = if decide (x = j) then Some NodeState.Waiting else st ns1 j).
  { intros j. unfold ns2. rewrite st_set_state. case_decide; [|done]. subst. by rewrite decide_True. }
  assert (Hx0 : st ns x = Some NodeState.Success) by (destruct (A1 x) as [<-|(_ & ? & _)]; congruence).
  assert (Hmono : forall j, st ns3 j = Some NodeState.Success -> st ns1 j = Some NodeState.Success /\ x <> j).
  { intros j Hj. destruct (B1 j) as [Hb|(_ & ? & _)]; [|congruence]. rewrite Hj, S2 in Hb. case_decide; [done|]. done. }
  assert (Hx3 : st ns3 x = Some NodeState.Waiting).
  { destruct (B1 x) as [->|(H & _)]; [by rewrite S2, decide_True by done|]. rewrite S2, decide_True in H by done. done. }
  split_and!.
  - by rewrite E3.
  - intros j. destruct (B1 j) as [Hb|(Hb & Hb' & d & Hd & Hr)].
    + rewrite Hb, S2. case_decide as Ej; [|].
      * subst j. right. split; [done|]. split; [done|]. exists x. split; [apply elem_of_app; right; by apply list_elem_of_singleton|constructor].
      * destruct (A1 j) as [?|(? & ? & d & Hd & ?)]; [by left|right]. split; [done|]. split; [done|]. exists d. split; [apply elem_of_app; by left|done].
    + rewrite S2 in Hb. case_decide; [done|]. right. split; [destruct (A1 j) as [<-|(_ & ? & _)]; congruence|]. split; [done|]. exists x.
      split; [apply elem_of_app; right; by apply list_elem_of_singleton|]. econstructor; [|by apply (reach_erase ns ns2)]. apply (dep_erase ns ns1); [done|]. by exists n.
  - intros d [Hd|Hd%list_elem_of_singleton]%elem_of_app; [|subst; by rewrite Hx3]. intros Hd'. apply Hmono in Hd' as [Hd' _]. by apply (A2 d).
  - intros j k Hd Hj Hj3 Hk. apply Hmono in Hk as Hk'. destruct Hk' as [Hk' Hxk]. destruct (decide (x = j)) as [<-|Hxj].
    + apply (B2 k); [|done]. apply (dep_erase ns1 ns) in Hd; [|done]. destruct Hd as (n' & Hn' & ?). rewrite Hn in Hn'. by injection Hn' as <-.
    + destruct (A1 j) as [Ha|(_ & Ha & _)].
      * apply (B3 j k); [by apply (dep_erase ns2 ns)|rewrite S2, decide_False by done; by rewrite Ha|done|done].
      * by apply (A3 j k).
Qed.

Lemma mark_dependents_ok fuel deps ns : in_range ns -> Forall (fun i => i < length ns) deps -> successes ns < fuel ->
  runs (mark_dependents_as_waiting fuel deps ns) (fun ns' => marks ns ns' (fun d => d ∈ deps) /\ successes ns' <= successes ns).
Proof.
  revert deps ns. induction fuel as [|fuel IH]; intros deps ns HR Hd Hf; [lia|]. cbn [mark_dependents_as_waiting].
  apply (runs_fold _ (fun l1 ns1 => marks ns ns1 (fun d => d ∈ l1) /\ successes ns1 <= successes ns)); [split; [apply marks_refl|done]|].
  intros l1 x l2 ns1 El [HM HS]. assert (Hx : x < length ns) by (rewrite list.Forall_forall in Hd; apply Hd; rewrite El; apply elem_of_app; right; apply elem_of_cons; by left).
  pose proof HM as (E1 & _). rewrite <- (erase_length _ _ E1) in Hx. destruct (lookup_lt_is_Some_2 _ _ Hx) as [n Hn]. rewrite Hn. cbn [unwrap obind].
  assert (HR1 : in_range ns1) by (by apply (in_range_erase ns)). destruct (bool_decide (state n = NodeState.Success)) eqn:Es.
  - apply bool_decide_eq_true in Es. pose proof (successes_set ns1 x n NodeState.Waiting Hn Es ltac:(done)) as HC. set (ns2 := set_state x NodeState.Waiting ns1) in *.
    eapply runs_mono; [apply (IH (dependents n) ns2)|].
    + apply (in_range_erase ns1); [apply erase_set_state|done].
    + apply list.Forall_forall. intros k Hk. unfold ns2. rewrite length_set_state. apply (HR1 x). by exists n.
    + lia.
    + intros ns3 [HM3 HS3]. split; [by apply (marks_step ns ns1 ns3 l1 x n)|]. lia.
  - apply bool_decide_eq_false in Es. apply runs_ret. split; [|done]. destruct HM as (_ & A1 & A2 & A3). split_and!; try done.
    + intros j. destruct (A1 j) as [?|(? & ? & d & Hd' & ?)]; [by left|right]. split; [done|]. split; [done|]. exists d. split; [apply elem_of_app; by left|done].
    + intros d [?|Hd'%list_elem_of_singleton]%elem_of_app; [by apply A2|]. subst d. rewrite (st_lookup _ _ _ Hn). congruence.
Qed.

(** *** [mark_successes] *)

Definition waiting_to_success (s : NodeState.t) : NodeState.t := match s with NodeState.Waiting => NodeState.Success | s => s end.

Lemma erase_unwait ns : erase (unwait <$> ns) = erase ns.
Proof. unfold erase. rewrite <- list_fmap_compose. apply list_fmap_ext. intros i n _. unfold unwait. simpl. by case_bool_decide. Qed.

Lemma st_unwait ns i : st (unwait <$> ns) i = waiting_to_success <$> st ns i.
Proof. unfold st. rewrite list_lookup_fmap. destruct (ns !! i) as [n|]; [|done]. simpl. unfold unwait. case_bool_decide as E; simpl; [by rewrite E|]. by destruct (state n). Qed.

(** No pending node has dependents that wait to be processed: what depends on a node has been processed. *)
Definition processed ns : Prop := forall i k, dep ns i k -> st ns k <> Some NodeState.Pending.

(** Waiting is depending on a pending node. *)
Definition leads ns (j : nat) : Prop := exists p, st ns p = Some NodeState.Pending /\ reach ns p j.

(** What [mark_successes] does to a forest without completed nodes. *)
Definition marked ns ns' : Prop :=
  erase ns' = erase ns
  /\ (forall j, st ns' j = Some NodeState.Pending <-> st ns j = Some NodeState.Pending)
  /\ (forall j, st ns' j = Some NodeState.Error <-> st ns j = Some NodeState.Error)
  /\ (forall j, st ns' j <> Some NodeState.Done)
  /\ (forall j, st ns' j = Some NodeState.Waiting <-> leads ns j /\ st ns j <> Some NodeState.Pending /\ st ns j <> Some NodeState.Error)
  /\ length ns' = length ns.

Lemma elem_of_seq0 n j : j ∈ seq 0 n <-> j < n.
Proof. rewrite elem_of_seq. lia. Qed.

Lemma mark_successes_ok ns : in_range ns -> error_closed ns -> (forall j, st ns j <> Some NodeState.Done) -> runs (mark_successes ns) (marked ns).
Proof.
  intros HR HC HD. unfold mark_successes. set (ns0 := unwait <$> ns). assert (E0 : erase ns0 = erase ns) by apply erase_unwait.
  assert (HR0 : in_range ns0) by (by apply (in_range_erase ns)). pose proof (erase_length _ _ E0) as HL0.
  assert (S0 : forall j, st ns0 j = waiting_to_success <$> st ns j) by apply st_unwait.
  eapply runs_mono; [apply (runs_fold _ (fun l1 ns1 => erase ns1 = erase ns
    /\ (forall j, st ns1 j = st ns0 j \/ (st ns0 j = Some NodeState.Success /\ st ns1 j = Some NodeState.Waiting /\ leads ns j))
    /\ (forall p d, p ∈ l1 -> st ns p = Some NodeState.Pending -> dep ns p d -> st ns1 d <> Some NodeState.Success)
    /\ (forall j k, dep ns j k -> st ns1 j = Some NodeState.Waiting -> st ns1 k <> Some NodeState.Success)))|].
  - split_and!; [done|by intros j; left|intros p d Hp; by apply elem_of_nil in Hp|]. intros j k _ Hj. rewrite S0 in Hj. destruct (st ns j) as [[]|]; done.
  - intros l1 x l2 ns1 El (E1 & A1 & A2 & A3). assert (Hx : x < length ns1).
    { rewrite (erase_length _ _ E1), <- HL0, <- elem_of_seq0, El. apply elem_of_app. right. apply elem_of_cons. by left. }
    destruct (lookup_lt_is_Some_2 _ _ Hx) as [n Hn]. rewrite Hn. cbn [unwrap obind]. pose proof (st_lookup _ _ _ Hn) as Hsx.
    assert (HR1 : in_range ns1) by (by apply (in_range_erase ns)).
    assert (Hpend : st ns1 x = Some NodeState.Pending <-> st ns x = Some NodeState.Pending).
    { destruct (A1 x) as [->|(H1 & -> & _)]; rewrite S0 in *; destruct (st ns x) as [[]|]; done. }
    destruct (bool_decide (state n = NodeState.Pending)) eqn:Es.
    + apply bool_decide_eq_true in Es. rewrite Es in Hsx. apply Hpend in Hsx as Hsx0.
      eapply runs_mono; [apply mark_dependents_ok; [done| |]|].
      * apply list.Forall_forall. intros k Hk. apply (HR1 x). by exists n.
      * pose proof (successes_le ns1). lia.
      * intros ns2 [(E2 & B1 & B2 & B3) _]. assert (Hlead : forall d j, d ∈ dependents n -> reach ns1 d j -> leads ns j).
        { intros d j Hd Hr. exists x. split; [done|]. econstructor; [apply (dep_erase ns ns1); [done|by exists n]|by apply (reach_erase ns ns1)]. }
        assert (Hmono : forall j, st ns2 j = Some NodeState.Success -> st ns1 j = Some NodeState.Success) by (intros j Hj; destruct (B1 j) as [<-|(_ & ? & _)]; congruence).
        split_and!.
        -- by rewrite E2.
        -- intros j. destruct (B1 j) as [->|(Hb & Hb' & d & Hd & Hr)]; [done|]. right. split; [destruct (A1 j) as [<-|(_ & ? & _)]; congruence|]. split; [done|by eapply Hlead].
        -- intros p d [Hp|Hp%list_elem_of_singleton]%elem_of_app Hpp Hd; [intros Hd'; apply Hmono in Hd'; by apply (A2 p d)|]. subst p. apply B2. apply (dep_erase ns1 ns) in Hd; [|done].
           destruct Hd as (n' & Hn' & ?). rewrite Hn in Hn'. by injection Hn' as <-.
        -- intros j k Hd Hj Hk. apply Hmono in Hk as Hk1. destruct (B1 j) as [Hb|(Hb & _ & _)]; [apply (A3 j k); [done|by rewrite <- Hb|done]|]. apply (B3 j k); [by apply (dep_erase ns1 ns)|done..].
    + apply bool_decide_eq_false in Es. apply runs_ret. split_and!; try done. intros p d [Hp|Hp%list_elem_of_singleton]%elem_of_app Hpp; [by apply A2|]. subst p. apply Hpend in Hpp. congruence.
  - intros ns' (E & A1 & A2 & A3). split_and!.
    + done.
    + intros j. destruct (A1 j) as [->|(H1 & -> & _)]; rewrite S0 in *; destruct (st ns j) as [[]|]; done.
    + intros j. destruct (A1 j) as [->|(H1 & -> & _)]; rewrite S0 in *; destruct (st ns j) as [[]|]; done.
    + intros j. specialize (HD j). destruct (A1 j) as [->|(H1 & -> & _)]; rewrite S0 in *; destruct (st ns j) as [[]|]; done.
    + intros j. split.
      * intros Hj. destruct (A1 j) as [Ha|(Ha & _ & Hl)]; [rewrite Hj, S0 in Ha; destruct (st ns j) as [[]|]; done|]. rewrite S0 in Ha. split; [done|]. split; intros Hx; by rewrite Hx in Ha.
      * intros ((p & Hp & Hr) & Hn1 & Hn2).
        assert (G : forall m, rtc (dep ns) p m -> m = p \/ st ns m = Some NodeState.Error \/ st ns' m <> Some NodeState.Success).
        { apply rtc_ind_r; [by left|]. intros y z Hy Hd IH. right. destruct (decide (st ns y = Some NodeState.Error)) as [Hye|Hye]; [left; by apply (HC y)|].
          right. destruct IH as [->|[?|IH]]; [|done|].
          - apply (A2 p); [|done|done]. apply elem_of_seq0. rewrite HL0. by eapply st_lt.
          - destruct (decide (st ns y = Some NodeState.Pending)) as [Hyp|Hyp]; [apply (A2 y); [|done|done]; apply elem_of_seq0; rewrite HL0; by eapply st_lt|].
            destruct (A1 y) as [Ha|(_ & Ha & _)]; [|by apply (A3 y z)]. rewrite S0 in Ha.
            assert (Hlt : y < length ns) by (eapply reach_lt; [exact HR|by eapply st_lt|exact Hy]).
            assert (Hys : is_Some (st ns y)) by (unfold st; apply fmap_is_Some; by apply lookup_lt_is_Some_2). destruct Hys as [s Hs]. rewrite Hs in *. specialize (HD y). rewrite Hs in HD.
            destruct s; simpl in Ha; done. }
        assert (Hlt : j < length ns) by (eapply reach_lt; [exact HR|by eapply st_lt|exact Hr]).
        assert (Hjs : is_Some (st ns j)) by (unfold st; apply fmap_is_Some; by apply lookup_lt_is_Some_2). destruct Hjs as [s Hs]. specialize (HD j). destruct (G j Hr) as [->|[?|Hj]]; [done|done|].
        destruct (A1 j) as [Ha|(_ & ? & _)]; [|done]. rewrite S0, Hs in Ha. rewrite Hs in *. destruct s; simpl in Ha; done.
    + by apply erase_length.
Qed.

(** *** Waiting for a pending node *)

Inductive awaits ns : nat -> Prop :=
| awaits_pending p j : st ns p = Some NodeState.Pending -> dep ns p j -> awaits ns j
| awaits_waiting m j : awaits ns m -> st ns m = Some NodeState.Waiting -> dep ns m j -> awaits ns j.

Definition waiting_ok ns : Prop := forall j, st ns j = Some NodeState.Waiting -> awaits ns j.

Lemma awaits_leads ns j : awaits ns j -> leads ns j.
Proof.
  induction 1 as [p j Hp Hd|m j _ (p & Hp & Hr) _ Hd]; exists p; split; try done; [by apply rtc_once|]. by eapply rtc_r.
Qed.

Lemma marked_waiting ns ns' : processed ns -> error_closed ns -> marked ns ns' -> waiting_ok ns'.
Proof.
  intros HP HC (E & M1 & M2 & _ & M4 & _) j Hj. apply M4 in Hj as Hj'. destruct Hj' as ((p & Hp & Hr) & Hn1 & Hn2).
  assert (G : forall m, rtc (dep ns) p m -> m = p \/ st ns m = Some NodeState.Error \/ (st ns' m = Some NodeState.Waiting /\ awaits ns' m)).
  { apply rtc_ind_r; [by left|]. intros y z Hy Hd IH. right. destruct (decide (st ns z = Some NodeState.Error)) as [?|Hz]; [by left|]. right.
    assert (Hdz : dep ns' y z) by (by apply (dep_erase ns' ns)).
    assert (Hzw : st ns' z = Some NodeState.Waiting) by (apply M4; split; [exists p; split; [done|]; by eapply rtc_r|]; split; [by apply (HP y)|done]).
    split; [done|]. destruct IH as [->|[Hye|[Hyw Hya]]]; [|exfalso; apply Hz; by apply (HC y)|by eapply awaits_waiting]. by eapply awaits_pending; [apply M1|]. }
  destruct (G j Hr) as [->|[?|[_ ?]]]; done.
Qed.

(** *** Cycles *)

(** Some nodes that are not pending are completed or in error. *)
Definition cycled ns ns' : Prop :=
  erase ns' = erase ns
  /\ (forall j, st ns' j = st ns j \/ ((st ns' j = Some NodeState.Done \/ st ns' j = Some NodeState.Error) /\ st ns j <> Some NodeState.Pending))
  /\ (waiting_ok ns -> waiting_ok ns').

Lemma cycled_refl ns : cycled ns ns.
Proof. split_and!; [done|by intros j; left|done]. Qed.

Lemma cycled_trans ns1 ns2 ns3 : cycled ns1 ns2 -> cycled ns2 ns3 -> cycled ns1 ns3.
Proof.
  intros (E1 & A1 & A2) (E2 & B1 & B2). split_and!; [by rewrite E2|intros j|auto]. destruct (B1 j) as [->|[? Hb]]; [done|]. right. split; [done|]. destruct (A1 j) as [<-|[_ ?]]; done.
Qed.

Lemma cycled_processed ns ns' : cycled ns ns' -> processed ns -> processed ns'.
Proof.
  intros (E & A & _) HP i k Hd Hk. apply (dep_erase ns) in Hd; [|done]. destruct (A k) as [Ha|[[Ha|Ha] _]]; [|congruence..]. apply (HP i k Hd). by rewrite <- Ha.
Qed.

Lemma reach_processed ns i j : processed ns -> st ns i <> Some NodeState.Pending -> reach ns i j -> st ns j <> Some NodeState.Pending.
Proof. intros HP Hi. revert j. apply rtc_ind_r; [done|]. intros y z _ Hd _. by apply (HP y). Qed.

Lemma spreads_cycled ns ns' i : processed ns -> st ns i <> Some NodeState.Pending -> spreads ns ns' (fun x => x = i) -> cycled ns ns'.
Proof.
  intros HP Hi (E & H1 & H2 & H3).
  assert (HA : forall j, st ns' j = st ns j \/ ((st ns' j = Some NodeState.Done \/ st ns' j = Some NodeState.Error) /\ st ns j <> Some NodeState.Pending)).
  { intros j. destruct (H2 j) as [?|[? (x & -> & Hr)]]; [by left|]. right. split; [by right|by eapply reach_processed]. }
  split_and!; [done|done|]. intros HW j Hj. assert (Hj0 : st ns j = Some NodeState.Waiting) by (destruct (HA j) as [<-|[[?|?] _]]; congruence).
  assert (G : forall m, awaits ns m -> st ns' m = Some NodeState.Error \/ awaits ns' m).
  { induction 1 as [p m Hp Hd|y m _ IH Hy Hd].
    - right. eapply awaits_pending; [|by apply (dep_erase ns' ns)]. destruct (HA p) as [->|[_ ?]]; done.
    - destruct (H2 y) as [Hy'|[Hy' _]]; [|left; apply (H3 y m Hd Hy'); congruence]. destruct IH as [IH|IH]; [congruence|]. right. eapply awaits_waiting; [done|congruence|by apply (dep_erase ns' ns)]. }
  destruct (G j (HW j Hj0)) as [?|?]; [congruence|done].
Qed.

Lemma done_cycled ns i : st ns i <> Some NodeState.Pending -> st ns i <> Some NodeState.Waiting -> cycled ns (set_state i NodeState.Done ns).
Proof.
  intros H1 H2. set (ns' := set_state i NodeState.Done ns). assert (E : erase ns' = erase ns) by apply erase_set_state.
  assert (S' : forall j, i <> j -> st ns' j = st ns j) by (intros j Hj; unfold ns'; by rewrite st_set_state, decide_False by done).
  assert (Si : st ns' i = st ns i \/ st ns' i = Some NodeState.Done).
  { unfold ns'. rewrite st_set_state, decide_True by done. case_decide; [by right|]. left. unfold st. rewrite lookup_ge_None_2 by lia. done. }
  split_and!; [done| |].
  - intros j. destruct (decide (i = j)) as [<-|Hj]; [|left; by apply S']. destruct Si; [by left|right]. split; [by left|done].
  - intros HW j Hj. assert (Hij : i <> j) by (intros <-; destruct Si; congruence). rewrite S' in Hj by done. specialize (HW j Hj). clear Hj Hij.
    induction HW as [p m Hp Hd|y m _ IH Hy Hd].
    + eapply awaits_pending; [rewrite S'; [done|]; intros <-; done|by apply (dep_erase ns' ns)].
    + eapply awaits_waiting; [done|rewrite S'; [done|]; intros <-; done|by apply (dep_erase ns' ns)].
Qed.
End Marks.

Lemma rposition_None x l : rposition x l = None -> x ∉ l.
Proof.
  unfold rposition. intros H%fmap_None. rewrite position_None in H. intros Hx. rewrite <- in_reverse in Hx. rewrite list.Forall_forall in H. specialize (H x Hx). by apply bool_decide_eq_false in H.
Qed.

Section Search.
Context {P O E OUT : Type} `{!ObligationProcessor P O E} `{!OutcomeTrait OUT O E}.
Implicit Types ns : list (Node O).

(** A processor that accepts every cycle. *)
Definition accepting : Prop := forall (p : P) cycle, (process_backedge p cycle).1 = None.

(** With such a processor, all that happens is that successes are completed. *)
Definition completes (st0 st' : list (Node O) * P * OUT) : Prop :=
  accepting -> st'.2 = st0.2
    /\ forall j, st st'.1.1 j = st st0.1.1 j \/ (st st0.1.1 j = Some NodeState.Success /\ st st'.1.1 j = Some NodeState.Done).

Lemma completes_refl x : completes x x.
Proof. intros _. split; [done|by intros j; left]. Qed.
Lemma completes_trans x y z : completes x y -> completes y z -> completes x z.
Proof.
  intros H1 H2 HA. destruct (H1 HA) as [E1 A1], (H2 HA) as [E2 A2]. split; [by rewrite E2|]. intros j. destruct (A2 j) as [->|[Ha ?]]; [apply A1|]. right. split; [|done]. destruct (A1 j) as [<-|[_ ?]]; congruence.
Qed.

Lemma find_cycles_ok fuel stack index ns p out : shape ns -> processed ns -> index < length ns -> NoDup stack -> Forall (fun i => i < length ns) stack -> length ns < fuel + length stack ->
  runs (find_cycles_from_node fuel stack index (ns, p, out)) (fun r => cycled ns r.1.1 /\ completes (ns, p, out) r /\ (index ∉ stack -> st r.1.1 index <> Some NodeState.Success)).
Proof.
  revert stack index ns p out. induction fuel as [|fuel IH]; intros stack index ns p out Hsh HP Hi HN HF Hf.
  - exfalso. assert (length stack <= length (seq 0 (length ns))); [|rewrite length_seq in *; simpl in Hf; lia]. apply submseteq_length, NoDup_submseteq; [done|].
    intros x Hx. apply elem_of_seq0. rewrite list.Forall_forall in HF. by apply HF.
  - cbn [find_cycles_from_node]. destruct (lookup_lt_is_Some_2 _ _ Hi) as [n Hn]. rewrite Hn. cbn [unwrap obind]. pose proof (st_lookup _ _ _ Hn) as Hs. destruct (bool_decide (state n = NodeState.Success)) eqn:Es.
    2:{ apply bool_decide_eq_false in Es. apply runs_ret. split; [apply cycled_refl|]. split; [apply completes_refl|]. intros _. simpl. congruence. }
    apply bool_decide_eq_true in Es. rewrite Es in Hs. destruct (rposition index stack) as [rpos|] eqn:Er.
    + assert (Hin : index ∈ stack).
      { unfold rposition in Er. apply fmap_Some in Er as (q & Hq & _). apply position_Some in Hq as (l1 & y & l2 & El & _ & Hy & _). apply bool_decide_eq_true in Hy. subst y. apply in_reverse. rewrite El. apply elem_of_app. right. apply elem_of_cons. by left. }
      destruct (process_backedge p (omap (fun i => obligation <$> ns !! i) (drop rpos stack))) as [[err|] p'] eqn:Ep.
      * eapply runs_bind; [apply error_at_ok; done|]. intros [trace ns'] [_ HS]. apply runs_ret. simpl. split; [eapply spreads_cycled; [done| |done]; congruence|]. split; [|done].
        intros HA. specialize (HA p (omap (fun i => obligation <$> ns !! i) (drop rpos stack))). by rewrite Ep in HA.
      * apply runs_ret. simpl. split; [apply cycled_refl|]. split; [|done]. intros _. split; [done|by intros j; left].
    + apply rposition_None in Er.
      eapply runs_bind; [apply (runs_fold _ (fun _ r => cycled ns r.1.1 /\ completes (ns, p, out) r)); [split; [apply cycled_refl|apply completes_refl]|]|].
      * intros l1 d l2 [[ns1 p1] out1] El [HC HT]. pose proof HC as (E1 & _). pose proof (erase_length _ _ E1) as HL. eapply runs_mono; [apply (IH (stack ++ [index]) d ns1 p1 out1)|].
        -- by apply (shape_erase ns).
        -- by eapply cycled_processed.
        -- simpl in HL. rewrite HL. apply (proj1 Hsh index). exists n. split; [done|]. rewrite El. apply elem_of_app. right. apply elem_of_cons. by left.
        -- apply list.NoDup_app. split; [done|]. split; [|apply NoDup_singleton]. intros x Hx. rewrite list_elem_of_singleton. congruence.
        -- simpl in HL. rewrite HL. apply list.Forall_app. split; [done|]. by repeat constructor.
        -- simpl in HL. rewrite HL, length_app. simpl. lia.
        -- intros r (H1 & H2 & _). split; [eapply cycled_trans; [exact HC|exact H1]|eapply completes_trans; [exact HT|exact H2]].
      * intros [[ns1 p1] out1] [HC HT]. cbn [fst snd] in *. apply runs_ret. cbn [fst snd]. pose proof HC as (E1 & A1 & _).
        assert (Hi1 : st ns1 index <> Some NodeState.Pending /\ st ns1 index <> Some NodeState.Waiting) by (destruct (A1 index) as [->|[[->| ->] _]]; rewrite ?Hs; done).
        split; [eapply cycled_trans; [exact HC|apply done_cycled; apply Hi1]|]. split.
        -- intros HA. destruct (HT HA) as [Eo A]. split; [done|]. intros j. cbn [fst snd] in *. rewrite st_set_state. case_decide as Ej; [|apply A]. subst j. rewrite decide_True by (rewrite (erase_length _ _ E1); done). by right.
        -- intros _. rewrite st_set_state, decide_True, decide_True by (done || (rewrite (erase_length _ _ E1); done)). done.
Qed.

Lemma process_cycles_ok ns p out : shape ns -> processed ns ->
  runs (process_cycles (ns, p, out)) (fun r => cycled ns r.1.1 /\ completes (ns, p, out) r /\ forall j, st r.1.1 j <> Some NodeState.Success).
Proof.
  intros Hsh HP. unfold process_cycles. eapply runs_mono; [apply (runs_fold _ (fun l1 r => cycled ns r.1.1 /\ completes (ns, p, out) r /\ forall j, j ∈ l1 -> st r.1.1 j <> Some NodeState.Success))|].
  - split; [apply cycled_refl|]. split; [apply completes_refl|]. intros j Hj. by apply elem_of_nil in Hj.
  - intros l1 x l2 [[ns1 p1] out1] El (HC & HT & HN). cbn [fst snd] in *. pose proof HC as (E1 & _). pose proof (erase_length _ _ E1) as HL.
    assert (Hx : x < length ns1) by (rewrite HL, <- elem_of_seq0, El; apply elem_of_app; right; apply elem_of_cons; by left).
    destruct (lookup_lt_is_Some_2 _ _ Hx) as [n Hn]. rewrite Hn. cbn [unwrap obind]. destruct (bool_decide (state n = NodeState.Success)) eqn:Es.
    + eapply runs_mono; [apply find_cycles_ok; [by apply (shape_erase ns)|by eapply cycled_processed|done|constructor|constructor|simpl; lia]|]. intros r (H1 & H2 & H3). split; [eapply cycled_trans; [exact HC|exact H1]|].
      split; [eapply completes_trans; [exact HT|exact H2]|]. intros j [Hj|Hj%list_elem_of_singleton]%elem_of_app; [|subst; apply H3, not_elem_of_nil]. destruct H1 as (_ & A & _). specialize (HN j Hj). destruct (A j) as [->|[[->| ->] _]]; done.
    + apply bool_decide_eq_false in Es. apply runs_ret. split; [done|]. split; [done|]. intros j [Hj|Hj%list_elem_of_singleton]%elem_of_app; [by apply HN|]. subst. simpl. rewrite (st_lookup _ _ _ Hn). congruence.
  - intros [[ns1 p1] out1] (HC & HT & HN). cbn [fst snd] in *. split; [done|]. split; [done|]. intros j Hj. pose proof HC as (E1 & _). apply (HN j); [|done]. apply elem_of_seq0. rewrite <- (erase_length _ _ E1). by eapply st_lt.
Qed.
End Search.
