(* ===== verification/ForestProcess.v ===== *)
(** * The obligation forest: compression and the invariants of its operations *)
From Stdlib Require Import Lia.
From stdpp Require Import base numbers list gmap option relations.
From S2P Require Import Prelude ObligationForest ForestStates.
#[local] Open Scope nat_scope.
#[local] Open Scope rust_scope.

(** ** Compression

    [compress] keeps the pending and waiting nodes in their order, with the dependents that survive under their new
    indices, and moves the keys of the others to the caches. *)

Lemma insert_at_middle {A} (a : list A) y x l k : k = length a -> <[k := x]> (a ++ y :: l) = a ++ x :: l.
Proof. intros ->. rewrite insert_app_r_alt by done. by rewrite Nat.sub_diag. Qed.
Lemma lookup_middle_eq {A} (a : list A) y l l' k : l' = a ++ y :: l -> k = length a -> l' !! k = Some y.
Proof. intros -> ->. by apply list_lookup_middle. Qed.

(** *** Rewriting indices *)

Lemma swap_remove_app {A} (pre : list A) d rest : exists rest', swap_remove (length pre) (pre ++ d :: rest) = pre ++ rest' /\ rest' ≡ₚ rest.
Proof.
  unfold swap_remove. destruct rest as [|l r _] using rev_ind.
  - rewrite last_snoc, length_app. simpl. replace (length pre + 1 - 1) with (length pre) by lia. rewrite Nat.eqb_refl, take_app_length. exists []. by rewrite app_nil_r.
  - rewrite app_comm_cons, app_assoc, last_snoc, !length_app. simpl. rewrite (proj2 (Nat.eqb_neq _ _)) by lia.
    replace (length pre + S (length r) + 1 - 1) with (length (pre ++ d :: r)) by (rewrite length_app; simpl; lia). rewrite take_app_length. exists (l :: r). split.
    + by apply insert_at_middle.
    + apply Permutation_cons_append.
Qed.

Definition new_in (node_rewrites : list nat) (d : nat) : option nat :=
  match node_rewrites !! d with Some x => if length node_rewrites <=? x then None else Some x | None => None end.

Section Rewrites.
Context (R : list nat).

Lemma rewrite_dependents_ok fuel pre rest parent : Forall (fun d => d < length R) rest -> length rest < fuel -> (0 < length pre \/ parent = false) ->
  runs (rewrite_dependents fuel R (length pre) (pre ++ rest) parent) (fun r => exists rest', r.1 = pre ++ rest' /\ rest' ≡ₚ omap (new_in R) rest /\ r.2 = parent).
Proof.
  revert pre rest. induction fuel as [|fuel IH]; intros pre rest HF Hf Hp; [lia|]. cbn [rewrite_dependents]. destruct rest as [|d rest].
  - rewrite lookup_ge_None_2 by (rewrite app_nil_r; lia). apply runs_ret. by exists [].
  - rewrite list_lookup_middle by done. inversion_clear HF as [|? ? Hd HF']. destruct (lookup_lt_is_Some_2 _ _ Hd) as [x Hx]. rewrite Hx. cbn [unwrap obind].
    assert (Hnew : new_in R d = if length R <=? x then None else Some x) by (unfold new_in; by rewrite Hx). simpl in Hf. destruct (length R <=? x) eqn:El.
    + destruct (swap_remove_app pre d rest) as (rest' & -> & HP). replace (if (length pre =? 0) && parent then false else parent) with parent.
      2:{ destruct (length pre =? 0) eqn:E0; [|done]. apply Nat.eqb_eq in E0. destruct Hp; [lia|]. by subst parent. }
      eapply runs_mono; [apply (IH pre rest'); [by rewrite HP|rewrite HP; lia|done]|]. intros r (rest'' & H1 & H2 & H3). exists rest''. split; [done|]. split; [|done]. simpl. rewrite Hnew, H2. by rewrite HP.
    + replace (length pre + 1) with (length (pre ++ [x])) by (rewrite length_app; done). replace (<[length pre := x]> (pre ++ d :: rest)) with ((pre ++ [x]) ++ rest).
      2:{ by rewrite insert_at_middle, <- app_assoc. }
      eapply runs_mono; [apply (IH (pre ++ [x]) rest HF'); [lia|left; rewrite length_app; simpl; lia]|]. intros r (rest'' & H1 & H2 & H3). exists (x :: rest''). split; [by rewrite H1, <- app_assoc|]. split; [|done]. simpl. rewrite Hnew. by rewrite H2.
Qed.

Definition rewritten_deps (deps deps' : list nat) (parent parent' : bool) : Prop :=
  deps' ≡ₚ omap (new_in R) deps
  /\ (parent' = true -> parent = true /\ exists p x, deps !! 0 = Some p /\ new_in R p = Some x /\ deps' !! 0 = Some x).

Lemma rewrite_first_ok deps parent : Forall (fun d => d < length R) deps -> (parent = true -> deps <> []) ->
  runs (rewrite_dependents (S (length deps)) R 0 deps parent) (fun r => rewritten_deps deps r.1 parent r.2).
Proof.
  intros HF Hp. destruct parent.
  2:{ eapply runs_mono; [apply (rewrite_dependents_ok (S (length deps)) [] deps false HF); [lia|by right]|]. intros r (rest' & H1 & H2 & H3). simpl in H1. subst rest'. split; [done|]. by rewrite H3. }
  destruct deps as [|d deps]; [by specialize (Hp eq_refl)|]. cbn [length rewrite_dependents lookup list_lookup]. inversion_clear HF as [|? ? Hd HF']. destruct (lookup_lt_is_Some_2 _ _ Hd) as [x Hx]. rewrite Hx. cbn [unwrap obind].
  assert (Hnew : new_in R d = if length R <=? x then None else Some x) by (unfold new_in; by rewrite Hx). destruct (length R <=? x) eqn:El.
  - destruct (swap_remove_app [] d deps) as (rest' & E & HP). simpl in E. rewrite E. cbn [Nat.eqb andb].
    eapply runs_mono; [apply (rewrite_dependents_ok (S (length deps)) [] rest' false); [by rewrite HP|rewrite HP; lia|by right]|]. intros r (rest'' & H1 & H2 & H3). simpl in H1. subst rest''. split; [|by rewrite H3].
    rewrite H2. simpl. rewrite Hnew. by rewrite HP.
  - change (<[0 := x]> (d :: deps)) with ([x] ++ deps). change (0 + 1) with (length [x]).
    eapply runs_mono; [apply (rewrite_dependents_ok (S (length deps)) [x] deps true HF'); [lia|left; simpl; lia]|]. intros r (rest'' & H1 & H2 & H3). rewrite H1. split.
    + simpl. rewrite Hnew. by rewrite H2.
    + intros _. split; [done|]. by exists d, x.
Qed.

Definition rewritten {O} (n n' : Node O) : Prop :=
  obligation n' = obligation n /\ state n' = state n /\ obligation_tree_id n' = obligation_tree_id n
  /\ rewritten_deps (dependents n) (dependents n') (has_parent n) (has_parent n').

Lemma rewrite_nodes_ok {O} (ns : list (Node O)) :
  Forall (fun n => Forall (fun d => d < length R) (dependents n) /\ (has_parent n = true -> dependents n <> [])) ns ->
  runs (rewrite_nodes R ns) (Forall2 rewritten ns).
Proof.
  induction 1 as [|n ns [H1 H2] _ IH]; cbn [rewrite_nodes]; [by apply runs_ret|]. eapply runs_bind; [by apply rewrite_first_ok|]. intros [deps parent] Hd.
  eapply runs_bind; [exact IH|]. intros ns' Hns. apply runs_ret. constructor; [|done]. by split_and!.
Qed.
End Rewrites.

(** *** The loop *)

Definition is_alive {O} (n : Node O) : bool := match state n with NodeState.Pending | NodeState.Waiting => true | _ => false end.
Definition survivors {O} (ns : list (Node O)) : list (Node O) := filter (fun n => is_alive n = true) ns.
Definition in_state {O} (s : NodeState.t) (ns : list (Node O)) : list (Node O) := filter (fun n => state n = s) ns.

(** The new index of a node that survives. *)
Definition new_of {O} (ns : list (Node O)) (d : nat) : option nat :=
  match ns !! d with Some n => if is_alive n then Some (length (survivors (take d ns))) else None | None => None end.

Lemma survivors_le {O} (ns : list (Node O)) : length (survivors ns) <= length ns.
Proof. apply length_filter. Qed.

Lemma survivors_app {O} (l1 l2 : list (Node O)) : survivors (l1 ++ l2) = survivors l1 ++ survivors l2.
Proof. apply list.filter_app. Qed.
Lemma survivors_cons {O} (n : Node O) l : survivors (n :: l) = if is_alive n then n :: survivors l else survivors l.
Proof. unfold survivors. rewrite filter_cons. by destruct (is_alive n). Qed.

Lemma survivors_all {O} (l : list (Node O)) : length (survivors l) = length l -> Forall (fun n => is_alive n = true) l /\ survivors l = l.
Proof.
  induction l as [|n l IH]; [done|]. rewrite survivors_cons. pose proof (survivors_le l). destruct (is_alive n) eqn:Ha; simpl; intros HL; [|lia].
  destruct (IH ltac:(lia)) as [? E]. split; [by constructor|by rewrite E].
Qed.
Lemma survivors_alive {O} (l : list (Node O)) : Forall (fun n => is_alive n = true) l -> survivors l = l.
Proof. induction 1 as [|n l Hn _ IH]; [done|]. by rewrite survivors_cons, Hn, IH. Qed.

Lemma new_of_lookup {O} (ns : list (Node O)) d n : ns !! d = Some n -> is_alive n = true -> survivors ns !! length (survivors (take d ns)) = Some n.
Proof.
  intros Hd Ha. assert (E : survivors ns = survivors (take d ns) ++ n :: survivors (drop (S d) ns)).
  { rewrite <- (take_drop_middle ns d n Hd) at 1. by rewrite survivors_app, survivors_cons, Ha. }
  rewrite E. by apply list_lookup_middle.
Qed.

Lemma new_of_lt {O} (ns : list (Node O)) d x : new_of ns d = Some x -> x < length (survivors ns).
Proof. unfold new_of. intros H. destruct (ns !! d) as [n|] eqn:Hd; [|done]. destruct (is_alive n) eqn:Ha; [|done]. injection H as <-. eapply lookup_lt_Some. by apply (new_of_lookup ns d n). Qed.

(** Survivors keep their order. *)
Lemma new_of_mono {O} (ns : list (Node O)) d e x y : new_of ns d = Some x -> new_of ns e = Some y -> d < e -> x < y.
Proof.
  unfold new_of. destruct (ns !! d) as [n|] eqn:Hd; [|done]. destruct (is_alive n) eqn:Ha; [|done]. destruct (ns !! e) as [m|] eqn:He; [|done]. destruct (is_alive m); [|done]. intros [= <-] [= <-] Hlt.
  replace (take d ns) with (take d (take e ns)) by (rewrite take_take; f_equal; lia). eapply lookup_lt_Some. apply (new_of_lookup (take e ns) d n); [|done]. by rewrite lookup_take_lt.
Qed.

Lemma new_of_surj {O} (ns : list (Node O)) x n : survivors ns !! x = Some n -> exists d, ns !! d = Some n /\ new_of ns d = Some x /\ is_alive n = true.
Proof.
  unfold new_of. induction ns as [|m ns IH] using rev_ind; [done|]. rewrite survivors_app, survivors_cons. change (survivors (@nil (Node O))) with (@nil (Node O)). intros Hx. destruct (decide (x < length (survivors ns))) as [Hlt|Hge].
  - rewrite lookup_app_l in Hx by done. destruct (IH Hx) as (d & Hd & Hn & Ha). exists d. pose proof (lookup_lt_Some _ _ _ Hd) as Hdl. rewrite lookup_app_l by done. rewrite Hd in *. split; [done|]. split; [|done].
    rewrite take_app_le by lia. done.
  - rewrite lookup_app_r in Hx by lia. destruct (is_alive m) eqn:Ha; [|done]. destruct (x - length (survivors ns)) as [|k] eqn:Ek; [|done]. injection Hx as <-.
    exists (length ns). rewrite list_lookup_middle by done. rewrite Ha, take_app_length. split; [done|]. split; [f_equal; lia|done].
Qed.

Section Compress.
Context {O K OUT : Type} `{Countable K} `{!ForestObligation O K} (outcome_cb : OUT -> O -> outcome OUT).
Implicit Types f : ObligationForest O K.
Implicit Types ns : list (Node O).

Definition node_key (n : Node O) : K := as_cache_key (obligation n).
Definition dead_keys ns : list K := node_key <$> filter (fun n => is_alive n = false) ns.
Definition remove_keys (ks : list K) (m : gmap K nat) : gmap K nat := foldl (fun m k => delete k m) m ks.
Definition add_errors ns (c : gmap nat (gset K)) : gmap nat (gset K) := foldl (fun c n => insert_into_error_cache n c) c (in_state NodeState.Error ns).

Lemma lookup_remove_keys ks m k : remove_keys ks m !! k = if decide (k ∈ ks) then None else m !! k.
Proof.
  unfold remove_keys. revert m. induction ks as [|k' ks IH]; intros m; simpl; [done|]. rewrite IH. destruct (decide (k ∈ ks)) as [Hk|Hk]; [by rewrite decide_True by (apply elem_of_cons; by right)|].
  destruct (decide (k = k')) as [->|Hn].
  - rewrite decide_True by (apply elem_of_cons; by left). apply lookup_delete_eq.
  - rewrite decide_False by (rewrite elem_of_cons; naive_solver). by rewrite lookup_delete_ne.
Qed.

Lemma remove_keys_app ks ks' m : remove_keys (ks ++ ks') m = remove_keys ks' (remove_keys ks m).
Proof. unfold remove_keys. by rewrite foldl_app. Qed.

(** The rewrites for a prefix that has been looked at. *)
Definition rewrites ns (idx : nat) (R : list nat) : Prop :=
  length R = length ns
  /\ (forall i n, i < idx -> ns !! i = Some n -> R !! i = Some (if is_alive n then length (survivors (take i ns)) else length ns))
  /\ (forall i, idx <= i < length ns -> R !! i = Some i).

Lemma rewrites_step ns idx R n x : rewrites ns idx R -> ns !! idx = Some n -> x = (if is_alive n then length (survivors (take idx ns)) else length ns) -> rewrites ns (S idx) (<[idx := x]> R).
Proof.
  intros (HL & H1 & H2) Hn Hx. pose proof (lookup_lt_Some _ _ _ Hn) as Hlt. split; [by rewrite length_insert|]. split.
  - intros i m Hi Hm. destruct (decide (i = idx)) as [->|Hne].
    + rewrite list_lookup_insert_eq by lia. rewrite Hn in Hm. injection Hm as <-. by rewrite Hx.
    + rewrite list_lookup_insert_ne by done. apply H1; [lia|done].
  - intros i Hi. rewrite list_lookup_insert_ne by lia. apply H2. lia.
Qed.

Lemma rewrites_new ns R d : rewrites ns (length ns) R -> new_in R d = new_of ns d.
Proof.
  intros (HL & H1 & _). unfold new_in, new_of. destruct (ns !! d) as [n|] eqn:Hd.
  - rewrite (H1 d n (lookup_lt_Some _ _ _ Hd) Hd), HL. destruct (is_alive n); [|by rewrite Nat.leb_refl]. pose proof (survivors_le (take d ns)) as Hs. rewrite length_take in Hs. pose proof (lookup_lt_Some _ _ _ Hd).
    by rewrite (proj2 (Nat.leb_gt _ _)) by lia.
  - rewrite lookup_ge_None_2; [done|]. rewrite HL. by apply lookup_ge_None.
Qed.

Lemma swap_middle (a : list (Node O)) m mid n l : swap (length a + S (length mid)) (length a) (a ++ (m :: mid) ++ n :: l) = Ret ((a ++ [n]) ++ (mid ++ [m]) ++ l).
Proof.
  unfold swap. rewrite (lookup_middle_eq (a ++ m :: mid) n l) by (by rewrite ?length_app, <- ?app_assoc). cbn [unwrap obind].
  rewrite (lookup_middle_eq a m (mid ++ n :: l)) by done. cbn [unwrap obind]. f_equal. cbn [app]. rewrite (insert_at_middle a m n) by done.
  replace (a ++ n :: mid ++ n :: l) with ((a ++ n :: mid) ++ n :: l) by (by rewrite <- app_assoc). rewrite (insert_at_middle (a ++ n :: mid) n m) by (rewrite length_app; done). by rewrite <- !app_assoc.
Qed.

(** The forest after the loop has looked at the nodes [l1]. *)
Definition loop_state f0 l1 l2 (dead : nat) (R : list nat) f (out0 out : OUT) : Prop :=
  nodes f0 = l1 ++ l2
  /\ (exists mid, nodes f = survivors l1 ++ mid ++ l2 /\ length mid = dead /\ length (survivors l1) + dead = length l1)
  /\ rewrites (nodes f0) (length l1) R
  /\ done_cache f = list_to_set (node_key <$> in_state NodeState.Done l1) ∪ done_cache f0
  /\ active_cache f = remove_keys (dead_keys l1) (active_cache f0)
  /\ next_tree_id f = next_tree_id f0
  /\ error_cache f = add_errors l1 (error_cache f0)
  /\ fold_out outcome_cb (obligation <$> in_state NodeState.Done l1) out0 = Ret out.

Lemma fold_out_app {A S} (step : S -> A -> outcome S) l1 l2 s : fold_out step (l1 ++ l2) s = obind (fold_out step l1 s) (fold_out step l2).
Proof. revert s. induction l1 as [|x l1 IH]; intros s; [done|]. simpl. destruct (step s x); simpl; auto. Qed.

Lemma filter_snoc {A} (P : A -> Prop) `{!forall x, Decision (P x)} l x : filter P (l ++ [x]) = filter P l ++ (if decide (P x) then [x] else []).
Proof. rewrite list.filter_app, filter_cons, filter_nil. by case_decide. Qed.

(** What one more node adds. *)
Lemma snoc_alive l n c : is_alive n = true -> survivors (l ++ [n]) = survivors l ++ [n] /\ in_state NodeState.Done (l ++ [n]) = in_state NodeState.Done l
  /\ dead_keys (l ++ [n]) = dead_keys l /\ add_errors (l ++ [n]) c = add_errors l c.
Proof.
  intros Ha. unfold survivors, in_state, dead_keys, add_errors, in_state. rewrite !filter_snoc. rewrite Ha. unfold is_alive in Ha. destruct (state n); try done; simpl; by rewrite !app_nil_r.
Qed.
Lemma snoc_done l n c : state n = NodeState.Done -> survivors (l ++ [n]) = survivors l /\ in_state NodeState.Done (l ++ [n]) = in_state NodeState.Done l ++ [n]
  /\ dead_keys (l ++ [n]) = dead_keys l ++ [node_key n] /\ add_errors (l ++ [n]) c = add_errors l c.
Proof.
  intros Hs. unfold survivors, in_state, dead_keys, add_errors, in_state. rewrite !filter_snoc. unfold is_alive. rewrite Hs. simpl. by rewrite !app_nil_r, fmap_app.
Qed.
Lemma snoc_error l n c : state n = NodeState.Error -> survivors (l ++ [n]) = survivors l /\ in_state NodeState.Done (l ++ [n]) = in_state NodeState.Done l
  /\ dead_keys (l ++ [n]) = dead_keys l ++ [node_key n] /\ add_errors (l ++ [n]) c = insert_into_error_cache n (add_errors l c).
Proof.
  intros Hs. unfold survivors, in_state, dead_keys, add_errors, in_state. rewrite !filter_snoc. unfold is_alive. rewrite Hs. simpl. by rewrite !app_nil_r, fmap_app, foldl_app.
Qed.

Lemma compress_loop_ok f0 out0 out' l2 l1 dead R f out :
  loop_state f0 l1 l2 dead R f out0 out -> Forall (fun n => state n <> NodeState.Success) l2 ->
  fold_out outcome_cb (obligation <$> in_state NodeState.Done (nodes f0)) out0 = Ret out' ->
  runs (compress_loop outcome_cb (length l2) (length l1) dead R f out) (fun r => let '(dead', R', f', out'') := r in loop_state f0 (nodes f0) [] dead' R' f' out0 out'').
Proof.
  revert l1 dead R f out. induction l2 as [|n l2 IH]; intros l1 dead R f out HS HF Hcb.
  { apply runs_ret. pose proof HS as (E & _). rewrite app_nil_r in E. rewrite E in *. exact HS. }
  pose proof HS as (E & (mid & En & Hm & Hlen) & HR & Hdone & Hact & Hnext & Herr & Hout). cbn [length compress_loop].
  assert (Hlk : nodes f !! length l1 = Some n).
  { rewrite En, app_assoc. apply list_lookup_middle. rewrite length_app. lia. }
  rewrite Hlk. cbn [unwrap obind]. inversion_clear HF as [|? ? Hns HF'].
  assert (Hn0 : nodes f0 !! length l1 = Some n) by (rewrite E; by apply list_lookup_middle).
  assert (Htk : take (length l1) (nodes f0) = l1) by (rewrite E; by rewrite take_app_length).
  assert (HL : length R = length (nodes f0)) by apply HR.
  assert (E' : nodes f0 = (l1 ++ [n]) ++ l2) by (by rewrite <- app_assoc).
  replace (S (length l1)) with (length (l1 ++ [n])) by (rewrite length_app; simpl; lia).
  assert (HRS : forall x, x = (if is_alive n then length (survivors l1) else length (nodes f0)) -> rewrites (nodes f0) (length (l1 ++ [n])) (<[length l1 := x]> R)).
  { intros x ->. rewrite length_app. simpl. rewrite Nat.add_1_r. eapply rewrites_step; [done|done|]. by rewrite Htk. }
  assert (Halive : is_alive n = true -> runs (if 0 <? dead then let* ns := swap (length l1) (length l1 - dead) (nodes f) in compress_loop outcome_cb (length l2) (length (l1 ++ [n])) dead (<[length l1 := length l1 - dead]> R) (set_nodes ns f) out
      else compress_loop outcome_cb (length l2) (length (l1 ++ [n])) dead R f out) (fun r => let '(dead', R', f', out'') := r in loop_state f0 (nodes f0) [] dead' R' f' out0 out'')).
  { intros Ha. rewrite Ha in HRS. destruct (snoc_alive l1 n (error_cache f0) Ha) as (S1 & S2 & S3 & S4). destruct mid as [|m mid]; simpl in Hm; subst dead; cbn [Nat.ltb Nat.leb].
    - apply IH; [|done|done]. unfold loop_state. rewrite S1, S2, S3, S4. split_and!; try done.
      + exists []. simpl. rewrite En, <- app_assoc. split; [done|]. split; [done|]. rewrite !length_app. simpl. lia.
      + specialize (HRS _ eq_refl). rewrite list_insert_id in HRS; [done|]. destruct HR as (_ & _ & HR3). rewrite (HR3 (length l1)); [f_equal; lia|rewrite E, length_app; simpl; lia].
    - rewrite En. replace (swap (length l1) (length l1 - S (length mid))) with (@swap (Node O) (length (survivors l1) + S (length mid)) (length (survivors l1))) by (f_equal; lia).
      rewrite swap_middle. cbn [obind]. apply IH; [|done|done]. unfold loop_state. rewrite S1, S2, S3, S4. split_and!; try done.
      + exists (mid ++ [m]). split; [done|]. rewrite !length_app. simpl. lia.
      + apply HRS. lia. }
  assert (Hdead : is_alive n = false -> survivors (l1 ++ [n]) = survivors l1 -> exists mid0, survivors l1 ++ mid ++ n :: l2 = survivors (l1 ++ [n]) ++ mid0 ++ l2 /\ length mid0 = S dead
      /\ length (survivors (l1 ++ [n])) + S dead = length (l1 ++ [n])).
  { intros Ha ->. exists (mid ++ [n]). rewrite <- !app_assoc. split; [done|]. rewrite !length_app. simpl. lia. }
  destruct (state n) eqn:Es; try done.
  - apply Halive. unfold is_alive. by rewrite Es.
  - apply Halive. unfold is_alive. by rewrite Es.
  - assert (Ha : is_alive n = false) by (unfold is_alive; by rewrite Es). rewrite Ha in HRS. destruct (snoc_done l1 n (error_cache f0) Es) as (S1 & S2 & S3 & S4).
    assert (Hc : exists out1, outcome_cb out (obligation n) = Ret out1).
    { rewrite E' in Hcb. unfold in_state in Hcb. rewrite list.filter_app, fmap_app, fold_out_app in Hcb. fold (in_state NodeState.Done (l1 ++ [n])) in Hcb. rewrite S2, fmap_app, fold_out_app, Hout in Hcb. simpl in Hcb.
      destruct (outcome_cb out (obligation n)) as [out1| |]; [by exists out1|done..]. }
    destruct Hc as [out1 Hc]. rewrite Hc. cbn [obind]. apply IH; [|done|done]. unfold loop_state. rewrite S2, S3, S4. cbn [nodes done_cache active_cache next_tree_id error_cache]. split_and!; try done.
    + rewrite En. by apply Hdead.
    + apply HRS. done.
    + rewrite fmap_app, list_to_set_app_L, Hdone. simpl. rewrite union_empty_r_L, (union_comm_L (list_to_set _) {[_]}), union_assoc_L. done.
    + by rewrite remove_keys_app, Hact.
    + by rewrite fmap_app, fold_out_app, Hout; simpl; rewrite Hc.
  - assert (Ha : is_alive n = false) by (unfold is_alive; by rewrite Es). rewrite Ha in HRS. destruct (snoc_error l1 n (error_cache f0) Es) as (S1 & S2 & S3 & S4).
    apply IH; [|done|done]. unfold loop_state. rewrite S2, S3, S4. cbn [nodes done_cache active_cache next_tree_id error_cache]. split_and!; try done.
    + rewrite En. by apply Hdead.
    + apply HRS. done.
    + by rewrite remove_keys_app, Hact.
    + by rewrite Herr.
Qed.

(** What [compress] leaves of a forest. *)
Definition compressed f f' : Prop :=
  let ns := nodes f in
  Forall2 (fun n n' => obligation n' = obligation n /\ state n' = state n /\ obligation_tree_id n' = obligation_tree_id n
    /\ dependents n' ≡ₚ omap (new_of ns) (dependents n)
    /\ (has_parent n' = true -> has_parent n = true /\ exists p x, dependents n !! 0 = Some p /\ new_of ns p = Some x /\ dependents n' !! 0 = Some x)) (survivors ns) (nodes f')
  /\ done_cache f' = list_to_set (node_key <$> in_state NodeState.Done ns) ∪ done_cache f
  /\ active_cache f' = omap (new_of ns) (remove_keys (dead_keys ns) (active_cache f))
  /\ next_tree_id f' = next_tree_id f
  /\ error_cache f' = add_errors ns (error_cache f).

Lemma omap_id_in {A} (g : A -> option A) l : Forall (fun x => g x = Some x) l -> omap g l = l.
Proof. induction 1 as [|x l Hx _ IH]; [done|]. cbn [omap list_omap]. rewrite Hx. f_equal. exact IH. Qed.

Lemma omap_ext_all {A B} (g h : A -> option B) (l : list A) : (forall x, g x = h x) -> omap g l = omap h l.
Proof. intros E. induction l as [|x l IH]; [done|]. cbn [omap list_omap]. rewrite E. destruct (h x); [f_equal|]; exact IH. Qed.

Lemma remove_keys_subseteq ks m k i : remove_keys ks m !! k = Some i -> m !! k = Some i.
Proof. rewrite lookup_remove_keys. by case_decide. Qed.

Lemma compress_ok f out out' : shape (nodes f) -> (forall j, st (nodes f) j <> Some NodeState.Success) -> map_Forall (fun _ i => i < length (nodes f)) (active_cache f) ->
  fold_out outcome_cb (obligation <$> in_state NodeState.Done (nodes f)) out = Ret out' ->
  runs (compress outcome_cb f out) (fun r => compressed f r.1 /\ r.2 = out').
Proof.
  intros [Hin Hpar] HS HA Hcb. unfold compress.
  assert (HDin : forall n, n ∈ nodes f -> Forall (fun d => d < length (nodes f)) (dependents n) /\ (has_parent n = true -> dependents n <> [])).
  { intros n Hn. apply list_elem_of_lookup in Hn as [i Hi]. split; [|intros Hp; destruct (Hpar i n Hi Hp) as (p & Hd & _); by destruct (dependents n)].
    apply list.Forall_forall. intros d Hd. apply (Hin i). by exists n. }
  eapply runs_bind; [apply (compress_loop_ok f out out' (nodes f) [] 0 (seq 0 (length (nodes f))) f out)|].
  - split_and!; try done; [by exists []| |change (done_cache f = ∅ ∪ done_cache f); by rewrite union_empty_l_L]. split; [apply length_seq|]. split; [simpl; lia|]. intros i Hi. apply lookup_seq. lia.
  - apply list.Forall_forall. intros n Hn Hs. apply list_elem_of_lookup in Hn as [i Hi]. apply (HS i). unfold st. by rewrite Hi; simpl; rewrite Hs.
  - done.
  - intros [[[dead R] f1] out1] (_ & (mid & En & Hm & Hlen) & HR & Hdone & Hact & Hnext & Herr & Hout). rewrite app_nil_r in En. pose proof (rewrites_new (nodes f) R) as HRn.
    assert (out1 = out') as -> by congruence. assert (HA1 : map_Forall (fun _ i => i < length (nodes f)) (active_cache f1)).
    { intros k i Hk. rewrite Hact in Hk. apply remove_keys_subseteq in Hk. by apply (HA k). }
    destruct (0 <? dead) eqn:Ed.
    + replace (length (nodes f) - dead) with (length (survivors (nodes f))) by lia. rewrite En, take_app_length. unfold apply_rewrites. cbn [nodes set_nodes active_cache done_cache next_tree_id error_cache].
      destruct HR as (HL & HR'). eapply runs_bind; [eapply runs_bind; [apply rewrite_nodes_ok|]|].
      * apply list.Forall_forall. intros n Hn. rewrite HL. apply HDin. by apply list_elem_of_filter in Hn as [_ ?].
      * intros ns' Hns. rewrite bool_decide_eq_true_2 by (by rewrite HL). cbn [assert_that obind]. apply runs_ret. instantiate (1 := fun f' => compressed f f'). unfold compressed. cbn [nodes set_nodes active_cache done_cache next_tree_id error_cache].
        assert (Hnew : forall d, new_in R d = new_of (nodes f) d) by (intros d; apply HRn; split; done). split_and!; try done.
        -- eapply Forall2_impl; [exact Hns|]. intros n n' (H1 & H2 & H3 & H4 & H5). split_and!; try done.
           ++ rewrite H4. by rewrite (omap_ext_all _ _ _ Hnew).
           ++ intros Hp. destruct (H5 Hp) as (? & p & x & ? & Hx & ?). split; [done|]. exists p, x. by rewrite <- Hnew.
        -- rewrite Hact. apply map_eq. intros k. rewrite !lookup_omap. destruct (remove_keys _ _ !! k) as [i|]; [|done]. simpl. apply Hnew.
      * intros f' Hf'. by apply runs_ret.
    + apply Nat.ltb_ge in Ed. apply runs_ret. split; [|done]. assert (mid = []) as -> by (destruct mid; simpl in *; [done|lia]). rewrite app_nil_r in En.
      destruct (survivors_all (nodes f) ltac:(lia)) as [HF Hall]. assert (Hid : forall d, d < length (nodes f) -> new_of (nodes f) d = Some d).
      { intros d Hd. unfold new_of. destruct (lookup_lt_is_Some_2 _ _ Hd) as [n Hn]. rewrite Hn. rewrite list.Forall_forall in HF. rewrite (HF n) by (by eapply list_elem_of_lookup_2).
        rewrite survivors_alive, length_take_le by (lia || (apply Forall_take; by apply list.Forall_forall)). done. }
      unfold compressed. cbn [fst nodes set_nodes active_cache done_cache next_tree_id error_cache]. rewrite Hall in *. rewrite En. split_and!; try done.
      * apply Forall_Forall2_diag. apply list.Forall_forall. intros n Hn. destruct (HDin n Hn) as [HD HP]. split_and!; try done.
        -- rewrite omap_id_in; [done|]. eapply list.Forall_impl; [exact HD|]. simpl. auto.
        -- intros Hp. split; [done|]. specialize (HP Hp). destruct (dependents n) as [|p ds]; [done|]. exists p, p. inversion HD; subst. by rewrite Hid.
      * rewrite Hact. apply map_eq. intros k. rewrite lookup_omap. destruct (remove_keys _ _ !! k) as [i|] eqn:Ek; [|done]. simpl. apply remove_keys_subseteq in Ek. by rewrite Hid by (by apply (HA k)).
Qed.
End Compress.

(** ** Invariants of its operations *)

(** Partial correctness: no panic, and a result satisfies [P]. *)
Definition safe {A} (m : outcome A) (P : A -> Prop) : Prop := match m with Ret a => P a | Panic => False | OutOfFuel => True end.

Lemma safe_runs {A} (m : outcome A) P : runs m P -> safe m P.
Proof. by intros (a & -> & H). Qed.
Lemma safe_bind {A B} (m : outcome A) (k : A -> outcome B) Q P : safe m Q -> (forall a, Q a -> safe (k a) P) -> safe (obind m k) P.
Proof. destruct m; simpl; auto. Qed.
Lemma safe_mono {A} (m : outcome A) (P Q : A -> Prop) : safe m P -> (forall a, P a -> Q a) -> safe m Q.
Proof. destruct m; simpl; auto. Qed.

(** *** The graph without the obligations *)

Section Skeleton.
Context {O : Type}.
Implicit Types ns : list (Node O).

Definition skel ns : list (NodeState.t * list nat * bool) := (fun n => (state n, dependents n, has_parent n)) <$> ns.

Lemma skel_length ns ns' : skel ns = skel ns' -> length ns = length ns'.
Proof. intros E. apply (f_equal length) in E. unfold skel in E. by rewrite !length_fmap in E. Qed.

Lemma skel_lookup ns ns' i n' : skel ns = skel ns' -> ns' !! i = Some n' -> exists n, ns !! i = Some n /\ state n = state n' /\ dependents n = dependents n' /\ has_parent n = has_parent n'.
Proof.
  intros E Hi. apply (f_equal (fun l => l !! i)) in E. unfold skel in E. rewrite !list_lookup_fmap, Hi in E. simpl in E.
  destruct (ns !! i) as [n|]; [|done]. exists n. split; [done|]. injection E. auto.
Qed.

Lemma skel_st ns ns' i : skel ns = skel ns' -> st ns i = st ns' i.
Proof.
  intros E. unfold st. destruct (ns' !! i) as [n'|] eqn:Hi.
  - destruct (skel_lookup _ _ _ _ E Hi) as (n & -> & Hs & _). simpl. by rewrite Hs.
  - rewrite (lookup_ge_None_2 ns i); [done|]. rewrite (skel_length _ _ E). by apply lookup_ge_None.
Qed.

Lemma skel_dep ns ns' i k : skel ns = skel ns' -> dep ns' i k -> dep ns i k.
Proof. intros E (n' & Hi & Hk). destruct (skel_lookup _ _ _ _ E Hi) as (n & Hn & _ & Hd & _). exists n. by rewrite Hd. Qed.

Lemma skel_shape ns ns' : skel ns = skel ns' -> shape ns -> shape ns'.
Proof.
  intros E [H1 H2]. split.
  - intros i k Hk. rewrite <- (skel_length _ _ E). eapply H1, skel_dep; done.
  - intros i n' Hi Hp. destruct (skel_lookup _ _ _ _ E Hi) as (n & Hn & _ & Hd & Hp'). rewrite <- Hd. apply (H2 i n Hn). by rewrite Hp'.
Qed.

Lemma skel_waiting ns ns' : skel ns = skel ns' -> waiting_ok ns -> waiting_ok ns'.
Proof.
  intros E HW j Hj. rewrite <- (skel_st _ _ _ E) in Hj. specialize (HW j Hj). clear Hj. induction HW as [p m Hp Hd|y m _ IH Hy Hd].
  - eapply awaits_pending; [by rewrite <- (skel_st _ _ _ E)|by apply (skel_dep ns' ns)].
  - eapply awaits_waiting; [done|by rewrite <- (skel_st _ _ _ E)|by apply (skel_dep ns' ns)].
Qed.

Lemma skel_set_obligation ns i n o : ns !! i = Some n -> skel (<[i := with_obligation o n]> ns) = skel ns.
Proof.
  intros Hi. unfold skel. rewrite list_fmap_insert. apply list_insert_id. rewrite list_lookup_fmap, Hi. done.
Qed.
End Skeleton.

(** *** Invariants *)

Section Invariants.
Context {O K : Type} `{Countable K} `{!ForestObligation O K}.
Implicit Types f : ObligationForest O K.

Definition active_ok f : Prop := map_Forall (fun _ i => i < length (nodes f)) (active_cache f).

(** Between two calls. *)
Record wf f : Prop := mkWf {
  wf_shape : shape (nodes f);
  wf_active : active_ok f;
  wf_states : forall j s, st (nodes f) j = Some s -> s = NodeState.Pending \/ s = NodeState.Waiting;
  wf_processed : processed (nodes f);
  wf_waiting : waiting_ok (nodes f)
}.

(** While obligations are processed. *)
Record running f : Prop := mkRunning {
  run_shape : shape (nodes f);
  run_active : active_ok f;
  run_states : forall j, st (nodes f) j <> Some NodeState.Done;
  run_processed : processed (nodes f);
  run_closed : error_closed (nodes f)
}.

Lemma wf_running f : wf f -> running f.
Proof.
  intros [H1 H2 H3 H4 H5]. split; try done.
  - intros j Hj. by destruct (H3 j _ Hj).
  - intros i k _ Hi. by destruct (H3 i _ Hi).
Qed.

Lemma wf_skel f ns : wf f -> skel (nodes f) = skel ns -> wf (set_nodes ns f).
Proof.
  intros [H1 H2 H3 H4 H5] E. split; cbn [nodes set_nodes].
  - by apply (skel_shape (nodes f)).
  - intros k i Hk. cbn [nodes set_nodes]. rewrite <- (skel_length _ _ E). by apply (H2 k).
  - intros j s Hj. apply (H3 j). by rewrite (skel_st _ _ _ E).
  - intros i k Hd Hk. apply (H4 i k); [by eapply skel_dep|by rewrite (skel_st _ _ _ E)].
  - by apply (skel_waiting (nodes f)).
Qed.

Lemma running_skel f ns : running f -> skel (nodes f) = skel ns -> running (set_nodes ns f).
Proof.
  intros [H1 H2 H3 H4 H5] E. split; cbn [nodes set_nodes].
  - by apply (skel_shape (nodes f)).
  - intros k i Hk. cbn [nodes set_nodes]. rewrite <- (skel_length _ _ E). by apply (H2 k).
  - intros j. by rewrite <- (skel_st _ _ _ E).
  - intros i k Hd. rewrite <- (skel_st _ _ _ E). apply (H4 i k). by eapply skel_dep.
  - intros i k Hd. rewrite <- !(skel_st _ _ _ E). apply (H5 i k). by eapply skel_dep.
Qed.

(** *** Registering *)

(** What registering an obligation does to the graph. *)
Definition registers (o : O) (parent : option nat) f (ok : bool) f' : Prop :=
  let ns := nodes f in let ns' := nodes f' in
  shape ns' /\ active_ok f' /\ length ns <= length ns'
  /\ (forall j, j < length ns -> st ns' j = st ns j)
  /\ (forall j, length ns <= j -> j < length ns' -> st ns' j = Some NodeState.Pending)
  /\ (forall a b, dep ns' a b -> dep ns a b \/ (parent = Some b /\ (st ns' a = Some NodeState.Error -> ok = false)))
  /\ (forall a b, dep ns a b -> dep ns' a b).

Lemma register_at_ok o parent f : shape (nodes f) -> active_ok f -> (forall p, parent = Some p -> p < length (nodes f)) ->
  runs (register_obligation_at o parent f) (fun r => registers o parent f r.1 r.2).
Proof.
  intros Hsh Hact Hpar. unfold register_obligation_at. assert (Hsame : forall ok next, registers o parent f ok (mkForest (nodes f) (done_cache f) (active_cache f) next (error_cache f))).
  { intros ok next. unfold registers. cbn [nodes]. split_and!; try done; [intros; lia|by left]. }
  case_bool_decide as Ed; [apply runs_ret; destruct f; apply Hsame|]. destruct (active_cache f !! as_cache_key o) as [i|] eqn:Ea.
  - assert (Hi : i < length (nodes f)) by (by apply (Hact (as_cache_key o))). destruct (lookup_lt_is_Some_2 _ _ Hi) as [n Hn]. rewrite Hn. cbn [unwrap obind]. apply runs_ret. cbn [fst snd].
    set (deps := match parent with Some _ => _ | None => _ end). set (n' := with_dependents deps (has_parent n) n).
    assert (Hdeps : forall b, b ∈ deps <-> b ∈ dependents n \/ parent = Some b).
    { intros b. unfold deps. destruct parent as [p|]; [|naive_solver]. case_bool_decide as Ep.
      - split; [by left|]. intros [?|[= ->]]; done.
      - rewrite elem_of_app, list_elem_of_singleton. naive_solver. }
    assert (Hpre : exists l, deps = dependents n ++ l) by (unfold deps; destruct parent; [case_bool_decide|]; by (eexists; (reflexivity || by rewrite app_nil_r)) || (exists []; by rewrite app_nil_r)).
    assert (Hlk : forall j m, <[i := n']> (nodes f) !! j = Some m -> (j = i /\ m = n') \/ (j <> i /\ nodes f !! j = Some m)).
    { intros j m Hj. apply list_lookup_insert_Some in Hj as [(-> & -> & _)|[? ?]]; [by left|]. right. split; [by intros ->|done]. }
    assert (Hst : forall j, st (<[i := n']> (nodes f)) j = st (nodes f) j).
    { intros j. unfold st. destruct (decide (i = j)) as [<-|Hne]; [by rewrite list_lookup_insert_eq, Hn by done|by rewrite list_lookup_insert_ne]. }
    assert (Hd1 : forall a b, dep (<[i := n']> (nodes f)) a b -> dep (nodes f) a b \/ (a = i /\ parent = Some b)).
    { intros a b (m & Hm & Hb). destruct (Hlk a m Hm) as [[-> ->]|[_ Hm']]; [|left; by exists m]. cbn [dependents n' with_dependents] in Hb. apply Hdeps in Hb as [?|?]; [left; by exists n|by right]. }
    unfold registers. cbn [nodes set_nodes]. split_and!.
    + split.
      * intros a b Hd. rewrite length_insert. destruct (Hd1 a b Hd) as [?|[_ ?]]; [by apply (proj1 Hsh a)|by apply Hpar].
      * intros j m Hj Hp. destruct (Hlk j m Hj) as [[-> ->]|[_ Hj']]; [|by apply (proj2 Hsh j m)]. destruct (proj2 Hsh i n Hn Hp) as (p & Hp0 & ?). exists p. split; [|done].
        destruct Hpre as [l Hl]. cbn [dependents n' with_dependents]. rewrite Hl. by apply lookup_app_l_Some.
    + intros k j Hk. cbn [nodes set_nodes]. rewrite length_insert. by apply (Hact k).
    + by rewrite length_insert.
    + intros j _. apply Hst.
    + intros j Hj Hj'. rewrite length_insert in Hj'. lia.
    + intros a b Hd. destruct (Hd1 a b Hd) as [?|[-> ?]]; [by left|]. right. split; [done|]. rewrite Hst. unfold st. rewrite Hn. simpl. intros [= Hs]. apply bool_decide_eq_false. intros Hx. by apply Hx.
    + intros a b (m & Hm & Hb). destruct (decide (a = i)) as [->|Hne]; [|exists m; by rewrite list_lookup_insert_ne]. rewrite Hn in Hm. injection Hm as <-. exists n'. rewrite list_lookup_insert_eq by done. split; [done|]. apply Hdeps. by left.
  - destruct (match parent with Some parent_index => _ | None => _ end) as [[tid next]| |] eqn:Et.
    2,3: exfalso; destruct parent as [p|]; [|done]; destruct (lookup_lt_is_Some_2 _ _ (Hpar p eq_refl)) as [m Hm]; by rewrite Hm in Et.
    cbn [obind]. destruct (match parent with Some _ => _ | None => false end); [apply runs_ret; apply Hsame|]. apply runs_ret. cbn [fst snd]. unfold registers. cbn [nodes].
    assert (Hlk : forall j m, (nodes f ++ [node_new parent o tid]) !! j = Some m -> (j = length (nodes f) /\ m = node_new parent o tid) \/ nodes f !! j = Some m).
    { intros j m Hj. apply lookup_app_Some in Hj as [?|[? Hj]]; [by right|]. left. apply list_lookup_singleton_Some in Hj as [? <-]. split; [lia|done]. }
    assert (Hd1 : forall a b, dep (nodes f ++ [node_new parent o tid]) a b -> dep (nodes f) a b \/ (a = length (nodes f) /\ parent = Some b)).
    { intros a b (m & Hm & Hb). destruct (Hlk a m Hm) as [[-> ->]|?]; [|left; by exists m]. right. split; [done|]. unfold node_new in Hb. simpl in Hb. destruct parent as [p|]; [|by apply elem_of_nil in Hb]. apply list_elem_of_singleton in Hb. by subst. }
    assert (Hnew : st (nodes f ++ [node_new parent o tid]) (length (nodes f)) = Some NodeState.Pending) by (unfold st; by rewrite list_lookup_middle).
    split_and!.
    + split.
      * intros a b Hd. rewrite length_app. destruct (Hd1 a b Hd) as [Hd'|[_ Hp]]; [apply (proj1 Hsh a) in Hd'|apply Hpar in Hp]; lia.
      * intros j m Hj Hp. destruct (Hlk j m Hj) as [[-> ->]|Hj']; [|by apply (proj2 Hsh j m)]. unfold node_new in Hp |- *. simpl in *. destruct parent as [p|]; [|done]. exists p. split; [done|]. by apply Hpar.
    + intros k j Hk. cbn [nodes active_cache] in *. rewrite length_app. simpl. apply lookup_insert_Some in Hk as [[_ <-]|[_ Hk]]; [lia|]. specialize (Hact k j Hk). simpl in Hact. lia.
    + rewrite length_app. lia.
    + intros j Hj. unfold st. by rewrite lookup_app_l.
    + intros j Hj Hj'. rewrite length_app in Hj'. simpl in Hj'. by replace j with (length (nodes f)) by lia.
    + intros a b Hd. destruct (Hd1 a b Hd) as [?|[-> ?]]; [by left|]. right. split; [done|]. by rewrite Hnew.
    + intros a b (m & Hm & Hb). exists m. split; [by apply lookup_app_l_Some|done].
Qed.

Lemma register_wf o f : wf f -> runs (register_obligation o f) wf.
Proof.
  intros [H1 H2 H3 H4 H5]. unfold register_obligation. eapply runs_bind; [apply (register_at_ok o None f H1 H2); done|]. intros [ok f'] (R1 & R2 & R3 & R4 & R5 & R6 & R7). apply runs_ret.
  assert (Hdep : forall a b, dep (nodes f') a b -> dep (nodes f) a b) by (intros a b Hd; by destruct (R6 a b Hd) as [?|[? _]]).
  assert (Hst : forall j s, st (nodes f') j = Some s -> st (nodes f) j = Some s \/ s = NodeState.Pending).
  { intros j s Hj. destruct (decide (j < length (nodes f))) as [Hlt|Hge]; [rewrite R4 in Hj by done; by left|]. right. pose proof (st_lt _ _ _ Hj) as Hl. cbn [fst snd] in *. rewrite R5 in Hj by lia. by injection Hj. }
  split; try done.
  - intros j s Hj. destruct (Hst j s Hj) as [?| ->]; [by apply (H3 j)|by left].
  - intros i k Hd Hk. apply Hdep in Hd. cbn [fst snd] in *. rewrite R4 in Hk by (by apply (proj1 H1 i)). by apply (H4 i k).
  - intros j Hj. destruct (Hst j _ Hj) as [Hj'|?]; [|done]. specialize (H5 j Hj'). clear Hj Hj'. cbn [fst snd] in *. induction H5 as [p m Hp Hd|y m _ IH Hy Hd].
    + eapply awaits_pending; [|by apply R7]. rewrite R4; [done|]. by eapply st_lt.
    + eapply awaits_waiting; [done| |by apply R7]. rewrite R4; [done|]. by eapply st_lt.
Qed.

Lemma wf_new : wf forest_new.
Proof.
  split; cbn [nodes forest_new].
  - split; intros i ?; [intros (n & Hn & _)|intros Hn]; by rewrite lookup_nil in Hn.
  - apply map_Forall_empty.
  - intros j s Hj. unfold st in Hj. by rewrite lookup_nil in Hj.
  - intros i k (n & Hn & _). by rewrite lookup_nil in Hn.
  - intros j Hj. unfold st in Hj. by rewrite lookup_nil in Hj.
Qed.

(** *** Compression *)

Section Compressed.
Context {f f' : ObligationForest O K} (HC : compressed f f').

Lemma compressed_new d n x : nodes f !! d = Some n -> new_of (nodes f) d = Some x ->
  exists n', nodes f' !! x = Some n' /\ obligation n' = obligation n /\ state n' = state n /\ obligation_tree_id n' = obligation_tree_id n
    /\ dependents n' ≡ₚ omap (new_of (nodes f)) (dependents n)
    /\ (has_parent n' = true -> has_parent n = true /\ exists p x, dependents n !! 0 = Some p /\ new_of (nodes f) p = Some x /\ dependents n' !! 0 = Some x).
Proof using HC.
  intros Hd Hx. destruct HC as (HF & _). assert (Hs : survivors (nodes f) !! x = Some n).
  { unfold new_of in Hx. rewrite Hd in Hx. destruct (is_alive n) eqn:Ha; [|done]. injection Hx as <-. by apply new_of_lookup. }
  destruct (Forall2_lookup_l _ _ _ _ _ HF Hs) as (n' & Hn' & HP). by exists n'.
Qed.

Lemma compressed_old x n' : nodes f' !! x = Some n' ->
  exists d n, nodes f !! d = Some n /\ new_of (nodes f) d = Some x /\ is_alive n = true /\ obligation n' = obligation n /\ state n' = state n /\ obligation_tree_id n' = obligation_tree_id n
    /\ dependents n' ≡ₚ omap (new_of (nodes f)) (dependents n)
    /\ (has_parent n' = true -> has_parent n = true /\ exists p x, dependents n !! 0 = Some p /\ new_of (nodes f) p = Some x /\ dependents n' !! 0 = Some x).
Proof using HC.
  intros Hx. destruct HC as (HF & _). destruct (Forall2_lookup_r _ _ _ _ _ HF Hx) as (n & Hn & HP). destruct (new_of_surj _ _ _ Hn) as (d & Hd & Hnew & Ha). exists d, n. split; [done|]. split; [done|]. split; [done|]. exact HP.
Qed.

Lemma compressed_length : length (nodes f') = length (survivors (nodes f)).
Proof using HC. destruct HC as (HF & _). symmetry. by eapply Forall2_length. Qed.

Lemma compressed_dep x y : dep (nodes f') x y -> exists d e, new_of (nodes f) d = Some x /\ new_of (nodes f) e = Some y /\ dep (nodes f) d e.
Proof using HC.
  intros (n' & Hn' & Hy). destruct (compressed_old x n' Hn') as (d & n & Hd & Hx & _ & _ & _ & _ & HP & _). rewrite HP in Hy. apply list_elem_of_omap in Hy as (e & He & Hy). exists d, e. split_and!; try done. by exists n.
Qed.

Lemma compressed_dep' d e x y : dep (nodes f) d e -> new_of (nodes f) d = Some x -> new_of (nodes f) e = Some y -> dep (nodes f') x y.
Proof using HC.
  intros (n & Hn & He) Hx Hy. destruct (compressed_new d n x Hn Hx) as (n' & Hn' & _ & _ & _ & HP & _). exists n'. split; [done|]. rewrite HP. apply list_elem_of_omap. by exists e.
Qed.

Lemma compressed_st d x : new_of (nodes f) d = Some x -> st (nodes f') x = st (nodes f) d.
Proof using HC.
  intros Hx. unfold st. destruct (nodes f !! d) as [n|] eqn:Hd; [|unfold new_of in Hx; by rewrite Hd in Hx]. destruct (compressed_new d n x Hd Hx) as (n' & -> & _ & Hs & _). simpl. by rewrite Hs.
Qed.

Lemma new_of_state ns d s : st ns d = Some s -> s = NodeState.Pending \/ s = NodeState.Waiting -> exists x : nat, new_of (O := O) ns d = Some x.
Proof. unfold st, new_of. intros (n & -> & ->)%fmap_Some Hs. assert (is_alive n = true) as -> by (unfold is_alive; by destruct Hs as [-> | ->]). by eexists. Qed.

Lemma compressed_wf : shape (nodes f) -> active_ok f -> processed (nodes f) -> waiting_ok (nodes f) -> wf f'.
Proof using HC.
  intros Hsh Hact HP HW. split.
  - split.
    + intros x y (d & e & _ & Hy & _)%compressed_dep. rewrite compressed_length. by eapply new_of_lt.
    + intros x n' Hx Hp. destruct (compressed_old x n' Hx) as (d & n & Hd & Hdx & _ & _ & _ & _ & _ & Hpar). destruct (Hpar Hp) as (Hp0 & p & y & Hp1 & Hy & Hy'). exists y. split; [done|].
      destruct (proj2 Hsh d n Hd Hp0) as (p' & Hp' & Hlt). rewrite Hp1 in Hp'. injection Hp' as <-. by eapply new_of_mono.
  - intros k x Hk. destruct HC as (_ & _ & Ha & _). rewrite Ha, lookup_omap in Hk. apply bind_Some in Hk as (i & _ & Hi). rewrite compressed_length. by eapply new_of_lt.
  - intros x s Hx. unfold st in Hx. apply fmap_Some in Hx as (n' & Hn' & ->). destruct (compressed_old x n' Hn') as (d & n & _ & _ & Ha & _ & -> & _). unfold is_alive in Ha. destruct (state n); auto; done.
  - intros x y (d & e & Hx & Hy & Hd)%compressed_dep. rewrite (compressed_st e y Hy). by apply (HP d).
  - intros x Hx. unfold st in Hx. apply fmap_Some in Hx as (n' & Hn' & Hs). destruct (compressed_old x n' Hn') as (d & n & Hd & Hdx & _ & _ & Hs' & _).
    assert (Hw : awaits (nodes f) d) by (apply HW; unfold st; rewrite Hd; simpl; congruence). clear n' Hn' Hs Hs' Hd n. revert x Hdx. induction Hw as [p m Hp Hd|y m _ IH Hy Hd]; intros x Hx.
    + destruct (new_of_state _ _ _ Hp) as [xp Hxp]; [by left|]. eapply awaits_pending; [by rewrite (compressed_st p xp)|by eapply compressed_dep'].
    + destruct (new_of_state _ _ _ Hy) as [xy Hxy]; [by right|]. eapply awaits_waiting; [by apply IH|by rewrite (compressed_st y xy)|by eapply compressed_dep'].
Qed.
End Compressed.
End Invariants.

(** *** Processing *)

Section Process.
Context {O K P E OUT : Type} `{Countable K} `{!ForestObligation O K} `{!ObligationProcessor P O E} `{!OutcomeTrait OUT O E}.
Implicit Types f : ObligationForest O K.

(** Putting a processed node in error keeps the invariant, except that closure may have been missing at this node. *)
Lemma error_running index f : shape (nodes f) -> active_ok f -> (forall j, st (nodes f) j <> Some NodeState.Done) -> processed (nodes f) -> index < length (nodes f) ->
  (forall i k, dep (nodes f) i k -> st (nodes f) i = Some NodeState.Error -> st (nodes f) k = Some NodeState.Error \/ k = index) ->
  runs (error_forest index f) (fun r => parent_chain (nodes f) index r.1 /\ exists ns', r.2 = set_nodes ns' f /\ spreads (nodes f) ns' (fun x => x = index) /\ running r.2).
Proof.
  intros H1 H2 H3 H4 Hi H5. unfold error_forest. eapply runs_bind; [by apply error_at_ok|]. intros [trace ns'] [Hc HS]. apply runs_ret. cbn [fst snd] in *. split; [done|]. exists ns'. split; [done|]. split; [done|].
  pose proof HS as (Ee & S1 & S2 & S3). split; cbn [nodes set_nodes].
  - by apply (shape_erase (nodes f)).
  - intros k j Hk. cbn [nodes set_nodes]. rewrite (erase_length _ _ Ee). by apply (H2 k).
  - intros j Hj. destruct (S2 j) as [Hs|[Hs _]]; [apply (H3 j); congruence|congruence].
  - intros i k Hd Hk. apply (dep_erase (nodes f)) in Hd; [|done]. destruct (S2 k) as [Hs|[Hs _]]; [apply (H4 i k Hd); congruence|congruence].
  - intros i k Hd Hj. apply (dep_erase (nodes f)) in Hd; [|done]. destruct (decide (st (nodes f) i = Some NodeState.Error)) as [He|He]; [|by apply (S3 i k)].
    destruct (H5 i k Hd He) as [Hk| ->]; [|by apply S1]. destruct (S2 k) as [->|[? _]]; done.
Qed.

Lemma register_children_ok children index f : running f -> index < length (nodes f) -> st (nodes f) index <> Some NodeState.Pending ->
  runs (register_children children index f) (fun f' => running f' /\ length (nodes f) <= length (nodes f')
    /\ forall j, j < length (nodes f) -> st (nodes f') j = st (nodes f) j \/ st (nodes f') j = Some NodeState.Error).
Proof.
  revert f. induction children as [|c children IH]; intros f Hr Hi Hp; cbn [register_children]; [apply runs_ret; split_and!; [done|done|by left]|].
  pose proof Hr as [H1 H2 H3 H4 H5]. eapply runs_bind; [apply (register_at_ok c (Some index) f H1 H2); by intros p [= <-]|]. intros [ok f1] (R1 & R2 & R3 & R4 & R5 & R6 & R7). cbn [fst snd] in *.
  assert (Hold : forall i, i < length (nodes f1) -> st (nodes f1) i = st (nodes f) i \/ st (nodes f1) i = Some NodeState.Pending).
  { intros i Hlt. destruct (decide (i < length (nodes f))); [left; by apply R4|right; apply R5; lia]. }
  assert (D1 : forall j, st (nodes f1) j <> Some NodeState.Done).
  { intros j Hj. destruct (Hold j (st_lt _ _ _ Hj)) as [Hs|Hs]; [apply (H3 j)|]; congruence. }
  assert (D2 : processed (nodes f1)).
  { intros a b Hd. destruct (R6 a b Hd) as [Hd'|[[= ->] _]]; [|by rewrite R4]. rewrite R4 by (by apply (proj1 H1 a)). by apply (H4 a). }
  assert (D3 : forall i k, dep (nodes f1) i k -> st (nodes f1) i = Some NodeState.Error -> st (nodes f1) k = Some NodeState.Error \/ (k = index /\ ok = false)).
  { intros i k Hd He. destruct (R6 i k Hd) as [Hd'|[[= ->] Hok]]; [|right; split; [done|by apply Hok]]. left. rewrite R4 by (by apply (proj1 H1 i)). apply (H5 i k Hd').
    rewrite <- R4; [done|]. destruct Hd' as (n & Hn & _). by eapply lookup_lt_Some. }
  assert (Hi1 : index < length (nodes f1)) by lia.
  apply (runs_bind _ _ (fun f2 => running f2 /\ length (nodes f2) = length (nodes f1) /\ forall j, st (nodes f2) j = st (nodes f1) j \/ st (nodes f2) j = Some NodeState.Error)).
  - destruct ok.
    + apply runs_ret. split_and!; [|done|by left]. split; try done. intros i k Hd He. by destruct (D3 i k Hd He) as [?|[_ ?]].
    + eapply runs_bind; [apply (error_running index f1); try done; intros i k Hd He; destruct (D3 i k Hd He) as [?|[? _]]; auto|].
      intros [trace f2] (_ & ns' & Ef & (Ee & S1 & S2 & S3) & Hr2). apply runs_ret. cbn [fst snd] in *. subst f2. cbn [nodes set_nodes] in *. split; [done|]. split; [by apply erase_length|]. intros j. destruct (S2 j) as [?|[? _]]; auto.
  - intros f2 (Hr2 & HL & Hs2). eapply runs_mono; [apply IH; [done|lia|]|].
    + destruct (Hs2 index) as [->| ->]; [|done]. by rewrite R4.
    + intros f3 (Hr3 & HL3 & Hs3). split_and!; [done|lia|]. intros j Hj. destruct (Hs3 j ltac:(lia)) as [->|?]; [|by right]. destruct (Hs2 j) as [->|?]; [|by right]. left. by apply R4.
Qed.

(** A pending node that succeeds: nothing depends on it as an error would. *)
Lemma process_success_running index n o f : running f -> nodes f !! index = Some n -> state n = NodeState.Pending -> running (set_nodes (<[index := with_state NodeState.Success (with_obligation o n)]> (nodes f)) f).
Proof.
  intros Hr Hn Hs. pose proof (lookup_lt_Some _ _ _ Hn) as Hi. assert (Hpend : st (nodes f) index = Some NodeState.Pending) by (rewrite (st_lookup _ _ _ Hn); by rewrite Hs).
  set (f1 := set_nodes (<[index := with_state NodeState.Success (with_obligation o n)]> (nodes f)) f). assert (Hst : forall j, st (nodes f1) j = if decide (j = index) then Some NodeState.Success else st (nodes f) j).
  { intros j. unfold f1, st. cbn [nodes set_nodes]. case_decide as Ej; [subst; by rewrite list_lookup_insert_eq|by rewrite list_lookup_insert_ne]. }
  assert (Hdep : forall a b, dep (nodes f1) a b <-> dep (nodes f) a b).
  { intros a b. unfold f1, dep. cbn [nodes set_nodes]. destruct (decide (a = index)) as [->|Hne]; [rewrite list_lookup_insert_eq, Hn by done|by rewrite list_lookup_insert_ne]. split; intros (m & [= <-] & Hb); eexists; by split. }
  assert (HL : length (nodes f1) = length (nodes f)) by (unfold f1; cbn [nodes set_nodes]; apply length_insert).
  destruct Hr as [H1 H2 H3 H4 H5]. split.
  - split; [intros a b Hd; rewrite HL; apply Hdep in Hd; by apply (proj1 H1 a)|]. intros j m Hj Hp. unfold f1 in Hj. cbn [nodes set_nodes] in Hj. apply list_lookup_insert_Some in Hj as [(-> & <- & _)|[_ Hj]]; [by apply (proj2 H1 j n)|by apply (proj2 H1 j m)].
  - intros k j Hk. rewrite HL. by apply (H2 k).
  - intros j. rewrite Hst. case_decide; [done|]. apply H3.
  - intros a b Hd. apply Hdep in Hd. rewrite Hst. case_decide; [done|]. by apply (H4 a).
  - intros a b Hd. apply Hdep in Hd. rewrite !Hst. case_decide; [done|]. intros He. case_decide as Eb; [|by apply (H5 a b)]. subst b. by apply (H4 a index Hd) in Hpend.
Qed.

Lemma process_node_ok index n (r : Round) : running (forest r) -> nodes (forest r) !! index = Some n -> state n = NodeState.Pending ->
  runs (process_node index n r) (fun r' => running (forest r') /\ (has_changed r' = false -> has_changed r = false /\ active_cache (forest r') = active_cache (forest r) /\ skel (nodes (forest r')) = skel (nodes (forest r)))).
Proof.
  intros Hr Hn Hs. unfold process_node. destruct (process_obligation (processor r) (obligation n)) as [[o res] p]. pose proof (lookup_lt_Some _ _ _ Hn) as Hi. set (f := forest r) in *.
  pose proof (skel_set_obligation (nodes f) index n o Hn) as Esk. pose proof (running_skel f _ Hr (eq_sym Esk)) as Hr1. destruct res as [|children|err].
  - apply runs_ret. cbn [forest has_changed]. split; [done|]. by intros.
  - set (f1 := set_nodes (<[index := with_state NodeState.Success (with_obligation o n)]> (nodes f)) f). assert (Hr2 : running f1) by (by apply process_success_running).
    eapply runs_bind; [apply (register_children_ok children index f1 Hr2); [unfold f1; cbn [nodes set_nodes]; by rewrite length_insert|unfold f1, st; cbn [nodes set_nodes]; by rewrite list_lookup_insert_eq]|]. intros f2 (Hr3 & _). apply runs_ret. by split.
  - pose proof Hr1 as [H1 H2 H3 H4 H5]. eapply runs_bind; [apply (error_running index _ H1 H2 H3 H4)|].
    + cbn [nodes set_nodes]. by rewrite length_insert.
    + intros i k Hd He. left. by apply (H5 i k).
    + intros [trace f2] (_ & ns' & _ & _ & Hr2). apply runs_ret. by split.
Qed.

Lemma process_nodes_ok fuel index (r : Round) : running (forest r) ->
  safe (process_nodes fuel index r) (fun r' => running (forest r') /\ (has_changed r' = false -> has_changed r = false /\ active_cache (forest r') = active_cache (forest r) /\ skel (nodes (forest r')) = skel (nodes (forest r)))).
Proof.
  revert index r. induction fuel as [|fuel IH]; intros index r Hr; cbn [process_nodes]; [done|]. destruct (nodes (forest r) !! index) as [n|] eqn:Hn; [|by split]. destruct (_ || _) eqn:Ec; [by apply IH|].
  apply orb_false_iff in Ec as [Es _]. apply negb_false_iff, bool_decide_eq_true in Es. eapply safe_bind; [by apply safe_runs, process_node_ok|]. intros r1 [Hr1 Hc1]. eapply safe_mono; [by apply IH|].
  intros r2 [Hr2 Hc2]. split; [done|]. intros Hf. destruct (Hc2 Hf) as (E1 & E2 & E3). destruct (Hc1 E1) as (E4 & E5 & E6). split_and!; [done|congruence|congruence].
Qed.

Lemma fold_total {A S} (step : S -> A -> S) l s : exists s', fold_out (fun s x => Ret (step s x)) l s = Ret s'.
Proof. revert s. induction l as [|x l IH]; intros s; [by eexists|]. simpl. apply IH. Qed.

(** The end of a round, with what each step makes of the nodes. *)
Lemma finish_round_ok (r : Round) : running (forest r) ->
  runs (finish_round r) (fun r' => wf (forest r') /\ exists ns1 ns2 p out, marked (nodes (forest r)) ns1 /\ cycled ns1 ns2 /\ completes (ns1, processor r, result r) (ns2, p, out)
    /\ (forall j, st ns2 j <> Some NodeState.Success) /\ compressed (set_nodes ns2 (forest r)) (forest r') /\ processor r' = p /\ has_changed r' = false
    /\ fold_out (fun out o => Ret (record_completed out o)) (obligation <$> in_state NodeState.Done ns2) out = Ret (result r')).
Proof.
  intros Hr. pose proof Hr as [H1 H2 H3 H4 H5]. unfold finish_round. eapply runs_bind; [apply mark_successes_ok; [apply H1|done|done]|]. intros ns1 HM. pose proof HM as (E1 & M1 & M2 & M3 & M4 & HL1).
  assert (Hsh1 : shape ns1) by (by apply (shape_erase (nodes (forest r)))). assert (HP1 : processed ns1).
  { intros i k Hd Hk. apply (dep_erase (nodes (forest r))) in Hd; [|done]. apply M1 in Hk. by apply (H4 i k). }
  eapply runs_bind; [by apply process_cycles_ok|]. intros [[ns2 p] out] (HC & HT & HN). cbn [fst snd] in *. pose proof HC as (E2 & C1 & C2).
  destruct (fold_total record_completed (obligation <$> in_state NodeState.Done ns2) out) as [out' Hout].
  assert (Hsh2 : shape ns2) by (by apply (shape_erase ns1)). assert (HA2 : active_ok (set_nodes ns2 (forest r))).
  { intros k i Hk. cbn [nodes set_nodes active_cache] in *. rewrite (erase_length _ _ E2), HL1. by apply (H2 k). }
  eapply runs_bind; [apply (compress_ok _ (set_nodes ns2 (forest r)) out out'); done|]. intros [f' out''] [HF Eo]. cbn [fst snd] in *. subst out''. apply runs_ret. cbn [forest processor result has_changed]. split.
  - apply (compressed_wf HF); [done|done|exact (cycled_processed _ _ HC HP1)|]. apply C2. exact (marked_waiting _ _ H4 H5 HM).
  - by exists ns1, ns2, p, out.
Qed.

Lemma process_rounds_ok fuel steps (r : Round) : wf (forest r) -> safe (process_rounds fuel steps r) (fun r' => wf (forest r')).
Proof.
  revert r. induction fuel as [|fuel IH]; intros r Hw; cbn [process_rounds]; [done|]. eapply safe_bind; [apply process_nodes_ok; by apply wf_running|]. intros r1 [Hr1 Hc]. cbn [forest has_changed] in Hc. destruct (has_changed r1) eqn:Eh.
  - eapply safe_bind; [by apply safe_runs, finish_round_ok|]. intros r2 [Hw2 _]. by apply IH.
  - destruct (Hc eq_refl) as (_ & Ea & Ek). simpl. destruct (forest r1) as [ns1 dc ac nt ec] eqn:Ef. cbn [nodes active_cache] in *. destruct (wf_skel (forest r) ns1 Hw (eq_sym Ek)) as [G1 G2 G3 G4 G5]. cbn [nodes set_nodes] in *.
    split; cbn [nodes]; try done. intros k i Hk. cbn [active_cache nodes] in *. apply (G2 k). change (active_cache (forest r) !! k = Some i). by rewrite <- Ea.
Qed.
End Process.
