(* ===== verification/ForestEnds.v ===== *)
(** * The obligation forest: what processing achieves

    What is cached as done, that the loop ends, and what the processor is asked about. *)
From Stdlib Require Import Lia.
From stdpp Require Import base numbers list gmap option relations.
From S2P Require Import Prelude ObligationForest ForestStates ForestProcess.
#[local] Open Scope nat_scope.
#[local] Open Scope rust_scope.

(** ** What is cached as done

    An obligation is cached as done only if the processor expanded it into obligations that are done too.  The
    processor may change an obligation while processing it, so a child is followed through its changes ([evolves]). *)

(** *** Registering, by cases *)

Section Register.
Context {O K : Type} `{Countable K} `{!ForestObligation O K}.
Implicit Types f : ObligationForest O K.

(** A node that registering has kept: it may have one more dependent. *)
Definition keeps (n n' : Node O) : Prop :=
  obligation n' = obligation n /\ state n' = state n /\ obligation_tree_id n' = obligation_tree_id n /\ forall b, b ∈ dependents n -> b ∈ dependents n'.

Inductive registered (o : O) (parent : option nat) f : bool -> ObligationForest O K -> Prop :=
| reg_done : as_cache_key o ∈ done_cache f -> registered o parent f true f
| reg_active i n ns' : as_cache_key o ∉ done_cache f -> active_cache f !! as_cache_key o = Some i -> nodes f !! i = Some n ->
    (exists n', ns' = <[i := n']> (nodes f) /\ keeps n n' /\ forall b, parent = Some b -> b ∈ dependents n') ->
    registered o parent f (bool_decide (state n <> NodeState.Error)) (set_nodes ns' f)
| reg_failed p n : as_cache_key o ∉ done_cache f -> parent = Some p -> nodes f !! p = Some n -> registered o parent f false f
| reg_new tid next : as_cache_key o ∉ done_cache f -> active_cache f !! as_cache_key o = None ->
    match parent with
    | Some p => exists n, nodes f !! p = Some n /\ tid = obligation_tree_id n /\ next = next_tree_id f /\ as_cache_key o ∉ default ∅ (error_cache f !! tid)
    | None => tid = next_tree_id f /\ next = S (next_tree_id f)
    end ->
    registered o parent f true (mkForest (nodes f ++ [node_new parent o tid]) (done_cache f) (<[as_cache_key o := length (nodes f)]> (active_cache f)) next (error_cache f)).

Lemma register_cases o parent f ok f' : register_obligation_at o parent f = Ret (ok, f') -> registered o parent f ok f'.
Proof.
  unfold register_obligation_at. case_bool_decide as Ed; [intros [= <- <-]; by apply reg_done|]. destruct (active_cache f !! as_cache_key o) as [i|] eqn:Ea.
  - destruct (nodes f !! i) as [n|] eqn:Hn; [|done]. cbn [unwrap obind]. intros [= <- <-]. eapply reg_active; [done|done|done|]. eexists. split; [reflexivity|]. split.
    + split_and!; try done. intros b Hb. simpl. destruct parent; [|done]. case_bool_decide; [done|]. apply elem_of_app. by left.
    + intros b ->. simpl. case_bool_decide; [done|]. apply elem_of_app. right. by apply list_elem_of_singleton.
  - destruct parent as [p|]; cbn [obind].
    + destruct (nodes f !! p) as [n|] eqn:Hn; [|done]. cbn [unwrap obind]. case_bool_decide as Ef; intros [= <- <-].
      * replace (mkForest (nodes f) (done_cache f) (active_cache f) (next_tree_id f) (error_cache f)) with f by (by destruct f). by apply (reg_failed o (Some p) f p n).
      * apply reg_new; [done|done|]. by exists n.
    + intros [= <- <-]. by apply (reg_new o None).
Qed.

Lemma registered_keeps o parent f ok f' j n : registered o parent f ok f' -> nodes f !! j = Some n -> exists n', nodes f' !! j = Some n' /\ keeps n n'.
Proof.
  intros HR Hj. assert (Hself : keeps n n) by done. destruct HR as [?|i m ns' _ _ Hi (m' & -> & Hk & _)|p m _ _ _|tid next _ _ _].
  - by exists n.
  - cbn [nodes set_nodes]. destruct (decide (i = j)) as [<-|Hne]; [|exists n; by rewrite list_lookup_insert_ne]. rewrite Hi in Hj. injection Hj as <-. exists m'. split; [|done]. apply list_lookup_insert_eq. by eapply lookup_lt_Some.
  - by exists n.
  - exists n. split; [|done]. cbn [nodes]. by apply lookup_app_l_Some.
Qed.

Lemma registered_done o parent f ok f' : registered o parent f ok f' -> done_cache f' = done_cache f.
Proof. by destruct 1. Qed.
End Register.

Section Support.
Context {O K P E OUT : Type} `{Countable K} `{!ForestObligation O K} `{!ObligationProcessor P O E} `{!OutcomeTrait OUT O E}.
Implicit Types f : ObligationForest O K.

Definition evolve_step (a b : O) : Prop := as_cache_key a = as_cache_key b \/ exists (p : P) r p', process_obligation p a = (b, r, p').
Definition evolves : O -> O -> Prop := rtc evolve_step.

(** The processor has turned some obligation into [o], with the subobligations [cs]. *)
Definition expands (o : O) (cs : list O) : Prop := exists (p : P) o0 p', process_obligation p o0 = (o, ProcessResult.Changed cs, p').

Definition solved (D : gset K) (c : O) : Prop := exists o, evolves c o /\ as_cache_key o ∈ D.
Definition covered f (i : nat) (c : O) : Prop := solved (done_cache f) c \/ exists j m, nodes f !! j = Some m /\ i ∈ dependents m /\ evolves c (obligation m).

Definition done_supported (D : gset K) : Prop := forall k, k ∈ D -> exists o cs, as_cache_key o = k /\ expands o cs /\ forall c, c ∈ cs -> solved D c.
Definition active_tracked f : Prop := forall k i, active_cache f !! k = Some i -> exists n o, nodes f !! i = Some n /\ as_cache_key o = k /\ evolves o (obligation n).
Definition nodes_supported f (but : nat -> Prop) : Prop := forall i n, nodes f !! i = Some n -> ~ but i -> state n = NodeState.Success \/ state n = NodeState.Waiting ->
  exists cs, expands (obligation n) cs /\ forall c, c ∈ cs -> covered f i c.
Definition supported f (but : nat -> Prop) : Prop := done_supported (done_cache f) /\ active_tracked f /\ nodes_supported f but.

Lemma evolves_key a b : as_cache_key a = as_cache_key b -> evolves a b.
Proof. intros E0. apply rtc_once. by left. Qed.

Lemma solved_mono D D' c : D ⊆ D' -> solved D c -> solved D' c.
Proof. intros HD (o & ? & ?). exists o. split; [done|]. by apply HD. Qed.

(** **** Registering *)

Lemma registered_covered o parent f ok f' i c : registered o parent f ok f' -> covered f i c -> covered f' i c.
Proof.
  intros HR [Hs|(j & m & Hj & Hi & Hc)]; [left; by rewrite (registered_done _ _ _ _ _ HR)|]. right. destruct (registered_keeps _ _ _ _ _ _ _ HR Hj) as (m' & Hj' & Ho & _ & _ & Hd). exists j, m'. split; [done|]. split; [by apply Hd|by rewrite Ho].
Qed.

Lemma registered_supported o parent f ok f' but : registered o parent f ok f' -> supported f but -> supported f' but.
Proof.
  intros HR (S1 & S2 & S3). split; [by rewrite (registered_done _ _ _ _ _ HR)|]. split.
  - intros k j Hk. assert (G : active_cache f !! k = Some j -> exists n o, nodes f' !! j = Some n /\ as_cache_key o = k /\ evolves o (obligation n)).
    { intros Hk'. destruct (S2 k j Hk') as (n & o0 & Hj & Ho & He). destruct (registered_keeps _ _ _ _ _ _ _ HR Hj) as (n' & Hj' & Eo & _). exists n', o0. by rewrite Eo. }
    destruct HR as [?|i m ns' _ _ Hi ?|p m _ _ _|tid next _ Ha _]; try (by apply G). cbn [active_cache nodes] in *. apply lookup_insert_Some in Hk as [[<- <-]|[_ Hk]]; [|by apply G].
    exists (node_new parent o tid), o. split; [by apply list_lookup_middle|]. split; [done|constructor].
  - intros i n' Hi Hb Hs. assert (G : forall n, nodes f !! i = Some n -> keeps n n' -> exists cs, expands (obligation n') cs /\ forall c, c ∈ cs -> covered f' i c).
    { intros n Hn (Eo & Es & _). rewrite Es in Hs. destruct (S3 i n Hn Hb Hs) as (cs & Hx & Hc). exists cs. rewrite Eo. split; [done|]. intros c Hcs. eapply registered_covered; [done|by apply Hc]. }
    destruct (decide (i < length (nodes f))) as [Hlt|Hge].
    + destruct (lookup_lt_is_Some_2 _ _ Hlt) as [n Hn]. destruct (registered_keeps _ _ _ _ _ _ _ HR Hn) as (n'' & Hn'' & Hk). rewrite Hi in Hn''. injection Hn'' as <-. by apply (G n).
    + exfalso. destruct HR as [?|a m ns' _ _ Ha (m' & -> & _)|p m _ _ _|tid next _ Ha _]; cbn [nodes set_nodes] in Hi; pose proof (lookup_lt_Some _ _ _ Hi) as Hl; rewrite ?length_insert in Hl; try lia.
      rewrite length_app in Hl. simpl in Hl. replace i with (length (nodes f)) in Hi by lia. rewrite list_lookup_middle in Hi by done. injection Hi as <-. simpl in Hs. by destruct Hs.
Qed.

Lemma registered_child o x f ok f' : registered o (Some x) f ok f' -> active_tracked f -> ok = true -> covered f' x o.
Proof.
  intros HR HT Hok. destruct HR as [?|i m ns' _ Ha Hi (m' & -> & (Eo & _) & Hb)|p m _ _ _|tid next _ Ha _]; [|..|done|].
  - left. exists o. split; [constructor|done].
  - right. destruct (HT _ _ Ha) as (n & o0 & Hn & Ek & He). rewrite Hi in Hn. injection Hn as <-. exists i, m'. cbn [nodes set_nodes]. split; [apply list_lookup_insert_eq; by eapply lookup_lt_Some|]. split; [by apply Hb|]. rewrite Eo.
    etrans; [by apply evolves_key|done].
  - right. exists (length (nodes f)), (node_new (Some x) o tid). split; [by apply list_lookup_middle|]. split; [by apply list_elem_of_singleton|constructor].
Qed.

(** **** States *)

(** States may change as long as no node becomes a success or waiting. *)
Lemma supported_states f ns' but : erase ns' = erase (nodes f) ->
  (forall j, ~ but j -> st ns' j = Some NodeState.Success \/ st ns' j = Some NodeState.Waiting -> st (nodes f) j = Some NodeState.Success \/ st (nodes f) j = Some NodeState.Waiting) ->
  supported f but -> supported (set_nodes ns' f) but.
Proof.
  intros Ee Hst (S1 & S2 & S3). split; [done|].
  assert (Hback : forall j m, nodes f !! j = Some m -> exists m', ns' !! j = Some m' /\ obligation m' = obligation m /\ dependents m' = dependents m).
  { intros j m Hj. destruct (erase_lookup _ _ _ _ Ee Hj) as (m' & Hm' & Em). exists m'. rewrite Em. done. }
  split.
  - intros k i Hk. destruct (S2 k i Hk) as (n & o & Hn & Ho & He). destruct (Hback i n Hn) as (n' & Hn' & Eo & _). exists n', o. cbn [nodes set_nodes]. by rewrite Eo.
  - intros i n' Hi Hb Hs. cbn [nodes set_nodes] in Hi. destruct (erase_lookup _ _ _ _ (eq_sym Ee) Hi) as (n & Hn & En). assert (Eo : obligation n' = obligation n) by (by rewrite En).
    assert (Hs' : state n = NodeState.Success \/ state n = NodeState.Waiting).
    { destruct (Hst i Hb) as [Hx|Hx]; [rewrite (st_lookup _ _ _ Hi); destruct Hs as [-> | ->]; auto| |]; rewrite (st_lookup _ _ _ Hn) in Hx; injection Hx; auto. }
    destruct (S3 i n Hn Hb Hs') as (cs & Hx & Hc). exists cs. rewrite Eo. split; [done|]. intros c Hcs. destruct (Hc c Hcs) as [?|(j & m & Hj & Hd & He)]; [by left|]. right.
    destruct (Hback j m Hj) as (m' & Hm' & Eom & Ed). exists j, m'. cbn [nodes set_nodes]. split; [done|]. by rewrite Ed, Eom.
Qed.

Lemma supported_weaken f (but but' : nat -> Prop) : (forall i, but i -> but' i) -> supported f but -> supported f but'.
Proof. intros HW (S1 & S2 & S3). split; [done|]. split; [done|]. intros i n Hi Hb. apply S3; auto. Qed.

(** **** Children *)

Lemma children_supported children index f f' seen :
  running f -> index < length (nodes f) -> st (nodes f) index <> Some NodeState.Pending ->
  supported f (fun j => j = index) -> (forall n, nodes f !! index = Some n -> state n <> NodeState.Error -> expands (obligation n) (seen ++ children) /\ forall c, c ∈ seen -> covered f index c) ->
  register_children children index f = Ret f' -> supported f' (fun _ => False).
Proof.
  revert f seen. induction children as [|c children IH]; intros f seen Hr Hi Hp HS Hn; cbn [register_children].
  - intros [= <-]. destruct HS as (S1 & S2 & S3). split; [done|]. split; [done|]. intros i n Hni _ Hs. destruct (decide (i = index)) as [->|Hne]; [|by apply (S3 i)].
    destruct (Hn n Hni) as [Hx Hc]; [destruct Hs as [-> | ->]; done|]. rewrite app_nil_r in Hx. by exists seen.
  - intros HE. apply obind_ret in HE as ([ok f1] & Hreg & HE). pose proof (register_cases _ _ _ _ _ Hreg) as HR. pose proof Hr as [H1 H2 H3 H4 H5].
    destruct (register_at_ok c (Some index) f H1 H2) as ([ok' f1'] & Hreg' & R1 & R2 & R3 & R4 & R5 & R6 & R7); [by intros p [= <-]|]. rewrite Hreg in Hreg'. injection Hreg' as <- <-. cbn [fst snd] in *.
    assert (HS1 : supported f1 (fun j => j = index)) by (by eapply registered_supported).
    apply obind_ret in HE as (f2 & Hf2 & HE). assert (HL2 : index < length (nodes f1)) by lia.
    assert (Hstep : running f2 /\ index < length (nodes f2) /\ st (nodes f2) index <> Some NodeState.Pending /\ supported f2 (fun j => j = index)
      /\ forall n, nodes f2 !! index = Some n -> state n <> NodeState.Error -> expands (obligation n) ((seen ++ [c]) ++ children) /\ forall c', c' ∈ seen ++ [c] -> covered f2 index c').
    { assert (D1 : forall j, st (nodes f1) j <> Some NodeState.Done).
      { intros j Hj. pose proof (st_lt _ _ _ Hj). destruct (decide (j < length (nodes f))); [rewrite R4 in Hj by done; by apply (H3 j)|]. rewrite R5 in Hj by lia. done. }
      assert (D2 : processed (nodes f1)).
      { intros a b Hd. destruct (R6 a b Hd) as [Hd'|[[= ->] _]]; [|by rewrite R4]. rewrite R4 by (by apply (proj1 H1 a)). by apply (H4 a). }
      assert (D3 : forall i k, dep (nodes f1) i k -> st (nodes f1) i = Some NodeState.Error -> st (nodes f1) k = Some NodeState.Error \/ (k = index /\ ok = false)).
      { intros i k Hd He. destruct (R6 i k Hd) as [Hd'|[[= ->] Hok]]; [|right; split; [done|by apply Hok]]. left. rewrite R4 by (by apply (proj1 H1 i)). apply (H5 i k Hd').
        rewrite <- R4; [done|]. destruct Hd' as (n & Hn' & _). by eapply lookup_lt_Some. }
      destruct ok.
      - injection Hf2 as <-. split_and!; [|done|by rewrite R4|done|].
        + split; try done. intros i k Hd He. by destruct (D3 i k Hd He) as [?|[_ ?]].
        + intros n Hni Hne. destruct (lookup_lt_is_Some_2 _ _ Hi) as [n0 Hn0]. destruct (registered_keeps _ _ _ _ _ _ _ HR Hn0) as (n1 & Hn1 & Eo & Es & _). rewrite Hni in Hn1. injection Hn1 as <-. rewrite Es in Hne.
          destruct (Hn n0 Hn0 Hne) as [Hx Hc]. rewrite Eo, <- app_assoc. split; [done|]. intros c' [Hc'|Hc'%list_elem_of_singleton]%elem_of_app; [eapply registered_covered; [exact HR|by apply Hc]|]. subst c'. eapply registered_child; [exact HR|apply HS|done].
      - destruct (error_running index f1 R1 R2 D1 D2 HL2) as ([trace f2'] & Hef & _ & ns' & Ef & HSp & Hr2); [intros i k Hd He; destruct (D3 i k Hd He) as [?|[? _]]; auto|].
        rewrite Hef in Hf2. cbn [obind fst snd] in *. injection Hf2 as <-. subst f2'. pose proof HSp as (Ee & G1 & G2 & _). cbn [nodes set_nodes] in *. split_and!; [done|by rewrite (erase_length _ _ Ee)|by rewrite G1| |].
        + apply supported_states; [done| |done]. intros j _ Hj. destruct (G2 j) as [Hx|[Hx _]]; rewrite Hx in Hj; [done|by destruct Hj].
        + intros n Hni Hne. specialize (G1 index eq_refl). rewrite (st_lookup _ _ _ Hni) in G1. congruence. }
    destruct Hstep as (? & ? & ? & ? & ?). by eapply (IH f2 (seen ++ [c])).
Qed.

(** **** One obligation *)

Lemma set_node_supported index n o s f (but : nat -> Prop) : nodes f !! index = Some n -> state n = NodeState.Pending -> evolves (obligation n) o -> (s = NodeState.Pending \/ but index) ->
  supported f (fun _ => False) -> supported (set_nodes (<[index := with_state s (with_obligation o n)]> (nodes f)) f) but.
Proof.
  intros Hn Hs He Hb (S1 & S2 & S3). pose proof (lookup_lt_Some _ _ _ Hn) as Hi. split; [done|].
  assert (Hmv : forall j m c, nodes f !! j = Some m -> evolves c (obligation m) -> exists m', <[index := with_state s (with_obligation o n)]> (nodes f) !! j = Some m' /\ evolves c (obligation m') /\ dependents m' = dependents m).
  { intros j m c Hj Hc. destruct (decide (index = j)) as [<-|Hne].
    - rewrite Hn in Hj. injection Hj as <-. exists (with_state s (with_obligation o n)). rewrite list_lookup_insert_eq by done. split; [done|]. split; [by etrans|done].
    - exists m. by rewrite list_lookup_insert_ne. }
  split.
  - intros k i Hk. destruct (S2 k i Hk) as (m & o0 & Hm & Ho & Hev). destruct (Hmv i m o0 Hm Hev) as (m' & Hm' & Hev' & _). by exists m', o0.
  - intros i m Hm Hbi Hsm. cbn [nodes set_nodes] in Hm. apply list_lookup_insert_Some in Hm as [(-> & <- & _)|[Hne Hm]].
    + exfalso. destruct Hb as [-> | Hb]; [simpl in Hsm; by destruct Hsm|done].
    + destruct (S3 i m Hm) as (cs & Hx & Hc); [tauto|done|]. exists cs. split; [done|]. intros c Hcs. destruct (Hc c Hcs) as [?|(j & m' & Hj & Hd & Hev)]; [by left|]. right. destruct (Hmv j m' c Hj Hev) as (m'' & Hm'' & Hev' & Ed). exists j, m''. by rewrite Ed.
Qed.

Lemma process_node_supported index n (r r' : Round) : running (forest r) -> nodes (forest r) !! index = Some n -> state n = NodeState.Pending ->
  supported (forest r) (fun _ => False) -> process_node index n r = Ret r' -> supported (forest r') (fun _ => False).
Proof.
  intros Hr Hn Hs HS. unfold process_node. destruct (process_obligation (processor r) (obligation n)) as [[o res] p] eqn:Ep. set (f := forest r) in *. pose proof (lookup_lt_Some _ _ _ Hn) as Hi.
  assert (He : evolves (obligation n) o) by (apply rtc_once; right; by exists (processor r), res, p).
  assert (HS1 : supported (set_nodes (<[index := with_obligation o n]> (nodes f)) f) (fun _ => False)).
  { replace (with_obligation o n) with (with_state NodeState.Pending (with_obligation o n)) by (unfold with_state, with_obligation; simpl; by rewrite Hs). apply set_node_supported; auto. }
  pose proof (running_skel f _ Hr (eq_sym (skel_set_obligation (nodes f) index n o Hn))) as Hr1. destruct res as [|children|err].
  - intros [= <-]. done.
  - intros HE. apply obind_ret in HE as (f2 & HE & Hf2). injection Hf2 as <-. cbn [forest].
    eapply (children_supported children index _ f2 []); [| | |by apply (set_node_supported index n o NodeState.Success f (fun j => j = index)); auto| |exact HE].
    + by apply process_success_running.
    + cbn [nodes set_nodes]. by rewrite length_insert.
    + cbn [nodes set_nodes]. unfold st. by rewrite list_lookup_insert_eq.
    + cbn [nodes set_nodes]. intros m Hm _. rewrite list_lookup_insert_eq in Hm by done. injection Hm as <-. split; [by exists (processor r), (obligation n), p|]. intros c Hc. by apply elem_of_nil in Hc.
  - intros HE. apply obind_ret in HE as ([trace f2] & HE & Hf2). injection Hf2 as <-. cbn [forest]. pose proof Hr1 as [H1 H2 H3 H4 H5].
    destruct (error_running index _ H1 H2 H3 H4) as ([trace' f2'] & Hef & _ & ns' & Ef & (Ee & G1 & G2 & _) & _); [cbn [nodes set_nodes]; by rewrite length_insert|intros i k Hd Hx; left; by apply (H5 i k)|].
    rewrite HE in Hef. injection Hef as <- <-. cbn [snd] in Ef. subst f2. apply (supported_states (set_nodes (<[index := with_obligation o n]> (nodes f)) f)); [done| |done]. intros j _ Hj. destruct (G2 j) as [Hx|[Hx _]]; rewrite Hx in Hj; [done|by destruct Hj].
Qed.

Lemma process_nodes_supported fuel index (r r' : Round) : running (forest r) -> supported (forest r) (fun _ => False) -> process_nodes fuel index r = Ret r' -> supported (forest r') (fun _ => False).
Proof.
  revert index r. induction fuel as [|fuel IH]; intros index r Hr HS; cbn [process_nodes]; [done|]. destruct (nodes (forest r) !! index) as [n|] eqn:Hn; [|by intros [= <-]]. destruct (_ || _) eqn:Ec; [by apply IH|].
  apply orb_false_iff in Ec as [Es _]. apply negb_false_iff, bool_decide_eq_true in Es. intros HE. apply obind_ret in HE as (r1 & H1 & HE). destruct (process_node_ok index n r Hr Hn Es) as (r1' & H1' & Hr1 & _). rewrite H1 in H1'. injection H1' as <-.
  apply (IH (index + 1) r1 Hr1); [|done]. exact (process_node_supported index n r r1 Hr Hn Es HS H1).
Qed.

(** **** The end of a round *)

Section Finish.
Context (f f' : ObligationForest O K) (ns1 ns2 : list (Node O)) (Hr : running f) (HM : marked (nodes f) ns1) (E2 : erase ns2 = erase ns1)
  (HT : forall j, st ns2 j = st ns1 j \/ (st ns1 j = Some NodeState.Success /\ st ns2 j = Some NodeState.Done)) (HN : forall j, st ns2 j <> Some NodeState.Success).

(** Below a completed node everything is completed; below a waiting one nothing is in error. *)
Lemma below_done i j m : ns2 !! j = Some m -> i ∈ dependents m -> st ns2 i = Some NodeState.Done -> state m = NodeState.Done.
Proof using Hr HM E2 HT HN.
  intros Hj Hd Hi. destruct HM as (E1 & M1 & M2 & M3 & M4 & _). assert (Hdj : dep (nodes f) j i) by (apply (dep_erase (nodes f) ns2); [by rewrite E2|by exists m]).
  assert (Hi1 : st ns1 i = Some NodeState.Success) by (destruct (HT i) as [Hx|[? _]]; [rewrite Hi in Hx; by destruct (M3 i)|done]).
  pose proof (st_lookup _ _ _ Hj) as Hm. assert (Hnw : ~ leads (nodes f) i).
  { intros Hl. assert (st ns1 i = Some NodeState.Waiting); [|congruence]. apply M4. split; [done|]. split; [intros Hx; apply M1 in Hx; congruence|intros Hx; apply M2 in Hx; congruence]. }
  destruct (state m) eqn:Es; [|by destruct (HN j)| |done|].
  - exfalso. apply Hnw. exists j. split; [|by apply rtc_once]. apply M1. destruct (HT j) as [<-|[_ ?]]; congruence.
  - exfalso. apply Hnw. assert (Hw : st ns1 j = Some NodeState.Waiting) by (destruct (HT j) as [<-|[_ ?]]; congruence). apply M4 in Hw as ((p & Hp & Hpr) & _). exists p. split; [done|]. by eapply rtc_r.
  - exfalso. assert (He : st ns1 j = Some NodeState.Error) by (destruct (HT j) as [<-|[_ ?]]; congruence). apply M2 in He. apply (run_closed f Hr j i Hdj) in He. apply M2 in He. congruence.
Qed.

Lemma below_waiting i j m : ns2 !! j = Some m -> i ∈ dependents m -> st ns2 i = Some NodeState.Waiting -> state m <> NodeState.Error.
Proof using Hr HM E2 HT.
  intros Hj Hd Hi Hm. destruct HM as (E1 & M1 & M2 & M3 & M4 & _). assert (Hdj : dep (nodes f) j i) by (apply (dep_erase (nodes f) ns2); [by rewrite E2|by exists m]).
  pose proof (st_lookup _ _ _ Hj) as Hs. rewrite Hm in Hs. assert (He : st ns1 j = Some NodeState.Error) by (destruct (HT j) as [<-|[_ ?]]; congruence). apply M2 in He. apply (run_closed f Hr j i Hdj) in He. apply M2 in He.
  destruct (HT i) as [?|[? _]]; congruence.
Qed.

Lemma compressed_supported : supported f (fun _ => False) -> compressed (set_nodes ns2 f) f' -> supported f' (fun _ => False).
Proof using Hr HM E2 HT HN.
  intros HS HC. pose proof HM as (E1 & M1 & M2 & M3 & M4 & _). assert (Hsw : forall j, st ns1 j = Some NodeState.Success \/ st ns1 j = Some NodeState.Waiting -> st (nodes f) j = Some NodeState.Success \/ st (nodes f) j = Some NodeState.Waiting).
  { intros j Hj. destruct (st (nodes f) j) as [[]|] eqn:Ej; auto; exfalso.
    - apply M1 in Ej. rewrite Ej in Hj. by destruct Hj.
    - by destruct (run_states f Hr j).
    - apply M2 in Ej. rewrite Ej in Hj. by destruct Hj.
    - assert (st ns1 j = None) as Ej'; [|rewrite Ej' in Hj; by destruct Hj]. unfold st in *. apply fmap_None. apply fmap_None in Ej. apply lookup_ge_None. apply lookup_ge_None in Ej. rewrite (erase_length _ _ E1). done. }
  assert (HS1 : supported (set_nodes ns1 f) (fun _ => False)) by (apply supported_states; [done| |done]; intros j _ Hj; by apply Hsw).
  destruct HS1 as (S1 & S2 & S3). cbn [done_cache set_nodes nodes] in *.
  pose proof HC as (_ & Hdone & Hact & _). cbn [nodes set_nodes done_cache active_cache] in Hdone, Hact.
  assert (Hsub : done_cache f ⊆ done_cache f') by (rewrite Hdone; apply union_subseteq_r).
  assert (Hin : forall j m, ns2 !! j = Some m -> state m = NodeState.Done -> as_cache_key (obligation m) ∈ done_cache f').
  { intros j m Hj Hm. rewrite Hdone. apply elem_of_union_l. apply elem_of_list_to_set. apply list_elem_of_fmap. exists m. split; [done|]. apply list_elem_of_filter. split; [done|]. by eapply list_elem_of_lookup_2. }
  assert (H12 : forall j m, ns1 !! j = Some m -> exists m', ns2 !! j = Some m' /\ obligation m' = obligation m /\ dependents m' = dependents m).
  { intros j m Hj. destruct (erase_lookup _ _ _ _ E2 Hj) as (m' & Hm' & Em). exists m'. by rewrite Em. }
  assert (H21 : forall j m, ns2 !! j = Some m -> exists m', ns1 !! j = Some m' /\ obligation m' = obligation m).
  { intros j m Hj. destruct (erase_lookup _ _ _ _ (eq_sym E2) Hj) as (m' & Hm' & Em). exists m'. by rewrite Em. }
  split_and!.
  - intros k Hk. rewrite Hdone in Hk. apply elem_of_union in Hk as [Hk|Hk].
    + apply elem_of_list_to_set, list_elem_of_fmap in Hk as (n & -> & Hn). apply list_elem_of_filter in Hn as [Hs Hn]. apply list_elem_of_lookup in Hn as [i Hi]. pose proof (st_lookup _ _ _ Hi) as Hsi. rewrite Hs in Hsi.
      assert (Hi1 : st ns1 i = Some NodeState.Success) by (destruct (HT i) as [Hx|[? _]]; [rewrite Hsi in Hx; by destruct (M3 i)|done]).
      destruct (H21 i n Hi) as (n1 & Hn1 & Eo). rewrite (st_lookup _ _ _ Hn1) in Hi1. injection Hi1 as Hi1. destruct (S3 i n1 Hn1) as (cs & Hx & Hc); [tauto|by left|]. rewrite Eo in Hx. exists (obligation n), cs. split; [done|]. split; [done|].
      intros c Hcs. destruct (Hc c Hcs) as [?|(j & m & Hj & Hd & He)]; [by eapply solved_mono|]. cbn [nodes set_nodes] in Hj. destruct (H12 j m Hj) as (m' & Hj' & Eom & Ed). exists (obligation m'). rewrite Eom. split; [done|]. rewrite <- Eom.
      apply (Hin j m' Hj'). apply (below_done i j m' Hj'); [by rewrite Ed|done].
    + destruct (S1 k Hk) as (o & cs & ? & ? & Hc). exists o, cs. split_and!; try done. intros c Hcs. eapply solved_mono; [done|by apply Hc].
  - intros k x Hk. rewrite Hact, lookup_omap in Hk. apply bind_Some in Hk as (i & Hk & Hx). apply remove_keys_subseteq in Hk. destruct (S2 k i Hk) as (n1 & o & Hn1 & Ho & He). cbn [nodes set_nodes] in Hn1. destruct (H12 i n1 Hn1) as (n & Hn & Eo & _).
    destruct (compressed_new HC i n x Hn Hx) as (n' & Hn' & Eo' & _). exists n', o. split; [done|]. split; [done|]. by rewrite Eo', Eo.
  - intros x n' Hx _ Hs. destruct (compressed_old HC x n' Hx) as (d & n & Hd & Hdx & Ha & Eo & Es & _). cbn [nodes set_nodes] in Hd, Hdx. rewrite Es in Hs. assert (Hw : state n = NodeState.Waiting) by (destruct Hs as [Hs|]; [unfold is_alive in Ha; by rewrite Hs in Ha|done]).
    pose proof (st_lookup _ _ _ Hd) as Hsd. rewrite Hw in Hsd. destruct (H21 d n Hd) as (n1 & Hn1 & Eo1).
    assert (Hs1 : state n1 = NodeState.Waiting) by (assert (st ns1 d = Some NodeState.Waiting) as Hsd1 by (destruct (HT d) as [<-|[_ ?]]; congruence); rewrite (st_lookup _ _ _ Hn1) in Hsd1; by injection Hsd1).
    destruct (S3 d n1 Hn1) as (cs & Hxp & Hc); [tauto|by right|]. exists cs. rewrite Eo, <- Eo1. split; [done|]. intros c Hcs. destruct (Hc c Hcs) as [?|(j & m & Hj & Hdj & He)]; [left; by eapply solved_mono|].
    cbn [nodes set_nodes] in Hj. destruct (H12 j m Hj) as (m' & Hj' & Eom & Ed). rewrite <- Ed in Hdj. rewrite <- Eom in He. pose proof (below_waiting d j m' Hj' Hdj Hsd) as Hne.
    destruct (is_alive m') eqn:Ham.
    + right. assert (Hy : new_of ns2 j = Some (length (survivors (take j ns2)))) by (unfold new_of; by rewrite Hj', Ham). destruct (compressed_new HC j m' _ Hj' Hy) as (m'' & Hm'' & Eo'' & _ & _ & HP & _).
      exists (length (survivors (take j ns2))), m''. split; [done|]. split; [rewrite HP; apply list_elem_of_omap; by exists d|by rewrite Eo''].
    + left. exists (obligation m'). split; [done|]. apply (Hin j m' Hj'). destruct (state m') eqn:Em; try done; unfold is_alive in Ham; rewrite Em in Ham; try done. destruct (HN j). by rewrite (st_lookup _ _ _ Hj'), Em.
Qed.
End Finish.

Lemma rounds_supported fuel steps (r r' : Round) : accepting (P := P) (O := O) (E := E) -> wf (forest r) -> supported (forest r) (fun _ => False) -> process_rounds fuel steps r = Ret r' -> supported (forest r') (fun _ => False).
Proof.
  intros HA. revert r. induction fuel as [|fuel IH]; intros r Hw HS; cbn [process_rounds]; [done|]. intros HE. apply obind_ret in HE as (r1 & H1 & HE).
  pose proof (process_nodes_ok steps (skippable_obligations (processor r) (obligation <$> nodes (forest r))) (mkRound (forest r) (processor r) (result r) false) (wf_running _ Hw)) as Hok. rewrite H1 in Hok. destruct Hok as [Hr1 _].
  assert (HS1 : supported (forest r1) (fun _ => False)) by (refine (process_nodes_supported _ _ _ r1 _ _ H1); [by apply wf_running|exact HS]). destruct (has_changed r1); [|by injection HE as <-].
  apply obind_ret in HE as (r2 & H2 & HE). destruct (finish_round_ok r1 Hr1) as (r2' & H2' & Hw2 & ns1 & ns2 & p & out & HM & (E2 & _) & HT & HN & HC & _). rewrite H2 in H2'. injection H2' as <-.
  apply (IH r2 Hw2); [|done]. destruct (HT HA) as [_ HT']. by eapply (compressed_supported (forest r1) (forest r2) ns1 ns2).
Qed.
End Support.

(** *** All errors *)

Section ToErrors.
Context {O K : Type} `{Countable K} `{!ForestObligation O K}.
Implicit Types f : ObligationForest O K.
Implicit Types ns : list (Node O).

(** The places of the pending nodes. *)
Definition pending_indices ns (l : list nat) : list nat := filter (fun i => st ns i = Some NodeState.Pending) l.

Lemma to_errors_loop_ok {E} (err : E) ns todo l1 ns1 : shape ns -> processed ns -> error_closed ns1 -> erase ns1 = erase ns ->
  (forall j, st ns1 j = st ns j \/ st ns1 j = Some NodeState.Error) -> NoDup (l1 ++ todo) -> Forall (fun i => i < length ns) todo ->
  (forall j, j ∈ l1 -> st ns j = Some NodeState.Pending -> st ns1 j = Some NodeState.Error) -> (forall j, j ∉ l1 -> st ns j = Some NodeState.Pending -> st ns1 j = Some NodeState.Pending) ->
  runs (to_errors_loop err todo ns1) (fun r => Forall2 (fun i e => error e = err /\ parent_chain ns i (backtrace e)) (pending_indices ns todo) r.1
    /\ error_closed r.2 /\ erase r.2 = erase ns /\ (forall j, st r.2 j = st ns j \/ st r.2 j = Some NodeState.Error)
    /\ (forall j, j ∈ l1 ++ todo -> st ns j = Some NodeState.Pending -> st r.2 j = Some NodeState.Error)).
Proof.
  intros Hsh HP. revert l1 ns1. induction todo as [|i todo IH]; intros l1 ns1 HC E1 Hst HN HF H1 H2; cbn [to_errors_loop].
  - apply runs_ret. cbn [fst snd]. rewrite app_nil_r. by split_and!.
  - inversion_clear HF as [|? ? Hi HF']. assert (Hi1 : i < length ns1) by (by rewrite (erase_length _ _ E1)). destruct (lookup_lt_is_Some_2 _ _ Hi1) as [n Hn]. rewrite Hn. cbn [unwrap obind]. pose proof (st_lookup _ _ _ Hn) as Hs.
    assert (Hnl : i ∉ l1) by (intros Hx; apply list.NoDup_app in HN as (_ & Hd & _); apply (Hd i Hx); apply elem_of_cons; by left).
    replace (l1 ++ i :: todo) with ((l1 ++ [i]) ++ todo) in HN |- * by (by rewrite <- app_assoc).
    assert (Hpi : st ns i = Some NodeState.Pending <-> state n = NodeState.Pending) by (split; [intros Hx; specialize (H2 i Hnl Hx); congruence|intros Hx; rewrite Hx in Hs; destruct (Hst i); congruence]).
    unfold pending_indices. rewrite filter_cons. fold (pending_indices ns todo). destruct (bool_decide (state n = NodeState.Pending)) eqn:Es.
    + apply bool_decide_eq_true in Es. rewrite decide_True by (by apply Hpi). eapply runs_bind; [apply error_at_ok; [by apply (shape_erase ns)|done]|]. intros [trace ns2] [Hch HS]. cbn [fst snd] in *. pose proof HS as (E2 & G1 & G2 & _).
      eapply runs_bind; [apply (IH (l1 ++ [i]) ns2)|].
      * by eapply spreads_closed.
      * by rewrite E2.
      * intros j. destruct (G2 j) as [->|[? _]]; [apply Hst|by right].
      * done.
      * done.
      * intros j [Hj|Hj%list_elem_of_singleton]%elem_of_app Hp; [|subst; by apply G1]. destruct (G2 j) as [->|[? _]]; [by apply H1|done].
      * intros j Hj Hp. rewrite elem_of_app, list_elem_of_singleton in Hj. destruct (G2 j) as [->|[_ (x & -> & Hr)]]; [apply H2; [tauto|done]|]. exfalso.
        apply (reach_erase ns ns1) in Hr; [|done]. apply rtc_inv_r in Hr as [Hx|(y & _ & Hd)]; [apply Hj; right; by subst|]. by apply (HP y j).
      * intros [errors ns3] (F1 & F2 & F3 & F4 & F5). cbn [fst snd] in *. apply runs_ret. cbn [fst snd]. split; [|done]. constructor; [|done]. split; [done|]. cbn [backtrace]. by apply (chain_erase ns ns1).
    + apply bool_decide_eq_false in Es. rewrite decide_False by (by rewrite Hpi). apply (IH (l1 ++ [i]) ns1); try done.
      * intros j [Hj|Hj%list_elem_of_singleton]%elem_of_app Hp; [by apply H1|]. subst. by apply Hpi in Hp.
      * intros j Hj Hp. rewrite elem_of_app in Hj. apply H2; [tauto|done].
Qed.

Lemma to_errors_ok {E} (err : E) f : wf f ->
  runs (to_errors err f) (fun r => Forall2 (fun i e => error e = err /\ parent_chain (nodes f) i (backtrace e)) (pending_indices (nodes f) (seq 0 (length (nodes f)))) r.1
    /\ nodes r.2 = [] /\ active_cache r.2 = ∅ /\ done_cache r.2 = done_cache f /\ next_tree_id r.2 = next_tree_id f
    /\ exists ns', erase ns' = erase (nodes f) /\ Forall (fun n => state n = NodeState.Error) ns' /\ error_cache r.2 = add_errors ns' (error_cache f)).
Proof.
  intros [H1 H2 H3 H4 H5]. unfold to_errors. assert (HC0 : error_closed (nodes f)) by (intros i k _ Hi; by destruct (H3 i _ Hi)).
  eapply runs_bind; [apply (to_errors_loop_ok err (nodes f) _ [] (nodes f) H1 H4 HC0)|].
  - done.
  - by left.
  - apply NoDup_seq.
  - apply list.Forall_forall. intros i Hi. by apply elem_of_seq0 in Hi.
  - intros j Hj. by apply elem_of_nil in Hj.
  - done.
  - intros [errors ns'] (F1 & F2 & F3 & F4 & F5). cbn [fst snd] in *. assert (Hall : forall j s, st ns' j = Some s -> s = NodeState.Error).
    { assert (Hpe : forall j, st (nodes f) j = Some NodeState.Pending -> st ns' j = Some NodeState.Error) by (intros j Hj; apply F5; [apply elem_of_seq0; by eapply st_lt|done]).
      assert (Haw : forall j, awaits (nodes f) j -> st ns' j = Some NodeState.Error).
      { induction 1 as [p j Hp Hd|m j _ IH _ Hd]; [apply (F2 p j); [by apply (dep_erase ns' (nodes f))|by apply Hpe]|apply (F2 m j); [by apply (dep_erase ns' (nodes f))|done]]. }
      intros j s Hj. destruct (F4 j) as [Hx|Hx]; [|congruence]. rewrite Hj in Hx. symmetry in Hx. destruct (H3 j s Hx) as [-> | ->]; [apply Hpe in Hx|apply H5, Haw in Hx]; congruence. }
    assert (HallF : Forall (fun n => state n = NodeState.Error) ns').
    { apply list.Forall_forall. intros n Hn. apply list_elem_of_lookup in Hn as [i Hi]. apply (Hall i). by apply st_lookup. }
    assert (Hnd : in_state NodeState.Done ns' = []) by (unfold in_state; clear -HallF; induction HallF as [|n l Hn _ IH]; [done|]; rewrite filter_cons, decide_False, IH by congruence; done).
    assert (Hns : survivors ns' = []) by (clear -HallF; induction HallF as [|n l Hn _ IH]; [done|]; rewrite survivors_cons; unfold is_alive; by rewrite Hn, IH).
    eapply runs_bind; [apply (compress_ok _ (set_nodes ns' f) tt tt)|].
    + cbn [nodes set_nodes]. by apply (shape_erase (nodes f)).
    + cbn [nodes set_nodes]. intros j Hj. by apply Hall in Hj.
    + intros k i Hk. cbn [nodes set_nodes active_cache] in *. rewrite (erase_length _ _ F3). by apply (H2 k).
    + cbn [nodes set_nodes]. by rewrite Hnd.
    + intros [f' []] [(C1 & C2 & C3 & C4 & C5) _]. apply runs_ret. cbn [fst snd nodes set_nodes done_cache active_cache next_tree_id] in *. rewrite Hns in C1. apply Forall2_nil_inv_l in C1. split_and!; [done|done| | |done|by exists ns'].
      * rewrite C3. apply map_empty. intros k. rewrite lookup_omap. destruct (remove_keys _ _ !! k) as [i|] eqn:Ei; [|done]. simpl. destruct (new_of ns' i) as [x|] eqn:Ex; [|done]. apply new_of_lt in Ex. rewrite Hns in Ex. simpl in Ex. lia.
      * rewrite C2, Hnd. apply union_empty_l_L.
Qed.
End ToErrors.

(** ** Termination

    When processing an obligation does not change its key, the active cache is exact, and a key is registered at most
    once per tree: it is then active, done, or among the errors of the tree.  So the loop ends when the processor only
    ever asks for keys of a finite set. *)

(** *** Counting *)

Lemma filter_count {A} (P Q : A -> Prop) `{!forall x, Decision (P x), !forall x, Decision (Q x)} l : (forall x, x ∈ l -> P x -> Q x) -> length (filter P l) <= length (filter Q l).
Proof.
  induction l as [|x l IH]; intros HI; [done|]. rewrite !filter_cons. assert (HI' : forall y, y ∈ l -> P y -> Q y) by (intros y Hy; apply HI; apply elem_of_cons; by right). specialize (IH HI').
  case_decide as HP; case_decide as HQ; simpl; try lia. exfalso. apply HQ, HI; [apply elem_of_cons; by left|done].
Qed.
Lemma filter_count_lt {A} (P Q : A -> Prop) `{!forall x, Decision (P x), !forall x, Decision (Q x)} l y : (forall x, x ∈ l -> P x -> Q x) -> y ∈ l -> Q y -> ~ P y -> length (filter P l) < length (filter Q l).
Proof.
  intros HI Hy HQ HP. apply list_elem_of_split in Hy as (l1 & l2 & ->). rewrite !list.filter_app, !filter_cons, !length_app. rewrite decide_False, decide_True by done. simpl.
  pose proof (filter_count P Q l1 ltac:(intros x Hx; apply HI; apply elem_of_app; by left)). pose proof (filter_count P Q l2 ltac:(intros x Hx; apply HI; apply elem_of_app; right; apply elem_of_cons; by right)). lia.
Qed.

Lemma filter_same {A} (P Q : A -> Prop) `{!forall x, Decision (P x), !forall x, Decision (Q x)} (l : list A) : (forall x, x ∈ l -> P x <-> Q x) -> filter P l = filter Q l.
Proof.
  induction l as [|x l IH]; intros HI; [done|]. rewrite !filter_cons, IH by (intros y Hy; apply HI; apply elem_of_cons; by right). pose proof (HI x ltac:(apply elem_of_cons; by left)). case_decide; case_decide; tauto.
Qed.

Section Ends.
Context {O K : Type} `{Countable K} `{!ForestObligation O K}.
Implicit Types f : ObligationForest O K.
Implicit Types ns : list (Node O).

(** The key and the tree of each node. *)
Definition ids ns : list (K * nat) := (fun n => (node_key n, obligation_tree_id n)) <$> ns.

Record indexed f : Prop := mkIndexed {
  ix_node : forall i k T, ids (nodes f) !! i = Some (k, T) -> active_cache f !! k = Some i /\ k ∉ done_cache f /\ T < next_tree_id f /\ k ∉ default ∅ (error_cache f !! T);
  ix_active : forall k i, active_cache f !! k = Some i -> exists T, ids (nodes f) !! i = Some (k, T);
  ix_errors : forall T c, error_cache f !! T = Some c -> T < next_tree_id f
}.

(** A key that can still be registered in a tree. *)
Definition free f (k : K) (T : nat) : Prop := k ∉ done_cache f /\ k ∉ default ∅ (error_cache f !! T) /\ (k, T) ∉ ids (nodes f).

Definition free_count (U : gset K) f : nat := length (filter (fun x => free f x.1 x.2) (list_prod (elements U) (seq 0 (next_tree_id f)))).
Definition pending_count ns : nat := length (pending_indices ns (seq 0 (length ns))).

(** What can still be pushed and looked at, and what can still be pushed and processed. *)
Definition to_visit (U : gset K) f : nat := length (nodes f) + free_count U f.
Definition to_process (U : gset K) f : nat := 2 * free_count U f + pending_count (nodes f).

Lemma ids_lookup ns i k T : ids ns !! i = Some (k, T) <-> exists n, ns !! i = Some n /\ node_key n = k /\ obligation_tree_id n = T.
Proof. unfold ids. rewrite list_lookup_fmap, fmap_Some. split; intros (n & ? & ?); exists n; naive_solver. Qed.

Lemma indexed_ids f ns : ids ns = ids (nodes f) -> indexed f -> indexed (set_nodes ns f).
Proof. intros E [H1 H2 H3]. split; cbn [nodes set_nodes active_cache done_cache next_tree_id error_cache]; rewrite ?E; done. Qed.

Lemma free_ids U f ns : ids ns = ids (nodes f) -> free_count U (set_nodes ns f) = free_count U f.
Proof. intros E. unfold free_count. f_equal. apply list_filter_iff. intros x. unfold free. cbn [nodes set_nodes done_cache error_cache]. by rewrite E. Qed.

Lemma ids_erase ns ns' : erase ns = erase ns' -> ids ns = ids ns'.
Proof.
  revert ns'. induction ns as [|n ns IH]; intros [|n' ns'] E; try done. unfold erase in E. rewrite !fmap_cons in E. injection E as E1 _ _ E2 E3. unfold ids. rewrite !fmap_cons. f_equal; [unfold node_key; by rewrite E1, E2|by apply IH].
Qed.

Lemma pending_le ns ns' : length ns = length ns' -> (forall j, st ns' j = Some NodeState.Pending -> st ns j = Some NodeState.Pending) -> pending_count ns' <= pending_count ns.
Proof. intros HL HI. unfold pending_count, pending_indices. rewrite <- HL. apply filter_count. auto. Qed.

Lemma pending_lt ns ns' i : length ns = length ns' -> (forall j, st ns' j = Some NodeState.Pending -> st ns j = Some NodeState.Pending) ->
  st ns i = Some NodeState.Pending -> st ns' i <> Some NodeState.Pending -> pending_count ns' < pending_count ns.
Proof. intros HL HI Hi Hn. unfold pending_count, pending_indices. rewrite <- HL. eapply (filter_count_lt _ _ _ i); [auto|apply elem_of_seq0; by eapply st_lt|done|done]. Qed.

Lemma pending_nodes ns : pending_count ns = length (in_state NodeState.Pending ns).
Proof.
  induction ns as [|n ns IH] using rev_ind; [done|]. unfold pending_count, pending_indices. rewrite length_app, Nat.add_comm, seq_S, filter_snoc. unfold in_state. rewrite filter_snoc, !length_app. fold (in_state NodeState.Pending ns). f_equal.
  - rewrite <- IH. unfold pending_count, pending_indices. f_equal. apply filter_same. intros i Hi. apply elem_of_seq0 in Hi. unfold st. by rewrite lookup_app_l.
  - unfold st. rewrite list_lookup_middle by done. simpl. case_decide as E1; case_decide as E2; try done; congruence.
Qed.

(** *** Registering *)

Lemma registered_indexed o parent f ok f' : registered o parent f ok f' -> indexed f -> indexed f' /\ (parent <> None -> next_tree_id f' = next_tree_id f).
Proof.
  intros HR HI. destruct HR as [?|i m ns' _ _ Hi (m' & -> & (Eo & _ & Et & _) & _)|p m _ _ _|tid next Hd Ha Hp]; [done|..|done|].
  - split; [|done]. apply indexed_ids; [|done]. unfold ids. rewrite list_fmap_insert. apply list_insert_id. rewrite list_lookup_fmap, Hi. simpl. unfold node_key. by rewrite Eo, Et.
  - pose proof HI as [H1 H2 H3]. assert (Hnt : next_tree_id f <= next /\ tid < next /\ as_cache_key o ∉ default ∅ (error_cache f !! tid)).
    { destruct parent as [p|]; [|destruct Hp as [-> ->]].
      - destruct Hp as (n & Hn & -> & -> & Hf). split; [done|]. split; [|done]. destruct (H1 p (node_key n) (obligation_tree_id n)) as (_ & _ & ? & _); [apply ids_lookup; by exists n|done].
      - split; [lia|]. split; [lia|]. destruct (error_cache f !! next_tree_id f) as [c|] eqn:Ec; [apply H3 in Ec; lia|]. apply not_elem_of_empty. }
    destruct Hnt as (N1 & N2 & N3). split; [|destruct parent as [p|]; [|done]; by destruct Hp as (_ & _ & _ & -> & _)]. split; cbn [nodes active_cache done_cache next_tree_id error_cache].
    + intros i k T Hk. unfold ids in Hk. rewrite fmap_app in Hk. apply lookup_app_Some in Hk as [Hk|[Hge Hk]].
      * destruct (H1 i k T Hk) as (A1 & A2 & A3 & A4). split_and!; [|done|lia|done]. rewrite lookup_insert_ne; [done|]. intros <-. congruence.
      * rewrite length_fmap in *. apply list_lookup_singleton_Some in Hk as [Hz Ek]. injection Ek as <- <-. unfold node_key. simpl. rewrite lookup_insert_eq. split_and!; [f_equal; lia|done|done|done].
    + intros k i Hk. unfold ids. rewrite fmap_app. apply lookup_insert_Some in Hk as [[<- <-]|[_ Hk]].
      * exists tid. rewrite lookup_app_r by (by rewrite length_fmap). by rewrite length_fmap, Nat.sub_diag.
      * destruct (H2 k i Hk) as [T HT]. exists T. by apply lookup_app_l_Some.
    + intros T c Hc. specialize (H3 T c Hc). lia.
Qed.

Lemma registered_counts U o x f ok f' : registered o (Some x) f ok f' -> indexed f -> as_cache_key o ∈ U -> to_visit U f' <= to_visit U f /\ to_process U f' <= to_process U f.
Proof.
  intros HR HI HU. destruct HR as [?|i m ns' _ _ Hi (m' & -> & (Eo & Es & Et & _) & _)|p m _ _ _|tid next Hd Ha (n & Hn & -> & -> & Hf)]; [done|..|done|].
  - unfold to_visit, to_process. rewrite free_ids.
    2:{ unfold ids. rewrite list_fmap_insert. apply list_insert_id. rewrite list_lookup_fmap, Hi. simpl. unfold node_key. by rewrite Eo, Et. }
    cbn [nodes set_nodes]. rewrite length_insert. split; [lia|]. assert (pending_count (<[i := m']> (nodes f)) <= pending_count (nodes f)); [|lia]. apply pending_le; [by rewrite length_insert|].
    intros j Hj. unfold st in *. destruct (decide (i = j)) as [<-|Hne]; [|by rewrite list_lookup_insert_ne in Hj]. rewrite list_lookup_insert_eq in Hj by (by eapply lookup_lt_Some). rewrite Hi. simpl in *. by rewrite Es in Hj.
  - set (f' := mkForest _ _ _ _ _). assert (Hfree : forall k T, free f' k T -> free f k T).
    { intros k T (F1 & F2 & F3). split_and!; [done|done|]. intros Hx. apply F3. unfold f'. cbn [nodes]. unfold ids. rewrite fmap_app. apply elem_of_app. by left. }
    assert (HT : obligation_tree_id n < next_tree_id f) by (destruct (ix_node f HI x (node_key n) (obligation_tree_id n)) as (_ & _ & ? & _); [apply ids_lookup; by exists n|done]).
    assert (Hlt : free_count U f' < free_count U f).
    { unfold free_count. cbn [next_tree_id f']. apply (filter_count_lt _ _ _ (as_cache_key o, obligation_tree_id n)); [by intros [k T] _; apply Hfree| | |].
      - apply list_elem_of_In, in_prod; apply list_elem_of_In; [by apply elem_of_elements|by apply elem_of_seq0].
      - split_and!; [done|done|]. intros Hx. apply list_elem_of_lookup in Hx as [i Hi]. destruct (ix_node f HI _ _ _ Hi) as [? _]. cbn [fst snd] in *. congruence.
      - intros (_ & _ & F3). apply F3. cbn [fst snd nodes f']. unfold ids. rewrite fmap_app. apply elem_of_app. right. by apply list_elem_of_singleton. }
    unfold to_visit, to_process. cbn [nodes f']. rewrite length_app. simpl length. rewrite !pending_nodes. unfold in_state. rewrite filter_snoc, length_app. simpl. lia.
Qed.

Lemma same_graph_counts U f ns' : erase ns' = erase (nodes f) -> (forall j, st ns' j = Some NodeState.Pending -> st (nodes f) j = Some NodeState.Pending) -> indexed f ->
  indexed (set_nodes ns' f) /\ to_visit U (set_nodes ns' f) <= to_visit U f /\ to_process U (set_nodes ns' f) <= to_process U f.
Proof.
  intros E Hp HI. pose proof (ids_erase _ _ E) as Ei. split; [by apply indexed_ids|]. unfold to_visit, to_process. rewrite (free_ids U f ns' Ei). cbn [nodes set_nodes]. rewrite (erase_length _ _ E).
  split; [done|]. pose proof (pending_le (nodes f) ns' (eq_sym (erase_length _ _ E)) Hp). lia.
Qed.

(** *** The end of a round *)

Lemma in_add_errors ns c k T : k ∈ default ∅ (add_errors ns c !! T) <-> k ∈ default ∅ (c !! T) \/ exists n, n ∈ ns /\ state n = NodeState.Error /\ node_key n = k /\ obligation_tree_id n = T.
Proof.
  unfold add_errors, in_state. revert c. induction ns as [|n ns IH]; intros c.
  - cbn. split; [by left|]. intros [?|(n & Hn & _)]; [done|by apply elem_of_nil in Hn].
  - rewrite filter_cons. assert (Hcons : forall Q, (exists m, m ∈ n :: ns /\ Q m) <-> Q n \/ exists m, m ∈ ns /\ Q m) by (intros Q; setoid_rewrite elem_of_cons; naive_solver).
    rewrite (Hcons (fun m => state m = NodeState.Error /\ node_key m = k /\ obligation_tree_id m = T)). case_decide as Es.
    + cbn [foldl]. rewrite IH. unfold insert_into_error_cache. destruct (decide (obligation_tree_id n = T)) as [<-|Hne].
      * rewrite lookup_insert_eq. simpl. rewrite elem_of_union, elem_of_singleton. unfold node_key. naive_solver.
      * rewrite lookup_insert_ne by done. naive_solver.
    + rewrite IH. naive_solver.
Qed.

Lemma add_errors_dom ns c T s : add_errors ns c !! T = Some s -> (exists s', c !! T = Some s') \/ exists n, n ∈ ns /\ obligation_tree_id n = T.
Proof.
  unfold add_errors, in_state. revert c. induction ns as [|n ns IH]; intros c; [cbn; eauto|]. rewrite filter_cons. case_decide as Es; cbn [foldl]; intros Hs; destruct (IH _ Hs) as [[s' Hs']|(m & Hm & <-)];
    try (right; exists m; split; [apply elem_of_cons; by right|done]); [|by left; exists s'].
  unfold insert_into_error_cache in Hs'. apply lookup_insert_Some in Hs' as [[<- _]|[_ ?]]; [|by left; exists s']. right. exists n. split; [apply elem_of_cons; by left|done].
Qed.

Lemma compressed_indexed U f f' : (forall j, st (nodes f) j <> Some NodeState.Success) -> indexed f -> compressed f f' ->
  indexed f' /\ next_tree_id f' = next_tree_id f /\ to_visit U f' <= to_visit U f /\ to_process U f' <= to_process U f.
Proof.
  intros HN HI HC. pose proof HI as [H1 H2 H3]. pose proof HC as (HF & Hdone & Hact & Hnext & Herr). set (ns := nodes f) in *.
  assert (Huniq : forall i j n m, ns !! i = Some n -> ns !! j = Some m -> node_key n = node_key m -> i = j).
  { intros i j n m Hi Hj Ek. destruct (H1 i (node_key n) (obligation_tree_id n)) as [A1 _]; [apply ids_lookup; by exists n|]. destruct (H1 j (node_key m) (obligation_tree_id m)) as [A2 _]; [apply ids_lookup; by exists m|]. congruence. }
  assert (Hold : forall x k T, ids (nodes f') !! x = Some (k, T) -> exists d n, ns !! d = Some n /\ new_of ns d = Some x /\ is_alive n = true /\ node_key n = k /\ obligation_tree_id n = T).
  { intros x k T Hx. apply ids_lookup in Hx as (n' & Hn' & <- & <-). destruct (compressed_old HC x n' Hn') as (d & n & Hd & Hdx & Ha & Eo & _ & Et & _). exists d, n. unfold node_key. by rewrite Eo, Et. }
  assert (Hlive : forall d n, ns !! d = Some n -> is_alive n = true -> node_key n ∉ dead_keys ns).
  { intros d n Hd Ha Hk. apply list_elem_of_fmap in Hk as (m & Ek & Hm). apply list_elem_of_filter in Hm as [Hm1 Hm2]. apply list_elem_of_lookup in Hm2 as [e He]. rewrite (Huniq d e n m Hd He Ek) in Hd. congruence. }
  assert (Hdd : forall k, k ∈ done_cache f' <-> k ∈ done_cache f \/ exists n, n ∈ ns /\ state n = NodeState.Done /\ node_key n = k).
  { intros k. rewrite Hdone, elem_of_union, elem_of_list_to_set, list_elem_of_fmap. unfold in_state. setoid_rewrite list_elem_of_filter.
    split; [intros [(n & -> & Es & Hn)|?]; [right; by exists n|by left]|intros [?|(n & Hn & Es & <-)]; [by right|left; by exists n]]. }
  assert (Hfree : forall k T, free f' k T -> free f k T).
  { intros k T (F1 & F2 & F3). rewrite Hdd in F1. rewrite Herr, in_add_errors in F2. split_and!; [tauto|tauto|]. intros Hx. apply list_elem_of_lookup in Hx as [d Hd]. apply ids_lookup in Hd as (n & Hn & <- & <-).
    destruct (is_alive n) eqn:Ha.
    - assert (Hx : new_of ns d = Some (length (survivors (take d ns)))) by (unfold new_of; fold ns in Hn; by rewrite Hn, Ha). destruct (compressed_new HC d n _ Hn Hx) as (n' & Hn' & Eo & _ & Et & _). apply F3. eapply list_elem_of_lookup_2. apply ids_lookup. exists n'. split; [done|]. unfold node_key. by rewrite Eo, Et.
    - pose proof (list_elem_of_lookup_2 _ _ _ Hn) as Hin. unfold is_alive in Ha. destruct (state n) eqn:Es; try done.
      + apply (HN d). pose proof (st_lookup _ _ _ Hn) as Hx. rewrite Es in Hx. exact Hx.
      + apply F1. right. by exists n.
      + apply F2. right. by exists n. }
  assert (Hcount : free_count U f' <= free_count U f) by (unfold free_count; rewrite Hnext; apply filter_count; by intros [k T] _; apply Hfree).
  assert (HL : length (nodes f') <= length ns) by (rewrite (compressed_length HC); apply survivors_le).
  assert (HPc : pending_count (nodes f') <= pending_count ns).
  { rewrite !pending_nodes. assert (E : length (in_state NodeState.Pending (nodes f')) = length (in_state NodeState.Pending (survivors ns))).
    { clear -HF. unfold in_state. induction HF as [|n n' l l' (_ & Es & _) _ IH]; [done|]. rewrite !filter_cons, Es. case_decide; simpl; congruence. }
    rewrite E. unfold in_state, survivors. clear. induction ns as [|n ns IH]; [done|]. rewrite !filter_cons. destruct (decide (is_alive n = true)); [rewrite filter_cons; case_decide; simpl; lia|]. case_decide; simpl; lia. }
  split_and!; [|done|unfold to_visit; fold ns; lia|unfold to_process; fold ns; lia]. split.
  - intros x k T Hx. destruct (Hold x k T Hx) as (d & n & Hd & Hdx & Ha & <- & <-). destruct (H1 d (node_key n) (obligation_tree_id n)) as (A1 & A2 & A3 & A4); [apply ids_lookup; by exists n|]. split_and!.
    + rewrite Hact, lookup_omap, lookup_remove_keys, decide_False by (by eapply Hlive). rewrite A1. done.
    + rewrite Hdd. intros [?|(m & Hm & Es & Ek)]; [done|]. apply list_elem_of_lookup in Hm as [e He]. rewrite (Huniq e d m n He Hd Ek) in He. rewrite Hd in He. injection He as <-. unfold is_alive in Ha. by rewrite Es in Ha.
    + by rewrite Hnext.
    + rewrite Herr, in_add_errors. intros [?|(m & Hm & Es & Ek & _)]; [done|]. apply list_elem_of_lookup in Hm as [e He]. rewrite (Huniq e d m n He Hd Ek) in He. rewrite Hd in He. injection He as <-. unfold is_alive in Ha. by rewrite Es in Ha.
  - intros k x Hk. rewrite Hact, lookup_omap in Hk. apply bind_Some in Hk as (i & Hk & Hx). apply remove_keys_subseteq in Hk. destruct (H2 k i Hk) as [T HT]. apply ids_lookup in HT as (n & Hn & <- & <-).
    destruct (compressed_new HC i n x Hn Hx) as (n' & Hn' & Eo & _ & Et & _). exists (obligation_tree_id n). apply ids_lookup. exists n'. unfold node_key. by rewrite Eo, Et.
  - intros T c Hc. rewrite Hnext. rewrite Herr in Hc. apply add_errors_dom in Hc as [[c' Hc']|(n & Hn & <-)]; [by eapply H3|]. apply list_elem_of_lookup in Hn as [i Hi]. destruct (H1 i (node_key n) (obligation_tree_id n)) as (_ & _ & ? & _); [apply ids_lookup; by exists n|done].
Qed.
End Ends.

(** *** Processing *)

Section Process.
Context {O K P E OUT : Type} `{Countable K} `{!ForestObligation O K} `{!ObligationProcessor P O E} `{!OutcomeTrait OUT O E}.
Implicit Types f : ObligationForest O K.

(** Processing keeps the key of an obligation; the subobligations have keys in [U]. *)
Definition key_preserving : Prop := forall (p : P) o o' r p', process_obligation p o = (o', r, p') -> as_cache_key o' = as_cache_key o.
Definition asks_within (U : gset K) : Prop := forall (p : P) o o' cs p' c, process_obligation p o = (o', ProcessResult.Changed cs, p') -> c ∈ cs -> as_cache_key c ∈ U.

(** The effect of a step: the counts go down, and by how much at least. *)
Definition counts_down (U : gset K) f f' (processed : bool) : Prop :=
  indexed f' /\ next_tree_id f' = next_tree_id f /\ to_visit U f' <= to_visit U f /\ to_process U f' + (if processed then 1 else 0) <= to_process U f.

Lemma counts_trans U f1 f2 f3 b1 b2 : counts_down U f1 f2 b1 -> counts_down U f2 f3 b2 -> counts_down U f1 f3 (b1 || b2).
Proof. intros (_ & ? & ? & ?) (? & ? & ? & ?). split_and!; [done|congruence|lia|]. destruct b1, b2; simpl in *; lia. Qed.

Lemma error_counts U index f trace f' : shape (nodes f) -> index < length (nodes f) -> indexed f -> error_forest index f = Ret (trace, f') -> counts_down U f f' false.
Proof.
  intros Hsh Hi HI. unfold error_forest. destruct (error_at_ok (nodes f) index Hsh Hi) as ([trace' ns'] & -> & _ & (Ee & _ & G2 & _)). cbn [obind fst snd] in *. intros [= <- <-].
  destruct (same_graph_counts U f ns' Ee) as (? & ? & ?); [intros j Hj; destruct (G2 j) as [Hx|[Hx _]]; congruence|done|]. split_and!; try done; lia.
Qed.

Lemma children_counts U children index f f' : running f -> index < length (nodes f) -> st (nodes f) index <> Some NodeState.Pending -> indexed f -> (forall c, c ∈ children -> as_cache_key c ∈ U) ->
  register_children children index f = Ret f' -> counts_down U f f' false.
Proof.
  revert f. induction children as [|c children IH]; intros f Hr Hi Hp HI HU; cbn [register_children]; [intros [= <-]; split_and!; try done; lia|]. intros HE. apply obind_ret in HE as ([ok f1] & Hreg & HE). apply obind_ret in HE as (f2 & Hf2 & HE).
  pose proof (register_cases _ _ _ _ _ Hreg) as HR. destruct (registered_indexed _ _ _ _ _ HR HI) as [HI1 Hn1]. destruct (registered_counts U _ _ _ _ _ HR HI) as [C1 C2]; [apply HU, elem_of_cons; by left|].
  assert (HC1 : counts_down U f f1 false) by (split_and!; [done|by apply Hn1|done|lia]).
  destruct (register_at_ok c (Some index) f (run_shape f Hr) (run_active f Hr)) as ([ok' f1'] & Hreg' & R1 & _ & R3 & _); [by intros p [= <-]|]. rewrite Hreg in Hreg'. injection Hreg' as <- <-. cbn [fst snd] in *.
  assert (HC2 : counts_down U f1 f2 false).
  { destruct ok; [injection Hf2 as <-; split_and!; try done; lia|]. apply obind_ret in Hf2 as ([trace f2'] & Hef & Hf2). injection Hf2 as <-. eapply error_counts; [done| |done|exact Hef]. lia. }
  destruct (register_children_ok [c] index f Hr Hi Hp) as (f2' & Hf2' & Hr2 & HL2 & Hs2). cbn [register_children] in Hf2'. rewrite Hreg in Hf2'. cbn [obind] in Hf2'. rewrite Hf2 in Hf2'. cbn [obind] in Hf2'. injection Hf2' as <-.
  apply (counts_trans U f f2 f' false false); [apply (counts_trans U f f1 f2 false false); done|]. apply (IH f2); [done|lia| |apply HC2|intros c' Hc'; apply HU, elem_of_cons; by right|done].
  destruct (Hs2 index Hi) as [-> | ->]; done.
Qed.

Lemma node_counts U index n (r r' : Round) : key_preserving -> (forall o cs p c, process_obligation (processor r) (obligation n) = (o, ProcessResult.Changed cs, p) -> c ∈ cs -> as_cache_key c ∈ U) -> running (forest r) -> nodes (forest r) !! index = Some n -> state n = NodeState.Pending -> indexed (forest r) ->
  process_node index n r = Ret r' -> exists b, counts_down U (forest r) (forest r') b /\ has_changed r' = has_changed r || b.
Proof.
  intros HK HU Hr Hn Hs HI. unfold process_node. destruct (process_obligation (processor r) (obligation n)) as [[o res] p] eqn:Ep. set (f := forest r) in *. pose proof (lookup_lt_Some _ _ _ Hn) as Hi.
  assert (Hids : forall s, ids (<[index := with_state s (with_obligation o n)]> (nodes f)) = ids (nodes f)).
  { intros s. unfold ids. rewrite list_fmap_insert. apply list_insert_id. rewrite list_lookup_fmap, Hn. simpl. unfold node_key. simpl. by rewrite (HK _ _ _ _ _ Ep). }
  assert (Hpend : st (nodes f) index = Some NodeState.Pending) by (rewrite (st_lookup _ _ _ Hn); by rewrite Hs).
  assert (Ew : with_obligation o n = with_state NodeState.Pending (with_obligation o n)) by (unfold with_state, with_obligation; simpl; by rewrite Hs).
  assert (Hst : forall s j, st (<[index := with_state s (with_obligation o n)]> (nodes f)) j = if decide (j = index) then Some s else st (nodes f) j).
  { intros s j. unfold st. case_decide as Ej; [subst; by rewrite list_lookup_insert_eq|by rewrite list_lookup_insert_ne]. }
  assert (Hset : forall s, counts_down U f (set_nodes (<[index := with_state s (with_obligation o n)]> (nodes f)) f) (negb (bool_decide (s = NodeState.Pending)))).
  { intros s. split_and!; [by apply indexed_ids|done| |]; unfold to_visit, to_process; rewrite (free_ids U f _ (Hids s)); cbn [nodes set_nodes]; [by rewrite length_insert|]. case_bool_decide as Eb; simpl.
    - assert (pending_count (<[index := with_state s (with_obligation o n)]> (nodes f)) <= pending_count (nodes f)); [|lia]. apply pending_le; [by rewrite length_insert|]. intros j. rewrite Hst. case_decide; [by subst|done].
    - assert (pending_count (<[index := with_state s (with_obligation o n)]> (nodes f)) < pending_count (nodes f)); [|lia]. apply (pending_lt _ _ index); [by rewrite length_insert| |done|]; [intros j|]; rewrite Hst; case_decide; congruence. }
  destruct res as [|children|err].
  - intros [= <-]. exists false. cbn [forest has_changed]. rewrite orb_false_r. split; [|done]. rewrite Ew. apply (Hset NodeState.Pending).
  - intros HE. apply obind_ret in HE as (f2 & HE & Hf2). injection Hf2 as <-. exists true. cbn [forest has_changed]. rewrite orb_true_r. split; [|done]. apply (counts_trans U f _ f2 true false (Hset NodeState.Success)).
    eapply (children_counts U children index); [by apply process_success_running| | |apply (Hset NodeState.Success)|intros c Hc; by eapply HU|exact HE].
    + cbn [nodes set_nodes]. by rewrite length_insert.
    + cbn [nodes set_nodes]. by rewrite Hst, decide_True.
  - intros HE. apply obind_ret in HE as ([trace f2] & HE & Hf2). injection Hf2 as <-. exists true. cbn [forest has_changed]. rewrite orb_true_r. split; [|done]. rewrite Ew in HE. pose proof (running_skel f _ Hr (eq_sym (skel_set_obligation (nodes f) index n o Hn))) as Hr1. rewrite Ew in Hr1.
    set (f1 := set_nodes (<[index := with_state NodeState.Pending (with_obligation o n)]> (nodes f)) f) in *. assert (Hi1 : index < length (nodes f1)) by (unfold f1; cbn [nodes set_nodes]; by rewrite length_insert).
    unfold error_forest in HE. destruct (error_at_ok (nodes f1) index (run_shape f1 Hr1) Hi1) as ([trace' ns'] & He & _ & (Ee & G1 & G2 & _)). rewrite He in HE. cbn [obind fst snd] in *. injection HE as <- <-.
    assert (Eids : ids ns' = ids (nodes f)) by (rewrite (ids_erase _ _ Ee); unfold f1; cbn [nodes set_nodes]; apply Hids).
    split_and!; [by apply (indexed_ids f ns')|done| |]; unfold to_visit, to_process; rewrite (free_ids U f1 ns') by (by apply ids_erase); unfold f1; rewrite (free_ids U f _ (Hids _)); cbn [nodes set_nodes].
    + rewrite (erase_length _ _ Ee). unfold f1. cbn [nodes set_nodes]. by rewrite length_insert.
    + assert (pending_count ns' < pending_count (nodes f)); [|lia]. apply (pending_lt _ _ index); [rewrite (erase_length _ _ Ee); unfold f1; cbn [nodes set_nodes]; by rewrite length_insert| |done|by rewrite G1].
      intros j Hj. destruct (G2 j) as [Hx|[Hx _]]; [|congruence]. rewrite Hj in Hx. unfold f1 in Hx. cbn [nodes set_nodes] in Hx. rewrite Hst in Hx. by case_decide; [subst|].
Qed.

Lemma nodes_counts U fuel index (r r' : Round) : key_preserving -> asks_within U -> running (forest r) -> indexed (forest r) -> process_nodes fuel index r = Ret r' ->
  exists b, counts_down U (forest r) (forest r') b /\ has_changed r' = has_changed r || b.
Proof.
  intros HK HU. revert index r. induction fuel as [|fuel IH]; intros index r Hr HI; cbn [process_nodes]; [done|]. destruct (nodes (forest r) !! index) as [n|] eqn:Hn.
  2:{ intros [= <-]. exists false. rewrite orb_false_r. split; [|done]. split_and!; try done; lia. }
  destruct (_ || _) eqn:Ec; [by apply IH|]. apply orb_false_iff in Ec as [Es _]. apply negb_false_iff, bool_decide_eq_true in Es. intros HE. apply obind_ret in HE as (r1 & H1 & HE).
  destruct (process_node_ok index n r Hr Hn Es) as (r1' & H1' & Hr1 & _). rewrite H1 in H1'. injection H1' as <-. destruct (node_counts U index n r r1 HK ltac:(intros; by eapply HU) Hr Hn Es HI H1) as (b1 & C1 & E1).
  destruct (IH (index + 1) r1 Hr1 (proj1 C1) HE) as (b2 & C2 & E2). exists (b1 || b2). split; [by eapply counts_trans|]. by rewrite E2, E1, orb_assoc.
Qed.

(** The invariant needs no finite set. *)
Lemma process_nodes_indexed fuel index (r r' : Round) : key_preserving -> running (forest r) -> indexed (forest r) -> process_nodes fuel index r = Ret r' -> indexed (forest r').
Proof.
  intros HK. revert index r. induction fuel as [|fuel IH]; intros index r Hr HI; cbn [process_nodes]; [done|]. destruct (nodes (forest r) !! index) as [n|] eqn:Hn; [|by intros [= <-]]. destruct (_ || _) eqn:Ec; [by apply IH|].
  apply orb_false_iff in Ec as [Es _]. apply negb_false_iff, bool_decide_eq_true in Es. intros HE. apply obind_ret in HE as (r1 & H1 & HE). destruct (process_node_ok index n r Hr Hn Es) as (r1' & H1' & Hr1 & _). rewrite H1 in H1'. injection H1' as <-.
  apply (IH (index + 1) r1 Hr1); [|done]. set (cs := match (process_obligation (processor r) (obligation n)).1.2 with ProcessResult.Changed cs => cs | _ => [] end).
  destruct (node_counts (list_to_set (as_cache_key <$> cs)) index n r r1 HK) as (b & [? _] & _); try done. intros o cs' p c Ep Hc. apply elem_of_list_to_set, list_elem_of_fmap. exists c. split; [done|]. unfold cs. by rewrite Ep.
Qed.

Lemma nodes_end U fuel index (r : Round) : key_preserving -> asks_within U -> running (forest r) -> indexed (forest r) -> to_visit U (forest r) < fuel + index -> 0 < fuel -> exists r', process_nodes fuel index r = Ret r'.
Proof.
  intros HK HU. revert index r. induction fuel as [|fuel IH]; intros index r Hr HI Hf H0; [lia|]. cbn [process_nodes].
  destruct (nodes (forest r) !! index) as [n|] eqn:Hn; [|by eexists]. assert (Hlt : index < to_visit U (forest r)) by (unfold to_visit; apply lookup_lt_Some in Hn; lia).
  destruct (_ || _) eqn:Ec; [apply IH; [done|done|lia|lia]|]. apply orb_false_iff in Ec as [Es _]. apply negb_false_iff, bool_decide_eq_true in Es.
  destruct (process_node_ok index n r Hr Hn Es) as (r1 & H1 & Hr1 & _). rewrite H1. cbn [obind]. destruct (node_counts U index n r r1 HK ltac:(intros; by eapply HU) Hr Hn Es HI H1) as (b1 & (HI1 & _ & C1 & _) & _). apply IH; [done|done|lia|lia].
Qed.

Lemma finish_counts U (r r' : Round) : running (forest r) -> indexed (forest r) -> finish_round r = Ret r' -> counts_down U (forest r) (forest r') false.
Proof.
  intros Hr HI HE. destruct (finish_round_ok r Hr) as (r2 & H2 & _ & ns1 & ns2 & p & out & (E1 & M1 & _) & (E2 & C1 & _) & _ & HN & HC & _). rewrite HE in H2. injection H2 as <-.
  assert (Ee : erase ns2 = erase (nodes (forest r))) by (by rewrite E2). destruct (same_graph_counts U (forest r) ns2 Ee) as (HI2 & V2 & P2).
  - intros j Hj. apply M1. destruct (C1 j) as [Hx|[[Hx|Hx] _]]; congruence.
  - done.
  - destruct (compressed_indexed U (set_nodes ns2 (forest r)) (forest r') HN HI2 HC) as (HI3 & N3 & V3 & P3). split_and!; [done|done|lia|lia].
Qed.

Lemma rounds_indexed fuel steps (r r' : Round) : key_preserving -> wf (forest r) -> indexed (forest r) -> process_rounds fuel steps r = Ret r' -> indexed (forest r').
Proof.
  intros HK. revert r. induction fuel as [|fuel IH]; intros r Hw HI; cbn [process_rounds]; [done|]. intros HE. apply obind_ret in HE as (r1 & H1 & HE).
  pose proof (process_nodes_ok steps (skippable_obligations (processor r) (obligation <$> nodes (forest r))) (mkRound (forest r) (processor r) (result r) false) (wf_running _ Hw)) as Hok. rewrite H1 in Hok. destruct Hok as [Hr1 _].
  pose proof (process_nodes_indexed steps _ (mkRound (forest r) (processor r) (result r) false) r1 HK (wf_running _ Hw) HI H1) as HI1. destruct (has_changed r1); [|by injection HE as <-].
  apply obind_ret in HE as (r2 & H2 & HE). destruct (finish_round_ok r1 Hr1) as (r2' & H2' & Hw2 & _). rewrite H2 in H2'. injection H2' as <-. apply (IH r2 Hw2); [|done]. by destruct (finish_counts ∅ r1 r2 Hr1 HI1 H2).
Qed.

Lemma rounds_end U fuel steps (r : Round) : key_preserving -> asks_within U -> wf (forest r) -> indexed (forest r) -> to_process U (forest r) < fuel -> to_visit U (forest r) < steps -> exists r', process_rounds fuel steps r = Ret r'.
Proof.
  intros HK HU. revert r. induction fuel as [|fuel IH]; intros r Hw HI Hf Hs; [lia|]. cbn [process_rounds]. set (r0 := mkRound (forest r) (processor r) (result r) false). set (index := skippable_obligations _ _).
  destruct (nodes_end U steps index r0 HK HU (wf_running _ Hw) HI) as [r1 H1]; [simpl; lia|lia|]. rewrite H1. cbn [obind].
  pose proof (process_nodes_ok steps index r0 (wf_running _ Hw)) as Hok. rewrite H1 in Hok. destruct Hok as [Hr1 _]. destruct (nodes_counts U steps index r0 r1 HK HU (wf_running _ Hw) HI H1) as (b & (HI1 & _ & V1 & P1) & Eb). simpl in Eb, V1, P1.
  destruct (has_changed r1) eqn:Eh; [|by eexists]. subst b. destruct (finish_round_ok r1 Hr1) as (r2 & H2 & Hw2 & _). rewrite H2. cbn [obind]. destruct (finish_counts U r1 r2 Hr1 HI1 H2) as (HI2 & _ & V2 & P2). apply IH; [done|done|lia|lia].
Qed.
End Process.

(** ** What the processor is asked about

    The cycles handed to [process_backedge], and the obligations on which a call of [process_obligations] gives up. *)

(** A loop that returns keeps an invariant. *)
Lemma fold_ret {A S} (step : S -> A -> outcome S) (I : S -> Prop) l s s' : fold_out step l s = Ret s' -> I s -> (forall x s s', x ∈ l -> I s -> step s x = Ret s' -> I s') -> I s'.
Proof.
  revert s. induction l as [|x l IH]; intros s; cbn [fold_out]; [by intros [= <-]|]. intros HE HI HS. apply obind_ret in HE as (s1 & H1 & HE). apply (IH s1 HE); [apply (HS x s); [apply elem_of_cons; by left|done|done]|].
  intros y t t' Hy. apply HS. apply elem_of_cons. by right.
Qed.

(** *** Cycles *)

Section Cycles.
Context {O : Type}.
Implicit Types ns : list (Node O).

(** Each node depends on the one before it. *)
Fixpoint linked ns (js : list nat) : Prop :=
  match js with
  | i :: ((k :: _) as js') => dep ns i k /\ linked ns js'
  | _ => True
  end.

(** ... and the first on the last. *)
Definition cycle_of ns (js : list nat) : Prop := linked ns js /\ exists first_node last_node, list.head js = Some first_node /\ list.last js = Some last_node /\ dep ns last_node first_node.

Definition obligations_at ns (js : list nat) : list O := omap (fun i => obligation <$> ns !! i) js.

Lemma linked_snoc ns js i : linked ns js -> (forall z, list.last js = Some z -> dep ns z i) -> linked ns (js ++ [i]).
Proof.
  induction js as [|x [|y js] IH]; intros HL HZ; [done|by split; [apply HZ|]|]. destruct HL as [? HL]. split; [done|]. apply IH; [done|]. intros z Hz. apply HZ. done.
Qed.
Lemma linked_suffix ns l1 l2 : linked ns (l1 ++ l2) -> linked ns l2.
Proof. induction l1 as [|x l1 IH]; [done|]. intros HL. apply IH. simpl in HL. destruct (l1 ++ l2); [done|]. by destruct HL. Qed.

Lemma rposition_drop x l r : rposition x l = Some r -> exists l1 l2, l = l1 ++ x :: l2 /\ drop r l = x :: l2.
Proof.
  unfold rposition. intros (q & Hq & ->)%fmap_Some. apply position_Some in Hq as (l1 & y & l2 & El & <- & Hy & _). apply bool_decide_eq_true in Hy. subst y.
  apply (f_equal reverse) in El. rewrite reverse_involutive, reverse_app, reverse_cons in El. rewrite <- app_assoc in El. simpl in El. exists (reverse l2), (reverse l1). split; [done|].
  rewrite El, length_app. cbn [length]. rewrite !length_reverse. by rewrite drop_app_length' by (rewrite length_reverse; lia).
Qed.

Lemma error_chain_erase fuel ns i stack trace s t ns' : error_chain fuel ns i stack trace = Ret (s, t, ns') -> erase ns' = erase ns.
Proof.
  revert ns i stack trace. induction fuel as [|fuel IH]; intros ns i stack trace; cbn [error_chain]; [done|]. intros HE. apply obind_ret in HE as (n & _ & HE). destruct (has_parent n).
  - apply obind_ret in HE as (p & _ & HE). rewrite (IH _ _ _ _ HE). apply erase_set_state.
  - injection HE as _ _ <-. apply erase_set_state.
Qed.
Lemma error_spread_erase fuel ns stack ns' : error_spread fuel ns stack = Ret ns' -> erase ns' = erase ns.
Proof.
  revert ns stack. induction fuel as [|fuel IH]; intros ns [|i stack]; cbn [error_spread]; try done; [by intros [= <-]|]. intros HE. apply obind_ret in HE as (n & _ & HE). destruct (bool_decide _); [|by eapply IH]. rewrite (IH _ _ HE). apply erase_set_state.
Qed.
Lemma error_at_erase ns i trace ns' : error_at ns i = Ret (trace, ns') -> erase ns' = erase ns.
Proof.
  unfold error_at. intros HE. apply obind_ret in HE as ([[s t] ns1] & H1 & HE). apply obind_ret in HE as (ns2 & H2 & HE). injection HE as _ <-. rewrite (error_spread_erase _ _ _ _ H2). by eapply error_chain_erase.
Qed.

Lemma linked_erase ns ns' js : erase ns = erase ns' -> linked ns' js -> linked ns js.
Proof. intros HE. induction js as [|i [|k js] IH]; [done|done|]. intros [Hd HL]. split; [by apply (dep_erase ns ns')|by apply IH]. Qed.

Lemma obligations_erase ns ns' js : erase ns = erase ns' -> obligations_at ns js = obligations_at ns' js.
Proof.
  intros HE. unfold obligations_at. induction js as [|i js IH]; [done|]. cbn [omap list_omap]. rewrite IH. destruct (ns' !! i) as [n'|] eqn:Hi.
  - destruct (erase_lookup _ _ _ _ HE Hi) as (n & -> & ->). done.
  - rewrite (lookup_ge_None_2 ns i); [done|]. rewrite (erase_length _ _ HE). by apply lookup_ge_None.
Qed.
End Cycles.

Section Search.
Context {P O E OUT : Type} `{!ObligationProcessor P O E} `{!OutcomeTrait OUT O E}.
Context (ns0 : list (Node O)) (Q : P -> Prop).
Context (HQ : forall p js, Q p -> cycle_of ns0 js -> Q (process_backedge p (obligations_at ns0 js)).2).

Lemma find_cycles_asks fuel stack index (x x' : list (Node O) * P * OUT) : erase x.1.1 = erase ns0 -> Q x.1.2 -> linked ns0 stack -> (forall z, list.last stack = Some z -> dep ns0 z index) ->
  find_cycles_from_node fuel stack index x = Ret x' -> erase x'.1.1 = erase ns0 /\ Q x'.1.2.
Proof using HQ.
  revert stack index x x'. induction fuel as [|fuel IH]; intros stack index [[ns p] out] x' HE Hp HL HZ; cbn [find_cycles_from_node fst snd] in *; [done|]. intros HR. apply obind_ret in HR as (n & Hn & HR).
  destruct (ns !! index) as [n'|] eqn:Hi; [|done]. injection Hn as ->. destruct (bool_decide (state n = NodeState.Success)); [|by injection HR as <-]. destruct (rposition index stack) as [r|] eqn:Er.
  - destruct (rposition_drop _ _ _ Er) as (l1 & l2 & El & Ed). assert (HC : cycle_of ns0 (index :: l2)).
    { split; [apply (linked_suffix _ l1); by rewrite <- El|]. destruct (list.last (index :: l2)) as [z|] eqn:Ez; [|by apply last_None in Ez]. exists index, z. split_and!; [done|done|]. apply HZ. rewrite El, last_app, Ez. done. }
    pose proof (HQ p _ Hp HC) as Hp'. rewrite Ed in HR. change (omap _ (index :: l2)) with (obligations_at ns (index :: l2)) in HR. rewrite (obligations_erase ns ns0 _ HE) in HR. destruct (process_backedge p (obligations_at ns0 (index :: l2))) as [[err|] p']; [|by injection HR as <-].
    apply obind_ret in HR as ([trace ns'] & H1 & HR). injection HR as <-. cbn [fst snd] in *. split; [|done]. by rewrite (error_at_erase _ _ _ _ H1).
  - apply obind_ret in HR as ([[ns' p'] out'] & H1 & HR). injection HR as <-. cbn [fst snd]. rewrite erase_set_state. refine (fold_ret _ (fun x => erase x.1.1 = erase ns0 /\ Q x.1.2) _ _ _ H1 _ _); [done|].
    intros d y y' Hd [Hy1 Hy2]. apply IH; [done|done|by apply linked_snoc|]. intros z. rewrite last_snoc. intros [= <-]. apply (dep_erase ns0 ns); [done|]. by exists n.
Qed.

Lemma process_cycles_asks ns p out ns' p' (out' : OUT) : ns = ns0 -> Q p -> process_cycles (ns, p, out) = Ret (ns', p', out') -> Q p'.
Proof using HQ.
  intros -> Hp. unfold process_cycles. intros HE. refine (proj2 (fold_ret _ (fun x => erase x.1.1 = erase ns0 /\ Q x.1.2) _ _ _ HE _ _)); [done|]. intros i y y' _ [H1 H2] HR. apply obind_ret in HR as (n & _ & HR).
  destruct (bool_decide _); [|by injection HR as <-]. eapply (find_cycles_asks _ [] i y y'); done.
Qed.
End Search.

(** *** The last round *)

Section LastRound.
Context {O K P E OUT : Type} `{Countable K} `{!ForestObligation O K} `{!ObligationProcessor P O E} `{!OutcomeTrait OUT O E}.

(** A pass over nodes on which the processor, starting in one state and ending in another, has nothing to say: each node
    is not pending, or does not need processing, or is processed with the answer [Unchanged], which may rewrite the
    obligation. *)
Inductive idle : P -> list (Node O) -> list (Node O) -> P -> Prop :=
| idle_nil p : idle p [] [] p
| idle_skip p n ns ns' p' : state n <> NodeState.Pending \/ needs_process_obligation p (obligation n) = false -> idle p ns ns' p' -> idle p (n :: ns) (n :: ns') p'
| idle_unchanged p n o q ns ns' p' : state n = NodeState.Pending -> needs_process_obligation p (obligation n) = true ->
    process_obligation p (obligation n) = (o, ProcessResult.Unchanged, q) -> idle q ns ns' p' -> idle p (n :: ns) (with_obligation o n :: ns') p'.

(** An answer [Unchanged] changes neither the obligation nor the processor. *)
Definition quiet : Prop := forall (p p' : P) (o o' : O), process_obligation p o = (o', ProcessResult.Unchanged, p') -> o' = o /\ p' = p.

Lemma idle_quiet p ns ns' p' : quiet -> idle p ns ns' p' -> ns' = ns /\ p' = p.
Proof.
  intros HQ. induction 1 as [|p n ns ns' p' _ _ [-> ->]|p n o q ns ns' p' _ _ Ho _ [-> ->]]; [done|done|]. destruct (HQ _ _ _ _ Ho) as [-> ->]. split; [|done]. f_equal. by destruct n.
Qed.

Lemma process_node_changed index n (r r' : Round (K := K) (OUT := OUT)) : process_node index n r = Ret r' -> has_changed r = true -> has_changed r' = true.
Proof.
  unfold process_node. destruct (process_obligation (processor r) (obligation n)) as [[o [|cs|err]] p]; intros HE HC; [by injection HE as <-|..].
  - by apply obind_ret in HE as (f & _ & [= <-]).
  - by apply obind_ret in HE as ([t f] & _ & [= <-]).
Qed.
Lemma process_nodes_changed fuel index (r r' : Round (K := K) (OUT := OUT)) : process_nodes fuel index r = Ret r' -> has_changed r = true -> has_changed r' = true.
Proof.
  revert index r. induction fuel as [|fuel IH]; intros index r; cbn [process_nodes]; [done|]. destruct (nodes (forest r) !! index) as [n|]; [|by intros [= <-]]. destruct (_ || _); [apply IH|].
  intros HE HC. apply obind_ret in HE as (r1 & H1 & HE). apply (IH (index + 1) r1 HE). by eapply process_node_changed.
Qed.

Lemma set_nodes_same (f : ObligationForest O K) : set_nodes (nodes f) f = f.
Proof. by destruct f. Qed.

(** A pass in which nothing changed is idle. *)
Lemma process_nodes_idle fuel index (r r' : Round (K := K) (OUT := OUT)) : process_nodes fuel index r = Ret r' -> has_changed r' = false ->
  result r' = result r /\ exists after, idle (processor r) (drop index (nodes (forest r))) after (processor r') /\ forest r' = set_nodes (take index (nodes (forest r)) ++ after) (forest r).
Proof.
  revert index r. induction fuel as [|fuel IH]; intros index r; cbn [process_nodes]; [done|]. destruct (nodes (forest r) !! index) as [n|] eqn:Hn.
  2:{ intros [= <-] _. split; [done|]. exists []. apply lookup_ge_None in Hn. rewrite drop_ge, take_ge, app_nil_r, set_nodes_same by done. split; [constructor|done]. }
  assert (HD : drop index (nodes (forest r)) = n :: drop (index + 1) (nodes (forest r))) by (rewrite Nat.add_1_r; by apply drop_S).
  assert (HT : take (index + 1) (nodes (forest r)) = take index (nodes (forest r)) ++ [n]) by (rewrite Nat.add_1_r; by apply take_S_r).
  destruct (_ || _) eqn:Ec.
  - intros HE HC. destruct (IH _ _ HE HC) as (HR & after & HI & HF). split; [done|]. exists (n :: after). rewrite HD. rewrite HT, <- app_assoc in HF. split; [|done]. apply idle_skip; [|done].
    apply orb_true_iff in Ec as [Ec|Ec]; apply negb_true_iff in Ec; [left; by apply bool_decide_eq_false in Ec|by right].
  - apply orb_false_iff in Ec as [E1%negb_false_iff%bool_decide_eq_true E2%negb_false_iff]. intros HE HC. apply obind_ret in HE as (r1 & H1 & HE).
    assert (HC1 : has_changed r1 = false) by (destruct (has_changed r1) eqn:Eh; [by rewrite (process_nodes_changed _ _ _ _ HE Eh) in HC|done]).
    unfold process_node in H1. destruct (process_obligation (processor r) (obligation n)) as [[o [|cs|err]] q] eqn:Ho.
    + injection H1 as <-. destruct (IH _ _ HE HC) as (HR & after & HI & HF). cbn [processor forest result set_nodes nodes] in *. split; [done|]. exists (with_obligation o n :: after). rewrite HD.
      pose proof (lookup_lt_Some _ _ _ Hn) as Hlt. rewrite drop_insert_lt in HI by lia. split; [by eapply idle_unchanged|].
      rewrite HF. rewrite Nat.add_1_r, (take_S_r _ _ (with_obligation o n)) by (by apply list_lookup_insert_eq). rewrite take_insert_ge by lia. by rewrite <- app_assoc.
    + apply obind_ret in H1 as (f & _ & HE1). by injection HE1 as <-.
    + apply obind_ret in H1 as ([t f] & _ & HE1). by injection HE1 as <-.
Qed.

(** A round that changed something, with what follows it. *)
Definition full_round (steps : nat) (r r' : Round (K := K) (OUT := OUT)) : Prop := exists r1,
  process_nodes steps (skippable_obligations (processor r) (obligation <$> nodes (forest r))) (mkRound (forest r) (processor r) (result r) false) = Ret r1
  /\ has_changed r1 = true /\ finish_round r1 = Ret r'.

Lemma rounds_last fuel steps (r r' : Round (K := K) (OUT := OUT)) : process_rounds fuel steps r = Ret r' ->
  exists r0, rtc (full_round steps) r r0 /\ result r' = result r0
    /\ exists after, idle (processor r0) (drop (skippable_obligations (processor r0) (obligation <$> nodes (forest r0))) (nodes (forest r0))) after (processor r')
       /\ forest r' = set_nodes (take (skippable_obligations (processor r0) (obligation <$> nodes (forest r0))) (nodes (forest r0)) ++ after) (forest r0).
Proof.
  revert r. induction fuel as [|fuel IH]; intros r; cbn [process_rounds]; [done|]. intros HE. apply obind_ret in HE as (r1 & H1 & HE). destruct (has_changed r1) eqn:Eh.
  - apply obind_ret in HE as (r2 & H2 & HE). destruct (IH r2 HE) as (r0 & HR & H0). exists r0. split; [|done]. econstructor; [|done]. by exists r1.
  - injection HE as <-. exists r. split; [constructor|]. by apply (process_nodes_idle _ _ _ _ H1 Eh).
Qed.

(** An idle pass of a quiet processor can be repeated. *)
Lemma idle_again steps index f p after p' (out : OUT) : idle p (drop index (nodes f)) after p' -> quiet -> length (nodes f) - index < steps ->
  process_nodes steps index (mkRound f p out false) = Ret (mkRound (K := K) f p out false).
Proof.
  revert index after. induction steps as [|steps IH]; intros index after HI HQ HL; [lia|]. cbn [process_nodes forest processor]. destruct (nodes f !! index) as [n|] eqn:Hn; [|done].
  pose proof (lookup_lt_Some _ _ _ Hn) as Hlt. assert (HD : drop index (nodes f) = n :: drop (index + 1) (nodes f)) by (rewrite Nat.add_1_r; by apply drop_S). rewrite HD in HI.
  inversion HI as [|? ? ? ? ? Hs Hi|? ? o q ? ? ? Hs Hneed Ho Hi]; subst.
  - replace (_ || _) with true; [eapply IH; [done|done|lia]|]. symmetry. apply orb_true_iff. destruct Hs as [Hs| ->]; [left; by rewrite bool_decide_eq_false_2|by right].
  - rewrite bool_decide_eq_true_2 by done. rewrite Hneed. cbn [negb orb]. unfold process_node. cbn [forest processor result has_changed]. rewrite Ho. destruct (HQ _ _ _ _ Ho) as [-> ->]. cbn [obind].
    replace (with_obligation (obligation n) n) with n by (by destruct n). rewrite list_insert_id, set_nodes_same by done. eapply IH; [done|done|lia].
Qed.
End LastRound.
