(* ===== verification/ForestTheorems.v ===== *)
(** * The obligation forest: theorems

    The states a client can bring a forest into, and what holds in all of them. *)
From Stdlib Require Import Lia.
From stdpp Require Import base numbers list gmap option relations.
From S2P Require Import Prelude ObligationForest ForestStates ForestProcess ForestEnds.
#[local] Open Scope nat_scope.
#[local] Open Scope rust_scope.

(** ** The forests of a client *)

Section Client.
Context {O K P E : Type} (OUT : Type) `{Countable K} `{!ForestObligation O K} `{!ObligationProcessor P O E} `{!OutcomeTrait OUT O E}.
Implicit Types f : ObligationForest O K.

Inductive forest_step : ObligationForest O K -> ObligationForest O K -> Prop :=
| step_register o f f' : register_obligation o f = Ret f' -> forest_step f f'
| step_process fuel (p p' : P) (out : OUT) f f' : process_obligations fuel p f = Ret (out, f', p') -> forest_step f f'
| step_to_errors (err : E) errors f f' : to_errors err f = Ret (errors, f') -> forest_step f f'.

Definition forest_reachable : ObligationForest O K -> Prop := rtc forest_step forest_new.

Lemma process_rounds_of fuel (p p' : P) (out : OUT) f f' : process_obligations fuel p f = Ret (out, f', p') -> exists r, process_rounds fuel fuel (mkRound f p outcome_new false) = Ret r /\ result r = out /\ forest r = f' /\ processor r = p'.
Proof. unfold process_obligations. intros HE. apply obind_ret in HE as (r & HE & [= <- <- <-]). by exists r. Qed.

Lemma wf_empty f : nodes f = [] -> active_cache f = ∅ -> wf f.
Proof.
  intros Hn Ha. destruct f as [ns dc ac nt ec]. cbn [nodes active_cache] in *. subst. destruct (wf_new (O := O) (K := K)) as [H1 H2 H3 H4 H5]. by split.
Qed.

Lemma step_wf f f' : wf f -> forest_step f f' -> wf f'.
Proof.
  intros Hw HS. destruct HS as [o f f' HE|fuel p p' out f f' HE|err errors f f' HE].
  - destruct (register_wf o f Hw) as (f1 & H1 & Hf1). congruence.
  - destruct (process_rounds_of _ _ _ _ _ _ HE) as (r & Hr & _ & <- & _). pose proof (process_rounds_ok fuel fuel (mkRound f p (outcome_new : OUT) false) Hw) as Hs. by rewrite Hr in Hs.
  - destruct (to_errors_ok err f Hw) as ([errs f1] & H1 & _ & H2 & H3 & _). rewrite HE in H1. injection H1 as <- <-. by apply wf_empty.
Qed.

Lemma reachable_wf f : forest_reachable f -> wf f.
Proof. apply (rtc_ind_r wf); [apply wf_new|]. intros f1 f2 _ HS Hw. by eapply step_wf. Qed.

Lemma step_supported f f' : accepting (P := P) (O := O) (E := E) -> wf f -> supported f (fun _ => False) -> forest_step f f' -> supported f' (fun _ => False).
Proof.
  intros HA Hw HS HStep. destruct HStep as [o f f' HE|fuel p p' out f f' HE|err errors f f' HE].
  - unfold register_obligation in HE. apply obind_ret in HE as ([ok f1] & HE & [= <-]). eapply registered_supported; [by eapply register_cases|done].
  - destruct (process_rounds_of _ _ _ _ _ _ HE) as (r & Hr & _ & <- & _). by eapply (rounds_supported fuel fuel (mkRound f p (outcome_new : OUT) false)).
  - destruct (to_errors_ok err f Hw) as ([errs f1] & H1 & _ & H2 & H3 & H4 & _). rewrite HE in H1. injection H1 as <- <-. cbn [fst snd] in *. destruct HS as (S1 & _). split; [by rewrite H4|]. split.
    + intros k i Hk. by rewrite H3, lookup_empty in Hk.
    + intros i n Hn. by rewrite H2, lookup_nil in Hn.
Qed.

Lemma reachable_supported f : accepting (P := P) (O := O) (E := E) -> forest_reachable f -> supported f (fun _ => False).
Proof.
  intros HA HR. enough (wf f /\ supported f (fun _ => False)) by tauto. revert f HR. apply (rtc_ind_r (fun f => wf f /\ supported f (fun _ => False))).
  - split; [apply wf_new|]. split_and!.
    + intros k Hk. by apply not_elem_of_empty in Hk.
    + intros k i Hk. cbn [active_cache forest_new] in Hk. by rewrite lookup_empty in Hk.
    + intros i n Hn. cbn [nodes forest_new] in Hn. by rewrite lookup_nil in Hn.
  - intros f1 f2 _ HS [Hw Hs]. split; [by eapply step_wf|by eapply step_supported].
Qed.

Lemma step_indexed f f' : key_preserving (P := P) (O := O) (E := E) -> wf f -> indexed f -> forest_step f f' -> indexed f'.
Proof.
  intros HK Hw HI HStep. destruct HStep as [o f f' HE|fuel p p' out f f' HE|err errors f f' HE].
  - unfold register_obligation in HE. apply obind_ret in HE as ([ok f1] & HE & [= <-]). by destruct (registered_indexed o None f ok f1 (register_cases _ _ _ _ _ HE) HI).
  - destruct (process_rounds_of _ _ _ _ _ _ HE) as (r & Hr & _ & <- & _). by eapply (rounds_indexed fuel fuel (mkRound f p (outcome_new : OUT) false)).
  - destruct (to_errors_ok err f Hw) as ([errs f1] & H1 & _ & H2 & H3 & _ & H5 & ns' & E' & _ & H6). rewrite HE in H1. injection H1 as <- <-. cbn [fst snd] in *. split.
    + intros i k T Hk. by rewrite H2 in Hk.
    + intros k i Hk. by rewrite H3, lookup_empty in Hk.
    + intros T c Hc. rewrite H5. rewrite H6 in Hc. apply add_errors_dom in Hc as [[c' Hc']|(n & Hn & <-)]; [by eapply (ix_errors f HI)|]. apply list_elem_of_lookup in Hn as [i Hi]. destruct (ix_node f HI i (node_key n) (obligation_tree_id n)) as (_ & _ & ? & _); [|done].
      rewrite <- (ids_erase _ _ E'). apply ids_lookup. by exists n.
Qed.

Lemma reachable_indexed f : key_preserving (P := P) (O := O) (E := E) -> forest_reachable f -> indexed f.
Proof.
  intros HK HR. enough (wf f /\ indexed f) by tauto. revert f HR. apply (rtc_ind_r (fun f => wf f /\ indexed f)).
  - split; [apply wf_new|]. split; cbn [nodes forest_new active_cache error_cache]; intros *; by rewrite ?lookup_nil, ?lookup_empty.
  - intros f1 f2 _ HS [Hw Hs]. split; [by eapply step_wf|by eapply step_indexed].
Qed.

Lemma free_bound U f : free_count U f <= size U * next_tree_id f.
Proof. unfold free_count. etransitivity; [apply length_filter|]. by rewrite length_prod, length_seq. Qed.
Lemma pending_bound (ns : list (Node O)) : pending_count ns <= length ns.
Proof. unfold pending_count, pending_indices. etransitivity; [apply length_filter|]. by rewrite length_seq. Qed.
End Client.

(** ** Concrete processors *)

(** Obligations that are their own keys, and an outcome that keeps everything. *)
#[export] Instance number_key : ForestObligation nat nat := fun o => o.
#[export] Instance full_outcome : OutcomeTrait (list nat * list (Error nat nat)) nat nat := {
  outcome_new := ([], []);
  record_completed out o := (out.1 ++ [o], out.2);
  record_error out e := (out.1, out.2 ++ [e])
}.

(** Answers from a table, the cycles kept. *)
Definition logging (answer : nat -> ProcessResult.t nat nat) (backedge : list nat -> option nat) : ObligationProcessor (list (list nat)) nat nat := {|
  skippable_obligations _ _ := 0;
  needs_process_obligation _ _ := true;
  process_obligation log o := (o, answer o, log);
  process_backedge log cycle := (backedge cycle, log ++ [cycle])
|}.

(** [1] needs [2] and [3], [2] needs [1], [3] is ambiguous, the others fail; cycles are accepted. *)
Definition demo_answer (o : nat) : ProcessResult.t nat nat :=
  match o with
  | 1 => ProcessResult.Changed [2; 3]
  | 2 => ProcessResult.Changed [1]
  | 3 => ProcessResult.Unchanged
  | 4 => ProcessResult.Changed []
  | _ => ProcessResult.Error o
  end.
#[export] Instance demo : ObligationProcessor unit nat nat := {
  skippable_obligations _ _ := 0;
  needs_process_obligation _ _ := true;
  process_obligation p o := (o, demo_answer o, p);
  process_backedge p _ := (None, p)
}.

Abbreviation demo_outcome := (list nat * list (Error nat nat))%type.

(** The forest after registering, and after a call. *)
Definition registered_roots (roots : list nat) : outcome (ObligationForest nat nat) := fold_out (fun f o => register_obligation o f) roots forest_new.
Definition demo_run : outcome (demo_outcome * ObligationForest nat nat * unit) := let* f := registered_roots [1; 4; 5] in process_obligations 20 tt f.

Definition demo_forest : ObligationForest nat nat :=
  mkForest [mkNode 1 NodeState.Waiting [1] false 0; mkNode 2 NodeState.Waiting [0] true 0; mkNode 3 NodeState.Pending [0] true 0]
    {[4]} {[1 := 0; 2 := 1; 3 := 2]} 3 {[2 := {[5]}]}.

Lemma demo_runs : demo_run = Ret ([4], [mkError 5 [5]], demo_forest, tt).
Proof. vm_compute. reflexivity. Qed.

Lemma roots_reachable roots (f f' : ObligationForest nat nat) : forest_reachable demo_outcome f -> fold_out (fun f o => register_obligation o f) roots f = Ret f' -> forest_reachable demo_outcome f'.
Proof.
  intros HR HE. refine (fold_ret _ _ _ _ _ HE HR _). intros o g g' _ Hg Ho. eapply rtc_r; [exact Hg|]. by eapply step_register.
Qed.
Lemma demo_reachable : forest_reachable demo_outcome demo_forest.
Proof.
  pose proof demo_runs as HD. unfold demo_run in HD. apply obind_ret in HD as (f & Hf & HD). eapply rtc_r; [|by eapply step_process]. eapply roots_reachable; [constructor|exact Hf].
Qed.

Lemma demo_accepting : accepting (P := unit) (O := nat) (E := nat).
Proof. done. Qed.
Lemma demo_keys : key_preserving (P := unit) (O := nat) (E := nat) (K := nat).
Proof. by intros p o o' r p' [= <- _ _]. Qed.
Lemma demo_asks : asks_within (P := unit) (O := nat) (E := nat) ({[1; 2; 3]} : gset nat).
Proof. intros p o o' cs p' c [= _ Ha _] Hc. do 5 (destruct o as [|o]; [simpl in Ha; try done; injection Ha as <-; rewrite ?elem_of_union, ?elem_of_singleton; repeat (apply elem_of_cons in Hc as [->|Hc]; [tauto|]); by apply elem_of_nil in Hc|]). done. Qed.
Lemma demo_quiet : quiet (P := unit) (O := nat) (E := nat).
Proof. intros p p' o o' Hp. by injection Hp as <- _ <-. Qed.

(** ** Theorems *)

Section Theorems.
Context {O K P E : Type} (OUT : Type) `{Countable K} `{!ForestObligation O K} `{!ObligationProcessor P O E} `{!OutcomeTrait OUT O E}.
Implicit Types f : ObligationForest O K.

(** C5: a forest built with [new] and changed by any sequence of [register_obligation], [process_obligations] and
    [to_errors] calls, with any processor, is well formed: its nodes are pending or waiting, dependents are places of
    nodes that are not pending, parents come first, the active cache points to nodes, and what waits depends on something
    pending, directly or through what waits.  Registering and turning everything into errors return, and processing never panics. *)
Theorem forest_reachable_safe f : forest_reachable (P := P) (E := E) OUT f ->
  wf f
  /\ (forall o, exists f', register_obligation o f = Ret f')
  /\ (forall err : E, exists errors f', to_errors err f = Ret (errors, f'))
  /\ (forall fuel p, process_obligations (OUT := OUT) fuel p f <> Panic).
Proof.
  intros HR. pose proof (reachable_wf OUT f HR) as Hw. split_and!; [done|..].
  - intros o. destruct (register_wf o f Hw) as (f' & ? & _). by exists f'.
  - intros err. destruct (to_errors_ok err f Hw) as ([errors f'] & ? & _). by exists errors, f'.
  - intros fuel p Hp. unfold process_obligations in Hp. pose proof (process_rounds_ok fuel fuel (mkRound f p (outcome_new : OUT) false) Hw) as Hs. by destruct (process_rounds fuel fuel _).
Qed.

(** C6: with a processor that accepts cycles, a key is in the done cache only if the processor has expanded an
    obligation with that key into subobligations that are all in the done cache themselves, up to the changes the
    processor makes to an obligation while it is pending; so what is reported as completed has no failed or pending
    part. *)
Theorem done_cache_supported f : accepting (P := P) (O := O) (E := E) -> forest_reachable (P := P) (E := E) OUT f -> done_supported (P := P) (E := E) (done_cache f).
Proof. intros HA HR. by destruct (reachable_supported OUT f HA HR). Qed.

(** C7: when processing keeps the key of an obligation and only asks for keys of a finite set, [process_obligations]
    returns: no tree registers a key twice, since it is then active, done or among the errors of the tree, and each
    round that is followed by another processes a pending node. *)
Theorem process_terminates (U : gset K) f p fuel : key_preserving (P := P) (O := O) (E := E) -> asks_within (P := P) (E := E) U -> forest_reachable (P := P) (E := E) OUT f ->
  2 * (length (nodes f) + size U * next_tree_id f) < fuel -> exists out f' p', process_obligations (OUT := OUT) fuel p f = Ret (out, f', p').
Proof.
  intros HK HU HR Hf. pose proof (free_bound U f). pose proof (pending_bound (nodes f)). destruct (rounds_end U fuel fuel (mkRound f p (outcome_new : OUT) false) HK HU) as [r Hr].
  - by apply (reachable_wf OUT).
  - by apply (reachable_indexed OUT).
  - unfold to_process. cbn [forest]. lia.
  - unfold to_visit. cbn [forest]. lia.
  - exists (result r), (forest r), (processor r). unfold process_obligations. by rewrite Hr.
Qed.

(** C22: [process_obligations] returns at a fixpoint.  The call consists of rounds in each of which something changed,
    each followed by the marking, the search for cycles and the compression, and of a last pass over the nodes after the
    skipped ones that is idle: whatever state the processor was in by then, each pending node did not need processing or
    was answered with [Unchanged], and the forest is left as this pass found it, up to obligations the processor rewrote.
    The nodes left are pending or waiting.  For a processor whose answer [Unchanged] changes neither the obligation nor
    its own state, calling [process_obligations] again at once returns an empty outcome and the same forest. *)
Theorem process_ends_stuck f fuel p out f' p' : forest_reachable (P := P) (E := E) OUT f -> process_obligations (OUT := OUT) fuel p f = Ret (out, f', p') ->
  (forall n, n ∈ nodes f' -> state n = NodeState.Pending \/ state n = NodeState.Waiting)
  /\ (exists r, rtc (full_round fuel) (mkRound f p outcome_new false) r /\ result r = out
       /\ let skipped := skippable_obligations (processor r) (obligation <$> nodes (forest r)) in
          exists after, idle (processor r) (drop skipped (nodes (forest r))) after p' /\ f' = set_nodes (take skipped (nodes (forest r)) ++ after) (forest r))
  /\ (quiet (P := P) (O := O) (E := E) -> forall fuel', length (nodes f') < fuel' -> process_obligations (OUT := OUT) fuel' p' f' = Ret (outcome_new, f', p')).
Proof.
  intros HR HE. assert (Hw : wf f') by (apply (reachable_wf (P := P) (E := E) OUT); eapply rtc_r; [exact HR|by eapply step_process]). destruct (process_rounds_of OUT _ _ _ _ _ _ HE) as (r' & Hr & Eo & Ef & Ep).
  destruct (rounds_last fuel fuel _ r' Hr) as (r & HF & Er & after & HI & HN). rewrite Eo in Er. rewrite Ef in HN. rewrite Ep in HI. split_and!.
  - intros n Hn. apply list_elem_of_lookup in Hn as [i Hi]. apply (wf_states _ Hw i). by apply st_lookup.
  - exists r. split; [done|]. split; [done|]. by exists after.
  - intros HQ fuel' Hl. destruct (idle_quiet _ _ _ _ HQ HI) as [-> Eq]. rewrite take_drop, set_nodes_same in HN. rewrite <- HN, <- Eq in HI. unfold process_obligations. destruct fuel' as [|fuel']; [lia|]. cbn [process_rounds forest processor result].
    rewrite (idle_again (S fuel') _ f' p' _ _ outcome_new HI HQ) by lia. done.
Qed.

(** C40: in a forest that a client can build, [to_errors] gives one error per pending node, in the order of the nodes,
    each with the obligations from the node to its root as the backtrace; the forest is left without nodes and with what
    was done, and every key that was waiting or pending is in the error cache of its tree. *)
Theorem to_errors_empties (err : E) f : forest_reachable (P := P) (E := E) OUT f -> exists errors f', to_errors err f = Ret (errors, f')
  /\ Forall2 (fun i e => error e = err /\ parent_chain (nodes f) i (backtrace e)) (filter (fun i => st (nodes f) i = Some NodeState.Pending) (seq 0 (length (nodes f)))) errors
  /\ nodes f' = [] /\ active_cache f' = ∅ /\ done_cache f' = done_cache f
  /\ (forall n, n ∈ nodes f -> as_cache_key (obligation n) ∈ default ∅ (error_cache f' !! obligation_tree_id n)).
Proof.
  intros HR. destruct (to_errors_ok err f (reachable_wf OUT f HR)) as ([errors f'] & HE & H1 & H2 & H3 & H4 & _ & ns' & E' & HF & H6). cbn [fst snd] in *. exists errors, f'. split_and!; try done.
  intros n Hn. rewrite H6. apply in_add_errors. right. apply list_elem_of_lookup in Hn as [i Hi]. destruct (erase_lookup _ _ _ _ E' Hi) as (n' & Hn' & En). exists n'. split; [by eapply list_elem_of_lookup_2|].
  rewrite list.Forall_forall in HF. split; [apply HF; by eapply list_elem_of_lookup_2|]. by rewrite En.
Qed.
End Theorems.

Section Graph.
Context {O : Type}.
Implicit Types ns : list (Node O).

(** C21: [error_at] returns the obligations from the node up to the root of its tree, and turns exactly the touched nodes
    into errors: the node and its ancestors, and what depends on them, directly or through nodes that were not errors
    before; at an error of an earlier call, other than an ancestor, the search stops.  Nothing else of the nodes changes.
    All touched nodes depend on the given one; where what depends on an error is an error already, as everywhere but in
    [process_cycles] after a rejected cycle, everything that depends on the node is an error in the end. *)
Theorem error_at_exact ns i : shape ns -> i < length ns ->
  exists trace ns', error_at ns i = Ret (trace, ns') /\ parent_chain ns i trace /\ erase ns' = erase ns
    /\ (forall j, (touched ns i j -> st ns' j = Some NodeState.Error) /\ (~ touched ns i j -> st ns' j = st ns j))
    /\ (forall j, touched ns i j -> reach ns i j)
    /\ (error_closed ns -> forall j, reach ns i j -> st ns' j = Some NodeState.Error).
Proof.
  intros Hsh Hi. destruct (error_at_ok ns i Hsh Hi) as ([trace ns'] & HE & Hch & HS). exists trace, ns'. split_and!; [done|done|apply HS|by eapply error_at_touches|apply touched_reach|].
  intros HC j. by apply (spreads_exact ns ns' i).
Qed.

(** [mark_successes] leaves pending nodes and errors as they are, and makes every other node waiting if it
    depends, directly or not, on a pending node, and a success if it does not. *)
Theorem mark_successes_exact ns : in_range ns -> error_closed ns -> (forall j, st ns j <> Some NodeState.Done) ->
  exists ns', mark_successes ns = Ret ns' /\ erase ns' = erase ns
    /\ forall j, (st ns j = Some NodeState.Pending \/ st ns j = Some NodeState.Error -> st ns' j = st ns j)
         /\ (st ns j = Some NodeState.Success \/ st ns j = Some NodeState.Waiting ->
             (leads ns j /\ st ns' j = Some NodeState.Waiting) \/ (~ leads ns j /\ st ns' j = Some NodeState.Success)).
Proof.
  intros HR HC HD. destruct (mark_successes_ok ns HR HC HD) as (ns' & HE & E' & M1 & M2 & M3 & M4 & _). exists ns'. split_and!; [done|done|]. intros j. split; [intros [Hj|Hj]; rewrite Hj; [by apply M1|by apply M2]|]. intros Hj.
  assert (Hlt : j < length ns') by (rewrite (erase_length _ _ E'); destruct Hj as [Hj|Hj]; by eapply st_lt). destruct (lookup_lt_is_Some_2 _ _ Hlt) as [n Hn]. pose proof (st_lookup _ _ _ Hn) as Hs.
  assert (Hnot : st ns j <> Some NodeState.Pending /\ st ns j <> Some NodeState.Error) by (destruct Hj as [-> | ->]; done). destruct (state n) eqn:En.
  - by apply M1, Hnot in Hs.
  - right. split; [|done]. intros Hl. assert (st ns' j = Some NodeState.Waiting) by (apply M4; tauto). congruence.
  - left. split; [|done]. apply M4 in Hs. by destruct Hs.
  - by apply M3 in Hs.
  - by apply M2, Hnot in Hs.
Qed.
End Graph.

Section Backedges.
Context {P O E OUT : Type} `{!ObligationProcessor P O E} `{!OutcomeTrait OUT O E}.

(** C23: [process_cycles] only asks the processor about real cycles: whatever holds of the processor and is kept by
    [process_backedge] on the obligations of nodes each of which depends on the one before, and the first on the last,
    holds after it. *)
Theorem backedges_are_cycles (Q : P -> Prop) (ns ns' : list (Node O)) p p' (out out' : OUT) :
  (forall p js, Q p -> cycle_of ns js -> Q (process_backedge p (obligations_at ns js)).2) -> Q p -> process_cycles (ns, p, out) = Ret (ns', p', out') -> Q p'.
Proof. intros HQ Hp HE. by eapply (process_cycles_asks ns Q HQ ns). Qed.
End Backedges.

(** What a call returns, with the keys that are done and the cycles the processor was asked about. *)
Definition observed (answer : nat -> ProcessResult.t nat nat) (backedge : list nat -> option nat) (roots : list nat) : outcome (demo_outcome * list nat * list (list nat)) :=
  let* f := registered_roots roots in
  let* '(out, f, log) := process_obligations (ObligationProcessor0 := logging answer backedge) 20 [] f in
  Ret (out, filter (fun k => k ∈ done_cache f) (seq 0 10), log).

Definition failing_tree (o : nat) : ProcessResult.t nat nat :=
  match o with 1 => ProcessResult.Changed [2; 3] | 2 => ProcessResult.Error 9 | 3 => ProcessResult.Changed [4] | _ => ProcessResult.Changed [] end.
Definition ring (o : nat) : ProcessResult.t nat nat :=
  match o with 1 => ProcessResult.Changed [2] | 2 => ProcessResult.Changed [3] | _ => ProcessResult.Changed [1] end.

(** Three runs that differ from the module's documentation.  After [2] has failed, [3] and [4] of the same tree are
    processed and completed.  A cycle of obligations [1], [2], [3], each requiring the next, is handed to
    [process_backedge] as [1], [3], [2].  When that cycle is rejected, its obligations are an error and are completed
    and cached as done as well. *)
Example forest_documented_runs :
  observed failing_tree (fun _ => None) [1] = Ret ([3; 4], [mkError 9 [2; 1]], [3; 4], [])
  /\ observed ring (fun _ => None) [1] = Ret ([1; 2; 3], [], [1; 2; 3], [[1; 3; 2]])
  /\ observed ring (fun _ => Some 7) [1] = Ret ([1; 2; 3], [mkError 7 [1]], [1; 2; 3], [[1; 3; 2]]).
Proof. vm_compute. repeat split. Qed.

(** ** Instances *)

Lemma demo_again : process_obligations 20 tt demo_forest = Ret ((([], []) : demo_outcome), demo_forest, tt).
Proof. vm_compute. reflexivity. Qed.

Lemma forest_reachable_safe_witness : exists f', register_obligation 7 demo_forest = Ret f'.
Proof. destruct (forest_reachable_safe demo_outcome demo_forest demo_reachable) as (_ & HR & _). apply HR. Defined.

Lemma done_cache_supported_witness : done_supported (P := unit) (O := nat) (E := nat) ({[4]} : gset nat).
Proof. exact (done_cache_supported demo_outcome demo_forest demo_accepting demo_reachable). Defined.

Lemma process_terminates_witness : exists out f' p', process_obligations (OUT := demo_outcome) 25 tt demo_forest = Ret (out, f', p').
Proof. apply (process_terminates demo_outcome {[1; 2; 3]} demo_forest tt 25 demo_keys demo_asks demo_reachable). vm_compute. lia. Defined.

Lemma process_ends_stuck_witness : process_obligations (OUT := demo_outcome) 4 tt demo_forest = Ret (outcome_new, demo_forest, tt).
Proof.
  destruct (process_ends_stuck demo_outcome demo_forest 20 tt _ _ _ demo_reachable demo_again) as (_ & _ & HQ). apply (HQ demo_quiet). apply Nat.lt_succ_diag_r.
Defined.

Lemma to_errors_empties_witness : exists errors f', to_errors 9 demo_forest = Ret (errors, f') /\ nodes f' = [] /\ 2 ∈ default ∅ (error_cache f' !! 0).
Proof.
  destruct (to_errors_empties demo_outcome 9 demo_forest demo_reachable) as (errors & f' & HE & _ & HN & _ & _ & HC). exists errors, f'. split_and!; [exact HE|exact HN|]. apply (HC (mkNode 2 NodeState.Waiting [0] true 0)). right. left.
Defined.

Lemma demo_running : running demo_forest.
Proof. apply wf_running, (reachable_wf demo_outcome), demo_reachable. Qed.

Lemma error_at_exact_witness : exists trace ns', error_at (nodes demo_forest) 2 = Ret (trace, ns') /\ st ns' 0 = Some NodeState.Error.
Proof.
  destruct (error_at_exact (nodes demo_forest) 2 (run_shape _ demo_running)) as (trace & ns' & HE & _ & _ & _ & _ & HS); [simpl; lia|]. exists trace, ns'. split; [exact HE|]. apply (HS (run_closed _ demo_running) 0). apply rtc_once. exists (mkNode 3 NodeState.Pending [0] true 0). split; [reflexivity|left].
Defined.

Lemma mark_successes_exact_witness : exists ns', mark_successes (nodes demo_forest) = Ret ns' /\ st ns' 2 = Some NodeState.Pending.
Proof.
  destruct (mark_successes_exact (nodes demo_forest) (proj1 (run_shape _ demo_running)) (run_closed _ demo_running) (run_states _ demo_running)) as (ns' & HE & _ & HS). exists ns'. split; [exact HE|]. rewrite (proj1 (HS 2)); [reflexivity|left; reflexivity].
Defined.

Definition ring_nodes : list (Node nat) := [mkNode 1 NodeState.Success [2] false 0; mkNode 2 NodeState.Success [0] true 0; mkNode 3 NodeState.Success [1] true 0].

Lemma ring_asked : process_cycles (ObligationProcessor0 := logging ring (fun _ => None)) (ring_nodes, [], (([], []) : demo_outcome)) = Ret (set_state 0 NodeState.Done (set_state 1 NodeState.Done (set_state 2 NodeState.Done ring_nodes)), [[1; 3; 2]], ([], [])).
Proof. vm_compute. reflexivity. Qed.

Lemma backedges_are_cycles_witness : exists js, [1; 3; 2] = obligations_at ring_nodes js /\ cycle_of ring_nodes js.
Proof.
  refine (backedges_are_cycles (ObligationProcessor0 := logging ring (fun _ => None)) (fun log => forall c, c ∈ log -> exists js, c = obligations_at ring_nodes js /\ cycle_of ring_nodes js) ring_nodes _ _ _ _ _ _ _ ring_asked [1; 3; 2] _).
  - intros log js Hl Hc c [Hc'|Hc']%elem_of_app; [apply Hl, Hc'|]. apply list_elem_of_singleton in Hc' as ->. exists js. split; [reflexivity|exact Hc].
  - intros c Hc. apply elem_of_nil in Hc. destruct Hc.
  - left.
Defined.
