(* ===== verification/SipHash.v ===== *)
(** * Stable hashing

    [src/rustc_stable_hash]: [SipHasher128] ([sip128.rs]), which collects what it is given in a buffer of eight words
    and a spill word and hashes it by the buffer, and [StableHasher] ([stable_hasher.rs]), which feeds a hasher the
    same bytes on every platform.

    The buffer is a list of 72 bytes, [None] where it is uninitialized.  The raw copies and reads are [Panic] where they
    would leave the memory they are given or read a word that is not initialized.  The target is a class: the
    byte order in which integers lie in memory, and the width of [usize]. *)
From Stdlib Require Import ZArith Lia.
From stdpp Require Import base numbers list option.
From S2P Require Import Prelude RustStr.
#[local] Open Scope Z_scope.
#[local] Open Scope rust_scope.

Class Platform : Type := { big_endian : bool; pointer_bytes : nat }.

Section Integers.
Context `{Platform}.

Definition wrap_usize (z : Z) : Z := z mod 256 ^ Z.of_nat pointer_bytes.
Definition from_ne_bytes (bs : list Z) : Z := from_le_bytes (if big_endian then reverse bs else bs).
Definition to_ne_bytes (n : nat) (v : Z) : list Z := if big_endian then reverse (to_le_bytes n v) else to_le_bytes n v.
Definition swap_bytes (n : nat) (v : Z) : Z := from_le_bytes (reverse (to_le_bytes n v)).
Definition to_le (n : nat) (v : Z) : Z := if big_endian then swap_bytes n v else v.
(** An integer as an unsigned one of [n] bytes. *)
Definition as_unsigned (n : nat) (v : Z) : Z := v mod 256 ^ Z.of_nat n.
End Integers.

Definition wrapping_add (a b : Z) : Z := wrap_u64 (a + b).
Definition wrapping_mul (a b : Z) : Z := wrap_u64 (a * b).
Definition rotate_left (x n : Z) : Z := Z.lor (wrap_u64 (Z.shiftl x n)) (Z.shiftr x (64 - n)).

(** ** The state *)

Record State : Type := mkState { v0 : Z; v2 : Z; v1 : Z; v3 : Z }.

Definition compress (state : State) : State :=
  let v0 := v0 state in let v1 := v1 state in let v2 := v2 state in let v3 := v3 state in
  let v0 := wrapping_add v0 v1 in
  let v2 := wrapping_add v2 v3 in
  let v1 := rotate_left v1 13 in
  let v1 := Z.lxor v1 v0 in
  let v3 := rotate_left v3 16 in
  let v3 := Z.lxor v3 v2 in
  let v0 := rotate_left v0 32 in
  let v2 := wrapping_add v2 v1 in
  let v0 := wrapping_add v0 v3 in
  let v1 := rotate_left v1 17 in
  let v1 := Z.lxor v1 v2 in
  let v3 := rotate_left v3 21 in
  let v3 := Z.lxor v3 v0 in
  let v2 := rotate_left v2 32 in
  mkState v0 v2 v1 v3.

Definition c_rounds (state : State) : State := compress state.
Definition d_rounds (state : State) : State := compress (compress (compress state)).

Definition xor_v0 (x : Z) (s : State) : State := mkState (Z.lxor (v0 s) x) (v2 s) (v1 s) (v3 s).
Definition xor_v1 (x : Z) (s : State) : State := mkState (v0 s) (v2 s) (Z.lxor (v1 s) x) (v3 s).
Definition xor_v2 (x : Z) (s : State) : State := mkState (v0 s) (Z.lxor (v2 s) x) (v1 s) (v3 s).
Definition xor_v3 (x : Z) (s : State) : State := mkState (v0 s) (v2 s) (v1 s) (Z.lxor (v3 s) x).

(** The body of each loop over words. *)
Definition hash_elem (state : State) (elem : Z) : State := xor_v0 elem (c_rounds (xor_v3 elem state)).

(** ** Memory *)

Definition ELEM_SIZE : nat := 8.
Definition BUFFER_CAPACITY : nat := 8.
Definition BUFFER_SIZE : nat := BUFFER_CAPACITY * ELEM_SIZE.
Definition BUFFER_WITH_SPILL_CAPACITY : nat := BUFFER_CAPACITY + 1.
Definition BUFFER_WITH_SPILL_SIZE : nat := BUFFER_WITH_SPILL_CAPACITY * ELEM_SIZE.
Definition BUFFER_SPILL_INDEX : nat := BUFFER_WITH_SPILL_CAPACITY - 1.

Abbreviation memory := (list (option Z)).

(** [ptr::copy_nonoverlapping] of [count] bytes from [src + from] to [dst + to]. *)
Definition copy_nonoverlapping (src : memory) (from : nat) (dst : memory) (to count : nat) : outcome memory :=
  if (from + count <=? length src)%nat && (to + count <=? length dst)%nat then
    Ret (take to dst ++ take count (drop from src) ++ drop (to + count) dst)
  else Panic.

Definition copy_nonoverlapping_small (src : memory) (from : nat) (dst : memory) (to count : nat) : outcome memory :=
  if (count =? 8)%nat then copy_nonoverlapping src from dst to 8
  else
    let i := 0%nat in
    let* '(dst, i) :=
      if (i + 3 <? count)%nat then let* dst := copy_nonoverlapping src (from + i) dst (to + i) 4 in Ret (dst, (i + 4)%nat) else Ret (dst, i) in
    let* '(dst, i) :=
      if (i + 1 <? count)%nat then let* dst := copy_nonoverlapping src (from + i) dst (to + i) 2 in Ret (dst, (i + 2)%nat) else Ret (dst, i) in
    if (i <? count)%nat then copy_nonoverlapping src (from + i) dst (to + i) 1 else Ret dst.

(** [ptr::write_bytes]. *)
Definition write_bytes (dst : memory) (to : nat) (b : Z) (count : nat) : outcome memory :=
  copy_nonoverlapping (repeat (Some b) count) 0 dst to count.

(** ** The hasher *)

Record SipHasher128 : Type := mkSip { nbuf : nat; buf : memory; state : State; processed : Z }.

Section Sip.
Context `{Platform}.

(** A word at byte [at_] of the memory, [assume_init]ed or [read_unaligned], in little-endian order. *)
Definition read_elem (m : memory) (at_ : nat) : outcome Z :=
  let* bs := unwrap (mapM id (take ELEM_SIZE (drop at_ m))) in
  let* _ := assert_that (length bs =? ELEM_SIZE)%nat in
  Ret (to_le ELEM_SIZE (from_ne_bytes bs)).

(** The first [n] words of the buffer. *)
Definition process_elems (b : memory) (n : nat) (s : State) : outcome State :=
  fold_out (fun s i => let* elem := read_elem b (i * ELEM_SIZE) in Ret (hash_elem s elem)) (seq 0 n) s.

Definition new_with_keys (key0 key1 : Z) : SipHasher128 :=
  mkSip 0 (repeat None BUFFER_SIZE ++ repeat (Some 0) ELEM_SIZE)
    (mkState (Z.lxor key0 0x736f6d6570736575) (Z.lxor key0 0x6c7967656e657261)
       (Z.lxor key1 (Z.lxor 0x646f72616e646f6d 0xee)) (Z.lxor key1 0x7465646279746573)) 0.
Definition sip_default : SipHasher128 := new_with_keys 0 0.

Definition short_write_process_buffer (bytes : list Z) (h : SipHasher128) : outcome SipHasher128 :=
  let LEN := length bytes in
  let* b := copy_nonoverlapping (Some <$> bytes) 0 (buf h) (nbuf h) LEN in
  let* s := process_elems b BUFFER_CAPACITY (state h) in
  let* b := copy_nonoverlapping b (BUFFER_SPILL_INDEX * ELEM_SIZE) b 0 (LEN - 1) in
  let n := if (LEN =? 1)%nat then 0%nat else (nbuf h + LEN - BUFFER_SIZE)%nat in
  Ret (mkSip n b s (wrap_usize (processed h + Z.of_nat BUFFER_SIZE))).

Definition short_write (bytes : list Z) (h : SipHasher128) : outcome SipHasher128 :=
  let LEN := length bytes in
  if (nbuf h + LEN <? BUFFER_SIZE)%nat then
    let* b := copy_nonoverlapping (Some <$> bytes) 0 (buf h) (nbuf h) LEN in
    Ret (mkSip (nbuf h + LEN) b (state h) (processed h))
  else short_write_process_buffer bytes h.

(** The words of the message itself, from [done] on. *)
Fixpoint elems_loop (elems_left : nat) (msg : memory) (done : nat) (s : State) : outcome (nat * State) :=
  match elems_left with
  | O => Ret (done, s)
  | S elems_left =>
      let* elem := read_elem msg done in
      elems_loop elems_left msg (done + ELEM_SIZE) (hash_elem s elem)
  end.

Definition slice_write_process_buffer (msg : list Z) (h : SipHasher128) : outcome SipHasher128 :=
  let src := Some <$> msg in
  let length := length msg in
  let valid_in_elem := (nbuf h mod ELEM_SIZE)%nat in
  let needed_in_elem := (ELEM_SIZE - valid_in_elem)%nat in
  let* b := copy_nonoverlapping_small src 0 (buf h) (nbuf h) needed_in_elem in
  let last := (nbuf h / ELEM_SIZE + 1)%nat in
  let* s := process_elems b last (state h) in
  let input_left := (length - needed_in_elem)%nat in
  let elems_left := (input_left / ELEM_SIZE)%nat in
  let extra_bytes_left := (input_left mod ELEM_SIZE)%nat in
  let* '(done, s) := elems_loop elems_left src needed_in_elem s in
  let* b := copy_nonoverlapping_small src done b 0 extra_bytes_left in
  Ret (mkSip extra_bytes_left b s (wrap_usize (processed h + Z.of_nat (nbuf h + done)))).

Definition slice_write (msg : list Z) (h : SipHasher128) : outcome SipHasher128 :=
  let length := length msg in
  if (nbuf h + length <? BUFFER_SIZE)%nat then
    let* b := if (length <=? 8)%nat then copy_nonoverlapping_small (Some <$> msg) 0 (buf h) (nbuf h) length
              else copy_nonoverlapping (Some <$> msg) 0 (buf h) (nbuf h) length in
    Ret (mkSip (nbuf h + length) b (state h) (processed h))
  else slice_write_process_buffer msg h.

Definition finish128_inner (n : nat) (b : memory) (s : State) (done : Z) : outcome (Z * Z) :=
  let last := (n / ELEM_SIZE)%nat in
  let* s := process_elems b last s in
  let* elem := if negb (n mod ELEM_SIZE =? 0)%nat then
                 let* b := write_bytes b n 0 (ELEM_SIZE - 1) in read_elem b (last * ELEM_SIZE)
               else Ret 0 in
  let length := wrap_usize (done + Z.of_nat n) in
  let b := Z.lor (Z.shiftl (Z.land length 0xff) 56) elem in
  let s := xor_v0 b (c_rounds (xor_v3 b s)) in
  let s := d_rounds (xor_v2 0xee s) in
  let l := Z.lxor (Z.lxor (Z.lxor (v0 s) (v1 s)) (v2 s)) (v3 s) in
  let s := d_rounds (xor_v1 0xdd s) in
  let h := Z.lxor (Z.lxor (Z.lxor (v0 s) (v1 s)) (v2 s)) (v3 s) in
  Ret (l, h).

Definition sip_finish (h : SipHasher128) : outcome (Z * Z) := finish128_inner (nbuf h) (buf h) (state h) (processed h).

(** [Hasher::finish]. *)
Definition sip_finish_u64 (h : SipHasher128) : outcome Z :=
  let* '(a, b) := finish128_inner (nbuf h) (buf h) (state h) (processed h) in
  Ret (wrapping_add (wrapping_mul a 3) b).

(** The integers, in the byte order of the platform. *)
Definition sip_write_u8 (i : Z) := short_write (to_ne_bytes 1 i).
Definition sip_write_u16 (i : Z) := short_write (to_ne_bytes 2 i).
Definition sip_write_u32 (i : Z) := short_write (to_ne_bytes 4 i).
Definition sip_write_u64 (i : Z) := short_write (to_ne_bytes 8 i).
Definition sip_write_usize (i : Z) := short_write (to_ne_bytes pointer_bytes i).
Definition sip_write_i8 (i : Z) := short_write (to_ne_bytes 1 (as_unsigned 1 i)).
Definition sip_write_i16 (i : Z) := short_write (to_ne_bytes 2 (as_unsigned 2 i)).
Definition sip_write_i32 (i : Z) := short_write (to_ne_bytes 4 (as_unsigned 4 i)).
Definition sip_write_i64 (i : Z) := short_write (to_ne_bytes 8 (as_unsigned 8 i)).
Definition sip_write_isize (i : Z) := short_write (to_ne_bytes pointer_bytes (as_unsigned pointer_bytes i)).
Definition sip_write (msg : list Z) := slice_write msg.
End Sip.

(** ** [StableHasher] *)

(** The traits [ExtendedHasher] and [Hasher], as far as [StableHasher] uses them. *)
Class ExtendedHasher (H Hash : Type) : Type := {
  hasher_write : list Z -> H -> outcome H;
  hasher_write_u8 : Z -> H -> outcome H;
  hasher_write_i8 : Z -> H -> outcome H;
  hasher_short_write : list Z -> H -> outcome H;
  hasher_finish : H -> outcome Hash;
  hasher_finish_u64 : H -> outcome Z
}.

#[export] Instance sip_extended `{Platform} : ExtendedHasher SipHasher128 (Z * Z) := {
  hasher_write := sip_write;
  hasher_write_u8 := sip_write_u8;
  hasher_write_i8 := sip_write_i8;
  hasher_short_write := short_write;
  hasher_finish := sip_finish;
  hasher_finish_u64 := sip_finish_u64
}.

Record StableHasher (H : Type) : Type := mkStable { stable_state : H }.
Arguments mkStable {H} stable_state.
Arguments stable_state {H} s.

Section Stable.
Context {H Hash : Type} `{!ExtendedHasher H Hash}.

Definition with_hasher (h : H) : StableHasher H := mkStable h.

(** A method that calls one of the state. *)
Definition on_state (f : H -> outcome H) (s : StableHasher H) : outcome (StableHasher H) := let* h := f (stable_state s) in Ret (mkStable h).

Definition stable_finish {W} (from : Hash -> W) (s : StableHasher H) : outcome W := let* h := hasher_finish (stable_state s) in Ret (from h).
Definition stable_finish_u64 (s : StableHasher H) : outcome Z := hasher_finish_u64 (stable_state s).

Definition stable_write (bytes : list Z) := on_state (hasher_write bytes).
Definition stable_write_u8 (i : Z) := on_state (hasher_write_u8 i).
Definition stable_write_u16 (i : Z) := on_state (hasher_short_write (to_le_bytes 2 i)).
Definition stable_write_u32 (i : Z) := on_state (hasher_short_write (to_le_bytes 4 i)).
Definition stable_write_u64 (i : Z) := on_state (hasher_short_write (to_le_bytes 8 i)).
Definition stable_write_u128 (i : Z) (s : StableHasher H) : outcome (StableHasher H) :=
  let* s := stable_write_u64 (wrap_u64 i) s in stable_write_u64 (wrap_u64 (Z.shiftr i 64)) s.
Definition stable_write_usize (i : Z) := on_state (hasher_short_write (to_le_bytes 8 (as_unsigned 8 i))).
Definition stable_write_i8 (i : Z) := on_state (hasher_write_i8 i).
Definition stable_write_i16 (i : Z) := on_state (hasher_short_write (to_le_bytes 2 (as_unsigned 2 i))).
Definition stable_write_i32 (i : Z) := on_state (hasher_short_write (to_le_bytes 4 (as_unsigned 4 i))).
Definition stable_write_i64 (i : Z) := on_state (hasher_short_write (to_le_bytes 8 (as_unsigned 8 i))).
Definition stable_write_i128 (i : Z) := on_state (hasher_write (to_le_bytes 16 (as_unsigned 16 i))).

Definition hash_value (h : H) (value : Z) : outcome H :=
  let* h := hasher_write_u8 0xff h in hasher_short_write (to_le_bytes 8 value) h.
Definition stable_write_isize (i : Z) :=
  let value := as_unsigned 8 i in
  on_state (fun h => if value <? 0xff then hasher_write_u8 (wrap_u8 value) h else hash_value h value).

(** [Hasher::write_str], which is provided. *)
Definition stable_write_str (bytes : list Z) (s : StableHasher H) : outcome (StableHasher H) :=
  let* s := stable_write bytes s in stable_write_u8 0xff s.
End Stable.
