(* ===== verification/SipHashTheorems.v ===== *)
(** * Stable hashing: theorems

    [SipHasher128] against SipHash-1-3 with 128 bits of output as its authors describe it, on a message that is given
    all at once; [StableHasher] against the byte stream its documentation promises. *)
From Stdlib Require Import ZArith Lia.
From stdpp Require Import base numbers list option.
From S2P Require Import Prelude RustStr SipHash.
#[local] Open Scope Z_scope.
#[local] Open Scope rust_scope.

(** ** The reference *)

(** One round, in the order of its description. *)
Definition sip_round (s : State) : State :=
  let v0 := v0 s in let v1 := v1 s in let v2 := v2 s in let v3 := v3 s in
  let v0 := (v0 + v1) mod 2 ^ 64 in let v1 := rotate_left v1 13 in let v1 := Z.lxor v1 v0 in let v0 := rotate_left v0 32 in
  let v2 := (v2 + v3) mod 2 ^ 64 in let v3 := rotate_left v3 16 in let v3 := Z.lxor v3 v2 in
  let v0 := (v0 + v3) mod 2 ^ 64 in let v3 := rotate_left v3 21 in let v3 := Z.lxor v3 v0 in
  let v2 := (v2 + v1) mod 2 ^ 64 in let v1 := rotate_left v1 17 in let v1 := Z.lxor v1 v2 in let v2 := rotate_left v2 32 in
  mkState v0 v2 v1 v3.

Definition sip_absorb (s : State) (word : Z) : State := xor_v0 word (sip_round (xor_v3 word s)).

(** The first [n] words of a message. *)
Fixpoint words (n : nat) (msg : list Z) : list Z :=
  match n with O => [] | S n => from_le_bytes (take 8 msg) :: words n (drop 8 msg) end.

(** The last word: what is left of the message, padded, and the length modulo 256. *)
Definition last_word (msg : list Z) : Z :=
  let rest := drop (length msg / 8 * 8) msg in
  from_le_bytes (rest ++ repeat 0 (7 - length rest) ++ [Z.of_nat (length msg) mod 256]).

Definition sip_init (k0 k1 : Z) : State :=
  mkState (Z.lxor k0 0x736f6d6570736575) (Z.lxor k0 0x6c7967656e657261) (Z.lxor (Z.lxor k1 0x646f72616e646f6d) 0xee) (Z.lxor k1 0x7465646279746573).

Definition sip_output (s : State) : Z := Z.lxor (v0 s) (Z.lxor (v1 s) (Z.lxor (v2 s) (v3 s))).
Definition sip_finalize (s : State) : State := Nat.iter 3 sip_round s.

Definition siphash128 (k0 k1 : Z) (msg : list Z) : Z * Z :=
  let s := foldl sip_absorb (sip_init k0 k1) (words (length msg / 8) msg ++ [last_word msg]) in
  let s := sip_finalize (xor_v2 0xee s) in
  let s' := sip_finalize (xor_v1 0xdd s) in
  (sip_output s, sip_output s').

(** ** Bytes *)

Abbreviation is_byte := (fun b => 0 <= b < 256).

Lemma bytes_to_le n v : Forall is_byte (to_le_bytes n v).
Proof. revert v. induction n as [|n IH]; intros v; cbn [to_le_bytes]; constructor; [apply Z.mod_pos_bound; lia|apply IH]. Qed.

Lemma to_from_le_bytes bs : Forall is_byte bs -> to_le_bytes (length bs) (from_le_bytes bs) = bs.
Proof.
  induction 1 as [|b bs Hb _ IH]; [done|]. cbn [length to_le_bytes from_le_bytes].
  replace ((b + 256 * from_le_bytes bs) mod 256) with b by (rewrite Z.mul_comm, Z.mod_add, Z.mod_small; lia).
  replace ((b + 256 * from_le_bytes bs) / 256) with (from_le_bytes bs) by (rewrite Z.mul_comm, Z.div_add, Z.div_small; lia). by rewrite IH.
Qed.

Lemma from_le_app a b : from_le_bytes (a ++ b) = from_le_bytes a + 256 ^ Z.of_nat (length a) * from_le_bytes b.
Proof. induction a as [|x a IH]; [cbn; lia|]. cbn [app from_le_bytes length]. rewrite IH, Nat2Z.inj_succ, Z.pow_succ_r by lia. lia. Qed.

Lemma from_le_zeros n : from_le_bytes (repeat 0 n) = 0.
Proof. induction n as [|n IH]; [done|]. cbn [repeat from_le_bytes]. by rewrite IH. Qed.

Lemma from_le_bound bs : Forall is_byte bs -> 0 <= from_le_bytes bs < 256 ^ Z.of_nat (length bs).
Proof. induction 1 as [|b bs Hb _ IH]; [cbn; lia|]. cbn [from_le_bytes length]. rewrite Nat2Z.inj_succ, Z.pow_succ_r by lia. lia. Qed.

Lemma to_le_mod n v : to_le_bytes n (v mod 256 ^ Z.of_nat n) = to_le_bytes n v.
Proof.
  revert v. induction n as [|n IH]; intros v; [done|]. cbn [to_le_bytes]. rewrite Nat2Z.inj_succ, Z.pow_succ_r by lia.
  pose proof (Z.pow_pos_nonneg 256 (Z.of_nat n) ltac:(lia) ltac:(lia)). rewrite Z.rem_mul_r by lia. f_equal.
  - rewrite Z.mul_comm, Z.mod_add, Z.mod_mod by lia. done.
  - rewrite Z.mul_comm, Z.div_add, (Z.div_small (v mod 256)) by (lia || (apply Z.mod_pos_bound; lia)). apply IH.
Qed.

Lemma to_le_add n k v : to_le_bytes (n + k) v = to_le_bytes n v ++ to_le_bytes k (v / 256 ^ Z.of_nat n).
Proof.
  revert v. induction n as [|n IH]; intros v; [cbn; by rewrite Z.div_1_r|]. cbn [Nat.add to_le_bytes app]. rewrite IH. f_equal. f_equal. f_equal.
  rewrite Nat2Z.inj_succ, Z.pow_succ_r, Z.div_div by lia. done.
Qed.

Lemma initialized {A} (l : list A) : mapM id (Some <$> l) = Some l.
Proof. apply mapM_Some_2. rewrite Forall2_fmap_l. induction l; by constructor. Qed.

(** ** Memory *)

Definition splice (d : memory) (at_ : nat) (bs : memory) : memory := take at_ d ++ bs ++ drop (at_ + length bs) d.

Lemma copy_ok src from dst to count : (from + count <= length src)%nat -> (to + count <= length dst)%nat ->
  copy_nonoverlapping src from dst to count = Ret (splice dst to (take count (drop from src))).
Proof.
  intros Hs Hd. unfold copy_nonoverlapping, splice. rewrite (proj2 (Nat.leb_le _ _) Hs), (proj2 (Nat.leb_le _ _) Hd). cbn [andb]. rewrite length_take, length_drop. do 4 f_equal. lia.
Qed.

Lemma splice_length d at_ bs : (at_ + length bs <= length d)%nat -> length (splice d at_ bs) = length d.
Proof. intros Hl. unfold splice. rewrite !length_app, length_take, length_drop. lia. Qed.

Lemma take_splice d at_ bs : (at_ + length bs <= length d)%nat -> take (at_ + length bs) (splice d at_ bs) = take at_ d ++ bs.
Proof. intros Hl. unfold splice. rewrite app_assoc. apply take_app_length'. rewrite length_app, length_take. lia. Qed.

Lemma splice_splice d at_ a b : (at_ + length a + length b <= length d)%nat -> splice (splice d at_ a) (at_ + length a) b = splice d at_ (a ++ b).
Proof.
  intros Hl. unfold splice at 1. rewrite take_splice by lia. unfold splice. rewrite length_app, <- !app_assoc. do 3 f_equal.
  rewrite !drop_app. rewrite length_take. rewrite (drop_ge (take _ _)) by (rewrite length_take; lia). rewrite drop_ge by lia. cbn [app]. rewrite drop_drop. f_equal. lia.
Qed.

Lemma splice_nil d at_ : splice d at_ [] = d.
Proof. unfold splice. cbn [app length]. rewrite Nat.add_0_r. apply take_drop. Qed.

Lemma copy_small_ok src from dst to count : (count <= 8)%nat -> (from + count <= length src)%nat -> (to + count <= length dst)%nat ->
  copy_nonoverlapping_small src from dst to count = Ret (splice dst to (take count (drop from src))).
Proof.
  intros Hc Hs Hd. assert (Hlen : forall n k, (from + n + k <= length src)%nat -> length (take k (drop (from + n) src)) = k) by (intros n k Hnk; rewrite length_take, length_drop; lia).
  assert (Happ : forall n k, take n (drop from src) ++ take k (drop (from + n) src) = take (n + k) (drop from src)) by (intros n k; by rewrite <- drop_drop, <- take_take_drop).
  assert (Hsp : forall n k, (from + n + k <= length src)%nat -> (to + n + k <= length dst)%nat ->
    copy_nonoverlapping src (from + n) (splice dst to (take n (drop from src))) (to + n) k = Ret (splice dst to (take (n + k) (drop from src)))).
  { intros n k Hn Hk. assert (El : length (take n (drop from src)) = n) by (rewrite length_take, length_drop; lia). rewrite copy_ok by (rewrite ?splice_length; lia). rewrite <- El at 2. rewrite splice_splice by (rewrite Hlen; lia). by rewrite Happ. }
  assert (H0 : Ret dst = Ret (splice dst to (take 0 (drop from src)))) by (by rewrite splice_nil).
  assert (Hfst : forall k, (from + k <= length src)%nat -> (to + k <= length dst)%nat -> copy_nonoverlapping src (from + 0) dst (to + 0) k = Ret (splice dst to (take k (drop from src)))) by (intros k ? ?; rewrite !Nat.add_0_r; apply copy_ok; lia).
  unfold copy_nonoverlapping_small.
  do 9 (destruct count as [|count]; [repeat first [progress cbn [Nat.eqb Nat.ltb Nat.leb Nat.add obind] | rewrite Hfst by lia | rewrite Hsp by lia]; first [done|apply copy_ok; lia]|]). lia.
Qed.

(** ** Words *)

Lemma words_app n k a b : length a = (8 * n)%nat -> words (n + k) (a ++ b) = words n a ++ words k b.
Proof.
  revert a. induction n as [|n IH]; intros a Ha; [by apply nil_length_inv in Ha; subst|]. cbn [Nat.add words app]. rewrite take_app_le, drop_app_le by lia. f_equal. apply IH. rewrite length_drop. lia.
Qed.

Lemma words_take n a : words n (take (8 * n) a) = words n a.
Proof.
  revert a. induction n as [|n IH]; intros a; [done|]. cbn [words]. rewrite take_take, Nat.min_l by lia. f_equal.
  rewrite <- (IH (drop 8 a)). f_equal. rewrite skipn_firstn_comm. f_equal. lia.
Qed.

Lemma compress_is_round s : compress s = sip_round s.
Proof. reflexivity. Qed.

Lemma hash_elem_absorb s w : hash_elem s w = sip_absorb s w.
Proof. reflexivity. Qed.

Section Sip.
Context `{Platform}.

Lemma to_le_from_ne bs : Forall is_byte bs -> to_le (length bs) (from_ne_bytes bs) = from_le_bytes bs.
Proof.
  intros Hb. unfold to_le, from_ne_bytes. destruct big_endian; [|done]. unfold swap_bytes. rewrite <- (length_reverse bs), to_from_le_bytes by (by apply Forall_reverse). by rewrite reverse_involutive.
Qed.

Lemma read_elem_ok m at_ bs : take 8 (drop at_ m) = Some <$> bs -> length bs = 8%nat -> Forall is_byte bs -> read_elem m at_ = Ret (from_le_bytes bs).
Proof. intros Hm Hl Hb. unfold read_elem, ELEM_SIZE. rewrite Hm, initialized. cbn [unwrap obind]. rewrite Hl. cbn [Nat.eqb assert_that obind]. rewrite <- Hl at 1. by rewrite to_le_from_ne. Qed.

Lemma take_Some n bs (m : memory) : take n m = Some <$> bs -> forall k, take k (take n m) = Some <$> take k bs.
Proof. intros -> k. by rewrite fmap_take. Qed.

(** [bs] lies at [at_]. *)
Definition holds (m : memory) (at_ : nat) (bs : list Z) : Prop := take (length bs) (drop at_ m) = Some <$> bs.

Lemma holds_take m at_ bs k : holds m at_ bs -> holds m at_ (take k bs).
Proof. unfold holds. intros Hm. rewrite fmap_take, <- Hm, take_take, length_take. f_equal. Qed.
Lemma holds_drop m at_ bs k : (k <= length bs)%nat -> holds m at_ bs -> holds m (at_ + k) (drop k bs).
Proof. unfold holds. intros Hk Hm. rewrite fmap_drop, <- Hm, length_drop, skipn_firstn_comm, drop_drop. done. Qed.
Lemma holds_app m at_ a b : holds m at_ a -> holds m (at_ + length a) b -> holds m at_ (a ++ b).
Proof. unfold holds. intros Ha Hb. rewrite length_app, fmap_app, <- Ha, <- Hb, <- drop_drop. symmetry. apply take_take_drop. Qed.

Lemma read_holds m at_ bs : holds m at_ bs -> (8 <= length bs)%nat -> Forall is_byte bs -> read_elem m at_ = Ret (from_le_bytes (take 8 bs)).
Proof.
  intros Hm Hl Hb. apply read_elem_ok; [|rewrite length_take; lia|by apply Forall_take]. pose proof (holds_take m at_ bs 8 Hm) as Ht. unfold holds in Ht. rewrite length_take, Nat.min_l in Ht by lia. done.
Qed.

Lemma process_from m n k bs s : holds m (k * 8) bs -> length bs = (8 * n)%nat -> Forall is_byte bs ->
  fold_out (fun s i => let* elem := read_elem m (i * ELEM_SIZE) in Ret (hash_elem s elem)) (seq k n) s = Ret (foldl sip_absorb s (words n bs)).
Proof.
  revert k bs s. induction n as [|n IH]; intros k bs s Hm Hl Hb; [done|]. cbn [seq fold_out words foldl]. unfold ELEM_SIZE at 1. rewrite (read_holds m (k * 8) bs Hm ltac:(lia) Hb). cbn [obind].
  apply (IH (S k) (drop 8 bs)); [|rewrite length_drop; lia|by apply Forall_drop]. replace (S k * 8)%nat with (k * 8 + 8)%nat by lia. apply holds_drop; [lia|done].
Qed.

Lemma process_elems_ok m n bs s : holds m 0 bs -> length bs = (8 * n)%nat -> Forall is_byte bs -> process_elems m n s = Ret (foldl sip_absorb s (words n bs)).
Proof. intros Hm Hl Hb. by apply (process_from m n 0 bs s). Qed.

Lemma elems_loop_ok m n done bs s : holds m done bs -> length bs = (8 * n)%nat -> Forall is_byte bs -> elems_loop n m done s = Ret ((done + 8 * n)%nat, foldl sip_absorb s (words n bs)).
Proof.
  revert done bs s. induction n as [|n IH]; intros done bs s Hm Hl Hb; cbn [elems_loop words foldl]; [by rewrite Nat.mul_0_r, Nat.add_0_r|]. rewrite (read_holds m done bs Hm ltac:(lia) Hb). cbn [obind].
  rewrite (IH (done + ELEM_SIZE)%nat (drop 8 bs)); [|by apply holds_drop; [lia|]|rewrite length_drop; lia|by apply Forall_drop]. do 2 f_equal. unfold ELEM_SIZE. lia.
Qed.

Lemma holds_msg bs : holds (Some <$> bs) 0 bs.
Proof. unfold holds. rewrite drop_0. apply firstn_all2. by rewrite length_fmap. Qed.

(** Copying what lies somewhere. *)
Lemma splice_holds d at_ a bs : holds d 0 a -> length a = at_ -> (at_ + length bs <= length d)%nat -> holds (splice d at_ (Some <$> bs)) 0 (a ++ bs).
Proof.
  intros Ha <- Hl. unfold holds in *. rewrite drop_0 in *. rewrite length_app. rewrite <- (length_fmap Some bs) at 1. rewrite take_splice by (rewrite length_fmap; lia). by rewrite fmap_app, Ha.
Qed.
Lemma splice_start d bs : (length bs <= length d)%nat -> holds (splice d 0 (Some <$> bs)) 0 bs.
Proof. intros Hl. apply (splice_holds d 0 [] bs); [|done|simpl; lia]. unfold holds. done. Qed.
End Sip.

(** ** The hasher and the bytes it has been given *)

Class PlatformOk `{Platform} : Prop := pointer_bytes_ok : (1 <= pointer_bytes <= 8)%nat.

Section Absorbed.
Context `{Platform}.

(** [m] has been written: whole words of it, [front], are in the state, and the rest, [tail], in the buffer. *)
Record absorbed (k0 k1 : Z) (h : SipHasher128) (m : list Z) : Prop := mkAbsorbed {
  ab_bytes : Forall is_byte m;
  ab_length : length (buf h) = BUFFER_WITH_SPILL_SIZE;
  ab_split : exists n front tail, m = front ++ tail /\ length front = (8 * n)%nat /\ nbuf h = length tail /\ (length tail < BUFFER_SIZE)%nat
    /\ holds (buf h) 0 tail /\ state h = foldl sip_absorb (sip_init k0 k1) (words n front) /\ processed h = wrap_usize (Z.of_nat (length front))
}.

Lemma new_absorbed k0 k1 : absorbed k0 k1 (new_with_keys k0 k1) [].
Proof. split; [constructor|done|]. exists 0%nat, [], []. split_and!; try done.
  - unfold BUFFER_SIZE. simpl. lia.
  - unfold new_with_keys. cbn [state words foldl]. unfold sip_init. by rewrite Z.lxor_assoc.
Qed.

Lemma wrap_usize_add a b : wrap_usize (wrap_usize a + b) = wrap_usize (a + b).
Proof. unfold wrap_usize. apply Zplus_mod_idemp_l. Qed.

Context (k0 k1 : Z).

(** The buffer takes the bytes. *)
Lemma buffered h m bs b : absorbed k0 k1 h m -> Forall is_byte bs -> (nbuf h + length bs < BUFFER_SIZE)%nat -> b = splice (buf h) (nbuf h) (Some <$> bs) ->
  absorbed k0 k1 (mkSip (nbuf h + length bs) b (state h) (processed h)) (m ++ bs).
Proof using.
  intros [Hm Hl (n & front & tail & -> & Hf & Hn & Ht & Hh & Hs & Hp)] Hb Hlt ->. unfold BUFFER_SIZE, BUFFER_WITH_SPILL_SIZE in *. simpl in Hl, Hlt, Ht. split; cbn [nbuf buf state processed].
  - by apply Forall_app.
  - rewrite splice_length; [done|]. rewrite length_fmap. lia.
  - exists n, front, (tail ++ bs). rewrite length_app, <- app_assoc. split_and!; [done|done|lia|unfold BUFFER_SIZE; simpl; lia| |done|done]. apply splice_holds; [done|done|lia].
Qed.

(** Some words of the buffered bytes are hashed, and the rest moved to the front of the buffer. *)
Lemma flushed h m bs k b s p : absorbed k0 k1 h m -> Forall is_byte bs ->
  forall n front tail, m = front ++ tail -> length front = (8 * n)%nat -> state h = foldl sip_absorb (sip_init k0 k1) (words n front) -> processed h = wrap_usize (Z.of_nat (length front)) ->
  (8 * k <= length tail + length bs < 8 * k + 64)%nat -> length b = BUFFER_WITH_SPILL_SIZE -> holds b 0 (drop (8 * k) (tail ++ bs)) ->
  s = foldl sip_absorb (state h) (words k (tail ++ bs)) -> p = wrap_usize (processed h + Z.of_nat (8 * k)) ->
  absorbed k0 k1 (mkSip (length tail + length bs - 8 * k) b s p) (m ++ bs).
Proof using.
  intros [Hm _ _] Hb n front tail -> Hf Hs Hp Hk Hl Hh -> ->. split; cbn [nbuf buf state processed]; [by apply Forall_app|done|].
  exists (n + k)%nat, (front ++ take (8 * k) (tail ++ bs)), (drop (8 * k) (tail ++ bs)). assert (Elt : length (take (8 * k) (tail ++ bs)) = (8 * k)%nat) by (rewrite length_take, length_app; lia). split_and!.
  - rewrite <- !app_assoc. f_equal. by rewrite take_drop.
  - rewrite length_app, Elt. lia.
  - by rewrite length_drop, length_app.
  - rewrite length_drop, length_app. unfold BUFFER_SIZE. simpl. lia.
  - done.
  - rewrite words_app, foldl_app, words_take by done. by rewrite <- Hs.
  - rewrite Hp, wrap_usize_add, length_app, Elt. f_equal. lia.
Qed.

Lemma short_write_ok h m bs : absorbed k0 k1 h m -> Forall is_byte bs -> (length bs <= 8)%nat -> exists h', short_write bs h = Ret h' /\ absorbed k0 k1 h' (m ++ bs).
Proof using.
  intros HA Hb HL. pose proof HA as [Hm Hl (n & front & tail & Em & Hf & Hn & Ht & Hh & Hs & Hp)]. unfold BUFFER_SIZE, BUFFER_WITH_SPILL_SIZE in *. simpl in Hl, Ht. unfold short_write.
  assert (Hcp : copy_nonoverlapping (Some <$> bs) 0 (buf h) (nbuf h) (length bs) = Ret (splice (buf h) (nbuf h) (Some <$> bs))).
  { rewrite copy_ok by (rewrite ?length_fmap; lia). rewrite drop_0, firstn_all2; [done|]. by rewrite length_fmap. }
  destruct (nbuf h + length bs <? BUFFER_SIZE)%nat eqn:Elt; propify.
  - rewrite Hcp. cbn [obind]. eexists. split; [reflexivity|]. by apply buffered.
  - unfold BUFFER_SIZE in Elt. simpl in Elt. unfold short_write_process_buffer. rewrite Hcp. cbn [obind]. set (b1 := splice (buf h) (nbuf h) (Some <$> bs)).
    assert (Hb1 : holds b1 0 (tail ++ bs)) by (apply splice_holds; [done|done|lia]). assert (Lb1 : length b1 = 72%nat) by (unfold b1; rewrite splice_length; [done|rewrite length_fmap; lia]).
    assert (Hbt : Forall is_byte (tail ++ bs)) by (apply Forall_app; split; [rewrite Em in Hm; apply Forall_app in Hm; by destruct Hm|done]).
    rewrite (process_elems_ok b1 BUFFER_CAPACITY (take 64 (tail ++ bs))); [|by apply holds_take|rewrite length_take, length_app; unfold BUFFER_CAPACITY; lia|by apply Forall_take]. cbn [obind].
    change (BUFFER_SPILL_INDEX * ELEM_SIZE)%nat with 64%nat. rewrite copy_ok by lia. cbn [obind]. set (b2 := splice b1 0 (take (length bs - 1) (drop 64 b1))). eexists. split; [reflexivity|].
    replace (if (length bs =? 1)%nat then 0%nat else (nbuf h + length bs - BUFFER_SIZE)%nat) with (length tail + length bs - 8 * 8)%nat by (unfold BUFFER_SIZE, BUFFER_CAPACITY, ELEM_SIZE; destruct (length bs =? 1)%nat eqn:E1; propify; lia).
    apply (flushed h m bs 8 b2 _ _ HA Hb n front tail); [done|done|done|done|lia| | |by rewrite words_take|done].
    + unfold b2. rewrite splice_length; [done|]. rewrite length_take, length_drop. lia.
    + pose proof (holds_drop b1 0 (tail ++ bs) 64 ltac:(rewrite length_app; lia) Hb1) as Hd. unfold holds in *. rewrite drop_0. change (0 + 64)%nat with 64%nat in Hd. change (8 * 8)%nat with 64%nat. rewrite <- Hd.
      unfold b2, splice. rewrite take_0. cbn [app]. rewrite take_app_le by (rewrite length_take, !length_drop, length_app; lia). rewrite take_take. f_equal. rewrite length_drop, length_app. lia.
Qed.

Lemma slice_write_ok h m msg : absorbed k0 k1 h m -> Forall is_byte msg -> exists h', slice_write msg h = Ret h' /\ absorbed k0 k1 h' (m ++ msg).
Proof using.
  intros HA Hb. pose proof HA as [Hm Hl (n & front & tail & Em & Hf & Hn & Ht & Hh & Hs & Hp)]. unfold BUFFER_SIZE, BUFFER_WITH_SPILL_SIZE in *. simpl in Hl, Ht. unfold slice_write.
  assert (Hall : forall k, (k <= length msg)%nat -> take k (drop 0 (Some <$> msg)) = Some <$> take k msg) by (intros k Hk; by rewrite drop_0, fmap_take).
  destruct (nbuf h + length msg <? BUFFER_SIZE)%nat eqn:Elt; propify; unfold BUFFER_SIZE in Elt; simpl in Elt.
  - assert (Hcp : (if (length msg <=? 8)%nat then copy_nonoverlapping_small (Some <$> msg) 0 (buf h) (nbuf h) (length msg) else copy_nonoverlapping (Some <$> msg) 0 (buf h) (nbuf h) (length msg)) = Ret (splice (buf h) (nbuf h) (Some <$> msg))).
    { destruct (length msg <=? 8)%nat eqn:E8; propify; [rewrite copy_small_ok by (rewrite ?length_fmap; lia)|rewrite copy_ok by (rewrite ?length_fmap; lia)]; by rewrite Hall, firstn_all2 by lia. }
    rewrite Hcp. cbn [obind]. eexists. split; [reflexivity|]. by apply buffered; [| |unfold BUFFER_SIZE; simpl; lia|].
  - unfold slice_write_process_buffer, ELEM_SIZE. set (needed := (8 - nbuf h mod 8)%nat). pose proof (Nat.div_mod_eq (nbuf h) 8) as Hdm. pose proof (Nat.mod_upper_bound (nbuf h) 8 ltac:(lia)) as Hmod. assert (Hnd : (needed <= length msg)%nat) by lia.
    rewrite copy_small_ok by (rewrite ?length_fmap; lia). cbn [obind]. rewrite Hall by done. set (b1 := splice (buf h) (nbuf h) (Some <$> take needed msg)).
    assert (Lnd : length (take needed msg) = needed) by (rewrite length_take; lia).
    assert (Hb1 : holds b1 0 (tail ++ take needed msg)) by (apply splice_holds; [done|done|lia]). assert (Lb1 : length b1 = 72%nat) by (unfold b1; rewrite splice_length; [done|rewrite length_fmap; lia]).
    assert (Hbt : Forall is_byte tail) by (rewrite Em in Hm; apply Forall_app in Hm; by destruct Hm).
    set (last := (nbuf h / 8 + 1)%nat). rewrite (process_elems_ok b1 last (tail ++ take needed msg)); [|done|rewrite length_app; lia|by apply Forall_app; split; [|apply Forall_take]]. cbn [obind].
    set (left := (length msg - needed)%nat). pose proof (Nat.div_mod_eq left 8) as Hlm. pose proof (Nat.mod_upper_bound left 8 ltac:(lia)) as Hlmod.
    assert (Hrest : holds (Some <$> msg) needed (drop needed msg)) by (apply (holds_drop (Some <$> msg) 0 msg needed Hnd), holds_msg).
    rewrite (elems_loop_ok (Some <$> msg) (left / 8) needed (take (8 * (left / 8)) (drop needed msg))); [|by apply holds_take|rewrite length_take, length_drop; lia|by apply Forall_take, Forall_drop]. cbn [obind].
    set (used := (needed + 8 * (left / 8))%nat). rewrite copy_small_ok by (rewrite ?length_fmap; lia). cbn [obind]. eexists. split; [reflexivity|].
    assert (Eused : (8 * (last + left / 8) = length tail + used)%nat) by lia. assert (Eall : drop (8 * (last + left / 8)) (tail ++ msg) = drop used msg) by (rewrite Eused, drop_app, drop_ge by lia; cbn [app]; f_equal; lia).
    replace (left mod 8)%nat with (length tail + length msg - 8 * (last + left / 8))%nat by lia.
    apply (flushed h m msg (last + left / 8) _ _ _ HA Hb n front tail); [done|done|done|done|lia| | | |].
    + rewrite splice_length; [done|]. rewrite length_take, length_drop, length_fmap. lia.
    + rewrite Eall. rewrite firstn_all2 by (rewrite length_drop, length_fmap; lia). rewrite <- fmap_drop. apply splice_start. rewrite length_drop. lia.
    + rewrite <- foldl_app. f_equal. rewrite words_take. rewrite <- words_app by (rewrite length_app; lia). by rewrite <- app_assoc, take_drop.
    + by rewrite Hn, Eused.
Qed.
End Absorbed.

(** ** Finishing *)

Lemma lor_above k e x : 0 <= k -> 0 <= e < 2 ^ k -> Z.lor (Z.shiftl x k) e = e + 2 ^ k * x.
Proof.
  intros Hk He. rewrite Z.shiftl_mul_pow2 by lia. assert (HL : Z.land (x * 2 ^ k) e = 0).
  { apply Z.bits_inj_0. intros i. rewrite Z.land_spec. destruct (decide (i < k)) as [Hi|Hi]; [by rewrite Z.mul_pow2_bits_low|]. destruct (decide (e = 0)) as [->|Hz]; [by rewrite Z.bits_0, andb_false_r|].
    rewrite (Z.bits_above_log2 e), andb_false_r; [done|lia|]. apply Z.lt_le_trans with k; [apply Z.log2_lt_pow2; lia|lia]. }
  rewrite <- Z.lxor_lor, <- Z.add_nocarry_lxor by done. lia.
Qed.

Lemma last_word_is rest len : (length rest <= 7)%nat -> Forall is_byte rest ->
  Z.lor (Z.shiftl (len mod 256) 56) (from_le_bytes rest) = from_le_bytes (rest ++ repeat 0 (7 - length rest) ++ [len mod 256]).
Proof.
  intros Hr Hb. pose proof (from_le_bound rest Hb) as Hbd. assert (Hp : 256 ^ Z.of_nat (length rest) <= 256 ^ 7) by (apply Z.pow_le_mono_r; lia). change (256 ^ 7) with (2 ^ 56) in Hp.
  rewrite lor_above by lia. rewrite !from_le_app, from_le_zeros, repeat_length. cbn [from_le_bytes]. rewrite Z.mul_0_r, Z.add_0_l, Z.add_0_r, Z.mul_assoc, <- Z.pow_add_r by lia. replace (Z.of_nat (length rest) + Z.of_nat (7 - length rest)) with 7 by lia. done.
Qed.

Lemma d_rounds_finalize s : d_rounds s = sip_finalize s.
Proof. reflexivity. Qed.
Lemma output_is s : Z.lxor (Z.lxor (Z.lxor (v0 s) (v1 s)) (v2 s)) (v3 s) = sip_output s.
Proof. unfold sip_output. by rewrite !Z.lxor_assoc. Qed.

(** The last part of [finish128_inner]. *)
Lemma finalized_ok s :
  (let s := d_rounds (xor_v2 0xee s) in
   let l := Z.lxor (Z.lxor (Z.lxor (v0 s) (v1 s)) (v2 s)) (v3 s) in
   let s := d_rounds (xor_v1 0xdd s) in
   let h := Z.lxor (Z.lxor (Z.lxor (v0 s) (v1 s)) (v2 s)) (v3 s) in
   Ret (l, h)) = Ret (let s := sip_finalize (xor_v2 0xee s) in let s' := sip_finalize (xor_v1 0xdd s) in (sip_output s, sip_output s')).
Proof. cbv zeta. rewrite (output_is (d_rounds (xor_v2 0xee s))), (output_is (d_rounds (xor_v1 0xdd (d_rounds (xor_v2 0xee s))))), (d_rounds_finalize (xor_v1 _ _)), (d_rounds_finalize (xor_v2 _ _)). reflexivity. Qed.

Section Finish.
Context {P : Platform} {POk : PlatformOk}.

Lemma wrap_usize_byte z : Z.land (wrap_usize z) 0xff = z mod 256.
Proof using POk.
  change 0xff with (Z.ones 8). rewrite Z.land_ones by lia. change (2 ^ 8) with 256. unfold wrap_usize. pose proof pointer_bytes_ok as Hp. apply Z.mod_mod_divide.
  exists (256 ^ (Z.of_nat pointer_bytes - 1)). rewrite Z.mul_comm, <- Z.pow_succ_r by lia. f_equal. lia.
Qed.

Lemma sip_finish_ok k0 k1 h m : absorbed k0 k1 h m -> sip_finish h = Ret (siphash128 k0 k1 m).
Proof using POk.
  intros [Hm Hl (n & front & tail & -> & Hf & Hn & Ht & Hh & Hs & Hp)]. unfold BUFFER_SIZE, BUFFER_WITH_SPILL_SIZE in *. simpl in Hl, Ht. apply Forall_app in Hm as [_ Hm]. unfold sip_finish, finish128_inner, ELEM_SIZE. rewrite Hn.
  pose proof (Nat.div_mod_eq (length tail) 8) as Hdm. pose proof (Nat.mod_upper_bound (length tail) 8 ltac:(lia)) as Hmod. set (last := (length tail / 8)%nat) in *.
  rewrite (process_elems_ok (buf h) last (take (8 * last) tail)); [|by apply holds_take|rewrite length_take; lia|by apply Forall_take]. cbn [obind]. rewrite words_take.
  set (rest := drop (8 * last) tail). assert (Lr : length rest = (length tail mod 8)%nat) by (unfold rest; rewrite length_drop; lia). assert (Hrest : Forall is_byte rest) by (by apply Forall_drop).
  assert (He : (if negb (length tail mod 8 =? 0)%nat then let* b := write_bytes (buf h) (length tail) 0 (8 - 1) in read_elem b (last * 8) else Ret 0) = Ret (from_le_bytes rest)).
  { destruct (length tail mod 8 =? 0)%nat eqn:Er; propify; cbn [negb]; [rewrite Er in Lr; by apply nil_length_inv in Lr as ->|]. unfold write_bytes. rewrite copy_ok by (rewrite ?repeat_length; lia). cbn [obind].
    change (take (8 - 1) (drop 0 (repeat (Some 0) (8 - 1)))) with (Some <$> repeat 0 7). assert (Hz : holds (splice (buf h) (length tail) (Some <$> repeat 0 7)) 0 (tail ++ repeat 0 7)) by (apply splice_holds; [done|done|rewrite repeat_length; lia]).
    apply (holds_drop _ 0 _ (8 * last)) in Hz; [|rewrite length_app; lia]. rewrite drop_app_le in Hz by lia. fold rest in Hz. change (0 + 8 * last)%nat with (8 * last)%nat in Hz. replace (last * 8)%nat with (8 * last)%nat by lia.
    rewrite (read_holds _ _ _ Hz); [|rewrite length_app, repeat_length, Lr; lia|apply Forall_app; split; [done|apply Forall_forall; intros x Hx; apply repeat_spec in Hx; lia]]. f_equal. rewrite take_app, (firstn_all2 rest) by lia.
    rewrite from_le_app. assert (Hzz : forall k, from_le_bytes (take k (repeat 0 7)) = 0) by (intros k; do 8 (destruct k as [|k]; [done|]); done). rewrite Hzz. lia. }
  rewrite He. cbn [obind]. assert (Elen : (length (front ++ tail) / 8)%nat = (n + last)%nat) by (rewrite length_app, Hf, Nat.mul_comm, Nat.div_add_l by lia; done).
  assert (Eb : Z.lor (Z.shiftl (Z.land (wrap_usize (processed h + Z.of_nat (length tail))) 255) 56) (from_le_bytes rest) = last_word (front ++ tail)).
  { rewrite Hp, wrap_usize_add, wrap_usize_byte, <- Nat2Z.inj_add, <- length_app. unfold last_word. rewrite Elen. replace (drop ((n + last) * 8) (front ++ tail)) with rest; [apply last_word_is; [lia|done]|].
    unfold rest. rewrite drop_app, (drop_ge front) by lia. cbn [app]. f_equal. lia. }
  rewrite Eb, Hs, <- foldl_app, <- words_app by done. unfold siphash128. rewrite Elen, foldl_app. cbn [foldl]. generalize (foldl sip_absorb (sip_init k0 k1) (words (n + last) (front ++ tail))) as s0, (last_word (front ++ tail)) as w. intros s0 w. apply (finalized_ok (hash_elem s0 w)).
Qed.

Definition combined (hash : Z * Z) : Z := (hash.1 * 3 + hash.2) mod 2 ^ 64.

Lemma sip_finish_u64_ok k0 k1 h m : absorbed k0 k1 h m -> sip_finish_u64 h = Ret (combined (siphash128 k0 k1 m)).
Proof using POk.
  intros HA. apply sip_finish_ok in HA. unfold sip_finish in HA. unfold sip_finish_u64. rewrite HA. destruct (siphash128 k0 k1 m) as [a b]. cbn [obind]. f_equal. unfold combined, wrapping_add, wrapping_mul, wrap_u64. cbn [fst snd]. apply Zplus_mod_idemp_l.
Qed.
End Finish.

(** ** Calls of [SipHasher128] *)

Inductive SipCall : Type :=
| SipUnsigned (size : nat) (i : Z)   (* [write_u8], ..., [write_u64] *)
| SipSigned (size : nat) (i : Z)
| SipUsize (i : Z)
| SipIsize (i : Z)
| SipShort (bytes : list Z)
| SipSlice (msg : list Z).

(** The calls there are. *)
Definition sip_call_ok (c : SipCall) : Prop :=
  match c with
  | SipUnsigned size _ | SipSigned size _ => size ∈ [1; 2; 4; 8]%nat
  | SipUsize _ | SipIsize _ => True
  | SipShort bytes => (length bytes <= 8)%nat /\ Forall is_byte bytes
  | SipSlice msg => Forall is_byte msg
  end.

Section Calls.
Context {P : Platform}.

Definition sip_call (c : SipCall) (h : SipHasher128) : outcome SipHasher128 :=
  match c with
  | SipUnsigned size i =>
      match size with 1 => sip_write_u8 i h | 2 => sip_write_u16 i h | 4 => sip_write_u32 i h | 8 => sip_write_u64 i h | _ => Panic end%nat
  | SipSigned size i =>
      match size with 1 => sip_write_i8 i h | 2 => sip_write_i16 i h | 4 => sip_write_i32 i h | 8 => sip_write_i64 i h | _ => Panic end%nat
  | SipUsize i => sip_write_usize i h
  | SipIsize i => sip_write_isize i h
  | SipShort bytes => short_write bytes h
  | SipSlice msg => sip_write msg h
  end.

(** The bytes of a call: integers in the byte order of the platform. *)
Definition sip_bytes (c : SipCall) : list Z :=
  match c with
  | SipUnsigned size i | SipSigned size i => to_ne_bytes size i
  | SipUsize i | SipIsize i => to_ne_bytes pointer_bytes i
  | SipShort bytes => bytes
  | SipSlice msg => msg
  end.

Lemma to_ne_length n v : length (to_ne_bytes n v) = n.
Proof. unfold to_ne_bytes. destruct big_endian; rewrite ?length_reverse; apply length_to_le_bytes. Qed.
Lemma to_ne_byte n v : Forall is_byte (to_ne_bytes n v).
Proof. unfold to_ne_bytes. destruct big_endian; [apply Forall_reverse|]; apply bytes_to_le. Qed.
Lemma to_ne_unsigned n v : to_ne_bytes n (as_unsigned n v) = to_ne_bytes n v.
Proof. unfold to_ne_bytes, as_unsigned. by rewrite to_le_mod. Qed.
Lemma to_ne_one v : to_ne_bytes 1 v = [wrap_u8 v].
Proof. unfold to_ne_bytes, wrap_u8. cbn. by destruct big_endian. Qed.

Lemma sip_call_absorbed {POk : PlatformOk} k0 k1 c h m : sip_call_ok c -> absorbed k0 k1 h m -> exists h', sip_call c h = Ret h' /\ absorbed k0 k1 h' (m ++ sip_bytes c).
Proof.
  intros Hc HA. pose proof pointer_bytes_ok as Hp. assert (Hint : forall n v, (n <= 8)%nat -> exists h', short_write (to_ne_bytes n v) h = Ret h' /\ absorbed k0 k1 h' (m ++ to_ne_bytes n v)).
  { intros n v Hn. apply short_write_ok; [done|apply to_ne_byte|by rewrite to_ne_length]. }
  destruct c as [size i|size i|i|i|bytes|msg]; cbn [sip_call sip_bytes sip_call_ok] in *.
  - apply list_elem_of_In in Hc. destruct Hc as [<-|[<-|[<-|[<-|[]]]]]; apply Hint; lia.
  - unfold sip_write_i8, sip_write_i16, sip_write_i32, sip_write_i64. apply list_elem_of_In in Hc. destruct Hc as [<-|[<-|[<-|[<-|[]]]]]; rewrite to_ne_unsigned; apply Hint; lia.
  - apply Hint. lia.
  - unfold sip_write_isize. rewrite to_ne_unsigned. apply Hint. lia.
  - destruct Hc. by apply short_write_ok.
  - by apply slice_write_ok.
Qed.

Lemma sip_calls_absorbed {POk : PlatformOk} k0 k1 cs h m : Forall sip_call_ok cs -> absorbed k0 k1 h m -> exists h', fold_out (fun h c => sip_call c h) cs h = Ret h' /\ absorbed k0 k1 h' (m ++ concat (sip_bytes <$> cs)).
Proof.
  intros Hcs. revert h m. induction Hcs as [|c cs Hc _ IH]; intros h m HA; [exists h; by rewrite app_nil_r|]. cbn [fold_out fmap list_fmap concat]. destruct (sip_call_absorbed k0 k1 c h m Hc HA) as (h1 & -> & H1). cbn [obind].
  destruct (IH h1 _ H1) as (h' & Hr & H'). exists h'. split; [done|]. by rewrite app_assoc.
Qed.
End Calls.

(** ** What a hasher promises [StableHasher] *)

Class ExtendedHasherOk {H Hash : Type} `{!ExtendedHasher H Hash} (given : H -> list Z -> Prop) (digest : list Z -> Hash) : Prop := {
  given_write h m bytes : given h m -> Forall is_byte bytes -> exists h', hasher_write bytes h = Ret h' /\ given h' (m ++ bytes);
  given_short_write h m bytes : given h m -> Forall is_byte bytes -> (length bytes <= 8)%nat -> exists h', hasher_short_write bytes h = Ret h' /\ given h' (m ++ bytes);
  given_write_u8 h m i : given h m -> exists h', hasher_write_u8 i h = Ret h' /\ given h' (m ++ [wrap_u8 i]);
  given_write_i8 h m i : given h m -> exists h', hasher_write_i8 i h = Ret h' /\ given h' (m ++ [wrap_u8 i]);
  given_finish h m : given h m -> hasher_finish h = Ret (digest m)
}.

#[export] Instance sip_extended_ok {P : Platform} {POk : PlatformOk} k0 k1 : ExtendedHasherOk (absorbed k0 k1) (siphash128 k0 k1).
Proof.
  split.
  - intros h m bytes HA Hb. by apply slice_write_ok.
  - intros h m bytes HA Hb Hl. by apply short_write_ok.
  - intros h m i HA. destruct (sip_call_absorbed k0 k1 (SipUnsigned 1 i) h m ltac:(apply elem_of_cons; by left) HA) as (h' & ? & HB). exists h'. split; [done|]. by rewrite <- to_ne_one.
  - intros h m i HA. destruct (sip_call_absorbed k0 k1 (SipSigned 1 i) h m ltac:(apply elem_of_cons; by left) HA) as (h' & ? & HB). exists h'. split; [done|]. by rewrite <- to_ne_one.
  - intros h m HA. by apply sip_finish_ok.
Qed.

(** ** Calls of [StableHasher] *)

Inductive StableCall : Type :=
| StU8 (i : Z) | StU16 (i : Z) | StU32 (i : Z) | StU64 (i : Z) | StU128 (i : Z) | StUsize (i : Z)
| StI8 (i : Z) | StI16 (i : Z) | StI32 (i : Z) | StI64 (i : Z) | StI128 (i : Z) | StIsize (i : Z)
| StBytes (bytes : list Z) | StStr (bytes : list Z).

(** Slices are of bytes; integers are taken modulo their width. *)
Definition stable_call_ok (c : StableCall) : Prop :=
  match c with
  | StBytes bytes | StStr bytes => Forall is_byte bytes
  | _ => True
  end.

(** The byte stream, which does not depend on the platform. *)
Definition isize_bytes (i : Z) : list Z := if i mod 2 ^ 64 <? 0xff then [i mod 2 ^ 64] else 0xff :: to_le_bytes 8 i.
Definition stable_bytes (c : StableCall) : list Z :=
  match c with
  | StU8 i | StI8 i => to_le_bytes 1 i
  | StU16 i | StI16 i => to_le_bytes 2 i
  | StU32 i | StI32 i => to_le_bytes 4 i
  | StU64 i | StI64 i | StUsize i => to_le_bytes 8 i
  | StU128 i | StI128 i => to_le_bytes 16 i
  | StIsize i => isize_bytes i
  | StBytes bytes => bytes
  | StStr bytes => bytes ++ [0xff]
  end.

Section StableCalls.
Context {H Hash : Type} `{!ExtendedHasher H Hash}.

Definition stable_call (c : StableCall) (s : StableHasher H) : outcome (StableHasher H) :=
  match c with
  | StU8 i => stable_write_u8 i s | StU16 i => stable_write_u16 i s | StU32 i => stable_write_u32 i s | StU64 i => stable_write_u64 i s
  | StU128 i => stable_write_u128 i s | StUsize i => stable_write_usize i s
  | StI8 i => stable_write_i8 i s | StI16 i => stable_write_i16 i s | StI32 i => stable_write_i32 i s | StI64 i => stable_write_i64 i s
  | StI128 i => stable_write_i128 i s | StIsize i => stable_write_isize i s
  | StBytes bytes => stable_write bytes s | StStr bytes => stable_write_str bytes s
  end.

Context (given : H -> list Z -> Prop) (digest : list Z -> Hash) {HOk : ExtendedHasherOk given digest}.

Definition stable_given (s : StableHasher H) (m : list Z) : Prop := given (stable_state s) m.

Lemma on_state_ok f s m bytes : (exists h', f (stable_state s) = Ret h' /\ given h' (m ++ bytes)) -> exists s', on_state f s = Ret s' /\ stable_given s' (m ++ bytes).
Proof using. intros (h' & Hf & Hg). exists (mkStable h'). unfold on_state. rewrite Hf. done. Qed.

Lemma le_given s m n v : stable_given s m -> (n <= 8)%nat -> exists s', on_state (hasher_short_write (to_le_bytes n v)) s = Ret s' /\ stable_given s' (m ++ to_le_bytes n v).
Proof using HOk. intros Hg Hn. apply on_state_ok. apply given_short_write; [done|apply bytes_to_le|by rewrite length_to_le_bytes]. Qed.

Lemma as_unsigned_le n v : to_le_bytes n (as_unsigned n v) = to_le_bytes n v.
Proof. apply to_le_mod. Qed.

Lemma stable_call_given c s m : stable_call_ok c -> stable_given s m -> exists s', stable_call c s = Ret s' /\ stable_given s' (m ++ stable_bytes c).
Proof using HOk.
  intros Hc Hg. destruct c as [i|i|i|i|i|i|i|i|i|i|i|i|bytes|bytes]; cbn [stable_call stable_bytes stable_call_ok] in *; try (apply le_given; [done|lia]).
  - apply on_state_ok, given_write_u8. done.
  - unfold stable_write_u128, stable_write_u64. destruct (le_given s m 8 (wrap_u64 i) Hg ltac:(lia)) as (s1 & -> & H1). cbn [obind]. destruct (le_given s1 _ 8 (wrap_u64 (Z.shiftr i 64)) H1 ltac:(lia)) as (s2 & -> & H2). exists s2. split; [done|].
    rewrite <- app_assoc in H2. change 16%nat with (8 + 8)%nat. rewrite to_le_add. replace (to_le_bytes 8 i) with (to_le_bytes 8 (wrap_u64 i)) by (apply (to_le_mod 8)). replace (to_le_bytes 8 (i / 256 ^ Z.of_nat 8)) with (to_le_bytes 8 (wrap_u64 (Z.shiftr i 64))); [done|].
    rewrite Z.shiftr_div_pow2 by lia. apply (to_le_mod 8).
  - unfold stable_write_usize. rewrite as_unsigned_le. apply le_given; [done|lia].
  - apply on_state_ok, given_write_i8. done.
  - unfold stable_write_i16. rewrite as_unsigned_le. apply le_given; [done|lia].
  - unfold stable_write_i32. rewrite as_unsigned_le. apply le_given; [done|lia].
  - unfold stable_write_i64. rewrite as_unsigned_le. apply le_given; [done|lia].
  - unfold stable_write_i128. rewrite as_unsigned_le. apply on_state_ok, given_write; [done|apply bytes_to_le].
  - unfold stable_write_isize. apply on_state_ok. unfold isize_bytes. change (as_unsigned 8 i) with (i mod 2 ^ 64). destruct (i mod 2 ^ 64 <? 255) eqn:Ei; propify.
    + destruct (given_write_u8 (stable_state s) m (wrap_u8 (i mod 2 ^ 64)) Hg) as (h' & Hw & Hg'). exists h'. split; [done|]. unfold wrap_u8 in Hg'. rewrite !Z.mod_mod, Z.mod_small in Hg' by (pose proof (Z.mod_pos_bound i (2 ^ 64)); lia). done.
    + unfold hash_value. destruct (given_write_u8 (stable_state s) m 0xff Hg) as (h1 & -> & H1). cbn [obind]. destruct (given_short_write h1 _ (to_le_bytes 8 (i mod 2 ^ 64)) H1) as (h2 & Hw & H2); [apply bytes_to_le|by rewrite length_to_le_bytes|]. exists h2. split; [done|].
      rewrite <- app_assoc in H2. change (2 ^ 64) with (256 ^ Z.of_nat 8) in H2. rewrite to_le_mod in H2. done.
  - apply on_state_ok, given_write; done.
  - unfold stable_write_str, stable_write, stable_write_u8. destruct (on_state_ok (hasher_write bytes) s m bytes) as (s1 & -> & H1); [by apply given_write|]. cbn [obind]. rewrite app_assoc. apply on_state_ok. apply (given_write_u8 _ _ 0xff). done.
Qed.

Lemma stable_calls_given cs s m : Forall stable_call_ok cs -> stable_given s m -> exists s', fold_out (fun s c => stable_call c s) cs s = Ret s' /\ stable_given s' (m ++ concat (stable_bytes <$> cs)).
Proof using HOk.
  intros Hcs. revert s m. induction Hcs as [|c cs Hc _ IH]; intros s m HA; [exists s; by rewrite app_nil_r|]. cbn [fold_out fmap list_fmap concat]. destruct (stable_call_given c s m Hc HA) as (s1 & -> & H1). cbn [obind].
  destruct (IH s1 _ H1) as (s' & Hr & H'). exists s'. split; [done|]. by rewrite app_assoc.
Qed.
End StableCalls.

(** ** Theorems *)

(** A hasher that keeps the bytes, as a view of the stream. *)
#[export] Instance recorder : ExtendedHasher (list Z) (list Z) := {
  hasher_write bytes h := Ret (h ++ bytes);
  hasher_write_u8 i h := Ret (h ++ [wrap_u8 i]);
  hasher_write_i8 i h := Ret (h ++ [wrap_u8 i]);
  hasher_short_write bytes h := Ret (h ++ bytes);
  hasher_finish h := Ret h;
  hasher_finish_u64 h := Ret 0
}.
Lemma recorder_ok : ExtendedHasherOk (H := list Z) (Hash := list Z) (fun h m => h = m) (fun m => m).
Proof. split; intros; subst; try (eexists; split; [reflexivity|reflexivity]). reflexivity. Qed.

Definition stable_stream (cs : list StableCall) : outcome (list Z) :=
  let* s := fold_out (fun s c => stable_call c s) cs (with_hasher []) in stable_finish id s.

Lemma stream_is cs : Forall stable_call_ok cs -> stable_stream cs = Ret (concat (stable_bytes <$> cs)).
Proof.
  intros Hcs. destruct (stable_calls_given (HOk := recorder_ok) _ _ cs (with_hasher []) [] Hcs eq_refl) as (s & Hs & Hg). unfold stable_stream. rewrite Hs. cbn [obind]. unfold stable_finish. cbn. unfold stable_given in Hg. by rewrite Hg.
Qed.

Lemma to_le_inj n a b : to_le_bytes n a = to_le_bytes n b -> a mod 256 ^ Z.of_nat n = b mod 256 ^ Z.of_nat n.
Proof.
  intros HE. pose proof (Z.pow_pos_nonneg 256 (Z.of_nat n) ltac:(lia) ltac:(lia)). rewrite <- (from_to_le_bytes n (a mod _)), <- (from_to_le_bytes n (b mod _)) by (by apply Z.mod_pos_bound). by rewrite !to_le_mod, HE.
Qed.

Definition is_isize (i : Z) : Prop := - 2 ^ 63 <= i < 2 ^ 63.

Lemma isize_mod_inj i j : is_isize i -> is_isize j -> i mod 2 ^ 64 = j mod 2 ^ 64 -> i = j.
Proof. unfold is_isize. intros Hi Hj HE. pose proof (Z.div_mod i (2 ^ 64) ltac:(lia)). pose proof (Z.div_mod j (2 ^ 64) ltac:(lia)). lia. Qed.

Lemma isize_bytes_inj i j a b : is_isize i -> is_isize j -> isize_bytes i ++ a = isize_bytes j ++ b -> i = j /\ a = b.
Proof.
  intros Hi Hj. unfold isize_bytes. destruct (i mod 2 ^ 64 <? 255) eqn:Ei, (j mod 2 ^ 64 <? 255) eqn:Ej; propify; cbn [app]; intros HE.
  - injection HE as H1 H2. split; [by apply isize_mod_inj|done].
  - injection HE as H1 _. lia.
  - injection HE as H1 _. lia.
  - apply (f_equal (drop 1)) in HE as H2. cbn [drop] in H2. apply app_inj_1 in H2 as [H2 ->]; [|by rewrite !length_to_le_bytes]. split; [|done]. apply isize_mod_inj; [done|done|]. by apply (to_le_inj 8).
Qed.

Lemma isizes_inj l1 l2 : Forall is_isize l1 -> Forall is_isize l2 -> concat (isize_bytes <$> l1) = concat (isize_bytes <$> l2) -> l1 = l2.
Proof.
  intros H1. revert l2. induction H1 as [|i l1 Hi _ IH]; intros [|j l2] H2 HE; [done|exfalso..|].
  - cbn [fmap list_fmap concat] in HE. unfold isize_bytes at 1 in HE. destruct (_ <? _); done.
  - cbn [fmap list_fmap concat] in HE. unfold isize_bytes at 1 in HE. destruct (_ <? _); done.
  - inversion_clear H2. cbn [fmap list_fmap concat] in HE. apply isize_bytes_inj in HE as [-> HE]; [|done|done]. f_equal. by apply IH.
Qed.

(** C10: for every sequence of calls of [SipHasher128], integers and slices of any sizes, however they fall into its buffer
    and spill, no memory is accessed out of bounds or before it is initialized, and both [finish]es give SipHash-1-3
    with 128 bits of output of the bytes of all calls in order, even if the count of bytes wraps around. *)
Theorem sip_hasher_is_siphash {P : Platform} {POk : PlatformOk} k0 k1 cs : Forall sip_call_ok cs ->
  exists h, fold_out (fun h c => sip_call c h) cs (new_with_keys k0 k1) = Ret h
    /\ sip_finish h = Ret (siphash128 k0 k1 (concat (sip_bytes <$> cs)))
    /\ sip_finish_u64 h = Ret (combined (siphash128 k0 k1 (concat (sip_bytes <$> cs)))).
Proof.
  intros Hcs. destruct (sip_calls_absorbed k0 k1 cs _ _ Hcs (new_absorbed k0 k1)) as (h & Hr & HA). exists h. split; [done|]. split; [by apply sip_finish_ok|by apply sip_finish_u64_ok].
Qed.

(** The hash of a sequence of calls of [StableHasher]. *)
Definition stable_hash {P : Platform} (k0 k1 : Z) (cs : list StableCall) : outcome (Z * Z) :=
  let* s := fold_out (fun s c => stable_call c s) cs (with_hasher (new_with_keys k0 k1)) in stable_finish id s.

Lemma stable_hash_is {P : Platform} {POk : PlatformOk} k0 k1 cs : Forall stable_call_ok cs -> stable_hash k0 k1 cs = Ret (siphash128 k0 k1 (concat (stable_bytes <$> cs))).
Proof.
  intros Hcs. destruct (stable_calls_given (absorbed k0 k1) (siphash128 k0 k1) cs (with_hasher (new_with_keys k0 k1)) [] Hcs (new_absorbed k0 k1)) as (s & Hs & Hg). unfold stable_hash. rewrite Hs. cbn [obind]. unfold stable_finish.
  by rewrite (given_finish (given := absorbed k0 k1) (digest := siphash128 k0 k1) (stable_state s) _ Hg).
Qed.

(** C11: [StableHasher] over [SipHasher128] gives the same hash for the same calls on any two platforms, whatever their
    byte order and the width of [usize]. *)
Theorem stable_hash_portable (P1 P2 : Platform) (Ok1 : PlatformOk (H := P1)) (Ok2 : PlatformOk (H := P2)) k0 k1 cs : Forall stable_call_ok cs ->
  exists hash, stable_hash (P := P1) k0 k1 cs = Ret hash /\ stable_hash (P := P2) k0 k1 cs = Ret hash.
Proof. intros Hcs. eexists. split; [by apply (stable_hash_is (P := P1))|by apply (stable_hash_is (P := P2))]. Qed.

(** C25: the short form of [write_isize] loses nothing: two sequences of [isize] values that give a hasher the same bytes
    are equal, although values take one byte or nine. *)
Theorem isize_stream_injective l1 l2 : Forall is_isize l1 -> Forall is_isize l2 -> stable_stream (StIsize <$> l1) = stable_stream (StIsize <$> l2) -> l1 = l2.
Proof.
  intros H1 H2. assert (Hok : forall l, Forall stable_call_ok (StIsize <$> l)) by (intros l; induction l; by constructor). rewrite !stream_is by apply Hok. intros [= HE]. rewrite <- !list_fmap_compose in HE. by apply isizes_inj.
Qed.

(** ** Instances *)

Definition little64 : Platform := {| big_endian := false; pointer_bytes := 8 |}.
Definition big32 : Platform := {| big_endian := true; pointer_bytes := 4 |}.
Lemma little64_ok : PlatformOk (H := little64).
Proof. unfold PlatformOk. simpl. lia. Qed.
Lemma big32_ok : PlatformOk (H := big32).
Proof. unfold PlatformOk. simpl. lia. Qed.

(** A vector of the algorithm: the bytes of the keys are 0, 1, ..., 15, and the message is empty. *)
Example siphash_vector : siphash128 0x0706050403020100 0x0f0e0d0c0b0a0908 [] = (0xbea58827b2bc7ee7, 0x013030dd6adb62fd).
Proof. vm_compute. reflexivity. Qed.

Definition sample_calls : list SipCall := [SipUnsigned 8 1; SipSlice (repeat 7 61); SipSigned 2 (-3); SipUsize 5].

Lemma sip_hasher_is_siphash_witness : exists h, fold_out (fun h c => sip_call (P := big32) c h) sample_calls (new_with_keys 1 2) = Ret h /\ sip_finish (H := big32) h = Ret (siphash128 1 2 ([0; 0; 0; 0; 0; 0; 0; 1] ++ repeat 7 61 ++ [255; 253; 0; 0; 0; 5])).
Proof.
  destruct (sip_hasher_is_siphash (P := big32) (POk := big32_ok) 1 2 sample_calls) as (h & Hr & Hf & _).
  - unfold sample_calls. repeat constructor; try lia.
  - exists h. split; [exact Hr|]. rewrite Hf. reflexivity.
Defined.

Lemma stable_hash_portable_witness : exists hash, stable_hash (P := little64) 0 0 [StUsize 250; StIsize (-1)] = Ret hash /\ stable_hash (P := big32) 0 0 [StUsize 250; StIsize (-1)] = Ret hash.
Proof. apply (stable_hash_portable little64 big32 little64_ok big32_ok). repeat constructor. Defined.

Lemma isize_stream_injective_witness : stable_stream (StIsize <$> [254; - 1]) = Ret [254; 255; 255; 255; 255; 255; 255; 255; 255; 255] /\ [254; - 1] = [253 + 1; 2 - 3].
Proof. split; [reflexivity|]. apply (isize_stream_injective [254; - 1] [253 + 1; 2 - 3]); [repeat constructor; unfold is_isize; lia|repeat constructor; unfold is_isize; lia|reflexivity]. Defined.
