(* ===== verification/Fingerprint.v ===== *)
(** * Hashes and fingerprints

    What is made of a hash: [Hash64] and [Hash128] ([src/rustc_hashes/mod.rs]), [Fingerprint]
    ([src/rustc_data_structures/fingerprint.rs]) and the hasher of maps whose keys are hashes already, [Unhasher]
    ([src/rustc_data_structures/unhash.rs]).  A packed fingerprint has the same value, so it is not modelled apart. *)
From Stdlib Require Import ZArith Lia.
From stdpp Require Import base numbers list option.
From S2P Require Import Prelude RustStr BitSetFacts Leb128 Opaque OpaqueTheorems SipHash SipHashTheorems.
#[local] Open Scope Z_scope.
#[local] Open Scope rust_scope.

Definition wrap_u128 (z : Z) : Z := z mod 2 ^ 128.

(** ** [Hash64] and [Hash128] *)

Record Hash64 : Type := mkHash64 { inner64 : Z }.
Definition Hash64_ZERO : Hash64 := mkHash64 0.
Definition hash64_wrapping_add (a b : Hash64) : Hash64 := mkHash64 (wrapping_add (inner64 a) (inner64 b)).
Definition hash64_bitxor_assign (a : Hash64) (rhs : Z) : Hash64 := mkHash64 (Z.lxor (inner64 a) rhs).
Definition hash64_from (hash : Z * Z) : Hash64 := mkHash64 hash.1.

Record Hash128 : Type := mkHash128 { inner128 : Z }.
Definition truncate (h : Hash128) : Hash64 := mkHash64 (wrap_u64 (inner128 h)).
Definition hash128_wrapping_add (a b : Hash128) : Hash128 := mkHash128 (wrap_u128 (inner128 a + inner128 b)).
Definition hash128_from (hash : Z * Z) : Hash128 := mkHash128 (Z.lor hash.1 (Z.shiftl hash.2 64)).

(** ** [Unhasher] *)

Record Unhasher : Type := mkUnhasher { value : Z }.
Definition unhasher_default : Unhasher := mkUnhasher 0.
Definition unhasher_finish (h : Unhasher) : Z := value h.
Definition unhasher_write (bytes : list Z) (h : Unhasher) : outcome Unhasher := Panic.
Definition unhasher_write_u64 (v : Z) (h : Unhasher) : outcome Unhasher := Ret (mkUnhasher (wrapping_add (value h) v)).

(** ** [Fingerprint] *)

Record Fingerprint : Type := mkFingerprint { fp0 : Z; fp1 : Z }.
Definition Fingerprint_ZERO : Fingerprint := mkFingerprint 0 0.

(** [Fingerprint::new] for components that are [u64] or [Hash64]. *)
Definition fingerprint_new (a b : Z) : Fingerprint := mkFingerprint a b.
Definition to_smaller_hash (f : Fingerprint) : Hash64 := mkHash64 (wrapping_add (wrapping_mul (fp0 f) 3) (fp1 f)).
Definition split (f : Fingerprint) : Hash64 * Hash64 := (mkHash64 (fp0 f), mkHash64 (fp1 f)).
Definition combine (f other : Fingerprint) : Fingerprint :=
  mkFingerprint (wrapping_add (wrapping_mul (fp0 f) 3) (fp0 other)) (wrapping_add (wrapping_mul (fp1 f) 3) (fp1 other)).
Definition fingerprint_as_u128 (f : Fingerprint) : Z := Z.lor (Z.shiftl (fp1 f) 64) (fp0 f).
Definition combine_commutative (f other : Fingerprint) : Fingerprint :=
  let a := Z.lor (Z.shiftl (fp1 f) 64) (fp0 f) in
  let b := Z.lor (Z.shiftl (fp1 other) 64) (fp0 other) in
  let c := wrap_u128 (a + b) in
  mkFingerprint (wrap_u64 c) (wrap_u64 (Z.shiftr c 64)).
Definition fingerprint_to_le_bytes (f : Fingerprint) : list Z := to_le_bytes 8 (fp0 f) ++ to_le_bytes 8 (fp1 f).
Definition fingerprint_from_le_bytes (bytes : list Z) : Fingerprint := mkFingerprint (from_le_bytes (take 8 bytes)) (from_le_bytes (take 8 (drop 8 bytes))).
Definition fingerprint_from (hash : Z * Z) : Fingerprint := mkFingerprint hash.1 hash.2.

(** [Hash::hash], for a hasher with this [write_u64]. *)
Definition fingerprint_hash {H} (write_u64 : Z -> H -> outcome H) (f : Fingerprint) (h : H) : outcome H :=
  let* h := write_u64 (fp0 f) h in write_u64 (fp1 f) h.
Definition hash128_hash {H} (write_u64 : Z -> H -> outcome H) (x : Hash128) (h : H) : outcome H := write_u64 (inner64 (truncate x)) h.

Definition fingerprint_encode {E} `{Encoder E} (f : Fingerprint) (e : E) : outcome E := emit_raw_bytes (fingerprint_to_le_bytes f) e.
Definition fingerprint_decode (d : MemDecoder) : outcome (Fingerprint * MemDecoder) :=
  let* '(bytes, d) := read_raw_bytes d 16 in Ret (fingerprint_from_le_bytes bytes, d).

(** ** Facts *)

Definition fp_ok (f : Fingerprint) : Prop := is_word (fp0 f) /\ is_word (fp1 f).

Lemma wrap_word z : is_word (wrap_u64 z).
Proof. unfold is_word, wrap_u64. apply Z.mod_pos_bound. lia. Qed.

Lemma as_u128_sum f : fp_ok f -> fingerprint_as_u128 f = fp0 f + 2 ^ 64 * fp1 f.
Proof. intros [[? ?] ?]. unfold fingerprint_as_u128. apply lor_above; lia. Qed.

(** The state of the hasher is made of words, so that a hash is. *)
Definition word_state (s : State) : Prop := is_word (v0 s) /\ is_word (v1 s) /\ is_word (v2 s) /\ is_word (v3 s).

Lemma lxor_word a b : is_word a -> is_word b -> is_word (Z.lxor a b).
Proof. intros Ha Hb. apply word_of_bits; [apply Z.lxor_nonneg; unfold is_word in *; lia|]. intros n Hn. by rewrite Z.lxor_spec, !word_high. Qed.
Lemma rotate_word x n : 0 <= n <= 64 -> is_word x -> is_word (rotate_left x n).
Proof.
  intros Hn Hx. unfold rotate_left. apply is_word_lor; [apply wrap_word|]. unfold is_word in *. rewrite Z.shiftr_div_pow2 by lia. split; [apply Z.div_pos; lia|]. eapply Z.le_lt_trans; [apply Z.div_le_upper_bound with (q := x)|]; [lia| |lia]. nia.
Qed.

#[local] Hint Resolve lxor_word wrap_word : word.
#[local] Hint Extern 1 (is_word (rotate_left _ _)) => apply rotate_word; [lia|] : word.
#[local] Hint Extern 1 (is_word (_ mod 2 ^ 64)) => apply wrap_word : word.

Lemma round_word s : word_state s -> word_state (sip_round s).
Proof. intros (H0 & H1 & H2 & H3). unfold word_state, sip_round. cbn [v0 v1 v2 v3]. split_and!; eauto 12 with word. Qed.

Lemma absorb_word s w : word_state s -> is_word w -> word_state (sip_absorb s w).
Proof.
  intros (H0 & H1 & H2 & H3) Hw. unfold sip_absorb. assert (Hr : word_state (sip_round (xor_v3 w s))) by (apply round_word; unfold word_state, xor_v3; cbn [v0 v1 v2 v3]; split_and!; eauto with word).
  destruct Hr as (R0 & R1 & R2 & R3). unfold word_state, xor_v0. cbn [v0 v1 v2 v3]. split_and!; eauto with word.
Qed.

Lemma le_word bs : (length bs <= 8)%nat -> Forall is_byte bs -> is_word (from_le_bytes bs).
Proof.
  intros Hl Hb. pose proof (from_le_bound bs Hb). unfold is_word. assert (256 ^ Z.of_nat (length bs) <= 256 ^ 8) by (apply Z.pow_le_mono_r; lia). change (256 ^ 8) with (2 ^ 64) in *. lia.
Qed.

Lemma words_word n msg : Forall is_byte msg -> Forall is_word (SipHashTheorems.words n msg).
Proof.
  revert msg. induction n as [|n IH]; intros msg Hm; cbn [SipHashTheorems.words]; constructor; [apply le_word; [rewrite length_take; lia|by apply Forall_take]|apply IH; by apply Forall_drop].
Qed.

Lemma last_word_word msg : Forall is_byte msg -> is_word (last_word msg).
Proof.
  intros Hm. unfold last_word. set (rest := drop _ msg). assert (Hr : (length rest <= 7)%nat) by (unfold rest; rewrite length_drop; pose proof (Nat.div_mod_eq (length msg) 8); pose proof (Nat.mod_upper_bound (length msg) 8); lia).
  apply le_word; [rewrite !length_app, repeat_length; simpl; lia|]. apply Forall_app. split; [by apply Forall_drop|]. apply Forall_app. split; [apply Forall_forall; intros x Hx; apply repeat_spec in Hx; lia|]. constructor; [apply Z.mod_pos_bound; lia|constructor].
Qed.

Lemma absorbs_word ws s : Forall is_word ws -> word_state s -> word_state (foldl sip_absorb s ws).
Proof. intros Hw. revert s. induction Hw as [|w ws Hw _ IH]; intros s Hs; [done|]. cbn [foldl]. apply IH. by apply absorb_word. Qed.

Lemma finalize_word s : word_state s -> word_state (sip_finalize s).
Proof. intros Hs. unfold sip_finalize. cbn [Nat.iter]. by do 3 apply round_word. Qed.
Lemma output_word s : word_state s -> is_word (sip_output s).
Proof. intros (H0 & H1 & H2 & H3). unfold sip_output. auto with word. Qed.

Lemma finalized_word s : word_state s -> is_word (sip_output (sip_finalize (xor_v2 0xee s))) /\ is_word (sip_output (sip_finalize (xor_v1 0xdd (sip_finalize (xor_v2 0xee s))))).
Proof.
  assert (H2 : forall s, word_state s -> word_state (xor_v2 0xee s)) by (intros t (? & ? & ? & ?); unfold word_state, xor_v2; cbn [v0 v1 v2 v3]; split_and!; try done; apply lxor_word; [done|unfold is_word; lia]).
  assert (H1 : forall s, word_state s -> word_state (xor_v1 0xdd s)) by (intros t (? & ? & ? & ?); unfold word_state, xor_v1; cbn [v0 v1 v2 v3]; split_and!; try done; apply lxor_word; [done|unfold is_word; lia]).
  intros Hs. split; apply output_word; auto using finalize_word.
Qed.

Lemma init_word : word_state (sip_init 0 0).
Proof. unfold word_state, is_word. vm_compute. repeat split; discriminate. Qed.

Lemma siphash_word msg : Forall is_byte msg -> is_word (siphash128 0 0 msg).1 /\ is_word (siphash128 0 0 msg).2.
Proof.
  intros Hm. assert (Hs : word_state (foldl sip_absorb (sip_init 0 0) (SipHashTheorems.words (length msg / 8) msg ++ [last_word msg]))).
  { apply absorbs_word; [|apply init_word]. apply Forall_app. split; [by apply words_word|]. constructor; [by apply last_word_word|constructor]. }
  exact (finalized_word _ Hs).
Qed.

Lemma fingerprint_bytes_length f : length (fingerprint_to_le_bytes f) = 16%nat.
Proof. unfold fingerprint_to_le_bytes. by rewrite length_app, !length_to_le_bytes. Qed.

Lemma fingerprint_bytes_back f : fp_ok f -> fingerprint_from_le_bytes (fingerprint_to_le_bytes f) = f.
Proof.
  intros [H0 H1]. unfold fingerprint_from_le_bytes, fingerprint_to_le_bytes. rewrite take_app_length', drop_app_length' by (by rewrite length_to_le_bytes). rewrite firstn_all2 by (by rewrite length_to_le_bytes).
  rewrite !from_to_le_bytes by done. by destruct f.
Qed.

Lemma fingerprint_decode_at f pre rest : fp_ok f -> fingerprint_decode (at_ pre (fingerprint_to_le_bytes f) rest) = Ret (f, past pre (fingerprint_to_le_bytes f) rest).
Proof. intros Hf. unfold fingerprint_decode. rewrite <- (fingerprint_bytes_length f), read_raw_at. cbn [obind]. by rewrite fingerprint_bytes_back. Qed.

(** ** Combining *)

Lemma combine_commutative_sum f g : fp_ok f -> fp_ok g -> fp_ok (combine_commutative f g) /\ fingerprint_as_u128 (combine_commutative f g) = (fingerprint_as_u128 f + fingerprint_as_u128 g) mod 2 ^ 128.
Proof.
  intros Hf Hg. unfold combine_commutative. fold (fingerprint_as_u128 f) (fingerprint_as_u128 g). generalize (fingerprint_as_u128 f + fingerprint_as_u128 g) as z. intros z. set (c := wrap_u128 z).
  assert (Hc : 0 <= c < 2 ^ 128) by (apply Z.mod_pos_bound; lia). assert (Hok : fp_ok (mkFingerprint (wrap_u64 c) (wrap_u64 (Z.shiftr c 64)))) by (split; apply wrap_word). split; [done|]. rewrite as_u128_sum by done. cbn [fp0 fp1].
  rewrite Z.shiftr_div_pow2 by lia. unfold wrap_u64. change 18446744073709551616 with (2 ^ 64). rewrite (Z.mod_small (c / 2 ^ 64)) by (split; [apply Z.div_pos; lia|apply Z.div_lt_upper_bound; lia]).
  change (z mod 2 ^ 128) with c. pose proof (Z.div_mod c (2 ^ 64) ltac:(lia)). lia.
Qed.

Lemma as_u128_inj f g : fp_ok f -> fp_ok g -> fingerprint_as_u128 f = fingerprint_as_u128 g -> f = g.
Proof.
  intros Hf Hg. rewrite !as_u128_sum by done. destruct f as [a b], g as [c d], Hf as [Ha Hb], Hg as [Hc Hd]. unfold is_word in *. cbn [fp0 fp1] in *. intros HE. assert (b = d) by lia. assert (a = c) by lia. by subst.
Qed.

Lemma combine_all fs f : fp_ok f -> Forall fp_ok fs ->
  fp_ok (foldl combine_commutative f fs) /\ fingerprint_as_u128 (foldl combine_commutative f fs) = (fingerprint_as_u128 f + foldr (fun g z => fingerprint_as_u128 g + z) 0 fs) mod 2 ^ 128.
Proof.
  intros Hf Hfs. revert f Hf. induction Hfs as [|g fs Hg _ IH]; intros f Hf; cbn [foldl foldr].
  - split; [done|]. rewrite Z.add_0_r, Z.mod_small; [done|]. rewrite as_u128_sum by done. destruct Hf as [Ha Hb]. unfold is_word in *. lia.
  - destruct (combine_commutative_sum f g Hf Hg) as [H1 H2]. destruct (IH _ H1) as [H3 H4]. split; [done|]. rewrite H4, H2, Zplus_mod_idemp_l. f_equal. lia.
Qed.

(** ** Theorems *)

(** The fingerprint of a sequence of calls: [StableHasher::new], the calls, [finish]. *)
Definition stable_fingerprint {P : Platform} (cs : list StableCall) : outcome Fingerprint :=
  let* s := fold_out (fun s c => stable_call c s) cs (with_hasher sip_default) in stable_finish fingerprint_from s.

Lemma stable_bytes_byte c : stable_call_ok c -> Forall is_byte (stable_bytes c).
Proof.
  destruct c; cbn [stable_call_ok stable_bytes]; intros Hc; try apply bytes_to_le; try done.
  - unfold isize_bytes. destruct (_ <? _) eqn:Ei; propify; [|constructor; [lia|apply bytes_to_le]]. constructor; [|constructor]. pose proof (Z.mod_pos_bound i (2 ^ 64)). lia.
  - apply Forall_app. split; [done|]. constructor; [lia|constructor].
Qed.

Lemma stable_stream_bytes cs : Forall stable_call_ok cs -> Forall is_byte (concat (stable_bytes <$> cs)).
Proof. induction 1 as [|c cs Hc _ IH]; [constructor|]. cbn [fmap list_fmap concat]. apply Forall_app. split; [by apply stable_bytes_byte|done]. Qed.

Lemma stable_fingerprint_is {P : Platform} {POk : PlatformOk} cs : Forall stable_call_ok cs -> stable_fingerprint cs = Ret (fingerprint_from (siphash128 0 0 (concat (stable_bytes <$> cs)))).
Proof.
  intros Hcs. pose proof (stable_hash_is 0 0 cs Hcs) as Hs. unfold stable_hash in Hs. apply obind_ret in Hs as (s & Hr & Hs). unfold stable_fingerprint. change sip_default with (new_with_keys 0 0). rewrite Hr. cbn [obind]. unfold stable_finish in *. apply obind_ret in Hs as (h & Hh & Hs). rewrite Hh. cbn [obind]. injection Hs as <-. done.
Qed.

(** C24: a fingerprint computed on one platform, written by any encoder and read back, is the one that another platform
    computes for the same data. *)
Theorem fingerprint_portable (P1 P2 : Platform) (Ok1 : PlatformOk (H := P1)) (Ok2 : PlatformOk (H := P2)) {E} `{EncoderOk E} (e : E) acc cs : Forall stable_call_ok cs -> accepted e acc ->
  exists f e', stable_fingerprint (P := P1) cs = Ret f /\ fingerprint_encode f e = Ret e' /\ accepted e' (acc ++ fingerprint_to_le_bytes f)
    /\ (forall rest, exists d, fingerprint_decode (mkDecoder (acc ++ fingerprint_to_le_bytes f ++ rest) (length acc)) = Ret (f, d))
    /\ stable_fingerprint (P := P2) cs = Ret f.
Proof.
  intros Hcs He. set (f := fingerprint_from (siphash128 0 0 (concat (stable_bytes <$> cs)))). assert (Hf : fp_ok f) by (apply siphash_word; by apply stable_stream_bytes).
  destruct (emit_raw_bytes_ok e acc (fingerprint_to_le_bytes f) He) as (e' & He' & Ha). exists f, e'. split_and!.
  - by apply (stable_fingerprint_is (P := P1)).
  - done.
  - done.
  - intros rest. eexists. by apply fingerprint_decode_at.
  - by apply (stable_fingerprint_is (P := P2)).
Qed.

(** Combining fingerprints with [combine_commutative] gives the same result in every order: the sum of the
    fingerprints as 128-bit integers. *)
Theorem combine_any_order fs fs' : Forall fp_ok fs -> fs ≡ₚ fs' ->
  foldl combine_commutative Fingerprint_ZERO fs = foldl combine_commutative Fingerprint_ZERO fs'
  /\ fingerprint_as_u128 (foldl combine_commutative Fingerprint_ZERO fs) = foldr (fun g z => fingerprint_as_u128 g + z) 0 fs mod 2 ^ 128.
Proof.
  intros Hfs HP. assert (H0 : fp_ok Fingerprint_ZERO) by (split; unfold is_word; cbn [fp0 fp1 Fingerprint_ZERO]; lia). destruct (combine_all fs _ H0 Hfs) as [H1 H2].
  destruct (combine_all fs' _ H0 ltac:(by rewrite <- HP)) as [H3 H4]. split; [|done]. apply as_u128_inj; [done|done|]. rewrite H2, H4. do 2 f_equal.
  clear -HP. induction HP; cbn [foldr]; lia.
Qed.

(** The hash of a fingerprint in a map of hashes is the sum of its halves. *)
Lemma fingerprint_unhashed f : fp_ok f -> exists h, fingerprint_hash unhasher_write_u64 f unhasher_default = Ret h /\ unhasher_finish h = wrapping_add (fp0 f) (fp1 f).
Proof. intros [H0 H1]. eexists. split; [reflexivity|]. unfold unhasher_finish, wrapping_add, wrap_u64. cbn [value]. rewrite Z.add_0_l. apply Zplus_mod_idemp_l. Qed.

(** ** Instances *)

Lemma fingerprint_portable_witness : exists f, stable_fingerprint (P := little64) [StUsize 7; StIsize (-1); StStr [104; 105]] = Ret f /\ stable_fingerprint (P := big32) [StUsize 7; StIsize (-1); StStr [104; 105]] = Ret f.
Proof.
  destruct (fingerprint_portable little64 big32 little64_ok big32_ok (mkMemEncoder []) [] [StUsize 7; StIsize (-1); StStr [104; 105]]) as (f & e' & H1 & _ & _ & _ & H2); [repeat constructor; lia|reflexivity|]. exists f. split; [exact H1|exact H2].
Defined.

Lemma combine_any_order_witness : foldl combine_commutative Fingerprint_ZERO [mkFingerprint 1 2; mkFingerprint u64_max 4] = foldl combine_commutative Fingerprint_ZERO [mkFingerprint u64_max 4; mkFingerprint 1 2].
Proof. apply (combine_any_order [mkFingerprint 1 2; mkFingerprint u64_max 4]); [|apply perm_swap]. repeat constructor; unfold is_word, u64_max; cbn [fp0 fp1]; lia. Defined.
