(* ===== verification/EditDistance.v ===== *)
(** * Edit distance

    [src/rustc_span/edit_distance.rs]: the restricted Damerau-Levenshtein distance of two words, and the search for the
    name that a misspelled one was meant to be.

    Positions and the cells of the table are [nat] and [Z]; no cell is larger than the two lengths together, so the
    additions do not wrap, and the cells that are initialized to [usize::MAX] are not read.  The interner is an
    argument: a type of symbols and the text of each.  [char::to_uppercase] is a parameter, of which only its value on
    ASCII characters is assumed. *)
From Stdlib Require Import ZArith Lia.
From stdpp Require Import base numbers list option sorting.
From S2P Require Import Prelude RustStr.
#[local] Open Scope Z_scope.
#[local] Open Scope rust_scope.

Definition usize_max : Z := 18446744073709551615.

Section Distance.
Context {T : Type} `{EqDecision T}.
Implicit Types (a b : list T) (row : list Z).

(** The common prefix is stripped from both. *)
Fixpoint strip_common_prefix a b : list T * list T :=
  match b, a with
  | b_char :: b_rest, a_char :: a_rest => if decide (a_char = b_char) then strip_common_prefix a_rest b_rest else (a, b)
  | _, _ => (a, b)
  end.
Definition strip_common_suffix a b : list T * list T :=
  let '(a, b) := strip_common_prefix (reverse a) (reverse b) in (reverse a, reverse b).

(** The body of the loop over columns: the cell [current[j]] and the minimum so far. *)
Definition column a b (i : nat) (prev_prev prev : list Z) (st : list Z * Z) (j : nat) : outcome (list Z * Z) :=
  let '(current, current_min) := st in
  let a_idx := (i - 1)%nat in
  let b_idx := (j - 1)%nat in
  let* x := unwrap (a !! a_idx) in
  let* y := unwrap (b !! b_idx) in
  let substitution_cost := if decide (x = y) then 0 else 1 in
  let* deletion := unwrap (prev !! j) in
  let* insertion := unwrap (current !! (j - 1)%nat) in
  let* substitution := unwrap (prev !! (j - 1)%nat) in
  let cell := Z.min (deletion + 1) (Z.min (insertion + 1) (substitution + substitution_cost)) in
  let* cell :=
    if (1 <? i)%nat && (1 <? j)%nat then
      let* y' := unwrap (b !! (b_idx - 1)%nat) in
      let* x' := unwrap (a !! (a_idx - 1)%nat) in
      if bool_decide (x = y') && bool_decide (x' = y) then
        let* transposition := unwrap (prev_prev !! (j - 2)%nat) in Ret (Z.min cell (transposition + 1))
      else Ret cell
    else Ret cell in
  Ret (<[j := cell]> current, Z.min current_min cell).

(** The loop over rows, from row [i] on; [None] is the early return. *)
Fixpoint rows (todo i : nat) a b (limit : Z) (prev_prev prev current : list Z) (prev_min : Z) : outcome (option (list Z)) :=
  match todo with
  | O => Ret (Some prev)
  | S todo =>
      let current := <[0%nat := Z.of_nat i]> current in
      let* '(current, current_min) := fold_out (column a b i prev_prev prev) (seq 1 (length b)) (current, Z.of_nat i) in
      if (limit <? current_min) && (limit <? prev_min) then Ret None
      else rows todo (S i) a b limit prev current prev_prev current_min
  end.

Definition distance a b (limit : Z) : outcome (option Z) :=
  let '(a, b) := if (length a <? length b)%nat then (b, a) else (a, b) in
  let min_dist := Z.of_nat (length a - length b) in
  if limit <? min_dist then Ret None
  else
    let '(a, b) := strip_common_prefix a b in
    let '(a, b) := strip_common_suffix a b in
    if (length b =? 0)%nat then Ret (Some min_dist)
    else
      let prev_prev := repeat usize_max (length b + 1) in
      let prev := Z.of_nat <$> seq 0 (length b + 1) in
      let current := repeat 0 (length b + 1) in
      let* r := rows (length a) 1 a b limit prev_prev prev current 0 in
      match r with
      | None => Ret None
      | Some prev => let* distance := unwrap (prev !! length b) in Ret (if distance <=? limit then Some distance else None)
      end.
End Distance.

Definition str_is_ascii (s : str) : bool := forallb is_ascii s.
Definition abs_diff (m n : nat) : nat := if (m <? n)%nat then n - m else m - n.

Definition edit_distance (a b : str) (limit : Z) : outcome (option Z) :=
  if str_is_ascii a && str_is_ascii b then distance (as_bytes a) (as_bytes b) limit
  else if limit <? Z.of_nat (abs_diff (length a) (length b)) then Ret None
  else distance a b limit.

Definition edit_distance_with_substrings (a b : str) (limit : Z) : outcome (option Z) :=
  let n := length a in
  let m := length b in
  let big_len_diff := (n * 2 <? m)%nat || (m * 2 <? n)%nat in
  let len_diff := Z.of_nat (abs_diff m n) in
  let* d := edit_distance a b (wrap_u64 (limit + len_diff)) in
  match d with
  | None => Ret None
  | Some distance =>
      let score := wrap_u64 (distance - len_diff) in
      let score := if (score =? 0) && (0 <? len_diff) && negb big_len_diff then 1
                   else if negb big_len_diff then score + (len_diff + 1) / 2
                   else score + len_diff in
      Ret (if score <=? limit then Some score else None)
  end.

(** ** Names *)

(** The order of [str], which is that of the bytes. *)
Fixpoint bytes_lt (a b : list Z) : bool :=
  match a, b with
  | _, [] => false
  | [], _ :: _ => true
  | x :: a, y :: b => (x <? y) || ((x =? y) && bytes_lt a b)
  end.
Definition str_lt (a b : str) : bool := bytes_lt (as_bytes a) (as_bytes b).
Definition str_le (a b : str) : Prop := str_lt b a = false.

(** [str::split] at a character. *)
Fixpoint split_at_char (c : char) (s : str) : list str :=
  match s with
  | [] => [[]]
  | x :: s =>
      if x =? c then [] :: split_at_char c s
      else match split_at_char c s with [] => [[x]] | w :: ws => (x :: w) :: ws end
  end.

#[export] Instance str_le_dec a b : Decision (str_le a b).
Proof. unfold str_le. apply _. Defined.

Definition UNDERSCORE : Z := 95.
Definition sort_by_words (name : str) : list str := merge_sort str_le (split_at_char UNDERSCORE name).

Class Uppercase : Type := to_uppercase : char -> str.
Class UppercaseOk `{Uppercase} : Prop := to_uppercase_ascii : forall c, 0 <= c < 128 -> to_uppercase c = [if is_ascii_lower c then c - 32 else c].

Section Names.
Context `{Uppercase}.

(** [str::to_uppercase], and the comparison with it. *)
Definition str_to_uppercase (s : str) : str := mjoin (to_uppercase <$> s).
Definition to_ascii_lowercase (c : char) : char := if is_ascii_upper c then c + 32 else c.
Definition eq_ignore_ascii_case (a b : str) : bool := bool_decide (to_ascii_lowercase <$> a = to_ascii_lowercase <$> b).
Definition same_name (lookup text : str) : bool :=
  if str_is_ascii lookup && str_is_ascii text then eq_ignore_ascii_case text lookup
  else bool_decide (str_to_uppercase text = str_to_uppercase lookup).

(** The limit when none is given: a third of the word. *)
Definition default_dist (lookup : str) : Z := Z.max (Z.of_nat (length lookup)) 3 / 3.

(** *** Candidates that are symbols *)

Section Symbols.
Context {Symbol : Type} (as_str : Symbol -> str).
Implicit Types candidates : list Symbol.

Definition find_match_by_sorted_words candidates (lookup : str) : option Symbol :=
  let lookup_sorted_by_words := sort_by_words lookup in
  foldl (fun result candidate =>
    if (str_len (as_str candidate) =? str_len lookup)%nat && bool_decide (sort_by_words (as_str candidate) = lookup_sorted_by_words) then Some candidate else result)
    None candidates.

(** The loop over the candidates: [inl] is an early return. *)
Fixpoint closest_candidates (use_substring_score : bool) (lookup : str) candidates (dist : Z) (best : option Symbol) (next_candidates : list Symbol)
    : outcome (Symbol + option Symbol * list Symbol) :=
  match candidates with
  | [] => Ret (inr (best, next_candidates))
  | c :: candidates =>
      let* d := if use_substring_score then edit_distance_with_substrings lookup (as_str c) dist else edit_distance lookup (as_str c) dist in
      match d with
      | Some d =>
          if d =? 0 then Ret (inl c)
          else if use_substring_score then
            let '(dist, next_candidates) := if d <? dist then (d, []) else (dist, next_candidates) in
            closest_candidates use_substring_score lookup candidates dist (Some c) (next_candidates ++ [c])
          else closest_candidates use_substring_score lookup candidates (d - 1) (Some c) next_candidates
      | None => closest_candidates use_substring_score lookup candidates dist best next_candidates
      end
  end.

Fixpoint find_best_match_for_name_impl (fuel : nat) (use_substring_score : bool) candidates (lookup_symbol : Symbol) (dist : option Z) : outcome (option Symbol) :=
  match fuel with
  | O => OutOfFuel
  | S fuel =>
      let lookup := as_str lookup_symbol in
      match list_find (fun c => same_name lookup (as_str c) = true) candidates with
      | Some (_, c) => Ret (Some c)
      | None =>
          let dist := default (default_dist lookup) dist in
          let* r := closest_candidates use_substring_score lookup candidates dist None [] in
          match r with
          | inl c => Ret (Some c)
          | inr (best, next_candidates) =>
              let* best :=
                if (1 <? length next_candidates)%nat then
                  find_best_match_for_name_impl fuel false next_candidates lookup_symbol (Some (Z.of_nat (str_len lookup)))
                else Ret best in
              match best with
              | Some c => Ret (Some c)
              | None => Ret (find_match_by_sorted_words candidates lookup)
              end
          end
      end
  end.

(** The search without substrings calls itself no more, so it is at most two calls deep. *)
Definition find_best_match_for_name candidates (lookup : Symbol) (dist : option Z) : outcome (option Symbol) :=
  find_best_match_for_name_impl 2 false candidates lookup dist.
Definition find_best_match_for_name_with_substrings candidates (lookup : Symbol) (dist : option Z) : outcome (option Symbol) :=
  find_best_match_for_name_impl 2 true candidates lookup dist.

(** [Iterator::min_by], which keeps the first of equal elements. *)
Fixpoint min_by_distance (best : Z * Symbol) (found : list (Z * Symbol)) : Symbol :=
  match found with [] => best.2 | x :: found => min_by_distance (if x.1 <? best.1 then x else best) found end.
Fixpoint matches_of candidates (lookups : list Symbol) (dist : option Z) : outcome (list (Z * Symbol)) :=
  match lookups with
  | [] => Ret []
  | s :: lookups =>
      let* r := find_best_match_for_name_impl 2 false candidates s dist in
      let* rest := matches_of candidates lookups dist in
      match r with
      | Some r => let* d := edit_distance (as_str s) (as_str r) usize_max in let* d := unwrap d in Ret ((d, r) :: rest)
      | None => Ret rest
      end
  end.
Definition find_best_match_for_names candidates (lookups : list Symbol) (dist : option Z) : outcome (option Symbol) :=
  let* found := matches_of candidates lookups dist in
  Ret (match found with [] => None | x :: found => Some (min_by_distance x found) end).
End Symbols.

(** *** Candidates that are texts *)

(** The three loops of [find_best_match_index_as_if_sorted], from the index [i] on. *)
Fixpoint smallest_same (lookup : str) (texts : list str) (i : nat) (todo : list str) (best : option nat) : outcome (option nat) :=
  match todo with
  | [] => Ret best
  | text :: todo =>
      let* better := match best with None => Ret true | Some b => let* t := unwrap (texts !! b) in Ret (str_lt text t) end in
      smallest_same lookup texts (S i) todo (if same_name lookup text && better then Some i else best)
  end.

Fixpoint closest_text (lookup : str) (limit : Z) (texts : list str) (i : nat) (todo : list str) (closest : option (Z * nat)) : outcome (option (Z * nat)) :=
  match todo with
  | [] => Ret closest
  | text :: todo =>
      let within := match closest with None => limit | Some (d, _) => d end in
      let* d := edit_distance lookup text within in
      let* closest :=
        match d with
        | None => Ret closest
        | Some d =>
            let* better := match closest with
                           | None => Ret true
                           | Some (bd, b) => let* t := unwrap (texts !! b) in Ret ((d <? bd) || ((d =? bd) && str_lt text t))
                           end in
            Ret (if (better : bool) then Some (d, i) else closest)
        end in
      closest_text lookup limit texts (S i) todo closest
  end.

Fixpoint largest_by_words (lookup : str) (sorted : list str) (texts : list str) (i : nat) (todo : list str) (words : option nat) : outcome (option nat) :=
  match todo with
  | [] => Ret words
  | text :: todo =>
      let* larger := match words with None => Ret true | Some b => let* t := unwrap (texts !! b) in Ret (str_lt t text) end in
      largest_by_words lookup sorted texts (S i) todo
        (if (str_len text =? str_len lookup)%nat && bool_decide (sort_by_words text = sorted) && larger then Some i else words)
  end.

Definition find_best_match_index_as_if_sorted (texts : list str) (lookup : str) : outcome (option nat) :=
  let* best := smallest_same lookup texts 0 texts None in
  match best with
  | Some i => Ret (Some i)
  | None =>
      let limit := default_dist lookup in
      let* closest := closest_text lookup limit texts 0 texts None in
      match closest with
      | Some (_, i) => Ret (Some i)
      | None => largest_by_words lookup (sort_by_words lookup) texts 0 texts None
      end
  end.
End Names.
