(* ===== verification/EditAlign.v ===== *)
(** * Edit distance: alignments

    The distance of two words is the least cost of a way to turn one into the other, character by character from left
    to right, where two adjacent characters may be exchanged and nothing is edited twice.  The table of [distance]
    holds these costs for the prefixes of the words. *)
From Stdlib Require Import ZArith Lia.
From stdpp Require Import base numbers list option.
From S2P Require Import Prelude RustStr EditDistance.
#[local] Open Scope Z_scope.
#[local] Open Scope rust_scope.

(** ** Alignments *)

Section Align.
Context {T : Type}.
Implicit Types (a b : list T) (x y : T) (n : Z).

Inductive align : list T -> list T -> Z -> Prop :=
| al_nil : align [] [] 0
| al_keep x a b n : align a b n -> align (x :: a) (x :: b) n
| al_substitute x y a b n : align a b n -> align (x :: a) (y :: b) (n + 1)
| al_delete x a b n : align a b n -> align (x :: a) b (n + 1)
| al_insert y a b n : align a b n -> align a (y :: b) (n + 1)
| al_transpose x y a b n : align a b n -> align (x :: y :: a) (y :: x :: b) (n + 1).

(** The edit distance. *)
Definition least_cost a b (d : Z) : Prop := align a b d /\ forall n, align a b n -> d <= n.

Lemma least_unique a b d d' : least_cost a b d -> least_cost a b d' -> d = d'.
Proof. intros [H1 H2] [H3 H4]. specialize (H2 _ H3). specialize (H4 _ H1). lia. Qed.

Lemma align_nonneg a b n : align a b n -> 0 <= n.
Proof. induction 1; lia. Qed.

Lemma align_refl a : align a a 0.
Proof. induction a; by constructor. Qed.

Lemma align_sym a b n : align a b n -> align b a n.
Proof. induction 1; by constructor. Qed.

Lemma align_app a b n a' b' n' : align a b n -> align a' b' n' -> align (a ++ a') (b ++ b') (n + n').
Proof. intros H1 H2. induction H1; cbn [app]; try done; try (by constructor); replace (n + 1 + n') with (n + n' + 1) by lia; by constructor. Qed.

Lemma align_cost a b n n' : align a b n -> n = n' -> align a b n'.
Proof. by intros ? <-. Qed.

Lemma align_reverse a b n : align a b n -> align (reverse a) (reverse b) n.
Proof.
  induction 1 as [|x a b n _ IH|x y a b n _ IH|x a b n _ IH|y a b n _ IH|x y a b n _ IH]; rewrite ?reverse_cons.
  - constructor.
  - eapply align_cost; [apply (align_app _ _ _ [x] [x] 0 IH), align_refl|lia].
  - apply (align_app _ _ _ [x] [y] 1 IH), (al_substitute x y [] [] 0). constructor.
  - rewrite <- (app_nil_r (reverse b)). apply (align_app _ _ _ [x] [] 1 IH), (al_delete x [] [] 0). constructor.
  - rewrite <- (app_nil_r (reverse a)). apply (align_app _ _ _ [] [y] 1 IH), (al_insert y [] [] 0). constructor.
  - rewrite <- !app_assoc. apply (align_app _ _ _ [y; x] [x; y] 1 IH), (al_transpose y x [] [] 0). constructor.
Qed.

Lemma align_length a b n : align a b n -> Z.abs (Z.of_nat (length a) - Z.of_nat (length b)) <= n.
Proof. induction 1; cbn [length]; lia. Qed.

(** A character less costs at most one more. *)
Lemma align_drop_r a y b n : align a (y :: b) n -> exists m, m <= n + 1 /\ align a b m.
Proof.
  intros HA. remember (y :: b) as c eqn:Ec. revert y b Ec. induction HA as [|x a c n HA IH|x z a c n HA IH|x a c n HA IH|z a c n HA IH|x z a c n HA IH]; intros y b Ec; try done.
  - injection Ec as <- <-. exists (n + 1). split; [lia|by constructor].
  - injection Ec as <- <-. exists (n + 1). split; [lia|by constructor].
  - destruct (IH y b Ec) as (m & Hm & HB). exists (m + 1). split; [lia|by constructor].
  - injection Ec as <- <-. exists n. split; [lia|done].
  - injection Ec as <- <-. exists (n + 1). split; [lia|]. by do 2 constructor.
Qed.
Lemma align_drop_l x a b n : align (x :: a) b n -> exists m, m <= n + 1 /\ align a b m.
Proof. intros HA. apply align_sym, align_drop_r in HA as (m & Hm & HA). exists m. split; [done|]. by apply align_sym. Qed.

(** Equal first characters need not be edited. *)
Lemma align_keep_inv x a b n : align (x :: a) (x :: b) n -> exists m, m <= n /\ align a b m.
Proof.
  inversion 1 as [|? ? ? ? HA|? ? ? ? m HA|? ? ? m HA|? ? ? m HA|? y a' b' m HA]; subst.
  - by exists n.
  - exists m. split; [lia|done].
  - by apply align_drop_r in HA.
  - by apply align_drop_l in HA.
  - exists m. split; [lia|]. by constructor.
Qed.

Lemma least_keep x a b d : least_cost (x :: a) (x :: b) d <-> least_cost a b d.
Proof.
  split; intros [H1 H2].
  - destruct (align_keep_inv x a b d H1) as (m & Hm & HA). pose proof (H2 m (al_keep x a b m HA)). assert (m = d) as -> by lia. split; [done|]. intros n Hn. by apply H2, al_keep.
  - split; [by apply al_keep|]. intros n Hn. destruct (align_keep_inv x a b n Hn) as (m & Hm & HA). specialize (H2 m HA). lia.
Qed.

Lemma least_reverse a b d : least_cost (reverse a) (reverse b) d <-> least_cost a b d.
Proof.
  assert (G : forall a b, least_cost a b d -> least_cost (reverse a) (reverse b) d).
  { intros a' b' [H1 H2]. split; [by apply align_reverse|]. intros n Hn. apply H2. apply align_reverse in Hn. by rewrite !reverse_involutive in Hn. }
  split; [|apply G]. intros H. apply G in H. by rewrite !reverse_involutive in H.
Qed.

Lemma least_sym a b d : least_cost a b d -> least_cost b a d.
Proof. intros [H1 H2]. split; [by apply align_sym|]. intros n Hn. by apply H2, align_sym. Qed.

Lemma least_nil_r a : least_cost a [] (Z.of_nat (length a)).
Proof.
  split; [|intros n Hn; apply align_length in Hn; simpl in Hn; lia]. induction a as [|x a IH]; [constructor|]. eapply align_cost; [by apply al_delete|]. cbn [length]. lia.
Qed.
Lemma least_nil_l b : least_cost [] b (Z.of_nat (length b)).
Proof. apply least_sym, least_nil_r. Qed.

Lemma least_length a b d : least_cost a b d -> Z.abs (Z.of_nat (length a) - Z.of_nat (length b)) <= d.
Proof. intros [H _]. by apply align_length. Qed.

Lemma least_zero a b : least_cost a b 0 -> a = b.
Proof.
  intros [H _]. remember 0 as z eqn:Ez. induction H as [|x a b n HA IH|x y a b n HA _|x a b n HA _|y a b n HA _|x y a b n HA _]; [done|by rewrite IH|..]; apply align_nonneg in HA; lia.
Qed.

(** *** The recursion, on the first characters *)

Section Recursion.
Context `{EqDecision T}.

Definition substitution (x y : T) : Z := if decide (x = y) then 0 else 1.

Lemma align_subst x y a b n : align a b n -> align (x :: a) (y :: b) (n + substitution x y).
Proof.
  intros HA. unfold substitution. destruct (decide (x = y)) as [->|]; [|by constructor]. eapply align_cost; [by apply al_keep|lia].
Qed.

(** An alignment begins in one of four ways. *)
Lemma align_cons_inv x a y b n : align (x :: a) (y :: b) n ->
  (exists m, align a (y :: b) m /\ m + 1 <= n) \/ (exists m, align (x :: a) b m /\ m + 1 <= n)
  \/ (exists m, align a b m /\ m + substitution x y <= n)
  \/ (exists a' b' m, a = y :: a' /\ b = x :: b' /\ align a' b' m /\ m + 1 <= n).
Proof.
  assert (HS : 0 <= substitution x y <= 1) by (unfold substitution; case_decide; lia).
  inversion 1 as [|? ? ? ? HA|? ? ? ? m HA|? ? ? m HA|? ? ? m HA|? y' a' b' m HA]; subst.
  - right; right; left. exists n. split; [done|]. unfold substitution. rewrite decide_True by done. lia.
  - right; right; left. exists m. split; [done|lia].
  - left. exists m. split; [done|lia].
  - right; left. exists m. split; [done|lia].
  - right; right; right. exists a', b', m. by repeat split.
Qed.

(** The cell of two nonempty words, from three others and, when their first two characters are exchanged, a fourth. *)
Definition swapped x a y b (swap : option Z) : Prop :=
  match swap with
  | Some s => exists a' b', a = y :: a' /\ b = x :: b' /\ least_cost a' b' s
  | None => forall a' b', a = y :: a' -> b = x :: b' -> False
  end.
Definition cell x y (p q r : Z) (swap : option Z) : Z :=
  let c := Z.min (p + 1) (Z.min (q + 1) (r + substitution x y)) in match swap with Some s => Z.min c (s + 1) | None => c end.

Lemma least_cons x a y b p q r swap :
  least_cost a (y :: b) p -> least_cost (x :: a) b q -> least_cost a b r -> swapped x a y b swap ->
  least_cost (x :: a) (y :: b) (cell x y p q r swap).
Proof.
  intros [Hp Lp] [Hq Lq] [Hr Lr] HS. split.
  - pose proof (al_delete x _ _ _ Hp) as P. pose proof (al_insert y _ _ _ Hq) as Q. pose proof (align_subst x y _ _ _ Hr) as R.
    assert (C : align (x :: a) (y :: b) (Z.min (p + 1) (Z.min (q + 1) (r + substitution x y)))).
    { destruct (Z.min_spec (q + 1) (r + substitution x y)) as [[_ ->]|[_ ->]]; [destruct (Z.min_spec (p + 1) (q + 1)) as [[_ ->]|[_ ->]]|destruct (Z.min_spec (p + 1) (r + substitution x y)) as [[_ ->]|[_ ->]]]; done. }
    unfold cell. destruct swap as [s|]; [|done]. destruct HS as (a' & b' & -> & -> & [HA _]). pose proof (al_transpose x y _ _ _ HA) as S.
    destruct (Z.min_spec (Z.min (p + 1) (Z.min (q + 1) (r + substitution x y))) (s + 1)) as [[_ ->]|[_ ->]]; done.
  - intros n Hn. apply align_cons_inv in Hn as [(m & HA & Hm)|[(m & HA & Hm)|[(m & HA & Hm)|(a' & b' & m & -> & -> & HA & Hm)]]].
    + specialize (Lp m HA). unfold cell. destruct swap; lia.
    + specialize (Lq m HA). unfold cell. destruct swap; lia.
    + specialize (Lr m HA). unfold cell. destruct swap; lia.
    + destruct swap as [s|]; [|destruct (HS a' b' eq_refl eq_refl)]. destruct HS as (? & ? & [= <-] & [= <-] & [_ L]). specialize (L m HA). unfold cell. lia.
Qed.

(** The distance is defined for every two words. *)
Lemma least_exists a b : exists d, least_cost a b d.
Proof.
  remember (length a + length b)%nat as k eqn:Hk. revert a b Hk. induction k as [k IH] using lt_wf_ind. intros a b ->.
  destruct a as [|x a]; [eexists; apply least_nil_l|]. destruct b as [|y b]; [eexists; apply least_nil_r|]. cbn [length] in IH.
  destruct (IH (length a + S (length b))%nat ltac:(lia) a (y :: b) eq_refl) as [p Hp].
  destruct (IH (S (length a) + length b)%nat ltac:(lia) (x :: a) b eq_refl) as [q Hq].
  destruct (IH (length a + length b)%nat ltac:(lia) a b eq_refl) as [r Hr].
  assert (exists swap, swapped x a y b swap) as [swap HS].
  { destruct a as [|y' a]; [by exists None|]. destruct b as [|x' b]; [by exists None|].
    destruct (decide (y' = y)) as [->|]; [|exists None; by intros ? ? [= -> ->]]. destruct (decide (x' = x)) as [->|]; [|exists None; by intros ? ? ? [= -> ->]].
    destruct (IH (length a + length b)%nat ltac:(cbn [length]; lia) a b eq_refl) as [s Hs]. exists (Some s). by exists a, b. }
  eexists. by apply least_cons.
Qed.

(** *** The recursion, on the last characters *)

Definition swapped_last x a y b (swap : option Z) : Prop :=
  match swap with
  | Some s => exists a' b', a = a' ++ [y] /\ b = b' ++ [x] /\ least_cost a' b' s
  | None => forall a' b', a = a' ++ [y] -> b = b' ++ [x] -> False
  end.

Lemma least_snoc x a y b p q r swap :
  least_cost a (b ++ [y]) p -> least_cost (a ++ [x]) b q -> least_cost a b r -> swapped_last x a y b swap ->
  least_cost (a ++ [x]) (b ++ [y]) (cell x y p q r swap).
Proof.
  intros Hp Hq Hr HS. apply least_reverse. rewrite !reverse_snoc. apply least_reverse in Hp, Hq, Hr. rewrite ?reverse_snoc in Hp, Hq.
  apply least_cons; try done. destruct swap as [s|].
  - destruct HS as (a' & b' & -> & -> & H). exists (reverse a'), (reverse b'). rewrite !reverse_snoc. by rewrite least_reverse.
  - intros a' b' Ha Hb. apply (HS (reverse a') (reverse b')); by rewrite <- reverse_cons, <- ?Ha, <- ?Hb, reverse_involutive.
Qed.

(** *** The ends that two words share *)

Lemma strip_prefix_least a b a' b' d : strip_common_prefix a b = (a', b') -> least_cost a' b' d <-> least_cost a b d.
Proof.
  revert a. induction b as [|y b IH]; intros [|x a]; cbn [strip_common_prefix]; try (by intros [= <- <-]).
  destruct (decide (x = y)) as [->|]; [|by intros [= <- <-]]. intros H. rewrite least_keep. by apply IH.
Qed.

Lemma strip_suffix_least a b a' b' d : strip_common_suffix a b = (a', b') -> least_cost a' b' d <-> least_cost a b d.
Proof.
  unfold strip_common_suffix. destruct (strip_common_prefix (reverse a) (reverse b)) as [u v] eqn:E. intros [= <- <-].
  by rewrite least_reverse, (strip_prefix_least _ _ _ _ d E), least_reverse.
Qed.

Lemma strip_prefix_length a b a' b' : strip_common_prefix a b = (a', b') -> (length a + length b' = length b + length a')%nat.
Proof.
  revert a. induction b as [|y b IH]; intros [|x a]; cbn [strip_common_prefix]; try (intros [= <- <-]; cbn [length]; lia).
  destruct (decide (x = y)) as [->|]; [|intros [= <- <-]; cbn [length]; lia]. intros H%IH. cbn [length]. lia.
Qed.

Lemma strip_suffix_length a b a' b' : strip_common_suffix a b = (a', b') -> (length a + length b' = length b + length a')%nat.
Proof.
  unfold strip_common_suffix. destruct (strip_common_prefix (reverse a) (reverse b)) as [u v] eqn:E. intros [= <- <-].
  apply strip_prefix_length in E. by rewrite !length_reverse in *.
Qed.
End Recursion.

(** ** The early stop *)

(** Every alignment passes through a row or, in an exchange, through the row above it, at no greater cost. *)
Definition cut a1 b n : Prop := exists b1 b2 m, b = b1 ++ b2 /\ m <= n /\ (align a1 b1 m \/ exists a0 x, a1 = a0 ++ [x] /\ align a0 b1 m).

Lemma cut_extend u v a1 b n (k : Z) : cut a1 b n -> (forall a b m, align a b m -> align (u ++ a) (v ++ b) (m + k)) -> cut (u ++ a1) (v ++ b) (n + k).
Proof.
  intros (b1 & b2 & m & -> & Hm & HC) HE. exists (v ++ b1), b2, (m + k). split_and!; [by rewrite app_assoc|lia|].
  destruct HC as [HA|(a0 & x & -> & HA)]; [left; by apply HE|]. right. exists (u ++ a0), x. split; [by rewrite app_assoc|by apply HE].
Qed.

Lemma cut_nil b n : 0 <= n -> cut [] b n.
Proof. intros Hn. exists [], b, 0. split_and!; [done|done|left; constructor]. Qed.

Lemma cut_cost a1 b n n' : cut a1 b n -> n = n' -> cut a1 b n'.
Proof. by intros ? <-. Qed.

Lemma align_cut a b n a1 a2 : align a b n -> a = a1 ++ a2 -> cut a1 b n.
Proof.
  intros HA. revert a1. induction HA as [|x a b n HA IH|x y a b n HA IH|x a b n HA IH|y a b n HA IH|x y a b n HA IH]; intros [|z a1] E; simplify_eq/=; try (apply align_nonneg in HA; apply cut_nil; lia).
  - by apply cut_nil.
  - eapply cut_cost; [apply (cut_extend [z] [z] _ _ n 0 (IH a1 eq_refl))|lia]. intros ? ? m ?. eapply align_cost; [by apply al_keep|lia].
  - apply (cut_extend [z] [y] _ _ n 1 (IH a1 eq_refl)). intros. by apply al_substitute.
  - apply (cut_extend [z] [] _ _ n 1 (IH a1 eq_refl)). intros. by apply al_delete.
  - apply (cut_extend [] [y] _ _ n 1 (IH (z :: a1) eq_refl)). intros. by apply al_insert.
  - destruct a1 as [|w a1]; simplify_eq/=.
    + apply align_nonneg in HA. exists [], (y :: z :: b), 0. split_and!; [done|lia|]. right. exists [], z. split; [done|constructor].
    + apply (cut_extend [z; w] [w; z] _ _ n 1 (IH a1 eq_refl)). intros. by apply al_transpose.
Qed.
End Align.

(** ** The table *)

Section Table.
Context {T : Type} `{EqDecision T} (a b : list T).
Implicit Types (row prev_prev prev current : list Z) (i j k : nat).

(** The first [k] cells of row [i]. *)
Definition cells i row k : Prop := forall j, (j < k)%nat -> exists c, row !! j = Some c /\ least_cost (take i a) (take j b) c.
Definition row_ok i row : Prop := length row = S (length b) /\ cells i row (S (length b)).
Definition above (low : Z) row k : Prop := forall j c, (j < k)%nat -> row !! j = Some c -> low <= c.

Lemma cells_insert i row k c : cells i row k -> (k < length row)%nat -> least_cost (take i a) (take k b) c -> cells i (<[k := c]> row) (S k).
Proof.
  intros HC Hk HL j Hj. destruct (decide (j = k)) as [->|]; [exists c; split; [by apply list_lookup_insert_eq|done]|].
  rewrite list_lookup_insert_ne by done. apply HC. lia.
Qed.

Lemma above_insert low row k c : above low row k -> above (Z.min low c) (<[k := c]> row) (S k).
Proof.
  intros HA j c' Hj Hl. destruct (decide (j = k)) as [->|].
  - destruct (decide (k < length row)%nat); [rewrite list_lookup_insert_eq in Hl by done; injection Hl as <-; lia|].
    apply lookup_lt_Some in Hl. rewrite length_insert in Hl. lia.
  - rewrite list_lookup_insert_ne in Hl by done. specialize (HA j c' ltac:(lia) Hl). lia.
Qed.

(** Two exchanged characters, read at their indices. *)
Lemma swapped_at i j x y x' y' s : a !! i = Some x' -> b !! j = Some y' ->
  (x = y' /\ x' = y -> exists c, s = Some c /\ least_cost (take i a) (take j b) c) -> (~ (x = y' /\ x' = y) -> s = None) ->
  swapped_last x (take (S i) a) y (take (S j) b) s.
Proof.
  intros Hx Hy H1 H2. rewrite (take_S_r _ _ _ Hx), (take_S_r _ _ _ Hy). destruct (decide (x = y')) as [->|N1]; [destruct (decide (x' = y)) as [->|N2]|].
  - destruct H1 as (c & -> & HL); [done|]. by exists (take i a), (take j b).
  - rewrite H2 by tauto. intros ? ? E _. apply app_inj_tail in E as [_ E]. done.
  - rewrite H2 by tauto. intros ? ? _ E. apply app_inj_tail in E as [_ E]. done.
Qed.

Lemma column_ok i j prev_prev prev current low :
  (1 <= i <= length a)%nat -> (1 <= j <= length b)%nat -> row_ok (i - 1) prev -> ((1 < i)%nat -> row_ok (i - 2) prev_prev) ->
  length current = S (length b) -> cells i current j -> above low current j ->
  runs (column a b i prev_prev prev (current, low) j) (fun st => length st.1 = S (length b) /\ cells i st.1 (S j) /\ above st.2 st.1 (S j)).
Proof.
  intros Hi Hj [Lp Hp] Hpp Lc Hc Hab.
  destruct i as [|i]; [lia|]. destruct j as [|j]; [lia|]. replace (S i - 1)%nat with i in * by lia.
  destruct (lookup_lt_is_Some_2 a i ltac:(lia)) as [x Hx]. destruct (lookup_lt_is_Some_2 b j ltac:(lia)) as [y Hy].
  destruct (Hp (S j) ltac:(lia)) as (p & Ep & HLp). destruct (Hc j ltac:(lia)) as (q & Eq & HLq). destruct (Hp j ltac:(lia)) as (r & Er & HLr).
  unfold column. replace (S i - 1)%nat with i by lia. replace (S j - 1)%nat with j by lia. rewrite Hx, Hy, Ep, Eq, Er. cbn [unwrap obind].
  fold (substitution x y).
  rewrite (take_S_r _ _ _ Hy) in HLp. rewrite (take_S_r _ _ _ Hx) in HLq.
  assert (F : forall s, swapped_last x (take i a) y (take j b) s -> runs (Ret (<[S j := cell x y p q r s]> current, Z.min low (cell x y p q r s)))
     (fun st => length st.1 = S (length b) /\ cells (S i) st.1 (S (S j)) /\ above st.2 st.1 (S (S j)))).
  { intros s HS. eexists. split; [done|]. cbn [fst snd]. split_and!; [by rewrite length_insert| |by apply above_insert].
    apply cells_insert; [done|lia|]. rewrite (take_S_r _ _ _ Hx), (take_S_r _ _ _ Hy). by apply least_snoc. }
  destruct i as [|i]; [apply (F None); intros [|] ? E; by destruct a|]. destruct j as [|j]; [apply (F None); intros ? [|] _ E; by destruct b|].
  cbn [Nat.ltb Nat.leb andb]. replace (S i - 1)%nat with i by lia. replace (S j - 1)%nat with j by lia. replace (S (S j) - 2)%nat with j by lia.
  destruct (lookup_lt_is_Some_2 a i ltac:(lia)) as [x' Hx']. destruct (lookup_lt_is_Some_2 b j ltac:(lia)) as [y' Hy']. rewrite Hx', Hy'. cbn [unwrap obind].
  destruct (Hpp ltac:(lia)) as [_ Hpp']. replace (S (S i) - 2)%nat with i in Hpp' by lia. destruct (Hpp' j ltac:(lia)) as (s & Es & HLs).
  destruct (bool_decide (x = y') && bool_decide (x' = y)) eqn:EB.
  - apply andb_true_iff in EB as [E1%bool_decide_eq_true E2%bool_decide_eq_true]. rewrite Es. cbn [unwrap obind]. apply (F (Some s)). eapply swapped_at; [done|done|by exists s|tauto].
  - cbn [obind]. apply (F None). eapply swapped_at; [done|done| |done]. intros [-> ->]. by rewrite !bool_decide_true in EB.
Qed.

Lemma row_step i prev_prev prev current :
  (1 <= i <= length a)%nat -> row_ok (i - 1) prev -> ((1 < i)%nat -> row_ok (i - 2) prev_prev) -> length current = S (length b) ->
  runs (fold_out (column a b i prev_prev prev) (seq 1 (length b)) (<[0%nat := Z.of_nat i]> current, Z.of_nat i))
    (fun st => row_ok i st.1 /\ above st.2 st.1 (S (length b))).
Proof.
  intros Hi Hp Hpp Lc.
  pose (I := fun (l : list nat) (st : list Z * Z) => length st.1 = S (length b) /\ cells i st.1 (S (length l)) /\ above st.2 st.1 (S (length l))).
  eapply runs_mono; [apply (runs_fold _ I)|].
  - unfold I. cbn [fst snd length]. split_and!; [by rewrite length_insert| |].
    + apply cells_insert; [intros j; lia|lia|]. eapply eq_ind; [apply least_nil_r|]. rewrite length_take. lia.
    + intros j c Hj Hl. assert (j = 0%nat) as -> by lia. rewrite list_lookup_insert_eq in Hl by lia. injection Hl as <-. lia.
  - intros l1 j l2 [cur low] E (HL & HC & HA). cbn [fst snd] in *. assert (j = S (length l1)) as ->.
    { apply (f_equal (fun l => l !! length l1)) in E. rewrite list_lookup_middle in E by done. apply lookup_seq in E as [-> _]. done. }
    apply (f_equal length) in E. rewrite length_app, length_seq in E. cbn [length] in E.
    eapply runs_mono; [apply column_ok; try done; lia|]. intros st Hst. unfold I. by rewrite length_app, Nat.add_1_r.
  - intros [cur low] (HL & HC & HA). cbn [fst snd] in *. rewrite length_seq in HC, HA. by split.
Qed.

(** No word costs less than the cells of its row, so two rows over the limit decide. *)
Lemma row_bound i row low limit b1 b2 m : row_ok i row -> above low row (S (length b)) -> limit < low -> b = b1 ++ b2 -> align (take i a) b1 m -> limit < m.
Proof.
  intros [_ HC] HA HL Eb HAl. assert (Hl : (length b1 < S (length b))%nat) by (rewrite Eb, length_app; lia). destruct (HC (length b1) Hl) as (c & Ec & [_ HM]).
  rewrite Eb, take_app_length in HM. specialize (HM m HAl). specialize (HA (length b1) c Hl Ec). lia.
Qed.

Lemma rows_stop i prev low_prev current low limit n :
  (1 <= i <= length a)%nat -> row_ok (i - 1) prev -> above low_prev prev (S (length b)) -> row_ok i current -> above low current (S (length b)) ->
  limit < low -> limit < low_prev -> align a b n -> limit < n.
Proof.
  intros Hi Hp Ap Hc Ac L1 L2 HA. destruct (align_cut a b n (take i a) (drop i a) HA) as (b1 & b2 & m & Eb & Hm & HC); [by rewrite take_drop|].
  enough (limit < m) by lia. destruct HC as [HC|(a0 & x & Ea & HC)]; [by eapply row_bound|].
  eapply (row_bound (i - 1)); [done|done|done|done|]. assert (take (i - 1) a = a0) as ->; [|done].
  apply (f_equal (take (i - 1))) in Ea as Et. rewrite take_take in Et. replace (Nat.min (i - 1) i) with (i - 1)%nat in Et by lia. rewrite Et.
  apply (f_equal length) in Ea. rewrite length_take, length_app in Ea. cbn [length] in Ea. rewrite take_app_le by lia. apply take_ge. lia.
Qed.

Lemma rows_ok todo i limit prev_prev prev current low :
  (todo + i = S (length a))%nat -> (1 <= i)%nat -> row_ok (i - 1) prev -> ((1 < i)%nat -> row_ok (i - 2) prev_prev) ->
  length prev_prev = S (length b) -> length current = S (length b) -> above low prev (S (length b)) ->
  runs (rows todo i a b limit prev_prev prev current low)
    (fun r => match r with Some row => row_ok (length a) row | None => forall n, align a b n -> limit < n end).
Proof.
  revert i prev_prev prev current low. induction todo as [|todo IH]; intros i prev_prev prev current low Ht Hi Hp Hpp Lpp Lc Ab; cbn [rows].
  - apply runs_ret. by replace (i - 1)%nat with (length a) in Hp by lia.
  - eapply runs_bind; [apply row_step; [lia|done|done|done]|]. intros [cur low'] [Hc Ac]. cbn [fst snd] in *.
    destruct ((limit <? low') && (limit <? low)) eqn:ES.
    + apply runs_ret. propify. intros n. apply (rows_stop i prev low cur low'); try done; lia.
    + apply IH; [lia|lia|by replace (S i - 1)%nat with i by lia|by replace (S i - 2)%nat with (i - 1)%nat by lia|by destruct Hp|done|done].
Qed.
End Table.

(** ** The distance *)

Definition within (d limit : Z) : option Z := if d <=? limit then Some d else None.

Section DistanceOk.
Context {T : Type} `{EqDecision T}.
Implicit Types a b : list T.

Lemma within_none d limit : limit < d -> within d limit = None.
Proof. intros H. unfold within. by rewrite (proj2 (Z.leb_gt _ _) H). Qed.

Lemma table_ok a b limit d : least_cost a b d ->
  (let* r := rows (length a) 1 a b limit (repeat usize_max (length b + 1)) (Z.of_nat <$> seq 0 (length b + 1)) (repeat 0 (length b + 1)) 0 in
   match r with
   | None => Ret None
   | Some prev => let* distance := unwrap (prev !! length b) in Ret (if distance <=? limit then Some distance else None)
   end) = Ret (within d limit).
Proof.
  intros HL. destruct (rows_ok a b (length a) 1 limit (repeat usize_max (length b + 1)) (Z.of_nat <$> seq 0 (length b + 1)) (repeat 0 (length b + 1)) 0) as (r & -> & Hr).
  - lia.
  - lia.
  - split; [rewrite length_fmap, length_seq; lia|]. intros j Hj. exists (Z.of_nat j). rewrite list_lookup_fmap, lookup_seq_lt by lia. split; [done|].
    eapply eq_ind; [apply least_nil_l|]. rewrite length_take. lia.
  - lia.
  - rewrite repeat_length. lia.
  - rewrite repeat_length. lia.
  - intros j c _ Hl. rewrite list_lookup_fmap in Hl. destruct (seq 0 (length b + 1) !! j); [|done]. injection Hl as <-. lia.
  - cbn [obind]. destruct r as [row|].
    + destruct Hr as [_ HC]. destruct (HC (length b) ltac:(lia)) as (c & -> & Hc). rewrite !take_ge in Hc by done. by rewrite (least_unique _ _ _ _ HL Hc).
    + destruct HL as [HL _]. by rewrite within_none by (by apply Hr).
Qed.

Lemma distance_ok a b limit d : least_cost a b d -> distance a b limit = Ret (within d limit).
Proof.
  intros HL. unfold distance.
  assert (exists u v, (if (length a <? length b)%nat then (b, a) else (a, b)) = (u, v) /\ least_cost u v d /\ (length v <= length u)%nat) as (u & v & -> & HU & Hlen).
  { case_if E; propify; [exists b, a; split_and!; [done|by apply least_sym|lia]|by exists a, b]. }
  apply least_length in HU as HM. destruct (limit <? Z.of_nat (length u - length v)) eqn:E; [propify; by rewrite within_none by lia|]. propify.
  destruct (strip_common_prefix u v) as [u1 v1] eqn:E1. destruct (strip_common_suffix u1 v1) as [u2 v2] eqn:E2.
  rewrite <- (strip_prefix_least _ _ _ _ d E1), <- (strip_suffix_least _ _ _ _ d E2) in HU. apply strip_prefix_length in E1. apply strip_suffix_length in E2.
  destruct (length v2 =? 0)%nat eqn:E0; [|by apply table_ok]. propify. destruct v2; [|done]. rewrite (least_unique _ _ _ _ HU (least_nil_r u2)). cbn [length] in *.
  unfold within. rewrite (proj2 (Z.leb_le _ _)) by lia. do 2 f_equal. lia.
Qed.
End DistanceOk.
