(* ===== verification/EditTheorems.v ===== *)
(** * Edit distance: the search for a name

    Words and their score, the order of texts, the first index of the best text of a list, the search in one pass
    against the search in the sorted list, that every search returns, and the theorems. *)
From Stdlib Require Import ZArith Lia.
From stdpp Require Import base numbers list option sorting.
From S2P Require Import Prelude RustStr SourceFile SourceNorm EditDistance EditAlign.
#[local] Open Scope Z_scope.
#[local] Open Scope rust_scope.

(** ** Words *)

Lemma as_bytes_of_ascii s : str_is_ascii s = true -> as_bytes s = s.
Proof.
  unfold str_is_ascii. induction s as [|c s IH]; cbn [forallb as_bytes]; [done|]. intros [Hc Hs]%andb_true_iff. by rewrite encode_utf8_ascii, IH.
Qed.

Lemma abs_diff_abs m n : Z.of_nat (abs_diff m n) = Z.abs (Z.of_nat m - Z.of_nat n).
Proof. unfold abs_diff. case_ifs; propify; lia. Qed.

Lemma edit_distance_ok (a b : str) limit d : least_cost a b d -> edit_distance a b limit = Ret (within d limit).
Proof.
  intros HL. unfold edit_distance. destruct (str_is_ascii a && str_is_ascii b) eqn:E; [propify; rewrite !as_bytes_of_ascii by done; by apply distance_ok|].
  apply least_length in HL as HM. destruct (limit <? Z.of_nat (abs_diff (length a) (length b))) eqn:E1; [|by apply distance_ok].
  propify. rewrite abs_diff_abs in E1. by rewrite within_none by lia.
Qed.

Lemma align_upper {T} (a b : list T) : exists n, align a b n /\ n <= Z.max (Z.of_nat (length a)) (Z.of_nat (length b)).
Proof.
  revert b. induction a as [|x a IH]; intros b; [exists (Z.of_nat (length b)); split; [apply least_nil_l|lia]|].
  destruct b as [|y b]; [exists (Z.of_nat (length (x :: a))); split; [apply least_nil_r|lia]|].
  destruct (IH b) as (n & HA & Hn). exists (n + 1). split; [by constructor|]. cbn [length]. lia.
Qed.

Lemma least_upper {T} (a b : list T) d : least_cost a b d -> d <= Z.max (Z.of_nat (length a)) (Z.of_nat (length b)).
Proof. intros [_ HM]. destruct (align_upper a b) as (n & HA & Hn). specialize (HM n HA). lia. Qed.

(** The score of two words with the distance [d]: an exact substring scores one, a length that differs by little
    counts by half. *)
Definition len_diff (a b : str) : Z := Z.abs (Z.of_nat (length a) - Z.of_nat (length b)).
Definition substring_score (a b : str) (d : Z) : Z :=
  if (length a * 2 <? length b)%nat || (length b * 2 <? length a)%nat then d
  else if (d =? len_diff a b) && (0 <? len_diff a b) then 1
  else d - len_diff a b + (len_diff a b + 1) / 2.

Lemma edit_distance_with_substrings_ok (a b : str) limit d : least_cost a b d -> 0 <= limit -> limit + len_diff a b <= usize_max ->
  edit_distance_with_substrings a b limit = Ret (within (substring_score a b d) limit).
Proof.
  intros HL H0 Hmax. unfold edit_distance_with_substrings. assert (Z.of_nat (abs_diff (length b) (length a)) = len_diff a b) as -> by (rewrite abs_diff_abs; unfold len_diff; lia).
  apply least_length in HL as HM. fold (len_diff a b) in HM. assert (HP : 0 <= len_diff a b) by (unfold len_diff; lia).
  unfold usize_max in Hmax. unfold wrap_u64. rewrite Z.mod_small by lia. rewrite (edit_distance_ok _ _ _ d HL). cbn [obind].
  pose proof (Z.div_pos (len_diff a b + 1) 2 ltac:(lia) ltac:(lia)) as Hd.
  unfold within, substring_score. destruct ((length a * 2 <? length b)%nat || (length b * 2 <? length a)%nat); cbn [negb andb]; rewrite ?andb_true_r, ?andb_false_r.
  - destruct (d <=? limit + len_diff a b) eqn:E; propify.
    + rewrite Z.mod_small by lia. replace (d - len_diff a b + len_diff a b) with d by lia. by rewrite !andb_false_r.
    + by rewrite (proj2 (Z.leb_gt _ _)) by lia.
  - destruct (d <=? limit + len_diff a b) eqn:E; propify.
    + rewrite Z.mod_small by lia. rewrite andb_true_r. replace (d - len_diff a b =? 0) with (d =? len_diff a b); [done|]. destruct (d =? len_diff a b) eqn:E1; propify; symmetry; [apply Z.eqb_eq|apply Z.eqb_neq]; lia.
    + rewrite (proj2 (Z.eqb_neq d _)) by lia. cbn [andb]. by rewrite (proj2 (Z.leb_gt _ _)) by lia.
Qed.

(** The distance as a function. *)
Definition distance_to (lookup text : str) : Z :=
  match edit_distance lookup text (Z.max (Z.of_nat (length lookup)) (Z.of_nat (length text))) with Ret (Some d) => d | _ => 0 end.

Lemma distance_to_least lookup text : least_cost lookup text (distance_to lookup text).
Proof.
  destruct (least_exists lookup text) as [d Hd]. unfold distance_to. rewrite (edit_distance_ok _ _ _ d Hd). unfold within.
  by rewrite (proj2 (Z.leb_le _ _) (least_upper _ _ _ Hd)).
Qed.

Lemma edit_distance_to lookup text limit : edit_distance lookup text limit = Ret (within (distance_to lookup text) limit).
Proof. apply edit_distance_ok, distance_to_least. Qed.

(** ** The order of texts *)

Lemma bytes_lt_irrefl x : bytes_lt x x = false.
Proof. induction x as [|c x IH]; [done|]. cbn [bytes_lt]. by rewrite IH, Z.ltb_irrefl, andb_false_r. Qed.

Lemma bytes_lt_trans x y z : bytes_lt x y = true -> bytes_lt y z = true -> bytes_lt x z = true.
Proof.
  revert y z. induction x as [|c x IH]; intros [|d y] [|e z]; cbn [bytes_lt]; try done.
  intros H1 H2. destruct (c <? e) eqn:E; [done|]. cbn [orb]. propify. destruct H1 as [H1|H1], H2 as [H2|H2]; propify; try lia. subst.
  rewrite Z.eqb_refl. by apply (IH y).
Qed.

Lemma bytes_lt_total x y : bytes_lt x y = false -> bytes_lt y x = false -> x = y.
Proof.
  revert y. induction x as [|c x IH]; intros [|d y]; cbn [bytes_lt]; try done.
  intros [N1%Z.ltb_ge H1]%orb_false_iff [N2%Z.ltb_ge H2]%orb_false_iff. assert (c = d) as -> by lia. rewrite Z.eqb_refl in *. by rewrite (IH y).
Qed.

Lemma str_lt_trans x y z : str_lt x y = true -> str_lt y z = true -> str_lt x z = true.
Proof. apply bytes_lt_trans. Qed.
Lemma str_lt_irrefl x : str_lt x x = false.
Proof. apply bytes_lt_irrefl. Qed.
Lemma str_lt_asym x y : str_lt x y = true -> str_lt y x = false.
Proof. intros H. destruct (str_lt y x) eqn:E; [|done]. pose proof (str_lt_trans _ _ _ H E) as HN. by rewrite str_lt_irrefl in HN. Qed.
Lemma str_lt_total x y : wf_str x -> wf_str y -> str_lt x y = false -> str_lt y x = false -> x = y.
Proof. intros Wx Wy H1 H2. pose proof (bytes_lt_total _ _ H1 H2) as HE. rewrite <- (decode_bytes x), <- (decode_bytes y) by done. by rewrite HE. Qed.

(** ** The best of a list *)

(** The first index of the best text that qualifies. *)
Section Best.
Context (better : str -> str -> bool) (qualifies : str -> bool).
Context (better_irrefl : forall t, better t t = false) (better_trans : forall t u v, better t u = true -> better u v = true -> better t v = true).
Implicit Types (texts : list str) (t u : str) (r : option nat).

Definition best_text texts t : Prop := t ∈ texts /\ qualifies t = true /\ forall u, u ∈ texts -> qualifies u = true -> better u t = false.
Definition best_result texts r : Prop :=
  match r with
  | Some i => exists t, texts !! i = Some t /\ best_text texts t /\ forall k, texts !! k = Some t -> (i <= k)%nat
  | None => forall t, t ∈ texts -> qualifies t = false
  end.

(** A loop that replaces what it has by what is strictly better finds it. *)
Lemma best_step texts u r : best_result texts r ->
  best_result (texts ++ [u])
    (if qualifies u && match r with None => true | Some i => match texts !! i with Some t => better u t | None => true end end
     then Some (length texts) else r).
Proof.
  intros HR. destruct r as [i|]; cbn [best_result] in HR.
  - destruct HR as (t & Ht & (HI & HQ & HB) & HF). rewrite Ht. destruct (qualifies u && better u t) eqn:E.
    + propify. exists u. split; [by apply list_lookup_middle|]. split; [split_and!; [apply elem_of_app; right; by apply list_elem_of_singleton|done|]|].
      * intros v [Hv|Hv%list_elem_of_singleton]%elem_of_app HQv; [|subst v; apply better_irrefl]. specialize (HB v Hv HQv). destruct (better v u) eqn:EV; [|done]. by rewrite (better_trans v u t) in HB.
      * intros k Hk. destruct (decide (k < length texts)%nat) as [L|L]; [|lia]. rewrite lookup_app_l in Hk by done. apply list_elem_of_lookup_2 in Hk. rewrite HB in * by done. done.
    + exists t. split; [apply lookup_app_l_Some; done|]. split; [split_and!; [apply elem_of_app; by left|done|]|].
      * intros v [Hv|Hv%list_elem_of_singleton]%elem_of_app HQv; [by apply HB|subst v]. by rewrite HQv in E.
      * intros k Hk. destruct (decide (k < length texts)%nat) as [L|L]; [rewrite lookup_app_l in Hk by done; by apply HF|]. apply lookup_lt_Some in Ht. lia.
  - rewrite andb_true_r. destruct (qualifies u) eqn:E.
    + exists u. split; [by apply list_lookup_middle|]. split; [split_and!; [apply elem_of_app; right; by apply list_elem_of_singleton|done|]|].
      * intros v [Hv|Hv%list_elem_of_singleton]%elem_of_app HQv; [by rewrite HR in HQv|subst v; apply better_irrefl].
      * intros k Hk. destruct (decide (k < length texts)%nat) as [L|L]; [|lia]. rewrite lookup_app_l in Hk by done. apply list_elem_of_lookup_2 in Hk. by rewrite HR in E.
    + intros v [Hv|Hv%list_elem_of_singleton]%elem_of_app; [by apply HR|by subst v].
Qed.

Lemma best_nil : best_result [] None.
Proof. intros t Ht. by apply not_elem_of_nil in Ht. Qed.

Lemma best_unique texts r r' : (forall t u, t ∈ texts -> u ∈ texts -> better t u = false -> better u t = false -> t = u) ->
  best_result texts r -> best_result texts r' -> r = r'.
Proof.
  intros HT. destruct r as [i|], r' as [j|]; cbn [best_result]; [|intros (t & _ & (HI & HQ & _) & _) HN; by rewrite HN in HQ|intros HN (t & _ & (HI & HQ & _) & _); by rewrite HN in HQ|done].
  intros (t & Ht & (HI & HQ & HB) & HF) (u & Hu & (HI' & HQ' & HB') & HF'). assert (t = u) as -> by (apply HT; [done|done|by apply HB'|by apply HB]).
  f_equal. specialize (HF j Hu). specialize (HF' i Ht). lia.
Qed.
End Best.

(** ** The loops over the texts *)

Section Loops.
Context `{Uppercase} (lookup : str).
Implicit Types (texts todo : list str) (t u : str).

Definition closer t u : bool := (distance_to lookup t <? distance_to lookup u) || ((distance_to lookup t =? distance_to lookup u) && str_lt t u).
Definition close_enough t : bool := distance_to lookup t <=? default_dist lookup.
Definition later t u : bool := str_lt u t.
Definition same_words t : bool := (str_len t =? str_len lookup)%nat && bool_decide (sort_by_words t = sort_by_words lookup).

Lemma closer_irrefl t : closer t t = false.
Proof. unfold closer. by rewrite Z.ltb_irrefl, str_lt_irrefl, andb_false_r. Qed.
Lemma closer_trans t u v : closer t u = true -> closer u v = true -> closer t v = true.
Proof.
  unfold closer. intros H1%orb_true_iff H2%orb_true_iff. apply orb_true_iff. destruct H1 as [H1|[H1 L1]%andb_true_iff], H2 as [H2|[H2 L2]%andb_true_iff]; propify; try (left; apply Z.ltb_lt; lia).
  right. apply andb_true_iff. split; [apply Z.eqb_eq; lia|by eapply str_lt_trans].
Qed.
Lemma later_irrefl t : later t t = false.
Proof. apply str_lt_irrefl. Qed.
Lemma later_trans t u v : later t u = true -> later u v = true -> later t v = true.
Proof. unfold later. intros H1 H2. by eapply str_lt_trans. Qed.

Lemma best_bound better qualifies texts i : best_result better qualifies texts (Some i) -> exists t, texts !! i = Some t.
Proof. intros (t & Ht & _). by exists t. Qed.

Lemma smallest_same_ok texts fst todo best : texts = fst ++ todo -> best_result str_lt (same_name lookup) fst best ->
  runs (smallest_same lookup texts (length fst) todo best) (best_result str_lt (same_name lookup) texts).
Proof.
  revert fst best. induction todo as [|u todo IH]; intros l best -> HB; cbn [smallest_same]; [rewrite app_nil_r; by apply runs_ret|].
  pose proof (best_step _ _ str_lt_irrefl str_lt_trans l u best HB) as HS. apply (runs_bind _ _ (fun better => better = match best with None => true | Some i => match l !! i with Some t => str_lt u t | None => true end end)).
  - destruct best as [i|]; [|by apply runs_ret]. destruct (best_bound _ _ _ _ HB) as [t Ht]. rewrite (lookup_app_l_Some _ _ _ _ Ht), Ht. by apply runs_ret.
  - intros better ->. replace (S (length l)) with (length (l ++ [u])) by (rewrite length_app; cbn [length]; lia). apply IH; [by rewrite <- app_assoc|done].
Qed.

Lemma largest_by_words_ok texts fst todo best : texts = fst ++ todo -> best_result later same_words fst best ->
  runs (largest_by_words lookup (sort_by_words lookup) texts (length fst) todo best) (best_result later same_words texts).
Proof.
  revert fst best. induction todo as [|u todo IH]; intros l best -> HB; cbn [largest_by_words]; [rewrite app_nil_r; by apply runs_ret|].
  pose proof (best_step _ _ later_irrefl later_trans l u best HB) as HS. apply (runs_bind _ _ (fun better => better = match best with None => true | Some i => match l !! i with Some t => later u t | None => true end end)).
  - destruct best as [i|]; [|by apply runs_ret]. destruct (best_bound _ _ _ _ HB) as [t Ht]. rewrite (lookup_app_l_Some _ _ _ _ Ht), Ht. by apply runs_ret.
  - intros better ->. replace (S (length l)) with (length (l ++ [u])) by (rewrite length_app; cbn [length]; lia). apply IH; [by rewrite <- app_assoc|done].
Qed.

(** The distance that [closest_text] keeps is that of the text at the index beside it. *)
Definition closest_result texts (closest : option (Z * nat)) : Prop :=
  best_result closer close_enough texts (snd <$> closest) /\ forall d i, closest = Some (d, i) -> exists t, texts !! i = Some t /\ d = distance_to lookup t.

Lemma closest_step texts rest u closest : closest_result texts closest ->
  runs (let* d := edit_distance lookup u match closest with None => default_dist lookup | Some (d, _) => d end in
        match d with
        | None => Ret closest
        | Some d =>
            let* better := match closest with
                           | None => Ret true
                           | Some (bd, b) => let* t := unwrap ((texts ++ rest) !! b) in Ret ((d <? bd) || ((d =? bd) && str_lt u t))
                           end in
            Ret (if (better : bool) then Some (d, length texts) else closest)
        end) (closest_result (texts ++ [u])).
Proof.
  intros [HB HD]. pose proof (best_step _ _ closer_irrefl closer_trans texts u _ HB) as HS. rewrite edit_distance_to. cbn [obind]. unfold within.
  assert (HN : forall c, best_result closer close_enough (texts ++ [u]) (snd <$> c) -> c = closest \/ c = Some (distance_to lookup u, length texts) -> runs (Ret c) (closest_result (texts ++ [u]))).
  { intros c Hc HE. apply runs_ret. split; [done|]. intros d i ->. destruct HE as [HE|[= -> ->]]; [|exists u; split; [by apply list_lookup_middle|done]].
    destruct (HD d i (eq_sym HE)) as (t & Ht & ->). exists t. split; [by apply lookup_app_l_Some|done]. }
  destruct closest as [[d i]|]; cbn [fmap option_fmap option_map snd] in *.
  - destruct (HD d i eq_refl) as (t & Ht & ->). assert (HQ : distance_to lookup t <= default_dist lookup).
    { destruct HB as (t' & Ht' & (_ & HQ & _) & _). rewrite Ht in Ht'. injection Ht' as <-. by apply Z.leb_le in HQ. }
    rewrite Ht in HS. rewrite (lookup_app_l_Some _ _ _ _ Ht). fold (closer u t) in HS |- *. cbn [unwrap obind].
    destruct (distance_to lookup u <=? distance_to lookup t) eqn:E; propify.
    + assert (close_enough u = true) as EC by (apply Z.leb_le; lia). rewrite EC in HS. fold (closer u t). cbn [andb obind] in *. destruct (closer u t); apply HN; by auto.
    + assert (closer u t = false) as EC. { unfold closer. by rewrite (proj2 (Z.ltb_ge _ _)), (proj2 (Z.eqb_neq _ _)) by lia. }
      rewrite EC, andb_false_r in HS. apply HN; by auto.
  - rewrite andb_true_r in HS. unfold close_enough in HS. destruct (distance_to lookup u <=? default_dist lookup); cbn [obind]; apply HN; by auto.
Qed.

Lemma closest_text_ok texts l todo closest : texts = l ++ todo -> closest_result l closest ->
  runs (closest_text lookup (default_dist lookup) texts (length l) todo closest) (fun r => best_result closer close_enough texts (snd <$> r)).
Proof.
  revert l closest. induction todo as [|u todo IH]; intros l closest E HC; cbn [closest_text]; [rewrite app_nil_r in E; subst; apply runs_ret; by destruct HC|].
  pose proof (closest_step l (u :: todo) u closest HC) as HS. rewrite <- E in HS. destruct HS as (c & HE & Hc).
  apply obind_ret in HE as (d & -> & HE). cbn [obind]. rewrite HE. cbn [obind]. replace (S (length l)) with (length (l ++ [u])) by (rewrite length_app; cbn [length]; lia).
  apply IH; [by rewrite <- app_assoc|done].
Qed.

(** The whole search: the first index of the best text, in the first of three senses in which there is one. *)
Definition best_of_three texts (r : option nat) : Prop :=
  exists r1 r2 r3, best_result str_lt (same_name lookup) texts r1 /\ best_result closer close_enough texts r2 /\ best_result later same_words texts r3
    /\ r = match r1, r2 with Some i, _ => Some i | None, Some i => Some i | None, None => r3 end.

Lemma as_if_sorted_ok texts : runs (find_best_match_index_as_if_sorted texts lookup) (best_of_three texts).
Proof.
  unfold find_best_match_index_as_if_sorted.
  destruct (smallest_same_ok texts [] texts None eq_refl (best_nil _ _)) as (r1 & E1 & H1). cbn [length] in E1. rewrite E1.
  destruct (closest_text_ok texts [] texts None eq_refl) as (r2 & E2 & H2); [split; [apply best_nil|done]|]. cbn [length] in E2. rewrite E2.
  destruct (largest_by_words_ok texts [] texts None eq_refl (best_nil _ _)) as (r3 & E3 & H3). cbn [length] in E3. rewrite E3.
  cbn [obind]. eexists. split; [|exists r1, (snd <$> r2), r3; split_and!; [done|done|done|done]]. by destruct r1, r2 as [[? ?]|].
Qed.

Lemma best_of_three_unique texts r r' : Forall wf_str texts -> best_of_three texts r -> best_of_three texts r' -> r = r'.
Proof.
  intros HW (r1 & r2 & r3 & H1 & H2 & H3 & ->) (r1' & r2' & r3' & H1' & H2' & H3' & ->).
  assert (HT : forall t u, t ∈ texts -> u ∈ texts -> str_lt t u = false -> str_lt u t = false -> t = u).
  { intros t u Ht Hu. rewrite list.Forall_forall in HW. apply str_lt_total; by apply HW. }
  assert (HL : forall t u, t ∈ texts -> u ∈ texts -> later t u = false -> later u t = false -> t = u) by (intros t u Ht Hu N1 N2; by apply HT).
  assert (HC : forall t u, t ∈ texts -> u ∈ texts -> closer t u = false -> closer u t = false -> t = u).
  { intros t u Ht Hu [N1%Z.ltb_ge L1]%orb_false_iff [N2%Z.ltb_ge L2]%orb_false_iff. replace (distance_to lookup u) with (distance_to lookup t) in * by lia. rewrite Z.eqb_refl in *. by apply HT. }
  by rewrite (best_unique _ _ _ _ _ HT H1 H1'), (best_unique _ _ _ _ _ HC H2 H2'), (best_unique _ _ _ _ _ HL H3 H3').
Qed.
End Loops.

(** ** The search in the sorted list *)

(** A stable sort by text: by text, then by index. *)
Definition entry_le (e f : nat * str) : Prop := str_lt e.2 f.2 = true \/ (str_lt f.2 e.2 = false /\ (e.1 <= f.1)%nat).
#[export] Instance entry_le_dec : RelDecision entry_le.
Proof. intros e f. unfold entry_le. apply _. Defined.

Section Sorted.
Context `{Uppercase} (lookup : str).
Implicit Types (texts names : list str) (t u : str) (entries : list (nat * str)).

Definition search_sorted texts : outcome (option nat) :=
  let entries := merge_sort entry_le (imap pair texts) in
  let* name := find_best_match_for_name (fun t => t) entries.*2 lookup None in
  Ret (match name with
       | None => None
       | Some name => match list_find (fun e => e.2 = name) entries with Some (_, e) => Some e.1 | None => None end
       end).

#[local] Instance entry_le_total : Total entry_le.
Proof.
  intros e f. unfold entry_le. destruct (str_lt e.2 f.2) eqn:E1; [by auto|]. destruct (str_lt f.2 e.2) eqn:E2; [by auto|].
  destruct (Nat.le_ge_cases e.1 f.1); auto.
Qed.
Lemma str_lt_false_trans t u v : str_lt t u = false -> str_lt u v = false -> str_lt t v = false.
Proof.
  unfold str_lt. intros H1 H2. destruct (bytes_lt (as_bytes t) (as_bytes v)) eqn:E; [|done].
  destruct (bytes_lt (as_bytes u) (as_bytes t)) eqn:E1; [by rewrite (bytes_lt_trans _ _ _ E1 E) in H2|]. rewrite (bytes_lt_total _ _ H1 E1) in E. by rewrite E in H2.
Qed.
#[local] Instance entry_le_trans : Transitive entry_le.
Proof.
  intros e f g H1 H2. unfold entry_le in *. destruct (str_lt e.2 g.2) eqn:E; [by left|]. right.
  destruct H1 as [H1|[H1 L1]], H2 as [H2|[H2 L2]].
  - by rewrite (str_lt_trans _ _ _ H1 H2) in E.
  - by rewrite (str_lt_false_trans _ _ _ E H2) in H1.
  - by rewrite (str_lt_false_trans _ _ _ H1 E) in H2.
  - split; [by eapply str_lt_false_trans|lia].
Qed.

(** In a sorted list of names, none is smaller than one before it. *)
Lemma entries_names entries : StronglySorted entry_le entries -> StronglySorted str_le entries.*2.
Proof.
  induction 1 as [|e l _ IH HF]; csimpl; constructor; [done|]. rewrite Forall_fmap. eapply Forall_impl; [exact HF|]. cbn. intros f [HL|[HL _]]; [by apply str_lt_asym|done].
Qed.

Lemma sorted_names_middle names l1 t l2 : StronglySorted str_le names -> names = l1 ++ t :: l2 ->
  (forall u, u ∈ l1 -> str_lt t u = false) /\ (forall u, u ∈ l2 -> str_lt u t = false).
Proof.
  intros HS ->. split; intros u Hu.
  - apply (StronglySorted_app_1_elem_of str_le l1 (t :: l2) u t HS Hu). left.
  - apply StronglySorted_app in HS as (_ & _ & HS). inversion HS as [|? ? _ HF]; subst. rewrite list.Forall_forall in HF. by apply HF.
Qed.

(** The first that qualifies is the smallest. *)
Lemma first_same names : StronglySorted str_le names ->
  match list_find (fun c => same_name lookup c = true) names with
  | Some (_, t) => best_text str_lt (same_name lookup) names t
  | None => forall t, t ∈ names -> same_name lookup t = false
  end.
Proof.
  intros HS. destruct (list_find _ names) as [[i t]|] eqn:E.
  - apply list_find_Some in E as (Hi & HQ & HF). pose proof (list_elem_of_split_length names i t Hi) as (l1 & l2 & E & EL).
    split_and!; [by eapply list_elem_of_lookup_2|done|]. intros u Hu HQu. destruct (sorted_names_middle _ _ _ _ HS E) as [_ HA]. rewrite E in Hu.
    apply elem_of_app in Hu as [Hu|Hu]; [|apply elem_of_cons in Hu as [->|Hu]; [apply str_lt_irrefl|by apply HA]].
    apply list_elem_of_lookup_1 in Hu as [k Hk]. apply lookup_lt_Some in Hk as HL. destruct (HF k u); [rewrite E; by apply lookup_app_l_Some|lia|done].
  - apply list_find_None in E. rewrite list.Forall_forall in E. intros t Ht. destruct (same_name lookup t) eqn:ES; [|done]. by apply E in Ht.
Qed.

(** What the loop over the candidates has: the first of the closest, and a limit below its distance. *)
Definition closest_so_far names (dist : Z) (best : option str) : Prop :=
  match best with
  | None => dist = default_dist lookup /\ forall t, t ∈ names -> close_enough lookup t = false
  | Some c => dist = distance_to lookup c - 1 /\ best_text (closer lookup) (close_enough lookup) names c
  end.

Lemma closest_so_far_step names u dist best : (forall t, t ∈ names -> str_lt u t = false) -> closest_so_far names dist best ->
  if distance_to lookup u <=? dist then closest_so_far (names ++ [u]) (distance_to lookup u - 1) (Some u) else closest_so_far (names ++ [u]) dist best.
Proof.
  intros HU HC. destruct (distance_to lookup u <=? dist) eqn:E; propify.
  - split; [done|]. assert (HQ : close_enough lookup u = true /\ forall t, t ∈ names -> close_enough lookup t = true -> distance_to lookup u < distance_to lookup t).
    { destruct best as [c|]; destruct HC as [-> HC]; [|split; [by apply Z.leb_le|intros t Ht HQ; by rewrite HC in HQ]]. destruct HC as (_ & HQ & HB). apply Z.leb_le in HQ.
      split; [apply Z.leb_le; lia|]. intros t Ht HQt. specialize (HB t Ht HQt). apply orb_false_iff in HB as [HB%Z.ltb_ge _]. lia. }
    destruct HQ as [HQ HD]. split_and!; [apply elem_of_app; right; by apply list_elem_of_singleton|done|].
    intros t [Ht|Ht%list_elem_of_singleton]%elem_of_app HQt; [|subst t; apply closer_irrefl]. specialize (HD t Ht HQt). unfold closer. by rewrite (proj2 (Z.ltb_ge _ _)), (proj2 (Z.eqb_neq _ _)) by lia.
  - destruct best as [c|]; destruct HC as [-> HC]; split; try done.
    + destruct HC as (HI & HQ & HB). split_and!; [apply elem_of_app; by left|done|]. intros t [Ht|Ht%list_elem_of_singleton]%elem_of_app HQt; [by apply HB|subst t].
      unfold closer. rewrite (proj2 (Z.ltb_ge _ _)) by lia. cbn [orb]. by rewrite HU, andb_false_r.
    + intros t [Ht|Ht%list_elem_of_singleton]%elem_of_app; [by apply HC|subst t]. by apply Z.leb_gt.
Qed.

Lemma distance_positive t : t <> lookup -> 0 < distance_to lookup t.
Proof.
  intros HN. pose proof (distance_to_least lookup t) as HL. destruct HL as [HA HM]. apply align_nonneg in HA as H0. destruct (decide (distance_to lookup t = 0)) as [E|]; [|lia].
  destruct HN. symmetry. apply least_zero. rewrite E in *. by split.
Qed.

Lemma closest_candidates_ok names l todo dist best : StronglySorted str_le names -> names = l ++ todo -> lookup ∉ names -> closest_so_far l dist best ->
  exists dist' best', closest_candidates (fun t => t) false lookup todo dist best [] = Ret (inr (best', [])) /\ closest_so_far names dist' best'.
Proof.
  revert l dist best. induction todo as [|u todo IH]; intros l dist best HS E HN HC; cbn [closest_candidates]; [exists dist, best; by rewrite app_nil_r in E; subst|].
  destruct (sorted_names_middle _ _ _ _ HS E) as [HB _]. pose proof (closest_so_far_step l u dist best HB HC) as HC'.
  assert (HP : 0 < distance_to lookup u). { apply distance_positive. intros ->. apply HN. rewrite E. apply elem_of_app. right. left. }
  rewrite edit_distance_to. cbn [obind]. unfold within. destruct (distance_to lookup u <=? dist).
  - rewrite (proj2 (Z.eqb_neq _ _)) by lia. apply (IH (l ++ [u])); [done|by rewrite <- app_assoc|done|done].
  - apply (IH (l ++ [u])); [done|by rewrite <- app_assoc|done|done].
Qed.

(** The last with the same words is the largest. *)
Lemma last_by_words names : StronglySorted str_le names ->
  match find_match_by_sorted_words (fun t => t) names lookup with
  | Some t => best_text later (same_words lookup) names t
  | None => forall t, t ∈ names -> same_words lookup t = false
  end.
Proof.
  unfold find_match_by_sorted_words. induction names as [|u names IH] using rev_ind; intros HS; [by intros t Ht%not_elem_of_nil|].
  rewrite foldl_snoc. fold (same_words lookup u). destruct (sorted_names_middle _ _ _ _ HS eq_refl) as [HB _]. apply StronglySorted_app_1_l in HS. specialize (IH HS).
  destruct (same_words lookup u) eqn:E.
  - split_and!; [apply elem_of_app; right; by apply list_elem_of_singleton|done|]. intros t [Ht|Ht%list_elem_of_singleton]%elem_of_app _; [by apply HB|subst t; apply later_irrefl].
  - destruct (foldl _ None names) as [c|].
    + destruct IH as (HI & HQ & HM). split_and!; [apply elem_of_app; by left|done|]. intros t [Ht|Ht%list_elem_of_singleton]%elem_of_app HQt; [by apply HM|subst t; by rewrite HQt in E].
    + intros t [Ht|Ht%list_elem_of_singleton]%elem_of_app; [by apply IH|by subst t].
Qed.

(** The sorted entries are those of the texts, so the first with a name is the one of the lowest index. *)
Definition sorted_entries texts : list (nat * str) := merge_sort entry_le (imap pair texts).
Definition index_of texts (name : option str) : option nat :=
  match name with
  | None => None
  | Some name => match list_find (fun e => e.2 = name) (sorted_entries texts) with Some (_, e) => Some e.1 | None => None end
  end.

Lemma sorted_entries_sorted texts : StronglySorted entry_le (sorted_entries texts).
Proof. apply StronglySorted_merge_sort; apply _. Qed.

Lemma elem_of_sorted_entries texts e : e ∈ sorted_entries texts <-> texts !! e.1 = Some e.2.
Proof.
  unfold sorted_entries. rewrite merge_sort_Permutation. rewrite elem_of_lookup_imap. destruct e as [i t]. cbn [fst snd]. split; [by intros (? & ? & [= -> ->] & ?)|].
  intros Ht. by exists i, t.
Qed.

Lemma elem_of_sorted_names texts t : t ∈ (sorted_entries texts).*2 <-> t ∈ texts.
Proof.
  rewrite list_elem_of_fmap. split.
  - intros (e & -> & He%elem_of_sorted_entries). by eapply list_elem_of_lookup_2.
  - intros [i Hi]%list_elem_of_lookup_1. exists (i, t). split; [done|]. by apply elem_of_sorted_entries.
Qed.

Lemma index_of_ok better qualifies texts name :
  match name with Some t => best_text better qualifies (sorted_entries texts).*2 t | None => forall t, t ∈ (sorted_entries texts).*2 -> qualifies t = false end ->
  best_result better qualifies texts (index_of texts name).
Proof.
  destruct name as [t|]; cbn [index_of]; [|intros HN t Ht; by apply HN, elem_of_sorted_names]. intros (HI & HQ & HB).
  destruct (list_find _ _) as [[k [i u]]|] eqn:E.
  - apply list_find_Some in E as (Hk & <- & HF). cbn [fst snd] in *. exists u. apply list_elem_of_lookup_2 in Hk as He. apply elem_of_sorted_entries in He. cbn [fst snd] in He.
    split; [done|]. split; [split_and!; [by apply elem_of_sorted_names|done|intros v Hv; by apply HB, elem_of_sorted_names]|].
    intros j Hj. assert (Hin : (j, u) ∈ sorted_entries texts) by (by apply elem_of_sorted_entries). apply list_elem_of_lookup_1 in Hin as [m Hm].
    destruct (decide (m < k)%nat) as [L|L]; [by destruct (HF m _ Hm L)|]. destruct (decide (m = k)) as [->|]; [rewrite Hk in Hm; by injection Hm as ->|].
    assert (HLE : entry_le (i, u) (j, u)).
    { pose proof (sorted_entries_sorted texts) as HS. rewrite <- (take_drop (S k) (sorted_entries texts)) in HS. eapply StronglySorted_app_1_elem_of; [exact HS| |].
      - apply (list_elem_of_lookup_2 _ k). by rewrite lookup_take_lt by lia.
      - apply (list_elem_of_lookup_2 _ (m - S k)). rewrite lookup_drop. by replace (S k + (m - S k))%nat with m by lia. }
    destruct HLE as [HLE|[_ HLE]]; cbn [fst snd] in HLE; [by rewrite str_lt_irrefl in HLE|done].
  - apply list_find_None in E. rewrite list.Forall_forall in E. apply list_elem_of_fmap in HI as (e & -> & He). by destruct (E e He).
Qed.

Lemma same_name_refl t : same_name t t = true.
Proof. unfold same_name, eq_ignore_ascii_case. case_if E; by apply bool_decide_eq_true. Qed.

Lemma search_sorted_ok texts : runs (search_sorted texts) (best_of_three lookup texts).
Proof.
  destruct (as_if_sorted_ok lookup texts) as (_ & _ & r1 & r2 & r3 & H1 & H2 & H3 & _). unfold search_sorted. fold (sorted_entries texts).
  pose proof (entries_names _ (sorted_entries_sorted texts)) as HS. pose proof (first_same _ HS) as HF. pose proof (last_by_words _ HS) as HW.
  unfold find_best_match_for_name. cbn [find_best_match_for_name_impl]. destruct (list_find _ (sorted_entries texts).*2) as [[k t]|].
  - cbn [obind]. apply runs_ret. pose proof (index_of_ok _ _ texts (Some t) HF) as HR. exists (index_of texts (Some t)), r2, r3. split_and!; [done|done|done|]. fold (index_of texts (Some t)).
    destruct (index_of texts (Some t)) eqn:EI; [done|]. destruct HF as (HI & HQ & _). cbn [best_result] in HR. rewrite HR in HQ by (by apply elem_of_sorted_names). done.
  - destruct (closest_candidates_ok (sorted_entries texts).*2 [] (sorted_entries texts).*2 (default_dist lookup) None HS eq_refl) as (dist & best & EC & HC).
    + intros HI. apply HF in HI. by rewrite same_name_refl in HI.
    + split; [done|]. by intros t Ht%not_elem_of_nil.
    + cbn [default]. rewrite EC. cbn [obind length Nat.ltb Nat.leb]. pose proof (index_of_ok str_lt _ texts None HF) as R1. pose proof (index_of_ok later _ texts _ HW) as R3.
      assert (R2 : best_result (closer lookup) (close_enough lookup) texts (index_of texts best)) by (apply index_of_ok; by destruct best; destruct HC).
      exists (match best with Some t => index_of texts (Some t) | None => index_of texts (find_match_by_sorted_words (fun t => t) (sorted_entries texts).*2 lookup) end).
      split; [by destruct best|]. exists None, (index_of texts best), (index_of texts (find_match_by_sorted_words (fun t => t) (sorted_entries texts).*2 lookup)). split_and!; [done|done|done|].
      destruct best as [t|]; [|done]. destruct (index_of texts (Some t)) eqn:EI; [done|]. destruct HC as [_ (HI & HQ & _)]. cbn [best_result] in R2. rewrite R2 in HQ by (by apply elem_of_sorted_names). done.
Qed.
End Sorted.

(** Two ASCII names are equal without regard to case exactly when they are equal in uppercase. *)
Lemma upper_lower c d : to_ascii_lowercase c = to_ascii_lowercase d <-> (if is_ascii_lower c then c - 32 else c) = (if is_ascii_lower d then d - 32 else d).
Proof. unfold to_ascii_lowercase, is_ascii_upper, is_ascii_lower. case_ifs; propify; lia. Qed.

Lemma ascii_uppercase_map `{UppercaseOk} s : wf_str s -> str_is_ascii s = true -> str_to_uppercase s = (fun c => if is_ascii_lower c then c - 32 else c) <$> s.
Proof.
  unfold str_is_ascii, str_to_uppercase. induction 1 as [|c s Hc _ IH]; cbn [forallb]; [done|]. intros [HA Hs]%andb_true_iff. csimpl. rewrite IH, to_uppercase_ascii; [done| |done].
  unfold is_scalar in Hc. unfold is_ascii in HA. propify. lia.
Qed.

Lemma fmap_eq_same {A B C} (f : A -> B) (g : A -> C) : (forall x y, f x = f y <-> g x = g y) -> forall l k : list A, f <$> l = f <$> k <-> g <$> l = g <$> k.
Proof.
  intros HE l. induction l as [|x l IH]; intros [|y k]; csimpl; [done|done|done|]. split; intros [= E1 E2]; f_equal; first [by apply HE|by apply IH].
Qed.

Lemma same_name_uppercase `{UppercaseOk} lookup text : wf_str lookup -> wf_str text -> same_name lookup text = bool_decide (str_to_uppercase text = str_to_uppercase lookup).
Proof.
  intros Wl Wt. unfold same_name, eq_ignore_ascii_case. case_if E; [|done]. propify. rewrite !ascii_uppercase_map by done. apply bool_decide_ext, fmap_eq_same, upper_lower.
Qed.

(** ** The search returns, and what it returns is a candidate *)

Section Total.
Context `{Uppercase} {Symbol : Type} (as_str : Symbol -> str).
Implicit Types (candidates next : list Symbol) (lookup : str).

Lemma edit_distance_runs a b limit : runs (edit_distance a b limit) (fun _ => True).
Proof. rewrite edit_distance_to. by apply runs_ret. Qed.

Lemma edit_distance_with_substrings_runs a b limit : runs (edit_distance_with_substrings a b limit) (fun _ => True).
Proof. unfold edit_distance_with_substrings. eapply runs_bind; [apply edit_distance_runs|]. intros [d|] _; by apply runs_ret. Qed.

Definition found_among candidates (r : Symbol + option Symbol * list Symbol) : Prop :=
  match r with inl c => c ∈ candidates | inr (best, next) => (forall c, best = Some c -> c ∈ candidates) /\ next ⊆ candidates end.

Lemma closest_candidates_runs substrings lookup candidates todo dist best next :
  todo ⊆ candidates -> (forall c, best = Some c -> c ∈ candidates) -> next ⊆ candidates -> (substrings = false -> next = []) ->
  runs (closest_candidates as_str substrings lookup todo dist best next)
    (fun r => found_among candidates r /\ (substrings = false -> match r with inr (_, next) => next = [] | _ => True end)).
Proof.
  revert dist best next. induction todo as [|c todo IH]; intros dist best next HT HB HN HF; cbn [closest_candidates]; [by apply runs_ret|].
  assert (Hc : c ∈ candidates) by (apply HT; left). assert (HT' : todo ⊆ candidates) by (intros x Hx; apply HT; by right).
  assert (HBc : forall c', Some c = Some c' -> c' ∈ candidates) by (by intros c' [= <-]).
  apply (runs_bind _ _ (fun _ => True)); [destruct substrings; [apply edit_distance_with_substrings_runs|apply edit_distance_runs]|]. intros [d|] _; [|by apply IH].
  destruct (d =? 0); [by apply runs_ret|]. destruct substrings; [|by apply IH]. destruct (d <? dist); apply IH; try done; intros x Hx; apply elem_of_app in Hx as [Hx|Hx%list_elem_of_singleton]; subst; try done; [by apply not_elem_of_nil in Hx|by apply HN].
Qed.

Lemma find_match_by_sorted_words_elem candidates lookup c : find_match_by_sorted_words as_str candidates lookup = Some c -> c ∈ candidates.
Proof.
  unfold find_match_by_sorted_words. induction candidates as [|d l IH] using rev_ind; [done|]. rewrite foldl_snoc. destruct (_ && _).
  - intros [= <-]. apply elem_of_app. right. by apply list_elem_of_singleton.
  - intros HE. apply elem_of_app. left. by apply IH.
Qed.

(** Two calls are enough: the inner one does not look at substrings, so it collects no ties. *)
Lemma find_impl_runs (substrings : bool) candidates symbol dist :
  runs (find_best_match_for_name_impl as_str 2 substrings candidates symbol dist) (fun r => forall c, r = Some c -> c ∈ candidates).
Proof.
  revert candidates dist. assert (G : forall fuel substrings (candidates : list Symbol) dist,
    (substrings = true -> forall (next : list Symbol) dist, runs (find_best_match_for_name_impl as_str fuel false next symbol dist) (fun r => forall c, r = Some c -> c ∈ next)) ->
    runs (find_best_match_for_name_impl as_str (S fuel) substrings candidates symbol dist) (fun r => forall c, r = Some c -> c ∈ candidates)).
  { intros fuel sub candidates dist HR. cbn [find_best_match_for_name_impl]. destruct (list_find _ candidates) as [[i c]|] eqn:E.
    - apply list_find_Some in E as (HE & _ & _). apply runs_ret. intros ? [= <-]. by eapply list_elem_of_lookup_2.
    - eapply runs_bind; [apply (closest_candidates_runs sub (as_str symbol) candidates candidates _ None []); [done|done|by intros c Hc%not_elem_of_nil|done]|].
      intros [c|[best next]] [HF HN]; cbn [found_among] in HF; [apply runs_ret; by intros ? [= <-]|]. destruct HF as [HB HS].
      apply (runs_bind _ _ (fun r => forall c, r = Some c -> c ∈ candidates)).
      + destruct (1 <? length next)%nat eqn:EL; [|by apply runs_ret]. destruct sub; [|by rewrite HN in EL]. eapply runs_mono; [by apply HR|]. intros r Hr c Hc. by apply HS, Hr.
      + intros [c|] Hb; apply runs_ret; [done|]. intros c. apply find_match_by_sorted_words_elem. }
  intros candidates dist. apply G. intros _ next dist'. by apply G.
Qed.

(** *** Several lookups *)

(** [c] is the match of [s]. *)
Definition matched candidates (dist : option Z) (s c : Symbol) : Prop := find_best_match_for_name as_str candidates s dist = Ret (Some c).
Abbreviation apart s c := (distance_to (as_str s) (as_str c)).

Context (short : forall s : Symbol, Z.of_nat (length (as_str s)) <= usize_max).

Lemma unlimited s c : edit_distance (as_str s) (as_str c) usize_max = Ret (Some (apart s c)).
Proof.
  rewrite edit_distance_to. unfold within. rewrite (proj2 (Z.leb_le _ _)); [done|]. pose proof (least_upper _ _ _ (distance_to_least (as_str s) (as_str c))). pose proof (short s). pose proof (short c). lia.
Qed.

Lemma matches_of_ok candidates lookups dist :
  runs (matches_of as_str candidates lookups dist) (fun found => forall d c, (d, c) ∈ found <-> exists s, s ∈ lookups /\ matched candidates dist s c /\ d = apart s c).
Proof.
  induction lookups as [|s lookups IH]; cbn [matches_of]; [apply runs_ret; intros d c; split; [by intros ?%not_elem_of_nil|by intros (? & ?%not_elem_of_nil & _)]|].
  destruct (find_impl_runs false candidates s dist) as (r & HR & _). destruct IH as (rest & -> & Hrest). rewrite HR. cbn [obind]. destruct r as [c0|].
  - rewrite unlimited. cbn [obind unwrap]. apply runs_ret. intros d c. rewrite elem_of_cons, Hrest. split.
    + intros [[= -> ->]|(s' & Hs' & HM)]; [exists s; split; [left|done]|exists s'; split; [by right|done]].
    + intros (s' & [->|Hs']%elem_of_cons & HM & ->); [left; unfold matched, find_best_match_for_name in HM; rewrite HR in HM; by injection HM as ->|right; by exists s'].
  - apply runs_ret. intros d c. rewrite Hrest. split; [intros (s' & Hs' & HM); exists s'; split; [by right|done]|].
    intros (s' & [->|Hs']%elem_of_cons & HM & ->); [unfold matched, find_best_match_for_name in HM; by rewrite HR in HM|by exists s'].
Qed.

Lemma min_by_distance_ok best (found : list (Z * Symbol)) : exists d, (d, min_by_distance best found) ∈ best :: found /\ forall x, x ∈ best :: found -> d <= x.1.
Proof.
  revert best. induction found as [|x found IH]; intros best; cbn [min_by_distance]; [exists best.1; split; [destruct best; left|intros y Hy%list_elem_of_singleton; by subst]|].
  destruct (IH (if x.1 <? best.1 then x else best)) as (d & HI & HM). exists d. case_if_in HI E; propify; split.
  - apply elem_of_cons in HI as [HI|HI]; [rewrite HI; right; left|right; by right].
  - pose proof (HM x ltac:(left)). intros y [->|[->|Hy]%elem_of_cons]%elem_of_cons; [lia|done|]. apply HM. by right.
  - apply elem_of_cons in HI as [HI|HI]; [rewrite HI; left|right; by right].
  - pose proof (HM best ltac:(left)). intros y [->|[->|Hy]%elem_of_cons]%elem_of_cons; [done|lia|]. apply HM. by right.
Qed.

Lemma find_best_match_for_names_ok candidates lookups dist :
  runs (find_best_match_for_names as_str candidates lookups dist)
    (fun r => match r with
              | Some c => exists s, s ∈ lookups /\ matched candidates dist s c /\ c ∈ candidates
                          /\ forall s' c', s' ∈ lookups -> matched candidates dist s' c' -> apart s c <= apart s' c'
              | None => forall s, s ∈ lookups -> find_best_match_for_name as_str candidates s dist = Ret None
              end).
Proof.
  unfold find_best_match_for_names. destruct (matches_of_ok candidates lookups dist) as (found & -> & HF). cbn [obind]. apply runs_ret. destruct found as [|x found].
  - intros s Hs. destruct (find_impl_runs false candidates s dist) as ([c|] & HR & _); [|done]. exfalso. eapply not_elem_of_nil, (HF (apart s c) c). by exists s.
  - destruct (min_by_distance_ok x found) as (d & HI & HM). apply HF in HI as (s & Hs & HC & ->). exists s. split_and!; [done|done| |].
    + destruct (find_impl_runs false candidates s dist) as (r & HR & HE). apply HE. unfold matched, find_best_match_for_name in HC. rewrite HR in HC. by injection HC.
    + intros s' c' Hs' HC'. apply (HM (apart s' c', c')), HF. by exists s'.
Qed.
End Total.

(** A score of one is given to a subsequence that is no substring: [ace] in [abcde]. *)
Example subsequence_scores_one : edit_distance_with_substrings [97; 99; 101] [97; 98; 99; 100; 101] 2 = Ret (Some 1).
Proof. reflexivity. Qed.

(** ** The theorems *)

(** C30: [edit_distance] is exact: every two words have a least number of insertions, deletions, substitutions and exchanges of adjacent characters that turn one into the other, nothing edited twice; this number lies between the difference and the larger of the lengths; and [edit_distance] returns it when it is within the limit and [None] when it is not, for every limit: the stripped ends, the check of the lengths, the reading of ASCII words as bytes and the stop at two rows over the limit change nothing. [edit_distance_with_substrings] returns the documented score of that number, [substring_score], under the same rule, and its subtraction does not wrap. *)
Theorem edit_distance_exact (a b : str) : exists d,
  least_cost a b d /\ len_diff a b <= d <= Z.max (Z.of_nat (length a)) (Z.of_nat (length b))
  /\ (forall limit, edit_distance a b limit = Ret (if d <=? limit then Some d else None))
  /\ forall limit, 0 <= limit -> limit + len_diff a b <= usize_max ->
     edit_distance_with_substrings a b limit = Ret (if substring_score a b d <=? limit then Some (substring_score a b d) else None).
Proof.
  destruct (least_exists a b) as [d Hd]. exists d. split_and!; [done|by apply least_length|by apply least_upper| |].
  - intros limit. by apply edit_distance_ok.
  - intros limit H0 HM. by apply edit_distance_with_substrings_ok.
Qed.

Lemma edit_distance_exact_witness : exists d,
  least_cost [99; 97; 116] [97; 99; 116; 115] d
  /\ edit_distance_with_substrings [99; 97; 116] [97; 99; 116; 115] 5
     = Ret (if substring_score [99; 97; 116] [97; 99; 116; 115] d <=? 5 then Some (substring_score [99; 97; 116] [97; 99; 116; 115] d) else None).
Proof.
  destruct (edit_distance_exact [99; 97; 116] [97; 99; 116; 115]) as (d & HL & _ & _ & HS). exists d. split; [exact HL|].
  apply HS; vm_compute; discriminate.
Defined.

(** C29: [find_best_match_index_as_if_sorted] finds in one pass the entry that the documented procedure finds: stable-sort the candidates by text, run [find_best_match_for_name] over the sorted names, and take the first sorted entry with the name it returns. Neither can panic. *)
Theorem best_match_as_if_sorted `{Uppercase} (lookup : str) (texts : list str) : Forall wf_str texts ->
  exists r, search_sorted lookup texts = Ret r /\ find_best_match_index_as_if_sorted texts lookup = Ret r.
Proof.
  intros HW. destruct (search_sorted_ok lookup texts) as (r & HE & HR). destruct (as_if_sorted_ok lookup texts) as (r' & HE' & HR').
  exists r. split; [done|]. by rewrite HE', (best_of_three_unique _ _ _ _ HW HR' HR).
Qed.

Definition ascii_only : Uppercase := fun c => [if is_ascii_lower c then c - 32 else c].
Lemma ascii_only_ok : @UppercaseOk ascii_only.
Proof. by intros c _. Qed.

Lemma best_match_as_if_sorted_witness :
  @search_sorted ascii_only [98; 97; 116] [[99; 97; 116]; [98; 97; 114]; [98; 97; 114]; [102; 111; 111]] = Ret (Some 1%nat).
Proof.
  destruct (@best_match_as_if_sorted ascii_only [98; 97; 116] [[99; 97; 116]; [98; 97; 114]; [98; 97; 114]; [102; 111; 111]]) as (r & HR & HE).
  - repeat constructor.
  - rewrite HR. vm_compute in HE. symmetry. exact HE.
Defined.
